(* ===== verification/_CoqProject ===== *)
-Q . S2P
Prelude.v
Graph.v
Syntax.v
Words.v
Memory.v
Compiler.v
Semantics.v
CompilerCorrect.v
Preservation.v
ExecGraph.v
ExecPool.v
Engine.v
Async.v
Parser.v
ParserCorrect.v
Lexer.v
LexerCorrect.v
Frontend.v
Bucket.v
Builder.v
BuilderCorrect.v
LexBuffer.v
LexBufferCorrect.v
Cache.v
Strings.v
Trie.v
TrieCorrect.v
Monitor.v
MonitorCorrect.v
Any.v
AnyCorrect.v
TaskPool.v
TaskPoolCorrect.v
Nodes.v
Batch.v
BatchCorrect.v
Dict.v
DictCorrect.v
Convert.v
Zk.v
ZkCorrect.v
Heartbeat.v
HeartbeatCorrect.v
Channels.v
Service.v
ServiceCorrect.v
App.v
FileMonitor.v
Sync.v
Hash.v
Files.v
Plugins.v
OrderedMap.v
Rpc.v
Reader.v
ReaderCorrect.v
Locks.v
LockOrder.v
LeaderLocks.v
Pools.v
Logs.v
Host.v
BuilderFiles.v
Pieces.v
MonitorSem.v
Servers.v
Detector.v
Loader.v
MonitorThreads.v
Removal.v
