(* ===== verification/Prelude.v ===== *)
(** * Verification of RTP

    RTP is a C and C++ code base of three parts.  [src/orc] is an orchestration
    engine: a small language describes workflows, a generated scanner and parser
    and a hand-written compiler turn a workflow into a control-flow graph whose
    nodes are named handlers, and worker threads walk copies of the graph, one
    per session, running handlers that may suspend the walk for a remote call.
    [src/qed] is a read-mostly database: a hash table in memory-mapped files,
    filled by a builder and read without locks.  [src/leader] is a service
    registry over ZooKeeper: servers report heartbeats, clients collect the nodes
    and hold channels to them.  [src/common] has the utilities of both, and
    [src/tools] a reader for the monitor files.

    ** The workflow language

    - [Syntax] is syntax.h and syntax.c: the tagged union, its constructors, the
      growing statement array, deletion and the debug printer.
    - [Lexer] is lexer.c: the Flex tables, [yylex] with back-up and the
      end-of-buffer actions over a buffer that holds the whole file.
      [LexerCorrect] proves it equal to the longest-match reading of workflow.l,
      for every file without NUL bytes, and that it reaches the end.
      [LexBuffer] is the other half of lexer.c: input buffers, refills that move
      and grow them, the stack of buffers.  [LexBufferCorrect] proves that the
      scanner that reads through its buffer, however the input arrives, gives the
      tokens of the scanner that has the file in memory.
    - [Parser] is parser.c: the Bison tables, [yyparse] with shift, reduce and
      error recovery, and the semantic actions.  [ParserCorrect] states the
      grammar of workflow.y as a derivation relation and proves that the automaton
      always halts, accepts exactly the derivable token sequences and builds
      their tree.
    - [Graph] is node.cc and graph.cc: nodes, edges, [CheckValid], [Traverse].
    - [Compiler] is compiler.cc: back-patching with labels, one definition per
      [Compile...] function, in a state-and-error monad whose [None] is the
      [false] of the code.
    - [Semantics] gives workflows a structured meaning ([exec_block]) with the
      handlers as a parameter, and the graph walk [gstep].  [CompilerCorrect]
      has the invariant of back-patching; [Preservation] proves that source and
      graph have the same terminating runs, that a run is never stuck, and what
      compilation does with a whole file.
    - [Frontend] is compiler.c and [Compiler::Compile]: text to graphs, and the
      round trip of the debug printer through scanner and parser.

    ** The engine

    - [ExecGraph] is handler_mgr.cc, execution_node.cc, execution_graph.cc and
      the construction part of execution_graph_mgr.cc.
    - [ExecPool] is the rest of execution_graph_mgr.cc: the shared queues, the
      caches of the threads, reloading and versions.  Threads are a step
      relation; the invariant says which graphs exist.
    - [Engine] is context.cc and workflow.cc: [Step], [RunInner], the end of a
      session.  [engine_correct] composes compiler, construction and engine for
      synchronous handlers that a workflow uses once each; [repeated_handler_never_ends]
      shows what a handler that is used twice does.
    - [Async] is rpc_handler.cc with the shared [Context]: the threads of a
      session interleaved at the reads and writes of its counter.

    - [Service] is what is around a session: workflow.cc with its set-up, the
      pool of sessions (an instance of the class [SessionFactory], against which the
      workflow is proved), routers, thread pool.  Requests, workers, remote answers
      and reloads are steps, and a thread that leaves the loop of a session for a
      remote call tests the session in a step of its own.  [ServiceCorrect] proves that
      each request is answered once as long as no reply overtakes that test (what
      happens otherwise is in [Async]), that with synchronous handlers it runs the
      workflow of its source, and when a worker gets a session.
    - [App] is application.cc, server_base.cc, server_mgr.cc and orc_mgr.cc: the
      process file, starting and stopping, the supervisor that counts the deaths
      of its servers, the stages of a server process.
    - [Servers] is src/orc/server, brpc_server_register.cc and brpc_client.cc over
      the register of [Heartbeat]: while a server waits its reporter has the
      port that it listens to, a run that returns has closed the server, the register
      and the session with ZooKeeper and leaves the status and the flag file, and the
      ways in which a run fails are characterised; a client of the same place finds it.
    - [Plugins] is src/orc/plugin: loading, index, searches; [Loader] is its part
      around the dynamic loader, which gives what [Plugins] takes of it.
    - [Rpc] is src/orc/com: the calls to a group of clients with their closures,
      the factory of clients, the registry of components.

    ** The registry

    - [Zk] is zkwrapper.h and zkwrapper.cc: handles, contexts, requests with their
      callbacks, reconnecting and closing, in a monad over a ZooKeeper client that
      is an argument with its promises.  [ZkCorrect] proves for every interleaving
      that no context is used after it was freed and that each accepted request is
      answered once.
    - [Heartbeat] is the reporter, the receiver, the register and the subscriber,
      over a ZooKeeper server that is an argument.  [HeartbeatCorrect] proves that a
      report that succeeds leaves the node with its owner, and, with [Nodes], that after
      a round of a reporter and a scan of a subscriber the subscriber picks exactly the
      nodes that are registered and not bad, as long as nothing else happens in between.
    - [Channels] is src/leader/brpc: groups of channels, their checks, the round of
      the detector of bad nodes; a subscriber gets a good channel when there is one.
      [Detector] has the check of channels as it runs, with parallel pings, calls that
      delete themselves and a waiter on its stack, and proves it equal to the check one
      by one; and the thread of the detector, which ends after a stop.
    - [LeaderLocks] has the methods of receiver, reporter, node collection and channel
      pool as programs over their locks and members, in the language of [LockOrder],
      which proves once and for all that threads that take locks in a fixed order and
      access members under their locks have no races and no deadlock.  The members that
      only [Init] writes and the threads, which one thread starts and stops, need no
      lock; [init_race] and [start_race] show that they need that one thread.
    - [Removal] interleaves the rounds of the receiver with callers that add and remove
      paths ([heartbeat_receiver.cc], [server_subscriber.cc]): a path that was removed
      has no nodes until it is added again, which the wait for the round ensures.

    ** The database

    - [Words] has machine words: integers with their width, masks, shifts.
    - [Bucket] is bucket.h: packed keys, chain links and sizes.
    - [Builder] is hashtable.h ([Find]), builder.h and builder.cc: insertion with
      chains and relocation, moving of free buckets, allocation.
      [BuilderCorrect] proves that builder and reader implement a finite map over
      any history of insertions and bucket moves in which no insertion meets a lent
      root slot or a chain of 127 buckets, that insertion is total then, and where the
      map is lost otherwise.
    - [Trie] is trie.h and trie.cc: insertion into fat nodes, their layout in one
      piece of memory, finding.  [TrieCorrect] proves that the trie of an ascending
      map of ASCII keys finds the map, for both node types, that a slim trie finds
      besides only the beginnings of keys, with value 0, and shows the keys that a
      strong trie finds though they were never inserted.
    - [Batch] is the vector lookup [BatchFind] of hashtable.h over registers of
      eight lanes.  [BatchCorrect] follows each lane: completed by [Find] the
      lookup agrees with [Find] when it is shallow, or when the keys have high bits and
      both tables are mapped; otherwise it finds what is not there, or faults.
    - [Dict] is qed.h and qed.cc with the files that a builder leaves: loading a
      directory, finding groups and features.  [DictCorrect] composes builder,
      files, trie and reader: what was built is found.
    - [Convert] is converter.cc: the vector loops over arrays of embeddings.
    - [Files] is mmap.cc and mem_block.cc: the two classes are instances of
      [MemoryFile], and sessions on files, proved from its promises, leave the bytes
      that were stored, which opening to read finds.
    - [Hash] is murmurhash.h and hash.h: the hash reads its key only and tells keys
      apart that differ in one word.
    - [BuilderFiles] is the rest of builder.cc and builder.h: opening and closing the
      tables of a builder on [Files], and the builder of blocks, whose threads get
      disjoint blocks under every interleaving of their compare-and-swap loops.

    ** Utilities

    - [Memory] has pieces of memory as lists of bytes, with loads and stores that
      fail outside of them.
    - [Strings] is string_piece, str_util and string_utils: searching, splitting,
      trimming, integers in decimal.  [Pieces] has the other members and operators
      of string pieces and the conversions of floating-point numbers.
    - [Locks] is lock.h: read-write locks of both modes with their waiting writers,
      and the scoped locks.
    - [Pools] is object_pool.h, thread_local.h, scope_guard.h, singleton.h and the
      pool of string streams, with the objects that they own: none is deleted
      twice or lost, and when one is.
    - [Logs] is the two logging libraries, with their buffers, and the exceptions.
    - [Host] has small utilities: random numbers, strings of numbers, the addresses
      of the host, the tool that reverses a file, configuration by protocol buffers.
    - [Cache] is local_cache.h; it refines a least-recently-used list with expiry.
    - [Monitor] is src/common/monitor: the list of counters in shared memory, the
      caches of the processes, the updaters.  [MonitorCorrect] proves that any
      history of several processes counts: the bytes of the file are a map.
      [MonitorSem] is its semaphore between processes: one process at a time is
      inside, unless two initialise it at the same time.  [MonitorThreads] has the
      lookups of the threads of a process, which search a ring of caches without a
      lock: safe as long as no search lasts while nine names are added.
    - [Any] is any.h with heap and object lifetimes; [AnyCorrect] proves by
      ownership that programs on [any] variables are programs on optional values, for
      types whose objects do not hold their own address.
    - [TaskPool] is the thread pool of src/orc/util.  [BoundedQueue] is what the
      pool needs of its queues; the ring buffer implements it.  [TaskPoolCorrect]
      proves against the interface that no task is lost and that the destructor of
      a pool with one queue comes to its end under every order of turns.
    - [Sync] is the queue, the waiter, the thread pool and the checker of src/common,
      with condition variables whose notifications may come at any time: no thread
      is left behind by the queue, the pool runs every task and never ends; and the
      notifications that are lost.
    - [FileMonitor] is file_monitor.cc over a kernel that is an argument, with events
      that have no name or come late and with directories that are deleted and made
      again: the events in its buffer call exactly the observers of a plain list of
      files, nobody for a directory whose watch was dropped.
    - [OrderedMap] has [std::map] in the order of its keys.
    - [Reader] is the reader of monitor files in src/tools: options, tables, and a
      JSON output that reads back.  [ReaderCorrect] composes it with [Monitor]: what
      processes count is what is reported.
    - [Nodes] is the node collection of src/leader with the round of its bad node
      detector; it refines the lists of the last heartbeats and picks in turn.

    ** Fuel

    A loop of the code that is not structural has a fuel argument, and a theorem
    that gives the amount that is enough: the scanner one unit per byte and one
    more, the parser a bound linear in its input, [CheckNode] one per node and
    one more, [BuildNode] one per node and one more, [bucket_type_loop] one per
    bucket type, the loops over monitor entries one per byte of the file and one
    more, the refilling scanner one unit per byte of the file and one more, the
    loop of [BatchFind] one per bucket of the longest chain and one more, which is
    128, the loop over the events of a file monitor one per byte of its buffer, the
    second hash function one per byte of the key.  The walk of the plugin manager
    through directories has a fuel that is enough for every tree that has an end.
    [RunInner] may run for ever because workflows may: its theorems are about
    every terminating run of the source, in both directions.

    ** What is not modelled

    Memory allocation succeeds, except where [Files] says otherwise.  Sockets,
    detaching from the terminal and the time that reporter and receiver sleep
    between their rounds are outside.  Code that is not in the repository is an argument of the definitions,
    with what it promises where a theorem needs it: the ZooKeeper client and server,
    brpc, the YAML library, the dynamic loader, inotify and the file system, boost's
    formats, and the handlers that users write.  The insertions of a builder are those
    of one worker: its compare-and-swap meets the value that is in the cell.  [BatchFind] is the code
    for AVX512F alone, as the build sets it up.  [Dict] reads files that can be
    opened and are not empty.  In [Monitor] a
    lookup is atomic, by its semaphore.  The kernel of
    a file monitor does not overflow its queue, and no watched directory is renamed.  The
    steps of [Removal], [LeaderLocks] and [Service] are those that their headers name.

    ** Plan

    Left are the parts of the generated scanner and parser that the grammar never
    reaches, with their debugging output, and the insertion of several workers into
    one builder.

    This file holds the monad, the notations, the tactics and the generic lemmas
    that the components share. *)
From Stdlib Require Import ZArith Lia.
From stdpp Require Export base gmap sets list strings relations numbers.

(** ** A state-and-error monad

    The C++ code threads a mutable state through functions that return [false]
    on failure.  [ST S A] is that discipline: [None] is the [false] return. *)
Definition ST (S A : Type) : Type := S -> option (A * S).

Definition st_ret {S A} (a : A) : ST S A := fun s => Some (a, s).
Definition st_bind {S A B} (m : ST S A) (k : A -> ST S B) : ST S B :=
  fun s => match m s with Some (a, s') => k a s' | None => None end.
Definition st_fail {S A} : ST S A := fun _ => None.
Definition st_get {S} : ST S S := fun s => Some (s, s).
Definition st_put {S} (s : S) : ST S unit := fun _ => Some (tt, s).
Definition st_modify {S} (f : S -> S) : ST S unit := fun s => Some (tt, f s).

Declare Scope st_scope.
Delimit Scope st_scope with st.
Notation "x <-- m ;;; k" := (st_bind m (fun x => k))
  (at level 60, m at next level, right associativity) : st_scope.
Notation "m ;;; k" := (st_bind m (fun _ => k))
  (at level 60, right associativity) : st_scope.

Lemma st_bind_Some {S A B} (m : ST S A) (k : A -> ST S B) s r :
  st_bind m k s = Some r ->
  exists a s', m s = Some (a, s') /\ k a s' = Some r.
Proof.
  unfold st_bind; destruct (m s) as [[a s']|] eqn:E; intros H; [|discriminate].
  exists a, s'; split; [reflexivity | exact H].
Qed.

(** ** The bytes of a string *)

Fixpoint bytes_of (s : string) : list Z :=
  match s with EmptyString => [] | String a s => Z.of_N (Ascii.N_of_ascii a) :: bytes_of s end.

(** ** Tactics of the development *)

(** Decompose every successful run of a monadic computation in the context. *)
Ltac st_inv :=
  repeat match goal with
  | H : st_bind ?m ?k ?s = Some ?r |- _ =>
      let a := fresh "a" in let s' := fresh "s" in
      let H1 := fresh "Hm" in let H2 := fresh "Hk" in
      apply st_bind_Some in H; destruct H as (a & s' & H1 & H2)
  | H : st_ret _ _ = Some (_, _) |- _ => injection H as <- <-
  | H : st_get _ = Some (_, _) |- _ => injection H as <- <-
  | H : st_put _ _ = Some (_, _) |- _ => injection H as _ <-
  | H : st_modify _ _ = Some (_, _) |- _ => injection H as _ <-
  | H : st_fail _ = Some _ |- _ => discriminate H
  end.

(** ** Lists and finite sets *)

(** The set of the indices of a list, as a finite set of naturals. *)
Definition indices {A} (l : list A) : gset nat := list_to_set (seq 0 (length l)).

Lemma elem_of_indices {A} (l : list A) i : i ∈ indices l <-> (i < length l)%nat.
Proof. unfold indices; rewrite elem_of_list_to_set, elem_of_seq; lia. Qed.

Lemma size_indices {A} (l : list A) : size (indices l) = length l.
Proof.
  unfold indices; rewrite size_list_to_set; [apply length_seq | apply NoDup_seq].
Qed.

(** A subset of the same size is the whole set. *)
Lemma subseteq_size_eq (X Y : gset nat) : X ⊆ Y -> size X = size Y -> X = Y.
Proof. intros HX Hs; apply leibniz_equiv, set_subseteq_size_equiv; [exact HX | lia]. Qed.
