(* ===== verification/Graph.v ===== *)
(** * Workflow graphs: src/orc/workflow/node.{h,cc}, src/orc/workflow/graph.{h,cc}

    The control-flow graph the workflow compiler produces: nodes named by the
    handler they run, with a true and a false edge, a distinguished end node,
    and the validity check that gates every compiled workflow. *)
From Stdlib Require Import ZArith Lia.
From stdpp Require Import base gmap sets list strings relations.
From S2P Require Import Prelude.

(** ** Pointers and nodes *)

(** A [Node*]: null, the static end node, or the [i]-th node that the graph
    allocated. *)
Inductive ptr : Type :=
| PNull
| PEnd
| PNode (i : nat).

#[export] Instance ptr_eq_dec : EqDecision ptr.
Proof. solve_decision. Defined.

(** [class Node]. *)
Record Node : Type := mkNode {
  name : string;
  true_edge : ptr;
  false_edge : ptr;
}.

Definition new_Node (n : string) : Node := mkNode n PNull PNull.

Definition set_true_edge (p : ptr) (nd : Node) : Node :=
  mkNode (name nd) p (false_edge nd).

Definition set_false_edge (p : ptr) (nd : Node) : Node :=
  mkNode (name nd) (true_edge nd) p.

(** [Node::EndNode()]: a static node called "end_node" whose edges stay null. *)
Definition EndNode : Node := new_Node "end_node".

(** [class Graph]; the [std::set] of owned nodes is the list of the nodes in
    allocation order. *)
Record Graph : Type := mkGraph {
  g_name : string;
  entry : ptr;
  nodes : list Node;
}.

Definition new_Graph (n : string) : Graph := mkGraph n PNull [].

Definition set_entry (p : ptr) (g : Graph) : Graph := mkGraph (g_name g) p (nodes g).

(** [AddNode] gives the graph ownership of a new node; its address is the next
    index. *)
Definition AddNode (nd : Node) (ns : list Node) : list Node := ns ++ [nd].

(** Dereferencing a [Node*]; [None] is a null dereference. *)
Definition deref (ns : list Node) (p : ptr) : option Node :=
  match p with
  | PNull => None
  | PEnd => Some EndNode
  | PNode i => ns !! i
  end.

(** ** Validity check *)

(** The set of checked nodes holds the indices of [Node*] values; the end node
    is never entered. *)
Definition ptr_in (p : ptr) (c : gset nat) : bool :=
  match p with PNode i => bool_decide (i ∈ c) | _ => false end.
Definition ptr_add (p : ptr) (c : gset nat) : gset nat :=
  match p with PNode i => {[ i ]} ∪ c | _ => c end.

(** [Graph::CheckNode].  The result is [None] when the fuel runs out or a null
    pointer is dereferenced; [CheckNode_total] shows neither happens. *)
Fixpoint CheckNode (fuel : nat) (ns : list Node) (p : ptr) (checked : gset nat)
  : option (bool * gset nat) :=
  match fuel with
  | O => None
  | S fuel =>
    match deref ns p with
    | None => None
    | Some nd =>
      if bool_decide (true_edge nd = PNull) || bool_decide (false_edge nd = PNull)
      then Some (false, checked)
      else if ptr_in p checked then Some (true, checked)
      else
        let checked := ptr_add p checked in
        match (if bool_decide (true_edge nd = PEnd) then Some (true, checked)
               else CheckNode fuel ns (true_edge nd) checked) with
        | None => None
        | Some (false, checked) => Some (false, checked)
        | Some (true, checked) =>
          match (if bool_decide (false_edge nd = PEnd) then Some (true, checked)
                 else CheckNode fuel ns (false_edge nd) checked) with
          | None => None
          | Some (false, checked) => Some (false, checked)
          | Some (true, checked) => Some (true, checked)
          end
        end
    end
  end.

(** [Graph::CheckEntry]: the entry is one of the graph's own nodes. *)
Definition CheckEntry (g : Graph) : bool :=
  match entry g with PNode i => bool_decide (i < length (nodes g)) | _ => false end.

(** Every call of [CheckNode] that recurses adds a node to the checked set, so
    one unit of fuel per node and one more are enough. *)
Definition check_fuel (ns : list Node) : nat := S (length ns).

(** [Graph::CheckValid]. *)
Definition CheckValid (g : Graph) : option bool :=
  if bool_decide (entry g = PNull) then Some (bool_decide (nodes g = []))
  else match CheckNode (check_fuel (nodes g)) (nodes g) (entry g) ∅ with
       | None => None
       | Some (false, _) => Some false
       | Some (true, checked) =>
         if bool_decide (size checked ≠ length (nodes g)) then Some false
         else Some (CheckEntry g)
       end.

(** ** Traversal *)

(** [Graph::TraverseNode] with the visitor [f] accumulating into [A]; the
    checked set is a [std::set<Node*>].  Null edges are dereferenced by the
    code, so an invalid graph gives [None]. *)
Fixpoint TraverseNode {A} (f : Node -> A -> A) (fuel : nat) (ns : list Node)
    (p : ptr) (checked : gset nat) (acc : A) : option (gset nat * A) :=
  match fuel with
  | O => None
  | S fuel =>
    if ptr_in p checked then Some (checked, acc)
    else
      match deref ns p with
      | None => None
      | Some nd =>
        let checked := ptr_add p checked in
        let acc := f nd acc in
        match (if bool_decide (true_edge nd = PEnd) then Some (checked, acc)
               else TraverseNode f fuel ns (true_edge nd) checked acc) with
        | None => None
        | Some (checked, acc) =>
          if bool_decide (false_edge nd = PEnd) then Some (checked, acc)
          else TraverseNode f fuel ns (false_edge nd) checked acc
        end
      end
  end.

Definition Traverse {A} (f : Node -> A -> A) (g : Graph) (acc : A) : option A :=
  snd <$> TraverseNode f (check_fuel (nodes g)) (nodes g) (entry g) ∅ acc.

Definition newline : string := String (Ascii.ascii_of_nat 10) "".

(** The visitor of [Graph::DebugString]: two lines per node.  It calls [name()]
    through both edges, so a null edge is a null dereference. *)
Definition debug_node (ns : list Node) (nd : Node) (out : option string) : option string :=
  match out, deref ns (true_edge nd), deref ns (false_edge nd) with
  | Some out, Some t, Some f =>
      Some (out ++ name nd ++ "  T  " ++ name t ++ newline
                ++ name nd ++ "  F  " ++ name f ++ newline)%string
  | _, _, _ => None
  end.

(** [Graph::DebugString]. *)
Definition DebugString (g : Graph) : option string :=
  match Traverse (debug_node (nodes g)) g (Some ""%string) with
  | Some out => out
  | None => None
  end.

(** ** Well-formedness and reachability *)

(** An edge of a graph with [n] nodes is null, the end node or an own node. *)
Definition edge_ok (n : nat) (p : ptr) : Prop :=
  match p with PNode i => (i < n)%nat | _ => True end.

Definition wf_nodes (ns : list Node) : Prop :=
  forall i nd, ns !! i = Some nd ->
    edge_ok (length ns) (true_edge nd) /\ edge_ok (length ns) (false_edge nd).

Definition wf_graph (g : Graph) : Prop :=
  wf_nodes (nodes g) /\ edge_ok (length (nodes g)) (entry g).

(** Node [i] has an edge to node [j]. *)
Definition gedge (ns : list Node) (i j : nat) : Prop :=
  exists nd, ns !! i = Some nd /\ (true_edge nd = PNode j \/ false_edge nd = PNode j).

(** Both edges of a node are set. *)
Definition edges_set (nd : Node) : Prop := true_edge nd <> PNull /\ false_edge nd <> PNull.

(** What a valid graph is: empty with no entry, or every node is reachable from
    the entry and has both edges set. *)
Definition valid_graph (g : Graph) : Prop :=
  (entry g = PNull /\ nodes g = []) \/
  exists e, entry g = PNode e /\ (e < length (nodes g))%nat /\
    (forall i, (i < length (nodes g))%nat -> rtc (gedge (nodes g)) e i) /\
    (forall i nd, nodes g !! i = Some nd -> edges_set nd).

(** ** The depth-first check *)

Section Check.
Context (ns : list Node) (Hwf : wf_nodes ns).

(** What a successful visit of [p] from the checked set [c] gives. *)
Definition visited (p : ptr) (c c' : gset nat) : Prop :=
  c ⊆ c' /\ c' ⊆ c ∪ indices ns /\
  (forall i, p = PNode i -> i ∈ c') /\
  (forall j, j ∈ c' -> j ∈ c \/
     exists nd, ns !! j = Some nd /\ edges_set nd /\
       (exists i, p = PNode i /\ rtc (gedge ns) i j) /\
       (forall k, gedge ns j k -> k ∈ c')).

Lemma visited_End c : visited PEnd c c.
Proof. repeat split; try set_solver; intros; discriminate. Qed.

(** A visit of both edges of a node makes a visit of the node. *)
Lemma visited_node i nd c c1 c2 :
  ns !! i = Some nd -> edges_set nd ->
  visited (true_edge nd) ({[i]} ∪ c) c1 -> visited (false_edge nd) c1 c2 ->
  visited (PNode i) c c2.
Proof.
  intros Hi Hs (H1a & H1b & H1c & H1d) (H2a & H2b & H2c & H2d).
  assert (Hin : (i < length ns)%nat) by (eapply lookup_lt_Some; eauto).
  assert (Hii : i ∈ indices ns) by (apply elem_of_indices; exact Hin).
  assert (Hsub : {[i]} ∪ c ⊆ c2) by (etransitivity; eassumption).
  assert (Hi2 : i ∈ c2) by (apply Hsub; set_solver +).
  repeat split; [clear -Hsub; set_solver | clear -H1b H2b Hii; set_solver
                | intros ? [= ->]; exact Hi2 |].
  intros j Hj. destruct (H2d j Hj) as [Hj1 | (nd' & ? & ? & (k & Ek & Hr) & Hc)].
  - destruct (H1d j Hj1) as [Hj0 | (nd' & ? & ? & (k & Ek & Hr) & Hc)].
    + apply elem_of_union in Hj0 as [Hj0 | Hj0]; [|left; exact Hj0].
      apply elem_of_singleton in Hj0 as ->. right. exists nd.
      repeat split; [exact Hi | apply Hs | apply Hs | exists i; split; [done | apply rtc_refl] |].
      intros k (nd0 & Hk & [E | E]); rewrite Hi in Hk; injection Hk as <-.
      * apply H2a, H1c; exact E.
      * apply H2c; exact E.
    + right; exists nd'; repeat split; try apply H0; try done.
      * exists i; split; [done|]. eapply rtc_l; [|exact Hr]. exists nd; auto.
      * intros m Hm; apply H2a, Hc, Hm.
  - right; exists nd'; repeat split; try apply H0; try done.
    exists i; split; [done|]. eapply rtc_l; [|exact Hr]. exists nd; auto.
Qed.

Lemma visited_again i c : i ∈ c -> visited (PNode i) c c.
Proof. intros Hi; repeat split; set_solver. Qed.

(** A failed visit reaches a node with a null edge. *)
Definition fails (p : ptr) : Prop :=
  exists i j nd, p = PNode i /\ rtc (gedge ns) i j /\ ns !! j = Some nd /\ ~ edges_set nd.

(** The outcome of [CheckNode]: it always returns, [true] on a complete visit
    and [false] when a node with a null edge is reachable. *)
Lemma CheckNode_outcome fuel i c :
  (i < length ns)%nat -> c ⊆ indices ns -> (length ns - size c < fuel)%nat ->
  (exists c', CheckNode fuel ns (PNode i) c = Some (true, c') /\ visited (PNode i) c c') \/
  (exists c', CheckNode fuel ns (PNode i) c = Some (false, c') /\ fails (PNode i)).
Proof.
  revert i c; induction fuel as [|fuel IH]; intros i c Hi Hc Hf; [lia|].
  destruct (lookup_lt_is_Some_2 ns i Hi) as [nd Hnd].
  cbn [CheckNode deref]. rewrite Hnd.
  destruct (decide (edges_set nd)) as [Hs | Hs].
  2:{ right; exists c; split.
      - unfold edges_set in Hs; repeat case_bool_decide; cbn; tauto.
      - exists i, i, nd; repeat split; [apply rtc_refl | exact Hnd | exact Hs]. }
  rewrite !bool_decide_eq_false_2 by (apply Hs); cbn [orb ptr_in].
  case_bool_decide as Hin.
  { left; exists c; split; [done | apply visited_again; exact Hin]. }
  cbn [ptr_add]. destruct (Hwf i nd Hnd) as [Wt Wf].
  assert (Hsz : size ({[i]} ∪ c) = S (size c)).
  { rewrite size_union by set_solver. rewrite size_singleton. reflexivity. }
  assert (Hc1 : {[i]} ∪ c ⊆ indices ns).
  { apply union_subseteq; split; [|exact Hc]. apply singleton_subseteq_l, elem_of_indices, Hi. }
  assert (Hle : (size ({[i]} ∪ c) <= length ns)%nat).
  { rewrite <- size_indices; apply subseteq_size, Hc1. }
  assert (step : forall p c0, edge_ok (length ns) p -> p <> PNull ->
    {[i]} ∪ c ⊆ c0 -> c0 ⊆ indices ns ->
    (exists c', (if bool_decide (p = PEnd) then Some (true, c0)
                 else CheckNode fuel ns p c0) = Some (true, c') /\ visited p c0 c') \/
    (exists c', (if bool_decide (p = PEnd) then Some (true, c0)
                 else CheckNode fuel ns p c0) = Some (false, c') /\ fails p)).
  { intros p c0 Hok Hnn Hsub Hc0; case_bool_decide as He.
    - left; exists c0; subst p; split; [done | apply visited_End].
    - destruct p as [| | k]; try congruence. apply IH; [exact Hok | exact Hc0 |].
      apply subseteq_size in Hsub. lia. }
  destruct (step (true_edge nd) ({[i]} ∪ c) Wt (proj1 Hs)) as [(c1 & -> & V1) | (c1 & -> & (k & j & nd' & Ek & Hr & Hj & Hn))];
    [reflexivity | exact Hc1 | |].
  2:{ right; exists c1; split; [done|]. exists i, j, nd'; repeat split; try done.
      eapply rtc_l; [|exact Hr]. exists nd; auto. }
  destruct V1 as (V1a & V1b & V1r).
  destruct (step (false_edge nd) c1 Wf (proj2 Hs)) as [(c2 & -> & V2) | (c2 & -> & (k & j & nd' & Ek & Hr & Hj & Hn))];
    [exact V1a | set_solver | |].
  - left; exists c2; split; [done|]. eapply visited_node; eauto. repeat split; try done; apply V1r.
  - right; exists c2; split; [done|]. exists i, j, nd'; repeat split; try done.
    eapply rtc_l; [|exact Hr]. exists nd; auto.
Qed.
End Check.

(** On a well-formed graph whose entry is a node, [CheckValid] returns. *)
Lemma CheckValid_total g : wf_graph g -> is_Some (CheckValid g).
Proof.
  intros [Hwf He]; unfold CheckValid. case_bool_decide; [eauto|].
  destruct (entry g) as [| | e]; [done | cbn; eauto |].
  destruct (CheckNode_outcome _ Hwf (check_fuel (nodes g)) e ∅)
    as [(c' & -> & _) | (c' & -> & _)]; [exact He | set_solver | unfold check_fuel; lia | |]; [|eauto].
  case_bool_decide; eauto.
Qed.

(** A set that contains the entry and is closed under edges contains every
    reachable node. *)
Lemma closed_reach ns (c : gset nat) i j :
  (forall k m, k ∈ c -> gedge ns k m -> m ∈ c) -> i ∈ c -> rtc (gedge ns) i j -> j ∈ c.
Proof. intros Hc Hi Hr; induction Hr; eauto. Qed.

(** The check decides validity. *)
Lemma CheckValid_decides g : wf_graph g -> CheckValid g = Some true <-> valid_graph g.
Proof.
  intros [Hwf He]. unfold CheckValid, valid_graph. case_bool_decide as Hn.
  { split.
    - intros [= H%bool_decide_eq_true_1]; auto.
    - intros [[_ H] | (e & ? & _)]; [by rewrite bool_decide_eq_true_2 | congruence]. }
  destruct (entry g) as [| | e] eqn:Ee; [done | |].
  { cbn; split; [discriminate | intros [[? _] | (e & ? & _)]; discriminate]. }
  destruct (CheckNode_outcome _ Hwf (check_fuel (nodes g)) e ∅)
    as [(c' & -> & (_ & Hc1 & Hc2 & Hc3)) | (c' & -> & (i & j & nd & [= ->] & Hr & Hj & Hs))];
    [exact He | set_solver | unfold check_fuel; lia | |].
  2:{ split; [discriminate|]. intros [[? _] | (e & [= ->] & _ & _ & H)]; [discriminate|].
      destruct Hs; eauto. }
  rewrite union_empty_l_L in Hc1. unfold CheckEntry; rewrite Ee.
  assert (Hin : forall j, j ∈ c' -> exists nd, nodes g !! j = Some nd /\ edges_set nd /\
            rtc (gedge (nodes g)) e j /\ forall k, gedge (nodes g) j k -> k ∈ c').
  { intros j Hj. destruct (Hc3 j Hj) as [? | (nd & ? & ? & (i & [= <-] & ?) & ?)];
      [set_solver | exists nd; auto]. }
  case_bool_decide as Hsz.
  - split; [discriminate|]. intros [[? _] | (e' & [= <-] & _ & Hr & _)]; [done|].
    destruct Hsz. rewrite <- size_indices. f_equal. apply leibniz_equiv; intros i; split; [apply Hc1|].
    intros Hi%elem_of_indices. eapply closed_reach; [|apply (Hc2 e eq_refl) | apply Hr, Hi].
    intros k m Hk Hkm. destruct (Hin k Hk) as (_ & _ & _ & _ & H); auto.
  - split; [|intros _; by rewrite bool_decide_eq_true_2].
    intros _. right; exists e. rewrite <- size_indices in Hsz.
    apply subseteq_size_eq in Hsz; [|exact Hc1].
    split; [done|]; split; [exact He|]; split; intros i;
      [intros Hi | intros nd H; assert (Hi := lookup_lt_Some _ _ _ H)];
      apply elem_of_indices in Hi; rewrite <- Hsz in Hi;
      destruct (Hin i Hi) as (nd' & Hnd & Hs & Hr & _); [exact Hr |]; congruence.
Qed.

(** C10: [CheckValid] always returns on a well-formed graph (the depth-first
    search needs no more fuel than nodes), and it answers [true] exactly on the
    valid graphs: no entry and no node, or an own entry node from which every
    owned node is reachable, all of them with both edges set. *)
Theorem CheckValid_correct g :
  wf_graph g ->
  exists b, CheckValid g = Some b /\ (b = true <-> valid_graph g).
Proof.
  intros Hw. destruct (CheckValid_total g Hw) as [b Hb]. exists b. split; [done|].
  rewrite <- (CheckValid_decides g Hw), Hb. split; [by intros -> | by intros [= ->]].
Qed.

Definition loop_graph : Graph :=
  mkGraph "w" (PNode 0) [mkNode "A" (PNode 1) PEnd; mkNode "B" (PNode 0) (PNode 0)].

Lemma CheckValid_correct_witness :
  exists b, CheckValid loop_graph = Some b /\ (b = true <-> valid_graph loop_graph).
Proof.
  apply (CheckValid_correct loop_graph). split; [|cbn; lia].
  intros [|[|i]] nd [= <-]; cbn; lia.
Defined.
