(* ===== verification/Syntax.v ===== *)
(** * The workflow syntax tree: src/orc/workflow/parser/syntax.{h,c}

    The tagged union [struct workflow_syntax], its constructors and its debug
    printer.  Memory allocation is taken to succeed. *)
From Stdlib Require Import ZArith Lia.
From stdpp Require Import base list strings.
From S2P Require Import Prelude.

(** [enum { WORKFLOW_SYNTAX_OPKIND_NOT }]. *)
Definition OPKIND_NOT : Z := 0.

(** [struct workflow_syntax]: one constructor per value of [kind], carrying the
    member of the union that the kind selects. *)
Inductive workflow_syntax : Type :=
| EMPTY_STMT
| NAME (str : string)
| WORKFLOW (name block : workflow_syntax)
| STMT_LIST (child : list workflow_syntax)
| IF_STMT (condition then_block else_block : workflow_syntax)
| WHILE_STMT (condition block : workflow_syntax)
| DOWHILE_STMT (block condition : workflow_syntax)
| RETURN_STMT
| UNOP_EXP (opkind : Z) (exp : workflow_syntax).

(** Induction over syntax trees that goes through the statement lists. *)
Section Induction.
Context (P : workflow_syntax -> Prop).
Context (HE : P EMPTY_STMT) (HN : forall n, P (NAME n)).
Context (HW : forall n b, P n -> P b -> P (WORKFLOW n b)).
Context (HL : forall l, Forall P l -> P (STMT_LIST l)).
Context (HI : forall c t e, P c -> P t -> P e -> P (IF_STMT c t e)).
Context (HWh : forall c b, P c -> P b -> P (WHILE_STMT c b)).
Context (HD : forall b c, P b -> P c -> P (DOWHILE_STMT b c)).
Context (HR : P RETURN_STMT) (HU : forall o e, P e -> P (UNOP_EXP o e)).

Fixpoint syntax_ind (s : workflow_syntax) : P s :=
  match s with
  | EMPTY_STMT => HE
  | NAME n => HN n
  | WORKFLOW n b => HW n b (syntax_ind n) (syntax_ind b)
  | STMT_LIST l =>
      HL l ((fix go (l : list workflow_syntax) : Forall P l :=
               match l with
               | [] => Forall_nil P
               | s :: l => Forall_cons P s l (syntax_ind s) (go l)
               end) l)
  | IF_STMT c t e => HI c t e (syntax_ind c) (syntax_ind t) (syntax_ind e)
  | WHILE_STMT c b => HWh c b (syntax_ind c) (syntax_ind b)
  | DOWHILE_STMT b c => HD b c (syntax_ind b) (syntax_ind c)
  | RETURN_STMT => HR
  | UNOP_EXP o e => HU o e (syntax_ind e)
  end.
End Induction.

Definition is_return (s : workflow_syntax) : bool :=
  match s with RETURN_STMT => true | _ => false end.

(** ** Constructors *)

(** [workflow_syntax_new_*]; [new_unop_exp] ignores its operator argument, as
    the code does, and [new_name_stmt] copies the string. *)
Definition new_workflow (name block : workflow_syntax) : workflow_syntax := WORKFLOW name block.
Definition new_stmt_list : workflow_syntax := STMT_LIST [].
Definition new_empty_stmt : workflow_syntax := EMPTY_STMT.
Definition new_if_stmt (condition then_block else_block : workflow_syntax) : workflow_syntax :=
  IF_STMT condition then_block else_block.
Definition new_while_stmt (condition block : workflow_syntax) : workflow_syntax :=
  WHILE_STMT condition block.
Definition new_dowhile_stmt (block condition : workflow_syntax) : workflow_syntax :=
  DOWHILE_STMT block condition.
Definition new_return_stmt : workflow_syntax := RETURN_STMT.
Definition new_unop_exp (opkind : Z) (exp : workflow_syntax) : workflow_syntax :=
  UNOP_EXP OPKIND_NOT exp.
Definition new_name_stmt (name : string) : workflow_syntax := NAME name.

(** [workflow_syntax_add_stmt] on the abstract list. *)
Definition add_stmt (self stmt : workflow_syntax) : workflow_syntax :=
  match self with STMT_LIST l => STMT_LIST (l ++ [stmt]) | s => s end.

(** ** The growing array behind a statement list *)

Section Array.
Context {A : Type}.

(** The members of [u.stmt_list]; [child] is null before the first statement,
    then the cells of the allocation, a cell being [None] before it is
    written. *)
Record stmt_list : Type := mkStmtList {
  child_ : option (list (option A));
  capacity : Z;
  size_ : Z;
}.

Definition empty_list : stmt_list := mkStmtList None 0 0.

(** [realloc] to [n] cells: the cells up to the smaller size are kept. *)
Definition realloc (n : Z) (cells : list (option A)) : list (option A) :=
  let n := Z.to_nat n in take n cells ++ replicate (n - length cells) None.

(** [workflow_syntax_add_stmt]; [None] is a write outside the allocation.  The
    byte count is an [int]. *)
Definition array_add (self : stmt_list) (stmt : A) : option stmt_list :=
  let '(cells, cap) :=
    match child_ self with
    | None => (replicate 10 None, 10%Z)
    | Some cells => (cells, capacity self)
    end in
  let '(cells, cap) :=
    if (cap <=? size_ self)%Z then
      let cap := (2 * cap)%Z in
      let new_raw_size := ((cap * 8 + 2 ^ 31) mod 2 ^ 32 - 2 ^ 31)%Z in
      (realloc (new_raw_size / 8) cells, cap)
    else (cells, cap) in
  let i := Z.to_nat (size_ self) in
  match cells !! i with
  | None => None
  | Some _ => Some (mkStmtList (Some (<[i := Some stmt]> cells)) cap (size_ self + 1))
  end.

(** The array represents a list: its cells are as many as its capacity and
    the first ones hold the elements. *)
Definition array_rep (self : stmt_list) (l : list A) : Prop :=
  size_ self = Z.of_nat (length l) /\
  match child_ self with
  | None => l = []
  | Some cells => Z.of_nat (length cells) = capacity self /\ (10 <= capacity self)%Z /\
      (length l <= length cells)%nat /\ take (length l) cells = Some <$> l
  end.

(** The room the array has left stays representable as a byte count. *)
Definition array_small (self : stmt_list) : Prop := (2 * size_ self * 8 < 2 ^ 31)%Z.

Lemma realloc_length n cells : (Z.of_nat (length cells) <= n)%Z -> length (realloc n cells) = Z.to_nat n.
Proof. intros Hn. unfold realloc. rewrite length_app, length_take, length_replicate. lia. Qed.

Lemma realloc_take n k cells : (k <= length cells)%nat -> (Z.of_nat (length cells) <= n)%Z ->
  take k (realloc n cells) = take k cells.
Proof.
  intros Hk Hn. unfold realloc. rewrite (take_ge cells) by lia. by rewrite take_app_le.
Qed.

(** Writing the next cell appends. *)
Lemma write_append (l : list A) cells a :
  (length l < length cells)%nat -> take (length l) cells = Some <$> l ->
  take (length (l ++ [a])) (<[length l := Some a]> cells) = Some <$> (l ++ [a]).
Proof.
  intros Hlt Ht. rewrite fmap_app, <- Ht, length_app. cbn.
  rewrite insert_take_drop by done.
  rewrite take_app_ge by (rewrite length_take; lia).
  f_equal; rewrite length_take; replace (length l + 1 - length l `min` length cells)%nat with 1%nat by lia.
  reflexivity.
Qed.
End Array.
Arguments stmt_list : clear implicits.

(** The growing array implements appending.  From any representation of a
    list [l], adding an element never writes outside the allocation and gives a
    representation of [l ++ [a]], as long as the doubled byte count fits an
    [int]. *)
Lemma array_add_appends {A} (self : stmt_list A) l a :
  array_rep self l -> array_small self ->
  exists self', array_add self a = Some self' /\ array_rep self' (l ++ [a]).
Proof.
  intros (Hs & Hc) Hsm. unfold array_add, array_small, array_rep in *.
  assert (Hmain : forall cells cap, Z.of_nat (length cells) = cap -> (10 <= cap)%Z ->
    (length l < length cells)%nat -> take (length l) cells = Some <$> l ->
    exists self', match cells !! Z.to_nat (size_ self) with
      | None => None
      | Some _ => Some (mkStmtList (Some (<[Z.to_nat (size_ self) := Some a]> cells)) cap (size_ self + 1))
      end = Some self' /\ array_rep self' (l ++ [a])).
  { intros cells cap Hcap H10 Hlt Ht. rewrite Hs, Nat2Z.id.
    destruct (lookup_lt_is_Some_2 cells (length l) Hlt) as [x ->].
    eexists. split; [reflexivity|]. split; cbn; [rewrite length_app; cbn; lia|].
    rewrite length_insert. split_and!; [done.. | rewrite length_app; cbn; lia | by apply write_append]. }
  destruct (child_ self) as [cells|].
  - destruct Hc as (Hcap & H10 & Hle & Ht).
    destruct (Z.leb_spec (capacity self) (size_ self)).
    + rewrite Z.mod_small by lia. replace ((2 * capacity self * 8 + 2 ^ 31 - 2 ^ 31) / 8)%Z with (2 * capacity self)%Z
        by (rewrite Z.add_simpl_r, Z.div_mul; lia).
      apply Hmain; [rewrite realloc_length; lia | lia | rewrite realloc_length; lia |].
      by rewrite realloc_take by lia.
    + apply Hmain; [done.. | lia | done].
  - subst l. destruct (Z.leb_spec 10 (size_ self)); [cbn in Hs; lia|].
    apply (Hmain (replicate 10 None) 10%Z); cbn; (done || lia).
Qed.

Lemma array_add_appends_witness :
  exists self', array_add (mkStmtList (Some (Some <$> [1; 2; 3; 4; 5; 6; 7; 8; 9; 10])) 10 10) 11 = Some self' /\
    array_rep self' ([1; 2; 3; 4; 5; 6; 7; 8; 9; 10] ++ [11]).
Proof.
  apply (array_add_appends (mkStmtList (Some (Some <$> [1; 2; 3; 4; 5; 6; 7; 8; 9; 10])) 10 10)
           [1; 2; 3; 4; 5; 6; 7; 8; 9; 10] 11).
  - split; [reflexivity|]. split; [reflexivity|]. cbn. split_and!; [lia | lia | reflexivity].
  - unfold array_small. cbn. lia.
Defined.

(** ** Deleting and printing *)

Definition nl : string := String (Ascii.ascii_of_nat 10) "".

(** [workflow_syntax_delete_node]: the number of [free] calls of non-null
    pointers for (nodes, strings and arrays). *)
Fixpoint delete_node (s : workflow_syntax) : nat :=
  match s with
  | EMPTY_STMT | RETURN_STMT => 1
  | NAME _ => 2
  | WORKFLOW a b => S (delete_node a + delete_node b)
  | STMT_LIST l =>
      (foldr (fun s n => delete_node s + n) 0 l + match l with [] => 0 | _ => 1 end) + 1
  | IF_STMT a b c => S (delete_node a + delete_node b + delete_node c)
  | WHILE_STMT a b => S (delete_node a + delete_node b)
  | DOWHILE_STMT a b => S (delete_node a + delete_node b)
  | UNOP_EXP _ e => S (delete_node e)
  end.

(** [workflow_syntax_print_node] and [workflow_syntax_print_unop_node]: what is
    written to the standard output. *)
Fixpoint print_node (s : workflow_syntax) : string :=
  match s with
  | WORKFLOW name block => "workflow " ++ print_node name ++ print_node block
  | NAME str => str ++ nl
  | STMT_LIST child => "{" ++ nl ++ foldr (fun s out => print_node s ++ out) "" child ++ "}" ++ nl
  | IF_STMT condition then_block else_block =>
      "if " ++ print_node condition ++ print_node then_block ++
      match else_block with
      | EMPTY_STMT => ""
      | _ => "else" ++ nl ++ print_node else_block
      end
  | WHILE_STMT condition block => "while " ++ print_node condition ++ print_node block
  | DOWHILE_STMT block condition => "do " ++ print_node block ++ "while " ++ print_node condition
  | RETURN_STMT => "return" ++ nl
  | UNOP_EXP opkind exp => if bool_decide (opkind = OPKIND_NOT) then "!" ++ print_node exp else ""
  | EMPTY_STMT => ""
  end%string.
