(* ===== verification/Words.v ===== *)
(** * Machine words

    Unsigned words as integers in range, with the wrap-around written out, and
    the lemmas that turn masks into arithmetic. *)
From Stdlib Require Import ZArith Lia.
From stdpp Require Import base numbers.
From S2P Require Import Prelude.

Local Open Scope Z_scope.

(** An unsigned word of [w] bits. *)
Definition uint (w x : Z) : Prop := 0 <= x < 2 ^ w.
Abbreviation u64 := (uint 64).
Abbreviation u8 := (uint 8).

Definition wrap (w x : Z) : Z := x mod 2 ^ w.

(** [~x] on [w] bits. *)
Definition compl (w x : Z) : Z := Z.lxor x (Z.ones w).

(** [x << n] on [w] bits. *)
Definition shl (w x n : Z) : Z := wrap w (Z.shiftl x n).

(** QED_ALL_MASK_64. *)
Definition ALL_MASK_64 : Z := 2 ^ 64 - 1.

(** [QED_ALL_MASK_64 << n]. *)
Definition hi_mask (n : Z) : Z := shl 64 ALL_MASK_64 n.

Create HintDb words.

Lemma uint_wrap w x : 0 <= w -> uint w (wrap w x).
Proof. intros Hw. unfold uint, wrap. apply Z.mod_pos_bound. lia. Qed.

Lemma wrap_small w x : uint w x -> wrap w x = x.
Proof. apply Z.mod_small. Qed.

(** The bits of a word above its width are zero. *)
Lemma testbit_above w x i : 0 <= w -> uint w x -> w <= i -> Z.testbit x i = false.
Proof.
  intros Hw Hx Hi. destruct (Z.eq_dec x 0) as [->|]; [apply Z.bits_0|].
  apply Z.bits_above_log2; unfold uint in *; [lia|].
  apply Z.lt_le_trans with w; [apply Z.log2_lt_pow2; lia | lia].
Qed.

(** A number whose bits above [w] are zero is a word. *)
Lemma uint_testbit w x :
  0 <= w -> 0 <= x -> (forall i, w <= i -> Z.testbit x i = false) -> uint w x.
Proof.
  intros Hw Hx Hb. split; [done|]. destruct (Z.lt_ge_cases x (2 ^ w)) as [|Hge]; [done|].
  assert (Hlog : w <= Z.log2 x) by (apply Z.log2_le_pow2; lia).
  specialize (Hb _ Hlog). rewrite Z.bit_log2 in Hb; [done | lia].
Qed.

Lemma testbit_hi_mask n i : 0 <= n -> 0 <= i ->
  Z.testbit (hi_mask n) i = (n <=? i) && (i <? 64).
Proof.
  intros Hn Hi. unfold hi_mask, shl, wrap, ALL_MASK_64.
  destruct (Z.ltb_spec i 64).
  - rewrite Z.mod_pow2_bits_low by lia. rewrite Z.shiftl_spec by lia.
    replace (2 ^ 64 - 1) with (Z.ones 64) by reflexivity.
    destruct (Z.leb_spec n i).
    + rewrite Z.ones_spec_low by lia. done.
    + rewrite Z.testbit_neg_r by lia. done.
  - rewrite Z.mod_pow2_bits_high by lia. by rewrite andb_false_r.
Qed.

Lemma testbit_compl w x i : 0 <= w -> 0 <= i ->
  Z.testbit (compl w x) i = xorb (Z.testbit x i) (i <? w).
Proof.
  intros Hw Hi. unfold compl. rewrite Z.lxor_spec.
  destruct (Z.ltb_spec i w); [by rewrite Z.ones_spec_low by lia | by rewrite Z.ones_spec_high by lia].
Qed.

(** The high and the low part of a word at [n] bits. *)
Definition high (n x : Z) : Z := 2 ^ n * (x / 2 ^ n).
Definition low (n x : Z) : Z := x mod 2 ^ n.

Lemma land_hi_mask n x : 0 <= n <= 64 -> u64 x -> Z.land x (hi_mask n) = high n x.
Proof.
  intros Hn Hx. apply Z.bits_inj_iff'. intros i Hi.
  rewrite Z.land_spec, testbit_hi_mask by lia. unfold high.
  rewrite Z.mul_comm, <- Z.shiftl_mul_pow2, Z.shiftl_spec by lia.
  destruct (Z.leb_spec n i) as [Hle|Hlt].
  - rewrite Z.div_pow2_bits by lia. replace (i - n + n) with i by lia.
    destruct (Z.ltb_spec i 64); [by rewrite andb_true_r|].
    by rewrite (testbit_above 64) by (done || lia).
  - rewrite (Z.testbit_neg_r _ (i - n)) by lia. by rewrite andb_false_r.
Qed.

Lemma land_compl_hi_mask n x : 0 <= n <= 64 -> 0 <= x -> Z.land x (compl 64 (hi_mask n)) = low n x.
Proof.
  intros Hn Hx. apply Z.bits_inj_iff'. intros i Hi.
  rewrite Z.land_spec, testbit_compl, testbit_hi_mask by lia. unfold low.
  destruct (Z.ltb_spec i n).
  - rewrite Z.mod_pow2_bits_low by lia. destruct (Z.leb_spec n i); [lia|].
    destruct (Z.ltb_spec i 64); [|lia]. by rewrite andb_true_r.
  - rewrite Z.mod_pow2_bits_high by lia. destruct (Z.leb_spec n i); [|lia].
    by destruct (Z.ltb_spec i 64); rewrite andb_false_r.
Qed.

(** Joining a high and a low part. *)
Lemma land_high_low n x y : 0 <= n -> Z.land (high n x) (low n y) = 0.
Proof.
  intros Hn. unfold high, low. apply Z.bits_inj_iff'. intros i Hi.
  rewrite Z.land_spec, Z.bits_0, Z.mul_comm, <- Z.shiftl_mul_pow2, Z.shiftl_spec by lia.
  destruct (Z.ltb_spec i n).
  - by rewrite (Z.testbit_neg_r _ (i - n)) by lia.
  - rewrite Z.mod_pow2_bits_high by lia. by rewrite andb_false_r.
Qed.

Lemma lor_high_low n x y : 0 <= n -> Z.lor (high n x) (low n y) = high n x + low n y.
Proof.
  intros Hn. rewrite Z.add_nocarry_lxor by auto using land_high_low.
  by rewrite Z.lxor_lor by auto using land_high_low.
Qed.

Lemma low_bound n x : 0 <= n -> 0 <= low n x < 2 ^ n.
Proof. intros Hn. apply Z.mod_pos_bound. lia. Qed.

Lemma high_low n x : 0 <= n -> high n x + low n x = x.
Proof. intros Hn. unfold high, low. pose proof (Z.div_mod x (2 ^ n) ltac:(lia)). lia. Qed.

Lemma high_join n x y : 0 <= n -> high n (high n x + low n y) = high n x.
Proof.
  intros Hn. assert (2 ^ n <> 0) by lia. unfold high, low. f_equal.
  rewrite (Z.mul_comm (2 ^ n)), Z.div_add_l, Z.mod_div by done. lia.
Qed.

Lemma low_join n x y : 0 <= n -> low n (high n x + low n y) = low n y.
Proof.
  intros Hn. assert (2 ^ n <> 0) by lia. unfold high, low.
  rewrite (Z.add_comm (_ * _)), (Z.mul_comm (2 ^ n)), Z.mod_add by done. by apply Z.mod_mod.
Qed.

Lemma u64_join n x y : 0 <= n <= 64 -> u64 x -> u64 (high n x + low n y).
Proof.
  intros Hn Hx. unfold uint in *. pose proof (low_bound n y ltac:(lia)) as Hl.
  assert (Hd : 0 <= x / 2 ^ n <= 2 ^ (64 - n) - 1).
  { split; [apply Z.div_pos; lia|]. enough (x / 2 ^ n < 2 ^ (64 - n)) by lia.
    apply Z.div_lt_upper_bound; [lia|]. rewrite <- Z.pow_add_r by lia.
    replace (n + (64 - n)) with 64 by lia. lia. }
  assert (Hp : 2 ^ n * 2 ^ (64 - n) = 2 ^ 64) by (rewrite <- Z.pow_add_r by lia; f_equal; lia).
  unfold high. nia.
Qed.

Lemma low_small n x : 0 <= x < 2 ^ n -> low n x = x.
Proof. apply Z.mod_small. Qed.

#[export] Hint Resolve uint_wrap low_bound u64_join : words.
#[export] Hint Rewrite high_join low_join using lia : words.
