(* ===== verification/Memory.v ===== *)
(** * Memory

    A piece of memory is the list of its bytes.  Accesses outside of it are
    [None].  Words are stored with their low byte first. *)
From Stdlib Require Import ZArith Lia.
From stdpp Require Import base list option.
From S2P Require Import Prelude.

Local Open Scope Z_scope.

(** A store into a piece of memory. *)
Definition poke (i : nat) (v : Z) (mem : list Z) : option (list Z) :=
  if (i <? length mem)%nat then Some (<[i := v]> mem) else None.

(** The stores of consecutive bytes. *)
Fixpoint write_at (off : nat) (data : list Z) (mem : list Z) : option (list Z) :=
  match data with
  | [] => Some mem
  | b :: data => mem ← poke off b mem; write_at (S off) data mem
  end.

(** A word of [n] bytes, low byte first. *)
Fixpoint le_bytes (n : nat) (x : Z) : list Z :=
  match n with O => [] | S n => x mod 256 :: le_bytes n (x / 256) end.
Fixpoint le_value (l : list Z) : Z :=
  match l with [] => 0 | b :: l => b + 256 * le_value l end.

(** A load of [n] bytes. *)
Definition read_at (off n : nat) (mem : list Z) : option (list Z) :=
  if (off + n <=? length mem)%nat then Some (take n (drop off mem)) else None.

Create HintDb memory.

Lemma poke_Some i v mem : (i < length mem)%nat -> poke i v mem = Some (<[i := v]> mem).
Proof. intros H. unfold poke. by destruct (Nat.ltb_spec i (length mem)); [|lia]. Qed.

Lemma insert_split {A} i (v : A) mem : (i < length mem)%nat -> <[i := v]> mem = take i mem ++ v :: drop (S i) mem.
Proof. intros H. by apply insert_take_drop. Qed.

Lemma write_at_Some data : forall off mem, (off + length data <= length mem)%nat ->
  write_at off data mem = Some (take off mem ++ data ++ drop (off + length data) mem).
Proof.
  induction data as [|b data IH]; intros off mem H; cbn in *.
  - by rewrite Nat.add_0_r, take_drop.
  - rewrite poke_Some by lia. cbn. rewrite IH by (rewrite length_insert; lia). f_equal.
    rewrite insert_split by lia. rewrite take_app_ge, drop_app_ge by (rewrite length_take; lia).
    rewrite length_take, Nat.min_l by lia.
    replace (S off - off)%nat with 1%nat by lia.
    replace (S off + length data - off)%nat with (S (length data)) by lia. cbn. rewrite drop_drop, ?take_0.
    rewrite <- !app_assoc. cbn. by rewrite <- Nat.add_succ_r.
Qed.

Lemma le_bytes_length n : forall x, length (le_bytes n x) = n.
Proof. induction n as [|n IH]; intros x; cbn; [done | by rewrite IH]. Qed.
#[export] Hint Rewrite le_bytes_length : memory.

(** A word is read back from its bytes. *)
Lemma le_value_bytes n : forall x, 0 <= x < 256 ^ Z.of_nat n -> le_value (le_bytes n x) = x.
Proof.
  induction n as [|n IH]; intros x Hx; cbn [le_bytes le_value]; [change (256 ^ Z.of_nat 0) with 1 in Hx; lia|].
  rewrite IH; [pose proof (Z.div_mod x 256); lia|]. rewrite Nat2Z.inj_succ, Z.pow_succ_r in Hx by lia.
  split; [apply Z.div_pos; lia | apply Z.div_lt_upper_bound; lia].
Qed.

(** A load that falls on a known part of the memory. *)
Lemma read_at_app pre data post off n : off = length pre -> n = length data ->
  read_at off n (pre ++ data ++ post) = Some data.
Proof.
  intros -> ->. unfold read_at. destruct (Nat.leb_spec (length pre + length data) (length (pre ++ data ++ post))).
  - by rewrite drop_app_length, take_app_length.
  - rewrite !length_app in *. lia.
Qed.
