(* ===== verification/Compiler.v ===== *)
(** * The workflow compiler: src/orc/workflow/compiler.cc

    Translation of a syntax tree to a control-flow graph by back-patching: a
    label collects the edges that still have to be pointed at a node. *)
From Stdlib Require Import ZArith Lia.
From stdpp Require Import base gmap sets list strings.
From S2P Require Import Prelude Graph Syntax.

Local Open Scope st_scope.

(** ** Labels and the compiler's store *)

(** [struct Edge]: the true ([direct]) or false edge of a node. *)
Record Edge : Type := mkEdge { direct : bool; src : nat }.

(** A [Label*] is the index of the label in the store. *)
Abbreviation label := nat (only parsing).

(** The mutable state of one [CompileWorkflow]: the nodes of the graph under
    construction and the [srcs] of every label created so far. *)
Record CState : Type := mkCState {
  cnodes : list Node;
  labels : list (list Edge);
}.

Abbreviation M := (ST CState).

Definition srcs (l : label) (st : CState) : list Edge := default [] (labels st !! l).

Definition set_srcs (l : label) (es : list Edge) (st : CState) : CState :=
  mkCState (cnodes st) (<[l := es]> (labels st)).

(** A label declared in a function body. *)
Definition new_Label : M label :=
  st <-- st_get ;;;
  st_put (mkCState (cnodes st) (labels st ++ [[]])) ;;;
  st_ret (length (labels st)).

(** [Label::AddEdge]. *)
Definition AddEdge (l : label) (e : Edge) : M unit :=
  st_modify (fun st => set_srcs l (srcs l st ++ [e]) st).

(** [Label::Reset]. *)
Definition Label_Reset (l : label) : M unit := st_modify (set_srcs l []).

(** The body of the loop of [Label::Attach]: point one edge at [p]. *)
Definition attach_edge (p : ptr) (ns : list Node) (e : Edge) : list Node :=
  alter (if direct e then set_true_edge p else set_false_edge p) (src e) ns.

(** [Label::Attach]. *)
Definition Attach (l : label) (p : ptr) : M unit :=
  st_modify (fun st =>
    set_srcs l [] (mkCState (foldl (attach_edge p) (cnodes st) (srcs l st)) (labels st))).

(** [Label::Append]. *)
Definition Append (l l' : label) : M unit :=
  st_modify (fun st => set_srcs l (srcs l st ++ srcs l' st) st) ;;; Label_Reset l'.

(** [struct Context], without the graph pointers: the graph under construction
    is [cnodes]. *)
Record Context : Type := mkContext {
  c_entry : ptr;
  prev_label : label;
  next_label : label;
}.

Definition with_entry (p : ptr) (ctx : Context) : Context :=
  mkContext p (prev_label ctx) (next_label ctx).

(** [std::swap(ctx->prev_label, ctx->next_label)]. *)
Definition swap_labels (ctx : Context) : Context :=
  mkContext (c_entry ctx) (next_label ctx) (prev_label ctx).

(** ** Expressions *)

(** [CompileName]. *)
Definition CompileName (s : workflow_syntax) (ctx : Context) : M Context :=
  match s with
  | NAME n =>
      st <-- st_get ;;;
      let i := length (cnodes st) in
      AddEdge (prev_label ctx) (mkEdge true i) ;;;
      AddEdge (next_label ctx) (mkEdge false i) ;;;
      st_modify (fun st => mkCState (AddNode (new_Node n) (cnodes st)) (labels st)) ;;;
      st_ret (with_entry (PNode i) ctx)
  | _ => st_fail
  end.

(** [CompileUnopExp], given [CompileExp]. *)
Definition CompileUnopExp (CompileExp : workflow_syntax -> Context -> M Context)
    (s : workflow_syntax) (ctx : Context) : M Context :=
  match s with
  | UNOP_EXP opkind exp =>
      if bool_decide (opkind = OPKIND_NOT) then CompileExp exp (swap_labels ctx) else st_fail
  | _ => st_fail
  end.

(** [CompileExp]. *)
Fixpoint CompileExp (s : workflow_syntax) (ctx : Context) : M Context :=
  match s with
  | UNOP_EXP _ _ => CompileUnopExp CompileExp s ctx
  | NAME _ => CompileName s ctx
  | _ => st_fail
  end.

(** ** Statements *)

(** [CompileExpStmt]: both edges of the expression go to the next statement. *)
Definition CompileExpStmt (s : workflow_syntax) (ctx : Context) : M Context :=
  exp_ctx <-- CompileExp s (mkContext PNull (next_label ctx) (next_label ctx)) ;;;
  Attach (prev_label ctx) (c_entry exp_ctx) ;;;
  st_ret (with_entry (c_entry exp_ctx) ctx).

(** [CompileReturnStmt]. *)
Definition CompileReturnStmt (s : workflow_syntax) (ctx : Context) : M Context :=
  match s with
  | RETURN_STMT => Attach (prev_label ctx) PEnd ;;; st_ret ctx
  | _ => st_fail
  end.

(** The functions below call [CompileBlock], which calls them back: it is their
    first argument. *)
Definition CompileIfStmt (CompileBlock : workflow_syntax -> Context -> M Context)
    (s : workflow_syntax) (ctx : Context) : M Context :=
  match s with
  | IF_STMT stx_condition stx_then stx_else =>
      condition_end_label <-- new_Label ;;;
      then_start_label <-- new_Label ;;;
      condition_ctx <-- CompileExp stx_condition
                          (mkContext PNull then_start_label condition_end_label) ;;;
      then_ctx <-- CompileBlock stx_then
                     (mkContext PNull then_start_label (next_label ctx)) ;;;
      Attach then_start_label (c_entry then_ctx) ;;;
      match stx_else with
      | EMPTY_STMT => Append (next_label ctx) condition_end_label
      | _ => CompileBlock stx_else (mkContext PNull condition_end_label (next_label ctx)) ;;;
             st_ret tt
      end ;;;
      Attach (prev_label ctx) (c_entry condition_ctx) ;;;
      st_ret (with_entry (c_entry condition_ctx) ctx)
  | _ => st_fail
  end.

Definition CompileWhileStmt (CompileBlock : workflow_syntax -> Context -> M Context)
    (s : workflow_syntax) (ctx : Context) : M Context :=
  match s with
  | WHILE_STMT stx_condition stx_block =>
      block_start_label <-- new_Label ;;;
      condition_ctx <-- CompileExp stx_condition
                          (mkContext PNull block_start_label (next_label ctx)) ;;;
      block_end_label <-- new_Label ;;;
      block_ctx <-- CompileBlock stx_block
                      (mkContext PNull block_start_label block_end_label) ;;;
      Attach block_start_label (c_entry block_ctx) ;;;
      Attach block_end_label (c_entry condition_ctx) ;;;
      Attach (prev_label ctx) (c_entry condition_ctx) ;;;
      st_ret (with_entry (c_entry condition_ctx) ctx)
  | _ => st_fail
  end.

Definition CompileDoWhileStmt (CompileBlock : workflow_syntax -> Context -> M Context)
    (s : workflow_syntax) (ctx : Context) : M Context :=
  match s with
  | DOWHILE_STMT stx_block stx_condition =>
      block_end_label <-- new_Label ;;;
      block_ctx <-- CompileBlock stx_block
                      (mkContext PNull (prev_label ctx) block_end_label) ;;;
      true_label <-- new_Label ;;;
      false_label <-- new_Label ;;;
      condition_ctx <-- CompileExp stx_condition (mkContext PNull true_label false_label) ;;;
      Attach true_label (c_entry block_ctx) ;;;
      Attach block_end_label (c_entry condition_ctx) ;;;
      Attach (prev_label ctx) (c_entry block_ctx) ;;;
      Append (next_label ctx) false_label ;;;
      st_ret (with_entry (c_entry block_ctx) ctx)
  | _ => st_fail
  end.

(** The loop of [CompileBlock] over the statements of a list; [first] is the
    test [i == 0].  The result is the entry of the block and the final statement
    context. *)
Fixpoint stmt_loop (ComplieStmt : workflow_syntax -> Context -> M Context)
    (first : bool) (l : list workflow_syntax) (ctx stmt_ctx : Context)
  : M (Context * Context) :=
  match l with
  | [] => st_ret (ctx, stmt_ctx)
  | s :: l =>
      stmt_ctx <-- ComplieStmt s stmt_ctx ;;;
      let ctx := if first then with_entry (c_entry stmt_ctx) ctx else ctx in
      let stmt_ctx := swap_labels stmt_ctx in
      if is_return s then st_ret (ctx, stmt_ctx)
      else stmt_loop ComplieStmt false l ctx stmt_ctx
  end.

(** [CompileBlock], given [ComplieStmt]. *)
Definition CompileBlock_of (ComplieStmt : workflow_syntax -> Context -> M Context)
    (s : workflow_syntax) (ctx : Context) : M Context :=
  match s with
  | STMT_LIST child =>
      stmt_prev <-- new_Label ;;;
      stmt_next <-- new_Label ;;;
      r <-- stmt_loop ComplieStmt true child ctx (mkContext PNull stmt_prev stmt_next) ;;;
      Attach (prev_label ctx) (c_entry r.1) ;;;
      Append (next_label ctx) (prev_label r.2) ;;;
      st_ret r.1
  | _ => st_fail
  end.

(** [ComplieStmt] (sic). *)
Fixpoint ComplieStmt (s : workflow_syntax) (ctx : Context) : M Context :=
  match s with
  | IF_STMT _ _ _ => CompileIfStmt (CompileBlock_of ComplieStmt) s ctx
  | WHILE_STMT _ _ => CompileWhileStmt (CompileBlock_of ComplieStmt) s ctx
  | DOWHILE_STMT _ _ => CompileDoWhileStmt (CompileBlock_of ComplieStmt) s ctx
  | RETURN_STMT => CompileReturnStmt s ctx
  | _ => CompileExpStmt s ctx
  end.

Definition CompileBlock : workflow_syntax -> Context -> M Context := CompileBlock_of ComplieStmt.

(** ** Workflows *)

(** The part of [CompileWorkflow] that builds the graph of a block: compile the
    block, send its pending edges to the end node and set the entry. *)
Definition build_graph (name : string) (block : workflow_syntax) : option Graph :=
  match (prev <-- new_Label ;;;
         next <-- new_Label ;;;
         ctx <-- CompileBlock block (mkContext PNull prev next) ;;;
         Attach (next_label ctx) PEnd ;;;
         st_ret (c_entry ctx)) (mkCState [] []) with
  | Some (entry, st) => Some (mkGraph name entry (cnodes st))
  | None => None
  end.

(** [CompileWorkflow] on the map of compiled graphs; [None] is [return false]. *)
Definition CompileWorkflow (s : workflow_syntax) (graphs : gmap string Graph)
  : option (gmap string Graph) :=
  match s with
  | WORKFLOW (NAME name) block =>
      match graphs !! name with
      | Some _ => None
      | None =>
          match build_graph name block with
          | None => None
          | Some graph =>
              match CheckValid graph with
              | Some true => Some (<[name := graph]> graphs)
              | _ => None
              end
          end
      end
  | _ => None
  end.

(** The loop of [CompileInner]: the first workflow that fails stops it and the
    graphs compiled before it stay in the map. *)
Fixpoint workflow_loop (l : list workflow_syntax) (graphs : gmap string Graph)
  : bool * gmap string Graph :=
  match l with
  | [] => (true, graphs)
  | s :: l =>
      match CompileWorkflow s graphs with
      | None => (false, graphs)
      | Some graphs => workflow_loop l graphs
      end
  end.

(** [CompileInner]. *)
Definition CompileInner (s : workflow_syntax) (graphs : gmap string Graph)
  : bool * gmap string Graph :=
  match s with
  | STMT_LIST child => workflow_loop child graphs
  | _ => (false, graphs)
  end.
