(* ===== verification/Semantics.v ===== *)
(** * What a workflow means

    The handlers are a parameter: running the handler called [n] on a session
    state gives the edge it takes and the new state.  [exec_block] is the meaning
    of a workflow as a structured program; [gstep] is one step of the walk
    over its graph; [stmt_at] says that a piece of a graph implements a
    statement. *)
From Stdlib Require Import ZArith Lia.
From stdpp Require Import base list strings relations.
From S2P Require Import Prelude Graph Syntax.

(** How a statement ends: fall through to the next one, or leave the workflow. *)
Inductive outcome : Type := Normal | Returned.

Section Structured.
Context {S : Type} (run : string -> S -> bool * S).

(** An expression runs one handler; [!] exchanges its two results. *)
Fixpoint eval_exp (e : workflow_syntax) (s : S) : option (bool * S) :=
  match e with
  | NAME n => Some (run n s)
  | UNOP_EXP o e =>
      if bool_decide (o = OPKIND_NOT) then
        match eval_exp e s with
        | Some (b, s') => Some (negb b, s')
        | None => None
        end
      else None
  | _ => None
  end.

(** Big-step execution of statements and blocks. *)
Inductive exec_stmt : workflow_syntax -> S -> outcome -> S -> Prop :=
| exec_exp e s b s' :
    eval_exp e s = Some (b, s') -> exec_stmt e s Normal s'
| exec_return s : exec_stmt RETURN_STMT s Returned s
| exec_if_true c t e s s1 o s2 :
    eval_exp c s = Some (true, s1) -> exec_block t s1 o s2 ->
    exec_stmt (IF_STMT c (STMT_LIST t) e) s o s2
| exec_if_else c t e s s1 o s2 :
    eval_exp c s = Some (false, s1) -> exec_block e s1 o s2 ->
    exec_stmt (IF_STMT c t (STMT_LIST e)) s o s2
| exec_if_skip c t s s1 :
    eval_exp c s = Some (false, s1) ->
    exec_stmt (IF_STMT c t EMPTY_STMT) s Normal s1
| exec_while_end c b s s1 :
    eval_exp c s = Some (false, s1) ->
    exec_stmt (WHILE_STMT c b) s Normal s1
| exec_while_loop c b s s1 s2 o s3 :
    eval_exp c s = Some (true, s1) -> exec_block b s1 Normal s2 ->
    exec_stmt (WHILE_STMT c (STMT_LIST b)) s2 o s3 ->
    exec_stmt (WHILE_STMT c (STMT_LIST b)) s o s3
| exec_while_return c b s s1 s2 :
    eval_exp c s = Some (true, s1) -> exec_block b s1 Returned s2 ->
    exec_stmt (WHILE_STMT c (STMT_LIST b)) s Returned s2
| exec_do_end c b s s1 s2 :
    exec_block b s Normal s1 -> eval_exp c s1 = Some (false, s2) ->
    exec_stmt (DOWHILE_STMT (STMT_LIST b) c) s Normal s2
| exec_do_loop c b s s1 s2 o s3 :
    exec_block b s Normal s1 -> eval_exp c s1 = Some (true, s2) ->
    exec_stmt (DOWHILE_STMT (STMT_LIST b) c) s2 o s3 ->
    exec_stmt (DOWHILE_STMT (STMT_LIST b) c) s o s3
| exec_do_return c b s s1 :
    exec_block b s Returned s1 ->
    exec_stmt (DOWHILE_STMT (STMT_LIST b) c) s Returned s1
with exec_block : list workflow_syntax -> S -> outcome -> S -> Prop :=
| exec_nil s : exec_block [] s Normal s
| exec_cons x l s s1 o s2 :
    exec_stmt x s Normal s1 -> exec_block l s1 o s2 -> exec_block (x :: l) s o s2
| exec_stop x l s s1 :
    exec_stmt x s Returned s1 -> exec_block (x :: l) s Returned s1.

(** One step over a graph: run the handler of the node and take its edge. *)
Inductive gstep (ns : list Node) : ptr * S -> ptr * S -> Prop :=
| gstep_node i nd s b s' :
    ns !! i = Some nd -> run (name nd) s = (b, s') ->
    gstep ns (PNode i, s) (if b then true_edge nd else false_edge nd, s').

Lemma gstep_det ns c c1 c2 : gstep ns c c1 -> gstep ns c c2 -> c1 = c2.
Proof.
  destruct 1 as [i nd s b s' H1 H2]; intros H; inversion H as [j nd2 s2 b2 s2' H3 H4]; subst. rewrite H1 in H3; injection H3 as <-. rewrite H2 in H4; by injection H4 as <- <-.
Qed.
End Structured.

Scheme exec_stmt_mut := Induction for exec_stmt Sort Prop
  with exec_block_mut := Induction for exec_block Sort Prop.
Combined Scheme exec_mutind from exec_stmt_mut, exec_block_mut.

(** ** Pieces of a graph that implement a statement *)

(** Node [i] runs the handler of [e]; it goes to [t] when [e] is true and to
    [f] when it is false. *)
Fixpoint exp_at (ns : list Node) (e : workflow_syntax) (i : nat) (t f : ptr) : Prop :=
  match e with
  | NAME n => ns !! i = Some (mkNode n t f)
  | UNOP_EXP o e => o = OPKIND_NOT /\ exp_at ns e i f t
  | _ => False
  end.

(** [stmt_at ns s p k]: entered at [p], the graph runs [s] and goes on to [k].
    A block that is empty or starts with a return has no node of its own and
    its entry is null. *)
Inductive stmt_at (ns : list Node) : workflow_syntax -> ptr -> ptr -> Prop :=
| at_exp e i k : exp_at ns e i k k -> stmt_at ns e (PNode i) k
| at_if c t i pt k :
    exp_at ns c i pt k -> block_at ns t pt k ->
    stmt_at ns (IF_STMT c (STMT_LIST t) EMPTY_STMT) (PNode i) k
| at_if_else c t e i pt pe k :
    exp_at ns c i pt pe -> block_at ns t pt k -> block_at ns e pe k ->
    stmt_at ns (IF_STMT c (STMT_LIST t) (STMT_LIST e)) (PNode i) k
| at_while c b i pb k :
    exp_at ns c i pb k -> block_at ns b pb (PNode i) ->
    stmt_at ns (WHILE_STMT c (STMT_LIST b)) (PNode i) k
| at_do c b i pb k :
    block_at ns b pb (PNode i) -> exp_at ns c i pb k ->
    stmt_at ns (DOWHILE_STMT (STMT_LIST b) c) pb k
with block_at (ns : list Node) : list workflow_syntax -> ptr -> ptr -> Prop :=
| at_block_nil k : block_at ns [] PNull k
| at_block_ret l k : block_at ns (RETURN_STMT :: l) PNull k
| at_block_cons x l p k' k :
    is_return x = false -> stmt_at ns x p k' -> seq_at ns l k' k ->
    block_at ns (x :: l) p k
with seq_at (ns : list Node) : list workflow_syntax -> ptr -> ptr -> Prop :=
| at_seq_nil k : seq_at ns [] k k
| at_seq_ret l k : seq_at ns (RETURN_STMT :: l) PEnd k
| at_seq_cons x l p k' k :
    is_return x = false -> stmt_at ns x p k' -> seq_at ns l k' k ->
    seq_at ns (x :: l) p k.
