(* ===== verification/CompilerCorrect.v ===== *)
(** * Correctness of the workflow compiler

    The invariant of the back-patching and the theorem that a compiled graph
    implements its workflow. *)
From Stdlib Require Import ZArith Lia.
From stdpp Require Import base gmap sets list strings relations.
From S2P Require Import Prelude Graph Syntax Compiler Semantics.

(** ** Patching *)

(** What [Attach] does to node [i]: the edges of [E] that leave it go to [q]. *)
Fixpoint patch (q : ptr) (i : nat) (E : list Edge) (nd : Node) : Node :=
  match E with
  | [] => nd
  | e :: E =>
      patch q i E
        (if decide (src e = i)
         then (if direct e then set_true_edge q nd else set_false_edge q nd) else nd)
  end.

Lemma patch_app q i E1 E2 nd : patch q i (E1 ++ E2) nd = patch q i E2 (patch q i E1 nd).
Proof. revert nd; induction E1; cbn; auto. Qed.

(** Edges that leave other nodes do not matter. *)
Lemma patch_out q i E nd : (forall e, e ∈ E -> src e <> i) -> patch q i E nd = nd.
Proof.
  revert nd; induction E as [|e E IH]; intros nd H; cbn; [done|].
  rewrite decide_False by (apply H; left). apply IH; intros; apply H; right; done.
Qed.

Lemma patch_fmap_out q i E (o : option Node) :
  (forall e, e ∈ E -> src e <> i) -> patch q i E <$> o = o.
Proof. intros H; destruct o; cbn; [by rewrite patch_out | done]. Qed.

Lemma patch_out_r q i E1 E2 (o : option Node) :
  (forall e, e ∈ E2 -> src e <> i) -> patch q i (E1 ++ E2) <$> o = patch q i E1 <$> o.
Proof. intros H; destruct o; cbn; [by rewrite patch_app, (patch_out _ _ E2) | done]. Qed.

Lemma patch_out_l q i E1 E2 (o : option Node) :
  (forall e, e ∈ E1 -> src e <> i) -> patch q i (E1 ++ E2) <$> o = patch q i E2 <$> o.
Proof. intros H; destruct o; cbn; [by rewrite patch_app, (patch_out _ _ E1) | done]. Qed.

Lemma attach_lookup q N E i :
  foldl (attach_edge q) N E !! i = patch q i E <$> N !! i.
Proof.
  revert N; induction E as [|e E IH]; intros N; cbn; [by destruct (N !! i)|].
  rewrite IH. unfold attach_edge. destruct (decide (src e = i)) as [<- | Hne].
  - rewrite list_lookup_alter_eq. destruct (N !! src e); cbn; [|done]. by destruct (direct e).
  - rewrite list_lookup_alter_ne by done. done.
Qed.

Lemma attach_length q N E : length (foldl (attach_edge q) N E) = length N.
Proof.
  revert N; induction E as [|e E IH]; intros N; cbn; [done|].
  rewrite IH. unfold attach_edge. apply length_alter.
Qed.

(** ** Effects of the label operations *)

Lemma srcs_set_srcs l l' es st :
  (l < length (labels st))%nat \/ es = [] ->
  srcs l' (set_srcs l es st) = if decide (l' = l) then es else srcs l' st.
Proof.
  intros H; unfold srcs, set_srcs; cbn. case_decide as E.
  - subst l'. destruct (decide (l < length (labels st))%nat) as [Hl | Hl].
    + by rewrite list_lookup_insert_eq.
    + destruct H as [H | ->]; [lia|].
      rewrite (proj2 (lookup_ge_None _ _)); [done | rewrite length_insert; lia].
  - by rewrite list_lookup_insert_ne.
Qed.

Lemma srcs_grow l N L st : labels st = L -> srcs l (mkCState N (L ++ [[]])) = srcs l st.
Proof.
  intros <-; unfold srcs; cbn. destruct (decide (l < length (labels st))%nat) as [H | H].
  - by rewrite lookup_app_l.
  - rewrite lookup_app_r by lia. rewrite (proj2 (lookup_ge_None (labels st) l)) by lia.
    destruct (l - length (labels st))%nat as [|k]; cbn; done.
Qed.

(** [new_Label] is visible only in the number of labels. *)
Lemma new_Label_spec st r st' :
  new_Label st = Some (r, st') ->
  r = length (labels st) /\ cnodes st' = cnodes st /\
  length (labels st') = S (length (labels st)) /\ forall l : nat, srcs l st' = srcs l st.
Proof.
  unfold new_Label; intros H; st_inv. cbn; repeat split.
  - rewrite length_app; cbn; lia.
  - intros l; by apply srcs_grow.
Qed.

Lemma AddEdge_spec l e st r st' :
  AddEdge l e st = Some (r, st') -> (l < length (labels st))%nat ->
  cnodes st' = cnodes st /\ length (labels st') = length (labels st) /\
  forall l' : nat, srcs l' st' = if decide (l' = l) then srcs l st ++ [e] else srcs l' st.
Proof.
  unfold AddEdge; intros H Hl; st_inv. cbn; repeat split; [by rewrite length_insert|].
  intros l'; by rewrite srcs_set_srcs by auto.
Qed.

Lemma Attach_spec l q st r st' :
  Attach l q st = Some (r, st') ->
  length (cnodes st') = length (cnodes st) /\
  (forall i, cnodes st' !! i = patch q i (srcs l st) <$> cnodes st !! i) /\
  length (labels st') = length (labels st) /\
  forall l', srcs l' st' = if decide (l' = l) then [] else srcs l' st.
Proof.
  unfold Attach; intros H; st_inv. cbn; repeat split.
  - apply attach_length.
  - intros i; apply attach_lookup.
  - apply length_insert.
  - intros l'; rewrite srcs_set_srcs by auto. by case_decide.
Qed.

Lemma Append_spec l l2 st r st' :
  Append l l2 st = Some (r, st') -> (l < length (labels st))%nat -> l <> l2 ->
  cnodes st' = cnodes st /\ length (labels st') = length (labels st) /\
  forall l', srcs l' st' = if decide (l' = l2) then []
                           else if decide (l' = l) then srcs l st ++ srcs l2 st else srcs l' st.
Proof.
  unfold Append, Label_Reset; intros H Hl Hne; st_inv. cbn. repeat split.
  - by rewrite !length_insert.
  - intros l'. rewrite srcs_set_srcs by auto. case_decide; [done|].
    rewrite srcs_set_srcs by auto. done.
Qed.

(** ** What compiling a piece of code does to the store *)

(** Every pending edge leaves a node that exists. *)
Definition st_ok (st : CState) : Prop :=
  forall l e, e ∈ srcs l st -> (src e < length (cnodes st))%nat.

(** From [st] to [st']: new nodes are added; the edges pending in [p] now go to
    [q]; the edges [E], which leave new nodes, are pending in [n]; every other
    label is as before, and the labels made on the way are empty again. *)
Record compiled (st st' : CState) (p n : nat) (q : ptr) (E : list Edge) : Prop := {
  c_len : (length (cnodes st) <= length (cnodes st'))%nat;
  c_lab : (length (labels st) <= length (labels st'))%nat;
  c_old : forall i, (i < length (cnodes st))%nat ->
            cnodes st' !! i = patch q i (srcs p st) <$> cnodes st !! i;
  c_srcs : forall l : nat, srcs l st' = if decide (l = p) then []
                                  else if decide (l = n) then srcs n st ++ E else srcs l st;
  c_rng : forall e, e ∈ E -> (length (cnodes st) <= src e < length (cnodes st'))%nat;
}.

(** The nodes added after index [lo] are those of [ns], once the pending edges
    [E] go to [k]. *)
Definition agree (lo : nat) (st : CState) (E : list Edge) (k : ptr) (ns : list Node) : Prop :=
  forall i, (lo <= i < length (cnodes st))%nat -> ns !! i = patch k i E <$> cnodes st !! i.

Lemma compiled_ok st st' p n q E : st_ok st -> compiled st st' p n q E -> st_ok st'.
Proof.
  intros Hok [Hl _ _ Hs Hr] l e. rewrite Hs. repeat case_decide; [set_solver | |].
  - intros [He | He]%elem_of_app; [apply Hok in He; lia | apply Hr in He; lia].
  - intros He; apply Hok in He; lia.
Qed.

(** The edges pending in a good store do not leave new nodes. *)
Lemma old_edges st l i k (o : option Node) :
  st_ok st -> (length (cnodes st) <= i)%nat -> patch k i (srcs l st) <$> o = o.
Proof. intros Hok Hi; apply patch_fmap_out; intros e He; apply Hok in He; lia. Qed.

(** ** Expressions *)

(** Compiling an expression adds one node.  When the two labels differ, the
    node's edges are pending one in each, the one taken when the expression is
    true in the first; when they are the same label, both are pending there. *)
Lemma CompileExp_spec s ctx st ctx' st' :
  CompileExp s ctx st = Some (ctx', st') ->
  (prev_label ctx < length (labels st))%nat -> (next_label ctx < length (labels st))%nat ->
  exists nm (b : bool), let i := length (cnodes st) in
    c_entry ctx' = PNode i /\ cnodes st' = cnodes st ++ [new_Node nm] /\
    length (labels st') = length (labels st) /\
    (forall (ns : list Node) t f,
       ns !! i = Some (mkNode nm (if b then t else f) (if b then f else t)) -> exp_at ns s i t f) /\
    (forall l : nat, srcs l st' =
       if decide (prev_label ctx = next_label ctx)
       then (if decide (l = prev_label ctx)
             then srcs l st ++ [mkEdge true i; mkEdge false i] else srcs l st)
       else if decide (l = prev_label ctx) then srcs l st ++ [mkEdge b i]
       else if decide (l = next_label ctx) then srcs l st ++ [mkEdge (negb b) i]
       else srcs l st).
Proof.
  revert ctx st ctx' st'.
  induction s using syntax_ind; intros ctx st ctx' st' HX Hp Hn; cbn [CompileExp] in HX; try discriminate.
  - unfold CompileName in HX; st_inv.
    apply AddEdge_spec in Hm0 as (Hc1 & Hl1 & Hs1); [|done].
    apply AddEdge_spec in Hm1 as (Hc2 & Hl2 & Hs2); [|lia].
    exists n, true. cbn. rewrite Hc2, Hc1, Hl2, Hl1. repeat split; [done|].
    intros l. transitivity (srcs l s1); [done|]. rewrite Hs2, !Hs1.
    repeat case_decide; subst; try congruence. rewrite <- app_assoc; cbn [app]; congruence.
  - unfold CompileUnopExp in HX. case_bool_decide as Ho; [|discriminate]. subst o.
    apply IHs in HX as (nm & b & He & Hc & Hl & Ha & Hs); cbn in *; [|done|done].
    exists nm, (negb b). repeat split; try done.
    + apply Ha. cbn; rewrite H. by destruct b.
    + intros l. rewrite Hs. rewrite negb_involutive. repeat case_decide; subst; congruence.
Qed.

(** ** Statements and blocks *)

(** The specification of compiling a statement that is not a return, and of
    compiling a block. *)
Definition stmt_spec (s : workflow_syntax) : Prop :=
  forall ctx st ctx' st',
    ComplieStmt s ctx st = Some (ctx', st') -> is_return s = false ->
    prev_label ctx <> next_label ctx ->
    (prev_label ctx < length (labels st))%nat -> (next_label ctx < length (labels st))%nat ->
    st_ok st ->
    ctx' = with_entry (c_entry ctx') ctx /\
    exists E, compiled st st' (prev_label ctx) (next_label ctx) (c_entry ctx') E /\
      forall ns k, agree (length (cnodes st)) st' E k ns -> stmt_at ns s (c_entry ctx') k.

Definition block_spec (s : workflow_syntax) : Prop :=
  forall ctx st ctx' st',
    CompileBlock s ctx st = Some (ctx', st') ->
    c_entry ctx = PNull -> prev_label ctx <> next_label ctx ->
    (prev_label ctx < length (labels st))%nat -> (next_label ctx < length (labels st))%nat ->
    st_ok st ->
    exists l E, s = STMT_LIST l /\ ctx' = with_entry (c_entry ctx') ctx /\
      compiled st st' (prev_label ctx) (next_label ctx) (c_entry ctx') E /\
      forall ns k, agree (length (cnodes st)) st' E k ns -> block_at ns l (c_entry ctx') k.

(** The statements after the first: entered through the label [a], they leave
    their pending edges in [a'], one of [a] and [b]. *)
Record seq_compiled (l : list workflow_syntax) (st st' : CState) (a b a' : nat) : Prop := {
  s_len : (length (cnodes st) <= length (cnodes st'))%nat;
  s_lab : (length (labels st) <= length (labels st'))%nat;
  s_which : a' = a \/ a' = b;
  s_srcs : forall l : nat, l <> a' -> srcs l st' = if decide (l = a \/ l = b) then [] else srcs l st;
  s_rng : forall e, e ∈ srcs a' st' ->
            e ∈ srcs a st \/ (length (cnodes st) <= src e < length (cnodes st'))%nat;
  s_at : forall k, exists q,
    (forall i, (i < length (cnodes st))%nat ->
       patch k i (srcs a' st') <$> cnodes st' !! i = patch q i (srcs a st) <$> cnodes st !! i) /\
    (forall ns, agree (length (cnodes st)) st' (srcs a' st') k ns -> seq_at ns l q k);
}.

Lemma seq_nil st a b : srcs b st = [] -> a <> b -> seq_compiled [] st st a b a.
Proof.
  intros Hb Hab; split; try lia; auto.
  - intros l Hl; case_decide as Hd; [destruct Hd; congruence | done].
  - intros k; exists k; split; [done | intros; constructor].
Qed.

Lemma seq_cons x l st st1 st' a b E q a' :
  is_return x = false -> a <> b -> srcs b st = [] -> compiled st st1 a b q E ->
  (forall ns k, agree (length (cnodes st)) st1 E k ns -> stmt_at ns x q k) ->
  seq_compiled l st1 st' b a a' -> seq_compiled (x :: l) st st' a b a'.
Proof.
  intros Hx Hab Hb [Hl Hlab Hold Hs Hr] Hat [Tl Tlab Tw Ts Tr Tat].
  assert (Hsa : srcs a st1 = []) by (rewrite Hs, decide_True; done).
  assert (Hsb : srcs b st1 = E) by (rewrite Hs, decide_False, decide_True, Hb; done).
  split; [lia | lia | tauto | | |].
  - intros m Hm. rewrite Ts by done. rewrite Hs.
    repeat case_decide; subst; try tauto; naive_solver.
  - intros e He. apply Tr in He as [He | He]; [|right; lia].
    rewrite Hsb in He. apply Hr in He. right; lia.
  - intros k. destruct (Tat k) as (q2 & Hq2 & Hseq). rewrite Hsb in Hq2. exists q. split.
    + intros i Hi. rewrite Hq2 by lia. rewrite patch_fmap_out; [by apply Hold|].
      intros e He; apply Hr in He; lia.
    + intros ns Hns. apply (at_seq_cons _ _ _ _ q2); [done | |].
      * apply Hat. intros i Hi. rewrite <- Hq2 by lia. apply Hns; lia.
      * apply Hseq. intros i Hi. apply Hns; lia.
Qed.

Lemma seq_ret l st r st' a b :
  a <> b -> srcs b st = [] -> st_ok st -> Attach a PEnd st = Some (r, st') ->
  seq_compiled (RETURN_STMT :: l) st st' a b b.
Proof.
  intros Hab Hb Hok (Hl & Hn & Hlab & Hs)%Attach_spec.
  assert (Hsb : srcs b st' = []) by (rewrite Hs, decide_False; done).
  split; [lia | lia | tauto | | |].
  - intros m Hm. rewrite Hs. repeat case_decide; subst; try tauto; naive_solver.
  - rewrite Hsb; set_solver.
  - intros k; exists PEnd. rewrite Hsb. split.
    + intros i Hi. rewrite Hn. by destruct (cnodes st !! i).
    + intros; constructor.
Qed.

Lemma seq_ok l st st' a b a' : st_ok st -> seq_compiled l st st' a b a' -> st_ok st'.
Proof.
  intros Hok [Hl _ _ Hs Hr _] m e. destruct (decide (m = a')) as [->|Hm].
  - intros [He|He]%Hr; [apply Hok in He|]; lia.
  - rewrite Hs by done. case_decide; [set_solver | intros He; apply Hok in He; lia].
Qed.

(** The loop of [CompileBlock] after its first statement. *)
Lemma stmt_loop_seq l :
  Forall stmt_spec l -> forall ctx sctx st r st',
    stmt_loop ComplieStmt false l ctx sctx st = Some (r, st') ->
    prev_label sctx <> next_label sctx ->
    (prev_label sctx < length (labels st))%nat -> (next_label sctx < length (labels st))%nat ->
    srcs (next_label sctx) st = [] -> st_ok st ->
    r.1 = ctx /\ seq_compiled l st st' (prev_label sctx) (next_label sctx) (prev_label r.2).
Proof.
  induction 1 as [|x l Hx _ IH]; intros ctx sctx st r st' H Hne Hp Hn Hb Hok; cbn [stmt_loop] in H.
  - st_inv. split; [done | by apply seq_nil].
  - st_inv. destruct (is_return x) eqn:Hr.
    + destruct x; try discriminate. cbn in Hm; unfold CompileReturnStmt in Hm. st_inv.
      split; [done|]. by eapply seq_ret.
    + destruct (Hx _ _ _ _ Hm Hr Hne Hp Hn Hok) as (Ea & E & HC & HA).
      rewrite Ea in Hk. apply IH in Hk as (Hr1 & Hr2); cbn in *; try done.
      * split; [done|]. by eapply seq_cons.
      * destruct HC; lia.
      * destruct HC; lia.
      * destruct HC as [_ _ _ Hs _]. by rewrite Hs, decide_True.
      * by eapply compiled_ok.
Qed.

(** The end of [CompileBlock], given the statements. *)
Lemma block_end st st1 st2 st3 st4 p n sp sn a' q r4 r5 l :
  p <> n -> (p < length (labels st))%nat -> (n < length (labels st))%nat -> st_ok st ->
  sp = length (labels st) -> sn = S sp ->
  cnodes st1 = cnodes st -> length (labels st1) = S (S (length (labels st))) ->
  (forall m : nat, srcs m st1 = srcs m st) ->
  seq_compiled l st1 st2 sp sn a' ->
  Attach p q st2 = Some (r4, st3) -> Append n a' st3 = Some (r5, st4) ->
  compiled st st4 p n q (srcs a' st2) /\
  forall ns k, agree (length (cnodes st)) st4 (srcs a' st2) k ns ->
    agree (length (cnodes st1)) st2 (srcs a' st2) k ns.
Proof.
  intros Hpn Hp Hn Hok -> -> Hc1 Hl1 Hs1 HS H4 H5.
  assert (Hnew : forall m : nat, (length (labels st) <= m)%nat -> srcs m st = []).
  { intros m Hm; unfold srcs. by rewrite (proj2 (lookup_ge_None _ _)). }
  assert (Ha' : (length (labels st) <= a')%nat) by (destruct (s_which _ _ _ _ _ _ HS); lia).
  assert (Hok2 : st_ok st2).
  { eapply seq_ok; [|exact HS]. intros m e; rewrite Hs1, Hc1; apply Hok. }
  apply Attach_spec in H4 as (L3 & N3 & B3 & S3).
  destruct HS as [Tl Tlab Tw Ts Tr Tat]. rewrite Hc1 in *.
  apply Append_spec in H5 as (N4 & B4 & S4); [|lia..].
  assert (Hrng : forall e, e ∈ srcs a' st2 -> (length (cnodes st) <= src e < length (cnodes st2))%nat).
  { intros e He. apply Tr in He as [He|He]; [|done]. rewrite Hs1, Hnew in He by lia. set_solver. }
  assert (Hsp : srcs p st2 = srcs p st).
  { rewrite Ts by lia. rewrite Hs1, decide_False by lia. done. }
  split; [split; try lia|].
  - rewrite N4; lia.
  - intros i Hi. rewrite N4, N3, Hsp. f_equal.
    destruct (Tat PNull) as (q2 & Hq2 & _).
    rewrite <- (patch_fmap_out PNull i (srcs a' st2) (cnodes st2 !! i)) by (intros e He; apply Hrng in He; lia).
    rewrite Hq2 by done. rewrite Hs1, Hnew by lia. cbn. by destruct (cnodes st !! i).
  - intros m. rewrite S4, !S3.
    destruct (decide (m = a')) as [->|Hm].
    { rewrite !decide_False, Hnew by lia. done. }
    repeat case_decide; subst; try done; try lia.
    + rewrite Ts, Hs1 by lia. rewrite decide_False by lia. done.
    + rewrite Ts, Hs1 by lia. case_decide; [|done]. by rewrite Hnew by lia.
  - intros e He. rewrite N4, L3. by apply Hrng.
  - intros ns k Hns i Hi. rewrite Hns by (rewrite N4, L3; lia).
    rewrite N4, N3. rewrite Hsp, (old_edges st p) by (assumption || lia). done.
Qed.

Lemma block_correct l : Forall stmt_spec l -> block_spec (STMT_LIST l).
Proof.
  intros Hl ctx st ctx' st' H He Hne Hp Hn Hok.
  unfold CompileBlock, CompileBlock_of in H. st_inv.
  apply new_Label_spec in Hm as (-> & C1 & L1 & S1).
  apply new_Label_spec in Hm0 as (-> & C2 & L2 & S2).
  rewrite C1 in C2. rewrite L1 in L2.
  assert (S21 : forall m : nat, srcs m s0 = srcs m st) by (intros; by rewrite S2, S1).
  assert (Hok0 : st_ok s0) by (intros m e; rewrite S21, C2; apply Hok).
  assert (Hnew : forall m : nat, (length (labels st) <= m)%nat -> srcs m s0 = []).
  { intros m Hm; rewrite S21; unfold srcs. by rewrite (proj2 (lookup_ge_None _ _)). }
  rewrite L1 in Hm1.
  assert (Hseq : exists r1, a1.1 = with_entry r1 ctx /\
    seq_compiled l s0 s1 (length (labels st)) (S (length (labels st))) (prev_label a1.2) /\
    (forall ns k, agree (length (cnodes s0)) s1 (srcs (prev_label a1.2) s1) k ns ->
       block_at ns l r1 k)).
  { destruct Hl as [|x l Hx Hl]; cbn [stmt_loop] in Hm1.
    - st_inv. exists PNull. split; [by destruct ctx; cbn in *; subst|]. cbn. split.
      + apply seq_nil; [apply Hnew; lia | lia].
      + intros; constructor.
    - st_inv. destruct (is_return x) eqn:Hr.
      + destruct x; try discriminate. cbn in Hm; unfold CompileReturnStmt in Hm. st_inv.
        exists PNull; split; [done|]. split; [|intros; constructor]. cbn.
        eapply seq_ret; [lia | apply Hnew; lia | exact Hok0 | reflexivity].
      + destruct (Hx _ _ _ _ Hm Hr) as (Ea & E & HC & HA); cbn in *; [lia..|exact Hok0|].
        match goal with H : stmt_loop _ _ _ _ _ _ = _ |- _ => rename H into Hlp end.
        rewrite Ea in Hlp; cbn in Hlp.
        destruct (stmt_loop_seq l Hl _ _ _ _ _ Hlp) as (Hr1 & Hr2); cbn in *;
          [lia | destruct HC; lia | destruct HC; lia | | by eapply compiled_ok |].
        * destruct HC as [_ _ _ Hs _]. by rewrite Hs, decide_True.
        * exists (c_entry a). split; [by rewrite Hr1|]. split.
          { eapply seq_cons; [exact Hr | | | exact HC | exact HA | exact Hr2]; [lia | apply Hnew; lia]. }
          destruct HC as [Hlen _ _ Hs Hrg]. destruct Hr2 as [Tl _ _ _ _ Tat].
          intros ns k Hns. destruct (Tat k) as (q2 & Hq2 & Hsq).
          rewrite Hs, decide_False, decide_True, Hnew in Hq2 by lia. cbn in Hq2.
          apply (at_block_cons _ _ _ _ q2); [done | |].
          { apply HA. intros i Hi. rewrite <- Hq2 by lia. apply Hns; lia. }
          { apply Hsq. intros i Hi. apply Hns; lia. } }
  destruct Hseq as (r1 & Er & HS & HA). rewrite Er in *; cbn in *.
  exists l, (srcs (prev_label a1.2) s1). split; [done|]. split; [done|].
  edestruct block_end as [HC HG];
    [exact Hne | exact Hp | exact Hn | exact Hok | reflexivity | reflexivity | exact C2
    | exact L2 | exact S21 | exact HS | eassumption | eassumption |].
  split; [exact HC|]. intros ns k Hns. apply HA, HG, Hns.
Qed.

(** ** The statements one by one *)

Lemma srcs_ge st (m : nat) : (length (labels st) <= m)%nat -> srcs m st = [].
Proof. intros Hm; unfold srcs. by rewrite (proj2 (lookup_ge_None _ _)). Qed.

(** Attaching a label with nothing pending changes nothing. *)
Lemma Attach_empty l q st r st' :
  srcs l st = [] -> Attach l q st = Some (r, st') ->
  cnodes st' = cnodes st /\ length (labels st') = length (labels st) /\
  forall l' : nat, srcs l' st' = srcs l' st.
Proof.
  intros He H. pose proof (Attach_spec _ _ _ _ _ H) as (_ & _ & Hl & Hs).
  split; [unfold Attach in H; st_inv; cbn; by rewrite He|]. split; [done|].
  intros l'. rewrite Hs. case_decide; [by subst | done].
Qed.

(** The state after a condition: one new node, one edge pending in each of two
    distinct labels [t] and [f] that had nothing pending. *)
Record condition_at (st st' : CState) (c : workflow_syntax) (t f : nat) (nm : string) (b : bool)
  : Prop := {
  k_nodes : cnodes st' = cnodes st ++ [new_Node nm];
  k_lab : length (labels st') = length (labels st);
  k_srcs : forall l : nat, srcs l st' =
             if decide (l = t) then srcs l st ++ [mkEdge b (length (cnodes st))]
             else if decide (l = f) then srcs l st ++ [mkEdge (negb b) (length (cnodes st))]
             else srcs l st;
  k_at : forall (ns : list Node) qt qf,
    ns !! length (cnodes st)
      = Some (mkNode nm (if b then qt else qf) (if b then qf else qt)) ->
    exp_at ns c (length (cnodes st)) qt qf;
}.

Lemma CompileExp_condition c t f st ctx' st' :
  CompileExp c (mkContext PNull t f) st = Some (ctx', st') ->
  t <> f -> (t < length (labels st))%nat -> (f < length (labels st))%nat ->
  c_entry ctx' = PNode (length (cnodes st)) /\ exists nm b, condition_at st st' c t f nm b.
Proof.
  intros H Hne Ht Hf. apply CompileExp_spec in H as (nm & b & He & Hc & Hl & Ha & Hs); [|done..].
  split; [done|]. exists nm, b. split; [done | done | | by apply Ha].
  intros l. rewrite Hs; cbn. by rewrite decide_False.
Qed.

(** The condition's node, once its two edges go to [qt] and [qf]. *)
Lemma patch_condition b i nm qt qf :
  patch qf i [mkEdge (negb b) i] (patch qt i [mkEdge b i] (new_Node nm))
  = mkNode nm (if b then qt else qf) (if b then qf else qt).
Proof. cbn. rewrite !decide_True by done. by destruct b. Qed.

Lemma condition_ok st st' c t f nm b : st_ok st -> condition_at st st' c t f nm b -> st_ok st'.
Proof.
  intros Hok [Hn _ Hs _] l e. rewrite Hs, Hn, length_app; cbn.
  repeat case_decide; rewrite ?elem_of_app, ?list_elem_of_singleton;
    try (intros [He | ->]; cbn; [apply Hok in He|]; lia); intros He; apply Hok in He; lia.
Qed.

Lemma exp_stmt_correct s :
  (forall ctx, ComplieStmt s ctx = CompileExpStmt s ctx) -> stmt_spec s.
Proof.
  intros Hs ctx st ctx' st' H _ Hne Hp Hn Hok. rewrite Hs in H.
  unfold CompileExpStmt in H; st_inv. split; [done|]. cbn.
  apply CompileExp_spec in Hm as (nm & b & He & Hc & Hl & Ha & HS); cbn in *; [|done..].
  set (i := length (cnodes st)) in *. rewrite He in *.
  match goal with H : Attach _ _ _ = _ |- _ => apply Attach_spec in H as (L2 & N2 & B2 & S2) end.
  assert (Lc : length (cnodes s0) = S i) by (rewrite Hc, length_app; cbn; lia).
  assert (Hp0 : srcs (prev_label ctx) s0 = srcs (prev_label ctx) st)
    by (rewrite HS, decide_True, decide_False; done).
  rewrite Hp0 in N2.
  exists [mkEdge true i; mkEdge false i]. split; [split; try lia|].
  - intros j Hj. rewrite N2, Hc, lookup_app_l by done. done.
  - intros l. rewrite S2, HS. repeat case_decide; subst; congruence.
  - intros e He'. rewrite !elem_of_cons in He'. destruct He' as [->|[->|He']]; cbn; [lia..|set_solver].
  - intros ns k Hns. constructor. apply Ha. rewrite Hns by lia.
    rewrite N2, old_edges by (done || lia). rewrite Hc, lookup_app_r by lia.
    replace (i - length (cnodes st))%nat with 0%nat by lia. cbn. rewrite !decide_True by done.
    by destruct b.
Qed.

(** The part of [CompileIfStmt] up to the [else]: two labels [ce] and [ts], the
    condition, the then-block. *)
Lemma if_prefix c t ctx st s0 s1 s2 s3 s4 u cctx tctx ce ts :
  block_spec t ->
  new_Label st = Some (ce, s0) -> new_Label s0 = Some (ts, s1) ->
  CompileExp c (mkContext PNull ts ce) s1 = Some (cctx, s2) ->
  CompileBlock t (mkContext PNull ts (next_label ctx)) s2 = Some (tctx, s3) ->
  Attach ts (c_entry tctx) s3 = Some (u, s4) ->
  (next_label ctx < length (labels st))%nat -> st_ok st ->
  let i := length (cnodes st) in
  ce = length (labels st) /\ (ce < length (labels s4))%nat /\
  c_entry cctx = PNode i /\ st_ok s4 /\ (i < length (cnodes s4))%nat /\
  (length (labels st) <= length (labels s4))%nat /\
  (forall j, (j < i)%nat -> cnodes s4 !! j = cnodes st !! j) /\
  exists tl Et nm (b : bool),
    t = STMT_LIST tl /\
    (forall (ns : list Node) qt qf,
       ns !! i = Some (mkNode nm (if b then qt else qf) (if b then qf else qt)) ->
       exp_at ns c i qt qf) /\
    cnodes s4 !! i = Some (patch (c_entry tctx) i [mkEdge b i] (new_Node nm)) /\
    (forall e, e ∈ Et -> (i < src e < length (cnodes s4))%nat) /\
    (forall l : nat, srcs l s4 =
       if decide (l = ce) then [mkEdge (negb b) i]
       else if decide (l = next_label ctx) then srcs l st ++ Et else srcs l st) /\
    (forall ns k, agree (S i) s4 Et k ns -> block_at ns tl (c_entry tctx) k).
Proof.
  intros Ht H0 H1 Hc Hb Ha Hn Hok i.
  apply new_Label_spec in H0 as (-> & C0 & L0 & S0).
  apply new_Label_spec in H1 as (-> & C1 & L1 & S1).
  rewrite L0 in Hc, Hb, Ha, L1. rewrite C0 in C1.
  assert (S1' : forall l : nat, srcs l s1 = srcs l st) by (intros; by rewrite S1, S0).
  assert (Hok1 : st_ok s1) by (intros l e; rewrite S1', C1; apply Hok).
  apply CompileExp_condition in Hc as (Ec & nm & b & HK); [|lia..].
  assert (Hok2 : st_ok s2) by (by eapply condition_ok).
  destruct HK as [Kn Kl Ks Ka]. rewrite C1 in Ec, Kn, Ks, Ka. fold i in Ec, Ks, Ka.
  assert (Hi2 : length (cnodes s2) = S i) by (rewrite Kn, length_app; cbn; lia).
  destruct (Ht _ _ _ _ Hb) as (tl & Et & -> & Ec' & HC & HA); cbn in *; [done | lia.. | done |].
  assert (Hok3 : st_ok s3) by (by eapply compiled_ok).
  destruct HC as [Cl Clab Cold Cs Cr].
  apply Attach_empty in Ha as (N4 & L4 & S4); [|rewrite Cs; by rewrite decide_True].
  rewrite Hi2 in Cl, Cold, Cr, HA.
  assert (Hts : srcs (S (length (labels st))) s2 = [mkEdge b i]).
  { rewrite Ks, decide_True, S1', srcs_ge by lia. done. }
  rewrite Hts in Cold.
  split; [done|]. split; [lia|]. split; [done|].
  split; [intros l e; rewrite S4, N4; apply Hok3|]. rewrite N4. split; [lia|]. split; [lia|]. split.
  { intros j Hj. rewrite Cold by lia. rewrite patch_fmap_out.
    - by rewrite Kn, lookup_app_l.
    - intros e ->%list_elem_of_singleton; cbn; lia. }
  exists tl, Et, nm, b. split; [done|]. split; [exact Ka|]. split.
  { rewrite Cold by lia. rewrite Kn, lookup_app_r by lia. fold i. by rewrite Nat.sub_diag. }
  split; [intros e He; apply Cr in He; lia|]. split.
  { intros l. rewrite S4, Cs, !Ks, !S1'.
    repeat case_decide; subst; try lia; try done; rewrite ?srcs_ge by lia; done. }
  intros ns k Hns. apply HA. intros j Hj. rewrite <- N4. apply Hns. rewrite N4; lia.
Qed.

(** The last step of a statement: its pending label is attached to its entry. *)
Lemma finish st s4 s5 p n q E u :
  p <> n -> st_ok st ->
  (length (cnodes st) <= length (cnodes s4))%nat ->
  (length (labels st) <= length (labels s4))%nat ->
  (forall j, (j < length (cnodes st))%nat -> cnodes s4 !! j = cnodes st !! j) ->
  (forall l : nat, srcs l s4 = if decide (l = n) then srcs l st ++ E else srcs l st) ->
  (forall e, e ∈ E -> (length (cnodes st) <= src e < length (cnodes s4))%nat) ->
  Attach p q s4 = Some (u, s5) ->
  compiled st s5 p n q E /\
  forall ns k, agree (length (cnodes st)) s5 E k ns -> agree (length (cnodes st)) s4 E k ns.
Proof.
  intros Hne Hok Hlen Hlab Hold Hs Hr (L5 & N5 & B5 & S5)%Attach_spec.
  assert (Hp : srcs p s4 = srcs p st) by (rewrite Hs, decide_False; done).
  rewrite Hp in N5. split; [split; try lia|].
  - intros j Hj. by rewrite N5, Hold.
  - intros l. rewrite S5, Hs. repeat case_decide; subst; done.
  - intros e He; apply Hr in He; lia.
  - intros ns k Hns j Hj. rewrite Hns by lia. by rewrite N5, old_edges by (done || lia).
Qed.

(** [match e with EMPTY_STMT => _ | _ => _ end] has two cases. *)
Lemma else_cases (e : workflow_syntax) (m1 m2 : M unit) st r :
  match e with EMPTY_STMT => m1 | _ => m2 end st = Some r ->
  (e = EMPTY_STMT /\ m1 st = Some r) \/ (e <> EMPTY_STMT /\ m2 st = Some r).
Proof. destruct e; auto. Qed.

Lemma if_correct c t e :
  block_spec t -> (e <> EMPTY_STMT -> block_spec e) -> stmt_spec (IF_STMT c t e).
Proof.
  intros Ht He ctx st ctx' st' H _ Hne Hp Hn Hok.
  change (CompileIfStmt CompileBlock (IF_STMT c t e) ctx st = Some (ctx', st')) in H.
  unfold CompileIfStmt in H. st_inv. split; [done|]. cbn.
  match goal with
  | H1 : new_Label st = _, H2 : new_Label ?x = _, H3 : CompileExp _ _ _ = _,
    H4 : CompileBlock t _ _ = _, H5 : Attach _ (c_entry _) ?y = Some (_, ?z) |- _ =>
      pose proof (if_prefix c t ctx _ _ _ _ _ _ _ _ _ _ _ Ht H1 H2 H3 H4 H5 Hn Hok)
        as (Ece & Lce & Ecc & Hok4 & Li4 & LL4 & N4 & tl & Et & nm & b & -> & Ka & Ni & Rt & S4 & At);
      clear H1 H2 H3 H4 H5
  end.
  set (i := length (cnodes st)) in *. rewrite Ecc in *.
  apply else_cases in Hm4 as [[-> Hm4] | [Hne' Hm4]].
  - (* no else: the false edge stays pending *)
    apply Append_spec in Hm4 as (N6 & L6 & S6); [|lia..]. rewrite !S4 in S6.
    rewrite (decide_False (P := next_label ctx = a)), !decide_True in S6 by (done || lia).
    exists (Et ++ [mkEdge (negb b) i]).
    eapply finish in Hm5 as [HC HG]; [|exact Hne|exact Hok| | | | |]; cycle 1.
    + rewrite N6; lia.
    + lia.
    + intros j Hj. rewrite N6. by apply N4.
    + intros l. rewrite S6, S4. repeat case_decide; subst; try lia; try done.
      * by rewrite srcs_ge by lia.
      * by rewrite <- app_assoc.
    + intros x. rewrite elem_of_app, list_elem_of_singleton, N6.
      intros [Hx | ->]; [apply Rt in Hx | cbn]; lia.
    + split; [exact HC|]. intros ns k Hns%HG. apply (at_if _ _ _ _ (c_entry a2)).
      * apply Ka. rewrite Hns by (rewrite N6; lia). rewrite N6, Ni. cbn [fmap option_fmap option_map].
        rewrite patch_app, (patch_out _ _ Et) by (intros x Hx; apply Rt in Hx; lia).
        by rewrite patch_condition.
      * apply At. intros j Hj. rewrite Hns by (rewrite N6; lia). rewrite N6.
        apply patch_out_r. intros x ->%list_elem_of_singleton; cbn; lia.
  - (* else block: entered through the label of the false edge *)
    st_inv. destruct (He Hne' _ _ _ _ Hm) as (el & Ee & -> & Ea & HC & HA);
      cbn [prev_label next_label c_entry] in *; [done | lia.. | done |].
    destruct HC as [Cl Clab Cold Cs Cr].
    assert (Hce : srcs a s3 = [mkEdge (negb b) i]) by (by rewrite S4, decide_True).
    rewrite Hce in Cold. exists (Et ++ Ee).
    eapply finish in Hm5 as [HC HG]; [|exact Hne|exact Hok| | | | |]; cycle 1.
    + lia.
    + lia.
    + intros j Hj. rewrite Cold, patch_fmap_out by (lia || intros x ->%list_elem_of_singleton; cbn; lia).
      by apply N4.
    + intros l. rewrite Cs, !S4. repeat case_decide; subst; try lia; try done.
      * by rewrite srcs_ge by lia.
      * by rewrite app_assoc.
    + intros x. rewrite elem_of_app. intros [Hx | Hx]; [apply Rt in Hx | apply Cr in Hx]; lia.
    + split; [exact HC|]. intros ns k Hns%HG. apply (at_if_else _ _ _ _ _ (c_entry a2) (c_entry a6)).
      * apply Ka. rewrite Hns by lia. rewrite patch_fmap_out.
        { rewrite Cold, Ni by lia. cbn [fmap option_fmap option_map]. by rewrite patch_condition. }
        intros x [Hx | Hx]%elem_of_app; [apply Rt in Hx | apply Cr in Hx]; lia.
      * apply At. intros j Hj. rewrite Hns by lia.
        rewrite Cold by lia. rewrite (patch_fmap_out _ _ [_]) by (intros x ->%list_elem_of_singleton; cbn; lia).
        apply patch_out_r. intros x Hx; apply Cr in Hx; lia.
      * apply HA. intros j Hj. rewrite Hns by lia.
        apply patch_out_l. intros x Hx; apply Rt in Hx; lia.
Qed.

Lemma while_correct c t : block_spec t -> stmt_spec (WHILE_STMT c t).
Proof.
  intros Ht ctx st ctx' st' H _ Hne Hp Hn Hok.
  change (CompileWhileStmt CompileBlock (WHILE_STMT c t) ctx st = Some (ctx', st')) in H.
  unfold CompileWhileStmt in H. st_inv. split; [done|]. cbn [c_entry with_entry].
  apply new_Label_spec in Hm as (-> & C0 & L0 & S0).
  assert (Hok0 : st_ok s) by (intros l e; rewrite S0, C0; apply Hok).
  apply CompileExp_condition in Hm0 as (Ec & nm & b & HK); [|lia..].
  assert (Hok1 : st_ok s0) by (by eapply condition_ok).
  destruct HK as [Kn Kl Ks Ka]. rewrite C0 in Ec, Kn, Ks, Ka.
  set (i := length (cnodes st)) in *. rewrite Ec in *.
  assert (Hi : length (cnodes s0) = S i) by (rewrite Kn, length_app; cbn; lia).
  apply new_Label_spec in Hm1 as (-> & C1 & L1 & S1).
  destruct (Ht _ _ _ _ Hm2) as (tl & Eb & -> & _ & [Cl Clab Cold Cs Cr] & HA);
    cbn [prev_label next_label c_entry] in *;
    [done | lia.. | intros l e; rewrite S1, C1; apply Hok1 |].
  rewrite C1, Hi in Cl, Cold, Cr, HA.
  assert (Hbs : srcs (length (labels st)) s1 = [mkEdge b i]).
  { rewrite S1, Ks, decide_True, S0, srcs_ge by lia. done. }
  rewrite Hbs in Cold.
  apply Attach_empty in Hm3 as (N3 & L3 & S3); [|rewrite Cs; by rewrite decide_True].
  apply Attach_spec in Hm4 as (L4 & N4 & B4 & S4).
  assert (Hbe : srcs (length (labels s0)) s3 = Eb).
  { rewrite S3, Cs, decide_False, decide_True, S1, srcs_ge by lia. done. }
  rewrite Hbe, N3 in N4. rewrite N3 in L4.
  exists [mkEdge (negb b) i].
  eapply finish in Hm5 as [HC HG]; [|exact Hne|exact Hok| | | | |]; cycle 1.
  - lia.
  - lia.
  - intros j Hj. rewrite N4, patch_fmap_out by (intros x Hx; apply Cr in Hx; lia).
    rewrite Cold, patch_fmap_out by (lia || intros x ->%list_elem_of_singleton; cbn; lia).
    by rewrite Kn, lookup_app_l.
  - intros l. rewrite S4, S3, Cs, !S1, !Ks, !S0.
    repeat case_decide; subst; try lia; try done; by rewrite srcs_ge by lia.
  - intros x ->%list_elem_of_singleton; cbn; lia.
  - split; [exact HC|]. intros ns k Hns%HG. apply (at_while _ _ _ _ (c_entry a2)).
    + apply Ka. rewrite Hns by lia. rewrite N4, (patch_fmap_out _ _ Eb) by (intros x Hx; apply Cr in Hx; lia).
      rewrite Cold, Kn, lookup_app_r by lia. fold i. rewrite Nat.sub_diag.
      cbn [lookup list_lookup fmap option_fmap option_map]. by rewrite patch_condition.
    + apply HA. intros j Hj. rewrite Hns by lia.
      rewrite patch_fmap_out by (intros x ->%list_elem_of_singleton; cbn; lia). by rewrite N4.
Qed.

Lemma dowhile_correct c t : block_spec t -> stmt_spec (DOWHILE_STMT t c).
Proof.
  intros Ht ctx st ctx' st' H _ Hne Hp Hn Hok.
  change (CompileDoWhileStmt CompileBlock (DOWHILE_STMT t c) ctx st = Some (ctx', st')) in H.
  unfold CompileDoWhileStmt in H. st_inv. split; [done|]. cbn [c_entry with_entry].
  apply new_Label_spec in Hm as (-> & C0 & L0 & S0).
  assert (Hok0 : st_ok s) by (intros l e; rewrite S0, C0; apply Hok).
  destruct (Ht _ _ _ _ Hm0) as (tl & Eb & -> & _ & HC & HA);
    cbn [prev_label next_label c_entry] in *; [done | lia.. | done |].
  assert (Hok1 : st_ok s0) by (by eapply compiled_ok).
  destruct HC as [Cl Clab Cold Cs Cr]. rewrite C0 in Cl, Cold, Cr, HA.
  apply new_Label_spec in Hm1 as (-> & C1 & L1 & S1).
  apply new_Label_spec in Hm2 as (-> & C2 & L2 & S2).
  assert (Hok2 : st_ok s2) by (intros l e; rewrite S2, S1, C2, C1; apply Hok1).
  apply CompileExp_condition in Hm3 as (Ec & nm & b & HK); [|lia..].
  destruct HK as [Kn Kl Ks Ka]. rewrite C2, C1 in Ec, Kn, Ks, Ka.
  set (i := length (cnodes s0)) in *.
  assert (Hi : length (cnodes s3) = S i) by (rewrite Kn, length_app; cbn; lia).
  apply Attach_spec in Hm4 as (L4 & N4 & B4 & S4).
  assert (Htl : srcs (length (labels s0)) s3 = [mkEdge b i]).
  { rewrite Ks, decide_True, S2, S1, srcs_ge by lia. done. }
  rewrite Htl in N4.
  apply Attach_spec in Hm5 as (L5 & N5 & B5 & S5). rewrite Ec in *.
  assert (Hbe : srcs (length (labels st)) s4 = Eb).
  { rewrite S4, Ks, !decide_False, S2, S1, Cs, decide_False, decide_True, S0, srcs_ge by lia. done. }
  rewrite Hbe in N5.
  apply Attach_empty in Hm6 as (N6 & L6 & S6).
  2:{ rewrite S5, S4, Ks, !decide_False, S2, S1, Cs, decide_True by lia. done. }
  apply Append_spec in Hm7 as (N7 & L7 & S7); [|lia..].
  exists [mkEdge (negb b) i]. split; [split|].
  - rewrite N7, N6; lia.
  - lia.
  - intros j Hj. rewrite N7, N6, N5, patch_fmap_out by (intros x Hx; apply Cr in Hx; lia).
    rewrite N4, patch_fmap_out by (intros x ->%list_elem_of_singleton; cbn; lia).
    rewrite Kn, lookup_app_l by lia. rewrite Cold by lia. by rewrite S0.
  - intros l. rewrite S7, !S6, !S5, !S4, !Ks, !S2, !S1, !Cs, !S0.
    repeat case_decide; subst; try lia; try done; rewrite ?(srcs_ge st (length (labels _))) by lia; done.
  - intros x ->%list_elem_of_singleton; cbn. rewrite N7, N6; lia.
  - intros ns k Hns. unfold agree in Hns. rewrite N7, N6 in Hns.
    apply (at_do _ _ _ i).
    + apply HA. intros j Hj. rewrite Hns by lia.
      rewrite patch_fmap_out by (intros x ->%list_elem_of_singleton; cbn; lia).
      rewrite N5, N4, (patch_fmap_out _ _ [_]) by (intros x ->%list_elem_of_singleton; cbn; lia).
      by rewrite Kn, lookup_app_l by lia.
    + apply Ka. rewrite Hns by lia. rewrite N5, (patch_fmap_out _ _ Eb) by (intros x Hx; apply Cr in Hx; lia).
      rewrite N4, Kn, lookup_app_r by lia. fold i. rewrite Nat.sub_diag.
      cbn [lookup list_lookup fmap option_fmap option_map]. by rewrite patch_condition.
Qed.

(** Every statement and every block meets its specification. *)
Lemma compile_correct s : stmt_spec s /\ block_spec s.
Proof.
  induction s using syntax_ind; split;
    try (apply exp_stmt_correct; reflexivity);
    try (intros ? ? ? ? H; discriminate H).
  - apply block_correct. revert H; apply Forall_impl; by intros x [? _].
  - apply if_correct; tauto.
  - apply while_correct; tauto.
  - apply dowhile_correct; tauto.
  - intros ? ? ? ? _ H; discriminate H.
Qed.

(** The graph built for a block implements it: entered at the entry, it ends at
    the end node. *)
Lemma build_graph_at nm s g :
  build_graph nm s = Some g ->
  exists l, s = STMT_LIST l /\ block_at (nodes g) l (entry g) PEnd.
Proof.
  unfold build_graph. destruct (st_bind _ _ _) as [[q st]|] eqn:H; [|discriminate].
  intros [= <-]; cbn. st_inv.
  apply new_Label_spec in Hm as (-> & C0 & L0 & S0).
  apply new_Label_spec in Hm0 as (-> & C1 & L1 & S1). cbn in C0, L0, S0.
  assert (Hs : forall l : nat, srcs l s1 = []) by (intros; by rewrite S1, S0).
  destruct (proj2 (compile_correct s) _ _ _ _ Hm1) as (l & E & -> & Ec & HC & HA);
    cbn [prev_label next_label c_entry labels length] in *; [done | lia.. | intros m e; rewrite Hs; set_solver |].
  exists l; split; [done|]. rewrite Ec in Hm2; cbn in Hm2.
  apply Attach_spec in Hm2 as (L3 & N3 & _ & _).
  destruct HC as [_ _ _ Cs _]. rewrite Cs, decide_False, decide_True, Hs in N3 by lia.
  apply HA. intros i _. by rewrite N3.
Qed.

(** ** Compiled graphs are well formed *)

(** Edges and pending edges stay within the nodes allocated so far. *)
Definition store_ok (st : CState) : Prop := wf_nodes (cnodes st) /\ st_ok st.

Lemma edge_ok_le n m p : edge_ok n p -> (n <= m)%nat -> edge_ok m p.
Proof. destruct p; cbn; lia. Qed.

Lemma store_ok_new st r st' : store_ok st -> new_Label st = Some (r, st') ->
  store_ok st' /\ cnodes st' = cnodes st.
Proof.
  intros [Hw Hs] (_ & C & _ & S)%new_Label_spec. split; [|done].
  split; [by rewrite C | intros l e; rewrite S, C; apply Hs].
Qed.

Lemma patch_edge_ok n q i E nd :
  edge_ok n q -> edge_ok n (true_edge nd) /\ edge_ok n (false_edge nd) ->
  edge_ok n (true_edge (patch q i E nd)) /\ edge_ok n (false_edge (patch q i E nd)).
Proof.
  intros Hq; revert nd; induction E as [|e E IH]; intros nd Hnd; cbn; [done|].
  apply IH. case_decide; [|done]. destruct (direct e); cbn; tauto.
Qed.

Lemma store_ok_Attach st l q r st' :
  store_ok st -> edge_ok (length (cnodes st)) q -> Attach l q st = Some (r, st') ->
  store_ok st' /\ length (cnodes st') = length (cnodes st).
Proof.
  intros [Hw Hs] Hq (L & N & _ & S)%Attach_spec. split; [|done]. split.
  - intros i nd Hi. rewrite N in Hi. rewrite L.
    destruct (cnodes st !! i) as [nd0|] eqn:E0; [|discriminate]. injection Hi as <-.
    by apply patch_edge_ok, (Hw i).
  - intros m e. rewrite S, L. case_decide; [set_solver | apply Hs].
Qed.

Lemma set_srcs_incl l l' es st e : e ∈ srcs l' (set_srcs l es st) -> e ∈ es \/ e ∈ srcs l' st.
Proof.
  unfold srcs, set_srcs; cbn. destruct (decide (l = l')) as [<-|Hne].
  - destruct (decide (l < length (labels st))%nat).
    + rewrite list_lookup_insert_eq by done. auto.
    + rewrite list_insert_ge by lia. auto.
  - rewrite list_lookup_insert_ne by done. auto.
Qed.

Lemma store_ok_Append st l l' r st' :
  store_ok st -> Append l l' st = Some (r, st') -> store_ok st' /\ cnodes st' = cnodes st.
Proof.
  intros [Hw Hs] H. unfold Append, Label_Reset in H; st_inv. split; [|done]. split; [done|].
  intros m e He. apply set_srcs_incl in He as [He|He]; [set_solver|].
  apply set_srcs_incl in He as [[He|He]%elem_of_app|He]; by eapply Hs.
Qed.

(** A compilation function keeps the store well formed, only adds nodes and
    returns an entry inside it. *)
Definition keeps (f : Context -> M Context) : Prop :=
  forall ctx st ctx' st', store_ok st -> edge_ok (length (cnodes st)) (c_entry ctx) ->
    f ctx st = Some (ctx', st') ->
    store_ok st' /\ (length (cnodes st) <= length (cnodes st'))%nat /\
    edge_ok (length (cnodes st')) (c_entry ctx').

Lemma AddEdge_incl l e st r st' :
  AddEdge l e st = Some (r, st') ->
  cnodes st' = cnodes st /\
  forall l' x, x ∈ srcs l' st' -> x = e \/ exists l2, x ∈ srcs l2 st.
Proof.
  unfold AddEdge; intros H; st_inv. split; [done|]. intros l' x Hx.
  apply set_srcs_incl in Hx as [[Hx|Hx]%elem_of_app|Hx]; [eauto | left | eauto].
  by apply list_elem_of_singleton in Hx.
Qed.

Lemma CompileExp_keeps s : keeps (CompileExp s).
Proof.
  induction s using syntax_ind; intros ctx st ctx' st' [Hw Hs] Hc HX;
    cbn [CompileExp] in HX; try discriminate.
  - unfold CompileName in HX; st_inv.
    apply AddEdge_incl in Hm0 as (C1 & S1). apply AddEdge_incl in Hm1 as (C2 & S2).
    rewrite C1 in C2. cbn [cnodes]. unfold AddNode. rewrite C2, length_app; cbn [length c_entry with_entry].
    split; [|split; cbn; lia]. split; cbn [cnodes].
    + intros j nd. rewrite length_app; cbn [length]. rewrite lookup_app_Some, list_lookup_singleton_Some.
      intros [Hj | (_ & _ & <-)]; [|done].
      destruct (Hw j nd Hj); split; eapply edge_ok_le; eauto; lia.
    + intros l e He. cbn [cnodes]. rewrite length_app; cbn [length].
      change (e ∈ srcs l s1) in He.
      apply S2 in He as [-> | (l2 & He)]; [cbn; lia|].
      apply S1 in He as [-> | (l3 & He)]; [cbn; lia|]. apply Hs in He; lia.
  - unfold CompileUnopExp in HX. case_bool_decide; [|discriminate].
    eapply (IHs (swap_labels ctx)); [by split | exact Hc | exact HX].
Qed.

Ltac keep_step :=
  match goal with
  | H : store_ok ?s, Hm : new_Label ?s = Some _ |- _ =>
      apply (store_ok_new _ _ _ H) in Hm as [? Hm]; apply (f_equal length) in Hm
  | H : store_ok ?s, Hm : CompileExp _ (mkContext PNull _ _) ?s = Some _ |- _ =>
      unshelve epose proof (CompileExp_keeps _ _ _ _ _ H _ Hm) as (? & ? & ?); [exact I|]; clear Hm
  | H : store_ok ?s, K : keeps ?f, Hm : ?f (mkContext PNull _ _) ?s = Some _ |- _ =>
      unshelve epose proof (K _ _ _ _ H _ Hm) as (? & ? & ?); [exact I|]; clear Hm
  | H : store_ok ?s, Hm : Append _ _ ?s = Some _ |- _ =>
      apply (store_ok_Append _ _ _ _ _ H) in Hm as [? Hm]; apply (f_equal length) in Hm
  | H : store_ok ?s, Hm : Attach _ ?q ?s = Some _ |- _ =>
      unshelve epose proof (store_ok_Attach _ _ _ _ _ H _ Hm) as [? ?];
      [first [ exact I | eapply edge_ok_le; [eassumption | lia ] ] |]; clear Hm
  end.
Ltac keep_end :=
  split; [assumption | split; [lia | cbn; first [ exact I | eapply edge_ok_le; [eassumption | lia] ] ]].

Lemma stmt_loop_keeps l : Forall (fun s => keeps (ComplieStmt s)) l ->
  forall first ctx sctx st r st', store_ok st ->
    edge_ok (length (cnodes st)) (c_entry ctx) -> edge_ok (length (cnodes st)) (c_entry sctx) ->
    stmt_loop ComplieStmt first l ctx sctx st = Some (r, st') ->
    store_ok st' /\ (length (cnodes st) <= length (cnodes st'))%nat /\
    edge_ok (length (cnodes st')) (c_entry r.1).
Proof.
  induction 1 as [|x l Hx _ IH]; intros first ctx sctx st r st' Hst Hc Hs H; cbn [stmt_loop] in H.
  - st_inv. keep_end.
  - st_inv. destruct (Hx _ _ _ _ Hst Hs Hm) as (Hst1 & Hl & He).
    assert (Hc' : edge_ok (length (cnodes s)) (c_entry (if first then with_entry (c_entry a) ctx else ctx)))
      by (destruct first; cbn; [exact He | by eapply edge_ok_le]).
    destruct (is_return x).
    + st_inv. cbn. auto.
    + apply IH in Hk as (? & ? & ?); [keep_end | done..].
Qed.

Lemma exp_stmt_keeps s : keeps (CompileExpStmt s).
Proof.
  intros ctx st ctx' st' Hst Hc HX. unfold CompileExpStmt in HX. st_inv. repeat keep_step. keep_end.
Qed.

Lemma compile_keeps s : keeps (ComplieStmt s) /\ keeps (CompileBlock s).
Proof.
  induction s using syntax_ind; split; intros ctx st ctx' st' Hst Hc HX;
    try discriminate HX;
    try exact (exp_stmt_keeps _ _ _ _ _ Hst Hc HX).
  - unfold CompileBlock, CompileBlock_of in HX. st_inv. repeat keep_step.
    match goal with H : stmt_loop _ _ _ _ _ _ = _ |- _ => apply stmt_loop_keeps in H as (? & ? & ?) end;
      try done; try (eapply edge_ok_le; [exact Hc | lia]).
    + repeat keep_step. keep_end.
    + revert H; apply Forall_impl; tauto.
  - change (CompileIfStmt CompileBlock (IF_STMT s1 s2 s3) ctx st = Some (ctx', st')) in HX.
    destruct IHs2 as [_ K2]. destruct IHs3 as [_ K3].
    unfold CompileIfStmt in HX. st_inv. repeat keep_step.
    match goal with H : _ = Some (_, _) |- _ => apply else_cases in H as [[-> H] | [_ H]] end;
      st_inv; repeat keep_step; keep_end.
  - change (CompileWhileStmt CompileBlock (WHILE_STMT s1 s2) ctx st = Some (ctx', st')) in HX.
    destruct IHs2 as [_ K2]. unfold CompileWhileStmt in HX. st_inv. repeat keep_step. keep_end.
  - change (CompileDoWhileStmt CompileBlock (DOWHILE_STMT s1 s2) ctx st = Some (ctx', st')) in HX.
    destruct IHs1 as [_ K1]. unfold CompileDoWhileStmt in HX. st_inv.
    repeat keep_step. keep_end.
  - change (CompileReturnStmt RETURN_STMT ctx st = Some (ctx', st')) in HX.
    unfold CompileReturnStmt in HX. st_inv. repeat keep_step. keep_end.
Qed.

Lemma build_graph_wf nm s g : build_graph nm s = Some g -> wf_graph g.
Proof.
  unfold build_graph. destruct (st_bind _ _ _) as [[q st]|] eqn:H; [|discriminate].
  intros [= <-]. st_inv. destruct (compile_keeps s) as [_ K].
  assert (Hi : store_ok (mkCState [] [])) by (split; intros ? ?; [|intros He]; set_solver).
  repeat keep_step. split; cbn; [match goal with H : store_ok s3 |- _ => apply H end | eapply edge_ok_le; [eassumption | lia]].
Qed.
