(* ===== verification/Preservation.v ===== *)
(** * Semantic preservation of the workflow compiler

    A run of the compiled graph from its entry to the end node is exactly an
    execution of the workflow, in both directions. *)
From Stdlib Require Import ZArith Lia.
From stdpp Require Import base gmap sets list strings relations.
From S2P Require Import Prelude Graph Syntax Compiler Semantics CompilerCorrect.

Section Preservation.
Context {S : Type} (run : string -> S -> bool * S).
Context (ns : list Node) (Hset : forall i nd, ns !! i = Some nd -> edges_set nd).

Abbreviation steps := (rtc (gstep run ns)).

(** The node of an expression makes one step, to the edge of its value. *)
Lemma exp_step e i t f s b s' :
  exp_at ns e i t f -> eval_exp run e s = Some (b, s') ->
  gstep run ns (PNode i, s) (if b then t else f, s').
Proof.
  revert t f b; induction e using syntax_ind; intros t f b0 Ha He; cbn in Ha, He; try done.
  - injection He as He. pose proof (gstep_node run ns i _ s b0 s' Ha He) as Hs. exact Hs.
  - destruct Ha as [-> Ha]. rewrite bool_decide_eq_true_2 in He by done.
    destruct (eval_exp run e s) as [[b1 s1]|]; [|discriminate]. injection He as <- <-.
    specialize (IHe f t b1 Ha eq_refl). by destruct b1.
Qed.

(** Conversely, a step of the node evaluates the expression. *)
Lemma exp_step_inv e i t f s c :
  exp_at ns e i t f -> gstep run ns (PNode i, s) c ->
  exists b s', eval_exp run e s = Some (b, s') /\ c = (if b then t else f, s').
Proof.
  intros Ha Hc. assert (exists b s', eval_exp run e s = Some (b, s')) as (b & s' & E).
  { clear Hc. revert t f Ha; induction e using syntax_ind; intros t f Ha; cbn in *; try done.
    - destruct (run n s); eauto.
    - destruct Ha as [-> Ha]. rewrite bool_decide_eq_true_2 by done.
      destruct (IHe _ _ Ha) as (b & s' & ->). eauto. }
  exists b, s'. split; [done|]. eapply gstep_det; [exact Hc|]. by eapply exp_step.
Qed.

(** The edges of an expression's node are set. *)
Lemma exp_at_set e i t f : exp_at ns e i t f -> t <> PNull /\ f <> PNull.
Proof.
  revert t f; induction e using syntax_ind; intros t f Ha; cbn in Ha; try done.
  - apply Hset in Ha. exact Ha.
  - destruct Ha as [_ Ha]. apply IHe in Ha. tauto.
Qed.

Lemma exp_block_t e i t f l k :
  exp_at ns e i t f -> block_at ns l t k -> t <> PNull /\ seq_at ns l t k.
Proof.
  intros [Ht _]%exp_at_set Hb. split; [done|]. destruct Hb; [done | done | by econstructor].
Qed.

Lemma exp_block_f e i t f l k :
  exp_at ns e i t f -> block_at ns l f k -> f <> PNull /\ seq_at ns l f k.
Proof.
  intros [_ Hf]%exp_at_set Hb. split; [done|]. destruct Hb; [done | done | by econstructor].
Qed.

(** Enter the block on the true (false) edge of the condition in the context. *)
Ltac enter_t :=
  match goal with H : exp_at _ _ _ ?t _, H2 : block_at _ _ ?t _ |- _ =>
    destruct (exp_block_t _ _ _ _ _ _ H H2) end.
Ltac enter_f :=
  match goal with H : exp_at _ _ _ _ ?f, H2 : block_at _ _ ?f _ |- _ =>
    destruct (exp_block_f _ _ _ _ _ _ H H2) end.

Definition target (o : outcome) (k : ptr) : ptr :=
  match o with Normal => k | Returned => PEnd end.

(** A run never reaches a null pointer. *)
Lemma steps_nonnull c c' : steps c c' -> c.1 <> PNull -> c'.1 <> PNull.
Proof.
  induction 1 as [|c c1 c2 Hs _ IH]; [done|]. intros _; apply IH.
  destruct Hs as [i nd s b s' Hi _]. destruct (Hset i nd Hi). by destruct b.
Qed.

(** A block entered at a real node is a sequence of statements. *)
Lemma block_seq l p k : block_at ns l p k -> p <> PNull -> seq_at ns l p k.
Proof. destruct 1; intros Hp; [done | done | by econstructor]. Qed.

(** ** Forward: an execution of the workflow is a run of the graph *)

Lemma forward :
  (forall x s o s', exec_stmt run x s o s' ->
     forall p k, is_return x = false -> p <> PNull -> stmt_at ns x p k ->
       steps (p, s) (target o k, s')) /\
  (forall l s o s', exec_block run l s o s' ->
     forall p k, p <> PNull -> seq_at ns l p k -> steps (p, s) (target o k, s')).
Proof.
  apply (exec_mutind S run
    (fun x s o s' _ => forall p k, is_return x = false -> p <> PNull -> stmt_at ns x p k ->
       steps (p, s) (target o k, s'))
    (fun l s o s' _ => forall p k, p <> PNull -> seq_at ns l p k ->
       steps (p, s) (target o k, s'))).
  - intros e s b s' He p k _ _ Ha. destruct Ha; try discriminate He.
    eapply exp_step in He; [|eassumption]. apply rtc_once. by destruct b.
  - discriminate.
  - intros c t e s s1 o s2 Hc _ IH p k _ _ Ha. inv Ha; [done | |];
      (eapply rtc_l; [eapply (exp_step c _ _ _ s true); eassumption|]);
      (enter_t; by apply IH).
  - intros c t e s s1 o s2 Hc _ IH p k _ _ Ha. inv Ha; try done.
    eapply rtc_l; [eapply (exp_step c _ _ _ s false); eassumption|].
    enter_f; by apply IH.
  - intros c t s s1 Hc p k _ _ Ha. inv Ha; try done. apply rtc_once.
    by eapply (exp_step c _ _ _ s false).
  - intros c b s s1 Hc p k _ _ Ha. inv Ha; try done. apply rtc_once.
    by eapply (exp_step c _ _ _ s false).
  - intros c b s s1 s2 o s3 Hc _ IHb _ IHw p k _ Hp Ha. assert (Ha' := Ha). inv Ha; try done.
    eapply rtc_l; [eapply (exp_step c _ _ _ s true); eassumption|].
    enter_t.
    etransitivity; [by eapply (IHb pb (PNode i)) | by eapply IHw].
  - intros c b s s1 s2 Hc _ IHb p k _ Hp Ha. inv Ha; try done.
    eapply rtc_l; [eapply (exp_step c _ _ _ s true); eassumption|].
    enter_t. by eapply (IHb pb (PNode i)).
  - intros c b s s1 s2 _ IHb Hc p k _ Hp Ha. inv Ha; try done.
    etransitivity; [eapply (IHb p (PNode i)); [done | by apply block_seq]|].
    apply rtc_once. by eapply (exp_step c _ _ _ s1 false).
  - intros c b s s1 s2 o s3 _ IHb Hc _ IHw p k _ Hp Ha. assert (Ha' := Ha). inv Ha; try done.
    etransitivity; [eapply (IHb p (PNode i)); [done | by apply block_seq]|].
    eapply rtc_l; [eapply (exp_step c _ _ _ s1 true); eassumption|]. by eapply IHw.
  - intros c b s s1 _ IHb p k _ Hp Ha. inv Ha; try done.
    eapply (IHb p (PNode i)); [done | by apply block_seq].
  - intros s p k Hp Ha. inv Ha. reflexivity.
  - intros x l s s1 o s2 Hx IHx _ IHl p k Hp Ha. inv Ha.
    + inv Hx; discriminate.
    + assert (Hst : steps (p, s) (k', s1)) by (by eapply (IHx p k')).
      etransitivity; [exact Hst|]. apply IHl; [|done]. by apply (steps_nonnull _ _ Hst).
  - intros x l s s1 Hx IHx p k Hp Ha. inv Ha.
    + inv Hx; reflexivity.
    + by eapply (IHx p k').
Qed.

(** ** Backward: a complete run of the graph executes the workflow *)

Abbreviation nstep := (nsteps (gstep run ns)).

Lemma nstep_end m s c : nstep m (PEnd, s) c -> m = 0%nat /\ c = (PEnd, s).
Proof. inversion 1 as [|? ? c1 ? Hs]; subst; [done|]. inversion Hs. Qed.

Lemma nstep_first n p s s' :
  nstep n (p, s) (PEnd, s') -> p <> PEnd ->
  exists m c, n = Datatypes.S m /\ gstep run ns (p, s) c /\ nstep m c (PEnd, s').
Proof. inversion 1; subst; [done | eauto]. Qed.

(** A run of [n] steps to the end that enters [x] at [p] executes [x] and has
    fewer steps left afterwards. *)
Definition stmt_runs (n : nat) (x : workflow_syntax) : Prop :=
  forall p k s s', is_return x = false -> p <> PNull -> stmt_at ns x p k ->
    nstep n (p, s) (PEnd, s') ->
    exists o s1 m, (o = Normal -> m < n)%nat /\ (m <= n)%nat /\ exec_stmt run x s o s1 /\ nstep m (target o k, s1) (PEnd, s').

Definition seq_runs (n : nat) (l : list workflow_syntax) : Prop :=
  forall p k s s', p <> PNull -> seq_at ns l p k ->
    nstep n (p, s) (PEnd, s') ->
    exists o s1 m, (m <= n)%nat /\ exec_block run l s o s1 /\ nstep m (target o k, s1) (PEnd, s').

(** The condition of a statement takes the first step of a run. *)
Lemma cond_first n e i t f s s' :
  exp_at ns e i t f -> nstep n (PNode i, s) (PEnd, s') ->
  exists m b s1, n = Datatypes.S m /\ eval_exp run e s = Some (b, s1) /\
    nstep m (if b then t else f, s1) (PEnd, s').
Proof.
  intros He Hn. apply nstep_first in Hn as (m & c & -> & Hs & Hn); [|done].
  destruct (exp_step_inv _ _ _ _ _ _ He Hs) as (b & s1 & E & ->). eauto 6.
Qed.

(** The head of a sequence at the same number of steps, its tail at fewer. *)
Lemma seq_runs_cons n x l :
  stmt_runs n x -> (forall m, (m < n)%nat -> seq_runs m l) -> seq_runs n (x :: l).
Proof.
  intros Hx Hl p k s s' Hp Ha Hn. inv Ha.
  - apply nstep_end in Hn as Hn'. destruct Hn' as [-> [= <-]].
    exists Returned, s', 0%nat. repeat split; [lia | apply exec_stop, exec_return | exact Hn].
  - destruct (Hx p k' s s') as (o & s1 & m & Hm & Hm0 & Ho & Hr); try done.
    destruct o; cbn in Hr.
    + assert (Hk' : k' <> PNull).
      { intros ->. inversion Hr as [|? ? ? ? Hs]; inversion Hs. }
      destruct (Hl m (Hm eq_refl) k' k s1 s') as (o & s2 & m' & Hm' & Ho' & Hr'); try done.
      exists o, s2, m'. repeat split; [lia | by eapply exec_cons | done].
    + exists Returned, s1, m. repeat split; [lia | by apply exec_stop | exact Hr].
Qed.

Section Step.
Context (n : nat).
Context (IHx : forall m x, (m < n)%nat -> stmt_runs m x).
Context (IHl : forall m l, (m < n)%nat -> seq_runs m l).

Ltac first_cond Hn :=
  match goal with Ha : exp_at _ _ ?i _ _, Hn0 : nstep _ (PNode ?i, _) _ |- _ =>
    destruct (cond_first _ _ _ _ _ _ _ Ha Hn0) as (m & b & s1 & E & Hev & Hn)
  end.

Lemma exp_runs x :
  (forall p k, is_return x = false -> stmt_at ns x p k -> exists i, p = PNode i /\ exp_at ns x i k k) ->
  stmt_runs n x.
Proof.
  intros H p k s s' Hret Hp Ha Hn. destruct (H p k Hret Ha) as (i & -> & He).
  first_cond Hr. exists Normal, s1, m. repeat split; [lia.. | by eapply exec_exp |].
  by destruct b.
Qed.

Lemma if_runs c t e : stmt_runs n (IF_STMT c t e).
Proof.
  intros p k s s' Hret Hp Ha Hn. inv Ha; try done; first_cond Hr; destruct b.
  - enter_t. destruct (IHl m t0 ltac:(lia) pt k s1 s') as (o & s2 & m' & ? & ? & ?); try done.
    exists o, s2, m'. repeat split; [lia.. | by eapply exec_if_true | done].
  - exists Normal, s1, m. repeat split; [lia.. | by eapply exec_if_skip | done].
  - enter_t. destruct (IHl m t0 ltac:(lia) pt k s1 s') as (o & s2 & m' & ? & ? & ?); try done.
    exists o, s2, m'. repeat split; [lia.. | by eapply exec_if_true | done].
  - enter_f. destruct (IHl m e0 ltac:(lia) pe k s1 s') as (o & s2 & m' & ? & ? & ?); try done.
    exists o, s2, m'. repeat split; [lia.. | by eapply exec_if_else | done].
Qed.

Lemma while_runs c b : stmt_runs n (WHILE_STMT c b).
Proof.
  intros p k s s' Hret Hp Ha Hn. assert (Ha' := Ha). inv Ha; try done. first_cond Hr. destruct b.
  - enter_t. destruct (IHl m b0 ltac:(lia) pb (PNode i) s1 s') as ([] & s2 & m' & ? & ? & Hr'); try done.
    + destruct (IHx m' (WHILE_STMT c (STMT_LIST b0)) ltac:(lia) (PNode i) k s2 s')
        as (o & s3 & m2 & ? & ? & ? & ?); try done.
      exists o, s3, m2. repeat split; [lia.. | by eapply exec_while_loop | done].
    + exists Returned, s2, m'. repeat split; [done | lia | by eapply exec_while_return | done].
  - exists Normal, s1, m. repeat split; [lia.. | by eapply exec_while_end | done].
Qed.

Lemma do_runs b c : (forall l, b = STMT_LIST l -> seq_runs n l) -> stmt_runs n (DOWHILE_STMT b c).
Proof.
  intros Hb p k s s' Hret Hp Ha Hn. assert (Ha' := Ha). inv Ha; try done.
  match goal with H : block_at _ _ _ _ |- _ => apply block_seq in H; [|done] end.
  destruct (Hb b0 eq_refl p (PNode i) s s') as ([] & s2 & m' & ? & ? & Hr); try done; cbn [target] in Hr.
  - clear Hn. first_cond Hr'. destruct b.
    + destruct (IHx m (DOWHILE_STMT (STMT_LIST b0) c) ltac:(lia) p k s1 s')
        as (o & s3 & m2 & ? & ? & ? & ?); try done.
      exists o, s3, m2. repeat split; [lia.. | by eapply exec_do_loop | done].
    + exists Normal, s1, m. repeat split; [lia.. | by eapply exec_do_end | done].
  - exists Returned, s2, m'. repeat split; [done | lia | by eapply exec_do_return | done].
Qed.

Lemma seq_runs_nil : seq_runs n [].
Proof.
  intros p k s s' Hp Ha Hn. inv Ha. exists Normal, s, n. repeat split; [lia | constructor | done].
Qed.

(** The statements at [n] steps, given everything at fewer. *)
Lemma stmt_runs_step x : stmt_runs n x /\ (forall l, x = STMT_LIST l -> seq_runs n l).
Proof.
  induction x using syntax_ind; (split; [| try discriminate]);
    try (apply exp_runs; intros p k Hr Ha; inv Ha; by eauto).
  - intros ? [= <-]. destruct H as [|x l Hx _]; [apply seq_runs_nil|].
    apply seq_runs_cons; [apply Hx | intros; by apply IHl].
  - apply if_runs.
  - apply while_runs.
  - apply do_runs. apply IHx1.
Qed.
End Step.

Lemma runs_all n : (forall x, stmt_runs n x) /\ (forall l, seq_runs n l).
Proof.
  induction n as [n IH] using lt_wf_ind.
  assert (Hs : forall x, stmt_runs n x /\ (forall l, x = STMT_LIST l -> seq_runs n l)).
  { intros x; apply stmt_runs_step; intros m y Hm; destruct (IH m Hm) as [H1 H2]; auto. }
  split; [intros x; apply Hs | intros l; by apply (Hs (STMT_LIST l))].
Qed.

Lemma backward l p s s' :
  p <> PNull -> seq_at ns l p PEnd -> steps (p, s) (PEnd, s') -> exists o, exec_block run l s o s'.
Proof.
  intros Hp Ha [n Hn]%rtc_nsteps. destruct (runs_all n) as [_ H].
  destruct (H l p PEnd s s' Hp Ha Hn) as (o & s1 & m & _ & He & Hr).
  assert (target o PEnd = PEnd) as E by (by destruct o). rewrite E in Hr.
  apply nstep_end in Hr as [_ [= ->]]. eauto.
Qed.
End Preservation.

(** ** Compiled workflows *)

(** What a successful [CompileWorkflow] has done: it checked and stored the
    graph of the block under the workflow's name. *)
Lemma CompileWorkflow_inv s gs gs' :
  CompileWorkflow s gs = Some gs' ->
  exists nm l g, s = WORKFLOW (NAME nm) (STMT_LIST l) /\ gs !! nm = None /\
    gs' = <[nm := g]> gs /\ build_graph nm (STMT_LIST l) = Some g /\ g_name g = nm /\
    wf_graph g /\ valid_graph g /\ block_at (nodes g) l (entry g) PEnd.
Proof.
  unfold CompileWorkflow. destruct s as [| |[] block| | | | | |]; try discriminate.
  destruct (gs !! str) eqn:E; [discriminate|].
  destruct (build_graph str block) as [g|] eqn:Eg; [|discriminate].
  destruct (CheckValid g) as [[]|] eqn:Ev; try discriminate. intros [= <-].
  assert (Hw := build_graph_wf _ _ _ Eg). destruct (build_graph_at _ _ _ Eg) as (l & -> & Hb).
  exists str, l, g. refine (conj eq_refl (conj E (conj eq_refl (conj Eg (conj _ (conj Hw (conj _ Hb))))))).
  2: by apply CheckValid_decides.
  unfold build_graph in Eg. destruct (st_bind _ _ _) as [[? ?]|]; by simplify_eq.
Qed.

(** Every node of a valid graph has its edges set. *)
Lemma valid_edges_set g : valid_graph g -> forall i nd, nodes g !! i = Some nd -> edges_set nd.
Proof. intros [[_ ->] | (e & _ & _ & _ & H)]; [done | exact H]. Qed.

Lemma valid_entry g : valid_graph g -> entry g <> PNull -> exists e, entry g = PNode e.
Proof. intros [[? _] | (e & ? & _)]; [done | eauto]. Qed.

(** Nothing is implemented by a graph without nodes. *)
Lemma exp_at_nil e i t f : ~ exp_at [] e i t f.
Proof. revert t f; induction e using syntax_ind; intros t f Ha; try done.
  destruct Ha as [_ Ha]; by eapply IHe.
Qed.

Lemma block_at_nil l p k : block_at [] l p k -> l = [] \/ exists l', l = RETURN_STMT :: l'.
Proof.
  inversion 1 as [| |x l0 p0 k' k0 Hr Ha Hs]; subst; eauto. exfalso.
  inversion Ha; subst; by eapply exp_at_nil.
Qed.

(** A compiled graph has a null entry only when its block has no statement to
    run. *)
Lemma null_entry g l :
  valid_graph g -> entry g = PNull -> block_at (nodes g) l (entry g) PEnd ->
  l = [] \/ exists l', l = RETURN_STMT :: l'.
Proof.
  intros [[_ E] | (e & E & _)] Hn; [|congruence]. rewrite E. apply block_at_nil.
Qed.

Section Claims.
Context {S : Type} (run : string -> S -> bool * S).

(** The meaning of a compiled graph, both directions. *)
Lemma graph_exec g l :
  valid_graph g -> entry g <> PNull -> block_at (nodes g) l (entry g) PEnd ->
  forall s s', rtc (gstep run (nodes g)) (entry g, s) (PEnd, s') <->
               exists o, exec_block run l s o s'.
Proof.
  intros Hv He Hb s s'. assert (Hset := valid_edges_set g Hv).
  assert (Hq : seq_at (nodes g) l (entry g) PEnd) by (by apply block_seq).
  split; [by apply backward|]. intros [o Ho].
  replace PEnd with (target o PEnd) by (by destruct o).
  by eapply (proj2 (forward run _ Hset)).
Qed.

(** A run of a compiled graph is never stuck before the end node. *)
Lemma graph_progress g s c :
  wf_graph g -> valid_graph g -> entry g <> PNull ->
  rtc (gstep run (nodes g)) (entry g, s) c ->
  c.1 = PEnd \/ exists c', gstep run (nodes g) c c'.
Proof.
  intros [Hw Hwe] Hv He Hr.
  assert (Hok : c.1 <> PNull /\ edge_ok (length (nodes g)) c.1).
  { revert Hr He Hwe. change (entry g) with (entry g, s).1 at 2 3. generalize (entry g, s) as c0.
    induction 1 as [|c0 c1 c2 Hs _ IH]; [done|].
    intros _ _. apply IH; destruct Hs as [i nd s0 b s' Hi _]; cbn [fst].
    - destruct (valid_edges_set g Hv i nd Hi). by destruct b.
    - destruct (Hw i nd Hi). by destruct b. }
  destruct c as [[| |i] s']; cbn in *; [tauto | by left | right].
  destruct (lookup_lt_is_Some_2 (nodes g) i (proj2 Hok)) as [nd Hnd].
  destruct (run (name nd) s') as [b s2] eqn:E. eexists. by econstructor.
Qed.
End Claims.

(** The workflow [while A { B } C] and a session that counts: [A] is true
    three times. *)
Definition sample_block : list workflow_syntax :=
  [WHILE_STMT (NAME "A") (STMT_LIST [NAME "B"]); NAME "C"].
Definition sample : workflow_syntax := WORKFLOW (NAME "w") (STMT_LIST sample_block).
Definition sample_run (n : string) (k : Z) : bool * Z :=
  if bool_decide (n = "A"%string) then (k <? 3, k)%Z else (true, k + 1)%Z.
Definition sample_graph : Graph :=
  mkGraph "w" (PNode 0)
    [mkNode "A" (PNode 1) (PNode 2); mkNode "B" (PNode 0) (PNode 0); mkNode "C" PEnd PEnd].

(** C5: semantic preservation.  When [CompileWorkflow] accepts a workflow whose
    graph has an entry, the walk over the graph from the entry ends at the end
    node in session state [s'] exactly when the structured execution of the
    workflow's block ends in [s'], whatever the handlers do. *)
Theorem CompileWorkflow_preserves {S} (run : string -> S -> bool * S) nm l gs gs' g s s' :
  CompileWorkflow (WORKFLOW (NAME nm) (STMT_LIST l)) gs = Some gs' ->
  gs' !! nm = Some g -> entry g <> PNull ->
  rtc (gstep run (nodes g)) (entry g, s) (PEnd, s') <-> exists o, exec_block run l s o s'.
Proof.
  intros (nm' & l' & g' & [= <- <-] & _ & -> & _ & _ & _ & Hv & Hb)%CompileWorkflow_inv Hg He.
  rewrite lookup_insert_eq in Hg; injection Hg as ->. by apply graph_exec.
Qed.

Lemma CompileWorkflow_preserves_witness :
  rtc (gstep sample_run (nodes sample_graph)) (PNode 0, 0%Z) (PEnd, 4%Z) <->
  exists o, exec_block sample_run sample_block 0%Z o 4%Z.
Proof.
  apply (CompileWorkflow_preserves sample_run "w" sample_block ∅ {["w" := sample_graph]}
           sample_graph 0%Z 4%Z); [vm_compute; reflexivity | reflexivity | discriminate].
Defined.

(** Progress.  A run of a compiled workflow is never stuck: from every
    configuration it reaches, it is at the end node or it makes a step to an
    existing node.  In particular it never follows a null edge. *)
Lemma CompileWorkflow_progress {S} (run : string -> S -> bool * S) w gs gs' nm g s c :
  CompileWorkflow w gs = Some gs' -> gs !! nm = None -> gs' !! nm = Some g -> entry g <> PNull ->
  rtc (gstep run (nodes g)) (entry g, s) c ->
  c.1 = PEnd \/ exists c', gstep run (nodes g) c c'.
Proof.
  intros (nm' & l' & g' & -> & _ & -> & _ & _ & Hw & Hv & Hb)%CompileWorkflow_inv Hn Hg He.
  destruct (decide (nm = nm')) as [->|]; [|by rewrite lookup_insert_ne, Hn in Hg].
  rewrite lookup_insert_eq in Hg; injection Hg as ->. by apply graph_progress.
Qed.

Lemma CompileWorkflow_progress_witness :
  (PNode 1, 0%Z).1 = PEnd \/ exists c', gstep sample_run (nodes sample_graph) (PNode 1, 0%Z) c'.
Proof.
  apply (CompileWorkflow_progress sample_run sample ∅ {["w" := sample_graph]} "w"
           sample_graph 0%Z); [vm_compute; reflexivity | reflexivity | reflexivity | discriminate |].
  apply rtc_once.
  exact (gstep_node sample_run (nodes sample_graph) 0 _ 0%Z true 0%Z eq_refl eq_refl).
Defined.

(** ** Whole files *)

(** What [CompileInner] keeps of its map: every graph is well-formed, valid and
    stored under its own name. *)
Definition graphs_ok (gs : gmap string Graph) : Prop :=
  map_Forall (fun nm g => g_name g = nm /\ wf_graph g /\ valid_graph g) gs.

(** The graph stored for [w] has the behaviour of its block. *)
Definition implemented (gs : gmap string Graph) (w : workflow_syntax) : Prop :=
  exists nm l g, w = WORKFLOW (NAME nm) (STMT_LIST l) /\ gs !! nm = Some g /\
    block_at (nodes g) l (entry g) PEnd.

Lemma implemented_mono gs gs' w : gs ⊆ gs' -> implemented gs w -> implemented gs' w.
Proof.
  intros Hs (nm & l & g & -> & Hg & Hb). exists nm, l, g. repeat split; [|done].
  by eapply lookup_weaken.
Qed.

Lemma workflow_loop_spec ws gs :
  graphs_ok gs ->
  let r := workflow_loop ws gs in
  graphs_ok r.2 /\ gs ⊆ r.2 /\ (r.1 = true -> Forall (implemented r.2) ws).
Proof.
  revert gs; induction ws as [|w ws IH]; intros gs Hgs; cbn; [by split_and!; auto|].
  destruct (CompileWorkflow w gs) as [gs'|] eqn:E; [|by split_and!].
  destruct (CompileWorkflow_inv _ _ _ E) as (nm & l & g & -> & Hn & -> & _ & Hnm & Hw & Hv & Hb).
  destruct (IH (<[nm := g]> gs)) as (Hok & Hsub & Himp); [by apply map_Forall_insert_2|].
  split; [done|]. split; [etransitivity; [by apply insert_subseteq | done]|].
  intros Ht. constructor; [|auto]. eapply implemented_mono; [exact Hsub|].
  exists nm, l, g. by rewrite lookup_insert_eq.
Qed.

(** A whole workflow file.  Whether or not [CompileInner] succeeds, the
    graphs it had are kept and every graph in the map is well-formed, valid and
    stored under its own name; when it succeeds every workflow of the file has a
    graph whose complete runs are its executions, and a graph has no entry only
    for a workflow that has nothing to run. *)
Lemma CompileInner_correct s gs ok gs' :
  graphs_ok gs -> CompileInner s gs = (ok, gs') ->
  graphs_ok gs' /\ gs ⊆ gs' /\
  (ok = true -> exists ws, s = STMT_LIST ws /\
     Forall (fun w => exists nm l g, w = WORKFLOW (NAME nm) (STMT_LIST l) /\ gs' !! nm = Some g /\
       (entry g = PNull -> l = [] \/ exists l', l = RETURN_STMT :: l') /\
       (entry g <> PNull -> forall (S : Type) (run : string -> S -> bool * S) s s',
          rtc (gstep run (nodes g)) (entry g, s) (PEnd, s') <-> exists o, exec_block run l s o s')) ws).
Proof.
  intros Hgs H. destruct s; cbn in H; try (injection H as <- <-; by split_and!).
  destruct (workflow_loop_spec child gs Hgs) as (Hok & Hsub & Himp). rewrite H in *; cbn in *.
  split; [done|]. split; [done|]. intros ->. exists child. split; [done|].
  eapply Forall_impl; [|by apply Himp]. intros w (nm & l & g & -> & Hg & Hb).
  destruct (Hok _ _ Hg) as (_ & Hw & Hv). exists nm, l, g.
  split; [done|]. split; [done|]. split; [by intros; eapply null_entry |].
  intros He S run s s'. by apply graph_exec.
Qed.

Lemma CompileInner_correct_witness : graphs_ok {["w" := sample_graph]}.
Proof.
  apply (CompileInner_correct (STMT_LIST [sample]) ∅ true);
    [apply map_Forall_empty | vm_compute; reflexivity].
Defined.

(** ** Workflows the parser accepts and the compiler does not *)

(** An [if] whose [else] is again an [if] never compiles: the grammar makes
    the nested [if] the else block itself and the compiler accepts only a
    statement list there. *)
Lemma else_if_rejected c t c2 t2 e2 ctx st :
  ComplieStmt (IF_STMT c t (IF_STMT c2 t2 e2)) ctx st = None.
Proof.
  destruct (ComplieStmt _ ctx st) as [[ctx' st']|] eqn:H; [exfalso | done].
  change (CompileIfStmt CompileBlock (IF_STMT c t (IF_STMT c2 t2 e2)) ctx st = Some (ctx', st')) in H.
  unfold CompileIfStmt in H. by st_inv.
Qed.

(** A workflow with an empty block, or whose block starts with [return],
    compiles to a graph that passes [CheckValid] and has no entry at all. *)
Lemma nothing_to_run_has_no_entry nm l gs :
  gs !! nm = None ->
  CompileWorkflow (WORKFLOW (NAME nm) (STMT_LIST [])) gs = Some (<[nm := mkGraph nm PNull []]> gs) /\
  CompileWorkflow (WORKFLOW (NAME nm) (STMT_LIST (RETURN_STMT :: l))) gs =
    Some (<[nm := mkGraph nm PNull []]> gs).
Proof. intros H; unfold CompileWorkflow; rewrite H. by split. Qed.

Lemma nothing_to_run_has_no_entry_witness :
  CompileWorkflow (WORKFLOW (NAME "w") (STMT_LIST [])) ∅ = Some (<["w" := mkGraph "w" PNull []]> ∅) /\
  CompileWorkflow (WORKFLOW (NAME "w") (STMT_LIST [RETURN_STMT])) ∅ =
    Some (<["w" := mkGraph "w" PNull []]> ∅).
Proof. apply (nothing_to_run_has_no_entry "w" [] ∅). reflexivity. Defined.
