(* ===== verification/ExecGraph.v ===== *)
(** * Execution graphs: src/orc/framework/{handler_mgr,execution_node,execution_graph,execution_graph_mgr}.cc

    The graph a worker thread walks: the nodes of a compiled workflow graph,
    keyed by their name, each with a handler of its own.  Built from the
    workflow graph by [BuildNode], copied by [Clone], handed out and taken back
    by the manager's pools. *)
From Stdlib Require Import ZArith Lia.
From stdpp Require Import base gmap sets list strings relations.
From S2P Require Import Prelude Graph.

(** ** Handlers: handler_mgr.cc *)

(** [class HandlerMgr].  A constructor makes a handler [H]; the YAML
    configuration of a handler is a value of [Config]. *)
Record HandlerMgr (H Config : Type) : Type := mkHandlerMgr {
  handler_ctors : gmap string (list H);
  handler_configs : gmap string Config;
  config_file : string;
}.
Arguments mkHandlerMgr {_ _} _ _ _.
Arguments handler_ctors {_ _} _.
Arguments handler_configs {_ _} _.
Arguments config_file {_ _} _.

Section Handlers.
Context {H Config : Type}.
(** [YAML::Node()] and the handler's own [BaseInit]. *)
Context (no_config : Config) (BaseInit : H -> Config -> bool).

(** [HandlerMgr::Register]. *)
Definition Register (nm : string) (ctor : H) (m : HandlerMgr H Config) : HandlerMgr H Config :=
  mkHandlerMgr (<[nm := default [] (handler_ctors m !! nm) ++ [ctor]]> (handler_ctors m))
               (handler_configs m) (config_file m).

(** The check of [HandlerMgr::ReloadConfigFile]: every name is registered once
    and its handler accepts the new configuration. *)
Definition check_handlers (ctors : gmap string (list H)) (config : gmap string Config) : bool :=
  forallb (fun p : string * list H =>
             match p.2 with
             | [h] => BaseInit h (default no_config (config !! p.1))
             | _ => false
             end) (map_to_list ctors).

(** [HandlerMgr::ReloadConfigFile]; [LoadFile] is the YAML loader ([None]: it
    throws). *)
Definition ReloadConfigFile (LoadFile : string -> option (gmap string Config)) (file : string)
    (need_check : bool) (m : HandlerMgr H Config) : bool * HandlerMgr H Config :=
  match LoadFile file with
  | None => (false, m)
  | Some config =>
      if need_check && negb (check_handlers (handler_ctors m) config) then (false, m)
      else (true, mkHandlerMgr (handler_ctors m) config file)
  end.

(** [HandlerMgr::Setup] on the configured file name ([None]: not configured). *)
Definition hm_Setup (LoadFile : string -> option (gmap string Config)) (file : option string)
    (m : HandlerMgr H Config) : bool * HandlerMgr H Config :=
  match file with
  | None => (false, m)
  | Some f => ReloadConfigFile LoadFile f false m
  end.

(** [HandlerMgr::GetHandler]: the first constructor registered for the name. *)
Definition GetHandler (m : HandlerMgr H Config) (nm : string) : option H :=
  match handler_ctors m !! nm with
  | Some (h :: _) =>
      if BaseInit h (default no_config (handler_configs m !! nm)) then Some h else None
  | _ => None
  end.
End Handlers.

(** ** Nodes and graphs *)

(** An [ExecutionNode*] inside one graph: null, the static end node or the node
    stored under a name. *)
Inductive eptr : Type := ENull | EEnd | ENode (nm : string).

#[export] Instance eptr_eq_dec : EqDecision eptr.
Proof. solve_decision. Defined.

(** [class ExecutionNode]. *)
Record ExecutionNode (H : Type) : Type := mkExecutionNode {
  e_name : string;
  true_next : eptr;
  false_next : eptr;
  handler : option H;
}.
Arguments mkExecutionNode {_} _ _ _ _.
Arguments e_name {_} _.
Arguments true_next {_} _.
Arguments false_next {_} _.
Arguments handler {_} _.

Definition new_ExecutionNode {H} (nm : string) : ExecutionNode H := mkExecutionNode nm ENull ENull None.

(** [class ExecutionGraph]. *)
Record ExecutionGraph (H : Type) : Type := mkExecutionGraph {
  eg_name : string;
  version : Z;
  e_entry : eptr;
  e_nodes : gmap string (ExecutionNode H);
}.
Arguments mkExecutionGraph {_} _ _ _ _.
Arguments eg_name {_} _.
Arguments version {_} _.
Arguments e_entry {_} _.
Arguments e_nodes {_} _.

Section Build.
Context {H : Type} (get_handler : string -> option H).

Abbreviation enodes := (gmap string (ExecutionNode H)).

(** [ExecutionGraph::AddNode] and [ExecutionGraph::GetNode]. *)
Definition eg_AddNode (nm : string) (nd : ExecutionNode H) (eg : enodes) : enodes := <[nm := nd]> eg.
Definition eg_GetNode (nm : string) (eg : enodes) : eptr :=
  match eg !! nm with Some _ => ENode nm | None => ENull end.

(** [ExecutionNode::Clone]: a new handler, the edges not set. *)
Definition node_Clone (nd : ExecutionNode H) : option (ExecutionNode H) :=
  match get_handler (e_name nd) with
  | Some h => Some (mkExecutionNode (e_name nd) ENull ENull (Some h))
  | None => None
  end.

(** The three assignments at the end of [BuildNode]. *)
Definition finish_node (h : H) (t f : eptr) (nd : ExecutionNode H) : ExecutionNode H :=
  mkExecutionNode (e_name nd) t f (Some h).

(** [ExecutionGraphMgr::BuildNode].  [None] is a null dereference (or too
    little fuel); a [nullptr] result is [ENull], with the nodes added before
    the failure still in the graph. *)
Fixpoint BuildNode (fuel : nat) (ns : list Node) (p : ptr) (eg : enodes) : option (eptr * enodes) :=
  match fuel with
  | O => None
  | S fuel =>
    if bool_decide (p = PEnd) then Some (EEnd, eg)
    else
      match deref ns p with
      | None => None
      | Some nd =>
        let nm := name nd in
        if bool_decide (eg_GetNode nm eg <> ENull) then Some (eg_GetNode nm eg, eg)
        else
          match get_handler nm with
          | None => Some (ENull, eg)
          | Some h =>
            let eg := eg_AddNode nm (new_ExecutionNode nm) eg in
            match BuildNode fuel ns (true_edge nd) eg with
            | None => None
            | Some (t, eg) =>
              if bool_decide (t = ENull) then Some (ENull, eg)
              else
                match BuildNode fuel ns (false_edge nd) eg with
                | None => None
                | Some (f, eg) =>
                  if bool_decide (f = ENull) then Some (ENull, eg)
                  else Some (ENode nm, alter (finish_node h t f) nm eg)
                end
            end
          end
      end
  end.

(** One call per node and one more for the edge that leads back. *)
Definition build_fuel (ns : list Node) : nat := S (S (length ns)).

(** [ExecutionGraphMgr::BuildGraph]: [Some None] is [return nullptr], [None]
    a crash.  The version is not initialised by the code. *)
Definition BuildGraph (v0 : Z) (g : Graph) : option (option (ExecutionGraph H)) :=
  match BuildNode (build_fuel (nodes g)) (nodes g) (entry g) ∅ with
  | None => None
  | Some (e, eg) =>
      if bool_decide (e = ENull) then Some None
      else Some (Some (mkExecutionGraph (g_name g) v0 e eg))
  end.

(** The edge of a clone: the node of the same name in the new graph.
    [operator\[\]] of the map gives a null pointer when there is none. *)
Definition clone_edge (eg : enodes) (p : eptr) : option eptr :=
  match p with
  | ENull => None
  | EEnd => Some EEnd
  | ENode nm => Some (eg_GetNode nm eg)
  end.

(** The second loop of [ExecutionGraph::Clone] for one node. *)
Definition relink (copies : enodes) (nd c : ExecutionNode H) : option (ExecutionNode H) :=
  match clone_edge copies (true_next nd), clone_edge copies (false_next nd) with
  | Some t, Some f => Some (mkExecutionNode (e_name c) t f (handler c))
  | _, _ => None
  end.

(** A loop over a [std::map] whose body may fail and stores a result under the
    same key. *)
Definition map_loop {A B} (f : string -> A -> option B) (m : gmap string A) : option (gmap string B) :=
  list_to_map <$> mapM (fun p : string * A => pair p.1 <$> f p.1 p.2) (map_to_list m).

(** The name an [ExecutionNode*] of the graph refers to. *)
Definition eptr_name (p : eptr) : option string :=
  match p with ENull => None | EEnd => Some "end_node"%string | ENode nm => Some nm end.

(** [ExecutionGraph::Clone]: clone every node, then link the copies; the entry
    is looked up by its name.  [None] is [return nullptr] or a null
    dereference. *)
Definition Clone (g : ExecutionGraph H) : option (ExecutionGraph H) :=
  match map_loop (fun _ => node_Clone) (e_nodes g) with
  | None => None
  | Some copies =>
      match map_loop (fun k nd => match copies !! k with
                                  | Some c => relink copies nd c
                                  | None => None
                                  end) (e_nodes g), eptr_name (e_entry g) with
      | Some linked, Some nm =>
          Some (mkExecutionGraph (eg_name g) (version g) (eg_GetNode nm linked) linked)
      | _, _ => None
      end
  end.
End Build.

(** ** What [BuildGraph] builds *)

(** The pointer of the execution graph that stands for [p]. *)
Definition eptr_of (ns : list Node) (p : ptr) : eptr :=
  match p with
  | PNull => ENull
  | PEnd => EEnd
  | PNode i => match ns !! i with Some nd => ENode (name nd) | None => ENull end
  end.

(** The execution node of a workflow node with handler [h]. *)
Definition image {H} (ns : list Node) (h : H) (nd : Node) : ExecutionNode H :=
  mkExecutionNode (name nd) (eptr_of ns (true_edge nd)) (eptr_of ns (false_edge nd)) (Some h).

Definition names (ns : list Node) : gset string := list_to_set (name <$> ns).

Lemma elem_of_names ns i nd : ns !! i = Some nd -> name nd ∈ names ns.
Proof. intros Hi. apply elem_of_list_to_set, list_elem_of_fmap. exists nd. split; [done|]. by eapply list_elem_of_lookup_2. Qed.

Lemma size_names ns : (size (names ns) <= length ns)%nat.
Proof.
  unfold names. induction ns as [|nd ns IH]; cbn; [by rewrite size_empty|].
  rewrite size_union_alt. pose proof (subseteq_size (list_to_set (name <$> ns) ∖ {[name nd]}) (list_to_set (C := gset string) (name <$> ns))).
  rewrite size_singleton. etransitivity; [apply le_n_S, H; set_solver | lia].
Qed.

Section BuildSpec.
Context {H : Type} (get_handler : string -> option H).
Context (ns : list Node) (Hwf : wf_nodes ns).
Context (Hset : forall i nd, ns !! i = Some nd -> edges_set nd).
Context (Hh : forall i nd, ns !! i = Some nd -> is_Some (get_handler (name nd))).

Abbreviation enodes := (gmap string (ExecutionNode H)).

(** What a call of [BuildNode] at [p] adds: images of nodes reachable from
    [p], closed under edges; what was there stays. *)
Definition built (p : ptr) (eg eg' : enodes) : Prop :=
  eg ⊆ eg' /\ dom eg' ⊆ dom eg ∪ names ns /\
  (forall i nd, p = PNode i -> ns !! i = Some nd -> name nd ∈ dom eg') /\
  (forall nm, nm ∈ dom eg' -> nm ∈ dom eg \/
     exists j nd h, ns !! j = Some nd /\ name nd = nm /\ get_handler nm = Some h /\
       eg' !! nm = Some (image ns h nd) /\
       (forall k nk, gedge ns j k -> ns !! k = Some nk -> name nk ∈ dom eg')).

Lemma built_refl p eg :
  (forall i nd, p = PNode i -> ns !! i = Some nd -> name nd ∈ dom eg) -> built p eg eg.
Proof. intros Hp. split_and!; auto. set_solver. Qed.

Lemma eptr_of_nonnull p : edge_ok (length ns) p -> p <> PNull -> eptr_of ns p <> ENull.
Proof.
  destruct p as [| |i]; cbn; try done. intros [nd ->]%lookup_lt_is_Some_2. done.
Qed.

(** Both edges built, the node itself is finished. *)
Lemma built_node i nd h eg eg1 eg2 :
  ns !! i = Some nd -> get_handler (name nd) = Some h -> eg !! name nd = None ->
  built (true_edge nd) (<[name nd := new_ExecutionNode (name nd)]> eg) eg1 ->
  built (false_edge nd) eg1 eg2 ->
  built (PNode i) eg
    (alter (finish_node h (eptr_of ns (true_edge nd)) (eptr_of ns (false_edge nd))) (name nd) eg2).
Proof.
  intros Hi Hgh Hn (S1 & D1 & P1 & N1) (S2 & D2 & P2 & N2).
  assert (Hat : eg2 !! name nd = Some (new_ExecutionNode (name nd))).
  { eapply lookup_weaken; [|exact S2]. eapply lookup_weaken; [|exact S1]. apply lookup_insert_eq. }
  assert (Hin := elem_of_names ns i nd Hi).
  assert (Dsub : dom eg1 ⊆ dom eg2) by (by apply subseteq_dom).
  split_and!; rewrite ?dom_alter_L.
  - apply map_subseteq_spec; intros nm x Hx.
    assert (nm <> name nd) by congruence. rewrite lookup_alter_ne by done.
    eapply lookup_weaken; [|exact S2]. eapply lookup_weaken; [|exact S1]. by rewrite lookup_insert_ne.
  - rewrite dom_insert_L in D1. clear -D1 D2 Hin. set_solver.
  - intros ? nd' [= <-] Hi'. rewrite Hi in Hi'; injection Hi' as <-. by apply elem_of_dom.
  - intros nm Hnm. destruct (decide (nm = name nd)) as [-> | Hne].
    + right. exists i, nd, h. split_and!; try done.
      * by rewrite lookup_alter_eq, Hat.
      * intros k nk (nd' & Hi' & E) Hk. rewrite Hi in Hi'; injection Hi' as <-.
        destruct E as [E | E]; [apply Dsub; by eapply P1 | by eapply P2].
    + rewrite lookup_alter_ne by done. destruct (N2 nm Hnm) as [H1 | Hnew]; [|by right].
      destruct (N1 nm H1) as [H0 | (j & ndj & hj & ? & ? & ? & Hl & Hc)].
      * left. rewrite dom_insert_L in H0. clear -H0 Hne. set_solver.
      * right. exists j, ndj, hj. split_and!; try done; [by eapply lookup_weaken|].
        intros k nk Hk Hnk. apply Dsub. by eapply Hc.
Qed.

(** [BuildNode] returns on a graph whose edges are set and whose handlers
    exist, and it builds the node. *)
Lemma BuildNode_spec fuel p eg :
  edge_ok (length ns) p -> p <> PNull -> dom eg ⊆ names ns ->
  (size (names ns) - size (dom eg) + 1 < fuel)%nat ->
  exists eg', BuildNode get_handler fuel ns p eg = Some (eptr_of ns p, eg') /\ built p eg eg'.
Proof.
  revert p eg; induction fuel as [|fuel IH]; intros p eg Hok Hp Hd Hf; [lia|].
  destruct p as [| |i]; [done | exists eg; by split; [|apply built_refl] |].
  destruct (lookup_lt_is_Some_2 ns i Hok) as [nd Hnd]. cbn. rewrite Hnd.
  rewrite (bool_decide_eq_false_2 (PNode i = PEnd)) by done.
  destruct (eg !! name nd) as [x|] eqn:Ex.
  { assert (eg_GetNode (name nd) eg = ENode (name nd)) as -> by (unfold eg_GetNode; by rewrite Ex).
    exists eg. split; [done|]. apply built_refl. intros ? ? [= <-] Hi. rewrite Hnd in Hi.
    injection Hi as <-. apply elem_of_dom; eauto. }
  assert (eg_GetNode (name nd) eg = ENull) as -> by (unfold eg_GetNode; by rewrite Ex).
  destruct (Hh i nd Hnd) as [h Hgh]. rewrite Hgh.
  rewrite (bool_decide_eq_false_2 (ENull <> ENull)) by tauto.
  destruct (Hwf i nd Hnd) as [Wt Wf]. destruct (Hset i nd Hnd) as [St Sf].
  set (eg0 := eg_AddNode (name nd) (new_ExecutionNode (name nd)) eg).
  assert (Hin := elem_of_names ns i nd Hnd).
  assert (Hd0 : dom eg0 = {[name nd]} ∪ dom eg) by (unfold eg0, eg_AddNode; by rewrite dom_insert_L).
  assert (Hni : name nd ∉ dom eg) by (by apply not_elem_of_dom).
  assert (Hs0 : size (dom eg0) = S (size (dom eg))).
  { rewrite Hd0, size_union by set_solver. by rewrite size_singleton. }
  assert (Hle : dom eg0 ⊆ names ns) by (rewrite Hd0; set_solver).
  assert (Hlt := subseteq_size _ _ Hle).
  destruct (IH (true_edge nd) eg0) as (eg1 & -> & B1); [done.. | lia |].
  rewrite bool_decide_eq_false_2 by (by apply eptr_of_nonnull).
  assert (Hd1 : dom eg0 ⊆ dom eg1) by (by apply subseteq_dom, B1).
  assert (Hle1 : dom eg1 ⊆ names ns) by (destruct B1 as (_ & ? & _); set_solver).
  apply subseteq_size in Hd1.
  destruct (IH (false_edge nd) eg1) as (eg2 & -> & B2); [done.. | lia |].
  rewrite bool_decide_eq_false_2 by (by apply eptr_of_nonnull).
  eexists. split; [reflexivity|]. by eapply built_node.
Qed.
End BuildSpec.

(** ** Execution graphs of workflow graphs *)

(** Every node of [g] has its image in [eg] under its own name, and [eg] has
    nothing else. *)
Definition represents {H} (get_handler : string -> option H) (g : Graph) (eg : ExecutionGraph H) : Prop :=
  eg_name eg = g_name g /\ e_entry eg = eptr_of (nodes g) (entry g) /\
  dom (e_nodes eg) = names (nodes g) /\
  forall i nd, nodes g !! i = Some nd ->
    exists h, get_handler (name nd) = Some h /\
      e_nodes eg !! name nd = Some (image (nodes g) h nd).

Lemma name_inj ns i j a b :
  NoDup (name <$> ns) -> ns !! i = Some a -> ns !! j = Some b -> name a = name b -> i = j.
Proof.
  intros Hnd Hi Hj E. eapply NoDup_lookup; [exact Hnd | |]; rewrite list_lookup_fmap.
  - rewrite Hi; reflexivity.
  - rewrite Hj; cbn; by rewrite E.
Qed.

Section Represent.
Context {H : Type} (get_handler : string -> option H).

(** A closed set of images that contains the entry contains every node. *)
Lemma built_all ns e i nd (eg : gmap string (ExecutionNode H)) :
  NoDup (name <$> ns) -> built get_handler ns (PNode e) ∅ eg -> rtc (gedge ns) e i ->
  ns !! i = Some nd ->
  exists h, get_handler (name nd) = Some h /\ eg !! name nd = Some (image ns h nd).
Proof.
  intros Hnd (_ & _ & P & N) Hr Hi.
  assert (Hnew : forall k nk, ns !! k = Some nk -> name nk ∈ dom eg ->
    exists h, get_handler (name nk) = Some h /\ eg !! name nk = Some (image ns h nk) /\
      forall m nm, gedge ns k m -> ns !! m = Some nm -> name nm ∈ dom eg).
  { intros k nk Hk Hin. destruct (N _ Hin) as [?|(j & nj & h & Hj & E & Hh & Hl & Hc)]; [set_solver|].
    assert (j = k) as -> by (by eapply name_inj). rewrite Hk in Hj; injection Hj as <-. eauto. }
  assert (Hin : name nd ∈ dom eg).
  { revert i Hr nd Hi. apply (rtc_ind_r (fun i => forall nd, ns !! i = Some nd -> name nd ∈ dom eg)).
    - intros nd Hi. by eapply P.
    - intros j k _ Hjk IH nd Hk. destruct Hjk as (nj & Hj & E).
      destruct (Hnew j nj Hj (IH _ Hj)) as (_ & _ & _ & Hc). eapply Hc; [|exact Hk]. by exists nj. }
  destruct (Hnew _ _ Hi Hin) as (h & ? & ? & _). eauto.
Qed.

(** The build of a valid graph with distinct names: it never fails and the
    result represents the graph. *)
Lemma BuildGraph_represents v0 g :
  wf_graph g -> valid_graph g -> entry g <> PNull -> NoDup (name <$> nodes g) ->
  (forall i nd, nodes g !! i = Some nd -> is_Some (get_handler (name nd))) ->
  exists eg, BuildGraph get_handler v0 g = Some (Some eg) /\ version eg = v0 /\
    represents get_handler g eg.
Proof.
  intros [Hw He] Hv Hn Hnd Hh.
  destruct Hv as [[? _] | (e & Ee & Hlt & Hr & Hset)]; [done|].
  destruct (BuildNode_spec get_handler _ Hw Hset Hh (build_fuel (nodes g)) (entry g) ∅)
    as (eg & E & B); [done.. | set_solver | |].
  { rewrite dom_empty_L, size_empty. pose proof (size_names (nodes g)). unfold build_fuel. lia. }
  exists (mkExecutionGraph (g_name g) v0 (eptr_of (nodes g) (entry g)) eg).
  unfold BuildGraph. rewrite E. rewrite bool_decide_eq_false_2 by (by apply eptr_of_nonnull).
  assert (Hall : forall i nd, nodes g !! i = Some nd ->
    exists h, get_handler (name nd) = Some h /\ eg !! name nd = Some (image (nodes g) h nd)).
  { intros i nd Hi. rewrite Ee in B. eapply built_all; [exact Hnd | exact B | apply Hr; by eapply lookup_lt_Some | exact Hi]. }
  split; [done|]. split; [done|]. unfold represents. split_and!; try done.
  cbn. destruct B as (_ & D & _). apply leibniz_equiv. intros nm; split.
  - intros Hnm; clear -D Hnm; set_solver.
  - unfold names. rewrite elem_of_list_to_set, list_elem_of_fmap.
    intros (nd & -> & [i Hi]%list_elem_of_lookup). destruct (Hall i nd Hi) as (h & _ & Hl).
    apply elem_of_dom; eauto.
Qed.

(** ** Clones *)

Lemma map_loop_total {A B} (f : string -> A -> option B) (h : A -> B) (m : gmap string A) :
  (forall k x, m !! k = Some x -> f k x = Some (h x)) -> map_loop f m = Some (h <$> m).
Proof.
  intros Hf. unfold map_loop.
  assert (mapM (fun p : string * A => pair p.1 <$> f p.1 p.2) (map_to_list m)
          = Some (prod_map id h <$> map_to_list m)) as ->.
  { apply mapM_Some_2. apply Forall2_fmap_r, Forall_Forall2_diag, Forall_forall.
    intros [k x] Hkx%list_elem_of_In%elem_of_map_to_list. cbn. by rewrite (Hf k x Hkx). }
  cbn. by rewrite list_to_map_fmap, list_to_map_to_list.
Qed.

Lemma image_edge ns p (eg : gmap string (ExecutionNode H)) :
  dom eg = names ns -> edge_ok (length ns) p -> p <> PNull ->
  clone_edge eg (eptr_of ns p) = Some (eptr_of ns p).
Proof.
  intros Hd Hok Hp. destruct p as [| |i]; cbn; try done.
  destruct (lookup_lt_is_Some_2 ns i Hok) as [nd Hnd]. rewrite Hnd. cbn. unfold eg_GetNode.
  assert (name nd ∈ dom eg) as [x Hx]%elem_of_dom by (rewrite Hd; by eapply elem_of_names).
  by rewrite Hx.
Qed.

(** A clone of a graph that represents a workflow is the same graph. *)
Lemma Clone_represents g eg :
  wf_graph g -> valid_graph g -> entry g <> PNull ->
  represents get_handler g eg -> Clone get_handler eg = Some eg.
Proof.
  intros [Hw He] Hv Hn (Hname & Hent & Hdom & Hall). unfold Clone.
  assert (Hset : forall i nd, nodes g !! i = Some nd -> edges_set nd).
  { destruct Hv as [[? _] | (? & _ & _ & _ & H0)]; done. }
  assert (Hnode : forall k x, e_nodes eg !! k = Some x -> exists i nd h, nodes g !! i = Some nd /\
             name nd = k /\ get_handler k = Some h /\ x = image (nodes g) h nd).
  { intros k x Hk. assert (k ∈ names (nodes g)) as Hin by (rewrite <- Hdom; apply elem_of_dom; eauto).
    unfold names in Hin. rewrite elem_of_list_to_set, list_elem_of_fmap in Hin.
    destruct Hin as (nd & -> & [i Hi]%list_elem_of_lookup).
    destruct (Hall i nd Hi) as (h & Hh & Hx). exists i, nd, h. split_and!; congruence. }
  rewrite (map_loop_total _ (fun nd => mkExecutionNode (e_name nd) ENull ENull (handler nd))).
  2:{ intros k x Hk. destruct (Hnode k x Hk) as (i & nd & h & _ & <- & Hh & ->).
      unfold node_Clone; cbn. by rewrite Hh. }
  rewrite (map_loop_total _ (fun nd => nd)).
  2:{ intros k x Hk. rewrite lookup_fmap, Hk; cbn.
      destruct (Hnode k x Hk) as (i & nd & h & Hi & _ & _ & ->). unfold relink; cbn.
      destruct (Hw i nd Hi), (Hset i nd Hi).
      rewrite !image_edge; try done; by rewrite dom_fmap_L. }
  rewrite map_fmap_id, Hent.
  destruct Hv as [[? _] | (e & Ee & _)]; [done|]. rewrite Ee in He, Hent |- *.
  destruct (lookup_lt_is_Some_2 (nodes g) e He) as [nd Hnd]. cbn in Hent |- *. rewrite Hnd in Hent |- *. cbn.
  unfold eg_GetNode. destruct (Hall e nd Hnd) as (h & _ & ->). by destruct eg; cbn in *; subst.
Qed.
End Represent.
