(* ===== verification/ExecPool.v ===== *)
(** * The pools of execution graphs: src/orc/framework/execution_graph_mgr.cc

    [ExecutionGraphMgr] keeps a queue of execution graphs per workflow, shared
    under a mutex, and a second one per worker thread.  A session takes a graph
    out, runs, and gives it back; a reload replaces the shared queues and bumps
    the version that decides whether a returned graph is kept. *)
From Stdlib Require Import ZArith Lia.
From stdpp Require Import base gmap sets list strings relations.
From S2P Require Import Prelude Graph ExecGraph.

(** [enum class Mode]. *)
Inductive Mode : Type := Pool | Singleton.

#[export] Instance Mode_eq_dec : EqDecision Mode.
Proof. solve_decision. Defined.

Section Pools.
Context {H : Type} (get_handler : string -> option H).

(** [ExeGraphsMap]: a queue per workflow name, the front first. *)
Abbreviation ExeGraphsMap := (gmap string (list (ExecutionGraph H))).

(** [class ExecutionGraphMgr]; [tls_exe_graphs] has the thread-local map of
    every worker thread. *)
Record ExecutionGraphMgr : Type := mkMgr {
  mode : Mode;
  pool_size : Z;
  tls_size : Z;
  use_tls : bool;
  src_file : string;
  version_ : Z;
  exe_graphs : ExeGraphsMap;
  tls_exe_graphs : gmap nat ExeGraphsMap;
}.

Definition queue_of (nm : string) (m : ExeGraphsMap) : list (ExecutionGraph H) := default [] (m !! nm).

(** [emplace] on the queue under [nm]; [operator[]] makes an empty one when there is none. *)
Definition enqueue (nm : string) (g : ExecutionGraph H) (m : ExeGraphsMap) : ExeGraphsMap :=
  <[nm := queue_of nm m ++ [g]]> m.

Definition tls_of (t : nat) (m : ExecutionGraphMgr) : ExeGraphsMap := default ∅ (tls_exe_graphs m !! t).

Definition set_exe_graphs (gs : ExeGraphsMap) (m : ExecutionGraphMgr) : ExecutionGraphMgr :=
  mkMgr (mode m) (pool_size m) (tls_size m) (use_tls m) (src_file m) (version_ m) gs (tls_exe_graphs m).
Definition set_tls (t : nat) (gs : ExeGraphsMap) (m : ExecutionGraphMgr) : ExecutionGraphMgr :=
  mkMgr (mode m) (pool_size m) (tls_size m) (use_tls m) (src_file m) (version_ m) (exe_graphs m)
    (<[t := gs]> (tls_exe_graphs m)).

(** ** Loading *)

Definition set_version (v : Z) (g : ExecutionGraph H) : ExecutionGraph H :=
  mkExecutionGraph (eg_name g) v (e_entry g) (e_nodes g).

(** The inner loop of [ReloadExeGraph]: [n] clones. *)
Fixpoint clone_loop (n : nat) (nm : string) (g : ExecutionGraph H) (gs : ExeGraphsMap)
  : option ExeGraphsMap :=
  match n with
  | O => Some gs
  | S n =>
      match Clone get_handler g with
      | None => None
      | Some c => clone_loop n nm g (enqueue nm c gs)
      end
  end.

(** [ReloadExeGraph] over the entries of the map of compiled graphs.  [None]
    is [return false] or a null dereference. *)
Fixpoint ReloadExeGraph (v psize : Z) (graphs : list (string * Graph)) (gs : ExeGraphsMap)
  : option ExeGraphsMap :=
  match graphs with
  | [] => Some gs
  | (nm, g) :: graphs =>
      match BuildGraph get_handler v g with
      | Some (Some eg) =>
          let eg := set_version v eg in
          match clone_loop (Z.to_nat (psize - 1)) nm eg gs with
          | None => None
          | Some gs => ReloadExeGraph v psize graphs (enqueue nm eg gs)
          end
      | _ => None
      end
  end.

(** [ReloadGraph] on the graphs the compiler gives ([None]: it fails). *)
Definition ReloadGraph (md : Mode) (psize : Z) (tls : bool) (tsize : Z) (file : string)
    (compiled : option (gmap string Graph)) (m : ExecutionGraphMgr) : bool * ExecutionGraphMgr :=
  match compiled with
  | None => (false, m)
  | Some graphs =>
      let v := ((version_ m + 1) mod 2 ^ 32)%Z in
      match ReloadExeGraph v psize (map_to_list graphs) ∅ with
      | None => (false, m)
      | Some gs => (true, mkMgr md psize tsize tls file v gs (tls_exe_graphs m))
      end
  end.

(** [ExecutionGraphMgr::Setup] on the values of the configuration ([None]: the
    option is missing) and the compiler of workflow files.  [None] is the
    division by a zero worker number. *)
Definition mgr_Setup (compile : string -> option (gmap string Graph))
    (mode_str : option string) (workflow_pool_size session_pool_size : option Z)
    (file : option string) (worker_num : option Z) (tls : option bool)
    (m : ExecutionGraphMgr) : option (bool * ExecutionGraphMgr) :=
  let setup (md : Mode) (psize : Z) :=
    match file, worker_num with
    | Some file, Some n =>
        if bool_decide (n = 0)%Z then None
        else Some (ReloadGraph md psize (default false tls) (psize / n)%Z file (compile file) m)
    | _, _ => Some (false, m)
    end in
  match mode_str with
  | None => Some (false, m)
  | Some s =>
      if bool_decide (s = "singleton") then setup Singleton 1%Z
      else if bool_decide (s = "pool") then
        match (match workflow_pool_size with Some n => Some n | None => session_pool_size end) with
        | Some n => setup Pool n
        | None => Some (false, m)
        end
      else Some (false, m)
  end.

(** ** Taking a graph and giving it back *)

(** [GetExeGraphFromPool]. *)
Definition GetExeGraphFromPool (nm : string) (gs : ExeGraphsMap)
  : option (ExecutionGraph H * ExeGraphsMap) :=
  match gs !! nm with
  | Some (g :: q) => Some (g, <[nm := q]> gs)
  | _ => None
  end.

(** [GetExeGraphFromSingleton]: the front of the queue, which stays. *)
Definition GetExeGraphFromSingleton (nm : string) (gs : ExeGraphsMap) : option (ExecutionGraph H) :=
  match gs !! nm with
  | Some (g :: _) => Some g
  | _ => None
  end.

(** [GetExeGraph] by thread [t]. *)
Definition GetExeGraph (t : nat) (nm : string) (m : ExecutionGraphMgr)
  : option (ExecutionGraph H) * ExecutionGraphMgr :=
  match mode m with
  | Singleton => (GetExeGraphFromSingleton nm (exe_graphs m), m)
  | Pool =>
      match (if use_tls m then GetExeGraphFromPool nm (tls_of t m) else None) with
      | Some (g, tls) => (Some g, set_tls t tls m)
      | None =>
          match GetExeGraphFromPool nm (exe_graphs m) with
          | Some (g, gs) => (Some g, set_exe_graphs gs m)
          | None => (None, m)
          end
      end
  end.

(** [ReleaseExeGraph] by thread [t].  The code compares the version before it takes the mutex;
    the only writer of the version is [ReloadGraph], which the program calls from [Setup], before
    there are sessions, so that the two are one step here. *)
Definition ReleaseExeGraph (t : nat) (g : ExecutionGraph H) (m : ExecutionGraphMgr) : ExecutionGraphMgr :=
  match mode m with
  | Singleton => m
  | Pool =>
      if bool_decide (version g <> version_ m) then m
      else if use_tls m &&
              (Z.of_nat (length (queue_of (eg_name g) (tls_of t m))) <? tls_size m)%Z
      then set_tls t (enqueue (eg_name g) g (tls_of t m)) m
      else set_exe_graphs (enqueue (eg_name g) g (exe_graphs m)) m
  end.
End Pools.

Arguments mkMgr {_} _ _ _ _ _ _ _ _.
Arguments mode {_} _.
Arguments pool_size {_} _.
Arguments tls_size {_} _.
Arguments use_tls {_} _.
Arguments src_file {_} _.
Arguments version_ {_} _.
Arguments exe_graphs {_} _.
Arguments tls_exe_graphs {_} _.
Arguments ExecutionGraphMgr : clear implicits.

(** ** The life of a graph *)

Section Life.
Context {H : Type} (get_handler : string -> option H).
Abbreviation EG := (ExecutionGraph H).
Abbreviation ExeGraphsMap := (gmap string (list EG)).

(** The manager, the graphs that sessions hold and the names of the workflows
    last loaded. *)
Record World : Type := mkWorld {
  mgr : ExecutionGraphMgr H;
  out : list EG;
  loaded : gset string;
}.

(** What the sessions and the operator do, in any order: a thread takes a
    graph, a thread gives one back, a file is loaded. *)
Inductive pstep : World -> World -> Prop :=
| pstep_take t nm g m m' o ld :
    GetExeGraph t nm m = (Some g, m') -> pstep (mkWorld m o ld) (mkWorld m' (g :: o) ld)
| pstep_give t g m o1 o2 ld :
    pstep (mkWorld m (o1 ++ g :: o2) ld) (mkWorld (ReleaseExeGraph t g m) (o1 ++ o2) ld)
| pstep_load psize tls tsize file graphs m m' o ld :
    ReloadGraph get_handler Pool psize tls tsize file (Some graphs) m = (true, m') ->
    map_Forall (fun nm g => g_name g = nm) graphs -> (version_ m + 1 < 2 ^ 32)%Z ->
    pstep (mkWorld m o ld) (mkWorld m' o (dom graphs)).

(** [count v nm l]: the graphs of version [v] for workflow [nm] in [l]. *)
Definition count (v : Z) (nm : string) (l : list EG) : nat :=
  length (filter (fun g => version g = v /\ eg_name g = nm) l).

Definition tls_count (v : Z) (nm : string) (tls : gmap nat ExeGraphsMap) : nat :=
  map_fold (fun _ gs acc => count v nm (queue_of nm gs) + acc)%nat 0%nat tls.

(** Every graph of the current version for [nm]: pooled, cached by a thread
    or held by a session. *)
Definition holdings (nm : string) (w : World) : nat :=
  let v := version_ (mgr w) in
  (count v nm (queue_of nm (exe_graphs (mgr w))) + tls_count v nm (tls_exe_graphs (mgr w))
   + count v nm (out w))%nat.

(** A queue holds graphs of its own workflow, none newer than [v]. *)
Definition queues_ok (v : Z) (gs : ExeGraphsMap) : Prop :=
  forall nm g, g ∈ queue_of nm gs -> eg_name g = nm /\ (version g <= v)%Z.

Record world_ok (w : World) : Prop := {
  ok_mode : mode (mgr w) = Pool;
  ok_version : (0 <= version_ (mgr w) < 2 ^ 32)%Z;
  ok_shared : queues_ok (version_ (mgr w)) (exe_graphs (mgr w));
  ok_current : forall nm g, g ∈ queue_of nm (exe_graphs (mgr w)) -> version g = version_ (mgr w);
  ok_tls : forall t gs, tls_exe_graphs (mgr w) !! t = Some gs -> queues_ok (version_ (mgr w)) gs;
  ok_out : forall g, g ∈ out w -> (version g <= version_ (mgr w))%Z;
  ok_count : forall nm, holdings nm w =
    if bool_decide (nm ∈ loaded w) then Z.to_nat (Z.max 1 (pool_size (mgr w))) else 0%nat;
}.

(** *** Counting *)

Arguments count : simpl never.
Arguments tls_count : simpl never.
Arguments queue_of : simpl never.
Arguments tls_of : simpl never.

Lemma count_nil v nm : count v nm [] = 0%nat.
Proof. done. Qed.

Lemma count_cons v nm g l :
  count v nm (g :: l) = ((if bool_decide (version g = v /\ eg_name g = nm) then 1 else 0) + count v nm l)%nat.
Proof. unfold count. rewrite filter_cons. case_decide; case_bool_decide; done. Qed.

Lemma count_app v nm l1 l2 : count v nm (l1 ++ l2) = (count v nm l1 + count v nm l2)%nat.
Proof. unfold count. by rewrite list.filter_app, length_app. Qed.

Lemma count_old v nm l : (forall g, g ∈ l -> (version g < v)%Z) -> count v nm l = 0%nat.
Proof.
  intros Hl. induction l as [|g l IH]; [done|]. rewrite count_cons, IH by set_solver.
  rewrite bool_decide_eq_false_2; [done|]. intros [E _]. specialize (Hl g ltac:(set_solver)). lia.
Qed.

Lemma queue_of_insert nm nm' q (gs : ExeGraphsMap) :
  queue_of nm (<[nm' := q]> gs) = if decide (nm = nm') then q else queue_of nm gs.
Proof.
  unfold queue_of. case_decide; subst; [by rewrite lookup_insert_eq | by rewrite lookup_insert_ne].
Qed.

Lemma tls_count_insert v nm t gs (tls : gmap nat ExeGraphsMap) :
  (tls_count v nm (<[t := gs]> tls) + count v nm (queue_of nm (default ∅ (tls !! t))) =
   tls_count v nm tls + count v nm (queue_of nm gs))%nat.
Proof.
  unfold tls_count. rewrite <- insert_delete_eq.
  rewrite map_fold_insert_L; [|intros; lia | by rewrite lookup_delete_eq].
  destruct (tls !! t) as [gs0|] eqn:E; cbn.
  - rewrite (map_fold_delete_L _ _ t gs0 tls); [lia | intros; lia | done].
  - rewrite delete_id by done. unfold queue_of at 3. rewrite lookup_empty. cbn. rewrite count_nil. lia.
Qed.

Lemma tls_count_old v nm (tls : gmap nat ExeGraphsMap) :
  (forall t gs, tls !! t = Some gs -> count v nm (queue_of nm gs) = 0%nat) -> tls_count v nm tls = 0%nat.
Proof.
  unfold tls_count. induction tls as [|t gs tls Ht IH] using map_ind; intros Hl; [done|].
  rewrite map_fold_insert_L; [|intros; lia | done].
  rewrite (Hl t) by (by rewrite lookup_insert_eq). rewrite IH; [done|].
  intros t' gs' Ht'. apply (Hl t'). rewrite lookup_insert_ne; [done | congruence].
Qed.

(** *** Taking and giving back *)

Lemma FromPool_inv nm (gs : ExeGraphsMap) g gs' :
  GetExeGraphFromPool nm gs = Some (g, gs') ->
  exists q, queue_of nm gs = g :: q /\ gs' = <[nm := q]> gs.
Proof.
  unfold GetExeGraphFromPool, queue_of. destruct (gs !! nm) as [[|g' q]|]; try done.
  intros [= -> <-]. eauto.
Qed.

Lemma queues_ok_insert v nm q (gs : ExeGraphsMap) :
  queues_ok v gs -> (forall g, g ∈ q -> eg_name g = nm /\ (version g <= v)%Z) ->
  queues_ok v (<[nm := q]> gs).
Proof. intros Hgs Hq nm' g. rewrite queue_of_insert. case_decide; subst; auto. Qed.

Lemma queues_ok_empty v : queues_ok v (∅ : ExeGraphsMap).
Proof. intros nm g. unfold queue_of. rewrite lookup_empty. cbn. set_solver. Qed.

Lemma tls_ok_at w t : world_ok w -> queues_ok (version_ (mgr w)) (tls_of t (mgr w)).
Proof.
  intros Hw. unfold tls_of. destruct (tls_exe_graphs (mgr w) !! t) eqn:E; cbn;
    [by eapply ok_tls | apply queues_ok_empty].
Qed.

(** A graph taken from a queue is one graph less in it. *)
Lemma count_take v nm nm' g q (gs : ExeGraphsMap) :
  queue_of nm' gs = g :: q -> eg_name g = nm' ->
  count v nm (queue_of nm gs) = (count v nm (queue_of nm (<[nm' := q]> gs)) + count v nm [g])%nat.
Proof.
  intros E En. rewrite queue_of_insert. case_decide as D.
  - subst nm. rewrite E. rewrite !count_cons, count_nil. lia.
  - rewrite count_cons, bool_decide_eq_false_2 by (intros [_ ?]; congruence).
    rewrite count_nil. lia.
Qed.

Lemma count_enqueue v nm g (gs : ExeGraphsMap) :
  count v nm (queue_of nm (enqueue (eg_name g) g gs)) =
  (count v nm (queue_of nm gs) + count v nm [g])%nat.
Proof.
  unfold enqueue. rewrite queue_of_insert. case_decide as D.
  - subst nm. by rewrite count_app.
  - rewrite count_cons, bool_decide_eq_false_2 by (intros [_ ?]; congruence).
    rewrite count_nil. lia.
Qed.

Lemma take_ok t nm g m m' o ld :
  world_ok (mkWorld m o ld) -> GetExeGraph t nm m = (Some g, m') ->
  world_ok (mkWorld m' (g :: o) ld) /\ eg_name g = nm.
Proof.
  intros Hw Hg. destruct (Hw) as [Hm Hv Hs Hc Ht Ho Hn]. cbn in *. unfold GetExeGraph in Hg.
  rewrite Hm in Hg. assert (Htls := tls_ok_at _ t Hw). cbn in Htls.
  destruct (if use_tls m then _ else _) as [[g' tls]|] eqn:Et.
  - injection Hg as <- <-. destruct (use_tls m); [|done].
    apply FromPool_inv in Et as (q & Eq & ->).
    assert (Hq : forall g0, g0 ∈ g' :: q -> eg_name g0 = nm /\ (version g0 <= version_ m)%Z)
      by (intros g0 Hg0; apply Htls; by rewrite Eq).
    split; [|apply Hq; set_solver]. split; cbn; try done.
    + intros t' gs'. destruct (decide (t' = t)) as [->|]; [rewrite lookup_insert_eq | rewrite lookup_insert_ne by done].
      * intros [= <-]. apply queues_ok_insert; [done|]. intros; apply Hq; set_solver.
      * apply Ht.
    + intros g0 [->|Hg0]%elem_of_cons; [apply Hq; set_solver | auto].
    + intros nm'. rewrite <- Hn. unfold holdings; cbn. rewrite (count_cons _ nm' g' o).
      pose proof (tls_count_insert (version_ m) nm' t (<[nm := q]> (tls_of t m)) (tls_exe_graphs m)) as E.
      fold (tls_of t m) in E. pose proof (count_take (version_ m) nm' nm g' q (tls_of t m) Eq) as E2.
      rewrite (count_cons _ nm' g' []), count_nil in E2. specialize (E2 ltac:(apply Hq; set_solver)). lia.
  - destruct (GetExeGraphFromPool nm (exe_graphs m)) as [[g' gs]|] eqn:Ep; [|done].
    injection Hg as <- <-. apply FromPool_inv in Ep as (q & Eq & ->).
    assert (Hq : forall g0, g0 ∈ g' :: q -> eg_name g0 = nm /\ (version g0 <= version_ m)%Z)
      by (intros g0 Hg0; apply Hs; by rewrite Eq).
    split; [|apply Hq; set_solver]. split; cbn; try done.
    + apply queues_ok_insert; [done|]. intros; apply Hq; set_solver.
    + intros nm' g0. rewrite queue_of_insert. case_decide; [|by apply Hc].
      intros Hg0. apply (Hc nm). rewrite Eq. set_solver.
    + intros g0 [->|Hg0]%elem_of_cons; [apply Hq; set_solver | auto].
    + intros nm'. rewrite <- Hn. unfold holdings; cbn. rewrite (count_cons _ nm' g' o).
      pose proof (count_take (version_ m) nm' nm g' q (exe_graphs m) Eq) as E2.
      rewrite (count_cons _ nm' g' []), count_nil in E2. specialize (E2 ltac:(apply Hq; set_solver)). lia.
Qed.

Lemma count_single_stale v nm g : version g <> v -> count v nm [g] = 0%nat.
Proof. intros Hv. rewrite count_cons, bool_decide_eq_false_2, count_nil; [done | tauto]. Qed.

Lemma enqueue_ok v g (gs : ExeGraphsMap) :
  queues_ok v gs -> (version g <= v)%Z -> queues_ok v (enqueue (eg_name g) g gs).
Proof.
  intros Hgs Hg. apply queues_ok_insert; [done|].
  intros g0 [H0 | ->%list_elem_of_singleton]%elem_of_app; [by apply Hgs | done].
Qed.

Lemma give_ok t g m o1 o2 ld :
  world_ok (mkWorld m (o1 ++ g :: o2) ld) ->
  world_ok (mkWorld (ReleaseExeGraph t g m) (o1 ++ o2) ld).
Proof.
  intros Hw. destruct (Hw) as [Hm Hv Hs Hc Ht Ho Hn]. cbn in *. unfold ReleaseExeGraph. rewrite Hm.
  assert (Ho' : forall g0, g0 ∈ o1 ++ o2 -> (version g0 <= version_ m)%Z) by (clear -Ho; set_solver).
  assert (Hsum : forall nm, (count (version_ m) nm (o1 ++ g :: o2) =
            count (version_ m) nm (o1 ++ o2) + count (version_ m) nm [g])%nat).
  { intros nm. rewrite !count_app, (count_cons _ nm g o2), (count_cons _ nm g []), count_nil. lia. }
  case_bool_decide as Hver.
  { split; cbn; try done. intros nm. rewrite <- Hn. unfold holdings; cbn.
    rewrite Hsum, count_single_stale by done. lia. }
  assert (Hver' : version g = version_ m) by (destruct (decide (version g = version_ m)); tauto).
  destruct (use_tls m && _).
  - split; cbn; try done.
    + intros t' gs'. destruct (decide (t' = t)) as [->|];
        [rewrite lookup_insert_eq | rewrite lookup_insert_ne by done; apply Ht].
      intros [= <-]. apply enqueue_ok; [apply (tls_ok_at _ t Hw) | lia].
    + intros nm. rewrite <- Hn. unfold holdings; cbn. rewrite Hsum.
      pose proof (tls_count_insert (version_ m) nm t (enqueue (eg_name g) g (tls_of t m)) (tls_exe_graphs m)) as E.
      fold (tls_of t m) in E. rewrite count_enqueue in E. lia.
  - split; cbn; try done.
    + apply enqueue_ok; [done | lia].
    + intros nm g0. unfold enqueue. rewrite queue_of_insert. case_decide; [|by apply Hc].
      intros [Hg0 | ->%list_elem_of_singleton]%elem_of_app; [by eapply Hc | done].
    + intros nm. rewrite <- Hn. unfold holdings; cbn. rewrite Hsum, count_enqueue. lia.
Qed.

(** *** Loading *)

(** The names and the version of a loaded graph. *)
Definition fresh_for (v : Z) (nm : string) (g : EG) : Prop := version g = v /\ eg_name g = nm.

Lemma Clone_same g c : Clone get_handler g = Some c -> version c = version g /\ eg_name c = eg_name g.
Proof.
  unfold Clone. destruct (map_loop _ (e_nodes g)) as [copies|]; [|done].
  destruct (map_loop _ (e_nodes g)), (eptr_name (e_entry g)); try done. by intros [= <-].
Qed.

Lemma enqueue_other nm nm' g (gs : ExeGraphsMap) :
  nm <> nm' -> queue_of nm (enqueue nm' g gs) = queue_of nm gs.
Proof. intros Hne. unfold enqueue. rewrite queue_of_insert. by case_decide. Qed.

Lemma enqueue_same nm g (gs : ExeGraphsMap) : queue_of nm (enqueue nm g gs) = queue_of nm gs ++ [g].
Proof. unfold enqueue. rewrite queue_of_insert. by case_decide. Qed.

Lemma clone_loop_spec v n nm g gs gs' :
  fresh_for v nm g -> clone_loop get_handler n nm g gs = Some gs' ->
  (forall nm', nm' <> nm -> queue_of nm' gs' = queue_of nm' gs) /\
  exists q, queue_of nm gs' = queue_of nm gs ++ q /\ length q = n /\ Forall (fresh_for v nm) q.
Proof.
  intros Hg. revert gs; induction n as [|n IH]; intros gs Hl; cbn in Hl.
  { injection Hl as <-. split; [done|]. exists []. by rewrite app_nil_r. }
  destruct (Clone get_handler g) as [c|] eqn:Ec; [|done].
  apply Clone_same in Ec as [Ev En]. apply IH in Hl as (Ho & q & Hq & Hlen & Hf). split.
  - intros nm' Hne. rewrite Ho by done. by apply enqueue_other.
  - exists (c :: q). rewrite Hq, enqueue_same, <- app_assoc. split_and!; cbn; try done; [by rewrite Hlen|].
    constructor; [|done]. destruct Hg; split; congruence.
Qed.

Lemma ReloadExeGraph_spec v psize l gs gs' :
  Forall (fun p : string * Graph => g_name p.2 = p.1) l -> NoDup l.*1 ->
  ReloadExeGraph get_handler v psize l gs = Some gs' ->
  (forall nm, nm ∉ l.*1 -> queue_of nm gs' = queue_of nm gs) /\
  (forall nm, nm ∈ l.*1 -> exists q, queue_of nm gs' = queue_of nm gs ++ q /\
     length q = Z.to_nat (Z.max 1 psize) /\ Forall (fresh_for v nm) q).
Proof.
  intros Hl. revert gs; induction Hl as [|[nm g] l Hg _ IH]; intros gs Hnd Hr; cbn in Hr.
  { injection Hr as <-. split; [done|]. intros nm Hnm; cbn in Hnm; set_solver. }
  apply list.NoDup_cons in Hnd as [Hni Hnd]. cbn in Hg.
  destruct (BuildGraph get_handler v g) as [[eg|]|] eqn:Eb; try done.
  assert (Hf : fresh_for v nm (set_version v eg)).
  { split; [done|]. unfold BuildGraph in Eb. destruct (BuildNode _ _ _ _ _) as [[e ee]|]; [|done].
    case_bool_decide; [done|]. injection Eb as <-. done. }
  destruct (clone_loop _ _ _ _ _) as [gs1|] eqn:Ec; [|done].
  destruct (clone_loop_spec v _ _ _ _ _ Hf Ec) as (Ho & q & Hq & Hlen & Hfq).
  destruct (IH _ Hnd Hr) as [IHo IHn]. split.
  - intros nm' [Hne Hni']%not_elem_of_cons. rewrite IHo by done. rewrite enqueue_other by done. by apply Ho.
  - intros nm' [-> | Hin]%elem_of_cons.
    + exists (q ++ [set_version v eg]). rewrite IHo by done. cbn. rewrite enqueue_same, Hq, <- app_assoc.
      split_and!; [done | rewrite length_app, Hlen; cbn; lia |].
      apply list.Forall_app; split; [done | by constructor].
    + destruct (IHn nm' Hin) as (q' & Hq' & ? & ?). exists q'. split_and!; try done.
      rewrite Hq'. f_equal. assert (nm' <> nm) by (by intros ->).
      rewrite enqueue_other by done. by apply Ho.
Qed.

Lemma count_fresh v nm l : Forall (fresh_for v nm) l -> count v nm l = length l.
Proof.
  induction 1 as [|g l Hg _ IH]; [done|]. rewrite count_cons, IH, bool_decide_eq_true_2 by done. done.
Qed.

Lemma load_ok psize tls tsize file graphs m m' o ld :
  world_ok (mkWorld m o ld) ->
  ReloadGraph get_handler Pool psize tls tsize file (Some graphs) m = (true, m') ->
  map_Forall (fun nm g => g_name g = nm) graphs -> (version_ m + 1 < 2 ^ 32)%Z ->
  world_ok (mkWorld m' o (dom graphs)).
Proof.
  intros [Hm Hv Hs Hc Ht Ho Hn] Hr Hg Hver. cbn in *.
  rewrite Z.mod_small in Hr by lia.
  destruct (ReloadExeGraph _ _ _ _ _) as [gs|] eqn:E; [|done]. injection Hr as <-.
  apply ReloadExeGraph_spec in E as [Eo En]; [|by apply map_Forall_to_list in Hg; eapply Forall_impl; [|exact Hg]; intros [] | apply NoDup_fst_map_to_list].
  assert (Hdom : forall nm, nm ∈ (map_to_list graphs).*1 <-> nm ∈ dom graphs).
  { intros nm. rewrite elem_of_dom, list_elem_of_fmap. split.
    - intros ([k x] & -> & Hx%elem_of_map_to_list). eauto.
    - intros [x Hx%elem_of_map_to_list]. by exists (nm, x). }
  assert (Hq : forall nm g, g ∈ queue_of nm gs -> fresh_for (version_ m + 1) nm g).
  { intros nm g Hin. destruct (decide (nm ∈ (map_to_list graphs).*1)) as [Hd | Hd].
    - destruct (En nm Hd) as (q & Eq & _ & Hf). rewrite Eq in Hin. cbn in Hin.
      apply list.Forall_forall with (x := g) in Hf; done.
    - rewrite (Eo nm Hd) in Hin. cbn in Hin. set_solver. }
  split; cbn; try done; try lia.
  - intros nm g Hin. destruct (Hq nm g Hin). split; [done | lia].
  - intros nm g Hin. apply (Hq nm g Hin).
  - intros t gs0 Hgs0 nm g Hin. destruct (Ht t gs0 Hgs0 nm g Hin). split; [done | lia].
  - intros g Hin. specialize (Ho g Hin). lia.
  - intros nm. unfold holdings; cbn.
    rewrite tls_count_old, (count_old _ _ o).
    2:{ intros g Hin. specialize (Ho g Hin). lia. }
    2:{ intros t gs0 Hgs0. apply count_old. intros g Hin. destruct (Ht t gs0 Hgs0 nm g Hin). lia. }
    case_bool_decide as Hd; rewrite <- Hdom in Hd.
    + destruct (En nm Hd) as (q & -> & Hlen & Hf). change (queue_of nm ∅) with (@nil EG). cbn [app].
      rewrite count_fresh by done. lia.
    + rewrite (Eo nm Hd). done.
Qed.

Lemma pstep_ok w w' : pstep w w' -> world_ok w -> world_ok w'.
Proof. destruct 1; intros Hw; [by eapply take_ok | by apply give_ok | by eapply load_ok]. Qed.

(** The manager before anything is loaded. *)
Definition initial_mgr (psize : Z) : ExecutionGraphMgr H := mkMgr Pool psize 0 false "" 0 ∅ ∅.
Definition initial_world (psize : Z) : World := mkWorld (initial_mgr psize) [] ∅.

Lemma initial_ok psize : world_ok (initial_world psize).
Proof.
  split; cbn; try done; try lia; by intros nm g Hin; set_solver.
Qed.
End Life.

(** C11: graphs are neither lost nor duplicated.  However threads take and give
    back graphs and files are loaded, the graphs of the current version for a
    loaded workflow - in the shared queue, in the threads' caches and held by
    sessions together - are exactly as many as the pool size (one when the size
    is zero), there are none for other workflows, and the shared queue of a
    workflow holds only its graphs of the current version. *)
Theorem pool_conserved {H} (get_handler : string -> option H) psize w nm :
  rtc (pstep get_handler) (initial_world psize) w ->
  holdings nm w = (if bool_decide (nm ∈ loaded w)
                   then Z.to_nat (Z.max 1 (pool_size (mgr w))) else 0%nat) /\
  (forall g, g ∈ queue_of nm (exe_graphs (mgr w)) -> version g = version_ (mgr w) /\ eg_name g = nm).
Proof.
  intros Hr. assert (Hw : world_ok w).
  { generalize (initial_ok (H := H) psize). induction Hr; [done|]. eauto using pstep_ok. }
  split; [by apply ok_count|]. intros g Hg. split; [by eapply ok_current | by eapply ok_shared].
Qed.

(** A workflow [w] of one node and its execution graph at version [v]. *)
Definition one_graph : Graph := mkGraph "w" (PNode 0) [mkNode "A" PEnd PEnd].
Definition one_exec (v : Z) : ExecutionGraph unit :=
  mkExecutionGraph "w" v (ENode "A") {["A" := mkExecutionNode "A" EEnd EEnd (Some tt)]}.
Definition one_handler (nm : string) : option unit := Some tt.

(** Loaded with a pool of two and thread caches of one. *)
Definition loaded_mgr (v : Z) (shared : list (ExecutionGraph unit))
    (tls : gmap nat (gmap string (list (ExecutionGraph unit)))) : ExecutionGraphMgr unit :=
  mkMgr Pool 2 1 true "f" v {["w" := shared]} tls.

Lemma pool_conserved_witness :
  holdings "w" (mkWorld (loaded_mgr 1 [one_exec 1] ∅) [one_exec 1] {["w"]}) = 2%nat.
Proof.
  refine (proj1 (pool_conserved one_handler 2
                   (mkWorld (loaded_mgr 1 [one_exec 1] ∅) [one_exec 1] {["w"]}) "w" _)).
  eapply rtc_l.
  - apply (pstep_load one_handler 2 true 1 "f" {["w" := one_graph]}); [reflexivity | | reflexivity].
    intros nm g [<- <-]%lookup_singleton_Some. reflexivity.
  - apply rtc_once.
    exact (pstep_take one_handler 0 "w" (one_exec 1) (loaded_mgr 1 [one_exec 1; one_exec 1] ∅) (loaded_mgr 1 [one_exec 1] ∅) [] {["w"]} eq_refl).
Defined.

(** A reload does not reach the threads' caches.  A thread that gave a graph
    back to its cache takes that graph out again after a new file is loaded,
    although its version is not the current one. *)
Lemma stale_graph_after_reload :
  let cached := loaded_mgr 1 [one_exec 1] {[0%nat := {["w" := [one_exec 1]]}]} in
  let reloaded := (ReloadGraph one_handler Pool 2 true 1 "f" (Some {["w" := one_graph]}) cached).2 in
  ReleaseExeGraph 0 (one_exec 1) (loaded_mgr 1 [one_exec 1] ∅) = cached /\
  version_ reloaded = 2%Z /\ (GetExeGraph 0 "w" reloaded).1 = Some (one_exec 1).
Proof. vm_compute. auto. Qed.
