(* ===== verification/Engine.v ===== *)
(** * Running a workflow: src/orc/framework/{context,workflow}.{h,cc}

    A [Context] is the state of one session's walk over its execution graph;
    [Workflow::RunInner] steps it until the walk is suspended by an
    asynchronous handler or has reached the end node, where the session is
    answered and its resources are given back. *)
From Stdlib Require Import ZArith Lia.
From stdpp Require Import base gmap sets list strings relations.
From S2P Require Import Prelude Graph Syntax Compiler Semantics CompilerCorrect Preservation ExecGraph.

(** [enum class AsyncState]. *)
Inductive AsyncState : Type := Before | After | Finish.

#[export] Instance AsyncState_eq_dec : EqDecision AsyncState.
Proof. solve_decision. Defined.

(** [class Context].  The execution graph is a member, closures are numbered,
    [closures_done] records the calls of [Done] on them. *)
Record Ctx : Type := mkCtx {
  node : eptr;
  next_edge : bool;
  walked_path : list eptr;
  is_async : bool;
  async_state : AsyncState;
  async_counter : Z;
  async_closure : option nat;
  closures_done : list nat;
  schedule_hint : Z;
  lives : Z;
}.

(** The constructor. *)
Definition new_Context : Ctx := mkCtx EEnd false [] false Before 0 None [] (-1) 0.

Definition set_node (p : eptr) (c : Ctx) : Ctx :=
  mkCtx p (next_edge c) (walked_path c) (is_async c) (async_state c) (async_counter c)
        (async_closure c) (closures_done c) (schedule_hint c) (lives c).
Definition set_next_edge (b : bool) (c : Ctx) : Ctx :=
  mkCtx (node c) b (walked_path c) (is_async c) (async_state c) (async_counter c)
        (async_closure c) (closures_done c) (schedule_hint c) (lives c).
Definition set_walked (l : list eptr) (c : Ctx) : Ctx :=
  mkCtx (node c) (next_edge c) l (is_async c) (async_state c) (async_counter c)
        (async_closure c) (closures_done c) (schedule_hint c) (lives c).
Definition set_async_state (a : AsyncState) (c : Ctx) : Ctx :=
  mkCtx (node c) (next_edge c) (walked_path c) (is_async c) a (async_counter c)
        (async_closure c) (closures_done c) (schedule_hint c) (lives c).
Definition set_async_closure (o : option nat) (c : Ctx) : Ctx :=
  mkCtx (node c) (next_edge c) (walked_path c) (is_async c) (async_state c) (async_counter c)
        o (closures_done c) (schedule_hint c) (lives c).
Definition set_schedule_hint (h : Z) (c : Ctx) : Ctx :=
  mkCtx (node c) (next_edge c) (walked_path c) (is_async c) (async_state c) (async_counter c)
        (async_closure c) (closures_done c) h (lives c).
Definition set_lives (z : Z) (c : Ctx) : Ctx :=
  mkCtx (node c) (next_edge c) (walked_path c) (is_async c) (async_state c) (async_counter c)
        (async_closure c) (closures_done c) (schedule_hint c) z.

(** [Context::StepReset]. *)
Definition StepReset (c : Ctx) : Ctx :=
  mkCtx (node c) (next_edge c) (walked_path c) false Before 0 None
        (match async_closure c with Some k => closures_done c ++ [k] | None => closures_done c end)
        (schedule_hint c) (lives c).

(** [Context::Setup] on a graph with entry [e]. *)
Definition Setup (e : eptr) (c : Ctx) : Ctx :=
  set_lives 1 (StepReset (set_walked [] (set_node e c))).

(** [Context::Reset]. *)
Definition Reset (c : Ctx) : Ctx :=
  let c := StepReset (set_schedule_hint (-1) (set_walked [] (set_node ENull c))) in
  set_lives (lives c - 1) c.

(** [Context::IsAsync]: a test that takes one from the counter. *)
Definition IsAsync (c : Ctx) : bool * Ctx :=
  if is_async c
  then (bool_decide (0 < async_counter c)%Z,
        mkCtx (node c) (next_edge c) (walked_path c) (is_async c) (async_state c)
              (async_counter c - 1) (async_closure c) (closures_done c) (schedule_hint c) (lives c))
  else (false, c).

(** [Context::SetAsync]. *)
Definition SetAsync (async : bool) (c : Ctx) : Ctx :=
  if async
  then mkCtx (node c) (next_edge c) (walked_path c) true Before 1
             (async_closure c) (closures_done c) (schedule_hint c) (lives c)
  else mkCtx (node c) (next_edge c) (walked_path c) false (async_state c) (async_counter c)
             (async_closure c) (closures_done c) (schedule_hint c) (lives c).

(** [Context::IsDone]. *)
Definition IsDone (c : Ctx) : bool := bool_decide (node c = EEnd).

(** What the worker does to the rest of the system when a session ends. *)
Inductive event : Type := EvClosureDone | EvReleaseExeGraph | EvReleaseSession.

Section Engine.
(** A session of type [S] and the handlers' [BaseRun], which may use the
    context. *)
Context {H S : Type} (BaseRun : H -> S -> Ctx -> bool * S * Ctx).
Context (eg : gmap string (ExecutionNode H)).

(** Dereferencing an [ExecutionNode*]; the end node has no handler and no
    edges. *)
Definition ederef (p : eptr) : option (ExecutionNode H) :=
  match p with
  | ENull => None
  | EEnd => Some (new_ExecutionNode "end_node")
  | ENode nm => eg !! nm
  end.

(** [ExecutionNode::Run]; [None] is a null dereference. *)
Definition node_Run (nd : ExecutionNode H) (s : S) (c : Ctx) : option (S * Ctx) :=
  match handler nd with
  | Some h => let '(b, s, c) := BaseRun h s c in Some (s, set_next_edge b c)
  | None => None
  end.

(** [Context::NextStep], without the timer. *)
Definition NextStep (c : Ctx) : option Ctx :=
  match ederef (node c) with
  | None => None
  | Some nd =>
      let c := set_walked (walked_path c ++ [node c]) c in
      let c := set_node (if next_edge c then true_next nd else false_next nd) c in
      Some (StepReset c)
  end.

(** [Context::Step]. *)
Definition Step (s : S) (c : Ctx) : option (S * Ctx) :=
  match ederef (node c) with
  | None => None
  | Some nd =>
      match node_Run nd s c with
      | None => None
      | Some (s, c) =>
          if negb (is_async c) || bool_decide (async_state c = Finish)
          then match NextStep c with Some c => Some (s, c) | None => None end
          else Some (s, c)
      end
  end.

(** [Workflow::ResetCtx]. *)
Definition ResetCtx (c : Ctx) : list event * Ctx :=
  ([EvClosureDone; EvReleaseExeGraph; EvReleaseSession], Reset c).

(** [Workflow::RunInner(Context* )]: the events, the session and the context
    when it returns.  [None] is a null dereference or too little fuel. *)
Fixpoint RunInner (fuel : nat) (s : S) (c : Ctx) : option (list event * S * Ctx) :=
  match fuel with
  | O => None
  | Datatypes.S fuel =>
      let (a, c) := IsAsync c in
      if a || IsDone c then
        if IsDone c then let (ev, c) := ResetCtx c in Some (ev, s, c) else Some ([], s, c)
      else
        match Step s c with
        | None => None
        | Some (s, c) => RunInner fuel s c
        end
  end.

(** [Context::Callback] on the worker's own thread. *)
Definition Callback (fuel : nat) (s : S) (c : Ctx) : option (list event * S * Ctx) :=
  RunInner fuel s (set_async_state After c).
End Engine.

(** ** Synchronous sessions *)

(** No asynchronous call is pending. *)
Definition idle (c : Ctx) : Prop :=
  is_async c = false /\ async_state c = Before /\ async_counter c = 0%Z /\ async_closure c = None.

Definition session_end : list event := [EvClosureDone; EvReleaseExeGraph; EvReleaseSession].

Section Sync.
Context {H S : Type} (get_handler : string -> option H).
Context (BaseRun : H -> S -> Ctx -> bool * S * Ctx) (run : string -> S -> bool * S).

(** A synchronous handler works on the session and leaves the context alone. *)
Definition synchronous : Prop :=
  forall nm h s c, get_handler nm = Some h -> BaseRun h s c = (run nm s, c).

Context (Hsync : synchronous).
Context (g : Graph) (eg : ExecutionGraph H) (Hrep : represents get_handler g eg).
Context (Hwf : wf_nodes (nodes g)).
Context (Hset : forall i nd, nodes g !! i = Some nd -> edges_set nd).

Abbreviation RunInner := (RunInner BaseRun (e_nodes eg)).
Abbreviation Step := (Step BaseRun (e_nodes eg)).

(** One step of the engine is one step over the workflow graph. *)
Lemma Step_sync i nd s c :
  nodes g !! i = Some nd -> idle c -> node c = ENode (name nd) ->
  exists c', Step s c = Some ((run (name nd) s).2, c') /\ idle c' /\
    node c' = eptr_of (nodes g) (if (run (name nd) s).1 then true_edge nd else false_edge nd) /\
    walked_path c' = walked_path c ++ [node c].
Proof.
  intros Hi (Ia & Ib & Ic & Id) Hn. destruct Hrep as (_ & _ & _ & Hall).
  destruct (Hall i nd Hi) as (h & Hh & He).
  unfold Engine.Step, ederef. rewrite Hn, He. unfold node_Run. cbn [handler image].
  rewrite (Hsync _ _ s c Hh). destruct (run (name nd) s) as [b s'] eqn:Er. cbn [fst snd].
  destruct c as [nod ne wp ia st ac cl cd sh lv]; cbn in *. subst.
  unfold NextStep, ederef; cbn. rewrite He. eexists. split; [reflexivity|].
  destruct b; split_and!; done.
Qed.

Lemma idle_IsAsync c : idle c -> IsAsync c = (false, c).
Proof. intros (Ia & _). unfold IsAsync. by rewrite Ia. Qed.

Lemma run_forward n i s s' c :
  nsteps (gstep run (nodes g)) n (PNode i, s) (PEnd, s') -> idle c ->
  node c = eptr_of (nodes g) (PNode i) ->
  exists c', RunInner (Datatypes.S n) s c = Some (session_end, s', c') /\ node c' = ENull /\ idle c'.
Proof.
  revert i s c; induction n as [|n IH]; intros i s c Hn Hid Hc; inversion Hn as [|? ? c1 ? Hs Hr]; subst.
  inversion Hs as [j nd s0 b s1 Hj Hrun]; subst. cbn in Hc. rewrite Hj in Hc.
  destruct (Step_sync i nd s c Hj Hid Hc) as (c' & Est & Hid' & Hnode & _).
  rewrite Hrun in Est, Hnode. cbn in Est, Hnode.
  remember (Datatypes.S n) as m. cbn. rewrite (idle_IsAsync c Hid). unfold IsDone. rewrite Hc.
  rewrite bool_decide_eq_false_2 by done. cbn. rewrite Est. subst m.
  assert (Hq : exists q, (if b then true_edge nd else false_edge nd) = q) by eauto.
  destruct Hq as [[| |k] Eq]; rewrite Eq in Hnode, Hr.
  - exfalso. destruct (Hset i nd Hj). by destruct b.
  - inversion Hr as [|? ? ? ? Hs2]; subst; [|by inversion Hs2].
    cbn. rewrite (idle_IsAsync c' Hid'). unfold IsDone. rewrite Hnode.
    rewrite bool_decide_eq_true_2 by done. cbn. eexists. split; [reflexivity|].
    split; [done|]. destruct Hid' as (? & ? & ? & ?). by destruct c'; cbn in *; subst.
  - destruct n as [|n]; [inversion Hr|]. by apply (IH k).
Qed.

Lemma run_backward fuel p s ev s' c c' :
  RunInner fuel s c = Some (ev, s', c') -> idle c -> node c = eptr_of (nodes g) p -> p <> PNull ->
  edge_ok (length (nodes g)) p ->
  ev = session_end /\ rtc (gstep run (nodes g)) (p, s) (PEnd, s').
Proof.
  revert p s c; induction fuel as [|fuel IH]; intros p s c Hr Hid Hc Hp Hok; [done|].
  cbn in Hr. rewrite (idle_IsAsync c Hid) in Hr. unfold IsDone in Hr. rewrite Hc in Hr.
  destruct p as [| |i]; [done | cbn in Hr |].
  - rewrite bool_decide_eq_true_2 in Hr by done. injection Hr as <- <- _. by split.
  - destruct (lookup_lt_is_Some_2 _ _ Hok) as [nd Hnd]. cbn in Hc. rewrite Hnd in Hc.
    cbn in Hr. rewrite Hnd in Hr. rewrite bool_decide_eq_false_2 in Hr by done. cbn in Hr.
    destruct (Step_sync i nd s c Hnd Hid Hc) as (c1 & Est & Hid' & Hnode & _).
    rewrite Est in Hr. destruct (run (name nd) s) as [b s1] eqn:Erun. cbn in Hr, Hnode.
    destruct (Hset i nd Hnd), (Hwf i nd Hnd).
    destruct (IH _ s1 c1 Hr Hid' Hnode) as [-> Hrt]; [by destruct b | by destruct b |].
    split; [done|]. eapply rtc_l; [|exact Hrt]. by econstructor.
Qed.
End Sync.

Lemma Setup_idle e c : idle (Setup e c) /\ node (Setup e c) = e.
Proof. by split; [split_and!|]. Qed.

(** A graph that represents a compiled block runs it: the loop ends where the structured
    execution does, and ends the session. *)
Lemma represented_runs {H S} (get_handler : string -> option H)
    (BaseRun : H -> S -> Ctx -> bool * S * Ctx) (run : string -> S -> bool * S) l g eg c :
  synchronous get_handler BaseRun run -> wf_graph g -> valid_graph g -> entry g <> PNull ->
  block_at (nodes g) l (entry g) PEnd -> represents get_handler g eg ->
  (forall s s', (exists fuel ev c', RunInner BaseRun (e_nodes eg) fuel s (Setup (e_entry eg) c)
                   = Some (ev, s', c')) <-> exists o, exec_block run l s o s') /\
  (forall fuel s ev s' c', RunInner BaseRun (e_nodes eg) fuel s (Setup (e_entry eg) c)
                   = Some (ev, s', c') -> ev = session_end).
Proof.
  intros Hsync [Hw Hwe] Hv He Hb Hrep. assert (Hset := valid_edges_set g Hv).
  destruct (Hrep) as (_ & Hent & _). destruct (Setup_idle (e_entry eg) c) as [Hid Hn].
  rewrite Hent in Hid, Hn |- *. split.
  - intros s s'. rewrite <- (graph_exec run g l Hv He Hb s s'). split.
    + intros (fuel & ev & c' & Hr). by eapply run_backward in Hr as [_ ?].
    + destruct (valid_entry g Hv He) as [e Ee]. rewrite Ee in *. intros [n Hr]%rtc_nsteps.
      eapply run_forward in Hr as (c' & Hr & _); eauto 6.
  - intros fuel s ev s' c' Hr. by eapply run_backward in Hr as [? _].
Qed.

(** C1: end to end.  Compile a workflow, build its execution graph (the build
    succeeds, and so does a clone, which is the same graph) and run it for a
    session: when the handlers are synchronous and all of them are there, when no
    handler occurs twice and the workflow has something to run (its entry is not
    null), the worker's loop returns with the session in state [s'] exactly when
    the structured execution of the workflow's source ends in [s'], and when it
    returns it has answered the session and released its resources exactly
    once. *)
Theorem engine_correct {H S} (get_handler : string -> option H)
    (BaseRun : H -> S -> Ctx -> bool * S * Ctx) (run : string -> S -> bool * S) nm l gs gs' g v c :
  synchronous get_handler BaseRun run ->
  CompileWorkflow (WORKFLOW (NAME nm) (STMT_LIST l)) gs = Some gs' ->
  gs' !! nm = Some g -> entry g <> PNull -> NoDup (name <$> nodes g) ->
  (forall i nd, nodes g !! i = Some nd -> is_Some (get_handler (name nd))) ->
  exists eg, BuildGraph get_handler v g = Some (Some eg) /\ Clone get_handler eg = Some eg /\
    (forall s s', (exists fuel ev c', RunInner BaseRun (e_nodes eg) fuel s (Setup (e_entry eg) c)
                     = Some (ev, s', c')) <-> exists o, exec_block run l s o s') /\
    (forall fuel s ev s' c', RunInner BaseRun (e_nodes eg) fuel s (Setup (e_entry eg) c)
                     = Some (ev, s', c') -> ev = session_end).
Proof.
  intros Hsync (nm' & l' & g' & [= <- <-] & _ & -> & _ & _ & [Hw Hwe] & Hv & Hb)%CompileWorkflow_inv
    Hg He Hnd Hh.
  rewrite lookup_insert_eq in Hg; injection Hg as ->.
  destruct (BuildGraph_represents get_handler v g (conj Hw Hwe) Hv He Hnd Hh) as (eg & Eb & _ & Hrep).
  exists eg. split; [done|]. split; [by eapply Clone_represents | by apply (represented_runs get_handler _ _ l g)].
Qed.

(** The handlers of the sample workflow, synchronous, each its own name. *)
Definition sample_handler (nm : string) : option string := Some nm.
Definition sample_BaseRun (h : string) (s : Z) (c : Ctx) : bool * Z * Ctx := (sample_run h s, c).

Lemma engine_correct_witness :
  exists eg, BuildGraph sample_handler 1 sample_graph = Some (Some eg) /\
    Clone sample_handler eg = Some eg.
Proof.
  destruct (engine_correct sample_handler sample_BaseRun sample_run "w" sample_block ∅
              {["w" := sample_graph]} sample_graph 1 new_Context) as (eg & E1 & E2 & _);
    [intros nm h s c [= <-]; reflexivity | vm_compute; reflexivity | reflexivity | discriminate
    | apply (bool_decide_unpack _); vm_compute; exact I | eauto | exists eg; auto].
Defined.

(** ** Handlers that are used twice

    Execution nodes are found by their names, so the second occurrence of a handler in a
    sequence leads back to the node of the first one. *)

(** A sequence of calls in a graph: the nodes from [p] on are called [hs], and the last one
    leads to the end node. *)
Inductive chain (ns : list Node) : ptr -> list string -> Prop :=
| chain_end : chain ns PEnd []
| chain_cons i h q hs : ns !! i = Some (mkNode h q q) -> chain ns q hs -> chain ns (PNode i) (h :: hs).

Lemma seq_at_chain ns hs : forall p, seq_at ns (NAME <$> hs) p PEnd -> chain ns p hs.
Proof.
  induction hs as [|h hs IH]; cbn; intros p Hs; inversion Hs as [| |x l p' k' k _ Ha Hs']; subst; [constructor|].
  inversion Ha as [e i k0 He| | | |]; subst; cbn in He; econstructor; [exact He | by apply IH].
Qed.

(** The calls of a sequence in a graph all run. *)
Lemma chain_runs {S} (run : string -> S -> bool * S) ns p hs : chain ns p hs ->
  forall s, exists s', rtc (gstep run ns) (p, s) (PEnd, s').
Proof.
  induction 1 as [|i h q hs Hi _ IH]; intros s; [by exists s|].
  destruct (run h s) as [b s1] eqn:E; destruct (IH s1) as [s' Hs']; exists s'.
  eapply rtc_l; [|exact Hs']; pose proof (gstep_node run ns i _ s b s1 Hi E) as Hg; by destruct b.
Qed.

Section Repeated.
Context {H : Type} (get_handler : string -> option H).

(** The node [n] of an execution graph leads to a node of the graph. *)
Definition leads_on (eg : gmap string (ExecutionNode H)) (n : string) : Prop :=
  exists n' h, eg !! n = Some (mkExecutionNode n (ENode n') (ENode n') (Some h)) /\ get_handler n = Some h /\ is_Some (eg !! n').

Lemma GetNode_found nm (eg : gmap string (ExecutionNode H)) : is_Some (eg !! nm) -> eg_GetNode nm eg = ENode nm.
Proof. unfold eg_GetNode; by intros [? ->]. Qed.

(** Building a sequence in which a name comes twice, or that comes to a name of the graph:
    every new node leads on. *)
Lemma BuildNode_chain fuel ns p hs : chain ns p hs -> forall eg,
  (size (names ns ∖ dom eg) < fuel)%nat -> (forall h, h ∈ hs -> is_Some (get_handler h)) ->
  ~ (NoDup hs /\ forall h, h ∈ hs -> eg !! h = None) ->
  exists nm eg', BuildNode get_handler fuel ns p eg = Some (ENode nm, eg') /\ head hs = Some nm /\ is_Some (eg' !! nm) /\
    (forall n, is_Some (eg !! n) -> eg' !! n = eg !! n) /\ forall n, eg !! n = None -> is_Some (eg' !! n) -> leads_on eg' n.
Proof.
  intros Hc; revert fuel; induction Hc as [|i h q hs Hi Hq IH]; intros fuel eg Hf Hh Hd; [destruct Hd; split; [constructor | set_solver]|].
  destruct fuel as [|fuel]; [lia|]; cbn [BuildNode]; rewrite bool_decide_eq_false_2 by done; cbn [deref]; rewrite Hi; cbn [name true_edge false_edge].
  destruct (eg !! h) as [nd|] eqn:Eh.
  { rewrite bool_decide_eq_true_2 by (rewrite GetNode_found; [done | eauto]); rewrite GetNode_found by eauto.
    exists h, eg; rewrite Eh; split_and!; eauto; intros n -> [? ?]; done. }
  rewrite bool_decide_eq_false_2 by (unfold eg_GetNode; rewrite Eh; auto); destruct (Hh h) as [hd Hhd]; [set_solver|]; rewrite Hhd.
  assert (Hsz : (size (names ns ∖ ({[h]} ∪ dom eg)) < size (names ns ∖ dom eg))%nat).
  { apply subset_size; apply not_elem_of_dom in Eh; assert (h ∈ names ns) by exact (elem_of_names ns i _ Hi); set_solver. }
  destruct (IH fuel (eg_AddNode h (new_ExecutionNode h) eg)) as (nm & eg' & Eb & Hhead & Hnm & Hold & Hnew); [ | set_solver | |].
  { unfold eg_AddNode; rewrite dom_insert_L; lia. }
  { intros [Hnd Hfree]; apply Hd; split; [constructor; [|done]|].
    - intros Hin; specialize (Hfree h Hin); unfold eg_AddNode in Hfree; by rewrite lookup_insert_eq in Hfree.
    - intros h' [->|Hin]%elem_of_cons; [done|]; specialize (Hfree h' Hin); unfold eg_AddNode in Hfree; by apply lookup_insert_None in Hfree as [? _]. }
  rewrite Eb, bool_decide_eq_false_2 by done.
  assert (Hback : BuildNode get_handler fuel ns q eg' = Some (ENode nm, eg')).
  { destruct fuel as [|fuel]; [lia|]; inversion Hq as [|j h' q' hs' Hj]; subst; cbn in Hhead; [done|]; injection Hhead as ->.
    cbn [BuildNode]; rewrite bool_decide_eq_false_2 by done; cbn [deref]; rewrite Hj; cbn [name]; rewrite bool_decide_eq_true_2 by (by rewrite GetNode_found); by rewrite GetNode_found. }
  rewrite Hback, bool_decide_eq_false_2 by done; exists h, (alter (finish_node hd (ENode nm) (ENode nm)) h eg'); split; [done|]; split; [done|].
  assert (Hl : eg' !! h = Some (new_ExecutionNode h)) by (rewrite Hold; unfold eg_AddNode; by rewrite lookup_insert_eq).
  assert (Hdom : forall n, is_Some (alter (finish_node hd (ENode nm) (ENode nm)) h eg' !! n) <-> is_Some (eg' !! n)) by (intros n; apply lookup_alter_is_Some).
  split; [apply Hdom; eauto|]; split.
  - intros n Hn; assert (n <> h) by (intros ->; rewrite Eh in Hn; by destruct Hn); rewrite lookup_alter_ne by done.
    rewrite Hold; unfold eg_AddNode; rewrite lookup_insert_ne by done; done.
  - intros n Hn Hin; unfold leads_on; destruct (decide (n = h)) as [->|Hne].
    + rewrite lookup_alter_eq, Hl; exists nm, hd; split_and!; [done..|]; by apply Hdom.
    + rewrite lookup_alter_ne by done; apply Hdom in Hin; destruct (Hnew n) as (n' & h' & E1 & E2 & E3); [unfold eg_AddNode; by rewrite lookup_insert_ne | done|].
      exists n', h'; split_and!; [done..|]; by apply Hdom.
Qed.

Context {S : Type} (BaseRun : H -> S -> Ctx -> bool * S * Ctx) (run : string -> S -> bool * S).
Context (Hsync : synchronous get_handler BaseRun run).
Context (eg : gmap string (ExecutionNode H)) (Heg : forall n, is_Some (eg !! n) -> leads_on eg n).

(** [n] rounds of the loop of [RunInner]: the loop test passes and [Step] succeeds. *)
Fixpoint rounds (n : nat) (s : S) (c : Ctx) : option (S * Ctx) :=
  match n with
  | O => Some (s, c)
  | Datatypes.S n =>
      let (a, c) := IsAsync c in
      if a || IsDone c then None else '(s, c) ← Step BaseRun eg s c; rounds n s c
  end.

Definition in_graph (c : Ctx) : Prop := idle c /\ exists n, node c = ENode n /\ is_Some (eg !! n).

Lemma in_graph_step s c : in_graph c -> exists s' c', Step BaseRun eg s c = Some (s', c') /\ in_graph c'.
Proof.
  intros [(Ia & Ib & Ic & Id) (n & Hn & Hin)]; destruct (Heg n Hin) as (n' & h & El & Hh & Hin').
  unfold Step, ederef; rewrite Hn, El; unfold node_Run; cbn [handler]; rewrite (Hsync n h s c Hh); destruct (run n s) as [b s'].
  destruct c as [nod ne wp ia st ac cl cd sh lv]; cbn in *; subst; unfold NextStep, ederef; cbn; rewrite El; cbn.
  do 2 eexists; split; [reflexivity|]; split; [done|]; exists n'; by destruct b.
Qed.

Lemma in_graph_rounds n : forall s c, in_graph c ->
  RunInner BaseRun eg n s c = None /\ exists s' c', rounds n s c = Some (s', c') /\ in_graph c'.
Proof.
  induction n as [|n IH]; intros s c Hc; [by split; [|exists s, c]|]; cbn [RunInner rounds].
  pose proof Hc as [Hid (m & Hm & _)]; rewrite (idle_IsAsync c Hid); unfold IsDone; rewrite Hm, bool_decide_eq_false_2 by done; cbn [orb].
  destruct (in_graph_step s c Hc) as (s1 & c1 & -> & Hc1); cbn; by apply IH.
Qed.
End Repeated.

(** C13: a handler that is used twice.  Let a workflow be a sequence of calls of synchronous
    handlers, all of them there, in which a handler occurs twice.  Every run over its compiled
    graph ends; but in its execution graph, which is built without an error, the walk goes round:
    the loop of the worker makes any number of rounds, each of which succeeds and leaves the walk
    before its end, so that the loop returns for no amount of fuel. *)
Theorem repeated_handler_never_ends {H S} (get_handler : string -> option H)
    (BaseRun : H -> S -> Ctx -> bool * S * Ctx) (run : string -> S -> bool * S) nm hs gs gs' g v c :
  synchronous get_handler BaseRun run ->
  CompileWorkflow (WORKFLOW (NAME nm) (STMT_LIST (NAME <$> hs))) gs = Some gs' -> gs' !! nm = Some g ->
  ~ NoDup hs -> (forall h, h ∈ hs -> is_Some (get_handler h)) ->
  (forall s, exists s', rtc (gstep run (nodes g)) (entry g, s) (PEnd, s')) /\
  exists eg, BuildGraph get_handler v g = Some (Some eg) /\
    forall n s, RunInner BaseRun (e_nodes eg) n s (Setup (e_entry eg) c) = None /\
      exists s' c', rounds BaseRun (e_nodes eg) n s (Setup (e_entry eg) c) = Some (s', c') /\ IsDone c' = false /\ (IsAsync c').1 = false.
Proof.
  intros Hsync (nm' & l' & g' & [= <- <-] & _ & -> & _ & _ & [Hw Hwe] & Hv & Hb)%CompileWorkflow_inv Hg Hd Hh.
  rewrite lookup_insert_eq in Hg; injection Hg as ->.
  assert (Hc : chain (nodes g) (entry g) hs).
  { inversion Hb as [k Hl Hp|l k Hl Hp|x l p k' k Hr Ha Hs Hl Hp]; destruct hs as [|h hs]; try done; [destruct Hd; constructor|].
    apply seq_at_chain; rewrite <- Hl; by econstructor. }
  split; [exact (chain_runs run _ _ _ Hc)|].
  destruct (BuildNode_chain get_handler (build_fuel (nodes g)) (nodes g) (entry g) hs Hc ∅) as (e & eg & Eb & _ & He & _ & Hnew);
    [rewrite dom_empty_L, difference_empty_L; pose proof (size_names (nodes g)); unfold build_fuel; lia | done | by intros [? _] |].
  exists (mkExecutionGraph (g_name g) v (ENode e) eg); split; [unfold BuildGraph; by rewrite Eb|]; intros n s; cbn [e_nodes e_entry].
  destruct (in_graph_rounds get_handler BaseRun run Hsync eg (fun m Hm => Hnew m (lookup_empty m) Hm) n s (Setup (ENode e) c)) as [Hr (s' & c' & Hs & Hid & m & Hm & _)].
  { split; [apply Setup_idle | by exists e]. }
  split; [done|]; exists s', c'; split_and!; [done | unfold IsDone; rewrite Hm; done | by rewrite (idle_IsAsync c' Hid)].
Qed.

(** The workflow [A B A C]: its execution graph has only the nodes [A] and [B], which point at
    each other. *)
Definition repeated_graph : Graph :=
  mkGraph "w" (PNode 0)
    [mkNode "A" (PNode 1) (PNode 1); mkNode "B" (PNode 2) (PNode 2);
     mkNode "A" (PNode 3) (PNode 3); mkNode "C" PEnd PEnd].

Lemma repeated_handler_never_ends_witness :
  exists eg, BuildGraph sample_handler 1 repeated_graph = Some (Some eg) /\
    RunInner sample_BaseRun (e_nodes eg) 100 0%Z (Setup (e_entry eg) new_Context) = None.
Proof.
  destruct (repeated_handler_never_ends sample_handler sample_BaseRun sample_run "w" ["A"; "B"; "A"; "C"]%string ∅
    {["w" := repeated_graph]} repeated_graph 1 new_Context) as [_ (eg & Eb & Hr)].
  - intros nm h s c [= <-]; reflexivity.
  - vm_compute; reflexivity.
  - reflexivity.
  - apply (bool_decide_unpack _); vm_compute; exact I.
  - intros h _; by exists h.
  - exists eg; split; [exact Eb | apply Hr].
Defined.
