(* ===== verification/Async.v ===== *)
(** * Asynchronous handlers: src/orc/handler/rpc_handler.cc with src/orc/framework/{context,workflow}.cc

    A remote call suspends the walk: the worker leaves its loop and the last
    reply re-enters it through [Context::Callback], possibly on another thread
    and before the first worker has left.  The threads are interleaved at the
    granularity of the reads and writes of the shared [Context]. *)
From Stdlib Require Import ZArith Lia.
From stdpp Require Import base gmap sets list strings relations.
From S2P Require Import Prelude Graph ExecGraph Engine.

(** ** The barrier *)

(** [BarrierClosure::Run] on the atomic counter: the new counter, and whether
    this call calls back. *)
Definition barrier_Run (times : Z) : Z * bool :=
  let t := ((times - 1) mod 2 ^ 32)%Z in (t, bool_decide (t = 0)%Z).

(** The replies of one round of calls: which of [n] runs calls back. *)
Fixpoint barrier_runs (n : nat) (times : Z) : list bool :=
  match n with
  | O => []
  | S n => let (t, b) := barrier_Run times in b :: barrier_runs n t
  end.

(** Of the replies to the calls of one round, exactly the last one calls
    back, for every number of calls that fits the counter. *)
Lemma barrier_last_calls_back n :
  (Z.of_nat n < 2 ^ 32)%Z -> (0 < n)%nat ->
  barrier_runs n (Z.of_nat n) = replicate (n - 1) false ++ [true].
Proof.
  intros Hlt. induction n as [|n IH]; intros Hn; [lia|].
  cbn -[Z.of_nat]. rewrite Z.mod_small by lia. replace (Z.of_nat (S n) - 1)%Z with (Z.of_nat n) by lia.
  destruct n as [|n]; [done|]. rewrite bool_decide_eq_false_2 by lia.
  rewrite IH by lia. cbn. by rewrite Nat.sub_0_r.
Qed.

Lemma barrier_last_calls_back_witness : barrier_runs 3 3 = [false; false; true].
Proof. apply (barrier_last_calls_back 3); lia. Defined.

(** ** The remote call handler *)

Section Rpc.
(** The request parameters, the application's callbacks and the client group
    of the service. *)
Context {S P : Type}.
Context (BuildRequest : S -> bool * list P * S) (ProcessResponse : S -> bool * S).
Context (client_group : option nat) (resps_size : P -> nat).

(** [RpcInvoker::Invoke]: the result, the context and the number of calls
    issued. *)
Definition Invoke (rpc_param : list P) (c : Ctx) : bool * Ctx * nat :=
  match client_group with
  | None => (false, SetAsync false c, 0%nat)
  | Some size =>
      if forallb (fun p => Nat.eqb (resps_size p) size) rpc_param
      then (true, SetAsync true c, (length rpc_param * size)%nat)
      else (false, SetAsync false c, 0%nat)
  end.

(** [RpcHandlerBase::BaseRun]; [k] numbers the new [RpcInvoker]. *)
Definition rpc_BaseRun (k : nat) (s : S) (c : Ctx) : bool * S * Ctx * nat :=
  match async_state c with
  | Before =>
      let c := set_async_closure (Some k) c in
      let '(ok, ps, s) := BuildRequest s in
      if negb ok then (false, s, SetAsync false c, 0%nat)
      else match ps with
           | [] => (true, s, SetAsync false c, 0%nat)
           | _ => let '(b, c, n) := Invoke ps c in (b, s, c, n)
           end
  | After =>
      let c := set_async_state Finish c in
      let (b, s) := ProcessResponse s in (b, s, c, 0%nat)
  | Finish => (false, s, c, 0%nat)
  end.
End Rpc.

(** ** What the engine relies on *)

(** Called back, a handler finishes the round. *)
Definition finishes {S : Type} (run : S -> Ctx -> bool * S * Ctx * nat) : Prop :=
  forall s c b s' c' n, async_state c = After -> run s c = (b, s', c', n) ->
    node c' = node c /\ n = 0%nat /\ async_state c' = Finish /\
    is_async c' = is_async c /\ async_counter c' = async_counter c.

(** A handler called on a context without a pending call either leaves it
    without one or starts an asynchronous round, which it finishes when it is
    called back. *)
Class AsyncHandler {S : Type} (run : S -> Ctx -> bool * S * Ctx * nat) : Prop := {
  handler_before : forall s c b s' c' n,
    is_async c = false -> async_state c = Before -> run s c = (b, s', c', n) ->
    node c' = node c /\ async_state c' = Before /\
    (n = 0%nat -> is_async c' = false) /\
    (n <> 0%nat -> is_async c' = true /\ async_counter c' = 1%Z);
  handler_after : forall s c b s' c' n,
    run s c = (b, s', c', n) -> n <> 0%nat -> finishes run;
}.

Lemma rpc_finishes {S P} BuildRequest ProcessResponse client_group resps_size k :
  finishes (@rpc_BaseRun S P BuildRequest ProcessResponse client_group resps_size k).
Proof.
  intros s c b s' c' n. unfold rpc_BaseRun. intros -> H.
  destruct (ProcessResponse s). injection H as <- <- <- <-. by destruct c.
Qed.

(** The remote call handler of a service that has at least one client. *)
#[export] Instance rpc_AsyncHandler {S P} BuildRequest ProcessResponse client_group resps_size k :
  client_group <> Some 0%nat ->
  AsyncHandler (@rpc_BaseRun S P BuildRequest ProcessResponse client_group resps_size k).
Proof.
  intros Hg. split; intros s c b s' c' n; [|intros; apply rpc_finishes].
  unfold rpc_BaseRun. intros Ha Hb H. rewrite Hb in H. destruct (BuildRequest s) as [[ok ps] s1].
  destruct c; cbn in *; subst.
  destruct ok; cbn in H; [|injection H as <- <- <- <-; cbn; split_and!; intros; first [done | lia]].
  destruct ps as [|p ps]; [injection H as <- <- <- <-; cbn; split_and!; intros; first [done | lia]|].
  unfold Invoke in H. destruct client_group as [size|]; [|injection H as <- <- <- <-; cbn; split_and!; intros; first [done | lia]].
  destruct (forallb _ _); injection H as <- <- <- <-; cbn; split_and!; intros; try first [done | lia].
  destruct size; [done | lia].
Qed.

(** A synchronous handler does not touch the context. *)
Definition sync_BaseRun {S} (run : S -> bool * S) (s : S) (c : Ctx) : bool * S * Ctx * nat :=
  (run s, c, 0%nat).

#[export] Instance sync_AsyncHandler {S} (run : S -> bool * S) : AsyncHandler (sync_BaseRun run).
Proof.
  split; unfold sync_BaseRun; intros s c b s' c' n.
  - intros Ha Hb H. injection H as _ <- <-. by split_and!.
  - intros H. by injection H as _ _ <-.
Qed.

(** ** Threads *)

(** Where a thread is in [Workflow::RunInner] and the functions it calls. *)
Inductive pc : Type :=
| PCallback    (* Context::Callback: set_async_state(After) *)
| PLoopAsync   (* while (!ctx->IsAsync() ... *)
| PLoopDone    (* ... && !ctx->IsDone()) *)
| PStep        (* node()->Run(session_, this) *)
| PTest        (* if ((!is_async_) || ...) NextStep() *)
| PExit        (* if (ctx->IsDone()) after the loop *)
| PReset       (* ResetCtx(ctx) *)
| PStopped     (* the thread has left RunInner *)
| PCrashed.    (* null dereference *)

#[export] Instance pc_eq_dec : EqDecision pc.
Proof. solve_decision. Defined.

Section Threads.
Context {H S : Type} (BaseRun : H -> S -> Ctx -> bool * S * Ctx * nat).
Context (eg : gmap string (ExecutionNode H)).

(** The session's shared state, one program counter per thread that entered
    [RunInner] for it, and what happened to the session. *)
Record TState : Type := mkTState {
  session : S;
  ctx : Ctx;
  threads : list pc;
  events : list event;
}.

(** One action of a thread at [p]: the new shared state, where the thread
    goes, and the thread that will call back when a round was started. *)
Definition action (p : pc) (s : S) (c : Ctx) : S * Ctx * pc * list pc * list event :=
  match p with
  | PCallback => (s, set_async_state After c, PLoopAsync, [], [])
  | PLoopAsync =>
      let (a, c) := IsAsync c in (s, c, if a then PExit else PLoopDone, [], [])
  | PLoopDone => (s, c, if IsDone c then PExit else PStep, [], [])
  | PStep =>
      match ederef eg (node c) with
      | Some nd =>
          match handler nd with
          | Some h =>
              let '(b, s, c, n) := BaseRun h s c in
              (s, set_next_edge b c, PTest, if bool_decide (n = 0%nat) then [] else [PCallback], [])
          | None => (s, c, PCrashed, [], [])
          end
      | None => (s, c, PCrashed, [], [])
      end
  | PTest =>
      if negb (is_async c) || bool_decide (async_state c = Finish)
      then match NextStep eg c with
           | Some c => (s, c, PLoopAsync, [], [])
           | None => (s, c, PCrashed, [], [])
           end
      else (s, c, PLoopAsync, [], [])
  | PExit => (s, c, if IsDone c then PReset else PStopped, [], [])
  | PReset => let (ev, c) := ResetCtx c in (s, c, PStopped, [], ev)
  | PStopped => (s, c, PStopped, [], [])
  | PCrashed => (s, c, PCrashed, [], [])
  end.

(** Thread [t] makes its next action. *)
Definition tstep (t : nat) (w : TState) : TState :=
  match threads w !! t with
  | None => w
  | Some p =>
      let '(s, c, p, new, ev) := action p (session w) (ctx w) in
      mkTState s c (<[t := p]> (threads w) ++ new) (events w ++ ev)
  end.

(** A schedule: which thread acts next. *)
Definition schedule (l : list nat) (w : TState) : TState := foldl (fun w t => tstep t w) w l.

(** The first worker enters the loop of a fresh session. *)
Definition start (s : S) (e : eptr) : TState := mkTState s (Setup e new_Context) [PLoopAsync] [].
End Threads.

(** ** Mutual exclusion *)

(** The threads that still take part in the walk. *)
Definition active (p : pc) : bool :=
  match p with PCallback | PLoopAsync | PLoopDone | PStep | PTest => true | _ => false end.

(** The threads between a successful loop test and the next one: only they run
    handlers and move the walk. *)
Definition stepping (p : pc) : bool :=
  match p with PLoopDone | PStep | PTest => true | _ => false end.

Definition actives (ts : list pc) : list pc := filter (fun p => active p = true) ts.

Definition is_node (c : Ctx) : Prop := exists nm, node c = ENode nm.

Section Exclusion.
Context {H S : Type} (BaseRun : H -> S -> Ctx -> bool * S * Ctx * nat).
Context (eg : gmap string (ExecutionNode H)).
Context {Hlaw : forall h, AsyncHandler (BaseRun h)}.

Abbreviation action := (action BaseRun eg).
Abbreviation tstep := (tstep BaseRun eg).
Abbreviation TState := (TState (S := S)).

(** The current node has a handler, which finishes the rounds it starts. *)
Definition node_finishes (c : Ctx) : Prop :=
  exists nd h, ederef eg (node c) = Some nd /\ handler nd = Some h /\ finishes (BaseRun h).

(** Nothing pending: at most one active thread. *)
Definition quiet (c : Ctx) (A : list pc) : Prop :=
  is_async c = false /\ async_state c = Before /\
  (A = [] \/ exists p, A = [p] /\ p <> PCallback /\ (p = PTest -> is_node c)).

(** A round is pending: both threads before their loop test, one of them, or
    the one that goes on. *)
Definition pending (c : Ctx) (A : list pc) : Prop :=
  is_async c = true /\ is_node c /\ node_finishes c /\
  ((async_counter c = 1%Z /\ exists a b, A ≡ₚ [a; b] /\ (a = PTest \/ a = PLoopAsync) /\
      ((b = PCallback /\ async_state c = Before) \/ (b = PLoopAsync /\ async_state c = After))) \/
   (async_counter c = 0%Z /\ exists a, A = [a] /\
      ((a = PCallback /\ async_state c = Before) \/
       ((a = PLoopAsync \/ a = PTest) /\ async_state c = After))) \/
   (async_counter c = (-1)%Z /\ exists a, A = [a] /\
      (((a = PLoopDone \/ a = PStep) /\ async_state c = After) \/
       (a = PTest /\ async_state c = Finish)))).

Definition phase (c : Ctx) (A : list pc) : Prop := quiet c A \/ pending c A.

Definition thread_ok (w : TState) : Prop :=
  phase (ctx w) (actives (threads w)) /\
  (PReset ∈ threads w -> is_async (ctx w) = false /\ ~ is_node (ctx w)).

Lemma phase_perm c A A' : A ≡ₚ A' -> phase c A -> phase c A'.
Proof.
  intros HP [(? & ? & HA) | (? & ? & ? & HA)]; [left | right]; split_and!; try done.
  - destruct HA as [-> | (p & -> & ?)]; [left; by apply Permutation_nil_l in HP; subst |].
    right. exists p. split; [|done]. by apply Permutation_singleton_l in HP.
  - destruct HA as [(? & a & b & E & ?) | [(? & a & -> & ?) | (? & a & -> & ?)]].
    + left. split; [done|]. exists a, b. split; [by rewrite <- HP | done].
    + right; left. split; [done|]. exists a. split; [by apply Permutation_singleton_l in HP | done].
    + right; right. split; [done|]. exists a. split; [by apply Permutation_singleton_l in HP | done].
Qed.

(** What an active thread at [p] with the others at [R] can face. *)
Lemma phase_cons c p R : phase c (p :: R) ->
  (is_async c = false /\ async_state c = Before /\ R = [] /\ p <> PCallback /\ (p = PTest -> is_node c)) \/
  (is_async c = true /\ is_node c /\ node_finishes c /\
    ((async_counter c = 1%Z /\ exists q, R = [q] /\
        (((p = PTest \/ p = PLoopAsync) /\
           ((q = PCallback /\ async_state c = Before) \/ (q = PLoopAsync /\ async_state c = After))) \/
         ((q = PTest \/ q = PLoopAsync) /\
           ((p = PCallback /\ async_state c = Before) \/ (p = PLoopAsync /\ async_state c = After))))) \/
     (R = [] /\ async_counter c = 0%Z /\
        ((p = PCallback /\ async_state c = Before) \/ ((p = PLoopAsync \/ p = PTest) /\ async_state c = After))) \/
     (R = [] /\ async_counter c = (-1)%Z /\
        (((p = PLoopDone \/ p = PStep) /\ async_state c = After) \/ (p = PTest /\ async_state c = Finish))))).
Proof.
  intros [(? & ? & [? | (q & [= -> ->] & ? & ?)]) | (? & ? & ? & HA)]; [done | left; by split_and! |].
  right. split_and!; try done.
  destruct HA as [(? & a & b & E & Hab) | [(? & a & [= -> ->] & ?) | (? & a & [= -> ->] & ?)]]; auto.
  left. split; [done|]. 
  symmetry in E. apply Permutation_length_2_inv in E as [[= <- ->] | [= <- ->]].
  - exists b. split; [done|]. by left.
  - exists a. split; [done|]. right. tauto.
Qed.

(** One action of an active thread keeps the phases. *)
Definition act_list (p : pc) : list pc := if active p then [p] else [].

Definition keeps_phase (p : pc) : Prop :=
  forall s c R s' c' p' new ev, phase c (p :: R) -> action p s c = (s', c', p', new, ev) ->
    phase c' (act_list p' ++ R ++ new) /\ p' <> PReset /\ 
    (is_node c \/ is_async c' = false /\ ~ is_node c') /\ PReset ∉ new.

Ltac phases Hp :=
  apply phase_cons in Hp as
    [(Ia & Ib & -> & Ic & Id)
    |(Ia & Ib & Ic & [(Id & q & -> & Hq) | [(-> & Id & Hq) | (-> & Id & Hq)]])].

Lemma callback_keeps : keeps_phase PCallback.
Proof.
  intros s c R s' c' p' new ev Hp [= <- <- <- <- <-]. destruct c; cbn in *. phases Hp; cbn in *; [done|..].
  - split_and!; [|done|by left | set_solver]. right. split_and!; try done. left. split; [done|].
    exists q, PLoopAsync. split; [by constructor|]. split; [|by right]. naive_solver.
  - split_and!; [|done|by left | set_solver]. right. split_and!; try done. right; left. split; [done|].
    exists PLoopAsync. naive_solver.
  - naive_solver.
Qed.

Lemma loop_async_keeps : keeps_phase PLoopAsync.
Proof.
  intros s c R s' c' p' new ev Hp Ha. cbn in Ha. unfold IsAsync in Ha.
  destruct c as [nd ne wp ia st ac cl cd sh lv]. cbn in *. phases Hp; cbn in *; subst ia.
  - injection Ha as <- <- <- <- <-. split_and!; [|done| |set_solver].
    + left. split_and!; [done..|]. right. exists PLoopDone. by split_and!.
    + destruct nd; [right; split; [done | by intros [? ?]].. | left; by eexists].
  - subst ac. injection Ha as <- <- <- <- <-. split_and!; [|done | by left | set_solver].
    right. split_and!; try done. right; left. split; [done|]. exists q. cbn. naive_solver.
  - subst ac. injection Ha as <- <- <- <- <-. split_and!; [|done | by left | set_solver].
    right. split_and!; try done. right; right. split; [done|]. exists PLoopDone. cbn. naive_solver.
  - naive_solver.
Qed.

Lemma loop_done_keeps : keeps_phase PLoopDone.
Proof.
  intros s c R s' c' p' new ev Hp [= <- <- <- <- <-]. phases Hp.
  - assert (Hn : is_node c \/ is_async c = false /\ ~ is_node c).
    { unfold is_node. destruct (node c); [right; split; [done | by intros [? ?]].. | left; eauto]. }
    unfold IsDone. case_bool_decide as E; (split_and!; [left; split_and!; try done | done | done | set_solver]).
    + by left.
    + right. exists PStep. by split_and!.
  - naive_solver.
  - naive_solver.
  - assert (Hd : IsDone c = false).
    { unfold IsDone. destruct Ib as [nm ->]. by rewrite bool_decide_eq_false_2. }
    rewrite Hd. split_and!; [|done | by left | set_solver]. right. split_and!; try done.
    right; right. split; [done|]. exists PStep. naive_solver.
Qed.

Lemma node_cases c : is_node c \/ ~ is_node c.
Proof. unfold is_node. destruct (node c); [right; by intros [? ?].. | left; eauto]. Qed.

(** A thread that dies leaves a quiet context without active threads. *)
Lemma crash_keeps c : is_async c = false -> async_state c = Before ->
  phase c [] /\ (is_node c \/ is_async c = false /\ ~ is_node c).
Proof.
  intros Ha Hb. split; [left; split_and!; try done; by left|]. destruct (node_cases c); tauto.
Qed.

Lemma step_keeps : keeps_phase PStep.
Proof.
  intros s c R s' c' p' new ev Hp Ha. cbn in Ha. phases Hp; [|naive_solver..|].
  - destruct (ederef eg (node c)) as [nd|] eqn:En;
      [destruct (handler nd) as [h|] eqn:Eh |];
      try (injection Ha as <- <- <- <- <-; destruct (crash_keeps c Ia Ib); split_and!; [done..|set_solver]).
    destruct (BaseRun h s c) as [[[b s1] c1] n] eqn:Er. injection Ha as <- <- <- <- <-.
    destruct (handler_before _ _ _ _ _ _ Ia Ib Er) as (Hn1 & Hs1 & Hz & Hnz).
    assert (Hin : is_node c).
    { destruct (node c) as [| |nm] eqn:E; [done | | by exists nm]. cbn in En. by injection En as <-. }
    assert (Hin1 : is_node c1) by (unfold is_node; rewrite Hn1; exact Hin).
    case_bool_decide as E0; (split_and!; [|done| by left | set_solver]).
    + left. destruct c1; cbn in *. split_and!; [auto..|]. right. exists PTest. by split_and!.
    + destruct (Hnz E0) as [Ha1 Hc1]. assert (Hfin := handler_after _ _ _ _ _ _ Er E0).
      right. destruct c1; cbn in *; subst. split_and!; try done; [exists nd, h; by rewrite <- En|].
      left. split; [done|]. exists PTest, PCallback. split; [done|]. naive_solver.
  - destruct Ic as (nd & h & En & Eh & Hf). rewrite En, Eh in Ha.
    destruct (BaseRun h s c) as [[[b s1] c1] n] eqn:Er. injection Ha as <- <- <- <- <-.
    assert (Hst : async_state c = After) by naive_solver.
    destruct (Hf _ _ _ _ _ _ Hst Er) as (Hn1 & -> & Hs1 & Ha1 & Hc1).
    split_and!; [|done|by left|set_solver]. right. destruct c1; cbn in *; subst.
    split_and!; try done; [exists nd, h; by rewrite <- En|].
    right; right. split; [done|]. exists PTest. naive_solver.
Qed.

Lemma test_keeps : keeps_phase PTest.
Proof.
  intros s c R s' c' p' new ev Hp Ha. cbn in Ha.
  assert (Hnext : forall c1, NextStep eg c = Some c1 -> quiet c1 [PLoopAsync]).
  { intros c1. unfold NextStep. destruct (ederef eg (node c)); [|done]. intros [= <-].
    split_and!; [done..|]. right. exists PLoopAsync. by split_and!. }
  phases Hp.
  - rewrite Ia in Ha. cbn in Ha. specialize (Id eq_refl).
    destruct (NextStep eg c) as [c1|] eqn:En; injection Ha as <- <- <- <- <-;
      (split_and!; [|done | by left | set_solver]).
    + left. by apply Hnext.
    + by apply crash_keeps.
  - assert (Hf : async_state c <> Finish).
    { intros E. rewrite E in Hq. clear -Hq. intuition discriminate. }
    rewrite Ia, bool_decide_eq_false_2 in Ha by done. cbn in Ha. injection Ha as <- <- <- <- <-.
    split_and!; [|done | by left | set_solver]. right. split_and!; try done. left. split; [done|].
    exists PLoopAsync, q. cbn. split; [done|]. naive_solver.
  - assert (Hf : async_state c <> Finish).
    { intros E. rewrite E in Hq. clear -Hq. intuition discriminate. }
    rewrite Ia, bool_decide_eq_false_2 in Ha by done. cbn in Ha. injection Ha as <- <- <- <- <-.
    split_and!; [|done | by left | set_solver]. right. split_and!; try done. right; left. split; [done|].
    exists PLoopAsync. naive_solver.
  - assert (Hf : async_state c = Finish) by naive_solver.
    rewrite Ia, bool_decide_eq_true_2 in Ha by done. cbn in Ha.
    destruct Ic as (nd & h & En & _). unfold NextStep in Ha, Hnext. rewrite En in Ha, Hnext.
    injection Ha as <- <- <- <- <-. split_and!; [|done | by left | set_solver]. left. by apply Hnext.
Qed.

Lemma action_keeps p : active p = true -> keeps_phase p.
Proof.
  destruct p; try done; intros _; [apply callback_keeps | apply loop_async_keeps
    | apply loop_done_keeps | apply step_keeps | apply test_keeps].
Qed.

(** The active threads after thread [t] has moved. *)
Lemma actives_split ts t p : ts !! t = Some p ->
  exists R, actives ts ≡ₚ act_list p ++ R /\
    (forall p' new, actives (<[t := p']> ts ++ new) ≡ₚ act_list p' ++ R ++ actives new) /\
    (forall q p' new, q ∈ <[t := p']> ts ++ new -> q = p' \/ q ∈ ts \/ q ∈ new).
Proof.
  intros Ht. exists (actives (delete t ts)).
  assert (Hc : forall q l, actives (q :: l) = act_list q ++ actives l).
  { intros q l. unfold actives, act_list. rewrite filter_cons. case_decide as E; [by rewrite E|].
    by destruct (active q). }
  split_and!.
  - rewrite <- Hc. by apply filter_Permutation, delete_Permutation.
  - intros p' new. unfold actives. rewrite list.filter_app, app_assoc. apply Permutation_app; [|done].
    fold (actives (<[t:=p']> ts)) (actives (delete t ts)). rewrite <- Hc.
    apply filter_Permutation. apply lookup_lt_Some in Ht.
    rewrite insert_take_drop, delete_take_drop by done. by rewrite Permutation_middle.
  - intros q p' new [Hq | Hq]%elem_of_app; [|by right; right].
    apply list_elem_of_lookup in Hq as [j Hj]. destruct (decide (j = t)) as [->|].
    + rewrite list_lookup_insert_eq in Hj by (by eapply lookup_lt_Some). left. congruence.
    + rewrite list_lookup_insert_ne in Hj by done. right; left. by eapply list_elem_of_lookup_2.
Qed.

Lemma tstep_ok t w : thread_ok w -> thread_ok (tstep t w).
Proof.
  intros [Hph Hres]. unfold Async.tstep. destruct (threads w !! t) as [p|] eqn:Ht; [|done].
  destruct (action p (session w) (ctx w)) as [[[[s c] p'] new] ev] eqn:Ea.
  destruct (actives_split _ _ _ Ht) as (R & HR & HR' & Hin). specialize (HR' p' new).
  destruct (active p) eqn:Eact; unfold act_list in HR; rewrite Eact in HR; cbn in HR.
  - eapply phase_perm in HR as Hph'; [|exact Hph].
    destruct (action_keeps p Eact _ _ _ _ _ _ _ _ Hph' Ea) as (Hk & Hp' & Hn & Hnew).
    split; cbn.
    + eapply phase_perm; [symmetry; exact HR'|].
      replace (actives new) with new; [done|].
      clear -Ea. destruct p; cbn in Ea; try (by injection Ea as <- <- <- <- <-);
        repeat case_match; by simplify_eq.
    + intros Hr. destruct (Hin PReset p' new Hr) as [? | [Hold | ?]]; [congruence | | done].
      destruct (Hres Hold). by destruct Hn.
  - assert (new = []) as -> by (destruct p; try done; cbn in Ea; by injection Ea).
    assert (Hnp : active p' = false).
    { destruct p; try done; cbn in Ea; simplify_eq; [by destruct (IsDone _)|done..]. }
    unfold act_list in HR'. rewrite Hnp in HR'. cbn in HR'. rewrite !app_nil_r in HR'.
    eapply phase_perm in HR as Hph'; [|exact Hph].
    split; cbn; rewrite ?app_nil_r; [eapply phase_perm; [symmetry; exact HR'|] |].
    + destruct p; try done; cbn in Ea; simplify_eq; try done.
      assert (PReset ∈ threads w) as Hr by (by eapply list_elem_of_lookup_2).
      destruct (Hres Hr) as [Hra Hrn]. left.
      destruct Hph' as [(_ & _ & HA) | (? & _)]; [|congruence].
      split_and!; [done..|]. destruct HA as [-> | (q & -> & Hq & Hqt)]; [by left | right].
      exists q. split_and!; try done. intros ->. destruct Hrn. by apply Hqt.
    + intros Hr.
      destruct p; try done; cbn in Ea; simplify_eq.
      * destruct (Hin PReset (if IsDone (ctx w) then PReset else PStopped) []) as [Hq | [Hold | Hq]];
          [by rewrite app_nil_r | | by apply Hres | set_solver].
        unfold IsDone in Hq. case_bool_decide as E; [|done].
        destruct Hph as [(? & _) | (_ & [nm Hnm] & _)]; [|congruence].
        split; [done|]. intros [nm Hnm]. congruence.
      * split; [done|]. by intros [? ?].
      * apply Hres. destruct (Hin PReset PStopped []) as [? | [? | ?]]; [by rewrite app_nil_r | done.. | set_solver].
      * apply Hres. destruct (Hin PReset PCrashed []) as [? | [? | ?]]; [by rewrite app_nil_r | done.. | set_solver].
Qed.

Lemma schedule_ok l w : thread_ok w -> thread_ok (schedule BaseRun eg l w).
Proof. revert w; induction l as [|t l IH]; intros w Hw; [done|]. by apply IH, tstep_ok. Qed.

Lemma start_ok s e : thread_ok (start s e).
Proof.
  split; [left; split_and!; [done..|]; right; exists PLoopAsync; by split_and!|].
  cbn. intros Hr. set_solver.
Qed.
End Exclusion.

(** C12: mutual exclusion and no lost wake-up.  However the worker threads of a
    session are scheduled, and whichever handlers are remote calls, at most one
    thread is between a successful loop test and the next one (so no two threads
    run handlers or move the walk at the same time), and while a call is pending
    there is a thread that will go on with the walk. *)
Theorem threads_exclude {H S} (BaseRun : H -> S -> Ctx -> bool * S * Ctx * nat)
    (eg : gmap string (ExecutionNode H)) s e l :
  (forall h, AsyncHandler (BaseRun h)) ->
  let w := schedule BaseRun eg l (start s e) in
  (length (filter (fun p => stepping p = true) (threads w)) <= 1)%nat /\
  (is_async (ctx w) = true -> exists p, p ∈ threads w /\ active p = true).
Proof.
  intros Hlaw w. assert (Hw : thread_ok BaseRun eg w) by exact (schedule_ok BaseRun eg l _ (start_ok BaseRun eg s e)).
  destruct Hw as [Hph _].
  assert (Hsub : filter (fun p => stepping p = true) (threads w) =
                 filter (fun p => stepping p = true) (actives (threads w))).
  { unfold actives. rewrite list_filter_filter. apply list_filter_iff. intros p. destruct p; cbn; intuition discriminate. }
  rewrite Hsub. split.
  - destruct Hph as [(_ & _ & [-> | (p & -> & _)]) | (_ & _ & _ & HA)]; [cbn; lia | apply (length_filter _ [p]) |].
    destruct HA as [(_ & a & b & E & Ha & Hb) | [(_ & a & -> & _) | (_ & a & -> & _)]];
      [|apply (length_filter _ [a])..].
    rewrite E. destruct Ha as [-> | ->], Hb as [[-> _] | [-> _]]; vm_compute; auto.
  - intros Ha. destruct Hph as [(? & _) | (_ & _ & _ & HA)]; [congruence|].
    assert (exists p, p ∈ actives (threads w)) as (p & Hp).
    { destruct HA as [(_ & a & b & E & _) | [(_ & a & -> & _) | (_ & a & -> & _)]];
        exists a; rewrite ?E; set_solver. }
    exists p. unfold actives in Hp. apply list_elem_of_filter in Hp. tauto.
Qed.

(** A session with one remote call and one client: the session state counts. *)
Definition call_BaseRun (_ : unit) : Z -> Ctx -> bool * Z * Ctx * nat :=
  rpc_BaseRun (fun s => (true, [tt], s)) (fun s => (true, s + 1)%Z) (Some 1%nat) (fun _ => 1%nat) 7.
Definition call_graph : gmap string (ExecutionNode unit) :=
  {["R" := mkExecutionNode "R" EEnd EEnd (Some tt)]}.
Definition call_schedule : list nat := [0; 0; 0; 1; 0; 1; 0; 1; 1; 1; 1; 1; 1; 1].
Definition call_start : TState (S := Z) := start 0%Z (ENode "R").

Lemma threads_exclude_witness :
  (length (filter (fun p => stepping p = true)
     (threads (schedule call_BaseRun call_graph call_schedule call_start))) <= 1)%nat.
Proof.
  apply (threads_exclude call_BaseRun call_graph 0%Z (ENode "R") call_schedule).
  intros h. apply rpc_AsyncHandler. discriminate.
Defined.

(** The session is ended twice.  A worker that leaves its loop for a pending
    call tests [IsDone] only afterwards; when the callback finishes the walk on
    another thread in between, both threads answer the session and release its
    graph and its session object. *)
Lemma session_ended_twice :
  events (schedule call_BaseRun call_graph
            [0; 0; 0; 0; 0; 1; 1; 1; 1; 1; 1; 1; 0; 1; 0; 1] call_start)
  = session_end ++ session_end.
Proof. vm_compute. reflexivity. Qed.

(** The null dereference.  When the first worker ends the session before the
    second thread has tested [IsDone], that thread steps on the null node. *)
Lemma session_end_crashes :
  threads (schedule call_BaseRun call_graph
             [0; 0; 0; 0; 0; 1; 1; 1; 1; 1; 1; 0; 0; 1; 1] call_start)
  = [PStopped; PCrashed].
Proof. vm_compute. reflexivity. Qed.
