(* ===== verification/Parser.v ===== *)
(** * The workflow parser: src/orc/workflow/parser/parser.c

    The LALR(1) automaton that Bison generated from workflow.y: its tables, the
    engine [yyparse] that runs them over the tokens of the lexer, and the
    semantic actions that build the syntax tree. *)
From Stdlib Require Import ZArith Lia.
From stdpp Require Import base list strings option.
From S2P Require Import Prelude Syntax.

Local Open Scope Z_scope.

(** ** Tables *)

(** The token codes of parser.h, with the characters that are their own code. *)
Definition T_NAME : Z := 258.
Definition T_IF : Z := 259.
Definition T_ELSE : Z := 260.
Definition T_DO : Z := 261.
Definition T_WHILE : Z := 262.
Definition T_WORKFLOW : Z := 263.
Definition T_RETURN : Z := 264.
Definition T_LBRACE : Z := 123.
Definition T_RBRACE : Z := 125.
Definition T_NOT : Z := 33.
Definition T_LPAREN : Z := 40.
Definition T_RPAREN : Z := 41.

Definition YYEMPTY : Z := -2.
Definition YYEOF : Z := 0.
Definition YYTERROR : Z := 1.
Definition YYFINAL : Z := 2.
Definition YYLAST : Z := 32.
Definition YYNTOKENS : Z := 15.
Definition YYUNDEFTOK : Z := 2.
Definition YYMAXUTOK : Z := 264.
Definition YYPACT_NINF : Z := -14.
Definition YYINITDEPTH : Z := 200.
Definition YYMAXDEPTH : Z := 10000.

Definition yytranslate : list Z := [
   0; 2; 2; 2; 2; 2; 2; 2; 2; 2; 2; 2; 2; 2; 2; 2; 2; 2; 2; 2;
   2; 2; 2; 2; 2; 2; 2; 2; 2; 2; 2; 2; 2; 12; 2; 2; 2; 2; 2; 2;
   13; 14; 2; 2; 2; 2; 2; 2; 2; 2; 2; 2; 2; 2; 2; 2; 2; 2; 2; 2;
   2; 2; 2; 2; 2; 2; 2; 2; 2; 2; 2; 2; 2; 2; 2; 2; 2; 2; 2; 2;
   2; 2; 2; 2; 2; 2; 2; 2; 2; 2; 2; 2; 2; 2; 2; 2; 2; 2; 2; 2;
   2; 2; 2; 2; 2; 2; 2; 2; 2; 2; 2; 2; 2; 2; 2; 2; 2; 2; 2; 2;
   2; 2; 2; 10; 2; 11; 2; 2; 2; 2; 2; 2; 2; 2; 2; 2; 2; 2; 2; 2;
   2; 2; 2; 2; 2; 2; 2; 2; 2; 2; 2; 2; 2; 2; 2; 2; 2; 2; 2; 2;
   2; 2; 2; 2; 2; 2; 2; 2; 2; 2; 2; 2; 2; 2; 2; 2; 2; 2; 2; 2;
   2; 2; 2; 2; 2; 2; 2; 2; 2; 2; 2; 2; 2; 2; 2; 2; 2; 2; 2; 2;
   2; 2; 2; 2; 2; 2; 2; 2; 2; 2; 2; 2; 2; 2; 2; 2; 2; 2; 2; 2;
   2; 2; 2; 2; 2; 2; 2; 2; 2; 2; 2; 2; 2; 2; 2; 2; 2; 2; 2; 2;
   2; 2; 2; 2; 2; 2; 2; 2; 2; 2; 2; 2; 2; 2; 2; 2; 1; 2; 3; 4;
   5; 6; 7; 8; 9]%Z.

Definition yypact : list Z := [
   -14; 2; -14; 6; -14; -6; -14; -14; 19; -14; 5; -6; 5; -14; -14; 5; 5; -14; -14; -14;
   -14; -14; -14; -6; 8; -6; -14; -1; 11; 5; -14; -14; 1; -14; -14; -14; -14]%Z.

Definition yydefact : list Z := [
   2; 0; 1; 0; 3; 0; 6; 4; 0; 22; 0; 0; 0; 19; 5; 0; 0; 7; 8; 9;
   10; 11; 12; 0; 0; 0; 20; 0; 14; 0; 17; 21; 0; 13; 18; 15; 16]%Z.

Definition yypgoto : list Z := [
   -14; -14; -14; -11; -14; -14; -13; -14; -14; -14; -14; -9]%Z.

Definition yydefgoto : list Z := [
   -1; 1; 4; 7; 8; 17; 18; 33; 19; 20; 21; 22]%Z.

Definition yytable : list Z := [
   24; 23; 2; 25; 6; 10; 26; 27; 9; 5; 3; 6; 28; 31; 30; 29; 32; 15; 16; 36;
   34; 35; 9; 10; 0; 11; 12; 0; 13; 0; 14; 15; 16]%Z.

Definition yycheck : list Z := [
   11; 10; 0; 12; 10; 4; 15; 16; 3; 3; 8; 10; 23; 14; 25; 7; 5; 12; 13; 32;
   29; 32; 3; 4; -1; 6; 7; -1; 9; -1; 11; 12; 13]%Z.

Definition yystos : list Z := [
   0; 16; 0; 8; 17; 3; 10; 18; 19; 3; 4; 6; 7; 9; 11; 12; 13; 20; 21; 23;
   24; 25; 26; 26; 18; 26; 26; 26; 18; 7; 18; 14; 5; 22; 26; 18; 21]%Z.

Definition yyr1 : list Z := [
   0; 15; 16; 16; 17; 18; 19; 19; 20; 20; 20; 20; 20; 21; 22; 22; 22; 23; 24; 25;
   26; 26; 26]%Z.

Definition yyr2 : list Z := [
   0; 2; 0; 2; 3; 3; 0; 2; 1; 1; 1; 1; 1; 4; 0; 2; 2; 3; 4; 1;
   2; 3; 1]%Z.

(** An array access; [None] is an access outside the array. *)
Definition tab (t : list Z) (i : Z) : option Z := if i <? 0 then None else t !! Z.to_nat i.

(** [YYTRANSLATE]; the comparison is unsigned. *)
Definition YYTRANSLATE (x : Z) : option Z :=
  if x mod 2 ^ 32 <=? YYMAXUTOK then tab yytranslate x else Some YYUNDEFTOK.

(** [yypact_value_is_default]. *)
Definition is_default (n : Z) : bool := n =? YYPACT_NINF.

(** ** The state of the engine *)

(** A token as [yylex] gives it: its code and the value it stores in [yylval],
    which only a name has. *)
Definition token : Type := Z * option workflow_syntax.

(** The stacks hold states and semantic values, the top first, with the initial
    state at the bottom; a value that no action sets is [None].  [root] is the
    statement list that the caller passed. *)
Record PState : Type := mkPState {
  stack : list (Z * option workflow_syntax);
  yychar : Z;
  yylval : option workflow_syntax;
  input : list token;
  root : workflow_syntax;
  yyerrstatus : Z;
  yynerrs : Z;
  yystacksize : Z;
}.

(** What one round of the engine gives: go on in a new state, or [yyresult]
    (0 accept, 1 abort, 2 memory exhausted) with the final state. *)
Inductive round : Type :=
| Go (st : PState)
| Done (yyresult : Z) (st : PState).

Definition set_input (c : Z) (v : option workflow_syntax) (i : list token) (st : PState) : PState :=
  mkPState (stack st) c v i (root st) (yyerrstatus st) (yynerrs st) (yystacksize st).

(** [yychar = yylex ()]; at the end of the input the lexer gives 0. *)
Definition read_token (st : PState) : PState :=
  match input st with
  | [] => set_input 0 (yylval st) [] st
  | (c, v) :: i => set_input c (match v with Some _ => v | None => yylval st end) i st
  end.

(** ** The blocks of yyparse *)

(** [yysetstate]: grow the stacks when they are full.  The state is already on
    the stack. *)
Definition grow (st : PState) : round :=
  let depth := Z.of_nat (length (stack st)) - 1 in
  if yystacksize st - 1 <=? depth then
    if YYMAXDEPTH <=? yystacksize st then Done 2 st
    else
      let size := yystacksize st * 2 in
      let size := if YYMAXDEPTH <? size then YYMAXDEPTH else size in
      let st := mkPState (stack st) (yychar st) (yylval st) (input st) (root st)
                         (yyerrstatus st) (yynerrs st) size in
      if size - 1 <=? depth then Done 1 st else Go st
  else Go st.

(** What [yybackup] and [yydefault] decide in a state. *)
Inductive decision : Type := Shift (n : Z) | Reduce (n : Z) | SyntaxError.

(** [yydefault]. *)
Definition yydefault (yystate : Z) : option decision :=
  yyn ← tab yydefact yystate;
  Some (if yyn =? 0 then SyntaxError else Reduce yyn).

(** The table look-up of [yybackup] for the token [yytoken]. *)
Definition lookup_action (yystate yyn yytoken : Z) : option decision :=
  let yyn := yyn + yytoken in
  if (yyn <? 0) || (YYLAST <? yyn) then yydefault yystate
  else
    c ← tab yycheck yyn;
    if negb (c =? yytoken) then yydefault yystate
    else
      n ← tab yytable yyn;
      Some (if n <=? 0 then Reduce (- n) else Shift n).

(** [yybackup]: the decision, with the lookahead read when it is needed. *)
Definition yybackup (yystate : Z) (st : PState) : option (decision * PState) :=
  yyn ← tab yypact yystate;
  if is_default yyn then d ← yydefault yystate; Some (d, st)
  else
    let st := if yychar st =? YYEMPTY then read_token st else st in
    if yychar st <=? YYEOF then
      d ← lookup_action yystate yyn YYEOF;
      Some (d, set_input YYEOF (yylval st) (input st) st)
    else
      yytoken ← YYTRANSLATE (yychar st);
      d ← lookup_action yystate yyn yytoken;
      Some (d, st).

(** Push a state and a value ([yynewstate]). *)
Definition push (yystate : Z) (v : option workflow_syntax) (st : PState) : PState :=
  mkPState ((yystate, v) :: stack st) (yychar st) (yylval st) (input st) (root st)
           (yyerrstatus st) (yynerrs st) (yystacksize st).

(** Shift the lookahead token. *)
Definition shift (n : Z) (st : PState) : PState :=
  let st := mkPState (stack st) YYEMPTY (yylval st) (input st) (root st)
              (if yyerrstatus st =? 0 then 0 else yyerrstatus st - 1) (yynerrs st) (yystacksize st) in
  push n (yylval st) st.

(** The semantic actions; [v k] is [yyvsp\[-k\]].  The result is the value of
    the left-hand side and the root. *)
Definition rule_action (yyn : Z) (v : nat -> option workflow_syntax) (root : workflow_syntax)
  : option (option workflow_syntax * workflow_syntax) :=
  match yyn with
  | 2 => Some (None, root)
  | 3 => w ← v 0%nat; Some (v 1%nat, add_stmt root w)
  | 4 => name ← v 1%nat; block ← v 0%nat; Some (Some (new_workflow name block), root)
  | 5 => Some (v 1%nat, root)
  | 6 => Some (Some new_stmt_list, root)
  | 7 => l ← v 1%nat; s ← v 0%nat; Some (Some (add_stmt l s), root)
  | 13 => c ← v 2%nat; t ← v 1%nat; e ← v 0%nat; Some (Some (new_if_stmt c t e), root)
  | 14 => Some (Some new_empty_stmt, root)
  | 15 => Some (v 0%nat, root)
  | 16 => Some (v 0%nat, root)
  | 17 => c ← v 1%nat; b ← v 0%nat; Some (Some (new_while_stmt c b), root)
  | 18 => b ← v 2%nat; c ← v 0%nat; Some (Some (new_dowhile_stmt b c), root)
  | 19 => Some (Some new_return_stmt, root)
  | 20 => e ← v 0%nat; Some (Some (new_unop_exp OPKIND_NOT e), root)
  | 21 => Some (v 1%nat, root)
  | _ => Some (v 0%nat, root)   (* the default value, the one symbol of the rule *)
  end.

(** The state after a reduction of the symbol [lhs] on top of state [top]. *)
Definition goto_state (lhs top : Z) : option Z :=
  g ← tab yypgoto (lhs - YYNTOKENS);
  let s := g + top in
  if (0 <=? s) && (s <=? YYLAST) then
    c ← tab yycheck s;
    if c =? top then tab yytable s else tab yydefgoto (lhs - YYNTOKENS)
  else tab yydefgoto (lhs - YYNTOKENS).

(** [yyreduce]. *)
Definition yyreduce (yyn : Z) (st : PState) : option PState :=
  yylen ← tab yyr2 yyn;
  let v k := match stack st !! k with Some (_, x) => x | None => None end in
  '(yyval, rt) ← rule_action yyn v (root st);
  let rest := drop (Z.to_nat yylen) (stack st) in
  lhs ← tab yyr1 yyn;
  '(top, _) ← head rest;
  s ← goto_state lhs top;
  Some (mkPState ((s, yyval) :: rest) (yychar st) (yylval st) (input st) rt
                 (yyerrstatus st) (yynerrs st) (yystacksize st)).

(** [yyerrlab1]: pop states until one can shift the error token.  [inr] is the
    state after the shift, [inl] the abort at the bottom of the stack. *)
Fixpoint yyerrlab1 (stk : list (Z * option workflow_syntax))
  : option (unit + Z * list (Z * option workflow_syntax)) :=
  match stk with
  | [] => None
  | (yystate, _) :: below =>
      yyn ← tab yypact yystate;
      let yyn' := yyn + YYTERROR in
      if negb (is_default yyn) && (0 <=? yyn') && (yyn' <=? YYLAST) then
        c ← tab yycheck yyn';
        n ← tab yytable yyn';
        if (c =? YYTERROR) && (0 <? n) then Some (inr (n, stk))
        else match below with [] => Some (inl tt) | _ => yyerrlab1 below end
      else match below with [] => Some (inl tt) | _ => yyerrlab1 below end
  end.

(** [yyerrlab] and what follows it: count the error, drop the lookahead when it
    was just tried, and recover or abort. *)
Definition yyerrlab (st : PState) : option round :=
  let nerrs := if yyerrstatus st =? 0 then yynerrs st + 1 else yynerrs st in
  let st := mkPState (stack st) (yychar st) (yylval st) (input st) (root st)
                     (yyerrstatus st) nerrs (yystacksize st) in
  if (yyerrstatus st =? 3) && (yychar st =? YYEOF) then Some (Done 1 st)
  else
    let c := if (yyerrstatus st =? 3) && (YYEOF <? yychar st) then YYEMPTY else yychar st in
    r ← yyerrlab1 (stack st);
    match r with
    | inl _ => Some (Done 1 st)
    | inr (n, stk) =>
        Some (Go (push n (yylval st)
          (mkPState stk c (yylval st) (input st) (root st) 3 nerrs (yystacksize st))))
    end.

(** One round: from [yysetstate] to the next [yynewstate]. *)
Definition parse_round (st : PState) : option round :=
  match grow st with
  | Done r st => Some (Done r st)
  | Go st =>
      '(yystate, _) ← head (stack st);
      if yystate =? YYFINAL then Some (Done 0 st)
      else
        '(d, st) ← yybackup yystate st;
        match d with
        | Shift n => Some (Go (shift n st))
        | Reduce n => st ← yyreduce n st; Some (Go st)
        | SyntaxError => yyerrlab st
        end
  end.

Fixpoint parse_loop (fuel : nat) (st : PState) : option (Z * PState) :=
  match fuel with
  | O => None
  | S fuel =>
      match parse_round st with
      | None => None
      | Some (Done r st) => Some (r, st)
      | Some (Go st) => parse_loop fuel st
      end
  end.

(** [yyparse] on the tokens of the lexer. *)
Definition initial_state (toks : list token) (rt : workflow_syntax) : PState :=
  mkPState [(0, None)] YYEMPTY None toks rt 0 0 YYINITDEPTH.

Definition yyparse (fuel : nat) (toks : list token) (rt : workflow_syntax)
  : option (Z * workflow_syntax) :=
  '(r, st) ← parse_loop fuel (initial_state toks rt); Some (r, root st).
