(* ===== verification/ParserCorrect.v ===== *)
(** * Correctness of the workflow parser

    The grammar of workflow.y as a derivation relation, and the proof that the
    table-driven engine decides it: [yyparse] always returns, what it accepts is
    derivable with the tree it built, and what is derivable it accepts. *)
From Stdlib Require Import ZArith Lia.
From stdpp Require Import base list strings option relations.
From S2P Require Import Prelude Syntax Parser.

Local Open Scope Z_scope.

(** ** The grammar *)

Definition tk (c : Z) : token := (c, None).
Definition tk_name (s : string) : token := (T_NAME, Some (NAME s)).

(** The nonterminals below [workflow]. *)
Inductive nt : Type := Block | Stmts | Stmt | Ifstmt | Else | Exp.

(** [derives N v ts d]: the tokens [ts] are a phrase of [N] with the tree [v];
    parsing it needs [d] more places on the stack. *)
Inductive derives : nt -> workflow_syntax -> list token -> nat -> Prop :=
| d_name s : derives Exp (NAME s) [tk_name s] 1
| d_not e ts d :
    derives Exp e ts d -> derives Exp (UNOP_EXP OPKIND_NOT e) (tk T_NOT :: ts) (2 + d)
| d_paren e ts d :
    derives Exp e ts d -> derives Exp e (tk T_LPAREN :: ts ++ [tk T_RPAREN]) (3 + d)
| d_block l ts d :
    derives Stmts (STMT_LIST l) ts d ->
    derives Block (STMT_LIST l) (tk T_LBRACE :: ts ++ [tk T_RBRACE]) (3 + d)
| d_nil : derives Stmts (STMT_LIST []) [] 1
| d_snoc l s ts1 ts2 d1 d2 :
    derives Stmts (STMT_LIST l) ts1 d1 -> derives Stmt s ts2 d2 ->
    derives Stmts (STMT_LIST (l ++ [s])) (ts1 ++ ts2) (d1 `max` (2 + d2))
| d_stmt_if s ts d : derives Ifstmt s ts d -> derives Stmt s ts d
| d_stmt_exp s ts d : derives Exp s ts d -> derives Stmt s ts d
| d_while c b ts1 ts2 d1 d2 :
    derives Exp c ts1 d1 -> derives Block b ts2 d2 ->
    derives Stmt (WHILE_STMT c b) (tk T_WHILE :: ts1 ++ ts2) (3 + d1 `max` d2)
| d_do b c ts1 ts2 d1 d2 :
    derives Block b ts1 d1 -> derives Exp c ts2 d2 ->
    derives Stmt (DOWHILE_STMT b c) (tk T_DO :: ts1 ++ tk T_WHILE :: ts2) (4 + d1 `max` d2)
| d_return : derives Stmt RETURN_STMT [tk T_RETURN] 1
| d_ifstmt c t e ts1 ts2 ts3 d1 d2 d3 :
    derives Exp c ts1 d1 -> derives Block t ts2 d2 -> derives Else e ts3 d3 ->
    derives Ifstmt (IF_STMT c t e) (tk T_IF :: ts1 ++ ts2 ++ ts3) (4 + d1 `max` (d2 `max` d3))
| d_else_none : derives Else EMPTY_STMT [] 1
| d_else_block b ts d : derives Block b ts d -> derives Else b (tk T_ELSE :: ts) (2 + d)
| d_else_if s ts d : derives Ifstmt s ts d -> derives Else s (tk T_ELSE :: ts) (2 + d).

(** A workflow file: [workflowlist]. *)
Inductive derives_file : list workflow_syntax -> list token -> nat -> Prop :=
| d_file_nil : derives_file [] [] 0
| d_file_snoc ws ts nm b tb d1 d2 :
    derives_file ws ts d1 -> derives Block b tb d2 ->
    derives_file (ws ++ [WORKFLOW (NAME nm) b]) (ts ++ tk T_WORKFLOW :: tk_name nm :: tb)
                 (d1 `max` (4 + d2)).

(** The tokens a lexer gives: a name with its node, or a positive code. *)
Definition lexed (t : token) : Prop :=
  (exists s, t = tk_name s) \/ (exists c, (0 < c <= 255 \/ 258 < c <= 264) /\ t = tk c).

(** ** The automaton without its representation *)

(** Stack, tokens still to read and root. *)
Abbreviation vstack := (list (Z * option workflow_syntax)) (only parsing).
Definition astate : Type := vstack * list token * workflow_syntax.

Definition tok_code (toks : list token) : Z := match toks with [] => 0 | (c, _) :: _ => c end.

Definition adecide (q : Z) (toks : list token) : option decision :=
  yyn ← tab yypact q;
  if is_default yyn then yydefault q
  else if tok_code toks <=? 0 then lookup_action q yyn 0
  else tr ← YYTRANSLATE (tok_code toks); lookup_action q yyn tr.

Definition areduce (n : Z) (stk : list (Z * option workflow_syntax)) (rt : workflow_syntax)
  : option (list (Z * option workflow_syntax) * workflow_syntax) :=
  len ← tab yyr2 n;
  let v k := match stk !! k with Some (_, x) => x | None => None end in
  '(x, rt) ← rule_action n v rt;
  let rest := drop (Z.to_nat len) stk in
  lhs ← tab yyr1 n;
  '(top, _) ← head rest;
  s ← goto_state lhs top;
  Some ((s, x) :: rest, rt).

(** One round; [inr] is the final result. *)
Definition around (a : astate) : option (astate + Z) :=
  let '(stk, toks, rt) := a in
  '(q, _) ← head stk;
  if q =? YYFINAL then Some (inr 0)
  else
    d ← adecide q toks;
    match d with
    | Shift n => Some (inl ((n, match toks with (_, v) :: _ => v | [] => None end) :: stk, tail toks, rt))
    | Reduce n => '(stk, rt) ← areduce n stk rt; Some (inl (stk, toks, rt))
    | SyntaxError => Some (inr 1)
    end.

(** *** The engine runs the automaton *)

(** A value that an abstract [None] leaves open. *)
Definition vle (a c : option workflow_syntax) : Prop := a = None \/ a = c.
Definition entry_le (a c : Z * option workflow_syntax) : Prop := a.1 = c.1 /\ vle a.2 c.2.

(** The tokens still to read, with the lookahead when it was read. *)
Definition view (st : PState) (toks : list token) : Prop :=
  (yychar st = YYEMPTY /\ input st = toks) \/
  (yychar st = YYEOF /\ input st = [] /\ toks = []) \/
  (exists c v, 0 < c /\ yychar st = c /\ toks = (c, v) :: input st /\ vle v (yylval st)).

Definition simulates (st : PState) (a : astate) : Prop :=
  Forall2 entry_le a.1.1 (stack st) /\ view st a.1.2 /\ root st = a.2 /\
  yyerrstatus st = 0 /\ Forall (fun t : token => 0 < t.1) a.1.2 /\
  YYINITDEPTH <= yystacksize st <= YYMAXDEPTH /\
  Z.of_nat (length (stack st)) <= yystacksize st.

Lemma grow_ok st : YYINITDEPTH <= yystacksize st <= YYMAXDEPTH ->
  Z.of_nat (length (stack st)) <= yystacksize st ->
  Z.of_nat (length (stack st)) < YYMAXDEPTH ->
  exists size, grow st = Go (mkPState (stack st) (yychar st) (yylval st) (input st) (root st)
                               (yyerrstatus st) (yynerrs st) size) /\
    YYINITDEPTH <= size <= YYMAXDEPTH /\ Z.of_nat (length (stack st)) < size.
Proof.
  unfold YYINITDEPTH, YYMAXDEPTH. intros H1 H2 H3. unfold grow, YYMAXDEPTH.
  destruct (Z.leb_spec (yystacksize st - 1) (Z.of_nat (length (stack st)) - 1)).
  - destruct (Z.leb_spec 10000 (yystacksize st)); [lia|].
    destruct (Z.ltb_spec 10000 (yystacksize st * 2)).
    + destruct (Z.leb_spec (10000 - 1) (Z.of_nat (length (stack st)) - 1)); [lia|].
      exists 10000. split; [done | lia].
    + destruct (Z.leb_spec (yystacksize st * 2 - 1) (Z.of_nat (length (stack st)) - 1)); [lia|].
      exists (yystacksize st * 2). split; [done | lia].
  - exists (yystacksize st). split; [by destruct st | lia].
Qed.

Lemma yydefault_no_shift q n : yydefault q <> Some (Shift n).
Proof. unfold yydefault. destruct (tab yydefact q); [cbn; by case_match | done]. Qed.

(** Reading the lookahead does not change the tokens. *)
Definition with_lookahead (st : PState) : PState :=
  if yychar st =? YYEMPTY then read_token st else st.

Lemma lookahead_view st toks :
  view st toks -> Forall (fun t : token => 0 < t.1) toks ->
  let st' := with_lookahead st in
  stack st' = stack st /\ root st' = root st /\ yyerrstatus st' = yyerrstatus st /\
  yystacksize st' = yystacksize st /\
  ((toks = [] /\ input st' = [] /\ yychar st' = 0) \/
   (exists c v, 0 < c /\ yychar st' = c /\ toks = (c, v) :: input st' /\ vle v (yylval st'))).
Proof.
  intros Hv Hpos. unfold with_lookahead, YYEMPTY, YYEOF in *.
  destruct Hv as [(Ec & Ei) | [(Ec & Ei & ->) | (c & v & Hc & Ec & -> & Hv)]]; rewrite Ec.
  - cbn. unfold read_token. rewrite Ei. destruct toks as [|[c v] toks]; cbn; [by split_and!; auto|].
    split_and!; try done. right. exists c, v. apply Forall_inv in Hpos. split_and!; try done.
    destruct v; [by right | by left].
  - cbn. split_and!; try done. left. by split_and!.
  - destruct (Z.eqb_spec c (-2)); [lia|]. split_and!; try done. right. exists c, v. by split_and!.
Qed.

Lemma yybackup_view q st toks d :
  view st toks -> Forall (fun t : token => 0 < t.1) toks -> adecide q toks = Some d ->
  exists st', yybackup q st = Some (d, st') /\ view st' toks /\
    stack st' = stack st /\ root st' = root st /\ yyerrstatus st' = yyerrstatus st /\
    yystacksize st' = yystacksize st /\
    (forall n, d = Shift n -> (toks = [] /\ input st' = []) \/
       exists c v, toks = (c, v) :: input st' /\ vle v (yylval st')).
Proof.
  intros Hv Hpos Hd. unfold adecide in Hd. unfold yybackup.
  destruct (tab yypact q) as [yyn|]; [|done]. cbn in Hd |- *.
  destruct (is_default yyn).
  { rewrite Hd. cbn. exists st. split_and!; try done.
    intros n ->. by apply yydefault_no_shift in Hd. }
  fold (with_lookahead st). destruct (lookahead_view st toks Hv Hpos) as (H1 & H2 & H3 & H4 & Hc).
  destruct Hc as [(-> & Hi & Ec) | (c & v & Hc & Ec & -> & Hv')]; rewrite Ec; cbn in Hd.
  - change (0 <=? YYEOF) with true. cbn iota. change (lookup_action q yyn YYEOF) with (lookup_action q yyn 0). rewrite Hd. cbn.
    eexists. split; [reflexivity|]. cbn. split_and!; try done.
    + right; left. by split_and!.
    + intros n _. left. done.
  - unfold YYEOF. destruct (Z.leb_spec c 0); [lia|].
    destruct (YYTRANSLATE c); [|done]. cbn in *. rewrite Hd. cbn. eexists. split; [reflexivity|].
    split_and!; try done.
    + right; right. exists c, v. by split_and!.
    + intros n _. right. exists c, v. done.
Qed.

Lemma rule_action_mono n v v' rt x rt' :
  (forall k, vle (v k) (v' k)) -> rule_action n v rt = Some (x, rt') ->
  exists x', rule_action n v' rt = Some (x', rt') /\ vle x x'.
Proof.
  intros Hv.
  assert (Hb : forall k (f f' : workflow_syntax -> option (option workflow_syntax * workflow_syntax)) ,
            (forall w, f w = Some (x, rt') -> exists x', f' w = Some (x', rt') /\ vle x x') ->
            mbind f (v k) = Some (x, rt') -> exists x', mbind f' (v' k) = Some (x', rt') /\ vle x x').
  { intros k f f' Hf. destruct (Hv k) as [-> | <-]; [done|]. destruct (v k); [apply Hf | done]. }
  unfold rule_action. repeat case_match;
    repeat (apply Hb; intros ?); intros [= <- <-]; eexists; (split; [reflexivity|]);
    first [apply Hv | by right | by left].
Qed.

Lemma entry_le_lookup (a c : list (Z * option workflow_syntax)) k : Forall2 entry_le a c ->
  vle (match a !! k with Some (_, x) => x | None => None end)
      (match c !! k with Some (_, x) => x | None => None end).
Proof.
  intros Hf. destruct (a !! k) as [[q x]|] eqn:E; [|by left].
  destruct (Forall2_lookup_l _ _ _ _ _ Hf E) as ([q' x'] & -> & [_ Hx]). exact Hx.
Qed.

Lemma yyreduce_sim n st stk toks rt stk' rt' :
  simulates st (stk, toks, rt) -> areduce n stk rt = Some (stk', rt') ->
  exists st', yyreduce n st = Some st' /\ Forall2 entry_le stk' (stack st') /\ root st' = rt' /\
    yychar st' = yychar st /\ yylval st' = yylval st /\ input st' = input st /\
    yyerrstatus st' = yyerrstatus st /\ yystacksize st' = yystacksize st /\
    (length (stack st') <= S (length (stack st)))%nat.
Proof.
  intros (Hstk & _ & Hrt & _) Ha. cbn in Hstk, Hrt. subst rt. unfold areduce in Ha. unfold yyreduce.
  destruct (tab yyr2 n) as [len|]; [|done]. cbn in Ha |- *.
  destruct (rule_action n _ (root st)) as [[x rt1]|] eqn:Er; [|done]. cbn in Ha.
  destruct (rule_action_mono n _ (fun k => match stack st !! k with Some (_, x) => x | None => None end)
              _ _ _ (fun k => entry_le_lookup stk (stack st) k Hstk) Er) as (x' & -> & Hx). cbn.
  destruct (tab yyr1 n) as [lhs|]; [|done]. cbn in Ha |- *.
  assert (Hd : Forall2 entry_le (drop (Z.to_nat len) stk) (drop (Z.to_nat len) (stack st))) by (by apply Forall2_drop).
  assert (Hlen := length_drop (stack st) (Z.to_nat len)).
  destruct Hd as [|[top y] [top' y'] l l' [Et Ey] Hd]; [done|]. cbn in Et, Ha |- *. subst top'.
  destruct (goto_state lhs top) as [s|]; [|done]. cbn in Ha |- *. injection Ha as <- <-.
  eexists. split; [reflexivity|]. cbn in *. split_and!; try done; [|lia].
  constructor; [by split|]. constructor; [by split | done].
Qed.

Definition states : list Z := Z.of_nat <$> seq 0 37.

Ltac in_states H :=
  repeat (apply elem_of_cons in H as [-> | H]); [.. | by apply not_elem_of_nil in H].

(** No state handles the error token: recovery pops the whole stack. *)
Lemma yyerrlab1_aborts stk :
  Forall (fun e : Z * option workflow_syntax => e.1 ∈ states) stk -> stk <> [] -> yyerrlab1 stk = Some (inl tt).
Proof.
  induction 1 as [|[q x] stk Hq _ IH]; [done|]. intros _. cbn in Hq.
  assert (Hb : match stk with [] => Some (inl tt) | _ => yyerrlab1 stk end = Some (inl tt)).
  { destruct stk; [done | by apply IH]. }
  vm_compute in Hq. in_states Hq; exact Hb.
Qed.

(** A round of the automaton is a round of the engine, while the stack is not
    full. *)
Lemma round_sim st a r :
  simulates st a -> Z.of_nat (length a.1.1) < YYMAXDEPTH -> around a = Some r ->
  match r with
  | inl a' => exists st', parse_round st = Some (Go st') /\ simulates st' a'
  | inr 0 => exists st', parse_round st = Some (Done 0 st') /\ root st' = a.2
  | inr _ => Forall (fun e : Z * option workflow_syntax => e.1 ∈ states) a.1.1 ->
      exists st', parse_round st = Some (Done 1 st')
  end.
Proof.
  destruct a as [[stk toks] rt]. intros Hsim Hlen Ha.
  destruct (Hsim) as (Hstk & Hview & Hrt & Herr & Hpos & Hsz & Hle). cbn [fst snd] in *.
  assert (El := list.Forall2_length _ _ _ Hstk). rewrite El in Hlen.
  destruct (grow_ok st Hsz Hle Hlen) as (size & Eg & Hsz' & Hlt). unfold parse_round. rewrite Eg.
  set (st1 := mkPState _ _ _ _ _ _ _ _) in *. cbn [stack] in *.
  assert (Hv1 : view st1 toks) by exact Hview.
  assert (Hs1 : simulates st1 (stk, toks, rt)) by (unfold simulates; cbn; split_and!; (done || lia)).
  unfold around in Ha.
  assert (Hh : exists q x x' tl, head stk = Some (q, x) /\ stack st = (q, x') :: tl).
  { destruct Hstk as [|[q x] [q' x'] ? ? [Eq _]]; [done|]. cbn in Eq. subst. eauto 6. }
  destruct Hh as (q & x & x' & tl & Eh & Es). rewrite Eh in Ha. cbn in Ha.
  change (stack st1) with (stack st). rewrite Es. cbn.
  destruct (q =? YYFINAL); [injection Ha as <-; exists st1; done|].
  destruct (adecide q toks) as [d|] eqn:Ed; [|done]. cbn in Ha.
  destruct (yybackup_view q st1 toks d Hv1 Hpos Ed) as (st2 & -> & Hv2 & Hk2 & Hr2 & He2 & Hz2 & Hsh). cbn.
  destruct d as [n | n |].
  - injection Ha as <-. eexists. split; [reflexivity|]. unfold simulates; cbn.
    rewrite Hk2, Hr2, He2, Hz2. change (stack st1) with (stack st). cbn. rewrite Herr.
    destruct (Hsh n eq_refl) as [(-> & Hi) | (c & v & -> & Hv)].
    + split_and!; try done; try lia; [constructor; [by split; [|left]|done] | by left].
    + apply Forall_inv_tail in Hpos. split_and!; try done; try lia; [by constructor | by left].
  - destruct (areduce n stk rt) as [[stk' rt']|] eqn:Ear; [|done]. cbn in Ha. injection Ha as <-.
    assert (Hs2 : simulates st2 (stk, toks, rt)).
    { unfold simulates; cbn. rewrite Hk2, Hr2, He2, Hz2. cbn. split_and!; (done || lia). }
    destruct (yyreduce_sim n st2 stk toks rt stk' rt' Hs2 Ear)
      as (st3 & -> & Hk3 & Hr3 & Hc3 & Hl3 & Hi3 & He3 & Hz3 & Hlen3). cbn.
    exists st3. split; [done|]. unfold simulates; cbn. rewrite He3, Hz3, Hr3, He2, Hz2. cbn.
    rewrite Hk2 in Hlen3. cbn in Hlen3.
    split_and!; try done; try lia. unfold view in *. by rewrite Hc3, Hi3, Hl3.
  - injection Ha as <-. intros Hst. unfold yyerrlab. rewrite He2. change (yyerrstatus st1) with (yyerrstatus st).
    rewrite Herr. cbn [stack yyerrstatus yychar Z.eqb andb].
    rewrite yyerrlab1_aborts; [by eexists | | rewrite Hk2; change (stack st1) with (stack st); by rewrite Es].
    rewrite Hk2. change (stack st1) with (stack st). clear -Hst Hstk.
    induction Hstk as [|[q x] [q' x'] ? ? [Eq _]]; [done|]. cbn in Eq. subst.
    apply Forall_cons_1 in Hst as [? ?]. constructor; auto.
Qed.

(** ** Completeness *)

(** Rounds that keep the stack within [B] places. *)
Definition astep (B : nat) (a a' : astate) : Prop :=
  around a = Some (inl a') /\ (length a.1.1 <= B)%nat.
Abbreviation areach B := (rtc (astep B)).

(** The symbol number of a nonterminal and the states in which it is expected. *)
Definition nt_sym (N : nt) : Z :=
  match N with Block => 18 | Stmts => 19 | Stmt => 20 | Ifstmt => 21 | Else => 22 | Exp => 26 end.
Definition nt_states (N : nt) : list Z :=
  match N with
  | Block => [5; 11; 23; 25; 32] | Stmts => [6] | Stmt => [8] | Ifstmt => [8; 32] | Else => [28]
  | Exp => [8; 10; 12; 15; 16; 29]
  end.

(** What may follow a phrase: an [if] must not be followed by [else]. *)
Definition follows (N : nt) (rest : list token) : Prop :=
  match N with
  | Stmts | Stmt | Ifstmt | Else =>
      match rest with [] => True | (c, _) :: _ => 0 < c <= YYMAXUTOK /\ c <> T_ELSE end
  | _ => True
  end.

(** In the state after [if exp block], everything but [else] reduces the empty
    else part. *)
Lemma no_else_reduces rest : follows Else rest -> adecide 28 rest = Some (Reduce 14).
Proof.
  intros Hf. unfold adecide. destruct rest as [|[c v] rest]; [done|]. cbn in Hf |- *.
  destruct Hf as [Hc Hne]. unfold YYMAXUTOK, T_ELSE in *.
  destruct (Z.leb_spec c 0); [lia|].
  unfold YYTRANSLATE. rewrite Z.mod_small by lia.
  destruct (Z.leb_spec c YYMAXUTOK); [|unfold YYMAXUTOK in *; lia].
  assert (Hall : forallb (fun k : nat => bool_decide (k = 260%nat) ||
            match yytranslate !! k with
            | Some tr => match lookup_action 28 11 tr with Some (Reduce n) => n =? 14 | _ => false end
            | None => false end) (seq 0 265) = true) by (vm_compute; reflexivity).
  rewrite forallb_forall in Hall. specialize (Hall (Z.to_nat c)).
  rewrite in_seq in Hall. specialize (Hall ltac:(lia)).
  rewrite bool_decide_eq_false_2 in Hall by lia. cbn in Hall.
  replace (tab yytranslate c) with (yytranslate !! Z.to_nat c)
    by (unfold tab; destruct (Z.ltb_spec c 0); [lia | done]).
  destruct (yytranslate !! Z.to_nat c) as [tr|]; [|done].
  change (lookup_action 28 11 tr = Some (Reduce 14)).
  destruct (lookup_action 28 11 tr) as [[| n |]|]; try done. apply Z.eqb_eq in Hall as ->. reflexivity.
Qed.

(** Running one round on a concrete top state. *)
Lemma astep_one B stk toks rt a' :
  around (stk, toks, rt) = Some (inl a') -> (length stk <= B)%nat -> areach B (stk, toks, rt) a'.
Proof. intros H1 H2. apply rtc_once. by split. Qed.

(** The states that lead to a reduction of a given symbol go on to the right
    state. *)
Definition goes (N : nt) (q q' : Z) : Prop := q ∈ nt_states N /\ goto_state (nt_sym N) q = Some q'.

(** The property of a phrase: from a state that expects it, the automaton
    pushes its symbol with its tree. *)
Definition parses (N : nt) (v : workflow_syntax) (ts : list token) (d : nat) : Prop :=
  forall B q q' x stk rest rt,
    goes N q q' -> follows N rest -> (2 + length stk + d <= B)%nat ->
    areach B ((q, x) :: stk, ts ++ rest, rt) ((q', Some v) :: (q, x) :: stk, rest, rt).

Ltac enter_goes :=
  match goal with H : goes _ ?q ?q' |- _ =>
    let Hq := fresh "Hq" in let Hg := fresh "Hg" in
    destruct H as [Hq Hg]; cbn in Hq; in_states Hq; vm_compute in Hg; injection Hg as <- end.

Lemma parses_name s : parses Exp (NAME s) [tk_name s] 1.
Proof.
  intros B q q' x stk rest rt Hg _ HB. cbn in HB.
  enter_goes; (eapply rtc_l; [split; [reflexivity | cbn; lia]|]);
    (apply astep_one; [reflexivity | cbn; lia]).
Qed.

(** One round on the concrete state at the top. *)
Ltac pop_stack :=
  repeat match goal with |- context [drop (Z.to_nat ?n) _] =>
    let k := eval vm_compute in (Z.to_nat n) in change (Z.to_nat n) with k; cbn [drop] end.
Ltac one_round := eapply rtc_l; [split; [reflexivity | cbn in *; lia]|]; pop_stack.

(** Parse the next phrase with [H : parses N v ts d], which leads to [q']. *)
Ltac phrase H q' :=
  etransitivity; [eapply (H _ _ q'); [split; [cbn; set_solver | reflexivity] | try done | cbn in *; lia]|].

Lemma parses_not e ts d :
  parses Exp e ts d -> parses Exp (UNOP_EXP OPKIND_NOT e) (tk T_NOT :: ts) (2 + d).
Proof.
  intros He B q q' x stk rest rt Hg _ HB. enter_goes; cbn [app]; one_round; phrase He 26; one_round; reflexivity.
Qed.

Lemma parses_paren e ts d :
  parses Exp e ts d -> parses Exp e (tk T_LPAREN :: ts ++ [tk T_RPAREN]) (3 + d).
Proof.
  intros He B q q' x stk rest rt Hg _ HB. enter_goes; cbn [app]; rewrite <- app_assoc;
    one_round; phrase He 27; one_round; one_round; reflexivity.
Qed.

Lemma parses_block l ts d :
  parses Stmts (STMT_LIST l) ts d ->
  parses Block (STMT_LIST l) (tk T_LBRACE :: ts ++ [tk T_RBRACE]) (3 + d).
Proof.
  intros Hl B q q' x stk rest rt Hg _ HB. enter_goes; cbn [app]; rewrite <- app_assoc;
    one_round; phrase Hl 8; one_round; one_round; reflexivity.
Qed.

Lemma parses_nil : parses Stmts (STMT_LIST []) [] 1.
Proof. intros B q q' x stk rest rt Hg _ HB. enter_goes. one_round. reflexivity. Qed.

(** A statement starts with a token that is not [else]. *)
Definition starts_ok (ts : list token) : Prop :=
  exists c v ts', ts = (c, v) :: ts' /\ 0 < c <= YYMAXUTOK /\ c <> T_ELSE.

Lemma derives_starts N s ts d : derives N s ts d -> N = Stmt \/ N = Ifstmt \/ N = Exp -> starts_ok ts.
Proof.
  induction 1; intros HN; try (by destruct HN as [?|[?|?]]); try (by apply IHderives; auto);
    (do 3 eexists; split; [reflexivity|]); by vm_compute.
Qed.

Lemma parses_snoc l s ts1 ts2 d1 d2 :
  starts_ok ts2 -> parses Stmts (STMT_LIST l) ts1 d1 -> parses Stmt s ts2 d2 ->
  parses Stmts (STMT_LIST (l ++ [s])) (ts1 ++ ts2) (d1 `max` (2 + d2)).
Proof.
  intros (c & v & ts' & -> & Hc) Hl Hs B q q' x stk rest rt Hg Hf HB. enter_goes. rewrite <- app_assoc.
  phrase Hl 8. phrase Hs 17. one_round. reflexivity.
Qed.

Lemma parses_stmt_if s ts d : parses Ifstmt s ts d -> parses Stmt s ts d.
Proof.
  intros Hs B q q' x stk rest rt Hg Hf HB. enter_goes. phrase Hs 18. one_round. reflexivity.
Qed.

Lemma parses_stmt_exp s ts d : parses Exp s ts d -> parses Stmt s ts d.
Proof.
  intros Hs B q q' x stk rest rt Hg Hf HB. enter_goes. phrase Hs 22. one_round. reflexivity.
Qed.

Lemma parses_while c b ts1 ts2 d1 d2 :
  parses Exp c ts1 d1 -> parses Block b ts2 d2 ->
  parses Stmt (WHILE_STMT c b) (tk T_WHILE :: ts1 ++ ts2) (3 + d1 `max` d2).
Proof.
  intros Hc Hb B q q' x stk rest rt Hg Hf HB. enter_goes. cbn [app]. rewrite <- app_assoc.
  one_round. phrase Hc 25. phrase Hb 30. one_round. one_round. reflexivity.
Qed.

Lemma parses_do b c ts1 ts2 d1 d2 :
  parses Block b ts1 d1 -> parses Exp c ts2 d2 ->
  parses Stmt (DOWHILE_STMT b c) (tk T_DO :: ts1 ++ tk T_WHILE :: ts2) (4 + d1 `max` d2).
Proof.
  intros Hb Hc B q q' x stk rest rt Hg Hf HB. enter_goes. cbn [app]. rewrite <- app_assoc. cbn [app].
  one_round. phrase Hb 24. one_round. phrase Hc 34. one_round. one_round. reflexivity.
Qed.

Lemma parses_return : parses Stmt RETURN_STMT [tk T_RETURN] 1.
Proof.
  intros B q q' x stk rest rt Hg Hf HB. enter_goes. cbn [app]. do 3 one_round. reflexivity.
Qed.

Lemma parses_ifstmt c t e ts1 ts2 ts3 d1 d2 d3 :
  parses Exp c ts1 d1 -> parses Block t ts2 d2 -> parses Else e ts3 d3 ->
  parses Ifstmt (IF_STMT c t e) (tk T_IF :: ts1 ++ ts2 ++ ts3) (4 + d1 `max` (d2 `max` d3)).
Proof.
  intros Hc Ht He B q q' x stk rest rt Hg Hf HB. enter_goes; cbn [app]; rewrite <- !app_assoc;
    one_round; phrase Hc 23; phrase Ht 28; phrase He 33; one_round; reflexivity.
Qed.

Lemma parses_else_none : parses Else EMPTY_STMT [] 1.
Proof.
  intros B q q' x stk rest rt Hg Hf HB. enter_goes. cbn [app]. eapply rtc_l; [|reflexivity].
  split; [|cbn in *; lia]. unfold around. cbn [head mbind option_bind].
  change (28 =? YYFINAL) with false. cbn iota. rewrite no_else_reduces by exact Hf. reflexivity.
Qed.

Lemma parses_else_block b ts d : parses Block b ts d -> parses Else b (tk T_ELSE :: ts) (2 + d).
Proof.
  intros Hb B q q' x stk rest rt Hg Hf HB. enter_goes. cbn [app]. one_round. phrase Hb 35. one_round. reflexivity.
Qed.

Lemma parses_else_if s ts d : parses Ifstmt s ts d -> parses Else s (tk T_ELSE :: ts) (2 + d).
Proof.
  intros Hs B q q' x stk rest rt Hg Hf HB. enter_goes. cbn [app]. one_round. phrase Hs 36. one_round. reflexivity.
Qed.

Lemma derives_parses N v ts d : derives N v ts d -> parses N v ts d.
Proof.
  induction 1; [apply parses_name | by apply parses_not | by apply parses_paren | by apply parses_block
    | apply parses_nil | apply parses_snoc; eauto using derives_starts | by apply parses_stmt_if
    | by apply parses_stmt_exp | by apply parses_while | by apply parses_do | apply parses_return
    | by apply parses_ifstmt | apply parses_else_none | by apply parses_else_block | by apply parses_else_if].
Qed.

Lemma file_reach ws ts d : derives_file ws ts d ->
  forall B rest ws0, (4 + d <= B)%nat ->
    areach B ([(1, None); (0, None)], ts ++ rest, STMT_LIST ws0)
             ([(1, None); (0, None)], rest, STMT_LIST (ws0 ++ ws)).
Proof.
  induction 1 as [|ws ts nm b tb d1 d2 _ IH Hb]; intros B rest ws0 HB; [by rewrite app_nil_r|].
  rewrite <- app_assoc. cbn [app]. etransitivity; [apply IH; lia|].
  one_round. one_round. phrase (derives_parses _ _ _ _ Hb) 7. one_round. one_round. cbn. rewrite app_assoc. reflexivity.
Qed.

(** The initial state starts an empty list, and the end of the input accepts. *)
Lemma file_accepted ws ts d : derives_file ws ts d ->
  exists a, areach (4 + d) ([(0, None)], ts, STMT_LIST []) a /\
    around a = Some (inr 0) /\ a.2 = STMT_LIST ws /\ (length a.1.1 <= 4 + d)%nat.
Proof.
  intros Hf. exists ([(2, None); (1, None); (0, None)], [], STMT_LIST ws). split_and!; [|done|done|cbn; lia].
  one_round. pose proof (file_reach _ _ _ Hf (4 + d) [] []) as Hr. rewrite app_nil_r in Hr.
  etransitivity; [apply Hr; lia|]. one_round. reflexivity.
Qed.

Lemma initial_sim toks rt :
  Forall (fun t : token => 0 < t.1) toks -> simulates (initial_state toks rt) ([(0, None)], toks, rt).
Proof.
  intros Hp. unfold simulates; cbn. split_and!; try done.
  - by repeat constructor.
  - by left.
Qed.

(** The engine follows the automaton to an accepting state. *)
Lemma engine_accepts B a a' st :
  areach B a a' -> simulates st a -> around a' = Some (inr 0) ->
  Z.of_nat B < YYMAXDEPTH -> (length a'.1.1 <= B)%nat ->
  exists fuel st', parse_loop fuel st = Some (0, st') /\ root st' = a'.2.
Proof.
  intros Hr. revert st; induction Hr as [a|a a1 a2 [Ha Hl] _ IH]; intros st Hs Hacc HB Hlen.
  - destruct (round_sim st a (inr 0) Hs ltac:(lia) Hacc) as (st' & E & Hrt).
    exists 1%nat, st'. cbn. by rewrite E.
  - destruct (round_sim st a (inl a1) Hs ltac:(lia) Ha) as (st1 & E & Hs1).
    destruct (IH st1 Hs1 Hacc HB Hlen) as (fuel & st' & Hp & Hrt).
    exists (S fuel), st'. cbn. by rewrite E.
Qed.

Lemma parse_loop_mono fuel fuel' st r : (fuel <= fuel')%nat ->
  parse_loop fuel st = Some r -> parse_loop fuel' st = Some r.
Proof.
  revert fuel' st; induction fuel as [|fuel IH]; intros fuel' st Hle H; [done|].
  destruct fuel' as [|fuel']; [lia|]. cbn in *. destruct (parse_round st) as [[st'|]|]; [|done..].
  apply IH; [lia | done].
Qed.

(** ** Soundness and termination *)

(** The transitions of the automaton: shifts of tokens and of the nonterminals
    a state expects. *)
Definition token_codes : list Z :=
  [0; T_NAME; T_IF; T_ELSE; T_DO; T_WHILE; T_WORKFLOW; T_RETURN; T_LBRACE; T_RBRACE; T_NOT; T_LPAREN; T_RPAREN].

Definition shifts_to (q c : Z) : list Z :=
  match adecide q (if c =? 0 then [] else [(c, None)]) with Some (Shift n) => [n] | _ => [] end.

Definition gotos_of (q : Z) : list Z :=
  ((N ← [Block; Stmts; Stmt; Ifstmt; Else; Exp];
    if bool_decide (q ∈ nt_states N)
    then match goto_state (nt_sym N) q with Some n => [n] | None => [] end else [])
   ++ (if q =? 8 then [19; 20; 21] else []) ++ (if q =? 0 then [1] else []) ++ (if q =? 1 then [4] else [])).

Definition succs (q : Z) : list Z := (c ← token_codes; shifts_to q c) ++ gotos_of q.

Definition preds (q' : Z) : list Z := filter (fun q => q' ∈ succs q) states.

(** The code of a terminal symbol. *)
Definition code_of (s : Z) : Z := default 0 (token_codes !! Z.to_nat (s - 2)).

Definition pred_table : list (list Z) := Eval vm_compute in (preds <$> states).
Definition preds_of (q : Z) : list Z := default [] (pred_table !! Z.to_nat q).
Definition sym_of (q : Z) : Z := default 0 (yystos !! Z.to_nat q).

(** What a stack entry stands for: its symbol, its value and the tokens it was
    built from. *)
Inductive sym_ok (rt : workflow_syntax) : Z -> option workflow_syntax -> list token -> Prop :=
| ok_end x : sym_ok rt 0 x []
| ok_name nm : sym_ok rt 3 (Some (NAME nm)) [tk_name nm]
| ok_token s x : 3 < s < 15 -> sym_ok rt s x [tk (code_of s)]
| ok_list x ws ts d : rt = STMT_LIST ws -> derives_file ws ts d -> sym_ok rt 16 x ts
| ok_workflow nm b tb d : derives Block b tb d ->
    sym_ok rt 17 (Some (WORKFLOW (NAME nm) b)) (tk T_WORKFLOW :: tk_name nm :: tb)
| ok_nt N v ts d : derives N v ts d -> sym_ok rt (nt_sym N) (Some v) ts
| ok_stmt s v ts d : 23 <= s <= 25 -> derives Stmt v ts d -> sym_ok rt s (Some v) ts.

(** The stack spells the tokens read so far along the transitions. *)
Inductive stk_ok (rt : workflow_syntax) : vstack -> list token -> Prop :=
| stk_bottom x : stk_ok rt [(0, x)] []
| stk_push q x stk ts0 q' x' ts :
    stk_ok rt ((q, x) :: stk) ts0 -> q ∈ preds_of q' -> sym_ok rt (sym_of q') x' ts ->
    stk_ok rt ((q', x') :: (q, x) :: stk) (ts0 ++ ts).

(** A potential of the stack: every reduction lowers it. *)
Definition weight (q : Z) : nat :=
  if bool_decide (q ∈ [9; 13]) then 3
  else if bool_decide (q ∈ [14; 18; 19; 20; 21; 22; 23; 25; 26; 27; 34]) then 2 else 1.
Definition extra (q : Z) : nat := if bool_decide (q ∈ [0; 6; 28]) then 2 else 0.
Definition potential (stk : vstack) : nat :=
  (foldr (fun e n => weight e.1 + n) 0 stk + match stk with (q, _) :: _ => extra q | [] => 0 end)%nat.

Lemma stk_ok_state rt stk ts : stk_ok rt stk ts -> exists q x tl, stk = (q, x) :: tl /\ q ∈ states.
Proof.
  destruct 1 as [x | q x stk ts0 q' x' ts _ Hp _]; [exists 0, x, []; split; [done | vm_compute; set_solver]|].
  exists q', x', ((q, x) :: stk). split; [done|]. unfold preds_of in Hp.
  destruct (decide (0 <= q')).
  2:{ replace (Z.to_nat q') with 0%nat in Hp by lia. by apply not_elem_of_nil in Hp. }
  destruct (pred_table !! Z.to_nat q') as [lp|] eqn:E; [|by apply not_elem_of_nil in Hp].
  apply lookup_lt_Some in E. change (length pred_table) with 37%nat in E.
  apply list_elem_of_fmap. exists (Z.to_nat q'). split; [lia|]. apply elem_of_seq. lia.
Qed.

(** Only default reductions are ever taken. *)
Lemma lookup_reduce q yyn tr n :
  0 <= tr -> lookup_action q yyn tr = Some (Reduce n) -> yydefault q = Some (Reduce n).
Proof.
  intros Htr. unfold lookup_action.
  destruct ((yyn + tr <? 0) || (YYLAST <? yyn + tr)) eqn:Er; [done|].
  apply orb_false_iff in Er as [E1%Z.ltb_ge E2%Z.ltb_ge]. unfold YYLAST in *.
  destruct (tab yycheck (yyn + tr)) as [c|] eqn:Ec; [|done]. cbn.
  destruct (Z.eqb_spec c tr) as [->|]; [cbn|done].
  destruct (tab yytable (yyn + tr)) as [m|] eqn:Et; [|done]. cbn.
  assert (Hall : forallb (fun k : nat => match yycheck !! k, yytable !! k with
            | Some c, Some m => (c <? 0) || (0 <? m) | _, _ => false end) (seq 0 33) = true)
    by (vm_compute; reflexivity).
  rewrite forallb_forall in Hall. specialize (Hall (Z.to_nat (yyn + tr))).
  rewrite in_seq in Hall. specialize (Hall ltac:(lia)). unfold tab in *.
  destruct (Z.ltb_spec (yyn + tr) 0); [lia|]. rewrite Ec, Et in Hall.
  apply orb_true_iff in Hall as [?%Z.ltb_lt | ?%Z.ltb_lt]; [lia|].
  destruct (Z.leb_spec m 0); [lia | done].
Qed.

Lemma translate_range c tr : 0 <= c -> YYTRANSLATE c = Some tr -> 0 <= tr.
Proof.
  intros Hc. unfold YYTRANSLATE. destruct (_ <=? _); [|by intros [= <-]].
  unfold tab. destruct (c <? 0); [done|]. intros E.
  assert (Hall : forallb (fun z => 0 <=? z) yytranslate = true) by (vm_compute; reflexivity).
  rewrite forallb_forall in Hall. apply list_elem_of_lookup_2 in E.
  apply list_elem_of_In in E. apply Hall in E. lia.
Qed.

Lemma adecide_reduce q toks n :
  Forall (fun t : token => 0 < t.1) toks -> adecide q toks = Some (Reduce n) -> yydefault q = Some (Reduce n).
Proof.
  intros Hp. unfold adecide. destruct (tab yypact q) as [yyn|]; [|done]. cbn.
  destruct (is_default yyn); [done|]. destruct (Z.leb_spec (tok_code toks) 0).
  - apply lookup_reduce. lia.
  - destruct (YYTRANSLATE (tok_code toks)) as [tr|] eqn:Et; [|done]. cbn.
    apply lookup_reduce. eapply translate_range; [|exact Et]. lia.
Qed.

(** Invert the top of the stack: its predecessors and what it stands for. *)
Ltac pop H :=
  let Hs := fresh "Hs" in let Hp := fresh "Hp" in let Hy := fresh "Hy" in
  inversion H as [|? ? ? ? ? ? ? Hs Hp Hy]; subst; clear H;
  [.. | vm_compute in Hp; in_states Hp; vm_compute in Hy; inversion Hy; subst; clear Hy; try lia; try done;
        repeat match goal with E : nt_sym ?N = _ |- _ => destruct N; try discriminate E; clear E end].

Definition reduces (q : Z) : Prop :=
  forall n rt stk x ts, yydefault q = Some (Reduce n) -> stk_ok rt ((q, x) :: stk) ts ->
    exists stk' rt', areduce n ((q, x) :: stk) rt = Some (stk', rt') /\ stk_ok rt' stk' ts /\
      (potential stk' < potential ((q, x) :: stk))%nat /\
      exists q' x' e tl, stk' = (q', x') :: e :: tl /\ q' <> 2.

Ltac weigh :=
  unfold potential; cbn [foldr fst];
  repeat match goal with
  | |- context [weight ?q] => let k := eval vm_compute in (weight q) in change (weight q) with k
  | |- context [extra ?q] => let k := eval vm_compute in (extra q) in change (extra q) with k
  end; lia.

Ltac weigh_top := split; [weigh | do 4 eexists; split; [reflexivity | done]].

Ltac is_pred := apply (bool_decide_unpack _); vm_compute; exact I.

(** Finish a reduction to the symbol [N] with the derivation [D]. *)
Ltac reduced N D :=
  do 2 eexists; split; [reflexivity|]; pop_stack; split;
  [ rewrite <- ?app_assoc; eapply stk_push; [eassumption | is_pred |];
    match goal with |- sym_ok ?rt ?s _ _ => change s with (nt_sym N) end;
    eapply (ok_nt _ N); cbn; eapply D; eassumption
  | weigh_top ].

Lemma red_9 : reduces 9.
Proof. intros n rt stk x ts [= <-] Hs. pop Hs; reduced Exp d_name. Qed.

Lemma red_26 : reduces 26.
Proof. intros n rt stk x ts [= <-] Hs. pop Hs. pop Hs0; reduced Exp d_not. Qed.

Lemma red_31 : reduces 31.
Proof. intros n rt stk x ts [= <-] Hs. pop Hs. pop Hs0. pop Hs; reduced Exp d_paren. Qed.

Lemma stmts_list v ts d : derives Stmts v ts d -> exists l, v = STMT_LIST l.
Proof. inversion 1; eauto. Qed.

Lemma red_14 : reduces 14.
Proof.
  intros n rt stk x ts [= <-] Hs. pop Hs. pop Hs0.
  match goal with H : derives Stmts _ _ _ |- _ => destruct (stmts_list _ _ _ H) as [l ->] end.
  pop Hs; reduced Block d_block.
Qed.

Lemma red_17 : reduces 17.
Proof.
  intros n rt stk x ts [= <-] Hs. pop Hs. pop Hs0.
  match goal with H : derives Stmts _ _ _ |- _ => destruct (stmts_list _ _ _ H) as [l ->] end.
  reduced Stmts d_snoc.
Qed.

Lemma red_18 : reduces 18.
Proof. intros n rt stk x ts [= <-] Hs. pop Hs. reduced Stmt d_stmt_if. Qed.

Lemma red_22 : reduces 22.
Proof. intros n rt stk x ts [= <-] Hs. pop Hs. reduced Stmt d_stmt_exp. Qed.

Lemma red_35 : reduces 35.
Proof. intros n rt stk x ts [= <-] Hs. pop Hs. pop Hs0. reduced Else d_else_block. Qed.

Lemma red_36 : reduces 36.
Proof. intros n rt stk x ts [= <-] Hs. pop Hs. pop Hs0. reduced Else d_else_if. Qed.

Lemma red_33 : reduces 33.
Proof.
  intros n rt stk x ts [= <-] Hs. pop Hs. pop Hs0. pop Hs. pop Hs0; reduced Ifstmt d_ifstmt.
Qed.

(** The same for the statement symbols that have no phrase of their own. *)
Ltac reduced_stmt D :=
  do 2 eexists; split; [reflexivity|]; pop_stack; split;
  [ rewrite <- ?app_assoc; eapply stk_push; [eassumption | is_pred |];
    eapply ok_stmt; [by vm_compute|]; cbn; eapply D; eassumption
  | weigh_top ].

Lemma red_30 : reduces 30.
Proof. intros n rt stk x ts [= <-] Hs. pop Hs. pop Hs0. pop Hs. reduced_stmt d_while. Qed.

Lemma red_34 : reduces 34.
Proof. intros n rt stk x ts [= <-] Hs. pop Hs. pop Hs0. pop Hs. pop Hs0. reduced_stmt d_do. Qed.

Lemma red_13 : reduces 13.
Proof. intros n rt stk x ts [= <-] Hs. pop Hs. reduced_stmt d_return. Qed.

Lemma derives_self N v ts d : derives N v ts d -> derives N v ts d.
Proof. done. Qed.

Lemma red_19 : reduces 19.
Proof. intros n rt stk x ts [= <-] Hs. pop Hs. reduced Stmt derives_self. Qed.
Lemma red_20 : reduces 20.
Proof. intros n rt stk x ts [= <-] Hs. pop Hs. reduced Stmt derives_self. Qed.
Lemma red_21 : reduces 21.
Proof. intros n rt stk x ts [= <-] Hs. pop Hs. reduced Stmt derives_self. Qed.

Lemma red_6 : reduces 6.
Proof.
  intros n rt stk x ts [= <-] Hs. rewrite <- (app_nil_r ts). reduced Stmts d_nil.
Qed.

Lemma red_28 : reduces 28.
Proof.
  intros n rt stk x ts [= <-] Hs. rewrite <- (app_nil_r ts). reduced Else d_else_none.
Qed.

Lemma red_7 : reduces 7.
Proof.
  intros n rt stk x ts [= <-] Hs. pop Hs. pop Hs0. pop Hs.
  do 2 eexists; split; [reflexivity|]; pop_stack; split; [|weigh_top].
  rewrite <- ?app_assoc. eapply stk_push; [eassumption | is_pred |]. eapply ok_workflow; eassumption.
Qed.

Lemma red_4 : reduces 4.
Proof.
  intros n rt stk x ts [= <-] Hs. pop Hs. pop Hs0. pop Hs.
  do 2 eexists; split; [reflexivity|]; pop_stack; split; [|weigh_top].
  eapply (stk_push _ 0 _ [] []); [apply stk_bottom | is_pred |].
  eapply ok_list; [reflexivity|]. by apply d_file_snoc.
Qed.

(** Every reduction of a state other than the initial one. *)
Lemma reduces_all q : q ∈ states -> q <> 0 -> q <> 2 -> reduces q.
Proof.
  intros Hq H0 H2. vm_compute in Hq. in_states Hq; try done;
    first [exact red_4 | exact red_6 | exact red_7 | exact red_9 | exact red_13 | exact red_14 | exact red_17
      | exact red_18 | exact red_19 | exact red_20 | exact red_21 | exact red_22 | exact red_26 | exact red_28
      | exact red_30 | exact red_31 | exact red_33 | exact red_34 | exact red_35 | exact red_36
      | intros n rt stk x ts Hd; discriminate Hd].
Qed.

(** What the tables do with the token code [c] in state [q]. *)
Definition code_ok (q c : Z) : bool :=
  match adecide q [(c, None)] with
  | Some (Shift n) =>
      bool_decide (q ∈ preds_of n) && bool_decide (n ∈ states) && (weight n + extra n <=? 3)%nat &&
      negb (n =? 2) &&
      (if c =? T_NAME then sym_of n =? 3
       else (3 <? sym_of n) && (sym_of n <? 15) && (code_of (sym_of n) =? c))
  | Some _ => true
  | None => false
  end.

Definition codes : list Z := Z.of_nat <$> seq 1 264.

Lemma codes_ok : forallb (fun q => forallb (code_ok q) codes) states = true.
Proof. vm_compute. reflexivity. Qed.

Lemma code_ok_at q t : q ∈ states -> lexed t -> code_ok q t.1 = true.
Proof.
  intros Hq Ht. pose proof codes_ok as H. rewrite forallb_forall in H.
  specialize (H q ltac:(by apply list_elem_of_In)). rewrite forallb_forall in H. apply H.
  apply list_elem_of_In, list_elem_of_fmap. exists (Z.to_nat t.1).
  assert (0 < t.1 <= 264).
  { destruct Ht as [[s ->] | (c & Hc & ->)]; cbn; unfold T_NAME; lia. }
  split; [lia | apply elem_of_seq; lia].
Qed.

Lemma shift_ok q t toks n rt : q ∈ states -> lexed t -> adecide q (t :: toks) = Some (Shift n) ->
  q ∈ preds_of n /\ sym_ok rt (sym_of n) t.2 [t] /\ (weight n + extra n <= 3)%nat /\ n <> 2 /\ n ∈ states.
Proof.
  intros Hq Ht Hd. pose proof (code_ok_at q t Hq Ht) as Hc. unfold code_ok in Hc.
  replace (adecide q [(t.1, None)]) with (adecide q (t :: toks)) in Hc by (by destruct t).
  rewrite Hd in Hc.
  apply andb_true_iff in Hc as [Hc Hs]. apply andb_true_iff in Hc as [Hc Hn].
  apply andb_true_iff in Hc as [Hc Hw]. apply andb_true_iff in Hc as [Hp Hin].
  apply bool_decide_eq_true in Hp, Hin. apply Nat.leb_le in Hw. apply negb_true_iff, Z.eqb_neq in Hn.
  split_and!; try done. destruct Ht as [[s ->] | (c & Hc & ->)]; cbn in Hs |- *.
  - apply Z.eqb_eq in Hs. rewrite Hs. apply ok_name.
  - destruct (Z.eqb_spec c T_NAME); [unfold T_NAME in *; lia|].
    apply andb_true_iff in Hs as [Hs He]. apply andb_true_iff in Hs as [H3 H15].
    apply Z.eqb_eq in He. rewrite <- He. apply ok_token. lia.
Qed.

Lemma eof_ok q : q ∈ states -> exists d, adecide q [] = Some d /\
  match d with Shift n => n = 2 /\ q ∈ preds_of 2 | _ => True end.
Proof.
  intros Hq. vm_compute in Hq. in_states Hq; (eexists; split; [reflexivity|]); try exact I.
  split; [reflexivity | is_pred].
Qed.

(** The invariant of the automaton on the input [all]. *)
Definition ainv (all : list token) (a : astate) : Prop :=
  let '(stk, toks, rt) := a in
  exists c, stk_ok rt stk c /\ c ++ toks = all /\ Forall lexed toks /\
    (forall x, stk = [(0, x)] -> rt = STMT_LIST []) /\
    (forall x tl, stk = (2, x) :: tl -> toks = []).

Definition top_state (stk : vstack) : Z := match stk with (q, _) :: _ => q | [] => 0 end.
Definition measure (a : astate) : nat :=
  if top_state a.1.1 =? 2 then 0%nat else S (4 * length a.1.2 + potential a.1.1).

Lemma lexed_pos toks : Forall lexed toks -> Forall (fun t : token => 0 < t.1) toks.
Proof.
  apply Forall_impl. intros t [[s ->] | (c & Hc & ->)]; cbn; unfold T_NAME; lia.
Qed.

Lemma stk_ok_0 rt x tl c : stk_ok rt ((0, x) :: tl) c -> tl = [] /\ c = [].
Proof. intros H. inversion H as [|? ? ? ? ? ? ? _ Hp _]; subst; [done|]. by apply not_elem_of_nil in Hp. Qed.

Lemma adecide_some q toks : q ∈ states -> Forall lexed toks -> is_Some (adecide q toks).
Proof.
  intros Hq Hl. destruct Hl as [|t toks Ht _].
  - destruct (eof_ok q Hq) as (d & -> & _). eauto.
  - pose proof (code_ok_at q t Hq Ht) as Hc. unfold code_ok in Hc.
    replace (adecide q [(t.1, None)]) with (adecide q (t :: toks)) in Hc by (by destruct t).
    destruct (adecide q (t :: toks)); [eauto | done].
Qed.

Lemma stk_ok_accept rt x tl c : stk_ok rt ((2, x) :: tl) c ->
  exists ws d, rt = STMT_LIST ws /\ derives_file ws c d.
Proof.
  intros Hs. pop Hs. pop Hs0. pop Hs. exists ws, d. by rewrite app_nil_r.
Qed.

Lemma potential_push q x stk : (potential ((q, x) :: stk) <= weight q + extra q + potential stk)%nat.
Proof. unfold potential; cbn. lia. Qed.

(** A round of the automaton returns, keeps the invariant and lowers the
    measure, or ends with the right answer. *)
Lemma around_total all a : ainv all a ->
  exists r, around a = Some r /\
    match r with
    | inl a' => ainv all a' /\ (measure a' < measure a)%nat
    | inr 0 => exists ws d, a.2 = STMT_LIST ws /\ derives_file ws all d
    | inr z => z = 1
    end.
Proof.
  destruct a as [[stk toks] rt]. intros (c & Hs & Hall & Hl & Hr0 & H2).
  destruct (stk_ok_state _ _ _ Hs) as (q & x & tl & -> & Hq). unfold around. cbn [head mbind option_bind].
  change YYFINAL with 2. destruct (Z.eqb_spec q 2) as [->|Hq2].
  { exists (inr 0). split; [done|]. rewrite (H2 x tl eq_refl), app_nil_r in Hall. subst c.
    by eapply stk_ok_accept. }
  destruct (adecide_some q toks Hq Hl) as [d Hd]. rewrite Hd. cbn [mbind option_bind].
  assert (Hm : measure ((q, x) :: tl, toks, rt) = S (4 * length toks + potential ((q, x) :: tl))).
  { unfold measure; cbn [fst snd top_state]. by destruct (Z.eqb_spec q 2). }
  rewrite Hm. destruct d as [n | n |].
  - eexists. split; [reflexivity|]. destruct toks as [|t toks].
    + destruct (eof_ok q Hq) as (d & Hd' & Hn). rewrite Hd in Hd'. injection Hd' as <-.
      destruct Hn as [-> Hp].
      split; [|change (measure ((2, None) :: (q, x) :: tl, tail [], rt)) with 0%nat; lia].
      exists (c ++ []). split_and!; [| by rewrite <- Hall, !app_nil_r | done | done | done].
      eapply stk_push; [exact Hs | exact Hp | apply ok_end].
    + apply Forall_cons_1 in Hl as [Ht Hl].
      destruct (shift_ok q t toks n rt Hq Ht Hd) as (Hp & Hsym & Hw & Hn2 & _). destruct t as [tc tv]. split.
      * exists (c ++ [(tc, tv)]). split_and!; try done; [by eapply stk_push | by rewrite <- app_assoc |].
        intros x' tl' [= -> _]. done.
      * unfold measure; cbn [fst snd top_state tail]. destruct (n =? 2); [lia|].
        pose proof (potential_push n tv ((q, x) :: tl)). cbn [length]. lia.
  - apply lexed_pos in Hl as Hpos. assert (Hdef := adecide_reduce q toks n Hpos Hd).
    destruct (decide (q = 0)) as [->|Hq0].
    { destruct (stk_ok_0 _ _ _ _ Hs) as [-> ->]. injection Hdef as <-.
      eexists. split; [reflexivity|]. split.
      - exists ([] ++ []). split_and!; [|done..].
        eapply (stk_push _ 0 x [] []); [apply stk_bottom | is_pred |].
        eapply ok_list; [by eapply Hr0 | apply d_file_nil].
      - change (potential [(0, x)]) with 3%nat. unfold measure. cbn [fst snd top_state].
        change (1 =? 2) with false. cbn iota. pop_stack. change (potential _) with 2%nat. lia. }
    destruct (reduces_all q Hq Hq0 Hq2 n rt tl x c Hdef Hs)
      as (stk' & rt' & -> & Hs' & Hpot & q' & x' & e & tl' & -> & Hq').
    cbn [mbind option_bind]. eexists. split; [reflexivity|]. split.
    + exists c. split_and!; try done. intros x0 tl0 [= -> _]. done.
    + unfold measure; cbn [fst snd top_state]. destruct (q' =? 2); lia.
  - exists (inr 1). done.
Qed.

Lemma stk_ok_states rt stk ts : stk_ok rt stk ts ->
  Forall (fun e : Z * option workflow_syntax => e.1 ∈ states) stk.
Proof.
  induction 1 as [x|q x stk ts0 q' x' ts Hs IH Hp Hy].
  - constructor; [is_pred | constructor].
  - constructor; [|exact IH].
    destruct (stk_ok_state rt _ _ (stk_push _ _ _ _ _ _ _ _ Hs Hp Hy)) as (? & ? & ? & [= <- <- <-] & ?). done.
Qed.

(** A full stack ends the parse. *)
Lemma grow_full st : YYINITDEPTH <= yystacksize st <= YYMAXDEPTH ->
  Z.of_nat (length (stack st)) <= yystacksize st -> YYMAXDEPTH <= Z.of_nat (length (stack st)) ->
  parse_round st = Some (Done 2 st).
Proof.
  unfold YYINITDEPTH, YYMAXDEPTH. intros H1 H2 H3. unfold parse_round, grow, YYMAXDEPTH.
  destruct (Z.leb_spec (yystacksize st - 1) (Z.of_nat (length (stack st)) - 1)); [|lia].
  destruct (Z.leb_spec 10000 (yystacksize st)); [done | lia].
Qed.

Lemma engine_total all a st fuel :
  simulates st a -> ainv all a -> (measure a < fuel)%nat ->
  exists r st', parse_loop fuel st = Some (r, st') /\ (r = 0 \/ r = 1 \/ r = 2) /\
    (r = 0 -> exists ws d, root st' = STMT_LIST ws /\ derives_file ws all d).
Proof.
  revert a st; induction fuel as [|fuel IH]; intros a st Hs Ha Hm; [lia|]. cbn.
  destruct (Hs) as (Hstk & _ & _ & _ & _ & Hsz & Hle). assert (El := list.Forall2_length _ _ _ Hstk).
  destruct (Z.lt_ge_cases (Z.of_nat (length a.1.1)) YYMAXDEPTH) as [Hlt | Hge].
  2:{ rewrite (grow_full st Hsz Hle) by lia. exists 2, st. split_and!; auto. done. }
  destruct (around_total all a Ha) as (r & Er & Hr). pose proof (round_sim st a r Hs Hlt Er) as Hsim.
  destruct r as [a' | z].
  - destruct Hsim as (st' & -> & Hs'). destruct Hr as [Ha' Hm']. apply (IH a'); [done.. | lia].
  - destruct (Z.eq_dec z 0) as [->|Hz].
    + destruct Hsim as (st' & -> & Hrt). exists 0, st'. split_and!; auto. intros _. rewrite Hrt. exact Hr.
    + assert (z = 1) as -> by (by destruct z).
      destruct Hsim as (st' & ->); [|exists 1, st'; split_and!; auto; done].
      destruct a as [[stk toks] rt]. destruct Ha as (c & Hc & _). by eapply stk_ok_states.
Qed.

(** Four rounds a token and a few more are enough. *)
Definition parse_fuel (toks : list token) : nat := (4 * length toks + 5)%nat.

Lemma initial_inv toks : Forall lexed toks -> ainv toks ([(0, None)], toks, STMT_LIST []).
Proof.
  intros Hl. exists []. split_and!; [apply stk_bottom | done | done | done | intros ? ? [=]].
Qed.

Lemma yyparse_returns toks : Forall lexed toks ->
  exists r rt, yyparse (parse_fuel toks) toks (STMT_LIST []) = Some (r, rt) /\ (r = 0 \/ r = 1 \/ r = 2) /\
    (r = 0 -> exists ws d, rt = STMT_LIST ws /\ derives_file ws toks d).
Proof.
  intros Hl. unfold yyparse.
  destruct (engine_total toks ([(0, None)], toks, STMT_LIST []) (initial_state toks (STMT_LIST [])) (parse_fuel toks))
    as (r & st' & -> & Hr & H0).
  - by apply initial_sim, lexed_pos.
  - by apply initial_inv.
  - unfold measure, parse_fuel. cbn [fst snd top_state]. change (0 =? 2) with false. cbn iota.
    change (potential _) with 3%nat. lia.
  - cbn. eauto 6.
Qed.

Lemma yyparse_complete toks ws d : Forall lexed toks -> derives_file ws toks d ->
  Z.of_nat (4 + d) < YYMAXDEPTH ->
  yyparse (parse_fuel toks) toks (STMT_LIST []) = Some (0, STMT_LIST ws).
Proof.
  intros Hl Hf Hd. destruct (file_accepted _ _ _ Hf) as (a & Hr & Hacc & Hrt & Hlen).
  destruct (engine_accepts (4 + d) _ a _ Hr (initial_sim toks (STMT_LIST []) (lexed_pos _ Hl)) Hacc Hd Hlen)
    as (fuel & st' & Hp & Hroot).
  destruct (yyparse_returns toks Hl) as (r & rt & Hy & _). rewrite Hy. unfold yyparse in Hy.
  destruct (parse_loop (parse_fuel toks) (initial_state toks (STMT_LIST []))) as [[r1 st1]|] eqn:E; [|done].
  cbn in Hy. injection Hy as <- <-.
  apply (parse_loop_mono _ (fuel `max` parse_fuel toks)) in E; [|lia].
  apply (parse_loop_mono _ (fuel `max` parse_fuel toks)) in Hp; [|lia]. congruence.
Qed.

(** C6: the parser decides the grammar.  On every token sequence of the lexer
    [yyparse] returns, with 0 (accept), 1 (syntax error) or 2 (the stack is
    full); when it accepts, the whole input is a workflow file of the grammar
    and the tree it built is its derivation; and a workflow file that needs
    fewer than 10000 places on the stack is accepted with its tree. *)
Theorem yyparse_correct toks :
  Forall lexed toks ->
  (exists r rt, yyparse (parse_fuel toks) toks (STMT_LIST []) = Some (r, rt) /\ (r = 0 \/ r = 1 \/ r = 2) /\
     (r = 0 -> exists ws d, rt = STMT_LIST ws /\ derives_file ws toks d)) /\
  (forall ws d, derives_file ws toks d -> Z.of_nat (4 + d) < YYMAXDEPTH ->
     yyparse (parse_fuel toks) toks (STMT_LIST []) = Some (0, STMT_LIST ws)).
Proof. intros Hl. split; [by apply yyparse_returns | intros ws d; by apply yyparse_complete]. Qed.

Definition sample_tokens : list token :=
  [tk T_WORKFLOW; tk_name "w"; tk T_LBRACE; tk T_IF; tk T_NOT; tk_name "A"; tk T_LBRACE; tk_name "B";
   tk T_RBRACE; tk T_RBRACE].

Lemma yyparse_correct_witness :
  exists r rt, yyparse (parse_fuel sample_tokens) sample_tokens (STMT_LIST []) = Some (r, rt) /\
    (r = 0 \/ r = 1 \/ r = 2) /\
    (r = 0 -> exists ws d, rt = STMT_LIST ws /\ derives_file ws sample_tokens d).
Proof.
  apply (yyparse_correct sample_tokens).
  repeat match goal with |- Forall _ _ => constructor end;
    first [left; eexists; reflexivity | right; eexists; split; [|reflexivity]; unfold T_IF, T_WORKFLOW, T_LBRACE, T_RBRACE, T_NOT; lia].
Defined.
