(* ===== verification/Lexer.v ===== *)
(** * The workflow lexer: src/orc/workflow/parser/lexer.c

    The scanner that Flex generated from workflow.l: its compressed transition
    tables and [yylex] over a scan buffer that holds the whole file followed by
    end-of-buffer characters; [LexBuffer] has the buffers and their refills. *)
From Stdlib Require Import ZArith Lia.
From stdpp Require Import base list strings option.
From S2P Require Import Prelude Syntax Parser.

Local Open Scope Z_scope.

(** ** Tables *)

Definition yy_accept : list Z := [
   0; 0; 0; 11; 9; 8; 8; 7; 7; 7; 7; 7; 7; 8; 7; 3; 7; 1; 7; 7;
   7; 7; 7; 7; 7; 2; 7; 7; 7; 7; 4; 7; 6; 7; 7; 5; 0]%Z.

Definition yy_ec : list Z := [
   0; 1; 1; 1; 1; 1; 1; 1; 1; 2; 3; 1; 1; 1; 1; 1; 1; 1; 1; 1;
   1; 1; 1; 1; 1; 1; 1; 1; 1; 1; 1; 1; 2; 1; 1; 1; 1; 1; 1; 1;
   1; 1; 1; 1; 1; 1; 1; 1; 4; 4; 4; 4; 4; 4; 4; 4; 4; 4; 1; 1;
   1; 1; 1; 1; 1; 5; 5; 5; 5; 5; 5; 5; 5; 5; 5; 5; 5; 5; 5; 5;
   5; 5; 5; 5; 5; 5; 5; 5; 5; 5; 5; 1; 1; 1; 1; 4; 1; 5; 5; 5;
   6; 7; 8; 5; 9; 10; 5; 11; 12; 5; 13; 14; 5; 5; 15; 16; 17; 18; 5; 19;
   5; 5; 5; 1; 1; 1; 1; 1; 1; 1; 1; 1; 1; 1; 1; 1; 1; 1; 1; 1;
   1; 1; 1; 1; 1; 1; 1; 1; 1; 1; 1; 1; 1; 1; 1; 1; 1; 1; 1; 1;
   1; 1; 1; 1; 1; 1; 1; 1; 1; 1; 1; 1; 1; 1; 1; 1; 1; 1; 1; 1;
   1; 1; 1; 1; 1; 1; 1; 1; 1; 1; 1; 1; 1; 1; 1; 1; 1; 1; 1; 1;
   1; 1; 1; 1; 1; 1; 1; 1; 1; 1; 1; 1; 1; 1; 1; 1; 1; 1; 1; 1;
   1; 1; 1; 1; 1; 1; 1; 1; 1; 1; 1; 1; 1; 1; 1; 1; 1; 1; 1; 1;
   1; 1; 1; 1; 1; 1; 1; 1; 1; 1; 1; 1; 1; 1; 1; 1]%Z.

Definition yy_meta : list Z := [
   0; 1; 1; 1; 2; 2; 2; 2; 2; 2; 2; 2; 2; 2; 2; 2; 2; 2; 2; 2]%Z.

Definition yy_base : list Z := [
   0; 0; 0; 48; 49; 18; 20; 0; 33; 34; 37; 37; 15; 23; 0; 0; 27; 0; 25; 31;
   25; 32; 20; 25; 25; 0; 20; 27; 25; 19; 0; 19; 0; 16; 9; 0; 49; 25]%Z.

Definition yy_def : list Z := [
   0; 36; 1; 36; 36; 36; 36; 37; 37; 37; 37; 37; 37; 36; 37; 37; 37; 37; 37; 37;
   37; 37; 37; 37; 37; 37; 37; 37; 37; 37; 37; 37; 37; 37; 37; 37; 0; 36]%Z.

Definition yy_nxt : list Z := [
   0; 4; 5; 6; 4; 7; 8; 9; 7; 7; 10; 7; 7; 7; 7; 11; 7; 7; 7; 12;
   13; 13; 13; 13; 19; 13; 13; 14; 35; 20; 34; 33; 32; 31; 30; 29; 28; 27; 26; 25;
   24; 23; 22; 21; 18; 17; 16; 15; 36; 3; 36; 36; 36; 36; 36; 36; 36; 36; 36; 36;
   36; 36; 36; 36; 36; 36; 36; 36; 36]%Z.

Definition yy_chk : list Z := [
   0; 1; 1; 1; 1; 1; 1; 1; 1; 1; 1; 1; 1; 1; 1; 1; 1; 1; 1; 1;
   5; 5; 6; 6; 12; 13; 13; 37; 34; 12; 33; 31; 29; 28; 27; 26; 24; 23; 22; 21;
   20; 19; 18; 16; 11; 10; 9; 8; 3; 36; 36; 36; 36; 36; 36; 36; 36; 36; 36; 36;
   36; 36; 36; 36; 36; 36; 36; 36; 36]%Z.

Definition YY_END_OF_BUFFER : Z := 11.

(** An access to a table of the scanner. *)
Definition at_ (t : list Z) (i : Z) : Z := default 0 (t !! Z.to_nat i).

(** ** Transitions *)

(** The inner loop: follow the default states until the entry belongs to the
    state.  A state is at most two defaults away from one that has the entry. *)
Fixpoint yy_chain (fuel : nat) (state c : Z) : Z * Z :=
  match fuel with
  | O => (state, c)
  | S fuel =>
      if at_ yy_chk (at_ yy_base state + c) =? state then (state, c)
      else
        let state := at_ yy_def state in
        let c := if 37 <=? state then at_ yy_meta c else c in
        yy_chain fuel state c
  end.

(** The next state on the character class [c]. *)
Definition yy_step (state c : Z) : Z :=
  let (state, c) := yy_chain 4 state c in at_ yy_nxt (at_ yy_base state + c).

(** ** The scan *)

(** A character of the buffer: the bytes of the file, then end-of-buffer
    characters. *)
Definition buf_at (buf : list Z) (i : nat) : Z := default 0 (buf !! i).

(** [yy_last_accepting_state] and [yy_last_accepting_cpos]. *)
Definition last_acc : Type := Z * nat.

Definition note_accept (state : Z) (cp : nat) (last : last_acc) : last_acc :=
  if at_ yy_accept state =? 0 then last else (state, cp).

(** [yy_match]: the state and position where the automaton jams. *)
Fixpoint yy_match (fuel : nat) (buf : list Z) (state : Z) (cp : nat) (last : last_acc)
  : option (Z * nat * last_acc) :=
  match fuel with
  | O => None
  | S fuel =>
      let c := at_ yy_ec (buf_at buf cp) in
      let last := note_accept state cp last in
      let state := yy_step state c in
      let cp := S cp in
      if at_ yy_base state =? 49 then Some (state, cp, last)
      else yy_match fuel buf state cp last
  end.

(** [yy_find_action]: the rule, the state and the position after the match. *)
Definition yy_find_action (state : Z) (cp : nat) (last : last_acc) : Z * Z * nat :=
  let act := at_ yy_accept state in
  if act =? 0 then (at_ yy_accept last.1, last.1, last.2) else (act, state, cp).

(** [yy_get_previous_state]: run the automaton over the text again. *)
Fixpoint yy_get_previous_state (buf : list Z) (cp n : nat) (state : Z) (last : last_acc) : Z * last_acc :=
  match n with
  | O => (state, last)
  | S n =>
      let b := buf_at buf cp in
      let c := if b =? 0 then 1 else at_ yy_ec b in
      let last := note_accept state cp last in
      yy_get_previous_state buf (S cp) n (yy_step state c) last
  end.

(** [yy_try_NUL_trans]; 0 is a jam. *)
Definition yy_try_NUL_trans (state : Z) (cp : nat) (last : last_acc) : Z * last_acc :=
  let last := note_accept state cp last in
  let state := yy_step state 1 in
  (if state =? 36 then 0 else state, last).

(** Where the scan of one token goes on. *)
Inductive scan_point : Type :=
| AtMatch (state : Z) (cp : nat)
| AtFind (state : Z) (cp : nat).

(** The scan of one match that starts at [bp]: the rule and the end of the
    text; rule 0 is the end of the file.  The [YY_END_OF_BUFFER] action goes back
    to [yy_match] or [yy_find_action] with the text it has. *)
Fixpoint yy_scan (fuel : nat) (buf : list Z) (bp : nat) (pt : scan_point) (last : last_acc)
  : option (Z * nat) :=
  match fuel with
  | O => None
  | S fuel =>
      let found :=
        match pt with
        | AtMatch state cp =>
            match yy_match (S (S (S (length buf - cp)))) buf state cp last with
            | None => None
            | Some (state, cp, last) => Some (yy_find_action state cp last, last)
            end
        | AtFind state cp => Some (yy_find_action state cp last, last)
        end in
      match found with
      | None => None
      | Some ((act, state, cp), last) =>
          if act =? YY_END_OF_BUFFER then
            let amount := (cp - bp - 1)%nat in
            if (cp <=? length buf)%nat then
              (* really a NUL *)
              let c_buf_p := (bp + amount)%nat in
              let (state, last) := yy_get_previous_state buf bp amount 1 last in
              let (next, last) := yy_try_NUL_trans state c_buf_p last in
              if next =? 0 then yy_scan fuel buf bp (AtFind state c_buf_p) last
              else yy_scan fuel buf bp (AtMatch next (S c_buf_p)) last
            else if (amount =? 0)%nat then Some (0, bp)      (* EOB_ACT_END_OF_FILE *)
            else                                              (* EOB_ACT_LAST_MATCH *)
              let c_buf_p := length buf in
              let (state, last) := yy_get_previous_state buf bp (c_buf_p - bp) 1 last in
              yy_scan fuel buf bp (AtFind state c_buf_p) last
          else Some (act, cp)
      end
  end.

(** The text of a match as a string. *)
Definition ascii_of (b : Z) : Ascii.ascii := Ascii.ascii_of_N (Z.to_N b).
Definition text (buf : list Z) (bp cp : nat) : string :=
  foldr (fun b s => String (ascii_of b) s) "" (take (cp - bp) (drop bp buf)).

(** A [char] is signed. *)
Definition schar (b : Z) : Z := if b <? 128 then b else b - 256.

(** The actions of the rules: the token, or nothing for white space. *)
Definition yy_action (act : Z) (buf : list Z) (bp cp : nat) : option token :=
  match act with
  | 1 => Some (T_IF, None)
  | 2 => Some (T_ELSE, None)
  | 3 => Some (T_DO, None)
  | 4 => Some (T_WHILE, None)
  | 5 => Some (T_WORKFLOW, None)
  | 6 => Some (T_RETURN, None)
  | 7 => Some (T_NAME, Some (new_name_stmt (text buf bp cp)))
  | 9 => Some (schar (buf_at buf bp), None)
  | _ => None
  end.

(** [yylex]: skip white space, then one token; [None] is the end of the file.
    The result has the position where the next call starts. *)
Fixpoint yylex (fuel : nat) (buf : list Z) (bp : nat) : option (option token * nat) :=
  match fuel with
  | O => None
  | S fuel =>
      match yy_scan 4 buf bp (AtMatch 1 bp) (0, O) with
      | None => None
      | Some (act, cp) =>
          if act =? 0 then Some (None, cp)
          else if act =? 10 then None                          (* scanner jammed *)
          else match yy_action act buf bp cp with
               | Some t => Some (Some t, cp)
               | None => yylex fuel buf cp
               end
      end
  end.

(** All the tokens of a file, as the parser reads them: to the end of the file. *)
Fixpoint yylex_all (fuel : nat) (buf : list Z) (bp : nat) : option (list token) :=
  match fuel with
  | O => None
  | S fuel =>
      match yylex (S (length buf)) buf bp with
      | None => None
      | Some (None, _) => Some []
      | Some (Some t, cp) => cons t <$> yylex_all fuel buf cp
      end
  end.

Definition lex_file (buf : list Z) : option (list token) := yylex_all (S (length buf)) buf 0.
