(* ===== verification/LexerCorrect.v ===== *)
(** * Correctness of the workflow lexer

    The scanner's tables implement the longest-match reading of workflow.l: a
    file without NUL bytes is cut into white space, words and single
    characters, and a word is a keyword or a name. *)
From Stdlib Require Import ZArith Lia.
From stdpp Require Import base list strings option.
From S2P Require Import Prelude Syntax Parser ParserCorrect Lexer.

Local Open Scope Z_scope.

(** ** The specification: workflow.l *)

Definition is_space (b : Z) : bool := (b =? 9) || (b =? 10) || (b =? 32).
Definition is_letter (b : Z) : bool := ((65 <=? b) && (b <=? 90)) || ((97 <=? b) && (b <=? 122)).
Definition is_idchar (b : Z) : bool := is_letter b || ((48 <=? b) && (b <=? 57)) || (b =? 95).

Definition keywords : list (list Z * Z) :=
  [(bytes_of "if", 1); (bytes_of "else", 2); (bytes_of "do", 3); (bytes_of "while", 4);
   (bytes_of "workflow", 5); (bytes_of "return", 6)].

Definition string_of (w : list Z) : string := foldr (fun b s => String (ascii_of b) s) ""%string w.

(** The rule that a word matches, and its token. *)
Definition word_rule (w : list Z) : Z :=
  match list_find (fun p : list Z * Z => p.1 = w) keywords with
  | Some (_, (_, k)) => k
  | None => 7
  end.
Definition word_token (w : list Z) : token :=
  match word_rule w with
  | 1 => tk T_IF | 2 => tk T_ELSE | 3 => tk T_DO | 4 => tk T_WHILE | 5 => tk T_WORKFLOW | 6 => tk T_RETURN
  | _ => tk_name (string_of w)
  end.

(** The longest prefix of bytes in a class, and the rest. *)
Fixpoint span (p : Z -> bool) (l : list Z) : list Z * list Z :=
  match l with
  | b :: l' => if p b then let (w, r) := span p l' in (b :: w, r) else ([], l)
  | [] => ([], [])
  end.

(** The tokens of a file. *)
Fixpoint spec_lex (fuel : nat) (l : list Z) : list token :=
  match fuel, l with
  | S fuel, b :: l' =>
      if is_space b then spec_lex fuel (span is_space l').2
      else if is_letter b then
        let (w, r) := span is_idchar l' in word_token (b :: w) :: spec_lex fuel r
      else tk (schar b) :: spec_lex fuel l'
  | _, _ => []
  end.

Definition spec_file (l : list Z) : list token := spec_lex (length l) l.

(** ** The automaton *)

Definition delta (s b : Z) : Z := yy_step s (at_ yy_ec b).

(** The states after a word and after white space. *)
Definition id_states : list Z := [7; 8; 9; 10; 11; 12] ++ (Z.of_nat <$> seq 14 22).
Definition sp_states : list Z := [5; 6; 13].

(** Word states other than the general one stand for one prefix of a keyword. *)
Definition prefixes : list (Z * list Z) :=
  '(w, _) ← keywords; (fun n => (foldl delta 1 (take n w), take n w)) <$> seq 1 (length w).
Definition prefix_of (s : Z) : option (list Z) :=
  match list_find (fun p : Z * list Z => p.1 = s) prefixes with Some (_, (_, w)) => Some w | None => None end.

Definition bytes : list Z := Z.of_nat <$> seq 1 255.

(** A class of states [K] that the bytes of [p] stay in and all others leave. *)
Definition class_ok (K : list Z) (p : Z -> bool) : bool :=
  forallb (fun s => negb (at_ yy_accept s =? 0) && negb (at_ yy_accept s =? YY_END_OF_BUFFER) &&
                    negb (at_ yy_base s =? 49) && (delta s 0 =? 3) &&
     forallb (fun b => if p b then bool_decide (delta s b ∈ K) else delta s b =? 36) bytes) K.

Lemma id_class : class_ok id_states is_idchar = true.
Proof. vm_compute. reflexivity. Qed.
Lemma sp_class : class_ok sp_states is_space = true.
Proof. vm_compute. reflexivity. Qed.

(** The first byte of a token. *)
Definition first_ok (b : Z) : bool :=
  if is_space b then bool_decide (delta 1 b ∈ sp_states)
  else if is_letter b then
    bool_decide (delta 1 b ∈ id_states) &&
    match prefix_of (delta 1 b) with Some w => bool_decide (w = [b]) | None => true end
  else delta 1 b =? 4.

Lemma first_all : forallb first_ok bytes = true.
Proof. vm_compute. reflexivity. Qed.

(** Keyword prefixes grow by the byte read. *)
Definition grow_ok (s b : Z) : bool :=
  if is_idchar b then
    match prefix_of (delta s b) with
    | Some w => match prefix_of s with Some w0 => bool_decide (w = w0 ++ [b]) | None => false end
    | None => true
    end
  else true.

Lemma grow_all : forallb (fun s => forallb (grow_ok s) bytes) id_states = true.
Proof. vm_compute. reflexivity. Qed.

(** An accepting word state of a keyword stands for that keyword. *)
Lemma accept_all : forallb (fun s =>
    (at_ yy_accept s =? 7) ||
    match prefix_of s with Some w => (word_rule w =? at_ yy_accept s) && negb (word_rule w =? 7) | None => false end)
  id_states = true.
Proof. vm_compute. reflexivity. Qed.

Lemma keyword_all : forallb (fun p : list Z * Z => at_ yy_accept (foldl delta 1 p.1) =? p.2) keywords = true.
Proof. vm_compute. reflexivity. Qed.

(** ** Running the scanner *)

Definition byte_ok (b : Z) : Prop := 1 <= b <= 255.

Lemma in_bytes b : byte_ok b -> b ∈ bytes.
Proof.
  intros Hb. unfold byte_ok in Hb. apply list_elem_of_fmap. exists (Z.to_nat b).
  split; [lia | apply elem_of_seq; lia].
Qed.

Lemma forallb_at {A} (f : A -> bool) l x : forallb f l = true -> x ∈ l -> f x = true.
Proof. intros H Hx. rewrite forallb_forall in H. by apply H, list_elem_of_In. Qed.

(** Facts of the tables about the end of the buffer and the jam state. *)
Lemma tab_facts :
  yy_step 1 (at_ yy_ec 0) = 3 /\ yy_step 3 (at_ yy_ec 0) = 36 /\
  (at_ yy_base 3 =? 49) = false /\ (at_ yy_base 4 =? 49) = true /\ (at_ yy_base 36 =? 49) = true /\
  (at_ yy_accept 36 =? 0) = true /\ (at_ yy_accept 3 =? 0) = false /\
  (at_ yy_accept 3 =? YY_END_OF_BUFFER) = true /\ (at_ yy_accept 4 =? 0) = false /\
  (at_ yy_accept 4 =? YY_END_OF_BUFFER) = false /\ at_ yy_accept 4 = 9.
Proof. vm_compute. tauto. Qed.
Ltac tables :=
  destruct tab_facts as (T1 & T2 & T3 & T4 & T5 & T6 & T7 & T8 & T9 & T10 & T11).

Section Class.
Context (K : list Z) (p : Z -> bool) (HK : class_ok K p = true).

Lemma class_facts s : s ∈ K ->
  at_ yy_accept s <> 0 /\ at_ yy_accept s <> YY_END_OF_BUFFER /\ at_ yy_base s <> 49 /\ delta s 0 = 3 /\
  forall b, byte_ok b -> if p b then delta s b ∈ K else delta s b = 36.
Proof.
  intros Hs. pose proof (forallb_at _ _ _ HK Hs) as H. cbn beta in H.
  apply andb_true_iff in H as [H Hb]. apply andb_true_iff in H as [H H0].
  apply andb_true_iff in H as [H H49]. apply andb_true_iff in H as [Ha Ha2].
  split_and!; try (by apply Z.eqb_neq, negb_true_iff); [by apply Z.eqb_eq|].
  intros b Hbo. pose proof (forallb_at _ _ _ Hb (in_bytes b Hbo)) as Hc. cbn beta in Hc.
  destruct (p b); [by apply bool_decide_eq_true in Hc | by apply Z.eqb_eq].
Qed.

Lemma class_run s w : s ∈ K -> Forall byte_ok w -> Forall (fun b => p b = true) w -> foldl delta s w ∈ K.
Proof.
  revert s; induction w as [|b w IH]; intros s Hs Hw Hp; [done|].
  apply Forall_cons_1 in Hw as [Hb Hw]. apply Forall_cons_1 in Hp as [Hpb Hp]. cbn. apply IH; [|done..].
  destruct (class_facts s Hs) as (_ & _ & _ & _ & H). specialize (H b Hb). by rewrite Hpb in H.
Qed.
End Class.

Lemma buf_at_drop buf cp b l : drop cp buf = b :: l -> buf_at buf cp = b /\ drop (S cp) buf = l.
Proof.
  intros H. unfold buf_at. split.
  - assert (buf !! cp = Some b) as ->; [|done].
    replace cp with (cp + 0)%nat at 1 by lia. rewrite <- lookup_drop, H. done.
  - replace (S cp) with (cp + 1)%nat by lia. by rewrite <- drop_drop, H.
Qed.

Lemma buf_at_end buf cp : (length buf <= cp)%nat -> buf_at buf cp = 0.
Proof. intros H. unfold buf_at. by rewrite lookup_ge_None_2. Qed.

Section Scan.
Context (K : list Z) (p : Z -> bool) (HK : class_ok K p = true).
Context (buf : list Z) (Hbuf : Forall byte_ok buf).

(** The bytes after a run: the end of the file or a byte outside the class. *)
Definition run_ends (r : list Z) : Prop := match r with [] => True | b :: _ => byte_ok b /\ p b = false end.

Lemma yy_match_run w : forall fuel s cp last r,
  s ∈ K -> drop cp buf = w ++ r -> Forall byte_ok w -> Forall (fun b => p b = true) w -> run_ends r ->
  (length w + 2 <= fuel)%nat ->
  yy_match fuel buf s cp last =
    match r with
    | [] => Some (36, S (S (cp + length w)), (3, S (cp + length w)))
    | _ => Some (36, S (cp + length w), (foldl delta s w, (cp + length w)%nat))
    end.
Proof.
  induction w as [|b w IH]; intros fuel s cp last r Hs Hd Hw Hp Hr Hf.
  - destruct (class_facts K p HK s Hs) as (Ha & _ & _ & H0 & Hdel). cbn in Hd. rewrite Nat.add_0_r.
    destruct fuel as [|[|fuel]]; [cbn in Hf; lia..|].
    destruct r as [|b r].
    + assert (Hlen : (length buf <= cp)%nat).
      { apply (f_equal length) in Hd. rewrite length_drop in Hd. cbn in Hd. lia. }
      cbn [yy_match]. rewrite !buf_at_end by lia. fold (delta s 0). rewrite H0.
      tables. rewrite T3, T2, T5. unfold note_accept at 1. rewrite T7. done.
    + destruct (buf_at_drop _ _ _ _ Hd) as [Eb _]. destruct Hr as [Hb Hpb].
      cbn [yy_match]. rewrite Eb. fold (delta s b). specialize (Hdel b Hb). rewrite Hpb in Hdel.
      tables. rewrite Hdel, T5.
      unfold note_accept. apply Z.eqb_neq in Ha. by rewrite Ha.
  - cbn in Hf. destruct fuel as [|fuel]; [lia|]. destruct (buf_at_drop _ _ _ _ Hd) as [Eb Hd'].
    apply Forall_cons_1 in Hw as [Hb Hw]. apply Forall_cons_1 in Hp as [Hpb Hp].
    destruct (class_facts K p HK s Hs) as (_ & _ & _ & _ & Hdel). specialize (Hdel b Hb). rewrite Hpb in Hdel.
    destruct (class_facts K p HK _ Hdel) as (_ & _ & H49 & _). apply Z.eqb_neq in H49.
    cbn [yy_match]. rewrite Eb. fold (delta s b). rewrite H49. cbn iota.
    rewrite (IH fuel (delta s b) (S cp) _ r) by (done || lia). cbn [length foldl].
    replace (S cp + length w)%nat with (cp + S (length w))%nat by lia. done.
Qed.

Lemma previous_state_run w : forall s cp last,
  take (length w) (drop cp buf) = w -> Forall byte_ok w ->
  (yy_get_previous_state buf cp (length w) s last).1 = foldl delta s w.
Proof.
  induction w as [|b w IH]; intros s cp last Hd Hw; [done|].
  apply Forall_cons_1 in Hw as [Hb Hw].
  destruct (drop cp buf) as [|b' l] eqn:Ed; [done|]. cbn in Hd. injection Hd as -> Hd.
  destruct (buf_at_drop _ _ _ _ Ed) as [Eb Ed']. cbn [yy_get_previous_state length foldl]. rewrite Eb.
  unfold byte_ok in Hb. destruct (Z.eqb_spec b 0); [lia|]. apply IH; [by rewrite Ed' | done].
Qed.

(** A run that starts with [b0] in state 1 is matched as a whole. *)
Lemma yy_scan_run bp b0 w r :
  delta 1 b0 ∈ K -> drop bp buf = b0 :: w ++ r -> Forall (fun b => p b = true) w -> run_ends r ->
  yy_scan 4 buf bp (AtMatch 1 bp) (0, O) =
    Some (at_ yy_accept (foldl delta 1 (b0 :: w)), (bp + S (length w))%nat).
Proof.
  intros Hs Hd Hp Hr. destruct (buf_at_drop _ _ _ _ Hd) as [Eb Hd'].
  assert (Hall : Forall byte_ok (b0 :: w ++ r)) by (rewrite <- Hd; by apply Forall_drop).
  apply Forall_cons_1 in Hall as [Hb0 Hwr]. apply Forall_app in Hwr as [Hw Hbr].
  assert (Hlen : (length buf = bp + S (length w + length r))%nat).
  { apply (f_equal length) in Hd. rewrite length_drop in Hd. cbn in Hd. rewrite length_app in Hd. lia. }
  destruct (class_facts K p HK _ Hs) as (_ & _ & H49 & _). apply Z.eqb_neq in H49.
  set (s' := foldl delta 1 (b0 :: w)).
  assert (Hs' : s' ∈ K) by (by apply (class_run K p HK (delta 1 b0) w)).
  destruct (class_facts K p HK _ Hs') as (Ha & He & _). apply Z.eqb_neq in Ha, He.
  assert (Hm : forall last, yy_match (S (S (S (length buf - bp)))) buf 1 bp last =
    match r with
    | [] => Some (36, S (S (bp + S (length w))), (3, S (bp + S (length w))))
    | _ => Some (36, S (bp + S (length w)), (s', (bp + S (length w))%nat))
    end).
  { intros last. remember (S (S (length buf - bp))) as fuel eqn:Ef. cbn [yy_match]. rewrite Eb. fold (delta 1 b0).
    rewrite H49. cbn iota. rewrite (yy_match_run w fuel _ (S bp) _ r) by (done || lia).
    replace (S bp + length w)%nat with (bp + S (length w))%nat by lia. done. }
  tables. cbn [yy_scan]. rewrite Hm. destruct r as [|b r].
  - unfold yy_find_action. rewrite T6. cbn [fst snd]. rewrite T8.
    destruct (Nat.leb_spec (S (bp + S (length w))) (length buf)); [cbn in Hlen; lia|].
    destruct (Nat.eqb_spec (S (bp + S (length w)) - bp - 1) 0); [lia|].
    assert (El : (length buf - bp = length (b0 :: w))%nat) by (cbn in *; lia).
    rewrite El. destruct (yy_get_previous_state buf bp (length (b0 :: w)) 1 _) as [st lst] eqn:Ep.
    assert (st = s') as ->.
    { assert (Hps := previous_state_run (b0 :: w) 1 bp (3, S (bp + S (length w)))). rewrite Ep in Hps.
      apply Hps; [|by constructor]. rewrite Hd, app_nil_r. cbn. by rewrite firstn_all. }
    rewrite Ha, He. do 2 f_equal. cbn in Hlen. lia.
  - unfold yy_find_action. rewrite T6. cbn [fst snd]. by rewrite He.
Qed.
End Scan.

Lemma yy_match_eof fuel buf bp last : (length buf <= bp)%nat ->
  yy_match (S (S fuel)) buf 1 bp last = Some (36, S (S bp), (3, S bp)).
Proof.
  intros Hl. tables. cbn [yy_match]. rewrite !buf_at_end by lia. rewrite T1, T3, T2, T5.
  unfold note_accept at 1. by rewrite T7.
Qed.

Lemma yy_scan_eof buf bp : (length buf <= bp)%nat -> yy_scan 4 buf bp (AtMatch 1 bp) (0, O) = Some (0, bp).
Proof.
  intros Hl. generalize (0, 0%nat) as last. intros last. generalize 3%nat as fuel. intros fuel.
  cbn [yy_scan]. rewrite yy_match_eof by done. tables.
  unfold yy_find_action. rewrite T6. cbn [fst snd]. rewrite T8.
  destruct (Nat.leb_spec (S bp) (length buf)); [lia|].
  destruct (Nat.eqb_spec (S bp - bp - 1) 0); [done | lia].
Qed.

Lemma yy_scan_char buf bp b l : drop bp buf = b :: l -> delta 1 b = 4 ->
  yy_scan 4 buf bp (AtMatch 1 bp) (0, O) = Some (9, S bp).
Proof.
  intros Hd Hb. destruct (buf_at_drop _ _ _ _ Hd) as [Eb _].
  cbn [yy_scan]. remember (S (S (length buf - bp))) as fuel. cbn [yy_match]. rewrite Eb. fold (delta 1 b).
  tables. rewrite Hb, T4. unfold yy_find_action. rewrite T9, T10, T11. done.
Qed.

Lemma span_spec p l w r : span p l = (w, r) ->
  l = w ++ r /\ Forall (fun b => p b = true) w /\ match r with [] => True | b :: _ => p b = false end.
Proof.
  revert w r; induction l as [|b l IH]; intros w r H; cbn in H; [by injection H as <- <-|].
  destruct (p b) eqn:Ep; [|injection H as <- <-; by split_and!].
  destruct (span p l) as [w' r'] eqn:Es. injection H as <- <-. destruct (IH _ _ eq_refl) as (-> & Hw & Hr).
  split_and!; [done | by constructor | done].
Qed.

Lemma first_at b : byte_ok b -> first_ok b = true.
Proof. intros Hb. exact (forallb_at _ _ _ first_all (in_bytes b Hb)). Qed.

(** The state after a word knows the word when it can still be a keyword. *)
Lemma prefix_run w : forall s w0, s ∈ id_states -> Forall byte_ok w -> Forall (fun b => is_idchar b = true) w ->
  (forall v, prefix_of s = Some v -> v = w0) ->
  forall v, prefix_of (foldl delta s w) = Some v -> v = w0 ++ w.
Proof.
  induction w as [|b w IH]; intros s w0 Hs Hw Hp H0 v Hv; [rewrite app_nil_r; auto|].
  apply Forall_cons_1 in Hw as [Hb Hw]. apply Forall_cons_1 in Hp as [Hpb Hp].
  replace (w0 ++ b :: w) with ((w0 ++ [b]) ++ w) by (by rewrite <- app_assoc).
  apply (IH (delta s b)); try done.
  - destruct (class_facts _ _ id_class s Hs) as (_ & _ & _ & _ & H). specialize (H b Hb). by rewrite Hpb in H.
  - intros v' Hv'. pose proof (forallb_at _ _ _ grow_all Hs) as Hg. cbn beta in Hg.
    apply (forallb_at _ _ b) in Hg; [|by apply in_bytes]. unfold grow_ok in Hg. rewrite Hpb, Hv' in Hg.
    destruct (prefix_of s) as [v0|]; [|done]. apply bool_decide_eq_true in Hg. by rewrite (H0 v0 eq_refl) in Hg.
Qed.

Lemma word_rule_ok b w : byte_ok b -> is_space b = false -> is_letter b = true -> Forall byte_ok w ->
  Forall (fun b => is_idchar b = true) w -> at_ yy_accept (foldl delta 1 (b :: w)) = word_rule (b :: w).
Proof.
  intros Hb Hsp Hl Hw Hp. pose proof (first_at b Hb) as Hf. unfold first_ok in Hf. rewrite Hsp, Hl in Hf.
  apply andb_true_iff in Hf as [Hin Hpre]. apply bool_decide_eq_true in Hin.
  set (s := foldl delta 1 (b :: w)).
  assert (Hs : s ∈ id_states) by (by apply (class_run _ is_idchar id_class (delta 1 b) w)).
  assert (Hv : forall v, prefix_of s = Some v -> v = [b] ++ w).
  { apply (prefix_run w (delta 1 b) [b]); try done. intros v E. rewrite E in Hpre. by apply bool_decide_eq_true in Hpre. }
  pose proof (forallb_at _ _ _ accept_all Hs) as Ha. cbn beta in Ha.
  apply orb_true_iff in Ha as [Ha%Z.eqb_eq | Ha].
  - unfold word_rule. destruct (list_find _ keywords) as [[i [k n]]|] eqn:Ef; [|done].
    apply list_find_Some in Ef as (Hi & Hk & _). cbn in Hk. subst k.
    pose proof (forallb_at _ _ _ keyword_all (list_elem_of_lookup_2 _ _ _ Hi)) as Hk. by apply Z.eqb_eq in Hk.
  - destruct (prefix_of s) as [v|]; [|done]. rewrite (Hv v eq_refl) in Ha.
    apply andb_true_iff in Ha as [Ha%Z.eqb_eq _]. by symmetry.
Qed.

(** ** Tokens *)

Lemma text_run buf bp w r : drop bp buf = w ++ r -> text buf bp (bp + length w) = string_of w.
Proof.
  intros Hd. unfold text, string_of. rewrite Hd. replace (bp + length w - bp)%nat with (length w) by lia.
  by rewrite take_app_length.
Qed.

Lemma word_rule_range w : 1 <= word_rule w <= 7.
Proof.
  unfold word_rule. destruct (list_find _ keywords) as [[i [k n]]|] eqn:Ef; [|lia].
  apply list_find_Some in Ef as (Hi & _). apply list_elem_of_lookup_2 in Hi.
  assert (Hall : forallb (fun p : list Z * Z => (1 <=? p.2) && (p.2 <=? 7)) keywords = true) by reflexivity.
  apply (forallb_at _ _ _ Hall) in Hi. cbn in Hi. lia.
Qed.

Lemma word_action buf bp w r : drop bp buf = w ++ r ->
  yy_action (word_rule w) buf bp (bp + length w) = Some (word_token w).
Proof.
  intros Hd. unfold word_token. pose proof (word_rule_range w) as Hr. unfold yy_action.
  assert (Hc : word_rule w = 1 \/ word_rule w = 2 \/ word_rule w = 3 \/ word_rule w = 4 \/ word_rule w = 5 \/
    word_rule w = 6 \/ word_rule w = 7) by lia.
  destruct Hc as [-> | [-> | [-> | [-> | [-> | [-> | ->]]]]]]; try reflexivity.
  by rewrite (text_run buf bp w r Hd).
Qed.

Lemma span_length p l : (length (span p l).2 <= length l)%nat.
Proof. induction l as [|b l IH]; cbn; [lia|]. destruct (p b); [|cbn; lia]. destruct (span p l); cbn in *; lia. Qed.

Lemma spec_lex_fuel n : forall m l, (length l <= n)%nat -> (length l <= m)%nat -> spec_lex n l = spec_lex m l.
Proof.
  induction n as [|n IH]; intros m l Hn Hm.
  - destruct l; [|cbn in Hn; lia]. by destruct m.
  - destruct l as [|b l]; [by destruct m|]. cbn in Hn, Hm. destruct m as [|m]; [lia|]. cbn.
    pose proof (span_length is_space l). pose proof (span_length is_idchar l).
    destruct (is_space b); [apply IH; lia|]. destruct (is_letter b).
    + destruct (span is_idchar l) as [w r]. cbn in *. f_equal. apply IH; lia.
    + f_equal. apply IH; lia.
Qed.

Section Lex.
Context (buf : list Z) (Hbuf : Forall byte_ok buf).

Lemma run_ends_suffix p w r bp : drop bp buf = w ++ r -> match r with [] => True | b :: _ => p b = false end ->
  run_ends p r.
Proof.
  intros Hd Hr. destruct r as [|b r]; [done|]. split; [|done].
  assert (Hall : Forall byte_ok (w ++ b :: r)) by (rewrite <- Hd; by apply Forall_drop).
  apply Forall_app in Hall as [_ Hall]. by apply Forall_inv in Hall.
Qed.

Lemma drop_after bp w r : drop bp buf = w ++ r -> drop (bp + length w) buf = r.
Proof. intros Hd. by rewrite <- drop_drop, Hd, drop_app_length. Qed.

(** One call of the scanner gives the next token of the specification. *)
Lemma yylex_spec n : forall bp fuel, (length (drop bp buf) <= n)%nat -> (bp <= length buf)%nat ->
  (length (drop bp buf) < fuel)%nat ->
  match spec_lex n (drop bp buf) with
  | [] => exists cp, yylex fuel buf bp = Some (None, cp)
  | t :: ts => exists cp, yylex fuel buf bp = Some (Some t, cp) /\ (bp < cp <= length buf)%nat /\
      spec_file (drop cp buf) = ts
  end.
Proof.
  induction n as [|n IH]; intros bp fuel Hn Hbp Hf; (destruct fuel as [|fuel]; [lia|]).
  { assert (Hl : (length buf <= bp)%nat) by (rewrite length_drop in Hn; lia).
    cbn [spec_lex]. exists bp. cbn [yylex]. by rewrite yy_scan_eof. }
  destruct (drop bp buf) as [|b l] eqn:Ed.
  { assert (Hl : (length buf <= bp)%nat) by (apply (f_equal length) in Ed; rewrite length_drop in Ed; cbn in Ed; lia).
    exists bp. cbn [yylex]. by rewrite yy_scan_eof. }
  assert (Hall : Forall byte_ok (b :: l)) by (rewrite <- Ed; by apply Forall_drop).
  apply Forall_cons_1 in Hall as [Hb Hl]. pose proof (first_at b Hb) as Hfst. unfold first_ok in Hfst.
  cbn in Hn, Hf. cbn [spec_lex yylex].
  assert (Hlen : (length buf - bp = S (length l))%nat)
    by (apply (f_equal length) in Ed; rewrite length_drop in Ed; done).
  destruct (is_space b) eqn:Esp.
  - apply bool_decide_eq_true in Hfst. destruct (span is_space l) as [w r] eqn:Es.
    destruct (span_spec _ _ _ _ Es) as (El & Hw & Hr). subst l. cbn [snd].
    assert (Hends := run_ends_suffix is_space (b :: w) r bp Ed Hr).
    rewrite (yy_scan_run _ _ sp_class buf Hbuf bp b w r) by done.
    assert (Hin : foldl delta 1 (b :: w) ∈ sp_states).
    { apply Forall_app in Hl as [Hl _]. by apply (class_run _ is_space sp_class (delta 1 b) w). }
    assert (Hacc : at_ yy_accept (foldl delta 1 (b :: w)) = 8).
    { assert (Hsp : forallb (fun s => at_ yy_accept s =? 8) sp_states = true) by reflexivity.
      apply (forallb_at _ _ _ Hsp) in Hin. by apply Z.eqb_eq. }
    rewrite Hacc. cbn iota. change (8 =? 0) with false. change (8 =? 10) with false. cbn iota beta.
    change (yy_action 8 buf bp (bp + S (length w))) with (@None token). cbn iota.
    assert (Edr := drop_after bp (b :: w) r Ed). cbn [length] in Edr. rewrite length_app in *.
    specialize (IH (bp + S (length w))%nat fuel). rewrite Edr in IH.
    specialize (IH ltac:(lia) ltac:(lia) ltac:(lia)).
    destruct (spec_lex n r); [exact IH|]. destruct IH as (cp & H1 & H2 & H3).
    exists cp. split_and!; try done; lia.
  - destruct (is_letter b) eqn:Ele.
    + apply andb_true_iff in Hfst as [Hfst _]. apply bool_decide_eq_true in Hfst.
      destruct (span is_idchar l) as [w r] eqn:Es.
      destruct (span_spec _ _ _ _ Es) as (El & Hw & Hr). subst l.
      assert (Hends := run_ends_suffix is_idchar (b :: w) r bp Ed Hr).
      rewrite (yy_scan_run _ _ id_class buf Hbuf bp b w r) by done.
      apply Forall_app in Hl as [Hlw _]. rewrite word_rule_ok by done.
      pose proof (word_rule_range (b :: w)) as Hrange.
      destruct (Z.eqb_spec (word_rule (b :: w)) 0); [lia|].
      destruct (Z.eqb_spec (word_rule (b :: w)) 10); [lia|].
      pose proof (word_action buf bp (b :: w) r Ed) as Ha. cbn [length] in Ha. rewrite Ha.
      exists (bp + S (length w))%nat. rewrite length_app in *. split_and!; [done | lia | lia |].
      pose proof (drop_after bp (b :: w) r Ed) as Edr. cbn [length] in Edr. rewrite Edr.
      apply spec_lex_fuel; lia.
    + apply Z.eqb_eq in Hfst. rewrite (yy_scan_char buf bp b l Ed Hfst).
      change (9 =? 0) with false. change (9 =? 10) with false. cbn iota.
      destruct (buf_at_drop _ _ _ _ Ed) as [Eb Ed'].
      change (yy_action 9 buf bp (S bp)) with (Some (tk (schar (buf_at buf bp)))). rewrite Eb.
      exists (S bp). split_and!; [done | lia | lia |]. rewrite Ed'. apply spec_lex_fuel; lia.
Qed.

Lemma yylex_all_spec fuel : forall bp, (bp <= length buf)%nat -> (length buf - bp < fuel)%nat ->
  yylex_all fuel buf bp = Some (spec_file (drop bp buf)).
Proof.
  induction fuel as [|fuel IH]; intros bp Hbp Hf; [lia|]. cbn [yylex_all].
  pose proof (yylex_spec (length (drop bp buf)) bp (S (length buf))) as H.
  specialize (H ltac:(lia) Hbp ltac:(rewrite length_drop; lia)). fold (spec_file (drop bp buf)) in H.
  destruct (spec_file (drop bp buf)) as [|t ts].
  - destruct H as [cp ->]. done.
  - destruct H as (cp & -> & Hcp & Hts). rewrite IH by lia. cbn. by rewrite Hts.
Qed.
End Lex.

(** C7: the lexer implements workflow.l.  On a file without NUL bytes the scanner
    always returns and its tokens are the longest-match ones: white space is
    skipped, a letter starts a word that runs over letters, digits and
    underscores and is a keyword or a name, and any other byte is a token of its
    own with the value of the signed character. *)
Theorem lex_file_correct buf :
  Forall byte_ok buf -> lex_file buf = Some (spec_file buf).
Proof. intros Hb. unfold lex_file. rewrite yylex_all_spec by (done || lia). done. Qed.

Lemma lex_file_correct_witness :
  lex_file (bytes_of "workflow w { if whileA { return } }") =
    Some (spec_file (bytes_of "workflow w { if whileA { return } }")).
Proof.
  apply lex_file_correct. apply (bool_decide_unpack _). vm_compute. exact I.
Defined.
