(* ===== verification/Frontend.v ===== *)
(** * The front end as a whole: src/orc/workflow/parser/compiler.c, src/orc/workflow/compiler.cc

    [workflow_compile] reads a file with the lexer and the parser;
    [Compiler::Compile] compiles the workflows it holds.  What the debug printer
    writes for a workflow is read back as the same workflow. *)
From Stdlib Require Import ZArith Lia.
From stdpp Require Import base gmap list strings option relations.
From S2P Require Import Prelude Graph Syntax Compiler Semantics CompilerCorrect Preservation Parser ParserCorrect Lexer LexerCorrect.

(** [workflow_compile]: the result of [yyparse] and the root; a file that cannot
    be opened gives -1. *)
Definition workflow_compile (file : option (list Z)) (rt : workflow_syntax) : option (Z * workflow_syntax) :=
  match file with
  | None => Some ((-1)%Z, rt)
  | Some buf =>
      match lex_file buf with
      | None => None
      | Some toks => yyparse (parse_fuel toks) toks rt
      end
  end.

(** [Compiler::Compile]. *)
Definition Compile (file : option (list Z)) (graphs : gmap string Graph) : option (bool * gmap string Graph) :=
  match workflow_compile file new_stmt_list with
  | None => None
  | Some (r, node) => if (r =? 0)%Z then Some (CompileInner node graphs) else Some (false, graphs)
  end.

(** ** Printable trees *)

(** A name that the lexer reads as a name. *)
Definition ident (s : string) : bool :=
  match bytes_of s with
  | b :: w => is_letter b && forallb is_idchar w && (word_rule (b :: w) =? 7)%Z
  | [] => false
  end.

Fixpoint good_exp (s : workflow_syntax) : bool :=
  match s with
  | NAME n => ident n
  | UNOP_EXP o e => (o =? OPKIND_NOT)%Z && good_exp e
  | _ => false
  end.

Fixpoint good_stmt (s : workflow_syntax) : bool :=
  match s with
  | NAME _ | UNOP_EXP _ _ => good_exp s
  | RETURN_STMT => true
  | IF_STMT c t e =>
      good_exp c && match t with STMT_LIST l => forallb good_stmt l | _ => false end &&
      match e with
      | EMPTY_STMT => true
      | STMT_LIST l => forallb good_stmt l
      | IF_STMT _ _ _ => good_stmt e
      | _ => false
      end
  | WHILE_STMT c b => good_exp c && match b with STMT_LIST l => forallb good_stmt l | _ => false end
  | DOWHILE_STMT b c => good_exp c && match b with STMT_LIST l => forallb good_stmt l | _ => false end
  | _ => false
  end.

Definition good_workflow (s : workflow_syntax) : bool :=
  match s with
  | WORKFLOW (NAME n) (STMT_LIST l) => ident n && forallb good_stmt l
  | _ => false
  end.

(** The tokens of a tree and the stack its parse needs. *)
Fixpoint tokens (s : workflow_syntax) : list token :=
  match s with
  | NAME n => [tk_name n]
  | UNOP_EXP _ e => tk T_NOT :: tokens e
  | STMT_LIST l => tk T_LBRACE :: foldr (fun s ts => tokens s ++ ts) [] l ++ [tk T_RBRACE]
  | IF_STMT c t e =>
      tk T_IF :: tokens c ++ tokens t ++
      match e with EMPTY_STMT => [] | _ => tk T_ELSE :: tokens e end
  | WHILE_STMT c b => tk T_WHILE :: tokens c ++ tokens b
  | DOWHILE_STMT b c => tk T_DO :: tokens b ++ tk T_WHILE :: tokens c
  | RETURN_STMT => [tk T_RETURN]
  | WORKFLOW n b => tk T_WORKFLOW :: tokens n ++ tokens b
  | EMPTY_STMT => []
  end.

Fixpoint depth (s : workflow_syntax) : nat :=
  match s with
  | UNOP_EXP _ e => 2 + depth e
  | STMT_LIST l => 3 + foldl (fun d s => d `max` (2 + depth s)) 1 l
  | IF_STMT c t e => 4 + depth c `max` (depth t `max` match e with EMPTY_STMT => 1 | _ => 2 + depth e end)
  | WHILE_STMT c b => 3 + depth c `max` depth b
  | DOWHILE_STMT b c => 4 + depth b `max` depth c
  | WORKFLOW _ b => 4 + depth b
  | _ => 1
  end%nat.

Definition print_file (ws : list workflow_syntax) : string :=
  foldr (fun w out => print_node w ++ out)%string ""%string ws.
Definition file_tokens (ws : list workflow_syntax) : list token :=
  foldr (fun s ts => tokens s ++ ts) [] ws.
Definition file_depth (ws : list workflow_syntax) : nat :=
  foldl (fun d w => d `max` depth w) 0%nat ws.

(** ** The lexer on printed text *)

(** Text without NUL bytes that the lexer reads as the tokens [ts], whatever
    follows. *)
Definition lexes (s : string) (ts : list token) : Prop :=
  Forall byte_ok (bytes_of s) /\ forall r, spec_file (bytes_of s ++ r) = ts ++ spec_file r.

Lemma bytes_of_app a b : bytes_of (a ++ b) = bytes_of a ++ bytes_of b.
Proof. induction a as [|c a IH]; [done|]. change (bytes_of (String c (a ++ b)) = Z.of_N (Ascii.N_of_ascii c) :: bytes_of a ++ bytes_of b). cbn. by rewrite <- IH. Qed.

Lemma lexes_app a b ta tb : lexes a ta -> lexes b tb -> lexes (a ++ b)%string (ta ++ tb).
Proof.
  intros [Ca Ha] [Cb Hb]. split; [rewrite bytes_of_app; by apply list.Forall_app|].
  intros r. rewrite bytes_of_app, <- !app_assoc, Ha, Hb. done.
Qed.

Lemma lexes_nil : lexes "" [].
Proof. split; [constructor | done]. Qed.

Ltac clean_text := apply (bool_decide_unpack _); vm_compute; exact I.

Lemma spec_skip n l : (length l <= n)%nat -> spec_lex n (span is_space l).2 = spec_lex n l.
Proof.
  intros Hn. destruct l as [|c r]; [done|]. cbn [span]. destruct (is_space c) eqn:Ec; [|done].
  cbn in Hn. destruct n as [|n]; [lia|]. pose proof (span_length is_space r) as Hs.
  transitivity (spec_lex n (span is_space r).2).
  - destruct (span is_space r) as [w r']. apply spec_lex_fuel; cbn in *; lia.
  - cbn [spec_lex]. by rewrite Ec.
Qed.

(** White space is skipped. *)
Lemma spec_space b r : is_space b = true -> spec_file (b :: r) = spec_file r.
Proof. intros Hb. unfold spec_file. cbn. rewrite Hb. by apply spec_skip. Qed.

(** A character that is neither white space nor a letter is a token. *)
Lemma spec_char b r : is_space b = false -> is_letter b = false -> spec_file (b :: r) = tk (schar b) :: spec_file r.
Proof. intros H1 H2. unfold spec_file. cbn. by rewrite H1, H2. Qed.

Lemma letter_not_space b : is_letter b = true -> is_space b = false.
Proof. unfold is_letter, is_space. lia. Qed.

Lemma span_all p w b r : forallb p w = true -> p b = false -> span p (w ++ b :: r) = (w, b :: r).
Proof.
  intros Hw Hb. induction w as [|c w IH]; cbn; [by rewrite Hb|].
  cbn in Hw. apply andb_true_iff in Hw as [-> Hw]. by rewrite IH.
Qed.

(** A word that white space ends. *)
Lemma spec_word b w c r : is_letter b = true -> forallb is_idchar w = true -> is_space c = true ->
  spec_file (b :: w ++ c :: r) = word_token (b :: w) :: spec_file r.
Proof.
  intros Hb Hw Hc. rewrite <- (spec_space c r Hc). unfold spec_file at 1. cbn [length spec_lex].
  rewrite (letter_not_space b Hb), Hb.
  rewrite span_all; [|done | unfold is_space in Hc; unfold is_idchar, is_letter; lia].
  f_equal. apply spec_lex_fuel; rewrite ?length_app; cbn; lia.
Qed.

(** The pieces the printer writes. *)
Lemma lexes_keyword s t : (s, t) ∈ [("workflow ", tk T_WORKFLOW); ("if ", tk T_IF); ("while ", tk T_WHILE);
    ("do ", tk T_DO); ("else" ++ nl, tk T_ELSE); ("return" ++ nl, tk T_RETURN)]%string -> lexes s [t].
Proof.
  intros H. repeat (apply elem_of_cons in H as [[= -> ->] | H]); [.. | by apply not_elem_of_nil in H];
    (split; [clean_text | intros r]);
    [exact (spec_word 119 [111; 114; 107; 102; 108; 111; 119] 32 r eq_refl eq_refl eq_refl)%Z
    |exact (spec_word 105 [102] 32 r eq_refl eq_refl eq_refl)%Z
    |exact (spec_word 119 [104; 105; 108; 101] 32 r eq_refl eq_refl eq_refl)%Z
    |exact (spec_word 100 [111] 32 r eq_refl eq_refl eq_refl)%Z
    |exact (spec_word 101 [108; 115; 101] 10 r eq_refl eq_refl eq_refl)%Z
    |exact (spec_word 114 [101; 116; 117; 114; 110] 10 r eq_refl eq_refl eq_refl)%Z].
Qed.

Lemma lexes_not : lexes "!" [tk T_NOT].
Proof. split; [clean_text|]. intros r. exact (spec_char 33 r eq_refl eq_refl). Qed.
Lemma lexes_open : lexes ("{" ++ nl) [tk T_LBRACE].
Proof. split; [clean_text|]. intros r. etransitivity; [exact (spec_char 123 (10%Z :: r) eq_refl eq_refl)|]. by rewrite spec_space. Qed.
Lemma lexes_close : lexes ("}" ++ nl) [tk T_RBRACE].
Proof. split; [clean_text|]. intros r. etransitivity; [exact (spec_char 125 (10%Z :: r) eq_refl eq_refl)|]. by rewrite spec_space. Qed.

Lemma string_of_bytes s : string_of (bytes_of s) = s.
Proof.
  induction s as [|a s IH]; [done|]. unfold string_of in *. cbn. rewrite IH. f_equal. unfold ascii_of.
  rewrite N2Z.id. apply Ascii.ascii_N_embedding.
Qed.

Lemma ident_bytes n : ident n = true -> Forall byte_ok (bytes_of n).
Proof.
  unfold ident. destruct (bytes_of n) as [|b w]; [done|].
  intros [[Hb Hw]%andb_true_iff _]%andb_true_iff.
  assert (Hid : forall c, is_idchar c = true -> byte_ok c) by (unfold is_idchar, is_letter, byte_ok; lia).
  constructor; [apply Hid; unfold is_idchar; by rewrite Hb|].
  apply list.Forall_forall. intros c Hc. apply Hid. rewrite forallb_forall in Hw. by apply Hw, list_elem_of_In.
Qed.

Lemma lexes_name n : ident n = true -> lexes (n ++ nl) [tk_name n].
Proof.
  intros Hi. split; [rewrite bytes_of_app; apply list.Forall_app; split; [by apply ident_bytes | clean_text]|].
  intros r. unfold ident in Hi. rewrite bytes_of_app. destruct (bytes_of n) as [|b w] eqn:Eb; [done|].
  apply andb_true_iff in Hi as [Hi Hk]. apply andb_true_iff in Hi as [Hb Hw]. apply Z.eqb_eq in Hk.
  rewrite <- app_assoc. etransitivity; [exact (spec_word b w 10 r Hb Hw eq_refl)|].
  unfold word_token. rewrite Hk, <- Eb, string_of_bytes. done.
Qed.

(** ** The round trip *)

(** The printed text of a list of statements. *)
Lemma lexes_list l : Forall (fun s => lexes (print_node s) (tokens s)) l ->
  lexes (foldr (fun s out => print_node s ++ out)%string ""%string l) (foldr (fun s ts => tokens s ++ ts) [] l).
Proof. induction 1 as [|s l Hs _ IH]; [apply lexes_nil | by apply lexes_app]. Qed.

Lemma lexes_block l : Forall (fun s => lexes (print_node s) (tokens s)) l ->
  lexes (print_node (STMT_LIST l)) (tokens (STMT_LIST l)).
Proof.
  intros Hl. change (tokens (STMT_LIST l)) with ([tk T_LBRACE] ++ foldr (fun s ts => tokens s ++ ts) [] l ++ [tk T_RBRACE]).
  change (print_node (STMT_LIST l)) with
    (("{" ++ nl) ++ foldr (fun s out => print_node s ++ out) "" l ++ ("}" ++ nl))%string.
  apply lexes_app; [apply lexes_open|]. apply lexes_app; [by apply lexes_list | apply lexes_close].
Qed.

Lemma good_exp_lexes e : good_exp e = true -> lexes (print_node e) (tokens e).
Proof.
  induction e using syntax_ind; intros Hg; try discriminate Hg; cbn in Hg.
  - by apply lexes_name.
  - apply andb_true_iff in Hg as [Ho%Z.eqb_eq Hg]. subst o.
    change (print_node (UNOP_EXP OPKIND_NOT e)) with ("!" ++ print_node e)%string.
    change (tokens (UNOP_EXP OPKIND_NOT e)) with ([tk T_NOT] ++ tokens e).
    apply lexes_app; [apply lexes_not | by apply IHe].
Qed.

(** A good block, given its statements. *)
Definition good_block (s : workflow_syntax) : bool :=
  match s with STMT_LIST l => forallb good_stmt l | _ => false end.

Ltac keyword := apply lexes_keyword; vm_compute; set_solver.

Lemma Forall_good l (P : workflow_syntax -> Prop) :
  Forall (fun s => good_stmt s = true -> P s) l -> forallb good_stmt l = true -> Forall P l.
Proof.
  induction 1 as [|s l Hs _ IH]; intros Hg; [constructor|]. cbn in Hg. apply andb_true_iff in Hg as [? ?].
  constructor; auto.
Qed.

Lemma good_lexes s :
  (good_stmt s = true -> lexes (print_node s) (tokens s)) /\
  (good_block s = true -> lexes (print_node s) (tokens s)).
Proof.
  induction s using syntax_ind; (split; intros Hg; try discriminate Hg).
  - by apply lexes_name.
  - apply lexes_block. apply (Forall_good l); [|done]. eapply Forall_impl; [|exact H]. by intros ? [? _].
  - cbn in Hg. apply andb_true_iff in Hg as [Hg He]. apply andb_true_iff in Hg as [Hc Ht].
    destruct IHs2 as [_ IHt], IHs3 as [IHe1 IHe2].
    change (print_node (IF_STMT s1 s2 s3)) with ("if " ++ print_node s1 ++ print_node s2 ++
      match s3 with EMPTY_STMT => "" | _ => "else" ++ nl ++ print_node s3 end)%string.
    change (tokens (IF_STMT s1 s2 s3)) with ([tk T_IF] ++ tokens s1 ++ tokens s2 ++
      match s3 with EMPTY_STMT => [] | _ => [tk T_ELSE] ++ tokens s3 end).
    apply lexes_app; [keyword|]. apply lexes_app; [by apply good_exp_lexes|]. apply lexes_app; [by apply IHt|].
    destruct s3; try discriminate He; [apply lexes_nil | |];
      (apply (lexes_app ("else" ++ nl)); [keyword | auto]).
  - cbn in Hg. apply andb_true_iff in Hg as [Hc Hb]. destruct IHs2 as [_ IHb].
    change (print_node (WHILE_STMT s1 s2)) with ("while " ++ print_node s1 ++ print_node s2)%string.
    change (tokens (WHILE_STMT s1 s2)) with ([tk T_WHILE] ++ tokens s1 ++ tokens s2).
    apply lexes_app; [keyword|]. apply lexes_app; [by apply good_exp_lexes | by apply IHb].
  - cbn in Hg. apply andb_true_iff in Hg as [Hc Hb]. destruct IHs1 as [_ IHb].
    change (print_node (DOWHILE_STMT s1 s2)) with ("do " ++ print_node s1 ++ "while " ++ print_node s2)%string.
    change (tokens (DOWHILE_STMT s1 s2)) with ([tk T_DO] ++ tokens s1 ++ [tk T_WHILE] ++ tokens s2).
    apply lexes_app; [keyword|]. apply lexes_app; [by apply IHb|]. apply lexes_app; [keyword | by apply good_exp_lexes].
  - keyword.
  - by apply good_exp_lexes.
Qed.

Lemma good_exp_derives e : good_exp e = true -> derives Exp e (tokens e) (depth e).
Proof.
  induction e using syntax_ind; intros Hg; try discriminate Hg; cbn in Hg; [constructor|].
  apply andb_true_iff in Hg as [Ho%Z.eqb_eq Hg]. subst o. cbn [tokens depth]. apply d_not. auto.
Qed.

Lemma derives_list l : Forall (fun s => derives Stmt s (tokens s) (depth s)) l ->
  derives Stmts (STMT_LIST l) (foldr (fun s ts => tokens s ++ ts) [] l)
          (foldl (fun d s => d `max` (2 + depth s)) 1 l)%nat.
Proof.
  induction l as [|s l IH] using rev_ind; intros Hl; [constructor|].
  apply list.Forall_app in Hl as [Hl Hs]. apply Forall_inv in Hs.
  rewrite foldl_app. rewrite foldr_app. cbn. rewrite app_nil_r.
  replace (foldr (fun s ts => tokens s ++ ts) (tokens s) l)
    with (foldr (fun s ts => tokens s ++ ts) [] l ++ tokens s).
  - apply d_snoc; auto.
  - clear. induction l as [|x l IH]; [done|]. cbn. by rewrite <- IH, app_assoc.
Qed.

Lemma good_derives s :
  (good_stmt s = true -> derives Stmt s (tokens s) (depth s) /\
     match s with IF_STMT _ _ _ => derives Ifstmt s (tokens s) (depth s) | _ => True end) /\
  (good_block s = true -> derives Block s (tokens s) (depth s)).
Proof.
  induction s using syntax_ind; (split; intros Hg; try discriminate Hg).
  - split; [apply d_stmt_exp; by apply good_exp_derives | done].
  - cbn [tokens depth]. apply d_block, derives_list. apply (Forall_good l); [|done].
    eapply Forall_impl; [|exact H]. intros ? [Hs _] Hgs. by apply Hs.
  - cbn in Hg. apply andb_true_iff in Hg as [Hg He]. apply andb_true_iff in Hg as [Hc Ht].
    destruct IHs2 as [_ IHt], IHs3 as [IHe1 IHe2].
    assert (Hi : derives Ifstmt (IF_STMT s1 s2 s3) (tokens (IF_STMT s1 s2 s3)) (depth (IF_STMT s1 s2 s3))).
    { apply d_ifstmt; [by apply good_exp_derives | by apply IHt |].
      destruct s3; try discriminate He; [apply d_else_none | apply d_else_block; auto | apply d_else_if].
      by apply IHe1. }
    split; [by apply d_stmt_if | exact Hi].
  - cbn in Hg. apply andb_true_iff in Hg as [Hc Hb]. split; [|done]. apply d_while; [by apply good_exp_derives | by apply IHs2].
  - cbn in Hg. apply andb_true_iff in Hg as [Hc Hb]. split; [|done]. apply d_do; [by apply IHs1 | by apply good_exp_derives].
  - split; [apply d_return | done].
  - split; [apply d_stmt_exp; by apply good_exp_derives | done].
Qed.

Lemma good_workflow_inv w : good_workflow w = true ->
  exists n l, w = WORKFLOW (NAME n) (STMT_LIST l) /\ ident n = true /\ good_block (STMT_LIST l) = true.
Proof.
  destruct w as [| |[] []| | | | | |]; try done. cbn. intros [? ?]%andb_true_iff. eauto.
Qed.

Lemma workflow_lexes w : good_workflow w = true -> lexes (print_node w) (tokens w).
Proof.
  intros (n & l & -> & Hn & Hl)%good_workflow_inv.
  change (print_node (WORKFLOW (NAME n) (STMT_LIST l)))
    with ("workflow " ++ (n ++ nl) ++ print_node (STMT_LIST l))%string.
  change (tokens (WORKFLOW (NAME n) (STMT_LIST l))) with ([tk T_WORKFLOW] ++ [tk_name n] ++ tokens (STMT_LIST l)).
  apply lexes_app; [keyword|]. apply lexes_app; [by apply lexes_name | by apply good_lexes].
Qed.

Lemma file_lexes ws : Forall (fun w => good_workflow w = true) ws -> lexes (print_file ws) (file_tokens ws).
Proof.
  intros H. apply lexes_list. eapply Forall_impl; [|exact H]. apply workflow_lexes.
Qed.

Lemma file_derives ws : Forall (fun w => good_workflow w = true) ws ->
  derives_file ws (file_tokens ws) (file_depth ws).
Proof.
  unfold file_tokens, file_depth. induction ws as [|w ws IH] using rev_ind; intros H; [constructor|].
  apply list.Forall_app in H as [Hws Hw]. apply Forall_inv in Hw.
  destruct (good_workflow_inv w Hw) as (n & l & -> & _ & Hl).
  rewrite foldl_app, foldr_app. cbn [foldl foldr]. rewrite app_nil_r.
  replace (foldr (fun s ts => tokens s ++ ts) (tokens (WORKFLOW (NAME n) (STMT_LIST l))) ws)
    with (foldr (fun s ts => tokens s ++ ts) [] ws ++ tk T_WORKFLOW :: tk_name n :: tokens (STMT_LIST l)).
  - apply d_file_snoc; [by apply IH | by apply good_derives].
  - clear. induction ws as [|x ws IH]; [done|]. cbn [foldr]. by rewrite <- IH, app_assoc.
Qed.

(** Derivable tokens come from a lexer. *)
Lemma derives_lexed N s ts d : derives N s ts d -> Forall lexed ts.
Proof.
  assert (Hk : forall c, (0 < c <= 255 \/ 258 < c <= 264)%Z -> lexed (tk c)) by (intros c Hc; right; eauto).
  induction 1; repeat first [apply list.Forall_app; split | apply list.Forall_cons; split | apply list.Forall_nil];
    try done; try (left; by eexists);
    apply Hk; unfold T_NOT, T_LPAREN, T_RPAREN, T_LBRACE, T_RBRACE, T_WHILE, T_DO, T_RETURN, T_IF, T_ELSE; lia.
Qed.

Lemma derives_file_lexed ws ts d : derives_file ws ts d -> Forall lexed ts.
Proof.
  induction 1 as [|ws ts nm b tb d1 d2 _ IH Hb]; [constructor|].
  apply list.Forall_app; split; [done|]. constructor; [right; exists T_WORKFLOW; split; [unfold T_WORKFLOW; lia | done]|].
  constructor; [left; by eexists | by eapply derives_lexed].
Qed.


(** What the front end does with a printed file. *)
Lemma print_lex_parse ws :
  Forall (fun w => good_workflow w = true) ws -> (Z.of_nat (4 + file_depth ws) < YYMAXDEPTH)%Z ->
  workflow_compile (Some (bytes_of (print_file ws))) new_stmt_list = Some (0%Z, STMT_LIST ws).
Proof.
  intros Hg Hd. destruct (file_lexes ws Hg) as [Hc Hl]. assert (Hf := file_derives ws Hg).
  unfold workflow_compile, lex_file. rewrite yylex_all_spec by (done || lia).
  specialize (Hl []). rewrite !app_nil_r in Hl. rewrite drop_0, Hl.
  apply (yyparse_complete _ _ _ (derives_file_lexed _ _ _ Hf) Hf Hd).
Qed.

(** C9: print and parse.  The debug printer's text of any list of well-shaped
    workflows (names the lexer reads as names, blocks where the grammar has
    blocks) is read back by the lexer and the parser as exactly these
    workflows. *)
Theorem print_parse_roundtrip ws :
  Forall (fun w => good_workflow w = true) ws -> (Z.of_nat (4 + file_depth ws) < YYMAXDEPTH)%Z ->
  workflow_compile (Some (bytes_of (print_file ws))) new_stmt_list = Some (0%Z, STMT_LIST ws).
Proof. apply print_lex_parse. Qed.

Definition sample_file : list workflow_syntax :=
  [WORKFLOW (NAME "w1") (STMT_LIST [IF_STMT (UNOP_EXP 0 (NAME "A")) (STMT_LIST [NAME "B"; RETURN_STMT])
     (IF_STMT (NAME "C") (STMT_LIST [NAME "D"]) EMPTY_STMT)]);
   WORKFLOW (NAME "w2") (STMT_LIST [DOWHILE_STMT (STMT_LIST [NAME "ifx"]) (NAME "E")])].

Lemma print_parse_roundtrip_witness :
  workflow_compile (Some (bytes_of (print_file sample_file))) new_stmt_list = Some (0%Z, STMT_LIST sample_file).
Proof.
  apply (print_parse_roundtrip sample_file).
  - apply (bool_decide_unpack _). vm_compute. exact I.
  - vm_compute. reflexivity.
Defined.

(** From source text to behaviour.  When the text of well-shaped workflows
    compiles, every workflow of the file has a graph whose complete runs are the
    executions of its source. *)
Lemma Compile_source ws gs graphs :
  Forall (fun w => good_workflow w = true) ws -> (Z.of_nat (4 + file_depth ws) < YYMAXDEPTH)%Z ->
  graphs_ok gs -> Compile (Some (bytes_of (print_file ws))) gs = Some (true, graphs) ->
  graphs_ok graphs /\
  Forall (fun w => exists nm l g, w = WORKFLOW (NAME nm) (STMT_LIST l) /\ graphs !! nm = Some g /\
    (entry g <> PNull -> forall (S : Type) (run : string -> S -> bool * S) s s',
       rtc (gstep run (nodes g)) (entry g, s) (PEnd, s') <-> exists o, exec_block run l s o s')) ws.
Proof.
  intros Hg Hd Hgs HC. unfold Compile in HC. rewrite print_lex_parse in HC by done.
  change ((0 =? 0)%Z) with true in HC. cbn iota in HC. injection HC as HC.
  destruct (workflow_loop_spec ws gs Hgs) as (Hok & _ & Himp). cbn in HC. rewrite HC in Hok, Himp. cbn in Hok, Himp.
  split; [done|]. eapply Forall_impl; [|by apply Himp].
  intros w (nm & l & g & -> & Hgm & Hb). destruct (Hok _ _ Hgm) as (_ & Hw & Hv).
  exists nm, l, g. split_and!; try done. intros He S run s s'. by apply graph_exec.
Qed.

Lemma Compile_source_witness : graphs_ok {["w" := sample_graph]}.
Proof.
  apply (Compile_source [sample] ∅ {["w" := sample_graph]}).
  - apply (bool_decide_unpack _). vm_compute. exact I.
  - vm_compute. reflexivity.
  - apply map_Forall_empty.
  - vm_compute. reflexivity.
Defined.

(** A byte above 127 (or a NUL) outside a word ends the file silently: the
    parser takes its negative code for the end of the input and accepts what came
    before, whatever follows. *)
Lemma high_byte_truncates :
  workflow_compile (Some (bytes_of "workflow a { A } " ++ [195%Z; 169%Z] ++ bytes_of " workflow b { B } }}}")) new_stmt_list
  = Some (0%Z, STMT_LIST [WORKFLOW (NAME "a") (STMT_LIST [NAME "A"])]).
Proof. vm_compute. reflexivity. Qed.
