(* ===== verification/Bucket.v ===== *)
(** * Hash table buckets: src/qed/bucket.h and the records of src/qed/protocol.h

    A bucket packs the high bits of a key with the id of the next bucket, and a
    7-bit size with the flag that says which table the next bucket is in. *)
From Stdlib Require Import ZArith Lia.
From stdpp Require Import base numbers list.
From S2P Require Import Prelude Words.

Local Open Scope Z_scope.

(** [struct RawBucket]; [payload] is a bit field of 56 bits. *)
Record RawBucket : Type := mkRawBucket {
  key_info_field : Z;
  size_field : Z;
  payload : Z;
}.

Definition new_RawBucket : RawBucket := mkRawBucket 0 0 0.

(** Assignments to the members. *)
Definition set_key_info_field (x : Z) (b : RawBucket) : RawBucket :=
  mkRawBucket x (size_field b) (payload b).
Definition set_size_field (x : Z) (b : RawBucket) : RawBucket :=
  mkRawBucket (key_info_field b) x (payload b).
Definition set_payload (x : Z) (b : RawBucket) : RawBucket :=
  mkRawBucket (key_info_field b) (size_field b) (wrap 56 x).

(** [size_filed_hi_mask_]. *)
Definition size_filed_hi_mask : Z := 128.

(** [__sync_bool_compare_and_swap]: the result and the new value of the cell. *)
Definition compare_and_swap (cell expected desired : Z) : bool * Z :=
  if cell =? expected then (true, desired) else (false, cell).

(** ** [Bucket<n>] *)

Module Bucket.
Section Fields.
Context (n : Z).
Abbreviation mask := (hi_mask n).

Definition next_bucket_is_internal (b : RawBucket) : bool :=
  negb (Z.land (size_field b) size_filed_hi_mask =? 0).
Definition size (b : RawBucket) : Z := Z.land (size_field b) (compl 8 size_filed_hi_mask).
Definition next_bucket_id (b : RawBucket) : Z := Z.land (key_info_field b) (compl 64 mask).
Definition key_high_bits (b : RawBucket) : Z := Z.land (key_info_field b) mask.
Definition match_high_bits (key : Z) (b : RawBucket) : bool := key_high_bits b =? Z.land key mask.

(** [next_bucket]: which table, and the index there. *)
Definition next_bucket (b : RawBucket) : bool * Z := (next_bucket_is_internal b, next_bucket_id b).

Definition with_size (size_field sz : Z) : Z :=
  Z.lor (Z.land size_field size_filed_hi_mask) (Z.land sz (compl 8 size_filed_hi_mask)).
Definition with_internal (size_field : Z) (internal : bool) : Z :=
  if internal then Z.lor size_field size_filed_hi_mask
  else Z.land size_field (compl 8 size_filed_hi_mask).

Definition SetSize (sz : Z) (b : RawBucket) : RawBucket :=
  set_size_field (with_size (size_field b) sz) b.
Definition SetKey (key : Z) (b : RawBucket) : RawBucket :=
  set_key_info_field (Z.lor (Z.land key mask) (next_bucket_id b)) b.
Definition SetNextBucketId (id : Z) (internal : bool) (b : RawBucket) : RawBucket :=
  let b := set_size_field (with_internal (size_field b) internal) b in
  set_key_info_field (Z.lor (Z.land (key_info_field b) mask) (Z.land id (compl 64 mask))) b.

(** The [Try] variants swap in what they computed from the value they read;
    [seen] is that value. *)
Definition TrySetSize (seen sz : Z) (b : RawBucket) : bool * RawBucket :=
  let (ok, x) := compare_and_swap (size_field b) seen (with_size seen sz) in
  (ok, set_size_field x b).
Definition TrySetKey (seen key : Z) (b : RawBucket) : bool * RawBucket :=
  let (ok, x) := compare_and_swap (key_info_field b) seen
                   (Z.lor (Z.land key mask) (Z.land seen (compl 64 mask))) in
  (ok, set_key_info_field x b).
Definition TrySetNextBucketId (seen_size seen_key id : Z) (internal : bool) (b : RawBucket)
  : bool * RawBucket :=
  let (ok, x) := compare_and_swap (size_field b) seen_size (with_internal seen_size internal) in
  let b := set_size_field x b in
  if ok then
    let (ok, y) := compare_and_swap (key_info_field b) seen_key
                     (Z.lor (Z.land seen_key mask) (Z.land id (compl 64 mask))) in
    (ok, set_key_info_field y b)
  else (false, b).
End Fields.
End Bucket.

(** ** [WeakBucket]: the mask is an argument *)

Module WeakBucket.
Definition next_bucket_is_internal (b : RawBucket) : bool :=
  negb (Z.land (size_field b) size_filed_hi_mask =? 0).
Definition size (b : RawBucket) : Z := Z.land (size_field b) (compl 8 size_filed_hi_mask).
Definition next_bucket_id (mask : Z) (b : RawBucket) : Z := Z.land (key_info_field b) (compl 64 mask).
Definition key_high_bits (mask : Z) (b : RawBucket) : Z := Z.land (key_info_field b) mask.
Definition match_high_bits (mask key : Z) (b : RawBucket) : bool :=
  key_high_bits mask b =? Z.land key mask.
Definition next_bucket (mask : Z) (b : RawBucket) : bool * Z :=
  (next_bucket_is_internal b, next_bucket_id mask b).
End WeakBucket.

(** ** What the fields hold *)

(** A bucket whose members are words of their widths. *)
Definition bucket_ok (b : RawBucket) : Prop :=
  u64 (key_info_field b) /\ u8 (size_field b) /\ uint 56 (payload b).

(** The two parts of a size field. *)
Definition flag (sf : Z) : bool := 128 <=? sf.
Definition count (sf : Z) : Z := sf mod 128.

(** A property of all bytes is checked byte by byte. *)
Lemma u8_forall (P : Z -> bool) :
  forallb P (Z.of_nat <$> seq 0 256) = true -> forall x, u8 x -> P x = true.
Proof.
  intros HP x Hx. rewrite forallb_forall in HP. apply HP, list_elem_of_In.
  apply list_elem_of_fmap. exists (Z.to_nat x). unfold uint in Hx. split; [lia|].
  apply elem_of_seq. lia.
Qed.

Lemma land_size_hi x : u8 x -> negb (Z.land x size_filed_hi_mask =? 0) = flag x.
Proof.
  intros Hx. apply Bool.eqb_prop. revert x Hx.
  apply (u8_forall (fun x => Bool.eqb (negb (Z.land x size_filed_hi_mask =? 0)) (flag x))). by vm_compute.
Qed.

Lemma land_size_lo x : u8 x -> Z.land x (compl 8 size_filed_hi_mask) = count x.
Proof. intros Hx. apply Z.eqb_eq. revert x Hx. apply (u8_forall (fun x => _ =? _)). by vm_compute. Qed.

Lemma u8_split x : u8 x -> x = (if flag x then 128 else 0) + count x.
Proof. intros Hx. apply Z.eqb_eq. revert x Hx. apply (u8_forall (fun x => _ =? _)). by vm_compute. Qed.

Lemma count_bound x : 0 <= count x < 128.
Proof. unfold count. apply Z.mod_pos_bound. lia. Qed.

Lemma flag_count (f : bool) c : 0 <= c < 128 ->
  flag ((if f then 128 else 0) + c) = f /\ count ((if f then 128 else 0) + c) = c /\
  u8 ((if f then 128 else 0) + c).
Proof.
  intros Hc. unfold flag, count, uint. destruct f.
  - rewrite Z.add_comm. replace (c + 128) with (c + 1 * 128) by lia. rewrite Z.mod_add, Z.mod_small by lia.
    split_and!; lia.
  - rewrite Z.mod_small by lia. split_and!; lia.
Qed.

Lemma with_size_eq sf sz : u8 sf -> u8 sz ->
  Bucket.with_size sf sz = (if flag sf then 128 else 0) + count sz.
Proof.
  intros Hsf Hsz. unfold Bucket.with_size. rewrite land_size_lo by done.
  assert (E : Z.land sf size_filed_hi_mask = if flag sf then 128 else 0).
  { apply Z.eqb_eq. revert sf Hsf. apply (u8_forall (fun sf => _ =? _)). by vm_compute. }
  rewrite E. pose proof (count_bound sz). unfold count in *.
  destruct (flag sf); [|by rewrite Z.lor_0_l].
  pose proof (lor_high_low 7 128 sz ltac:(lia)) as L. unfold high, low in L.
  change (2 ^ 7 * (128 / 2 ^ 7)) with 128 in L. exact L.
Qed.

Lemma with_internal_eq sf i : u8 sf -> Bucket.with_internal sf i = (if i then 128 else 0) + count sf.
Proof.
  intros Hsf. destruct i; cbn; [|by rewrite land_size_lo].
  apply Z.eqb_eq. revert sf Hsf. apply (u8_forall (fun sf => _ =? _)). by vm_compute.
Qed.

(** The readers of a well-formed bucket. *)
Lemma internal_flag b : bucket_ok b -> WeakBucket.next_bucket_is_internal b = flag (size_field b).
Proof. intros (_ & Hs & _). by apply land_size_hi. Qed.

Lemma size_count b : bucket_ok b -> WeakBucket.size b = count (size_field b).
Proof. intros (_ & Hs & _). by apply land_size_lo. Qed.

Lemma next_id_low n b : 0 <= n <= 64 -> bucket_ok b ->
  WeakBucket.next_bucket_id (hi_mask n) b = low n (key_info_field b).
Proof. intros Hn (Hk & _). apply land_compl_hi_mask; unfold uint in *; lia. Qed.

Lemma high_bits_high n b : 0 <= n <= 64 -> bucket_ok b ->
  WeakBucket.key_high_bits (hi_mask n) b = high n (key_info_field b).
Proof. intros Hn (Hk & _). by apply land_hi_mask. Qed.

(** The pointer to the next bucket, as arithmetic. *)
Definition next_of (n : Z) (b : RawBucket) : bool * Z := (flag (size_field b), low n (key_info_field b)).

Lemma next_bucket_next_of n b : 0 <= n <= 64 -> bucket_ok b ->
  WeakBucket.next_bucket (hi_mask n) b = next_of n b.
Proof. intros Hn Hb. unfold WeakBucket.next_bucket. by rewrite internal_flag, next_id_low. Qed.

(** The packed fields of a bucket are independent.  Setting the key, the
    pointer or the size changes what the reader of that field sees and nothing
    that the readers of the others see, at every table size; and a [Try] variant
    whose bucket nobody else writes does what the plain one does. *)
Lemma bucket_fields_independent n b key id sz (i : bool) :
  0 < n < 64 -> bucket_ok b -> u64 key -> u64 id -> u8 sz ->
  (let b' := Bucket.SetKey n key b in
   bucket_ok b' /\ Bucket.key_high_bits n b' = high n key /\
   Bucket.next_bucket n b' = Bucket.next_bucket n b /\ Bucket.size b' = Bucket.size b /\
   payload b' = payload b) /\
  (let b' := Bucket.SetNextBucketId n id i b in
   bucket_ok b' /\ Bucket.next_bucket n b' = (i, low n id) /\
   Bucket.key_high_bits n b' = Bucket.key_high_bits n b /\ Bucket.size b' = Bucket.size b /\
   payload b' = payload b) /\
  (let b' := Bucket.SetSize sz b in
   bucket_ok b' /\ Bucket.size b' = sz mod 128 /\
   Bucket.next_bucket n b' = Bucket.next_bucket n b /\
   Bucket.key_high_bits n b' = Bucket.key_high_bits n b /\ payload b' = payload b) /\
  Bucket.TrySetKey n (key_info_field b) key b = (true, Bucket.SetKey n key b) /\
  Bucket.TrySetNextBucketId n (size_field b) (key_info_field b) id i b =
    (true, Bucket.SetNextBucketId n id i b) /\
  Bucket.TrySetSize (size_field b) sz b = (true, Bucket.SetSize sz b).
Proof.
  intros Hn Hb Hkey Hid Hsz. pose proof Hb as (Hk & Hs & Hp).
  unfold Bucket.TrySetKey, Bucket.TrySetNextBucketId, Bucket.TrySetSize, compare_and_swap.
  cbn [key_info_field size_field set_size_field]. rewrite !Z.eqb_refl.
  destruct (flag_count i (count (size_field b)) (count_bound _)) as (F1 & F2 & F3).
  destruct (flag_count (flag (size_field b)) (count sz) (count_bound _)) as (G1 & G2 & G3).
  unfold Bucket.next_bucket, Bucket.next_bucket_is_internal, Bucket.next_bucket_id, Bucket.size,
    Bucket.key_high_bits, Bucket.SetKey, Bucket.SetNextBucketId, Bucket.SetSize, Bucket.next_bucket_id,
    bucket_ok, set_key_info_field, set_size_field.
  cbn [key_info_field size_field payload].
  rewrite with_size_eq, with_internal_eq by done.
  pose proof (u64_join n key (key_info_field b) ltac:(lia) Hkey) as J1.
  pose proof (u64_join n (key_info_field b) id ltac:(lia) Hk) as J2.
  repeat first [ rewrite lor_high_low by lia
               | rewrite land_hi_mask by (unfold uint in *; lia)
               | rewrite land_compl_hi_mask by (unfold uint in *; lia) ].
  rewrite !land_size_hi, !land_size_lo by done. rewrite F1, F2, G1, G2.
  rewrite !high_join, !low_join by lia. by split_and!.
Qed.

(** A bucket of a table of 16 with key 0xab5, pointing to managed bucket 9. *)
Lemma bucket_fields_independent_witness :
  Bucket.next_bucket 4 (Bucket.SetKey 4 0xcd7 (mkRawBucket 0xab9 0x83 7)) = (true, 9).
Proof.
  pose proof (bucket_fields_independent 4 (mkRawBucket 0xab9 0x83 7) 0xcd7 5 3 false
    ltac:(lia) ltac:(unfold bucket_ok, uint; cbn; lia) ltac:(unfold uint; lia)
    ltac:(unfold uint; lia) ltac:(unfold uint; lia)) as ((_ & _ & H & _) & _).
  exact H.
Defined.
