(* ===== verification/Builder.v ===== *)
(** * The hash table and its builder: src/qed/{hashtable.h,builder.h,builder.cc,protocol.h}

    The builder keeps four memory-mapped tables: managed and free buckets, and
    for each of them the root bucket every slot belongs to.  The reader walks the
    chain of a key's root bucket.  The definitions run the code of one worker; a
    compare-and-swap meets the value that is in the cell. *)
From Stdlib Require Import ZArith Lia.
From stdpp Require Import base numbers list.
From S2P Require Import Prelude Words Bucket.

Local Open Scope Z_scope.

(** ** Memory *)

(** A table in a memory-mapped file. *)
Definition table (A : Type) : Type := Z -> A.
Definition upd {A} (i : Z) (x : A) (t : table A) : table A := fun j => if j =? i then x else t j.
Definition memset {A} (lo hi : Z) (x : A) (t : table A) : table A :=
  fun j => if (lo <=? j) && (j <? hi) then x else t j.

(** QED_HASHTABLE_NFOUND and UINT64_MAX. *)
Definition NFOUND : Z := 0xFFFFFFFFFFFFFFFF.
Definition UINT64_MAX : Z := 2 ^ 64 - 1.

(** [struct MetaInfo]. *)
Record MetaInfo : Type := mkMetaInfo {
  impl_version : Z;
  bucket_type : Z;
  reserved_field : Z;
  managed_id_count : Z;
  free_id_count : Z;
  extended_field_size : Z;
}.

(** The tables of a [Builder]. *)
Record Store : Type := mkStore {
  managed_bucket : table RawBucket;
  free_bucket : table RawBucket;
  root_bucket_id_table_managed : table Z;
  root_bucket_id_table_free : table Z;
  meta_info : MetaInfo;
}.

Definition location_t : Type := bool * Z.

Definition set_free_id_count (x : Z) (m : MetaInfo) : MetaInfo :=
  mkMetaInfo (impl_version m) (bucket_type m) (reserved_field m) (managed_id_count m) x
    (extended_field_size m).
Definition set_bucket_type (x : Z) (m : MetaInfo) : MetaInfo :=
  mkMetaInfo (impl_version m) x (reserved_field m) (managed_id_count m) (free_id_count m)
    (extended_field_size m).

Definition with_meta (m : MetaInfo) (st : Store) : Store :=
  mkStore (managed_bucket st) (free_bucket st) (root_bucket_id_table_managed st)
    (root_bucket_id_table_free st) m.
Definition set_root_managed (i r : Z) (st : Store) : Store :=
  mkStore (managed_bucket st) (free_bucket st) (upd i r (root_bucket_id_table_managed st))
    (root_bucket_id_table_free st) (meta_info st).
Definition set_root_free (i r : Z) (st : Store) : Store :=
  mkStore (managed_bucket st) (free_bucket st) (root_bucket_id_table_managed st)
    (upd i r (root_bucket_id_table_free st)) (meta_info st).

(** The bucket a location points to, and a write to it. *)
Definition at_loc (st : Store) (l : location_t) : RawBucket :=
  if l.1 then managed_bucket st l.2 else free_bucket st l.2.
Definition set_loc (l : location_t) (b : RawBucket) (st : Store) : Store :=
  if l.1 then mkStore (upd l.2 b (managed_bucket st)) (free_bucket st)
                (root_bucket_id_table_managed st) (root_bucket_id_table_free st) (meta_info st)
  else mkStore (managed_bucket st) (upd l.2 b (free_bucket st))
         (root_bucket_id_table_managed st) (root_bucket_id_table_free st) (meta_info st).
Definition mod_loc (l : location_t) (f : RawBucket -> RawBucket) (st : Store) : Store :=
  set_loc l (f (at_loc st l)) st.

(** ** The reader: hashtable.h *)

Section Find.
Context (st : Store) (vread : bool).
(** [bucket_size_log2_] is the bucket type of the table. *)
Abbreviation mask := (hi_mask (bucket_type (meta_info st))).

(** The loop of [HashTable::Find]: [i] buckets of the chain have been seen and
    [loc] is the next one.  A volatile read that meets a bucket that is not of
    the chain starts again; the payload that it reads twice is the same here. *)
Fixpoint find_loop (fuel : nat) (entry : location_t) (key_high_bits i size : Z) (loc : location_t)
  : option Z :=
  match fuel with
  | O => None
  | S fuel =>
      if i <? size then
        let bucket := at_loc st loc in
        if WeakBucket.key_high_bits mask bucket =? key_high_bits then
          let currentSize := WeakBucket.size bucket in
          if vread && (((currentSize =? 0) && (i =? 0)) || (negb (currentSize =? 0) && negb (i =? 0)))
          then find_loop fuel entry key_high_bits 0 (WeakBucket.size (at_loc st entry)) entry
          else Some (payload bucket)
        else find_loop fuel entry key_high_bits (i + 1) size (WeakBucket.next_bucket mask bucket)
      else Some NFOUND
  end.

(** [HashTable::Find]. *)
Definition Find (key_id : Z) : option Z :=
  let bucket_id := Z.land key_id (compl 64 mask) in
  let entry := (true, bucket_id) in
  let size := WeakBucket.size (at_loc st entry) in
  if size =? 0 then Some NFOUND
  else find_loop 129 entry (Z.land key_id mask) 0 size entry.
End Find.

(** ** Locations: builder.h *)

(** [GetWorkerId]. *)
Definition GetWorkerId (key_id worker_count : Z) : Z := Z.shiftr key_id 2 mod worker_count.

(** [TakeFreeBucketId]. *)
Definition TakeFreeBucketId (cnt : Z) (st : Store) : Z * Store :=
  let c := free_id_count (meta_info st) in
  if shl 64 1 (bucket_type (meta_info st)) <? wrap 64 (c + cnt) then (UINT64_MAX, st)
  else (c, with_meta (set_free_id_count (wrap 64 (c + cnt)) (meta_info st)) st).

(** [bucket_by_location]: a valid location, or null. *)
Definition bucket_by_location (st : Store) (l : location_t) : option location_t :=
  if l.1 then if shl 64 1 (bucket_type (meta_info st)) <=? l.2 then None else Some l
  else if free_id_count (meta_info st) <=? l.2 then None else Some l.

(** [root_id_by_location]. *)
Definition root_id_by_location (st : Store) (l : location_t) : Z :=
  if l.1 then
    if shl 64 1 (bucket_type (meta_info st)) <=? l.2 then ALL_MASK_64
    else root_bucket_id_table_managed st l.2
  else if free_id_count (meta_info st) <=? l.2 then ALL_MASK_64
  else root_bucket_id_table_free st l.2.

(** [find_root]: the managed bucket's id, or null. *)
Definition find_root (n : Z) (st : Store) (l : location_t) : option Z :=
  if shl 64 1 n <=? l.2 then None
  else
    let root_id := root_id_by_location st l in
    if (root_id =? ALL_MASK_64) || (shl 64 1 n <=? root_id) then None else Some root_id.

(** QED_SWITCH_BUCKETSIZE has cases for these bucket types. *)
Definition switch_has (n : Z) : bool := (2 <=? n) && (n <=? 63).

(** ** Insertion: builder.cc *)

(** How a block of [Insert] ends: a return, the recursive call with a free
    slot, the next block, or a null dereference. *)
Inductive outcome : Type :=
| Return (l : location_t) (st : Store)
| Retry (free_slot : Z) (st : Store)
| Proceed (free_slot : Z) (st : Store)
| Crash.

(** A free slot: the caller's, or a new one. *)
Definition take_slot (free_slot : Z) (st : Store) : Z * Store :=
  if negb (free_slot =? UINT64_MAX) then (free_slot, st) else TakeFreeBucketId 1 st.

(** The search for the parent of the bucket that is moved away: the parent and
    the bucket the walk ends at. *)
Fixpoint find_lender (k : nat) (n bucket_id : Z) (st : Store) (parent : option location_t)
    (iter : location_t) : option location_t * location_t :=
  match k with
  | O => (parent, iter)
  | S k =>
      let b := at_loc st iter in
      let parent := if Bucket.next_bucket_is_internal b && (Bucket.next_bucket_id n b =? bucket_id)
                    then Some iter else parent in
      find_lender k n bucket_id st parent (Bucket.next_bucket n b)
  end.

(** The bucket of an empty root is lent to another chain: move it to a free
    slot. *)
Definition relocate (n bucket_id free_slot : Z) (st : Store) : outcome :=
  let failed st := Return (true, NFOUND) st in
  if negb (switch_has n) then Proceed free_slot st
  else
    match find_root n st (true, bucket_id) with
    | None => failed st
    | Some root_id =>
        let root := (true, root_id) in
        let size := Bucket.size (at_loc st root) in
        if size <? 2 then failed st
        else
          match find_lender (Z.to_nat (size - 1)) n bucket_id st None root with
          | (None, _) => failed st
          | (Some parent, iter) =>
              let (ok, x) := compare_and_swap (size_field (at_loc st root)) (Z.lor size 128)
                               (Z.lor (size - 1) 128) in
              let st := mod_loc root (set_size_field x) st in
              if negb ok then Retry free_slot st
              else
                let bucket := at_loc st (true, bucket_id) in
                let p := at_loc st parent in
                let (ok, p) := Bucket.TrySetNextBucketId n (size_field p) (key_info_field p)
                                 (WeakBucket.next_bucket_id (hi_mask n) bucket)
                                 (WeakBucket.next_bucket_is_internal bucket) p in
                let st := set_loc parent p st in
                if negb ok then Retry free_slot st
                else
                  let (slot, st) := take_slot free_slot st in
                  if slot =? UINT64_MAX then failed st
                  else
                    let st := set_loc (false, slot)
                                (set_size_field 128 (at_loc st (true, bucket_id))) st in
                    let st := set_root_free slot bucket_id st in
                    Proceed slot (mod_loc iter (Bucket.SetNextBucketId n slot false) st)
          end
    end.

(** The walk over the chain: the location of the key, the end of the chain, a
    bucket of another chain, or a null dereference. *)
Inductive walk : Type :=
| WFound (l : location_t)
| WEnd (last : location_t) (last_key_info_field : Z)
| WRetry
| WCrash.

Fixpoint chain_walk (k : nat) (st : Store) (n bucket_id key_high_bits : Z) (first : bool)
    (last : location_t) (last_key : Z) (l : location_t) : walk :=
  match k with
  | O => WEnd last last_key
  | S k =>
      match bucket_by_location st l with
      | None => WCrash
      | Some l =>
          let dst := at_loc st l in
          if WeakBucket.key_high_bits (hi_mask n) dst =? key_high_bits then
            if negb l.1 || first then WFound l
            else if root_id_by_location st l =? bucket_id then WFound l else WRetry
          else chain_walk k st n bucket_id key_high_bits false l (key_info_field dst)
                 (WeakBucket.next_bucket_is_internal dst, WeakBucket.next_bucket_id (hi_mask n) dst)
      end
  end.

(** Append a new bucket after the last one of the chain. *)
Definition append (n bucket_id key_id pay : Z) (last : location_t) (last_key free_slot : Z)
    (st : Store) : outcome :=
  if negb (switch_has n) then Proceed free_slot st
  else
    let (slot, st) := take_slot free_slot st in
    if slot =? UINT64_MAX then Return (true, NFOUND) st
    else
      let st := mod_loc (false, slot) (set_payload pay) st in
      let st := mod_loc (false, slot) (set_key_info_field key_id) st in
      let st := mod_loc (false, slot) (set_size_field 128) st in
      let st := set_root_free slot bucket_id st in
      match bucket_by_location st last with
      | None => Crash
      | Some last =>
          let expected := size_field (at_loc st last) in
          let (ok, x) := compare_and_swap (key_info_field (at_loc st last)) last_key
                           (Z.lor (Z.land last_key (hi_mask n)) (Z.land slot (compl 64 (hi_mask n)))) in
          let st := mod_loc last (set_key_info_field x) st in
          if negb ok then Retry slot st
          else if negb (bool_decide (last = (true, bucket_id))) && negb (Z.land expected (compl 8 128) =? 0)
          then Retry slot st
          else
            let (ok, x) := compare_and_swap (size_field (at_loc st last)) expected
                             (Z.land expected (compl 8 128)) in
            let st := mod_loc last (set_size_field x) st in
            if negb ok then Retry slot st else Proceed slot st
      end.

(** [Builder::Insert<uint64_t>].  [None] is a null dereference or too little
    fuel for the recursive calls. *)
Fixpoint Insert (fuel : nat) (key_id pay free_slot : Z) (st : Store) : option (location_t * Store) :=
  match fuel with
  | O => None
  | S fuel =>
      let n := bucket_type (meta_info st) in
      let mask := hi_mask n in
      let bucket_id := Z.land key_id (compl 64 mask) in
      let bucket := (true, bucket_id) in
      let sf := size_field (at_loc st bucket) in
      if Z.land sf (compl 8 size_filed_hi_mask) =? 0 then
        let (_, x) := compare_and_swap sf sf 1 in
        let st := mod_loc bucket (set_size_field x) st in
        let fill st :=
          let st := set_root_managed bucket_id bucket_id st in
          let st := mod_loc bucket (set_payload pay) st in
          let st := mod_loc bucket (set_key_info_field key_id) st in
          Some (bucket, mod_loc bucket (set_size_field 1) st) in
        if negb (root_bucket_id_table_managed st bucket_id =? ALL_MASK_64) then
          match relocate n bucket_id free_slot st with
          | Return l st => Some (l, st)
          | Retry slot st => Insert fuel key_id pay slot st
          | Crash => None
          | Proceed _ st =>
              let (ok, x) := compare_and_swap (size_field (at_loc st bucket)) sf 1 in
              let st := mod_loc bucket (set_size_field x) st in
              if negb ok then Insert fuel key_id pay UINT64_MAX st else fill st
          end
        else fill st
      else if sf =? 255 then Some ((true, NFOUND), st)
      else
        match chain_walk (Z.to_nat (Z.land sf (compl 8 size_filed_hi_mask))) st n bucket_id
                (Z.land key_id mask) true bucket 0 bucket with
        | WFound l => Some (l, mod_loc l (set_payload pay) st)
        | WRetry => Insert fuel key_id pay UINT64_MAX st
        | WCrash => None
        | WEnd last last_key =>
            match append n bucket_id key_id pay last last_key free_slot st with
            | Return l st => Some (l, st)
            | Retry slot st => Insert fuel key_id pay slot st
            | Crash => None
            | Proceed slot st =>
                let (ok, x) := compare_and_swap (size_field (at_loc st bucket)) sf (wrap 8 (sf + 1)) in
                let st := mod_loc bucket (set_size_field x) st in
                if negb ok then Insert fuel key_id pay slot st else Some ((false, slot), st)
            end
        end
  end.

(** [Builder::Erase]. *)
Definition Erase (key_id : Z) : location_t := (true, NFOUND).

(** ** Sizing and opening: builder.cc *)

Definition QED_INITIAL_BUCKET_TYPE : Z := 2.
Definition QED_MAX_BUCKET_TYPE : Z := 50.
Definition QED_MAX_BUILD_FILE_SIZE : Z := 0x10000000000.

(** The loop of [get_bucket_type]. *)
Fixpoint bucket_type_loop (fuel : nat) (i count : Z) : option Z :=
  match fuel with
  | O => None
  | S fuel =>
      if shl 64 1 i <? wrap 64 (count + 1) then bucket_type_loop fuel (wrap 8 (i + 1)) count
      else Some i
  end.

(** [get_bucket_type]. *)
Definition get_bucket_type (count : Z) : option Z :=
  match bucket_type_loop 64 1 count with
  | Some i => Some (Z.min (Z.max i QED_INITIAL_BUCKET_TYPE) QED_MAX_BUCKET_TYPE)
  | None => None
  end.

(** [Builder::OpenMeta] on the size of the opened file. *)
Definition OpenMeta (reset : bool) (file_size : Z) (m : MetaInfo) : bool * MetaInfo :=
  if file_size =? 0 then (false, m)
  else
    let m := if reset then mkMetaInfo 0 QED_INITIAL_BUCKET_TYPE 0 0 0 0 else m in
    let max_id_count := shl 64 1 (bucket_type m) in
    ((wrap 64 (40 + extended_field_size m) <=? file_size) &&
     (bucket_type m <=? QED_MAX_BUCKET_TYPE) && (2 <=? bucket_type m) &&
     (managed_id_count m <? max_id_count) && (free_id_count m <? max_id_count), m).

(** [Builder::Reserve]. *)
Definition Reserve (reserved_count : Z) (st : Store) : option (bool * Store) :=
  match get_bucket_type reserved_count with
  | None => None
  | Some t =>
      if QED_MAX_BUCKET_TYPE <? t then Some (false, st)
      else
        let m := meta_info st in
        let t := if t <=? bucket_type m then bucket_type m else t in
        let origin := if (managed_id_count m =? 0) && (free_id_count m =? 0) then 0
                      else shl 64 1 (bucket_type m) in
        let new_count := shl 64 1 t in
        Some (true, mkStore (memset origin new_count new_RawBucket (managed_bucket st))
                            (memset origin new_count new_RawBucket (free_bucket st))
                            (memset origin new_count ALL_MASK_64 (root_bucket_id_table_managed st))
                            (memset 0 (new_count - origin) ALL_MASK_64 (root_bucket_id_table_free st))
                            (set_bucket_type t m))
  end.

(** ** Moving buckets: builder.cc *)

(** The loop of [RearrangeBuckets]. *)
Fixpoint rearrange_loop (k : nat) (iter mask : Z) (st : Store) : Store :=
  match k with
  | O => st
  | S k =>
      let b := at_loc st (true, iter) in
      if (WeakBucket.size b =? 0) || WeakBucket.match_high_bits mask (key_info_field b) b
      then rearrange_loop k (iter + 1) mask st
      else
        let target := Z.land (key_info_field b) mask in
        let st := set_root_managed target target st in
        let st := set_root_managed iter ALL_MASK_64 st in
        let st := set_loc (true, target) b st in
        let st := set_loc (true, iter) new_RawBucket st in
        rearrange_loop k (iter + 1) mask st
  end.

(** [Builder::RearrangeBuckets], built without QED_STRICT_BUILD. *)
Definition RearrangeBuckets (begin_bucket_id bucket_count : Z) (st : Store) : bool * Store :=
  (true, rearrange_loop (Z.to_nat bucket_count) begin_bucket_id
           (hi_mask (bucket_type (meta_info st))) st).

(** The loop of [FindParent]: the parent, a failure, or a chain that changed. *)
Inductive parent_result : Type := Parent (l : location_t) | NoParent | Changed.

Fixpoint parent_loop (k : nat) (st : Store) (mask : Z) (first : bool) (l iter : location_t)
  : parent_result :=
  match k with
  | O => NoParent
  | S k =>
      match bucket_by_location st iter with
      | None => NoParent
      | Some iter =>
          let b := at_loc st iter in
          if if first then WeakBucket.size b =? 0 else negb (WeakBucket.size b =? 0) then Changed
          else if (WeakBucket.next_bucket_id mask b =? l.2) &&
                  Bool.eqb (WeakBucket.next_bucket_is_internal b) l.1 then Parent iter
          else parent_loop k st mask false l
                 (WeakBucket.next_bucket_is_internal b, WeakBucket.next_bucket_id mask b)
      end
  end.

(** [Builder::FindParent]; it calls itself when the chain changed. *)
Fixpoint FindParent (fuel : nat) (l : location_t) (st : Store) : option location_t :=
  match fuel with
  | O => None
  | S fuel =>
      let root_id := root_id_by_location st l in
      if root_id =? ALL_MASK_64 then Some (true, ALL_MASK_64)
      else
        match parent_loop (Z.to_nat (WeakBucket.size (at_loc st (true, root_id)))) st
                (hi_mask (bucket_type (meta_info st))) true l (true, root_id) with
        | Parent p => Some p
        | NoParent => Some (true, ALL_MASK_64)
        | Changed => FindParent fuel l st
        end
  end.

(** The body of [OptimizeFreeBucket] once an unused managed slot [iter] is
    claimed: copy the bucket there and link its parent to it. *)
Definition move_bucket (fuel : nat) (l : location_t) (root iter : Z) (st : Store) : option (bool * Store) :=
  let mask := hi_mask (bucket_type (meta_info st)) in
  let st := set_root_managed iter root st in
  let st := set_loc (true, iter) (at_loc st l) st in
  match FindParent fuel l st with
  | None => None
  | Some p =>
      if p.2 =? ALL_MASK_64 then Some (false, st)
      else
        match bucket_by_location st p with
        | None => None
        | Some p =>
            let expected_size := size_field (at_loc st p) in
            let expected_key := key_info_field (at_loc st p) in
            if negb (Z.land expected_size size_filed_hi_mask =? 0) then Some (false, st)
            else if negb (Z.land expected_key (compl 64 mask) =? l.2) then Some (false, st)
            else
              let st := mod_loc p (set_size_field (Z.lor expected_size size_filed_hi_mask)) st in
              let st := mod_loc p (set_key_info_field
                (Z.lor (Z.land expected_key mask) (Z.land iter (compl 64 mask)))) st in
              Some (true, set_root_free l.2 ALL_MASK_64 st)
        end
  end.

(** The search for a slot in the cache lines of the root. *)
Fixpoint slot_loop (k fuel : nat) (l : location_t) (root iter : Z) (st : Store) : option (bool * Store) :=
  match k with
  | O => Some (false, st)
  | S k =>
      if (iter =? root) || negb (root_id_by_location st (true, iter) =? ALL_MASK_64)
         || negb (WeakBucket.size (at_loc st (true, iter)) =? 0)
      then slot_loop k fuel l root (iter + 1) st
      else move_bucket fuel l root iter st
  end.

(** [Builder::OptimizeFreeBucket]. *)
Definition OptimizeFreeBucket (fuel : nat) (l : location_t) (level : Z) (st : Store)
  : option (bool * Store) :=
  if l.1 then Some (false, st)
  else
    let root := root_id_by_location st l in
    if root =? ALL_MASK_64 then Some (false, st)
    else
      let start := Z.land root (hi_mask 2) in
      let stop := Z.min (start + 4 + level * 4) (shl 64 1 (bucket_type (meta_info st))) in
      slot_loop (Z.to_nat (stop - start)) fuel l root start st.

(** ** [BlockDataBuilder] *)

Record BlockData : Type := mkBlockData { offset_ : Z; max_size_ : Z; need_truncate : bool }.

(** [alloc] of [count] elements of [width] bytes, when no other thread moves the
    offset. *)
Definition alloc (width count : Z) (d : BlockData) : Z * BlockData :=
  if max_size_ d <? wrap 64 (wrap 64 (count * width) + offset_ d) then (UINT64_MAX, d)
  else (offset_ d, mkBlockData (wrap 64 (offset_ d + wrap 64 (count * width))) (max_size_ d) (need_truncate d)).

(** [BlockDataBuilder::Open]; [file_open] gives the size of the mapping
    ([None]: it throws). *)
Definition block_Open (file_open : Z -> option Z) (size : Z) (d : BlockData) : bool * BlockData :=
  let need := if size =? 0 then true else need_truncate d in
  let size := if size =? 0 then QED_MAX_BUILD_FILE_SIZE
              else if QED_MAX_BUILD_FILE_SIZE <? size then QED_MAX_BUILD_FILE_SIZE else size in
  match file_open size with
  | None => (false, mkBlockData (offset_ d) (max_size_ d) need)
  | Some m => (negb (m <? size), mkBlockData (offset_ d) m need)
  end.
