(* ===== verification/BuilderCorrect.v ===== *)
(** * The builder and the reader implement a finite map

    The buckets of every root form a chain that the reader walks.  [ok] relates
    a store to its chains and to the finite map it represents; insertion and the
    moving of free buckets preserve it. *)
From Stdlib Require Import ZArith Lia.
From stdpp Require Import base gmap numbers list relations.
From S2P Require Import Prelude Words Bucket Builder.

Local Open Scope Z_scope.

(** ** Observing a store *)

Definition root_of (st : Store) (l : location_t) : Z :=
  if l.1 then root_bucket_id_table_managed st l.2 else root_bucket_id_table_free st l.2.

Abbreviation ntype st := (bucket_type (meta_info st)).
Abbreviation nfree st := (free_id_count (meta_info st)).

Definition in_range (st : Store) (l : location_t) : Prop :=
  0 <= l.2 < if l.1 then 2 ^ ntype st else nfree st.

Lemma at_set_loc l b st l' : at_loc (set_loc l b st) l' = if decide (l' = l) then b else at_loc st l'.
Proof.
  destruct l as [[] i], l' as [[] j]; unfold at_loc, set_loc, upd; cbn;
    case_decide as E; simplify_eq; rewrite ?Z.eqb_refl; try done; case_match eqn:Ej; try done;
    apply Z.eqb_eq in Ej; by subst.
Qed.

Lemma at_mod_loc l f st l' :
  at_loc (mod_loc l f st) l' = if decide (l' = l) then f (at_loc st l) else at_loc st l'.
Proof. apply at_set_loc. Qed.

Lemma at_set_root_managed i r st l : at_loc (set_root_managed i r st) l = at_loc st l.
Proof. by destruct l as [[] ?]. Qed.
Lemma at_set_root_free i r st l : at_loc (set_root_free i r st) l = at_loc st l.
Proof. by destruct l as [[] ?]. Qed.
Lemma at_with_meta m st l : at_loc (with_meta m st) l = at_loc st l.
Proof. by destruct l as [[] ?]. Qed.

Lemma root_set_loc l b st l' : root_of (set_loc l b st) l' = root_of st l'.
Proof. by destruct l as [[] ?], l' as [[] ?]. Qed.
Lemma root_mod_loc l f st l' : root_of (mod_loc l f st) l' = root_of st l'.
Proof. apply root_set_loc. Qed.
Lemma root_with_meta m st l : root_of (with_meta m st) l = root_of st l.
Proof. by destruct l as [[] ?]. Qed.
Lemma root_set_managed i r st l :
  root_of (set_root_managed i r st) l = if decide (l = (true, i)) then r else root_of st l.
Proof.
  destruct l as [[] j]; unfold root_of, set_root_managed, upd; cbn; case_decide as E; simplify_eq;
    rewrite ?Z.eqb_refl; try done. case_match eqn:Ej; [|done]. apply Z.eqb_eq in Ej. by subst.
Qed.
Lemma root_set_free i r st l :
  root_of (set_root_free i r st) l = if decide (l = (false, i)) then r else root_of st l.
Proof.
  destruct l as [[] j]; unfold root_of, set_root_free, upd; cbn; case_decide as E; simplify_eq;
    rewrite ?Z.eqb_refl; try done. case_match eqn:Ej; [|done]. apply Z.eqb_eq in Ej. by subst.
Qed.

Lemma meta_set_loc l b st : meta_info (set_loc l b st) = meta_info st.
Proof. by destruct l as [[] ?]. Qed.
Lemma meta_mod_loc l f st : meta_info (mod_loc l f st) = meta_info st.
Proof. apply meta_set_loc. Qed.

Lemma meta_set_root_managed i r st : meta_info (set_root_managed i r st) = meta_info st.
Proof. done. Qed.
Lemma meta_set_root_free i r st : meta_info (set_root_free i r st) = meta_info st.
Proof. done. Qed.

Arguments at_loc : simpl never.
Arguments root_of : simpl never.
Arguments set_loc : simpl never.
Arguments mod_loc : simpl never.

Create HintDb store.
#[export] Hint Rewrite at_set_loc at_mod_loc at_set_root_managed at_set_root_free at_with_meta
  root_set_loc root_mod_loc root_with_meta root_set_managed root_set_free meta_set_loc meta_mod_loc
  meta_set_root_managed meta_set_root_free : store.

Lemma shl_pow n : 0 <= n < 64 -> shl 64 1 n = 2 ^ n.
Proof.
  intros Hn. unfold shl, wrap. rewrite Z.shiftl_1_l. apply Z.mod_small. split; [lia|].
  apply Z.pow_lt_mono_r; lia.
Qed.

Lemma pow_bounds n : 2 <= n <= 50 -> 4 <= 2 ^ n <= 2 ^ 50.
Proof. intros Hn. split; [change 4 with (2 ^ 2)|]; apply Z.pow_le_mono_r; lia. Qed.

(** ** Chains *)

Definition nxt (st : Store) (l : location_t) : location_t := next_of (ntype st) (at_loc st l).

Fixpoint linked (st : Store) (c : list location_t) : Prop :=
  match c with
  | x :: ((y :: _) as c) => nxt st x = y /\ linked st c
  | _ => True
  end.

Lemma linked_cons st x y c : linked st (x :: y :: c) <-> nxt st x = y /\ linked st (y :: c).
Proof. done. Qed.
Arguments linked : simpl never.

Lemma linked_frame st st' c :
  (forall l, l ∈ c -> nxt st' l = nxt st l) -> linked st c -> linked st' c.
Proof.
  intros Hc. induction c as [|x [|y c] IH]; [done..|]. rewrite !linked_cons. intros [E H].
  rewrite Hc by set_solver. split; [done|]. apply IH; [|done]. intros l Hl. apply Hc. set_solver.
Qed.

(** The pointer of the last bucket does not matter. *)
Lemma linked_app_frame st st' c x :
  (forall l, l ∈ c -> nxt st' l = nxt st l) -> linked st (c ++ [x]) -> linked st' (c ++ [x]).
Proof.
  intros Hc. induction c as [|y c IH]; [done|]. destruct c as [|z c]; cbn [app] in *.
  - rewrite !linked_cons. intros [E _]. by rewrite Hc by set_solver.
  - rewrite !(linked_cons _ y). intros [E H]. rewrite Hc by set_solver. split; [done|].
    apply IH; [|done]. intros l Hl. apply Hc. set_solver.
Qed.

(** Appending to a chain: only its last bucket has a new pointer. *)
Lemma linked_snoc st st' c x y :
  (forall l, l ∈ c -> nxt st' l = nxt st l) -> nxt st' x = y ->
  linked st (c ++ [x]) -> linked st' (c ++ [x; y]).
Proof.
  intros Hc Hx. induction c as [|z c IH]; [done|]. destruct c as [|w c]; cbn [app] in *.
  - rewrite !linked_cons. intros [E _]. by rewrite Hc by set_solver.
  - rewrite !(linked_cons _ z). intros [E H]. rewrite Hc by set_solver. split; [done|].
    apply IH; [|done]. intros l Hl. apply Hc. set_solver.
Qed.

(** The payload of the first bucket of a chain with given high bits. *)
Definition chain_find (st : Store) (h : Z) (c : list location_t) : option Z :=
  foldr (fun l r => if high (ntype st) (key_info_field (at_loc st l)) =? h
                    then Some (payload (at_loc st l)) else r) None c.

Lemma chain_find_cons st h x c :
  chain_find st h (x :: c) = if high (ntype st) (key_info_field (at_loc st x)) =? h
                             then Some (payload (at_loc st x)) else chain_find st h c.
Proof. done. Qed.
Arguments chain_find : simpl never.

(** The chain of root [b]: its length is in the root's size field, it starts at
    the root, its other buckets have size 0, and the last of several points to
    the managed table. *)
Record chain_ok (st : Store) (b : Z) (c : list location_t) : Prop := {
  c_size : Z.of_nat (length c) = Bucket.count (size_field (at_loc st (true, b)));
  c_head : c = [] \/ head c = Some (true, b);
  c_linked : linked st c;
  c_nodup : NoDup c;
  c_range : forall l, l ∈ c -> in_range st l /\ root_of st l = b;
  c_inner : forall l, l ∈ tail c -> Bucket.count (size_field (at_loc st l)) = 0;
  c_last : forall x, list.last c = Some x -> flag (size_field (at_loc st x)) = negb (bool_decide (x = (true, b)));
}.

(** The store represents the map [m] with the chains [C]. *)
Record ok (st : Store) (C : Z -> list location_t) (m : gmap Z Z) : Prop := {
  ok_type : 2 <= ntype st <= 50;
  ok_free : 0 <= nfree st <= 2 ^ ntype st;
  ok_cells : forall l, bucket_ok (at_loc st l);
  ok_chain : forall b, 0 <= b < 2 ^ ntype st -> chain_ok st b (C b);
  ok_owner : forall l, in_range st l -> root_of st l <> ALL_MASK_64 ->
    0 <= root_of st l < 2 ^ ntype st /\ l ∈ C (root_of st l);
  ok_map : forall key, u64 key ->
    m !! key = chain_find st (high (ntype st) key) (C (low (ntype st) key));
}.

(** A chain whose buckets keep their keys, sizes and roots. *)
Lemma chain_frame st st' b c :
  ntype st' = ntype st -> nfree st <= nfree st' ->
  (forall l, l ∈ c -> key_info_field (at_loc st' l) = key_info_field (at_loc st l) /\
                      size_field (at_loc st' l) = size_field (at_loc st l) /\
                      root_of st' l = root_of st l) ->
  Bucket.count (size_field (at_loc st' (true, b))) = Bucket.count (size_field (at_loc st (true, b))) ->
  chain_ok st b c -> chain_ok st' b c.
Proof.
  intros Hn Hf Hc Hb [H1 H2 H3 H4 H5 H6 H7]. split; try done.
  - by rewrite Hb.
  - revert H3. apply linked_frame. intros l Hl. unfold nxt, next_of. rewrite Hn.
    by destruct (Hc l Hl) as (-> & -> & _).
  - intros l Hl. destruct (Hc l Hl) as (_ & _ & ->). destruct (H5 l Hl) as [Hr ->]. split; [|done].
    unfold in_range in *. rewrite Hn. destruct l.1; lia.
  - intros l Hl. assert (l ∈ c) by (destruct c; set_solver). destruct (Hc l) as (_ & -> & _); auto.
  - intros x Hx. destruct (Hc x) as (_ & -> & _); [by apply list.last_Some_elem_of|]. auto.
Qed.

Lemma chain_find_keys st st' h c :
  (forall l, l ∈ c -> high (ntype st') (key_info_field (at_loc st' l)) =
                      high (ntype st) (key_info_field (at_loc st l)) /\
                      payload (at_loc st' l) = payload (at_loc st l)) ->
  chain_find st' h c = chain_find st h c.
Proof.
  intros Hc. induction c as [|x c IH]; [done|]. rewrite !chain_find_cons, IH by set_solver.
  by destruct (Hc x ltac:(set_solver)) as [-> ->].
Qed.

Lemma chain_find_frame st st' h c :
  ntype st' = ntype st -> (forall l, l ∈ c -> at_loc st' l = at_loc st l) ->
  chain_find st' h c = chain_find st h c.
Proof. intros Hn Hc. apply chain_find_keys. intros l Hl. by rewrite Hn, Hc. Qed.

Lemma chain_find_app st h c1 c2 :
  chain_find st h (c1 ++ c2) = match chain_find st h c1 with Some p => Some p | None => chain_find st h c2 end.
Proof.
  induction c1 as [|x c1 IH]; [done|]. cbn [app]. rewrite !chain_find_cons, IH. by destruct (_ =? _).
Qed.

(** Every bucket of a chain belongs to its root only. *)
Lemma chain_member st C m b l : ok st C m -> 0 <= b < 2 ^ ntype st -> l ∈ C b ->
  in_range st l /\ root_of st l = b.
Proof. intros Hok Hb. apply (c_range st b). by apply (ok_chain st C m). Qed.

Lemma root_not_all st C m b : ok st C m -> 0 <= b < 2 ^ ntype st -> b <> ALL_MASK_64.
Proof.
  intros Hok Hb. pose proof (pow_bounds _ (ok_type st C m Hok)). unfold ALL_MASK_64. lia.
Qed.

(** ** The reader *)

Lemma find_loop_chain st vread entry h c :
  2 <= ntype st <= 50 -> (forall l, bucket_ok (at_loc st l)) ->
  forall fuel i size loc,
    linked st c -> size = i + Z.of_nat (length c) -> (length c < fuel)%nat -> 0 <= i ->
    (forall x, head c = Some x -> loc = x) ->
    (forall k l, c !! k = Some l ->
       (Bucket.count (size_field (at_loc st l)) = 0 <-> i + Z.of_nat k <> 0)) ->
    find_loop st vread fuel entry h i size loc = Some (default NFOUND (chain_find st h c)).
Proof.
  intros Hn Hcells. induction c as [|x c IH]; intros fuel i size loc Hlink -> Hfuel Hi Hhd Hcnt;
    (destruct fuel as [|fuel]; [cbn in Hfuel; lia|]); cbn [find_loop length].
  - by rewrite (proj2 (Z.ltb_ge _ _)) by lia.
  - rewrite (proj2 (Z.ltb_lt _ _)) by lia. rewrite (Hhd x eq_refl), chain_find_cons.
    rewrite high_bits_high by (done || lia). destruct (_ =? h); cbn [default].
    + rewrite size_count by done. specialize (Hcnt 0%nat x eq_refl). rewrite Z.add_0_r in Hcnt.
      assert (E : ((Bucket.count (size_field (at_loc st x)) =? 0) && (i =? 0))
                  || (negb (Bucket.count (size_field (at_loc st x)) =? 0) && negb (i =? 0)) = false).
      { destruct (Z.eqb_spec (Bucket.count (size_field (at_loc st x))) 0), (Z.eqb_spec i 0); cbn; lia. }
      by rewrite E, andb_false_r.
    + cbn [length] in Hfuel. apply IH; try lia.
      * destruct c as [|y c]; [done|]. by apply linked_cons in Hlink as [_ ?].
      * intros y Hy. destruct c as [|z c]; [done|]. injection Hy as ->.
        apply linked_cons in Hlink as [<- _]. apply next_bucket_next_of; [lia | done].
      * intros k l Hk. rewrite (Hcnt (S k) l Hk). lia.
Qed.

(** The two readings of a key. *)
Lemma key_bucket n key : 2 <= n <= 50 -> u64 key ->
  Z.land key (compl 64 (hi_mask n)) = low n key /\ Z.land key (hi_mask n) = high n key /\
  0 <= low n key < 2 ^ n.
Proof.
  intros Hn Hk. split; [|split]; [apply land_compl_hi_mask | apply land_hi_mask | apply low_bound];
    first [done | unfold uint in *; lia].
Qed.

Lemma chain_tail st b c k l : chain_ok st b c -> c !! k = Some l -> k <> 0%nat -> l ∈ tail c.
Proof.
  intros _ Hl Hk. destruct c as [|x c], k as [|k]; try done. cbn in *. by eapply list_elem_of_lookup_2.
Qed.

Lemma Find_chain st C m vread key : ok st C m -> u64 key ->
  Find st vread key = Some (default NFOUND (m !! key)).
Proof.
  intros Hok Hkey. destruct (key_bucket _ key (ok_type _ _ _ Hok) Hkey) as (E1 & E2 & Hb).
  unfold Find. rewrite E1, E2. rewrite (ok_map _ _ _ Hok) by done.
  pose proof (ok_chain _ _ _ Hok _ Hb) as Hc.
  rewrite size_count by apply (ok_cells _ _ _ Hok). rewrite <- (c_size _ _ _ Hc).
  pose proof (count_bound (size_field (at_loc st (true, low (ntype st) key)))) as Hlen.
  rewrite <- (c_size _ _ _ Hc) in Hlen. destruct (c_head _ _ _ Hc) as [->|Hhd]; [done|].
  destruct (C (low (ntype st) key)) as [|x c] eqn:EC; [done|]. rewrite (proj2 (Z.eqb_neq _ _)) by (cbn; lia).
  apply find_loop_chain; try done; try lia; try apply (ok_type _ _ _ Hok); try apply (ok_cells _ _ _ Hok).
  - apply Hc.
  - intros y Hy. rewrite Hhd in Hy. by injection Hy.
  - intros k l Hk. destruct (decide (k = 0%nat)) as [->|Hk0].
    + cbn in Hk, Hhd. rewrite Hhd in Hk. injection Hk as <-. rewrite <- (c_size _ _ _ Hc). cbn. lia.
    + rewrite (c_inner _ _ _ Hc) by (by eapply chain_tail). lia.
Qed.

(** ** Insertion preserves the representation *)

Lemma upd_eq {A} i (x : A) t : upd i x t i = x.
Proof. unfold upd. by rewrite Z.eqb_refl. Qed.
Lemma upd_ne {A} i j (x : A) t : j <> i -> upd i x t j = t j.
Proof. intros H. unfold upd. by rewrite (proj2 (Z.eqb_neq _ _)). Qed.

Lemma key_eq n k k' : 0 <= n -> high n k = high n k' -> low n k = low n k' -> k = k'.
Proof. intros Hn Hh Hl. rewrite <- (high_low n k), <- (high_low n k') by done. by rewrite Hh, Hl. Qed.

Lemma uint56_wrap p : uint 56 (wrap 56 p).
Proof. by apply uint_wrap. Qed.
#[export] Hint Resolve uint56_wrap : words.

(** The empty root of a key takes the key. *)
Lemma ok_new_root st st' C m key pay :
  ok st C m -> u64 key ->
  let b := low (ntype st) key in
  C b = [] -> root_of st (true, b) = ALL_MASK_64 -> meta_info st' = meta_info st ->
  (forall l, at_loc st' l = if decide (l = (true, b)) then mkRawBucket key 1 (wrap 56 pay) else at_loc st l) ->
  (forall l, root_of st' l = if decide (l = (true, b)) then b else root_of st l) ->
  ok st' (upd b [(true, b)] C) (<[key := wrap 56 pay]> m).
Proof.
  intros Hok Hkey b HC Hroot Hm Hat Hrt. pose proof Hok as [Hn Hf Hcells Hch Hown Hmap].
  assert (Hb : 0 <= b < 2 ^ ntype st) by (apply low_bound; lia).
  assert (Hfree : forall b', 0 <= b' < 2 ^ ntype st -> (true, b) ∉ C b').
  { intros b' Hb' Hin. destruct (chain_member st C m b' _ Hok Hb' Hin) as [_ E].
    rewrite Hroot in E. by apply (root_not_all st C m b' Hok Hb'). }
  split; rewrite ?Hm; try done.
  - intros l. rewrite Hat. case_decide; [|done]. split_and!; cbn; [done | unfold uint; lia | auto with words].
  - intros b' Hb'. destruct (decide (b' = b)) as [->|Hne].
    + rewrite upd_eq. split; cbn; try done.
      * by rewrite Hat, decide_True.
      * by right.
      * apply NoDup_singleton.
      * intros l ->%list_elem_of_singleton. rewrite Hrt, decide_True by done. split; [|done].
        by unfold in_range; rewrite Hm.
      * set_solver.
      * intros x [= <-]. rewrite Hat, decide_True by done. cbn. by rewrite bool_decide_eq_true_2.
    + rewrite upd_ne by done. apply (chain_frame st); rewrite ?Hm; [done.. | | | by apply Hch].
      * intros l Hl. rewrite Hat, Hrt, !decide_False; [done|..]; intros ->; by apply (Hfree b').
      * rewrite Hat, decide_False by (intros [= ->]; done). done.
  - intros l Hl. rewrite Hrt. case_decide as E; [subst l; intros _; split; [done|rewrite upd_eq; set_solver]|].
    intros Hne. destruct (Hown l) as [Hr Hin]; [by unfold in_range in *; rewrite Hm in Hl | done |].
    split; [done|]. rewrite upd_ne; [done|]. intros Eb. rewrite Eb, HC in Hin. set_solver.
  - intros k Hk. destruct (decide (low (ntype st) k = b)) as [El|Hne].
    + rewrite El, upd_eq, chain_find_cons. rewrite Hat, decide_True by done. cbn. rewrite Hm.
      destruct (Z.eqb_spec (high (ntype st) key) (high (ntype st) k)) as [Eh|Hh].
      * rewrite (key_eq (ntype st) key k) by (done || lia). by rewrite lookup_insert_eq.
      * rewrite lookup_insert_ne by (by intros ->). rewrite Hmap, El, HC by done. done.
    + rewrite lookup_insert_ne by (by intros ->). rewrite upd_ne, Hmap by done.
      symmetry. apply chain_find_frame; [by rewrite Hm|]. intros l Hl. rewrite Hat, decide_False; [done|].
      intros ->. apply (Hfree (low (ntype st) k)); [apply low_bound; lia | done].
Qed.

(** The bucket of a key takes a new payload. *)
Lemma ok_set_payload st st' C m key pay l c1 c2 :
  ok st C m -> u64 key -> C (low (ntype st) key) = c1 ++ l :: c2 ->
  high (ntype st) (key_info_field (at_loc st l)) = high (ntype st) key ->
  chain_find st (high (ntype st) key) c1 = None -> meta_info st' = meta_info st ->
  (forall l', at_loc st' l' = if decide (l' = l) then set_payload pay (at_loc st l) else at_loc st l') ->
  (forall l', root_of st' l' = root_of st l') ->
  ok st' C (<[key := wrap 56 pay]> m).
Proof.
  intros Hok Hkey HC Hh Hc1 Hm Hat Hrt. pose proof Hok as [Hn Hf Hcells Hch Hown Hmap].
  assert (Hfld : forall l', key_info_field (at_loc st' l') = key_info_field (at_loc st l') /\
                            size_field (at_loc st' l') = size_field (at_loc st l')).
  { intros l'. rewrite Hat. case_decide; by subst. }
  assert (Hinv : forall l', in_range st' l' = in_range st l') by (intros; unfold in_range; by rewrite Hm).
  assert (Hb : 0 <= low (ntype st) key < 2 ^ ntype st) by (apply low_bound; lia).
  assert (Hl : l ∈ C (low (ntype st) key)) by (rewrite HC; set_solver).
  split; rewrite ?Hm; try done.
  - intros l'. rewrite Hat. case_decide; [|done]. destruct (Hcells l) as (? & ? & ?).
    split_and!; cbn; auto with words.
  - intros b Hb'. apply (chain_frame st); rewrite ?Hm; [done.. | | by destruct (Hfld (true, b)) as [_ ->] | by apply Hch].
    intros l' _. by destruct (Hfld l') as [-> ->].
  - intros l' Hl'. rewrite Hrt. rewrite Hinv in Hl'. by apply Hown.
  - intros k Hk. destruct (decide (k = key)) as [->|Hne].
    + rewrite lookup_insert_eq, HC, chain_find_app.
      pose proof (c_nodup _ _ _ (Hch _ Hb)) as Hnd. rewrite HC in Hnd.
      rewrite (chain_find_frame st), Hc1; [|by rewrite Hm|].
      * rewrite chain_find_cons, Hat, decide_True by done. cbn. by rewrite Hm, Hh, Z.eqb_refl.
      * intros l' Hl'. rewrite Hat, decide_False; [done|]. intros ->.
        apply list.NoDup_app in Hnd as (_ & Hd & _). apply (Hd l Hl'). set_solver.
    + rewrite lookup_insert_ne, Hmap by done. clear -Hat Hm Hne Hh Hl Hok Hkey Hk Hb HC Hn.
      assert (Hd : forall x, x ∈ C (low (ntype st) k) -> x = l -> high (ntype st) (key_info_field (at_loc st l)) <> high (ntype st) k).
      { intros x Hx -> E. apply Hne. symmetry. apply (key_eq (ntype st)); [lia | congruence |].
        destruct (chain_member st C m _ _ Hok Hb Hl) as [_ E1].
        destruct (chain_member st C m (low (ntype st) k) _ Hok ltac:(apply low_bound; lia) Hx) as [_ E2].
        congruence. }
      induction (C (low (ntype st) k)) as [|x c IH]; [done|]. rewrite !chain_find_cons.
      rewrite <- IH by (intros y Hy; apply Hd; set_solver). rewrite Hat, Hm.
      case_decide as E; [|done]. subst x. cbn.
      by rewrite !(proj2 (Z.eqb_neq _ _)) by (by eapply Hd; set_solver).
Qed.

(** A key that its chain does not have is appended in a new free bucket. *)
Section Append.
Context (st st' : Store) (C : Z -> list location_t) (m : gmap Z Z) (key pay : Z).
Context (c : list location_t) (x : location_t).
Abbreviation n := (ntype st).
Abbreviation b := (low n key).
Abbreviation slot := (nfree st).
Hypothesis Hok : ok st C m.
Hypothesis Hkey : u64 key.
Hypothesis HC : C b = c ++ [x].
Hypothesis Hslot : slot < 2 ^ n.
Hypothesis Hn' : ntype st' = n.
Hypothesis Hf' : nfree st' = slot + 1.
Hypothesis Hnew : at_loc st' (false, slot) = mkRawBucket key 128 (wrap 56 pay).
Hypothesis Hcells' : forall l, bucket_ok (at_loc st' l).
(** The last bucket points to the new one and the root counts it. *)
Hypothesis Hold : forall l, l <> (false, slot) ->
  payload (at_loc st' l) = payload (at_loc st l) /\
  key_info_field (at_loc st' l) =
    (if decide (l = x) then high n (key_info_field (at_loc st l)) + slot
     else key_info_field (at_loc st l)) /\
  flag (size_field (at_loc st' l)) = (if decide (l = x) then false else flag (size_field (at_loc st l))) /\
  Bucket.count (size_field (at_loc st' l)) =
    Bucket.count (size_field (at_loc st l)) + (if decide (l = (true, b)) then 1 else 0).
Hypothesis Hrt : forall l, root_of st' l = if decide (l = (false, slot)) then b else root_of st l.

Lemma append_type : 2 <= n <= 50.
Proof. apply (ok_type _ _ _ Hok). Qed.

Lemma append_bucket : 0 <= b < 2 ^ n.
Proof. pose proof append_type. apply low_bound. lia. Qed.

Lemma append_slot_fresh b' : 0 <= b' < 2 ^ n -> (false, slot) ∉ C b'.
Proof.
  intros Hb' Hin. destruct (chain_member st C m b' _ Hok Hb' Hin) as [Hr _].
  unfold in_range in Hr. cbn in Hr. lia.
Qed.

Lemma append_root : head (C b) = Some (true, b) /\ (true, b) ∈ C b.
Proof.
  destruct (c_head _ _ _ (ok_chain _ _ _ Hok b append_bucket)) as [E|E].
  - rewrite E in HC. by destruct c.
  - split; [done|]. by apply list.head_Some_elem_of.
Qed.

Lemma append_other b' l : 0 <= b' < 2 ^ n -> b' <> b -> l ∈ C b' ->
  l <> x /\ l <> (true, b) /\ l <> (false, slot).
Proof.
  intros Hb' Hne Hl. destruct (chain_member st C m b' _ Hok Hb' Hl) as [_ E1].
  split_and!; intros ->; [| |by apply (append_slot_fresh b')].
  - destruct (chain_member st C m b x Hok append_bucket) as [_ E2]; [rewrite HC; set_solver | congruence].
  - destruct (chain_member st C m b _ Hok append_bucket (proj2 append_root)) as [_ E2]. congruence.
Qed.

Lemma append_high l : l <> (false, slot) ->
  high n (key_info_field (at_loc st' l)) = high n (key_info_field (at_loc st l)).
Proof.
  intros Hl. pose proof append_type. pose proof (ok_free _ _ _ Hok). destruct (Hold l Hl) as (_ & -> & _).
  case_decide; [|done]. rewrite <- (low_small n slot) by lia. apply high_join. lia.
Qed.

Lemma append_size l : l <> x -> l <> (true, b) -> l <> (false, slot) ->
  size_field (at_loc st' l) = size_field (at_loc st l).
Proof.
  intros H1 H2 H3. destruct (Hold l H3) as (_ & _ & Hfl & Hct).
  rewrite decide_False in Hfl by done. rewrite decide_False, Z.add_0_r in Hct by done.
  rewrite (u8_split (size_field (at_loc st' l))), (u8_split (size_field (at_loc st l)));
    [by rewrite Hfl, Hct | apply (ok_cells _ _ _ Hok) | apply Hcells'].
Qed.

Lemma append_chain : chain_ok st' b (C b ++ [(false, slot)]).
Proof.
  pose proof append_type. pose proof (ok_free _ _ _ Hok). pose proof append_bucket as Hb.
  pose proof (append_slot_fresh b Hb) as Hfr. destruct append_root as [Hhd Hin].
  destruct (ok_chain _ _ _ Hok b Hb) as [H1 H2 H3 H4 H5 H6 H7]. split.
  - destruct (Hold (true, b)) as (_ & _ & _ & ->); [done|]. rewrite length_app, decide_True by done. cbn. lia.
  - right. by destruct (C b).
  - rewrite HC, <- app_assoc. rewrite HC in H3, H4, Hfr. apply (linked_snoc st); [| |done].
    + intros l Hl. assert (Hlx : l <> x).
      { intros ->. apply list.NoDup_app in H4 as (_ & Hd & _). apply (Hd x Hl). set_solver. }
      destruct (Hold l) as (_ & Hk & Hfl & _); [intros ->; apply Hfr; set_solver|].
      unfold nxt, next_of. by rewrite Hn', Hk, Hfl, !decide_False.
    + destruct (Hold x) as (_ & Hk & Hfl & _); [intros ->; apply Hfr; set_solver|].
      unfold nxt, next_of. rewrite Hn', Hk, Hfl, !decide_True by done. f_equal.
      rewrite <- (low_small n slot) at 1 by lia. rewrite low_join by lia. apply low_small. lia.
  - apply list.NoDup_app. split_and!; [done | | apply NoDup_singleton].
    intros l Hl ->%list_elem_of_singleton. done.
  - intros l [Hl | ->%list_elem_of_singleton]%elem_of_app; rewrite Hrt.
    + rewrite decide_False by (intros ->; done). destruct (H5 l Hl) as [Hr ->]. split; [|done].
      unfold in_range in *. rewrite Hn', Hf'. destruct l.1; lia.
    + rewrite decide_True by done. split; [|done]. unfold in_range. cbn. lia.
  - intros l Hl. destruct (C b) as [|r t] eqn:E; [done|]. injection Hhd as ->. cbn in Hl.
    apply elem_of_app in Hl as [Hl | ->%list_elem_of_singleton]; [|by rewrite Hnew].
    apply list.NoDup_cons in H4 as [Hnr _]. destruct (Hold l) as (_ & _ & _ & ->); [intros ->; apply Hfr; set_solver|].
    rewrite decide_False by (intros ->; done). rewrite H6 by done. done.
  - intros y. rewrite last_snoc. intros [= <-]. by rewrite Hnew, bool_decide_eq_false_2.
Qed.

Lemma ok_append : chain_find st (high n key) (C b) = None ->
  ok st' (upd b (C b ++ [(false, slot)]) C) (<[key := wrap 56 pay]> m).
Proof.
  intros Hnone. pose proof append_type. pose proof append_bucket as Hb. pose proof (ok_free _ _ _ Hok).
  split; rewrite ?Hn', ?Hf'; [done | lia | done | | |].
  - intros b' Hb'. destruct (decide (b' = b)) as [->|Hne]; [rewrite upd_eq; apply append_chain|].
    rewrite upd_ne by done.
    apply (chain_frame st); rewrite ?Hn', ?Hf'; [done | lia | | | by apply (ok_chain _ _ _ Hok)].
    + intros l Hl. destruct (append_other b' l Hb' Hne Hl) as (Hx & Hr & Hs).
      rewrite Hrt, decide_False, append_size by done. destruct (Hold l Hs) as (_ & -> & _).
      by rewrite decide_False.
    + destruct (Hold (true, b')) as (_ & _ & _ & ->); [done|]. rewrite decide_False by (intros [= ->]; done). lia.
  - intros l Hl. rewrite Hrt. case_decide as E; [subst l; intros _; split; [done|rewrite upd_eq; set_solver]|].
    intros Hne. destruct (ok_owner _ _ _ Hok l) as [Hr Hin]; [|done|].
    { unfold in_range in *. rewrite Hn', Hf' in Hl. destruct l as [[] i]; cbn in *; [done|].
      assert (i <> slot) by congruence. lia. }
    split; [done|]. destruct (decide (root_of st l = b)) as [Eb|Hb'].
    + rewrite Eb, upd_eq. rewrite Eb in Hin. set_solver.
    + by rewrite upd_ne.
  - assert (Hkeep : forall h b', 0 <= b' < 2 ^ n -> chain_find st' h (C b') = chain_find st h (C b')).
    { intros h b' Hb'. apply chain_find_keys. intros l Hl. assert (l <> (false, slot)).
      { intros ->. by apply (append_slot_fresh b'). }
      rewrite Hn', append_high by done. by destruct (Hold l ltac:(done)) as (-> & _). }
    intros k Hk. destruct (decide (low n k = b)) as [El|Hne].
    + rewrite El, upd_eq, chain_find_app, Hkeep by done. rewrite chain_find_cons, Hnew. cbn [key_info_field payload]. rewrite Hn'.
      destruct (Z.eqb_spec (high n key) (high n k)) as [Eh|Hh].
      * rewrite <- Eh, Hnone. rewrite (key_eq n key k) by (done || lia). by rewrite lookup_insert_eq.
      * rewrite lookup_insert_ne by (by intros ->). rewrite (ok_map _ _ _ Hok), El by done.
        by destruct (chain_find st (high n k) (C b)).
    + rewrite lookup_insert_ne by (by intros ->). rewrite upd_ne, (ok_map _ _ _ Hok) by done.
      symmetry. apply Hkeep, low_bound. lia.
Qed.
End Append.

(** ** Insertion *)

Lemma by_location_in_range st l : 2 <= ntype st <= 50 -> in_range st l ->
  bucket_by_location st l = Some l /\ root_id_by_location st l = root_of st l.
Proof.
  intros Hn Hl. unfold in_range, bucket_by_location, root_id_by_location, root_of in *.
  rewrite shl_pow by lia. destruct l.1; by rewrite !(proj2 (Z.leb_gt _ _)) by lia.
Qed.

(** The walk finds the first bucket with the key's high bits, or the last
    bucket of the chain. *)
Lemma chain_walk_spec st b h :
  2 <= ntype st <= 50 -> (forall l, bucket_ok (at_loc st l)) ->
  forall c first prev prevk loc,
    linked st c -> (forall x, head c = Some x -> loc = x) ->
    (forall l, l ∈ c -> in_range st l /\ root_of st l = b) ->
    let r := chain_walk (length c) st (ntype st) b h first prev prevk loc in
    (exists c1 l c2, c = c1 ++ l :: c2 /\ chain_find st h c1 = None /\
       high (ntype st) (key_info_field (at_loc st l)) = h /\ r = WFound l) \/
    (chain_find st h c = None /\
     r = match list.last c with
         | Some x => WEnd x (key_info_field (at_loc st x))
         | None => WEnd prev prevk
         end).
Proof.
  intros Hn Hcells. induction c as [|x c IH]; intros first prev prevk loc Hlink Hhd Hc r; [by right|].
  destruct (Hc x ltac:(set_solver)) as [Hx Hr]. destruct (by_location_in_range st x Hn Hx) as [E1 E2].
  unfold r. cbn [length chain_walk]. rewrite (Hhd x eq_refl), E1, high_bits_high by (done || lia).
  rewrite chain_find_cons. destruct (Z.eqb_spec (high (ntype st) (key_info_field (at_loc st x))) h) as [Eh|Eh].
  - left. exists [], x, c. split_and!; [done.. |]. rewrite E2, Hr, Z.eqb_refl. by destruct (_ || _).
  - change (WeakBucket.next_bucket_is_internal (at_loc st x), _)
      with (WeakBucket.next_bucket (hi_mask (ntype st)) (at_loc st x)).
    destruct (IH false x (key_info_field (at_loc st x)) (WeakBucket.next_bucket (hi_mask (ntype st)) (at_loc st x)))
      as [(c1 & l & c2 & -> & Hn1 & Hh & Hw)|[Hnone Hw]].
    + destruct c as [|y c]; [done|]. by apply linked_cons in Hlink as [_ ?].
    + intros y Hy. destruct c as [|z c]; [done|]. injection Hy as ->.
      apply linked_cons in Hlink as [<- _]. apply next_bucket_next_of; [lia | done].
    + intros l Hl. apply Hc. set_solver.
    + left. exists (x :: c1), l, c2. rewrite chain_find_cons.
      destruct (Z.eqb_spec (high (ntype st) (key_info_field (at_loc st x))) h); [done|]. by split_and!.
    + right. split; [done|]. rewrite Hw. rewrite last_cons. by destruct (list.last c).
Qed.

(** What a successful insertion gives: the store represents the map with the
    key. *)
Definition inserted (st : Store) (m : gmap Z Z) (key pay : Z) (r : option (location_t * Store)) : Prop :=
  exists l st' C', r = Some (l, st') /\ l.2 <> NFOUND /\ ntype st' = ntype st /\
    ok st' C' (<[key := wrap 56 pay]> m).

(** The slot of a key's root is free or its own. *)
Definition not_lent (st : Store) (key : Z) : Prop :=
  let b := low (ntype st) key in
  root_of st (true, b) = ALL_MASK_64 \/ root_of st (true, b) = b.

Lemma cas_same v d : compare_and_swap v v d = (true, d).
Proof. unfold compare_and_swap. by rewrite Z.eqb_refl. Qed.

Lemma insert_new st C m key pay fuel :
  ok st C m -> u64 key -> C (low (ntype st) key) = [] -> not_lent st key ->
  inserted st m key pay (Insert (S fuel) key pay UINT64_MAX st).
Proof.
  intros Hok Hkey HC Hlent. pose proof (ok_type _ _ _ Hok) as Hn.
  destruct (key_bucket _ key Hn Hkey) as (E1 & _ & Hb). set (b := low (ntype st) key) in *.
  pose proof (c_size _ _ _ (ok_chain _ _ _ Hok b Hb)) as Hs. rewrite HC in Hs.
  assert (Hr : root_of st (true, b) = ALL_MASK_64).
  { destruct Hlent as [E|E]; [done|]. fold b in E. destruct (ok_owner _ _ _ Hok (true, b)) as [_ Hin].
    - unfold in_range. cbn. done.
    - rewrite E. by apply (root_not_all st C m b).
    - rewrite E, HC in Hin. set_solver. }
  cbn [Insert]. rewrite E1, land_size_lo by apply (ok_cells _ _ _ Hok). rewrite <- Hs. cbn [Z.eqb length Z.of_nat].
  rewrite cas_same. lazy beta iota zeta.
  assert (Er : root_bucket_id_table_managed (mod_loc (true, b) (set_size_field 1) st) b = ALL_MASK_64).
  { exact Hr. } rewrite Er, Z.eqb_refl. cbn [negb].
  eexists _, _, _. split; [reflexivity|]. pose proof (pow_bounds _ Hn). split; [unfold NFOUND; cbn; lia|].
  split; [done|]. apply (ok_new_root st); try done.
  - intros l. autorewrite with store. repeat case_decide; try done.
  - intros l. autorewrite with store. done.
Qed.

(** The new slot is written. *)
Definition slot_written (st : Store) (b key pay : Z) : Store :=
  let slot := nfree st in
  set_root_free slot b
    (mod_loc (false, slot) (set_size_field 128)
      (mod_loc (false, slot) (set_key_info_field key)
        (mod_loc (false, slot) (set_payload pay)
          (with_meta (set_free_id_count (slot + 1) (meta_info st)) st)))).

Lemma meta_slot_written st b key pay :
  meta_info (slot_written st b key pay) = set_free_id_count (nfree st + 1) (meta_info st).
Proof. done. Qed.

(** ... and linked from the last bucket. *)
Definition slot_linked (st : Store) (b key pay : Z) (x : location_t) : Store :=
  let n := ntype st in
  mod_loc x (set_size_field (Bucket.count (size_field (at_loc st x))))
    (mod_loc x (set_key_info_field (high n (key_info_field (at_loc st x)) + nfree st))
      (slot_written st b key pay)).

Lemma take_free st C m : ok st C m ->
  TakeFreeBucketId 1 st =
    if nfree st =? 2 ^ ntype st then (UINT64_MAX, st)
    else (nfree st, with_meta (set_free_id_count (nfree st + 1) (meta_info st)) st).
Proof.
  intros Hok. pose proof (ok_type _ _ _ Hok) as Hn. pose proof (ok_free _ _ _ Hok).
  pose proof (pow_bounds _ Hn). unfold TakeFreeBucketId. rewrite shl_pow by lia.
  rewrite wrap_small by (unfold uint; lia).
  destruct (Z.eqb_spec (nfree st) (2 ^ ntype st)) as [E|E].
  - by rewrite (proj2 (Z.ltb_lt _ _)) by lia.
  - by rewrite (proj2 (Z.ltb_ge _ _)) by lia.
Qed.

Lemma append_full st C m b key pay x k : ok st C m -> nfree st = 2 ^ ntype st ->
  append (ntype st) b key pay x k UINT64_MAX st = Return (true, NFOUND) st.
Proof.
  intros Hok Hfull. pose proof (ok_type _ _ _ Hok) as Hn. unfold append, switch_has.
  rewrite !(proj2 (Z.leb_le _ _)) by lia. cbn [andb negb]. unfold take_slot. rewrite Z.eqb_refl. cbn [negb].
  by rewrite (take_free _ _ _ Hok), Hfull, Z.eqb_refl.
Qed.

Lemma append_proceeds st C m b key pay x :
  ok st C m -> nfree st <> 2 ^ ntype st -> in_range st x ->
  (x <> (true, b) -> Bucket.count (size_field (at_loc st x)) = 0) ->
  append (ntype st) b key pay x (key_info_field (at_loc st x)) UINT64_MAX st =
    Proceed (nfree st) (slot_linked st b key pay x).
Proof.
  intros Hok Hfull Hx Hin. pose proof (ok_type _ _ _ Hok) as Hn. pose proof (ok_free _ _ _ Hok).
  pose proof (pow_bounds _ Hn). unfold append, switch_has.
  rewrite !(proj2 (Z.leb_le _ _)) by lia. cbn [andb negb]. unfold take_slot. rewrite Z.eqb_refl. cbn [negb].
  rewrite (take_free _ _ _ Hok), (proj2 (Z.eqb_neq _ _)) by done.
  rewrite (proj2 (Z.eqb_neq (nfree st) UINT64_MAX)) by (unfold UINT64_MAX; lia).
  fold (slot_written st b key pay).
  assert (Hxs : x <> (false, nfree st)) by (intros ->; unfold in_range in Hx; cbn in Hx; lia).
  assert (Hat : at_loc (slot_written st b key pay) x = at_loc st x).
  { unfold slot_written. autorewrite with store. by rewrite !decide_False. }
  assert (Hl : bucket_by_location (slot_written st b key pay) x = Some x).
  { apply by_location_in_range; [done|]. unfold in_range in *. rewrite meta_slot_written.
    cbn [bucket_type free_id_count set_free_id_count]. destruct x.1; lia. }
  rewrite Hl, !Hat, cas_same. cbn [negb]. destruct (ok_cells _ _ _ Hok x) as (Hk & Hs & _).
  change (compl 8 128) with (compl 8 size_filed_hi_mask). rewrite land_size_lo by done.
  assert (E : negb (bool_decide (x = (true, b))) && negb (Bucket.count (size_field (at_loc st x)) =? 0) = false).
  { case_bool_decide; [done|]. by rewrite Hin. }
  rewrite E. autorewrite with store. rewrite decide_True by done. cbn [size_field set_key_info_field].
  rewrite Hat, cas_same. cbn [negb]. unfold slot_linked. do 4 f_equal.
  rewrite land_hi_mask, land_compl_hi_mask, lor_high_low by (done || lia). by rewrite low_small by lia.
Qed.

Section InsertOld.
Context (st : Store) (C : Z -> list location_t) (m : gmap Z Z) (key pay : Z).
Abbreviation n := (ntype st).
Abbreviation b := (low n key).
Abbreviation sf := (size_field (at_loc st (true, b))).
Hypothesis Hok : ok st C m.
Hypothesis Hkey : u64 key.

Context (c : list location_t) (x : location_t).
Hypothesis HC : C b = c ++ [x].

Lemma old_chain : chain_ok st b (C b).
Proof. apply (ok_chain _ _ _ Hok). apply key_bucket; [apply (ok_type _ _ _ Hok) | done]. Qed.

Lemma old_root_flag : x = (true, b) -> sf = Bucket.count sf.
Proof.
  intros ->. pose proof (c_last _ _ _ old_chain (true, b)) as Hl.
  rewrite HC, last_snoc, bool_decide_eq_true_2 in Hl by done. specialize (Hl eq_refl).
  rewrite (u8_split sf) at 1 by apply (ok_cells _ _ _ Hok). cbn in Hl. by rewrite Hl.
Qed.

Lemma old_inner : x <> (true, b) -> Bucket.count (size_field (at_loc st x)) = 0.
Proof.
  intros Hx. apply (c_inner _ _ _ old_chain). destruct (c_head _ _ _ old_chain) as [E|E].
  - rewrite E in HC. by destruct c.
  - rewrite HC in *. destruct c as [|y c']; cbn in *; [by injection E as ->|]. set_solver.
Qed.

(** The store after the insertion of a new key in a chain. *)
Definition appended : Store :=
  mod_loc (true, b) (set_size_field (sf + 1)) (slot_linked st b key pay x).

Lemma meta_appended : meta_info appended = set_free_id_count (nfree st + 1) (meta_info st).
Proof. unfold appended, slot_linked. by autorewrite with store. Qed.

Hypothesis Hlen : (length (C b) < 127)%nat.

Lemma appended_ok : nfree st <> 2 ^ n -> in_range st x ->
  chain_find st (high n key) (C b) = None ->
  ok appended (upd b (C b ++ [(false, nfree st)]) C) (<[key := wrap 56 pay]> m).
Proof.
  intros Hfull Hx Hnone. pose proof (ok_type _ _ _ Hok) as Hn. pose proof (ok_free _ _ _ Hok).
  pose proof (c_size _ _ _ old_chain) as Hs. pose proof (pow_bounds _ Hn).
  assert (Hxs : x <> (false, nfree st)) by (intros ->; unfold in_range in Hx; cbn in Hx; lia).
  assert (Hu : u8 (sf + 1) /\ flag (sf + 1) = flag sf /\ Bucket.count (sf + 1) = Bucket.count sf + 1).
  { pose proof (u8_split sf ltac:(apply (ok_cells _ _ _ Hok))) as E.
    destruct (flag_count (flag sf) (Bucket.count sf + 1)) as (F1 & F2 & F3); [pose proof (count_bound sf); lia|].
    rewrite E at 1 2 4. rewrite <- !Z.add_assoc. by rewrite F1, F2. }
  assert (Hcx : u8 (Bucket.count (size_field (at_loc st x))) /\
                flag (Bucket.count (size_field (at_loc st x))) = false /\
                Bucket.count (Bucket.count (size_field (at_loc st x))) = Bucket.count (size_field (at_loc st x))).
  { destruct (flag_count false _ (count_bound (size_field (at_loc st x)))) as (F1 & F2 & F3). cbn in *. done. }
  pose proof old_root_flag as Hrf.
  apply (ok_append st appended C m key pay c x); try done; try lia;
    unfold appended, slot_linked, slot_written.
  - fold (slot_written st b key pay) (slot_linked st b key pay x) appended. by rewrite meta_appended.
  - fold (slot_written st b key pay) (slot_linked st b key pay x) appended. by rewrite meta_appended.
  - autorewrite with store. repeat case_decide; simplify_eq; done.
  - intros l. autorewrite with store. destruct (ok_cells _ _ _ Hok l) as (? & ? & ?).
    destruct (ok_cells _ _ _ Hok x) as (? & ? & ?).
    assert (u64 (high n (key_info_field (at_loc st x)) + nfree st)).
    { rewrite <- (low_small n (nfree st)) by lia. apply u64_join; [lia | done]. }
    unfold bucket_ok. repeat case_decide; simplify_eq; cbn; split_and!; auto with words; first [tauto | unfold uint; lia].
  - intros l Hl. autorewrite with store. repeat case_decide; simplify_eq; cbn; split_and!; try done; try lia; try tauto.
    destruct Hu as (_ & -> & _). rewrite (Hrf eq_refl). tauto.
  - intros l. by autorewrite with store.
Qed.
End InsertOld.

Lemma insert_old st C m key pay fuel :
  ok st C m -> u64 key -> C (low (ntype st) key) <> [] ->
  (length (C (low (ntype st) key)) < 127)%nat ->
  inserted st m key pay (Insert (S fuel) key pay UINT64_MAX st) \/
  (nfree st = 2 ^ ntype st /\ m !! key = None /\
   Insert (S fuel) key pay UINT64_MAX st = Some ((true, NFOUND), st)).
Proof.
  intros Hok Hkey HC Hlen. pose proof (ok_type _ _ _ Hok) as Hn. pose proof (pow_bounds _ Hn).
  destruct (key_bucket _ key Hn Hkey) as (E1 & E2 & Hb). set (b := low (ntype st) key) in *.
  pose proof (ok_chain _ _ _ Hok b Hb) as Hc. pose proof (c_size _ _ _ Hc) as Hs.
  assert (Hrange : forall l, l ∈ C b -> l.2 <> NFOUND).
  { intros l Hl. destruct (c_range _ _ _ Hc l Hl) as [Hr _]. pose proof (ok_free _ _ _ Hok).
    unfold in_range, NFOUND in *. destruct l.1; lia. }
  cbn [Insert]. rewrite E1, E2, land_size_lo by apply (ok_cells _ _ _ Hok). rewrite <- Hs.
  assert (0 < length (C b))%nat by (destruct (C b); [done | cbn; lia]).
  rewrite (proj2 (Z.eqb_neq (Z.of_nat _) 0)) by lia.
  rewrite (proj2 (Z.eqb_neq _ 255)) by (intros E; rewrite E in Hs; change (Bucket.count 255) with 127 in Hs; lia).
  rewrite Nat2Z.id.
  destruct (chain_walk_spec st b (high (ntype st) key) Hn (ok_cells _ _ _ Hok) (C b) true (true, b) 0 (true, b))
    as [(c1 & l & c2 & EC & Hc1 & Hh & Hw)|[Hnone Hw]].
  - apply Hc.
  - intros x Hx. destruct (c_head _ _ _ Hc) as [E|E]; [done|]. rewrite E in Hx. by injection Hx.
  - apply Hc.
  - left. rewrite Hw. eexists _, _, C. split; [done|]. split; [apply Hrange; rewrite EC; set_solver|].
    split; [by rewrite meta_mod_loc|]. apply (ok_set_payload st _ C m key pay l c1 c2); try done.
    + apply meta_mod_loc.
    + intros l'. by rewrite at_mod_loc.
    + intros l'. by rewrite root_mod_loc.
  - destruct (list.last (C b)) as [x|] eqn:Ex; [|by apply last_None in Ex]. rewrite Hw.
    apply last_Some in Ex as [c Ec]. assert (Hx : x ∈ C b) by (rewrite Ec; set_solver).
    destruct (c_range _ _ _ Hc x Hx) as [Hxr _]. destruct (decide (nfree st = 2 ^ ntype st)) as [Hfull|Hfree].
    + right. rewrite (append_full st C m) by done. by rewrite (ok_map _ _ _ Hok).
    + left. rewrite (append_proceeds st C m) by (done || by apply (old_inner st C m key Hok Hkey c x Ec)).
      assert (Hroot : size_field (at_loc (slot_linked st b key pay x) (true, b)) = size_field (at_loc st (true, b))).
      { pose proof (old_root_flag st C m key Hok Hkey c x Ec) as Hrf. fold b in Hrf.
        unfold slot_linked, slot_written. autorewrite with store.
        repeat case_decide; simplify_eq; cbn; try done. by symmetry; apply Hrf. }
      rewrite Hroot, cas_same. cbn [negb]. rewrite wrap_small.
      * eexists _, _, _. split; [done|]. split; [cbn; pose proof (ok_free _ _ _ Hok); unfold NFOUND; lia|].
        split; [|by apply (appended_ok st C m key pay Hok Hkey c x Ec Hlen)].
        transitivity (ntype (appended st key pay x)); [done | by rewrite meta_appended].
      * pose proof (u8_split _ (proj1 (proj2 (ok_cells _ _ _ Hok (true, b))))) as E. rewrite <- Hs in E.
        unfold uint. destruct (flag _); lia.
Qed.

(** ** Moving a free bucket preserves the representation *)

Lemma linked_app st c x d : linked st (c ++ x :: d) <-> linked st (c ++ [x]) /\ linked st (x :: d).
Proof.
  induction c as [|y c IH]; cbn [app]; [split; [done | by intros [_ ?]]|].
  destruct c as [|z c]; cbn [app] in *.
  - rewrite !linked_cons. split; [intros [? ?]; by split_and! | by intros ([? _] & ?)].
  - rewrite !(linked_cons _ y). tauto.
Qed.

Section Move.
Context (st st' : Store) (C : Z -> list location_t) (m : gmap Z Z).
Context (root iter id : Z) (c1 c2 : list location_t) (p : location_t).
Abbreviation l := ((false, id) : location_t).
Abbreviation l' := ((true, iter) : location_t).
Abbreviation n := (ntype st).
Hypothesis Hok : ok st C m.
Hypothesis Hroot : 0 <= root < 2 ^ n.
Hypothesis HC : C root = c1 ++ p :: l :: c2.
Hypothesis Hiter : 0 <= iter < 2 ^ n.
Hypothesis Hunused : root_of st l' = ALL_MASK_64.
Hypothesis Hm : meta_info st' = meta_info st.
(** The bucket is copied and its parent points to the copy. *)
Hypothesis Hcopy : at_loc st' l' = at_loc st l.
Hypothesis Hparent : payload (at_loc st' p) = payload (at_loc st p) /\
  key_info_field (at_loc st' p) = high n (key_info_field (at_loc st p)) + iter /\
  size_field (at_loc st' p) = 128 + Bucket.count (size_field (at_loc st p)).
Hypothesis Hrest : forall x, x <> p -> x <> l' -> at_loc st' x = at_loc st x.
Hypothesis Hrt : forall x, root_of st' x =
  if decide (x = l) then ALL_MASK_64 else if decide (x = l') then root else root_of st x.

Lemma move_chain : chain_ok st root (C root).
Proof. by apply (ok_chain _ _ _ Hok). Qed.

Lemma move_unused b : 0 <= b < 2 ^ n -> l' ∉ C b.
Proof.
  intros Hb Hin. destruct (chain_member st C m b _ Hok Hb Hin) as [_ E]. rewrite Hunused in E.
  by apply (root_not_all st C m b Hok Hb).
Qed.

Lemma move_distinct : l <> (true, root) /\ l' <> (true, root) /\ p <> l' /\
  (p ∉ c1 /\ p ∉ l :: c2 /\ l ∉ c1 /\ l ∉ c2) /\ NoDup (c1 ++ p :: l :: c2).
Proof.
  pose proof (c_nodup _ _ _ move_chain) as Hnd. rewrite HC in Hnd.
  assert (Hin : (true, root) ∈ C root).
  { destruct (c_head _ _ _ move_chain) as [E|E]; [rewrite E in HC; by destruct c1|].
    by apply list.head_Some_elem_of. }
  pose proof (move_unused root Hroot) as Hu. split_and!; [done|..].
  - intros E. by rewrite E in Hu.
  - intros ->. apply Hu. rewrite HC. set_solver.
  - apply list.NoDup_app in Hnd as (_ & Hd & Hnd). intros Hp. apply (Hd p Hp). set_solver.
  - apply list.NoDup_app in Hnd as (_ & _ & Hnd). by apply list.NoDup_cons in Hnd as [? _].
  - apply list.NoDup_app in Hnd as (_ & Hd & _). intros Hp. apply (Hd l Hp). set_solver.
  - apply list.NoDup_app in Hnd as (_ & _ & Hnd). apply list.NoDup_cons in Hnd as [_ Hnd].
    by apply list.NoDup_cons in Hnd as [? _].
  - done.
Qed.

(** The members of the chain, before and after. *)
Lemma move_elem x : x ∈ c1 ++ p :: l' :: c2 <-> x = l' \/ (x ∈ C root /\ x <> l).
Proof.
  destruct move_distinct as (_ & _ & _ & (Hp1 & Hp2 & Hl1 & Hl2) & _). rewrite HC.
  rewrite !elem_of_app, !elem_of_cons. split.
  - intros [Hx|[->|[->|Hx]]]; [right|right|by left|right]; split; try tauto; intros ->; set_solver.
  - intros [->|[[Hx|[->|[->|Hx]]] Hne]]; tauto.
Qed.

Lemma move_parent_size : u8 (size_field (at_loc st' p)) /\ flag (size_field (at_loc st' p)) = true /\
  Bucket.count (size_field (at_loc st' p)) = Bucket.count (size_field (at_loc st p)).
Proof.
  destruct Hparent as (_ & _ & ->).
  destruct (flag_count true (Bucket.count (size_field (at_loc st p))) (count_bound _)) as (F1 & F2 & F3).
  by split_and!.
Qed.

Lemma move_inner : Bucket.count (size_field (at_loc st l)) = 0.
Proof.
  apply (c_inner _ _ _ move_chain). rewrite HC. destruct c1; cbn; set_solver.
Qed.

Lemma move_count b : 0 <= b < 2 ^ n ->
  Bucket.count (size_field (at_loc st' (true, b))) = Bucket.count (size_field (at_loc st (true, b))).
Proof.
  intros Hb. destruct (decide ((true, b) = l')) as [E|Hne].
  - injection E as ->. rewrite Hcopy, move_inner. pose proof (ok_chain _ _ _ Hok iter Hiter) as Hc.
    rewrite <- (c_size _ _ _ Hc). destruct (c_head _ _ _ Hc) as [->|E]; [done|].
    exfalso. apply (move_unused iter Hiter). by apply list.head_Some_elem_of.
  - destruct (decide ((true, b) = p)) as [->|Hp]; [apply move_parent_size | by rewrite Hrest].
Qed.

Lemma move_linked : linked st' (c1 ++ p :: l' :: c2).
Proof.
  pose proof (ok_type _ _ _ Hok). destruct move_distinct as (_ & _ & Hpl & (Hp1 & Hp2 & Hl1 & Hl2) & _).
  pose proof (move_unused root Hroot) as Hu. rewrite HC in Hu.
  pose proof (c_linked _ _ _ move_chain) as Hlk. rewrite HC in Hlk.
  apply linked_app in Hlk as [H1 H2]. apply linked_cons in H2 as [_ H2]. apply linked_app. split.
  - destruct c1 as [|y c]; [done|]. clear -H1 Hrest Hp1 Hu Hm.
    revert H1. apply (linked_app_frame st). intros x Hx. unfold nxt. rewrite Hrest, Hm; set_solver.
  - apply linked_cons. split.
    + destruct Hparent as (_ & Hk & _). unfold nxt, next_of. destruct move_parent_size as (_ & -> & _).
      rewrite Hk, Hm. f_equal. rewrite <- (low_small n iter) by done. rewrite low_join by lia. done.
    + destruct c2 as [|y c]; [done|]. apply linked_cons in H2 as [E H2]. apply linked_cons. split.
      * unfold nxt. by rewrite Hcopy, Hm.
      * revert H2. apply linked_frame. intros x Hx. unfold nxt. rewrite Hrest, Hm; set_solver.
Qed.

Lemma move_chain' : chain_ok st' root (c1 ++ p :: l' :: c2).
Proof.
  destruct move_distinct as (Hlr & Hlr' & Hpl & (Hp1 & Hp2 & Hl1 & Hl2) & Hnd).
  pose proof (move_unused root Hroot) as Hu. pose proof move_elem as Hel.
  destruct move_chain as [H1 H2 H3 H4 H5 H6 H7]. split.
  - rewrite move_count, <- H1, HC, !length_app by done. done.
  - right. destruct H2 as [E|E]; [rewrite E in HC; by destruct c1|]. rewrite HC in E. by destruct c1.
  - apply move_linked.
  - rewrite HC in Hu. clear -Hnd Hu. apply list.NoDup_app in Hnd as (N1 & N2 & N3).
    apply list.NoDup_cons in N3 as [N3 N4]. apply list.NoDup_cons in N4 as [N4 N5].
    apply list.NoDup_app. split_and!; [done | set_solver |].
    apply list.NoDup_cons. split; [set_solver|]. apply list.NoDup_cons. split; [set_solver | done].
  - intros x [->|[Hx Hne]]%Hel; rewrite Hrt; unfold in_range; rewrite Hm.
    + rewrite decide_False, decide_True by done. done.
    + destruct (H5 x Hx) as [Hr E]. rewrite !decide_False; [done | | done]. by intros ->.
  - intros x Hx. assert (Hx' : x = l' \/ x ∈ tail (C root)).
    { rewrite HC. destruct c1; cbn in *; set_solver. }
    destruct Hx' as [->|Hx']; [by rewrite Hcopy, move_inner|].
    destruct (decide (x = p)) as [->|Hp]; [destruct move_parent_size as (_ & _ & ->); by apply H6|].
    rewrite Hrest; [by apply H6 | done |]. intros ->. apply Hu. destruct (C root); set_solver.
  - intros x Hx. rewrite last_app_cons, last_cons_cons in Hx. rewrite HC, last_app_cons, last_cons_cons in H7.
    destruct c2 as [|y c].
    + injection Hx as <-. rewrite Hcopy, (H7 l eq_refl). by rewrite !bool_decide_eq_false_2.
    + rewrite last_cons_cons in Hx, H7. rewrite Hrest; [by apply H7| |]; intros ->;
        apply list.last_Some_elem_of in Hx; [set_solver|]. apply Hu. rewrite HC. set_solver.
Qed.

Lemma ok_move : ok st' (upd root (c1 ++ p :: l' :: c2) C) m.
Proof.
  destruct move_distinct as (Hlr & Hlr' & Hpl & (Hp1 & Hp2 & Hl1 & Hl2) & Hnd).
  pose proof Hok as [Hn Hf Hcells Hch Hown Hmap].
  assert (Hother : forall b x, 0 <= b < 2 ^ n -> b <> root -> x ∈ C b -> x <> p /\ x <> l /\ x <> l').
  { intros b x Hb Hne Hx. destruct (chain_member st C m b x Hok Hb Hx) as [_ E].
    split_and!; intros ->; [| |by apply (move_unused b Hb)];
      match goal with Hx : ?y ∈ _ |- _ =>
        destruct (chain_member st C m root y Hok Hroot) as [_ E2]; [rewrite HC; set_solver|] end; congruence. }
  assert (Hkeep : forall h b, 0 <= b < 2 ^ n -> b <> root -> chain_find st' h (C b) = chain_find st h (C b)).
  { intros h b Hb Hne. apply chain_find_frame; [by rewrite Hm|]. intros x Hx.
    destruct (Hother b x Hb Hne Hx) as (? & ? & ?). by apply Hrest. }
  split; rewrite ?Hm; try done.
  - intros x. destruct (decide (x = p)) as [->|Hp]; [|destruct (decide (x = l')) as [->|Hl']; [by rewrite Hcopy | by rewrite Hrest]].
    destruct (Hcells p) as (K1 & K2 & K3). destruct Hparent as (E1 & E2 & _).
    split; [|split; [apply move_parent_size | by rewrite E1]].
    rewrite E2, <- (low_small n iter) by done. apply u64_join; [lia | done].
  - intros b Hb. destruct (decide (b = root)) as [->|Hne]; [rewrite upd_eq; apply move_chain'|].
    rewrite upd_ne by done. apply (chain_frame st); rewrite ?Hm; [done.. | | by apply move_count | by apply Hch].
    intros x Hx. destruct (Hother b x Hb Hne Hx) as (Hp & Hl & Hl'). by rewrite Hrest, Hrt, !decide_False.
  - intros x Hx. rewrite Hrt. case_decide; [done|]. case_decide as E.
    + subst x. intros _. split; [done|]. rewrite upd_eq. set_solver.
    + intros Hne. destruct (Hown x) as [Hr Hin]; [by unfold in_range in *; rewrite Hm in Hx | done |].
      split; [done|]. destruct (decide (root_of st x = root)) as [Er|Hner]; [|by rewrite upd_ne].
      rewrite Er, upd_eq. apply move_elem. right. rewrite Er in Hin. done.
  - intros k Hk. rewrite Hmap by done. destruct (decide (low n k = root)) as [El|Hne].
    + rewrite El, upd_eq, HC, !chain_find_app, !chain_find_cons, Hcopy, Hm.
      destruct Hparent as (E1 & E2 & _). rewrite E1, E2.
      rewrite <- (low_small n iter), high_join by (done || lia).
      pose proof (move_unused root Hroot) as Hu. rewrite HC, elem_of_app, !elem_of_cons in Hu.
      rewrite elem_of_cons in Hp2.
      rewrite !(chain_find_frame st st'); [done | by rewrite Hm | | by rewrite Hm |];
        intros x Hx; apply Hrest; intros ->; tauto.
    + rewrite upd_ne by done. symmetry. apply Hkeep; [apply low_bound; lia | done].
Qed.
End Move.

Lemma points_to st x l : 2 <= ntype st <= 50 -> bucket_ok (at_loc st x) ->
  (WeakBucket.next_bucket_id (hi_mask (ntype st)) (at_loc st x) =? l.2) &&
  Bool.eqb (WeakBucket.next_bucket_is_internal (at_loc st x)) l.1 = bool_decide (nxt st x = l).
Proof.
  intros Hn Hx. rewrite next_id_low, internal_flag by (done || lia). unfold nxt, next_of.
  destruct l as [f i]. cbn [fst snd]. case_bool_decide as E.
  - injection E as -> ->. by rewrite Z.eqb_refl, Bool.eqb_reflx.
  - destruct (Z.eqb_spec (low (ntype st) (key_info_field (at_loc st x))) i) as [Ei|]; [|done]. cbn [andb].
    apply Bool.eqb_false_iff. intros Ef. apply E. by rewrite Ei, Ef.
Qed.

(** The search for the parent finds the bucket before the location. *)
Lemma parent_loop_chain st l p c2 :
  2 <= ntype st <= 50 -> (forall x, bucket_ok (at_loc st x)) ->
  forall c1 first iter, let c := c1 ++ p :: l :: c2 in
    linked st c -> NoDup c -> (forall x, x ∈ c -> in_range st x) ->
    (forall x, head c = Some x -> iter = x) ->
    (forall k x, c !! k = Some x ->
       (Bucket.count (size_field (at_loc st x)) =? 0) = negb (first && (k =? 0)%nat)) ->
    parent_loop (length c) st (hi_mask (ntype st)) first l iter = Parent p.
Proof.
  intros Hn Hcells. induction c1 as [|x c1 IH]; intros first iter c Hlk Hnd Hr Hhd Hcnt; unfold c in *.
  - destruct (by_location_in_range st p Hn) as [E _]; [apply Hr; set_solver|].
    cbn [app length parent_loop]. rewrite (Hhd p eq_refl), E, size_count, (Hcnt 0%nat p eq_refl) by done.
    rewrite points_to by done. apply linked_cons in Hlk as [-> _]. rewrite bool_decide_eq_true_2 by done.
    by destruct first.
  - destruct (by_location_in_range st x Hn) as [E _]; [apply Hr; set_solver|].
    cbn [app length parent_loop]. rewrite (Hhd x eq_refl), E, size_count, (Hcnt 0%nat x eq_refl) by done.
    rewrite points_to by done. cbn [app] in *.
    destruct (c1 ++ p :: l :: c2) as [|y c'] eqn:Ec; [by destruct c1|].
    apply linked_cons in Hlk as [Hy Hlk]. rewrite bool_decide_eq_false_2.
    + assert (Eb : (if first then negb (first && (0 =? 0)%nat) else negb (negb (first && (0 =? 0)%nat))) = false)
        by (by destruct first).
      rewrite Eb. apply IH.
      * done.
      * by apply list.NoDup_cons in Hnd as [_ ?].
      * intros z Hz. apply Hr. by apply elem_of_cons; right.
      * intros z [= <-]. rewrite <- Hy. unfold nxt. rewrite <- next_bucket_next_of by (done || lia). done.
      * intros k z Hk. rewrite (Hcnt (S k) z Hk). by rewrite andb_false_r.
    + rewrite Hy. intros ->. apply list.NoDup_cons in Hnd as [_ Hnd]. rewrite <- Ec in Hnd.
      destruct c1 as [|z c1]; cbn [app] in *; injection Ec as Ez _; subst.
      * apply list.NoDup_cons in Hnd as [Hnd _]. set_solver.
      * apply list.NoDup_cons in Hnd as [Hnd _]. set_solver.
Qed.

(** A free bucket of a chain has a bucket before it. *)
Lemma chain_split st C m root id : ok st C m -> 0 <= root < 2 ^ ntype st -> (false, id) ∈ C root ->
  exists c1 p c2, C root = c1 ++ p :: (false, id) :: c2.
Proof.
  intros Hok Hr Hin. pose proof (ok_chain _ _ _ Hok root Hr) as Hc.
  apply list_elem_of_split in Hin as (d & c2 & E). destruct (list.last d) as [p|] eqn:Ed.
  - apply last_Some in Ed as [c1 ->]. exists c1, p, c2. by rewrite E, <- app_assoc.
  - apply last_None in Ed as ->. rewrite E in Hc. by destruct (c_head _ _ _ Hc).
Qed.

Lemma chain_counts st b c k x : chain_ok st b c -> c !! k = Some x ->
  (Bucket.count (size_field (at_loc st x)) =? 0) = negb (true && (k =? 0)%nat).
Proof.
  intros Hc Hk. destruct k as [|k].
  - assert (Hx : x = (true, b)).
    { destruct (c_head _ _ _ Hc) as [E|E]; destruct c; try done. cbn in *. congruence. }
    subst x. rewrite <- (c_size _ _ _ Hc). apply Z.eqb_neq. destruct c; [done|]. cbn. lia.
  - cbn. apply Z.eqb_eq, (c_inner _ _ _ Hc). by eapply chain_tail.
Qed.

(** In a store with the copy in place the parent is found. *)
Lemma FindParent_copy st C m root iter id (c1 : list location_t) (p : location_t) (c2 : list location_t) fuel :
  ok st C m -> 0 <= root < 2 ^ ntype st -> C root = c1 ++ p :: (false, id) :: c2 ->
  0 <= iter < 2 ^ ntype st -> root_of st (true, iter) = ALL_MASK_64 ->
  FindParent (S fuel) (false, id)
    (set_loc (true, iter) (at_loc st (false, id)) (set_root_managed iter root st)) = Some p.
Proof.
  intros Hok Hroot HC Hit Hun. set (st2 := set_loc _ _ _). pose proof (ok_type _ _ _ Hok) as Hn.
  pose proof (ok_chain _ _ _ Hok root Hroot) as Hc. pose proof (move_unused st C m iter Hok Hun root Hroot) as Hu.
  assert (Hin : (false, id) ∈ C root) by (rewrite HC; set_solver).
  destruct (c_range _ _ _ Hc _ Hin) as [Hr E].
  assert (Hm : meta_info st2 = meta_info st) by (unfold st2; by autorewrite with store).
  assert (Hat : forall x, x ∈ C root -> at_loc st2 x = at_loc st x).
  { intros x Hx. unfold st2. autorewrite with store. rewrite decide_False; [done|]. by intros ->. }
  assert (Hcells : forall x, bucket_ok (at_loc st2 x)).
  { intros x. unfold st2. autorewrite with store. case_decide; apply (ok_cells _ _ _ Hok). }
  assert (Hrange : forall x, in_range st2 x <-> in_range st x) by (intros; unfold in_range; by rewrite Hm).
  cbn [FindParent]. destruct (by_location_in_range st2 (false, id)) as [_ ->]; [by rewrite Hm | by apply Hrange|].
  assert (Hrt : root_of st2 (false, id) = root) by (unfold st2; autorewrite with store; done).
  rewrite Hrt, (proj2 (Z.eqb_neq _ _)) by (by apply (root_not_all st C m)).
  assert (Hhd : (true, root) ∈ C root).
  { destruct (c_head _ _ _ Hc) as [E'|E']; [rewrite E' in Hin; set_solver | by apply list.head_Some_elem_of]. }
  rewrite size_count, (Hat _ Hhd), <- (c_size _ _ _ Hc), Nat2Z.id, HC by done.
  rewrite parent_loop_chain; [done | by rewrite Hm | done | unfold location_t in *; rewrite <- HC..].
  - apply (linked_frame st); [|apply Hc]. intros x Hx. unfold nxt. by rewrite Hat, Hm.
  - apply Hc.
  - intros x Hx. by apply Hrange, Hc.
  - intros x Hx. destruct (c_head _ _ _ Hc) as [E'|E']; [by rewrite E' in Hx|].
    pose proof (eq_trans (eq_sym E') Hx) as E2. by injection E2.
  - intros k x Hk. rewrite Hat by (by eapply list_elem_of_lookup_2). by eapply chain_counts.
Qed.

Lemma move_bucket_ok st C m root iter id fuel :
  ok st C m -> 0 <= root < 2 ^ ntype st -> (false, id) ∈ C root ->
  0 <= iter < 2 ^ ntype st -> root_of st (true, iter) = ALL_MASK_64 ->
  exists st' C', move_bucket (S fuel) (false, id) root iter st = Some (true, st') /\
    meta_info st' = meta_info st /\ ok st' C' m.
Proof.
  intros Hok Hroot Hin Hit Hun. destruct (chain_split st C m root id Hok Hroot Hin) as (c1 & p & c2 & HC).
  pose proof (ok_type _ _ _ Hok) as Hn. pose proof (pow_bounds _ Hn). pose proof (ok_chain _ _ _ Hok root Hroot) as Hc.
  pose proof (move_unused st C m iter Hok Hun root Hroot) as Hu.
  assert (Hp : p ∈ C root) by (rewrite HC; set_solver). destruct (c_range _ _ _ Hc p Hp) as [Hpr _].
  assert (Hpi : p <> (true, iter)) by (by intros ->).
  unfold move_bucket. rewrite at_set_root_managed, (FindParent_copy st C m root iter id c1 p c2) by done.
  set (st2 := set_loc _ _ _).
  assert (Hm : meta_info st2 = meta_info st) by (unfold st2; by autorewrite with store).
  assert (Hat : at_loc st2 p = at_loc st p) by (unfold st2; autorewrite with store; by rewrite decide_False).
  rewrite (proj2 (Z.eqb_neq _ _)).
  2:{ pose proof (ok_free _ _ _ Hok). unfold in_range, ALL_MASK_64 in *. destruct p.1; lia. }
  destruct (by_location_in_range st2 p) as [-> _]; [by rewrite Hm | by unfold in_range; rewrite Hm |].
  rewrite Hat. destruct (ok_cells _ _ _ Hok p) as (Hk & Hs & _).
  pose proof (c_linked _ _ _ Hc) as Hlk. rewrite HC in Hlk. apply linked_app in Hlk as [_ Hlk].
  apply linked_cons in Hlk as [Hnx _]. unfold nxt, next_of in Hnx. injection Hnx as Hfl Hid.
  rewrite land_size_hi, Hfl by done. rewrite land_compl_hi_mask by (unfold uint in *; lia).
  rewrite Hid, Z.eqb_refl. cbn [negb].
  eexists _, _. split; [reflexivity|]. split; [unfold st2; by autorewrite with store|].
  apply (ok_move st _ C m root iter id c1 c2 p); try done; unfold st2; autorewrite with store.
  - done.
  - repeat case_decide; by simplify_eq.
  - rewrite !decide_True by done. cbn. split_and!; [by rewrite decide_False | |].
    + rewrite land_hi_mask, land_compl_hi_mask, lor_high_low by (done || lia). by rewrite low_small.
    + rewrite <- (with_internal_eq _ true) by done. done.
  - intros x Hx1 Hx2. autorewrite with store. by rewrite !decide_False.
  - intros x. autorewrite with store. done.
Qed.

Lemma slot_loop_ok k fuel st C m root iter id :
  ok st C m -> 0 <= root < 2 ^ ntype st -> (false, id) ∈ C root ->
  0 <= iter -> iter + Z.of_nat k <= 2 ^ ntype st ->
  exists r st' C', slot_loop k (S fuel) (false, id) root iter st = Some (r, st') /\
    meta_info st' = meta_info st /\ ok st' C' m.
Proof.
  intros Hok Hroot Hin. pose proof (ok_type _ _ _ Hok) as Hn.
  revert iter. induction k as [|k IH]; intros iter Hi Hk; cbn [slot_loop]; [by exists false, st, C|].
  assert (Hr : in_range st (true, iter)) by (unfold in_range; cbn [fst snd]; lia).
  destruct (by_location_in_range st (true, iter) Hn Hr) as [_ ->].
  destruct (_ || _) eqn:E; [apply IH; lia|].
  apply orb_false_iff in E as [[_ E]%orb_false_iff _]. apply negb_false_iff, Z.eqb_eq in E.
  destruct (move_bucket_ok st C m root iter id fuel Hok Hroot Hin ltac:(lia) E) as (st' & C' & ? & ? & ?).
  by exists true, st', C'.
Qed.

Lemma high_le n x : 0 <= n -> 0 <= x -> 0 <= high n x <= x.
Proof.
  intros Hn Hx. pose proof (high_low n x Hn). pose proof (low_bound n x Hn). split; [|lia].
  unfold high. apply Z.mul_nonneg_nonneg; [lia | apply Z.div_pos; lia].
Qed.

(** Moving a free bucket always returns and keeps the map. *)
Lemma Optimize_ok fuel st C m l level :
  ok st C m -> 0 <= l.2 -> 0 <= level < 256 ->
  exists r st' C', OptimizeFreeBucket (S fuel) l level st = Some (r, st') /\
    meta_info st' = meta_info st /\ ok st' C' m.
Proof.
  intros Hok Hl Hlv. pose proof (ok_type _ _ _ Hok) as Hn. pose proof (pow_bounds _ Hn).
  destruct l as [[] id]; cbn [snd] in Hl; unfold OptimizeFreeBucket; cbn [fst]; [by exists false, st, C|].
  destruct (Z.eqb_spec (root_id_by_location st (false, id)) ALL_MASK_64) as [|Hne]; [by exists false, st, C|].
  assert (Hr : in_range st (false, id)).
  { unfold in_range, root_id_by_location in *. cbn [fst snd] in *.
    destruct (Z.leb_spec (nfree st) id); [done | lia]. }
  destruct (by_location_in_range st (false, id) Hn Hr) as [_ E]. rewrite E in *.
  destruct (ok_owner _ _ _ Hok _ Hr Hne) as [Hroot Hin].
  set (root := root_of st (false, id)) in *. rewrite land_hi_mask by (unfold uint; lia).
  pose proof (high_le 2 root ltac:(lia) ltac:(lia)). rewrite shl_pow by lia.
  apply (slot_loop_ok _ fuel st C m root); try done; lia.
Qed.

(** ** Histories of a builder *)

(** One call of a worker, with the map the table stands for: an insertion, or
    the move of a free bucket.  The worker inserts a key whose root slot is not
    lent to another chain and whose chain has room in its 7-bit size. *)
Inductive bstep : Store * gmap Z Z -> Store * gmap Z Z -> Prop :=
| b_insert st m key pay fuel l st' :
    u64 key -> not_lent st key -> WeakBucket.size (at_loc st (true, low (ntype st) key)) < 127 ->
    Insert (S fuel) key pay UINT64_MAX st = Some (l, st') ->
    bstep (st, m) (st', if l.2 =? NFOUND then m else <[key := wrap 56 pay]> m)
| b_optimize st m fuel l level r st' :
    0 <= l.2 -> 0 <= level < 256 ->
    OptimizeFreeBucket (S fuel) l level st = Some (r, st') -> bstep (st, m) (st', m).

Lemma Insert_ok fuel st C m key pay :
  ok st C m -> u64 key -> not_lent st key ->
  WeakBucket.size (at_loc st (true, low (ntype st) key)) < 127 ->
  inserted st m key pay (Insert (S fuel) key pay UINT64_MAX st) \/
  (nfree st = 2 ^ ntype st /\ m !! key = None /\
   Insert (S fuel) key pay UINT64_MAX st = Some ((true, NFOUND), st)).
Proof.
  intros Hok Hkey Hnl Hsz. pose proof (ok_type _ _ _ Hok) as Hn.
  destruct (key_bucket _ key Hn Hkey) as (_ & _ & Hb).
  destruct (decide (C (low (ntype st) key) = [])) as [E|E]; [left; by apply (insert_new st C)|].
  apply (insert_old st C); try done.
  rewrite size_count, <- (c_size _ _ _ (ok_chain _ _ _ Hok _ Hb)) in Hsz by apply (ok_cells _ _ _ Hok). lia.
Qed.

Lemma bstep_ok s s' : bstep s s' -> (exists C, ok s.1 C s.2) -> exists C, ok s'.1 C s'.2.
Proof.
  destruct 1 as [st m key pay fuel l st' Hkey Hnl Hsz HI | st m fuel l level r st' Hl Hlv HO];
    intros [C Hok]; cbn [fst snd] in *.
  - destruct (Insert_ok fuel st C m key pay Hok Hkey Hnl Hsz) as [(l0 & s0 & C0 & E & Hl & _ & Hok')|(_ & _ & E)];
      rewrite E in HI; injection HI as <- <-.
    + exists C0. by rewrite (proj2 (Z.eqb_neq _ _)).
    + by exists C.
  - destruct (Optimize_ok fuel st C m l level Hok Hl Hlv) as (r0 & s0 & C0 & E & _ & Hok').
    rewrite E in HO. injection HO as <- <-. by exists C0.
Qed.

(** ** Sizing *)

Lemma bucket_type_loop_spec count fuel i :
  0 <= count < 2 ^ 63 -> 1 <= i -> i + Z.of_nat fuel = 65 -> i <= 63 ->
  (i = 1 \/ 2 ^ (i - 1) <= count) ->
  exists t, bucket_type_loop fuel i count = Some t /\ i <= t <= 63 /\ count < 2 ^ t /\
    (t = 1 \/ 2 ^ (t - 1) <= count).
Proof.
  intros Hc. revert i. induction fuel as [|fuel IH]; intros i Hi Hf Hi2 Hlow; [lia|].
  cbn [bucket_type_loop]. rewrite shl_pow, (wrap_small 64 (count + 1)) by (unfold uint; lia).
  destruct (Z.ltb_spec (2 ^ i) (count + 1)) as [Hlt|Hge].
  - rewrite wrap_small by (unfold uint; lia).
    assert (i < 63) by (apply (Z.pow_lt_mono_r_iff 2); lia).
    destruct (IH (i + 1)) as (t & ? & ? & ? & ?); try lia.
    { right. replace (i + 1 - 1) with i by lia. lia. }
    exists t. split_and!; try done; lia.
  - exists i. split_and!; try done; lia.
Qed.

(** The table is sized to its keys.  For every count below 2{^63} the search
    for a bucket type ends, and the type is the least one from 2 to 50 whose
    table has more slots than keys (50 when there is none). *)
Lemma get_bucket_type_least count :
  0 <= count < 2 ^ 63 ->
  exists t, get_bucket_type count = Some t /\ 2 <= t <= 50 /\
    (count < 2 ^ t \/ t = 50) /\ (t = 2 \/ 2 ^ (t - 1) <= count).
Proof.
  intros Hc. destruct (bucket_type_loop_spec count 64 1) as (t & Hl & Ht & Hu & Hlow); try lia.
  unfold get_bucket_type. rewrite Hl. unfold QED_INITIAL_BUCKET_TYPE, QED_MAX_BUCKET_TYPE.
  exists (Z.min (Z.max t 2) 50). split; [done|]. split; [lia|].
  destruct (Z.le_gt_cases t 2) as [Hle|Hgt].
  - rewrite Z.max_r, Z.min_l by lia. split; [left|by left].
    apply Z.lt_le_trans with (2 ^ t); [done | apply Z.pow_le_mono_r; lia].
  - rewrite Z.max_l by lia. destruct (Z.le_gt_cases t 50).
    + rewrite Z.min_l by lia. split; [by left|]. right. lia.
    + rewrite Z.min_r by lia. split; [by right|]. right.
      apply Z.le_trans with (2 ^ (t - 1)); [apply Z.pow_le_mono_r; lia | lia].
Qed.

Lemma get_bucket_type_least_witness :
  exists t, get_bucket_type 1000 = Some t /\ 2 <= t <= 50 /\
    (1000 < 2 ^ t \/ t = 50) /\ (t = 2 \/ 2 ^ (t - 1) <= 1000).
Proof. apply (get_bucket_type_least 1000). lia. Defined.

(** The memory of a builder whose files are opened and whose meta data is
    reset. *)
Definition opened (st : Store) : Prop :=
  (forall l, bucket_ok (at_loc st l)) /\
  exists file_size m0, OpenMeta true file_size m0 = (true, meta_info st).

Lemma bucket_type_range count t : get_bucket_type count = Some t -> 2 <= t <= 50.
Proof.
  unfold get_bucket_type, QED_INITIAL_BUCKET_TYPE, QED_MAX_BUCKET_TYPE.
  destruct (bucket_type_loop 64 1 count); [|done]. intros [= <-]. lia.
Qed.

Lemma Reserve_fresh_ok st count st' :
  opened st -> Reserve count st = Some (true, st') -> ok st' (fun _ => []) ∅.
Proof.
  intros [Hcells (fsz & m0 & Hopen)] HR.
  assert (Hm : meta_info st = mkMetaInfo 0 2 0 0 0 0).
  { unfold OpenMeta in Hopen. destruct (fsz =? 0); [done|]. by injection Hopen as _ <-. }
  unfold Reserve in HR. destruct (get_bucket_type count) as [t|] eqn:Et; [|done].
  apply bucket_type_range in Et. rewrite (proj2 (Z.ltb_ge _ _)) in HR by (unfold QED_MAX_BUCKET_TYPE; lia).
  rewrite Hm in HR. cbn [bucket_type managed_id_count free_id_count Z.eqb andb set_bucket_type
    impl_version reserved_field extended_field_size] in HR.
  set (t' := if t <=? 2 then 2 else t) in HR.
  assert (Ht : 2 <= t' <= 50) by (unfold t'; destruct (Z.leb_spec t 2); lia).
  rewrite shl_pow, Z.sub_0_r in HR by lia. injection HR as <-.
  pose proof (pow_bounds t' Ht). unfold set_bucket_type. cbn [impl_version reserved_field managed_id_count
    free_id_count extended_field_size].
  split; cbn [meta_info bucket_type free_id_count]; try done; try lia.
  - intros [[] i]; unfold at_loc, memset; cbn [fst snd managed_bucket free_bucket];
      (destruct (_ && _); [by vm_compute|]); [apply (Hcells (true, i)) | apply (Hcells (false, i))].
  - intros b Hb. split; try done; try set_solver.
    + unfold at_loc, memset. cbn [fst snd managed_bucket].
      by rewrite (proj2 (Z.leb_le _ _)), (proj2 (Z.ltb_lt _ _)) by lia.
    + by left.
  - intros [[] i] Hr; unfold in_range in Hr; cbn [fst snd meta_info bucket_type free_id_count] in Hr; [|lia].
    unfold root_of, memset. cbn [fst snd root_bucket_id_table_managed].
    by rewrite (proj2 (Z.leb_le _ _)), (proj2 (Z.ltb_lt _ _)) by lia.
Qed.

Lemma history_ok st0 count st1 s :
  opened st0 -> Reserve count st0 = Some (true, st1) -> rtc bstep (st1, ∅) s -> exists C, ok s.1 C s.2.
Proof.
  intros Hop HR Hs. assert (H0 : exists C, ok (st1, ∅ : gmap Z Z).1 C (st1, ∅ : gmap Z Z).2).
  { exists (fun _ => []). by apply (Reserve_fresh_ok st0 count). }
  revert H0. induction Hs as [|s1 s2 s3 Hstep _ IH]; [done|]. intros Hx. by apply IH, (bstep_ok s1 s2).
Qed.

(** C14: the builder and the reader implement a finite map.  One thread opens and sizes a
    builder, then inserts keys and moves free buckets in any order, where each insertion finds
    the root slot of its key free or its own, not lent to another chain, and a chain of fewer
    than 127 buckets there: then the reader, volatile or not, finds for every 64-bit key the
    last payload that was inserted for it, cut to 56 bits, and NFOUND for every other key.
    (What happens otherwise is in [lent_slot_loses_key] and [chain_of_128_is_lost].) *)
Theorem builder_implements_map st0 count st1 st m vread key :
  opened st0 -> Reserve count st0 = Some (true, st1) -> rtc bstep (st1, ∅) (st, m) -> u64 key ->
  Find st vread key = Some (default NFOUND (m !! key)).
Proof.
  intros Hop HR Hs Hkey. destruct (history_ok st0 count st1 _ Hop HR Hs) as [C Hok]. by apply (Find_chain st C m).
Qed.

(** C15: insertion is total.  After such a history, in which every insertion found its root
    slot not lent and its chain shorter than 127, an insertion of a 64-bit key that finds the
    same returns without a recursive call (one unit of fuel is enough): it stores the key, or it
    reports that the free table is full, leaves the table as it was, and the key was not in
    it. *)
Theorem insertion_total st0 count st1 st m key pay :
  opened st0 -> Reserve count st0 = Some (true, st1) -> rtc bstep (st1, ∅) (st, m) ->
  u64 key -> not_lent st key -> WeakBucket.size (at_loc st (true, low (ntype st) key)) < 127 ->
  (exists l st', Insert 1 key pay UINT64_MAX st = Some (l, st') /\ l.2 <> NFOUND) \/
  (Insert 1 key pay UINT64_MAX st = Some ((true, NFOUND), st) /\
   nfree st = 2 ^ ntype st /\ m !! key = None).
Proof.
  intros Hop HR Hs Hkey Hnl Hsz. destruct (history_ok st0 count st1 _ Hop HR Hs) as [C Hok].
  destruct (Insert_ok 0 st C m key pay Hok Hkey Hnl Hsz) as [(l & st' & C' & E & Hl & _)|(? & ? & ?)].
  - left. by exists l, st'.
  - by right.
Qed.

(** A fresh builder, sized for 12 keys, and what insertion makes of a store. *)
Definition fresh : Store :=
  mkStore (fun _ => new_RawBucket) (fun _ => new_RawBucket) (fun _ => 0) (fun _ => 0)
    (mkMetaInfo 0 2 0 0 0 0).
Definition reserved (count : Z) : Store :=
  match Reserve count fresh with Some (_, st) => st | None => fresh end.
Definition ins (kp : Z * Z) (st : Store) : Store :=
  match Insert 2 kp.1 kp.2 UINT64_MAX st with Some (_, st) => st | None => st end.

Lemma fresh_opened : opened fresh.
Proof.
  split; [by intros [[] i]; vm_compute|]. exists 40, (mkMetaInfo 0 0 0 0 0 0). by vm_compute.
Qed.

Lemma ins_step st m k p l :
  u64 k -> not_lent st k -> WeakBucket.size (at_loc st (true, low (ntype st) k)) < 127 ->
  fst <$> Insert 2 k p UINT64_MAX st = Some l -> l.2 <> NFOUND ->
  bstep (st, m) (ins (k, p) st, <[k := wrap 56 p]> m).
Proof.
  intros Hk Hn Hs Hi Hl. unfold ins. cbn [fst snd].
  destruct (Insert 2 k p UINT64_MAX st) as [[l' st']|] eqn:E; [|done]. injection Hi as ->.
  pose proof (b_insert st m k p 1 l st' Hk Hn Hs E) as B. by rewrite (proj2 (Z.eqb_neq _ _)) in B.
Qed.

Lemma builder_implements_map_witness :
  Find (ins (0x25, 6) (ins (0x15, 5) (reserved 12))) true 0x15 = Some 5.
Proof.
  refine (builder_implements_map fresh 12 (reserved 12) _
            (<[0x25 := wrap 56 6]> (<[0x15 := wrap 56 5]> ∅)) true 0x15 fresh_opened eq_refl _ _);
    [|by vm_compute].
  eapply rtc_l; [|apply rtc_once].
  - apply (ins_step (reserved 12) ∅ 0x15 5 (true, 5)); [by vm_compute | by left | by vm_compute | by vm_compute | done].
  - apply (ins_step (ins (0x15, 5) (reserved 12)) _ 0x25 6 (false, 0)); [by vm_compute | right; by vm_compute | by vm_compute | by vm_compute | done].
Defined.

Lemma insertion_total_witness :
  (exists l st', Insert 1 0x15 5 UINT64_MAX (reserved 12) = Some (l, st') /\ l.2 <> NFOUND) \/
  (Insert 1 0x15 5 UINT64_MAX (reserved 12) = Some ((true, NFOUND), reserved 12) /\
   nfree (reserved 12) = 2 ^ ntype (reserved 12) /\ (∅ : gmap Z Z) !! 0x15 = None).
Proof.
  apply (insertion_total fresh 12 (reserved 12) (reserved 12) ∅ 0x15 5 fresh_opened eq_refl);
    [apply rtc_refl | by vm_compute | by left | by vm_compute].
Defined.

(** ** Where the map is lost *)

(** Three keys of root 5; then the first free bucket is moved into slot 4. *)
Definition lent : Store :=
  match OptimizeFreeBucket 2 (false, 0) 0 (foldr ins (reserved 12) [(0x35, 7); (0x25, 6); (0x15, 5)]) with
  | Some (_, st) => st
  | None => fresh
  end.

(** A key whose root slot is lent displaces another key.  The move is
    accepted and loses nothing; then the insertion of a key of root 4 reports
    success, and the key that was moved to slot 4 is no longer found. *)
Lemma lent_slot_loses_key :
  (Find lent false 0x25, Find lent false 0x44) = (Some 6, Some NFOUND) /\
  fst <$> Insert 3 0x44 44 UINT64_MAX lent = Some (false, 3) /\
  match Insert 3 0x44 44 UINT64_MAX lent with
  | Some (_, st) => Find st false 0x25 = Some NFOUND /\ Find st false 0x44 = Some 44
  | None => False
  end.
Proof. by vm_compute. Qed.

(** 128 keys of root 5 in a table of 256. *)
Definition crowd : list (Z * Z) := (fun i => (Z.of_nat i * 256 + 5, Z.of_nat i)) <$> seq 0 128.
Definition results (kps : list (Z * Z)) (st : Store) : list location_t * Store :=
  foldl (fun r kp => match Insert 2 kp.1 kp.2 UINT64_MAX r.2 with
                     | Some (l, st) => (r.1 ++ [l], st)
                     | None => r
                     end) ([], st) kps.

(** All insertions succeeded, and no key is found. *)
Definition all_lost (r : list location_t * Store) : Prop :=
  length r.1 = 128%nat /\ Forall (fun l => l.2 <> NFOUND) r.1 /\
  Forall (fun kp => Find r.2 false kp.1 = Some NFOUND) crowd /\
  size_field (at_loc r.2 (true, 5)) = 128.

#[export] Instance all_lost_dec r : Decision (all_lost r).
Proof. unfold all_lost. apply _. Defined.

(** The 128th key of a root empties it.  All the insertions report success,
    the size field goes from 127 to 0 with the pointer flag set, and none of the
    128 keys is found. *)
Lemma chain_of_128_is_lost :
  all_lost (results crowd (reserved 200)).
Proof.
  assert (E : (fun r => bool_decide (all_lost r)) (results crowd (reserved 200)) = true) by (vm_compute; reflexivity).
  by apply bool_decide_eq_true in E.
Qed.

(** [RearrangeBuckets] moves nothing.  The condition that should skip a
    bucket that is in place compares its key with itself, so every store is left
    as it was, also after the bucket type changed. *)
Lemma RearrangeBuckets_moves_nothing begin_id cnt st :
  RearrangeBuckets begin_id cnt st = (true, st).
Proof.
  unfold RearrangeBuckets. f_equal. generalize (Z.to_nat cnt) as k. intros k.
  revert begin_id. induction k as [|k IH]; intros i; [done|]. cbn [rearrange_loop].
  unfold WeakBucket.match_high_bits, WeakBucket.key_high_bits. by rewrite Z.eqb_refl, orb_true_r.
Qed.

(** Allocations in a data block are disjoint and in the file.  When the byte
    counts do not overflow, [alloc] gives the old offset, the block it gives ends
    at the new offset and within the file, or it gives UINT64_MAX and changes
    nothing. *)
Lemma alloc_in_bounds width cnt d :
  0 <= width -> 0 <= cnt -> 0 <= offset_ d -> cnt * width + offset_ d < 2 ^ 64 -> u64 (max_size_ d) ->
  let (off, d') := alloc width cnt d in
  (off = UINT64_MAX /\ d' = d /\ max_size_ d < offset_ d + cnt * width) \/
  (off = offset_ d /\ offset_ d' = off + cnt * width /\ offset_ d' <= max_size_ d' /\ max_size_ d' = max_size_ d).
Proof.
  intros Hw Hc Ho Hlt Hm. assert (0 <= cnt * width) by nia. unfold alloc.
  rewrite (wrap_small 64 (cnt * width)), wrap_small by (unfold uint; lia).
  destruct (Z.ltb_spec (max_size_ d) (cnt * width + offset_ d)).
  - left. split_and!; [done.. | lia].
  - right. cbn. rewrite wrap_small by (unfold uint; lia). split_and!; [done.. | lia | done].
Qed.

Lemma alloc_in_bounds_witness :
  alloc 4 8 (mkBlockData 16 64 false) = (16, mkBlockData 48 64 false) /\ offset_ (mkBlockData 48 64 false) <= 64.
Proof.
  split; [reflexivity|].
  destruct (alloc_in_bounds 4 8 (mkBlockData 16 64 false) ltac:(lia) ltac:(lia) ltac:(cbn; lia)
    ltac:(cbn; lia) ltac:(unfold uint; cbn; lia)) as [(E & _)|(_ & _ & H & _)]; [discriminate E | exact H].
Defined.
