(* ===== verification/LexBuffer.v ===== *)
(** * The input buffers of the workflow lexer: src/orc/workflow/parser/lexer.c

    The part of the Flex scanner that [Lexer] leaves out: the buffer is a piece
    of memory that holds a window of the file, [yy_get_next_buffer] moves the
    unfinished text to its front, grows it and reads on, the match in progress is
    resumed, and the byte after a match is replaced by a terminator and put back.
    An access outside an allocation, a null pointer and [YY_FATAL_ERROR] are
    [None]. *)
From Stdlib Require Import ZArith Lia.
From stdpp Require Import base list strings option.
From S2P Require Import Prelude Words Memory Syntax Parser Lexer.

Local Open Scope Z_scope.

(** ** Integers and allocations *)

(** The value of a conversion to [int]. *)
Definition int32 (x : Z) : Z := (x + 2 ^ 31) mod 2 ^ 32 - 2 ^ 31.

(** [yyrealloc]: the added bytes are not initialised; they read as zero here. *)
Definition yyrealloc (mem : list Z) (size : Z) : list Z := resize (Z.to_nat size) 0 mem.

(** ** Buffers *)

Definition YY_BUF_SIZE : Z := 16384.
Definition YY_READ_BUF_SIZE : Z := 8192.
Definition YY_END_OF_BUFFER_CHAR : Z := 0.

Inductive buffer_status : Type := BUFFER_NEW | BUFFER_NORMAL | BUFFER_EOF_PENDING.

#[export] Instance buffer_status_eq_dec : EqDecision buffer_status.
Proof. solve_decision. Defined.

(** An open stream: the bytes not yet read, and whether it is a terminal. *)
Record FILE : Type := mkFILE { unread : list Z; tty : bool }.

(** [struct yy_buffer_state].  [yy_input_file] is a stream by its index;
    [yy_buf_pos] is a position in [yy_ch_buf]. *)
Record yy_buffer_state : Type := mkBuffer {
  yy_input_file : option nat;
  yy_ch_buf : list Z;
  yy_buf_pos : nat;
  yy_buf_size : Z;
  buf_n_chars : nat;
  yy_is_our_buffer : bool;
  yy_is_interactive : bool;
  yy_at_bol : bool;
  yy_bs_lineno : Z;
  yy_bs_column : Z;
  yy_fill_buffer : bool;
  yy_buffer_status : buffer_status
}.

(** The variables of the scanner that go with the current buffer, and the
    streams; [yy_c_buf_p] and [yytext_ptr] are positions in its memory. *)
Record Regs : Type := mkRegs {
  yy_hold_char : Z;
  yy_n_chars : nat;
  yy_c_buf_p : nat;
  yytext_ptr : nat;
  yyleng : nat;
  yyin : option nat;
  yylineno : Z;
  yy_last_accepting : last_acc;
  streams : list FILE
}.

(** What the functions below work on: the current buffer and the variables. *)
Definition core : Type := yy_buffer_state * Regs.

Definition set_ch_buf mem (b : yy_buffer_state) : yy_buffer_state :=
  mkBuffer (yy_input_file b) mem (yy_buf_pos b) (yy_buf_size b) (buf_n_chars b) (yy_is_our_buffer b)
    (yy_is_interactive b) (yy_at_bol b) (yy_bs_lineno b) (yy_bs_column b) (yy_fill_buffer b) (yy_buffer_status b).
Definition set_buf_n_chars n (b : yy_buffer_state) : yy_buffer_state :=
  mkBuffer (yy_input_file b) (yy_ch_buf b) (yy_buf_pos b) (yy_buf_size b) n (yy_is_our_buffer b)
    (yy_is_interactive b) (yy_at_bol b) (yy_bs_lineno b) (yy_bs_column b) (yy_fill_buffer b) (yy_buffer_status b).
Definition set_buf_size n (b : yy_buffer_state) : yy_buffer_state :=
  mkBuffer (yy_input_file b) (yy_ch_buf b) (yy_buf_pos b) n (buf_n_chars b) (yy_is_our_buffer b)
    (yy_is_interactive b) (yy_at_bol b) (yy_bs_lineno b) (yy_bs_column b) (yy_fill_buffer b) (yy_buffer_status b).
Definition set_status f x (b : yy_buffer_state) : yy_buffer_state :=
  mkBuffer f (yy_ch_buf b) (yy_buf_pos b) (yy_buf_size b) (buf_n_chars b) (yy_is_our_buffer b)
    (yy_is_interactive b) (yy_at_bol b) (yy_bs_lineno b) (yy_bs_column b) (yy_fill_buffer b) x.
Definition set_our_buffer (b : yy_buffer_state) : yy_buffer_state :=
  mkBuffer (yy_input_file b) (yy_ch_buf b) (yy_buf_pos b) (yy_buf_size b) (buf_n_chars b) true
    (yy_is_interactive b) (yy_at_bol b) (yy_bs_lineno b) (yy_bs_column b) (yy_fill_buffer b) (yy_buffer_status b).
Definition set_n_chars n (g : Regs) : Regs :=
  mkRegs (yy_hold_char g) n (yy_c_buf_p g) (yytext_ptr g) (yyleng g) (yyin g) (yylineno g) (yy_last_accepting g) (streams g).
Definition set_c_buf_p p (g : Regs) : Regs :=
  mkRegs (yy_hold_char g) (yy_n_chars g) p (yytext_ptr g) (yyleng g) (yyin g) (yylineno g) (yy_last_accepting g) (streams g).
Definition set_text_ptr p (g : Regs) : Regs :=
  mkRegs (yy_hold_char g) (yy_n_chars g) (yy_c_buf_p g) p (yyleng g) (yyin g) (yylineno g) (yy_last_accepting g) (streams g).
Definition set_lineno n (g : Regs) : Regs :=
  mkRegs (yy_hold_char g) (yy_n_chars g) (yy_c_buf_p g) (yytext_ptr g) (yyleng g) (yyin g) n (yy_last_accepting g) (streams g).
Definition set_last l (g : Regs) : Regs :=
  mkRegs (yy_hold_char g) (yy_n_chars g) (yy_c_buf_p g) (yytext_ptr g) (yyleng g) (yyin g) (yylineno g) l (streams g).
Definition set_streams l (g : Regs) : Regs :=
  mkRegs (yy_hold_char g) (yy_n_chars g) (yy_c_buf_p g) (yytext_ptr g) (yyleng g) (yyin g) (yylineno g) (yy_last_accepting g) l.

(** ** Filling and flushing *)

(** [yy_load_buffer_state]. *)
Definition yy_load_buffer_state (s : core) : option core :=
  let (b, g) := s in
  c ← yy_ch_buf b !! yy_buf_pos b;
  Some (b, mkRegs c (buf_n_chars b) (yy_buf_pos b) (yy_buf_pos b) (yyleng g) (yy_input_file b) (yylineno g)
             (yy_last_accepting g) (streams g)).

(** [yy_flush_buffer] without the reload of the current buffer. *)
Definition yy_flush_buffer (b : yy_buffer_state) : option yy_buffer_state :=
  mem ← poke 0 YY_END_OF_BUFFER_CHAR (yy_ch_buf b);
  mem ← poke 1 YY_END_OF_BUFFER_CHAR mem;
  Some (mkBuffer (yy_input_file b) mem 0 (yy_buf_size b) 0 (yy_is_our_buffer b) (yy_is_interactive b) true
          (yy_bs_lineno b) (yy_bs_column b) (yy_fill_buffer b) BUFFER_NEW).

Definition isatty (g : Regs) (file : option nat) : bool :=
  match f ← file; streams g !! f with Some f => tty f | None => false end.

(** [yy_init_buffer]; [is_current] is the comparison with [YY_CURRENT_BUFFER]. *)
Definition yy_init_buffer (is_current : bool) (file : option nat) (s : core) : option core :=
  let (b, g) := s in
  b ← yy_flush_buffer b;
  '(b, g) ← (if is_current then yy_load_buffer_state (b, g) else Some (b, g));
  Some (mkBuffer file (yy_ch_buf b) (yy_buf_pos b) (yy_buf_size b) (buf_n_chars b) (yy_is_our_buffer b)
          (isatty g file) (yy_at_bol b)
          (if is_current then yy_bs_lineno b else 1) (if is_current then yy_bs_column b else 0)
          true (yy_buffer_status b), g).

(** [yyrestart] on the current buffer. *)
Definition restart_current (file : option nat) (s : core) : option core :=
  s ← yy_init_buffer true file s; yy_load_buffer_state s.

(** The loop of [YY_INPUT] for a terminal: up to [max] bytes, to the end of the
    line. *)
Fixpoint getc_line (max : nat) (l : list Z) : list Z * list Z :=
  match max, l with
  | S max, c :: l => if c =? 10 then ([c], l) else let (w, r) := getc_line max l in (c :: w, r)
  | _, _ => ([], l)
  end.

(** [YY_INPUT]: read at most [max] bytes to position [off]; a read does not fail. *)
Definition YY_INPUT (off max : nat) (s : core) : option core :=
  let (b, g) := s in
  f ← yyin g;
  file ← streams g !! f;
  let '(data, rest) :=
    if yy_is_interactive b then getc_line max (unread file)
    else (take max (unread file), drop max (unread file)) in
  mem ← write_at off data (yy_ch_buf b);
  Some (set_ch_buf mem b,
        set_n_chars (length data) (set_streams (<[f := mkFILE rest (tty file)]> (streams g)) g)).

(** The copy of the text to the front of the buffer, byte by byte. *)
Fixpoint move_text (n dest source : nat) (mem : list Z) : option (list Z) :=
  match n with
  | O => Some mem
  | S n => c ← mem !! source; mem ← poke dest c mem; move_text n (S dest) (S source) mem
  end.

(** The loop that grows the buffer until there is room to read. *)
Fixpoint grow_buffer (fuel : nat) (number_to_move : Z) (s : core) : option (Z * core) :=
  let (b, g) := s in
  let num_to_read := wrap 64 (yy_buf_size b - number_to_move - 1) in
  if negb (num_to_read =? 0) then Some (num_to_read, s)
  else
    match fuel with
    | O => None
    | S fuel =>
        let yy_c_buf_p_offset := int32 (Z.of_nat (yy_c_buf_p g)) in
        if yy_is_our_buffer b then
          let new_size := wrap 64 (yy_buf_size b * 2) in
          let size := if new_size =? 0 then wrap 64 (yy_buf_size b + yy_buf_size b / 8)
                      else new_size in
          let b := set_buf_size size (set_ch_buf (yyrealloc (yy_ch_buf b) (wrap 64 (size + 2))) b) in
          grow_buffer fuel number_to_move (b, set_c_buf_p (Z.to_nat yy_c_buf_p_offset) g)
        else None
    end.

Inductive eob_act : Type := EOB_ACT_CONTINUE_SCAN | EOB_ACT_END_OF_FILE | EOB_ACT_LAST_MATCH.

(** The reading part of [yy_get_next_buffer]. *)
Definition read_more (number_to_move : Z) (s : core) : option core :=
  let (b, g) := s in
  if bool_decide (yy_buffer_status b = BUFFER_EOF_PENDING)
  then Some (set_buf_n_chars 0 b, set_n_chars 0 g)
  else
    '(num_to_read, s) ← grow_buffer 64 number_to_move s;
    let num_to_read := if YY_READ_BUF_SIZE <? num_to_read then YY_READ_BUF_SIZE else num_to_read in
    '(b, g) ← YY_INPUT (Z.to_nat number_to_move) (Z.to_nat num_to_read) s;
    Some (set_buf_n_chars (yy_n_chars g) b, g).

(** The result of [yy_get_next_buffer]: nothing read is the end of the file, or
    the last match before it. *)
Definition refill_result (number_to_move : Z) (s : core) : option (eob_act * core) :=
  let (b, g) := s in
  if (yy_n_chars g =? 0)%nat then
    if number_to_move =? 0 then s ← restart_current (yyin g) s; Some (EOB_ACT_END_OF_FILE, s)
    else Some (EOB_ACT_LAST_MATCH, (set_status (yy_input_file b) BUFFER_EOF_PENDING b, g))
  else Some (EOB_ACT_CONTINUE_SCAN, s).

(** Its last part: the end-of-buffer characters after the text and the bytes read. *)
Definition end_refill (number_to_move : Z) (s : core) : option core :=
  let (b, g) := s in
  let total := wrap 64 (Z.of_nat (yy_n_chars g) + number_to_move) in
  let b := if yy_buf_size b <? total
           then set_ch_buf (yyrealloc (yy_ch_buf b)
                  (wrap 64 (total + Z.of_nat (Nat.div2 (yy_n_chars g))))) b
           else b in
  let n := Z.to_nat total in
  mem ← poke n YY_END_OF_BUFFER_CHAR (yy_ch_buf b);
  mem ← poke (S n) YY_END_OF_BUFFER_CHAR mem;
  Some (set_ch_buf mem b, set_text_ptr 0 (set_n_chars n g)).

(** [yy_get_next_buffer]. *)
Definition yy_get_next_buffer (s : core) : option (eob_act * core) :=
  let (b, g) := s in
  if (yy_n_chars g + 1 <? yy_c_buf_p g)%nat then None               (* end of buffer missed *)
  else if negb (yy_fill_buffer b) then
    Some (if Z.of_nat (yy_c_buf_p g) - Z.of_nat (yytext_ptr g) =? 1 then EOB_ACT_END_OF_FILE
          else EOB_ACT_LAST_MATCH, s)
  else
    let number_to_move := int32 (int32 (Z.of_nat (yy_c_buf_p g) - Z.of_nat (yytext_ptr g)) - 1) in
    mem ← move_text (Z.to_nat number_to_move) 0 (yytext_ptr g) (yy_ch_buf b);
    s ← read_more number_to_move (set_ch_buf mem b, g);
    '(ret_val, s) ← refill_result number_to_move s;
    s ← end_refill number_to_move s;
    Some (ret_val, s).

(** ** Scanning *)

(** [YY_DO_BEFORE_ACTION]: the text from [bp] to [cp] becomes a string. *)
Definition YY_DO_BEFORE_ACTION (bp cp : nat) (s : core) : option core :=
  let (b, g) := s in
  c ← yy_ch_buf b !! cp;
  mem ← poke cp 0 (yy_ch_buf b);
  Some (set_ch_buf mem b,
        mkRegs c (yy_n_chars g) cp bp (cp - bp) (yyin g) (yylineno g) (yy_last_accepting g) (streams g)).

(** [*yy_cp = yy_hold_char]. *)
Definition restore_char (cp : nat) (s : core) : option core :=
  let (b, g) := s in mem ← poke cp (yy_hold_char g) (yy_ch_buf b); Some (set_ch_buf mem b, g).

Definition yy_rule_can_match_eol : list Z := [0; 0; 0; 0; 0; 0; 0; 0; 1; 0; 0].

(** The counting of the lines of a match. *)
Definition newlines (l : list Z) : Z := Z.of_nat (length (filter (fun b => b = 10) l)).
Definition count_lines (act : Z) (s : core) : core :=
  let (b, g) := s in
  if negb (act =? YY_END_OF_BUFFER) && negb (at_ yy_rule_can_match_eol act =? 0)
  then (b, set_lineno (int32 (yylineno g + newlines (take (yyleng g) (drop (yytext_ptr g) (yy_ch_buf b))))) g)
  else s.

(** [yy_get_previous_state]: the automaton over the text up to [yy_c_buf_p]. *)
Definition previous_state (s : core) : option (Z * core) :=
  let (b, g) := s in
  if (yy_c_buf_p g <=? length (yy_ch_buf b))%nat then
    let (state, last) := yy_get_previous_state (yy_ch_buf b) (yytext_ptr g) (yy_c_buf_p g - yytext_ptr g) 1
                           (yy_last_accepting g) in
    Some (state, (b, set_last last g))
  else None.

(** [yy_match] and [yy_find_action] over the memory of the buffer. *)
Definition match_and_find (pt : scan_point) (s : core) : option (Z * nat * core) :=
  let (b, g) := s in
  let mem := yy_ch_buf b in
  match pt with
  | AtMatch state cp =>
      '(state, cp, last) ← yy_match (S (length mem - cp)) mem state cp (yy_last_accepting g);
      if (cp <=? length mem)%nat then
        let '(act, _, cp) := yy_find_action state cp last in Some (act, cp, (b, set_last last g))
      else None
  | AtFind state cp =>
      let '(act, _, cp) := yy_find_action state cp (yy_last_accepting g) in Some (act, cp, s)
  end.

Definition text_plus (g : Regs) (amount : Z) : nat := Z.to_nat (Z.of_nat (yytext_ptr g) + amount).

(** The [YY_END_OF_BUFFER] action: where the scan goes on, or nowhere at the end
    of the file. *)
Definition end_of_buffer (cp : nat) (s : core) : option (option scan_point * core) :=
  let amount := int32 (Z.of_nat cp - Z.of_nat (yytext_ptr s.2)) - 1 in
  '(b, g) ← restore_char cp s;
  let '(b, g) :=
    if bool_decide (yy_buffer_status b = BUFFER_NEW)
    then (set_status (yyin g) BUFFER_NORMAL b, set_n_chars (buf_n_chars b) g) else (b, g) in
  if (yy_c_buf_p g <=? yy_n_chars g)%nat then                            (* really a NUL *)
    let p := text_plus g amount in
    '(state, (b, g)) ← previous_state (b, set_c_buf_p p g);
    let (next, last) := yy_try_NUL_trans state p (yy_last_accepting g) in
    let g := set_last last g in
    if negb (next =? 0) then Some (Some (AtMatch next (S p)), (b, set_c_buf_p (S p) g))
    else Some (Some (AtFind state p), (b, g))
  else
    '(ret_val, (b, g)) ← yy_get_next_buffer (b, g);
    match ret_val with
    | EOB_ACT_END_OF_FILE => Some (None, (b, set_c_buf_p (yytext_ptr g) g))
    | EOB_ACT_CONTINUE_SCAN =>
        let p := text_plus g amount in
        '(state, s) ← previous_state (b, set_c_buf_p p g);
        Some (Some (AtMatch state p), s)
    | EOB_ACT_LAST_MATCH =>
        let p := yy_n_chars g in
        '(state, s) ← previous_state (b, set_c_buf_p p g);
        Some (Some (AtFind state p), s)
    end.

(** The scan of one match that starts at [bp]: the rule, or nothing at the end of
    the file. *)
Fixpoint scan (fuel : nat) (bp : nat) (pt : scan_point) (s : core) : option (option Z * core) :=
  match fuel with
  | O => None
  | S fuel =>
      '(act, cp, s) ← match_and_find pt s;
      s ← YY_DO_BEFORE_ACTION bp cp s;
      let s := count_lines act s in
      if act =? YY_END_OF_BUFFER then
        '(pt, s) ← end_of_buffer cp s;
        match pt with
        | Some pt => scan fuel (yytext_ptr s.2) pt s
        | None => Some (None, s)
        end
      else if act =? 0 then                                               (* must back up *)
        s ← restore_char cp s;
        let (state, cp) := yy_last_accepting s.2 in scan fuel bp (AtFind state cp) s
      else Some (Some act, s)
  end.

(** The string that starts at a position. *)
Fixpoint c_string (l : list Z) : string :=
  match l with
  | b :: l => if b =? 0 then ""%string else String (ascii_of b) (c_string l)
  | [] => ""%string
  end.

(** The actions of the rules on [yytext]. *)
Definition rule_token (act : Z) (s : core) : option token :=
  let yytext := drop (yytext_ptr s.2) (yy_ch_buf s.1) in
  match act with
  | 1 => Some (T_IF, None)
  | 2 => Some (T_ELSE, None)
  | 3 => Some (T_DO, None)
  | 4 => Some (T_WHILE, None)
  | 5 => Some (T_WORKFLOW, None)
  | 6 => Some (T_RETURN, None)
  | 7 => Some (T_NAME, Some (new_name_stmt (c_string yytext)))
  | 9 => Some (schar (buf_at yytext 0), None)
  | _ => None
  end.

(** The bytes of the current stream; every refill that goes on reads one. *)
Definition unread_of (g : Regs) : list Z :=
  match f ← yyin g; streams g !! f with Some f => unread f | None => [] end.

(** [yylex] on the current buffer: skip white space, then one token. *)
Fixpoint lex_current (fuel : nat) (s : core) : option (option token * core) :=
  match fuel with
  | O => None
  | S fuel =>
      let bp := yy_c_buf_p s.2 in
      s ← restore_char bp s;
      '(act, s) ← scan (4 + length (unread_of s.2)) bp (AtMatch 1 bp) s;
      match act with
      | None => Some (None, s)
      | Some act =>
          if act =? 10 then None                                          (* scanner jammed *)
          else match rule_token act s with
               | Some t => Some (Some t, s)
               | None => lex_current fuel s
               end
      end
  end.

(** ** The scanner: its buffers and the stack of them *)

(** [heap] has every buffer that was allocated, [None] when it was freed; a
    buffer pointer is its index.  The capacity of the stack is its length. *)
Record Scanner : Type := mkScanner {
  heap : list (option yy_buffer_state);
  yy_buffer_stack : option (list (option nat));
  yy_buffer_stack_top : nat;
  yy_init : bool;
  yy_start : Z;
  yy_did_buffer_switch_on_eof : bool;
  regs : Regs
}.

Definition set_heap h (sc : Scanner) : Scanner :=
  mkScanner h (yy_buffer_stack sc) (yy_buffer_stack_top sc) (yy_init sc) (yy_start sc)
    (yy_did_buffer_switch_on_eof sc) (regs sc).
Definition set_stack st top (sc : Scanner) : Scanner :=
  mkScanner (heap sc) st top (yy_init sc) (yy_start sc) (yy_did_buffer_switch_on_eof sc) (regs sc).
Definition set_regs g (sc : Scanner) : Scanner :=
  mkScanner (heap sc) (yy_buffer_stack sc) (yy_buffer_stack_top sc) (yy_init sc) (yy_start sc)
    (yy_did_buffer_switch_on_eof sc) g.
Definition set_switched x (sc : Scanner) : Scanner :=
  mkScanner (heap sc) (yy_buffer_stack sc) (yy_buffer_stack_top sc) (yy_init sc) (yy_start sc) x (regs sc).

(** [YY_CURRENT_BUFFER], and the assignment to it. *)
Definition YY_CURRENT_BUFFER (sc : Scanner) : option nat :=
  st ← yy_buffer_stack sc; mjoin (st !! yy_buffer_stack_top sc).
Definition set_YY_CURRENT_BUFFER (p : option nat) (sc : Scanner) : option Scanner :=
  st ← yy_buffer_stack sc;
  if (yy_buffer_stack_top sc <? length st)%nat
  then Some (set_stack (Some (<[yy_buffer_stack_top sc := p]> st)) (yy_buffer_stack_top sc) sc) else None.

Definition deref (sc : Scanner) (p : nat) : option yy_buffer_state := mjoin (heap sc !! p).
Definition set_buffer (p : nat) (b : yy_buffer_state) (sc : Scanner) : Scanner :=
  set_heap (<[p := Some b]> (heap sc)) sc.

(** Run a function of the current buffer. *)
Definition with_current {A} (f : core -> option (A * core)) (sc : Scanner) : option (A * Scanner) :=
  p ← YY_CURRENT_BUFFER sc;
  b ← deref sc p;
  '(a, (b, g)) ← f (b, regs sc);
  Some (a, set_regs g (set_buffer p b sc)).
Definition on_current (f : core -> option core) (sc : Scanner) : option Scanner :=
  snd <$> with_current (fun s => s ← f s; Some (tt, s)) sc.

(** [yyensure_buffer_stack]. *)
Definition yyensure_buffer_stack (sc : Scanner) : Scanner :=
  match yy_buffer_stack sc with
  | None => set_stack (Some [None]) 0 sc
  | Some st =>
      if (length st - 1 <=? yy_buffer_stack_top sc)%nat
      then set_stack (Some (st ++ replicate 8 None)) (yy_buffer_stack_top sc) sc
      else sc
  end.

(** [yy_create_buffer]: [size] is an [int] that becomes a [yy_size_t]. *)
Definition yy_create_buffer (file : option nat) (size : Z) (sc : Scanner) : option (nat * Scanner) :=
  let size := wrap 64 size in
  let b := mkBuffer None (replicate (Z.to_nat (wrap 64 (size + 2))) 0) 0 size 0 true false false 0 0 false BUFFER_NEW in
  '(b, _) ← yy_init_buffer false file (b, regs sc);
  Some (length (heap sc), set_heap (heap sc ++ [Some b]) sc).

(** The prologue that [yyrestart] and [yylex] share. *)
Definition ensure_current (sc : Scanner) : option Scanner :=
  match YY_CURRENT_BUFFER sc with
  | Some _ => Some sc
  | None =>
      '(p, sc) ← yy_create_buffer (yyin (regs sc)) YY_BUF_SIZE (yyensure_buffer_stack sc);
      set_YY_CURRENT_BUFFER (Some p) sc
  end.

(** [yyrestart]. *)
Definition yyrestart (file : option nat) (sc : Scanner) : option Scanner :=
  sc ← ensure_current sc; on_current (restart_current file) sc.

(** The initialisation of [yylex]; the standard input is the stream 0. *)
Definition init_scanner (sc : Scanner) : option Scanner :=
  if yy_init sc then Some sc
  else
    let g := regs sc in
    let g := match yyin g with
             | Some _ => g
             | None => mkRegs (yy_hold_char g) (yy_n_chars g) (yy_c_buf_p g) (yytext_ptr g) (yyleng g) (Some O)
                         (yylineno g) (yy_last_accepting g) (streams g)
             end in
    let sc := mkScanner (heap sc) (yy_buffer_stack sc) (yy_buffer_stack_top sc) true
                (if yy_start sc =? 0 then 1 else yy_start sc) (yy_did_buffer_switch_on_eof sc) g in
    sc ← ensure_current sc; on_current yy_load_buffer_state sc.

(** [yylex]: the end of the file clears the switch flag. *)
Definition yylex (sc : Scanner) : option (option token * Scanner) :=
  sc ← init_scanner sc;
  '(t, sc) ← with_current (fun s => lex_current (S (length (yy_ch_buf s.1) + length (unread_of s.2))) s) sc;
  match t with
  | Some t => Some (Some t, sc)
  | None => Some (None, set_switched false sc)
  end.

(** The tokens that a caller of [yylex] gets up to the end of the file. *)
Fixpoint yylex_all (fuel : nat) (sc : Scanner) : option (list token * Scanner) :=
  match fuel with
  | O => None
  | S fuel =>
      '(t, sc) ← yylex sc;
      match t with
      | None => Some ([], sc)
      | Some t => '(ts, sc) ← yylex_all fuel sc; Some (t :: ts, sc)
      end
  end.

(** The scanner when the program starts. *)
Definition initial_scanner (files : list FILE) : Scanner :=
  mkScanner [] None 0 false 0 false (mkRegs 0 0 0 0 0 None 1 (0, O) files).

(** ** Switching between buffers *)

(** Save the position of the current buffer before another one is used. *)
Definition save_current (s : core) : option core :=
  let (b, g) := s in
  mem ← poke (yy_c_buf_p g) (yy_hold_char g) (yy_ch_buf b);
  Some (mkBuffer (yy_input_file b) mem (yy_c_buf_p g) (yy_buf_size b) (yy_n_chars g) (yy_is_our_buffer b)
          (yy_is_interactive b) (yy_at_bol b) (yy_bs_lineno b) (yy_bs_column b) (yy_fill_buffer b)
          (yy_buffer_status b), g).

(** [yy_switch_to_buffer]. *)
Definition yy_switch_to_buffer (new_buffer : option nat) (sc : Scanner) : option Scanner :=
  let sc := yyensure_buffer_stack sc in
  if bool_decide (YY_CURRENT_BUFFER sc = new_buffer) then Some sc
  else
    sc ← (match YY_CURRENT_BUFFER sc with Some _ => on_current save_current sc | None => Some sc end);
    sc ← set_YY_CURRENT_BUFFER new_buffer sc;
    sc ← on_current yy_load_buffer_state sc;
    Some (set_switched true sc).

(** [yy_delete_buffer]. *)
Definition yy_delete_buffer (b : option nat) (sc : Scanner) : option Scanner :=
  match b with
  | None => Some sc
  | Some p =>
      sc ← (if bool_decide (Some p = YY_CURRENT_BUFFER sc) then set_YY_CURRENT_BUFFER None sc else Some sc);
      _ ← deref sc p;
      Some (set_heap (<[p := None]> (heap sc)) sc)
  end.

(** [yypush_buffer_state]. *)
Definition yypush_buffer_state (new_buffer : option nat) (sc : Scanner) : option Scanner :=
  match new_buffer with
  | None => Some sc
  | Some _ =>
      let sc := yyensure_buffer_stack sc in
      sc ← (match YY_CURRENT_BUFFER sc with
            | Some _ =>
                sc ← on_current save_current sc;
                Some (set_stack (yy_buffer_stack sc) (S (yy_buffer_stack_top sc)) sc)
            | None => Some sc
            end);
      sc ← set_YY_CURRENT_BUFFER new_buffer sc;
      sc ← on_current yy_load_buffer_state sc;
      Some (set_switched true sc)
  end.

(** [yypop_buffer_state]. *)
Definition yypop_buffer_state (sc : Scanner) : option Scanner :=
  match YY_CURRENT_BUFFER sc with
  | None => Some sc
  | Some p =>
      sc ← yy_delete_buffer (Some p) sc;
      sc ← set_YY_CURRENT_BUFFER None sc;
      let sc := set_stack (yy_buffer_stack sc) (pred (yy_buffer_stack_top sc)) sc in
      match YY_CURRENT_BUFFER sc with
      | None => Some sc
      | Some _ => sc ← on_current yy_load_buffer_state sc; Some (set_switched true sc)
      end
  end.

(** [yy_scan_buffer] on the memory [base], whose size is [size]. *)
Definition yy_scan_buffer (base : list Z) (sc : Scanner) : option (option nat * Scanner) :=
  let size := length base in
  if (size <? 2)%nat || negb (buf_at base (size - 2) =? YY_END_OF_BUFFER_CHAR)
     || negb (buf_at base (size - 1) =? YY_END_OF_BUFFER_CHAR)
  then Some (None, sc)
  else
    let b := mkBuffer None base 0 (Z.of_nat (size - 2)) (size - 2) false false true 0 0 false BUFFER_NEW in
    let p := length (heap sc) in
    sc ← yy_switch_to_buffer (Some p) (set_heap (heap sc ++ [Some b]) sc);
    Some (Some p, sc).

(** [yy_scan_bytes]: a copy of the bytes that the scanner owns. *)
Definition yy_scan_bytes (bytes : list Z) (sc : Scanner) : option (nat * Scanner) :=
  '(p, sc) ← yy_scan_buffer (bytes ++ [YY_END_OF_BUFFER_CHAR; YY_END_OF_BUFFER_CHAR]) sc;
  p ← p;
  b ← deref sc p;
  Some (p, set_buffer p (set_our_buffer b) sc).

(** [yy_init_globals]. *)
Definition yy_init_globals (sc : Scanner) : Scanner :=
  let g := regs sc in
  mkScanner (heap sc) None 0 false 0 (yy_did_buffer_switch_on_eof sc)
    (mkRegs (yy_hold_char g) (yy_n_chars g) 0 (yytext_ptr g) (yyleng g) None 1 (yy_last_accepting g) (streams g)).

(** [yylex_destroy]: pop every buffer, then forget the stack. *)
Fixpoint destroy_buffers (fuel : nat) (sc : Scanner) : option Scanner :=
  match YY_CURRENT_BUFFER sc with
  | None => Some sc
  | Some p =>
      match fuel with
      | O => None
      | S fuel =>
          sc ← yy_delete_buffer (Some p) sc;
          sc ← set_YY_CURRENT_BUFFER None sc;
          sc ← yypop_buffer_state sc;
          destroy_buffers fuel sc
      end
  end.
Definition yylex_destroy (sc : Scanner) : option Scanner :=
  sc ← destroy_buffers (S (length (heap sc))) sc; Some (yy_init_globals sc).
