(* ===== verification/LexBufferCorrect.v ===== *)
(** * Correctness of the buffered lexer

    Whatever the size of the buffer, however the reads cut the file and whatever
    was scanned before, the scanner finds the tokens that it would find with the
    whole file in memory, and never leaves its allocation. *)
From Stdlib Require Import ZArith Lia.
From stdpp Require Import base list strings option.
From S2P Require Import Prelude Syntax Parser ParserCorrect Lexer LexerCorrect Words Memory LexBuffer.

Local Open Scope Z_scope.

(** ** Moving text *)

Lemma move_text_Some n : forall dest source mem, (dest <= source)%nat -> (source + n <= length mem)%nat ->
  move_text n dest source mem = Some (take dest mem ++ take n (drop source mem) ++ drop (dest + n) mem).
Proof.
  induction n as [|n IH]; intros dest source mem Hd Hl; cbn [move_text].
  - by rewrite Nat.add_0_r, app_nil_l, take_drop.
  - destruct (lookup_lt_is_Some_2 mem source) as [c Hc]; [lia|]. rewrite Hc. cbn.
    rewrite poke_Some by lia. cbn. rewrite IH by (rewrite ?length_insert; lia). f_equal.
    rewrite insert_split by lia. rewrite take_app_ge, !drop_app_ge by (rewrite length_take; lia).
    rewrite length_take, Nat.min_l by lia.
    replace (S dest - dest)%nat with 1%nat by lia.
    replace (S source - dest)%nat with (S (source - dest)) by lia.
    replace (S dest + n - dest)%nat with (S n) by lia. cbn. rewrite !drop_drop, ?take_0.
    replace (S dest + (source - dest))%nat with (S source) by lia.
    rewrite (drop_S mem c source Hc). cbn. rewrite <- app_assoc. cbn.
    by replace (S (dest + n)) with (dest + S n)%nat by lia.
Qed.

Lemma int32_id x : - 2 ^ 31 <= x < 2 ^ 31 -> int32 x = x.
Proof. intros H. unfold int32. rewrite Z.mod_small; lia. Qed.

(** ** The end-of-buffer characters *)

(** A memory that starts with [ch] and the two end-of-buffer characters. *)
Definition holds (mem ch : list Z) : Prop := exists junk, mem = ch ++ 0 :: 0 :: junk.

Lemma holds_length mem ch : holds mem ch -> (length ch + 2 <= length mem)%nat.
Proof. intros [junk ->]. rewrite length_app. cbn. lia. Qed.

Lemma holds_at mem ch i : holds mem ch -> (i < length ch + 2)%nat -> buf_at mem i = buf_at ch i.
Proof.
  intros [junk ->] Hi. unfold buf_at. destruct (decide (i < length ch)%nat).
  - by rewrite lookup_app_l by lia.
  - rewrite lookup_app_r, (lookup_ge_None_2 ch) by lia.
    assert (i - length ch = 0 \/ i - length ch = 1)%nat as [-> | ->] by lia; done.
Qed.

Lemma holds_drop mem ch i : holds mem ch -> (i <= length ch)%nat -> holds (drop i mem) (drop i ch).
Proof. intros [junk ->] Hi. exists junk. by rewrite drop_app_le by lia. Qed.

(** The automaton reads the same in the memory as in the window. *)
Lemma yy_match_mem mem ch (Hm : holds mem ch) fuel : forall fuel' s cp last s' cp' last',
  yy_match fuel ch s cp last = Some (s', cp', last') -> (cp' <= length ch + 2)%nat ->
  (cp' <= cp + fuel')%nat ->
  (cp < cp')%nat /\ yy_match fuel' mem s cp last = Some (s', cp', last').
Proof.
  induction fuel as [|fuel IH]; intros fuel' s cp last s' cp' last' H Hc Hf; [done|].
  cbn [yy_match] in H. destruct (at_ yy_base (yy_step s (at_ yy_ec (buf_at ch cp))) =? 49) eqn:E.
  - injection H as <- <- <-. split; [lia|]. destruct fuel' as [|fuel']; [lia|].
    cbn [yy_match]. rewrite (holds_at mem ch) by (done || lia). by rewrite E.
  - assert (Hlt : (S cp < cp')%nat).
    { destruct (IH (cp' - S cp)%nat _ _ _ _ _ _ H) as [Hlt _]; lia. }
    split; [lia|]. destruct fuel' as [|fuel']; [lia|].
    cbn [yy_match]. rewrite (holds_at mem ch) by (done || lia). rewrite E.
    apply (IH fuel' _ _ _ _ _ _ H); lia.
Qed.

Lemma previous_state_mem mem w : forall cp s last, take (length w) (drop cp mem) = w -> Forall byte_ok w ->
  (yy_get_previous_state mem cp (length w) s last).1 = foldl delta s w.
Proof. intros cp s last H Hw. by apply previous_state_run. Qed.

(** ** One token of a text *)

(** The rule, the text and the rest of the first match. *)
Definition first_tok (T : list Z) : Z * list Z * list Z :=
  match T with
  | [] => (0, [], [])
  | b :: l =>
      if is_space b then let (w, r) := span is_space l in (8, b :: w, r)
      else if is_letter b then let (w, r) := span is_idchar l in (word_rule (b :: w), b :: w, r)
      else (9, [b], l)
  end.

(** A text after which the match can still grow. *)
Definition partial (u : list Z) : Prop :=
  match u with
  | [] => True
  | b :: w =>
      if is_space b then Forall (fun b => is_space b = true) w
      else if is_letter b then Forall (fun b => is_idchar b = true) w
      else False
  end.

Lemma span_run p w r : Forall (fun b => p b = true) w -> match r with [] => True | b :: _ => p b = false end ->
  span p (w ++ r) = (w, r).
Proof.
  induction w as [|b w IH]; intros Hw Hr; cbn; [destruct r as [|b r]; cbn; by rewrite ?Hr|].
  apply Forall_cons_1 in Hw as [Hb Hw]. by rewrite Hb, IH.
Qed.

(** The class of words or of white space that a partial text is in. *)
Lemma partial_class b w : partial (b :: w) -> byte_ok b -> exists K p,
  class_ok K p = true /\ delta 1 b ∈ K /\ Forall (fun b => p b = true) w /\
  (forall v, Forall (fun b => p b = true) v -> partial (b :: v)) /\
  (forall v r, Forall byte_ok v -> Forall (fun b => p b = true) v -> match r with [] => True | c :: _ => p c = false end ->
     first_tok (b :: v ++ r) = (at_ yy_accept (foldl delta 1 (b :: v)), b :: v, r)).
Proof.
  intros Hp Hb. pose proof (first_at b Hb) as Hf. unfold first_ok in Hf. unfold partial in Hp |- *. unfold first_tok.
  destruct (is_space b) eqn:Es.
  - apply bool_decide_eq_true in Hf. exists sp_states, is_space. split_and!; [apply sp_class | done.. | ].
    intros v r Hv Hpv Hr. rewrite span_run by done. do 2 f_equal. symmetry.
    assert (Hin : foldl delta 1 (b :: v) ∈ sp_states) by (by apply (class_run _ is_space sp_class (delta 1 b) v)).
    assert (Hsp : forallb (fun s => at_ yy_accept s =? 8) sp_states = true) by reflexivity.
    apply (forallb_at _ _ _ Hsp) in Hin. by apply Z.eqb_eq.
  - destruct (is_letter b) eqn:El; [|done]. apply andb_true_iff in Hf as [Hf _]. apply bool_decide_eq_true in Hf.
    exists id_states, is_idchar. split_and!; [apply id_class | done.. | ].
    intros v r Hv Hpv Hr. rewrite span_run by done. by rewrite word_rule_ok.
Qed.

(** How a match that has read [u] goes on over the window: it runs into the end
    of the buffer, or it is complete. *)
Definition match_result (ch : list Z) (bp : nat) (D : list Z) (m : Z * nat * last_acc) : Prop :=
  let '(st, cp, last) := m in
  (cp <= length ch + 2)%nat /\
  ((partial D /\ exists st', yy_find_action st cp last = (YY_END_OF_BUFFER, st', S (length ch))) \/
   (exists act tok R st', yy_find_action st cp last = (act, st', bp + length tok)%nat /\
      act <> 0 /\ act <> YY_END_OF_BUFFER /\ tok <> [] /\ D = tok ++ R /\
      forall rest, first_tok (D ++ rest) = (act, tok, R ++ rest))).

Section Window.
Context (ch : list Z) (Hch : Forall byte_ok ch).

Lemma match_run b w bp v last : partial (b :: w) -> drop bp ch = b :: w ++ v ->
  exists fuel m, yy_match fuel ch (foldl delta 1 (b :: w)) (bp + S (length w)) last = Some m /\
    match_result ch bp (b :: w ++ v) m.
Proof.
  intros Hp Hd.
  assert (Hall : Forall byte_ok (b :: w ++ v)) by (rewrite <- Hd; by apply Forall_drop).
  apply Forall_cons_1 in Hall as [Hb Hwv]. apply Forall_app in Hwv as [Hw Hv].
  destruct (partial_class b w Hp Hb) as (K & p & HK & Hin & Hpw & Hext & Hft).
  destruct (span p v) as [x r] eqn:Es. destruct (span_spec _ _ _ _ Es) as (-> & Hx & Hr).
  apply Forall_app in Hv as [Hbx Hbr].
  assert (Hs : foldl delta 1 (b :: w) ∈ K) by (by apply (class_run K p HK (delta 1 b) w)).
  assert (Hdr : drop (bp + S (length w)) ch = x ++ r).
  { replace (x ++ r) with (drop (S (length w)) (b :: w ++ x ++ r)) by (cbn; by rewrite drop_app_length).
    by rewrite <- Hd, drop_drop. }
  assert (Hlen : (length ch = bp + S (length w) + length x + length r)%nat).
  { apply (f_equal length) in Hdr. rewrite length_drop, length_app in Hdr.
    apply (f_equal length) in Hd. rewrite length_drop in Hd. cbn in Hd. rewrite !length_app in Hd. lia. }
  assert (Hends : run_ends p r) by (destruct r; [done | split; [by apply Forall_inv in Hbr | done]]).
  pose proof (yy_match_run K p HK ch x (length x + 2) _ _ last r Hs Hdr Hbx Hx Hends ltac:(lia)) as Hm.
  exists (length x + 2)%nat. set (q := (bp + S (length w) + length x)%nat) in *.
  tables. destruct r as [|c r]; (eexists; split; [exact Hm|]).
  - cbn in Hlen. split; [subst q; lia|]. left. rewrite app_nil_r. split; [apply Hext; by apply Forall_app|].
    exists 3. unfold yy_find_action. rewrite T6. cbn [fst snd]. do 2 f_equal. subst q. lia.
  - cbn [length] in Hlen. split; [subst q; lia|]. right.
    assert (Hin' : foldl delta (foldl delta 1 (b :: w)) x ∈ K) by (by apply (class_run K p HK)).
    destruct (class_facts K p HK _ Hin') as (Ha & He & _).
    rewrite <- foldl_app in Ha, He, Hin' |- *. cbn [app] in Ha, He, Hin' |- *.
    exists (at_ yy_accept (foldl delta 1 (b :: w ++ x))), (b :: w ++ x), (c :: r), (foldl delta 1 (b :: w ++ x)).
    split_and!; try done.
    + unfold yy_find_action. rewrite T6. cbn [fst snd]. f_equal. subst q. cbn. rewrite length_app. lia.
    + cbn. by rewrite <- app_assoc.
    + intros rest. pose proof (Hft (w ++ x) (c :: r ++ rest)) as Hf. rewrite <- app_assoc in Hf.
      cbn [app]. rewrite <- !app_assoc. apply Hf; [by apply Forall_app | by apply Forall_app | done].
Qed.

Lemma match_window bp u v last : partial u -> drop bp ch = u ++ v -> (bp <= length ch)%nat ->
  exists fuel m, yy_match fuel ch (foldl delta 1 u) (bp + length u) last = Some m /\
    match_result ch bp (u ++ v) m.
Proof.
  intros Hp Hd Hbp. destruct u as [|b w]; [|by apply match_run]. cbn [app foldl length] in *.
  rewrite Nat.add_0_r. tables. destruct v as [|b v].
  - assert (Hl : length ch = bp) by (apply (f_equal length) in Hd; rewrite length_drop in Hd; cbn in Hd; lia).
    exists 2%nat. eexists. split; [apply yy_match_eof; lia|]. split; [lia|]. left. split; [done|].
    exists 3. unfold yy_find_action. rewrite T6. cbn [fst snd]. by rewrite Hl.
  - assert (Hall : Forall byte_ok (b :: v)) by (rewrite <- Hd; by apply Forall_drop).
    pose proof (Forall_inv Hall) as Hb. pose proof (first_at b Hb) as Hf. unfold first_ok in Hf.
    destruct (buf_at_drop _ _ _ _ Hd) as [Eb _].
    assert (Hstep : forall K p, class_ok K p = true -> delta 1 b ∈ K -> partial [b] ->
      exists fuel m, yy_match fuel ch 1 bp last = Some m /\ match_result ch bp (b :: v) m).
    { intros K p HK Hin Hpb. destruct (match_run b [] bp v (note_accept 1 bp last) Hpb Hd) as (fuel & m & Hm & Hr).
      exists (S fuel), m. split; [|done]. cbn [yy_match]. rewrite Eb. fold (delta 1 b).
      destruct (class_facts K p HK _ Hin) as (_ & _ & H49 & _). apply Z.eqb_neq in H49. rewrite H49.
      cbn [length foldl] in Hm. by replace (bp + 1)%nat with (S bp) in Hm by lia. }
    destruct (is_space b) eqn:Esp.
    { apply bool_decide_eq_true in Hf. apply (Hstep _ _ sp_class Hf). unfold partial. by rewrite Esp. }
    destruct (is_letter b) eqn:Ele.
    { apply andb_true_iff in Hf as [Hf _]. apply bool_decide_eq_true in Hf.
      apply (Hstep _ _ id_class Hf). unfold partial. by rewrite Esp, Ele. }
    apply Z.eqb_eq in Hf. exists 1%nat. eexists. split.
    { cbn [yy_match]. rewrite Eb. fold (delta 1 b). rewrite Hf, T4. reflexivity. }
    assert (Hlen : (bp < length ch)%nat).
    { apply (f_equal length) in Hd. rewrite length_drop in Hd. cbn in Hd. lia. }
    split; [lia|]. right. exists 9, [b], v, 4. split_and!; try done.
    + unfold yy_find_action. rewrite T9, T11. do 2 f_equal. cbn. lia.
    + intros rest. cbn. by rewrite Esp, Ele.
Qed.
End Window.

(** ** The buffer as a window of the file *)

(** The memory of the buffer holds [ch], the text [rest] is still to be read, and
    the sizes fit the integers that count them. *)
Record view (s : core) (ch rest : list Z) : Prop := mkView {
  view_mem : holds (yy_ch_buf s.1) ch;
  view_size : Z.of_nat (length (yy_ch_buf s.1)) = yy_buf_size s.1 + 2;
  view_bound : yy_buf_size s.1 < 2 ^ 63;
  view_n_chars : yy_n_chars s.2 = length ch;
  view_new : yy_buffer_status s.1 = BUFFER_NEW -> buf_n_chars s.1 = length ch;
  view_bytes : Forall byte_ok (ch ++ rest);
  view_small : Z.of_nat (length (ch ++ rest)) < 2 ^ 31 - 2;
  view_source :
    if yy_fill_buffer s.1 then
      yy_is_our_buffer s.1 = true /\ Z.of_nat (length ch) < yy_buf_size s.1 /\
      (yy_buffer_status s.1 = BUFFER_EOF_PENDING -> rest = []) /\
      exists f file, yyin s.2 = Some f /\ streams s.2 !! f = Some file /\ unread file = rest
    else rest = []
}.

(** What the scanner and its caller do not see of a refill. *)
Definition same_fill (s s' : core) : Prop :=
  yy_fill_buffer s'.1 = yy_fill_buffer s.1 /\ yylineno s'.2 = yylineno s.2.

(** Reading takes a prefix of the file, which is empty only at its end. *)
Lemma getc_line_spec max : forall l w r, getc_line max l = (w, r) ->
  l = w ++ r /\ (length w <= max)%nat /\ (w = [] -> max = O \/ l = []).
Proof.
  induction max as [|max IH]; intros l w r H; cbn in H; [injection H as <- <-; split_and!; auto; cbn; lia|].
  destruct l as [|c l]; [injection H as <- <-; split_and!; auto; cbn; lia|].
  destruct (c =? 10); [injection H as <- <-; split_and!; [done | cbn; lia | done]|].
  destruct (getc_line max l) as [w' r'] eqn:E. injection H as <- <-.
  destruct (IH _ _ _ E) as (-> & Hl & _). split_and!; [done | cbn; lia | done].
Qed.

(** [YY_INPUT] stores a prefix of the unread bytes. *)
Lemma YY_INPUT_spec off max b g f file :
  yyin g = Some f -> streams g !! f = Some file -> (0 < max)%nat ->
  (off + max <= length (yy_ch_buf b))%nat ->
  exists data rest, unread file = data ++ rest /\ (length data <= max)%nat /\ (data = [] -> unread file = []) /\
    YY_INPUT off max (b, g) =
      Some (set_ch_buf (take off (yy_ch_buf b) ++ data ++ drop (off + length data) (yy_ch_buf b)) b,
            set_n_chars (length data) (set_streams (<[f := mkFILE rest (tty file)]> (streams g)) g)).
Proof.
  intros Hin Hf Hmax Hoff. unfold YY_INPUT. rewrite Hin. cbn. rewrite Hf. cbn.
  destruct (if yy_is_interactive b then _ else _) as [data rest] eqn:E.
  assert (Hd : unread file = data ++ rest /\ (length data <= max)%nat /\ (data = [] -> unread file = [])).
  { destruct (yy_is_interactive b).
    - destruct (getc_line_spec _ _ _ _ E) as (? & ? & H). split_and!; [done | done | intros Hn; by destruct (H Hn); [lia|]].
    - injection E as <- <-. rewrite take_drop, length_take. split_and!; [done | lia|].
      intros Hn. destruct max as [|max]; [lia|]. by destruct (unread file). }
  destruct Hd as (Hu & Hl & He). exists data, rest. split_and!; try done.
  rewrite write_at_Some by lia. done.
Qed.

(** One round of growing is enough. *)
Lemma grow_buffer_spec k n b g : yy_is_our_buffer b = true -> 0 <= n < yy_buf_size b -> n < 2 ^ 31 ->
  yy_buf_size b < 2 ^ 63 -> Z.of_nat (yy_c_buf_p g) < 2 ^ 31 ->
  Z.of_nat (length (yy_ch_buf b)) = yy_buf_size b + 2 ->
  exists b' num, grow_buffer (S (S k)) n (b, g) = Some (num, (b', g)) /\
    0 < num /\ num = yy_buf_size b' - n - 1 /\ yy_buf_size b' < 2 ^ 63 /\
    (exists extra, yy_ch_buf b' = yy_ch_buf b ++ extra) /\
    Z.of_nat (length (yy_ch_buf b')) = yy_buf_size b' + 2 /\
    b' = set_buf_size (yy_buf_size b') (set_ch_buf (yy_ch_buf b') b).
Proof.
  intros Ho Hn Hn31 Hb Hp Hl. destruct (decide (n = yy_buf_size b - 1)) as [En | En].
  - cbn [grow_buffer]. unfold wrap. rewrite (Z.mod_small (yy_buf_size b - n - 1)) by lia.
    destruct (Z.eqb_spec (yy_buf_size b - n - 1) 0); [|lia]. cbn [negb]. rewrite Ho.
    rewrite (Z.mod_small (yy_buf_size b * 2)) by lia.
    destruct (Z.eqb_spec (yy_buf_size b * 2) 0); [lia|]. rewrite (Z.mod_small (yy_buf_size b * 2 + 2)) by lia.
    cbn [yy_buf_size set_buf_size]. rewrite Z.mod_small by lia.
    destruct (Z.eqb_spec (yy_buf_size b * 2 - n - 1) 0); [lia|]. cbn [negb].
    assert (Eg : set_c_buf_p (Z.to_nat (int32 (Z.of_nat (yy_c_buf_p g)))) g = g).
    { rewrite int32_id by lia. rewrite Nat2Z.id. by destruct g. }
    rewrite Eg. eexists _, _. split; [done|]. cbn.
    split_and!; [lia | done | lia | | | done].
    + unfold yyrealloc. rewrite resize_ge by lia. by eexists.
    + unfold yyrealloc. rewrite length_resize. lia.
  - exists b, (yy_buf_size b - n - 1). cbn [grow_buffer]. unfold wrap. rewrite Z.mod_small by lia.
    destruct (Z.eqb_spec (yy_buf_size b - n - 1) 0); [lia|]. cbn [negb].
    split_and!; [done | lia | done | done | exists []; by rewrite app_nil_r | done | by destruct b].
Qed.

(** The state after the read of a refill that keeps the text [D]. *)
Record read_ok (s : core) (D data rest : list Z) (s' : core) : Prop := mkReadOk {
  ro_mem : exists tail, yy_ch_buf s'.1 = D ++ data ++ tail;
  ro_size : Z.of_nat (length (yy_ch_buf s'.1)) = yy_buf_size s'.1 + 2;
  ro_bound : yy_buf_size s'.1 < 2 ^ 63;
  ro_fits : Z.of_nat (length D + length data) < yy_buf_size s'.1;
  ro_n : yy_n_chars s'.2 = length data;
  ro_status : yy_buffer_status s'.1 = yy_buffer_status s.1;
  ro_ours : yy_is_our_buffer s'.1 = true;
  ro_file : exists f file, yyin s'.2 = Some f /\ streams s'.2 !! f = Some file /\ unread file = rest;
  ro_same : same_fill s s';
  ro_hold : yy_hold_char s'.2 = yy_hold_char s.2
}.

Lemma read_more_spec b g D rest :
  (exists tail, yy_ch_buf b = D ++ tail) -> Z.of_nat (length (yy_ch_buf b)) = yy_buf_size b + 2 ->
  yy_buf_size b < 2 ^ 63 -> Z.of_nat (length D) < yy_buf_size b -> Z.of_nat (length D) < 2 ^ 31 ->
  Z.of_nat (yy_c_buf_p g) < 2 ^ 31 -> yy_is_our_buffer b = true ->
  (yy_buffer_status b = BUFFER_EOF_PENDING -> rest = []) ->
  (exists f file, yyin g = Some f /\ streams g !! f = Some file /\ unread file = rest) ->
  exists s' data rest', read_more (Z.of_nat (length D)) (b, g) = Some s' /\
    read_ok (b, g) D data rest' s' /\ rest = data ++ rest' /\ (data = [] -> rest = []).
Proof.
  intros [tail Hm] Hsz Hb Hfit H31 Hp Ho Hst (f & file & Hin & Hf & Hu). unfold read_more.
  destruct (bool_decide_reflect (yy_buffer_status b = BUFFER_EOF_PENDING)) as [Es | Es].
  { eexists _, [], []. split; [done|]. rewrite (Hst Es) in *.
    split_and!; [|done..]. split; cbn; try done; [by exists tail | lia | by exists f, file]. }
  destruct (grow_buffer_spec 62 (Z.of_nat (length D)) b g) as (b1 & num & -> & Hnum & En & Hb1 & (extra & Hm1) & Hsz1 & Eb1);
    [done | lia | lia | done | done | done |]. cbn [mbind option_bind].
  set (max := if YY_READ_BUF_SIZE <? num then YY_READ_BUF_SIZE else num).
  assert (Hmax : 0 < max <= num) by (subst max; unfold YY_READ_BUF_SIZE; destruct (Z.ltb_spec 8192 num); lia).
  rewrite Nat2Z.id.
  destruct (YY_INPUT_spec (length D) (Z.to_nat max) b1 g f file Hin Hf) as (data & rest' & Hd & Hl & He & ->);
    [lia | lia |]. cbn [mbind option_bind].
  eexists _, data, rest'. split; [done|]. rewrite <- Hu.
  split_and!; [| done | done].
  assert (Hmem : exists tl, take (length D) (yy_ch_buf b1) ++ data ++ drop (length D + length data) (yy_ch_buf b1)
    = D ++ data ++ tl).
  { rewrite Hm1, Hm, <- app_assoc, take_app_length. by eexists. }
  assert (Hlen : length (take (length D) (yy_ch_buf b1) ++ data ++ drop (length D + length data) (yy_ch_buf b1))
    = length (yy_ch_buf b1)).
  { rewrite !length_app, length_take, length_drop. lia. }
  split; cbn; try done.
  - rewrite Hlen. done.
  - lia.
  - rewrite Eb1. done.
  - rewrite Eb1. done.
  - exists f, (mkFILE rest' (tty file)). split_and!; [done | | done].
    apply list_lookup_insert_eq. by eapply lookup_lt_Some.
  - split; [|done]. cbn. rewrite Eb1. done.
Qed.

(** The end-of-buffer characters are written after the text. *)
Lemma poke_eob D data tail : (2 <= length tail)%nat ->
  exists mem, (mem ← poke (length D + length data) 0 (D ++ data ++ tail);
     poke (S (length D + length data)) 0 mem) = Some mem /\
   holds mem (D ++ data) /\ length mem = length (D ++ data ++ tail).
Proof.
  intros Ht. destruct tail as [|x [|y tail]]; [cbn in Ht; lia..|]. rewrite app_assoc, <- length_app.
  rewrite poke_Some by (rewrite !length_app; cbn; lia). cbn [mbind option_bind].
  rewrite insert_app_r_alt, Nat.sub_diag by lia. cbn [insert list_insert].
  rewrite poke_Some by (rewrite !length_app; cbn; lia).
  eexists. split; [done|]. rewrite insert_app_r_alt by lia.
  replace (S (length (D ++ data)) - length (D ++ data))%nat with 1%nat by lia.
  split; [by exists tail | by rewrite !length_app].
Qed.

Definition refill_act (D data : list Z) : eob_act :=
  match data, D with
  | _ :: _, _ => EOB_ACT_CONTINUE_SCAN
  | [], [] => EOB_ACT_END_OF_FILE
  | [], _ => EOB_ACT_LAST_MATCH
  end.

(** A refill keeps the text from [bp] on and adds a prefix of what is unread. *)
Record refilled (s : core) (D rest data : list Z) (s' : core) (ch' : list Z) : Prop := mkRefilled {
  rf_rest : exists rest', rest = data ++ rest' /\ view s' ch' rest';
  rf_end : data = [] -> rest = [];
  rf_bp : (yytext_ptr s'.2 <= length ch')%nat;
  rf_text : drop (yytext_ptr s'.2) ch' = D ++ data;
  rf_same : same_fill s s';
  rf_hold : yy_hold_char s'.2 = 0
}.

(** [yyrestart] empties a buffer that has room for the end-of-buffer characters. *)
Lemma restart_current_spec file b g : (2 <= length (yy_ch_buf b))%nat ->
  exists mem at_bol, restart_current file (b, g) =
    Some (mkBuffer file mem 0 (yy_buf_size b) 0 (yy_is_our_buffer b) (isatty g file) at_bol (yy_bs_lineno b)
            (yy_bs_column b) true BUFFER_NEW,
          mkRegs 0 0 0 0 (yyleng g) file (yylineno g) (yy_last_accepting g) (streams g)) /\
    holds mem [] /\ length mem = length (yy_ch_buf b).
Proof.
  intros Hl. unfold restart_current, yy_init_buffer, yy_flush_buffer.
  destruct (yy_ch_buf b) as [|x [|y mem]] eqn:Em; [cbn in Hl; lia..|].
  cbn. eexists _, _. split; [done|]. split; [by exists mem | done].
Qed.

(** The read decides what [yy_get_next_buffer] returns. *)
Lemma refill_result_spec s D data rest s1 :
  read_ok s D data rest s1 -> (data = [] -> rest = []) ->
  (yy_buffer_status s.1 = BUFFER_EOF_PENDING -> rest = []) -> yy_buffer_status s.1 <> BUFFER_NEW ->
  yy_fill_buffer s.1 = true -> yy_hold_char s.2 = 0 ->
  exists s2, refill_result (Z.of_nat (length D)) s1 = Some (refill_act D data, s2) /\
    yy_buf_size s2.1 = yy_buf_size s1.1 /\ yy_fill_buffer s2.1 = true /\ yy_is_our_buffer s2.1 = true /\
    (exists tail, yy_ch_buf s2.1 = D ++ data ++ tail) /\ length (yy_ch_buf s2.1) = length (yy_ch_buf s1.1) /\
    (yy_buffer_status s2.1 = BUFFER_EOF_PENDING -> rest = []) /\
    (yy_buffer_status s2.1 = BUFFER_NEW -> data = [] /\ D = [] /\ buf_n_chars s2.1 = O) /\
    yy_n_chars s2.2 = length data /\ yyin s2.2 = yyin s1.2 /\ streams s2.2 = streams s1.2 /\
    yylineno s2.2 = yylineno s.2 /\ yy_hold_char s2.2 = 0.
Proof.
  intros [(tail & Hm) Hsz Hb Hfit Hn Hst Ho _ [Hfill Hln] Hh] He Hpend Hnew Hfl Hh0.
  destruct s1 as [b1 g1]. cbn [fst snd] in *. unfold refill_result. rewrite Hn.
  destruct data as [|x data].
  - specialize (He eq_refl). destruct D as [|y D].
    + destruct (restart_current_spec (yyin g1) b1 g1) as (mem & bol & -> & (junk & Hmem) & Hml); [cbn in Hfit; lia|].
      eexists. split; [done|]. cbn. split_and!; try done. by eexists.
    + eexists. split; [done|]. cbn. split_and!; try done; [by rewrite Hfill | by exists tail | by rewrite Hh].
  - eexists. split; [by destruct D|]. cbn.
    split_and!; try done; try (rewrite Hst; done); [by rewrite Hfill | by exists tail | by rewrite Hh].
Qed.

Lemma end_refill_spec s D data tail : yy_ch_buf s.1 = D ++ data ++ tail ->
  Z.of_nat (length (yy_ch_buf s.1)) = yy_buf_size s.1 + 2 ->
  Z.of_nat (length D + length data) < yy_buf_size s.1 < 2 ^ 63 -> yy_n_chars s.2 = length data ->
  exists mem, end_refill (Z.of_nat (length D)) s =
      Some (set_ch_buf mem s.1, set_text_ptr 0 (set_n_chars (length (D ++ data)) s.2)) /\
    holds mem (D ++ data) /\ length mem = length (yy_ch_buf s.1).
Proof.
  destruct s as [b g]. cbn [fst snd]. intros Hm Hsz Hb Hn. unfold end_refill. rewrite Hn.
  assert (Hw : wrap 64 (Z.of_nat (length data) + Z.of_nat (length D)) = Z.of_nat (length D + length data))
    by (unfold wrap; rewrite Z.mod_small; lia).
  rewrite !Hw. destruct (Z.ltb_spec (yy_buf_size b) (Z.of_nat (length D + length data))); [lia|]. rewrite Nat2Z.id.
  rewrite Hm in *. destruct (poke_eob D data tail) as (mem & Hpk & Hhold & Hml); [rewrite !length_app in Hsz; lia|].
  exists mem. split; [|done]. unfold YY_END_OF_BUFFER_CHAR.
  destruct (poke (length D + length data) 0 _) as [mem1|] eqn:E1; [|done]. cbn [mbind option_bind] in *.
  rewrite Hpk. cbn. by rewrite length_app.
Qed.

Lemma view_drop_small s ch rest bp : view s ch rest ->
  Forall byte_ok (drop bp ch ++ rest) /\ Z.of_nat (length (drop bp ch ++ rest)) < 2 ^ 31 - 2.
Proof.
  intros Hv. pose proof (view_small _ _ _ Hv) as Hs. pose proof (view_bytes _ _ _ Hv) as Hb.
  apply Forall_app in Hb as [Hc Hr]. rewrite length_app in *. rewrite length_drop. split; [|lia].
  apply Forall_app. split; [by apply Forall_drop | done].
Qed.

(** [yy_get_next_buffer] at the end of a match attempt that started at [bp]. *)
Lemma next_buffer_spec s ch rest : view s ch rest -> (yytext_ptr s.2 <= length ch)%nat ->
  yy_c_buf_p s.2 = S (length ch) -> yy_hold_char s.2 = 0 -> yy_buffer_status s.1 <> BUFFER_NEW ->
  exists s' ch' data, yy_get_next_buffer s = Some (refill_act (drop (yytext_ptr s.2) ch) data, s') /\
    refilled s (drop (yytext_ptr s.2) ch) rest data s' ch'.
Proof.
  intros Hv Hbp Hcp Hh Hnew. set (bp := yytext_ptr s.2) in *. set (D := drop bp ch).
  assert (HD : length D = (length ch - bp)%nat) by (subst D; by rewrite length_drop).
  destruct (view_drop_small _ _ _ bp Hv) as [HDb HDs]. fold D in HDb, HDs.
  destruct s as [b g]. unfold yy_get_next_buffer. cbn [fst snd] in *. fold bp.
  destruct Hv as [Hm Hsz Hbd Hn _ Hby Hsm Hsrc]. cbn [fst snd] in *. rewrite Hcp, Hn.
  destruct (Nat.ltb_spec (length ch + 1) (S (length ch))); [lia|].
  destruct (yy_fill_buffer b) eqn:Ef; cbn [negb].
  2: { subst rest. exists (b, g), ch, []. split.
    { f_equal. f_equal. unfold refill_act. destruct D as [|x D'] eqn:ED; cbn in HD.
      - destruct (Z.eqb_spec (Z.of_nat (S (length ch)) - Z.of_nat bp) 1); [done | lia].
      - destruct (Z.eqb_spec (Z.of_nat (S (length ch)) - Z.of_nat bp) 1); [lia | done]. }
    split; try done; cbn; [| by rewrite app_nil_r].
    exists []. split; [done|]. split; cbn; try done. by rewrite Ef. }
  destruct Hsrc as (Ho & Hfit & Hpend & f & file & Hin & Hf & Hu).
  rewrite !length_app in Hsm. pose proof (holds_length _ _ Hm) as Hml.
  assert (Hmv : int32 (int32 (Z.of_nat (S (length ch)) - Z.of_nat bp) - 1) = Z.of_nat (length D)).
  { rewrite (int32_id (_ - Z.of_nat bp)) by lia. rewrite int32_id; lia. }
  rewrite Hmv, Nat2Z.id. rewrite move_text_Some by lia. cbn [mbind option_bind].
  assert (Hmem : exists tail, take 0 (yy_ch_buf b) ++ take (length D) (drop bp (yy_ch_buf b)) ++
                   drop (0 + length D) (yy_ch_buf b) = D ++ tail).
  { eexists. rewrite take_0. cbn [app]. f_equal. destruct Hm as [junk ->].
    rewrite drop_app_le by lia. fold D. by rewrite take_app_length. }
  assert (Hlen : length (take 0 (yy_ch_buf b) ++ take (length D) (drop bp (yy_ch_buf b)) ++
                   drop (0 + length D) (yy_ch_buf b)) = length (yy_ch_buf b)).
  { rewrite !length_app, !length_take, !length_drop. lia. }
  set (mem := take 0 (yy_ch_buf b) ++ _) in *. clearbody mem.
  destruct (read_more_spec (set_ch_buf mem b) g D rest) as (s1 & data & rest' & -> & Hro & Hrest & He);
    cbn; try done; try lia; [by exists f, file|]. cbn [mbind option_bind].
  assert (He' : data = [] -> rest' = []) by (intros E; specialize (He E); by rewrite Hrest, E in He).
  assert (Hp' : yy_buffer_status b = BUFFER_EOF_PENDING -> rest' = []).
  { intros E. specialize (Hpend E). rewrite Hrest in Hpend. by apply app_eq_nil in Hpend as [_ ?]. }
  destruct (refill_result_spec _ _ _ _ _ Hro He') as
    (s2 & -> & Es & Efl & Eo & (tail & Em) & El & Hp2 & Hn2 & Enc & Ein & Est & Eln & Eh); try done.
  cbn [mbind option_bind].
  destruct Hro as [_ Rsz Rb Rfit _ _ _ (f' & file' & Rin & Rf & Ru) [_ Rln] _].
  destruct (end_refill_spec s2 D data tail Em) as (mem' & -> & Hh' & Hl'); [lia | lia | done|].
  eexists _, (D ++ data), data. split; [done|].
  split; cbn; try done; [| lia | split; cbn; by rewrite ?Efl].
  exists rest'. split; [done|]. rewrite Hrest, app_assoc in HDb, HDs.
  split; cbn; try done; try lia.
  - intros E. destruct (Hn2 E) as (-> & -> & ->). done.
  - rewrite Efl, length_app, Ein, Est. split_and!; [done | lia | done|]. by exists f', file'.
Qed.

(** ** The scan of a token *)

Lemma view_regs b g ch rest p l : view (b, g) ch rest -> view (b, set_last l (set_c_buf_p p g)) ch rest.
Proof. intros [H1 H2 H3 H4 H5 H6 H7 H8]. split; done. Qed.

Lemma refilled_regs s D rest data b g ch' p l :
  refilled s D rest data (b, g) ch' -> refilled s D rest data (b, set_last l (set_c_buf_p p g)) ch'.
Proof.
  intros [(r & E & Hv) H2 H3 H4 H5 H6]. split; try done.
  exists r. split; [done | by apply view_regs].
Qed.

Definition terminated (bp cp : nat) (s : core) : core :=
  (set_ch_buf (<[cp := 0]> (yy_ch_buf s.1)) s.1,
   mkRegs (buf_at (yy_ch_buf s.1) cp) (yy_n_chars s.2) cp bp (cp - bp) (yyin s.2) (yylineno s.2)
     (yy_last_accepting s.2) (streams s.2)).

Lemma before_action bp cp s : (cp < length (yy_ch_buf s.1))%nat ->
  YY_DO_BEFORE_ACTION bp cp s = Some (terminated bp cp s).
Proof.
  intros H. destruct s as [b g]. unfold YY_DO_BEFORE_ACTION, terminated. cbn [fst snd] in *.
  destruct (lookup_lt_is_Some_2 _ _ H) as [c Hc]. unfold buf_at. rewrite Hc. cbn.
  by rewrite poke_Some.
Qed.

Lemma restore_mem (mem : list Z) cp : (cp < length mem)%nat ->
  poke cp (buf_at mem cp) (<[cp := 0]> mem) = Some mem.
Proof.
  intros H. rewrite poke_Some by (by rewrite length_insert). f_equal. rewrite list_insert_insert_eq.
  apply list_insert_id. unfold buf_at. by destruct (lookup_lt_is_Some_2 _ _ H) as [c ->].
Qed.

Lemma yy_ch_buf_set m b : yy_ch_buf (set_ch_buf m b) = m.
Proof. done. Qed.

Lemma set_ch_buf_id m b : set_ch_buf (yy_ch_buf b) (set_ch_buf m b) = b.
Proof. by destruct b. Qed.

(** Where a match goes on after a refill. *)
Definition resume (D data ch' : list Z) (s' : core) : option scan_point :=
  match refill_act D data with
  | EOB_ACT_END_OF_FILE => None
  | EOB_ACT_CONTINUE_SCAN => Some (AtMatch (foldl delta 1 D) (yytext_ptr s'.2 + length D))
  | EOB_ACT_LAST_MATCH => Some (AtFind (foldl delta 1 D) (length ch'))
  end.

Lemma previous_state_spec b g ch' rest p w : view (b, g) ch' rest -> (p <= length ch')%nat ->
  (yytext_ptr g <= p)%nat -> take (p - yytext_ptr g) (drop (yytext_ptr g) ch') = w ->
  exists l, previous_state (b, set_c_buf_p p g) =
    Some (foldl delta 1 w, (b, set_last l (set_c_buf_p p g))).
Proof.
  intros Hv Hp Ht Hw. pose proof (view_mem _ _ _ Hv) as Hm. pose proof (holds_length _ _ Hm) as Hl. cbn in Hm, Hl.
  unfold previous_state. cbn.
  destruct (Nat.leb_spec p (length (yy_ch_buf b))); [|lia].
  assert (Hlw : length w = (p - yytext_ptr g)%nat) by (rewrite <- Hw, length_take, length_drop; lia).
  destruct (yy_get_previous_state _ _ _ _ _) as [st l] eqn:E. exists l. do 2 f_equal.
  rewrite <- Hlw in E. replace st with ((yy_get_previous_state (yy_ch_buf b) (yytext_ptr g) (length w) 1
    (yy_last_accepting g)).1) by (by rewrite E).
  apply previous_state_mem.
  - destruct Hm as [junk ->]. rewrite drop_app_le, take_app_le by (rewrite ?length_drop; lia). by rewrite Hlw.
  - rewrite <- Hw. apply Forall_take, Forall_drop.
    pose proof (view_bytes _ _ _ Hv) as Hb. by apply Forall_app in Hb as [Hb _].
Qed.

Lemma end_of_buffer_spec s ch rest bp : view s ch rest -> (bp <= length ch)%nat ->
  exists s' ch' data,
    end_of_buffer (S (length ch)) (terminated bp (S (length ch)) s) = Some (resume (drop bp ch) data ch' s', s') /\
    refilled s (drop bp ch) rest data s' ch' /\
    (refill_act (drop bp ch) data = EOB_ACT_END_OF_FILE -> yy_c_buf_p s'.2 = yytext_ptr s'.2).
Proof.
  intros Hv Hbp. destruct s as [b g]. unfold end_of_buffer, restore_char, terminated. cbn [fst snd yytext_ptr yy_hold_char].
  pose proof (holds_length _ _ (view_mem _ _ _ Hv)) as Hl. cbn [fst] in Hl.
  rewrite yy_ch_buf_set, restore_mem by lia. cbn [mbind option_bind]. rewrite set_ch_buf_id.
  pose proof (view_small _ _ _ Hv) as Hsm. rewrite length_app in Hsm.
  assert (Ham : int32 (Z.of_nat (S (length ch)) - Z.of_nat bp) - 1 = Z.of_nat (length (drop bp ch))).
  { rewrite length_drop, int32_id; lia. }
  rewrite Ham. assert (Hh : buf_at (yy_ch_buf b) (S (length ch)) = 0).
  { rewrite (holds_at _ ch) by (exact (view_mem _ _ _ Hv) || lia). by apply buf_at_end; lia. }
  rewrite Hh. set (g1 := mkRegs 0 (yy_n_chars g) _ _ _ _ _ _ _).
  set (s1 := if bool_decide _ then _ else _).
  assert (Hv1 : view s1 ch rest /\ yytext_ptr s1.2 = bp /\ yy_c_buf_p s1.2 = S (length ch) /\
    yy_hold_char s1.2 = 0 /\ yy_buffer_status s1.1 <> BUFFER_NEW /\ same_fill (b, g) s1).
  { destruct Hv as [H1 H2 H3 H4 H5 H6 H7 H8]. subst s1 g1. cbn [fst snd] in *.
    destruct (bool_decide_reflect (yy_buffer_status b = BUFFER_NEW)) as [En | En]; split_and!; try done.
    split; try done; cbn; [by apply H5|]. destruct (yy_fill_buffer b); [|done].
    destruct H8 as (? & ? & _ & ?). by split_and!. }
  destruct s1 as [b1 g1']. clear g1. destruct Hv1 as (Hv1 & Ht & Hc & Hh1 & Hst & Hsame). cbn [fst snd] in *.
  pose proof (view_n_chars _ _ _ Hv1) as Hn. cbn in Hn.
  destruct (Nat.leb_spec (yy_c_buf_p g1') (yy_n_chars g1')); [lia|].
  destruct (next_buffer_spec _ _ _ Hv1) as ((b2 & g2) & ch' & data & Hnb & Hrf);
    [cbn [snd]; lia | done | done | done |].
  cbn [fst snd] in *. rewrite Ht in *. rewrite Hnb. cbn [mbind option_bind].
  assert (Hrf' : refilled (b, g) (drop bp ch) rest data (b2, g2) ch').
  { destruct Hrf as [R1 R2 R3 R4 [R5 R5'] R6]. destruct Hsame as [S1 S2]. split; try done.
    split; [by rewrite R5, S1 | by rewrite R5', S2]. }
  clear Hrf. destruct Hrf' as [(rest' & Hrest & Hv2) R2 R3 R4 R5 R6] eqn:Erf. clear Erf. cbn [fst snd] in *.
  unfold resume. set (D := drop bp ch) in *.
  assert (HlD : (length ch' - yytext_ptr g2 = length D + length data)%nat).
  { apply (f_equal length) in R4. rewrite length_drop, length_app in R4. done. }
  destruct (refill_act D data) eqn:Ea.
  - assert (Hp : text_plus g2 (Z.of_nat (length D)) = (yytext_ptr g2 + length D)%nat) by (unfold text_plus; lia).
    rewrite Hp. destruct (previous_state_spec b2 g2 ch' rest' (yytext_ptr g2 + length D) D Hv2) as [l Hps];
      [lia | lia | |].
    { rewrite R4. replace (yytext_ptr g2 + length D - yytext_ptr g2)%nat with (length D) by lia. apply take_app_length. }
    rewrite Hps. cbn [mbind option_bind].
    exists (b2, set_last l (set_c_buf_p (yytext_ptr g2 + length D) g2)), ch', data. rewrite Ea.
    split_and!; [reflexivity | by apply refilled_regs | done].
  - exists (b2, set_c_buf_p (yytext_ptr g2) g2), ch', data. rewrite Ea. split_and!; [reflexivity | | done].
    exact (refilled_regs _ _ _ _ _ _ _ (yytext_ptr g2) (yy_last_accepting g2) Hrf').
  - destruct (previous_state_spec b2 g2 ch' rest' (length ch') D Hv2) as [l Hps]; [lia | lia | |].
    { rewrite R4. destruct data as [|x data]; [|by destruct D]. rewrite app_nil_r. rewrite HlD. cbn. rewrite Nat.add_0_r.
      apply firstn_all. }
    pose proof (view_n_chars _ _ _ Hv2) as Hn2. cbn in Hn2. rewrite Hn2.
    rewrite Hps. cbn [mbind option_bind].
    exists (b2, set_last l (set_c_buf_p (length ch') g2)), ch', data. rewrite Ea.
    split_and!; [reflexivity | by apply refilled_regs | done].
Qed.

(** The state after a match: the text is terminated in a window of the file. *)
Definition matched (s : core) (act : Z) (tok R : list Z) (s' : core) : Prop :=
  exists s1 ch rest bp, view s1 ch rest /\ same_fill s s1 /\ (bp <= length ch)%nat /\
    (exists r, drop bp ch = tok ++ r /\ r ++ rest = R) /\
    s' = count_lines act (terminated bp (bp + length tok) s1).

(** Between two calls of [yylex]: the text [T] is still to be scanned; [fl] says
    whether the buffer is filled from a stream. *)
Definition idle (fl : bool) (s : core) (T : list Z) : Prop :=
  exists b ch rest, restore_char (yy_c_buf_p s.2) s = Some (b, s.2) /\ yy_fill_buffer b = fl /\ view (b, s.2) ch rest /\
    (yy_c_buf_p s.2 <= length ch)%nat /\ drop (yy_c_buf_p s.2) ch ++ rest = T.

Lemma count_lines_eob s : count_lines YY_END_OF_BUFFER s = s.
Proof. by destruct s. Qed.

Lemma same_fill_trans s1 s2 s3 : same_fill s1 s2 -> same_fill s2 s3 -> same_fill s1 s3.
Proof. intros [? ?] [? ?]. split; congruence. Qed.

(** An attempt that is still partial at the end of the file is the last token. *)
Lemma partial_last b w : partial (b :: w) -> Forall byte_ok (b :: w) ->
  first_tok (b :: w) = (at_ yy_accept (foldl delta 1 (b :: w)), b :: w, []) /\
  at_ yy_accept (foldl delta 1 (b :: w)) <> 0 /\ at_ yy_accept (foldl delta 1 (b :: w)) <> YY_END_OF_BUFFER.
Proof.
  intros Hp Hw. apply Forall_cons_1 in Hw as [Hb Hw].
  destruct (partial_class b w Hp Hb) as (K & p & HK & Hin & Hpw & _ & Hft).
  specialize (Hft w [] Hw Hpw I). rewrite app_nil_r in Hft. split; [done|].
  assert (Hs : foldl delta 1 (b :: w) ∈ K) by (by apply (class_run K p HK (delta 1 b) w)).
  by destruct (class_facts K p HK _ Hs) as (? & ? & _).
Qed.

Lemma scan_find fuel bp st p s act : at_ yy_accept st = act -> act <> 0 -> act <> YY_END_OF_BUFFER ->
  (p < length (yy_ch_buf s.1))%nat ->
  scan (S fuel) bp (AtFind st p) s = Some (Some act, count_lines act (terminated bp p s)).
Proof.
  intros Ha H0 H11 Hp. destruct s as [b g]. cbn [scan match_and_find]. unfold yy_find_action. rewrite Ha.
  apply Z.eqb_neq in H0, H11. rewrite H0. cbn [mbind option_bind]. rewrite before_action by done.
  cbn [mbind option_bind]. by rewrite H11, H0.
Qed.

(** At the end of the file the scanner is idle with nothing left. *)
Lemma eof_idle s ch : view s ch [] -> (yytext_ptr s.2 <= length ch)%nat -> drop (yytext_ptr s.2) ch = [] ->
  yy_c_buf_p s.2 = yytext_ptr s.2 -> yy_hold_char s.2 = 0 -> idle (yy_fill_buffer s.1) s [].
Proof.
  destruct s as [b g]. cbn [fst snd]. intros Hv Hle Ht Hc Hh.
  assert (Hlen : length ch = yytext_ptr g) by (apply (f_equal length) in Ht; rewrite length_drop in Ht; cbn in Ht; lia).
  pose proof (view_mem _ _ _ Hv) as [junk Hm]. cbn [fst] in Hm.
  exists b, ch, []. cbn [fst snd]. rewrite Hc. split_and!; [| done | done | lia | by rewrite Ht].
  unfold restore_char. rewrite Hh, Hm, poke_Some by (rewrite length_app; cbn; lia). cbn. do 2 f_equal.
  rewrite list_insert_id by (rewrite lookup_app_r, Hlen, Nat.sub_diag by lia; done).
  rewrite <- Hm. by destruct b.
Qed.

(** A match attempt in the window. *)
Lemma match_in_window s ch rest bp u v : view s ch rest -> (bp <= length ch)%nat -> drop bp ch = u ++ v -> partial u ->
  exists last, (partial (u ++ v) /\
      match_and_find (AtMatch (foldl delta 1 u) (bp + length u)) s =
        Some (YY_END_OF_BUFFER, S (length ch), (s.1, set_last last s.2))) \/
    (exists act tok R, match_and_find (AtMatch (foldl delta 1 u) (bp + length u)) s =
        Some (act, bp + length tok, (s.1, set_last last s.2))%nat /\
      act <> 0 /\ act <> YY_END_OF_BUFFER /\ tok <> [] /\ u ++ v = tok ++ R /\
      forall rest, first_tok (u ++ v ++ rest) = (act, tok, R ++ rest)).
Proof.
  intros Hv Hbp Hd Hu. pose proof (view_mem _ _ _ Hv) as Hm. pose proof (holds_length _ _ Hm) as Hml.
  pose proof (view_bytes _ _ _ Hv) as Hby. apply Forall_app in Hby as [Hch _].
  destruct (match_window ch Hch bp u v (yy_last_accepting s.2) Hu Hd Hbp) as (k & [[st cp] last] & Hy & Hcp & Hres).
  destruct (yy_match_mem _ _ Hm k (S (length (yy_ch_buf s.1) - (bp + length u))) _ _ _ _ _ _ Hy) as [_ Hy']; [lia | lia |].
  assert (Hmf : match_and_find (AtMatch (foldl delta 1 u) (bp + length u)) s =
    let '(act, _, cp) := yy_find_action st cp last in Some (act, cp, (s.1, set_last last s.2))).
  { destruct s as [b g]. cbn [fst snd] in *. unfold match_and_find. rewrite Hy'. cbn [mbind option_bind].
    destruct (Nat.leb_spec cp (length (yy_ch_buf b))); [done | lia]. }
  exists last. rewrite Hmf.
  destruct Hres as [(Hpart & st' & ->) | (act & tok & R & st' & -> & H0 & H11 & Htok & HD & Hft)]; [by left|].
  right. exists act, tok, R. split_and!; try done. intros r. rewrite app_assoc. apply Hft.
Qed.

Lemma scan_spec n : forall fuel s ch rest bp u v, (length rest <= n)%nat -> (n + 2 < fuel)%nat ->
  view s ch rest -> (bp <= length ch)%nat -> drop bp ch = u ++ v -> partial u ->
  exists res s', scan fuel bp (AtMatch (foldl delta 1 u) (bp + length u)) s = Some (res, s') /\
    match drop bp ch ++ rest with
    | [] => res = None /\ idle (yy_fill_buffer s.1) s' [] /\ same_fill s s'
    | T => let '(act, tok, R) := first_tok T in
           res = Some act /\ act <> 0 /\ act <> YY_END_OF_BUFFER /\ matched s act tok R s'
    end.
Proof.
  induction n as [n IH] using (well_founded_induction lt_wf).
  intros fuel s ch rest bp u v Hn Hf Hv Hbp Hd Hu. destruct fuel as [|fuel]; [lia|]. cbn [scan].
  pose proof (holds_length _ _ (view_mem _ _ _ Hv)) as Hml.
  pose proof (view_bytes _ _ _ Hv) as Hby. apply Forall_app in Hby as [Hch Hre].
  destruct (match_in_window s ch rest bp u v Hv Hbp Hd Hu) as [last Hres].
  set (s0 := (s.1, set_last last s.2)) in *.
  assert (Hv0 : view s0 ch rest).
  { destruct Hv as [H1 H2 H3 H4 H5 H6 H7 H8]. split; done. }
  assert (Hs0 : same_fill s s0) by done. setoid_rewrite app_assoc in Hres. rewrite <- Hd in Hres.
  destruct Hres as [(Hpart & ->) | (act & tok & R & -> & H0 & H11 & Htok & HD & Hft)].
  2: { cbn [mbind option_bind].
    assert (Hlt : (length tok <= length ch - bp)%nat).
    { apply (f_equal length) in HD. rewrite length_drop, length_app in HD. lia. }
    rewrite before_action by (cbn; lia). cbn [mbind option_bind].
    rewrite (proj2 (Z.eqb_neq _ _) H11), (proj2 (Z.eqb_neq _ _) H0). eexists _, _. split; [done|].
    specialize (Hft rest). destruct (drop bp ch ++ rest) eqn:ET.
    { apply app_eq_nil in ET as [ET _]. rewrite ET in HD. symmetry in HD. by apply app_eq_nil in HD as [-> _]. }
    rewrite Hft. split_and!; try done. exists s0, ch, rest, bp. split_and!; try done. by exists R. }
  cbn [mbind option_bind]. rewrite before_action by (cbn; lia). cbn [mbind option_bind].
  rewrite count_lines_eob. change (YY_END_OF_BUFFER =? YY_END_OF_BUFFER) with true. cbn iota.
  destruct (end_of_buffer_spec s0 ch rest bp Hv0 Hbp) as (s1 & ch1 & data & He & Hrf & Hc). rewrite He.
  cbn [mbind option_bind]. clear He.
  destruct Hrf as [(rest' & Hrest & Hv1) Rend Rbp Rtext Rsame Rhold]. set (D := drop bp ch) in *.
  unfold resume. destruct data as [|x data].
  - specialize (Rend eq_refl). rewrite Rend in *. symmetry in Hrest. apply app_eq_nil in Hrest as [_ ->].
    rewrite app_nil_r in Rtext |- *. destruct D as [|y D'] eqn:ED; cbn [refill_act] in *.
    + eexists _, _. split; [done|]. split_and!; [done | | by apply (same_fill_trans _ s0)].
      replace (yy_fill_buffer s.1) with (yy_fill_buffer s1.1) by (by destruct Rsame). by apply (eof_idle s1 ch1 Hv1); try apply Hc.
    + assert (HbD : Forall byte_ok (y :: D')) by (rewrite <- ED; by apply Forall_drop).
      destruct (partial_last y D' Hpart HbD) as (Hft & H0 & H11).
      pose proof (holds_length _ _ (view_mem _ _ _ Hv1)) as Hml1.
      destruct fuel as [|fuel]; [lia|]. rewrite (scan_find fuel _ _ _ _ _ eq_refl H0 H11) by lia.
      eexists _, _. split; [done|]. rewrite Hft. split_and!; try done.
      exists s1, ch1, [], (yytext_ptr s1.2). split_and!; [done | by apply (same_fill_trans _ s0) | done | |].
      * exists []. by rewrite app_nil_r, Rtext.
      * do 2 f_equal. apply (f_equal length) in Rtext. rewrite length_drop in Rtext. lia.
  - cbn [refill_act]. assert (Hlr : (length rest' < length rest)%nat) by (rewrite Hrest; cbn; rewrite length_app; lia).
    destruct (IH (length rest') ltac:(lia) fuel s1 ch1 rest' (yytext_ptr s1.2) D (x :: data)) as (res & s' & Hs & Hpost);
      try done; try lia.
    exists res, s'. split; [done|]. rewrite Rtext, <- app_assoc, <- Hrest in Hpost.
    destruct (D ++ rest) eqn:ET.
    { apply app_eq_nil in ET as [_ ET]. by rewrite ET in Hrest. }
    destruct (first_tok _) as [[act tok] R]. destruct Hpost as (-> & H0 & H11 & s2 & ch2 & rest2 & bp2 & Hv2 & Hsm2 & Hb2 & Ht2 & Hs2).
    split_and!; try done. exists s2, ch2, rest2, bp2. split_and!; try done.
    apply (same_fill_trans _ s1); [by apply (same_fill_trans _ s0) | done].
Qed.

(** ** What the actions see *)

Lemma matched_idle s act tok R s' : matched s act tok R s' -> idle (yy_fill_buffer s.1) s' R.
Proof.
  intros (s1 & ch & rest & bp & Hv & [Hfl _] & Hbp & (r & Hd & HR) & ->). destruct s1 as [b g].
  pose proof (holds_length _ _ (view_mem _ _ _ Hv)) as Hl. cbn [fst] in Hl.
  assert (Hlen : (bp + length tok + length r = length ch)%nat).
  { apply (f_equal length) in Hd. rewrite length_drop, length_app in Hd. lia. }
  assert (Hrest : forall g', yy_hold_char g' = buf_at (yy_ch_buf b) (bp + length tok) ->
    restore_char (bp + length tok) (set_ch_buf (<[(bp + length tok)%nat := 0]> (yy_ch_buf b)) b, g') = Some (b, g')).
  { intros g' Eh. unfold restore_char. rewrite yy_ch_buf_set, Eh, restore_mem by lia. cbn [mbind option_bind].
    by rewrite set_ch_buf_id. }
  assert (Hdr : drop (bp + length tok) ch ++ rest = R) by (by rewrite <- drop_drop, Hd, drop_app_length).
  exists b, ch, rest. unfold count_lines, terminated. cbn [fst snd].
  destruct (_ && _); cbn [snd yy_c_buf_p set_lineno]; rewrite Hrest by done; (split_and!; [done | done | | lia | done]);
    destruct Hv as [H1 H2 H3 H4 H5 H6 H7 H8]; split; done.
Qed.

(** The text of a match ends with a NUL. *)
Lemma matched_text s act tok R s' : matched s act tok R s' ->
  exists junk, drop (yytext_ptr s'.2) (yy_ch_buf s'.1) = tok ++ 0 :: junk.
Proof.
  intros (s1 & ch & rest & bp & Hv & _ & Hbp & (r & Hd & HR) & ->). destruct s1 as [b g].
  assert (Hlen : (bp + length tok + length r = length ch)%nat).
  { apply (f_equal length) in Hd. rewrite length_drop, length_app in Hd. lia. }
  destruct (view_mem _ _ _ Hv) as [junk Hm]. cbn [fst] in Hm.
  assert (Hdr : drop bp (<[(bp + length tok)%nat := 0]> (yy_ch_buf b)) =
    tok ++ 0 :: drop (S (bp + length tok)) (yy_ch_buf b)).
  { rewrite insert_split by (rewrite Hm, length_app; cbn; lia).
    rewrite drop_app_le by (rewrite length_take, Hm, length_app; cbn; lia). f_equal.
    rewrite <- (take_app_length tok r) at 2. rewrite <- Hd, Hm, <- take_drop_commute.
    by rewrite drop_app_le, take_app_le by (rewrite ?length_drop; lia). }
  eexists. unfold count_lines, terminated. destruct (_ && _); exact Hdr.
Qed.

Lemma newlines_app l k : newlines (l ++ k) = newlines l + newlines k.
Proof. unfold newlines. rewrite list.filter_app, length_app. lia. Qed.

Lemma newlines_none (p : Z -> bool) w : p 10 = false -> Forall (fun b => p b = true) w -> newlines w = 0.
Proof.
  intros H10 Hw. unfold newlines. induction Hw as [|b w Hb Hw IH]; [done|].
  rewrite list.filter_cons. destruct (decide (b = 10)) as [-> | _]; [congruence | done].
Qed.

(** Only white space has newlines. *)
Lemma first_tok_lines T act tok R : first_tok T = (act, tok, R) ->
  act = 8 \/ (negb (at_ yy_rule_can_match_eol act =? 0) = false /\ newlines tok = 0).
Proof.
  unfold first_tok. destruct T as [|b l]; [intros [= <- <- <-]; by right|].
  destruct (is_space b) eqn:Es; [destruct (span is_space l); intros [= <- <- <-]; by left|]. intros H. right.
  destruct (is_letter b) eqn:El.
  - destruct (span is_idchar l) as [w r] eqn:E. injection H as <- <- <-.
    destruct (span_spec _ _ _ _ E) as (_ & Hw & _). pose proof (word_rule_range (b :: w)) as Hr. split.
    + assert (Hc : word_rule (b :: w) = 1 \/ word_rule (b :: w) = 2 \/ word_rule (b :: w) = 3 \/
        word_rule (b :: w) = 4 \/ word_rule (b :: w) = 5 \/ word_rule (b :: w) = 6 \/ word_rule (b :: w) = 7) by lia.
      destruct Hc as [-> | [-> | [-> | [-> | [-> | [-> | ->]]]]]]; done.
    + apply (newlines_none is_idchar); [done|]. constructor; [|done]. unfold is_idchar. by rewrite El.
  - injection H as <- <- <-. split; [done|]. apply (newlines_none (fun b => negb (is_space b))); [done|].
    constructor; [by rewrite Es | constructor].
Qed.

(** Every newline is counted. *)
Lemma matched_lines s T act tok R s' : first_tok T = (act, tok, R) -> matched s act tok R s' ->
  - 2 ^ 31 <= yylineno s.2 -> yylineno s.2 + newlines tok < 2 ^ 31 ->
  yylineno s'.2 = yylineno s.2 + newlines tok.
Proof.
  intros Hft Hmt Hlo Hhi. pose proof (matched_text _ _ _ _ _ Hmt) as [junk Htext].
  destruct Hmt as (s1 & ch & rest & bp & Hv & [_ Hln] & _ & _ & ->). destruct s1 as [b g]. cbn [snd] in Hln.
  unfold count_lines, terminated in *. cbn [fst snd] in *.
  destruct (first_tok_lines _ _ _ _ Hft) as [-> | [Hz ->]].
  - change (negb (8 =? YY_END_OF_BUFFER) && negb (at_ yy_rule_can_match_eol 8 =? 0)) with true in *.
    cbn [fst snd yyleng yytext_ptr yylineno set_lineno] in *. rewrite Htext, Hln.
    replace (bp + length tok - bp)%nat with (length tok) by lia. rewrite take_app_length.
    apply int32_id. pose proof (Nat2Z.is_nonneg (length (filter (fun b => b = 10) tok))). unfold newlines in *. lia.
  - rewrite Hz, andb_false_r. cbn. lia.
Qed.

Lemma c_string_text w junk : Forall byte_ok w -> c_string (w ++ 0 :: junk) = string_of w.
Proof.
  induction 1 as [|b w Hb Hw IH]; [done|]. cbn. unfold byte_ok in Hb.
  destruct (Z.eqb_spec b 0); [lia|]. by rewrite IH.
Qed.

Lemma rule_token_word s w junk : Forall byte_ok w -> drop (yytext_ptr s.2) (yy_ch_buf s.1) = w ++ 0 :: junk ->
  rule_token (word_rule w) s = Some (word_token w).
Proof.
  intros Hw Ht. unfold rule_token, word_token. rewrite Ht, c_string_text by done.
  pose proof (word_rule_range w) as Hr.
  assert (Hc : word_rule w = 1 \/ word_rule w = 2 \/ word_rule w = 3 \/ word_rule w = 4 \/ word_rule w = 5 \/
    word_rule w = 6 \/ word_rule w = 7) by lia.
  destruct Hc as [-> | [-> | [-> | [-> | [-> | [-> | ->]]]]]]; reflexivity.
Qed.

(** The first match of a text is its first token, or white space before it. *)
Lemma token_step T act tok R s junk : T <> [] -> Forall byte_ok T -> first_tok T = (act, tok, R) ->
  drop (yytext_ptr s.2) (yy_ch_buf s.1) = tok ++ 0 :: junk ->
  T = tok ++ R /\ tok <> [] /\ act <> 10 /\
  spec_file T = match rule_token act s with Some t => [t] | None => [] end ++ spec_file R.
Proof.
  intros HT Hby Hft Htext. destruct T as [|b l]; [done|]. unfold spec_file. cbn [length spec_lex]. unfold first_tok in Hft.
  destruct (is_space b) eqn:Es.
  { destruct (span is_space l) as [w r] eqn:E. injection Hft as <- <- <-.
    destruct (span_spec _ _ _ _ E) as (-> & _ & _). split_and!; try done.
    cbn. apply spec_lex_fuel; rewrite ?length_app; lia. }
  destruct (is_letter b) eqn:El.
  - destruct (span is_idchar l) as [w r] eqn:E. injection Hft as <- <- <-.
    destruct (span_spec _ _ _ _ E) as (-> & Hw & _). pose proof (word_rule_range (b :: w)).
    rewrite (rule_token_word s (b :: w) junk) by (done || by apply (Forall_app _ (b :: w) r)).
    split_and!; [done | done | lia |]. cbn. f_equal. apply spec_lex_fuel; rewrite ?length_app; lia.
  - injection Hft as <- <- <-. unfold rule_token. rewrite Htext. by split_and!.
Qed.

Lemma view_unread s ch rest : view s ch rest -> (length rest <= length (unread_of s.2))%nat.
Proof.
  intros Hv. pose proof (view_source _ _ _ Hv) as Hs. destruct (yy_fill_buffer s.1); [|subst; cbn; lia].
  destruct Hs as (_ & _ & _ & f & file & Hin & Hf & <-). unfold unread_of. rewrite Hin. cbn. by rewrite Hf.
Qed.

(** One pass of the loop of [yylex]. *)
Lemma lex_pass fl s T : idle fl s T -> exists b res s',
  restore_char (yy_c_buf_p s.2) s = Some (b, s.2) /\ yy_fill_buffer b = fl /\ Forall byte_ok T /\
  scan (4 + length (unread_of s.2)) (yy_c_buf_p s.2) (AtMatch 1 (yy_c_buf_p s.2)) (b, s.2) = Some (res, s') /\
  match T with
  | [] => res = None /\ idle fl s' [] /\ yylineno s'.2 = yylineno s.2
  | _ => let '(act, tok, R) := first_tok T in
         res = Some act /\ act <> 0 /\ act <> YY_END_OF_BUFFER /\ matched (b, s.2) act tok R s'
  end.
Proof.
  intros (b & ch & rest & Hr & Hfl & Hv & Hp & HT). subst fl. pose proof (view_unread _ _ _ Hv) as Hu. cbn [snd] in Hu.
  destruct (scan_spec (length rest) (4 + length (unread_of s.2)) (b, s.2) ch rest (yy_c_buf_p s.2) []
    (drop (yy_c_buf_p s.2) ch)) as (res & s' & Hs & Hpost); try done; try lia.
  cbn [foldl length] in Hs. rewrite Nat.add_0_r in Hs. exists b, res, s'. rewrite HT in Hpost.
  destruct (view_drop_small _ _ _ (yy_c_buf_p s.2) Hv) as [Hby _]. rewrite HT in Hby.
  split_and!; try done. destruct T; [|done]. destruct Hpost as (? & ? & _ & ?). by split_and!.
Qed.

Lemma newlines_nonneg l : 0 <= newlines l.
Proof. unfold newlines. lia. Qed.

(** [yylex] gives the next token of the text that is left, and counts its lines. *)
Lemma lex_current_spec fuel fl : forall s T, (length T < fuel)%nat -> idle fl s T ->
  - 2 ^ 31 <= yylineno s.2 -> yylineno s.2 + newlines T < 2 ^ 31 ->
  exists R s', lex_current fuel s = Some (head (spec_file T), s') /\ idle fl s' R /\
    spec_file R = tail (spec_file T) /\ (length R < length T \/ T = [] /\ R = [])%nat /\
    (spec_file T = [] -> R = []) /\
    yylineno s.2 <= yylineno s'.2 /\ yylineno s'.2 = yylineno s.2 + newlines T - newlines R.
Proof.
  induction fuel as [|fuel IH]; intros s T Hf Hi Hlo Hhi; [lia|]. cbn [lex_current].
  destruct (lex_pass fl s T Hi) as (b & res & s' & -> & Hfl & Hby & Hs & Hpost). cbn [mbind option_bind snd]. rewrite Hs.
  cbn [mbind option_bind]. destruct T as [|x l] eqn:ET.
  { destruct Hpost as (-> & Hi' & Hln). exists [], s'. change (newlines []) with 0.
    split_and!; try done; [by right | lia | lia]. }
  rewrite <- ET in *. destruct (first_tok T) as [[act tok] R] eqn:Hft. destruct Hpost as (-> & H0 & H11 & Hmt).
  destruct (matched_text _ _ _ _ _ Hmt) as [junk Htext].
  destruct (token_step T act tok R s' junk) as (HT & Htok & H10 & Hspec); [by rewrite ET | done..|].
  apply Z.eqb_neq in H10. rewrite H10. pose proof (newlines_nonneg R) as HR.
  assert (Hln : yylineno s'.2 = yylineno s.2 + newlines tok).
  { apply (matched_lines (b, s.2) T act tok R); try done. rewrite HT, newlines_app in Hhi. cbn. lia. }
  assert (HlR : (length R < length T)%nat).
  { rewrite HT, length_app. destruct tok; [done | cbn; lia]. }
  assert (Hnl : newlines T = newlines tok + newlines R) by (by rewrite HT, newlines_app).
  apply matched_idle in Hmt. cbn [fst] in Hmt. rewrite Hfl in Hmt. rewrite Hspec. destruct (rule_token act s') as [t|].
  - pose proof (newlines_nonneg tok). exists R, s'. split_and!; try done; [by left | lia | lia].
  - pose proof (newlines_nonneg tok).
    destruct (IH s' R) as (R' & s'' & -> & Hi'' & Hts & Hlen & Hnil & Hle & Hln'); [lia | done | lia | lia |].
    exists R', s''. split_and!; try done; [left | lia | lia]. destruct Hlen as [? | [-> ->]]; lia.
Qed.

(** ** The scanner *)

Lemma deref_set_buffer sc p b b0 : deref sc p = Some b0 -> deref (set_buffer p b sc) p = Some b.
Proof.
  unfold deref, set_buffer. cbn. intros H. destruct (heap sc !! p) as [o|] eqn:E; [|done].
  rewrite list_lookup_insert_eq; [done | by eapply lookup_lt_Some].
Qed.

Lemma with_current_Some {A} (f : core -> option (A * core)) sc p b a s' :
  YY_CURRENT_BUFFER sc = Some p -> deref sc p = Some b -> f (b, regs sc) = Some (a, s') ->
  exists sc', with_current f sc = Some (a, sc') /\ YY_CURRENT_BUFFER sc' = Some p /\ deref sc' p = Some s'.1 /\
    regs sc' = s'.2 /\ yy_init sc' = yy_init sc /\ yy_buffer_stack sc' = yy_buffer_stack sc /\
    yy_buffer_stack_top sc' = yy_buffer_stack_top sc.
Proof.
  intros Hp Hb Hf. unfold with_current. rewrite Hp. cbn. rewrite Hb. cbn. rewrite Hf. cbn. destruct s' as [b' g'].
  eexists. split; [done|]. split_and!; try done. cbn. by eapply (deref_set_buffer sc).
Qed.

Lemma on_current_Some f sc p b s' :
  YY_CURRENT_BUFFER sc = Some p -> deref sc p = Some b -> f (b, regs sc) = Some s' ->
  exists sc', on_current f sc = Some sc' /\ YY_CURRENT_BUFFER sc' = Some p /\ deref sc' p = Some s'.1 /\
    regs sc' = s'.2 /\ yy_init sc' = yy_init sc /\ yy_buffer_stack sc' = yy_buffer_stack sc /\
    yy_buffer_stack_top sc' = yy_buffer_stack_top sc.
Proof.
  intros Hp Hb Hf. unfold on_current.
  destruct (with_current_Some (fun s => s ← f s; Some (tt, s)) sc p b tt s' Hp Hb) as (sc' & -> & H);
    [by rewrite Hf | by exists sc'].
Qed.

(** Between two calls: the current buffer is idle, and set up when [yylex] has
    not run yet. *)
Definition scanning (fl : bool) (sc : Scanner) (T : list Z) : Prop :=
  exists p b, YY_CURRENT_BUFFER sc = Some p /\ deref sc p = Some b /\ idle fl (b, regs sc) T /\
    (yy_init sc = false -> yy_load_buffer_state (b, regs sc) = Some (b, regs sc)).

Lemma load_yyin b g g' s : yy_load_buffer_state (b, g) = Some s ->
  yylineno g' = yylineno g -> yyleng g' = yyleng g -> yy_last_accepting g' = yy_last_accepting g ->
  streams g' = streams g -> yy_load_buffer_state (b, g') = Some s.
Proof. unfold yy_load_buffer_state. intros H -> -> -> ->. done. Qed.

Lemma init_scanner_spec fl sc T : scanning fl sc T ->
  exists sc', init_scanner sc = Some sc' /\ scanning fl sc' T /\ yy_init sc' = true /\ regs sc' = regs sc /\
    (forall p, YY_CURRENT_BUFFER sc = Some p -> YY_CURRENT_BUFFER sc' = Some p /\ deref sc' p = deref sc p).
Proof.
  intros (p & b & Hp & Hb & Hi & Hl). unfold init_scanner. destruct (yy_init sc) eqn:Ei.
  { exists sc. split_and!; try done. exists p, b. by rewrite Ei. }
  specialize (Hl eq_refl). set (g := match yyin (regs sc) with Some _ => _ | None => _ end).
  set (sc1 := mkScanner _ _ _ _ _ _ _).
  assert (Hc : YY_CURRENT_BUFFER sc1 = Some p) by exact Hp.
  unfold ensure_current. rewrite Hc. cbn [mbind option_bind].
  destruct (on_current_Some yy_load_buffer_state sc1 p b (b, regs sc) Hc Hb) as (sc' & -> & H1 & H2 & H3 & H4 & _).
  { apply (load_yyin b (regs sc)); try done; subst sc1 g; cbn; by destruct (yyin (regs sc)). }
  exists sc'. cbn in H2, H3. split_and!; try done.
  - exists p, b. split_and!; try done; [by rewrite H3 | by rewrite H4].
  - intros p' Hp'. assert (p' = p) as -> by congruence. by rewrite H2, Hb.
Qed.

Lemma idle_length fl s T : idle fl s T -> (length T <= length (yy_ch_buf s.1) + length (unread_of s.2))%nat.
Proof.
  intros (b & ch & rest & Hr & _ & Hv & Hp & <-). pose proof (view_unread _ _ _ Hv) as Hu.
  pose proof (holds_length _ _ (view_mem _ _ _ Hv)) as Hm. cbn [fst snd] in *. rewrite length_app, length_drop.
  assert (length (yy_ch_buf b) = length (yy_ch_buf s.1)); [|lia].
  destruct s as [b0 g]. unfold restore_char, poke in Hr. cbn [snd] in Hr.
  destruct (_ <? _)%nat; [|done]. cbn in Hr. injection Hr as <-. cbn. by rewrite length_insert.
Qed.

(** [yylex] gives the next token and leaves the rest of the text. *)
Lemma buffered_yylex_spec fl sc T : scanning fl sc T ->
  - 2 ^ 31 <= yylineno (regs sc) -> yylineno (regs sc) + newlines T < 2 ^ 31 ->
  exists R sc', yylex sc = Some (head (spec_file T), sc') /\ scanning fl sc' R /\
    spec_file R = tail (spec_file T) /\ (length R < length T \/ T = [] /\ R = [])%nat /\
    (spec_file T = [] -> R = []) /\
    yylineno (regs sc) <= yylineno (regs sc') /\
    yylineno (regs sc') = yylineno (regs sc) + newlines T - newlines R.
Proof.
  intros Hs Hlo Hhi. destruct (init_scanner_spec _ _ _ Hs) as (sc1 & Hinit & (p & b & Hp & Hb & Hi & _) & Hi1 & Hr & _).
  unfold yylex. rewrite Hinit. cbn [mbind option_bind]. rewrite <- Hr in Hlo, Hhi |- *.
  destruct (lex_current_spec (S (length (yy_ch_buf b) + length (unread_of (regs sc1)))) fl (b, regs sc1) T)
    as (R & s' & Hl & Hi' & Hts & Hlen & Hnil & Hle & Hln); try done.
  { pose proof (idle_length _ _ _ Hi). cbn in *. lia. }
  destruct (with_current_Some
    (fun s => lex_current (S (length (yy_ch_buf s.1) + length (unread_of s.2))) s) sc1 p b _ s' Hp Hb Hl)
    as (sc2 & -> & H1 & H2 & H3 & H4 & _ & _). cbn [mbind option_bind].
  assert (Hsc : scanning fl sc2 R /\ yylineno (regs sc2) = yylineno s'.2).
  { split; [|by rewrite H3]. exists p, s'.1. rewrite H3, H4, Hi1. split_and!; try done. by destruct s'. }
  destruct Hsc as [Hsc Hl2]. cbn [snd] in Hln, Hle. destruct (head (spec_file T)) as [t|].
  - exists R, sc2. split_and!; (done || lia).
  - exists R, (set_switched false sc2). split_and!; cbn; (done || lia).
Qed.

Lemma buffered_all_spec fuel fl : forall sc T, (length T < fuel)%nat -> scanning fl sc T ->
  - 2 ^ 31 <= yylineno (regs sc) -> yylineno (regs sc) + newlines T < 2 ^ 31 ->
  exists sc', yylex_all fuel sc = Some (spec_file T, sc') /\ (exists R, scanning fl sc' R) /\
    yylineno (regs sc') = yylineno (regs sc) + newlines T.
Proof.
  induction fuel as [|fuel IH]; intros sc T Hf Hs Hlo Hhi; [lia|]. cbn [yylex_all].
  destruct (buffered_yylex_spec fl sc T Hs Hlo Hhi) as (R & sc1 & -> & Hs1 & Hts & Hlen & Hnil & Hle & Hln). cbn [mbind option_bind].
  pose proof (newlines_nonneg R). destruct (spec_file T) as [|t ts] eqn:ET; cbn [head tail] in *.
  - rewrite (Hnil eq_refl) in *. exists sc1. split_and!; try done; [by exists []|]. change (newlines []) with 0 in Hln. lia.
  - destruct (IH sc1 R) as (sc' & -> & HR & Hln'); try done; try lia.
    + destruct Hlen as [? | [-> _]]; [lia | done].
    + exists sc'. cbn. rewrite Hts. split_and!; try done. lia.
Qed.

(** ** Restarting on a file *)

(** A scanner whose current buffer, if there is one, has room for its
    end-of-buffer characters and belongs to the scanner. *)
Definition good_buffer (b : yy_buffer_state) : Prop :=
  yy_is_our_buffer b = true /\ Z.of_nat (length (yy_ch_buf b)) = yy_buf_size b + 2 /\ 1 <= yy_buf_size b < 2 ^ 63.
Definition scanner_ok (sc : Scanner) : Prop :=
  match yy_buffer_stack sc with
  | None => True
  | Some st => (yy_buffer_stack_top sc < length st)%nat /\
      forall p, YY_CURRENT_BUFFER sc = Some p -> exists b, deref sc p = Some b /\ good_buffer b
  end.

Lemma ensure_stack_top sc : scanner_ok sc -> YY_CURRENT_BUFFER sc = None ->
  exists st, yy_buffer_stack (yyensure_buffer_stack sc) = Some st /\
    (yy_buffer_stack_top (yyensure_buffer_stack sc) < length st)%nat.
Proof.
  unfold scanner_ok, yyensure_buffer_stack. destruct (yy_buffer_stack sc) as [st|] eqn:E.
  - intros [Ht _] _. destruct (_ <=? _)%nat; cbn.
    + eexists. split; [done|]. rewrite length_app. lia.
    + by exists st.
  - intros _ _. exists [None]. split; [done | cbn; lia].
Qed.

Lemma create_buffer_spec file sc : exists b, yy_create_buffer file YY_BUF_SIZE sc =
    Some (length (heap sc), set_heap (heap sc ++ [Some b]) sc) /\ good_buffer b.
Proof.
  unfold yy_create_buffer. change (wrap 64 YY_BUF_SIZE) with YY_BUF_SIZE.
  change (Z.to_nat (wrap 64 (YY_BUF_SIZE + 2))) with (S (S (Z.to_nat 16384))).
  unfold yy_init_buffer, yy_flush_buffer. remember (Z.to_nat 16384) as n eqn:En. cbn.
  eexists. split; [done|]. unfold good_buffer, YY_BUF_SIZE. cbn. rewrite length_replicate.
  lia.
Qed.

(** After the prologue there is a good current buffer. *)
Lemma ensure_current_spec sc : scanner_ok sc ->
  exists sc' p b, ensure_current sc = Some sc' /\ YY_CURRENT_BUFFER sc' = Some p /\ deref sc' p = Some b /\
    good_buffer b /\ regs sc' = regs sc /\ yy_init sc' = yy_init sc /\
    exists st, yy_buffer_stack sc' = Some st /\ (yy_buffer_stack_top sc' < length st)%nat.
Proof.
  intros Hok. unfold ensure_current. destruct (YY_CURRENT_BUFFER sc) as [p|] eqn:Ep.
  - unfold scanner_ok in Hok. destruct (yy_buffer_stack sc) as [st|] eqn:Es;
      [|by unfold YY_CURRENT_BUFFER in Ep; rewrite Es in Ep].
    destruct Hok as [Ht Hc]. destruct (Hc p Ep) as (b & Hb & Hg). exists sc, p, b. split_and!; try done. by exists st.
  - destruct (ensure_stack_top sc Hok Ep) as (st & Est & Ht). set (sc1 := yyensure_buffer_stack sc) in *.
    assert (Hsame : regs sc1 = regs sc /\ yy_init sc1 = yy_init sc).
    { subst sc1. unfold yyensure_buffer_stack. destruct (yy_buffer_stack sc); [|done]. by destruct (_ <=? _)%nat. }
    clearbody sc1. destruct Hsame as [Hr Hi]. destruct (create_buffer_spec (yyin (regs sc)) sc1) as (b & -> & Hg).
    cbn [mbind option_bind]. unfold set_YY_CURRENT_BUFFER. cbn [yy_buffer_stack set_heap yy_buffer_stack_top].
    rewrite Est. cbn [mbind option_bind]. destruct (Nat.ltb_spec (yy_buffer_stack_top sc1) (length st)); [|lia].
    eexists _, (length (heap sc1)), b. split; [reflexivity|]. split_and!; try done.
    + unfold YY_CURRENT_BUFFER. cbn. by rewrite list_lookup_insert_eq by lia.
    + unfold deref. cbn. by rewrite lookup_app_r, Nat.sub_diag by lia.
    + eexists. split; [done|]. cbn. by rewrite length_insert.
Qed.

(** [yyrestart] makes the scanner read a file from its start. *)
Lemma yyrestart_spec sc f file : scanner_ok sc -> streams (regs sc) !! f = Some file ->
  Forall byte_ok (unread file) -> Z.of_nat (length (unread file)) < 2 ^ 31 - 2 ->
  exists sc', yyrestart (Some f) sc = Some sc' /\ scanning true sc' (unread file) /\
    yylineno (regs sc') = yylineno (regs sc) /\
    exists st, yy_buffer_stack sc' = Some st /\ (yy_buffer_stack_top sc' < length st)%nat.
Proof.
  intros Hok Hf Hby Hsm. unfold yyrestart.
  destruct (ensure_current_spec sc Hok) as (sc1 & p & b & -> & Hp & Hb & (Ho & Hsz & Hbd) & Hr & Hi & st & Est & Ht).
  cbn [mbind option_bind].
  destruct (restart_current_spec (Some f) b (regs sc1)) as (mem & bol & Hrs & [junk Hm] & Hml); [lia|].
  destruct (on_current_Some (restart_current (Some f)) sc1 p b _ Hp Hb Hrs) as (sc2 & -> & H1 & H2 & H3 & H4 & H5 & H6).
  cbn [fst snd] in H2, H3. exists sc2. split; [done|]. split_and!.
  - eexists p, _. split; [done|]. split; [exact H2|]. rewrite H3. subst mem. split; [|done].
    eexists _, [], (unread file). split; [done|]. split; [done|]. split; [|by split].
    split; cbn; try done; try lia; [by exists junk | rewrite <- Hml in Hsz; cbn in Hsz; lia |].
    split_and!; [done | lia | done|]. exists f, file. rewrite Hr. done.
  - by rewrite H3, <- Hr.
  - exists st. by rewrite H5, H6.
Qed.

Lemma scanning_ok sc T : scanning true sc T -> scanner_ok sc.
Proof.
  intros (p & b & Hp & Hb & (b' & ch & rest & Hr & Hfl & Hv & _) & _). unfold scanner_ok.
  destruct (yy_buffer_stack sc) as [st|] eqn:Est; [|done]. split.
  - unfold YY_CURRENT_BUFFER in Hp. rewrite Est in Hp. cbn in Hp.
    destruct (st !! yy_buffer_stack_top sc) eqn:E; [by eapply lookup_lt_Some | done].
  - intros p' Hp'. assert (p' = p) as -> by congruence. exists b. split; [done|].
    destruct Hv as [Hm Hsz Hbd _ _ _ _ Hsrc]. cbn [fst snd] in *. rewrite Hfl in Hsrc. destruct Hsrc as (Ho & Hlt & _).
    unfold restore_char, poke in Hr. cbn [snd] in Hr. destruct (_ <? _)%nat; [|done]. cbn in Hr. injection Hr as <-.
    cbn in *. rewrite length_insert in Hsz. unfold good_buffer. split_and!; (done || lia).
Qed.

(** C18: the buffered scanner reads a file like the scanner that has it in
    memory.  Whatever the scanner did before, [yyrestart] on a file without NUL
    bytes, read in whole blocks or line by line, and then [yylex] to the end give
    the tokens of [lex_file]; every line is counted, no access leaves the buffer,
    and the scanner is ready for the next file. *)
Theorem buffered_lexer_correct sc f file :
  scanner_ok sc -> streams (regs sc) !! f = Some file ->
  Forall byte_ok (unread file) -> Z.of_nat (length (unread file)) < 2 ^ 31 - 2 ->
  - 2 ^ 31 <= yylineno (regs sc) -> yylineno (regs sc) + newlines (unread file) < 2 ^ 31 ->
  exists ts sc', (sc ← yyrestart (Some f) sc; yylex_all (S (length (unread file))) sc) = Some (ts, sc') /\
    lex_file (unread file) = Some ts /\ scanner_ok sc' /\
    yylineno (regs sc') = yylineno (regs sc) + newlines (unread file).
Proof.
  intros Hok Hf Hby Hsm Hlo Hhi.
  destruct (yyrestart_spec sc f file Hok Hf Hby Hsm) as (sc1 & -> & Hs & Hln & _). rewrite <- Hln in Hlo, Hhi |- *.
  destruct (buffered_all_spec (S (length (unread file))) true sc1 _ (Nat.lt_succ_diag_r _) Hs Hlo Hhi) as (sc' & Ha & [R HR] & Hl).
  exists (spec_file (unread file)), sc'. split_and!; [exact Ha | | by apply (scanning_ok _ R) | done].
  unfold lex_file. rewrite (yylex_all_spec _ Hby) by lia. done.
Qed.

Definition sample_file : list Z := bytes_of "workflow w { while !a { b }
  return }".

(** A scanner that is interrupted in one file and restarted on another. *)
Definition sample_scanner : Scanner :=
  default (initial_scanner [])
    (sc ← yyrestart (Some 0%nat) (initial_scanner [mkFILE sample_file false; mkFILE sample_file true]);
     '(_, sc) ← yylex sc; Some sc).

Lemma buffered_lexer_correct_witness :
  exists ts sc', (sc ← yyrestart (Some 1%nat) sample_scanner; yylex_all (S (length sample_file)) sc) = Some (ts, sc') /\
    lex_file sample_file = Some ts /\ scanner_ok sc' /\
    yylineno (regs sc') = yylineno (regs sample_scanner) + newlines sample_file.
Proof.
  apply (buffered_lexer_correct sample_scanner 1 (mkFILE sample_file true)).
  - assert (H : exists sc0 sc1, yyrestart (Some 0%nat) (initial_scanner [mkFILE sample_file false; mkFILE sample_file true])
      = Some sc0 /\ yylex sc0 = Some (head (spec_file sample_file), sc1) /\ exists R, scanning true sc1 R).
    { destruct (yyrestart_spec (initial_scanner [mkFILE sample_file false; mkFILE sample_file true]) 0 (mkFILE sample_file false))
        as (sc0 & H0 & Hs & Hln & _); [done | done | apply (bool_decide_unpack _); vm_compute; exact I | vm_compute; reflexivity |].
      cbn [unread] in Hs. destruct (buffered_yylex_spec true sc0 _ Hs) as (R & sc1 & H1 & Hs1 & _);
        [rewrite Hln; vm_compute; discriminate | rewrite Hln; vm_compute; reflexivity |].
      exists sc0, sc1. split_and!; [done | done | by exists R]. }
    destruct H as (sc0 & sc1 & H0 & H1 & R & HR). unfold sample_scanner. rewrite H0. cbn [mbind option_bind]. rewrite H1.
    cbn [mbind option_bind default]. by apply (scanning_ok _ R).
  - vm_compute. reflexivity.
  - apply (bool_decide_unpack _). vm_compute. exact I.
  - vm_compute. reflexivity.
  - vm_compute. discriminate.
  - vm_compute. reflexivity.
Defined.
