(* ===== verification/Cache.v ===== *)
(** * The local cache: src/orc/util/local_cache.h

    A cache of bounded size whose entries expire.  The entries are nodes of two
    linked lists, the entries in use with the most recent one first and the free
    ones; an index finds the node of a key through a pointer to the key inside
    the node.  Nodes have an identity here, so that the sharing between the lists
    and the index is in the model. *)
From Stdlib Require Import ZArith Lia.
From stdpp Require Import base list option sorting.
From S2P Require Import Prelude Words.

Local Open Scope Z_scope.

Section LocalCache.
Context {K V : Type} `{EqDecision K}.

(** [struct LocalCacheEntry]. *)
Record LocalCacheEntry : Type := mkEntry { key : K; val : V; ts : Z }.

(** [class LocalCache].  A node of a list is its number in [nodes]; an element of
    the index is the node its key pointer points into and the node of its
    iterator. *)
Record LocalCache : Type := mkCache {
  nodes : list LocalCacheEntry;
  entry_list_ : list nat;
  entry_index_ : list (nat * nat);
  free_entry_ : list nat;
  capacity_ : Z;
  size_ : Z;
  expire_ : Z
}.

Definition new_LocalCache (capacity expire : Z) : LocalCache := mkCache [] [] [] [] capacity 0 expire.

(** [entry_index_.find] and [erase]: keys are compared by value. *)
Definition node_key (c : LocalCache) (i : nat) : option K := key <$> nodes c !! i.
Definition index_find (k : K) (c : LocalCache) : option nat :=
  (fun x : nat * (nat * nat) => x.2.2) <$> list_find (fun e : nat * nat => node_key c e.1 = Some k) (entry_index_ c).
Definition index_erase (k : option K) (c : LocalCache) : list (nat * nat) :=
  filter (fun e : nat * nat => node_key c e.1 <> k) (entry_index_ c).

(** [splice] of one node to the front of a list. *)
Definition unlink (i : nat) (l : list nat) : list nat := filter (fun j => j <> i) l.
Definition to_front (i : nat) (l : list nat) : list nat := i :: unlink i l.

(** [LocalCache::Get]: the value, when there is a fresh one. *)
Definition Get (k : K) (now : Z) (c : LocalCache) : option V * LocalCache :=
  match index_find k c with
  | None => (None, c)
  | Some i =>
      match nodes c !! i with
      | None => (None, c)
      | Some e =>
          if wrap 64 (now - ts e) <? expire_ c
          then (Some (val e),
                mkCache (nodes c) (to_front i (entry_list_ c)) (entry_index_ c) (free_entry_ c)
                  (capacity_ c) (size_ c) (expire_ c))
          else (None,
                mkCache (nodes c) (unlink i (entry_list_ c)) (index_erase (Some (key e)) c) (i :: free_entry_ c)
                  (capacity_ c) (wrap 64 (size_ c - 1)) (expire_ c))
      end
  end.

(** The loop of [Put] that makes room; [None] is the back of an empty list. *)
Fixpoint make_room (fuel : nat) (c : LocalCache) : option LocalCache :=
  if negb (capacity_ c <=? size_ c) then Some c
  else
    match fuel, list.last (entry_list_ c) with
    | S fuel, Some i =>
        make_room fuel
          (mkCache (nodes c) (unlink i (entry_list_ c)) (index_erase (node_key c i) c) (i :: free_entry_ c)
             (capacity_ c) (wrap 64 (size_ c - 1)) (expire_ c))
    | _, _ => None
    end.

(** [entry_index_[&key] = iterator]: an element with an equal key keeps its
    pointer. *)
Definition index_put (i : nat) (c : LocalCache) : list (nat * nat) :=
  match list_find (fun e : nat * nat => node_key c e.1 = node_key c i) (entry_index_ c) with
  | Some (n, (p, _)) => <[n := (p, i)]> (entry_index_ c)
  | None => (i, i) :: entry_index_ c
  end.

(** The node that [Put] takes: a new one or the first free one. *)
Definition take_node (e : LocalCacheEntry) (c : LocalCache) : LocalCache :=
  match free_entry_ c with
  | [] =>
      mkCache (nodes c ++ [e]) (length (nodes c) :: entry_list_ c) (entry_index_ c) []
        (capacity_ c) (size_ c) (expire_ c)
  | i :: free =>
      mkCache (<[i := e]> (nodes c)) (i :: entry_list_ c) (entry_index_ c) free
        (capacity_ c) (size_ c) (expire_ c)
  end.

(** [LocalCache::Put]. *)
Definition Put (k : K) (v : V) (now : Z) (c : LocalCache) : option LocalCache :=
  match index_find k c with
  | None =>
      c ← make_room (S (length (entry_list_ c))) c;
      let c := take_node (mkEntry k v now) c in
      i ← head (entry_list_ c);
      Some (mkCache (nodes c) (entry_list_ c) (index_put i c) (free_entry_ c)
              (capacity_ c) (wrap 64 (size_ c + 1)) (expire_ c))
  | Some i =>
      e ← nodes c !! i;
      Some (mkCache (<[i := mkEntry (key e) v now]> (nodes c)) (to_front i (entry_list_ c)) (entry_index_ c)
              (free_entry_ c) (capacity_ c) (size_ c) (expire_ c))
  end.

(** ** The specification: a list of entries, the most recent one first *)

Definition lru_find (k : K) (l : list LocalCacheEntry) : option LocalCacheEntry :=
  snd <$> list_find (fun e => key e = k) l.
Definition lru_remove (k : K) (l : list LocalCacheEntry) : list LocalCacheEntry :=
  filter (fun e => key e <> k) l.

Definition lru_get (expire : Z) (k : K) (now : Z) (l : list LocalCacheEntry) : option V * list LocalCacheEntry :=
  match lru_find k l with
  | Some e => if wrap 64 (now - ts e) <? expire then (Some (val e), e :: lru_remove k l)
              else (None, lru_remove k l)
  | None => (None, l)
  end.

(** An entry that is new when the cache is full displaces the one that was not
    used for the longest time. *)
Definition lru_put (capacity : nat) (k : K) (v : V) (now : Z) (l : list LocalCacheEntry) : list LocalCacheEntry :=
  match lru_find k l with
  | Some _ => mkEntry k v now :: lru_remove k l
  | None => mkEntry k v now :: take (capacity - 1) l
  end.

(** ** Runs *)

Inductive op : Type := OGet (k : K) (now : Z) | OPut (k : K) (v : V) (now : Z).

(** The answers of a sequence of calls; [None] is undefined behaviour. *)
Fixpoint run (ops : list op) (c : LocalCache) : option (list (option V) * LocalCache) :=
  match ops with
  | [] => Some ([], c)
  | OGet k now :: ops =>
      let (v, c) := Get k now c in
      '(vs, c) ← run ops c; Some (v :: vs, c)
  | OPut k v now :: ops =>
      c ← Put k v now c; run ops c
  end.

Fixpoint lru_run (capacity : nat) (expire : Z) (ops : list op) (l : list LocalCacheEntry)
  : list (option V) * list LocalCacheEntry :=
  match ops with
  | [] => ([], l)
  | OGet k now :: ops =>
      let (v, l) := lru_get expire k now l in
      let (vs, l) := lru_run capacity expire ops l in (v :: vs, l)
  | OPut k v now :: ops => lru_run capacity expire ops (lru_put capacity k v now l)
  end.

(** ** The invariant *)

(** The list of nodes that represents [l]: node numbers are distinct, the index
    has exactly the nodes in use, under their own keys. *)
Record represents (c : LocalCache) (l : list LocalCacheEntry) : Prop := mkRep {
  rep_entries : Forall2 (fun i e => nodes c !! i = Some e) (entry_list_ c) l;
  rep_distinct : NoDup (entry_list_ c ++ free_entry_ c);
  rep_free : Forall (fun i => i < length (nodes c))%nat (free_entry_ c);
  rep_keys : NoDup (key <$> l);
  rep_index : entry_index_ c ≡ₚ (fun i => (i, i)) <$> entry_list_ c;
  rep_size : size_ c = Z.of_nat (length l);
  rep_capacity : 1 <= capacity_ c < 2 ^ 64 /\ size_ c <= capacity_ c
}.
End LocalCache.

Arguments LocalCacheEntry : clear implicits.
Arguments LocalCache : clear implicits.
Arguments op : clear implicits.

(** ** Lists *)

Lemma Forall2_filter {A B} (R : A -> B -> Prop) (P : A -> Prop) (Q : B -> Prop)
    `{forall x, Decision (P x)} `{forall y, Decision (Q y)} l k :
  Forall2 R l k -> (forall x y, x ∈ l -> R x y -> (P x <-> Q y)) -> Forall2 R (filter P l) (filter Q k).
Proof.
  induction 1 as [|x y l k Hxy Hlk IH]; intros HPQ; [constructor|].
  rewrite !filter_cons. pose proof (HPQ x y ltac:(left) Hxy) as Heq.
  assert (IH' : Forall2 R (filter P l) (filter Q k)) by (apply IH; intros; apply HPQ; [by right | done]).
  destruct (decide (P x)), (decide (Q y)); try tauto. by constructor.
Qed.

Lemma filter_ext_in {A} (P Q : A -> Prop) `{forall x, Decision (P x)} `{forall x, Decision (Q x)} (l : list A) :
  (forall x, x ∈ l -> (P x <-> Q x)) -> filter P l = filter Q l.
Proof.
  induction l as [|x l IH]; intros HPQ; [done|]. rewrite !filter_cons, IH by (intros; apply HPQ; by right).
  pose proof (HPQ x ltac:(left)). destruct (decide (P x)), (decide (Q x)); tauto.
Qed.

Lemma Forall2_impl_in {A B} (R R' : A -> B -> Prop) l k :
  Forall2 R l k -> (forall x y, x ∈ l -> R x y -> R' x y) -> Forall2 R' l k.
Proof.
  induction 1 as [|x y l k Hxy Hlk IH]; intros Himp; constructor; [apply Himp; [left | done]|].
  apply IH. intros. apply Himp; [by right | done].
Qed.

Lemma filter_fmap {A B} (f : A -> B) (P : B -> Prop) `{forall x, Decision (P x)} (l : list A) :
  filter P (f <$> l) = f <$> filter (fun x => P (f x)) l.
Proof.
  induction l as [|x l IH]; [done|]. rewrite fmap_cons, !filter_cons, IH. by destruct (decide (P (f x))).
Qed.

Lemma Forall2_elem_of_l {A B} (R : A -> B -> Prop) l k x : Forall2 R l k -> x ∈ l -> exists y, y ∈ k /\ R x y.
Proof.
  intros H Hx. apply list_elem_of_lookup in Hx as [i Hi].
  destruct (Forall2_lookup_l _ _ _ _ _ H Hi) as (y & Hy & Hr). exists y. split; [by eapply list_elem_of_lookup_2 | done].
Qed.

Lemma filter_all {A} (P : A -> Prop) `{forall x, Decision (P x)} (l : list A) :
  (forall x, x ∈ l -> P x) -> filter P l = l.
Proof.
  induction l as [|x l IH]; intros HP; [done|]. rewrite filter_cons, decide_True by (apply HP; left).
  f_equal. apply IH. intros. apply HP. by right.
Qed.

(** Moving an element to the front permutes a list. *)
Lemma front_perm {A B} `{EqDecision B} (f : A -> B) (x : A) (l : list A) : NoDup (f <$> l) -> x ∈ l ->
  x :: filter (fun y => f y <> f x) l ≡ₚ l.
Proof.
  induction l as [|y l IH]; intros Hnd Hx; [by apply not_elem_of_nil in Hx|]. rewrite fmap_cons in Hnd.
  apply list.NoDup_cons in Hnd as [Hy Hnd]. rewrite filter_cons. apply elem_of_cons in Hx as [-> | Hx].
  - destruct (decide (f y <> f y)); [done|]. rewrite filter_all; [done|]. intros z Hz E. apply Hy. rewrite <- E. by apply list_elem_of_fmap_2.
  - destruct (decide (f y <> f x)) as [| Hn]; [rewrite Permutation_swap; by rewrite IH|].
    exfalso. apply Hy. destruct (decide (f y = f x)) as [-> |]; [|done]. by apply list_elem_of_fmap_2.
Qed.

Section Refinement.
Context {K V : Type} `{EqDecision K}.
Implicit Types (c : LocalCache K V) (l : list (LocalCacheEntry K V)) (e : LocalCacheEntry K V) (k : K).

Lemma rep_in c l i : represents c l -> i ∈ entry_list_ c -> exists e, e ∈ l /\ nodes c !! i = Some e.
Proof. intros Hr Hi. by apply (Forall2_elem_of_l _ _ _ _ (rep_entries _ _ Hr)). Qed.

Lemma rep_find c l e : represents c l -> e ∈ l -> exists i, i ∈ entry_list_ c /\ nodes c !! i = Some e.
Proof.
  intros Hr He. apply list_elem_of_lookup in He as [n Hn].
  destruct (Forall2_lookup_r _ _ _ _ _ (rep_entries _ _ Hr) Hn) as (i & Hi & Hs).
  exists i. split; [by eapply list_elem_of_lookup_2 | done].
Qed.

(** A key has one node. *)
Lemma rep_unique c l i j e e' : represents c l -> i ∈ entry_list_ c -> j ∈ entry_list_ c ->
  nodes c !! i = Some e -> nodes c !! j = Some e' -> key e = key e' -> i = j.
Proof.
  intros Hr Hi Hj He He' Hk. apply list_elem_of_lookup in Hi as [a Ha], Hj as [b Hb].
  destruct (Forall2_lookup_l _ _ _ _ _ (rep_entries _ _ Hr) Ha) as (x & Hx & Hxs).
  destruct (Forall2_lookup_l _ _ _ _ _ (rep_entries _ _ Hr) Hb) as (y & Hy & Hys). simplify_eq.
  assert (a = b); [|congruence]. apply (NoDup_lookup (key <$> l) a b (key e) (rep_keys _ _ Hr)).
  - by rewrite list_lookup_fmap, Hx.
  - by rewrite list_lookup_fmap, Hy, Hk.
Qed.

Lemma lru_find_Some k l e : lru_find k l = Some e -> e ∈ l /\ key e = k.
Proof.
  unfold lru_find. destruct (list_find _ l) as [[n e']|] eqn:E; [|done]. intros [= <-].
  apply list_find_Some in E as (Hn & Hk & _). split; [by eapply list_elem_of_lookup_2 | done].
Qed.

Lemma lru_find_None k l : lru_find k l = None -> forall e, e ∈ l -> key e <> k.
Proof.
  unfold lru_find. destruct (list_find _ l) as [[n e']|] eqn:E; [done|]. intros _.
  apply list_find_None in E. by rewrite list.Forall_forall in E.
Qed.

(** The index finds the node of a key. *)
Lemma index_find_spec c l k : represents c l ->
  match lru_find k l with
  | Some e => exists i, index_find k c = Some i /\ i ∈ entry_list_ c /\ nodes c !! i = Some e
  | None => index_find k c = None
  end.
Proof.
  intros Hr. unfold index_find.
  assert (Hin : forall p, p ∈ entry_index_ c -> exists i, p = (i, i) /\ i ∈ entry_list_ c).
  { intros p Hp. rewrite (rep_index _ _ Hr) in Hp. apply list_elem_of_fmap in Hp as (i & -> & Hi). by exists i. }
  destruct (lru_find k l) as [e|] eqn:E.
  - apply lru_find_Some in E as [He Hk]. destruct (rep_find _ _ _ Hr He) as (i & Hi & Hs).
    destruct (list_find _ (entry_index_ c)) as [[n p]|] eqn:Ef.
    + apply list_find_Some in Ef as (Hn & Hkey & _). apply list_elem_of_lookup_2 in Hn.
      destruct (Hin p Hn) as (j & -> & Hj). cbn in *. exists j. split; [done|].
      destruct (rep_in _ _ _ Hr Hj) as (e' & _ & Hs'). unfold node_key in Hkey. rewrite Hs' in Hkey. injection Hkey as Hkey.
      assert (i = j) as <- by (eapply (rep_unique c l); (done || congruence)). done.
    + exfalso. apply list_find_None in Ef. rewrite list.Forall_forall in Ef. apply (Ef (i, i)).
      * rewrite (rep_index _ _ Hr). apply list_elem_of_fmap. by exists i.
      * unfold node_key. cbn. rewrite Hs. cbn. by rewrite Hk.
  - destruct (list_find _ (entry_index_ c)) as [[n p]|] eqn:Ef; [exfalso | done].
    apply list_find_Some in Ef as (Hn & Hkey & _). apply list_elem_of_lookup_2 in Hn.
    destruct (Hin p Hn) as (j & -> & Hj). destruct (rep_in _ _ _ Hr Hj) as (e' & He' & Hs').
    unfold node_key in Hkey. cbn in Hkey. rewrite Hs' in Hkey. injection Hkey as Hkey.
    by apply (lru_find_None k l E e' He').
Qed.

(** The nodes other than the one of [k] are the entries with other keys. *)
Lemma unlink_remove c l k i e : represents c l -> i ∈ entry_list_ c -> nodes c !! i = Some e -> key e = k ->
  Forall2 (fun j x => nodes c !! j = Some x) (unlink i (entry_list_ c)) (lru_remove k l).
Proof.
  intros Hr Hi He Hk. apply Forall2_filter; [apply (rep_entries _ _ Hr)|]. intros j x Hj Hx. split.
  - intros Hne E. apply Hne. eapply (rep_unique c l); try done. congruence.
  - intros Hne ->. apply Hne. congruence.
Qed.

Lemma list_distinct c l : represents c l -> NoDup (entry_list_ c) /\ NoDup (free_entry_ c).
Proof. intros Hr. pose proof (rep_distinct _ _ Hr) as H. apply list.NoDup_app in H. tauto. Qed.

Lemma to_front_perm c l i : represents c l -> i ∈ entry_list_ c -> to_front i (entry_list_ c) ≡ₚ entry_list_ c.
Proof.
  intros Hr Hi. unfold to_front, unlink. apply (front_perm (fun x => x)); [|done].
  rewrite list_fmap_id. by destruct (list_distinct _ _ Hr).
Qed.

Lemma lru_front_perm c l e : represents c l -> e ∈ l -> e :: lru_remove (key e) l ≡ₚ l.
Proof. intros Hr He. apply (front_perm key); [apply (rep_keys _ _ Hr) | done]. Qed.

Lemma lru_remove_length c l e : represents c l -> e ∈ l -> length l = S (length (lru_remove (key e) l)).
Proof. intros Hr He. rewrite <- (lru_front_perm c l e Hr He) at 1. done. Qed.

(** Using an entry, or replacing its value, moves it to the front. *)
Lemma rep_front c l i e e' : represents c l -> i ∈ entry_list_ c -> e ∈ l -> nodes c !! i = Some e -> key e' = key e ->
  represents (mkCache (<[i := e']> (nodes c)) (to_front i (entry_list_ c)) (entry_index_ c) (free_entry_ c)
                (capacity_ c) (size_ c) (expire_ c)) (e' :: lru_remove (key e) l).
Proof.
  intros Hr Hi He Hs Hk. pose proof (to_front_perm c l i Hr Hi) as Hp. pose proof (lru_front_perm c l e Hr He) as Hq.
  pose proof (lookup_lt_Some _ _ _ Hs) as Hlt. split; cbn [nodes entry_list_ entry_index_ free_entry_ capacity_ size_ expire_].
  - constructor; [by apply list_lookup_insert_eq|].
    assert (Hf := unlink_remove c l (key e) i e Hr Hi Hs eq_refl).
    apply (Forall2_impl_in _ _ _ _ Hf). intros j x Hj Hx. apply list_elem_of_filter in Hj as [Hne _].
    by rewrite list_lookup_insert_ne.
  - rewrite Hp. apply (rep_distinct _ _ Hr).
  - rewrite length_insert. apply (rep_free _ _ Hr).
  - pose proof (rep_keys _ _ Hr) as Hn. rewrite <- Hq in Hn. rewrite fmap_cons in Hn |- *. by rewrite Hk.
  - rewrite Hp. apply (rep_index _ _ Hr).
  - rewrite (rep_size _ _ Hr), (lru_remove_length c l e Hr He). done.
  - apply (rep_capacity _ _ Hr).
Qed.

(** Dropping an entry frees its node. *)
Lemma rep_remove c l i e : represents c l -> i ∈ entry_list_ c -> e ∈ l -> nodes c !! i = Some e ->
  represents (mkCache (nodes c) (unlink i (entry_list_ c)) (index_erase (Some (key e)) c) (i :: free_entry_ c)
                (capacity_ c) (wrap 64 (size_ c - 1)) (expire_ c)) (lru_remove (key e) l).
Proof.
  intros Hr Hi He Hs. pose proof (to_front_perm c l i Hr Hi) as Hp. pose proof (lru_front_perm c l e Hr He) as Hq.
  pose proof (lru_remove_length c l e Hr He) as Hlen. pose proof (rep_size _ _ Hr) as Hsz.
  pose proof (rep_capacity _ _ Hr) as [Hc Hsc].
  assert (Hw : wrap 64 (size_ c - 1) = size_ c - 1) by (unfold wrap; apply Z.mod_small; lia).
  split; cbn [nodes entry_list_ entry_index_ free_entry_ capacity_ size_ expire_]; rewrite ?Hw; try (done || lia).
  - by apply (unlink_remove c l (key e) i e).
  - rewrite <- Permutation_middle. unfold to_front in Hp. rewrite app_comm_cons, Hp. apply (rep_distinct _ _ Hr).
  - constructor; [by eapply lookup_lt_Some | apply (rep_free _ _ Hr)].
  - pose proof (rep_keys _ _ Hr) as Hn. rewrite <- Hq, fmap_cons in Hn. by apply list.NoDup_cons in Hn as [_ Hn].
  - unfold index_erase. rewrite (rep_index _ _ Hr). rewrite filter_fmap.
    rewrite (filter_ext_in _ (fun j => j <> i)); [done|]. intros j Hj. unfold node_key. cbn.
    destruct (rep_in _ _ _ Hr Hj) as (x & _ & Hx). rewrite Hx. cbn. split.
    + intros Hne ->. congruence.
    + intros Hne E. apply Hne. eapply (rep_unique c l); try done. congruence.
Qed.

Lemma Get_refines c l k now : represents c l ->
  let '(v, c') := Get k now c in let '(v', l') := lru_get (expire_ c) k now l in
  v = v' /\ represents c' l' /\ capacity_ c' = capacity_ c /\ expire_ c' = expire_ c.
Proof.
  intros Hr. unfold Get, lru_get. pose proof (index_find_spec c l k Hr) as Hf.
  destruct (lru_find k l) as [e|] eqn:E; [|rewrite Hf; by split_and!].
  destruct Hf as (i & -> & Hi & Hs). apply lru_find_Some in E as [He Hk]. subst k. rewrite Hs.
  destruct (_ <? _); split_and!; try done.
  - pose proof (rep_front c l i e e Hr Hi He Hs eq_refl) as Hf. by rewrite list_insert_id in Hf.
  - by apply rep_remove.
Qed.

(** The entry of the last node is the last entry, and dropping it keeps the rest. *)
Lemma last_entry c l i : represents c l -> list.last (entry_list_ c) = Some i ->
  exists e, e ∈ l /\ i ∈ entry_list_ c /\ nodes c !! i = Some e /\ lru_remove (key e) l = take (length l - 1) l.
Proof.
  intros Hr Hl. pose proof (rep_entries _ _ Hr) as Hf. apply list.last_Some in Hl as [is' Eis]. rewrite Eis in Hf.
  apply Forall2_app_inv_l in Hf as (l1 & l2 & H1 & H2 & El). apply Forall2_cons_inv_l in H2 as (e & l3 & He & H3 & ->).
  apply Forall2_nil_inv_l in H3 as ->. exists e. rewrite Eis. split_and!; try done; [subst l; set_solver | set_solver |].
  pose proof (rep_keys _ _ Hr) as Hn. subst l. rewrite fmap_app in Hn. apply list.NoDup_app in Hn as (_ & Hn & _).
  unfold lru_remove. rewrite list.filter_app, filter_cons, decide_False by tauto. rewrite filter_all.
  - rewrite app_nil_r, length_app. cbn. replace (length l1 + 1 - 1)%nat with (length l1) by lia. by rewrite take_app_length.
  - intros x Hx E. apply (Hn (key x)); [by apply list_elem_of_fmap_2|]. rewrite E. left.
Qed.

(** One turn of the loop makes room. *)
Lemma make_room_spec c l n : represents c l ->
  exists c', make_room (S n) c = Some c' /\ represents c' (take (Z.to_nat (capacity_ c) - 1) l) /\
    capacity_ c' = capacity_ c /\ expire_ c' = expire_ c /\ size_ c' < capacity_ c'.
Proof.
  intros Hr. cbn [make_room]. pose proof (rep_capacity _ _ Hr) as [Hc Hs]. pose proof (rep_size _ _ Hr) as Hsz.
  destruct (Z.leb_spec (capacity_ c) (size_ c)) as [Hfull | Hroom]; cbn [negb].
  2: { exists c. rewrite take_ge by lia. by split_and!. }
  destruct (list.last (entry_list_ c)) as [i|] eqn:El.
  2: { apply list.last_None in El. pose proof (rep_entries _ _ Hr) as Hf. rewrite El in Hf.
       apply Forall2_nil_inv_l in Hf as ->. cbn in Hsz. lia. }
  destruct (last_entry c l i Hr El) as (e & He & Hi & Hn & Hrem).
  pose proof (rep_remove c l i e Hr Hi He Hn) as Hr'. rewrite Hrem in Hr'.
  assert (Hk : node_key c i = Some (key e)) by (unfold node_key; by rewrite Hn). rewrite Hk.
  set (c' := mkCache (nodes c) (unlink i (entry_list_ c)) _ _ _ _ _) in *.
  assert (Hsz' : size_ c' < capacity_ c').
  { subst c'. cbn [size_ capacity_]. unfold wrap. rewrite Z.mod_small; lia. }
  exists c'. split.
  - destruct n; cbn [make_room]; destruct (Z.leb_spec (capacity_ c') (size_ c')); (done || lia).
  - replace (Z.to_nat (capacity_ c) - 1)%nat with (length l - 1)%nat by lia. by split_and!.
Qed.

(** The node that is taken is not in use. *)
Lemma take_node_fresh c l x : represents c l -> exists N i free,
  take_node x c = mkCache N (i :: entry_list_ c) (entry_index_ c) free (capacity_ c) (size_ c) (expire_ c) /\
  N !! i = Some x /\ (forall j e, j ∈ entry_list_ c -> nodes c !! j = Some e -> N !! j = Some e) /\
  NoDup ((i :: entry_list_ c) ++ free) /\ Forall (fun j => j < length N)%nat free.
Proof.
  intros Hr. unfold take_node. pose proof (rep_distinct _ _ Hr) as Hd. destruct (free_entry_ c) as [|i free] eqn:Ef.
  - exists (nodes c ++ [x]), (length (nodes c)), []. split_and!; try done.
    + by rewrite lookup_app_r, Nat.sub_diag by lia.
    + intros j e _ He. rewrite lookup_app_l; [done | by eapply lookup_lt_Some].
    + rewrite app_nil_r in Hd |- *. apply list.NoDup_cons. split; [|done]. intros Hi.
      destruct (rep_in _ _ _ Hr Hi) as (e & _ & He). apply lookup_lt_Some in He. lia.
  - exists (<[i := x]> (nodes c)), i, free. rewrite <- Permutation_middle in Hd. pose proof Hd as Hd0.
    apply list.NoDup_cons in Hd as [Hni _].
    pose proof (rep_free _ _ Hr) as Hfr. rewrite Ef in Hfr. apply Forall_cons_1 in Hfr as [Hi Hfr].
    rewrite length_insert. split_and!; try done; [by apply list_lookup_insert_eq|].
    intros j e Hj He. rewrite list_lookup_insert_ne; [done|]. intros ->. apply Hni, elem_of_app. by left.
Qed.

(** The key of a new node is not in the index yet. *)
Lemma index_put_new c l c2 i x : represents c l -> lru_find (key x) l = None -> nodes c2 !! i = Some x ->
  (forall j e, j ∈ entry_list_ c -> nodes c !! j = Some e -> nodes c2 !! j = Some e) ->
  entry_index_ c2 = entry_index_ c -> index_put i c2 = (i, i) :: entry_index_ c.
Proof.
  intros Hr Hk Hn Hold Ei. unfold index_put. destruct (list_find _ _) as [[n p]|] eqn:Ef; [exfalso | by rewrite Ei].
  apply list_find_Some in Ef as (Hp & Hkey & _). apply list_elem_of_lookup_2 in Hp. rewrite Ei, (rep_index _ _ Hr) in Hp.
  apply list_elem_of_fmap in Hp as (j & -> & Hj). destruct (rep_in _ _ _ Hr Hj) as (e & He & Hj').
  unfold node_key in Hkey. cbn in Hkey. rewrite Hn, (Hold _ _ Hj Hj') in Hkey. injection Hkey as Hkey.
  by apply (lru_find_None (key x) l Hk e He).
Qed.

Lemma take_node_spec c l x : represents c l -> lru_find (key x) l = None -> size_ c < capacity_ c ->
  exists c1 i, take_node x c = c1 /\ head (entry_list_ c1) = Some i /\
    capacity_ c1 = capacity_ c /\ expire_ c1 = expire_ c /\
    represents (mkCache (nodes c1) (entry_list_ c1) (index_put i c1) (free_entry_ c1) (capacity_ c1)
                  (wrap 64 (size_ c1 + 1)) (expire_ c1)) (x :: l).
Proof.
  intros Hr Hk Hsz. pose proof (rep_size _ _ Hr) as Hs. pose proof (rep_capacity _ _ Hr) as [Hc _].
  assert (Hw : wrap 64 (size_ c + 1) = size_ c + 1) by (unfold wrap; apply Z.mod_small; lia).
  destruct (take_node_fresh c l x Hr) as (N & i & free & E & Hn & Hold & Hnd & Hfr).
  eexists _, i. split; [exact E|]. cbn [nodes entry_list_ free_entry_ capacity_ size_ expire_].
  split_and!; try done. rewrite (index_put_new c l _ i x) by done.
  split; cbn [nodes entry_list_ entry_index_ free_entry_ capacity_ size_ expire_]; try (done || lia).
  - constructor; [done|]. apply (Forall2_impl_in _ _ _ _ (rep_entries _ _ Hr)). intros j e Hj He. by apply Hold.
  - rewrite fmap_cons. apply list.NoDup_cons. split; [|apply (rep_keys _ _ Hr)].
    intros Hin. apply list_elem_of_fmap in Hin as (e & Ee & He). by apply (lru_find_None (key x) l Hk e He).
  - by rewrite (rep_index _ _ Hr).
  - rewrite Hw, Hs. cbn. lia.
Qed.

Lemma lru_find_take k l n : lru_find k l = None -> lru_find k (take n l) = None.
Proof.
  intros H. unfold lru_find. destruct (list_find _ (take n l)) as [[m e]|] eqn:E; [exfalso | done].
  apply list_find_Some in E as (Hm & Hk & _). apply list_elem_of_lookup_2 in Hm.
  apply (lru_find_None k l H e); [|done]. by apply (subseteq_take n l).
Qed.

Lemma Put_refines c l k v now : represents c l ->
  exists c', Put k v now c = Some c' /\ represents c' (lru_put (Z.to_nat (capacity_ c)) k v now l) /\
    capacity_ c' = capacity_ c /\ expire_ c' = expire_ c.
Proof.
  intros Hr. unfold Put, lru_put. pose proof (index_find_spec c l k Hr) as Hf.
  destruct (lru_find k l) as [e|] eqn:E.
  - destruct Hf as (i & -> & Hi & Hs). apply lru_find_Some in E as [He Hk]. subst k. rewrite Hs. cbn [mbind option_bind].
    eexists. split; [done|]. split_and!; try done. by apply rep_front.
  - rewrite Hf. destruct (make_room_spec c l (length (entry_list_ c)) Hr) as (c1 & -> & Hr1 & Hc1 & He1 & Hs1).
    cbn [mbind option_bind].
    destruct (take_node_spec c1 _ (mkEntry k v now) Hr1) as (c2 & i & -> & Hh & Hc2 & He2 & Hr2);
      [by apply lru_find_take | done |].
    rewrite Hh. cbn [mbind option_bind]. eexists. split; [done|]. split_and!; cbn; congruence.
Qed.

Lemma run_refines ops : forall c l, represents c l ->
  let '(vs, l') := lru_run (Z.to_nat (capacity_ c)) (expire_ c) ops l in
  exists c', run ops c = Some (vs, c') /\ represents c' l'.
Proof.
  induction ops as [|[k now | k v now] ops IH]; intros c l Hr; cbn [run lru_run].
  - by exists c.
  - pose proof (Get_refines c l k now Hr) as Hg. destruct (Get k now c) as [v c1], (lru_get _ k now l) as [v' l1].
    destruct Hg as (-> & Hr1 & Hc & He). specialize (IH c1 l1 Hr1). rewrite Hc, He in IH.
    destruct (lru_run _ _ ops l1) as [vs l2]. destruct IH as (c2 & -> & Hr2). by exists c2.
  - destruct (Put_refines c l k v now Hr) as (c1 & -> & Hr1 & Hc & He). cbn [mbind option_bind].
    specialize (IH c1 _ Hr1). by rewrite Hc, He in IH.
Qed.

Lemma new_represents capacity expire : 1 <= capacity < 2 ^ 64 -> represents (new_LocalCache capacity expire) ([] : list (LocalCacheEntry K V)).
Proof. intros H. split; cbn; try done; try constructor; try lia. Qed.
End Refinement.

(** C19: the cache is a least-recently-used cache whose entries expire.  On every
    sequence of calls a cache of capacity at least one answers like the list of
    entries in the order of their last use: a key is found with the last value put
    under it unless it was displaced by [capacity] more recent keys or its age,
    as an unsigned difference, reached the expiry time; the size is the number of
    entries and never exceeds the capacity. *)
Theorem cache_is_lru {K V} `{EqDecision K} (ops : list (op K V)) capacity expire :
  1 <= capacity < 2 ^ 64 ->
  let '(vs, l) := lru_run (Z.to_nat capacity) expire ops [] in
  exists c, run ops (new_LocalCache capacity expire) = Some (vs, c) /\
    size_ c = Z.of_nat (length l) /\ size_ c <= capacity_ c.
Proof.
  intros Hc. pose proof (run_refines ops _ _ (new_represents capacity expire Hc)) as H. cbn [capacity_ expire_ new_LocalCache] in H.
  destruct (lru_run _ _ _ _) as [vs l]. destruct H as (c & Hr & Hrep). exists c.
  split_and!; [done | apply (rep_size _ _ Hrep) | apply (rep_capacity _ _ Hrep)].
Qed.

(** Two entries; the third key displaces the second one, which was used before
    the first, and the first one expires. *)
Definition sample_ops : list (op nat nat) :=
  [OPut 1 10 0; OPut 2 20 1; OGet 1 2; OPut 3 30 3; OGet 2 4; OGet 1 5; OGet 1 100; OPut 1 11 101; OGet 1 102]%nat.

Lemma cache_is_lru_witness :
  exists c, run sample_ops (new_LocalCache 2 50) = Some ([Some 10; None; Some 10; None; Some 11]%nat, c) /\
    size_ c = 2 /\ size_ c <= capacity_ c.
Proof. exact (cache_is_lru sample_ops 2 50 ltac:(lia)). Defined.

(** A cache of capacity zero has no room to make: the first [Put] takes the
    back of an empty list. *)
Theorem zero_capacity_has_no_back {K V} `{EqDecision K} (k : K) (v : V) now expire :
  Put k v now (new_LocalCache 0 expire) = None.
Proof. reflexivity. Qed.
