(* ===== verification/Strings.v ===== *)
(** * Strings: src/orc/util/{string_piece,str_util}.{h,cc}, src/common/string_utils.{h,cc}

    Searching, splitting, trimming and the conversion of numbers.  A string is
    the list of its bytes; [std::string::npos] is [None]. *)
From Stdlib Require Import ZArith Lia.
From stdpp Require Import base list option.
From S2P Require Import Prelude Words.

Local Open Scope Z_scope.

Abbreviation bytes := (list Z).

(** ** Searching *)

(** [memcmp] of two pieces of the same length is zero. *)
Definition same (a b : bytes) : bool := bool_decide (a = b).

(** [std::search] from the start of [l]: the first place where [s] is. *)
Fixpoint search (s l : bytes) : option nat :=
  if bool_decide (s `prefix_of` l) then Some O
  else match l with [] => None | _ :: l => S <$> search s l end.

(** [std::string::find]. *)
Definition string_find (s l : bytes) (pos : nat) : option nat :=
  if (length l <? pos)%nat then None else (fun i => pos + i)%nat <$> search s (drop pos l).

(** ** Pieces: string_piece.h, string_piece.cc *)

(** [class StringPiece]: a window of a buffer, [ptr_] bytes from its start. *)
Record StringPiece : Type := mkPiece { buffer : bytes; ptr_ : nat; length_ : nat }.

Definition data (p : StringPiece) : bytes := take (length_ p) (drop (ptr_ p) (buffer p)).
Definition piece_ok (p : StringPiece) : Prop := (ptr_ p + length_ p <= length (buffer p))%nat.
Definition piece_of (l : bytes) : StringPiece := mkPiece l 0 (length l).

(** [StringPiece::find] of a character and of a piece. *)
Definition find_char (c : Z) (p : StringPiece) (pos : nat) : option nat :=
  if (length_ p <=? pos)%nat then None
  else (fun x : nat * Z => pos + x.1)%nat <$> list_find (fun b => b = c) (drop pos (data p)).
Definition piece_find (s p : StringPiece) (pos : nat) : option nat :=
  if (length_ p <=? pos)%nat then None
  else
    let res := match search (data s) (drop pos (data p)) with
               | Some i => (pos + i)%nat
               | None => length_ p
               end in
    if (res + length_ s <=? length_ p)%nat then Some res else None.

(** [StringPiece::find_first_of]: the table of the characters of [s]. *)
Definition lookup_table (s : bytes) : list bool :=
  foldl (fun t c => <[Z.to_nat c := true]> t) (replicate 256 false) s.
Definition find_first_of (s p : StringPiece) (pos : nat) : option nat :=
  if (length_ p =? 0)%nat || (length_ s =? 0)%nat then None
  else if (length_ s =? 1)%nat then
    match head (data s) with Some c => find_char c p pos | None => None end
  else
    let table := lookup_table (data s) in
    (fun x : nat * Z => pos + x.1)%nat <$>
      list_find (fun b => default false (table !! Z.to_nat b) = true) (drop pos (data p)).

(** [StringPiece::substr]; [None] is [npos]. *)
Definition substr (pos : nat) (n : option nat) (p : StringPiece) : StringPiece :=
  let pos := if (length_ p <? pos)%nat then length_ p else pos in
  let rest := (length_ p - pos)%nat in
  let n := match n with Some n => if (rest <? n)%nat then rest else n | None => rest end in
  mkPiece (buffer p) (ptr_ p + pos) n.

(** [StringPiece::RemovePrefix] and [RemoveSuffix]: the length is a [size_t]. *)
Definition RemovePrefix (n : nat) (p : StringPiece) : StringPiece :=
  mkPiece (buffer p) (ptr_ p + n) (Z.to_nat (wrap 64 (Z.of_nat (length_ p) - Z.of_nat n))).
Definition RemoveSuffix (n : nat) (p : StringPiece) : StringPiece :=
  mkPiece (buffer p) (ptr_ p) (Z.to_nat (wrap 64 (Z.of_nat (length_ p) - Z.of_nat n))).

(** [memcmp]: the sign of the first difference of unsigned bytes. *)
Fixpoint memcmp (a b : bytes) : comparison :=
  match a, b with
  | x :: a, y :: b => match x ?= y with Eq => memcmp a b | c => c end
  | _, _ => Eq
  end.

(** [StringPiece::compare] and the operators. *)
Definition compare (a b : StringPiece) : comparison :=
  let n := if (length_ a <? length_ b)%nat then length_ a else length_ b in
  match memcmp (take n (data a)) (take n (data b)) with
  | Eq => if (length_ a <? length_ b)%nat then Lt else if (length_ b <? length_ a)%nat then Gt else Eq
  | c => c
  end.
Definition piece_eq (a b : StringPiece) : bool :=
  if negb (length_ a =? length_ b)%nat then false
  else match memcmp (data a) (data b) with Eq => true | _ => false end.
Definition piece_lt (a b : StringPiece) : bool :=
  let n := if (length_ a <? length_ b)%nat then length_ a else length_ b in
  match memcmp (take n (data a)) (take n (data b)) with
  | Lt => true
  | Eq => (length_ a <? length_ b)%nat
  | Gt => false
  end.

Definition StartWith (o p : StringPiece) : bool :=
  (length_ o <=? length_ p)%nat && same (take (length_ o) (data p)) (data o).
Definition EndWith (o p : StringPiece) : bool :=
  (length_ o <=? length_ p)%nat && same (drop (length_ p - length_ o) (data p)) (data o).

(** ** Splitting *)

(** The loop of [str::Split]: [find] is the one of the string type; [None] when
    it does not end within [fuel] matches. *)
Fixpoint split_loop (find : bytes -> bytes -> nat -> option nat) (ignore_empty : bool) (fuel : nat)
    (s sep : bytes) (b e : nat) (vec : list bytes) : option (nat * list bytes) :=
  match fuel with
  | O => None
  | S fuel =>
      match find sep s e with
      | None => Some (b, vec)
      | Some e =>
          let vec := if negb (b =? e)%nat || negb ignore_empty then vec ++ [take (e - b) (drop b s)] else vec in
          split_loop find ignore_empty fuel s sep (e + length sep) (e + length sep) vec
      end
  end.

(** [str::Split]. *)
Definition Split (find : bytes -> bytes -> nat -> option nat) (s sep : bytes) (ignore_empty : bool)
  : option (list bytes) :=
  '(b, vec) ← split_loop find ignore_empty (S (length s)) s sep 0 0 [];
  Some (if (b <? length s)%nat then vec ++ [drop b s]
        else if negb ignore_empty then vec ++ [[]] else vec).

Definition find_in_string (sep s : bytes) (pos : nat) : option nat := string_find sep s pos.
Definition find_in_piece (sep s : bytes) (pos : nat) : option nat := piece_find (piece_of sep) (piece_of s) pos.

(** [StringUtils::split]. *)
Definition split (text sep : bytes) (ignoreEmpty : bool) : option (list bytes) :=
  '(old, vec) ← split_loop find_in_string ignoreEmpty (S (length text)) text sep 0 0 [];
  Some (if negb ignoreEmpty || (old <? length text)%nat
        then vec ++ [take (length text - old) (drop old text)] else vec).

(** [StringUtils::toString] of a vector of strings. *)
Fixpoint join_after (delim : bytes) (x : list bytes) : bytes :=
  match x with [] => [] | s :: x => delim ++ s ++ join_after delim x end.
Definition join (delim : bytes) (x : list bytes) : bytes :=
  match x with [] => [] | s :: x => s ++ join_after delim x end.

(** ** Prefixes and white space *)

(** [StringUtils::startsWith]: the loop over both strings. *)
Fixpoint startsWith (str mtch : bytes) {struct mtch} : bool :=
  match mtch, str with
  | [], _ => true
  | h :: mtch, c :: str => if c =? h then startsWith str mtch else false
  | _ :: _, [] => false
  end.

(** [isspace] of the C locale. *)
Definition isspace (c : Z) : bool := (c =? 32) || ((9 <=? c) && (c <=? 13)).

Fixpoint LeftTrim (s : bytes) : bytes :=
  match s with
  | c :: s' => if isspace c then LeftTrim s' else s
  | [] => []
  end.
Definition RightTrim (s : bytes) : bytes := reverse (LeftTrim (reverse s)).
Definition Trim (s : bytes) : bytes := RightTrim (LeftTrim s).

(** ** Searching is right *)

Lemma search_Some s l i : search s l = Some i ->
  s `prefix_of` drop i l /\ (i + length s <= length l)%nat /\ forall j, (j < i)%nat -> ~ s `prefix_of` drop j l.
Proof.
  revert i; induction l as [|b l IH]; intros i H; cbn [search] in H; case_bool_decide as Hp.
  - injection H as <-. split_and!; [done | apply prefix_length in Hp; cbn in *; lia | lia].
  - done.
  - injection H as <-. split_and!; [done | apply prefix_length in Hp; cbn in *; lia | lia].
  - destruct (search s l) as [k|]; [|done]. injection H as <-. destruct (IH k eq_refl) as (H1 & H2 & H3).
    split_and!; [done | cbn; lia |]. intros [|j] Hj; [done | apply H3; lia].
Qed.

Lemma search_None s l : search s l = None -> forall j, ~ s `prefix_of` drop j l.
Proof.
  induction l as [|b l IH]; cbn [search]; case_bool_decide as Hp; intros H j; try done.
  - by rewrite drop_nil.
  - destruct j as [|j]; [done|]. apply IH. by destruct (search s l).
Qed.

(** The occurrence of [s] in [l] at some place. *)
Definition occurs (s l : bytes) : Prop := exists u v, l = u ++ s ++ v.

Lemma occurs_drop s l : occurs s l -> exists j, s `prefix_of` drop j l.
Proof. intros (u & v & ->). exists (length u). rewrite drop_app_length. by exists v. Qed.

Lemma search_not_occurs s l : search s l = None -> ~ occurs s l.
Proof. intros H Ho. destruct (occurs_drop _ _ Ho) as [j Hj]. by apply (search_None _ _ H j). Qed.

(** No occurrence lies in the text before the first one. *)
Lemma search_before s l i : s <> [] -> search s l = Some i -> ~ occurs s (take i l).
Proof.
  intros Hs H (u & v & E). destruct (search_Some _ _ _ H) as (_ & Hl & Hmin).
  assert (Hi : length (take i l) = i) by (rewrite length_take; lia).
  assert (Hu : (length u < i)%nat).
  { rewrite E, !length_app in Hi. destruct s; [done | cbn in Hi; lia]. }
  apply (Hmin _ Hu). exists (v ++ drop i l). rewrite <- (take_drop i l) at 1. rewrite E, <- !app_assoc, drop_app_length. done.
Qed.

Lemma search_split s l i : search s l = Some i -> l = take i l ++ s ++ drop (i + length s) l.
Proof.
  intros H. destruct (search_Some _ _ _ H) as ([r Hr] & _ & _). rewrite <- drop_drop, Hr, drop_app_length, <- Hr.
  by rewrite take_drop.
Qed.

(** Both kinds of [find] search from a position. *)
Lemma find_in_string_search sep s pos : (pos <= length s)%nat ->
  find_in_string sep s pos = (fun i => pos + i)%nat <$> search sep (drop pos s).
Proof. intros H. unfold find_in_string, string_find. destruct (Nat.ltb_spec (length s) pos); [lia | done]. Qed.

Lemma data_piece_of l : data (piece_of l) = l.
Proof. unfold data, piece_of. cbn. by rewrite firstn_all. Qed.

Lemma find_in_piece_search sep s pos : sep <> [] -> (pos <= length s)%nat ->
  find_in_piece sep s pos = (fun i => pos + i)%nat <$> search sep (drop pos s).
Proof.
  intros Hs H. unfold find_in_piece, piece_find. rewrite !data_piece_of. cbn [length_ piece_of].
  destruct (Nat.leb_spec (length s) pos).
  - rewrite drop_ge by lia. cbn [search]. rewrite bool_decide_eq_false_2; [done|].
    intros [k E]. by destruct sep.
  - destruct (search sep (drop pos s)) as [i|] eqn:E; cbn [fmap option_fmap option_map].
    + destruct (search_Some _ _ _ E) as (_ & Hl & _). rewrite length_drop in Hl.
      destruct (Nat.leb_spec (pos + i + length sep) (length s)); [done | lia].
    + destruct sep; [done|]. cbn [length]. destruct (Nat.leb_spec (length s + S (length sep)) (length s)); [lia | done].
Qed.

(** ** Splitting is right *)

(** The parts of a string between the separators, from left to right: the parts
    that are followed by a separator, and the last one. *)
Fixpoint parts (fuel : nat) (sep s : bytes) : list bytes * bytes :=
  match fuel with
  | O => ([], s)
  | S fuel =>
      match search sep s with
      | None => ([], s)
      | Some i => let (ps, r) := parts fuel sep (drop (i + length sep) s) in (take i s :: ps, r)
      end
  end.
Definition keep (ignore : bool) (ps : list bytes) : list bytes :=
  if ignore then filter (fun p => p <> []) ps else ps.

Lemma split_loop_spec find ignore sep s : sep <> [] ->
  (forall pos, (pos <= length s)%nat -> find sep s pos = (fun i => pos + i)%nat <$> search sep (drop pos s)) ->
  forall fuel b vec, (b <= length s)%nat -> (length s - b < fuel)%nat ->
  exists b', split_loop find ignore fuel s sep b b vec = Some (b', vec ++ keep ignore (parts fuel sep (drop b s)).1) /\
    (b' <= length s)%nat /\ drop b' s = (parts fuel sep (drop b s)).2.
Proof.
  intros Hs Hf. induction fuel as [|fuel IH]; intros b vec Hb Hfu; [lia|]. cbn [split_loop parts].
  rewrite Hf by done. destruct (search sep (drop b s)) as [i|] eqn:E; cbn [fmap option_fmap option_map].
  2: { exists b. split_and!; [|done|done]. destruct ignore; cbn; by rewrite app_nil_r. }
  destruct (search_Some _ _ _ E) as (_ & Hl & _). rewrite length_drop in Hl.
  assert (Hlen : (0 < length sep)%nat) by (destruct sep; [done | cbn; lia]).
  destruct (IH (b + i + length sep)%nat
    (if negb (b =? b + i)%nat || negb ignore then vec ++ [take (b + i - b) (drop b s)] else vec)) as (b' & -> & Hb' & Hd); [lia | lia |].
  rewrite drop_drop. replace (b + (i + length sep))%nat with (b + i + length sep)%nat by lia.
  destruct (parts fuel sep (drop (b + i + length sep) s)) as [ps r]. cbn [fst snd] in *.
  exists b'. split_and!; [|done|done]. do 2 f_equal. replace (b + i - b)%nat with i by lia.
  destruct ignore; cbn [negb orb keep].
  - rewrite filter_cons. destruct (Nat.eqb_spec b (b + i)) as [Ei | Ei]; cbn [negb orb].
    + rewrite decide_False; [done|]. replace i with O by lia. intros Hn. apply Hn. by rewrite take_0.
    + rewrite decide_True; [by rewrite <- app_assoc|]. intros En. apply (f_equal length) in En.
      rewrite length_take, length_drop in En. cbn in En. lia.
  - rewrite orb_true_r. by rewrite <- app_assoc.
Qed.

Lemma parts_spec fuel sep : sep <> [] -> forall s, (length s < fuel)%nat ->
  let (ps, r) := parts fuel sep s in join sep (ps ++ [r]) = s /\ Forall (fun p => ~ occurs sep p) (ps ++ [r]).
Proof.
  intros Hs. induction fuel as [|fuel IH]; intros s Hf; [lia|]. cbn [parts].
  destruct (search sep s) as [i|] eqn:E.
  2: { cbn. rewrite app_nil_r. split; [done|]. constructor; [by apply search_not_occurs | done]. }
  destruct (search_Some _ _ _ E) as (_ & Hl & _).
  assert (Hlen : (0 < length sep)%nat) by (destruct sep; [done | cbn; lia]).
  specialize (IH (drop (i + length sep) s)). rewrite length_drop in IH. specialize (IH ltac:(lia)).
  destruct (parts fuel sep _) as [ps r]. destruct IH as [Hj Ho]. split.
  - rewrite (search_split sep s i E) at 2. rewrite <- Hj. cbn [join app]. f_equal.
    destruct ps as [|p ps]; cbn; by rewrite ?app_nil_r.
  - cbn [app]. constructor; [by apply search_before | done].
Qed.

Lemma keep_app ignore ps qs : keep ignore (ps ++ qs) = keep ignore ps ++ keep ignore qs.
Proof. destruct ignore; [apply list.filter_app | done]. Qed.

Lemma Split_parts find s sep ignore : sep <> [] ->
  (forall pos, (pos <= length s)%nat -> find sep s pos = (fun i => pos + i)%nat <$> search sep (drop pos s)) ->
  let (ps, r) := parts (S (length s)) sep s in Split find s sep ignore = Some (keep ignore (ps ++ [r])).
Proof.
  intros Hs Hf. unfold Split.
  destruct (split_loop_spec find ignore sep s Hs Hf (S (length s)) 0 []) as (b' & -> & Hb & Hd); [lia | lia |].
  change (drop 0 s) with s in *. destruct (parts (S (length s)) sep s) as [ps r]. cbn [fst snd mbind option_bind app] in *.
  f_equal. rewrite keep_app, <- Hd. destruct (Nat.ltb_spec b' (length s)).
  - f_equal. destruct ignore; [|done]. unfold keep. rewrite filter_cons, decide_True; [done|].
    intros E. apply (f_equal length) in E. rewrite length_drop in E. cbn in E. lia.
  - rewrite drop_ge by lia. destruct ignore; cbn; [by rewrite app_nil_r | done].
Qed.

(** The two splitting functions agree. *)
Lemma split_Split s sep ignore : sep <> [] -> split s sep ignore = Split find_in_string s sep ignore.
Proof.
  intros Hs. unfold split, Split.
  destruct (split_loop_spec find_in_string ignore sep s Hs (find_in_string_search sep s) (S (length s)) 0 [])
    as (b' & -> & Hb & _); [lia | lia |]. cbn [mbind option_bind]. f_equal.
  rewrite (take_ge (drop b' s)) by (rewrite length_drop; lia).
  destruct ignore; cbn [negb orb]; [done|]. destruct (Nat.ltb_spec b' (length s)); [done|]. by rewrite (drop_ge s b') by lia.
Qed.

(** Splitting cuts a string at its separators.  For a separator that is not
    empty both splitting functions, on strings and on pieces, return the same
    parts: no part contains the separator, joining the parts with it gives the
    string back, and ignoring empty parts only drops the empty ones. *)
Lemma split_correct s sep : sep <> [] ->
  exists ps, join sep ps = s /\ Forall (fun p => ~ occurs sep p) ps /\
    forall ignore, Split find_in_string s sep ignore = Some (keep ignore ps) /\
      Split find_in_piece s sep ignore = Some (keep ignore ps) /\
      split s sep ignore = Some (keep ignore ps).
Proof.
  intros Hs. pose proof (parts_spec (S (length s)) sep Hs s ltac:(lia)) as Hp.
  pose proof (fun i => Split_parts find_in_string s sep i Hs (find_in_string_search sep s)) as H1.
  pose proof (fun i => Split_parts find_in_piece s sep i Hs (fun pos => find_in_piece_search sep s pos Hs)) as H2.
  destruct (parts _ sep s) as [ps r]. destruct Hp as [Hj Ho]. exists (ps ++ [r]).
  split_and!; try done. intros ignore. by rewrite split_Split, H1, H2.
Qed.

Lemma split_correct_witness : exists ps, join [58; 58] ps = [97; 58; 58; 58; 98; 58; 58] /\
  Forall (fun p => ~ occurs [58; 58] p) ps /\
  forall ignore, Split find_in_string [97; 58; 58; 58; 98; 58; 58] [58; 58] ignore = Some (keep ignore ps) /\
    Split find_in_piece [97; 58; 58; 58; 98; 58; 58] [58; 58] ignore = Some (keep ignore ps) /\
    split [97; 58; 58; 58; 98; 58; 58] [58; 58] ignore = Some (keep ignore ps).
Proof. apply (split_correct [97; 58; 58; 58; 98; 58; 58] [58; 58]). discriminate. Defined.

(** An empty separator is found where the search stands: the loop never ends. *)
Lemma empty_separator_never_ends s fuel : forall b vec, (b <= length s)%nat ->
  split_loop find_in_string false fuel s [] b b vec = None.
Proof.
  induction fuel as [|fuel IH]; intros b vec Hb; [done|]. cbn [split_loop].
  rewrite find_in_string_search by done. assert (search [] (drop b s) = Some O) as ->.
  { destruct (drop b s); cbn [search]; rewrite bool_decide_eq_true_2; [done | apply prefix_nil | done | apply prefix_nil]. }
  cbn [fmap option_fmap option_map]. rewrite !Nat.add_0_r. by apply IH.
Qed.

(** ** Prefixes, trimming and order *)

Lemma startsWith_spec str mtch : startsWith str mtch = true <-> mtch `prefix_of` str.
Proof.
  revert str; induction mtch as [|h mtch IH]; intros str; cbn [startsWith].
  - split; [intros _; apply prefix_nil | done].
  - destruct str as [|c str]; [split; [done | intros [k E]; done]|].
    destruct (Z.eqb_spec c h) as [-> | Hne].
    + rewrite IH. split; [apply prefix_cons | by apply prefix_cons_inv_2].
    + split; [done|]. intros H. apply prefix_cons_inv_1 in H. congruence.
Qed.

Lemma LeftTrim_spec s : exists ws, s = ws ++ LeftTrim s /\ Forall (fun c => isspace c = true) ws /\
  match head (LeftTrim s) with Some c => isspace c = false | None => True end.
Proof.
  induction s as [|c s (ws & E & Hw & Hh)]; [by exists []|]. cbn [LeftTrim]. destruct (isspace c) eqn:Ec.
  - exists (c :: ws). cbn. rewrite <- E. split_and!; [done | by constructor | done].
  - exists []. split_and!; [done | done | done].
Qed.

Lemma RightTrim_spec s : exists ws, s = RightTrim s ++ ws /\ Forall (fun c => isspace c = true) ws /\
  match list.last (RightTrim s) with Some c => isspace c = false | None => True end.
Proof.
  unfold RightTrim. destruct (LeftTrim_spec (reverse s)) as (ws & E & Hw & Hh). exists (reverse ws).
  split_and!; [| by apply Forall_reverse | by rewrite last_reverse].
  by rewrite <- reverse_app, <- E, reverse_involutive.
Qed.

(** Trimming removes the white space at both ends and nothing else. *)
Lemma Trim_spec s : exists u v, s = u ++ Trim s ++ v /\ Forall (fun c => isspace c = true) (u ++ v) /\
  match list.last (Trim s) with Some c => isspace c = false | None => True end.
Proof.
  destruct (LeftTrim_spec s) as (u & E1 & Hu & _). destruct (RightTrim_spec (LeftTrim s)) as (v & E2 & Hv & Hl).
  exists u, v. split_and!; [by unfold Trim; rewrite <- E2 | by apply Forall_app | done].
Qed.

(** ** Numbers *)

Definition isdigit (c : Z) : bool := (48 <=? c) && (c <=? 57).

(** The value of the digits at the start of a string, and what follows them. *)
Fixpoint digits (acc : Z) (l : bytes) : Z * bytes :=
  match l with
  | c :: l' => if isdigit c then digits (10 * acc + (c - 48)) l' else (acc, l)
  | [] => (acc, [])
  end.

(** The number at the start of a string: its sign, its magnitude, what follows;
    [None] when there are no digits after white space and a sign. *)
Definition number (l : bytes) : option (bool * Z * bytes) :=
  let l := LeftTrim l in
  let '(neg, l) := match l with
                   | 45 :: l' => (true, l')
                   | 43 :: l' => (false, l')
                   | _ => (false, l)
                   end in
  match l with
  | c :: _ => if isdigit c then let (n, r) := digits 0 l in Some (neg, n, r) else None
  | [] => None
  end.

(** [strtol] (and [strtoll]) and [strtoul] with base ten: the value, the rest of
    the string at the end pointer, and whether [errno] is set. *)
Definition strtol (l : bytes) : Z * bytes * bool :=
  match number l with
  | None => (0, l, false)
  | Some (neg, n, r) =>
      let v := if neg then - n else n in
      if v <? - 2 ^ 63 then (- 2 ^ 63, r, true)
      else if 2 ^ 63 - 1 <? v then (2 ^ 63 - 1, r, true) else (v, r, false)
  end.
Definition strtoul (l : bytes) : Z * bytes * bool :=
  match number l with
  | None => (0, l, false)
  | Some (neg, n, r) =>
      if 2 ^ 64 - 1 <? n then (2 ^ 64 - 1, r, true) else (wrap 64 (if neg then - n else n), r, false)
  end.

(** Conversion to a signed type of [w] bits. *)
Definition swrap (w x : Z) : Z := (x + 2 ^ (w - 1)) mod 2 ^ w - 2 ^ (w - 1).

(** *** string_utils.cc: the result and the value of the reference argument.  A
    string is [None] when it is null. *)

Definition ends (r : bytes) : bool := match r with [] => true | _ => false end.
Definition starts_minus (l : bytes) : bool := match l with 45 :: _ => true | _ => false end.

Definition strToInt32 (str : option bytes) (value : Z) : bool * Z :=
  match str with
  | None | Some [] => (false, value)
  | Some l =>
      let '(v, r, err) := strtol l in
      if (v <? - 2 ^ 31) || (2 ^ 31 - 1 <? v) then (false, value)
      else (negb err && ends r, swrap 32 v)
  end.
Definition strToUInt32 (str : option bytes) (value : Z) : bool * Z :=
  match str with
  | None | Some [] => (false, value)
  | Some l =>
      if starts_minus l then (false, value)
      else
        let '(v, r, err) := strtoul l in
        if 2 ^ 32 - 1 <? v then (false, value)
        else (negb err && ends r, wrap 32 (swrap 32 v))
  end.
Definition strToInt64 (str : option bytes) (value : Z) : bool * Z :=
  match str with
  | None | Some [] => (false, value)
  | Some l => let '(v, r, err) := strtol l in (negb err && ends r, v)
  end.
Definition strToUInt64 (str : option bytes) (value : Z) : bool * Z :=
  match str with
  | None | Some [] => (false, value)
  | Some l =>
      if starts_minus l then (false, value)
      else let '(v, r, err) := strtoul l in (negb err && ends r, v)
  end.
Definition strToInt8 (str : option bytes) : bool * Z :=
  let (ret, v32) := strToInt32 str 0 in (ret && (- 2 ^ 7 <=? v32) && (v32 <=? 2 ^ 7 - 1), swrap 8 v32).
Definition strToUInt8 (str : option bytes) : bool * Z :=
  let (ret, v32) := strToUInt32 str 0 in (ret && (v32 <=? 2 ^ 8 - 1), wrap 8 v32).
Definition strToInt16 (str : option bytes) : bool * Z :=
  let (ret, v32) := strToInt32 str 0 in (ret && (- 2 ^ 15 <=? v32) && (v32 <=? 2 ^ 15 - 1), swrap 16 v32).
Definition strToUInt16 (str : option bytes) : bool * Z :=
  let (ret, v32) := strToUInt32 str 0 in (ret && (v32 <=? 2 ^ 16 - 1), wrap 16 v32).

(** *** str_util.cc: [mem] is the memory from the pointer on, up to its NUL; the
    number must end after [len] bytes. *)

Definition consumed (mem r : bytes) : nat := length mem - length r.

Definition ToInt32 (mem : bytes) (len : nat) : option Z :=
  let '(v, r, err) := strtol mem in
  if err || negb (consumed mem r =? len)%nat then None
  else if (2 ^ 32 - 1 <? v) || (v <? - 2 ^ 31) then None else Some (swrap 32 v).
Definition ToUint32 (mem : bytes) (len : nat) : option Z :=
  let '(v, r, err) := strtol mem in
  if err || negb (consumed mem r =? len)%nat then None
  else if (v <? 0) || (2 ^ 32 - 1 <? v) then None else Some (wrap 32 v).
Definition ToInt64 (mem : bytes) (len : nat) : option Z :=
  let '(v, r, err) := strtol mem in
  if err || negb (consumed mem r =? len)%nat then None else Some v.
Definition ToUint64 (mem : bytes) (len : nat) : option Z :=
  let '(v, r, err) := strtoul mem in
  if err || negb (consumed mem r =? len)%nat then None else Some v.

(** [StringConvert] to [bool]. *)
Definition StringConvert_bool (s : bytes) : option bool :=
  if same s [116; 114; 117; 101] || same s [49] then Some true
  else if same s [102; 97; 108; 115; 101] || same s [48] then Some false
  else None.

(** *** string_utils.h: [snprintf] of a decimal into a buffer of [size] bytes *)

Fixpoint print_digits (fuel : nat) (n : Z) (acc : bytes) : bytes :=
  match fuel with
  | O => acc
  | S fuel =>
      let acc := (48 + n mod 10) :: acc in
      if n / 10 =? 0 then acc else print_digits fuel (n / 10) acc
  end.
Definition decimal (x : Z) : bytes :=
  if x <? 0 then 45 :: print_digits 20 (- x) [] else print_digits 20 x [].
Definition snprintf (size : nat) (x : Z) : bytes := take (size - 1) (decimal x).

Definition toString_int8 (x : Z) : bytes := snprintf 8 x.
Definition toString_uint8 (x : Z) : bytes := snprintf 8 x.
Definition toString_int16 (x : Z) : bytes := snprintf 16 x.
Definition toString_uint16 (x : Z) : bytes := snprintf 16 x.
Definition toString_int32 (x : Z) : bytes := snprintf 32 x.
Definition toString_uint32 (x : Z) : bytes := snprintf 32 x.
Definition toString_int64 (x : Z) : bytes := snprintf 64 x.
Definition toString_uint64 (x : Z) : bytes := snprintf 64 x.

(** *** Reading what was printed *)

Lemma print_digits_value f : forall n acc, 0 <= n < 10 ^ Z.of_nat f -> (0 < f)%nat ->
  digits 0 (print_digits f n acc) = digits n acc.
Proof.
  induction f as [|f IH]; intros n acc Hn Hf; [lia|]. cbn [print_digits].
  pose proof (Z.mod_pos_bound n 10 ltac:(lia)) as Hm. pose proof (Z.div_mod n 10 ltac:(lia)) as Hd.
  assert (Hstep : forall a, digits a ((48 + n mod 10) :: acc) = digits (10 * a + n mod 10) acc).
  { intros a. cbn [digits]. unfold isdigit.
    destruct (Z.leb_spec 48 (48 + n mod 10)), (Z.leb_spec (48 + n mod 10) 57); try lia. cbn [andb]. f_equal. lia. }
  destruct (Z.eqb_spec (n / 10) 0) as [E | E].
  - rewrite Hstep. f_equal. lia.
  - assert (Hf' : (0 < f)%nat).
    { destruct f; [|lia]. change (10 ^ Z.of_nat 1) with 10 in Hn. rewrite Z.div_small in E by lia. lia. }
    rewrite IH, Hstep; [f_equal; lia | | done].
    split; [apply Z.div_pos; lia|]. apply Z.div_lt_upper_bound; [lia|].
    rewrite Nat2Z.inj_succ, Z.pow_succ_r in Hn by lia. lia.
Qed.

Lemma print_digits_head f : forall n acc, 0 <= n -> (0 < f)%nat ->
  exists c l, print_digits f n acc = c :: l /\ isdigit c = true.
Proof.
  induction f as [|f IH]; intros n acc Hn Hf; [lia|]. cbn [print_digits].
  pose proof (Z.mod_pos_bound n 10 ltac:(lia)) as Hm.
  assert (Hc : isdigit (48 + n mod 10) = true) by (unfold isdigit; lia).
  destruct (Z.eqb_spec (n / 10) 0); [by eexists _, _|]. destruct f as [|f]; [by eexists _, _|].
  apply IH; [apply Z.div_pos; lia | lia].
Qed.

Lemma print_digits_length f : forall n acc k, 0 <= n < 10 ^ Z.of_nat k -> (0 < k)%nat ->
  (length (print_digits f n acc) <= k + length acc)%nat.
Proof.
  induction f as [|f IH]; intros n acc k Hn Hk; cbn [print_digits]; [lia|].
  destruct (Z.eqb_spec (n / 10) 0) as [E | E]; [cbn; lia|].
  destruct k as [|[|k]]; [lia | |].
  { change (10 ^ Z.of_nat 1) with 10 in Hn. rewrite Z.div_small in E by lia. lia. }
  specialize (IH (n / 10) ((48 + n mod 10) :: acc) (S k)). cbn [length] in IH.
  assert (0 <= n / 10 < 10 ^ Z.of_nat (S k)); [|lia].
  split; [apply Z.div_pos; lia|]. apply Z.div_lt_upper_bound; [lia|].
  rewrite Nat2Z.inj_succ, Z.pow_succ_r in Hn by lia. lia.
Qed.

Lemma digit_cases c : isdigit c = true -> isspace c = false /\ c <> 45 /\ c <> 43.
Proof. unfold isdigit, isspace. lia. Qed.

Lemma number_digits c l : isdigit c = true ->
  number (c :: l) = let (n, r) := digits 0 (c :: l) in Some (false, n, r).
Proof.
  intros Hc. destruct (digit_cases c Hc) as (Hs & H45 & H43). unfold number. cbn [LeftTrim]. rewrite Hs.
  assert (Hm : match c :: l with 45 :: l' => (true, l') | 43 :: l' => (false, l') | _ => (false, c :: l) end = (false, c :: l)).
  { assert (Hr : 48 <= c <= 57) by (unfold isdigit in Hc; lia).
    assert (c = 48 \/ c = 49 \/ c = 50 \/ c = 51 \/ c = 52 \/ c = 53 \/ c = 54 \/ c = 55 \/ c = 56 \/ c = 57) as Hd by lia.
    destruct_or! Hd; by subst. }
  rewrite Hm, Hc. done.
Qed.

Lemma number_decimal x : - 10 ^ 20 < x < 10 ^ 20 -> number (decimal x) = Some (x <? 0, Z.abs x, []).
Proof.
  intros Hx. unfold decimal. destruct (Z.ltb_spec x 0) as [Hn | Hn].
  - destruct (print_digits_head 20 (- x) [] ltac:(lia) ltac:(lia)) as (c & l & E & Hc).
    unfold number. cbn [LeftTrim]. change (isspace 45) with false. cbn iota. rewrite E, Hc, <- E.
    rewrite print_digits_value by (change (Z.of_nat 20) with 20; lia). cbn. do 3 f_equal. lia.
  - destruct (print_digits_head 20 x [] Hn ltac:(lia)) as (c & l & E & Hc). rewrite E, number_digits by done.
    rewrite <- E, print_digits_value by (change (Z.of_nat 20) with 20; lia). cbn. do 3 f_equal. lia.
Qed.

Lemma snprintf_whole size x k : - 10 ^ Z.of_nat k < x < 10 ^ Z.of_nat k -> (0 < k)%nat -> (k + 2 <= size)%nat ->
  snprintf size x = decimal x.
Proof.
  intros Hx Hk Hs. unfold snprintf. apply take_ge. unfold decimal. destruct (Z.ltb_spec x 0).
  - pose proof (print_digits_length 20 (- x) [] k ltac:(lia) Hk). cbn [length] in *. lia.
  - pose proof (print_digits_length 20 x [] k ltac:(lia) Hk). cbn [length] in *. lia.
Qed.

Lemma strtol_decimal x : - 2 ^ 63 <= x < 2 ^ 63 -> strtol (decimal x) = (x, [], false).
Proof.
  intros Hx. unfold strtol. rewrite number_decimal by lia.
  replace (if x <? 0 then - Z.abs x else Z.abs x) with x by (destruct (Z.ltb_spec x 0); lia).
  destruct (Z.ltb_spec x (- 2 ^ 63)); [lia|]. destruct (Z.ltb_spec (2 ^ 63 - 1) x); [lia | done].
Qed.

Lemma strtoul_decimal x : 0 <= x < 2 ^ 64 -> strtoul (decimal x) = (x, [], false).
Proof.
  intros Hx. unfold strtoul. rewrite number_decimal by lia. rewrite (proj2 (Z.ltb_ge x 0)), Z.abs_eq by lia.
  destruct (Z.ltb_spec (2 ^ 64 - 1) x); [lia|]. unfold wrap. by rewrite Z.mod_small by lia.
Qed.

Lemma decimal_cons x : exists c l, decimal x = c :: l /\ (0 <= x -> starts_minus (c :: l) = false).
Proof.
  unfold decimal. destruct (Z.ltb_spec x 0); [eexists _, _; split; [done | lia]|].
  destruct (print_digits_head 20 x [] ltac:(done) ltac:(lia)) as (c & l & -> & Hc). exists c, l. split; [done|]. intros _.
  assert (Hr : 48 <= c <= 57) by (unfold isdigit in Hc; lia).
  assert (c = 48 \/ c = 49 \/ c = 50 \/ c = 51 \/ c = 52 \/ c = 53 \/ c = 54 \/ c = 55 \/ c = 56 \/ c = 57) as Hd by lia.
  destruct_or! Hd; by subst.
Qed.

Lemma swrap_id w x : 0 < w -> - 2 ^ (w - 1) <= x < 2 ^ (w - 1) -> swrap w x = x.
Proof.
  intros Hw Hx. unfold swrap. rewrite Z.mod_small; [lia|].
  replace (2 ^ w) with (2 * 2 ^ (w - 1)); [lia|]. rewrite <- Z.pow_succ_r by lia. f_equal. lia.
Qed.

Lemma wrap_swrap x : 0 <= x < 2 ^ 32 -> wrap 32 (swrap 32 x) = x.
Proof.
  intros Hx. unfold wrap, swrap. change (32 - 1) with 31. rewrite Zminus_mod_idemp_l.
  replace (x + 2 ^ 31 - 2 ^ 31) with x by lia. by apply Z.mod_small.
Qed.

Lemma strToInt32_decimal x v : - 2 ^ 31 <= x < 2 ^ 31 -> strToInt32 (Some (decimal x)) v = (true, x).
Proof.
  intros Hx. unfold strToInt32. destruct (decimal_cons x) as (c & l & E & _). rewrite E, <- E, strtol_decimal by lia.
  destruct (Z.ltb_spec x (- 2 ^ 31)), (Z.ltb_spec (2 ^ 31 - 1) x); try lia. cbn. by rewrite (swrap_id 32) by lia.
Qed.

Lemma strToUInt32_decimal x v : 0 <= x < 2 ^ 32 -> strToUInt32 (Some (decimal x)) v = (true, x).
Proof.
  intros Hx. unfold strToUInt32. destruct (decimal_cons x) as (c & l & E & Hm).
  rewrite E, Hm, <- E, strtoul_decimal by lia.
  destruct (Z.ltb_spec (2 ^ 32 - 1) x); [lia|]. by rewrite wrap_swrap by lia.
Qed.

Definition in_signed (w x : Z) : Prop := - 2 ^ (w - 1) <= x < 2 ^ (w - 1).
Definition in_unsigned (w x : Z) : Prop := 0 <= x < 2 ^ w.

Lemma signed_round_trips x :
  (in_signed 8 x -> strToInt8 (Some (toString_int8 x)) = (true, x)) /\
  (in_signed 16 x -> strToInt16 (Some (toString_int16 x)) = (true, x)) /\
  (in_signed 32 x -> forall v, strToInt32 (Some (toString_int32 x)) v = (true, x)) /\
  (in_signed 64 x -> forall v, strToInt64 (Some (toString_int64 x)) v = (true, x)).
Proof.
  unfold in_signed, toString_int8, toString_int16, toString_int32, toString_int64. split_and!; intros Hx.
  - rewrite (snprintf_whole 8 x 3) by (change (10 ^ Z.of_nat 3) with 1000; lia).
    unfold strToInt8. rewrite strToInt32_decimal, (swrap_id 8) by lia. f_equal. lia.
  - rewrite (snprintf_whole 16 x 5) by (change (10 ^ Z.of_nat 5) with 100000; lia).
    unfold strToInt16. rewrite strToInt32_decimal, (swrap_id 16) by lia. f_equal. lia.
  - rewrite (snprintf_whole 32 x 10) by (change (10 ^ Z.of_nat 10) with 10000000000; lia).
    intros v. apply strToInt32_decimal. lia.
  - rewrite (snprintf_whole 64 x 20) by (change (10 ^ Z.of_nat 20) with 100000000000000000000; lia).
    intros v. unfold strToInt64. destruct (decimal_cons x) as (c & l & E & _). rewrite E, <- E, strtol_decimal by lia. done.
Qed.

Lemma unsigned_round_trips x :
  (in_unsigned 8 x -> strToUInt8 (Some (toString_uint8 x)) = (true, x)) /\
  (in_unsigned 16 x -> strToUInt16 (Some (toString_uint16 x)) = (true, x)) /\
  (in_unsigned 32 x -> forall v, strToUInt32 (Some (toString_uint32 x)) v = (true, x)) /\
  (in_unsigned 64 x -> forall v, strToUInt64 (Some (toString_uint64 x)) v = (true, x)).
Proof.
  unfold in_unsigned, toString_uint8, toString_uint16, toString_uint32, toString_uint64. split_and!; intros Hx.
  - rewrite (snprintf_whole 8 x 3) by (change (10 ^ Z.of_nat 3) with 1000; lia).
    unfold strToUInt8. rewrite strToUInt32_decimal by lia. unfold wrap. rewrite Z.mod_small by lia. f_equal. lia.
  - rewrite (snprintf_whole 16 x 5) by (change (10 ^ Z.of_nat 5) with 100000; lia).
    unfold strToUInt16. rewrite strToUInt32_decimal by lia. unfold wrap. rewrite Z.mod_small by lia. f_equal. lia.
  - rewrite (snprintf_whole 32 x 10) by (change (10 ^ Z.of_nat 10) with 10000000000; lia).
    intros v. apply strToUInt32_decimal. lia.
  - rewrite (snprintf_whole 64 x 20) by (change (10 ^ Z.of_nat 20) with 100000000000000000000; lia).
    intros v. unfold strToUInt64. destruct (decimal_cons x) as (c & l & E & Hm). rewrite E, Hm, <- E, strtoul_decimal by lia. done.
Qed.

Lemma piece_round_trips x :
  (in_signed 32 x -> ToInt32 (decimal x) (length (decimal x)) = Some x) /\
  (in_unsigned 32 x -> ToUint32 (decimal x) (length (decimal x)) = Some x) /\
  (in_signed 64 x -> ToInt64 (decimal x) (length (decimal x)) = Some x) /\
  (in_unsigned 64 x -> ToUint64 (decimal x) (length (decimal x)) = Some x).
Proof.
  unfold in_signed, in_unsigned, ToInt32, ToUint32, ToInt64, ToUint64, consumed. split_and!; intros Hx;
    rewrite ?strtol_decimal, ?strtoul_decimal by lia; cbn [length orb]; rewrite Nat.sub_0_r, Nat.eqb_refl; cbn [negb]; try done.
  - destruct (Z.ltb_spec (2 ^ 32 - 1) x), (Z.ltb_spec x (- 2 ^ 31)); try lia. cbn. by rewrite (swrap_id 32) by lia.
  - destruct (Z.ltb_spec x 0), (Z.ltb_spec (2 ^ 32 - 1) x); try lia. unfold wrap. by rewrite Z.mod_small by lia.
Qed.

(** Every number of a type is read back from its decimal form: the buffers
    of [toString] are large enough for all values of their type, and both
    families of conversions accept exactly the number that was printed. *)
Lemma numbers_round_trip x :
  ((in_signed 8 x -> strToInt8 (Some (toString_int8 x)) = (true, x)) /\
   (in_signed 16 x -> strToInt16 (Some (toString_int16 x)) = (true, x)) /\
   (in_signed 32 x -> forall v, strToInt32 (Some (toString_int32 x)) v = (true, x)) /\
   (in_signed 64 x -> forall v, strToInt64 (Some (toString_int64 x)) v = (true, x))) /\
  ((in_unsigned 8 x -> strToUInt8 (Some (toString_uint8 x)) = (true, x)) /\
   (in_unsigned 16 x -> strToUInt16 (Some (toString_uint16 x)) = (true, x)) /\
   (in_unsigned 32 x -> forall v, strToUInt32 (Some (toString_uint32 x)) v = (true, x)) /\
   (in_unsigned 64 x -> forall v, strToUInt64 (Some (toString_uint64 x)) v = (true, x))) /\
  ((in_signed 32 x -> ToInt32 (decimal x) (length (decimal x)) = Some x) /\
   (in_unsigned 32 x -> ToUint32 (decimal x) (length (decimal x)) = Some x) /\
   (in_signed 64 x -> ToInt64 (decimal x) (length (decimal x)) = Some x) /\
   (in_unsigned 64 x -> ToUint64 (decimal x) (length (decimal x)) = Some x)).
Proof. split_and!; by apply signed_round_trips || apply unsigned_round_trips || apply piece_round_trips. Qed.

(** [ToInt32] compares with the bound of the unsigned type: a number above
    the largest [int] is accepted and becomes negative. *)
Lemma ToInt32_wraps x : 2 ^ 31 <= x < 2 ^ 32 -> ToInt32 (decimal x) (length (decimal x)) = Some (x - 2 ^ 32).
Proof.
  intros Hx. unfold ToInt32, consumed. rewrite strtol_decimal by lia. cbn [length orb].
  rewrite Nat.sub_0_r, Nat.eqb_refl. cbn [negb].
  destruct (Z.ltb_spec (2 ^ 32 - 1) x), (Z.ltb_spec x (- 2 ^ 31)); try lia. cbn [orb]. f_equal.
  unfold swrap. change (32 - 1) with 31. replace (x + 2 ^ 31) with (x - 2 ^ 31 + 1 * 2 ^ 32) by lia.
  rewrite Z.mod_add by lia. rewrite Z.mod_small; lia.
Qed.

Lemma ToInt32_wraps_witness : ToInt32 (decimal 4294967295) (length (decimal 4294967295)) = Some (4294967295 - 2 ^ 32).
Proof. apply (ToInt32_wraps 4294967295). lia. Defined.

(** A negative number is read as an unsigned one. *)
Lemma ToUint64_accepts_minus : ToUint64 [45; 49] 2 = Some (2 ^ 64 - 1).
Proof. reflexivity. Qed.

(** White space hides the sign from the test for it. *)
Lemma strToUInt64_accepts_minus v : strToUInt64 (Some [32; 45; 49]) v = (true, 2 ^ 64 - 1).
Proof. reflexivity. Qed.

(** A piece is not terminated: the digit that follows it in its buffer belongs to
    the number, so that the conversion fails. *)
Lemma piece_before_digit : ToInt32 [49; 50; 51] 2 = None.
Proof. reflexivity. Qed.

(** ** Pieces are windows *)

Lemma data_length p : piece_ok p -> length (data p) = length_ p.
Proof. unfold piece_ok, data. intros H. rewrite length_take, length_drop. lia. Qed.

Lemma memcmp_Eq a : forall b, length a = length b -> (memcmp a b = Eq <-> a = b).
Proof.
  induction a as [|x a IH]; intros [|y b] Hl; try done. cbn in *. destruct (Z.compare_spec x y) as [-> | Hxy | Hxy].
  - rewrite IH by lia. split; [by intros -> | by intros [=]].
  - split; [done | intros [= -> _]; lia].
  - split; [done | intros [= -> _]; lia].
Qed.

(** Pieces are equal when their bytes are. *)
Lemma piece_eq_spec a b : piece_ok a -> piece_ok b -> (piece_eq a b = true <-> data a = data b).
Proof.
  intros Ha Hb. unfold piece_eq. pose proof (data_length a Ha) as La. pose proof (data_length b Hb) as Lb.
  destruct (Nat.eqb_spec (length_ a) (length_ b)) as [E | E]; cbn [negb].
  - pose proof (memcmp_Eq (data a) (data b) ltac:(lia)) as H. destruct (memcmp (data a) (data b)); rewrite <- H; done.
  - split; [done|]. intros Hd. rewrite Hd in La. lia.
Qed.

(** Every window that [substr] makes is inside the piece. *)
Lemma substr_ok pos n p : piece_ok p -> piece_ok (substr pos n p) /\
  exists k, data (substr pos n p) = take k (drop pos (data p)).
Proof.
  unfold piece_ok, substr, data. cbn [ptr_ length_ buffer]. intros H.
  destruct (Nat.ltb_spec (length_ p) pos) as [Hp | Hp].
  - split; [destruct n as [n|]; [destruct (_ <? _)%nat eqn:E; [lia|]; apply Nat.ltb_ge in E; lia | lia]|].
    exists O. replace (length_ p - length_ p)%nat with O by lia.
    destruct n as [[|n]|]; cbn; by rewrite ?take_0.
  - split; [destruct n as [n|]; [destruct (Nat.ltb_spec (length_ p - pos) n); lia | lia]|].
    set (k := match n with Some n => _ | None => _ end). exists k.
    assert (Hk : (k <= length_ p - pos)%nat)
      by (subst k; destruct n as [n|]; [destruct (Nat.ltb_spec (length_ p - pos) n); lia | lia]).
    rewrite skipn_firstn_comm, take_take, drop_drop. by rewrite Nat.min_l by lia.
Qed.

(** Removing more than there is leaves a window of almost 2^64 bytes. *)
Lemma RemovePrefix_underflow p : length_ p = O -> RemovePrefix 1 p = mkPiece (buffer p) (ptr_ p + 1) (Z.to_nat (2 ^ 64 - 1)).
Proof. intros H. unfold RemovePrefix. rewrite H. reflexivity. Qed.
