(* ===== verification/Trie.v ===== *)
(** * Tries: src/qed/trie.h, src/qed/trie.cc

    The map from feature group names to group numbers.  It is built as a tree of
    fat nodes, which is then laid out in one piece of memory: a node is its value,
    the number of its children, their names and the offsets of their nodes from
    the root.  In a slim node the names are stored, the largest one first and the
    others in order; in a strong node the name of the first child is stored and
    the offsets are indexed by the distance from it. *)
From Stdlib Require Import ZArith Lia.
From stdpp Require Import base list option relations.
From S2P Require Import Prelude Words Memory.

Local Open Scope Z_scope.

(** Characters are signed: the value of a byte as a [char]. *)
Definition char_of (b : Z) : Z := if b <? 128 then b else b - 256.

(** [enum class TrieType]. *)
Inductive TrieType : Type := SLIM | STRONG.

(** The outcome of building: a trie, a null pointer, or an access outside an
    array. *)
Inductive result (A : Type) : Type := Ok (a : A) | Null | Undefined.
Arguments Ok {A} a.
Arguments Null {A}.
Arguments Undefined {A}.

Definition result_bind {A B} (m : result A) (f : A -> result B) : result B :=
  match m with Ok a => f a | Null => Null | Undefined => Undefined end.
Fixpoint result_map {A B} (f : A -> result B) (l : list A) : result (list B) :=
  match l with
  | [] => Ok []
  | a :: l => result_bind (f a) (fun b => result_bind (result_map f l) (fun l => Ok (b :: l)))
  end.

(** ** Fat nodes: insertion *)

(** [struct FatTrieNode]: its value and the used part of its two arrays, the
    names with the nodes they lead to.  A node is its number in the order of
    allocation. *)
Record FatTrieNode : Type := mkFat { value : Z; subnodes : list (Z * nat) }.

Definition FAT_SLOTS : nat := 127.
Definition new_FatTrieNode : FatTrieNode := mkFat 0 [].

Inductive placement : Type := Descend (node : nat) | InsertAt (place : nat).

(** The loop that looks for the place of a name. *)
Fixpoint find_place (keyc : Z) (es : list (Z * nat)) (place : nat) : placement :=
  match es with
  | [] => InsertAt place
  | (n, node) :: es =>
      if keyc =? n then Descend node
      else if char_of keyc <? char_of n then InsertAt place
      else find_place keyc es (S place)
  end.

(** A child for [keyc]: the entries of the node, and the child.  [fresh] is the
    node that the allocator gives. *)
Definition insert_char (keyc : Z) (es : list (Z * nat)) (fresh : nat) : option (list (Z * nat) * nat) :=
  match es with
  | [] => Some ([(keyc, fresh)], fresh)
  | (n0, node0) :: rest =>
      if char_of n0 <? char_of keyc then
        if (length es <? FAT_SLOTS)%nat then Some ((keyc, fresh) :: rest ++ [(n0, node0)], fresh) else None
      else
        match find_place keyc es 0 with
        | Descend node => Some (es, node)
        | InsertAt place =>
            if (length es <? FAT_SLOTS)%nat then Some (take place es ++ (keyc, fresh) :: drop place es, fresh) else None
        end
  end.

Definition set_subnodes (i : nat) (es : list (Z * nat)) (h : list FatTrieNode) : list FatTrieNode :=
  alter (fun n => mkFat (value n) es) i h.

(** The loop of [insert_to_fat_trie]: the node that the key leads to, or [false]
    when a node has 255 children. *)
Fixpoint insert_loop (key : list Z) (h : list FatTrieNode) (current : nat) : option (bool * list FatTrieNode * nat) :=
  match key with
  | [] => Some (true, h, current)
  | keyc :: key =>
      n ← h !! current;
      if (length (subnodes n) <? 255)%nat then
        '(es, child) ← insert_char keyc (subnodes n) (length h);
        let h := if (child =? length h)%nat then set_subnodes current es h ++ [new_FatTrieNode] else h in
        insert_loop key h child
      else Some (false, h, current)
  end.

(** [insert_to_fat_trie] at the root. *)
Definition insert_to_fat_trie (h : list FatTrieNode) (key : list Z) (v : Z) : option (bool * list FatTrieNode) :=
  '(ok, h, current) ← insert_loop key h 0;
  if (ok : bool) then Some (true, alter (fun n => mkFat v (subnodes n)) current h) else Some (false, h).

(** The insertions of [build_trie], in the order of the map. *)
Fixpoint insert_all (map : list (list Z * Z)) (h : list FatTrieNode) : result (list FatTrieNode) :=
  match map with
  | [] => Ok h
  | (k, v) :: map =>
      match insert_to_fat_trie h k v with
      | Some (true, h) => insert_all map h
      | Some (false, _) => Null
      | None => Undefined
      end
  end.

(** ** Nodes in memory *)

Section Layout.
Context (ST VT : nat) (TType : TrieType).

(** [TrieNode::estimate_size]. *)
Definition estimate_size (subnodeCount : nat) : nat :=
  match TType with
  | SLIM => VT + 1 + subnodeCount * (1 + ST)
  | STRONG => VT + 1 + 1 + subnodeCount * ST
  end.

Definition name_at (i : nat) (n : FatTrieNode) : Z := char_of (default 0 (fst <$> subnodes n !! i)).

(** The number of offsets of a node: a [uint8_t]. *)
Definition node_count (n : FatTrieNode) : nat :=
  match TType with
  | SLIM => length (subnodes n)
  | STRONG => if (1 <? length (subnodes n))%nat
              then Z.to_nat (wrap 8 (name_at 0 n - name_at 1 n + 1))
              else length (subnodes n)
  end.

(** The offsets of the nodes. *)
Fixpoint offsets (offset : nat) (h : list FatTrieNode) : list nat :=
  match h with
  | [] => []
  | n :: h => offset :: offsets (offset + estimate_size (node_count n)) h
  end.
Definition total_size (h : list FatTrieNode) : nat :=
  foldr (fun n s => estimate_size (node_count n) + s)%nat O h.

Definition max_of (bytes : nat) : Z := 256 ^ Z.of_nat bytes - 1.

(** An offset that does not fit its field stops the build. *)
Definition fits (offset : nat) : result unit := if max_of ST <? Z.of_nat offset then Null else Ok tt.

(** The loop that fills the table of a strong node: the offset that is compared
    is the one of the second child. *)
Fixpoint fill_table (second : nat) (min_name : Z) (es : list (Z * nat)) (target : list nat) : result (list nat) :=
  match es with
  | [] => Ok target
  | (n, offset) :: es =>
      result_bind (fits second) (fun _ =>
        let i := char_of n - min_name in
        if (0 <=? i) && (i <? Z.of_nat (length target))
        then fill_table second min_name es (<[Z.to_nat i := offset]> target)
        else Undefined)
  end.

(** The bytes of a node; [es] has the offsets of the children in place of their
    numbers. *)
Definition node_image (v : Z) (es : list (Z * nat)) : result (list Z) :=
  if max_of VT <? v then Null
  else
    let words l := mjoin ((fun o => le_bytes ST (Z.of_nat o)) <$> l) in
    let name i := char_of (default 0 (fst <$> es !! i)) in
    let offset i := default O (snd <$> es !! i) in
    let head count := le_bytes VT v ++ [Z.of_nat count] in
    match TType with
    | SLIM =>
        result_bind (result_map (fun e : Z * nat => fits e.2) es) (fun _ =>
          Ok (head (length es) ++ (fst <$> es) ++ words (snd <$> es)))
    | STRONG =>
        if (1 <? length es)%nat && (name 0%nat <? name 1%nat) then Null
        else
          let count := if (1 <? length es)%nat then Z.to_nat (wrap 8 (name 0%nat - name 1%nat + 1)) else length es in
          if (count =? 0)%nat then Ok (head O ++ [0])
          else if (count =? 1)%nat then
            result_bind (fits (offset O)) (fun _ => Ok (head 1%nat ++ [default 0 (fst <$> es !! O)] ++ words [offset O]))
          else
            result_bind (fill_table (offset 1%nat) (name 1%nat) es (replicate count O)) (fun target =>
              Ok (head count ++ [default 0 (fst <$> es !! 1%nat)] ++ words target))
    end.

(** The writing loop of [build_trie]. *)
Fixpoint write_nodes (offs : list nat) (h : list FatTrieNode) (os : list nat) (buffer : list Z) : result (list Z) :=
  match h, os with
  | n :: h, o :: os =>
      match mapM (fun e : Z * nat => (fun o => (e.1, o)) <$> offs !! e.2) (subnodes n) with
      | None => Null
      | Some es =>
          result_bind (node_image (value n) es) (fun image =>
            match write_at o image buffer with
            | Some buffer => write_nodes offs h os buffer
            | None => Undefined
            end)
      end
  | _, _ => Ok buffer
  end.

(** [build_trie]: the memory of the trie; its allocation succeeds. *)
Definition build_trie (map : list (list Z * Z)) : result (list Z) :=
  result_bind (insert_all map [new_FatTrieNode]) (fun h =>
    let size := total_size h in
    if (size =? 0)%nat then Null
    else let offs := offsets 0 h in write_nodes offs h offs (replicate size 0)).

(** ** Finding *)

(** A node is its offset in the memory of the trie. *)
Definition subnode_count (mem : list Z) (node : nat) : option nat := Z.to_nat <$> mem !! (node + VT)%nat.
Definition subnode_name (mem : list Z) (node j : nat) : option Z := mem !! (node + VT + 1 + j)%nat.
Definition node_value (mem : list Z) (node : nat) : option Z := le_value <$> read_at node VT mem.

(** [TrieNode::next_node_at]. *)
Definition next_node_at (mem : list Z) (node : nat) (index : nat) : option nat :=
  count ← subnode_count mem node;
  let start := match TType with
               | SLIM => (node + VT + 1 + count + index * ST)%nat
               | STRONG => (node + VT + 1 + 1 + index * ST)%nat
               end in
  (fun l => Z.to_nat (le_value l)) <$> read_at start ST mem.

(** The loop of [TrieNode::next_node] over the names of a slim node: the inner
    [None] is a null pointer. *)
Fixpoint slim_loop (fuel : nat) (mem : list Z) (node j : nat) (keyc : Z) : option (option nat) :=
  match fuel with
  | O => Some None
  | S fuel =>
      n ← subnode_name mem node j;
      if n =? keyc then Some <$> next_node_at mem node j
      else if (j =? 0)%nat then
        if char_of n <? char_of keyc then Some None else slim_loop fuel mem node (S j) keyc
      else if char_of keyc <? char_of n then Some None
      else slim_loop fuel mem node (S j) keyc
  end.

(** [TrieNode::next_node]. *)
Definition next_node (mem : list Z) (node : nat) (keyc : Z) : option (option nat) :=
  count ← subnode_count mem node;
  if (count =? 0)%nat then Some None
  else
    match TType with
    | SLIM => slim_loop count mem node 0 keyc
    | STRONG =>
        n ← subnode_name mem node 0;
        let offset := char_of keyc - char_of n in
        if offset <? 0 then Some None
        else if Z.of_nat count <=? offset then Some None
        else Some <$> next_node_at mem node (Z.to_nat offset)
    end.

(** [find_trie]. *)
Fixpoint find_trie (mem : list Z) (key : list Z) (current : nat) : option (option nat) :=
  match key with
  | [] => Some (Some current)
  | keyc :: key =>
      next ← next_node mem current keyc;
      match next with
      | None => Some None
      | Some node => find_trie mem key node
      end
  end.
End Layout.
