(* ===== verification/TrieCorrect.v ===== *)
(** * Tries: building and finding

    The keys of the map are inserted in ascending order.  The last key inserted
    then leads along the first entries of the fat nodes, so every insertion either
    goes down a first entry or adds a new largest one: the entries of a node stay
    largest first, the others in order, and a key that was inserted keeps its node.
    The nodes are written one behind the other and read back. *)
From Stdlib Require Import ZArith Lia Sorted.
From stdpp Require Import base list option relations.
From S2P Require Import Prelude Words Memory Trie.

Local Open Scope Z_scope.

(** ** Fat tries as graphs *)

Definition entries (h : list FatTrieNode) (i : nat) : list (Z * nat) := default [] (subnodes <$> h !! i).
Definition val (h : list FatTrieNode) (i : nat) : Z := default 0 (value <$> h !! i).

(** A key leads from a node to a node. *)
Inductive path (h : list FatTrieNode) : nat -> list Z -> nat -> Prop :=
  | path_nil i : path h i [] i
  | path_cons i c x key j : (c, x) ∈ entries h i -> path h x key j -> path h i (c :: key) j.

(** The entries of a node: the largest name first, the others ascending. *)
Definition shape (names : list Z) : Prop :=
  match names with [] => True | m :: r => Forall (fun n => n < m) r /\ StronglySorted Z.lt r end.

Record Inv (h : list FatTrieNode) : Prop := {
  inv_root : (0 < length h)%nat;
  inv_edge i c x : (c, x) ∈ entries h i -> (i < x < length h)%nat /\ 1 <= c <= 127;
  inv_inj i j c d x : (c, x) ∈ entries h i -> (d, x) ∈ entries h j -> i = j /\ c = d;
  inv_shape i : shape (entries h i).*1
}.

(** The key leads along first entries to a node without entries. *)
Inductive Spine (h : list FatTrieNode) : nat -> list Z -> Prop :=
  | Spine_nil i : (i < length h)%nat -> entries h i = [] -> Spine h i []
  | Spine_cons i c x key es : entries h i = (c, x) :: es -> Spine h x key -> Spine h i (c :: key).

(** What an insertion keeps: values, edges, and no new edge to an old node. *)
Record Ext (h h' : list FatTrieNode) : Prop := {
  ext_length : (length h <= length h')%nat;
  ext_val j : (j < length h)%nat -> val h' j = val h j;
  ext_new j : (length h <= j)%nat -> val h' j = 0;
  ext_edge j c x : (c, x) ∈ entries h j -> (c, x) ∈ entries h' j;
  ext_old j c x : (c, x) ∈ entries h' j -> (x < length h)%nat -> (c, x) ∈ entries h j
}.

(** The order of [std::map<std::string, ...>]: bytes are compared unsigned. *)
Fixpoint key_le (a b : list Z) : Prop :=
  match a, b with
  | [], _ => True
  | _, [] => False
  | x :: a, y :: b => x < y \/ x = y /\ key_le a b
  end.
Definition key_lt (a b : list Z) : Prop := key_le a b /\ a <> b.

Lemma Ext_refl h : Ext h h.
Proof.
  split; auto. intros j H. unfold val. by rewrite lookup_ge_None_2 by done.
Qed.

Lemma Ext_trans h h1 h2 : Ext h h1 -> Ext h1 h2 -> Ext h h2.
Proof.
  intros [L1 V1 N1 E1 O1] [L2 V2 N2 E2 O2]. split.
  - lia.
  - intros j H. rewrite V2, V1; auto with lia.
  - intros j H. destruct (decide (j < length h1)%nat); [rewrite V2 by done; auto | apply N2; lia].
  - auto.
  - intros j c x H Hx. apply O1; [apply O2; [done | lia] | done].
Qed.

Lemma path_snoc h i k c j : path h i (k ++ [c]) j <-> exists x, path h i k x /\ (c, j) ∈ entries h x.
Proof.
  revert i. induction k as [|d k IH]; intros i; cbn; split.
  - intros H. inversion H as [|? ? x ? ? E P]; subst. inversion P; subst. exists i. split; [constructor | done].
  - intros (x & P & E). inversion P; subst. econstructor; [done | constructor].
  - intros H. inversion H as [|? ? y ? ? E P]; subst. apply IH in P as (x & P & E'). exists x. split; [|done].
    by econstructor.
  - intros (x & P & E). inversion P as [|? ? y ? ? E' P']; subst. econstructor; [done|]. apply IH. by exists x.
Qed.

(** Different keys lead to different nodes. *)
Lemma path_inj h k1 : forall k2 j, Inv h -> path h 0 k1 j -> path h 0 k2 j -> k1 = k2.
Proof.
  induction k1 as [|c k1 IH] using rev_ind; intros k2 j I P1 P2;
    destruct k2 as [|d k2 _] using rev_ind; [done| | |].
  - inversion P1; subst. apply path_snoc in P2 as (x & _ & E). apply (inv_edge _ I) in E. lia.
  - inversion P2; subst. apply path_snoc in P1 as (x & _ & E). apply (inv_edge _ I) in E. lia.
  - apply path_snoc in P1 as (x & P1 & E1), P2 as (y & P2 & E2).
    destruct (inv_inj _ I _ _ _ _ _ E1 E2) as [-> ->]. f_equal. eauto.
Qed.

Lemma path_Ext h h' i k j : Ext h h' -> path h i k j -> path h' i k j.
Proof. intros X. induction 1 as [|i c x k j E P IH]; econstructor; [by apply (ext_edge _ _ X) | done]. Qed.

Lemma path_up h i k j : Inv h -> path h i k j -> (i <= j)%nat.
Proof. intros I. induction 1 as [|i c x k j E P IH]; [done|]. apply (inv_edge _ I) in E. lia. Qed.

(** A path to an old node was there before. *)
Lemma path_old h h' i k j : Inv h' -> Ext h h' -> path h' i k j -> (j < length h)%nat -> path h i k j.
Proof.
  intros I X. induction 1 as [|i c x k j E P IH]; intros Hj; econstructor; [|by apply IH].
  apply (ext_old _ _ X); [done|]. apply path_up in P; [lia | done].
Qed.

Lemma path_length h i k j : Inv h -> (i < length h)%nat -> path h i k j -> (j < length h)%nat.
Proof. intros I Hi. induction 1 as [|i c x k j E P IH]; [done|]. apply IH. apply (inv_edge _ I) in E. lia. Qed.

Lemma shape_NoDup l : shape l -> NoDup l.
Proof.
  destruct l as [|m r]; [constructor|]. intros [Hm Hr]. constructor.
  - intros Hin. rewrite list.Forall_forall in Hm. specialize (Hm _ Hin). lia.
  - clear Hm. induction Hr as [|a l Hl IH Ha]; constructor; [|done]. intros Hin.
    rewrite list.Forall_forall in Ha. specialize (Ha _ Hin). lia.
Qed.

Lemma edge_functional h i c x y : Inv h -> (c, x) ∈ entries h i -> (c, y) ∈ entries h i -> x = y.
Proof.
  intros I Hx Hy. pose proof (shape_NoDup _ (inv_shape _ I i)) as Hn. revert Hn Hx Hy.
  generalize (entries h i). induction l as [|[d z] l IH]; intros Hn Hx Hy; [inversion Hx|].
  cbn in Hn. inversion Hn as [|? ? Hd Hl]; subst.
  apply elem_of_cons in Hx, Hy. destruct Hx as [Hx|Hx], Hy as [Hy|Hy]; [congruence| | |auto];
    simplify_eq; destruct Hd; by apply (list_elem_of_fmap_2 fst) in Hx || apply (list_elem_of_fmap_2 fst) in Hy.
Qed.

Lemma path_functional h i k x y : Inv h -> path h i k x -> path h i k y -> x = y.
Proof.
  intros I P. revert y. induction P as [|i c x k j E P IH]; intros y P'; inversion P' as [|? ? z ? ? E' P'']; subst; [done|].
  pose proof (edge_functional _ _ _ _ _ I E E') as ->. auto.
Qed.

(** ** Insertion *)

Definition add_child (h : list FatTrieNode) (i : nat) (es : list (Z * nat)) : list FatTrieNode :=
  set_subnodes i es h ++ [new_FatTrieNode].

Lemma lookup_add_child h i es j : (add_child h i es) !! j =
  if decide (j < length h)%nat then (fun n => if decide (j = i) then mkFat (value n) es else n) <$> h !! j
  else if decide (j = length h) then Some new_FatTrieNode else None.
Proof.
  unfold add_child, set_subnodes. case_decide as Hj.
  - rewrite lookup_app_l by (by rewrite length_alter). 
    destruct (decide (i = j)) as [->|Hij]; [rewrite list_lookup_alter_eq | rewrite list_lookup_alter_ne by done];
      destruct (h !! j); cbn; try case_decide; congruence.
  - rewrite lookup_app_r by (rewrite length_alter; lia). rewrite length_alter. case_decide as Hl.
    + subst. by rewrite Nat.sub_diag.
    + apply lookup_ge_None_2. cbn. lia.
Qed.

Lemma entries_add_child h i es j : (i < length h)%nat ->
  entries (add_child h i es) j = if decide (j = i) then es else entries h j.
Proof.
  intros Hi. unfold entries. rewrite lookup_add_child. case_decide as Hj.
  - apply lookup_lt_is_Some_2 in Hj as [n Hn]. rewrite Hn. cbn. by case_decide.
  - rewrite (decide_False (P := j = i)) by lia. rewrite (lookup_ge_None_2 h) by lia. by case_decide.
Qed.

Lemma val_add_child h i es j : val (add_child h i es) j = val h j.
Proof.
  unfold val. rewrite lookup_add_child. case_decide as Hj.
  - apply lookup_lt_is_Some_2 in Hj as [n Hn]. rewrite Hn. cbn. by case_decide.
  - rewrite (lookup_ge_None_2 h) by lia. by case_decide.
Qed.

Lemma length_add_child h i es : length (add_child h i es) = S (length h).
Proof. unfold add_child, set_subnodes. rewrite length_app, length_alter. cbn. lia. Qed.

(** The members of the entries after a child was added. *)
Lemma elem_of_add_child h i es c j d x : (i < length h)%nat -> es ≡ₚ (c, length h) :: entries h i ->
  (d, x) ∈ entries (add_child h i es) j <-> (j = i /\ d = c /\ x = length h) \/ (d, x) ∈ entries h j.
Proof.
  intros Hi Hp. rewrite entries_add_child by done. case_decide as Hj; [subst j|].
  - rewrite Hp, elem_of_cons. naive_solver.
  - split; [auto|]. by intros [[? ?]|?].
Qed.

Lemma Ext_add_child h i es c : (i < length h)%nat -> es ≡ₚ (c, length h) :: entries h i -> Ext h (add_child h i es).
Proof.
  intros Hi Hp. split.
  - rewrite length_add_child. lia.
  - intros. apply val_add_child.
  - intros j Hj. rewrite val_add_child. unfold val. by rewrite lookup_ge_None_2.
  - intros j d x H. apply (elem_of_add_child _ _ _ c); auto.
  - intros j d x H Hx. apply (elem_of_add_child _ _ _ c) in H as [(_ & _ & ->)|H]; auto. lia.
Qed.

Lemma Inv_add_child h i es c : Inv h -> (i < length h)%nat -> es ≡ₚ (c, length h) :: entries h i ->
  1 <= c <= 127 -> shape es.*1 -> Inv (add_child h i es).
Proof.
  intros I Hi Hp Hc Hs. split.
  - rewrite length_add_child. lia.
  - intros j d x H. rewrite length_add_child. apply (elem_of_add_child _ _ _ c) in H as [(-> & -> & ->)|H]; auto with lia.
    apply (inv_edge _ I) in H. lia.
  - intros j j' d d' x H H'. apply (elem_of_add_child _ _ _ c) in H, H'; auto.
    destruct H as [(-> & -> & ->)|H], H' as [(-> & -> & E)|H']; subst; auto.
    + apply (inv_edge _ I) in H'. lia.
    + apply (inv_edge _ I) in H. lia.
    + apply (inv_inj _ I _ _ _ _ _ H H').
  - intros j. rewrite entries_add_child by done. case_decide; [done | apply (inv_shape _ I)].
Qed.

(** At most 127 names are in use. *)
Lemma names_bound (l : list Z) : NoDup l -> Forall (fun n => 1 <= n <= 127) l -> (length l <= 127)%nat.
Proof.
  intros Hn Hl.
  assert (Z.to_nat <$> l ⊆+ seq 1 127) as Hs.
  { apply NoDup_submseteq.
    - apply NoDup_fmap_2_strong; [|done]. intros x y Hx Hy E. rewrite list.Forall_forall in Hl.
      pose proof (Hl _ Hx). pose proof (Hl _ Hy). lia.
    - intros n (x & -> & Hx)%list_elem_of_fmap. rewrite list.Forall_forall in Hl. specialize (Hl _ Hx).
      apply elem_of_seq. lia. }
  apply submseteq_length in Hs. by rewrite length_fmap, length_seq in Hs.
Qed.

Lemma entries_bound h i : Inv h -> (length (entries h i) <= 127)%nat.
Proof.
  intros I. rewrite <- (length_fmap fst). apply names_bound; [apply shape_NoDup, (inv_shape _ I)|].
  apply list.Forall_forall. intros n ([c x] & -> & H)%list_elem_of_fmap. apply (inv_edge _ I) in H. cbn. lia.
Qed.

Lemma char_of_ascii c : c <= 127 -> char_of c = c.
Proof. intros H. unfold char_of. destruct (Z.ltb_spec c 128); lia. Qed.

Lemma StronglySorted_snoc (l : list Z) m : StronglySorted Z.lt l -> Forall (fun n => n < m) l -> StronglySorted Z.lt (l ++ [m]).
Proof.
  induction 1 as [|a l Hl IH Ha]; intros H; cbn; [by repeat constructor|].
  apply list.Forall_cons in H as [Hm H]. constructor; [by apply IH|]. apply Forall_app. by repeat constructor.
Qed.

Lemma StronglySorted_lookup (l : list Z) i j a b : StronglySorted Z.lt l -> l !! i = Some a -> l !! j = Some b -> (i < j)%nat -> a < b.
Proof.
  intros H. revert i j. induction H as [|c l Hl IH Hc]; intros [|i] [|j] Hi Hj Hij; cbn in Hi, Hj; simplify_eq; try lia.
  - rewrite Forall_lookup in Hc. eauto.
  - eapply IH; eauto with lia.
Qed.

(** A name above all the others becomes the first entry. *)
Lemma insert_char_new h i c : Inv h -> 1 <= c <= 127 -> Forall (fun n => n < c) (entries h i).*1 ->
  exists es, insert_char c (entries h i) (length h) = Some ((c, length h) :: es, length h) /\
    (c, length h) :: es ≡ₚ (c, length h) :: entries h i /\ shape (((c, length h) :: es).*1).
Proof.
  intros I Hc Hl. pose proof (inv_shape _ I i) as Hs. pose proof (shape_NoDup _ Hs) as Hn.
  assert (length (c :: (entries h i).*1) <= 127)%nat as Hb.
  { apply names_bound; constructor; auto.
    - intros Hin. rewrite list.Forall_forall in Hl. specialize (Hl _ Hin). lia.
    - apply list.Forall_forall. intros n ([d x] & -> & H)%list_elem_of_fmap. apply (inv_edge _ I) in H. cbn. lia. }
  assert (forall d x, (d, x) ∈ entries h i -> d <= 127) as Ha by (intros d x H; apply (inv_edge _ I) in H; lia).
  destruct (entries h i) as [|[n0 x0] es]; [by exists []; repeat constructor|].
  cbn in Hl, Hs, Hb |- *. apply list.Forall_cons in Hl as [H0 Hl]. destruct Hs as [Hm Hr].
  rewrite !char_of_ascii by (apply (Ha n0 x0); left) || lia.
  destruct (Z.ltb_spec n0 c); [|lia]. rewrite length_fmap in Hb.
  destruct (Nat.leb_spec (length es) 125); [|lia]. exists (es ++ [(n0, x0)]). split; [done|]. split.
  - by rewrite <- Permutation_cons_append.
  - cbn. rewrite fmap_app. cbn. split; [apply Forall_app; by repeat constructor | by apply StronglySorted_snoc].
Qed.

Lemma insert_char_first c x es fresh : insert_char c ((c, x) :: es) fresh = Some ((c, x) :: es, x).
Proof. cbn. by rewrite Z.ltb_irrefl, Z.eqb_refl. Qed.

Lemma insert_loop_cons h i c k es x : Inv h -> (i < length h)%nat ->
  insert_char c (entries h i) (length h) = Some (es, x) ->
  insert_loop (c :: k) h i = insert_loop k (if (x =? length h)%nat then add_child h i es else h) x.
Proof.
  intros I Hi Hins. pose proof (entries_bound _ i I) as Hb. cbn [insert_loop].
  apply lookup_lt_is_Some_2 in Hi as [n Hn].
  assert (entries h i = subnodes n) as E by (unfold entries; by rewrite Hn). rewrite E in *.
  rewrite Hn. cbn [mbind option_bind]. destruct (Nat.ltb_spec (length (subnodes n)) 255); [|lia].
  rewrite Hins. reflexivity.
Qed.

(** The insertion of a key that is not before the last one. *)
Lemma insert_loop_ascending k : forall h i last, Inv h -> (i < length h)%nat -> Spine h i last -> key_le last k ->
  Forall (fun c => 1 <= c <= 127) k ->
  exists h' j, insert_loop k h i = Some (true, h', j) /\ Inv h' /\ Ext h h' /\ Spine h' i k /\ path h' i k j /\
    (forall j, (j < i)%nat -> entries h' j = entries h j) /\
    (forall x, (length h <= x < length h')%nat -> exists k1, k1 `prefix_of` k /\ path h' i k1 x).
Proof.
  induction k as [|c k IH]; intros h i last I Hi Hs Hle Hk.
  { destruct last; [|done]. exists h, i. split; [done|]. repeat (split; [done || apply Ext_refl|]). split; [constructor|]. split; [done | lia]. }
  apply list.Forall_cons in Hk as [Hc Hk].
  assert (Forall (fun n => n < c) (entries h i).*1 \/
          exists x es l, entries h i = (c, x) :: es /\ Spine h x l /\ key_le l k) as [Hnew | (x & es & l & E & Hx & Hl)].
  { inversion Hs as [? ? E|? d x l es E Hx]; subst; rewrite E; cbn; [by left|]. destruct Hle as [Hd|[-> Hle]]; [|right; eauto 10].
    left. pose proof (inv_shape _ I i) as S. rewrite E in S. destruct S as [S _]. constructor; [done|].
    eapply list.Forall_impl; [exact S|]. intros n Hn. cbn in Hn. lia. }
  - destruct (insert_char_new _ _ _ I Hc Hnew) as (es & Hins & Hp & Hsh).
    rewrite (insert_loop_cons _ _ _ _ _ _ I Hi Hins), Nat.eqb_refl.
    set (h1 := add_child h i ((c, length h) :: es)).
    assert (Inv h1) as I1 by (by apply (Inv_add_child _ _ _ c)).
    assert (Ext h h1) as X1 by (by apply (Ext_add_child _ _ _ c)).
    assert (entries h1 (length h) = []) as E1.
    { unfold h1. rewrite entries_add_child, decide_False by lia. unfold entries. by rewrite lookup_ge_None_2. }
    destruct (IH h1 (length h) []) as (h' & j & -> & I' & X' & S' & P' & K' & N'); auto.
    { unfold h1. rewrite length_add_child. lia. }
    { constructor; [unfold h1; rewrite length_add_child; lia | done]. }
    { by destruct k. }
    assert (entries h' i = (c, length h) :: es) as Ei.
    { rewrite K' by done. unfold h1. by rewrite entries_add_child, decide_True. }
    exists h', j. split; [done|]. split; [done|]. split; [by eapply Ext_trans|]. split; [by econstructor|].
    assert ((c, length h) ∈ entries h' i) as He by (rewrite Ei; left). split_and!.
    + by econstructor.
    + intros y Hy. rewrite K' by lia. unfold h1. rewrite entries_add_child, decide_False by lia. done.
    + intros x Hx. destruct (decide (x = length h)) as [->|Hne].
      * exists [c]. split; [by apply prefix_cons, prefix_nil | econstructor; [done | constructor]].
      * destruct (N' x) as (k1 & Hk1 & P1); [unfold h1; rewrite length_add_child; lia|].
        exists (c :: k1). split; [by apply prefix_cons | by econstructor].
  - assert ((c, x) ∈ entries h i) as He by (rewrite E; left). pose proof (inv_edge _ I _ _ _ He) as [Hix _].
    rewrite (insert_loop_cons _ _ _ _ ((c, x) :: es) x) by (done || rewrite E; apply insert_char_first).
    destruct (Nat.eqb_spec x (length h)); [lia|].
    destruct (IH h x l) as (h' & j & -> & I' & X' & S' & P' & K' & N'); auto; [lia|].
    exists h', j. split; [done|]. split; [done|]. split; [done|].
    split; [econstructor; [rewrite K' by lia; exact E | done]|].
    split; [econstructor; [by apply (ext_edge _ _ X') | done]|]. split; [intros y Hy; apply K'; lia|].
    intros y Hy. destruct (N' y Hy) as (k1 & Hk1 & P1). exists (c :: k1). split; [by apply prefix_cons|].
    econstructor; [by apply (ext_edge _ _ X') | done].
Qed.

(** ** The whole map *)

(** The fat trie holds the keys of [m] with their values, and no other nodes than those of
    their beginnings, with the value 0. *)
Definition Holds (h : list FatTrieNode) (m : list (list Z * Z)) : Prop :=
  (forall k v, (k, v) ∈ m -> exists j, path h 0 k j /\ val h j = v) /\
  (forall k j, k ∉ m.*1 -> path h 0 k j -> val h j = 0) /\
  (forall k j, path h 0 k j -> k = [] \/ exists k', k' ∈ m.*1 /\ k `prefix_of` k').

Definition set_value (i : nat) (v : Z) (h : list FatTrieNode) : list FatTrieNode :=
  alter (fun n => mkFat v (subnodes n)) i h.

Lemma entries_set_value i v h j : entries (set_value i v h) j = entries h j.
Proof.
  unfold entries, set_value. destruct (decide (i = j)) as [->|Hij].
  - rewrite list_lookup_alter_eq. by destruct (h !! j).
  - by rewrite list_lookup_alter_ne.
Qed.

Lemma val_set_value i v h j : (i < length h)%nat -> val (set_value i v h) j = if decide (j = i) then v else val h j.
Proof.
  intros Hi. unfold val, set_value. case_decide as Hj.
  - subst. rewrite list_lookup_alter_eq. by apply lookup_lt_is_Some_2 in Hi as [n ->].
  - by rewrite list_lookup_alter_ne.
Qed.

Lemma path_set_value i v h a k j : path (set_value i v h) a k j <-> path h a k j.
Proof.
  split; (induction 1 as [|a c x k j E P IH]; econstructor; [|done]);
    [by rewrite entries_set_value in E | by rewrite entries_set_value].
Qed.

Lemma Spine_set_value i v h a k : Spine h a k -> Spine (set_value i v h) a k.
Proof.
  induction 1 as [a Ha E|a c x k es E S IH]; econstructor; rewrite ?entries_set_value; eauto.
  unfold set_value. by rewrite length_alter.
Qed.

Lemma Inv_set_value i v h : Inv h -> Inv (set_value i v h).
Proof.
  intros [R E N S]. split; unfold set_value; rewrite ?length_alter; [done|..]; fold (set_value i v h);
    intros *; rewrite ?entries_set_value; eauto.
Qed.

(** The insertion of a key behind the last one. *)
Lemma insert_to_fat_trie_ascending h m last k v : Inv h -> Spine h 0 last -> Holds h m ->
  key_le last k -> k ∉ m.*1 -> Forall (fun c => 1 <= c <= 127) k ->
  exists h', insert_to_fat_trie h k v = Some (true, h') /\ Inv h' /\ Spine h' 0 k /\ Holds h' (m ++ [(k, v)]).
Proof.
  intros I S (Hm & Ho & Hb) Hle Hk Ha.
  destruct (insert_loop_ascending _ _ _ _ I (inv_root _ I) S Hle Ha) as (h1 & j & E & I1 & X & S1 & P & _ & N1).
  assert (j < length h1)%nat as Hj by (eapply path_length; eauto using inv_root).
  exists (set_value j v h1). unfold insert_to_fat_trie. rewrite E. cbn [mbind option_bind].
  split; [done|]. split; [by apply Inv_set_value|]. split; [by apply Spine_set_value|]. split_and!.
  - intros q w [Hq|[[=->->]|Hq]%elem_of_cons]%elem_of_app; [| |by inversion Hq].
    + destruct (Hm _ _ Hq) as (x & Px & Hx). exists x. rewrite path_set_value, val_set_value by done.
      pose proof (path_Ext _ _ _ _ _ X Px) as Px1. split; [done|].
      rewrite decide_False; [rewrite (ext_val _ _ X); eauto using path_length, inv_root|]. intros ->.
      apply Hk. rewrite (path_inj _ _ _ _ I1 P Px1). by apply (list_elem_of_fmap_2 fst) in Hq.
    + exists j. by rewrite path_set_value, val_set_value, decide_True.
  - intros q x Hq. rewrite path_set_value, val_set_value by done. intros Px.
    rewrite fmap_app, not_elem_of_app in Hq. cbn in Hq. destruct Hq as [Hq Hqk].
    rewrite decide_False by (intros ->; apply Hqk; rewrite (path_inj _ _ _ _ I1 P Px); left).
    destruct (decide (x < length h)%nat) as [Hx|Hx]; [|by apply (ext_new _ _ X); lia].
    rewrite (ext_val _ _ X) by done. eapply Ho; [done|]. by eapply path_old.
  - intros q x. rewrite path_set_value. intros Px. destruct (decide (x < length h)%nat) as [Hx|Hx].
    + destruct (Hb q x) as [->|(k' & Hk' & Hp)]; [by eapply path_old | by left|].
      right. exists k'. split; [|done]. rewrite fmap_app. apply elem_of_app. by left.
    + destruct (N1 x) as (k1 & Hk1 & P1); [split; [lia | eapply (path_length h1 0 q x); eauto using inv_root]|].
      rewrite <- (path_inj _ _ _ _ I1 P1 Px). right. exists k. split; [|done]. rewrite fmap_app. apply elem_of_app. right. left.
Qed.

(** The keys of a [std::map] in its order, with characters that are not
    negative. *)
Definition ascii_map (m : list (list Z * Z)) : Prop :=
  StronglySorted key_lt m.*1 /\ Forall (fun k => Forall (fun c => 1 <= c <= 127) k) m.*1.

Lemma insert_all_ascending m : forall h m0 last, Inv h -> Spine h 0 last -> Holds h m0 ->
  ascii_map m -> Forall (fun k => key_le last k /\ k ∉ m0.*1) m.*1 ->
  exists h', insert_all m h = Ok h' /\ Inv h' /\ Holds h' (m0 ++ m).
Proof.
  induction m as [|[k v] m IH]; intros h m0 last I S H [Hs Ha] Hl; cbn [insert_all].
  { exists h. by rewrite app_nil_r. }
  cbn in Hs, Ha, Hl. apply list.Forall_cons in Hl as [[Hk Hk0] Hl]. apply list.Forall_cons in Ha as [Hka Ha].
  inversion Hs as [|? ? Hs' Hlt]; subst.
  destruct (insert_to_fat_trie_ascending h m0 last k v) as (h1 & -> & I1 & S1 & H1); try done.
  replace (m0 ++ (k, v) :: m) with ((m0 ++ [(k, v)]) ++ m) by (by rewrite <- app_assoc).
  eapply IH; [done | done | done | by split|]. apply list.Forall_forall. intros q Hq. rewrite !list.Forall_forall in *.
  destruct (Hlt _ Hq) as [Hle Hne]. split; [done|].
  rewrite fmap_app, not_elem_of_app. split; [by apply Hl|]. cbn. by intros ->%list_elem_of_singleton.
Qed.

Lemma Inv_new : Inv [new_FatTrieNode].
Proof.
  assert (forall i, entries [new_FatTrieNode] i = []) as E by (by intros [|[|i]]).
  split; [cbn; lia|..]; intros *; rewrite ?E; [by intros H; inversion H .. | done].
Qed.

Lemma insert_all_new m : ascii_map m -> exists h, insert_all m [new_FatTrieNode] = Ok h /\ Inv h /\ Holds h m.
Proof.
  intros Hm. apply (insert_all_ascending m _ [] []); [apply Inv_new | | | done |].
  - by constructor; [cbn; lia|].
  - split; [by intros k v H; inversion H|]. split.
    + intros k j _ P. inversion P as [|? ? ? ? ? E]; [done|]. inversion E.
    + intros k j P. inversion P as [|? ? ? ? ? E]; [by left|]. inversion E.
  - apply list.Forall_forall. intros k _. split; [done|]. cbn. by apply not_elem_of_nil.
Qed.

(** The values of the nodes are those of the map, or 0. *)
Lemma insert_loop_values (P : Z -> Prop) k : forall h i b h' j, P 0 -> Forall (fun n => P (value n)) h ->
  insert_loop k h i = Some (b, h', j) -> Forall (fun n => P (value n)) h'.
Proof.
  induction k as [|c k IH]; intros h i b h' j H0 Hh E; cbn [insert_loop] in E; [by simplify_eq|].
  destruct (h !! i) as [n|] eqn:En; cbn [mbind option_bind] in E; [|done].
  case_match; [|by simplify_eq]. destruct (insert_char _ _ _) as [[es x]|]; cbn [mbind option_bind] in E; [|done].
  eapply IH; [done | | exact E]. case_match; [|done]. apply Forall_app. split; [|by repeat constructor].
  unfold set_subnodes. apply list.Forall_forall. intros a Ha. apply list_elem_of_lookup in Ha as [y Hy].
  rewrite list.Forall_forall in Hh. destruct (decide (i = y)) as [->|Hiy].
  - rewrite list_lookup_alter_eq, En in Hy. cbn in Hy. simplify_eq. cbn. by apply Hh, (list_elem_of_lookup_2 _ y).
  - rewrite list_lookup_alter_ne in Hy by done. by apply Hh, (list_elem_of_lookup_2 _ y).
Qed.

Lemma insert_all_values (P : Z -> Prop) m : forall h h', P 0 -> Forall P m.*2 -> Forall (fun n => P (value n)) h ->
  insert_all m h = Ok h' -> Forall (fun n => P (value n)) h'.
Proof.
  induction m as [|[k v] m IH]; intros h h' H0 Hm Hh E; cbn [insert_all] in E; [by simplify_eq|].
  cbn in Hm. apply list.Forall_cons in Hm as [Hv Hm]. unfold insert_to_fat_trie in E.
  destruct (insert_loop k h 0) as [[[[] h1] j]|] eqn:E1; cbn [mbind option_bind] in E; [|done..].
  eapply IH; [done | done | | exact E]. pose proof (insert_loop_values _ _ _ _ _ _ _ H0 Hh E1) as H1.
  apply Forall_alter; [done|]. by intros n _ _.
Qed.

(** ** Memory *)

Section LayoutFacts.
Context (ST VT : nat) (TType : TrieType).
#[local] Notation total_size := (total_size ST VT TType).
#[local] Notation estimate_size := (estimate_size ST VT TType).
#[local] Notation node_count := (node_count TType).
#[local] Notation offsets := (offsets ST VT TType).

Definition off (h : list FatTrieNode) (i : nat) : nat := total_size (take i h).
Definition words (l : list nat) : list Z := mjoin ((fun o => le_bytes ST (Z.of_nat o)) <$> l).

Lemma words_length l : length (words l) = (length l * ST)%nat.
Proof.
  induction l as [|o l IH]; [done|]. change (words (o :: l)) with (le_bytes ST (Z.of_nat o) ++ words l).
  rewrite length_app, le_bytes_length, IH. cbn. lia.
Qed.

Lemma offsets_lookup h : forall o i, (i < length h)%nat -> offsets o h !! i = Some (o + off h i)%nat.
Proof.
  induction h as [|n h IH]; intros o i Hi; cbn in Hi; [lia|]. destruct i as [|i]; cbn [Trie.offsets lookup list_lookup].
  - by rewrite Nat.add_0_r.
  - rewrite IH by lia. change (off (n :: h) (S i)) with (estimate_size (node_count n) + off h i)%nat. f_equal. lia.
Qed.

Lemma total_size_app h1 h2 : total_size (h1 ++ h2) = (total_size h1 + total_size h2)%nat.
Proof. unfold Trie.total_size. induction h1 as [|n h1 IH]; cbn; [done|]. rewrite IH. lia. Qed.

Lemma estimate_size_pos n : (0 < estimate_size n)%nat.
Proof. unfold Trie.estimate_size. destruct TType; lia. Qed.

Lemma off_lt h i : (i < length h)%nat -> (off h i < total_size h)%nat.
Proof.
  intros Hi. unfold off. apply lookup_lt_is_Some_2 in Hi as [n Hn]. rewrite <- (take_drop_middle _ _ _ Hn) at 2.
  rewrite total_size_app. cbn. pose proof (estimate_size_pos (node_count n)). lia.
Qed.

(** The image that is written for a node. *)
Definition written (offs : list nat) (n : FatTrieNode) (image : list Z) : Prop :=
  exists es, mapM (fun e : Z * nat => (fun o => (e.1, o)) <$> offs !! e.2) (subnodes n) = Some es /\
    node_image ST VT TType (value n) es = Ok image /\ length image = estimate_size (node_count n).

Lemma write_nodes_images offs h images : Forall2 (written offs) h images -> forall before,
  write_nodes ST VT TType offs h (offsets (length before) h) (before ++ replicate (total_size h) 0) = Ok (before ++ mjoin images).
Proof.
  induction 1 as [|n image h images (es & Hes & Him & Hlen) Hall IH]; intros before; cbn; [done|].
  rewrite Hes, Him. cbn. change (foldr _ _ h) with (total_size h). rewrite write_at_Some.
  - rewrite take_app_length, drop_app_ge by lia. rewrite replicate_add.
    replace (length before + length image - length before)%nat with (length image) by lia.
    rewrite drop_app_length' by (by rewrite length_replicate). rewrite app_assoc, <- Hlen.
    replace (length before + length image)%nat with (length (before ++ image)) by (by rewrite length_app).
    rewrite IH. by rewrite <- app_assoc.
  - rewrite length_app, length_replicate. lia.
Qed.

(** Every node is found at its offset. *)
Lemma images_length offs h images : Forall2 (written offs) h images -> length (mjoin images) = total_size h.
Proof.
  induction 1 as [|n image h images (es & _ & _ & Hlen) _ IH]; [done|]. cbn. rewrite length_app, Hlen. f_equal. exact IH.
Qed.

Lemma images_at offs h images i n : Forall2 (written offs) h images -> h !! i = Some n ->
  exists pre image post, mjoin images = pre ++ image ++ post /\ length pre = off h i /\ written offs n image.
Proof.
  intros Hall. revert i. induction Hall as [|n' image h images Hw Hall IH]; intros [|i] Hn; cbn in Hn; simplify_eq.
  - exists [], image, (mjoin images). done.
  - destruct (IH _ Hn) as (pre & im & post & E & Hl & Hw'). exists (image ++ pre), im, post.
    split; [change (mjoin (image :: images)) with (image ++ mjoin images); by rewrite E, <- app_assoc|]. split; [|done]. rewrite length_app, Hl. destruct Hw as (es & _ & _ & ->). done.
Qed.

(** ** Reading a node *)

(** A node at [o]: value, count, names and offsets. *)
Definition node_at (mem : list Z) (o : nat) (v : Z) (names : list Z) (l : list nat) : Prop :=
  exists pre post, mem = pre ++ (le_bytes VT v ++ [Z.of_nat (length l)] ++ names ++ words l) ++ post /\ o = length pre /\
    length names = match TType with SLIM => length l | STRONG => 1%nat end.

Lemma node_at_count mem o v names l : node_at mem o v names l -> subnode_count VT mem o = Some (length l).
Proof.
  intros (pre & post & -> & -> & _). unfold subnode_count. rewrite <- !app_assoc.
  rewrite lookup_app_r, lookup_app_r by (rewrite ?le_bytes_length; lia). rewrite le_bytes_length.
  replace (length pre + VT - length pre - VT)%nat with O by lia. cbn. by rewrite Nat2Z.id.
Qed.

Lemma node_at_name mem o v names l j : node_at mem o v names l -> (j < length names)%nat ->
  subnode_name VT mem o j = names !! j.
Proof.
  intros (pre & post & -> & -> & _) Hj. unfold subnode_name. rewrite <- !app_assoc.
  rewrite lookup_app_r, lookup_app_r, lookup_app_r, lookup_app_l by (rewrite ?le_bytes_length; cbn; lia).
  rewrite le_bytes_length. f_equal. cbn. lia.
Qed.

Lemma node_at_value mem o v names l : node_at mem o v names l -> 0 <= v <= max_of VT -> node_value VT mem o = Some v.
Proof.
  intros (pre & post & -> & -> & _) Hv. unfold node_value. rewrite <- !app_assoc, read_at_app by (rewrite ?le_bytes_length; done).
  cbn. rewrite le_value_bytes; [done|]. unfold max_of in Hv. lia.
Qed.

Lemma words_split l i o : l !! i = Some o -> words l = words (take i l) ++ le_bytes ST (Z.of_nat o) ++ words (drop (S i) l).
Proof.
  intros H. rewrite <- (take_drop_middle _ _ _ H) at 1. unfold words. by rewrite fmap_app, join_app, fmap_cons.
Qed.

Lemma node_at_next mem o v names l i x : node_at mem o v names l -> l !! i = Some x -> Z.of_nat x <= max_of ST ->
  next_node_at ST VT TType mem o i = Some x.
Proof.
  intros N Hx Hm. unfold next_node_at. rewrite (node_at_count _ _ _ _ _ N). cbn [mbind option_bind].
  destruct N as (pre & post & -> & -> & Hn). rewrite (words_split _ _ _ Hx), <- !app_assoc.
  set (start := match TType with SLIM => _ | STRONG => _ end).
  rewrite (app_assoc pre), (app_assoc (pre ++ _)), (app_assoc ((pre ++ _) ++ _)), (app_assoc (((pre ++ _) ++ _) ++ _)).
  rewrite read_at_app; [|..|by rewrite le_bytes_length].
  - cbn. f_equal. rewrite le_value_bytes; [lia|]. unfold max_of in Hm. lia.
  - rewrite !length_app, le_bytes_length, words_length, Hn, length_take, Nat.min_l by (apply lookup_lt_Some in Hx; lia).
    unfold start. destruct TType; cbn; lia.
Qed.

(** ** Writing a node *)

Lemma fits_ok o : Z.of_nat o <= max_of ST -> fits ST o = Ok tt.
Proof. intros H. unfold fits. by destruct (Z.ltb_spec (max_of ST) (Z.of_nat o)); [lia|]. Qed.

Lemma fits_all (es : list (Z * nat)) : Forall (fun e => Z.of_nat e.2 <= max_of ST) es ->
  exists l, result_map (fun e : Z * nat => fits ST e.2) es = Ok l.
Proof. induction 1 as [|e es He _ [l IH]]; cbn; [eauto|]. rewrite fits_ok by done. cbn. rewrite IH. cbn. eauto. Qed.

(** The table of a strong node has the offset of every child. *)
Lemma fill_table_ok second mn es : forall target, Z.of_nat second <= max_of ST -> NoDup es.*1 ->
  Forall (fun c => mn <= c <= 127 /\ c - mn < Z.of_nat (length target)) es.*1 ->
  exists t, fill_table ST second mn es target = Ok t /\ length t = length target /\
    (forall c o, (c, o) ∈ es -> t !! Z.to_nat (c - mn) = Some o) /\
    (forall i, (forall c, c ∈ es.*1 -> Z.to_nat (c - mn) <> i) -> t !! i = target !! i).
Proof.
  induction es as [|[c o] es IH]; intros target Hs Hn Hr; cbn [fill_table].
  { exists target. repeat (split; [done|]). split; [by intros c o H; inversion H | done]. }
  cbn in Hn, Hr. apply list.NoDup_cons in Hn as [Hc Hn]. apply list.Forall_cons in Hr as [[Hcm Hct] Hr].
  rewrite fits_ok by done. cbn [result_bind]. rewrite char_of_ascii by lia.
  rewrite (proj2 (Z.leb_le 0 (c - mn))), (proj2 (Z.ltb_lt (c - mn) (Z.of_nat (length target)))) by lia. cbn [andb].
  destruct (IH (<[Z.to_nat (c - mn) := o]> target)) as (t & -> & Hl & Hf & Hk); [done | done | by rewrite length_insert|].
  rewrite length_insert in Hl. exists t. split; [done|]. split; [done|]. rewrite list.Forall_forall in Hr.
  assert (forall d, d ∈ es.*1 -> Z.to_nat (d - mn) <> Z.to_nat (c - mn)) as Hd.
  { intros d Hd E. destruct (Hr _ Hd). assert (d = c) as -> by lia. done. }
  split.
  - intros d o' [[=->->]|H]%elem_of_cons; [|by apply Hf]. rewrite Hk by done. apply list_lookup_insert_eq. lia.
  - intros i Hi. rewrite Hk by (intros d Hd'; apply Hi; by right). apply list_lookup_insert_ne, Hi. left.
Qed.

Lemma resolve h es : (forall c x, (c, x) ∈ es -> (x < length h)%nat) ->
  mapM (fun e : Z * nat => (fun o => (e.1, o)) <$> offsets 0 h !! e.2) es = Some ((fun e => (e.1, off h e.2)) <$> es).
Proof.
  induction es as [|[c x] es IH]; intros H; [done|]. cbn [mapM]. cbn [fst snd].
  rewrite offsets_lookup by (apply (H c); left). cbn [fmap option_fmap option_map mbind option_bind].
  rewrite IH by (intros d y Hy; apply (H d); by right). done.
Qed.

(** The names and offsets in the memory of a node. *)
Definition describes (h : list FatTrieNode) (es : list (Z * nat)) (names : list Z) (l : list nat) : Prop :=
  match TType with
  | SLIM => names = es.*1 /\ l = off h <$> es.*2
  | STRONG => exists mn, names = [mn] /\ mn <= 127 /\
      forall c x, (c, x) ∈ es -> mn <= c /\ l !! Z.to_nat (c - mn) = Some (off h x)
  end.
(** The loop over the names of a slim node. *)
Lemma slim_loop_found mem o v names l x c y : TType = SLIM -> node_at mem o v names l ->
  shape names -> Forall (fun n => 1 <= n <= 127) names -> names !! x = Some c -> l !! x = Some y -> Z.of_nat y <= max_of ST ->
  forall d j, (x - j <= d)%nat -> (j <= x)%nat -> slim_loop ST VT TType (length l - j) mem o j c = Some (Some y).
Proof.
  intros HT N Hs Ha Hx Hy Hym. assert (length names = length l) as Hl by (destruct N as (? & ? & _ & _ & ->); by rewrite HT).
  pose proof (lookup_lt_Some _ _ _ Hx) as Hxl. pose proof (shape_NoDup _ Hs) as Hn.
  rewrite Forall_lookup in Ha. pose proof (Ha _ _ Hx) as Hc.
  induction d as [|d IH]; intros j Hd Hj; destruct (length l - j)%nat as [|f] eqn:Ef; try lia; cbn [slim_loop];
    rewrite (node_at_name _ _ _ _ _ _ N) by lia; destruct (lookup_lt_is_Some_2 names j) as [n Hj'];
    try lia; rewrite Hj'; cbn [mbind option_bind]; pose proof (Ha _ _ Hj');
    (destruct (Z.eqb_spec n c) as [->|Hne];
      [by rewrite (NoDup_lookup _ _ _ _ Hn Hj' Hx), (node_at_next _ _ _ _ _ _ _ N Hy Hym)|]);
    (assert (j < x)%nat as Hjx by (assert (j <> x) by (intros ->; congruence); lia)); [lia|].
  rewrite !char_of_ascii by lia. destruct names as [|m r]; [done|]. destruct Hs as [Hm Hr]. rewrite Forall_lookup in Hm.
  replace f with (length l - S j)%nat by lia. destruct x as [|x]; [lia|]. cbn in Hx.
  destruct j as [|j]; cbn in Hj' |- *; simplify_eq.
  - pose proof (Hm _ _ Hx). cbn in *. destruct (Z.ltb_spec n c); [lia|]. apply IH; lia.
  - assert (n < c) by (apply (StronglySorted_lookup r j x); auto with lia).
    destruct (Z.ltb_spec c n); [lia|]. apply IH; lia.
Qed.

Lemma slim_loop_absent mem o v names l c : TType = SLIM -> node_at mem o v names l -> c ∉ names ->
  forall f j, (f + j = length l)%nat -> slim_loop ST VT TType f mem o j c = Some None.
Proof.
  intros HT N Hc. assert (length names = length l) as Hl by (destruct N as (? & ? & _ & _ & ->); by rewrite HT).
  induction f as [|f IH]; intros j Hj; cbn [slim_loop]; [done|]. rewrite (node_at_name _ _ _ _ _ _ N) by lia.
  destruct (lookup_lt_is_Some_2 names j) as [n Hn]; [lia|]. rewrite Hn. cbn [mbind option_bind].
  destruct (Z.eqb_spec n c) as [->|_]; [by apply list_elem_of_lookup_2 in Hn|].
  destruct (j =? 0)%nat; (case_match; [done | apply IH; lia]).
Qed.

End LayoutFacts.

Section Images.
Context (ST VT : nat).

Lemma slim_image h v es : v <= max_of VT ->
  (forall c x, (c, x) ∈ es -> Z.of_nat (off ST VT SLIM h x) <= max_of ST) ->
  node_image ST VT SLIM v ((fun e => (e.1, off ST VT SLIM h e.2)) <$> es) =
    Ok (le_bytes VT v ++ [Z.of_nat (length es)] ++ es.*1 ++ words ST (off ST VT SLIM h <$> es.*2)).
Proof.
  intros Hv Hes. unfold node_image. destruct (Z.ltb_spec (max_of VT) v); [lia|].
  destruct (fits_all ST ((fun e => (e.1, off ST VT SLIM h e.2)) <$> es)) as [l ->].
  { apply Forall_fmap, list.Forall_forall. intros [c x] Hin. cbn. eauto. }
  cbn [result_bind]. unfold words. rewrite length_fmap, <- !list_fmap_compose, <- !app_assoc. done.
Qed.

Lemma strong_one h v c x : v <= max_of VT -> Z.of_nat (off ST VT STRONG h x) <= max_of ST ->
  node_image ST VT STRONG v [(c, off ST VT STRONG h x)] =
    Ok (le_bytes VT v ++ [Z.of_nat 1] ++ [c] ++ words ST [off ST VT STRONG h x]).
Proof.
  intros Hv Hx. unfold node_image. destruct (Z.ltb_spec (max_of VT) v); [lia|]. cbn [length Nat.ltb Nat.leb andb Nat.eqb].
  cbn [lookup list_lookup fmap option_fmap option_map fst snd default id]. rewrite fits_ok by done. cbn [result_bind].
  by rewrite <- !app_assoc.
Qed.

Lemma strong_many h v m x a y es : v <= max_of VT -> shape (m :: a :: es.*1) ->
  (forall c z, (c, z) ∈ (m, x) :: (a, y) :: es -> 1 <= c <= 127 /\ Z.of_nat (off ST VT STRONG h z) <= max_of ST) ->
  exists t, node_image ST VT STRONG v ((fun e => (e.1, off ST VT STRONG h e.2)) <$> ((m, x) :: (a, y) :: es)) =
      Ok (le_bytes VT v ++ [Z.of_nat (length t)] ++ [a] ++ words ST t) /\
    length t = Z.to_nat (m - a + 1) /\
    forall c z, (c, z) ∈ (m, x) :: (a, y) :: es -> a <= c /\ t !! Z.to_nat (c - a) = Some (off ST VT STRONG h z).
Proof.
  intros Hv Hs Hes. pose proof (shape_NoDup _ Hs) as Hn. destruct Hs as [Hm Hr].
  apply list.Forall_cons in Hm as [Ham Hm]. inversion Hr as [|? ? _ Ha]; subst.
  assert (1 <= m <= 127) as Hmb by (apply (Hes m x); left).
  assert (1 <= a <= 127) as Hab by (apply (Hes a y); right; left).
  assert (forall c, c ∈ (m :: a :: es.*1) -> a <= c <= m) as Hcs.
  { intros c [->|[->|Hc]%elem_of_cons]%elem_of_cons; [lia | lia|]. rewrite list.Forall_forall in Hm, Ha.
    specialize (Hm _ Hc). specialize (Ha _ Hc). lia. }
  unfold node_image. destruct (Z.ltb_spec (max_of VT) v); [lia|]. rewrite length_fmap.
  cbn [length Nat.ltb Nat.leb]. cbn [fmap list_fmap lookup list_lookup option_fmap option_map fst snd default id].
  rewrite !char_of_ascii by lia. destruct (Z.ltb_spec m a); [lia|]. cbn [andb]. rewrite wrap_small by (unfold uint; lia).
  destruct (Nat.eqb_spec (Z.to_nat (m - a + 1)) 0); [lia|]. destruct (Nat.eqb_spec (Z.to_nat (m - a + 1)) 1); [lia|].
  pose (es' := (fun e : Z * nat => (e.1, off ST VT STRONG h e.2)) <$> ((m, x) :: (a, y) :: es)).
  assert (es'.*1 = m :: a :: es.*1) as E' by (unfold es'; by rewrite <- list_fmap_compose).
  destruct (fill_table_ok ST (off ST VT STRONG h y) a es' (replicate (Z.to_nat (m - a + 1)) O)) as (t & Ht & Hl & Hf & _).
  - apply (Hes a y). right. left.
  - by rewrite E'.
  - rewrite E', length_replicate. apply list.Forall_forall. intros c Hc. specialize (Hcs _ Hc). lia.
  - rewrite length_replicate in Hl. exists t. split; [|split; [done|]].
    + change (fill_table ST _ a _ _) with (fill_table ST (off ST VT STRONG h y) a es' (replicate (Z.to_nat (m - a + 1)) O)).
      rewrite Ht. cbn [result_bind]. by rewrite <- !app_assoc, Hl.
    + intros c z Hz. split; [apply Hcs; by apply (list_elem_of_fmap_2 fst) in Hz|]. apply Hf.
      by apply (list_elem_of_fmap_2 (fun e : Z * nat => (e.1, off ST VT STRONG h e.2))) in Hz.
Qed.
End Images.

(** ** The trie in memory *)

Section Built.
Context (ST VT : nat) (TType : TrieType) (h : list FatTrieNode).
Context (I : Inv h) (Hvalues : Forall (fun n => 0 <= value n <= max_of VT) h).
Context (Hsize : Z.of_nat (total_size ST VT TType h) <= 256 ^ Z.of_nat ST).
#[local] Notation off := (off ST VT TType h).

Definition image_of (v : Z) (names : list Z) (l : list nat) : list Z :=
  le_bytes VT v ++ [Z.of_nat (length l)] ++ names ++ words ST l.

Lemma child_fits i c x : (c, x) ∈ entries h i -> 1 <= c <= 127 /\ Z.of_nat (off x) <= max_of ST.
Proof using I Hsize.
  intros H. apply (inv_edge _ I) in H as [[_ Hx] Hc]. split; [done|]. unfold max_of.
  pose proof (off_lt ST VT TType _ _ Hx). lia.
Qed.

Lemma node_image_describes i v : v <= max_of VT -> exists names l,
  node_image ST VT TType v ((fun e => (e.1, off e.2)) <$> entries h i) = Ok (image_of v names l) /\
  length l = node_count TType (mkFat v (entries h i)) /\
  length names = match TType with SLIM => length l | STRONG => 1%nat end /\
  describes ST VT TType h (entries h i) names l.
Proof using I Hsize.
  intros Hv. pose proof (child_fits i) as Hes. pose proof (inv_shape _ I i) as Hs. unfold image_of, describes, node_count. revert Hes Hs.
  generalize (entries h i) as es. destruct TType; intros es Hes Hs; cbn [subnodes].
  - exists es.*1, (TrieCorrect.off ST VT SLIM h <$> es.*2). rewrite slim_image by (done || intros c x Hx; eapply Hes, Hx).
    rewrite !length_fmap. done.
  - destruct es as [|[m x] [|[a y] es]].
    + exists [0], []. unfold node_image. destruct (Z.ltb_spec (max_of VT) v); [lia|]. cbn. rewrite <- !app_assoc.
      repeat (split; [done|]). exists 0. split; [done|]. split; [lia|]. by intros c x H'; inversion H'.
    + exists [m], [TrieCorrect.off ST VT STRONG h x]. destruct (Hes m x) as [Hm Hx]; [left|]. cbn [fmap list_fmap fst snd]. rewrite strong_one by done.
      repeat (split; [done|]). exists m. split; [done|]. split; [lia|].
      intros c z [[=->->]|H']%elem_of_cons; [by rewrite Z.sub_diag | inversion H'].
    + destruct (strong_many ST VT h v m x a y es Hv Hs Hes) as (t & Ht & Hl & Hf). exists [a], t. split; [done|].
      destruct (Hes a y) as [Ha _]; [right; left|]. destruct (Hes m x) as [Hm _]; [left|].
      split; [|split; [done | exists a; split; [done | split; [lia | done]]]].
      unfold name_at. cbn [subnodes length Nat.ltb Nat.leb lookup list_lookup fmap option_fmap option_map fst default id].
      destruct Hs as [Hs _]. apply list.Forall_cons in Hs as [Hs _]. cbn in Hs.
      rewrite Hl, !char_of_ascii, wrap_small by (unfold uint; lia). done.
Qed.

(** The memory has its size and every node at its offset. *)
Lemma build_nodes : exists mem, length mem = total_size ST VT TType h /\
  write_nodes ST VT TType (offsets ST VT TType 0 h) h (offsets ST VT TType 0 h) (replicate (total_size ST VT TType h) 0) = Ok mem /\
  forall i, (i < length h)%nat -> exists names l, node_at ST VT TType mem (off i) (val h i) names l /\
    describes ST VT TType h (entries h i) names l.
Proof using I Hsize Hvalues.
  assert (forall i n, h !! i = Some n -> entries h i = subnodes n /\ val h i = value n) as Hhn.
  { intros i n Hn. unfold entries, val. by rewrite Hn. }
  assert (forall i n, h !! i = Some n -> 0 <= value n <= max_of VT) as Hv.
  { intros i n Hn. rewrite list.Forall_forall in Hvalues. by apply Hvalues, (list_elem_of_lookup_2 _ i). }
  assert (forall i n, h !! i = Some n -> mapM (fun e : Z * nat => (fun o => (e.1, o)) <$> offsets ST VT TType 0 h !! e.2) (subnodes n) =
      Some ((fun e => (e.1, off e.2)) <$> entries h i)) as Hres.
  { intros i n Hn. destruct (Hhn _ _ Hn) as [<- _]. apply resolve. intros c x H. apply (inv_edge _ I) in H. lia. }
  assert (exists images, Forall2 (written ST VT TType (offsets ST VT TType 0 h)) h images) as [images Hall].
  { apply Forall_exists_Forall2_l, list.Forall_forall. intros n [i Hn]%list_elem_of_lookup.
    destruct (node_image_describes i (value n)) as (names & l & Him & Hl & Hnames & _); [by eapply Hv|].
    exists (image_of (value n) names l), ((fun e => (e.1, off e.2)) <$> entries h i). split; [by apply Hres|]. split; [done|].
    destruct (Hhn _ _ Hn) as [E _]. rewrite E in Hl. destruct n as [v es]. cbn [value subnodes] in *. rewrite <- Hl. unfold image_of.
    rewrite !length_app, le_bytes_length, words_length, Hnames. cbn. destruct TType; cbn; lia. }
  exists (mjoin images). split; [by eapply images_length|]. split; [exact (write_nodes_images _ _ _ _ _ _ Hall [])|].
  intros i Hi. apply lookup_lt_is_Some_2 in Hi as [n Hn].
  destruct (images_at _ _ _ _ _ _ _ _ Hall Hn) as (pre & image & post & -> & Hp & es & Hes & Him & _).
  rewrite (Hres _ _ Hn) in Hes. simplify_eq.
  destruct (node_image_describes i (value n)) as (names & l & Him' & _ & Hnames & Hd); [by eapply Hv|].
  rewrite Him in Him'. simplify_eq. destruct (Hhn _ _ Hn) as [_ ->]. exists names, l. split; [|done]. by exists pre, post.
Qed.

(** ** Finding *)

Context (mem : list Z).
Context (Hmem : forall i, (i < length h)%nat -> exists names l, node_at ST VT TType mem (off i) (val h i) names l /\
    describes ST VT TType h (entries h i) names l).

(** A child is found. *)
Lemma next_node_edge i c x : (i < length h)%nat -> (c, x) ∈ entries h i -> next_node ST VT TType mem (off i) c = Some (Some (off x)).
Proof using I Hmem Hsize.
  intros Hi Hx. destruct (Hmem i Hi) as (names & l & N & D). destruct (child_fits _ _ _ Hx) as [Hc Ho].
  unfold next_node. rewrite (node_at_count _ _ _ _ _ _ _ _ N). cbn [mbind option_bind]. unfold describes in D.
  destruct TType eqn:HT.
  - destruct D as [-> ->]. apply list_elem_of_lookup in Hx as [y Hy]. rewrite !length_fmap.
    destruct (Nat.eqb_spec (length (entries h i)) 0); [apply lookup_lt_Some in Hy; lia|].
    pose proof (slim_loop_found _ _ _ _ _ _ _ _ y c (TrieCorrect.off ST VT SLIM h x) eq_refl N (inv_shape _ I i)) as F.
    rewrite <- (Nat.sub_0_r (length (entries h i))). rewrite !length_fmap in F. apply F with (d := y); try lia; clear F.
    + apply list.Forall_forall. intros d ([d' z] & -> & Hd)%list_elem_of_fmap. apply (inv_edge _ I) in Hd. cbn. lia.
    + by rewrite list_lookup_fmap, Hy.
    + by rewrite !list_lookup_fmap, Hy.
  - destruct D as (mn & -> & Hmn & D). destruct (D _ _ Hx) as [Hcm Hl]. pose proof (lookup_lt_Some _ _ _ Hl) as Hlt.
    destruct (Nat.eqb_spec (length l) 0); [lia|]. rewrite (node_at_name _ _ _ _ _ _ _ _ _ N) by (cbn; lia).
    cbn [lookup list_lookup mbind option_bind]. rewrite !char_of_ascii by lia.
    destruct (Z.ltb_spec (c - mn) 0); [lia|]. destruct (Z.leb_spec (Z.of_nat (length l)) (c - mn)); [lia|].
    by rewrite (node_at_next _ _ _ _ _ _ _ _ _ _ N Hl Ho).
Qed.

(** In a slim node nothing else is. *)
Lemma next_node_absent i c : TType = SLIM -> (i < length h)%nat -> (forall x, (c, x) ∉ entries h i) ->
  next_node ST VT TType mem (off i) c = Some None.
Proof using Hmem Hsize.
  intros HT Hi Hx. destruct (Hmem i Hi) as (names & l & N & D). unfold next_node.
  rewrite (node_at_count _ _ _ _ _ _ _ _ N). cbn [mbind option_bind]. case_match; [done|].
  assert (c ∉ names) as Hc.
  { unfold describes in D. rewrite HT in D. destruct D as [-> _]. intros ([d x] & -> & H')%list_elem_of_fmap. by eapply Hx. }
  rewrite HT in *. eapply slim_loop_absent; eauto with lia.
Qed.

Lemma find_trie_path i k j : (i < length h)%nat -> path h i k j -> find_trie ST VT TType mem k (off i) = Some (Some (off j)).
Proof using I Hmem Hsize.
  intros Hi. induction 1 as [|i c x k j E P IH]; cbn [find_trie]; [done|].
  rewrite (next_node_edge _ _ _ Hi E). cbn [mbind option_bind]. apply IH. apply (inv_edge _ I) in E. lia.
Qed.

Lemma find_trie_complete k : forall i, TType = SLIM -> (i < length h)%nat ->
  exists r, find_trie ST VT TType mem k (off i) = Some r /\ forall o, r = Some o -> exists j, path h i k j /\ o = off j.
Proof using I Hmem Hsize.
  induction k as [|c k IH]; intros i HT Hi; cbn [find_trie].
  { eexists. split; [done|]. intros o [= <-]. exists i. split; [constructor | done]. }
  destruct (decide (c ∈ (entries h i).*1)) as [([d x] & -> & Hx)%list_elem_of_fmap|Hc]; cbn [fst].
  - rewrite (next_node_edge _ _ _ Hi Hx). cbn [mbind option_bind].
    destruct (IH x HT) as (r & -> & Hr); [apply (inv_edge _ I) in Hx; lia|]. exists r. split; [done|].
    intros o Ho. destruct (Hr o Ho) as (j & P & ->). exists j. split; [by econstructor | done].
  - rewrite next_node_absent; [|done|done|intros x Hx; by apply (list_elem_of_fmap_2 fst) in Hx]. by exists None.
Qed.

Lemma node_value_val j : (j < length h)%nat -> node_value VT mem (off j) = Some (val h j).
Proof using Hmem Hvalues.
  intros Hj. destruct (Hmem j Hj) as (names & l & N & _). apply (node_at_value _ _ _ _ _ _ _ _ N).
  apply lookup_lt_is_Some_2 in Hj as [n Hn]. unfold val. rewrite Hn. cbn. rewrite list.Forall_forall in Hvalues.
  by apply Hvalues, (list_elem_of_lookup_2 _ j).
Qed.
End Built.

(** What a trie that is built from a map holds: its nodes are those of the fat
    trie, each with its value. *)
Lemma build_trie_spec ST VT TType m : ascii_map m -> Forall (fun v => 0 <= v <= max_of VT) m.*2 ->
  exists h, insert_all m [new_FatTrieNode] = Ok h /\
    (forall k v, (k, v) ∈ m -> exists j, path h 0 k j /\ val h j = v) /\
    (forall k j, k ∉ m.*1 -> path h 0 k j -> val h j = 0) /\
    (forall k j, path h 0 k j -> k = [] \/ exists k', k' ∈ m.*1 /\ k `prefix_of` k') /\
    (Z.of_nat (total_size ST VT TType h) <= 256 ^ Z.of_nat ST ->
     exists mem, build_trie ST VT TType m = Ok mem /\ length mem = total_size ST VT TType h /\
       (forall k j, path h 0 k j ->
          exists node, find_trie ST VT TType mem k 0 = Some (Some node) /\ node_value VT mem node = Some (val h j)) /\
       (TType = SLIM -> forall k, exists r, find_trie ST VT TType mem k 0 = Some r /\
          forall node, r = Some node -> exists j, path h 0 k j /\ node_value VT mem node = Some (val h j))).
Proof.
  intros Hm Hv. destruct (insert_all_new m Hm) as (h & E & I & Hk & Ho & Hpre). exists h. split_and!; [done | exact Hk | intros; by eapply Ho | exact Hpre|].
  intros Hsize. assert (0 <= max_of VT) as H0 by (unfold max_of; pose proof (Z.pow_pos_nonneg 256 (Z.of_nat VT)); lia).
  assert (Forall (fun n => 0 <= value n <= max_of VT) h) as Hvalues.
  { eapply (insert_all_values (fun v => 0 <= v <= max_of VT)); [lia | done | | exact E]. repeat constructor; cbn; lia. }
  destruct (build_nodes ST VT TType h I Hvalues Hsize) as (mem & Hlen & Hw & Hmem). exists mem.
  assert (0 < length h)%nat as Hr by apply (inv_root _ I).
  assert (forall k j, path h 0 k j -> node_value VT mem (off ST VT TType h j) = Some (val h j)) as Hval.
  { intros k j P. apply (node_value_val ST VT TType h Hvalues mem Hmem). by eapply path_length. }
  split_and!.
  - unfold build_trie. rewrite E. cbn [result_bind]. rewrite Hw.
    destruct (Nat.eqb_spec (total_size ST VT TType h) 0) as [Hz|_]; [|done].
    pose proof (off_lt ST VT TType h 0 Hr). lia.
  - done.
  - intros k j P. exists (off ST VT TType h j). split; [|by eapply Hval].
    exact (find_trie_path ST VT TType h I Hsize mem Hmem 0 k j Hr P).
  - intros HT k. destruct (find_trie_complete ST VT TType h I Hsize mem Hmem k 0 HT Hr) as (r & Hf & Hrn).
    exists r. split; [exact Hf|]. intros node Hnode. destruct (Hrn _ Hnode) as (j & P & ->). eauto.
Qed.

(** A beginning of a key leads to a node on the way of the key. *)
Lemma path_prefix h i k1 k2 j : path h i (k1 ++ k2) j -> exists x, path h i k1 x.
Proof.
  revert i. induction k1 as [|c k1 IH]; intros i P; [exists i; constructor|].
  inversion P as [|? ? x ? ? E P']; subst. destruct (IH _ P') as [y Py]. exists y. by econstructor.
Qed.

(** ** Theorems *)

(** C20: a trie that is built from a map finds the keys of the map.  Let the map be
    in the order of [std::map], its keys of the characters 1 to 127, its values in
    the range of the value type.  Then the fat trie is built, and if its size is in
    the range of the offset type, the trie is built in memory of exactly this size;
    [find_trie] reads only inside it, and leads for each key of the map to a node with
    its value, whether the trie is slim or strong.  In a slim trie a key leads to a
    node exactly when it is empty or the beginning of a key of the map, and to a null
    pointer otherwise; the value of the node is 0 if the key is not in the map. *)
Theorem trie_finds_the_map ST VT TType m : ascii_map m -> Forall (fun v => 0 <= v <= max_of VT) m.*2 ->
  exists h, insert_all m [new_FatTrieNode] = Ok h /\
    (Z.of_nat (total_size ST VT TType h) <= 256 ^ Z.of_nat ST ->
     exists mem, build_trie ST VT TType m = Ok mem /\ length mem = total_size ST VT TType h /\
       (forall k v, (k, v) ∈ m -> exists node, find_trie ST VT TType mem k 0 = Some (Some node) /\ node_value VT mem node = Some v) /\
       (TType = SLIM -> forall k, exists r, find_trie ST VT TType mem k 0 = Some r /\
          (is_Some r <-> k = [] \/ exists k', k' ∈ m.*1 /\ k `prefix_of` k') /\
          (forall node, r = Some node -> k ∉ m.*1 -> node_value VT mem node = Some 0))).
Proof.
  intros Hm Hv. destruct (build_trie_spec ST VT TType m Hm Hv) as (h & E & Hk & Ho & Hpre & Hb). exists h. split; [done|].
  intros Hsize. destruct (Hb Hsize) as (mem & Hmem & Hlen & Hf & Hs). exists mem. split_and!; [done | done | |].
  - intros k v Hin. destruct (Hk _ _ Hin) as (j & P & <-). eauto.
  - intros HT k. destruct (Hs HT k) as (r & Hr & Hn). exists r. split; [done|]. split; [split|].
    + intros [node ->]. destruct (Hn node eq_refl) as (j & P & _). by apply (Hpre k j).
    + intros Hk'. assert (exists j, path h 0 k j) as [j P].
      { destruct Hk' as [->|(k' & ([k0 v] & E0 & Hin)%list_elem_of_fmap & k2 & E2)]; [exists 0%nat; constructor|].
        destruct (Hk _ _ Hin) as (j & P & _). cbn in E0. subst k0 k'. by eapply path_prefix. }
      destruct (Hf k j P) as (node & Hnode & _). rewrite Hr in Hnode. injection Hnode as ->. by eexists.
    + intros node Hnode Hin. destruct (Hn node Hnode) as (j & P & ->). by rewrite (Ho k j).
Qed.

Definition ab_map : list (list Z * Z) := [([97], 1); ([97; 98], 2); ([99], 3)].

Lemma trie_finds_the_map_witness : exists h mem, insert_all ab_map [new_FatTrieNode] = Ok h /\
  build_trie 2 2 STRONG ab_map = Ok mem /\
  exists node, find_trie 2 2 STRONG mem [97; 98] 0 = Some (Some node) /\ node_value 2 mem node = Some 2.
Proof.
  assert (ascii_map ab_map) as Hm.
  { split; cbn; repeat constructor; cbn; try lia; discriminate. }
  destruct (trie_finds_the_map 2 2 STRONG ab_map Hm) as (h & E & H).
  { repeat constructor; cbn; discriminate. }
  exists h. assert (Ok h = insert_all ab_map [new_FatTrieNode]) as E' by (by rewrite E). vm_compute in E'.
  injection E' as ->. destruct H as (mem & Hb & _ & Hf & _); [vm_compute; discriminate|]. exists mem.
  split; [exact E|]. split; [exact Hb|]. apply Hf. right. left.
Defined.

(** The offsets of a strong node between those of its children are 0, which is
    the root: a key that was never inserted is found.  In the strong trie of the
    keys "a" and "c", "b" leads to the root and "ba" to the node of "a". *)
Lemma strong_trie_finds_absent_keys : exists mem, build_trie 2 2 STRONG [([97], 1); ([99], 3)] = Ok mem /\
  find_trie 2 2 STRONG mem [98] 0 = Some (Some 0%nat) /\
  exists node, find_trie 2 2 STRONG mem [98; 97] 0 = Some (Some node) /\ node_value 2 mem node = Some 1.
Proof. eexists. split; [vm_compute; reflexivity|]. split; [reflexivity|]. eexists. split; reflexivity. Qed.

(** The order of the map is the one of unsigned bytes and the comparisons of the
    trie are those of signed characters: the slim trie of the keys "a" and "\x80"
    does not find "a". *)
Lemma slim_trie_loses_a_key : exists mem, build_trie 2 2 SLIM [([97], 1); ([128], 3)] = Ok mem /\
  find_trie 2 2 SLIM mem [97] 0 = Some None.
Proof. eexists. split; [vm_compute; reflexivity | reflexivity]. Qed.
