(* ===== verification/Monitor.v ===== *)
(** * Monitor counters: src/common/monitor/monitor_status_impl.cc,
    src/common/monitor/monitor_status_impl.h

    Counters live in a file that the processes of a machine map into their memory:
    a header and a list of entries, each the sizes of its parts, a name and a
    value.  A process looks a name up in its own cache and otherwise, under a
    semaphore, in the list, where it appends an entry for a name that is missing.
    Updates are atomic additions to the value.  A pointer into the mapping is its
    distance from the first entry. *)
From Stdlib Require Import ZArith Lia.
From stdpp Require Import base list option gmap.
From S2P Require Import Prelude Words Memory Strings.

Local Open Scope Z_scope.

(** ** The list in memory *)

Definition RAW_MMAP_LIST_MAGIC : Z := 0x11223345.
Definition MAX_CACHE_SIZE : nat := 10.
Definition ENTRY : nat := 12.

(** [AlignN(n, sizeof(uint64_t))]. *)
Definition AlignN (n : nat) : nat := ((n + 8 - 1) / 8 * 8)%nat.

(** [struct ListHeader]; the mutex is not used. *)
Record ListHeader : Type := mkHeader { magic : Z; count : Z; max_size : Z; size : Z; flag : Z }.

(** [class RawMMapList]: the header, and the bytes from [entrys_] to [end_]. *)
Record RawMMapList : Type := mkList { list_header : ListHeader; area : list Z }.

(** The outcome of an operation: a result, a failed CHECK, which ends the process
    and leaves the file as it is, or an access outside the mapping. *)
Inductive run (A : Type) : Type := Done (a : A) (l : RawMMapList) | CheckFailure (l : RawMMapList) | Fault.
Arguments Done {A} a l.
Arguments CheckFailure {A} l.
Arguments Fault {A}.

Definition bind_run {A B} (m : run A) (f : A -> RawMMapList -> run B) : run B :=
  match m with Done a l => f a l | CheckFailure l => CheckFailure l | Fault => Fault end.

Definition read_u32 (mem : list Z) (off : nat) : option nat := (fun b => Z.to_nat (le_value b)) <$> read_at off 4 mem.
Definition write_u32 (mem : list Z) (off x : nat) : option (list Z) := write_at off (le_bytes 4 (Z.of_nat x)) mem.

(** The fields of [struct Entry]. *)
Definition total_size (mem : list Z) (e : nat) : option nat := read_u32 mem e.
Definition key_size (mem : list Z) (e : nat) : option nat := read_u32 mem (e + 4).
Definition value_size (mem : list Z) (e : nat) : option nat := read_u32 mem (e + 8).
Definition Key (e : nat) : nat := (e + ENTRY)%nat.
Definition Value (mem : list Z) (e : nat) : option nat := (fun k => e + ENTRY + k)%nat <$> key_size mem e.

(** [ListHeader::Init] on a mapping of [header_size] bytes for the header and the
    bytes of the entries. *)
Definition Init (header_size : nat) (l : RawMMapList) : RawMMapList :=
  if negb (flag (list_header l) =? 0) && (magic (list_header l) =? RAW_MMAP_LIST_MAGIC) then l
  else mkList (mkHeader RAW_MMAP_LIST_MAGIC 0 (Z.of_nat (header_size + length (area l))) 0 1) (replicate (length (area l)) 0).

(** The constructor: an empty file gets [max_size] zero bytes. *)
Definition open_list (header_size max_size : nat) (file : option RawMMapList) : RawMMapList :=
  Init header_size (default (mkList (mkHeader 0 0 0 0 0) (replicate (max_size - header_size) 0)) file).

(** [Next]: the check passes for a pointer into the mapping. *)
Definition Next (mem : list Z) (from : option nat) : option nat :=
  match from with None => Some O | Some e => (fun t => e + t)%nat <$> total_size mem e end.

(** Whether the loops go on at an entry. *)
Definition in_use (mem : list Z) (e : nat) : option bool :=
  k ← key_size mem e; t ← total_size mem e; Some (negb (k =? 0)%nat && negb (t =? 0)%nat).

(** The loop of [Find]. *)
Fixpoint find_loop (fuel : nat) (mem key_buff : list Z) (cur : nat) : option nat :=
  match fuel with
  | O => None
  | S fuel =>
      used ← in_use mem cur;
      if (used : bool) then
        k ← key_size mem cur;
        if (k =? length key_buff)%nat then
          b ← read_at (Key cur) k mem;
          if decide (b = key_buff) then Some cur
          else cur ← Next mem (Some cur); find_loop fuel mem key_buff cur
        else cur ← Next mem (Some cur); find_loop fuel mem key_buff cur
      else Some cur
  end.

Definition pad (l : list Z) : list Z := l ++ replicate (AlignN (length l) - length l) 0.

(** [Find]: the inner [None] is a null pointer. *)
Definition Find (mem key : list Z) : option (option nat) :=
  cur ← Next mem None;
  cur ← find_loop (S (length mem)) mem (pad key) cur;
  k ← key_size mem cur;
  Some (if (k =? 0)%nat then None else Some cur).

(** The loop of [AddEntry] that moves to the end. *)
Fixpoint end_loop (fuel : nat) (mem : list Z) (cur : nat) : option nat :=
  match fuel with
  | O => None
  | S fuel =>
      used ← in_use mem cur;
      if (used : bool) then cur ← Next mem (Some cur); end_loop fuel mem cur else Some cur
  end.

(** The stores of [AddEntry], in their order. *)
Definition write_entry (mem key value : list Z) (cur : nat) : option (list Z) :=
  mem ← write_u32 mem (cur + 4) (AlignN (length key));
  mem ← write_u32 mem (cur + 8) (AlignN (length value));
  mem ← write_at (Key cur) key mem;
  v ← Value mem cur;
  mem ← write_at v value mem;
  k ← key_size mem cur;
  s ← value_size mem cur;
  write_u32 mem cur (k + s + ENTRY).

(** [AddEntry]. *)
Definition AddEntry (key value : list Z) (l : RawMMapList) : run nat :=
  match Find (area l) key with
  | None => Fault
  | Some (Some e) => Done e l
  | Some None =>
      match (cur ← Next (area l) None; cur ← end_loop (S (length (area l))) (area l) cur;
             mem ← write_entry (area l) key value cur; t ← total_size mem cur; Some (cur, mem, t)) with
      | None => Fault
      | Some (cur, mem, t) =>
          let h := list_header l in
          let s := wrap 32 (size h + Z.of_nat t) in
          if s <=? max_size h
          then Done cur (mkList (mkHeader (magic h) (wrap 32 (count h + 1)) (max_size h) s (flag h)) mem)
          else CheckFailure (mkList (mkHeader (magic h) (count h) (max_size h) s (flag h)) mem)
      end
  end.

(** ** The monitor of a process *)

Inductive kind : Type := Counter | Timer | Binary.
#[export] Instance kind_eq_dec : EqDecision kind.
Proof. solve_decision. Defined.

(** COUNTER_PREFIX and the others. *)
Definition PREFIX (k : kind) : list Z := match k with Counter => [67; 35] | Timer => [84; 35] | Binary => [66; 35] end.

(** The sizes of [uint64_t], [TimerMonitorStatus] and [BinaryMonitorStatus]. *)
Definition value_bytes (k : kind) : nat := match k with Counter => 8 | Timer => 136 | Binary => 12 end.

(** The caches of one kind and the index of the current one. *)
Record cache : Type := mkCache { cache_map : list (gmap (list Z) nat); cache_map_index : nat }.

(** [class MonitorStatusImpl]: its caches and the maps of the last parse. *)
Record MonitorStatusImpl : Type := mkImpl {
  counter_cache : cache; timer_cache : cache; binary_cache : cache;
  counter_map : gmap (list Z) (list Z); timer_counter_map : gmap (list Z) (list Z); binary_counter_map : gmap (list Z) (list Z)
}.

Definition new_cache : cache := mkCache (replicate MAX_CACHE_SIZE ∅) 0.
Definition new_MonitorStatusImpl : MonitorStatusImpl := mkImpl new_cache new_cache new_cache ∅ ∅ ∅.

Definition cache_of (k : kind) (p : MonitorStatusImpl) : cache :=
  match k with Counter => counter_cache p | Timer => timer_cache p | Binary => binary_cache p end.
Definition set_cache (k : kind) (c : cache) (p : MonitorStatusImpl) : MonitorStatusImpl :=
  match k with
  | Counter => mkImpl c (timer_cache p) (binary_cache p) (counter_map p) (timer_counter_map p) (binary_counter_map p)
  | Timer => mkImpl (counter_cache p) c (binary_cache p) (counter_map p) (timer_counter_map p) (binary_counter_map p)
  | Binary => mkImpl (counter_cache p) (timer_cache p) c (counter_map p) (timer_counter_map p) (binary_counter_map p)
  end.

(** The name of a counter: [snprintf] into 127 bytes. *)
Definition counter_name (k : kind) (module_name counter_key : list Z) : list Z :=
  take 126 (PREFIX k ++ module_name ++ [35] ++ counter_key).

(** The current cache. *)
Definition current_map (c : cache) : gmap (list Z) nat := default ∅ (cache_map c !! cache_map_index c).

(** A new cache with one more name. *)
Definition extend_cache (key : list Z) (v : nat) (c : cache) : cache :=
  match current_map c !! key with
  | Some _ => c
  | None =>
      let new_index := ((cache_map_index c + 1) mod MAX_CACHE_SIZE)%nat in
      mkCache (<[new_index := <[key := v]> (current_map c)]> (cache_map c)) new_index
  end.

(** [GetCounter], [GetTimerCounter] and [GetBinaryCounter]: the cell of a name. *)
Definition Get (k : kind) (module_name counter_key : list Z) (p : MonitorStatusImpl) (l : RawMMapList) : run (MonitorStatusImpl * nat) :=
  let key := counter_name k module_name counter_key in
  match current_map (cache_of k p) !! key with
  | Some v => Done (p, v) l
  | None =>
      bind_run (AddEntry (key ++ [0]) (replicate (value_bytes k) 0) l) (fun entry l =>
        match Value (area l) entry with
        | None => Fault
        | Some v => Done (set_cache k (extend_cache key v (cache_of k p)) p, v) l
        end)
  end.
Definition GetCounter := Get Counter.
Definition GetTimerCounter := Get Timer.
Definition GetBinaryCounter := Get Binary.

(** ** Updates *)

(** The accesses of the updaters: an atomic addition to a field of [width] bytes, a
    store. *)
Inductive update : Type := FetchAdd (field width : nat) (n : Z) | StoreField (field width : nat) (x : Z).

Definition apply_update (cell : nat) (mem : list Z) (u : update) : option (list Z) :=
  match u with
  | FetchAdd f w n =>
      b ← read_at (cell + f) w mem;
      write_at (cell + f) (le_bytes w (wrap (8 * Z.of_nat w) (le_value b + n))) mem
  | StoreField f w x => write_at (cell + f) (le_bytes w x) mem
  end.

Fixpoint apply_updates (cell : nat) (us : list update) (mem : list Z) : option (list Z) :=
  match us with [] => Some mem | u :: us => mem ← apply_update cell mem u; apply_updates cell us mem end.

(** MONITOR_STATUS_NORMAL_COUNTER_BY. *)
Definition CounterUpdater (inc_count : Z) : list update := [FetchAdd 0 8 inc_count].

Definition kTimerMonitorStatusTimeSlice : Z := 500.
Definition kTimerMonitorStatusTimeSlot : Z := 10.

(** The slice of a time. *)
Definition time_slot (total_time : Z) : Z :=
  let slot := total_time / kTimerMonitorStatusTimeSlice in
  if kTimerMonitorStatusTimeSlot <=? slot then kTimerMonitorStatusTimeSlot - 1 else slot.

(** [TimerCounterUpdater]; the arguments are converted to [uint32_t]. *)
Definition TimerCounterUpdater (time cnt : Z) : list update :=
  let total_time := wrap 32 time in
  let total_count := wrap 32 cnt in
  let slot := time_slot total_time in
  [FetchAdd 0 8 total_count; FetchAdd 8 8 total_time; FetchAdd (16 + 8 * Z.to_nat slot) 8 total_count] ++
  if slot =? kTimerMonitorStatusTimeSlot - 1 then
    if 1000000 <? total_time then [FetchAdd 128 8 total_count]
    else if 300000 <? total_time then [FetchAdd 120 8 total_count]
    else if 100000 <? total_time then [FetchAdd 112 8 total_count]
    else if 50000 <? total_time then [FetchAdd 104 8 total_count]
    else if 5000 <? total_time then [FetchAdd 96 8 total_count]
    else []
  else [].

(** [BinaryCounterUpdater]. *)
Definition BinaryCounterUpdater (flag : Z) : list update :=
  if flag =? 0 then [StoreField 0 4 0; FetchAdd 4 4 1] else [StoreField 0 4 1; FetchAdd 8 4 1].

(** MONITOR_STATUS_NORMAL_COUNTER_BY and the macros of the other kinds: the cell
    of the name is looked up and updated. *)
Definition count_by (k : kind) (module_name counter_key : list Z) (us : list update) (p : MonitorStatusImpl) (l : RawMMapList)
    : run MonitorStatusImpl :=
  bind_run (Get k module_name counter_key p l) (fun '(p, cell) l =>
    match apply_updates cell us (area l) with
    | None => Fault
    | Some mem => Done p (mkList (list_header l) mem)
    end).

(** ** Reading all counters *)

(** The string at an address. *)
Fixpoint c_string (l : list Z) : option (list Z) :=
  match l with [] => None | b :: l => if b =? 0 then Some [] else (cons b) <$> c_string l end.

(** [map.insert]: an entry that is there stays. *)
Definition map_insert (k v : list Z) (m : gmap (list Z) (list Z)) : gmap (list Z) (list Z) :=
  match m !! k with Some _ => m | None => <[k := v]> m end.

Definition map_of (k : kind) (p : MonitorStatusImpl) : gmap (list Z) (list Z) :=
  match k with Counter => counter_map p | Timer => timer_counter_map p | Binary => binary_counter_map p end.
Definition set_map (k : kind) (m : gmap (list Z) (list Z)) (p : MonitorStatusImpl) : MonitorStatusImpl :=
  match k with
  | Counter => mkImpl (counter_cache p) (timer_cache p) (binary_cache p) m (timer_counter_map p) (binary_counter_map p)
  | Timer => mkImpl (counter_cache p) (timer_cache p) (binary_cache p) (counter_map p) m (binary_counter_map p)
  | Binary => mkImpl (counter_cache p) (timer_cache p) (binary_cache p) (counter_map p) (timer_counter_map p) m
  end.

(** The kind of a name, by its prefix. *)
Definition kind_of (key : list Z) : option kind :=
  if startsWith key (PREFIX Counter) then Some Counter
  else if startsWith key (PREFIX Timer) then Some Timer
  else if startsWith key (PREFIX Binary) then Some Binary
  else None.

(** The loop of [ParseCounters]; a name of another kind ends the process. *)
Fixpoint parse_loop (fuel : nat) (mem : list Z) (from : option nat) (p : MonitorStatusImpl) : option MonitorStatusImpl :=
  match fuel with
  | O => None
  | S fuel =>
      cur ← Next mem from;
      used ← in_use mem cur;
      if negb used then Some p
      else
        key ← c_string (drop (Key cur) mem);
        k ← kind_of key;
        cell ← Value mem cur;
        v ← read_at cell (value_bytes k) mem;
        parse_loop fuel mem (Some cur) (set_map k (map_insert (drop 2 key) v (map_of k p)) p)
  end.

(** [ParseCounters]: the map of the binary counters is not cleared. *)
Definition ParseCounters (p : MonitorStatusImpl) (l : RawMMapList) : option MonitorStatusImpl :=
  parse_loop (S (length (area l))) (area l) None (set_map Timer ∅ (set_map Counter ∅ p)).

(** [GetAllCounters], [GetAllTimerCounters], [GetAllBinaryCounters]: the map of the
    caller is exchanged with the one that was parsed. *)
Definition GetAll (k : kind) (all : gmap (list Z) (list Z)) (p : MonitorStatusImpl) (l : RawMMapList)
    : option (MonitorStatusImpl * gmap (list Z) (list Z)) :=
  p ← ParseCounters p l;
  Some (set_map k all p, map_of k p).
Definition GetAllCounters := GetAll Counter.
Definition GetAllTimerCounters := GetAll Timer.
Definition GetAllBinaryCounters := GetAll Binary.

(** ** Several processes *)

(** What the processes do to the counters.  A process that is not known starts with
    empty caches; [Restart] ends one. *)
Inductive operation : Type :=
  | CounterBy (pid : nat) (module_name counter_key : list Z) (inc_count : Z)
  | TimerBy (pid : nat) (module_name timer_key : list Z) (total_time total_count : Z)
  | BinaryBy (pid : nat) (module_name item_name : list Z) (flag : Z)
  | Restart (pid : nat).

Record machine : Type := mkMachine { processes : gmap nat MonitorStatusImpl; file : RawMMapList }.

Definition process (m : machine) (pid : nat) : MonitorStatusImpl := default new_MonitorStatusImpl (processes m !! pid).

Definition step_by (pid : nat) (k : kind) (mo ke : list Z) (us : list update) (m : machine) : option machine :=
  match count_by k mo ke us (process m pid) (file m) with
  | Done p l => Some (mkMachine (<[pid := p]> (processes m)) l)
  | _ => None
  end.

Definition step (m : machine) (op : operation) : option machine :=
  match op with
  | CounterBy pid mo ke n => step_by pid Counter mo ke (CounterUpdater n) m
  | TimerBy pid mo ke t c => step_by pid Timer mo ke (TimerCounterUpdater t c) m
  | BinaryBy pid mo ke f => step_by pid Binary mo ke (BinaryCounterUpdater f) m
  | Restart pid => Some (mkMachine (delete pid (processes m)) (file m))
  end.

Fixpoint steps (m : machine) (ops : list operation) : option machine :=
  match ops with [] => Some m | op :: ops => m ← step m op; steps m ops end.
