(* ===== verification/MonitorCorrect.v ===== *)
(** * Monitor counters: the list in memory is a map

    The bytes of the mapping are the encodings of the entries, one behind the
    other, and zeros.  A name is found where it was appended, whichever process
    asks; updates of a value stay in its cell.  So any sequence of operations of
    any number of processes, with restarts, acts like one map from names to
    values. *)
From Stdlib Require Import ZArith Lia.
From stdpp Require Import base list option gmap.
From S2P Require Import Prelude Words Memory Strings Monitor.

Local Open Scope Z_scope.

(** ** Encodings *)

Definition entry : Type := (list Z * list Z)%type.

Definition key_bytes (k : list Z) : list Z := pad (k ++ [0]).

(** The bytes of an entry. *)
Definition enc (e : entry) : list Z :=
  le_bytes 4 (Z.of_nat (length (key_bytes e.1) + length (pad e.2) + ENTRY)) ++
  le_bytes 4 (Z.of_nat (length (key_bytes e.1))) ++ le_bytes 4 (Z.of_nat (length (pad e.2))) ++
  key_bytes e.1 ++ pad e.2.

Definition enc_all (es : list entry) : list Z := mjoin (enc <$> es).

(** A name is a string with a known prefix and a value of its kind. *)
Record good (e : entry) : Prop := {
  good_chars : Forall (fun c => c <> 0) e.1;
  good_length : (length e.1 <= 126)%nat;
  good_kind : exists k, kind_of e.1 = Some k /\ length e.2 = value_bytes k
}.

Lemma AlignN_bounds n : (n <= AlignN n < n + 8)%nat.
Proof.
  unfold AlignN. pose proof (Nat.div_mod (n + 8 - 1) 8 ltac:(lia)) as E.
  pose proof (Nat.mod_upper_bound (n + 8 - 1) 8 ltac:(lia)). lia.
Qed.

Lemma pad_length l : length (pad l) = AlignN (length l).
Proof. unfold pad. rewrite length_app, length_replicate. pose proof (AlignN_bounds (length l)). lia. Qed.

Lemma key_bytes_length k : length (key_bytes k) = AlignN (length k + 1).
Proof. unfold key_bytes. rewrite pad_length, length_app. done. Qed.

Lemma enc_length e : length (enc e) = (length (key_bytes e.1) + length (pad e.2) + ENTRY)%nat.
Proof. unfold enc. rewrite !length_app, !le_bytes_length. unfold ENTRY. lia. Qed.

Lemma enc_all_app es1 es2 : enc_all (es1 ++ es2) = enc_all es1 ++ enc_all es2.
Proof. unfold enc_all. by rewrite fmap_app, join_app. Qed.

Lemma enc_all_one e : enc_all [e] = enc e.
Proof. unfold enc_all. cbn. by rewrite app_nil_r. Qed.

(** The string at the beginning of a padded name. *)
Lemma c_string_key k post : Forall (fun c => c <> 0) k -> c_string (key_bytes k ++ post) = Some k.
Proof.
  intros H. unfold key_bytes, pad. rewrite <- !app_assoc. cbn [app].
  generalize (replicate (AlignN (length (k ++ [0])) - length (k ++ [0])) 0 ++ post). intros rest.
  induction H as [|c k Hc _ IH]; cbn [app c_string]; [done|]. destruct (Z.eqb_spec c 0); [done|]. by rewrite IH.
Qed.

Lemma key_bytes_inj k k' : Forall (fun c => c <> 0) k -> Forall (fun c => c <> 0) k' -> key_bytes k = key_bytes k' -> k = k'.
Proof.
  intros H H' E. pose proof (c_string_key k [] H) as C. rewrite E, c_string_key in C by done. congruence.
Qed.

Lemma value_bytes_pos k : (8 <= value_bytes k <= 136)%nat.
Proof. destruct k; cbn; lia. Qed.

(** The parts of an entry are small numbers. *)
Lemma good_sizes e : good e -> (0 < length (key_bytes e.1) <= 134)%nat /\ (0 < length (pad e.2) <= 143)%nat.
Proof.
  intros [_ Hl (k & _ & Hv)]. rewrite key_bytes_length, pad_length.
  pose proof (AlignN_bounds (length e.1 + 1)). pose proof (AlignN_bounds (length e.2)). pose proof (value_bytes_pos k). lia.
Qed.

(** ** Reading fields *)

Lemma read_u32_at pre x post off : off = length pre -> (x < Z.to_nat 100000)%nat ->
  read_u32 (pre ++ le_bytes 4 (Z.of_nat x) ++ post) off = Some x.
Proof.
  intros -> Hx. unfold read_u32. rewrite read_at_app by (rewrite ?le_bytes_length; done). cbn [fmap option_fmap option_map].
  rewrite le_value_bytes by (cbn; lia). by rewrite Nat2Z.id.
Qed.

Lemma total_size_at pre e post : good e -> total_size (pre ++ enc e ++ post) (length pre) = Some (length (enc e)).
Proof.
  intros H. unfold total_size. rewrite enc_length. unfold enc. rewrite <- !app_assoc. apply read_u32_at; [done|].
  pose proof (good_sizes _ H). unfold ENTRY. lia.
Qed.

Lemma key_size_at pre e post : good e -> key_size (pre ++ enc e ++ post) (length pre) = Some (length (key_bytes e.1)).
Proof.
  intros H. unfold key_size, enc. rewrite <- !app_assoc, (app_assoc pre). apply read_u32_at.
  - rewrite length_app, le_bytes_length. lia.
  - pose proof (good_sizes _ H). lia.
Qed.

Lemma in_use_at pre e post : good e -> in_use (pre ++ enc e ++ post) (length pre) = Some true.
Proof.
  intros H. unfold in_use. rewrite key_size_at, total_size_at by done. cbn [mbind option_bind].
  pose proof (good_sizes _ H). rewrite enc_length. unfold ENTRY.
  by rewrite (proj2 (Nat.eqb_neq _ 0)), (proj2 (Nat.eqb_neq _ 0)) by lia.
Qed.

Lemma Value_at pre e post : good e ->
  Value (pre ++ enc e ++ post) (length pre) = Some (length pre + ENTRY + length (key_bytes e.1))%nat.
Proof. intros H. unfold Value. by rewrite key_size_at. Qed.

Lemma read_key_at pre e post : good e ->
  read_at (Key (length pre)) (length (key_bytes e.1)) (pre ++ enc e ++ post) = Some (key_bytes e.1).
Proof.
  intros H. unfold enc, Key. rewrite <- !app_assoc, (app_assoc pre), (app_assoc (pre ++ _)), (app_assoc ((pre ++ _) ++ _)).
  apply read_at_app; [|done]. rewrite !length_app, !le_bytes_length. unfold ENTRY. lia.
Qed.

(** The zeros behind the entries. *)
Lemma read_u32_zero pre r off d : off = (length pre + d)%nat -> (d + 4 <= r)%nat -> read_u32 (pre ++ replicate r 0) off = Some O.
Proof.
  intros -> H. unfold read_u32.
  replace (pre ++ replicate r 0) with ((pre ++ replicate d 0) ++ replicate 4 0 ++ replicate (r - d - 4) 0).
  - rewrite read_at_app; [done | | done]. by rewrite length_app, length_replicate.
  - rewrite <- app_assoc, <- !replicate_add. do 2 f_equal. lia.
Qed.

Lemma key_size_zero pre r : (8 <= r)%nat -> key_size (pre ++ replicate r 0) (length pre) = Some O.
Proof. intros H. apply (read_u32_zero _ _ _ 4); lia. Qed.

Lemma in_use_zero pre r : (8 <= r)%nat -> in_use (pre ++ replicate r 0) (length pre) = Some false.
Proof.
  intros H. unfold in_use, total_size. rewrite key_size_zero by lia. rewrite (read_u32_zero _ _ _ 0) by lia. done.
Qed.

(** ** Finding and appending *)

Lemma Next_at pre e post : good e -> Next (pre ++ enc e ++ post) (Some (length pre)) = Some (length (pre ++ enc e)).
Proof. intros H. unfold Next. rewrite total_size_at by done. cbn [fmap option_fmap option_map]. by rewrite length_app. Qed.

Lemma find_loop_hit pre e post f : good e -> find_loop (S f) (pre ++ enc e ++ post) (key_bytes e.1) (length pre) = Some (length pre).
Proof.
  intros H. cbn [find_loop]. rewrite in_use_at by done. cbn [mbind option_bind]. rewrite key_size_at by done.
  cbn [mbind option_bind]. rewrite Nat.eqb_refl, read_key_at by done. cbn [mbind option_bind]. by rewrite decide_True.
Qed.

Lemma find_loop_skip pre e post f k : good e -> Forall (fun c => c <> 0) k -> e.1 <> k ->
  find_loop (S f) (pre ++ enc e ++ post) (key_bytes k) (length pre) =
  find_loop f (pre ++ enc e ++ post) (key_bytes k) (length (pre ++ enc e)).
Proof.
  intros H Hk Hne. cbn [find_loop]. rewrite in_use_at by done. cbn [mbind option_bind]. rewrite key_size_at by done.
  cbn [mbind option_bind]. rewrite Next_at by done. case_match eqn:El; [|done]. apply Nat.eqb_eq in El.
  rewrite read_key_at by done. cbn [mbind option_bind]. rewrite decide_False; [done|].
  intros E. apply Hne, key_bytes_inj; [apply H | done | done].
Qed.

Lemma find_loop_prefix es : forall pre post f k, Forall good es -> Forall (fun c => c <> 0) k -> k ∉ es.*1 ->
  find_loop (length es + f) (pre ++ enc_all es ++ post) (key_bytes k) (length pre) =
  find_loop f (pre ++ enc_all es ++ post) (key_bytes k) (length (pre ++ enc_all es)).
Proof.
  induction es as [|e es IH]; intros pre post f k Hg Hk Hn; [cbn; by rewrite app_nil_r|].
  apply list.Forall_cons in Hg as [He Hg]. cbn in Hn. apply not_elem_of_cons in Hn as [Hne Hn].
  change (enc_all (e :: es)) with (enc e ++ enc_all es). cbn [length Nat.add]. rewrite <- app_assoc.
  rewrite find_loop_skip by (done || congruence). rewrite (app_assoc pre). rewrite IH by done. by rewrite <- !app_assoc.
Qed.

Lemma end_loop_prefix es : forall pre post f, Forall good es ->
  end_loop (length es + f) (pre ++ enc_all es ++ post) (length pre) =
  end_loop f (pre ++ enc_all es ++ post) (length (pre ++ enc_all es)).
Proof.
  induction es as [|e es IH]; intros pre post f Hg; [cbn; by rewrite app_nil_r|].
  apply list.Forall_cons in Hg as [He Hg]. change (enc_all (e :: es)) with (enc e ++ enc_all es).
  cbn [length Nat.add end_loop]. rewrite <- app_assoc, in_use_at by done. cbn [mbind option_bind].
  rewrite Next_at by done. cbn [mbind option_bind]. rewrite (app_assoc pre), IH by done. by rewrite <- !app_assoc.
Qed.

Lemma enc_all_length es : (length es <= length (enc_all es))%nat.
Proof.
  induction es as [|e es IH]; [cbn; lia|]. change (enc_all (e :: es)) with (enc e ++ enc_all es).
  rewrite length_app, enc_length. unfold ENTRY. cbn. lia.
Qed.

(** The loops start with enough fuel. *)
Lemma fuel_enough es post : exists f, S (length (enc_all es ++ post)) = (length es + S f)%nat.
Proof. exists (length (enc_all es ++ post) - length es)%nat. pose proof (enc_all_length es). rewrite length_app. lia. Qed.

Lemma Find_present es1 e es2 post : Forall good (es1 ++ e :: es2) -> NoDup (es1 ++ e :: es2).*1 ->
  Find (enc_all (es1 ++ e :: es2) ++ post) (e.1 ++ [0]) = Some (Some (length (enc_all es1))).
Proof.
  intros Hg Hn. unfold Find. cbn [Next mbind option_bind]. fold (key_bytes e.1).
  rewrite Forall_app in Hg. destruct Hg as [Hg1 Hg2]. apply list.Forall_cons in Hg2 as [He Hg2].
  rewrite enc_all_app. change (enc_all (e :: es2)) with (enc e ++ enc_all es2). rewrite <- !app_assoc.
  destruct (fuel_enough es1 (enc e ++ enc_all es2 ++ post)) as [f ->].
  assert (e.1 ∉ es1.*1) as Hne.
  { rewrite fmap_app in Hn. apply list.NoDup_app in Hn as (_ & Hd & _). intros Hin. apply (Hd _ Hin). left. }
  pose proof (find_loop_prefix es1 [] (enc e ++ enc_all es2 ++ post) (S f) e.1 Hg1 (good_chars _ He) Hne) as E.
  cbn [app length] in E. rewrite E, find_loop_hit by done. cbn [mbind option_bind]. rewrite key_size_at by done.
  cbn [mbind option_bind]. pose proof (good_sizes _ He). by rewrite (proj2 (Nat.eqb_neq _ 0)) by lia.
Qed.

Lemma Find_absent es k r : Forall good es -> Forall (fun c => c <> 0) k -> k ∉ es.*1 -> (8 <= r)%nat ->
  Find (enc_all es ++ replicate r 0) (k ++ [0]) = Some None.
Proof.
  intros Hg Hk Hn Hr. unfold Find. cbn [Next mbind option_bind]. fold (key_bytes k).
  destruct (fuel_enough es (replicate r 0)) as [f ->].
  pose proof (find_loop_prefix es [] (replicate r 0) (S f) k Hg Hk Hn) as E. cbn [app length] in E. rewrite E.
  cbn [find_loop]. rewrite in_use_zero by done. cbn [mbind option_bind]. by rewrite key_size_zero.
Qed.

Lemma end_loop_end es r : Forall good es -> (8 <= r)%nat ->
  end_loop (S (length (enc_all es ++ replicate r 0))) (enc_all es ++ replicate r 0) 0 = Some (length (enc_all es)).
Proof.
  intros Hg Hr. destruct (fuel_enough es (replicate r 0)) as [f ->].
  pose proof (end_loop_prefix es [] (replicate r 0) (S f) Hg) as E. cbn [app length] in E. rewrite E.
  cbn [end_loop]. by rewrite in_use_zero.
Qed.

Lemma write_at_app pre old data post off : off = length pre -> length old = length data ->
  write_at off data (pre ++ old ++ post) = Some (pre ++ data ++ post).
Proof.
  intros -> H. rewrite write_at_Some by (rewrite !length_app; lia).
  by rewrite take_app_length, <- H, <- length_app, (app_assoc pre old), drop_app_length.
Qed.

(** The stores of a new entry into the zeros. *)
Lemma write_entry_zeros pre k v r : good (k, v) -> (length (enc (k, v)) <= r)%nat ->
  write_entry (pre ++ replicate r 0) (k ++ [0]) v (length pre) =
    Some (pre ++ enc (k, v) ++ replicate (r - length (enc (k, v))) 0).
Proof.
  intros Hg Hr. pose proof (good_sizes _ Hg) as [Hks Hvs]. cbn [fst snd] in Hks, Hvs.
  pose proof (enc_length (k, v)) as El. cbn [fst snd] in El. remember (k ++ [0]) as k0 eqn:Ek0.
  assert (key_bytes k = pad k0) as Ekb by (by rewrite Ek0). rewrite Ekb in *.
  remember (r - length (enc (k, v)))%nat as rest eqn:Erest.
  assert (replicate r 0 = replicate 4 0 ++ replicate 4 0 ++ replicate 4 0 ++
    (replicate (length k0) 0 ++ replicate (AlignN (length k0) - length k0) 0) ++
    (replicate (length v) 0 ++ replicate (AlignN (length v) - length v) 0) ++ replicate rest 0) as ->.
  { rewrite <- !replicate_add. f_equal. rewrite !pad_length in *.
    pose proof (AlignN_bounds (length k0)). pose proof (AlignN_bounds (length v)). unfold ENTRY in *. lia. }
  unfold write_entry, write_u32. rewrite <- !pad_length.
  generalize (replicate (length v) 0) (length_replicate (length v) 0). intros zv Hzv.
  generalize (replicate (length k0) 0) (length_replicate (length k0) 0). intros zk Hzk.
  remember (length (pad k0)) as kb eqn:Hkb. remember (length (pad v)) as vb eqn:Hvb.
  rewrite <- !app_assoc. rewrite (app_assoc pre (replicate 4 0)).
  rewrite write_at_app by (rewrite ?length_app, ?length_replicate, ?le_bytes_length; cbn; lia). cbn [mbind option_bind].
  rewrite (app_assoc (pre ++ _)).
  rewrite write_at_app by (rewrite ?length_app, ?length_replicate, ?le_bytes_length; cbn; lia). cbn [mbind option_bind].
  rewrite (app_assoc ((pre ++ _) ++ _)). unfold Key, ENTRY.
  rewrite (write_at_app _ zk k0) by (rewrite ?length_app, ?length_replicate, ?le_bytes_length in *; cbn in *; lia). cbn [mbind option_bind].
  assert (forall tail, key_size ((((pre ++ replicate 4 0) ++ le_bytes 4 (Z.of_nat kb)) ++ le_bytes 4 (Z.of_nat vb)) ++ tail) (length pre) = Some kb) as Hk.
  { intros tail. unfold key_size. rewrite <- (app_assoc _ _ tail), <- (app_assoc _ _ (_ ++ tail)).
    apply read_u32_at; [rewrite length_app, length_replicate; lia | lia]. }
  assert (forall tail, value_size ((((pre ++ replicate 4 0) ++ le_bytes 4 (Z.of_nat kb)) ++ le_bytes 4 (Z.of_nat vb)) ++ tail) (length pre) = Some vb) as Hv.
  { intros tail. unfold value_size. rewrite <- (app_assoc _ _ tail).
    apply read_u32_at; [rewrite !length_app, le_bytes_length, length_replicate; lia | lia]. }
  unfold Value. rewrite Hk. cbn [fmap option_fmap option_map mbind option_bind].
  rewrite (app_assoc k0). assert (k0 ++ replicate (kb - length k0) 0 = pad k0) as -> by (by rewrite Hkb, pad_length).
  rewrite (app_assoc _ (pad k0)).
  rewrite (write_at_app _ zv v) by (rewrite ?length_app, ?length_replicate, ?le_bytes_length in *; cbn in *; unfold ENTRY; lia). cbn [mbind option_bind].
  rewrite <- (app_assoc _ (pad k0)), Hk. cbn [mbind option_bind]. rewrite Hv. cbn [mbind option_bind].
  rewrite (app_assoc v). assert (v ++ replicate (vb - length v) 0 = pad v) as -> by (by rewrite Hvb, pad_length).
  rewrite <- !app_assoc.
  rewrite write_at_app by (rewrite ?length_replicate, ?le_bytes_length; done). unfold enc. cbn [fst snd]. rewrite Ekb, <- Hkb, <- Hvb. by rewrite <- !app_assoc.
Qed.

(** The list represents the entries, with room for the end mark. *)
Record Rep (l : RawMMapList) (es : list entry) : Prop := {
  rep_area : exists r, (ENTRY <= r)%nat /\ area l = enc_all es ++ replicate r 0;
  rep_good : Forall good es;
  rep_keys : NoDup es.*1;
  rep_size : size (list_header l) = Z.of_nat (length (enc_all es));
  rep_max : Z.of_nat (length (area l)) <= max_size (list_header l) < 2 ^ 32
}.

Lemma AddEntry_present l es1 e es2 v : Rep l (es1 ++ e :: es2) ->
  AddEntry (e.1 ++ [0]) v l = Done (length (enc_all es1)) l.
Proof.
  intros [(r & _ & E) Hg Hn _ _]. unfold AddEntry. rewrite E, Find_present by done. done.
Qed.

Lemma AddEntry_absent l es k v : Rep l es -> good (k, v) -> k ∉ es.*1 ->
  (length (enc_all (es ++ [(k, v)])) + ENTRY <= length (area l))%nat ->
  exists l', AddEntry (k ++ [0]) v l = Done (length (enc_all es)) l' /\ Rep l' (es ++ [(k, v)]) /\ length (area l') = length (area l).
Proof.
  intros [(r & Hr & E) Hg Hn Hs Hm] Hkv Hk Hroom. unfold AddEntry. rewrite E in *.
  rewrite enc_all_app, enc_all_one in Hroom. rewrite !length_app, ?length_replicate in Hroom. rewrite !length_app, length_replicate in Hm.
  rewrite Find_absent by (done || apply Hkv || unfold ENTRY in Hr; lia). cbn [Next mbind option_bind].
  rewrite end_loop_end by (done || unfold ENTRY in Hr; lia).
  cbn [mbind option_bind]. rewrite write_entry_zeros by (done || lia). cbn [mbind option_bind].
  rewrite total_size_at by done. cbn [mbind option_bind]. rewrite Hs, wrap_small by (unfold uint; lia).
  rewrite (proj2 (Z.leb_le _ _)) by lia. eexists. split; [reflexivity|]. split; [split|]; cbn [area list_header size max_size].
  - exists (r - length (enc (k, v)))%nat. split; [lia|]. by rewrite enc_all_app, enc_all_one, <- app_assoc.
  - apply Forall_app. split; [done | by constructor].
  - rewrite fmap_app. apply list.NoDup_app. split; [done|]. cbn. split; [|apply NoDup_singleton].
    intros x Hx ->%list_elem_of_singleton. done.
  - rewrite enc_all_app, enc_all_one, length_app. lia.
  - rewrite !length_app, length_replicate. lia.
  - rewrite ?E, !length_app, !length_replicate. lia.
Qed.

Lemma write_at_None data : forall off mem, data <> [] -> (length mem < off + length data)%nat -> write_at off data mem = None.
Proof.
  induction data as [|b data IH]; intros off mem Hd H; [done|]. cbn [write_at length] in *. unfold poke.
  destruct (Nat.ltb_spec off (length mem)); [|done]. cbn [mbind option_bind]. apply IH; [|rewrite length_insert; lia].
  intros ->. cbn in H. lia.
Qed.

(** An entry that does not fit is written outside the mapping: the size is only
    checked afterwards. *)
Lemma AddEntry_full l es k v r : area l = enc_all es ++ replicate r 0 -> (ENTRY <= r)%nat -> Forall good es -> good (k, v) -> k ∉ es.*1 ->
  (r < ENTRY + (length k + 1))%nat -> AddEntry (k ++ [0]) v l = Fault.
Proof.
  intros E Hr Hg Hkv Hk Hfull. unfold AddEntry. rewrite E in *.
  rewrite Find_absent by (done || apply Hkv || unfold ENTRY in Hr; lia). cbn [Next mbind option_bind].
  rewrite end_loop_end by (done || unfold ENTRY in Hr; lia). cbn [mbind option_bind].
  unfold write_entry, write_u32, Key. unfold ENTRY in Hr, Hfull.
  rewrite write_at_Some by (rewrite le_bytes_length, length_app, length_replicate; lia). cbn [mbind option_bind].
  rewrite write_at_Some. 2: { repeat rewrite ?length_app, ?length_take, ?length_drop, ?le_bytes_length, ?length_replicate. lia. }
  cbn [mbind option_bind]. rewrite write_at_None; [done | by destruct k|].
  repeat rewrite ?length_app, ?length_take, ?length_drop, ?le_bytes_length, ?length_replicate. unfold ENTRY. cbn. lia.
Qed.

(** ** Updates stay in their cell *)

Definition in_cell (n : nat) (u : update) : Prop :=
  match u with FetchAdd f w _ | StoreField f w _ => (f + w <= n)%nat end.

Lemma apply_update_local pre v post u : in_cell (length v) u ->
  exists v', apply_update 0 v u = Some v' /\ length v' = length v /\
    apply_update (length pre) (pre ++ v ++ post) u = Some (pre ++ v' ++ post).
Proof.
  intros Hu.
  assert (forall f w d, (f + w <= length v)%nat -> length d = w -> exists v', write_at f d v = Some v' /\ length v' = length v /\
      write_at (length pre + f) d (pre ++ v ++ post) = Some (pre ++ v' ++ post)) as Hw.
  { intros f w d Hf Hd. exists (take f v ++ d ++ drop (f + w) v). rewrite write_at_Some, Hd by lia. split; [done|].
    split; [rewrite !length_app, length_take, length_drop; lia|].
    rewrite <- (take_drop f v) at 1. rewrite <- (take_drop w (drop f v)) at 1. rewrite drop_drop.
    rewrite <- !app_assoc, (app_assoc pre). rewrite write_at_app.
    - by rewrite <- !app_assoc.
    - rewrite length_app, length_take. lia.
    - rewrite length_take, length_drop. lia. }
  destruct u as [f w n|f w x]; cbn in Hu |- *; [|apply (Hw f w); [done | apply le_bytes_length]].
  assert (read_at (length pre + f) w (pre ++ v ++ post) = read_at f w v) as ->.
  { unfold read_at. rewrite (proj2 (Nat.leb_le _ _)) by (rewrite !length_app; lia). rewrite (proj2 (Nat.leb_le _ _)) by lia.
    f_equal. rewrite drop_app_ge by lia. replace (length pre + f - length pre)%nat with f by lia.
    rewrite drop_app_le by lia. rewrite take_app_le; [done|]. rewrite length_drop. lia. }
  unfold read_at. rewrite (proj2 (Nat.leb_le _ _)) by lia. cbn [mbind option_bind]. apply (Hw f w); [done | apply le_bytes_length].
Qed.

Lemma apply_updates_local us : forall pre v post, Forall (in_cell (length v)) us ->
  exists v', apply_updates 0 us v = Some v' /\ length v' = length v /\
    apply_updates (length pre) us (pre ++ v ++ post) = Some (pre ++ v' ++ post).
Proof.
  induction us as [|u us IH]; intros pre v post Hus; [by exists v|]. apply list.Forall_cons in Hus as [Hu Hus].
  cbn [apply_updates]. destruct (apply_update_local pre v post u Hu) as (v1 & -> & Hl & ->). cbn [mbind option_bind].
  rewrite <- Hl in Hus. destruct (IH pre v1 post Hus) as (v' & E & Hl' & E'). exists v'. split; [done|]. split; [congruence | done].
Qed.

(** The updates of a kind stay in a value of the kind. *)
Definition updates_of (k : kind) (us : list update) : Prop := Forall (in_cell (value_bytes k)) us.

Ltac all_in_cell :=
  repeat match goal with
         | |- Forall _ (_ :: _) => constructor; [cbn; lia|]
         | |- Forall _ [] => constructor
         end.

Lemma CounterUpdater_in_cell n : updates_of Counter (CounterUpdater n).
Proof. unfold updates_of, CounterUpdater. all_in_cell. Qed.

Lemma time_slot_bounds t : 0 <= t -> 0 <= time_slot t <= 9.
Proof.
  intros H. unfold time_slot, kTimerMonitorStatusTimeSlice, kTimerMonitorStatusTimeSlot.
  pose proof (Z.div_pos t 500 H ltac:(lia)). destruct (Z.leb_spec 10 (t / 500)); lia.
Qed.

Lemma TimerCounterUpdater_in_cell t c : updates_of Timer (TimerCounterUpdater t c).
Proof.
  unfold updates_of, TimerCounterUpdater. pose proof (time_slot_bounds (wrap 32 t)) as Hs.
  pose proof (uint_wrap 32 t ltac:(lia)) as [Ht _]. specialize (Hs Ht).
  apply Forall_app. split; [all_in_cell|]. repeat case_match; all_in_cell.
Qed.

Lemma BinaryCounterUpdater_in_cell f : updates_of Binary (BinaryCounterUpdater f).
Proof. unfold updates_of, BinaryCounterUpdater. case_match; all_in_cell. Qed.

(** ** The abstract counters *)

Definition updated (us : list update) (v : list Z) : list Z := default v (apply_updates 0 us v).

(** The value of a name is updated; a new name starts with zeros. *)
Fixpoint touch (key : list Z) (k : kind) (us : list update) (es : list entry) : list entry :=
  match es with
  | [] => [(key, updated us (replicate (value_bytes k) 0))]
  | e :: es => if decide (e.1 = key) then (key, updated us e.2) :: es else e :: touch key k us es
  end.

(** The place of the value of a name. *)
Fixpoint cell (es : list entry) (key : list Z) : option nat :=
  match es with
  | [] => None
  | e :: es => if decide (e.1 = key) then Some (ENTRY + length (key_bytes key))%nat else (fun c => length (enc e) + c)%nat <$> cell es key
  end.

Lemma updated_length us v : Forall (in_cell (length v)) us -> length (updated us v) = length v.
Proof. intros H. unfold updated. destruct (apply_updates_local us [] v [] H) as (v' & -> & Hl & _). done. Qed.

Lemma cell_split es key c : cell es key = Some c ->
  exists es1 v es2, es = es1 ++ (key, v) :: es2 /\ key ∉ es1.*1 /\ c = (length (enc_all es1) + ENTRY + length (key_bytes key))%nat.
Proof.
  revert c. induction es as [|[k v] es IH]; intros c H; cbn [cell fst] in H; [done|]. case_decide as Hk.
  - subst. exists [], v, es. split; [done|]. split; [apply not_elem_of_nil|]. cbn. by simplify_eq.
  - destruct (cell es key) as [d|]; [|done]. destruct (IH d eq_refl) as (es1 & w & es2 & -> & Hn & Hd). exists ((k, v) :: es1), w, es2.
    split; [done|]. split; [cbn; apply not_elem_of_cons; by split; [congruence|]|].
    change (enc_all ((k, v) :: es1)) with (enc (k, v) ++ enc_all es1). rewrite length_app. cbn [fmap option_fmap option_map] in H. apply (inj Some) in H. lia.
Qed.

Lemma cell_None es key : cell es key = None -> key ∉ es.*1.
Proof.
  induction es as [|[k v] es IH]; cbn [cell fst]; intros H; [apply not_elem_of_nil|]. case_decide as Hk; [done|].
  destruct (cell es key); [done|]. cbn. apply not_elem_of_cons. split; [congruence | by apply IH].
Qed.

Lemma touch_present es1 key v es2 k us : key ∉ es1.*1 ->
  touch key k us (es1 ++ (key, v) :: es2) = es1 ++ (key, updated us v) :: es2.
Proof.
  induction es1 as [|e es1 IH]; intros H; cbn [touch app].
  - by rewrite decide_True.
  - cbn in H. apply not_elem_of_cons in H as [He H]. rewrite decide_False by congruence. by rewrite IH.
Qed.

Lemma touch_absent es key k us : key ∉ es.*1 -> touch key k us es = es ++ [(key, updated us (replicate (value_bytes k) 0))].
Proof.
  induction es as [|e es IH]; intros H; cbn [touch app]; [done|].
  cbn in H. apply not_elem_of_cons in H as [He H]. rewrite decide_False by congruence. by rewrite IH.
Qed.

Lemma cell_present es1 key v es2 : key ∉ es1.*1 ->
  cell (es1 ++ (key, v) :: es2) key = Some (length (enc_all es1) + ENTRY + length (key_bytes key))%nat.
Proof.
  induction es1 as [|e es1 IH]; intros H; cbn [cell app fst].
  - by rewrite decide_True.
  - cbn in H. apply not_elem_of_cons in H as [He H]. rewrite decide_False by congruence. rewrite IH by done.
    change (enc_all (e :: es1)) with (enc e ++ enc_all es1). rewrite length_app. cbn. f_equal. lia.
Qed.

(** The values of a name keep their length. *)
Definition sized (k : kind) (key : list Z) (es : list entry) : Prop := forall v, (key, v) ∈ es -> length v = value_bytes k.

Lemma enc_size k v v' : length v = length v' -> length (enc (k, v)) = length (enc (k, v')).
Proof. intros H. rewrite !enc_length. cbn [fst snd]. by rewrite !pad_length, H. Qed.

(** Cells do not move. *)
Lemma cell_touch es key k us key' c : updates_of k us -> sized k key es -> cell es key' = Some c -> cell (touch key k us es) key' = Some c.
Proof.
  intros Hu. revert c. induction es as [|[q v] es IH]; intros c Hs H; cbn [cell touch fst snd] in *; [done|].
  assert (sized k key es) as Hs' by (intros w Hw; apply Hs; by right).
  destruct (decide (q = key)) as [->|Hq]; cbn [cell fst]; [|].
  - case_decide; [done|]. destruct (cell es key'); [|done]. rewrite <- H. cbn [fmap option_fmap option_map].
    rewrite (enc_size key (updated us v) v); [done|]. apply updated_length. rewrite (Hs v) by left. done.
  - case_decide; [done|]. destruct (cell es key') as [d|]; [|done]. by rewrite (IH d).
Qed.

Lemma touch_keys key k us es : (touch key k us es).*1 = if decide (key ∈ es.*1) then es.*1 else es.*1 ++ [key].
Proof.
  case_decide as Hin.
  - induction es as [|e es IH]; [by apply not_elem_of_nil in Hin|]. cbn [touch]. destruct (decide (e.1 = key)) as [<-|Hne]; [done|].
    cbn. f_equal. apply IH. cbn in Hin. apply elem_of_cons in Hin as [->|?]; done.
  - rewrite touch_absent by done. by rewrite fmap_app.
Qed.

(** ** Names *)

Lemma kind_of_counter_name k mo ke : kind_of (counter_name k mo ke) = Some k.
Proof. by destruct k. Qed.

Lemma good_counter_name k mo ke v : Forall (fun c => c <> 0) mo -> Forall (fun c => c <> 0) ke -> length v = value_bytes k ->
  good (counter_name k mo ke, v).
Proof.
  intros Hm Hk Hv. split; cbn [fst snd].
  - unfold counter_name. apply Forall_take. rewrite !Forall_app. split; [destruct k; by repeat constructor|].
    split; [done|]. split; [by repeat constructor | done].
  - unfold counter_name. rewrite length_take. lia.
  - exists k. by rewrite kind_of_counter_name.
Qed.

Lemma good_sized k key es : Forall good es -> kind_of key = Some k -> sized k key es.
Proof.
  intros Hg Hk v Hv. rewrite list.Forall_forall in Hg. destruct (Hg _ Hv) as [_ _ (k' & Hk' & Hl)]. cbn in *. congruence.
Qed.

(** ** The operations of a process *)

(** The cache of a process knows cells of the list. *)
Definition CacheOk (p : MonitorStatusImpl) (es : list entry) : Prop :=
  forall k, length (cache_map (cache_of k p)) = MAX_CACHE_SIZE /\
    forall key c, current_map (cache_of k p) !! key = Some c -> cell es key = Some c.

Lemma CacheOk_new es : CacheOk new_MonitorStatusImpl es.
Proof.
  intros k. replace (cache_of k new_MonitorStatusImpl) with new_cache by (by destruct k). split; [done|].
  intros key c. cbn. by rewrite lookup_empty.
Qed.

Lemma CacheOk_touch p es key k us : CacheOk p es -> updates_of k us -> sized k key es -> CacheOk p (touch key k us es).
Proof.
  intros H Hu Hs k'. destruct (H k') as [Hl Hc]. split; [done|]. intros q c Hq. apply cell_touch; auto.
Qed.

Lemma current_map_extend key v c q : length (cache_map c) = MAX_CACHE_SIZE -> current_map c !! key = None ->
  current_map (extend_cache key v c) !! q = <[key := v]> (current_map c) !! q.
Proof.
  intros Hl H. unfold extend_cache. rewrite H. unfold current_map at 1. cbn [cache_map cache_map_index].
  rewrite list_lookup_insert_eq; [done|]. rewrite Hl. apply Nat.mod_upper_bound. done.
Qed.

Lemma CacheOk_extend p es k key c : CacheOk p es -> current_map (cache_of k p) !! key = None -> cell es key = Some c ->
  CacheOk (set_cache k (extend_cache key c (cache_of k p)) p) es.
Proof.
  intros H Hn Hc k'. destruct (H k') as [Hl Hk']. destruct (H k) as [Hlk Hk].
  destruct (decide (k = k')) as [<-|Hne].
  2: { replace (cache_of k' (set_cache k (extend_cache key c (cache_of k p)) p)) with (cache_of k' p) by (by destruct k, k'). done. }
  replace (cache_of k (set_cache k (extend_cache key c (cache_of k p)) p)) with (extend_cache key c (cache_of k p)) by (by destruct k).
  split; [unfold extend_cache; rewrite Hn; cbn; by rewrite length_insert|].
  intros q d. rewrite current_map_extend by done. rewrite lookup_insert_Some. intros [[<- <-]|[_ Hq]]; auto.
Qed.

Lemma updated_nil v : updated [] v = v.
Proof. done. Qed.

(** The cell of a name, which is appended when it is missing. *)
Lemma Get_correct k mo ke p l es : let key := counter_name k mo ke in
  Rep l es -> CacheOk p es -> good (key, replicate (value_bytes k) 0) ->
  (length (enc_all (touch key k [] es)) + ENTRY <= length (area l))%nat ->
  exists p' c l', Get k mo ke p l = Done (p', c) l' /\ Rep l' (touch key k [] es) /\ CacheOk p' (touch key k [] es) /\
    cell (touch key k [] es) key = Some c /\ length (area l') = length (area l).
Proof.
  intros key R C G Hroom. unfold Get. fold key.
  destruct (current_map (cache_of k p) !! key) as [c|] eqn:Hcur.
  - destruct (C k) as [_ Hc]. pose proof (Hc _ _ Hcur) as Hcell. destruct (cell_split _ _ _ Hcell) as (es1 & v & es2 & -> & Hn & ->).
    rewrite touch_present, updated_nil by done. by eexists _, _, _.
  - destruct (cell es key) as [c|] eqn:Hcell.
    + destruct (cell_split _ _ _ Hcell) as (es1 & v & es2 & -> & Hn & Hc). rewrite touch_present, updated_nil in * by done.
      rewrite (AddEntry_present _ _ (key, v) _ _ R). cbn [bind_run].
      assert (Value (area l) (length (enc_all es1)) = Some c) as ->.
      { destruct (rep_area _ _ R) as (r & _ & ->). rewrite enc_all_app. change (enc_all ((key, v) :: es2)) with (enc (key, v) ++ enc_all es2).
        rewrite <- !app_assoc, Value_at; [by rewrite Hc|]. pose proof (rep_good _ _ R) as Hg.
        rewrite Forall_app, list.Forall_cons in Hg. apply Hg. }
      eexists _, _, _. split; [done|]. split; [done|]. split; [by apply CacheOk_extend|]. done.
    + pose proof (cell_None _ _ Hcell) as Hn. assert (CacheOk p (touch key k [] es)) as C'.
      { apply CacheOk_touch; [done | constructor |]. eapply good_sized; [apply R | apply kind_of_counter_name]. }
      rewrite touch_absent, updated_nil in * by done.
      destruct (AddEntry_absent _ _ _ _ R G Hn Hroom) as (l' & E & R' & Hl). cbn in E. rewrite E. cbn [bind_run].
      pose proof (cell_present es key (replicate (value_bytes k) 0) [] Hn) as Hcell'.
      assert (Value (area l') (length (enc_all es)) = Some (length (enc_all es) + ENTRY + length (key_bytes key))%nat) as ->.
      { destruct (rep_area _ _ R') as (r & _ & ->). rewrite enc_all_app, enc_all_one, <- app_assoc. by rewrite Value_at. }
      eexists _, _, _. split; [done|]. split; [done|]. split; [by apply CacheOk_extend|]. done.
Qed.

Lemma touch_twice key k us es : touch key k us (touch key k [] es) = touch key k us es.
Proof.
  induction es as [|e es IH]; cbn [touch].
  - by rewrite decide_True.
  - case_decide as He; cbn [touch fst snd]; [by rewrite decide_True | rewrite decide_False by done; by rewrite IH].
Qed.

(** The size of the list does not depend on the updates. *)
Lemma touch_size key k us es : updates_of k us -> sized k key es -> length (enc_all (touch key k us es)) = length (enc_all (touch key k [] es)).
Proof.
  intros Hu. induction es as [|[q v] es IH]; intros Hs; cbn [touch fst snd].
  - rewrite !enc_all_one. apply enc_size. rewrite !updated_length; [done | constructor | by rewrite length_replicate].
  - destruct (decide (q = key)) as [->|Hq].
    + change (length (enc (key, updated us v) ++ enc_all es) = length (enc (key, v) ++ enc_all es)). rewrite !length_app.
      f_equal. apply enc_size, updated_length. rewrite (Hs v) by left. done.
    + change (length (enc (q, v) ++ enc_all (touch key k us es)) = length (enc (q, v) ++ enc_all (touch key k [] es))).
      rewrite !length_app, IH; [done|]. intros w Hw. apply Hs. by right.
Qed.

(** The bytes of an entry before its value. *)
Definition enc_head (k : list Z) (n : nat) : list Z :=
  le_bytes 4 (Z.of_nat (length (key_bytes k) + AlignN n + ENTRY)) ++
  le_bytes 4 (Z.of_nat (length (key_bytes k))) ++ le_bytes 4 (Z.of_nat (AlignN n)) ++ key_bytes k.

Lemma enc_split k v : enc (k, v) = enc_head k (length v) ++ v ++ replicate (AlignN (length v) - length v) 0.
Proof. unfold enc, enc_head. cbn [fst snd]. rewrite pad_length. unfold pad. by rewrite <- !app_assoc. Qed.

Lemma enc_head_length k n : length (enc_head k n) = (ENTRY + length (key_bytes k))%nat.
Proof. unfold enc_head. rewrite !length_app, !le_bytes_length. unfold ENTRY. lia. Qed.

(** An update in the middle of the list. *)
Lemma Rep_update l es1 key v es2 us : Rep l (es1 ++ (key, v) :: es2) -> Forall (in_cell (length v)) us ->
  exists mem, apply_updates (length (enc_all es1) + ENTRY + length (key_bytes key)) us (area l) = Some mem /\
    length mem = length (area l) /\ Rep (mkList (list_header l) mem) (es1 ++ (key, updated us v) :: es2).
Proof.
  intros [(r & Hr & E) Hg Hn Hs Hm] Hu. rewrite enc_all_app in E. change (enc_all ((key, v) :: es2)) with (enc (key, v) ++ enc_all es2) in E.
  rewrite enc_split, <- !app_assoc, (app_assoc (enc_all es1)) in E.
  destruct (apply_updates_local us (enc_all es1 ++ enc_head key (length v)) v
    (replicate (AlignN (length v) - length v) 0 ++ enc_all es2 ++ replicate r 0) Hu) as (v' & Ev & Hl & Em).
  rewrite length_app, enc_head_length, Nat.add_assoc, <- E in Em. rewrite Em.
  assert (updated us v = v') as -> by (unfold updated; by rewrite Ev).
  assert (length (enc (key, v')) = length (enc (key, v))) as Hle by (by apply enc_size).
  eexists. split; [done|]. split; [rewrite E, !length_app; lia|]. split; cbn [area list_header].
  - exists r. split; [done|]. rewrite enc_all_app. change (enc_all ((key, v') :: es2)) with (enc (key, v') ++ enc_all es2).
    by rewrite enc_split, Hl, <- !app_assoc.
  - rewrite Forall_app, list.Forall_cons in *. destruct Hg as (? & [Hc Hk Hv] & ?). split; [done|]. split; [|done].
    split; cbn in *; [done | done | by rewrite Hl].
  - by rewrite fmap_app in *.
  - rewrite Hs, !enc_all_app. change (enc_all ((key, v') :: es2)) with (enc (key, v') ++ enc_all es2).
    change (enc_all ((key, v) :: es2)) with (enc (key, v) ++ enc_all es2). rewrite !length_app. lia.
  - rewrite E in Hm. rewrite !length_app in *. lia.
Qed.

Lemma count_by_correct k mo ke us p l es : let key := counter_name k mo ke in
  Rep l es -> CacheOk p es -> good (key, replicate (value_bytes k) 0) -> updates_of k us ->
  (length (enc_all (touch key k us es)) + ENTRY <= length (area l))%nat ->
  exists p' l', count_by k mo ke us p l = Done p' l' /\ Rep l' (touch key k us es) /\ CacheOk p' (touch key k us es) /\
    length (area l') = length (area l).
Proof.
  intros key R C G Hu Hroom. assert (sized k key es) as Hs by (eapply good_sized; [apply R | apply kind_of_counter_name]).
  rewrite touch_size in Hroom by done.
  destruct (Get_correct k mo ke p l es R C G Hroom) as (p1 & c & l1 & E & R1 & C1 & Hc & Hl). fold key in R1, C1, Hc.
  unfold count_by. rewrite E. cbn [bind_run].
  assert (sized k key (touch key k [] es)) as Hs1 by (eapply good_sized; [apply R1 | apply kind_of_counter_name]).
  rewrite <- (touch_twice key k us es). pose proof (CacheOk_touch _ _ key k us C1 Hu Hs1) as C2.
  destruct (cell_split _ _ _ Hc) as (es1 & v & es2 & Es & Hn & ->). rewrite Es in *.
  destruct (Rep_update _ _ _ _ _ us R1) as (mem & -> & Hm & R2).
  { rewrite (Hs1 v) by (apply elem_of_app; right; left). done. }
  rewrite touch_present in * by done. exists p1, (mkList (list_header l1) mem). repeat (split; [done|]). cbn. congruence.
Qed.

(** ** Histories *)

(** The abstract effect of an operation. *)
Definition abs_step (es : list entry) (op : operation) : list entry :=
  match op with
  | CounterBy _ mo ke n => touch (counter_name Counter mo ke) Counter (CounterUpdater n) es
  | TimerBy _ mo ke t c => touch (counter_name Timer mo ke) Timer (TimerCounterUpdater t c) es
  | BinaryBy _ mo ke f => touch (counter_name Binary mo ke) Binary (BinaryCounterUpdater f) es
  | Restart _ => es
  end.
Definition abs_steps (es : list entry) (ops : list operation) : list entry := foldl abs_step es ops.

(** Names are C strings. *)
Definition named (op : operation) : Prop :=
  match op with
  | CounterBy _ mo ke _ | TimerBy _ mo ke _ _ | BinaryBy _ mo ke _ => Forall (fun c => c <> 0) mo /\ Forall (fun c => c <> 0) ke
  | Restart _ => True
  end.

(** The file represents the entries and every cache is right. *)
Definition MInv (m : machine) (es : list entry) : Prop := Rep (file m) es /\ forall pid, CacheOk (process m pid) es.

Lemma process_insert m pid p l pid' : process (mkMachine (<[pid := p]> (processes m)) l) pid' = if decide (pid' = pid) then p else process m pid'.
Proof.
  unfold process. cbn [processes]. case_decide as H; [subst; by rewrite lookup_insert_eq | by rewrite lookup_insert_ne by congruence].
Qed.

Lemma step_by_correct pid k mo ke us m es : let key := counter_name k mo ke in
  MInv m es -> Forall (fun c => c <> 0) mo -> Forall (fun c => c <> 0) ke -> updates_of k us ->
  (length (enc_all (touch key k us es)) + ENTRY <= length (area (file m)))%nat ->
  exists m', step_by pid k mo ke us m = Some m' /\ MInv m' (touch key k us es) /\ length (area (file m')) = length (area (file m)).
Proof.
  intros key [R C] Hmo Hke Hu Hroom. unfold step_by.
  assert (good (key, replicate (value_bytes k) 0)) as G by (apply good_counter_name; [done | done | apply length_replicate]).
  destruct (count_by_correct k mo ke us _ _ _ R (C pid) G Hu Hroom) as (p' & l' & -> & R' & C' & Hl).
  eexists. split; [done|]. split; [|done]. split; [done|]. intros pid'. rewrite process_insert. case_decide; [done|].
  apply CacheOk_touch; [done | done |]. eapply good_sized; [apply R | apply kind_of_counter_name].
Qed.

Lemma touch_grows key k us es : updates_of k us -> sized k key es -> (length (enc_all es) <= length (enc_all (touch key k us es)))%nat.
Proof.
  intros Hu Hs. rewrite touch_size by done. clear Hu Hs. induction es as [|e es IH]; cbn [touch]; [cbn; lia|].
  destruct (decide (e.1 = key)) as [<-|]; [by destruct e|].
  change (length (enc e ++ enc_all es) <= length (enc e ++ enc_all (touch key k [] es)))%nat. rewrite !length_app. lia.
Qed.

Lemma step_correct m es op : MInv m es -> named op -> (length (enc_all (abs_step es op)) + ENTRY <= length (area (file m)))%nat ->
  exists m', step m op = Some m' /\ MInv m' (abs_step es op) /\ length (area (file m')) = length (area (file m)).
Proof.
  intros I Hop Hroom. destruct op as [pid mo ke n|pid mo ke t c|pid mo ke f|pid]; cbn [step abs_step named] in *.
  - apply step_by_correct; try apply Hop; auto using CounterUpdater_in_cell.
  - apply step_by_correct; try apply Hop; auto using TimerCounterUpdater_in_cell.
  - apply step_by_correct; try apply Hop; auto using BinaryCounterUpdater_in_cell.
  - eexists. split; [done|]. split; [|done]. destruct I as [R C]. split; [done|]. intros pid'. unfold process. cbn [processes].
    destruct (decide (pid = pid')) as [->|Hne]; [rewrite lookup_delete_eq; apply CacheOk_new | rewrite lookup_delete_ne by done; apply C].
Qed.

Lemma touch_good key k us es : Forall good es -> good (key, replicate (value_bytes k) 0) -> updates_of k us -> kind_of key = Some k ->
  Forall good (touch key k us es).
Proof.
  intros Hg G Hu Hk.
  assert (forall v, length v = value_bytes k -> good (key, updated us v)) as Hv.
  { intros v Hv. destruct G as [Gc Gl Gk]. split; cbn [fst snd] in *; [done | done|]. exists k. split; [done|].
    rewrite updated_length; [done | by rewrite Hv]. }
  pose proof (good_sized _ _ _ Hg Hk) as Hs.
  induction Hg as [|e es He Hg IH]; cbn [touch].
  - constructor; [apply Hv, length_replicate | constructor].
  - case_decide as Hd; [|constructor; [done | apply IH; intros v Hin; apply Hs; by right]].
    constructor; [|done]. apply Hv, Hs. rewrite <- Hd. destruct e. left.
Qed.

Lemma abs_step_good es op : Forall good es -> named op -> Forall good (abs_step es op) /\ (length (enc_all es) <= length (enc_all (abs_step es op)))%nat.
Proof.
  intros Hg Hop.
  assert (forall k mo ke us, updates_of k us -> Forall (fun c => c <> 0) mo /\ Forall (fun c => c <> 0) ke ->
    Forall good (touch (counter_name k mo ke) k us es) /\
    (length (enc_all es) <= length (enc_all (touch (counter_name k mo ke) k us es)))%nat) as H.
  { intros k mo ke us Hu [Hm Hk]. pose proof (kind_of_counter_name k mo ke) as Hkind. split.
    - apply touch_good; auto using good_counter_name, length_replicate.
    - apply touch_grows; eauto using good_sized. }
  destruct op; cbn [abs_step named] in *; auto using CounterUpdater_in_cell, TimerCounterUpdater_in_cell, BinaryCounterUpdater_in_cell.
Qed.

Lemma abs_steps_grows ops : forall es, Forall good es -> Forall named ops -> (length (enc_all es) <= length (enc_all (abs_steps es ops)))%nat.
Proof.
  induction ops as [|op ops IH]; intros es Hg Hn; [done|]. apply list.Forall_cons in Hn as [Hop Hn].
  destruct (abs_step_good es op Hg Hop) as [Hg' Hle]. etransitivity; [exact Hle | by apply IH].
Qed.

(** A history acts like the abstract one as long as the file has room. *)
Lemma steps_correct ops : forall m es, MInv m es -> Forall named ops ->
  (length (enc_all (abs_steps es ops)) + ENTRY <= length (area (file m)))%nat ->
  exists m', steps m ops = Some m' /\ MInv m' (abs_steps es ops).
Proof.
  induction ops as [|op ops IH]; intros m es I Hn Hroom; cbn [steps]; [by exists m|].
  apply list.Forall_cons in Hn as [Hop Hn]. pose proof (rep_good _ _ (proj1 I)) as Hg.
  destruct (abs_step_good es op Hg Hop) as [Hg' _]. pose proof (abs_steps_grows ops _ Hg' Hn) as Hgrow.
  change (abs_steps es (op :: ops)) with (abs_steps (abs_step es op) ops) in *.
  destruct (step_correct m es op I Hop) as (m' & -> & I' & Hl); [lia|]. cbn [mbind option_bind]. apply IH; [done | done | lia].
Qed.

Lemma MInv_fresh header_size max : (header_size + ENTRY <= max)%nat -> Z.of_nat max < 2 ^ 32 ->
  MInv (mkMachine ∅ (open_list header_size max None)) [] /\ length (area (open_list header_size max None)) = (max - header_size)%nat.
Proof.
  intros Hm H32. unfold open_list, Init. cbn [from_option default list_header flag area Z.eqb negb andb]. cbn -[Z.of_nat replicate length Nat.sub].
  rewrite !length_replicate. split; [|done]. split; [split|]; cbn [file area list_header size max_size].
  - exists (max - header_size)%nat. split; [lia | done].
  - constructor.
  - constructor.
  - done.
  - rewrite length_replicate. lia.
  - intros pid. unfold process. cbn [processes]. rewrite lookup_empty. apply CacheOk_new.
Qed.

(** ** Reading all counters *)

Fixpoint lookup_name (es : list entry) (key : list Z) : option (list Z) :=
  match es with [] => None | e :: es => if decide (e.1 = key) then Some e.2 else lookup_name es key end.

Lemma kind_of_prefix key k : kind_of key = Some k -> key = PREFIX k ++ drop 2 key.
Proof.
  assert (forall a b, startsWith key [a; b] = true -> key = [a; b] ++ drop 2 key) as H.
  { intros a b Hs. apply startsWith_spec in Hs as [rest ->]. done. }
  unfold kind_of. repeat case_match; intros; simplify_eq; by apply H.
Qed.

Lemma map_of_set_map k k' x p : map_of k (set_map k' x p) = if decide (k = k') then x else map_of k p.
Proof. by destruct k, k'. Qed.

Lemma read_value_at pre e post k : good e -> kind_of e.1 = Some k ->
  read_at (length pre + ENTRY + length (key_bytes e.1)) (value_bytes k) (pre ++ enc e ++ post) = Some e.2.
Proof.
  intros [_ _ (k' & Hk' & Hl)] Hk. destruct e as [key v]. cbn [fst snd] in *. assert (k' = k) as -> by congruence.
  rewrite enc_split, <- !app_assoc, app_assoc. apply read_at_app; [|done].
  rewrite length_app, enc_head_length. lia.
Qed.

Lemma drop_key pre e post : exists post', drop (Key (length pre)) (pre ++ enc e ++ post) = key_bytes e.1 ++ post'.
Proof.
  destruct e as [key v]. unfold Key. rewrite drop_app_ge by lia. replace (length pre + ENTRY - length pre)%nat with ENTRY by lia.
  exists (pad v ++ post). unfold enc. cbn [fst snd]. rewrite !app_assoc. rewrite <- !(app_assoc _ (key_bytes key)).
  rewrite <- !app_assoc, (app_assoc (le_bytes 4 _) (le_bytes 4 _)), app_assoc.
  by rewrite drop_app_length' by (rewrite !length_app, !le_bytes_length; done).
Qed.

Lemma parse_loop_correct es : forall pre r f from p, Forall good es -> (8 <= r)%nat ->
  Next (pre ++ enc_all es ++ replicate r 0) from = Some (length pre) ->
  exists p', parse_loop (length es + S f) (pre ++ enc_all es ++ replicate r 0) from p = Some p' /\
    forall k q, map_of k p' !! q = match map_of k p !! q with Some v => Some v | None => lookup_name es (PREFIX k ++ q) end.
Proof.
  induction es as [|e es IH]; intros pre r f from p Hg Hr Hfrom.
  - cbn [length Nat.add parse_loop]. rewrite Hfrom. cbn [mbind option_bind enc_all]. change (enc_all []) with (@nil Z).
    rewrite app_nil_l, in_use_zero by done. cbn [mbind option_bind negb]. exists p. split; [done|].
    intros k q. cbn. by destruct (map_of k p !! q).
  - apply list.Forall_cons in Hg as [He Hg]. change (enc_all (e :: es)) with (enc e ++ enc_all es) in *. rewrite <- !app_assoc in *.
    cbn [length Nat.add parse_loop]. rewrite Hfrom. cbn [mbind option_bind]. rewrite in_use_at by done. cbn [mbind option_bind negb].
    destruct (drop_key pre e (enc_all es ++ replicate r 0)) as [post' ->]. rewrite c_string_key by apply He. cbn [mbind option_bind].
    destruct (good_kind _ He) as (k & Hk & _). rewrite Hk. cbn [mbind option_bind]. rewrite Value_at by done. cbn [mbind option_bind].
    rewrite (read_value_at _ _ _ _ He Hk). cbn [mbind option_bind].
    destruct (IH (pre ++ enc e) r f (Some (length pre)) (set_map k (map_insert (drop 2 e.1) e.2 (map_of k p)) p) Hg Hr) as (p' & E & Hp').
    { rewrite <- !app_assoc. by apply Next_at. }
    rewrite <- !app_assoc in E. exists p'. split; [done|]. intros k' q. rewrite Hp', map_of_set_map. cbn [lookup_name].
    pose proof (kind_of_prefix _ _ Hk) as Ekey. case_decide as Hkk; [subst k'|].
    + unfold map_insert. destruct (decide (q = drop 2 e.1)) as [->|Hq].
      * rewrite <- Ekey, (decide_True (P := e.1 = e.1)) by done. destruct (map_of k p !! drop 2 e.1) eqn:Em; [by rewrite Em | by rewrite lookup_insert_eq].
      * rewrite (decide_False (P := e.1 = _)) by (rewrite Ekey; intros E'; apply app_inv_head in E'; congruence).
        destruct (map_of k p !! drop 2 e.1); [done | by rewrite lookup_insert_ne].
    + destruct (map_of k' p !! q); [done|]. rewrite decide_False; [done|]. rewrite Ekey. destruct k, k'; cbn; congruence.
Qed.

Lemma GetAll_correct k p l es : Rep l es -> k <> Binary -> exists p' all, GetAll k ∅ p l = Some (p', all) /\
  forall q, all !! q = lookup_name es (PREFIX k ++ q).
Proof.
  intros [(r & Hr & E) Hg _ _ _] Hk. unfold GetAll, ParseCounters. rewrite E. unfold ENTRY in Hr.
  destruct (fuel_enough es (replicate r 0)) as [f ->].
  destruct (parse_loop_correct es [] r f None (set_map Timer ∅ (set_map Counter ∅ p)) Hg) as (p' & Ep & Hp'); [lia | done|].
  cbn [app] in Ep. rewrite Ep. cbn [mbind option_bind]. eexists _, _. split; [done|]. intros q. rewrite Hp'.
  destruct k; cbn; by rewrite ?lookup_empty.
Qed.

(** ** What is counted *)

Lemma lookup_touch key k us es q : lookup_name (touch key k us es) q =
  if decide (q = key) then Some (updated us (default (replicate (value_bytes k) 0) (lookup_name es key))) else lookup_name es q.
Proof.
  induction es as [|e es IH]; cbn [touch lookup_name].
  - cbn [fst snd]. repeat case_decide; subst; try done.
  - destruct (decide (e.1 = key)) as [He|He]; cbn [lookup_name fst snd].
    + destruct (decide (q = key)) as [->|Hq]; [by rewrite decide_True|]. by rewrite !decide_False by congruence.
    + rewrite IH. destruct (decide (q = key)) as [->|Hq]; [by rewrite decide_False | done].
Qed.

(** The amounts that were added to a counter. *)
Definition increment (key : list Z) (op : operation) : option Z :=
  match op with
  | CounterBy _ mo ke n => if decide (counter_name Counter mo ke = key) then Some n else None
  | _ => None
  end.
Definition increments (key : list Z) (ops : list operation) : list Z := omap (increment key) ops.

Lemma kind_of_PREFIX k q : kind_of (PREFIX k ++ q) = Some k.
Proof. by destruct k. Qed.

Lemma counter_name_kind k k' mo ke q : k <> k' -> PREFIX k' ++ q <> counter_name k mo ke.
Proof.
  intros Hk E. pose proof (kind_of_PREFIX k' q) as H. rewrite E, kind_of_counter_name in H. congruence.
Qed.

Lemma CounterUpdater_adds n x : 0 <= x < 2 ^ 64 -> updated (CounterUpdater n) (le_bytes 8 x) = le_bytes 8 (wrap 64 (x + n)).
Proof.
  intros Hx. unfold updated, CounterUpdater. cbn [apply_updates apply_update Nat.add].
  pose proof (read_at_app [] (le_bytes 8 x) [] 0 8 eq_refl) as R. rewrite app_nil_r in R. cbn [app] in R. rewrite R by (by rewrite le_bytes_length).
  cbn [mbind option_bind]. rewrite le_value_bytes by done.
  pose proof (write_at_app [] (le_bytes 8 x) (le_bytes 8 (wrap 64 (x + n))) [] 0 eq_refl) as W. rewrite !app_nil_r in W. cbn [app] in W.
  change (8 * Z.of_nat 8) with 64. rewrite W by (by rewrite !le_bytes_length). done.
Qed.

Definition sum (ns : list Z) : Z := foldr Z.add 0 ns.

Lemma sum_app a b : sum (a ++ b) = sum a + sum b.
Proof. unfold sum. induction a as [|x a IH]; cbn; [done|]. rewrite IH. lia. Qed.

(** The value of a counter: absent, or the sum of what was added to it, modulo
    2^64. *)
Definition counted (ns : list Z) : option (list Z) :=
  match ns with [] => None | _ => Some (le_bytes 8 (wrap 64 (sum ns))) end.

Lemma counted_snoc ns n : counted (ns ++ [n]) =
  Some (updated (CounterUpdater n) (default (replicate (value_bytes Counter) 0) (counted ns))).
Proof.
  transitivity (Some (le_bytes 8 (wrap 64 (sum (ns ++ [n]))))); [by destruct ns|]. f_equal.
  rewrite sum_app. change (sum [n]) with (n + 0). rewrite Z.add_0_r. destruct ns as [|n0 ns].
  - change (default _ (counted [])) with (le_bytes 8 0). by rewrite CounterUpdater_adds by lia.
  - change (default _ (counted (n0 :: ns))) with (le_bytes 8 (wrap 64 (sum (n0 :: ns)))).
    rewrite CounterUpdater_adds by (apply uint_wrap; lia). f_equal. unfold wrap. by rewrite Zplus_mod_idemp_l.
Qed.

Lemma counter_value q ops : lookup_name (abs_steps [] ops) (PREFIX Counter ++ q) =
  counted (increments (PREFIX Counter ++ q) ops).
Proof.
  set (key := PREFIX Counter ++ q). induction ops as [|op ops IH] using rev_ind; [done|].
  unfold abs_steps, increments in *. rewrite foldl_app, omap_app. cbn [foldl omap list_omap].
  destruct op as [pid mo ke n|pid mo ke t c|pid mo ke f|pid]; cbn [abs_step increment]; rewrite ?app_nil_r; [|rewrite lookup_touch..|done].
  - rewrite lookup_touch. destruct (decide (key = counter_name Counter mo ke)) as [<-|Hne].
    + rewrite decide_True by done. by rewrite IH, counted_snoc.
    + rewrite decide_False by congruence. by rewrite app_nil_r.
  - by rewrite decide_False by (by apply counter_name_kind).
  - by rewrite decide_False by (by apply counter_name_kind).
Qed.

(** ** Timers *)

(** The value of a timer as its 17 fields: the count, the time, ten slices, five
    classes of long times. *)
Definition fields (fs : list Z) : list Z := mjoin (le_bytes 8 <$> fs).

Lemma fields_length fs : length (fields fs) = (8 * length fs)%nat.
Proof.
  induction fs as [|x fs IH]; [done|]. change (fields (x :: fs)) with (le_bytes 8 x ++ fields fs).
  rewrite length_app, le_bytes_length, IH. cbn [length]. lia.
Qed.

Lemma fields_split fs i x : fs !! i = Some x -> fields fs = fields (take i fs) ++ le_bytes 8 x ++ fields (drop (S i) fs).
Proof.
  intros H. rewrite <- (take_drop_middle _ _ _ H) at 1. unfold fields. by rewrite fmap_app, join_app, fmap_cons.
Qed.

Lemma fetch_add_field fs i x n : fs !! i = Some x -> 0 <= x < 2 ^ 64 ->
  apply_update 0 (fields fs) (FetchAdd (8 * i) 8 n) = Some (fields (<[i := wrap 64 (x + n)]> fs)).
Proof.
  intros Hi Hx. pose proof (lookup_lt_Some _ _ _ Hi) as Hlt. cbn [apply_update Nat.add].
  rewrite (fields_split _ _ _ Hi).
  assert (length (fields (take i fs)) = (8 * i)%nat) as Hl by (rewrite fields_length, length_take; lia).
  rewrite read_at_app by (rewrite ?le_bytes_length; done). cbn [mbind option_bind]. rewrite le_value_bytes by done.
  change (8 * Z.of_nat 8) with 64. rewrite write_at_app by (rewrite ?le_bytes_length; done).
  rewrite (fields_split (<[i := wrap 64 (x + n)]> fs) i (wrap 64 (x + n))) by (by apply list_lookup_insert_eq).
  rewrite take_insert_ge by lia. by rewrite drop_insert_lt by lia.
Qed.

Definition slices (fs : list Z) : list Z := take 10 (drop 2 fs).

(** The slices of a timer add up to its count. *)
Definition timer_ok (fs : list Z) : Prop :=
  length fs = 17%nat /\ Forall (uint 64) fs /\ fs !! 0%nat = Some (wrap 64 (sum (slices fs))).

Lemma sum_insert l i x y : l !! i = Some x -> sum (<[i := y]> l) = sum l - x + y.
Proof.
  intros H. rewrite <- (take_drop_middle _ _ _ H) at 2. rewrite insert_take_drop by (by apply lookup_lt_Some in H).
  rewrite !sum_app. unfold sum. cbn. lia.
Qed.

Lemma slices_insert i y fs : slices (<[(2 + i)%nat := y]> fs) = if decide (i < 10)%nat then <[i := y]> (slices fs) else slices fs.
Proof.
  unfold slices. rewrite drop_insert_ge by lia. replace (2 + i - 2)%nat with i by lia. case_decide.
  - by rewrite take_insert_lt by lia.
  - by rewrite take_insert_ge by lia.
Qed.

Lemma fetch_add_ok fs i n : length fs = 17%nat -> Forall (uint 64) fs -> (i < 17)%nat -> exists x, fs !! i = Some x /\
  apply_update 0 (fields fs) (FetchAdd (8 * i) 8 n) = Some (fields (<[i := wrap 64 (x + n)]> fs)) /\
  length (<[i := wrap 64 (x + n)]> fs) = 17%nat /\ Forall (uint 64) (<[i := wrap 64 (x + n)]> fs).
Proof.
  intros Hl Hu Hi. destruct (lookup_lt_is_Some_2 fs i) as [x Hx]; [lia|]. exists x. split; [done|].
  pose proof (list_elem_of_lookup_2 _ _ _ Hx) as Hin. pose proof Hu as Hu'. rewrite list.Forall_forall in Hu'.
  split; [by apply fetch_add_field; [|apply Hu']|]. rewrite length_insert. split; [done|].
  apply Forall_insert; [done|]. apply uint_wrap. lia.
Qed.

(** An update keeps the sum. *)
Lemma TimerCounterUpdater_ok t c fs : timer_ok fs -> exists fs', apply_updates 0 (TimerCounterUpdater t c) (fields fs) = Some (fields fs') /\ timer_ok fs'.
Proof.
  intros (Hl & Hu & H0). unfold TimerCounterUpdater. set (n := wrap 32 c). set (tt := wrap 32 t).
  pose proof (time_slot_bounds tt) as Hs. pose proof (uint_wrap 32 t ltac:(lia)) as [Ht _]. specialize (Hs Ht).
  set (slot := time_slot tt) in *.
  replace (16 + 8 * Z.to_nat slot)%nat with (8 * (2 + Z.to_nat slot))%nat by lia.
  change (FetchAdd 8 8 tt) with (FetchAdd (8 * 1) 8 tt). change (FetchAdd 0 8 n) with (FetchAdd (8 * 0) 8 n). cbn [app apply_updates].
  destruct (fetch_add_ok fs 0 n Hl Hu) as (x0 & Hx0 & -> & Hl1 & Hu1); [lia|]. cbn [mbind option_bind].
  set (fs1 := <[0%nat := _]> fs) in *.
  destruct (fetch_add_ok fs1 1 tt Hl1 Hu1) as (x1 & Hx1 & -> & Hl2 & Hu2); [lia|]. cbn [mbind option_bind].
  set (fs2 := <[1%nat := _]> fs1) in *.
  destruct (fetch_add_ok fs2 (2 + Z.to_nat slot) n Hl2 Hu2) as (x2 & Hx2 & -> & Hl3 & Hu3); [lia|]. cbn [mbind option_bind].
  set (fs3 := <[(2 + _)%nat := _]> fs2) in *.
  assert (timer_ok fs3) as H3.
  { split; [done|]. split; [done|]. unfold fs3 at 2. rewrite slices_insert, decide_True by lia.
    assert (slices fs2 = slices fs) as Es by (unfold fs2, fs1, slices; by rewrite !drop_insert_lt by lia).
    rewrite Es. unfold fs3. rewrite list_lookup_insert_ne by lia. unfold fs2. rewrite list_lookup_insert_ne by lia. unfold fs1.
    rewrite list_lookup_insert_eq by lia. f_equal.
    assert (slices fs !! Z.to_nat slot = Some x2) as Hsl.
    { unfold slices. rewrite lookup_take_lt by lia. rewrite lookup_drop. rewrite <- Hx2. unfold fs2, fs1.
      by rewrite !list_lookup_insert_ne by lia. }
    rewrite (sum_insert _ _ _ _ Hsl). assert (x0 = wrap 64 (sum (slices fs))) as -> by congruence.
    unfold wrap. rewrite Zplus_mod_idemp_l. rewrite Z.add_mod_idemp_r by lia. f_equal. lia. }
  assert (forall i m, (12 <= i < 17)%nat -> exists fs', apply_updates 0 [FetchAdd (8 * i) 8 m] (fields fs3) = Some (fields fs') /\ timer_ok fs') as Hlong.
  { intros i m Hi. cbn [apply_updates]. destruct (fetch_add_ok fs3 i m Hl3 Hu3) as (x & Hx & -> & Hl4 & Hu4); [lia|]. cbn [mbind option_bind].
    eexists. split; [done|]. destruct H3 as (_ & _ & H3). split; [done|]. split; [done|].
    rewrite list_lookup_insert_ne by lia. rewrite H3. do 2 f_equal. replace i with (2 + (i - 2))%nat by lia.
    by rewrite slices_insert, decide_False by lia. }
  repeat case_match; [apply (Hlong 16%nat); lia | apply (Hlong 15%nat); lia | apply (Hlong 14%nat); lia | apply (Hlong 13%nat); lia
    | apply (Hlong 12%nat); lia | by exists fs3 | by exists fs3].
Qed.

Lemma timer_values q ops v : lookup_name (abs_steps [] ops) (PREFIX Timer ++ q) = Some v -> exists fs, v = fields fs /\ timer_ok fs.
Proof.
  revert v. induction ops as [|op ops IH] using rev_ind; intros v; [done|].
  unfold abs_steps in *. rewrite foldl_app. cbn [foldl].
  destruct op as [pid mo ke n|pid mo ke t c|pid mo ke f|pid]; cbn [abs_step]; [rewrite lookup_touch..|apply IH].
  - rewrite decide_False by (by apply counter_name_kind). apply IH.
  - destruct (decide (PREFIX Timer ++ q = counter_name Timer mo ke)) as [<-|_]; [|apply IH]. intros <-%(inj Some).
    assert (exists fs, default (replicate (value_bytes Timer) 0) (lookup_name (foldl abs_step [] ops) (PREFIX Timer ++ q)) = fields fs /\ timer_ok fs)
      as (fs & -> & Hok).
    { destruct (lookup_name (foldl abs_step [] ops) (PREFIX Timer ++ q)) as [w|]; [by apply IH|].
      exists (replicate 17 0). split; [done|]. split; [done|]. split; [|done]. repeat constructor; cbn; lia. }
    destruct (TimerCounterUpdater_ok t c fs Hok) as (fs' & E & Hok'). exists fs'. unfold updated. by rewrite E.
  - rewrite decide_False by (by apply counter_name_kind). apply IH.
Qed.

(** ** Theorems *)

Section Histories.
Context (header_size max : nat) (ops : list operation).
Context (Hnamed : Forall named ops).
Context (Hroom : (header_size + length (enc_all (abs_steps [] ops)) + ENTRY <= max)%nat) (Hmax : Z.of_nat max < 2 ^ 32).

Lemma history_runs : exists m, steps (mkMachine ∅ (open_list header_size max None)) ops = Some m /\ MInv m (abs_steps [] ops).
Proof using Hnamed Hroom Hmax.
  destruct (MInv_fresh header_size max) as [I Hl]; [lia | done|]. apply steps_correct; [done | done|]. cbn [file]. lia.
Qed.

(** C21: the counters of a monitor file count.  Let any number of processes add to
    counters, timers and binary counters of a new file, with names that are C
    strings, and end and start in between, in any order.  As long as the entries
    fit into the file, every operation succeeds within the mapping, and any process
    that asks for all counters then gets, for exactly the names that were added to,
    the sum of the amounts modulo 2^64. *)
Theorem counters_count pid : exists m, steps (mkMachine ∅ (open_list header_size max None)) ops = Some m /\
  exists p all, GetAllCounters ∅ (process m pid) (file m) = Some (p, all) /\
    forall q, all !! q = counted (increments (PREFIX Counter ++ q) ops).
Proof using Hnamed Hroom Hmax.
  destruct history_runs as (m & E & R & _). exists m. split; [done|].
  destruct (GetAll_correct Counter (process m pid) (file m) _ R) as (p & all & Ea & Hall); [done|].
  exists p, all. split; [done|]. intros q. by rewrite Hall, counter_value.
Qed.

(** The slices of a timer add up.  After any such history the ten slices of
    every timer that a process reads sum up to its count, modulo 2^64. *)
Lemma timers_add_up pid : exists m, steps (mkMachine ∅ (open_list header_size max None)) ops = Some m /\
  exists p all, GetAllTimerCounters ∅ (process m pid) (file m) = Some (p, all) /\
    forall q v, all !! q = Some v -> exists fs, v = fields fs /\ timer_ok fs.
Proof using Hnamed Hroom Hmax.
  destruct history_runs as (m & E & R & _). exists m. split; [done|].
  destruct (GetAll_correct Timer (process m pid) (file m) _ R) as (p & all & Ea & Hall); [done|].
  exists p, all. split; [done|]. intros q v. rewrite Hall. apply timer_values.
Qed.
End Histories.

Definition two_processes : list operation :=
  [CounterBy 1 [109] [97] 5; TimerBy 2 [109] [116] 700 2; CounterBy 2 [109] [97] 6; Restart 1; CounterBy 1 [109] [98] 7].

Lemma counters_count_witness : exists m p all,
  steps (mkMachine ∅ (open_list 64 1024 None)) two_processes = Some m /\
  GetAllCounters ∅ (process m 1) (file m) = Some (p, all) /\ all !! [109; 35; 97] = Some [11; 0; 0; 0; 0; 0; 0; 0].
Proof.
  destruct (counters_count 64 1024 two_processes) with (pid := 1%nat) as (m & E & p & all & Ea & Hall).
  - repeat constructor; discriminate.
  - apply Nat.leb_le. vm_compute. reflexivity.
  - reflexivity.
  - exists m, p, all. split; [exact E|]. split; [exact Ea|]. rewrite Hall. reflexivity.
Defined.

Lemma timers_add_up_witness : exists m p all,
  steps (mkMachine ∅ (open_list 64 1024 None)) two_processes = Some m /\
  GetAllTimerCounters ∅ (process m 2) (file m) = Some (p, all) /\
  forall q v, all !! q = Some v -> exists fs, v = fields fs /\ timer_ok fs.
Proof.
  destruct (timers_add_up 64 1024 two_processes) with (pid := 2%nat) as (m & E & p & all & Ea & Hall).
  - repeat constructor; discriminate.
  - apply Nat.leb_le. vm_compute. reflexivity.
  - reflexivity.
  - exists m, p, all. split; [exact E|]. split; [exact Ea | exact Hall].
Defined.

(** Reading all counters of one kind leaves the binary counters of that moment
    in the process, and reading the binary counters then reports them again: a
    binary counter that was set to 1, and to 0 after [GetAllCounters], is reported
    as 1 with no false count. *)
Lemma binary_counters_are_stale : exists m p all,
  steps (mkMachine ∅ (open_list 64 1024 None)) [BinaryBy 1 [109] [98] 1] = Some m /\
  GetAllCounters ∅ (process m 1) (file m) = Some (p, all) /\
  exists m' p' all', step (mkMachine (<[1%nat := p]> (processes m)) (file m)) (BinaryBy 1 [109] [98] 0) = Some m' /\
    GetAllBinaryCounters ∅ (process m' 1) (file m') = Some (p', all') /\
    all' !! [109; 35; 98] = Some [1; 0; 0; 0; 0; 0; 0; 0; 1; 0; 0; 0] /\
    exists p2 all2, GetAllBinaryCounters ∅ new_MonitorStatusImpl (file m') = Some (p2, all2) /\
      all2 !! [109; 35; 98] = Some [0; 0; 0; 0; 1; 0; 0; 0; 1; 0; 0; 0].
Proof.
  eexists _, _, _. split; [vm_compute; reflexivity|]. split; [vm_compute; reflexivity|].
  eexists _, _, _. split; [vm_compute; reflexivity|]. split; [vm_compute; reflexivity|].
  split; [vm_compute; reflexivity|]. eexists _, _. split; vm_compute; reflexivity.
Qed.

(** A process that ends between the store of the key size and the store of the total
    size leaves an entry that [Find] returns for every name: all new names then share
    its cell. *)
Lemma half_written_entry_is_found es r k key : Forall good es -> (8 <= r)%nat -> (0 < k < Z.to_nat 100000)%nat ->
  Forall (fun c => c <> 0) key -> key ∉ es.*1 -> forall mem,
  write_u32 (enc_all es ++ replicate r 0) (length (enc_all es) + 4) k = Some mem ->
  Find mem (key ++ [0]) = Some (Some (length (enc_all es))).
Proof.
  intros Hg Hr Hk Hkey Hn mem. replace (replicate r 0) with (replicate 4 0 ++ replicate 4 0 ++ replicate (r - 8) 0).
  2: { rewrite <- !replicate_add. f_equal. lia. }
  rewrite app_assoc. unfold write_u32. rewrite write_at_app by (rewrite ?length_app, ?le_bytes_length; done).
  intros <-%(inj Some). unfold Find. cbn [Next mbind option_bind]. fold (key_bytes key). rewrite <- app_assoc.
  set (post := replicate 4 0 ++ le_bytes 4 (Z.of_nat k) ++ replicate (r - 8) 0).
  destruct (fuel_enough es post) as [f ->].
  pose proof (find_loop_prefix es [] post (S f) key Hg Hkey Hn) as E. cbn [app length] in E. rewrite E.
  assert (key_size (enc_all es ++ post) (length (enc_all es)) = Some k) as Eks.
  { unfold key_size, post. rewrite app_assoc. apply read_u32_at; [by rewrite length_app | lia]. }
  assert (total_size (enc_all es ++ post) (length (enc_all es)) = Some O) as Ets.
  { unfold total_size, post. change (replicate 4 0) with (le_bytes 4 (Z.of_nat 0)). apply read_u32_at; [done | lia]. }
  cbn [find_loop]. unfold in_use. rewrite Eks, Ets. cbn [mbind option_bind Nat.eqb negb]. rewrite andb_false_r. cbn [mbind option_bind].
  rewrite Eks. cbn [mbind option_bind]. by rewrite (proj2 (Nat.eqb_neq _ 0)) by lia.
Qed.
