(* ===== verification/Any.v ===== *)
(** * Type-erased values: src/common/any.h

    An [any] holds a value of any type: small values in place, others on the heap,
    with a pointer to the functions that copy and destroy values of the type.  The
    model has the variables of a program, the heap and the objects whose destructor
    has not run, so that a value destroyed twice, freed twice or never is visible; and
    since a move copies the bytes of a value that is in place, without its constructor,
    an object knows where it was constructed, so that a use of an object that holds its
    own address and was moved is visible. *)
From Stdlib Require Import ZArith Lia.
From stdpp Require Import base list option gmap.
From S2P Require Import Prelude.

Section Any.
(** The types of a program, what the compiler knows of them, those whose objects hold their
    own address (such as a list with its sentinel inside), and the values. *)
Context {type val : Type} `{EqDecision type}.
Context (on_stack pod self_pointing : type -> bool) (type_name : type -> list Z).

(** A variable, or the unnamed temporary of an expression. *)
Definition slot : Type := option nat.

(** An object: its type, its value, its number, the variable in which it was
    constructed, if in place. *)
Record obj : Type := mkObj { ty : type; payload : val; id : nat; home : option slot }.

(** [union Data]. *)
Inductive Data : Type := Uninit | Stack (o : obj) | Pheap (p : nat).

(** [class any]; the [Type] record of a type stands for the type. *)
Record any : Type := mkAny { type_ : option type; data : Data }.

(** The store: variables, heap, objects to be destroyed, the next number. *)
Record store : Type := mkStore { anys : gmap slot any; heap : gmap nat obj; alive : gset nat; fresh : nat }.

Definition set_any (x : slot) (a : any) (s : store) : store := mkStore (<[x := a]> (anys s)) (heap s) (alive s) (fresh s).

(** The constructor of an object: one that is not plain data waits for its
    destructor. *)
Definition construct_obj (T : type) (v : val) (h : option slot) (s : store) : obj * store :=
  (mkObj T v (fresh s) h,
   mkStore (anys s) (heap s) (if pod T then alive s else {[fresh s]} ∪ alive s) (S (fresh s))).

(** The destructor: [None] when it has run before. *)
Definition destruct_obj (o : obj) (s : store) : option store :=
  if pod (ty o) then Some s
  else if decide (id o ∈ alive s) then Some (mkStore (anys s) (heap s) (alive s ∖ {[id o]}) (fresh s)) else None.

(** Placement of a new value: [data_on_stack] decides. *)
Definition new_data (T : type) (v : val) (x : slot) (s : store) : Data * store :=
  if on_stack T then let '(o, s) := construct_obj T v (Some x) s in (Stack o, s)
  else let '(o, s) := construct_obj T v None s in
       (Pheap (id o), mkStore (anys s) (<[id o := o]> (heap s)) (alive s) (fresh s)).

(** [TypeInfo<T>::get_ptr] on the data of [x] and the access: [None] is an invalid pointer, or
    an object in place that holds the address of another variable, in which it was
    constructed. *)
Definition get_ptr (T : type) (x : slot) (d : Data) (s : store) : option obj :=
  match d with
  | Stack o => if on_stack T && negb (self_pointing T && bool_decide (home o <> Some x)) then Some o else None
  | Pheap p => if on_stack T then None else heap s !! p
  | Uninit => None
  end.

(** [create_from_data] from the data of [y] to [x]. *)
Definition create_from_data (T : type) (y : slot) (d : Data) (x : slot) (s : store) : option (Data * store) :=
  o ← get_ptr T y d s; Some (new_data T (payload o) x s).

(** [TypeOnStack::destroy] and [TypeOnHeap::destroy]. *)
Definition destroy (T : type) (x : slot) (d : Data) (s : store) : option store :=
  o ← get_ptr T x d s;
  s ← destruct_obj o s;
  match d with
  | Pheap p => Some (mkStore (anys s) (delete p (heap s)) (alive s) (fresh s))
  | _ => Some s
  end.

(** The [destroy] field of [Type]: null for plain data on the stack. *)
Definition has_destroy (T : type) : bool := negb (pod T && on_stack T).

(** [any::any()]. *)
Definition any_new (x : slot) (s : store) : store := set_any x (mkAny None Uninit) s.

(** [any::any(T&&)]. *)
Definition any_from (x : slot) (T : type) (v : val) (s : store) : store :=
  let '(d, s) := new_data T v x s in set_any x (mkAny (Some T) d) s.

(** [any::construct(any&&)], the move constructor: the bytes of the data are copied. *)
Definition any_move (x y : slot) (s : store) : option store :=
  other ← anys s !! y;
  Some (set_any y (mkAny None (data other)) (set_any x (mkAny (type_ other) (data other)) s)).

(** [any::construct(const any&)], the copy constructor. *)
Definition any_copy (x y : slot) (s : store) : option store :=
  other ← anys s !! y;
  match type_ other with
  | None => Some (set_any x (mkAny None Uninit) s)
  | Some T => '(d, s) ← create_from_data T y (data other) x s; Some (set_any x (mkAny (Some T) d) s)
  end.

(** [any::clear]. *)
Definition clear (x : slot) (s : store) : option store :=
  a ← anys s !! x;
  match type_ a with
  | None => Some s
  | Some T =>
      s ← (if has_destroy T then destroy T x (data a) s else Some s);
      Some (set_any x (mkAny None (data a)) s)
  end.

(** [any::~any]. *)
Definition any_delete (x : slot) (s : store) : option store :=
  s ← clear x s; Some (mkStore (delete x (anys s)) (heap s) (alive s) (fresh s)).

(** [any::swap]: the bytes are exchanged. *)
Definition swap (x y : slot) (s : store) : option store :=
  a ← anys s !! x; b ← anys s !! y; Some (set_any x b (set_any y a s)).

(** [any::construct<T>(args)]: the value is built in place. *)
Definition construct (x : slot) (T : type) (v : val) (s : store) : option store :=
  s ← clear x s; Some (any_from x T v s).

(** The assignments: a temporary is constructed, exchanged and destroyed. *)
Definition assign_move (x y : slot) (s : store) : option store :=
  s ← any_move None y s; s ← swap None x s; any_delete None s.
Definition assign_copy (x y : slot) (s : store) : option store :=
  s ← any_copy None y s; s ← swap None x s; any_delete None s.
Definition assign_value (x : slot) (T : type) (v : val) (s : store) : option store :=
  s ← swap None x (any_from None T v s); any_delete None s.

(** [any::empty] and [any::type]. *)
Definition empty (x : slot) (s : store) : option bool := (fun a => negb (bool_decide (is_Some (type_ a)))) <$> anys s !! x.
Definition type_of (x : slot) (s : store) : option (option type) := type_ <$> anys s !! x.

(** The outcome of an access: a value or a failed CHECK. *)
Inductive access : Type := Got (v : val) | CheckFailure.

(** [check_type] and [get<T>]. *)
Definition get (T : type) (x : slot) (s : store) : option access :=
  a ← anys s !! x;
  match type_ a with
  | None => Some CheckFailure
  | Some T' => if decide (T' = T) then o ← get_ptr T x (data a) s; Some (Got (payload o)) else Some CheckFailure
  end.

(** [check_type_by_name] and [unsafe_get<T>]. *)
Definition unsafe_get (T : type) (x : slot) (s : store) : option access :=
  a ← anys s !! x;
  match type_ a with
  | None => Some CheckFailure
  | Some T' => if decide (type_name T' = type_name T) then o ← get_ptr T x (data a) s; Some (Got (payload o)) else Some CheckFailure
  end.

(** ** Programs *)

Inductive operation : Type :=
  | New (x : nat) | NewFrom (x : nat) (T : type) (v : val) | NewMove (x y : nat) | NewCopy (x y : nat) | Delete (x : nat)
  | Clear (x : nat) | Construct (x : nat) (T : type) (v : val) | Swap (x y : nat)
  | AssignMove (x y : nat) | AssignCopy (x y : nat) | AssignValue (x : nat) (T : type) (v : val).

Definition exec (op : operation) (s : store) : option store :=
  match op with
  | New x => Some (any_new (Some x) s)
  | NewFrom x T v => Some (any_from (Some x) T v s)
  | NewMove x y => any_move (Some x) (Some y) s
  | NewCopy x y => any_copy (Some x) (Some y) s
  | Delete x => any_delete (Some x) s
  | Clear x => clear (Some x) s
  | Construct x T v => construct (Some x) T v s
  | Swap x y => swap (Some x) (Some y) s
  | AssignMove x y => assign_move (Some x) (Some y) s
  | AssignCopy x y => assign_copy (Some x) (Some y) s
  | AssignValue x T v => assign_value (Some x) T v s
  end.

Fixpoint exec_all (ops : list operation) (s : store) : option store :=
  match ops with [] => Some s | op :: ops => s ← exec op s; exec_all ops s end.

Definition new_store : store := mkStore ∅ ∅ ∅ 0.

(** ** Specification: a variable holds nothing or a value of a type *)

Definition contents : Type := gmap nat (option (type * val)).

Definition spec (op : operation) (c : contents) : option contents :=
  match op with
  | New x => if decide (c !! x = None) then Some (<[x := None]> c) else None
  | NewFrom x T v => if decide (c !! x = None) then Some (<[x := Some (T, v)]> c) else None
  | NewMove x y => if decide (c !! x = None) then b ← c !! y; Some (<[y := None]> (<[x := b]> c)) else None
  | NewCopy x y => if decide (c !! x = None) then b ← c !! y; Some (<[x := b]> c) else None
  | Delete x => a ← c !! x; Some (delete x c)
  | Clear x => a ← c !! x; Some (<[x := None]> c)
  | Construct x T v | AssignValue x T v => a ← c !! x; Some (<[x := Some (T, v)]> c)
  | Swap x y => a ← c !! x; b ← c !! y; Some (<[x := b]> (<[y := a]> c))
  | AssignMove x y => a ← c !! x; b ← c !! y; Some (<[x := b]> (<[y := None]> c))
  | AssignCopy x y => a ← c !! x; b ← c !! y; Some (<[x := b]> c)
  end.

Fixpoint spec_all (ops : list operation) (c : contents) : option contents :=
  match ops with [] => Some c | op :: ops => c ← spec op c; spec_all ops c end.
End Any.
