(* ===== verification/AnyCorrect.v ===== *)
(** * Type-erased values: ownership

    Every object has one owner.  Moves and exchanges change the owner, clearing
    destroys the object, copies make a new one: so every program on [any] variables
    behaves like one on optional values, an access returns a value of the type that
    was asked for, and nothing is left when the variables are gone. *)
From Stdlib Require Import ZArith Lia.
From stdpp Require Import base list option gmap.
From S2P Require Import Prelude Any.

Section AnyCorrect.
Context {type val : Type} `{EqDecision type}.
Context (on_stack pod self_pointing : type -> bool).
(** Objects that are stored in place do not hold their own address. *)
Context (Hmovable : forall T, on_stack T = true -> self_pointing T = false).
#[local] Notation obj := (obj (type := type) (val := val)).
#[local] Notation any := (any (type := type) (val := val)).
#[local] Notation store := (store (type := type) (val := val)).
#[local] Notation Data := (Data (type := type) (val := val)).

Definition obj_is (T : type) (v : val) (n : nat) (o : obj) : Prop := ty o = T /\ payload o = v /\ id o = n.

(** The data holds the object with number [n], of a type and a value. *)
Definition Live (s : store) (T : type) (v : val) (d : Data) (n : nat) : Prop :=
  (if on_stack T then exists o, d = Stack o /\ obj_is T v n o
   else d = Pheap n /\ exists o, heap s !! n = Some o /\ obj_is T v n o) /\
  (pod T = false -> n ∈ alive s) /\ (n < fresh s)%nat.

(** What a variable is, what it holds, the number of its object. *)
Inductive rel_at (s : store) : option any -> option (option (type * val)) -> option nat -> Prop :=
  | rel_none : rel_at s None None None
  | rel_empty a : type_ a = None -> rel_at s (Some a) (Some None) None
  | rel_full a T v n : type_ a = Some T -> Live s T v (data a) n -> rel_at s (Some a) (Some (Some (T, v))) (Some n).

(** The store represents [A]; [N] numbers the objects by their owners. *)
Record Inv (s : store) (A : gmap slot (option (type * val))) (N : gmap slot nat) : Prop := {
  inv_rel x : rel_at s (anys s !! x) (A !! x) (N !! x);
  inv_owner x y n : N !! x = Some n -> N !! y = Some n -> x = y;
  inv_heap n o : heap s !! n = Some o -> exists x T v, N !! x = Some n /\ A !! x = Some (Some (T, v)) /\ on_stack T = false;
  inv_alive n : n ∈ alive s -> exists x T v, N !! x = Some n /\ A !! x = Some (Some (T, v)) /\ pod T = false
}.

Lemma rel_at_mono s s' a b c : (forall T v d n, c = Some n -> Live s T v d n -> Live s' T v d n) -> rel_at s a b c -> rel_at s' a b c.
Proof. intros Hm R. revert Hm. destruct R; intros Hm; constructor; auto. Qed.

Lemma get_ptr_Live s T v x d n : Live s T v d n -> exists o, get_ptr on_stack self_pointing T x d s = Some o /\ obj_is T v n o.
Proof using Hmovable.
  intros [H _]. unfold get_ptr. pose proof (Hmovable T) as Hm. destruct (on_stack T); [rewrite Hm by done; destruct H as (o & -> & Ho) | destruct H as (-> & o & Hh & Ho)]; eauto.
Qed.

(** The case of a variable that is present. *)
Lemma inv_present s A N x b : Inv s A N -> A !! x = Some b -> exists a, anys s !! x = Some a /\ rel_at s (Some a) (Some b) (N !! x).
Proof. intros I Hx. pose proof (inv_rel _ _ _ I x) as H. rewrite Hx in H. inversion H; subst; eexists; (split; [reflexivity|]); by constructor. Qed.

Lemma inv_fresh s A N x n : Inv s A N -> N !! x = Some n -> (n < fresh s)%nat.
Proof. intros I Hx. pose proof (inv_rel _ _ _ I x) as H. rewrite Hx in H. inversion H as [ | |? ? ? ? ? L]; subst. apply L. Qed.

(** A new value in a variable that is absent or empty. *)
Lemma Inv_from s A N x T v : Inv s A N -> N !! x = None ->
  Inv (any_from on_stack pod x T v s) (<[x := Some (T, v)]> A) (<[x := fresh s]> N).
Proof.
  intros I Hx.
  assert (forall y, N !! y <> Some (fresh s)) as Hfresh by (intros y Hy; pose proof (inv_fresh _ _ _ _ _ I Hy); lia).
  assert (heap s !! fresh s = None) as Hh.
  { destruct (heap s !! fresh s) eqn:E; [|done]. destruct (inv_heap _ _ _ I _ _ E) as (y & _ & _ & Hy & _). by apply Hfresh in Hy. }
  assert (forall y T' v', y <> x -> A !! y = Some (Some (T', v')) -> <[x := Some (T, v)]> A !! y = Some (Some (T', v'))) as Hkeep.
  { intros y T' v' Hy HA. by rewrite lookup_insert_ne. }
  set (s' := any_from on_stack pod x T v s).
  assert (alive s' = if pod T then alive s else {[fresh s]} ∪ alive s) as Ea by (unfold s', any_from, new_data; by destruct (on_stack T)).
  assert (heap s' = if on_stack T then heap s else <[fresh s := mkObj T v (fresh s) None]> (heap s)) as Eh
    by (unfold s', any_from, new_data; by destruct (on_stack T)).
  assert (fresh s' = S (fresh s)) as Ef by (unfold s', any_from, new_data; by destruct (on_stack T)).
  assert (anys s' = <[x := mkAny (Some T) (if on_stack T then Stack (mkObj T v (fresh s) (Some x)) else Pheap (fresh s))]> (anys s)) as Es
    by (unfold s', any_from, new_data; by destruct (on_stack T)).
  split.
  - intros y. rewrite Es. destruct (decide (x = y)) as [<-|Hy].
    + rewrite !lookup_insert_eq. constructor; [done|]. unfold Live. rewrite Ea, Eh, Ef. cbn [data]. split; [|split; [|lia]].
      * destruct (on_stack T); [eexists; split; [done|]; done|]. split; [done|]. rewrite lookup_insert_eq. by eexists.
      * intros ->. set_solver.
    + rewrite !lookup_insert_ne by done. eapply rel_at_mono; [|apply (inv_rel _ _ _ I)]. intros T' v' d n Hn (H & Ha & Hf).
      unfold Live. rewrite Ea, Eh, Ef. split; [|split; [intros Hp; specialize (Ha Hp); destruct (pod T); set_solver | lia]].
      destruct (on_stack T'); [done|]. destruct H as (-> & o & Ho & Hi). split; [done|]. exists o. split; [|done].
      destruct (on_stack T); [done|]. rewrite lookup_insert_ne; [done|]. intros <-. congruence.
  - intros y z n. rewrite !lookup_insert_Some. intros [[<- <-]|[Hy Hn]] [[<- ?]|[Hz Hn']]; simplify_eq; eauto using inv_owner; by apply Hfresh in Hn || apply Hfresh in Hn'.
  - intros n o. rewrite Eh. intros Ho.
    assert (on_stack T = false /\ n = fresh s \/ heap s !! n = Some o) as [[HT ->]|Ho'].
    { destruct (on_stack T); [by right|]. apply lookup_insert_Some in Ho as [[<- _]|[_ Ho]]; auto. }
    + exists x, T, v. by rewrite !lookup_insert_eq.
    + destruct (inv_heap _ _ _ I _ _ Ho') as (y & T' & v' & Hy & HA & HT'). assert (y <> x) by congruence.
      exists y, T', v'. rewrite lookup_insert_ne by done. auto.
  - intros n. rewrite Ea. intros Hn.
    assert (pod T = false /\ n = fresh s \/ n ∈ alive s) as [[HT ->]|Hn'] by (destruct (pod T); set_solver).
    + exists x, T, v. by rewrite !lookup_insert_eq.
    + destruct (inv_alive _ _ _ I _ Hn') as (y & T' & v' & Hy & HA & HT'). assert (y <> x) by congruence.
      exists y, T', v'. rewrite lookup_insert_ne by done. auto.
Qed.

(** A variable gets another number, or none. *)
Definition renumber (x : slot) (n : option nat) (N : gmap slot nat) : gmap slot nat := partial_alter (fun _ => n) x N.

Lemma lookup_renumber x n N y : renumber x n N !! y = if decide (y = x) then n else N !! y.
Proof.
  unfold renumber. case_decide as Hy; [subst; apply lookup_partial_alter_eq | by apply lookup_partial_alter_ne].
Qed.

(** Objects change their owners, as [from] says. *)
Lemma Inv_rearrange s s' A A' N N' (from : slot -> option slot) : Inv s A N ->
  heap s' = heap s -> alive s' = alive s -> fresh s' = fresh s ->
  (forall x, rel_at s (anys s' !! x) (A' !! x) (N' !! x)) ->
  (forall x n, N' !! x = Some n -> exists y, from x = Some y /\ N !! y = Some n) ->
  (forall x x' y, from x = Some y -> from x' = Some y -> x = x') ->
  (forall y n, N !! y = Some n -> exists x, N' !! x = Some n /\ A' !! x = A !! y) ->
  Inv s' A' N'.
Proof.
  intros I Eh Ea Ef Hrel Hfrom Hinj Hto. split.
  - intros x. eapply rel_at_mono; [|apply Hrel]. intros T v d n _ L. unfold Live in *. by rewrite Eh, Ea, Ef.
  - intros x y n Hx Hy. destruct (Hfrom _ _ Hx) as (x' & Fx & Hx'), (Hfrom _ _ Hy) as (y' & Fy & Hy').
    pose proof (inv_owner _ _ _ I _ _ _ Hx' Hy'). subst. eauto.
  - intros n o. rewrite Eh. intros Ho. destruct (inv_heap _ _ _ I _ _ Ho) as (y & T & v & Hy & HA & HT).
    destruct (Hto _ _ Hy) as (x & Hx & Ex). exists x, T, v. by rewrite Ex.
  - intros n. rewrite Ea. intros Hn. destruct (inv_alive _ _ _ I _ Hn) as (y & T & v & Hy & HA & HT).
    destruct (Hto _ _ Hy) as (x & Hx & Ex). exists x, T, v. by rewrite Ex.
Qed.

Lemma Inv_any_new s A N x : Inv s A N -> A !! x = None -> Inv (any_new x s) (<[x := None]> A) N.
Proof.
  intros I Hx. pose proof (inv_rel _ _ _ I x) as Hr. rewrite Hx in Hr. inversion Hr as [Ea HN HE| |]; subst.
  apply (Inv_rearrange s _ A _ N _ Some); try done.
  - intros y. cbn. destruct (decide (x = y)) as [<-|Hy].
    + rewrite !lookup_insert_eq, <- HE. by constructor.
    + rewrite !lookup_insert_ne by done. apply (inv_rel _ _ _ I).
  - eauto.
  - congruence.
  - intros y n Hy. exists y. split; [done|]. rewrite lookup_insert_ne; [done|]. intros <-. congruence.
Qed.

Lemma Inv_move s A N x y b : Inv s A N -> A !! x = None -> A !! y = Some b ->
  exists s' N', any_move x y s = Some s' /\ Inv s' (<[y := None]> (<[x := b]> A)) N'.
Proof.
  intros I Hx Hy. destruct (inv_present _ _ _ _ _ I Hy) as (a & Ha & Hr). assert (x <> y) as Hxy by congruence.
  pose proof (inv_rel _ _ _ I x) as Hrx. rewrite Hx in Hrx. inversion Hrx as [Ea HN HE| |]; subst.
  unfold any_move. rewrite Ha. cbn [mbind option_bind].
  eexists _, (renumber y None (renumber x (N !! y) N)). split; [done|].
  apply (Inv_rearrange s _ A _ N _ (fun z => if decide (z = y) then None else if decide (z = x) then Some y else Some z)); try done.
  - intros z. rewrite !lookup_renumber. cbn [anys set_any]. destruct (decide (z = y)) as [->|Hzy].
    + rewrite !lookup_insert_eq. by constructor.
    + rewrite !(lookup_insert_ne _ y) by done. destruct (decide (z = x)) as [->|Hzx].
      * rewrite !lookup_insert_eq. destruct a. exact Hr.
      * rewrite !lookup_insert_ne by done. apply (inv_rel _ _ _ I).
  - intros z n. rewrite !lookup_renumber. repeat case_decide; subst; eauto; done.
  - intros z z' w. repeat case_decide; intros; simplify_eq; try done.
  - intros z n Hz. destruct (decide (z = y)) as [->|Hzy].
    + exists x. rewrite !lookup_renumber, decide_False, decide_True by done. split; [done|].
      by rewrite lookup_insert_ne, lookup_insert_eq by done.
    + exists z. assert (z <> x) by congruence. rewrite !lookup_renumber, !decide_False by done. split; [done|].
      by rewrite !lookup_insert_ne by done.
Qed.

Lemma Inv_swap s A N x y a b : Inv s A N -> A !! x = Some a -> A !! y = Some b ->
  exists s' N', swap x y s = Some s' /\ Inv s' (<[x := b]> (<[y := a]> A)) N'.
Proof.
  intros I Hx Hy. destruct (inv_present _ _ _ _ _ I Hx) as (u & Hu & Ru), (inv_present _ _ _ _ _ I Hy) as (w & Hw & Rw).
  unfold swap. rewrite Hu, Hw. cbn [mbind option_bind].
  eexists _, (renumber x (N !! y) (renumber y (N !! x) N)). split; [done|].
  apply (Inv_rearrange s _ A _ N _ (fun z => Some (if decide (z = x) then y else if decide (z = y) then x else z))); try done.
  - intros z. rewrite !lookup_renumber. cbn [anys set_any]. destruct (decide (z = x)) as [->|Hzx].
    + rewrite !lookup_insert_eq. exact Rw.
    + rewrite !(lookup_insert_ne _ x) by done. destruct (decide (z = y)) as [->|Hzy].
      * rewrite !lookup_insert_eq. exact Ru.
      * rewrite !lookup_insert_ne by done. apply (inv_rel _ _ _ I).
  - intros z n. rewrite !lookup_renumber. repeat case_decide; subst; eauto.
  - intros z z' t. repeat case_decide; intros; simplify_eq; done.
  - intros z n Hz. destruct (decide (z = y)) as [->|Hzy].
    + exists x. rewrite !lookup_renumber, decide_True by done. split; [done|]. by rewrite lookup_insert_eq.
    + destruct (decide (z = x)) as [->|Hzx].
      * exists y. rewrite !lookup_renumber, decide_False, decide_True by done. split; [done|].
        by rewrite lookup_insert_ne, lookup_insert_eq by done.
      * exists z. rewrite !lookup_renumber, !decide_False by done. split; [done|]. by rewrite !lookup_insert_ne by done.
Qed.

(** What clearing a full variable does. *)
Lemma clear_full s x a T v n : anys s !! x = Some a -> type_ a = Some T -> Live s T v (data a) n ->
  clear on_stack pod self_pointing x s = Some (mkStore (<[x := mkAny None (data a)]> (anys s))
    (if on_stack T then heap s else delete n (heap s)) (if pod T then alive s else alive s ∖ {[n]}) (fresh s)).
Proof.
  intros Ha HT L. unfold clear. rewrite Ha. cbn [mbind option_bind]. rewrite HT. unfold has_destroy.
  destruct (get_ptr_Live _ _ _ x _ _ L) as (o & Hg & HoT & _ & Hid). destruct L as (Hd & Hal & _).
  destruct (pod T) eqn:Hp, (on_stack T) eqn:Hs; cbn [andb negb]; try (by destruct s);
    unfold destroy; rewrite Hg; cbn [mbind option_bind]; unfold destruct_obj; rewrite HoT, Hp;
    try rewrite Hid, decide_True by auto; cbn [mbind option_bind].
  - destruct Hd as (-> & _). by destruct s.
  - destruct Hd as (o' & -> & _). by destruct s.
  - destruct Hd as (-> & _). by destruct s.
Qed.

Lemma Inv_clear s A N x a : Inv s A N -> A !! x = Some a ->
  exists s' N', clear on_stack pod self_pointing x s = Some s' /\ Inv s' (<[x := None]> A) N' /\ N' !! x = None.
Proof.
  intros I Hx. destruct (inv_present _ _ _ _ _ I Hx) as (u & Hu & Ru). inversion Ru as [|a0 HT Ea Eb HE|a0 T v n HT L Ea Eb HE]; subst.
  - exists s, N. unfold clear. rewrite Hu. cbn [mbind option_bind]. rewrite HT. split; [done|]. by rewrite insert_id.
  - rewrite (clear_full _ _ _ _ _ _ Hu HT L). symmetry in HE. eexists _, (renumber x None N). split; [done|].
    rewrite lookup_renumber, decide_True by done. split; [|done].
    assert (forall y m, y <> x -> N !! y = Some m -> m <> n) as Hne by (intros y m Hy Hm ->; by apply Hy, (inv_owner _ _ _ I _ _ n)).
    split; cbn [anys heap alive fresh].
    + intros y. rewrite lookup_renumber. destruct (decide (y = x)) as [->|Hy]; [rewrite !lookup_insert_eq; by constructor|].
      rewrite !lookup_insert_ne by done. eapply rel_at_mono; [|apply (inv_rel _ _ _ I)]. intros T' v' d m Hm (Hd & Hal & Hf).
      pose proof (Hne _ _ Hy Hm). unfold Live. cbn [heap alive fresh]. split; [|split; [intros Hp; specialize (Hal Hp); destruct (pod T); set_solver | done]].
      destruct (on_stack T'); [done|]. destruct Hd as (-> & o & Ho & Hi). split; [done|]. exists o. split; [|done].
      destruct (on_stack T); [done|]. by rewrite lookup_delete_ne.
    + intros y z m. rewrite !lookup_renumber. repeat case_decide; try done. apply (inv_owner _ _ _ I).
    + intros m o Ho. assert (heap s !! m = Some o /\ (on_stack T = false -> m <> n)) as [Ho' Hm].
      { destruct (on_stack T); [done|]. apply lookup_delete_Some in Ho as [? ?]. split; [done|]. congruence. }
      destruct (inv_heap _ _ _ I _ _ Ho') as (y & T' & v' & Hy & HA' & HT'). assert (y <> x).
      { intros ->. assert (m = n) as -> by congruence. assert (T' = T) as -> by congruence. by apply Hm. }
      exists y, T', v'. rewrite lookup_renumber, decide_False, lookup_insert_ne by done. done.
    + intros m Hm. assert (m ∈ alive s /\ (pod T = false -> m <> n)) as [Hm' Hmn] by (destruct (pod T); set_solver).
      destruct (inv_alive _ _ _ I _ Hm') as (y & T' & v' & Hy & HA' & HT'). assert (y <> x).
      { intros ->. assert (m = n) as -> by congruence. assert (T' = T) as -> by congruence. by apply Hmn. }
      exists y, T', v'. rewrite lookup_renumber, decide_False, lookup_insert_ne by done. done.
Qed.

Lemma Inv_delete s A N x a : Inv s A N -> A !! x = Some a ->
  exists s' N', any_delete on_stack pod self_pointing x s = Some s' /\ Inv s' (delete x A) N'.
Proof.
  intros I Hx. destruct (Inv_clear _ _ _ _ _ I Hx) as (s1 & N1 & E & I1 & HN). unfold any_delete. rewrite E. cbn [mbind option_bind].
  eexists _, N1. split; [done|]. apply (Inv_rearrange s1 _ (<[x := None]> A) _ N1 _ Some); try done.
  - intros y. cbn [anys]. destruct (decide (x = y)) as [<-|Hy]; [rewrite !lookup_delete_eq, HN; constructor|].
    rewrite !lookup_delete_ne by done. pose proof (inv_rel _ _ _ I1 y) as H. by rewrite lookup_insert_ne in H.
  - eauto.
  - congruence.
  - intros y n Hy. exists y. split; [done|]. assert (x <> y) by congruence. by rewrite lookup_delete_ne, lookup_insert_ne.
Qed.

Lemma Inv_copy s A N x y b : Inv s A N -> A !! x = None -> A !! y = Some b ->
  exists s' N', any_copy on_stack pod self_pointing x y s = Some s' /\ Inv s' (<[x := b]> A) N'.
Proof.
  intros I Hx Hy. destruct (inv_present _ _ _ _ _ I Hy) as (u & Hu & Ru). unfold any_copy. rewrite Hu. cbn [mbind option_bind].
  inversion Ru as [|a0 HT Ea Eb HE|a0 T v n HT L Ea Eb HE]; subst; rewrite HT.
  - eexists _, N. split; [done|]. by apply Inv_any_new.
  - destruct (get_ptr_Live _ _ _ y _ _ L) as (o & Hg & _ & <- & _). unfold create_from_data. rewrite Hg. cbn [mbind option_bind].
    pose proof (inv_rel _ _ _ I x) as Hr. rewrite Hx in Hr. inversion Hr as [Ea Eb HN| |].
    pose proof (Inv_from s A N x T (payload o) I (eq_sym HN)) as I'. unfold any_from in I'.
    destruct (new_data on_stack pod T (payload o) x s) as [d s']. by eexists _, _.
Qed.

(** ** Programs *)

(** The variables of a program; the temporary is gone between operations. *)
Definition lift (c : contents (type := type) (val := val)) : gmap slot (option (type * val)) := kmap (M1 := gmap nat) (M2 := gmap slot) (Some : nat -> slot) c.

Lemma lookup_lift c x : lift c !! Some x = c !! x.
Proof. unfold lift. by rewrite lookup_kmap by apply _. Qed.

Lemma lookup_lift_None c : lift c !! None = None.
Proof. unfold lift. apply lookup_kmap_None; [apply _|]. by intros i [=]. Qed.

Lemma lift_insert c x b : lift (<[x := b]> c) = <[Some x := b]> (lift c).
Proof. unfold lift, contents in *. exact (kmap_insert (M1 := gmap nat) (M2 := gmap slot) _ c x b). Qed.

Lemma lift_delete c x : lift (delete x c) = delete (Some x) (lift c).
Proof. unfold lift, contents in *. exact (kmap_delete (M1 := gmap nat) (M2 := gmap slot) _ c x). Qed.

Ltac solve_maps :=
  apply map_eq; intros [?z|]; rewrite ?lift_insert, ?lift_delete;
  repeat (rewrite ?lookup_delete, ?lookup_insert, ?lookup_lift, ?lookup_lift_None; repeat case_decide; simplify_eq); try done.

(** An assignment: after the temporary was made, it is exchanged and destroyed. *)
Lemma Inv_assign s A N x a b : Inv s A N -> A !! None = Some b -> A !! Some x = Some a ->
  exists s' N', (s ← swap None (Some x) s; any_delete on_stack pod self_pointing None s) = Some s' /\ Inv s' (delete None (<[Some x := b]> A)) N'.
Proof.
  intros I Hn Hx. destruct (Inv_swap _ _ _ _ _ _ _ I Hn Hx) as (s1 & N1 & -> & I1). cbn [mbind option_bind].
  destruct (Inv_delete _ _ _ None a I1) as (s2 & N2 & -> & I2); [by rewrite lookup_insert_eq|].
  exists s2, N2. split; [done|]. by rewrite delete_insert_eq in I2.
Qed.

Lemma exec_correct op s c N c' : Inv s (lift c) N -> spec op c = Some c' ->
  exists s' N', exec on_stack pod self_pointing op s = Some s' /\ Inv s' (lift c') N'.
Proof.
  intros I E.
  assert (forall x, c !! x = None -> N !! Some x = None) as HN.
  { intros x Hx. pose proof (inv_rel _ _ _ I (Some x)) as H. rewrite lookup_lift, Hx in H. by inversion H. }
  assert (N !! None = None) as HN0.
  { pose proof (inv_rel _ _ _ I None) as H. rewrite lookup_lift_None in H. by inversion H. }
  pose proof (fun x => lookup_lift c x) as L. pose proof (lookup_lift_None c) as L0.
  destruct op as [x|x T v|x y|x y|x|x|x T v|x y|x y|x y|x T v]; cbn [exec spec] in *;
    try (destruct (decide (c !! x = None)) as [Hx|]; [|done]);
    try (destruct (c !! x) as [a|] eqn:Hx; cbn [mbind option_bind] in E; [|done]);
    try (destruct (c !! y) as [b|] eqn:Hy; cbn [mbind option_bind] in E; [|done]);
    simplify_eq; rewrite ?lift_insert, ?lift_delete.
  - eexists _, N. split; [done|]. apply Inv_any_new; [done | by rewrite L].
  - eexists _, _. split; [done|]. apply Inv_from; [done | by apply HN].
  - apply (Inv_move _ _ _ _ _ _ I); by rewrite L.
  - apply (Inv_copy _ _ _ _ _ _ I); by rewrite L.
  - apply (Inv_delete _ _ _ _ a I). by rewrite L.
  - destruct (Inv_clear _ _ _ (Some x) a I) as (s' & N' & E & I' & _); [by rewrite L|]. eauto.
  - destruct (Inv_clear _ _ _ (Some x) a I) as (s' & N' & E & I' & Hn); [by rewrite L|]. unfold construct. rewrite E. cbn [mbind option_bind].
    eexists _, _. split; [done|]. pose proof (Inv_from _ _ _ _ T v I' Hn) as I2. by rewrite insert_insert_eq in I2.
  - apply (Inv_swap _ _ _ _ _ _ _ I); by rewrite L.
  - destruct (Inv_move _ _ _ None (Some y) b I) as (s1 & N1 & E & I1); [done | by rewrite L|]. unfold assign_move. rewrite E. cbn [mbind option_bind].
    destruct (Inv_assign _ _ _ x (if decide (x = y) then None else a) b I1) as (s2 & N2 & E2 & I2).
    + by rewrite lookup_insert_ne, lookup_insert_eq.
    + case_decide as Hxy; [subst; by rewrite lookup_insert_eq | rewrite !lookup_insert_ne by congruence; by rewrite L].
    + exists s2, N2. split; [exact E2|]. replace (<[Some x := b]> (<[Some y := None]> (lift c))) with (delete None (<[Some x := b]> (<[Some y := None]> (<[None := b]> (lift c))))); [done|].
      solve_maps.
  - destruct (Inv_copy _ _ _ None (Some y) b I) as (s1 & N1 & E & I1); [done | by rewrite L|]. unfold assign_copy. rewrite E. cbn [mbind option_bind].
    destruct (Inv_assign _ _ _ x a b I1) as (s2 & N2 & E2 & I2); [by rewrite lookup_insert_eq | rewrite lookup_insert_ne by done; by rewrite L|].
    exists s2, N2. split; [exact E2|]. replace (<[Some x := b]> (lift c)) with (delete None (<[Some x := b]> (<[None := b]> (lift c)))); [done|].
    solve_maps.
  - pose proof (Inv_from _ _ _ None T v I HN0) as I1. unfold assign_value.
    destruct (Inv_assign _ _ _ x a (Some (T, v)) I1) as (s2 & N2 & E2 & I2); [by rewrite lookup_insert_eq | rewrite lookup_insert_ne by done; by rewrite L|].
    exists s2, N2. split; [exact E2|].
    replace (<[Some x := Some (T, v)]> (lift c)) with (delete None (<[Some x := Some (T, v)]> (<[None := Some (T, v)]> (lift c)))); [done|].
    solve_maps.
Qed.

Lemma exec_all_correct ops : forall s c N c', Inv s (lift c) N -> spec_all ops c = Some c' ->
  exists s' N', exec_all on_stack pod self_pointing ops s = Some s' /\ Inv s' (lift c') N'.
Proof.
  induction ops as [|op ops IH]; intros s c N c' I E; cbn [spec_all exec_all] in *; [simplify_eq; eauto|].
  destruct (spec op c) as [c1|] eqn:E1; cbn [mbind option_bind] in E; [|done].
  destruct (exec_correct _ _ _ _ _ I E1) as (s1 & N1 & -> & I1). cbn [mbind option_bind]. eauto.
Qed.

Lemma Inv_new_store : Inv new_store (lift ∅) ∅.
Proof.
  assert (forall x, lift ∅ !! x = None) as L by (intros [x|]; [rewrite lookup_lift | rewrite lookup_lift_None]; done).
  split; intros *; rewrite ?L; cbn; rewrite ?lookup_empty; [constructor | done | done | set_solver].
Qed.

(** What an access to a variable gives. *)
Definition accessed (T : type) (a : option (type * val)) : access (val := val) :=
  match a with Some (T', v) => if decide (T' = T) then Got v else CheckFailure | None => CheckFailure end.

Lemma get_correct s A N x a T : Inv s A N -> A !! x = Some a -> get on_stack self_pointing T x s = Some (accessed T a).
Proof.
  intros I Hx. destruct (inv_present _ _ _ _ _ I Hx) as (u & Hu & Ru). unfold get. rewrite Hu. cbn [mbind option_bind].
  inversion Ru as [|a0 HT Ea Eb HE|a0 T' v n HT L Ea Eb HE]; subst; rewrite HT; [done|]. cbn. case_decide as E; [subst|done].
  destruct (get_ptr_Live _ _ _ x _ _ L) as (o & -> & _ & <- & _). done.
Qed.

(** When names tell types apart, the access by name is the access by type. *)
Lemma unsafe_get_get (type_name : type -> list Z) (s : store) x T : Inj eq eq type_name -> unsafe_get on_stack self_pointing type_name T x s = get on_stack self_pointing T x s.
Proof.
  intros Hinj. unfold unsafe_get, get. destruct (anys s !! x) as [a|]; [|done]. cbn [mbind option_bind].
  destruct (type_ a) as [T'|]; [|done]. destruct (decide (T' = T)) as [->|Hne]; [by rewrite decide_True|].
  rewrite decide_False; [done|]. by intros ?%Hinj.
Qed.

(** C22: a program on [any] variables behaves like one on optional values of known
    types.  Whatever types are stored in place, as long as their objects do not hold
    their own address, and whichever are plain data: if the program uses only
    variables that exist, every constructor, move, copy, assignment, exchange and
    destructor succeeds, with no object destroyed or freed twice and no dead object
    read; [get] of a type returns the value when the variable holds one of that type,
    and otherwise fails its check; and when all variables are gone, the heap is empty
    and every destructor has run. *)
Theorem any_correct ops c : spec_all ops ∅ = Some c ->
  exists s, exec_all on_stack pod self_pointing ops new_store = Some s /\
    (forall x a, c !! x = Some a ->
      empty (Some x) s = Some (bool_decide (a = None)) /\ type_of (Some x) s = Some (fst <$> a) /\
      forall T, get on_stack self_pointing T (Some x) s = Some (accessed T a)) /\
    (forall x, c !! x = None -> anys s !! Some x = None) /\
    (c = ∅ -> heap s = ∅ /\ alive s = ∅).
Proof.
  intros E. destruct (exec_all_correct ops new_store ∅ ∅ c Inv_new_store E) as (s & N & Es & I).
  exists s. split; [done|]. split; [|split].
  - intros x a Hx. assert (lift c !! Some x = Some a) as Hl by (by rewrite lookup_lift). split; [|split].
    + destruct (inv_present _ _ _ _ _ I Hl) as (u & Hu & Ru). unfold empty. rewrite Hu. cbn.
      inversion Ru as [|a0 HT Ea Eb HE|a0 T v n HT L Ea Eb HE]; subst; rewrite HT; done.
    + destruct (inv_present _ _ _ _ _ I Hl) as (u & Hu & Ru). unfold type_of. rewrite Hu. cbn.
      inversion Ru as [|a0 HT Ea Eb HE|a0 T v n HT L Ea Eb HE]; subst; rewrite HT; done.
    + intros T. by apply (get_correct _ _ _ _ _ _ I).
  - intros x Hx. pose proof (inv_rel _ _ _ I (Some x)) as H. rewrite lookup_lift, Hx in H. by inversion H.
  - intros ->. assert (forall x, lift ∅ !! x = None) as L by (intros [x|]; [rewrite lookup_lift | rewrite lookup_lift_None]; done).
    split; [apply map_empty|apply set_eq].
    + intros n. destruct (heap s !! n) as [o|] eqn:Hn; [|done]. destruct (inv_heap _ _ _ I _ _ Hn) as (x & T & v & _ & HA & _). by rewrite L in HA.
    + intros n. split; [|set_solver]. intros Hn. destruct (inv_alive _ _ _ I _ Hn) as (x & T & v & _ & HA & _). by rewrite L in HA.
Qed.

End AnyCorrect.

(** The restriction is needed.  A value that is stored in place and moved has not moved by its
    own constructor: when it holds its own address, the moved object cannot be used. *)
Lemma self_pointing_object_breaks {type val} `{EqDecision type} (on_stack pod self_pointing : type -> bool) x y T (v : val) :
  on_stack T = true -> self_pointing T = true -> x <> y ->
  exists s, exec_all on_stack pod self_pointing [NewFrom x T v; NewMove y x] new_store = Some s /\
    get on_stack self_pointing T (Some y) s = None.
Proof.
  intros HT Hp Hxy. cbn [exec_all exec any_from new_data]. unfold any_from, new_data. rewrite HT. cbn -[lookup insert].
  unfold any_move. cbn [anys set_any]. rewrite lookup_insert_eq. cbn [mbind option_bind]. eexists. split; [done|].
  unfold get. cbn [anys set_any]. rewrite lookup_insert_ne by congruence. rewrite lookup_insert_eq. cbn [mbind option_bind type_ data].
  rewrite decide_True by done. cbn [get_ptr home]. rewrite HT, Hp, bool_decide_eq_true_2 by congruence. done.
Qed.

(** Two types: numbers, which are plain data in place, and objects on the heap that hold their own
    address. *)
Definition mixed_program : list (operation (type := bool) (val := nat)) :=
  [NewFrom 1 true 5; NewFrom 2 false 7; AssignCopy 1 2; NewMove 3 2; AssignValue 2 true 9; Swap 1 2; Delete 3].

Lemma any_correct_witness : exists s, exec_all (fun b : bool => b) (fun b : bool => b) negb mixed_program new_store = Some s /\
  get (fun b : bool => b) negb true (Some 1) s = Some (Got 9) /\ get (fun b : bool => b) negb true (Some 2) s = Some CheckFailure /\
  get (fun b : bool => b) negb false (Some 2) s = Some (Got 7).
Proof.
  assert (spec_all mixed_program ∅ = Some (<[1 := Some (true, 9)]> (<[2 := Some (false, 7)]> ∅))) as E by (vm_compute; reflexivity).
  assert (forall b : bool, b = true -> negb b = false) as Hm by (by intros [|]).
  destruct (any_correct (fun b : bool => b) (fun b : bool => b) negb Hm _ _ E) as (s & Es & Hget & _). exists s.
  split; [exact Es|]. destruct (Hget 1 (Some (true, 9)) eq_refl) as (_ & _ & H1). destruct (Hget 2 (Some (false, 7)) eq_refl) as (_ & _ & H2).
  split; [rewrite H1; reflexivity|]. split; [rewrite H2; reflexivity|]. rewrite H2. reflexivity.
Defined.
