(* ===== verification/TaskPool.v ===== *)
(** * The thread pool: src/orc/util/thread_pool.cc, src/orc/util/thread_pool.h

    A pool has bounded queues of tasks and workers, each of which takes tasks from
    one queue.  A queue is a ring buffer; what the pool needs of it is the class
    [BoundedQueue].  The pool is a machine in which workers, callers of [Schedule]
    and the destructor take turns in any order; a wait for a condition is a step
    that is not possible yet. *)
From Stdlib Require Import ZArith Lia.
From stdpp Require Import base list option.
From S2P Require Import Prelude.

(** ** Bounded queues *)

(** A queue of capacity [n] that holds the list [l], oldest first. *)
Class BoundedQueue (Q A : Type) : Type := {
  q_rep : Q -> nat -> list A -> Prop;
  q_new : nat -> Q;
  q_push : A -> Q -> option Q;
  q_pop : Q -> option (A * Q);
  q_new_rep n : q_rep (q_new n) n [];
  q_rep_fun q n l l' : q_rep q n l -> q_rep q n l' -> l = l';
  q_push_spec q n l t : q_rep q n l -> match q_push t q with Some q' => length l < n /\ q_rep q' n (l ++ [t]) | None => n <= length l end;
  q_pop_spec q n l : q_rep q n l -> match q_pop q with Some (t, q') => exists l', l = t :: l' /\ q_rep q' n l' | None => l = [] end
}.

(** [class TaskQueue]; a slot without a task is the empty function. *)
Record TaskQueue (A : Type) : Type := mkQueue { data : list (option A); front : nat; back : nat; size : nat; capacity : nat }.
Arguments mkQueue {A} data front back size capacity.
Arguments data {A} t.
Arguments front {A} t.
Arguments back {A} t.
Arguments size {A} t.
Arguments capacity {A} t.

(** [TaskQueue::TaskQueue]. *)
Definition new_TaskQueue {A} (capacity : nat) : TaskQueue A := mkQueue (replicate capacity None) 0 0 0 capacity.

(** A pointer that reached [end_] goes back to the start. *)
Definition advance (p capacity : nat) : nat := if (S p =? capacity)%nat then 0 else S p.

(** The common part of [Push] and [TryPush]. *)
Definition store {A} (t : A) (q : TaskQueue A) : TaskQueue A :=
  mkQueue (<[back q := Some t]> (data q)) (front q) (advance (back q) (capacity q)) (S (size q)) (capacity q).

(** The common part of [Pop] and [TryPop]: the task is moved out. *)
Definition take_front {A} (q : TaskQueue A) : option A * TaskQueue A :=
  (mjoin (data q !! front q),
   mkQueue (<[front q := None]> (data q)) (advance (front q) (capacity q)) (back q) (pred (size q)) (capacity q)).

(** [Push]: [None] while it waits. *)
Definition Push {A} (t : A) (q : TaskQueue A) : option (TaskQueue A) :=
  if capacity q <=? size q then None else Some (store t q).

(** [Pop]: [None] while it waits. *)
Definition Pop {A} (q : TaskQueue A) : option (A * TaskQueue A) :=
  if size q =? 0 then None
  else match take_front q with (Some t, q) => Some (t, q) | (None, _) => None end.

(** [TryPush]: the task comes back when the queue is full. *)
Definition TryPush {A} (t : A) (q : TaskQueue A) : option A * TaskQueue A :=
  if capacity q <=? size q then (Some t, q) else (None, store t q).

(** [TryPop]. *)
Definition TryPop {A} (q : TaskQueue A) : option A * TaskQueue A :=
  if size q =? 0 then (None, q) else take_front q.

(** ** The pool *)

(** The tasks of the pool: those of its users and the ones the destructor sends. *)
Inductive task : Type := User (n : nat) | StopTask.

(** A worker waits in [Pop], runs a task, is about to look at [stop_], has
    returned. *)
Inductive worker : Type := Waiting | Running (t : task) | Checking | Returned.

(** The destructor has not begun, or has these queues left to send to; at the end it
    joins the workers. *)
Inductive phase : Type := Open | Closing (todo : list nat).

#[export] Instance task_eq_dec : EqDecision task.
Proof. solve_decision. Defined.
#[export] Instance worker_eq_dec : EqDecision worker.
Proof. solve_decision. Defined.

Section Pool.
Context {Q : Type} `{BoundedQueue Q task}.

(** [class ThreadPool], with the tasks that were accepted and those that ran. *)
Record ThreadPool : Type := mkPool {
  queues : list Q; workers : list worker; stop : bool; pool_phase : phase;
  accepted : list nat; executed : list nat
}.

(** [ThreadPool::ThreadPool]. *)
Definition new_ThreadPool (worker_num queue_num queue_size : nat) : ThreadPool :=
  mkPool (replicate queue_num (q_new queue_size)) (replicate worker_num Waiting) false Open [] [].

Definition set_worker (w : nat) (st : worker) (p : ThreadPool) : ThreadPool :=
  mkPool (queues p) (<[w := st]> (workers p)) (stop p) (pool_phase p) (accepted p) (executed p).
Definition set_queue (k : nat) (q : Q) (p : ThreadPool) : ThreadPool :=
  mkPool (<[k := q]> (queues p)) (workers p) (stop p) (pool_phase p) (accepted p) (executed p).

(** Who moves: a worker, a caller of [Schedule] whose random number chose a queue,
    the destructor. *)
Inductive actor : Type := Worker (w : nat) | Schedule (k : nat) (n : nat) | Destructor.

(** The turns of [Loop]. *)
Definition Loop (w : nat) (p : ThreadPool) : option ThreadPool :=
  st ← workers p !! w;
  match st with
  | Waiting =>
      let k := w mod length (queues p) in
      q ← queues p !! k;
      '(t, q) ← q_pop q;
      Some (set_worker w (Running t) (set_queue k q p))
  | Running (User n) =>
      Some (mkPool (queues p) (<[w := Checking]> (workers p)) (stop p) (pool_phase p) (accepted p) (executed p ++ [n]))
  | Running StopTask =>
      Some (mkPool (queues p) (<[w := Checking]> (workers p)) true (pool_phase p) (accepted p) (executed p))
  | Checking => Some (set_worker w (if stop p then Returned else Waiting) p)
  | Returned => None
  end.

(** [ThreadPool::Schedule]: a task that does not fit goes back to the caller. *)
Definition schedule (k n : nat) (p : ThreadPool) : option ThreadPool :=
  match pool_phase p with
  | Closing _ => None
  | Open =>
      q ← queues p !! (k mod length (queues p));
      match q_push (User n) q with
      | None => Some p
      | Some q => Some (set_queue (k mod length (queues p)) q
                    (mkPool (queues p) (workers p) (stop p) (pool_phase p) (accepted p ++ [n]) (executed p)))
      end
  end.

(** The tasks that the destructor sends: [workers / queues + 1] to each queue. *)
Definition stop_tasks (p : ThreadPool) : list nat :=
  mjoin ((fun k => replicate (length (workers p) / length (queues p) + 1) k) <$> seq 0 (length (queues p))).

(** [ThreadPool::~ThreadPool]: it begins, it sends. *)
Definition destructor (p : ThreadPool) : option ThreadPool :=
  match pool_phase p with
  | Open => Some (mkPool (queues p) (workers p) (stop p) (Closing (stop_tasks p)) (accepted p) (executed p))
  | Closing [] => None
  | Closing (k :: todo) =>
      q ← queues p !! k;
      q ← q_push StopTask q;
      Some (set_queue k q (mkPool (queues p) (workers p) (stop p) (Closing todo) (accepted p) (executed p)))
  end.

Definition act (a : actor) (p : ThreadPool) : option ThreadPool :=
  match a with
  | Worker w => Loop w p
  | Schedule k n => schedule k n p
  | Destructor => destructor p
  end.

Fixpoint acts (l : list actor) (p : ThreadPool) : option ThreadPool :=
  match l with [] => Some p | a :: l => p ← act a p; acts l p end.

(** A turn of some actor. *)
Definition turn (p p' : ThreadPool) : Prop := exists a, act a p = Some p'.

(** The destructor is through: everything is sent and every worker joined. *)
Definition closed (p : ThreadPool) : Prop := pool_phase p = Closing [] /\ Forall (eq Returned) (workers p).
End Pool.
Arguments ThreadPool Q : clear implicits.

(** ** The ring buffer is a bounded queue *)

(** The ring from [front] on holds the list. *)
Definition ring_rep {A} (q : TaskQueue A) (n : nat) (l : list A) : Prop :=
  capacity q = n /\ length (data q) = n /\ size q = length l /\ length l <= n /\ (0 < n -> front q < n) /\
  back q = (if n =? 0 then 0 else (front q + length l) mod n) /\
  forall i t, l !! i = Some t -> data q !! ((front q + i) mod n) = Some (Some t).

Lemma ring_new {A} n : ring_rep (A := A) (new_TaskQueue n) n [].
Proof.
  repeat split; cbn; rewrite ?length_replicate; try lia; [|done]. destruct (Nat.eqb_spec n 0); [done|]. by rewrite Nat.Div0.mod_0_l.
Qed.

(** The ring determines the list. *)
Lemma ring_fun {A} (q : TaskQueue A) n l l' : ring_rep q n l -> ring_rep q n l' -> l = l'.
Proof.
  intros (_ & _ & Hs & _ & _ & _ & Hx) (_ & _ & Hs' & _ & _ & _ & Hx'). apply list_eq_same_length with (length l); [congruence | done|].
  intros i x y _ Hi Hi'. specialize (Hx _ _ Hi). specialize (Hx' _ _ Hi'). congruence.
Qed.

Lemma advance_mod p n : p < n -> advance p n = S p mod n.
Proof.
  intros Hp. unfold advance. destruct (Nat.eqb_spec (S p) n) as [->|Hne]; [by rewrite Nat.Div0.mod_same | by rewrite Nat.mod_small by lia].
Qed.

(** Different places of the ring. *)
Lemma ring_inj f i j n : i < n -> j < n -> (f + i) mod n = (f + j) mod n -> i = j.
Proof.
  intros Hi Hj E. pose proof (Nat.div_mod (f + i) n ltac:(lia)). pose proof (Nat.div_mod (f + j) n ltac:(lia)).
  assert ((f + i) / n = (f + j) / n \/ (f + i) / n < (f + j) / n \/ (f + j) / n < (f + i) / n) as [?|[?|?]] by lia; nia.
Qed.

Lemma ring_push {A} (q : TaskQueue A) n l t : ring_rep q n l ->
  match Push t q with Some q' => length l < n /\ ring_rep q' n (l ++ [t]) | None => n <= length l end.
Proof.
  intros (Hc & Hd & Hs & Hl & Hf & Hb & Hx). unfold Push. rewrite Hc, Hs. destruct (Nat.leb_spec n (length l)) as [Hfull|Hroom]; [done|].
  split; [done|]. specialize (Hf ltac:(lia)). rewrite (proj2 (Nat.eqb_neq n 0)) in Hb by lia.
  assert (back q < n) as Hbn by (rewrite Hb; apply Nat.mod_upper_bound; lia).
  unfold ring_rep, store. cbn [data front back size capacity]. rewrite length_insert, length_app. cbn [length].
  repeat (split; [done || lia|]). split.
  - rewrite (proj2 (Nat.eqb_neq n 0)) by lia. rewrite Hc, advance_mod, Hb by done.
    replace (front q + (length l + 1)) with (S (front q + length l)) by lia. rewrite <- Nat.add_1_l, <- (Nat.add_1_l (front q + _)).
    by rewrite Nat.Div0.add_mod_idemp_r.
  - intros i u Hi. destruct (decide (i = length l)) as [->|Hne].
    + rewrite <- Hb. rewrite list_lookup_insert_eq by lia. rewrite lookup_app_r, Nat.sub_diag in Hi by lia. cbn in Hi. congruence.
    + pose proof (lookup_lt_Some _ _ _ Hi) as Hlt. rewrite length_app in Hlt. cbn in Hlt. rewrite lookup_app_l in Hi by lia.
      rewrite list_lookup_insert_ne; [by apply Hx|]. rewrite Hb. intros E. apply ring_inj in E; lia.
Qed.

Lemma ring_pop {A} (q : TaskQueue A) n l : ring_rep q n l ->
  match Pop q with Some (t, q') => exists l', l = t :: l' /\ ring_rep q' n l' | None => l = [] end.
Proof.
  intros (Hc & Hd & Hs & Hl & Hf & Hb & Hx). unfold Pop. rewrite Hs. destruct l as [|t l]; [done|]. cbn [length Nat.eqb] in *.
  specialize (Hf ltac:(lia)). pose proof (Hx 0 t eq_refl) as H0. rewrite Nat.add_0_r, Nat.mod_small in H0 by done.
  unfold take_front. rewrite H0. cbn [mjoin option_join]. exists l. split; [done|].
  rewrite (proj2 (Nat.eqb_neq n 0)) in Hb by lia. unfold ring_rep. cbn [data front back size capacity]. rewrite length_insert, Hc, advance_mod by done.
  repeat (split; [done || lia|]). split; [intros _; apply Nat.mod_upper_bound; lia|]. split.
  - rewrite (proj2 (Nat.eqb_neq n 0)) by lia. rewrite Hb, Nat.Div0.add_mod_idemp_l. f_equal. lia.
  - intros i u Hi. pose proof (lookup_lt_Some _ _ _ Hi) as Hlt. rewrite Nat.Div0.add_mod_idemp_l.
    replace (S (front q) + i) with (front q + S i) by lia. rewrite list_lookup_insert_ne; [by apply Hx|].
    intros E. rewrite <- (Nat.mod_small (front q) n), <- (Nat.add_0_r (front q)) in E at 1 by done. apply ring_inj in E; lia.
Qed.

#[export] Instance TaskQueue_bounded A : BoundedQueue (TaskQueue A) A := {
  q_rep := ring_rep; q_new := new_TaskQueue; q_push := Push; q_pop := Pop;
  q_new_rep := ring_new; q_rep_fun := ring_fun; q_push_spec := ring_push; q_pop_spec := ring_pop
}.
