(* ===== verification/TaskPoolCorrect.v ===== *)
(** * The thread pool: every accepted task runs

    Against the interface of its queues: no turn loses or doubles a task; with one
    queue that has room for a task per worker, the destructor always comes to its
    end, whatever the order of turns, and by then every accepted task has run.  With
    several queues it may wait forever, or leave tasks behind. *)
From Stdlib Require Import ZArith Lia.
From stdpp Require Import base list option relations.
From S2P Require Import Prelude TaskPool.

Lemma TryPush_Push {A} (t : A) q : TryPush t q = match Push t q with Some q' => (None, q') | None => (Some t, q) end.
Proof. unfold TryPush, Push. by destruct (capacity q <=? size q). Qed.

Lemma TryPop_Pop {A} (q : TaskQueue A) n l : ring_rep q n l ->
  TryPop q = match Pop q with Some (t, q') => (Some t, q') | None => (None, q) end.
Proof.
  intros R. pose proof (ring_pop q n l R) as H. unfold TryPop, Pop in *.
  destruct (Nat.eqb_spec (size q) 0) as [|Hz]; [done|].
  destruct (take_front q) as [[t|] q'] eqn:E; [done|]. subst l. by destruct R as (_ & _ & Hs & _).
Qed.

(** ** Tasks are conserved *)

Definition users (l : list task) : list nat := omap (fun t => match t with User n => Some n | StopTask => None end) l.
Definition carried (w : worker) : list nat := match w with Running (User n) => [n] | _ => [] end.

Lemma users_app l l' : users (l ++ l') = users l ++ users l'.
Proof. apply omap_app. Qed.

Lemma join_insert {A B} (f : A -> list B) l k y : l !! k = Some y ->
  exists rest, mjoin (f <$> l) ≡ₚ f y ++ rest /\ forall x, mjoin (f <$> <[k := x]> l) ≡ₚ f x ++ rest.
Proof.
  intros Hk. exists (mjoin (f <$> take k l) ++ mjoin (f <$> drop (S k) l)). split.
  - rewrite <- (take_drop_middle _ _ _ Hk) at 1. rewrite fmap_app, join_app, fmap_cons. cbn. by rewrite app_assoc, (Permutation_app_comm _ (f y)), <- app_assoc.
  - intros x. rewrite insert_take_drop by (by apply lookup_lt_Some in Hk). rewrite fmap_app, join_app, fmap_cons. cbn.
    by rewrite app_assoc, (Permutation_app_comm _ (f x)), <- app_assoc.
Qed.

Section Conservation.
Context {Q : Type} `{!BoundedQueue Q task} (cap : nat).
Implicit Types p : ThreadPool Q.

(** The queues hold the lists [ls]; what was accepted has run, is carried by a
    worker or is in a queue. *)
Record Conserved p (ls : list (list task)) : Prop := {
  con_queues : Forall2 (fun q l => q_rep q cap l) (queues p) ls;
  con_tasks : accepted p ≡ₚ executed p ++ mjoin (carried <$> workers p) ++ mjoin (users <$> ls)
}.

Lemma con_queue p ls k q : Conserved p ls -> queues p !! k = Some q -> exists l, ls !! k = Some l /\ q_rep q cap l.
Proof. intros C Hq. destruct (Forall2_lookup_l _ _ _ _ _ (con_queues _ _ C) Hq) as (l & Hl & R). eauto. Qed.

Lemma Loop_conserved w p p' ls : Conserved p ls -> Loop w p = Some p' ->
  exists ls', Conserved p' ls'.
Proof.
  intros C E. unfold Loop in E. destruct (workers p !! w) as [st|] eqn:Hw; cbn [mbind option_bind] in E; [|done].
  destruct (join_insert carried _ _ _ Hw) as (rest & E1 & E2). destruct C as [Hq Ht]. rewrite E1 in Ht.
  destruct st as [|[n|]| |]; simplify_eq.
  - destruct (queues p !! (w mod length (queues p))) as [q|] eqn:Hk; cbn [mbind option_bind] in E; [|done].
    destruct (Forall2_lookup_l _ _ _ _ _ Hq Hk) as (l & Hl & R). pose proof (q_pop_spec q cap l R) as Hpop.
    destruct (q_pop q) as [[t q']|]; cbn [mbind option_bind] in E; [|done]. destruct Hpop as (l' & -> & R'). simplify_eq.
    exists (<[w mod length (queues p) := l']> ls). split; cbn [set_worker set_queue queues accepted executed workers]; [by apply Forall2_insert|].
    destruct (join_insert users _ _ _ Hl) as (rest' & F1 & F2). rewrite E2, F2, Ht, F1. apply Permutation_app_head.
    destruct t as [n|]; cbn; [symmetry; apply Permutation_middle | done].
  - exists ls. split; cbn [queues accepted executed workers]; [done|]. rewrite E2, Ht. cbn. by rewrite <- app_assoc.
  - exists ls. split; cbn [queues accepted executed workers]; [done|]. by rewrite E2, Ht.
  - exists ls. split; cbn [set_worker queues accepted executed workers]; [done|]. rewrite E2, Ht. by destruct (stop p).
Qed.

Lemma act_conserved a p p' ls : Conserved p ls -> act a p = Some p' -> exists ls', Conserved p' ls'.
Proof.
  intros C E. destruct a as [w|k n|]; cbn [act] in E; [by eapply Loop_conserved|..].
  - unfold schedule in E. destruct (pool_phase p); [|done]. set (j := k mod length (queues p)) in *.
    destruct (queues p !! j) as [q|] eqn:Hj; cbn [mbind option_bind] in E; [|done].
    destruct (con_queue _ _ _ _ C Hj) as (l & Hl & R). pose proof (q_push_spec q cap l (User n) R) as Hp.
    destruct (q_push (User n) q) as [q'|]; simplify_eq; [|eauto]. destruct Hp as [_ R'], C as [Hq Ht].
    exists (<[j := l ++ [User n]]> ls). split; cbn [set_queue queues accepted executed workers]; [by apply Forall2_insert|].
    destruct (join_insert users _ _ _ Hl) as (rest & F1 & F2). rewrite F2, Ht, F1, users_app. cbn.
    rewrite <- !app_assoc. do 3 apply Permutation_app_head. apply Permutation_app_comm.
  - unfold destructor in E. destruct (pool_phase p) as [|[|k todo]]; simplify_eq; [exists ls; by destruct C|].
    destruct (queues p !! k) as [q|] eqn:Hk; cbn [mbind option_bind] in E; [|done].
    destruct (con_queue _ _ _ _ C Hk) as (l & Hl & R). pose proof (q_push_spec q cap l StopTask R) as Hp.
    destruct (q_push StopTask q) as [q'|]; cbn [mbind option_bind] in E; simplify_eq. destruct Hp as [_ R'], C as [Hq Ht].
    exists (<[k := l ++ [StopTask]]> ls). split; cbn [set_queue queues accepted executed workers]; [by apply Forall2_insert|].
    destruct (join_insert users _ _ _ Hl) as (rest & F1 & F2). rewrite F2, Ht, F1, users_app. cbn. by rewrite app_nil_r.
Qed.

Lemma new_conserved wn qn : Conserved (new_ThreadPool wn qn cap) (replicate qn []).
Proof.
  split; cbn.
  - apply Forall2_replicate, q_new_rep.
  - assert (forall n, mjoin (carried <$> replicate n Waiting) = []) as -> by (induction n; [done | by cbn]).
    assert (forall n, mjoin (users <$> replicate n []) = []) as -> by (induction n; [done | by cbn]). done.
Qed.

Lemma acts_conserved l : forall p p' ls, Conserved p ls -> acts l p = Some p' -> exists ls', Conserved p' ls'.
Proof.
  induction l as [|a l IH]; intros p p' ls C E; cbn [acts] in E; [simplify_eq; eauto|].
  destruct (act a p) as [p1|] eqn:Ea; cbn [mbind option_bind] in E; [|done].
  destruct (act_conserved _ _ _ _ C Ea) as [ls1 C1]. eauto.
Qed.
End Conservation.

(** ** One queue *)

(** Whatever turns are taken, they come to an end, and then [P] holds. *)
Inductive inevitably {S : Type} (step : S -> S -> Prop) (P : S -> Prop) (s : S) : Prop :=
  inevitably_intro : ((forall s', ~ step s s') -> P s) -> (forall s', step s s' -> inevitably step P s') -> inevitably step P s.

Lemma sum_with_insert {A} (f : A -> nat) l k y : l !! k = Some y ->
  exists rest, sum_list_with f l = f y + rest /\ forall x, sum_list_with f (<[k := x]> l) = f x + rest.
Proof.
  intros Hk. exists (sum_list_with f (take k l) + sum_list_with f (drop (S k) l)). split.
  - rewrite <- (take_drop_middle _ _ _ Hk) at 1. rewrite sum_list_with_app. cbn. lia.
  - intros x. rewrite insert_take_drop by (by apply lookup_lt_Some in Hk). rewrite sum_list_with_app. cbn. lia.
Qed.

(** Workers that carry a stop task, that may have run one, that have returned. *)
Definition carries_stop (w : worker) : nat := match w with Running StopTask => 1 | _ => 0 end.
Definition took_stop (w : worker) : nat := match w with Running StopTask | Checking | Returned => 1 | _ => 0 end.
Definition has_returned (w : worker) : nat := match w with Returned => 1 | _ => 0 end.
(** The turns a worker may still take without the queue. *)
Definition weight (w : worker) : nat := match w with Running _ => 3 | Checking => 2 | Waiting => 1 | Returned => 0 end.

Section OneQueue.
Context {Q : Type} `{!BoundedQueue Q task} (W cap : nat) (HW : 1 <= W) (Hcap : W <= cap).
Implicit Types p : ThreadPool Q.
#[local] Notation sum f p := (sum_list_with f (workers p)).

(** The stop tasks that are still to be sent. *)
Definition unsent p : nat := match pool_phase p with Open => W + 1 | Closing todo => length todo end.

(** The queue has tasks of users [us], then [j] stop tasks; the other stop tasks
    that were sent have been taken. *)
Record One p (us : list nat) (j : nat) : Prop := {
  one_queue : exists q, queues p = [q] /\ q_rep q cap ((User <$> us) ++ replicate j StopTask);
  one_workers : length (workers p) = W;
  one_todo todo : pool_phase p = Closing todo -> Forall (eq 0) todo;
  one_sent : unsent p + j <= W + 1;
  one_order : unsent p + j < W + 1 -> us = [];
  one_running : stop p = false -> unsent p + j + sum carries_stop p = W + 1 /\ sum has_returned p = 0;
  one_stopped : stop p = true -> unsent p + j < W + 1 /\ W + 1 <= unsent p + j + sum took_stop p
}.

Definition measure p (us : list nat) (j : nat) : nat := 4 * unsent p + 3 * (length us + j) + sum weight p.

Lemma One_new : One (new_ThreadPool W 1 cap) [] 0.
Proof.
  assert (forall f, f Waiting = 0 -> forall n, sum_list_with f (replicate n Waiting) = 0) as Hz.
  { intros f Hf n. induction n as [|n IH]; cbn; lia. }
  split; cbn; try lia; try done.
  - exists (q_new cap). split; [done | apply q_new_rep].
  - by rewrite length_replicate.
  - intros _. rewrite !Hz by done. lia.
Qed.

(** Sums over the workers when one of them changes. *)
Lemma sums p w st : workers p !! w = Some st -> exists a b c d,
  (sum carries_stop p = carries_stop st + a /\ sum took_stop p = took_stop st + b /\ sum has_returned p = has_returned st + c /\ sum weight p = weight st + d) /\
  forall st', sum_list_with carries_stop (<[w := st']> (workers p)) = carries_stop st' + a /\
    sum_list_with took_stop (<[w := st']> (workers p)) = took_stop st' + b /\
    sum_list_with has_returned (<[w := st']> (workers p)) = has_returned st' + c /\
    sum_list_with weight (<[w := st']> (workers p)) = weight st' + d.
Proof.
  intros Hw. destruct (sum_with_insert carries_stop _ _ _ Hw) as (a & Ea & Ea'), (sum_with_insert took_stop _ _ _ Hw) as (b & Eb & Eb'),
    (sum_with_insert has_returned _ _ _ Hw) as (c & Ec & Ec'), (sum_with_insert weight _ _ _ Hw) as (d & Ed & Ed').
  exists a, b, c, d. split; [done|]. intros st'. by rewrite Ea', Eb', Ec', Ed'.
Qed.

Lemma One_pop w p us j q t q' : One p us j -> queues p = [q] -> workers p !! w = Some Waiting -> q_pop q = Some (t, q') ->
  exists us' j', One (set_worker w (Running t) (set_queue 0 q' p)) us' j' /\
    measure (set_worker w (Running t) (set_queue 0 q' p)) us' j' < measure p us j.
Proof.
  intros [(q0 & Eq & R) Hl Htodo Hs Ho Hr Hst] Eq' Hw Hpop. assert (q0 = q) as -> by congruence.
  pose proof (q_pop_spec _ _ _ R) as Hp. rewrite Hpop in Hp. destruct Hp as (l' & El & R').
  destruct (sums p w Waiting Hw) as (a & b & c & d & (Ea & Eb & Ec & Ed) & Hsum). destruct (Hsum (Running t)) as (Fa & Fb & Fc & Fd).
  cbn in Ea, Eb, Ec, Ed, Fa, Fb, Fc, Fd.
  destruct us as [|u us].
  - destruct j as [|j]; cbn in El; [done|]. injection El as <- <-. exists [], j. cbn in Fa, Fb, Fc, Fd. split.
    + split; unfold unsent in *; cbn [set_worker set_queue queues workers stop pool_phase]; rewrite ?length_insert, ?Eq; cbn [list_insert]; try done.
      * exists q'. split; [done|]. exact R'.
      * destruct (pool_phase p); lia.
      * intros Hf. destruct (Hr Hf). rewrite Fa, Fc. destruct (pool_phase p); lia.
      * intros Hf. destruct (Hst Hf). rewrite Fb. destruct (pool_phase p); lia.
    + unfold measure, unsent. cbn [set_worker set_queue queues workers stop pool_phase]. rewrite Fd, Ed. destruct (pool_phase p); cbn; lia.
  - cbn in El. injection El as <- <-. exists us, j. cbn in Fa, Fb, Fc, Fd. split.
    + split; unfold unsent in *; cbn [set_worker set_queue queues workers stop pool_phase]; rewrite ?length_insert, ?Eq; cbn [list_insert]; try done.
      * exists q'. split; [done|]. exact R'.
      * intros Hlt. by discriminate (Ho Hlt).
      * intros Hf. destruct (Hr Hf). rewrite Fa, Fc. destruct (pool_phase p); lia.
      * intros Hf. destruct (Hst Hf). rewrite Fb. destruct (pool_phase p); lia.
    + unfold measure, unsent. cbn [set_worker set_queue queues workers stop pool_phase]. rewrite Fd, Ed. destruct (pool_phase p); cbn; lia.
Qed.

(** A worker goes on without the queue. *)
Lemma One_worker w p us j st st' (b : bool) ex : One p us j -> workers p !! w = Some st ->
  carries_stop st' <= carries_stop st ->
  (b = false -> stop p = false /\ carries_stop st = carries_stop st' /\ has_returned st' = 0) ->
  (b = true -> stop p = true /\ took_stop st <= took_stop st' \/ carries_stop st = 1 /\ took_stop st' = 1) ->
  weight st' < weight st ->
  One (mkPool (queues p) (<[w := st']> (workers p)) b (pool_phase p) (accepted p) ex) us j /\
  measure (mkPool (queues p) (<[w := st']> (workers p)) b (pool_phase p) (accepted p) ex) us j < measure p us j.
Proof.
  intros [Hq Hl Htodo Hs Ho Hr Hst] Hw Hc Hf Ht Hwt.
  destruct (sums p w st Hw) as (x & y & z & d & (Ea & Eb & Ec & Ed) & Hsum). destruct (Hsum st') as (Fa & Fb & Fc & Fd).
  assert (carries_stop st <= took_stop st <= 1) by (destruct st as [|[]| |]; cbn; lia).
  assert (sum carries_stop p <= sum took_stop p).
  { clear. induction (workers p) as [|v vs IH]; cbn; [lia|]. destruct v as [|[]| |]; cbn; lia. }
  split.
  - split; unfold unsent in *; cbn [queues workers stop pool_phase]; rewrite ?length_insert; try done.
    + intros ->. destruct (Hf eq_refl) as (Hsf & Hcc & Hrr). destruct (Hr Hsf). rewrite Fa, Fc. lia.
    + intros ->. destruct (Ht eq_refl) as [[Hst' Hle]|[Hc1 Ht1]].
      * destruct (Hst Hst'). rewrite Fb. lia.
      * destruct (stop p) eqn:Es; [destruct (Hst eq_refl); rewrite Fb; lia|]. destruct (Hr eq_refl). rewrite Fb. lia.
  - unfold measure, unsent. cbn [queues workers stop pool_phase]. rewrite Fd, Ed. lia.
Qed.

Lemma One_Loop w p p' us j : One p us j -> Loop w p = Some p' ->
  exists us' j', One p' us' j' /\ measure p' us' j' < measure p us j.
Proof.
  intros I E. unfold Loop in E. destruct (workers p !! w) as [st|] eqn:Hw; cbn [mbind option_bind] in E; [|done].
  destruct st as [|[n|]| |]; simplify_eq.
  - destruct (one_queue _ _ _ I) as (q & Eq & _). rewrite Eq in E. cbn [length] in E. rewrite Nat.mod_1_r in E. cbn [lookup list_lookup mbind option_bind] in E.
    destruct (q_pop q) as [[t q']|] eqn:Hp; cbn [mbind option_bind] in E; [|done]. simplify_eq. by eapply One_pop.
  - exists us, j. apply (One_worker w p us j (Running (User n))); cbn; auto with lia.
  - exists us, j. apply (One_worker w p us j (Running StopTask)); cbn; auto with lia.
  - exists us, j. unfold set_worker. apply (One_worker w p us j Checking); [done | done | destruct (stop p); cbn; lia | | | destruct (stop p); cbn; lia].
    + intros ->. done.
    + intros ->. left. done.
Qed.

Lemma One_schedule k n p p' us j : One p us j -> schedule k n p = Some p' -> exists us' j', One p' us' j'.
Proof.
  intros I E. pose proof I as [(q & Eq & R) Hl Htodo Hs Ho Hr Hst]. unfold schedule in E. destruct (pool_phase p) eqn:Hph; [|done].
  rewrite Eq in E. cbn [length] in E. rewrite Nat.mod_1_r in E. cbn [lookup list_lookup mbind option_bind] in E.
  pose proof (q_push_spec q cap _ (User n) R) as Hp. destruct (q_push (User n) q) as [q'|]; simplify_eq; [|eauto].
  destruct Hp as [_ R']. assert (j = 0) as -> by (unfold unsent in Hs; rewrite Hph in Hs; lia). exists (us ++ [n]), 0.
  split; unfold unsent in *; cbn [set_queue queues workers stop pool_phase]; rewrite ?Eq, ?Hph in *; cbn [list_insert]; try done; try lia.
  exists q'. split; [done|]. rewrite fmap_app. cbn [replicate] in *. rewrite app_nil_r in *. exact R'.
Qed.

Lemma One_destructor p p' us j : One p us j -> destructor p = Some p' ->
  exists us' j', One p' us' j' /\ (pool_phase p <> Open -> measure p' us' j' < measure p us j).
Proof.
  intros [(q & Eq & R) Hl Htodo Hs Ho Hr Hst] E. unfold destructor in E. destruct (pool_phase p) as [|[|k todo]] eqn:Hph; [| done |].
  - assert (stop_tasks p = replicate (W + 1) 0) as Et by (unfold stop_tasks; rewrite Eq, Hl; cbn [length seq]; rewrite Nat.div_1_r; cbn; by rewrite app_nil_r).
    simplify_eq. exists us, j. split; [|done].
    split; unfold unsent in *; cbn [queues workers stop pool_phase]; rewrite ?Hph, ?Et, ?length_replicate in *; eauto.
    intros todo [= <-]. by apply Forall_replicate.
  - pose proof (Htodo _ eq_refl) as Hz. apply list.Forall_cons in Hz as [<- Hz]. rewrite Eq in E. cbn [lookup list_lookup mbind option_bind] in E.
    pose proof (q_push_spec q cap _ StopTask R) as Hp. destruct (q_push StopTask q) as [q'|]; cbn [mbind option_bind] in E; [|done].
    simplify_eq. destruct Hp as [_ R']. exists us, (S j). split.
    + split; unfold unsent in *; cbn [set_queue queues workers stop pool_phase]; rewrite ?Eq, ?Hph in *; cbn [list_insert length] in *; try done; try lia.
      * exists q'. split; [done|]. rewrite <- app_assoc, <- replicate_cons_app in R'. exact R'.
      * by intros todo' [= <-].
      * intros Hlt. apply Ho. lia.
      * intros Hf. destruct (Hr Hf). lia.
      * intros Hf. destruct (Hst Hf). lia.
    + intros _. unfold measure, unsent. cbn [set_queue queues workers stop pool_phase]. rewrite Hph. cbn [length]. lia.
Qed.

Lemma sum_bound (f : worker -> nat) l : (forall w, f w <= 1) -> sum_list_with f l <= length l.
Proof. intros Hf. induction l as [|w l IH]; cbn; [lia|]. specialize (Hf w). lia. Qed.

(** A closing pool in which nobody can move is closed. *)
Lemma stuck_closed p us j : One p us j -> pool_phase p <> Open -> (forall p', ~ turn p p') -> closed p /\ us = [].
Proof using HW Hcap.
  intros I Hph Hstuck. pose proof I as [(q & Eq & R) Hl Htodo Hs Ho Hr Hst].
  assert (forall w st, workers p !! w = Some st -> st = Waiting /\ us = [] /\ j = 0 \/ st = Returned) as Hws.
  { intros w st Hw. assert (Loop w p = None) as E.
    { destruct (Loop w p) as [p'|] eqn:E; [|done]. destruct (Hstuck p'). by exists (Worker w). }
    unfold Loop in E. rewrite Hw in E. cbn [mbind option_bind] in E. destruct st as [|[n|]| |]; try done; [left|by right].
    rewrite Eq in E. cbn [length] in E. rewrite Nat.mod_1_r in E. cbn [lookup list_lookup mbind option_bind] in E.
    pose proof (q_pop_spec _ _ _ R) as Hp. destruct (q_pop q) as [[t q']|]; [done|].
    apply app_eq_nil in Hp as [Hu Hj]. split; [done|]. split; [by destruct us | by destruct j]. }
  assert (forall todo, pool_phase p = Closing todo -> todo <> [] -> cap <= length us + j) as Hfull.
  { intros todo Htd Hne. assert (destructor p = None) as E.
    { destruct (destructor p) as [p'|] eqn:E; [|done]. destruct (Hstuck p'). by exists Destructor. }
    unfold destructor in E. rewrite Htd in E. destruct todo as [|k todo]; [done|]. pose proof (Htodo _ Htd) as Hz.
    apply list.Forall_cons in Hz as [<- _]. rewrite Eq in E. cbn [lookup list_lookup mbind option_bind] in E.
    pose proof (q_push_spec q cap _ StopTask R) as Hp. destruct (q_push StopTask q); [done|].
    rewrite length_app, length_fmap, length_replicate in Hp. done. }
  destruct (pool_phase p) as [|todo] eqn:Htd; [done|]. specialize (Hfull todo eq_refl). unfold unsent in *. rewrite Htd in *.
  assert (sum carries_stop p = 0) as Hc0.
  { assert (Forall (fun st => carries_stop st = 0) (workers p)) as F.
    { apply Forall_lookup. intros w st Hw. by destruct (Hws _ _ Hw) as [[-> _]| ->]. }
    clear -F. induction F as [|st l E F IH]; cbn; lia. }
  pose proof (sum_bound took_stop (workers p) ltac:(intros [|[]| |]; cbn; lia)) as Hb.
  assert (Forall (eq Returned) (workers p)) as Hret.
  { apply Forall_lookup. intros w st Hw. destruct (Hws _ _ Hw) as [(-> & -> & ->)| ->]; [|done]. exfalso.
    destruct todo as [|k todo]; [|specialize (Hfull ltac:(done)); cbn in Hfull; lia]. cbn in *.
    destruct (stop p); [destruct (Hst eq_refl) | destruct (Hr eq_refl)]; lia. }
  assert (sum has_returned p = W) as Hrw.
  { rewrite <- Hl. clear -Hret. induction Hret as [|st l <- F IH]; cbn; lia. }
  destruct (stop p) eqn:Es; [|destruct (Hr eq_refl); lia]. destruct (Hst eq_refl) as [Hlt _]. pose proof (Ho Hlt) as ->.
  split; [|done]. split; [|done]. destruct todo as [|k todo]; [done|]. specialize (Hfull ltac:(done)). cbn in Hfull, Hlt. lia.
Qed.

(** A pool that is closing stays so. *)
Lemma act_closing a p p' : act a p = Some p' -> pool_phase p <> Open -> pool_phase p' <> Open.
Proof using.
  intros E Hph. destruct a as [w|k u|]; cbn [act] in E.
  - unfold Loop in E. destruct (workers p !! w) as [st|]; cbn [mbind option_bind] in E; [|done].
    destruct st as [|[n|]| |]; simplify_eq; try done. destruct (queues p !! _) as [q|]; cbn [mbind option_bind] in E; [|done].
    destruct (q_pop q) as [[t q']|]; cbn [mbind option_bind] in E; by simplify_eq.
  - unfold schedule in E. by destruct (pool_phase p).
  - unfold destructor in E. destruct (pool_phase p) as [|[|k todo]]; [done | done|].
    destruct (queues p !! k) as [q|]; cbn [mbind option_bind] in E; [|done].
    destruct (q_push StopTask q) as [q'|]; cbn [mbind option_bind] in E; by simplify_eq.
Qed.

Lemma One_closing a p p' us j : One p us j -> pool_phase p <> Open -> act a p = Some p' ->
  exists us' j', One p' us' j' /\ measure p' us' j' < measure p us j.
Proof using HW Hcap.
  intros I Hph E. destruct a as [w|k u|]; cbn [act] in E.
  - by eapply One_Loop.
  - unfold schedule in E. by destruct (pool_phase p).
  - destruct (One_destructor _ _ _ _ I E) as (us' & j' & I' & Hm'). eauto.
Qed.

(** The pool with both invariants. *)
Lemma closing_ends n : forall p us j ls, One p us j -> Conserved cap p ls -> pool_phase p <> Open -> measure p us j < n ->
  inevitably turn (fun p => closed p /\ executed p ≡ₚ accepted p) p.
Proof using HW Hcap.
  induction n as [|n IH]; intros p us j ls I C Hph Hm; [lia|]. constructor.
  - intros Hstuck. destruct (stuck_closed _ _ _ I Hph Hstuck) as [Hcl ->]. split; [done|].
    destruct I as [(q & Eq & R) _ _ _ _ _ _]. destruct C as [Hq Ht]. rewrite Eq in Hq.
    inversion Hq as [|? l ? ls' R' Hnil]; subst. inversion Hnil; subst. rewrite Ht, (q_rep_fun _ _ _ _ R' R).
    assert (mjoin (carried <$> workers p) = []) as -> by (destruct Hcl as [_ F]; clear -F; induction F as [|st k <- F IH]; by cbn).
    assert (users ((User <$> []) ++ replicate j StopTask) = []) as E by (cbn; clear; induction j; by cbn).
    rewrite app_nil_l. cbn [fmap list_fmap mjoin list_join]. change ([] ++ replicate j StopTask) with ((User <$> []) ++ replicate j StopTask). by rewrite E, !app_nil_r.
  - intros p' [a Ea]. destruct (act_conserved _ _ _ _ _ C Ea) as [ls' C'].
    destruct (One_closing _ _ _ _ _ I Hph Ea) as (us' & j' & I' & Hm').
    eapply IH; [exact I' | exact C' | by eapply act_closing | lia].
Qed.

Lemma act_one a p p' us j : One p us j -> act a p = Some p' -> exists us' j', One p' us' j'.
Proof using HW Hcap.
  intros I E. destruct a as [w|k u|]; cbn [act] in E.
  - destruct (One_Loop _ _ _ _ _ I E) as (us' & j' & I' & _). eauto.
  - by eapply One_schedule.
  - destruct (One_destructor _ _ _ _ I E) as (us' & j' & I' & _). eauto.
Qed.

Lemma acts_one l : forall p p' us j, One p us j -> acts l p = Some p' -> exists us' j', One p' us' j'.
Proof using HW Hcap.
  induction l as [|a l IH]; intros p p' us j I E; cbn [acts] in E; [simplify_eq; eauto|].
  destruct (act a p) as [p1|] eqn:Ea; cbn [mbind option_bind] in E; [|done].
  destruct (act_one _ _ _ _ _ I Ea) as (us1 & j1 & I1). eauto.
Qed.

Lemma pool_closes l p : acts l (new_ThreadPool W 1 cap) = Some p -> pool_phase p <> Open ->
  inevitably turn (fun p => closed p /\ executed p ≡ₚ accepted p) p.
Proof using HW Hcap.
  intros E Hph. destruct (acts_one _ _ _ _ _ One_new E) as (us & j & I).
  destruct (acts_conserved cap _ _ _ _ (new_conserved cap W 1) E) as [ls C]. eapply closing_ends; eauto.
Qed.
End OneQueue.

(** ** Theorems *)

#[local] Notation pool := (ThreadPool (TaskQueue task)).

(** Nothing is lost or run twice, with any number of workers and queues: a task that
    was accepted has run, is carried by a worker or waits in a queue. *)
Lemma tasks_conserved worker_num queue_num queue_size l (p : pool) :
  acts l (new_ThreadPool worker_num queue_num queue_size) = Some p ->
  exists ls, Forall2 (fun q l => ring_rep q queue_size l) (queues p) ls /\
    accepted p ≡ₚ executed p ++ mjoin (carried <$> workers p) ++ mjoin (users <$> ls).
Proof.
  intros E. destruct (acts_conserved queue_size _ _ _ _ (new_conserved queue_size worker_num queue_num) E) as (ls & Hq & Ht). by exists ls.
Qed.

(** C23: the destructor of a pool with one queue comes to its end.  Let the pool have
    at least one worker, and room in its ring buffer for a task per worker.  After
    any turns of workers and callers, once the destructor has begun, every order of
    turns is finite, and when nobody can move any more the destructor has sent all
    its tasks, every worker has returned, and every task that was accepted has been
    run exactly once. *)
Theorem destructor_finishes worker_num queue_size l (p : pool) : 1 <= worker_num -> worker_num <= queue_size ->
  acts l (new_ThreadPool worker_num 1 queue_size) = Some p -> pool_phase p <> Open ->
  inevitably turn (fun p => closed p /\ executed p ≡ₚ accepted p) p.
Proof. intros HW Hcap. apply pool_closes; done. Qed.

Lemma destructor_finishes_witness : exists p : pool,
  acts [Schedule 0 7; Worker 0; Schedule 3 8; Destructor; Destructor] (new_ThreadPool 2 1 2) = Some p /\
  inevitably turn (fun p => closed p /\ executed p ≡ₚ accepted p) p.
Proof.
  eexists. split; [vm_compute; reflexivity|].
  apply (destructor_finishes 2 2 [Schedule 0 7; Worker 0; Schedule 3 8; Destructor; Destructor]); [lia | lia | vm_compute; reflexivity | discriminate].
Defined.

(** The destructor of a pool with several queues can wait forever.  Two workers,
    two queues of one place: the first worker takes a stop task while the
    second runs a task; the second then returns, its queue is full, and the
    destructor waits for a place in it forever. *)
Lemma destructor_hangs : exists p : pool,
  acts [Schedule 1 7; Worker 1; Schedule 1 8; Destructor; Destructor; Worker 0; Worker 0; Worker 0; Destructor; Worker 1; Worker 1]
    (new_ThreadPool 2 2 1) = Some p /\
  ~ closed p /\ executed p = [7] /\ accepted p = [7; 8] /\ forall p', ~ turn p p'.
Proof.
  eexists. split; [vm_compute; reflexivity|]. split; [by intros [E _]|]. split; [done|]. split; [done|].
  intros p' [[w|k n|] E]; [|done|done]. destruct w as [|[|w]]; done.
Qed.
