(* ===== verification/Nodes.v ===== *)
(** * The node collection: src/leader/node_collection_impl.cc,
    src/leader/brpc/brpc_bad_node_detector.cc

    The addresses of the servers of each path, as their heartbeats report them, less
    those on a black list, with an index from addresses to paths and a round-robin
    position for each path.  The updates hold a lock, so each is one step. *)
From Stdlib Require Import ZArith Lia.
From stdpp Require Import base list option gmap.
From S2P Require Import Prelude Strings.

(** ** State and operations *)

(** [class NodeCollectionImpl]. *)
Record NodeCollectionImpl : Type := mkNodes {
  nodes_iindex : gmap bytes (gset bytes);
  black_list : gset bytes;
  valid_nodes : gmap bytes (list bytes);
  round_robin_index_map : gmap bytes nat
}.

Definition new_NodeCollectionImpl : NodeCollectionImpl := mkNodes ∅ ∅ ∅ ∅.

(** The path of a node in the index. *)
Definition index_node (path : bytes) (ix : gmap bytes (gset bytes)) (node : bytes) : gmap bytes (gset bytes) :=
  match ix !! node with
  | None => <[node := {[path]}]> ix
  | Some s => <[node := {[path]} ∪ s]> ix
  end.

(** [UpdateHeartbeat]. *)
Definition UpdateHeartbeat (nodes : list bytes) (path : bytes) (c : NodeCollectionImpl) : NodeCollectionImpl :=
  let validNodes := filter (fun node => node ∉ black_list c) nodes in
  mkNodes (foldl (index_node path) (nodes_iindex c) validNodes) (black_list c)
    (<[path := validNodes]> (valid_nodes c))
    (match round_robin_index_map c !! path with
     | None => <[path := 0]> (round_robin_index_map c)
     | Some _ => round_robin_index_map c
     end).

(** Whether a path is the given one or below it. *)
Definition is_under (p path : bytes) : bool :=
  bool_decide (take (length path) p = path) && ((length p =? length path) || bool_decide (p !! length path = Some 47%Z)).

(** A node of a path that is removed: the index, and the nodes that are gone. *)
Definition unindex_node (remove : bytes) (st : gmap bytes (gset bytes) * list bytes) (node : bytes) : gmap bytes (gset bytes) * list bytes :=
  let '(ix, removedNodes) := st in
  match ix !! node with
  | None => (ix, removedNodes ++ [node])
  | Some s =>
      let s := s ∖ {[remove]} in
      if decide (s = ∅) then (delete node ix, removedNodes ++ [node]) else (<[node := s]> ix, removedNodes)
  end.

(** The loop over the paths that are removed. *)
Definition remove_path (st : gmap bytes (gset bytes) * gmap bytes (list bytes) * list bytes) (remove : bytes)
    : gmap bytes (gset bytes) * gmap bytes (list bytes) * list bytes :=
  let '(ix, valid, removedNodes) := st in
  match valid !! remove with
  | None => st
  | Some l => let '(ix, removedNodes) := foldl (unindex_node remove) (ix, removedNodes) l in (ix, delete remove valid, removedNodes)
  end.

(** [RemovePath] of several paths, and of one. *)
Definition RemovePaths (paths : list bytes) (c : NodeCollectionImpl) : NodeCollectionImpl :=
  let removePaths := filter (fun p => existsb (is_under p) paths) (map_to_list (valid_nodes c)).*1 in
  let '(ix, valid, removedNodes) := foldl remove_path (nodes_iindex c, valid_nodes c, []) removePaths in
  mkNodes ix (foldl (fun b node => b ∖ {[node]}) (black_list c) removedNodes) valid
    (foldl (fun m p => delete p m) (round_robin_index_map c) removePaths).
Definition RemovePath (path : bytes) : NodeCollectionImpl -> NodeCollectionImpl := RemovePaths [path].

(** The first occurrence of a node is erased. *)
Fixpoint erase_first (node : bytes) (l : list bytes) : list bytes :=
  match l with [] => [] | n :: l => if decide (n = node) then l else n :: erase_first node l end.

(** A node of the black list leaves the paths of its index entry. *)
Definition remove_bad (st : gmap bytes (gset bytes) * gmap bytes (list bytes)) (blackNode : bytes)
    : gmap bytes (gset bytes) * gmap bytes (list bytes) :=
  let '(ix, valid) := st in
  match ix !! blackNode with
  | None => st
  | Some paths => (delete blackNode ix, foldl (fun v path => alter (erase_first blackNode) path v) valid (elements paths))
  end.

(** [UpdateBadNode]. *)
Definition UpdateBadNode (blackList : gset bytes) (c : NodeCollectionImpl) : NodeCollectionImpl :=
  let '(ix, valid) := foldl remove_bad (nodes_iindex c, valid_nodes c) (elements blackList) in
  mkNodes ix blackList valid (round_robin_index_map c).

(** [FindNodesBySpec]: the map that it fills sends each address to itself. *)
Definition FindNodesBySpec (specLists : gset bytes) (c : NodeCollectionImpl) : gset bytes :=
  dom (nodes_iindex c) ∩ specLists.

(** [RoundRobinIndex::next]. *)
Definition next (index base : nat) : nat := (index + 1) mod base.

(** [PickOneNode]: [None] when it returns false; the position moves. *)
Definition PickOneNode (path : bytes) (c : NodeCollectionImpl) : option bytes * NodeCollectionImpl :=
  match round_robin_index_map c !! path with
  | None => (None, c)
  | Some i =>
      match valid_nodes c !! path with
      | None | Some [] => (None, c)
      | Some l =>
          let i := next i (length l) in
          (l !! i, mkNodes (nodes_iindex c) (black_list c) (valid_nodes c) (<[path := i]> (round_robin_index_map c)))
      end
  end.

(** [GetNodeCount]. *)
Definition GetNodeCount (path : bytes) (c : NodeCollectionImpl) : nat := length (default [] (valid_nodes c !! path)).

(** [BrpcBadNodeDetector::DoDetect]: [specBlackList] is what the channel pool
    reports, [specList] what it reported the last time. *)
Definition DoDetect (specBlackList : gset bytes) (st : gset bytes * NodeCollectionImpl) : gset bytes * NodeCollectionImpl :=
  let '(specList, c) := st in
  if decide (specList = ∅ /\ specBlackList = ∅) then st
  else (specBlackList, UpdateBadNode (FindNodesBySpec specBlackList c) c).

(** ** Histories and their specification *)

Inductive operation : Type :=
  | Heartbeat (nodes : list bytes) (path : bytes)
  | BadNodes (blackList : gset bytes)
  | Remove (paths : list bytes)
  | Pick (path : bytes).

Definition run (c : NodeCollectionImpl) (op : operation) : NodeCollectionImpl :=
  match op with
  | Heartbeat nodes path => UpdateHeartbeat nodes path c
  | BadNodes b => UpdateBadNode b c
  | Remove paths => RemovePaths paths c
  | Pick path => (PickOneNode path c).2
  end.

(** What is promised: the nodes of each path and the black list. *)
Record spec : Type := mkSpec { good_nodes : gmap bytes (list bytes); bad_nodes : gset bytes }.

Definition spec_run (s : spec) (op : operation) : spec :=
  match op with
  | Heartbeat nodes path => mkSpec (<[path := filter (fun n => n ∉ bad_nodes s) nodes]> (good_nodes s)) (bad_nodes s)
  | BadNodes b => mkSpec (filter (fun n => n ∉ b) <$> good_nodes s) b
  | Remove paths => mkSpec (filter (fun e => existsb (is_under e.1) paths = false) (good_nodes s)) (bad_nodes s)
  | Pick _ => s
  end.

(** A heartbeat names no node twice. *)
Definition distinct (op : operation) : Prop := match op with Heartbeat nodes _ => NoDup nodes | _ => True end.

(** ** The invariant *)

(** Every valid node is in the index with its path, and no list repeats a node. *)
Definition indexed (ix : gmap bytes (gset bytes)) (valid : gmap bytes (list bytes)) : Prop :=
  forall path l, valid !! path = Some l -> NoDup l /\ forall n, n ∈ l -> exists s, ix !! n = Some s /\ path ∈ s.

Record Inv (c : NodeCollectionImpl) : Prop := {
  inv_indexed : indexed (nodes_iindex c) (valid_nodes c);
  inv_good path l n : valid_nodes c !! path = Some l -> n ∈ l -> n ∉ black_list c;
  inv_round path : is_Some (round_robin_index_map c !! path) <-> is_Some (valid_nodes c !! path)
}.

Lemma index_nodes path l : forall ix n s, ix !! n = Some s -> exists s', foldl (index_node path) ix l !! n = Some s' /\ s ⊆ s'.
Proof.
  induction l as [|m l IH]; intros ix n s Hs; cbn [foldl]; [eauto|].
  assert (exists s1, index_node path ix m !! n = Some s1 /\ s ⊆ s1) as (s1 & H1 & Hsub).
  { unfold index_node. destruct (ix !! m) as [t|] eqn:Hm; (destruct (decide (m = n)) as [->|Hne]; [rewrite lookup_insert_eq | rewrite lookup_insert_ne by done; eauto]).
    - eexists. split; [done|]. set_solver.
    - congruence. }
  destruct (IH _ _ _ H1) as (s' & H' & Hsub'). exists s'. split; [done|]. set_solver.
Qed.

Lemma index_nodes_new path l : forall ix n, n ∈ l -> exists s, foldl (index_node path) ix l !! n = Some s /\ path ∈ s.
Proof.
  induction l as [|m l IH]; intros ix n Hn; [by apply not_elem_of_nil in Hn|]. cbn [foldl].
  apply elem_of_cons in Hn as [->|Hn]; [|by apply IH].
  assert (exists s1, index_node path ix m !! m = Some s1 /\ path ∈ s1) as (s1 & H1 & Hin).
  { unfold index_node. destruct (ix !! m); rewrite lookup_insert_eq; eexists; (split; [done|]); set_solver. }
  destruct (index_nodes path l _ _ _ H1) as (s' & H' & Hsub). exists s'. split; [done|]. set_solver.
Qed.

Lemma Heartbeat_Inv nodes path c : Inv c -> NoDup nodes -> Inv (UpdateHeartbeat nodes path c).
Proof.
  intros [Hi Hg Hr] Hnd. split; cbn.
  - intros p l Hl. apply lookup_insert_Some in Hl as [[<- <-]|[Hne Hl]].
    + split; [by apply list.NoDup_filter|]. intros n Hn. by apply index_nodes_new.
    + destruct (Hi _ _ Hl) as [Hd Hx]. split; [done|]. intros n Hn. destruct (Hx n Hn) as (s & Hs & Hin).
      destruct (index_nodes path (filter (fun n => n ∉ black_list c) nodes) _ _ _ Hs) as (s' & Hs' & Hsub). exists s'. split; [done | by apply Hsub].
  - intros p l n Hl Hn. apply lookup_insert_Some in Hl as [[<- <-]|[Hne Hl]]; [by apply list_elem_of_filter in Hn as [? _] | by eapply Hg].
  - intros p. destruct (round_robin_index_map c !! path) as [i|] eqn:E.
    + destruct (decide (path = p)) as [<-|Hne]; [rewrite lookup_insert_eq, E; split; eauto | by rewrite lookup_insert_ne].
    + destruct (decide (path = p)) as [<-|Hne]; [rewrite !lookup_insert_eq; split; eauto | by rewrite !lookup_insert_ne].
Qed.

(** ** Bad nodes *)

Lemma erase_first_filter node l : NoDup l -> erase_first node l = filter (fun n => n ≠ node) l.
Proof.
  induction 1 as [|n l Hn Hl IH]; [done|]. cbn [erase_first]. rewrite list.filter_cons. case_decide as E; [subst|].
  - rewrite decide_False by auto. clear IH Hl. induction l as [|m l IH]; [done|]. apply not_elem_of_cons in Hn as [Hm Hn].
    rewrite list.filter_cons, decide_True by congruence. f_equal. by apply IH.
  - rewrite decide_True by done. by rewrite IH.
Qed.

Lemma foldl_alter (f : list bytes -> list bytes) ps : forall (v : gmap bytes (list bytes)) p, NoDup ps ->
  foldl (fun v path => alter f path v) v ps !! p = (if decide (p ∈ ps) then f else id) <$> v !! p.
Proof.
  induction ps as [|q ps IH]; intros v p Hnd; cbn [foldl].
  - rewrite decide_False by apply not_elem_of_nil. by destruct (v !! p).
  - apply list.NoDup_cons in Hnd as [Hq Hnd]. rewrite IH by done. destruct (decide (q = p)) as [->|Hne].
    + rewrite decide_False, decide_True, lookup_alter_eq by (done || left). by destruct (v !! p).
    + rewrite lookup_alter_ne by done. destruct (decide (p ∈ ps)) as [Hp|Hp]; [by rewrite decide_True by (by right)|].
      rewrite decide_False; [done|]. intros [->|?]%elem_of_cons; done.
Qed.

Lemma filter_absent b (l : list bytes) : b ∉ l -> filter (fun n => n ≠ b) l = l.
Proof.
  induction l as [|m l IH]; intros H; [done|]. apply not_elem_of_cons in H as [Hm H]. rewrite list.filter_cons, decide_True by congruence. by rewrite IH.
Qed.

Lemma remove_bad_step ix valid b : indexed ix valid ->
  exists ix', remove_bad (ix, valid) b = (ix', filter (fun n => n ≠ b) <$> valid) /\ indexed ix' (filter (fun n => n ≠ b) <$> valid).
Proof.
  intros Hi.
  assert (forall ix', (forall n, n ≠ b -> ix' !! n = ix !! n) -> indexed ix' (filter (fun n => n ≠ b) <$> valid)) as Hix.
  { intros ix' Hix p l Hl. rewrite lookup_fmap in Hl. destruct (valid !! p) as [l0|] eqn:Hp; [|done]. injection Hl as <-.
    destruct (Hi _ _ Hp) as [Hd Hx]. split; [by apply list.NoDup_filter|]. intros n [Hn Hin]%list_elem_of_filter. rewrite Hix by done. by apply Hx. }
  unfold remove_bad. destruct (ix !! b) as [paths|] eqn:Hb.
  - exists (delete b ix). split; [|apply Hix; intros n Hn; by rewrite lookup_delete_ne]. f_equal. apply map_eq. intros p.
    rewrite foldl_alter by apply NoDup_elements. rewrite lookup_fmap. destruct (valid !! p) as [l|] eqn:Hp; [|done]. cbn. f_equal.
    destruct (Hi _ _ Hp) as [Hd Hx]. case_decide as Hin; [by apply erase_first_filter|]. cbn. rewrite filter_absent; [done|].
    intros Hbl. destruct (Hx _ Hbl) as (s & Hs & Hps). simplify_eq. apply Hin. by apply elem_of_elements.
  - exists ix. split; [|by apply Hix]. f_equal. apply map_eq. intros p. rewrite lookup_fmap. destruct (valid !! p) as [l|] eqn:Hp; [|done].
    cbn. f_equal. rewrite filter_absent; [done|]. intros Hbl. destruct (Hi _ _ Hp) as [_ Hx]. destruct (Hx _ Hbl) as (s & Hs & _). congruence.
Qed.

Lemma remove_bad_all bs : forall ix valid, indexed ix valid ->
  exists ix', foldl remove_bad (ix, valid) bs = (ix', filter (fun n => n ∉ bs) <$> valid) /\ indexed ix' (filter (fun n => n ∉ bs) <$> valid).
Proof.
  induction bs as [|b bs IH]; intros ix valid Hi; cbn [foldl].
  - assert (filter (fun n => n ∉ []) <$> valid = valid) as ->; [|eauto]. rewrite <- (map_fmap_id valid) at 2. apply map_fmap_ext.
    intros p l _. cbn. induction l as [|m l IH]; [done|]. rewrite list.filter_cons, decide_True by apply not_elem_of_nil. by rewrite IH.
  - destruct (remove_bad_step ix valid b Hi) as (ix1 & -> & Hi1). destruct (IH _ _ Hi1) as (ix2 & -> & Hi2).
    assert (filter (fun n => n ∉ b :: bs) <$> valid = filter (fun n => n ∉ bs) <$> (filter (fun n => n ≠ b) <$> valid)) as ->; [|eauto].
    rewrite <- map_fmap_compose. apply map_fmap_ext. intros p l _. cbn. rewrite list_filter_filter. apply list_filter_iff.
    intros n. rewrite not_elem_of_cons. tauto.
Qed.

Lemma BadNodes_correct b c : Inv c -> Inv (UpdateBadNode b c) /\ valid_nodes (UpdateBadNode b c) = filter (fun n => n ∉ b) <$> valid_nodes c.
Proof.
  intros [Hi Hg Hr]. unfold UpdateBadNode. destruct (remove_bad_all (elements b) _ _ Hi) as (ix' & -> & Hi').
  assert (filter (fun n => n ∉ elements b) <$> valid_nodes c = filter (fun n => n ∉ b) <$> valid_nodes c) as E.
  { apply map_fmap_ext. intros p l _. apply list_filter_iff. intros n. by rewrite elem_of_elements. }
  rewrite E in *. split; [|done]. split; cbn.
  - done.
  - intros p l n Hl Hn. rewrite lookup_fmap in Hl. destruct (valid_nodes c !! p); [|done]. injection Hl as <-. by apply list_elem_of_filter in Hn as [? _].
  - intros p. rewrite Hr, lookup_fmap. destruct (valid_nodes c !! p); cbn; split; intros [x Hx]; eauto; done.
Qed.

(** ** Removing paths *)

(** Other paths stay in the index. *)
Definition keeps (ix ix' : gmap bytes (gset bytes)) (p : bytes) : Prop :=
  forall n s, ix !! n = Some s -> p ∈ s -> exists s', ix' !! n = Some s' /\ p ∈ s'.

Lemma unindex_nodes remove l : forall ix rm ix' rm', foldl (unindex_node remove) (ix, rm) l = (ix', rm') ->
  (forall p, p ≠ remove -> keeps ix ix' p) /\ forall n, n ∈ rm' -> n ∈ rm \/ n ∈ l.
Proof.
  induction l as [|m l IH]; intros ix rm ix' rm' E; cbn [foldl] in E; [simplify_eq; split; [intros p _ n s; eauto | auto]|].
  destruct (unindex_node remove (ix, rm) m) as [ix1 rm1] eqn:E1. destruct (IH _ _ _ _ E) as [Hk Hrm].
  assert ((forall p, p ≠ remove -> keeps ix ix1 p) /\ forall n, n ∈ rm1 -> n ∈ rm \/ n = m) as [Hk1 Hrm1].
  { unfold unindex_node in E1. destruct (ix !! m) as [s|] eqn:Hm; [case_decide as Hs|]; simplify_eq; split; auto.
    - intros p Hp n t Hn Hin. destruct (decide (m = n)) as [->|Hne]; [simplify_eq; set_solver | rewrite lookup_delete_ne by done; eauto].
    - intros n [?| ->%list_elem_of_singleton]%elem_of_app; auto.
    - intros p Hp n t Hn Hin. destruct (decide (m = n)) as [->|Hne].
      + simplify_eq. rewrite lookup_insert_eq. eexists. split; [done|]. set_solver.
      + rewrite lookup_insert_ne by done. eauto.
    - intros p Hp n t. eauto.
    - intros n [?| ->%list_elem_of_singleton]%elem_of_app; auto. }
  split.
  - intros p Hp n s Hn Hin. destruct (Hk1 p Hp n s Hn Hin) as (s1 & Hs1 & Hin1). eapply Hk; eauto.
  - intros n Hn. destruct (Hrm n Hn) as [Hn1|Hn1]; [destruct (Hrm1 n Hn1) as [?| ->]|]; rewrite ?elem_of_cons; auto.
Qed.

Lemma remove_paths_all rs : forall ix valid rm ix' valid' rm', foldl remove_path (ix, valid, rm) rs = (ix', valid', rm') ->
  (forall p, p ∉ rs -> keeps ix ix' p) /\
  (forall p, valid' !! p = if decide (p ∈ rs) then None else valid !! p) /\
  (forall n, n ∈ rm' -> n ∈ rm \/ exists p l, valid !! p = Some l /\ n ∈ l).
Proof.
  induction rs as [|r rs IH]; intros ix valid rm ix' valid' rm' E; cbn [foldl] in E.
  { simplify_eq. split; [intros p _ n s; eauto|]. split; [|auto]. intros p. by rewrite decide_False by apply not_elem_of_nil. }
  destruct (remove_path (ix, valid, rm) r) as [[ix1 valid1] rm1] eqn:E1. destruct (IH _ _ _ _ _ _ E) as (Hk & Hv & Hrm).
  assert ((forall p, p ≠ r -> keeps ix ix1 p) /\ valid1 = delete r valid /\
      forall n, n ∈ rm1 -> n ∈ rm \/ exists l, valid !! r = Some l /\ n ∈ l) as (Hk1 & -> & Hrm1).
  { unfold remove_path in E1. destruct (valid !! r) as [l|] eqn:Hr.
    - destruct (foldl (unindex_node r) (ix, rm) l) as [ix2 rm2] eqn:E2. simplify_eq. destruct (unindex_nodes _ _ _ _ _ _ E2) as [Hk2 Hrm2].
      split; [done|]. split; [done|]. intros n Hn. destruct (Hrm2 n Hn); eauto.
    - simplify_eq. split; [intros p _ n s; eauto|]. split; [by rewrite delete_id | auto]. }
  split; [|split].
  - intros p Hp n s Hn Hin. apply not_elem_of_cons in Hp as [Hpr Hp]. destruct (Hk1 p Hpr n s Hn Hin) as (s1 & Hs1 & Hin1). eapply Hk; eauto.
  - intros p. rewrite Hv. destruct (decide (p ∈ rs)) as [Hp|Hp]; [by rewrite decide_True by (by right)|].
    destruct (decide (p = r)) as [->|Hne]; [rewrite lookup_delete_eq, decide_True by left; done|].
    rewrite lookup_delete_ne by done. rewrite decide_False; [done|]. intros [?|?]%elem_of_cons; done.
  - intros n Hn. destruct (Hrm n Hn) as [Hn1|(p & l & Hp & Hnl)].
    + destruct (Hrm1 n Hn1) as [?|(l & Hl & Hnl)]; eauto.
    + right. exists p, l. split; [|done]. by apply lookup_delete_Some in Hp as [_ ?].
Qed.

Lemma foldl_delete ps : forall (m : gmap bytes nat) p, foldl (fun m p => delete p m) m ps !! p = if decide (p ∈ ps) then None else m !! p.
Proof.
  induction ps as [|q ps IH]; intros m p; cbn [foldl]; [by rewrite decide_False by apply not_elem_of_nil|]. rewrite IH.
  destruct (decide (p ∈ ps)) as [Hp|Hp]; [by rewrite decide_True by (by right)|].
  destruct (decide (p = q)) as [->|Hne]; [rewrite lookup_delete_eq, decide_True by left; done|].
  rewrite lookup_delete_ne by done. rewrite decide_False; [done|]. intros [?|?]%elem_of_cons; done.
Qed.

Lemma foldl_difference ns : forall b : gset bytes, (forall n, n ∈ ns -> n ∉ b) -> foldl (fun b node => b ∖ {[node]}) b ns = b.
Proof.
  induction ns as [|n ns IH]; intros b H; cbn [foldl]; [done|].
  assert (b ∖ {[n]} = b) as -> by (apply set_eq; intros x; specialize (H n ltac:(left)); set_solver). apply IH. intros m Hm. apply H. by right.
Qed.

(** No valid node is on the black list, so the black list stays as it is. *)
Lemma Remove_correct paths c : Inv c -> Inv (RemovePaths paths c) /\ black_list (RemovePaths paths c) = black_list c /\
  valid_nodes (RemovePaths paths c) = filter (fun e => existsb (is_under e.1) paths = false) (valid_nodes c).
Proof.
  intros [Hi Hg Hr]. unfold RemovePaths. set (rs := filter _ _).
  destruct (foldl remove_path (nodes_iindex c, valid_nodes c, []) rs) as [[ix valid] rm] eqn:E.
  destruct (remove_paths_all _ _ _ _ _ _ _ E) as (Hk & Hv & Hrm).
  assert (foldl (fun b node => b ∖ {[node]}) (black_list c) rm = black_list c) as Eb.
  { apply foldl_difference. intros n Hn. destruct (Hrm n Hn) as [Hnil|(p & l & Hp & Hnl)]; [by apply not_elem_of_nil in Hnil | by eapply Hg]. }
  cbn [black_list valid_nodes]. split; [|split; [done|]].
  - split; cbn.
    + intros p l Hl. rewrite Hv in Hl. case_decide as Hp; [done|]. destruct (Hi _ _ Hl) as [Hd Hx]. split; [done|].
      intros n Hn. destruct (Hx n Hn) as (s & Hs & Hin). eapply Hk; eauto.
    + intros p l n Hl Hn. rewrite Hv in Hl. case_decide; [done|]. rewrite Eb. by eapply Hg.
    + intros p. rewrite foldl_delete, Hv. case_decide; [split; intros [? [=]] | apply Hr].
  - apply map_eq. intros p. rewrite Hv. destruct (valid_nodes c !! p) as [l|] eqn:Hp.
    + destruct (existsb (is_under p) paths) eqn:Ex.
      * rewrite decide_True.
        -- symmetry. apply map_lookup_filter_None. right. intros x Hx. cbn. congruence.
        -- apply list_elem_of_filter. split; [by rewrite Ex|]. apply list_elem_of_fmap. exists (p, l). split; [done|]. by apply elem_of_map_to_list.
      * rewrite decide_False; [symmetry; by apply map_lookup_filter_Some|]. intros [Hu _]%list_elem_of_filter. by rewrite Ex in Hu.
    + transitivity (None (A := list bytes)); [by case_decide|]. symmetry. apply map_lookup_filter_None. by left.
Qed.

(** ** Picking *)

Lemma Pick_Inv path c : Inv c -> Inv (PickOneNode path c).2 /\ valid_nodes (PickOneNode path c).2 = valid_nodes c /\
  black_list (PickOneNode path c).2 = black_list c.
Proof.
  intros I. unfold PickOneNode. destruct (round_robin_index_map c !! path) as [i|] eqn:Hi; [|done].
  destruct (valid_nodes c !! path) as [[|n l]|] eqn:Hv; [done| |done]. cbn [snd valid_nodes black_list]. split; [|done].
  destruct I as [Hx Hg Hr]. split; cbn; [done | done|]. intros p. rewrite <- Hr. destruct (decide (path = p)) as [<-|Hne].
  - rewrite lookup_insert_eq, Hi. split; eauto.
  - by rewrite lookup_insert_ne.
Qed.

(** The results of [k] calls of [PickOneNode]. *)
Fixpoint picks (k : nat) (path : bytes) (c : NodeCollectionImpl) : list (option bytes) :=
  match k with O => [] | S k => (PickOneNode path c).1 :: picks k path (PickOneNode path c).2 end.

Lemma picks_round k : forall path c i l, round_robin_index_map c !! path = Some i -> valid_nodes c !! path = Some l -> l <> [] ->
  picks k path c = (fun j => l !! ((i + j) mod length l)) <$> seq 1 k.
Proof.
  induction k as [|k IH]; intros path c i l Hi Hl Hne; [done|]. cbn [picks seq fmap list_fmap].
  assert (exists c', PickOneNode path c = (l !! next i (length l), c') /\ round_robin_index_map c' !! path = Some (next i (length l)) /\
    valid_nodes c' !! path = Some l) as (c' & -> & Hi' & Hl').
  { unfold PickOneNode. rewrite Hi, Hl. destruct l as [|n l]; [done|]. eexists. split; [done|]. cbn [round_robin_index_map valid_nodes].
    by rewrite lookup_insert_eq. }
  cbn [fst snd]. f_equal. rewrite (IH _ _ _ _ Hi' Hl' Hne), <- (fmap_S_seq 1 k), <- list_fmap_compose. apply list_fmap_ext.
  intros j x _. cbn. unfold next. rewrite Nat.Div0.add_mod_idemp_l. f_equal. f_equal. lia.
Qed.

Lemma rotation i n : (fun j => (i + j) mod n) <$> seq 1 n ≡ₚ seq 0 n.
Proof.
  symmetry. apply submseteq_length_Permutation; [|by rewrite length_fmap, !length_seq]. apply NoDup_submseteq; [apply NoDup_seq|].
  intros k [_ Hk]%elem_of_seq. apply list_elem_of_fmap.
  exists (S ((k + n - S (i mod n)) mod n)). split.
  - rewrite <- (Nat.add_1_l (_ mod n)), Nat.add_assoc, Nat.Div0.add_mod_idemp_r.
    pose proof (Nat.mod_upper_bound i n ltac:(lia)). pose proof (Nat.div_mod i n ltac:(lia)) as Ei.
    replace (i + 1 + (k + n - S (i mod n))) with (k + (1 + i / n) * n) by nia. rewrite Nat.Div0.mod_add. by rewrite Nat.mod_small.
  - apply elem_of_seq. pose proof (Nat.mod_upper_bound (k + n - S (i mod n)) n ltac:(lia)). lia.
Qed.

Lemma lookup_seq (l : list bytes) : (fun j => l !! j) <$> seq 0 (length l) = Some <$> l.
Proof.
  induction l as [|n l IH]; [done|]. cbn [length seq fmap list_fmap lookup list_lookup]. f_equal.
  rewrite <- fmap_S_seq, <- list_fmap_compose. exact IH.
Qed.

Lemma picks_fair path c l : Inv c -> valid_nodes c !! path = Some l -> picks (length l) path c ≡ₚ Some <$> l.
Proof.
  intros I Hl. destruct l as [|n l]; [done|]. destruct (proj2 (inv_round _ I path)) as [i Hi]; [eauto|].
  rewrite (picks_round _ _ _ _ _ Hi Hl) by done. rewrite <- lookup_seq.
  change (fun j => (n :: l) !! ((i + j) mod length (n :: l))) with ((fun j => (n :: l) !! j) ∘ (fun j => (i + j) mod length (n :: l))).
  rewrite list_fmap_compose. apply fmap_Permutation, rotation.
Qed.

(** ** Theorems *)

Lemma run_correct c s op : Inv c -> valid_nodes c = good_nodes s -> black_list c = bad_nodes s -> distinct op ->
  Inv (run c op) /\ valid_nodes (run c op) = good_nodes (spec_run s op) /\ black_list (run c op) = bad_nodes (spec_run s op).
Proof.
  intros I Hv Hb Hd. destruct op as [nodes path|b|paths|path]; cbn [run spec_run good_nodes bad_nodes].
  - split; [by apply Heartbeat_Inv|]. cbn. by rewrite Hv, Hb.
  - destruct (BadNodes_correct b c I) as [I' ->]. split; [done|]. rewrite Hv. split; [done|]. unfold UpdateBadNode. by case_match.
  - destruct (Remove_correct paths c I) as (I' & -> & ->). by rewrite Hv, Hb.
  - destruct (Pick_Inv path c I) as (I' & -> & ->). by rewrite Hv, Hb.
Qed.

Lemma runs_correct ops : forall c s, Inv c -> valid_nodes c = good_nodes s -> black_list c = bad_nodes s -> Forall distinct ops ->
  Inv (foldl run c ops) /\ valid_nodes (foldl run c ops) = good_nodes (foldl spec_run s ops) /\
  black_list (foldl run c ops) = bad_nodes (foldl spec_run s ops).
Proof.
  induction ops as [|op ops IH]; intros c s I Hv Hb Hd; [done|]. apply list.Forall_cons in Hd as [Hop Hd].
  destruct (run_correct c s op I Hv Hb Hop) as (I' & Hv' & Hb'). by apply IH.
Qed.

(** C24: after any history of heartbeats, black lists, removals and picks, where no
    heartbeat names a node twice, the nodes of a path are those of its last heartbeat
    that have not been on a black list since, while the path and those above it were
    not removed; [PickOneNode] fails exactly when there are none, and as many picks in
    a row as there are nodes return each of them once, none of them on the black
    list. *)
Theorem picks_round_robin ops path : Forall distinct ops ->
  let c := foldl run new_NodeCollectionImpl ops in
  let s := foldl spec_run (mkSpec ∅ ∅) ops in
  let l := default [] (good_nodes s !! path) in
  GetNodeCount path c = length l /\ ((PickOneNode path c).1 = None <-> l = []) /\
  picks (length l) path c ≡ₚ Some <$> l /\ forall n, n ∈ l -> n ∉ bad_nodes s.
Proof.
  intros Hd. cbn zeta. destruct (runs_correct ops new_NodeCollectionImpl (mkSpec ∅ ∅)) as (I & Hv & Hb); [|done|done|done|].
  { split; cbn; [intros p l Hl; by rewrite lookup_empty in Hl | intros p l n Hl; by rewrite lookup_empty in Hl | intros p; by rewrite !lookup_empty]. }
  set (c := foldl run _ ops) in *. rewrite <- Hv, <- Hb. unfold GetNodeCount. split; [done|].
  destruct (valid_nodes c !! path) as [l|] eqn:Hl; cbn [default].
  - split; [|split; [by apply picks_fair | intros n; by apply (inv_good _ I path)]].
    destruct (proj2 (inv_round _ I path)) as [i Hi]; [eauto|]. unfold PickOneNode. rewrite Hi, Hl. destruct l as [|n l]; [done|]. cbn [fst].
    split; [|done]. intros Hn. apply lookup_ge_None_1 in Hn. pose proof (Nat.mod_upper_bound (i + 1) (length (n :: l)) ltac:(done)).
    change (length (n :: l) <= (i + 1) mod length (n :: l)) in Hn. lia.
  - split; [|split; [done | intros n Hn; by apply not_elem_of_nil in Hn]]. unfold PickOneNode. rewrite Hl. by destruct (round_robin_index_map c !! path).
Qed.

Definition two_paths : list operation :=
  [Heartbeat [[1]; [2]; [3]]%Z [9]%Z; BadNodes {[ [2]%Z ]}; Heartbeat [[1]; [2]; [4]]%Z [9]%Z; Pick [9]%Z; Remove [[8]%Z]].

Lemma picks_round_robin_witness : picks 2 [9]%Z (foldl run new_NodeCollectionImpl two_paths) ≡ₚ [Some [1]%Z; Some [4]%Z].
Proof.
  destruct (picks_round_robin two_paths [9]%Z) as (_ & _ & H & _).
  - repeat constructor; cbn; set_solver.
  - replace (default [] _) with [[1]%Z; [4]%Z] in H by (vm_compute; reflexivity). exact H.
Defined.

(** A bad node is forgotten while it is still bad.  [UpdateBadNode] takes the bad
    nodes out of the index, and the next detection looks for them only there: it finds
    none, empties the black list, and the next heartbeat makes the node valid again. *)
Lemma bad_node_is_forgotten : let bad := {[ [2]%Z ]} in
  let c0 := UpdateHeartbeat [[1]; [2]]%Z [9]%Z new_NodeCollectionImpl in
  let st1 := DoDetect bad (∅, c0) in
  let st2 := DoDetect bad st1 in
  black_list st1.2 = bad /\ black_list st2.2 = ∅ /\
  valid_nodes (UpdateHeartbeat [[1]; [2]]%Z [9]%Z st2.2) !! [9]%Z = Some [[1]; [2]]%Z.
Proof. repeat split; vm_compute; reflexivity. Qed.

(** A node that a heartbeat names twice stays valid when it becomes bad. *)
Lemma repeated_node_stays_valid :
  valid_nodes (UpdateBadNode {[ [2]%Z ]} (UpdateHeartbeat [[2]; [2]]%Z [9]%Z new_NodeCollectionImpl)) !! [9]%Z = Some [[2]%Z].
Proof. vm_compute. reflexivity. Qed.

(** A node that a heartbeat no longer names stays in the index under its path. *)
Lemma old_node_stays_indexed :
  nodes_iindex (UpdateHeartbeat [[3]]%Z [9]%Z (UpdateHeartbeat [[2]]%Z [9]%Z new_NodeCollectionImpl)) !! [2]%Z = Some {[ [9]%Z ]}.
Proof. vm_compute. reflexivity. Qed.
