(* ===== verification/Batch.v ===== *)
(** * Batched lookups: [HashTable::BatchFind] of src/qed/hashtable.h

    Eight keys are looked up at once in vector registers of eight 64-bit lanes.
    The buckets are read by gathers at byte offsets: one word of a bucket is its
    key, the other its size byte with the payload above it.  A gather faults when
    one of its active lanes is outside the mapped table.  The code is the one for
    AVX512F without AVX512BW, which is how the build sets it up. *)
From Stdlib Require Import ZArith Lia.
From stdpp Require Import base list vector.
From S2P Require Import Prelude Words Bucket Builder.

Local Open Scope Z_scope.

(** QED_HASHTABLE_NVALUE. *)
Definition NVALUE : Z := 0xF0FFFFFFFFFFFFFF.

(** ** The vector instructions *)

Abbreviation m512i := (vec Z 8).
Abbreviation mmask8 := (vec bool 8).

Definition set1_epi64 (x : Z) : m512i := vreplicate 8 x.
Definition slli_epi64 (v : m512i) (k : Z) : m512i := vmap (fun x => shl 64 x k) v.
Definition srli_epi64 (v : m512i) (k : Z) : m512i := vmap (fun x => Z.shiftr x k) v.
Definition and_epi64 (a b : m512i) : m512i := vzip_with Z.land a b.
Definition andnot_epi64 (a b : m512i) : m512i := vzip_with (fun x y => Z.land (compl 64 x) y) a b.
Definition sub_epi64 (a b : m512i) : m512i := vzip_with (fun x y => wrap 64 (x - y)) a b.
Definition cmpeq_epi64_mask (a b : m512i) : mmask8 := vzip_with Z.eqb a b.
Definition test_epi64_mask (a b : m512i) : mmask8 := vzip_with (fun x y => negb (Z.land x y =? 0)) a b.

(** Signed comparison. *)
Definition signed64 (x : Z) : Z := if x <? 2 ^ 63 then x else x - 2 ^ 64.
Definition cmplt_epi64_mask (a b : m512i) : mmask8 := vzip_with (fun x y => signed64 x <? signed64 y) a b.

Definition kand (a b : mmask8) : mmask8 := vzip_with andb a b.
Definition kor (a b : mmask8) : mmask8 := vzip_with orb a b.
Definition knot (a : mmask8) : mmask8 := vmap negb a.
(** [k == 0xFF]. *)
Definition all_ones (k : mmask8) : bool := forallb id k.

Definition mask_mov_epi64 (src : m512i) (k : mmask8) (a : m512i) : m512i :=
  vzip_with (fun s (ka : bool * Z) => if ka.1 then ka.2 else s) src (vzip_with pair k a).
Definition mask_set1_epi64 (src : m512i) (k : mmask8) (x : Z) : m512i := mask_mov_epi64 src k (set1_epi64 x).
Definition maskz_and_epi64 (k : mmask8) (a b : m512i) : m512i := mask_mov_epi64 (set1_epi64 0) k (and_epi64 a b).
Definition mask_cmpeq_epi64_mask (k : mmask8) (a b : m512i) : mmask8 := kand k (cmpeq_epi64_mask a b).

(** The two words of a bucket. *)
Definition key_word (b : RawBucket) : Z := key_info_field b.
Definition size_word (b : RawBucket) : Z := size_field b + 256 * payload b.

(** A mapped table: the number of its buckets, and what they hold. *)
Record mapped : Type := mkMapped { extent : Z; cells : table RawBucket }.
Definition in_table (t : mapped) (offset : Z) : bool := (0 <=? offset) && (offset <? 16 * extent t).

(** The gathers of one of the words at byte offsets of buckets: [None] is a fault. *)
Definition mask_i64gather_epi64 (src : m512i) (k : mmask8) (offset : m512i) (t : mapped)
    (word : RawBucket -> Z) : option m512i :=
  if all_ones (vzip_with (fun (b : bool) o => negb b || in_table t o) k offset)
  then Some (mask_mov_epi64 src k (vmap (fun o => word (cells t (o / 16))) offset))
  else None.
Definition i64gather_epi64 (offset : m512i) (t : mapped) (word : RawBucket -> Z) : option m512i :=
  mask_i64gather_epi64 (set1_epi64 0) (vreplicate 8 true) offset t word.

(** ** [BatchFind] *)

Inductive batch : Type :=
| Lanes (v : m512i)
| Fault
| NoFuel.

Section BatchFind.
Context (managed free : mapped) (bucket_size_log2 : Z).

Abbreviation key_info_hi_mask := (hi_mask bucket_size_log2).
Abbreviation batch_key_info_hi_mask := (set1_epi64 key_info_hi_mask).
Abbreviation batch_size_field_hi_max := (set1_epi64 0xFFFFFFFFFFFFFF80).

(** The gathers of a round: from the table that each pending lane points to. *)
Definition gather_next (src : m512i) (internal finished : mmask8) (offset : m512i) (word : RawBucket -> Z)
  : option m512i :=
  v ← mask_i64gather_epi64 src (kand internal (knot finished)) offset managed word;
  mask_i64gather_epi64 v (kand (knot internal) (knot finished)) offset free word.

(** The [while] loop and the return after it. *)
Fixpoint batch_loop (fuel : nat) (high_key_id size_field key_field next_bucket_id : m512i)
    (next_internal_mask : mmask8) (size result : m512i) (matched_mask finished_mask : mmask8) : batch :=
  match fuel with
  | O => NoFuel
  | S fuel =>
      if all_ones finished_mask then Lanes (mask_set1_epi64 result (knot matched_mask) NVALUE)
      else
        let next_bucket_id := slli_epi64 next_bucket_id 4 in
        match gather_next size_field next_internal_mask finished_mask next_bucket_id size_word,
              gather_next key_field next_internal_mask finished_mask next_bucket_id key_word with
        | Some size_field, Some key_field =>
            let next_internal_mask := test_epi64_mask size_field (set1_epi64 0x80) in
            let next_bucket_id := andnot_epi64 batch_key_info_hi_mask key_field in
            let size := sub_epi64 size (set1_epi64 1) in
            let size := mask_set1_epi64 size (cmplt_epi64_mask size (set1_epi64 0)) 0 in
            let zero_size_mask := cmpeq_epi64_mask size (set1_epi64 0) in
            let current_round_matched_mask :=
              mask_cmpeq_epi64_mask (knot finished_mask) high_key_id
                (maskz_and_epi64 finished_mask batch_key_info_hi_mask key_field) in
            let payload := srli_epi64 size_field 8 in
            let result := mask_mov_epi64 result current_round_matched_mask payload in
            let matched_mask := kor matched_mask current_round_matched_mask in
            let finished_mask := kor finished_mask (kor matched_mask zero_size_mask) in
            batch_loop fuel high_key_id size_field key_field next_bucket_id next_internal_mask size result
              matched_mask finished_mask
        | _, _ => Fault
        end
  end.

(** [HashTable::BatchFind].  A chain has at most 127 buckets. *)
Definition BatchFind (key_id : m512i) (shallow_find : bool) : batch :=
  let bucket_id := slli_epi64 (andnot_epi64 batch_key_info_hi_mask key_id) 4 in
  match i64gather_epi64 bucket_id managed size_word, i64gather_epi64 bucket_id managed key_word with
  | Some size_field, Some key_field =>
      let size := andnot_epi64 batch_size_field_hi_max size_field in
      let next_internal_mask := test_epi64_mask size_field (set1_epi64 0x80) in
      let next_bucket_id := andnot_epi64 batch_key_info_hi_mask key_field in
      let zero_size_mask := cmpeq_epi64_mask size (set1_epi64 0) in
      if all_ones zero_size_mask then Lanes (set1_epi64 NVALUE)
      else
        let high_key_id := and_epi64 batch_key_info_hi_mask key_id in
        let matched_mask := cmpeq_epi64_mask high_key_id (and_epi64 batch_key_info_hi_mask key_field) in
        let payload := srli_epi64 size_field 8 in
        let finished_mask := kor matched_mask zero_size_mask in
        let result := mask_set1_epi64 payload zero_size_mask NFOUND in
        if shallow_find then Lanes (mask_set1_epi64 result (knot finished_mask) NVALUE)
        else batch_loop 128 high_key_id size_field key_field next_bucket_id next_internal_mask size result
               matched_mask finished_mask
  | _, _ => Fault
  end.
End BatchFind.
