(* ===== verification/BatchCorrect.v ===== *)
(** * Batched lookups: what the lanes hold

    The instructions work on each lane by itself, so the loop is followed lane by
    lane.  A lane that is pending after its root bucket is compared with zero
    instead of the key it reads: it finds the next bucket, whatever its key, when
    the high bits of the looked up key are zero, and nothing otherwise. *)
From Stdlib Require Import ZArith Lia.
From stdpp Require Import base list gmap vector.
From S2P Require Import Prelude Words Bucket Builder BuilderCorrect Batch.

Local Open Scope Z_scope.

(** ** Lanes *)

Create HintDb lanes.
#[export] Hint Rewrite @vlookup_map @vlookup_zip_with @vlookup_replicate : lanes.

Lemma all_ones_spec (k : mmask8) : reflect (forall i : fin 8, k !!! i = true) (all_ones k).
Proof.
  apply iff_reflect. unfold all_ones. rewrite forallb_forall. split.
  - intros H b Hb. apply list_elem_of_In, elem_of_vlookup in Hb as [i <-]. apply H.
  - intros H i. apply (H (k !!! i)), list_elem_of_In, elem_of_vlookup. by exists i.
Qed.

Lemma lane_mov (src : m512i) (k : mmask8) (a : m512i) (i : fin 8) : mask_mov_epi64 src k a !!! i = if (k !!! i : bool) then a !!! i else src !!! i.
Proof. unfold mask_mov_epi64. by autorewrite with lanes. Qed.
Lemma lane_set1 x (i : fin 8) : set1_epi64 x !!! i = x.
Proof. apply vlookup_replicate. Qed.
Lemma lane_mask_set1 (src : m512i) (k : mmask8) x (i : fin 8) : mask_set1_epi64 src k x !!! i = if (k !!! i : bool) then x else src !!! i.
Proof. unfold mask_set1_epi64. by rewrite lane_mov, lane_set1. Qed.
#[export] Hint Rewrite lane_mov lane_set1 lane_mask_set1 : lanes.

(** The instructions, lane by lane. *)
Ltac lanes := unfold maskz_and_epi64, mask_cmpeq_epi64_mask in *; unfold slli_epi64, srli_epi64, and_epi64, andnot_epi64, sub_epi64, cmpeq_epi64_mask,
  test_epi64_mask, cmplt_epi64_mask, kand, kor, knot in *;
  autorewrite with lanes in *.

(** A gather whose active lanes are in the table. *)
Lemma gather_in (src : m512i) (k : mmask8) (offset : m512i) t word :
  (forall i : fin 8, k !!! i = true -> in_table t (offset !!! i) = true) ->
  exists v, mask_i64gather_epi64 src k offset t word = Some v /\
    forall i : fin 8, v !!! i = if (k !!! i : bool) then word (cells t (offset !!! i / 16)) else src !!! i.
Proof.
  intros H. unfold mask_i64gather_epi64. destruct (all_ones_spec (vzip_with (fun (b : bool) o => negb b || in_table t o) k offset)) as [|Hn].
  - eexists. split; [done|]. intros i. by autorewrite with lanes.
  - destruct Hn. intros i. autorewrite with lanes. specialize (H i). by destruct (k !!! i); [rewrite H|].
Qed.

(** ** Words of a bucket *)

Lemma shl_offset x n : 2 <= n <= 50 -> 0 <= x < 2 ^ n -> shl 64 x 4 = 16 * x.
Proof.
  intros Hn Hx. pose proof (pow_bounds n Hn). unfold shl. rewrite Z.shiftl_mul_pow2 by lia.
  rewrite wrap_small by (unfold uint; lia). lia.
Qed.

Lemma in_table_offset t n x : 0 <= x < 2 ^ n -> 2 ^ n <= extent t -> in_table t (16 * x) = true.
Proof.
  intros Hx Ht. unfold in_table. by rewrite (proj2 (Z.leb_le _ _)), (proj2 (Z.ltb_lt _ _)) by lia.
Qed.

Lemma size_word_low8 b : bucket_ok b -> size_word b mod 256 = size_field b.
Proof.
  intros (_ & Hs & _). unfold size_word. rewrite Z.mul_comm, Z.mod_add by lia. apply Z.mod_small. apply Hs.
Qed.

Lemma land_low8 x y : 0 <= y < 256 -> Z.land x y = Z.land (x mod 256) y.
Proof.
  intros Hy. change 256 with (2 ^ 8) in *. rewrite <- (Z.mod_small y (2 ^ 8)) at 1 by lia.
  rewrite <- !Z.land_ones, Z.land_assoc, <- Z.land_assoc, (Z.land_comm y), Z.land_assoc by lia. done.
Qed.

Lemma size_word_flag b : bucket_ok b -> negb (Z.land (size_word b) 0x80 =? 0) = flag (size_field b).
Proof. intros Hb. rewrite land_low8, size_word_low8 by (done || lia). apply land_size_hi, Hb. Qed.

Lemma size_word_count b : bucket_ok b ->
  Z.land (compl 64 0xFFFFFFFFFFFFFF80) (size_word b) = count (size_field b).
Proof.
  intros Hb. change (compl 64 0xFFFFFFFFFFFFFF80) with (compl 8 size_filed_hi_mask).
  rewrite Z.land_comm, land_low8, size_word_low8 by (done || (vm_compute; intuition congruence)).
  apply land_size_lo, Hb.
Qed.

Lemma size_word_payload b : bucket_ok b -> Z.shiftr (size_word b) 8 = payload b.
Proof.
  intros (_ & Hs & _). unfold size_word, uint in *. rewrite Z.shiftr_div_pow2 by lia. change (2 ^ 8) with 256 in *.
  rewrite Z.mul_comm, Z.div_add, Z.div_small by lia. lia.
Qed.

Lemma high_word n x : 0 <= n <= 64 -> u64 x -> Z.land (hi_mask n) x = high n x.
Proof. intros. rewrite Z.land_comm. by apply land_hi_mask. Qed.
Lemma low_word n x : 0 <= n <= 64 -> u64 x -> Z.land (compl 64 (hi_mask n)) x = low n x.
Proof. intros ? [? _]. rewrite Z.land_comm. by apply land_compl_hi_mask. Qed.

(** One less, not below zero. *)
Lemma size_step s : 0 <= s < 128 ->
  (if signed64 (wrap 64 (s - 1)) <? signed64 0 then 0 else wrap 64 (s - 1)) = Z.max 0 (s - 1).
Proof.
  intros Hs. destruct (decide (s = 0)) as [->|Hn]; [done|].
  rewrite wrap_small by (unfold uint; lia). unfold signed64.
  change (if 0 <? 2 ^ 63 then 0 else 0 - 2 ^ 64) with 0.
  destruct (Z.ltb_spec (s - 1) (2 ^ 63)); [|lia]. destruct (Z.ltb_spec (s - 1) 0); lia.
Qed.

(** ** The loop *)

Section Lanes.
Context (st : Store) (managed free : mapped).
Abbreviation n := (ntype st).
Context (Hn : 2 <= n <= 50) (Hcells : forall l, bucket_ok (at_loc st l)).
Context (Hmanaged : cells managed = managed_bucket st) (Hfree : cells free = free_bucket st).
Context (Hextent : 2 ^ n <= extent managed).

(** The table a location is in. *)
Definition table_of (internal : bool) : mapped := if internal then managed else free.

Lemma cells_at internal id : cells (table_of internal) id = at_loc st (internal, id).
Proof using Hmanaged Hfree. unfold table_of, at_loc. destruct internal; cbn; by rewrite ?Hmanaged, ?Hfree. Qed.

(** The gathers of a round read for each pending lane the bucket it points to. *)
Lemma gather_next_lanes (src : m512i) (internal finished : mmask8) (id : m512i) word :
  2 ^ n <= extent free -> (forall i : fin 8, 0 <= id !!! i < 2 ^ n) ->
  exists v, gather_next managed free src internal finished (slli_epi64 id 4) word = Some v /\
    forall i : fin 8, v !!! i = if (finished !!! i : bool) then src !!! i
                                else word (at_loc st (internal !!! i, id !!! i)).
Proof using Hn Hmanaged Hfree Hextent.
  intros Hext Hid. unfold gather_next.
  assert (forall i : fin 8, slli_epi64 id 4 !!! i = 16 * id !!! i) as Hoff.
  { intros i. lanes. by apply (shl_offset _ n). }
  destruct (gather_in src (kand internal (knot finished)) (slli_epi64 id 4) managed word) as (v & -> & Hv).
  { intros i _. rewrite Hoff. by apply (in_table_offset _ n). }
  destruct (gather_in v (kand (knot internal) (knot finished)) (slli_epi64 id 4) free word) as (w & Hw & Hw').
  { intros i _. rewrite Hoff. by apply (in_table_offset _ n). }
  exists w. split; [exact Hw|]. intros i. rewrite Hw', Hv, Hoff. lanes.
  rewrite Z.mul_comm, Z.div_mul, <- !cells_at by lia.
  by destruct (internal !!! i), (finished !!! i).
Qed.

(** What a lane that is pending will answer. *)
Definition pending_answer (h : Z) (l : location_t) : Z := if h =? 0 then payload (at_loc st l) else NVALUE.

(** The loop with [k] bounding the sizes of the lanes. *)
Lemma batch_loop_lanes (high_key_id answer : m512i) : 2 ^ n <= extent free ->
  forall (k : nat) (size_field key_field id : m512i) (internal : mmask8) (size result : m512i) (matched finished : mmask8),
  (forall i : fin 8, 0 <= size !!! i <= Z.of_nat k) -> (k < 128)%nat ->
  (forall i : fin 8, u64 (key_field !!! i)) ->
  (forall i : fin 8, 0 <= id !!! i < 2 ^ n) ->
  (forall i : fin 8, if (finished !!! i : bool)
     then answer !!! i = (if (matched !!! i : bool) then result !!! i else NVALUE)
     else matched !!! i = false /\ 0 < size !!! i /\
          answer !!! i = pending_answer (high_key_id !!! i) (internal !!! i, id !!! i)) ->
  batch_loop managed free n (S k) high_key_id size_field key_field id internal size result matched finished = Lanes answer.
Proof using Hn Hcells Hmanaged Hfree Hextent.
  intros Hext. induction k as [|k IH]; intros size_field key_field id internal size result matched finished Hsize Hk Hkf Hid Hlane;
    cbn [batch_loop]; destruct (all_ones_spec finished) as [Hall|Hall].
  1,3: f_equal; apply vec_eq; intros i; specialize (Hlane i); rewrite Hall in Hlane; rewrite Hlane; lanes; by destruct (matched !!! i).
  { destruct Hall. intros i. specialize (Hlane i). specialize (Hsize i). destruct (finished !!! i); [done|]. lia. }
  destruct (gather_next_lanes size_field internal finished id size_word Hext Hid) as (sf & -> & Hsf).
  destruct (gather_next_lanes key_field internal finished id key_word Hext Hid) as (kf & -> & Hkf').
  assert (forall i : fin 8, u64 (kf !!! i)) as Hku.
  { intros i. rewrite Hkf'. destruct (finished !!! i); [done|]. apply Hcells. }
  apply IH; clear IH; [| lia | done | |].
  - intros i. specialize (Hsize i). lanes. rewrite size_step by lia. lia.
  - intros i. lanes. rewrite low_word by (done || lia). apply low_bound. lia.
  - intros i. specialize (Hlane i). specialize (Hsize i). lanes. rewrite size_step by lia. rewrite Hsf.
    destruct (finished !!! i) eqn:Hf; cbn [negb andb orb].
    + by rewrite ?orb_false_r.
    + destruct Hlane as (-> & Hpos & ->). cbn [orb]. unfold pending_answer.
      destruct (Z.eqb_spec (high_key_id !!! i) 0) as [E|E]; cbn [orb].
      * by rewrite size_word_payload.
      * destruct (Z.eqb_spec (Z.max 0 (size !!! i - 1)) 0); [done|]. split_and!; [done | lia | done].
Qed.

(** The answer of the lane of a key. *)
Definition lane_answer (shallow : bool) (key : Z) : Z :=
  let root := (true, low n key) in
  let same := high n (key_info_field (at_loc st root)) =? high n key in
  if Bucket.count (size_field (at_loc st root)) =? 0 then if shallow || same then NFOUND else NVALUE
  else if same then payload (at_loc st root)
  else if shallow then NVALUE
  else pending_answer (high n key) (nxt st root).

Definition no_roots (keys : m512i) : bool :=
  forallb (fun key => Bucket.count (size_field (at_loc st (true, low n key))) =? 0) keys.

Lemma gather_roots (keys : m512i) word : (forall i : fin 8, u64 (keys !!! i)) ->
  exists v, i64gather_epi64 (slli_epi64 (andnot_epi64 (set1_epi64 (hi_mask n)) keys) 4) managed word = Some v /\
    forall i : fin 8, v !!! i = word (at_loc st (true, low n (keys !!! i))).
Proof using Hn Hmanaged Hextent.
  intros Hkeys. assert (forall i : fin 8, slli_epi64 (andnot_epi64 (set1_epi64 (hi_mask n)) keys) 4 !!! i = 16 * low n (keys !!! i)) as Hoff.
  { intros i. lanes. rewrite low_word by (done || lia). apply (shl_offset _ n); [lia|]. apply low_bound. lia. }
  edestruct gather_in as (v & Hv & Hvi); [|exists v; split; [exact Hv|]].
  - intros i _. rewrite Hoff. apply (in_table_offset _ n); [|done]. apply low_bound. lia.
  - intros i. rewrite Hvi, Hoff. autorewrite with lanes. rewrite Z.mul_comm, Z.div_mul by lia.
    unfold at_loc. cbn. by rewrite Hmanaged.
Qed.

Lemma BatchFind_lanes (keys : m512i) shallow : (forall i : fin 8, u64 (keys !!! i)) ->
  (shallow = false -> 2 ^ n <= extent free) ->
  BatchFind managed free n keys shallow =
    Lanes (if no_roots keys then set1_epi64 NVALUE else vmap (lane_answer shallow) keys).
Proof using Hn Hcells Hmanaged Hfree Hextent.
  intros Hkeys Hext. unfold BatchFind.
  destruct (gather_roots keys size_word Hkeys) as (sf & -> & Hsf).
  destruct (gather_roots keys key_word Hkeys) as (kf & -> & Hkf).
  assert (forall i : fin 8, u64 (kf !!! i)) as Hku by (intros i; rewrite Hkf; apply Hcells).
  set (size := andnot_epi64 (set1_epi64 0xFFFFFFFFFFFFFF80) sf).
  assert (forall i : fin 8, size !!! i = Bucket.count (size_field (at_loc st (true, low n (keys !!! i))))) as Hs.
  { intros i. unfold size. lanes. rewrite Hsf. by apply size_word_count. }
  replace (all_ones (cmpeq_epi64_mask size (set1_epi64 0))) with (no_roots keys).
  2: { unfold no_roots, all_ones. apply eq_true_iff_eq. rewrite !forallb_forall. split; intros H b Hb;
       apply list_elem_of_In, elem_of_vlookup in Hb as [i <-].
       - lanes. rewrite Hs. apply (H (keys !!! i)), list_elem_of_In, elem_of_vlookup. by exists i.
       - specialize (H (cmpeq_epi64_mask size (set1_epi64 0) !!! i)). lanes. rewrite Hs in H. apply H.
         apply list_elem_of_In, elem_of_vlookup. exists i. lanes. by rewrite Hs. }
  destruct (no_roots keys); [done|]. destruct shallow.
  - f_equal. apply vec_eq. intros i. lanes. rewrite Hs, Hsf, Hkf, size_word_payload by done. unfold key_word, lane_answer.
    rewrite !high_word by (done || apply Hcells || lia). rewrite (Z.eqb_sym (high n (keys !!! i))).
    by destruct (_ =? 0), (_ =? _).
  - apply batch_loop_lanes; auto with lia.
    + intros i. rewrite Hs. pose proof (count_bound (size_field (at_loc st (true, low n (keys !!! i))))). lia.
    + intros i. lanes. rewrite low_word by (done || lia). apply low_bound. lia.
    + intros i. lanes. rewrite Hs, Hsf, Hkf, size_word_payload, size_word_flag by done. unfold key_word, lane_answer.
      rewrite !high_word, low_word by (done || apply Hcells || lia). rewrite (Z.eqb_sym (high n (keys !!! i))).
      pose proof (count_bound (size_field (at_loc st (true, low n (keys !!! i))))).
      destruct (_ =? high n (keys !!! i)), (Z.eqb_spec (Bucket.count (size_field (at_loc st (true, low n (keys !!! i))))) 0);
        cbn [orb negb]; try done. split_and!; [done | lia | done].
Qed.
End Lanes.

(** ** Theorems *)

(** The lanes that say [NVALUE] are looked up again with [Find]. *)
Definition complete (st : Store) (keys lanes : m512i) : vec (option Z) 8 :=
  vzip_with (fun key r => if r =? NVALUE then Find st false key else Some r) keys lanes.

(** A lane of a store that represents a map: what it answers is right, or it says
    [NVALUE], or its key has no high bits and the bucket after the root is taken. *)
Lemma lane_answer_map st C m shallow key : ok st C m -> u64 key -> shallow = true \/ high (ntype st) key <> 0 ->
  lane_answer st shallow key = NVALUE \/ lane_answer st shallow key = default NFOUND (m !! key).
Proof.
  intros Hok Hkey Hsh. destruct (key_bucket _ key (ok_type _ _ _ Hok) Hkey) as (_ & _ & Hb).
  pose proof (ok_chain _ _ _ Hok _ Hb) as Hc. rewrite (ok_map _ _ _ Hok) by done.
  unfold lane_answer, pending_answer. rewrite <- (c_size _ _ _ Hc).
  destruct (C (low (ntype st) key)) as [|x c] eqn:EC.
  - cbn [length Z.of_nat Z.eqb chain_find foldr default]. destruct (_ || _); auto.
  - rewrite (proj2 (Z.eqb_neq _ _)) by (cbn [length]; lia).
    destruct (c_head _ _ _ Hc) as [|[= ->]]; [done|]. rewrite chain_find_cons.
    destruct (_ =? high (ntype st) key); [by right|]. left. destruct shallow; [done|].
    destruct Hsh; [done|]. by rewrite (proj2 (Z.eqb_neq _ _)).
Qed.

(** A key that is found is in its root bucket. *)
Lemma lane_answer_root st shallow key : shallow = true \/ high (ntype st) key <> 0 ->
  high (ntype st) (key_info_field (at_loc st (true, low (ntype st) key))) <> high (ntype st) key ->
  lane_answer st shallow key = NVALUE \/ lane_answer st shallow key = NFOUND.
Proof.
  intros Hsh Hne. unfold lane_answer, pending_answer. rewrite (proj2 (Z.eqb_neq _ _) Hne).
  destruct (_ =? 0), shallow; cbn [orb]; auto. destruct Hsh; [done|]. rewrite (proj2 (Z.eqb_neq _ _)); auto.
Qed.

(** C17: a batched lookup that is completed with [Find] in the lanes that answer
    NVALUE agrees with [Find], under these conditions: the builder's insertions never
    found their root slot lent nor a chain of 127 or more; the managed table is mapped
    up to the table size; and either the lookup is shallow, or the free table is mapped
    up to the table size too and each of the eight keys has high bits.  Then [BatchFind]
    returns (the loop ends and no gather faults), the completed answers are those of the
    map, and a key that is not in its root bucket is answered NVALUE or NFOUND.  (Deep
    lookups without these conditions are in [batch_finds_absent_keys] and
    [batch_find_faults].) *)
Theorem batch_find_correct st0 count st1 st m keys shallow managed free :
  opened st0 -> Reserve count st0 = Some (true, st1) -> rtc bstep (st1, ∅) (st, m) ->
  2 ^ ntype st <= managed -> shallow = true \/ 2 ^ ntype st <= free ->
  (forall i : fin 8, u64 (keys !!! i) /\ (shallow = true \/ high (ntype st) (keys !!! i) <> 0)) ->
  exists lanes,
    BatchFind (mkMapped managed (managed_bucket st)) (mkMapped free (free_bucket st)) (ntype st) keys shallow = Lanes lanes /\
    complete st keys lanes = vmap (fun key => Some (default NFOUND (m !! key))) keys /\
    forall i : fin 8,
      high (ntype st) (key_info_field (at_loc st (true, low (ntype st) (keys !!! i)))) <> high (ntype st) (keys !!! i) ->
      lanes !!! i = NVALUE \/ lanes !!! i = NFOUND.
Proof.
  intros Hop HR Hs Hman Hfree Hkeys. destruct (history_ok st0 count st1 _ Hop HR Hs) as [C Hok]. cbn [fst snd] in Hok.
  assert (forall i : fin 8, u64 (keys !!! i)) as Hu by apply Hkeys.
  eexists. split; [|split].
  - apply BatchFind_lanes; try done; [apply (ok_type _ _ _ Hok) | apply (ok_cells _ _ _ Hok)|].
    intros ->. by destruct Hfree.
  - apply vec_eq. intros i. unfold complete. autorewrite with lanes. destruct (Hkeys i) as [Hk Hsh].
    destruct (no_roots st keys); autorewrite with lanes; [by rewrite (Find_chain st C m)|].
    destruct (lane_answer_map st C m shallow (keys !!! i) Hok Hk Hsh) as [->| ->]; [by rewrite (Find_chain st C m)|].
    case_match; [by rewrite (Find_chain st C m) | done].
  - intros i Hne. destruct (Hkeys i) as [_ Hsh]. destruct (no_roots st keys); autorewrite with lanes; auto.
    by apply lane_answer_root.
Qed.

(** Two keys of root 5. *)
Definition two_keys : Store := ins (0x25, 6) (ins (0x15, 5) (reserved 12)).
Definition two_keys_map : gmap Z Z := <[0x25 := wrap 56 6]> (<[0x15 := wrap 56 5]> ∅).

Lemma two_keys_history : rtc bstep (reserved 12, ∅) (two_keys, two_keys_map).
Proof.
  eapply rtc_l; [|apply rtc_once].
  - apply (ins_step (reserved 12) ∅ 0x15 5 (true, 5)); [by vm_compute | by left | by vm_compute | by vm_compute | done].
  - apply (ins_step (ins (0x15, 5) (reserved 12)) _ 0x25 6 (false, 0)); [by vm_compute | right; by vm_compute | by vm_compute | by vm_compute | done].
Qed.

Lemma batch_find_correct_witness : exists lanes,
  BatchFind (mkMapped 16 (managed_bucket two_keys)) (mkMapped 16 (free_bucket two_keys)) 4
    [# 0x15; 0x25; 0x35; 0x16; 0x15; 0x25; 0x35; 0x16] false = Lanes lanes /\
  complete two_keys [# 0x15; 0x25; 0x35; 0x16; 0x15; 0x25; 0x35; 0x16] lanes =
    [# Some 5; Some 6; Some NFOUND; Some NFOUND; Some 5; Some 6; Some NFOUND; Some NFOUND].
Proof.
  destruct (batch_find_correct fresh 12 (reserved 12) two_keys two_keys_map
    [# 0x15; 0x25; 0x35; 0x16; 0x15; 0x25; 0x35; 0x16] false 16 16 fresh_opened eq_refl two_keys_history) as (lanes & E & H & _).
  - by vm_compute.
  - right. by vm_compute.
  - intros i. do 8 (inv_fin i; [split; [by vm_compute | right; by vm_compute] | intros i]). inversion i.
  - exists lanes. split; [exact E|]. rewrite H. reflexivity.
Defined.

(** A batched lookup finds keys that are not in the table.  A lane that is
    pending after its root bucket compares the high bits of its key with zero and
    not with the key of the bucket it reads.  So a key below the table size that
    is absent, but whose root is in use, is answered with the payload of the
    bucket that the root points to, where [Find] answers NFOUND. *)
Lemma batch_finds_absent_keys st0 count st1 st m keys (i : fin 8) managed free :
  opened st0 -> Reserve count st0 = Some (true, st1) -> rtc bstep (st1, ∅) (st, m) ->
  2 ^ ntype st <= managed -> 2 ^ ntype st <= free -> (forall j : fin 8, u64 (keys !!! j)) ->
  keys !!! i < 2 ^ ntype st -> m !! (keys !!! i) = None ->
  WeakBucket.size (at_loc st (true, keys !!! i)) <> 0 ->
  exists lanes,
    BatchFind (mkMapped managed (managed_bucket st)) (mkMapped free (free_bucket st)) (ntype st) keys false = Lanes lanes /\
    lanes !!! i = payload (at_loc st (WeakBucket.next_bucket (hi_mask (ntype st)) (at_loc st (true, keys !!! i)))) /\
    uint 56 (lanes !!! i) /\ Find st false (keys !!! i) = Some NFOUND.
Proof.
  intros Hop HR Hs Hman Hfree Hkeys Hlt Hnone Hsize. destruct (history_ok st0 count st1 _ Hop HR Hs) as [C Hok].
  cbn [fst snd] in Hok. pose proof (ok_type _ _ _ Hok) as Hn. pose proof (ok_cells _ _ _ Hok) as Hcells.
  set (key := keys !!! i) in *. assert (u64 key) as Hu by apply Hkeys.
  assert (low (ntype st) key = key) as Hlow by (apply low_small; unfold uint in Hu; lia).
  assert (high (ntype st) key = 0) as Hhigh by (pose proof (high_low (ntype st) key); lia).
  rewrite size_count in Hsize by done.
  assert (lane_answer st false key = payload (at_loc st (WeakBucket.next_bucket (hi_mask (ntype st)) (at_loc st (true, key))))) as Hans.
  { rewrite next_bucket_next_of by (done || lia). unfold lane_answer, pending_answer. rewrite Hlow.
    rewrite (proj2 (Z.eqb_neq _ _) Hsize), Hhigh. rewrite (ok_map _ _ _ Hok), Hlow, Hhigh in Hnone by done.
    pose proof (ok_chain _ _ _ Hok key ltac:(unfold uint in Hu; lia)) as Hc. rewrite <- (c_size _ _ _ Hc) in Hsize.
    destruct (C key) as [|x c]; [done|]. destruct (c_head _ _ _ Hc) as [|[= ->]]; [done|].
    rewrite chain_find_cons in Hnone. by destruct (_ =? 0). }
  eexists. split; [by apply BatchFind_lanes|]. assert (no_roots st keys = false) as ->.
  { apply not_true_iff_false. unfold no_roots. rewrite forallb_forall. intros H.
    specialize (H key). rewrite Hlow in H. apply Hsize, Z.eqb_eq, H, list_elem_of_In, elem_of_vlookup. by exists i. }
  rewrite vlookup_map. fold key. rewrite Hans. split; [done|]. split; [apply Hcells|]. by rewrite (Find_chain st C m), Hnone.
Qed.

Lemma batch_finds_absent_keys_witness : exists lanes,
  BatchFind (mkMapped 16 (managed_bucket two_keys)) (mkMapped 16 (free_bucket two_keys)) 4 (vreplicate 8 0x05) false = Lanes lanes /\
  lanes !!! (0%fin : fin 8) = 6 /\ Find two_keys false 0x05 = Some NFOUND.
Proof.
  destruct (batch_finds_absent_keys fresh 12 (reserved 12) two_keys two_keys_map (vreplicate 8 0x05) (0%fin : fin 8) 16 16
    fresh_opened eq_refl two_keys_history) as (lanes & E & H & _ & F).
  1-2: by vm_compute.
  - intros j. rewrite vlookup_replicate. by vm_compute.
  - by vm_compute.
  - by vm_compute.
  - by vm_compute.
  - exists lanes. split; [exact E|]. rewrite H. by split.
Defined.

(** A file of free buckets is cut to the buckets in use when the builder is closed.
    Then a lane that is pending at a root without further buckets reads the free
    table at the low bits of the root's key: with an empty free table the lookup
    faults, where [Find] answers. *)
Lemma batch_find_faults :
  Find (ins (0x15, 5) (reserved 12)) false 0x25 = Some NFOUND /\
  BatchFind (mkMapped 16 (managed_bucket (ins (0x15, 5) (reserved 12)))) (mkMapped 0 (free_bucket (ins (0x15, 5) (reserved 12)))) 4
    (vreplicate 8 0x25) false = Fault.
Proof. by vm_compute. Qed.
