(* ===== verification/Dict.v ===== *)
(** * The embedding dictionary: src/qed/qed.h, src/qed/qed.cc

    A directory with a description in YAML, a trie of group names and, for each
    group, the files of a hash table and a block of data.  [Load] maps the files;
    [GetGid] finds a group by number or by name, [Lookup] a feature of a group.
    The files of a table are those that [Builder::Close] leaves.  The YAML library
    is an argument: a type of nodes with its operations.  Mapping a file that can
    be opened and is not empty succeeds. *)
From Stdlib Require Import ZArith Lia.
From stdpp Require Import base list option strings.
From S2P Require Import Prelude Words Memory Bucket Builder Trie Strings.

Local Open Scope Z_scope.

(** ** The files of a table: builder.cc *)

(** [struct RawBucket] and [struct MetaInfo] in memory. *)
Definition bucket_bytes (b : RawBucket) : bytes :=
  le_bytes 8 (key_info_field b) ++ [size_field b] ++ le_bytes 7 (payload b).
Definition bucket_of (l : bytes) : RawBucket :=
  mkRawBucket (le_value (take 8 l)) (le_value (take 1 (drop 8 l))) (le_value (take 7 (drop 9 l))).
Definition meta_bytes (m : MetaInfo) : bytes :=
  le_bytes 8 (impl_version m) ++ le_bytes 1 (bucket_type m) ++ le_bytes 7 (reserved_field m) ++
  le_bytes 8 (managed_id_count m) ++ le_bytes 8 (free_id_count m) ++ le_bytes 8 (extended_field_size m).
Definition meta_of (l : bytes) : MetaInfo :=
  mkMetaInfo (le_value (take 8 l)) (le_value (take 1 (drop 8 l))) (le_value (take 7 (drop 9 l)))
    (le_value (take 8 (drop 16 l))) (le_value (take 8 (drop 24 l))) (le_value (take 8 (drop 32 l))).

(** The first [count] elements of a table. *)
Definition table_bytes {A} (element : A -> bytes) (count : nat) (t : table A) : bytes :=
  mjoin ((fun i => element (t (Z.of_nat i))) <$> seq 0 count).

(** The files that [Builder::Close] leaves; [extended] follows the meta data in
    its file. *)
Record BuilderFiles : Type := mkFiles {
  managed_file : bytes;
  free_file : bytes;
  root_managed_file : bytes;
  root_free_file : bytes;
  meta_file : bytes;
}.

Definition Close (extended : bytes) (st : Store) : BuilderFiles :=
  let slots := Z.to_nat (shl 64 1 (bucket_type (meta_info st))) in
  mkFiles (table_bytes bucket_bytes slots (managed_bucket st))
    (table_bytes bucket_bytes (Z.to_nat (free_id_count (meta_info st))) (free_bucket st))
    (table_bytes (le_bytes 8) slots (root_bucket_id_table_managed st))
    (table_bytes (le_bytes 8) slots (root_bucket_id_table_free st))
    (meta_bytes (meta_info st) ++ take (Z.to_nat (extended_field_size (meta_info st))) extended).

(** ** Mapped files: mmap.cc, memory_file.h *)

(** A mapping of a file that is read; a null pointer before [Open]. *)
Record MmapedMemory : Type := mkMmap { file_name_ : bytes; address_ : option bytes }.
Definition new_MmapedMemory (file : bytes) : MmapedMemory := mkMmap file None.
Definition Get (m : MmapedMemory) : option bytes := address_ m.

(** [MmapedMemory::Open(0, populate)] on a new object: the size of the mapping, 0
    when the file cannot be opened or is empty (a mapping of no bytes fails). *)
Definition Open (files : bytes -> option bytes) (m : MmapedMemory) : Z * MmapedMemory :=
  match files (file_name_ m) with
  | None | Some [] => (0, m)
  | Some l => (Z.of_nat (length l), mkMmap (file_name_ m) (Some l))
  end.

(** The meta data at the start of a mapping: the page is filled with zeros after
    the end of the file. *)
Definition mapped_meta (l : bytes) : MetaInfo := meta_of (l ++ replicate 40 0).

(** ** The dictionary *)

Inductive DictValueType : Type := unknown | fp32 | fp16.
#[export] Instance DictValueType_eq_dec : EqDecision DictValueType.
Proof. solve_decision. Defined.

Record HashTable : Type := mkHashTable {
  managed_buckets_ : option bytes;
  free_buckets_ : option bytes;
  bucket_size_log2_ : Z;
}.

(** [struct FeagroupStore]. *)
Record FeagroupStore : Type := mkFeagroupStore {
  table_ : HashTable;
  block_ : MmapedMemory;
  gid_ : Z;
  dim_ : Z;
}.

(** [class QuickEmbeddingDict]. *)
Record Dict : Type := mkDict {
  value_type_ : DictValueType;
  fg_stores_ : list (option FeagroupStore);
  hash_tables_ : list HashTable;
  data_blocks_ : list MmapedMemory;
  trie_data_ : option MmapedMemory;
  path_ : bytes;
}.

Definition new_Dict (path : bytes) : Dict := mkDict unknown [] [] [] None path.

Definition with_value_type (t : DictValueType) (d : Dict) : Dict :=
  mkDict t (fg_stores_ d) (hash_tables_ d) (data_blocks_ d) (trie_data_ d) (path_ d).
Definition with_stores (s : list (option FeagroupStore)) (d : Dict) : Dict :=
  mkDict (value_type_ d) s (hash_tables_ d) (data_blocks_ d) (trie_data_ d) (path_ d).
Definition with_tables (t : list HashTable) (d : Dict) : Dict :=
  mkDict (value_type_ d) (fg_stores_ d) t (data_blocks_ d) (trie_data_ d) (path_ d).
Definition with_blocks (b : list MmapedMemory) (d : Dict) : Dict :=
  mkDict (value_type_ d) (fg_stores_ d) (hash_tables_ d) b (trie_data_ d) (path_ d).
Definition with_trie (t : option MmapedMemory) (d : Dict) : Dict :=
  mkDict (value_type_ d) (fg_stores_ d) (hash_tables_ d) (data_blocks_ d) t (path_ d).

(** *** Loading *)

(** What the code uses of YAML nodes.  [None] is an exception.  [get] is the
    subscript of a constant node, [index] the one of a variable. *)
Class Yaml (Node : Type) : Type := {
  IsMap : Node -> bool;
  IsScalar : Node -> bool;
  IsDefined : Node -> bool;
  Scalar : Node -> option bytes;
  get : Node -> bytes -> option Node;
  index : Node -> bytes -> option Node;
  items : Node -> list (Node * Node);
}.

(** The end of a call: a return, or an access outside of a vector or a shift by
    more than the width. *)
Inductive loaded : Type :=
| Returned (ok : bool) (d : Dict)
| OutOfBounds.

(** [std::atoi] and [std::stoi]. *)
Definition atoi (s : bytes) : Z := let '(v, _, _) := strtol s in swrap 32 v.
Definition stoi (s : bytes) : option Z :=
  match number s with
  | None => None
  | Some _ => let '(v, _, err) := strtol s in
              if err || (v <? - 2 ^ 31) || (2 ^ 31 - 1 <? v) then None else Some v
  end.

Section Load.
Context {Node : Type} `{Yaml Node}.
Context (LoadFile : bytes -> option Node) (files : bytes -> option bytes).

(** [path + "/" + name]. *)
Definition in_dir (path name : bytes) : bytes := path ++ bytes_of "/" ++ name.

Definition scalar_at (sub : Node -> bytes -> option Node) (n : Node) (key : string) : option bytes :=
  sub n (bytes_of key) ≫= Scalar.

Definition value_type (s : bytes) : DictValueType :=
  if same s (bytes_of "0") then fp32 else if same s (bytes_of "1") then fp16 else unknown.

Definition gid_of (k : Node) : option Z := (fun s => wrap 32 (atoi s)) <$> Scalar k.

(** The loop for the largest group number. *)
Fixpoint max_gid_loop (max_gid : Z) (l : list (Node * Node)) : option Z :=
  match l with
  | [] => Some max_gid
  | (k, _) :: l => gid ← gid_of k; max_gid_loop (Z.max max_gid gid) l
  end.

(** The dimension of a group, 0 when it is not given. *)
Definition dim_of (v : Node) : option Z :=
  n ← get v (bytes_of "dim");
  if IsDefined n && IsScalar n then Scalar n ≫= stoi else Some 0.

(** The maps of a group's files and its hash table; [blocks] are those of the
    groups before it. *)
Definition load_group (gid : Z) (v : Node) (d : Dict) (next : Dict -> loaded) : loaded :=
  let blocks := data_blocks_ d in
  match scalar_at get v "free", scalar_at get v "managed", scalar_at get v "meta", scalar_at get v "data" with
  | Some free, Some managed, Some meta, Some data =>
      let name f := new_MmapedMemory (in_dir (path_ d) f) in
      let put free managed meta data := with_blocks (blocks ++ [free; managed; meta; data]) d in
      let '(freeMmap, managedMmap, dataMmap) := (name free, name managed, name data) in
      let (_, metaMmap) := Open files (name meta) in
      match Get metaMmap with
      | None => Returned false (put freeMmap managedMmap metaMmap dataMmap)
      | Some l =>
          let metaInfo := mapped_meta l in
          let (free_size, freeMmap) :=
            if free_id_count metaInfo =? 0 then (0, freeMmap) else Open files freeMmap in
          if negb (free_id_count metaInfo =? 0) && (free_size <? wrap 64 (free_id_count metaInfo * 16))
          then Returned false (put freeMmap managedMmap metaMmap dataMmap)
          else if 64 <=? bucket_type metaInfo then OutOfBounds
          else
            let (managed_size, managedMmap) := Open files managedMmap in
            if managed_size <? wrap 64 (shl 64 1 (bucket_type metaInfo) * 16)
            then Returned false (put freeMmap managedMmap metaMmap dataMmap)
            else
              let (data_size, dataMmap) := Open files dataMmap in
              let d := put freeMmap managedMmap metaMmap dataMmap in
              if data_size =? 0 then Returned false d
              else
                let hash_table := mkHashTable (Get managedMmap) (Get freeMmap) (bucket_type metaInfo) in
                let d := with_tables (hash_tables_ d ++ [hash_table]) d in
                match dim_of v with
                | None => Returned false d
                | Some dim =>
                    let fg_store := mkFeagroupStore hash_table dataMmap (wrap 16 gid) dim in
                    next (with_stores (<[Z.to_nat gid := Some fg_store]> (fg_stores_ d)) d)
                end
      end
  | _, _, _, _ => Returned false d
  end.

Definition is_empty {A} (l : list A) : bool := match l with [] => true | _ => false end.
Definition is_null {A} (x : option A) : bool := match x with None => true | Some _ => false end.

(** The loop over the groups and the end of [Load]. *)
Fixpoint load_groups (l : list (Node * Node)) (d : Dict) : loaded :=
  match l with
  | [] => Returned (negb (is_empty (fg_stores_ d)) && negb (is_empty (hash_tables_ d))
                    && negb (is_empty (data_blocks_ d)) && negb (is_null (trie_data_ d))) d
  | (k, v) :: l =>
      match gid_of k with
      | None => Returned false d
      | Some gid =>
          match fg_stores_ d !! Z.to_nat gid with
          | None => OutOfBounds
          | Some (Some _) => Returned false (with_stores [] d)
          | Some None => load_group gid v d (load_groups l)
          end
      end
  end.

(** [QuickEmbeddingDict::Load]. *)
Definition Load (d : Dict) : loaded :=
  if negb (is_empty (fg_stores_ d)) || negb (is_empty (hash_tables_ d)) || negb (is_empty (data_blocks_ d))
     || negb (is_null (trie_data_ d)) then Returned false d
  else
    match LoadFile (in_dir (path_ d) (bytes_of "desc.yml")) with
    | None => Returned false d
    | Some desc_node =>
        if negb (IsMap desc_node) then Returned false d
        else
          match scalar_at index desc_node "data_type" with
          | None => Returned false d
          | Some dataType =>
              if bool_decide (value_type dataType = unknown) then Returned false d
              else
                let d := with_value_type (value_type dataType) d in
                match scalar_at index desc_node "gidmapping_file" with
                | None => Returned false d
                | Some gidmapping_file =>
                    let (size, trie) := Open files (new_MmapedMemory (in_dir (path_ d) gidmapping_file)) in
                    if (size =? 0) || is_null (Get trie) then Returned false d
                    else
                      let d := with_trie (Some trie) d in
                      match index desc_node (bytes_of "gids") with
                      | None => Returned false d
                      | Some gidNodes =>
                          match max_gid_loop 0 (items gidNodes) with
                          | None => Returned false d
                          | Some max_gid =>
                              load_groups (items gidNodes)
                                (with_stores (replicate (Z.to_nat (wrap 32 (max_gid + 1))) None) d)
                          end
                      end
                end
          end
    end.

(** [QuickEmbeddingDict::Validate]: [stat] succeeds on the files that exist. *)
Record validation : Type := mkValidation { gid_count : Z; has_gid_mapping : bool; type : DictValueType }.

(** The loop over the groups: the number of groups, or a failure. *)
Fixpoint validate_groups (path : bytes) (l : list (Node * Node)) (count : Z) : option Z :=
  match l with
  | [] => Some count
  | (k, v) :: l =>
      if negb (IsMap v) then None
      else
        _ ← Scalar k;
        free ← scalar_at get v "free"; managed ← scalar_at get v "managed"; meta ← scalar_at get v "meta";
        _ ← files (in_dir path free); _ ← files (in_dir path managed); _ ← files (in_dir path meta);
        validate_groups path l (wrap 32 (count + 1))
  end.

Fixpoint validate_entries (path : bytes) (l : list (Node * Node)) (s : validation) : option validation :=
  match l with
  | [] => Some s
  | (k, v) :: l =>
      key ← Scalar k;
      s ← (if same key (bytes_of "data_type") then
             t ← Scalar v;
             Some (mkValidation (gid_count s) (has_gid_mapping s)
                     (if bool_decide (value_type t = unknown) then type s else value_type t))
           else if same key (bytes_of "gidmapping_file") then
             f ← Scalar v;
             match files (in_dir path f) with
             | None | Some [] => None
             | Some _ => Some (mkValidation (gid_count s) true (type s))
             end
           else if same key (bytes_of "gids") then
             c ← validate_groups path (items v) (gid_count s);
             Some (mkValidation c (has_gid_mapping s) (type s))
           else Some s);
      validate_entries path l s
  end.

Definition Validate (path : bytes) : bool :=
  match LoadFile (in_dir path (bytes_of "desc.yml")) with
  | None => false
  | Some desc_node =>
      if negb (IsMap desc_node) then false
      else
        match validate_entries path (items desc_node) (mkValidation 0 false unknown) with
        | None => false
        | Some s => (0 <? gid_count s) && has_gid_mapping s && negb (bool_decide (type s = unknown))
        end
  end.
End Load.

(** *** Finding *)

(** [GetGid] by number. *)
Definition GetGid (gid : Z) (d : Dict) : option FeagroupStore :=
  if Z.of_nat (length (fg_stores_ d)) <=? gid then None else mjoin (fg_stores_ d !! Z.to_nat gid).

(** [GetGid] by name: the outer [None] is an access outside of the trie. *)
Definition GetGid_by_name (feagroup_id : bytes) (d : Dict) : option (option FeagroupStore) :=
  match trie_data_ d ≫= Get with
  | None => Some None
  | Some mem =>
      node ← find_trie 2 2 STRONG mem feagroup_id 0;
      match node with
      | None => Some None
      | Some node => gid ← node_value 2 mem node; Some (GetGid gid d)
      end
  end.

Section Lookup.
(** The memory outside of a mapping. *)
Context (outside : table RawBucket).

Definition bucket_table (mem : option bytes) : table RawBucket := fun i =>
  let mem := default [] mem in
  if (0 <=? i) && (16 * (i + 1) <=? Z.of_nat (length mem))
  then bucket_of (take 16 (drop (Z.to_nat (16 * i)) mem)) else outside i.

(** The tables of a hash table as the reader sees them. *)
Definition reader (t : HashTable) : Store :=
  mkStore (bucket_table (managed_buckets_ t)) (bucket_table (free_buckets_ t)) (fun _ => 0) (fun _ => 0)
    (mkMetaInfo 0 (bucket_size_log2_ t) 0 0 0 0).

(** [Lookup<T, verbose>]: the offset in the group's block of data.  The outer [None]
    is too little fuel for [Find]. *)
Definition Lookup (T : DictValueType) (verbose : bool) (store : option FeagroupStore) (fid : Z) (d : Dict)
  : option (option Z) :=
  match store with
  | None => Some None
  | Some store =>
      if negb (bool_decide (T = value_type_ d)) then Some None
      else
        payload ← Find (reader (table_ store)) verbose fid;
        Some (if payload =? NFOUND then None else Some payload)
  end.
End Lookup.
