(* ===== verification/DictCorrect.v ===== *)
(** * The embedding dictionary: what is built is found

    The files of a builder are read back by the hash table of the dictionary, and
    the description of a directory leads to the group and its table. *)
From Stdlib Require Import ZArith Lia.
From stdpp Require Import base list option strings gmap relations.
From S2P Require Import Prelude Words Memory Bucket Builder BuilderCorrect Trie TrieCorrect Strings Dict.

Local Open Scope Z_scope.

(** ** Files *)




Section TableBytes.
Context {A : Type} (element : A -> bytes) (w : nat) (Hw : forall a, length (element a) = w).


End TableBytes.



(** ** The table of a group *)







(** ** Loading *)

(** A group of a dictionary: its number, its table with the map it stands for, its
    data and its dimension. *)
Record group : Type := mkGroup {
  g_gid : Z;
  g_store : Store;
  g_map : gmap Z Z;
  g_ext : bytes;
  g_data : bytes;
  g_dim : Z;
}.



Section Directory.
Context {Node : Type} `{Yaml Node}.
Context (LoadFile : bytes -> option Node) (files : bytes -> option bytes) (path : bytes).







End Directory.

(** The names of groups: in the order of the map, of characters 1 to 127, with 16-bit
    numbers, and small enough for the 16-bit offsets of the trie. *)
Record group_names (names : list (bytes * Z)) : Prop := {
  gn_map : ascii_map names;
  gn_values : Forall (fun v => 0 <= v <= max_of 2) names.*2;
  gn_size h : insert_all names [new_FatTrieNode] = Ok h -> Z.of_nat (total_size 2 2 STRONG h) <= 256 ^ 2;
}.

Lemma names_trie names trie : group_names names -> build_trie 2 2 STRONG names = Ok trie ->
  exists h, (forall k v, (k, v) ∈ names -> exists j, path h 0 k j /\ val h j = v) /\
    (forall k j, k ∉ names.*1 -> path h 0 k j -> val h j = 0) /\
    (forall k j, path h 0 k j ->
       exists node, find_trie 2 2 STRONG trie k 0 = Some (Some node) /\ node_value 2 trie node = Some (val h j)).
Proof.
  intros [Hm Hv Hs] E. destruct (build_trie_spec 2 2 STRONG names Hm Hv) as (h & Eh & Hk & Ho & _ & Hb). exists h.
  split; [exact Hk|]. split; [exact Ho|]. destruct (Hb (Hs h Eh)) as (mem & Em & _ & Hf & _). rewrite E in Em. by injection Em as ->.
Qed.

(** The trie of a dictionary leads a name to the group of its node's value. *)
Lemma GetGid_by_path trie h k j d : trie_data_ d ≫= Get = Some trie ->
  (forall k j, path h 0 k j ->
     exists node, find_trie 2 2 STRONG trie k 0 = Some (Some node) /\ node_value 2 trie node = Some (val h j)) ->
  path h 0 k j -> GetGid_by_name k d = Some (GetGid (val h j) d).
Proof.
  intros Ed Hf P. destruct (Hf k j P) as (node & E1 & E2). unfold GetGid_by_name. rewrite Ed, E1. cbn [mbind option_bind]. by rewrite E2.
Qed.


(** ** Theorems *)


(** A name that is the beginning of a group's name, but no group itself, is
    answered with the store of group 0, where the interface promises a null
    pointer: the nodes on the way to a name have the value 0. *)
Lemma name_prefix_is_group_zero names trie d name rest :
  group_names names -> build_trie 2 2 STRONG names = Ok trie -> trie_data_ d ≫= Get = Some trie ->
  name ++ rest ∈ names.*1 -> name ∉ names.*1 ->
  GetGid_by_name name d = Some (GetGid 0 d).
Proof.
  intros Hnames Eb Etr Hin Hout. destruct (names_trie names trie Hnames Eb) as (h & Hk & Ho & Hf).
  apply list_elem_of_fmap in Hin as ([k v] & E & Hin). destruct (Hk _ _ Hin) as (j & P & _). cbn in E. subst k.
  destruct (path_prefix _ _ _ _ _ P) as [x Px]. rewrite (GetGid_by_path trie h name x d) by done. by rewrite (Ho name x).
Qed.

(** ** A directory *)

(** Nodes of scalars and maps. *)
Inductive node : Type := Text (s : bytes) | Mapping (l : list (bytes * node)) | Missing.

Definition sub (n : node) (k : bytes) : option node :=
  match n with Mapping l => Some (default Missing ((fun x => x.2.2) <$> list_find (fun kv => kv.1 = k) l)) | _ => None end.

#[export] Instance yaml_node : Yaml node := {
  IsMap n := match n with Mapping _ => true | _ => false end;
  IsScalar n := match n with Text _ => true | _ => false end;
  IsDefined n := match n with Missing => false | _ => true end;
  Scalar n := match n with Text s => Some s | Mapping _ => Some [] | Missing => None end;
  get := sub;
  index := sub;
  items n := match n with Mapping l => (fun kv => (Text kv.1, kv.2)) <$> l | _ => [] end;
}.

Definition two_names : list (bytes * Z) := [(bytes_of "ab", 1); (bytes_of "z", 0)].
Definition two_names_trie : bytes := match build_trie 2 2 STRONG two_names with Ok l => l | _ => [] end.

(** One group of two keys, one of one key. *)
Definition group0 : group :=
  mkGroup 0 (ins (0x15, 5) (reserved 2)) (<[0x15 := wrap 56 5]> ∅) [] [7] 8.
Definition group1 : group :=
  mkGroup 1 (ins (0x25, 6) (ins (0x15, 5) (reserved 2))) (<[0x25 := wrap 56 6]> (<[0x15 := wrap 56 5]> ∅)) [] [7; 8] 0.

Definition group_node (n : string) (dim : list (bytes * node)) : node :=
  Mapping ([(bytes_of "free", Text (bytes_of ("f" +:+ n))); (bytes_of "managed", Text (bytes_of ("m" +:+ n)));
            (bytes_of "meta", Text (bytes_of ("e" +:+ n))); (bytes_of "data", Text (bytes_of ("d" +:+ n)))] ++ dim).
Definition two_desc : node :=
  Mapping [(bytes_of "data_type", Text (bytes_of "0")); (bytes_of "gidmapping_file", Text (bytes_of "t"));
           (bytes_of "gids", Mapping [(bytes_of "0", group_node "0" [(bytes_of "dim", Text (bytes_of "8"))]); (bytes_of "1", group_node "1" [])])].

Definition group_files (n : string) (g : group) : list (bytes * bytes) :=
  let c := Close (g_ext g) (g_store g) in
  [(bytes_of ("p/f" +:+ n), free_file c); (bytes_of ("p/m" +:+ n), managed_file c);
   (bytes_of ("p/e" +:+ n), meta_file c); (bytes_of ("p/d" +:+ n), g_data g)].
Definition two_files : list (bytes * bytes) :=
  (bytes_of "p/t", two_names_trie) :: group_files "0" group0 ++ group_files "1" group1.

Definition read_file (name : bytes) : option bytes := (fun x => x.2.2) <$> list_find (fun kv => kv.1 = name) two_files.
Definition read_desc (name : bytes) : option node := if same name (bytes_of "p/desc.yml") then Some two_desc else None.


Lemma two_group_names : group_names two_names.
Proof.
  split.
  - split; cbn; repeat constructor; cbn; try lia; discriminate.
  - repeat constructor; cbn; discriminate.
  - intros h E. assert (Ok h = insert_all two_names [new_FatTrieNode]) as E' by (by rewrite E). vm_compute in E'.
    injection E' as ->. vm_compute. discriminate.
Qed.





Lemma name_prefix_is_group_zero_witness : exists d,
  Load read_desc read_file (new_Dict (bytes_of "p")) = Returned true d /\
  GetGid_by_name (bytes_of "a") d = Some (GetGid 0 d) /\ GetGid 0 d <> None.
Proof.
  eexists. split; [vm_compute; reflexivity|]. split; [|by vm_compute].
  apply (name_prefix_is_group_zero two_names two_names_trie _ (bytes_of "a") (bytes_of "b") two_group_names);
    [by vm_compute | by vm_compute | left | by apply (bool_decide_unpack _); vm_compute].
Defined.

(** A group whose number is -1 makes the vector of stores empty and is then stored
    outside of it. *)
Lemma negative_gid_out_of_bounds files path :
  Load (fun _ => Some (Mapping [(bytes_of "data_type", Text (bytes_of "0")); (bytes_of "gidmapping_file", Text (bytes_of "t"));
          (bytes_of "gids", Mapping [(bytes_of "-1", Mapping [])])])) (fun _ => Some (0 :: files)) (new_Dict path) = OutOfBounds.
Proof. reflexivity. Qed.
