(* ===== verification/Convert.v ===== *)
(** * Arrays of embeddings: src/qed/converter.h, src/qed/converter.cc

    Copying, scaling and adding arrays of 32-bit and 16-bit floating point numbers,
    eight at a time and then one by one.  The numbers and their operations are
    arguments; an access outside of an array is [None]. *)
From Stdlib Require Import Lia.
From stdpp Require Import base list option.
From S2P Require Import Prelude.

(** ** Loads and stores *)

(** [_mm256_loadu_ps] and the like: eight elements from [i] on. *)
Definition loadu {A} (l : list A) (i : nat) : option (list A) :=
  if (i + 8 <=? length l)%nat then Some (take 8 (drop i l)) else None.
Definition storeu {A} (l : list A) (i : nat) (v : list A) : option (list A) :=
  if (i + 8 <=? length l)%nat then Some (take i l ++ v ++ drop (i + 8) l) else None.
Definition store {A} (l : list A) (i : nat) (a : A) : option (list A) :=
  if (i <? length l)%nat then Some (<[i := a]> l) else None.

Section Loops.
Context {A B : Type} (eight : list A -> list B -> list A) (one : A -> B -> A).

(** [for (; (i + 8) <= length; i += 8)], then [for (; i < length; i++)]. *)
Fixpoint by_eight (fuel : nat) (dst : list A) (src : list B) (len i : nat) : option (list A * nat) :=
  match fuel with
  | O => None
  | S fuel =>
      if (i + 8 <=? len)%nat then
        s ← loadu src i; d ← loadu dst i; dst ← storeu dst i (eight d s); by_eight fuel dst src len (i + 8)
      else Some (dst, i)
  end.
Fixpoint by_one (fuel : nat) (dst : list A) (src : list B) (len i : nat) : option (list A) :=
  match fuel with
  | O => None
  | S fuel =>
      if (i <? len)%nat then
        s ← src !! i; d ← dst !! i; dst ← store dst i (one d s); by_one fuel dst src len (i + 1)
      else Some dst
  end.
Definition both_loops (dst : list A) (src : list B) (len : nat) : option (list A) :=
  '(dst, i) ← by_eight (S len) dst src len 0; by_one (S len) dst src len i.

(** The elements of [dst] that are done, and those to do. *)
Definition upto (dst : list A) (src : list B) (i : nat) : list A := zip_with one (take i dst) (take i src) ++ drop i dst.

Lemma length_upto dst src i : i <= length dst -> i <= length src -> length (upto dst src i) = length dst.
Proof. intros. unfold upto. rewrite length_app, length_zip_with, !length_take, length_drop. lia. Qed.

Lemma drop_upto dst src i : i <= length dst -> i <= length src -> drop i (upto dst src i) = drop i dst.
Proof. intros. unfold upto. apply drop_app_length'. rewrite length_zip_with, !length_take. lia. Qed.

Lemma by_one_upto dst src len : len <= length dst -> len <= length src -> forall fuel i, i <= len -> len - i < fuel ->
  by_one fuel (upto dst src i) src len i = Some (upto dst src len).
Proof.
  intros Hd Hs. induction fuel as [|fuel IH]; intros i Hi Hf; [lia|]. cbn [by_one].
  destruct (Nat.ltb_spec i len) as [Hlt|Hge]; [|by replace i with len by lia].
  destruct (lookup_lt_is_Some_2 src i) as [s Es]; [lia|]. destruct (lookup_lt_is_Some_2 dst i) as [d Ed]; [lia|].
  rewrite Es. cbn [mbind option_bind].
  assert (upto dst src i !! i = Some d) as ->.
  { pose proof (lookup_drop (upto dst src i) i 0) as E. rewrite drop_upto, lookup_drop, Nat.add_0_r in E by lia. congruence. }
  cbn [mbind option_bind]. unfold store. rewrite length_upto by lia. destruct (Nat.ltb_spec i (length dst)); [|lia].
  cbn [mbind option_bind]. rewrite <- (IH (i + 1)) by lia. f_equal. unfold upto.
  rewrite Nat.add_1_r, (take_S_r dst i d Ed), (take_S_r src i s Es), zip_with_app by (rewrite !length_take; lia).
  rewrite insert_app_r_alt by (rewrite length_zip_with, !length_take; lia). rewrite <- app_assoc. f_equal.
  rewrite length_zip_with, !length_take, Nat.min_l, Nat.min_l, Nat.sub_diag by lia. by rewrite (drop_S dst d i Ed).
Qed.

Lemma by_eight_upto dst src len : (forall d s, length d = 8 -> length s = 8 -> eight d s = zip_with one d s) ->
  len <= length dst -> len <= length src -> forall fuel i, i <= len -> len - i < fuel ->
  exists j, j <= len /\ by_eight fuel (upto dst src i) src len i = Some (upto dst src j, j).
Proof.
  intros Height Hd Hs. induction fuel as [|fuel IH]; intros i Hi Hf; [lia|]. cbn [by_eight].
  destruct (Nat.leb_spec (i + 8) len) as [Hle|Hgt]; [|by exists i].
  unfold loadu, storeu. rewrite length_upto by lia.
  destruct (Nat.leb_spec (i + 8) (length src)); [|lia]. destruct (Nat.leb_spec (i + 8) (length dst)); [|lia].
  cbn [mbind option_bind]. rewrite drop_upto by lia. destruct (IH (i + 8)) as (j & Hj & E); [lia..|]. exists j. split; [done|].
  rewrite <- E. f_equal. unfold upto. rewrite Height by (rewrite length_take, length_drop; lia).
  rewrite take_app_length' by (rewrite length_zip_with, !length_take; lia). rewrite app_assoc.
  rewrite drop_app_ge by (rewrite length_zip_with, !length_take; lia).
  rewrite <- zip_with_app, !take_take_drop by (rewrite !length_take; lia). f_equal.
  rewrite length_zip_with, !length_take, drop_drop. f_equal. lia.
Qed.

(** Both loops together apply [one] to each element. *)
Lemma both_loops_elementwise dst src len : (forall d s, length d = 8 -> length s = 8 -> eight d s = zip_with one d s) ->
  len <= length dst -> len <= length src ->
  both_loops dst src len = Some (zip_with one (take len dst) (take len src) ++ drop len dst).
Proof.
  intros Height Hd Hs. unfold both_loops.
  destruct (by_eight_upto dst src len Height Hd Hs (S len) 0) as (j & Hj & E); [lia..|].
  change (upto dst src 0) with dst in E. rewrite E. cbn [mbind option_bind]. apply by_one_upto; lia.
Qed.
End Loops.

(** ** [ConvertHelper] *)

Section Convert.
Context {F32 F16 : Type} (fadd fmul : F32 -> F32 -> F32) (cvtsh_ss : F16 -> F32) (cvtss_sh : F32 -> F16).

Definition broadcast (a : F32) : list F32 := replicate 8 a.
Definition add_ps (a b : list F32) : list F32 := zip_with fadd a b.
Definition mul_ps (a b : list F32) : list F32 := zip_with fmul a b.

(** [ConvertHelper<fp32_t, fp32_t>]. *)
Definition Assign_32_32 (dst src : list F32) (len : nat) : option (list F32) :=
  if ((len <=? length dst) && (len <=? length src))%nat then Some (take len src ++ drop len dst) else None.
Definition AddMA_32_32 (dst src : list F32) (a : F32) (len : nat) : option (list F32) :=
  both_loops (fun d s => add_ps d (mul_ps (broadcast a) s)) (fun d s => fadd d (fmul s a)) dst src len.
Definition Add_32_32 (dst src : list F32) (len : nat) : option (list F32) := both_loops add_ps fadd dst src len.

(** [ConvertHelper<fp16_t, fp32_t>]. *)
Definition Assign_16_32 (dst : list F16) (src : list F32) (len : nat) : option (list F16) :=
  both_loops (fun _ s => cvtss_sh <$> s) (fun _ s => cvtss_sh s) dst src len.

(** [ConvertHelper<fp32_t, fp16_t>]. *)
Definition Assign_32_16 (dst : list F32) (src : list F16) (len : nat) : option (list F32) :=
  both_loops (fun _ s => cvtsh_ss <$> s) (fun _ s => cvtsh_ss s) dst src len.
Definition AddMA_32_16 (dst : list F32) (src : list F16) (a : F32) (len : nat) : option (list F32) :=
  both_loops (fun d s => add_ps d (mul_ps (broadcast a) (cvtsh_ss <$> s))) (fun d s => fadd d (fmul (cvtsh_ss s) a)) dst src len.
Definition Add_32_16 (dst : list F32) (src : list F16) (len : nat) : option (list F32) :=
  both_loops (fun d s => add_ps d (cvtsh_ss <$> s)) (fun d s => fadd d (cvtsh_ss s)) dst src len.

(** The product does not depend on the order of its factors. *)
Context (fmul_comm : forall a b, fmul a b = fmul b a).

Lemma zip_with_const {A B C} (f : B -> C) (d : list A) (s : list B) : length d = length s ->
  zip_with (fun _ b => f b) d s = f <$> s.
Proof. revert s. induction d as [|a d IH]; intros [|b s] H; try done. cbn. by rewrite IH by (by injection H). Qed.

Lemma mul_broadcast a s : length s = 8 -> mul_ps (broadcast a) s = (fun x => fmul x a) <$> s.
Proof using fmul_comm.
  intros H. unfold mul_ps, broadcast. rewrite <- H. clear H. induction s as [|x s IH]; [done|]. cbn. by rewrite IH, fmul_comm.
Qed.

Lemma add_fmap {A} (f : A -> F32) d s : add_ps d (f <$> s) = zip_with (fun x y => fadd x (f y)) d s.
Proof. unfold add_ps. apply zip_with_fmap_r. Qed.

(** The vector loops do what the plain loop does.  For arrays that hold at least
    [len] elements, each of the functions changes exactly the first [len] elements of
    the destination, each by the operation on one element. *)
Lemma conversions_elementwise dst src dst' src' a len :
  len <= length dst -> len <= length src -> len <= length dst' -> len <= length src' ->
  Assign_32_32 dst src len = Some (take len src ++ drop len dst) /\
  AddMA_32_32 dst src a len = Some (zip_with (fun d s => fadd d (fmul s a)) (take len dst) (take len src) ++ drop len dst) /\
  Add_32_32 dst src len = Some (zip_with fadd (take len dst) (take len src) ++ drop len dst) /\
  Assign_16_32 dst' src len = Some ((cvtss_sh <$> take len src) ++ drop len dst') /\
  Assign_32_16 dst src' len = Some ((cvtsh_ss <$> take len src') ++ drop len dst) /\
  AddMA_32_16 dst src' a len =
    Some (zip_with (fun d s => fadd d (fmul (cvtsh_ss s) a)) (take len dst) (take len src') ++ drop len dst) /\
  Add_32_16 dst src' len = Some (zip_with (fun d s => fadd d (cvtsh_ss s)) (take len dst) (take len src') ++ drop len dst).
Proof using fmul_comm.
  intros H1 H2 H3 H4. unfold AddMA_32_32, Add_32_32, Assign_16_32, Assign_32_16, AddMA_32_16, Add_32_16, Assign_32_32.
  rewrite (proj2 (Nat.leb_le _ _) H1), (proj2 (Nat.leb_le _ _) H2).
  rewrite !both_loops_elementwise; try done; try (by intros; rewrite ?zip_with_const by congruence).
  - rewrite !zip_with_const by (rewrite !length_take; lia). by split_and!.
  - intros d s _ Hs. by rewrite add_fmap.
  - intros d s _ Hs. rewrite mul_broadcast by (by rewrite length_fmap). by rewrite <- list_fmap_compose, add_fmap.
  - intros d s _ Hs. by rewrite mul_broadcast, add_fmap.
Qed.
End Convert.

Lemma conversions_elementwise_witness :
  Add_32_32 Nat.add (seq 0 11) (seq 100 11) 10 =
    Some (zip_with Nat.add (take 10 (seq 0 11)) (take 10 (seq 100 11)) ++ [10]) /\ length (seq 0 11) = 11.
Proof.
  split; [|reflexivity].
  apply (conversions_elementwise (F32 := nat) (F16 := nat) Nat.add Nat.mul id id Nat.mul_comm
    (seq 0 11) (seq 100 11) (seq 0 11) (seq 0 11) 3 10); cbn; lia.
Defined.
