(* ===== verification/Zk.v ===== *)
(** * The ZooKeeper wrapper: src/leader/zkwrapper.h, src/leader/zkwrapper.cc

    A handle of the ZooKeeper C client with C++ closures as callbacks.  The client is
    given a pointer to a context, an object of the wrapper's [context_pool_] that holds
    the closure; the client's thread later calls a completion or a watcher function with
    the pointer, which calls the closure and takes the context out of the pool.

    The client is a library: it is the class [ZooClient], and what its header documents
    is [ZooPromises].  Operations of the wrapper hold [zhandle_lock_], so each is one
    step; [Connect] and [Shutdown] close handles outside of the lock, so they are several
    steps of [machine], which interleaves them with the client's calls. *)
From Stdlib Require Import ZArith Lia.
From stdpp Require Import base list option gmap.
From S2P Require Import Prelude Strings.

Local Open Scope Z_scope.

(** ** Codes, states and events *)

(** [enum ZOO_ERRORS] of the client's header, the codes that the wrapper names. *)
Definition ZOK : Z := 0.
Definition ZSYSTEMERROR : Z := -1.
Definition ZCONNECTIONLOSS : Z := -4.
Definition ZOPERATIONTIMEOUT : Z := -7.
Definition ZBADARGUMENTS : Z := -8.
Definition ZINVALIDSTATE : Z := -9.
Definition ZNONODE : Z := -101.
Definition ZBADVERSION : Z := -103.
Definition ZNODEEXISTS : Z := -110.
Definition ZSESSIONEXPIRED : Z := -112.

(** [ZKCode]: an enumeration that also holds any other code of the client, by a cast. *)
Definition ZKCode : Type := Z.
Definition ZK_OK : ZKCode := 0.
Definition ZK_NONODE : ZKCode := 1.
Definition ZK_BADVERSION : ZKCode := 2.
Definition ZK_NODEEXISTS : ZKCode := 3.
Definition ZK_CONNECTIONLOSS : ZKCode := 4.
Definition ZK_OPERATIONTIMEOUT : ZKCode := 5.
Definition ZK_SYSTEMERROR : ZKCode := 6.
Definition ZK_BADARGUMENTS : ZKCode := 7.
Definition ZK_INVALIDSTATE : ZKCode := 8.
Definition ZK_SESSIONEXPIRED : ZKCode := 9.
Definition ZK_UNDEFINED : ZKCode := 255.

(** [ZKState] and [ZKEvent]. *)
Inductive ZKState : Type := ZKSTATE_CONNECTING | ZKSTATE_CONNECTED | ZKSTATE_ASSOCIATING
  | ZKSTATE_EXPIRED_SESSION | ZKSTATE_AUTH_FAILED | ZKSTATE_UNDEFINED.
Inductive ZKEvent : Type := ZKEVENT_CREATED | ZKEVENT_DELETED | ZKEVENT_CHANGED | ZKEVENT_CHILD
  | ZKEVENT_SESSION | ZKEVENT_NOTWATCHING | ZKEVENT_UNDEFINED.

#[global] Instance ZKState_eq_dec : EqDecision ZKState.
Proof. solve_decision. Defined.
#[global] Instance ZKEvent_eq_dec : EqDecision ZKEvent.
Proof. solve_decision. Defined.

(** [ZKStatus]. *)
Record ZKStatus : Type := mkStatus {
  czxid : Z; mzxid : Z; ctime : Z; mtime : Z; version : Z; cversion : Z; aversion : Z;
  ephemeralOwner : Z; dataLength : Z; numChildren : Z; pzxid : Z
}.
Definition new_ZKStatus : ZKStatus := mkStatus 0 0 0 0 0 0 0 0 0 0 0.

(** The constants that the client's header only declares. *)
Class ZooConsts : Type := {
  ZOO_EPHEMERAL : Z; ZOO_SEQUENCE : Z;
  ZOO_CREATED_EVENT : Z; ZOO_DELETED_EVENT : Z; ZOO_CHANGED_EVENT : Z; ZOO_CHILD_EVENT : Z;
  ZOO_SESSION_EVENT : Z; ZOO_NOTWATCHING_EVENT : Z;
  ZOO_CONNECTING_STATE : Z; ZOO_CONNECTED_STATE : Z; ZOO_ASSOCIATING_STATE : Z;
  ZOO_EXPIRED_SESSION_STATE : Z; ZOO_AUTH_FAILED_STATE : Z;
  zoo_events_distinct : NoDup [ZOO_CREATED_EVENT; ZOO_DELETED_EVENT; ZOO_CHANGED_EVENT; ZOO_CHILD_EVENT;
    ZOO_SESSION_EVENT; ZOO_NOTWATCHING_EVENT];
  zoo_states_distinct : NoDup [ZOO_CONNECTING_STATE; ZOO_CONNECTED_STATE; ZOO_ASSOCIATING_STATE;
    ZOO_EXPIRED_SESSION_STATE; ZOO_AUTH_FAILED_STATE];
  zoo_live_states : 0 < ZOO_CONNECTING_STATE /\ 0 < ZOO_CONNECTED_STATE /\ 0 < ZOO_ASSOCIATING_STATE;
  zoo_dead_states : ZOO_EXPIRED_SESSION_STATE < 0 /\ ZOO_AUTH_FAILED_STATE < 0
}.

(** [ZKWrapper_zooEventToZKEvent], [ZKWrapper_zooStateToZKState]. *)
Definition ZKWrapper_zooEventToZKEvent `{ZooConsts} (event : Z) : ZKEvent :=
  if event =? ZOO_CREATED_EVENT then ZKEVENT_CREATED
  else if event =? ZOO_DELETED_EVENT then ZKEVENT_DELETED
  else if event =? ZOO_CHANGED_EVENT then ZKEVENT_CHANGED
  else if event =? ZOO_CHILD_EVENT then ZKEVENT_CHILD
  else if event =? ZOO_SESSION_EVENT then ZKEVENT_SESSION
  else if event =? ZOO_NOTWATCHING_EVENT then ZKEVENT_NOTWATCHING
  else ZKEVENT_UNDEFINED.
Definition ZKWrapper_zooStateToZKState `{ZooConsts} (state : Z) : ZKState :=
  if state =? ZOO_CONNECTING_STATE then ZKSTATE_CONNECTING
  else if state =? ZOO_CONNECTED_STATE then ZKSTATE_CONNECTED
  else if state =? ZOO_ASSOCIATING_STATE then ZKSTATE_ASSOCIATING
  else if state =? ZOO_EXPIRED_SESSION_STATE then ZKSTATE_EXPIRED_SESSION
  else if state =? ZOO_AUTH_FAILED_STATE then ZKSTATE_AUTH_FAILED
  else ZKSTATE_UNDEFINED.

(** [ZKWrapper_zooCodeToZKCode] and its inverse on the named codes. *)
Definition ZKWrapper_zooCodeToZKCode (code : Z) : ZKCode :=
  if code =? ZOK then ZK_OK
  else if code =? ZNONODE then ZK_NONODE
  else if code =? ZNODEEXISTS then ZK_NODEEXISTS
  else if code =? ZBADVERSION then ZK_BADVERSION
  else if code =? ZCONNECTIONLOSS then ZK_CONNECTIONLOSS
  else if code =? ZOPERATIONTIMEOUT then ZK_OPERATIONTIMEOUT
  else if code =? ZBADARGUMENTS then ZK_BADARGUMENTS
  else if code =? ZINVALIDSTATE then ZK_INVALIDSTATE
  else if code =? ZSESSIONEXPIRED then ZK_SESSIONEXPIRED
  else if code =? ZSYSTEMERROR then ZK_SYSTEMERROR
  else code.
Definition ZKWrapper_ZKCodeTozooCode (code : ZKCode) : Z :=
  if code =? ZK_OK then ZOK
  else if code =? ZK_NONODE then ZNONODE
  else if code =? ZK_NODEEXISTS then ZNODEEXISTS
  else if code =? ZK_BADVERSION then ZBADVERSION
  else if code =? ZK_CONNECTIONLOSS then ZCONNECTIONLOSS
  else if code =? ZK_OPERATIONTIMEOUT then ZOPERATIONTIMEOUT
  else if code =? ZK_BADARGUMENTS then ZBADARGUMENTS
  else if code =? ZK_INVALIDSTATE then ZINVALIDSTATE
  else if code =? ZK_SESSIONEXPIRED then ZSESSIONEXPIRED
  else if code =? ZK_SYSTEMERROR then ZSYSTEMERROR
  else -255.

(** [ZKWrapper::JoinPath]: a piece of memory of the computed length is filled by two
    copies and the separator. *)
Definition copy_at (buf : bytes) (at_ : nat) (src : bytes) : bytes :=
  take at_ buf ++ src ++ drop (at_ + length src) buf.
Definition JoinPath (path1 path2 : bytes) : bytes :=
  if (length path1 =? 0)%nat || (length path2 =? 0)%nat then path1 ++ path2
  else
    let firstTail := bool_decide (path1 !! (length path1 - 1)%nat = Some 47) in
    let secondHead := bool_decide (path2 !! 0%nat = Some 47) in
    let one (b : bool) := (if b then 1 else 0)%nat in
    let size := (length path1 - one firstTail + length path2 - one secondHead + 1)%nat in
    let result := repeat 0 size in
    let size := (length path1 - one firstTail)%nat in
    let result := copy_at result 0 (take size path1) in
    let result := copy_at result size [47] in
    copy_at result (size + 1) (drop (one secondHead) path2).

(** ** The client *)

(** A handle, and the address of a context. *)
Definition zhandle : Type := nat.
Definition addr : Type := nat.

(** The calls of the client's interface that the wrapper makes; a context is passed as
    the pointer of a watcher ([w]) or of a completion ([a]). *)
Inductive request : Type :=
| zoo_create (path value : bytes) (flags : Z)
| zoo_acreate (path value : bytes) (flags : Z) (data : addr)
| zoo_delete (path : bytes) (ver : Z)
| zoo_adelete (path : bytes) (ver : Z) (data : addr)
| zoo_set2 (path buffer : bytes) (ver : Z)
| zoo_aset (path buffer : bytes) (ver : Z) (data : addr)
| zoo_get (path : bytes) (watch : bool) (buffer_len : Z)
| zoo_wget (path : bytes) (watcherCtx : addr) (buffer_len : Z)
| zoo_aget (path : bytes) (watch : bool) (data : addr)
| zoo_awget (path : bytes) (watcherCtx data : addr)
| zoo_exists (path : bytes) (watch : bool)
| zoo_wexists (path : bytes) (watcherCtx : addr)
| zoo_aexists (path : bytes) (watch : bool) (data : addr)
| zoo_awexists (path : bytes) (watcherCtx data : addr)
| zoo_get_children (path : bytes) (watch : bool)
| zoo_get_children2 (path : bytes) (watch : bool)
| zoo_wget_children (path : bytes) (watcherCtx : addr)
| zoo_wget_children2 (path : bytes) (watcherCtx : addr)
| zoo_awget_children2 (path : bytes) (watcherCtx data : addr).

(** What a call leaves: its code and the output parameters. *)
Record response : Type := mkResponse {
  rc : Z; out_path : bytes; out_data : bytes; out_stat : ZKStatus; out_children : list bytes
}.

(** A call of the client's thread into the wrapper. *)
Inductive delivery : Type :=
| DString (data : addr) (code : Z) (value : bytes)
| DVoid (data : addr) (code : Z)
| DStat (data : addr) (code : Z) (stat : ZKStatus)
| DData (data : addr) (code : Z) (value : bytes) (stat : ZKStatus)
| DChildren (data : addr) (code : Z) (strings : option (list bytes)) (stat : ZKStatus)
| DWatch (watcherCtx : addr) (type state : Z) (path : bytes)
| DGlobal (type state : Z) (path : bytes).

(** The client with the servers behind it: [elapse] is what others do in the meantime;
    [zookeeper_close] is [None] while it blocks.  [zoo_deliver] and [zoo_return] are the
    begin and the end of a call of the client's thread, [None] where it makes none. *)
Class ZooClient : Type := {
  zoo : Type;
  elapse : zoo -> zoo;
  zookeeper_init : zoo -> bytes -> Z -> zoo * (zhandle + Z);
  zookeeper_close : zoo -> zhandle -> option (zoo * Z);
  zoo_perform : zoo -> zhandle -> request -> zoo * response;
  zoo_state : zoo -> zhandle -> Z;
  zoo_client_id : zoo -> zhandle -> Z;
  zoo_deliver : zoo -> zhandle -> delivery -> option zoo;
  zoo_return : zoo -> zhandle -> addr -> option zoo
}.

Definition EINVAL : Z := 22.
Definition ENOENT : Z := 2.
Definition ENOMEM : Z := 12.

(** ** The wrapper *)

Section wrapper.
Context {L : Type} `{ZooConsts} `{ZooClient}.

(** [ZKWrapperContext]: an object with its address, [id_] and closure. *)
Record context : Type := mkContext { ctx_addr : addr; id_ : Z; callback_ : option L }.

(** The thread that closes a replaced handle, and the keys that it erases after. *)
Inductive stage : Type := Closing | Closed | Finished.
Record job : Type := mkJob { job_handle : zhandle; oldContexts : list Z; job_stage : stage }.

(** [class ZKWrapper]; [next_addr] is the allocator. *)
Record ZKWrapper : Type := mkZK {
  zhandle_ : option zhandle;
  zrecv_timeout_ : Z;
  zremote_ : bytes;
  watcher_ : option L;
  context_pool_ : gmap Z context;
  context_id_count_ : Z;
  finalize_thread_ : option job;
  session_update_callbacks_ : list L;
  next_addr : addr
}.

Definition set_handle (h : option zhandle) (w : ZKWrapper) : ZKWrapper :=
  mkZK h (zrecv_timeout_ w) (zremote_ w) (watcher_ w) (context_pool_ w) (context_id_count_ w) (finalize_thread_ w)
    (session_update_callbacks_ w) (next_addr w).
Definition set_pool (p : gmap Z context) (w : ZKWrapper) : ZKWrapper :=
  mkZK (zhandle_ w) (zrecv_timeout_ w) (zremote_ w) (watcher_ w) p (context_id_count_ w) (finalize_thread_ w)
    (session_update_callbacks_ w) (next_addr w).
Definition set_thread (j : option job) (w : ZKWrapper) : ZKWrapper :=
  mkZK (zhandle_ w) (zrecv_timeout_ w) (zremote_ w) (watcher_ w) (context_pool_ w) (context_id_count_ w) j
    (session_update_callbacks_ w) (next_addr w).
Definition set_callbacks (l : list L) (w : ZKWrapper) : ZKWrapper :=
  mkZK (zhandle_ w) (zrecv_timeout_ w) (zremote_ w) (watcher_ w) (context_pool_ w) (context_id_count_ w)
    (finalize_thread_ w) l (next_addr w).

(** A call of a closure, as it is logged. *)
Inductive invocation : Type :=
| StringComplete (f : L) (code : ZKCode) (pathOfCreatedNode : bytes)
| VoidComplete (f : L) (code : ZKCode)
| StatComplete (f : L) (code : ZKCode) (stat : ZKStatus)
| DataComplete (f : L) (code : ZKCode) (data : bytes) (stat : ZKStatus)
| StringArrayStatComplete (f : L) (code : ZKCode) (strings : list bytes) (stat : ZKStatus)
| Watched (f : L) (event : ZKEvent) (state : ZKState) (path : bytes)
| SessionUpdated (f : L).

(** The wrapper, the client and the closures that were called, each with the address of
    the context that held it. *)
Record world : Type := mkWorld {
  wrapper : ZKWrapper; client : zoo; log : list (option addr * invocation)
}.

(** Operations change the world and give a result. *)
Definition act (A : Type) : Type := world -> A * world.
#[global] Instance act_ret : MRet act := fun _ a s => (a, s).
#[global] Instance act_bind : MBind act := fun _ _ k m s => let '(a, s) := m s in k a s.

Definition modify (f : ZKWrapper -> ZKWrapper) : act unit :=
  fun s => (tt, mkWorld (f (wrapper s)) (client s) (log s)).
Definition gets {A} (f : world -> A) : act A := fun s => (f s, s).
Definition say (l : list (option addr * invocation)) : act unit :=
  fun s => (tt, mkWorld (wrapper s) (client s) (log s ++ l)).

(** A call of the client, others acting before it. *)
Definition zoo_call (h : zhandle) (q : request) : act response :=
  fun s => let '(z, r) := zoo_perform (elapse (client s)) h q in (r, mkWorld (wrapper s) z (log s)).

(** [AddContext]: the first free identifier after the last one, counting modulo 2^64. *)
Fixpoint free_id (fuel : nat) (pool : gmap Z context) (count : Z) : Z :=
  let id := (count + 1) mod 2 ^ 64 in
  match fuel with
  | O => id
  | S fuel => match pool !! id with Some _ => free_id fuel pool id | None => id end
  end.
Definition AddContext (callback : option L) (w : ZKWrapper) : context * ZKWrapper :=
  let id := free_id (size (context_pool_ w)) (context_pool_ w) (context_id_count_ w) in
  let c := mkContext (next_addr w) id callback in
  (c, mkZK (zhandle_ w) (zrecv_timeout_ w) (zremote_ w) (watcher_ w) (<[id := c]> (context_pool_ w)) id
        (finalize_thread_ w) (session_update_callbacks_ w) (S (next_addr w))).

(** [ZKWrapperContext_Create]. *)
Definition ZKWrapperContext_Create (callback : option L) : act context :=
  fun s => let '(c, w) := AddContext callback (wrapper s) in (c, mkWorld w (client s) (log s)).

(** [RemoveContextById], [RemoveContext], [ZKWrapperContext::Remove]. *)
Definition RemoveContextById (id : Z) (w : ZKWrapper) : ZKWrapper := set_pool (delete id (context_pool_ w)) w.
Definition RemoveContext (c : context) : act unit := modify (RemoveContextById (id_ c)).

(** The guard of every operation. *)
Definition with_handle (k : zhandle -> act ZKCode) : act ZKCode :=
  h ← gets (fun s => zhandle_ (wrapper s));
  match h with None => mret ZK_INVALIDSTATE | Some h => k h end.
Definition with_handle_out {A} (none : A) (k : zhandle -> act (ZKCode * A)) : act (ZKCode * A) :=
  h ← gets (fun s => zhandle_ (wrapper s));
  match h with None => mret (ZK_INVALIDSTATE, none) | Some h => k h end.
Definition when (b : bool) (m : act unit) : act unit := if b then m else mret tt.

(** *** Operations *)

Definition create_flags (ephemeral sequence : bool) : Z :=
  Z.lor (if ephemeral then ZOO_EPHEMERAL else 0) (if sequence then ZOO_SEQUENCE else 0).

(** [Create], synchronous: the code, and the path of the created node where there is one. *)
Definition Create (path value : bytes) (ephemeral sequence : bool) : act (ZKCode * option bytes) :=
  with_handle_out None (fun h =>
    r ← zoo_call h (zoo_create path value (create_flags ephemeral sequence));
    mret (ZKWrapper_zooCodeToZKCode (rc r), if rc r =? ZOK then Some (out_path r) else None)).

(** [Create], asynchronous. *)
Definition CreateAsync (path value : bytes) (complete : option L) (ephemeral sequence : bool) : act ZKCode :=
  with_handle (fun h =>
    c ← ZKWrapperContext_Create complete;
    r ← zoo_call h (zoo_acreate path value (create_flags ephemeral sequence) (ctx_addr c));
    when (negb (rc r =? ZOK)) (RemoveContext c);;
    mret (ZKWrapper_zooCodeToZKCode (rc r))).

(** [Delete]. *)
Definition Delete (path : bytes) (version : Z) : act ZKCode :=
  with_handle (fun h => r ← zoo_call h (zoo_delete path version); mret (ZKWrapper_zooCodeToZKCode (rc r))).
Definition DeleteAsync (path : bytes) (complete : option L) (version : Z) : act ZKCode :=
  with_handle (fun h =>
    c ← ZKWrapperContext_Create complete;
    r ← zoo_call h (zoo_adelete path version (ctx_addr c));
    when (negb (rc r =? ZOK)) (RemoveContext c);;
    mret (ZKWrapper_zooCodeToZKCode (rc r))).

(** [Set]. *)
Definition SetData (path buffer : bytes) (version : Z) : act (ZKCode * ZKStatus) :=
  with_handle_out new_ZKStatus (fun h =>
    r ← zoo_call h (zoo_set2 path buffer version); mret (ZKWrapper_zooCodeToZKCode (rc r), out_stat r)).
Definition SetAsync (path buffer : bytes) (complete : option L) (version : Z) : act ZKCode :=
  with_handle (fun h =>
    c ← ZKWrapperContext_Create complete;
    r ← zoo_call h (zoo_aset path buffer version (ctx_addr c));
    when (negb (rc r =? ZOK)) (RemoveContext c);;
    mret (ZKWrapper_zooCodeToZKCode (rc r))).

(** The four forms of [Get]: plain, with a watcher, asynchronous, asynchronous with a watcher. *)
Definition Get (path : bytes) (bufferLen : Z) (watch : bool) : act (ZKCode * (bytes * ZKStatus)) :=
  with_handle_out ([], new_ZKStatus) (fun h =>
    r ← zoo_call h (zoo_get path watch bufferLen);
    mret (ZKWrapper_zooCodeToZKCode (rc r), (out_data r, out_stat r))).
Definition GetWatch (path : bytes) (bufferLen : Z) (watcher : option L) : act (ZKCode * (bytes * ZKStatus)) :=
  with_handle_out ([], new_ZKStatus) (fun h =>
    c ← ZKWrapperContext_Create watcher;
    r ← zoo_call h (zoo_wget path (ctx_addr c) bufferLen);
    when (negb (rc r =? ZOK)) (RemoveContext c);;
    mret (ZKWrapper_zooCodeToZKCode (rc r), (out_data r, out_stat r))).
Definition GetAsync (path : bytes) (complete : option L) (watch : bool) : act ZKCode :=
  with_handle (fun h =>
    c ← ZKWrapperContext_Create complete;
    r ← zoo_call h (zoo_aget path watch (ctx_addr c));
    when (negb (rc r =? ZOK)) (RemoveContext c);;
    mret (ZKWrapper_zooCodeToZKCode (rc r))).
Definition GetAsyncWatch (path : bytes) (complete watcher : option L) : act ZKCode :=
  with_handle (fun h =>
    completeContext ← ZKWrapperContext_Create complete;
    watcherContext ← ZKWrapperContext_Create watcher;
    r ← zoo_call h (zoo_awget path (ctx_addr watcherContext) (ctx_addr completeContext));
    when (negb (rc r =? ZOK)) (RemoveContext completeContext;; RemoveContext watcherContext);;
    mret (ZKWrapper_zooCodeToZKCode (rc r))).

(** The four forms of [Exists]; a watcher stays when the node does not exist. *)
Definition Exists (path : bytes) (watch : bool) : act (ZKCode * ZKStatus) :=
  with_handle_out new_ZKStatus (fun h =>
    r ← zoo_call h (zoo_exists path watch); mret (ZKWrapper_zooCodeToZKCode (rc r), out_stat r)).
Definition ExistsWatch (path : bytes) (watcher : option L) : act (ZKCode * ZKStatus) :=
  with_handle_out new_ZKStatus (fun h =>
    c ← ZKWrapperContext_Create watcher;
    r ← zoo_call h (zoo_wexists path (ctx_addr c));
    when (negb (rc r =? ZOK) && negb (rc r =? ZNONODE)) (RemoveContext c);;
    mret (ZKWrapper_zooCodeToZKCode (rc r), out_stat r)).
Definition ExistsAsync (path : bytes) (complete : option L) (watch : bool) : act ZKCode :=
  with_handle (fun h =>
    c ← ZKWrapperContext_Create complete;
    r ← zoo_call h (zoo_aexists path watch (ctx_addr c));
    when (negb (rc r =? ZOK)) (RemoveContext c);;
    mret (ZKWrapper_zooCodeToZKCode (rc r))).
Definition ExistsAsyncWatch (path : bytes) (complete watcher : option L) : act ZKCode :=
  with_handle (fun h =>
    watcherContext ← ZKWrapperContext_Create watcher;
    completeContext ← ZKWrapperContext_Create complete;
    r ← zoo_call h (zoo_awexists path (ctx_addr watcherContext) (ctx_addr completeContext));
    when (negb (rc r =? ZOK)) (RemoveContext watcherContext;; RemoveContext completeContext);;
    mret (ZKWrapper_zooCodeToZKCode (rc r))).

(** The three forms of [GetChildren]. *)
Definition GetChildren (path : bytes) (status watch : bool) : act (ZKCode * (list bytes * ZKStatus)) :=
  with_handle_out ([], new_ZKStatus) (fun h =>
    r ← zoo_call h (if status then zoo_get_children2 path watch else zoo_get_children path watch);
    mret (ZKWrapper_zooCodeToZKCode (rc r), (out_children r, out_stat r))).
Definition GetChildrenWatch (path : bytes) (status : bool) (watcher : option L) : act (ZKCode * (list bytes * ZKStatus)) :=
  with_handle_out ([], new_ZKStatus) (fun h =>
    c ← ZKWrapperContext_Create watcher;
    r ← zoo_call h (if status then zoo_wget_children2 path (ctx_addr c) else zoo_wget_children path (ctx_addr c));
    when (negb (rc r =? ZOK)) (RemoveContext c);;
    mret (ZKWrapper_zooCodeToZKCode (rc r), (out_children r, out_stat r))).
Definition GetChildrenAsync (path : bytes) (complete watcher : option L) : act ZKCode :=
  with_handle (fun h =>
    watcherContext ← ZKWrapperContext_Create watcher;
    completeContext ← ZKWrapperContext_Create complete;
    r ← zoo_call h (zoo_awget_children2 path (ctx_addr watcherContext) (ctx_addr completeContext));
    when (negb (rc r =? ZOK)) (RemoveContext watcherContext;; RemoveContext completeContext);;
    mret (ZKWrapper_zooCodeToZKCode (rc r))).

(** [SetWatcher], [AddSessionUpdateCallback], [GetID], [GetState]. *)
Definition SetWatcher (watcher : option L) : act unit :=
  modify (fun w => mkZK (zhandle_ w) (zrecv_timeout_ w) (zremote_ w) watcher (context_pool_ w) (context_id_count_ w)
    (finalize_thread_ w) (session_update_callbacks_ w) (next_addr w)).
Definition AddSessionUpdateCallback (callback : L) : act unit :=
  modify (fun w => set_callbacks (session_update_callbacks_ w ++ [callback]) w).
Definition GetID : act Z :=
  gets (fun s => match zhandle_ (wrapper s) with Some h => zoo_client_id (client s) h | None => 0 end).
Definition GetState : act ZKState :=
  gets (fun s =>
    let state := match zhandle_ (wrapper s) with Some h => zoo_state (client s) h | None => 0 end in
    if state =? 0 then ZKSTATE_UNDEFINED else ZKWrapper_zooStateToZKState state).

(** *** Callbacks *)

(** [operator()] of a context: an empty closure is not called. *)
Definition invoke (c : context) (f : L -> invocation) : list (option addr * invocation) :=
  match callback_ c with None => [] | Some l => [(Some (ctx_addr c), f l)] end.

(** The five completion functions and the watcher, on the context that their pointer
    leads to. *)
Definition ZKWrapper_LambdaStringCompletion (code : Z) (value : bytes) (c : context) :=
  invoke c (fun f => StringComplete f (ZKWrapper_zooCodeToZKCode code) value).
Definition ZKWrapper_LambdaVoidCompletion (code : Z) (c : context) :=
  invoke c (fun f => VoidComplete f (ZKWrapper_zooCodeToZKCode code)).
Definition ZKWrapper_LambdaStatCompletion (code : Z) (stat : ZKStatus) (c : context) :=
  invoke c (fun f => StatComplete f (ZKWrapper_zooCodeToZKCode code) stat).
Definition ZKWrapper_LambdaDataCompletion (code : Z) (value : bytes) (stat : ZKStatus) (c : context) :=
  invoke c (fun f => DataComplete f (ZKWrapper_zooCodeToZKCode code) value stat).
Definition ZKWrapper_LambdaStringArrayStatCompletion (code : Z) (strings : option (list bytes)) (stat : ZKStatus) (c : context) :=
  match strings with
  | Some l => invoke c (fun f => StringArrayStatComplete f (ZKWrapper_zooCodeToZKCode code) l stat)
  | None => invoke c (fun f => StringArrayStatComplete f (ZKWrapper_zooCodeToZKCode code) [] stat)
  end.
Definition ZKWrapper_LambdaWatcher (type state : Z) (path : bytes) (c : context) :=
  invoke c (fun f => Watched f (ZKWrapper_zooEventToZKEvent type) (ZKWrapper_zooStateToZKState state) path).

(** [GlobalZooWatcher]. *)
Definition GlobalZooWatcher (type state : Z) (path : bytes) (w : ZKWrapper) : list (option addr * invocation) :=
  match watcher_ w with
  | None => []
  | Some f => [(None, Watched f (ZKWrapper_zooEventToZKEvent type) (ZKWrapper_zooStateToZKState state) path)]
  end.

(** The context a delivery dereferences, with what it then does.  The watcher function
    returns at once for a session event. *)
Inductive dispatch : Type :=
| Deref (a : addr) (run : context -> list (option addr * invocation))
| Ignored_event
| Global.
Definition dispatch_of (d : delivery) : dispatch :=
  match d with
  | DString a code v => Deref a (ZKWrapper_LambdaStringCompletion code v)
  | DVoid a code => Deref a (ZKWrapper_LambdaVoidCompletion code)
  | DStat a code st => Deref a (ZKWrapper_LambdaStatCompletion code st)
  | DData a code v st => Deref a (ZKWrapper_LambdaDataCompletion code v st)
  | DChildren a code l st => Deref a (ZKWrapper_LambdaStringArrayStatCompletion code l st)
  | DWatch a type state path =>
      if type =? ZOO_SESSION_EVENT then Ignored_event else Deref a (ZKWrapper_LambdaWatcher type state path)
  | DGlobal _ _ _ => Global
  end.

(** *** Connection *)

(** What [Connect] comes to after it has joined the finalizing thread.  Assigning to a
    thread object that was not joined ends the process. *)
Inductive connect_result : Type := Connected | StillAlive | Threw (code : ZKCode) | Terminated.

(** The exception for a failed [zookeeper_init]. *)
Definition init_error (err : Z) : ZKCode :=
  if (err =? EINVAL) || (err =? ENOENT) then ZK_BADARGUMENTS
  else if err =? ENOMEM then ZK_SYSTEMERROR
  else ZK_UNDEFINED.

(** The new handle, and the callbacks of the session update. *)
Definition connect_init : act connect_result :=
  fun s =>
    let w := wrapper s in
    match zookeeper_init (client s) (zremote_ w) (zrecv_timeout_ w) with
    | (z, inr err) => (Threw (init_error err), mkWorld w z (log s))
    | (z, inl h) =>
        (Connected, mkWorld (set_callbacks [] (set_handle (Some h) w)) z
          (log s ++ map (fun f => (None, SessionUpdated f)) (session_update_callbacks_ w)))
    end.

(** [Connect] from the write lock on. *)
Definition Connect : act connect_result :=
  fun s =>
    let w := wrapper s in
    match zhandle_ w with
    | None => connect_init s
    | Some h =>
        if 0 <? zoo_state (client s) h then (StillAlive, s)
        else match finalize_thread_ w with
             | Some _ => (Terminated, s)
             | None =>
                 let j := mkJob h (map_to_list (context_pool_ w)).*1 Closing in
                 connect_init (mkWorld (set_thread (Some j) (set_handle None w)) (client s) (log s))
             end
    end.

(** The constructor. *)
Definition new_ZKWrapper (remote : bytes) (watcher : option L) (recv_timeout : Z) : ZKWrapper :=
  mkZK None recv_timeout remote watcher ∅ 0 None [] 0%nat.

(** ** Interleavings *)

(** A [Shutdown] after its critical section: the handle it closes, whether the close has
    returned, and the pool it holds till it returns. *)
Record shutdown : Type := mkShutdown { shut_handle : zhandle; shut_closed : bool; old_pool : gmap Z context }.

(** [joined]: the threads in [Connect] between the join and the lock. *)
Record machine : Type := mkMachine { run_world : world; shutdowns : list shutdown; joined : nat }.

Inductive api : Type :=
| ACreate (path value : bytes) (ephemeral sequence : bool)
| ACreateAsync (path value : bytes) (complete : option L) (ephemeral sequence : bool)
| ADelete (path : bytes) (version : Z)
| ADeleteAsync (path : bytes) (complete : option L) (version : Z)
| ASet (path buffer : bytes) (version : Z)
| ASetAsync (path buffer : bytes) (complete : option L) (version : Z)
| AGet (path : bytes) (bufferLen : Z) (watch : bool)
| AGetWatch (path : bytes) (bufferLen : Z) (watcher : option L)
| AGetAsync (path : bytes) (complete : option L) (watch : bool)
| AGetAsyncWatch (path : bytes) (complete watcher : option L)
| AExists (path : bytes) (watch : bool)
| AExistsWatch (path : bytes) (watcher : option L)
| AExistsAsync (path : bytes) (complete : option L) (watch : bool)
| AExistsAsyncWatch (path : bytes) (complete watcher : option L)
| AGetChildren (path : bytes) (status watch : bool)
| AGetChildrenWatch (path : bytes) (status : bool) (watcher : option L)
| AGetChildrenAsync (path : bytes) (complete watcher : option L)
| ASetWatcher (watcher : option L)
| AAddSessionUpdateCallback (callback : L).

Definition run_api (q : api) : act ZKCode :=
  match q with
  | ACreate p v e s => r ← Create p v e s; mret r.1
  | ACreateAsync p v c e s => CreateAsync p v c e s
  | ADelete p v => Delete p v
  | ADeleteAsync p c v => DeleteAsync p c v
  | ASet p b v => r ← SetData p b v; mret r.1
  | ASetAsync p b c v => SetAsync p b c v
  | AGet p l w => r ← Get p l w; mret r.1
  | AGetWatch p l w => r ← GetWatch p l w; mret r.1
  | AGetAsync p c w => GetAsync p c w
  | AGetAsyncWatch p c w => GetAsyncWatch p c w
  | AExists p w => r ← Exists p w; mret r.1
  | AExistsWatch p w => r ← ExistsWatch p w; mret r.1
  | AExistsAsync p c w => ExistsAsync p c w
  | AExistsAsyncWatch p c w => ExistsAsyncWatch p c w
  | AGetChildren p s w => r ← GetChildren p s w; mret r.1
  | AGetChildrenWatch p s w => r ← GetChildrenWatch p s w; mret r.1
  | AGetChildrenAsync p c w => GetChildrenAsync p c w
  | ASetWatcher w => SetWatcher w;; mret ZK_OK
  | AAddSessionUpdateCallback f => AddSessionUpdateCallback f;; mret ZK_OK
  end.

(** The steps of the threads: operations; [Connect] in two parts; the finalizing thread
    in two; [Shutdown] in three; the client's calls, begun and ended. *)
Inductive action : Type :=
| Api (q : api)
| ConnectJoin
| ConnectLocked
| FinalizeClose
| FinalizeErase
| ShutdownSwap
| ShutdownClose (i : nat)
| ShutdownReturn (i : nat)
| Call (h : zhandle) (d : delivery)
| Return (h : zhandle) (a : addr)
| Elapse.

Inductive outcome : Type :=
| Next (m : machine)
| NotEnabled
| UseAfterFree
| Ended.

Definition put (s : world) (m : machine) : machine := mkMachine s (shutdowns m) (joined m).
Definition with_client (z : zoo) (m : machine) : machine :=
  put (mkWorld (wrapper (run_world m)) z (log (run_world m))) m.
Definition with_wrapper (w : ZKWrapper) (m : machine) : machine :=
  put (mkWorld w (client (run_world m)) (log (run_world m))) m.

(** The objects that are alive: those of the pool, and of the pools held by [Shutdown]. *)
Definition contexts (m : machine) : list context :=
  (map_to_list (context_pool_ (wrapper (run_world m)))).*2 ++ concat (map (fun d => (map_to_list (old_pool d)).*2) (shutdowns m)).
Definition find_context (m : machine) (a : addr) : option context :=
  snd <$> list_find (fun c => ctx_addr c = a) (contexts m).

Definition step (m : machine) (x : action) : outcome :=
  let s := run_world m in
  let w := wrapper s in
  match x with
  | Api q => Next (put (run_api q s).2 m)
  | ConnectJoin =>
      match finalize_thread_ w with
      | None => Next (mkMachine s (shutdowns m) (S (joined m)))
      | Some j =>
          match job_stage j with
          | Finished => Next (mkMachine (mkWorld (set_thread None w) (client s) (log s)) (shutdowns m) (S (joined m)))
          | _ => NotEnabled
          end
      end
  | ConnectLocked =>
      match joined m with
      | O => NotEnabled
      | S n =>
          match Connect s with
          | (Terminated, _) => Ended
          | (_, s) => Next (mkMachine s (shutdowns m) n)
          end
      end
  | FinalizeClose =>
      match finalize_thread_ w with
      | Some (mkJob h keys Closing) =>
          match zookeeper_close (client s) h with
          | None => NotEnabled
          | Some (z, _) => Next (put (mkWorld (set_thread (Some (mkJob h keys Closed)) w) z (log s)) m)
          end
      | _ => NotEnabled
      end
  | FinalizeErase =>
      match finalize_thread_ w with
      | Some (mkJob h keys Closed) =>
          Next (with_wrapper (set_thread (Some (mkJob h keys Finished))
            (set_pool (foldl (fun p key => delete key p) (context_pool_ w) keys) w)) m)
      | _ => NotEnabled
      end
  | ShutdownSwap =>
      let m' := with_wrapper (set_pool ∅ (set_handle None w)) m in
      Next (match zhandle_ w with
            | None => m'
            | Some h => mkMachine (run_world m') (shutdowns m ++ [mkShutdown h false (context_pool_ w)]) (joined m)
            end)
  | ShutdownClose i =>
      match shutdowns m !! i with
      | Some (mkShutdown h false p) =>
          match zookeeper_close (client s) h with
          | None => NotEnabled
          | Some (z, _) =>
              Next (mkMachine (mkWorld w z (log s)) (<[i := mkShutdown h true p]> (shutdowns m)) (joined m))
          end
      | _ => NotEnabled
      end
  | ShutdownReturn i =>
      match shutdowns m !! i with
      | Some (mkShutdown _ true _) => Next (mkMachine s (delete i (shutdowns m)) (joined m))
      | _ => NotEnabled
      end
  | Call h d =>
      match zoo_deliver (client s) h d with
      | None => NotEnabled
      | Some z =>
          match dispatch_of d with
          | Ignored_event => Next (with_client z m)
          | Global =>
              match d with
              | DGlobal ty st p => Next (put (mkWorld w z (log s ++ GlobalZooWatcher ty st p w)) m)
              | _ => NotEnabled
              end
          | Deref a run =>
              match find_context m a with
              | None => UseAfterFree
              | Some c => Next (put (mkWorld w z (log s ++ run c)) m)
              end
          end
      end
  | Return h a =>
      match zoo_return (client s) h a with
      | None => NotEnabled
      | Some z =>
          match find_context m a with
          | None => UseAfterFree
          | Some c => Next (put (mkWorld (RemoveContextById (id_ c) w) z (log s)) m)
          end
      end
  | Elapse => Next (with_client (elapse (client s)) m)
  end.

(** A sequence of steps. *)
Fixpoint run (m : machine) (xs : list action) : outcome :=
  match xs with
  | [] => Next m
  | x :: xs => match step m x with Next m => run m xs | o => o end
  end.

Definition start (remote : bytes) (watcher : option L) (timeout : Z) (z : zoo) : machine :=
  mkMachine (mkWorld (new_ZKWrapper remote watcher timeout) z []) [] 0%nat.

End wrapper.
