(* ===== verification/ZkCorrect.v ===== *)
(** * The contexts of the ZooKeeper wrapper are alive when the client calls them

    [ZooPromises] is what the client's header documents, as a ledger of the contexts that
    the client may still call.  Against it: under every interleaving of operations,
    reconnections, shutdowns and callbacks no freed context is called, as long as no
    [Shutdown] overtakes the thread that closes a replaced handle; and every accepted
    asynchronous request is answered once.  A concrete client discharges the class. *)
From Stdlib Require Import ZArith Lia.
From stdpp Require Import base list option gmap fin_maps.
From S2P Require Import Prelude Strings Zk.

Local Open Scope Z_scope.

(** ** Codes and paths *)

(** An operation is a success for the caller exactly when it is one for the client. *)
Lemma zk_code_ok code : ZKWrapper_zooCodeToZKCode code = ZK_OK <-> code = ZOK.
Proof.
  unfold ZKWrapper_zooCodeToZKCode, ZK_OK, ZOK.
  repeat match goal with |- context [?a =? ?b] => destruct (Z.eqb_spec a b); subst end;
    cbv; split; intros; first [lia | discriminate | assumption].
Qed.

(** The codes with a name keep their meaning in both directions. *)
Lemma zk_code_roundtrip code :
  In code [ZK_OK; ZK_NONODE; ZK_BADVERSION; ZK_NODEEXISTS; ZK_CONNECTIONLOSS; ZK_OPERATIONTIMEOUT; ZK_SYSTEMERROR;
    ZK_BADARGUMENTS; ZK_INVALIDSTATE; ZK_SESSIONEXPIRED] ->
  ZKWrapper_zooCodeToZKCode (ZKWrapper_ZKCodeTozooCode code) = code.
Proof. cbn; intros Hc; repeat (destruct Hc as [<- | Hc]; [reflexivity |]); contradiction. Qed.

(** A session event is the only one that is read as such, so a watcher's closure never
    sees [ZKEVENT_SESSION]. *)
Lemma zk_event_session `{ZooConsts} event :
  ZKWrapper_zooEventToZKEvent event = ZKEVENT_SESSION <-> event = ZOO_SESSION_EVENT.
Proof.
  pose proof zoo_events_distinct as Hd; unfold ZKWrapper_zooEventToZKEvent.
  repeat match goal with |- context [?a =? ?b] => destruct (Z.eqb_spec a b) as [->|] end;
    split; intros Heq; try discriminate; try done; try contradiction;
    exfalso; revert Hd; rewrite Heq; rewrite !list.NoDup_cons; set_solver.
Qed.
Lemma zk_state_connected `{ZooConsts} state :
  ZKWrapper_zooStateToZKState state = ZKSTATE_CONNECTED <-> state = ZOO_CONNECTED_STATE.
Proof.
  pose proof zoo_states_distinct as Hd; unfold ZKWrapper_zooStateToZKState.
  repeat match goal with |- context [?a =? ?b] => destruct (Z.eqb_spec a b) as [->|] end;
    split; intros Heq; try discriminate; try done; try contradiction;
    exfalso; revert Hd; rewrite Heq; rewrite !list.NoDup_cons; set_solver.
Qed.

(** Filling a buffer piece by piece. *)
Lemma copy_at_app (a b c src : bytes) :
  length src = length b -> copy_at (a ++ b ++ c) (length a) src = a ++ src ++ c.
Proof.
  intros Hl; unfold copy_at; rewrite take_app_length, Hl.
  by rewrite (app_assoc a b c), <- length_app, drop_app_length.
Qed.

(** The text of [JoinPath]: one separator between the paths, whatever they bring. *)
Definition strip_tail (p : bytes) : bytes := if decide (p !! (length p - 1)%nat = Some 47) then take (length p - 1) p else p.
Definition strip_head (p : bytes) : bytes := if decide (p !! 0%nat = Some 47) then drop 1 p else p.

Lemma JoinPath_spec p q : p <> [] -> q <> [] -> JoinPath p q = strip_tail p ++ [47] ++ strip_head q.
Proof.
  intros Hp Hq; unfold JoinPath.
  assert (Hlp : (0 < length p)%nat) by (destruct p; [done | cbn; lia]).
  assert (Hlq : (0 < length q)%nat) by (destruct q; [done | cbn; lia]).
  destruct (Nat.eqb_spec (length p) 0); [lia|]; destruct (Nat.eqb_spec (length q) 0); [lia|]; cbn [orb].
  set (k := (length p - (if bool_decide (p !! (length p - 1)%nat = Some 47%Z) then 1 else 0))%nat).
  set (t := (if bool_decide (q !! 0%nat = Some 47%Z) then 1 else 0)%nat).
  assert (Hk : strip_tail p = take k p).
  { unfold strip_tail, k; case_decide; case_bool_decide; try done; by rewrite Nat.sub_0_r, firstn_all. }
  assert (Ht : strip_head q = drop t q).
  { unfold strip_head, t; case_decide; case_bool_decide; done. }
  assert (Hkl : length (take k p) = k) by (rewrite length_take; unfold k; lia).
  assert (Htl : length (drop t q) = (length q - t)%nat) by (rewrite length_drop; lia).
  rewrite Hk, Ht.
  replace (k + length q - t + 1)%nat with (k + (1 + (length q - t)))%nat by (unfold t; case_bool_decide; lia).
  rewrite !repeat_app.
  pose proof (copy_at_app [] (repeat 0 k) (repeat 0 1 ++ repeat 0 (length q - t)) (take k p)) as H1.
  cbn [app length] in H1; rewrite H1 by (by rewrite Hkl, repeat_length); clear H1.
  pose proof (copy_at_app (take k p) (repeat 0 1) (repeat 0 (length q - t)) [47]) as H2.
  rewrite Hkl in H2; rewrite H2 by done; clear H2.
  pose proof (copy_at_app (take k p ++ [47]) (repeat 0 (length q - t)) [] (drop t q)) as H3.
  rewrite length_app, Hkl, !app_nil_r, <- !app_assoc in H3; cbn [length] in H3.
  rewrite H3 by (by rewrite Htl, repeat_length); reflexivity.
Qed.

(** ** What the client promises *)

(** A context that the client may call: the completion of an accepted request, a watch
    that is set, or a context whose call has begun and not ended. *)
Inductive debt : Type := Pending | Watching | Called.

#[global] Instance debt_eq_dec : EqDecision debt.
Proof. solve_decision. Defined.

Definition completion_of (q : request) : option addr :=
  match q with
  | zoo_acreate _ _ _ a | zoo_adelete _ _ a | zoo_aset _ _ _ a | zoo_aget _ _ a | zoo_awget _ _ a
  | zoo_aexists _ _ a | zoo_awexists _ _ a | zoo_awget_children2 _ _ a => Some a
  | _ => None
  end.
Definition watcher_of (q : request) : option addr :=
  match q with
  | zoo_wget _ a _ | zoo_awget _ a _ | zoo_wexists _ a | zoo_awexists _ a _ | zoo_wget_children _ a
  | zoo_wget_children2 _ a | zoo_awget_children2 _ a _ => Some a
  | _ => None
  end.

(** A watch is set by a request that succeeds; one for existence also when there is no node. *)
Definition watch_set (q : request) (r : response) : Prop :=
  rc r = ZOK \/ (rc r = ZNONODE /\ match q with zoo_wexists _ _ => True | _ => False end).

(** What a request adds to the ledger. *)
Definition adds (q : request) (r : response) (a : addr) (k : debt) : Prop :=
  (k = Pending /\ completion_of q = Some a /\ rc r = ZOK) \/ (k = Watching /\ watcher_of q = Some a /\ watch_set q r).

(** Between two ledgers only watches may go. *)
Definition evolves (l l' : gmap addr (zhandle * debt)) : Prop :=
  (forall a v, l' !! a = Some v -> l !! a = Some v) /\
  (forall a h k, k <> Watching -> l !! a = Some (h, k) -> l' !! a = Some (h, k)).

(** The context of a delivery, with what the ledger must say of it. *)
Definition calls `{ZooConsts} (d : delivery) : option (addr * debt) :=
  match d with
  | DString a _ _ | DVoid a _ | DStat a _ _ | DData a _ _ _ | DChildren a _ _ _ => Some (a, Pending)
  | DWatch a type _ _ => if type =? ZOO_SESSION_EVENT then None else Some (a, Watching)
  | DGlobal _ _ _ => None
  end.

Class ZooPromises `{ZooConsts} `{ZooClient} : Type := {
  ledger : zoo -> gmap addr (zhandle * debt);
  elapse_promise z : evolves (ledger z) (ledger (elapse z));
  init_promise z remote t z' h : zookeeper_init z remote t = (z', h) -> evolves (ledger z) (ledger z');
  perform_from z h q z' r a h' k : zoo_perform z h q = (z', r) ->
    ledger z' !! a = Some (h', k) -> ledger z !! a = Some (h', k) \/ (h' = h /\ adds q r a k);
  perform_keeps z h q z' r a h' k : zoo_perform z h q = (z', r) -> k <> Watching ->
    completion_of q <> Some a -> watcher_of q <> Some a -> ledger z !! a = Some (h', k) -> ledger z' !! a = Some (h', k);
  perform_pending z h q z' r a : zoo_perform z h q = (z', r) ->
    rc r = ZOK -> completion_of q = Some a -> ledger z' !! a = Some (h, Pending);
  deliver_promise z h d z' : zoo_deliver z h d = Some z' ->
    match calls d with
    | Some (a, k) => ledger z !! a = Some (h, k) /\ evolves (<[a := (h, Called)]> (ledger z)) (ledger z')
    | None => evolves (ledger z) (ledger z')
    end;
  return_promise z h a z' : zoo_return z h a = Some z' ->
    ledger z !! a = Some (h, Called) /\ evolves (delete a (ledger z)) (ledger z');
  close_promise z h z' code : zookeeper_close z h = Some (z', code) ->
    (forall a k, ledger z !! a = Some (h, k) -> k = Watching) /\
    evolves (filter (fun p => p.2.1 <> h) (ledger z)) (ledger z')
}.

Lemma evolves_refl l : evolves l l.
Proof. split; auto. Qed.
Lemma evolves_trans l l' l'' : evolves l l' -> evolves l' l'' -> evolves l l''.
Proof. intros [H1 H2] [H3 H4]; split; eauto. Qed.
#[global] Instance evolves_preorder : PreOrder evolves.
Proof. split; [exact evolves_refl | intros ???; apply evolves_trans]. Qed.

(** ** Fresh identifiers *)

(** The identifier of a new context is not in use, however the counter has wrapped. *)
Lemma free_id_candidates {L} fuel (pool : gmap Z (context (L := L))) count :
  is_Some (pool !! free_id fuel pool count) ->
  forall i, (i <= fuel)%nat -> is_Some (pool !! ((count + 1 + Z.of_nat i) mod 2 ^ 64)).
Proof.
  revert count; induction fuel as [|fuel IH]; intros count; cbn [free_id].
  - intros Hs i Hi; replace i with 0%nat by lia; by rewrite Z.add_0_r.
  - destruct (pool !! ((count + 1) mod 2 ^ 64)) as [c|] eqn:Hc.
    + intros Hs i Hi; destruct i as [|i].
      * rewrite Z.add_0_r, Hc; by eexists.
      * specialize (IH _ Hs i ltac:(lia)).
        replace (count + 1 + Z.of_nat (S i)) with (count + 1 + (1 + Z.of_nat i)) by lia.
        rewrite <- Zplus_mod_idemp_l.
        replace ((count + 1) mod 2 ^ 64 + (1 + Z.of_nat i)) with ((count + 1) mod 2 ^ 64 + 1 + Z.of_nat i) by lia.
        exact IH.
    + rewrite Hc; intros [? [=]].
Qed.

Lemma mod_candidates_inj c i j :
  0 <= i < 2 ^ 64 -> 0 <= j < 2 ^ 64 -> (c + i) mod 2 ^ 64 = (c + j) mod 2 ^ 64 -> i = j.
Proof.
  intros Hi Hj He.
  assert (((c + i) - (c + j)) mod 2 ^ 64 = 0) as Hm by (rewrite Zminus_mod, He, Z.sub_diag; reflexivity).
  replace (c + i - (c + j)) with (i - j) in Hm by lia.
  apply Z.mod_divide in Hm as [q Hq]; [|lia]; nia.
Qed.

Lemma free_id_fresh {L} (pool : gmap Z (context (L := L))) count :
  Z.of_nat (size pool) < 2 ^ 64 -> pool !! free_id (size pool) pool count = None.
Proof.
  intros Hs; destruct (pool !! free_id (size pool) pool count) as [c|] eqn:Hc; [exfalso | done].
  pose proof (free_id_candidates (size pool) pool count ltac:(rewrite Hc; by eexists)) as Hall.
  set (keys := map (fun i => (count + 1 + Z.of_nat i) mod 2 ^ 64) (seq 0 (S (size pool)))).
  assert (Hn : NoDup keys).
  { apply NoDup_fmap_2_strong; [|apply NoDup_seq].
    intros x y Hx%elem_of_seq Hy%elem_of_seq He.
    apply mod_candidates_inj in He; lia. }
  assert (Hsub : (list_to_set keys : gset Z) ⊆ dom pool).
  { intros k [i [-> Hi%elem_of_seq]]%elem_of_list_to_set%list_elem_of_fmap.
    apply elem_of_dom, Hall; lia. }
  apply subseteq_size in Hsub.
  rewrite size_list_to_set, size_dom in Hsub by done.
  unfold keys in Hsub; rewrite length_map, length_seq in Hsub; lia.
Qed.

(** ** The invariant *)

Section safety.
Context {L : Type} `{ZooPromises}.
Implicit Types (w : ZKWrapper (L := L)) (s : world (L := L)) (m : machine (L := L)) (p : gmap Z (context (L := L)))
  (c : context (L := L)).

(** The key of a context, while the counter has not wrapped. *)
Definition key (a : addr) : Z := Z.of_nat a + 1.
Definition holds p (a : addr) : Prop := is_Some (p !! key a).

(** The entries of a pool: contexts under their own keys, made before [n] others. *)
Definition pool_ok (n : addr) p : Prop :=
  forall id c, p !! id = Some c -> id_ c = id /\ id = key (ctx_addr c) /\ (ctx_addr c < n)%nat.

(** Where the context of a debt lives: in the pool, if the handle is the current one or
    the one that the finalizing thread closes; in the pool of the [Shutdown] that closes
    it otherwise. *)
Definition lives w (ds : list (shutdown (L := L))) (h : zhandle) (a : addr) : Prop :=
  (zhandle_ w = Some h /\ holds (context_pool_ w) a /\
     forall j, finalize_thread_ w = Some j -> job_stage j <> Finished -> key a ∉ oldContexts j) \/
  (exists keys, finalize_thread_ w = Some (mkJob h keys Closing) /\ holds (context_pool_ w) a) \/
  (exists d, d ∈ ds /\ shut_handle d = h /\ shut_closed d = false /\ holds (old_pool d) a).

Record ok (n : addr) (ds : list (shutdown (L := L))) s : Prop := {
  ok_count : context_id_count_ (wrapper s) = Z.of_nat (next_addr (wrapper s));
  ok_bound : (next_addr (wrapper s) <= n)%nat;
  ok_pool : pool_ok (next_addr (wrapper s)) (context_pool_ (wrapper s));
  ok_pools : forall d, d ∈ ds -> pool_ok (next_addr (wrapper s)) (old_pool d);
  ok_keys : forall j k, finalize_thread_ (wrapper s) = Some j -> k ∈ oldContexts j -> k <= context_id_count_ (wrapper s);
  ok_debts : forall a h k, ledger (client s) !! a = Some (h, k) -> lives (wrapper s) ds h a
}.

Lemma key_inj a b : key a = key b -> a = b.
Proof. unfold key; lia. Qed.

Lemma pool_ok_mono n n' p : (n <= n')%nat -> pool_ok n p -> pool_ok n' p.
Proof. intros Hn Hp id c Hc; destruct (Hp id c Hc) as (?&?&?); repeat split; auto; lia. Qed.

Lemma pool_ok_delete n p id : pool_ok n p -> pool_ok n (delete id p).
Proof. intros Hp i c [_ Hc]%lookup_delete_Some; eauto. Qed.

Lemma ok_mono n n' ds s : (n <= n')%nat -> ok n ds s -> ok n' ds s.
Proof. intros Hn []; constructor; auto; lia. Qed.

(** A debt is of a context that was made. *)
Lemma debt_made n ds s a h k :
  ok n ds s -> ledger (client s) !! a = Some (h, k) -> (a < next_addr (wrapper s))%nat.
Proof.
  intros Hok Hd.
  assert (Hh : forall p, pool_ok (next_addr (wrapper s)) p -> holds p a -> (a < next_addr (wrapper s))%nat).
  { intros p Hp [c Hc]; destruct (Hp _ _ Hc) as (_ & ->%key_inj & Hlt); exact Hlt. }
  destruct (ok_debts _ _ _ Hok _ _ _ Hd) as [(_ & Hp & _) | [(keys & _ & Hp) | (d & Hin & _ & _ & Hp)]];
    (eapply Hh; [|exact Hp]); eauto using ok_pool, ok_pools.
Qed.

(** What the client does by itself keeps the invariant. *)
Lemma ok_client n ds s z l :
  ok n ds s -> evolves (ledger (client s)) (ledger z) -> ok n ds (mkWorld (wrapper s) z l).
Proof. intros [? ? ? ? ? Hd] [Hv _]; constructor; cbn [wrapper client]; eauto. Qed.

(** A context of the pool that the client does not know. *)
Definition ready s c : Prop :=
  context_pool_ (wrapper s) !! id_ c = Some c /\ id_ c = key (ctx_addr c) /\ ledger (client s) !! ctx_addr c = None /\
  forall j, finalize_thread_ (wrapper s) = Some j -> id_ c ∉ oldContexts j.

(** [ZKWrapperContext_Create]. *)
Lemma create_ok n ds s cb c s' :
  Z.of_nat n < 2 ^ 64 -> (next_addr (wrapper s) < n)%nat -> ok n ds s ->
  ZKWrapperContext_Create cb s = (c, s') ->
  ok n ds s' /\ ready s' c /\ callback_ c = cb /\ ctx_addr c = next_addr (wrapper s) /\
  next_addr (wrapper s') = S (next_addr (wrapper s)) /\ client s' = client s /\ log s' = log s /\
  zhandle_ (wrapper s') = zhandle_ (wrapper s) /\ finalize_thread_ (wrapper s') = finalize_thread_ (wrapper s) /\
  (forall b, ready s b -> ready s' b).
Proof.
  intros Hn Hlt Hok; unfold ZKWrapperContext_Create, AddContext; cbn beta iota.
  set (w := wrapper s) in *.
  assert (Hnone : context_pool_ w !! key (next_addr w) = None).
  { destruct (context_pool_ w !! key (next_addr w)) as [b|] eqn:Hb; [|done].
    destruct (ok_pool _ _ _ Hok _ _ Hb) as (_ & He%key_inj & Hl); unfold w in *; lia. }
  assert (Hid : free_id (size (context_pool_ w)) (context_pool_ w) (context_id_count_ w) = key (next_addr w)).
  { assert (Hk : (context_id_count_ w + 1) mod 2 ^ 64 = key (next_addr w)).
    { unfold w, key; rewrite (ok_count _ _ _ Hok), Z.mod_small; [done|]. fold w; lia. }
    destruct (size (context_pool_ w)); cbn [free_id]; rewrite Hk; [done|]; by rewrite Hnone. }
  rewrite Hid; intros [= <- <-]; cbn [wrapper client log next_addr context_pool_ context_id_count_ ctx_addr id_ callback_].
  assert (Hl0 : ledger (client s) !! next_addr w = None).
  { destruct (ledger (client s) !! next_addr w) as [[h k]|] eqn:Hd; [|done].
    pose proof (debt_made _ _ _ _ _ _ Hok Hd); unfold w in *; lia. }
  assert (Hfresh : forall j, finalize_thread_ w = Some j -> key (next_addr w) ∉ oldContexts j).
  { intros j Hj Hin; pose proof (ok_keys _ _ _ Hok _ _ Hj Hin) as Hle.
    rewrite (ok_count _ _ _ Hok) in Hle; unfold w, key in *; lia. }
  split; [constructor; cbn [wrapper client next_addr context_pool_ context_id_count_ finalize_thread_] |].
  - unfold key; lia.
  - lia.
  - intros id c; rewrite lookup_insert_Some; intros [[<- <-] | [Hne Hc]].
    + cbn; repeat split; lia.
    + destruct (ok_pool _ _ _ Hok _ _ Hc) as (?&?&?); unfold w in *; repeat split; auto; lia.
  - intros d Hd; eapply pool_ok_mono, (ok_pools _ _ _ Hok _ Hd); unfold w; lia.
  - intros j k Hj Hk; pose proof (ok_keys _ _ _ Hok _ _ Hj Hk) as Hle.
    rewrite (ok_count _ _ _ Hok) in Hle; fold w in Hle; unfold key; lia.
  - intros a h k Hd.
    assert (Ha : key a <> key (next_addr w)).
    { intros ->%key_inj; congruence. }
    destruct (ok_debts _ _ _ Hok _ _ _ Hd) as [(?&Hp&?) | [(keys&?&Hp) | ?]]; [left | right; left | by do 2 right].
    + repeat split; auto. unfold holds; cbn [context_pool_]; rewrite lookup_insert_ne by congruence; exact Hp.
    + exists keys; split; auto. unfold holds; cbn [context_pool_]; rewrite lookup_insert_ne by congruence; exact Hp.
  - split; [by split; [cbn; apply lookup_insert_eq | split; [done | split; [exact Hl0 | exact Hfresh]]] |].
    repeat (split; [done|]); intros b (Hb & Hkb & Hlb & Hjb); split; [|by repeat split].
    cbn [wrapper context_pool_]; rewrite lookup_insert_ne; [exact Hb | intros He; rewrite <- He in Hb; fold w in Hb; congruence].
Qed.

(** What an operation leaves alone: the log, and of the contexts made before it the debts
    (watches may go) and the objects. *)
Record frame (n : addr) s s' : Prop := {
  frame_log : log s' = log s;
  frame_next : (next_addr (wrapper s) <= next_addr (wrapper s'))%nat;
  frame_from : forall a v, (a < n)%nat -> ledger (client s') !! a = Some v -> ledger (client s) !! a = Some v;
  frame_keeps : forall a h k, (a < n)%nat -> k <> Watching ->
    ledger (client s) !! a = Some (h, k) -> ledger (client s') !! a = Some (h, k);
  frame_pool : forall a, (a < n)%nat -> context_pool_ (wrapper s') !! key a = context_pool_ (wrapper s) !! key a
}.

Lemma frame_refl n s : frame n s s.
Proof. constructor; auto. Qed.
Lemma frame_trans n s1 s2 s3 : frame n s1 s2 -> frame n s2 s3 -> frame n s1 s3.
Proof.
  intros [? ? ? ? Hp] [? ? ? ? Hp']; constructor; eauto; [congruence | lia |]; intros a Ha; rewrite Hp' by done; auto.
Qed.

Lemma frame_create n s cb c s' :
  (n <= next_addr (wrapper s))%nat -> ZKWrapperContext_Create cb s = (c, s') -> id_ c = key (ctx_addr c) -> frame n s s'.
Proof.
  intros Hn; unfold ZKWrapperContext_Create, AddContext; intros [= <- <-]; cbn; intros Hid; constructor; cbn; auto.
  intros a Ha; rewrite lookup_insert_ne; [done|]; rewrite Hid; intros ?%key_inj; lia.
Qed.
Lemma frame_call n s h q r s' :
  zoo_call h q s = (r, s') -> (forall a, completion_of q = Some a \/ watcher_of q = Some a -> (n <= a)%nat) -> frame n s s'.
Proof.
  unfold zoo_call; destruct (zoo_perform (elapse (client s)) h q) as [z r0] eqn:Hp; intros [= <- <-] Hq.
  destruct (elapse_promise (client s)) as [Hf Hk]; constructor; cbn; auto.
  - intros a [h' k] Ha Hl; destruct (perform_from _ _ _ _ _ _ _ _ Hp Hl) as [? | [_ Hadd]]; [by apply Hf|].
    assert (n <= a)%nat by (apply Hq; destruct Hadd as [(_&?&_) | (_&?&_)]; auto); lia.
  - intros a h' k Ha Hw Hl; eapply perform_keeps; eauto; intros Hc; assert (n <= a)%nat by auto; lia.
Qed.
Lemma frame_remove n s c : (n <= ctx_addr c)%nat -> id_ c = key (ctx_addr c) -> frame n s (RemoveContext c s).2.
Proof.
  intros Hc Hk; constructor; cbn; auto; intros a Ha; rewrite lookup_delete_ne; [done|]; rewrite Hk; intros ?%key_inj; lia.
Qed.

(** A request with contexts that are ready. *)
Lemma call_ok n ds s h q r s' :
  ok n ds s -> zhandle_ (wrapper s) = Some h ->
  (forall a, completion_of q = Some a \/ watcher_of q = Some a -> exists c, ready s c /\ ctx_addr c = a) ->
  zoo_call h q s = (r, s') ->
  ok n ds s' /\ wrapper s' = wrapper s /\ log s' = log s /\
  (forall c, ready s c -> (forall k, ~ adds q r (ctx_addr c) k) -> ready s' c) /\
  (forall a, completion_of q = Some a -> rc r = ZOK -> ledger (client s') !! a = Some (h, Pending)).
Proof.
  intros Hok Hh Hq; unfold zoo_call.
  destruct (zoo_perform (elapse (client s)) h q) as [z r0] eqn:Hp; intros [= <- <-]; cbn [wrapper log client].
  assert (Hfrom : forall a h' k, ledger z !! a = Some (h', k) ->
      ledger (client s) !! a = Some (h', k) \/ (h' = h /\ adds q r0 a k)).
  { intros a h' k Ha; destruct (perform_from _ _ _ _ _ _ _ _ Hp Ha) as [Hb | ?]; [left | by right].
    by apply (elapse_promise (client s)). }
  split; [|split; [done | split; [done | split]]].
  - destruct Hok as [? ? ? ? ? Hd]; constructor; cbn [wrapper client]; auto.
    intros a h' k Ha; destruct (Hfrom _ _ _ Ha) as [Hb | [-> Hadd]]; [by eapply Hd|].
    left; destruct (Hq a) as (c & (Hc & Hk & _ & Hj) & <-); [destruct Hadd as [(_&?&_) | (_&?&_)]; auto|].
    split; [done | split]; [unfold holds; rewrite <- Hk, Hc; by eexists|].
    intros j Hjj _; rewrite <- Hk; auto.
  - intros c (Hc & Hk & Hl & Hj) Hno; split; [done | split; [done | split; [|done]]].
    cbn [client]; destruct (ledger z !! ctx_addr c) as [[h' k]|] eqn:He; [|done].
    destruct (Hfrom _ _ _ He) as [? | [_ ?]]; [congruence | by destruct (Hno k)].
  - intros a Ha Hrc; exact (perform_pending _ _ _ _ _ _ Hp Hrc Ha).
Qed.

(** Taking away a context that the client does not know. *)
Lemma delete_ok n ds s c :
  ok n ds s -> id_ c = key (ctx_addr c) -> ledger (client s) !! ctx_addr c = None ->
  ok n ds (mkWorld (RemoveContextById (id_ c) (wrapper s)) (client s) (log s)).
Proof.
  intros [Hc Hb Hp Hps Hks Hd] Hk Hl; constructor; cbn; auto using pool_ok_delete.
  intros a h k Ha; assert (Hne : id_ c <> key a) by (rewrite Hk; intros ?%key_inj; congruence).
  destruct (Hd _ _ _ Ha) as [(?&Hh&?) | [(keys&?&Hh) | ?]]; [left | right; left | by do 2 right].
  - repeat split; auto; unfold holds; cbn; by rewrite lookup_delete_ne.
  - exists keys; split; auto; unfold holds; cbn; by rewrite lookup_delete_ne.
Qed.

Lemma remove_ok n ds s c : ok n ds s -> ready s c -> ok n ds (RemoveContext c s).2.
Proof. intros Hok (_ & Hk & Hl & _); by apply delete_ok. Qed.

Lemma ready_remove s c b : ready s b -> ctx_addr b <> ctx_addr c -> id_ c = key (ctx_addr c) -> ready (RemoveContext c s).2 b.
Proof.
  intros (Hb & Hk & Hl & Hj) Hne Hkc; split; [|by repeat split].
  cbn; rewrite lookup_delete_ne; [done|]; rewrite Hk, Hkc; intros ?%key_inj; congruence.
Qed.

(** The shape of the operations: none, one or two contexts around a request. *)
Definition okf (n : addr) ds s s' : Prop := ok n ds s' /\ frame (next_addr (wrapper s)) s s'.

Lemma plain_ok {A} n ds s (f : response -> A) q :
  ok n ds s -> completion_of q = None -> watcher_of q = None -> forall h, zhandle_ (wrapper s) = Some h ->
  okf n ds s ((r ← zoo_call h q; mret (f r)) s).2.
Proof.
  intros Hok Hc Hw h Hh; unfold mbind, act_bind; destruct (zoo_call h q s) as [r s'] eqn:Hcall; cbn.
  split; [|eapply frame_call; [eassumption | intros a [?|?]; congruence]].
  eapply call_ok in Hcall as (? & _); eauto; intros a [?|?]; congruence.
Qed.

Lemma one_context_ok {A} n ds s cb (f : response -> A) (drop : response -> bool) (q : addr -> request) :
  Z.of_nat n < 2 ^ 64 -> (next_addr (wrapper s) < n)%nat -> ok n ds s ->
  (forall a b, completion_of (q a) = Some b \/ watcher_of (q a) = Some b -> b = a) ->
  (forall a r k, drop r = true -> ~ adds (q a) r a k) ->
  forall h, zhandle_ (wrapper s) = Some h ->
  okf n ds s ((c ← ZKWrapperContext_Create cb; r ← zoo_call h (q (ctx_addr c));
    when (drop r) (RemoveContext c);; mret (f r)) s).2.
Proof.
  intros Hn Hlt Hok Hq Hdrop h Hh; unfold mbind, act_bind.
  destruct (ZKWrapperContext_Create cb s) as [c s1] eqn:Hcreate.
  pose proof (frame_create (next_addr (wrapper s)) _ _ _ _ (Nat.le_refl _) Hcreate) as F1.
  eapply create_ok in Hcreate as (Hok1 & Hr & _ & Ha & _ & _ & _ & Hh1 & _ & _); [|eassumption..].
  destruct Hr as (?&Hkc&?&?); specialize (F1 Hkc).
  destruct (zoo_call h (q (ctx_addr c)) s1) as [r s2] eqn:Hcall.
  pose proof (frame_call (next_addr (wrapper s)) _ _ _ _ _ Hcall) as F2.
  eapply call_ok in Hcall as (Hok2 & _ & _ & Hk & _); [|eassumption|congruence|].
  2:{ intros a Haa; exists c; split; [by repeat split | symmetry; eauto]. }
  assert (F3 : frame (next_addr (wrapper s)) s s2).
  { eapply frame_trans; [exact F1|]; apply F2; intros a Haa; apply Hq in Haa as ->; lia. }
  destruct (drop r) eqn:Hd; cbn; [|by split].
  split; [apply remove_ok; [exact Hok2|]; apply Hk; [by repeat split | intros k; by apply Hdrop]|].
  eapply frame_trans; [exact F3|]; apply frame_remove; [lia | done].
Qed.

Lemma two_context_ok {A} n ds s cb1 cb2 (f : response -> A) (q : addr -> addr -> request) :
  Z.of_nat n < 2 ^ 64 -> (S (next_addr (wrapper s)) < n)%nat -> ok n ds s ->
  (forall a b x, completion_of (q a b) = Some x \/ watcher_of (q a b) = Some x -> x = a \/ x = b) ->
  (forall a b (path : bytes), q a b <> zoo_wexists path a /\ q a b <> zoo_wexists path b) ->
  forall h, zhandle_ (wrapper s) = Some h ->
  okf n ds s ((c1 ← ZKWrapperContext_Create cb1; c2 ← ZKWrapperContext_Create cb2;
    r ← zoo_call h (q (ctx_addr c1) (ctx_addr c2));
    when (negb (rc r =? ZOK)) (RemoveContext c1;; RemoveContext c2);; mret (f r)) s).2.
Proof.
  intros Hn Hlt Hok Hq Hx h Hh; unfold mbind, act_bind.
  destruct (ZKWrapperContext_Create cb1 s) as [c1 s1] eqn:Hcr1.
  pose proof (frame_create (next_addr (wrapper s)) _ _ _ _ (Nat.le_refl _) Hcr1) as F1.
  eapply create_ok in Hcr1 as (Hok1 & Hr1 & _ & Ha1 & Hn1 & _ & _ & Hh1 & _ & _); [|eassumption|lia|eassumption].
  specialize (F1 (proj1 (proj2 Hr1))).
  destruct (ZKWrapperContext_Create cb2 s1) as [c2 s2] eqn:Hcr2.
  pose proof (frame_create (next_addr (wrapper s)) s1 _ _ _ ltac:(lia) Hcr2) as F2.
  eapply create_ok in Hcr2 as (Hok2 & Hr2 & _ & Ha2 & Hn2 & _ & _ & Hh2 & _ & Hkeep); [|eassumption|lia|eassumption].
  specialize (F2 (proj1 (proj2 Hr2))).
  destruct (zoo_call h (q (ctx_addr c1) (ctx_addr c2)) s2) as [r s3] eqn:Hcall.
  pose proof (frame_call (next_addr (wrapper s)) _ _ _ _ _ Hcall) as F3.
  eapply call_ok in Hcall as (Hok3 & _ & _ & Hk & _); [|eassumption|congruence|].
  2:{ intros a Ha; destruct (Hq _ _ _ Ha) as [->| ->]; eauto. }
  assert (F : frame (next_addr (wrapper s)) s s3).
  { eapply frame_trans; [exact F1|]; eapply frame_trans; [exact F2|]; apply F3; intros a Ha; destruct (Hq _ _ _ Ha) as [->| ->]; lia. }
  destruct (rc r =? ZOK) eqn:Hrc; cbn [negb when]; [by split|].
  apply Z.eqb_neq in Hrc.
  assert (Hno : forall a k, a = ctx_addr c1 \/ a = ctx_addr c2 -> ~ adds (q (ctx_addr c1) (ctx_addr c2)) r a k).
  { intros a k Ha [(_&_&?) | (_&Hw&[?|[_ Hm]])]; [congruence..|].
    destruct (q (ctx_addr c1) (ctx_addr c2)) as [ | | | | | | | | | | | p x | | | | | | | ] eqn:Hqq; try contradiction.
    cbn in Hw; injection Hw as ->; destruct (Hx (ctx_addr c1) (ctx_addr c2) p) as [? ?], Ha as [-> | ->]; congruence. }
  assert (Hr1' : ready s3 c1) by (apply Hk; eauto).
  assert (Hr2' : ready s3 c2) by (apply Hk; eauto).
  destruct Hr1' as (?&?&?&?); split.
  - apply (remove_ok n ds (RemoveContext c1 s3).2 c2); [apply remove_ok; [done | by repeat split]|].
    apply ready_remove; [done | lia | done].
  - eapply frame_trans; [exact F|]; eapply frame_trans; [apply frame_remove; [|done]; lia|].
    apply (frame_remove _ (RemoveContext c1 s3).2 c2); [lia | apply Hr2'].
Qed.

(** Every operation. *)
Lemma bind_ret_state {A B} (m : act A) (g : A -> B) s : ((x ← m; mret (g x)) s).2 = (m s).2.
Proof. unfold mbind, act_bind; by destruct (m s). Qed.

Lemma with_handle_ok n ds s k :
  ok n ds s -> (forall h, zhandle_ (wrapper s) = Some h -> okf n ds s (k h s).2) -> okf n ds s (with_handle k s).2.
Proof.
  intros Hok Hk; unfold with_handle, mbind, act_bind, gets; destruct (zhandle_ (wrapper s)) eqn:Hh; auto.
  split; [done | apply frame_refl].
Qed.
Lemma with_handle_out_ok {A} n ds s (a : A) k :
  ok n ds s -> (forall h, zhandle_ (wrapper s) = Some h -> okf n ds s (k h s).2) -> okf n ds s (with_handle_out a k s).2.
Proof.
  intros Hok Hk; unfold with_handle_out, mbind, act_bind, gets; destruct (zhandle_ (wrapper s)) eqn:Hh; auto.
  split; [done | apply frame_refl].
Qed.

Lemma not_added (q : request) r a k :
  match q with zoo_wexists _ _ => False | _ => True end -> negb (rc r =? ZOK) = true -> ~ adds q r a k.
Proof.
  intros Hq Hr; apply negb_true_iff, Z.eqb_neq in Hr.
  intros [(_&_&?) | (_&_&[?|[_ Hm]])]; [done..|]; destruct q; done.
Qed.
Lemma not_added_wexists path r a b k :
  negb (rc r =? ZOK) && negb (rc r =? ZNONODE) = true -> ~ adds (zoo_wexists path b) r a k.
Proof.
  rewrite andb_true_iff, !negb_true_iff, !Z.eqb_neq; intros [? ?] [(_&_&?) | (_&_&[?|[? _]])]; done.
Qed.

Ltac plain_call := eapply plain_ok; [eassumption | reflexivity | reflexivity | eassumption].
Ltac one_context q :=
  eapply (one_context_ok _ _ _ _ _ (fun r => negb (rc r =? ZOK)) q);
  [eassumption | eassumption | eassumption | cbn; intros ? ? [?|?]; congruence
  | intros ? ? ?; apply not_added; exact I | eassumption].
Ltac two_contexts q :=
  eapply (two_context_ok _ _ _ _ _ _ q);
  [eassumption | eassumption | eassumption | cbn; intros ? ? ? [?|?]; simplify_eq; auto
  | intros; split; discriminate | eassumption].

(** Client thread and wrapper share the invariant: no operation breaks it. *)
Lemma run_api_ok n ds s q :
  Z.of_nat (n + 2)%nat < 2 ^ 64 -> ok n ds s -> okf (n + 2)%nat ds s (run_api q s).2.
Proof.
  intros Hn Hok; pose proof (ok_bound _ _ _ Hok) as Hb; apply (ok_mono _ (n + 2)%nat) in Hok; [|lia].
  assert (Hlt : (next_addr (wrapper s) < n + 2)%nat) by lia.
  assert (Hlt' : (S (next_addr (wrapper s)) < n + 2)%nat) by lia.
  destruct q as [p v e t | p v cb e t | p v | p cb v | p b v | p b cb v | p l wt | p l wt | p cb wt | p cb wt
    | p wt | p wt | p cb wt | p cb wt | p [] wt | p [] wt | p cb wt | wt | cb]; cbn [run_api]; rewrite ?bind_ret_state;
    lazymatch goal with
    | |- okf _ _ _ (SetWatcher _ _).2 => split; [by destruct Hok | by constructor]
    | |- okf _ _ _ (AddSessionUpdateCallback _ _).2 => split; [by destruct Hok | by constructor]
    | |- _ => first [apply with_handle_ok | apply with_handle_out_ok]; [exact Hok | intros h Hh]
    end.
  - plain_call.
  - one_context (zoo_acreate p v (create_flags e t)).
  - plain_call.
  - one_context (zoo_adelete p v).
  - plain_call.
  - one_context (zoo_aset p b v).
  - plain_call.
  - one_context (fun a => zoo_wget p a l).
  - one_context (zoo_aget p wt).
  - two_contexts (fun a b => zoo_awget p b a).
  - plain_call.
  - eapply (one_context_ok _ _ _ _ _ (fun r => negb (rc r =? ZOK) && negb (rc r =? ZNONODE)) (zoo_wexists p));
      [eassumption.. | cbn; intros a b [?|?]; congruence | intros a r k; apply not_added_wexists | eassumption].
  - one_context (zoo_aexists p wt).
  - two_contexts (zoo_awexists p).
  - plain_call.
  - plain_call.
  - one_context (zoo_wget_children2 p).
  - one_context (zoo_wget_children p).
  - two_contexts (zoo_awget_children2 p).
Qed.

(** A context that the client may call is found, and is the one with this address. *)
Lemma find_context_addr m a c :
  find_context m a = Some c -> c ∈ contexts m /\ ctx_addr c = a.
Proof.
  unfold find_context; destruct (list_find _ (contexts m)) as [[i b]|] eqn:Hf; [|done].
  intros [= <-]; apply list_find_Some in Hf as (Hl & He & _); split; [by eapply list_elem_of_lookup_2 | done].
Qed.

Lemma contexts_ok n m c :
  ok n (shutdowns m) (run_world m) -> c ∈ contexts m -> id_ c = key (ctx_addr c).
Proof.
  intros Hok; unfold contexts; rewrite elem_of_app, list_elem_of_In, list_elem_of_In, in_concat.
  intros [Hin | (l & Hl & Hin)].
  - apply list_elem_of_In, list_elem_of_fmap in Hin as ([id b] & -> & Hb%elem_of_map_to_list).
    by destruct (ok_pool _ _ _ Hok _ _ Hb) as (Hi & He & _); cbn; congruence.
  - apply in_map_iff in Hl as (d & <- & Hd%list_elem_of_In).
    apply list_elem_of_In, list_elem_of_fmap in Hin as ([id b] & -> & Hb%elem_of_map_to_list).
    by destruct (ok_pools _ _ _ Hok _ Hd _ _ Hb) as (Hi & He & _); cbn; congruence.
Qed.

Lemma find_context_holds n m p a :
  pool_ok n p -> holds p a ->
  (forall id c, p !! id = Some c -> c ∈ contexts m) -> is_Some (find_context m a).
Proof.
  intros Hp [c Hc] Hin; unfold find_context; apply fmap_is_Some, (list_find_elem_of _ _ c); [by eapply Hin|].
  destruct (Hp _ _ Hc) as (_ & He%key_inj & _); congruence.
Qed.

Lemma find_context_debt n m a h k :
  ok n (shutdowns m) (run_world m) -> ledger (client (run_world m)) !! a = Some (h, k) ->
  exists c, find_context m a = Some c /\ ctx_addr c = a /\ id_ c = key a.
Proof.
  intros Hok Hd.
  assert (Hin : forall id c, context_pool_ (wrapper (run_world m)) !! id = Some c -> c ∈ contexts m).
  { intros id c Hc; unfold contexts; apply elem_of_app; left; apply list_elem_of_fmap; exists (id, c); split; [done|].
    by apply elem_of_map_to_list. }
  assert (Hf : is_Some (find_context m a)).
  { destruct (ok_debts _ _ _ Hok _ _ _ Hd) as [(_ & Hp & _) | [(keys & _ & Hp) | (d & Hi & _ & _ & Hp)]].
    - eapply find_context_holds; eauto using ok_pool.
    - eapply find_context_holds; eauto using ok_pool.
    - eapply find_context_holds; [eapply ok_pools; eauto | exact Hp |].
      intros id c Hc; unfold contexts; apply elem_of_app; right.
      apply list_elem_of_In, in_concat; exists (map_to_list (old_pool d)).*2; split.
      + apply (in_map (fun d => (map_to_list (old_pool d)).*2)); by apply list_elem_of_In.
      + apply list_elem_of_In, list_elem_of_fmap; exists (id, c); split; [done | by apply elem_of_map_to_list]. }
  destruct Hf as [c Hc]; exists c; split; [done|].
  destruct (find_context_addr _ _ _ Hc) as [Hi <-]; split; [done | by eapply contexts_ok].
Qed.

(** The dispatch of a delivery and what the ledger says agree. *)
Lemma dispatch_calls (d : delivery) a run :
  dispatch_of (L := L) d = Deref a run -> exists k, k <> Called /\ calls d = Some (a, k).
Proof.
  destruct d; cbn; try (intros [= <- <-]; eexists; split; [|done]; done).
  - destruct (type =? ZOO_SESSION_EVENT); [done|]; intros [= <- <-]; by exists Watching.
  - done.
Qed.
Lemma dispatch_no_call (d : delivery) :
  (forall a run, dispatch_of (L := L) d <> Deref a run) -> calls d = None.
Proof.
  destruct d; cbn; intros Hd; try (exfalso; by eapply Hd).
  - destruct (type =? ZOO_SESSION_EVENT); [done | exfalso; by eapply Hd].
  - done.
Qed.

(** Deleting the keys of the finalizing thread. *)
Lemma foldl_delete_lookup p keys id :
  foldl (fun p key => delete key p) p keys !! id = if decide (id ∈ keys) then None else p !! id.
Proof.
  revert p; induction keys as [|k keys IH]; intros p; cbn; [by rewrite decide_False by set_solver|].
  rewrite IH; repeat case_decide; try set_solver.
  - by assert (id = k) as -> by set_solver; rewrite lookup_delete_eq.
  - rewrite lookup_delete_ne by set_solver; done.
Qed.

(** No [Shutdown] while a replaced handle is being closed. *)
Definition careful m (x : action (L := L)) : Prop :=
  match x with
  | ShutdownSwap =>
      match finalize_thread_ (wrapper (run_world m)) with None => True | Some j => job_stage j = Finished end
  | _ => True
  end.

(** *** The steps *)

(** The debts of a ledger that has evolved. *)
Lemma ok_wrapper n ds ds' s w' z' l' :
  ok n ds s -> (next_addr w' = next_addr (wrapper s)) -> context_id_count_ w' = context_id_count_ (wrapper s) ->
  pool_ok (next_addr (wrapper s)) (context_pool_ w') ->
  (forall d, d ∈ ds' -> pool_ok (next_addr (wrapper s)) (old_pool d)) ->
  (forall j k, finalize_thread_ w' = Some j -> k ∈ oldContexts j -> k <= context_id_count_ (wrapper s)) ->
  (forall a h k, ledger z' !! a = Some (h, k) -> lives w' ds' h a) ->
  ok n ds' (mkWorld w' z' l').
Proof.
  intros [Hc Hb _ _ _ _] Hn Hi Hp Hps Hk Hd; constructor; cbn [wrapper client]; rewrite ?Hn, ?Hi; auto.
Qed.

(** [zookeeper_init] gives a handle that owes nothing. *)
Lemma connect_init_ok n ds s r s' :
  ok n ds s -> zhandle_ (wrapper s) = None -> connect_init s = (r, s') -> ok n ds s'.
Proof.
  intros Hok Hh; unfold connect_init.
  destruct (zookeeper_init (client s) (zremote_ (wrapper s)) (zrecv_timeout_ (wrapper s)))
    as [z [h|err]] eqn:Hi; intros [= <- <-].
  - destruct (init_promise _ _ _ _ _ Hi) as [Hv _].
    eapply ok_wrapper; [exact Hok | done | done | apply Hok | apply Hok | apply Hok |].
    intros a h' k Ha; apply Hv in Ha.
    destruct (ok_debts _ _ _ Hok _ _ _ Ha) as [(?&?&?) | [? | ?]]; [congruence | by right; left | by do 2 right].
  - apply init_promise in Hi; by apply ok_client.
Qed.

Lemma Connect_ok n ds s r s' : ok n ds s -> Connect s = (r, s') -> ok n ds s'.
Proof.
  intros Hok; unfold Connect; destruct (zhandle_ (wrapper s)) as [h|] eqn:Hh; [|by apply connect_init_ok].
  destruct (0 <? zoo_state (client s) h); [intros [= _ <-]; exact Hok|].
  destruct (finalize_thread_ (wrapper s)) as [j|] eqn:Hj; [intros [= _ <-]; exact Hok|].
  apply connect_init_ok; [|done].
  eapply ok_wrapper; [exact Hok | done | done | apply Hok | apply Hok | |].
  - cbn; intros j k [= <-]; cbn; intros ([id c] & -> & Hc%elem_of_map_to_list)%list_elem_of_fmap.
    destruct (ok_pool _ _ _ Hok _ _ Hc) as (_ & -> & Hlt); rewrite (ok_count _ _ _ Hok); cbn; unfold key; lia.
  - intros a h' k Ha; destruct (ok_debts _ _ _ Hok _ _ _ Ha) as [(Hh' & Hp & _) | [(keys & ? & _) | ?]];
      [|congruence | by do 2 right].
    right; left; rewrite Hh in Hh'; injection Hh' as <-; eexists; split; [done | exact Hp].
Qed.

Lemma finalize_close_ok n ds s h keys z code :
  ok n ds s -> finalize_thread_ (wrapper s) = Some (mkJob h keys Closing) -> zookeeper_close (client s) h = Some (z, code) ->
  ok n ds (mkWorld (set_thread (Some (mkJob h keys Closed)) (wrapper s)) z (log s)).
Proof.
  intros Hok Hj Hz; apply close_promise in Hz as [_ [Hv _]].
  eapply ok_wrapper; [exact Hok | done | done | apply Hok | apply Hok | |].
  - cbn; intros j k [= <-]; cbn; by apply (ok_keys _ _ _ Hok _ _ Hj).
  - intros a h' k [Ha Hne]%Hv%map_lookup_filter_Some; cbn in Hne.
    destruct (ok_debts _ _ _ Hok _ _ _ Ha) as [(Hh & Hp & Hf) | [(keys' & Hk' & Hp) | ?]]; [|congruence | by do 2 right].
    left; split; [done | split; [done|]]; cbn; intros j [= <-] _; by apply (Hf _ Hj).
Qed.

Lemma finalize_erase_ok n ds s h keys :
  ok n ds s -> finalize_thread_ (wrapper s) = Some (mkJob h keys Closed) ->
  ok n ds (mkWorld (set_thread (Some (mkJob h keys Finished))
    (set_pool (foldl (fun p key => delete key p) (context_pool_ (wrapper s)) keys) (wrapper s))) (client s) (log s)).
Proof.
  intros Hok Hj; eapply ok_wrapper; [exact Hok | done | done | | apply Hok | |].
  - cbn; intros id c; rewrite foldl_delete_lookup; case_decide; [done|]; apply Hok.
  - cbn; intros j k [= <-]; cbn; by apply (ok_keys _ _ _ Hok _ _ Hj).
  - intros a h' k Ha; destruct (ok_debts _ _ _ Hok _ _ _ Ha) as [(Hh & Hp & Hf) | [(keys' & Hk' & Hp) | ?]];
      [|congruence | by do 2 right].
    left; split; [done | split; cbn].
    + unfold holds; cbn; rewrite foldl_delete_lookup, decide_False; [exact Hp | by apply (Hf _ Hj)].
    + by intros j [= <-].
Qed.

Lemma shutdown_swap_ok n m :
  ok n (shutdowns m) (run_world m) -> careful m ShutdownSwap ->
  forall m', step m ShutdownSwap = Next m' -> ok n (shutdowns m') (run_world m').
Proof.
  intros Hok Hcare m' [= <-]; cbn in Hcare; set (s := run_world m) in *; set (w := wrapper s) in *.
  assert (Hnc : forall h keys, finalize_thread_ w <> Some (mkJob h keys Closing)).
  { intros h keys Hj; rewrite Hj in Hcare; done. }
  destruct (zhandle_ w) as [h|] eqn:Hh; cbn.
  - eapply ok_wrapper; [exact Hok | done | done | by intros id c | | apply Hok |].
    + intros d [Hd | ->%list_elem_of_singleton]%elem_of_app; [by apply (ok_pools _ _ _ Hok)|]; apply Hok.
    + intros a h' k Ha; do 2 right.
      destruct (ok_debts _ _ _ Hok _ _ _ Ha) as [(Hh' & Hp & _) | [(keys & Hj & _) | (d & Hd & ?)]];
        [| by destruct (Hnc _ _ Hj) | exists d; split; [set_solver | done]].
      exists (mkShutdown h false (context_pool_ w)); fold s w in Hh'; split; [set_solver | cbn].
      rewrite Hh in Hh'; injection Hh' as <-; done.
  - eapply ok_wrapper; [exact Hok | done | done | by intros id c | apply Hok | apply Hok |].
    intros a h' k Ha; destruct (ok_debts _ _ _ Hok _ _ _ Ha) as [(Hh' & _) | [(keys & Hj & _) | ?]];
      [fold s w in Hh'; congruence | by destruct (Hnc _ _ Hj) | by do 2 right].
Qed.

Lemma shutdown_close_ok n ds s i h p z code :
  ok n ds s -> ds !! i = Some (mkShutdown h false p) -> zookeeper_close (client s) h = Some (z, code) ->
  ok n (<[i := mkShutdown h true p]> ds) (mkWorld (wrapper s) z (log s)).
Proof.
  intros Hok Hi Hz; apply close_promise in Hz as [_ [Hv _]].
  eapply ok_wrapper; [exact Hok | done | done | apply Hok | | apply Hok |].
  - intros d [j [(_ & <- & _) | [_ Hj]]%list_lookup_insert_Some]%list_elem_of_lookup_1; cbn.
    + apply (ok_pools _ _ _ Hok (mkShutdown h false p)); by eapply list_elem_of_lookup_2.
    + apply (ok_pools _ _ _ Hok); by eapply list_elem_of_lookup_2.
  - intros a h' k [Ha Hne]%Hv%map_lookup_filter_Some; cbn in Hne.
    destruct (ok_debts _ _ _ Hok _ _ _ Ha) as [? | [? | (d & [j Hd]%list_elem_of_lookup_1 & Hh & ?)]];
      [by left | by right; left | do 2 right].
    exists d; split; [|done]; apply list_elem_of_lookup; exists j; rewrite list_lookup_insert_ne; [done|].
    intros <-; rewrite Hi in Hd; injection Hd as <-; done.
Qed.

Lemma shutdown_return_ok n ds s i h p :
  ok n ds s -> ds !! i = Some (mkShutdown h true p) -> ok n (delete i ds) s.
Proof.
  intros Hok Hi; pose proof Hok as [? ? ? Hps ? Hd]; constructor; auto.
  - intros d [j Hj]%list_elem_of_lookup_1; apply Hps; apply list_elem_of_lookup.
    destruct (decide (j < i)%nat); [exists j; by rewrite list_lookup_delete_lt in Hj by lia|].
    exists (S j); by rewrite list_lookup_delete_ge in Hj by lia.
  - intros a h' k Ha; destruct (Hd _ _ _ Ha) as [? | [? | (d & [j Hj]%list_elem_of_lookup_1 & Hh & Hf & ?)]];
      [by left | by right; left | do 2 right].
    exists d; split; [|done]; apply list_elem_of_lookup.
    assert (j <> i) by (intros ->; rewrite Hi in Hj; injection Hj as <-; done).
    destruct (decide (j < i)%nat); [exists j; by rewrite list_lookup_delete_lt by lia|].
    exists (pred j); rewrite list_lookup_delete_ge by lia; by replace (S (pred j)) with j by lia.
Qed.

(** A call begins on a context that is alive. *)
Lemma call_step_ok n m h d :
  ok n (shutdowns m) (run_world m) ->
  step m (Call h d) <> UseAfterFree /\
  forall m', step m (Call h d) = Next m' -> ok n (shutdowns m') (run_world m').
Proof.
  intros Hok; cbn; destruct (zoo_deliver (client (run_world m)) h d) as [z|] eqn:Hz; [|by split].
  apply deliver_promise in Hz.
  destruct (dispatch_of d) as [a rn| |] eqn:Hd.
  - destruct (dispatch_calls _ _ _ Hd) as (k & _ & Hc); rewrite Hc in Hz; destruct Hz as [Ha [Hv _]].
    destruct (find_context_debt _ _ _ _ _ Hok Ha) as (c & -> & _); split; [done|]; intros m' [= <-]; cbn.
    eapply ok_wrapper; [exact Hok | done | done | apply Hok | apply Hok | apply Hok |].
    intros b h' k' [[<- [= <- <-]] | [_ Hb]]%Hv%lookup_insert_Some; by eapply Hok.
  - rewrite dispatch_no_call in Hz by (intros a rn; rewrite Hd; done).
    split; [done|]; intros m' [= <-]; by apply ok_client.
  - rewrite dispatch_no_call in Hz by (intros a rn; rewrite Hd; done).
    destruct d; (split; [done|]); try done; intros m' [= <-]; by apply ok_client.
Qed.

(** A call ends on it, and then it may go. *)
Lemma return_step_ok n m h a :
  ok n (shutdowns m) (run_world m) ->
  step m (Return h a) <> UseAfterFree /\
  forall m', step m (Return h a) = Next m' -> ok n (shutdowns m') (run_world m').
Proof.
  intros Hok; cbn; destruct (zoo_return (client (run_world m)) h a) as [z|] eqn:Hz; [|by split].
  apply return_promise in Hz as [Ha [Hv _]].
  destruct (find_context_debt _ _ _ _ _ Hok Ha) as (c & -> & Hca & Hck); split; [done|]; intros m' [= <-]; cbn.
  eapply ok_wrapper; [exact Hok | done | done | apply pool_ok_delete, Hok | apply Hok | apply Hok |].
  intros b h' k' [Hne Hb]%Hv%lookup_delete_Some.
  assert (Hkey : id_ c <> key b) by (rewrite Hck; intros ?%key_inj; congruence).
  destruct (ok_debts _ _ _ Hok _ _ _ Hb) as [(?&Hh&?) | [(keys&?&Hh) | ?]]; [left | right; left | by do 2 right].
  - repeat split; auto; unfold holds; cbn; by rewrite lookup_delete_ne.
  - exists keys; split; auto; unfold holds; cbn; by rewrite lookup_delete_ne.
Qed.

Lemma step_ok n m x :
  Z.of_nat (n + 2)%nat < 2 ^ 64 -> ok n (shutdowns m) (run_world m) -> careful m x ->
  step m x <> UseAfterFree /\
  forall m', step m x = Next m' -> ok (n + 2)%nat (shutdowns m') (run_world m').
Proof.
  intros Hn Hok Hcare.
  destruct x as [q | | | | | | i | i | h d | h a |].
  7-10: apply (ok_mono n (n + 2)%nat) in Hok; [|lia].
  - split; [done|]; intros m' [= <-]; by apply (run_api_ok n).
  - apply (ok_mono n (n + 2)%nat) in Hok; [|lia].
    cbn; destruct (finalize_thread_ (wrapper (run_world m))) as [[h keys [| |]]|] eqn:Hj; (split; [done|]); try done;
      intros m' [= <-]; cbn; [|done].
    eapply ok_wrapper; [exact Hok | done | done | apply Hok | apply Hok | done |].
    intros a h' k Ha; destruct (ok_debts _ _ _ Hok _ _ _ Ha) as [(?&?&?) | [(?&?&?) | ?]];
      [left; by repeat split | congruence | by do 2 right].
  - apply (ok_mono n (n + 2)%nat) in Hok; [|lia].
    cbn; destruct (joined m); [by split|]; destruct (Connect (run_world m)) as [r s'] eqn:Hc.
    apply (Connect_ok _ _ _ _ _ Hok) in Hc; destruct r; (split; [done|]); intros m' [= <-]; done.
  - apply (ok_mono n (n + 2)%nat) in Hok; [|lia].
    cbn; destruct (finalize_thread_ (wrapper (run_world m))) as [[h keys [| |]]|] eqn:Hj; try by split.
    destruct (zookeeper_close (client (run_world m)) h) as [[z code]|] eqn:Hz; (split; [done|]); intros m' [= <-].
    by eapply finalize_close_ok.
  - apply (ok_mono n (n + 2)%nat) in Hok; [|lia].
    cbn; destruct (finalize_thread_ (wrapper (run_world m))) as [[h keys [| |]]|] eqn:Hj; try by split.
    split; [done|]; intros m' [= <-]; by apply finalize_erase_ok.
  - apply (ok_mono n (n + 2)%nat) in Hok; [|lia]. split; [done|]; by apply shutdown_swap_ok.
  - cbn; destruct (shutdowns m !! i) as [[h [|] p]|] eqn:Hi; try by split.
    destruct (zookeeper_close (client (run_world m)) h) as [[z code]|] eqn:Hz; (split; [done|]); intros m' [= <-].
    by eapply shutdown_close_ok.
  - cbn; destruct (shutdowns m !! i) as [[h [|] p]|] eqn:Hi; try by split.
    split; [done|]; intros m' [= <-]; by eapply shutdown_return_ok.
  - by apply call_step_ok.
  - by apply return_step_ok.
  - split; [done|]; intros m' [= <-]; apply ok_client; [|apply elapse_promise]. by apply (ok_mono n); [lia|].
Qed.

(** A sequence of steps in which no [Shutdown] overtakes a finalizing thread. *)
Fixpoint careful_run m (xs : list (action (L := L))) : Prop :=
  match xs with
  | [] => True
  | x :: xs => careful m x /\ match step m x with Next m' => careful_run m' xs | _ => True end
  end.

Lemma run_ok xs : forall n m,
  Z.of_nat (n + 2 * length xs)%nat < 2 ^ 64 -> ok n (shutdowns m) (run_world m) -> careful_run m xs ->
  run m xs <> UseAfterFree /\
  forall m', run m xs = Next m' -> ok (n + 2 * length xs)%nat (shutdowns m') (run_world m').
Proof.
  induction xs as [|x xs IH]; intros n m Hn Hok Hc.
  - split; [done|]; intros m' [= <-]; apply (ok_mono n); [lia | done].
  - cbn [length] in *; destruct Hc as [Hc Hcs]; cbn [run].
    destruct (step_ok n m x ltac:(lia) Hok Hc) as [Hu Hs].
    destruct (step m x) as [m1| | |]; [|by split..].
    replace (n + 2 * S (length xs))%nat with (n + 2 + 2 * length xs)%nat in * by lia.
    apply IH; [lia | by apply Hs | done].
Qed.

Lemma start_machine_ok remote watcher t z : ledger z = ∅ -> ok 0%nat (shutdowns (start (L := L) remote watcher t z)) (run_world (start remote watcher t z)).
Proof. intros Hz; constructor; cbn; [done | lia | by intros ? ? | set_solver | done | by rewrite Hz]. Qed.

(** ** Answers *)

(** The calls of the closure of a context. *)
Definition answers (a : addr) m : nat := length (filter (fun e => e.1 = Some a) (log (run_world m))).

(** What a step does to a context that exists: nothing that the requester sees, or the
    call of its closure. *)
Inductive fate (a : addr) m m' : Prop :=
| Untouched :
    answers a m' = answers a m ->
    (forall v, ledger (client (run_world m')) !! a = Some v -> ledger (client (run_world m)) !! a = Some v) ->
    (forall h, ledger (client (run_world m)) !! a = Some (h, Pending) -> ledger (client (run_world m')) !! a = Some (h, Pending)) ->
    fate a m m'
| Answered h k c :
    c ∈ contexts m -> ctx_addr c = a -> k <> Called ->
    answers a m' = (answers a m + match callback_ c with Some _ => 1 | None => 0 end)%nat ->
    ledger (client (run_world m)) !! a = Some (h, k) -> ledger (client (run_world m')) !! a = Some (h, Called) ->
    fate a m m'.

Lemma untouched_client a m m' :
  log (run_world m') = log (run_world m) -> evolves (ledger (client (run_world m))) (ledger (client (run_world m'))) ->
  fate a m m'.
Proof.
  intros Hl [Hf Hk]; apply Untouched; [unfold answers; by rewrite Hl | auto | intros h; by apply Hk].
Qed.

(** The log entries of a dispatched delivery. *)
Lemma dispatch_log (d : delivery) a rn c :
  dispatch_of (L := L) d = Deref a rn ->
  length (filter (fun e : option addr * invocation => e.1 = Some (ctx_addr c)) (rn c)) =
    match callback_ c with Some _ => 1%nat | None => 0%nat end /\
  forall b, b <> ctx_addr c -> filter (fun e : option addr * invocation => e.1 = Some b) (rn c) = [].
Proof.
  assert (Hi : forall g, length (filter (fun e : option addr * invocation => e.1 = Some (ctx_addr c)) (invoke (L := L) c g)) =
      match callback_ c with Some _ => 1%nat | None => 0%nat end /\
      forall b, b <> ctx_addr c -> filter (fun e : option addr * invocation => e.1 = Some b) (invoke c g) = []).
  { intros g; unfold invoke; destruct (callback_ c); [|done]; split; [by rewrite filter_cons_True | intros b Hb].
    rewrite filter_cons_False; [done | cbn; congruence]. }
  destruct d as [| | | | ? ? [] ? | |]; cbn; try (intros [= <- <-]; apply Hi).
  destruct (_ =? _); [done|]; intros [= <- <-]; apply Hi.
Qed.

Lemma answers_app a m w z l :
  answers a (put (mkWorld w z (log (run_world m) ++ l)) m) = (answers a m + length (filter (fun e => e.1 = Some a) l))%nat.
Proof. unfold answers; cbn; by rewrite list.filter_app, length_app. Qed.

(** Entries without a context. *)
Lemma filter_none a (l : list (option addr * invocation (L := L))) :
  (forall e, e ∈ l -> e.1 = None) -> filter (fun e => e.1 = Some a) l = [].
Proof.
  induction l as [|e l IH]; intros Hl; [done|].
  rewrite filter_cons_False; [apply IH; intros; apply Hl; set_solver | rewrite (Hl e) by set_solver; done].
Qed.

Lemma connect_init_fate a s r s' ds j ds0 j0 w0 :
  connect_init s = (r, s') -> fate a (mkMachine (mkWorld w0 (client s) (log s)) ds0 j0) (mkMachine s' ds j).
Proof.
  unfold connect_init.
  destruct (zookeeper_init (client s) (zremote_ (wrapper s)) (zrecv_timeout_ (wrapper s))) as [z [h|err]] eqn:Hz;
    intros [= <- <-]; (assert (evolves (ledger (client s)) (ledger z)) as He
      by (by eapply init_promise)).
  - destruct He as [Hf Hk]; apply Untouched; cbn; [|auto | intros h0; by apply Hk].
    unfold answers; cbn; rewrite list.filter_app, length_app, (filter_none _ (map _ _)); [cbn; lia|].
    intros e (f & <- & _)%list_elem_of_In%in_map_iff; done.
  - by apply untouched_client.
Qed.

Lemma call_fate n m h d m' a :
  ok n (shutdowns m) (run_world m) -> step m (Call h d) = Next m' -> fate a m m'.
Proof.
  intros Hok; cbn; destruct (zoo_deliver (client (run_world m)) h d) as [z|] eqn:Hz; [|done].
  apply deliver_promise in Hz; destruct (dispatch_of d) as [b rn| |] eqn:Hd.
  - destruct (dispatch_calls _ _ _ Hd) as (k & Hk & Hc); rewrite Hc in Hz; destruct Hz as [Hb [Hf Hkeep]].
    destruct (find_context_debt _ _ _ _ _ Hok Hb) as (c & Hfc & <- & _); rewrite Hfc; intros [= <-].
    destruct (dispatch_log _ _ _ c Hd) as [Hl1 Hl2].
    destruct (decide (a = ctx_addr c)) as [->|Hne].
    + eapply (Answered _ _ _ h k c); [by eapply find_context_addr | done | done | | done |].
      * rewrite answers_app; by rewrite Hl1.
      * apply Hkeep; [done | apply lookup_insert_eq].
    + apply Untouched.
      * rewrite answers_app; rewrite Hl2 by congruence; cbn; lia.
      * intros v Hv%Hf; rewrite lookup_insert_ne in Hv by congruence; exact Hv.
      * intros h' Ha; apply Hkeep; [done|]; by rewrite lookup_insert_ne by congruence.
  - rewrite dispatch_no_call in Hz by (intros ? ?; rewrite Hd; done).
    intros [= <-]; by apply untouched_client.
  - rewrite dispatch_no_call in Hz by (intros ? ?; rewrite Hd; done).
    destruct d as [| | | | | |ty st p]; try done; intros [= <-]; destruct Hz as [Hf Hk];
      apply Untouched; [|cbn; auto | cbn; intros h'; by apply Hk].
    rewrite answers_app; rewrite filter_none; [cbn; lia|].
    intros e; unfold GlobalZooWatcher; destruct (watcher_ _); set_solver.
Qed.

Lemma close_fate a m m' h code :
  zookeeper_close (client (run_world m)) h = Some (client (run_world m'), code) -> log (run_world m') = log (run_world m) ->
  fate a m m'.
Proof.
  intros [Hp [Hf Hk]]%close_promise Hl; apply Untouched; [unfold answers; by rewrite Hl | |].
  - by intros v [? _]%Hf%map_lookup_filter_Some.
  - intros h' Ha; apply Hk; [done|]; apply map_lookup_filter_Some; split; [done | cbn; intros ->].
    by apply Hp in Ha.
Qed.

(** Every step, for the contexts that exist before it. *)
Lemma step_fate n m x m' a :
  Z.of_nat (n + 2)%nat < 2 ^ 64 -> ok n (shutdowns m) (run_world m) ->
  (forall q, x = Api q -> (a < next_addr (wrapper (run_world m)))%nat) ->
  step m x = Next m' -> fate a m m'.
Proof.
  intros Hn Hok Ha; destruct x as [q | | | | | | i | i | h d | h b |].
  - intros [= <-]; destruct (run_api_ok n (shutdowns m) (run_world m) q Hn Hok) as [_ [Fl _ Ff Fk _]].
    specialize (Ha q eq_refl); apply Untouched; cbn; [by unfold answers; cbn; rewrite Fl | eauto | intros h; by apply Fk].
  - cbn; destruct (finalize_thread_ (wrapper (run_world m))) as [[h keys [| |]]|]; try done;
      intros [= <-]; by apply untouched_client.
  - cbn; destruct (joined m); [done|]; destruct (Connect (run_world m)) as [r s'] eqn:Hc.
    intros Hs; assert (m' = mkMachine s' (shutdowns m) n0) as -> by (destruct r; congruence); clear Hs.
    destruct m as [[w z l] ds j]; unfold Connect in Hc; cbn in *.
    destruct (zhandle_ w) as [h|]; [|by eapply connect_init_fate in Hc].
    destruct (0 <? zoo_state z h); [injection Hc as _ <-; by apply untouched_client|].
    destruct (finalize_thread_ w); [injection Hc as _ <-; by apply untouched_client|].
    by eapply connect_init_fate in Hc.
  - cbn; destruct (finalize_thread_ (wrapper (run_world m))) as [[h keys [| |]]|] eqn:Hj; try done.
    destruct (zookeeper_close (client (run_world m)) h) as [[z code]|] eqn:Hz; [|done].
    intros [= <-]; by eapply close_fate.
  - cbn; destruct (finalize_thread_ (wrapper (run_world m))) as [[h keys [| |]]|] eqn:Hj; try done.
    intros [= <-]; by apply untouched_client.
  - intros [= <-]; destruct (zhandle_ (wrapper (run_world m))); by apply untouched_client.
  - cbn; destruct (shutdowns m !! i) as [[h [|] p]|] eqn:Hi; try done.
    destruct (zookeeper_close (client (run_world m)) h) as [[z code]|] eqn:Hz; [|done].
    intros [= <-]; by eapply close_fate.
  - cbn; destruct (shutdowns m !! i) as [[h [|] p]|] eqn:Hi; try done.
    intros [= <-]; by apply untouched_client.
  - by eapply call_fate.
  - cbn; destruct (zoo_return (client (run_world m)) h b) as [z|] eqn:Hz; [|done].
    apply return_promise in Hz as [Hb [Hf Hk]]; destruct (find_context m b); [|done]; intros [= <-].
    apply Untouched; cbn; [done | by intros v [_ ?]%Hf%lookup_delete_Some|].
    intros h' Hp; apply Hk; [done|]; rewrite lookup_delete_ne; [done | congruence].
  - intros [= <-]; apply untouched_client; [done | apply elapse_promise].
Qed.

(** Contexts come from the pool or a held pool. *)
Lemma elem_of_contexts m c :
  c ∈ contexts m <->
  (exists id, context_pool_ (wrapper (run_world m)) !! id = Some c) \/
  (exists d id, d ∈ shutdowns m /\ old_pool d !! id = Some c).
Proof.
  assert (Hp : forall p, c ∈ (map_to_list p).*2 <-> exists id, p !! id = Some c).
  { intros p; rewrite list_elem_of_fmap; split.
    - intros ([id b] & -> & Hb%elem_of_map_to_list); by exists id.
    - intros [id Hid]; exists (id, c); split; [done | by apply elem_of_map_to_list]. }
  unfold contexts; rewrite elem_of_app, Hp; apply or_iff_compat_l.
  rewrite list_elem_of_In, in_concat; split.
  - intros (l & (d & <- & Hd%list_elem_of_In)%in_map_iff & Hc%list_elem_of_In%Hp).
    destruct Hc as [id Hid]; by exists d, id.
  - intros (d & id & Hd & Hid); exists (map_to_list (old_pool d)).*2; split.
    + apply (in_map (fun d => (map_to_list (old_pool d)).*2)); by apply list_elem_of_In.
    + apply list_elem_of_In, Hp; by exists id.
Qed.

Lemma connect_init_wrapper s r s' :
  connect_init s = (r, s') ->
  context_pool_ (wrapper s') = context_pool_ (wrapper s) /\ next_addr (wrapper s') = next_addr (wrapper s).
Proof.
  unfold connect_init; destruct (zookeeper_init _ _ _) as [z [h|err]]; by intros [= <- <-].
Qed.

Lemma Connect_wrapper s r s' :
  Connect s = (r, s') ->
  context_pool_ (wrapper s') = context_pool_ (wrapper s) /\ next_addr (wrapper s') = next_addr (wrapper s).
Proof.
  unfold Connect; destruct (zhandle_ _) as [h|]; [|by apply connect_init_wrapper].
  destruct (0 <? _); [by intros [= _ <-]|].
  destruct (finalize_thread_ _); [by intros [= _ <-]|]; by intros ?%connect_init_wrapper.
Qed.

(** No step makes a context anew, and the allocator goes on. *)
Lemma step_contexts n m x m' :
  Z.of_nat (n + 2)%nat < 2 ^ 64 -> ok n (shutdowns m) (run_world m) -> step m x = Next m' ->
  (next_addr (wrapper (run_world m)) <= next_addr (wrapper (run_world m')))%nat /\
  forall c, c ∈ contexts m' -> (ctx_addr c < next_addr (wrapper (run_world m)))%nat -> c ∈ contexts m.
Proof.
  intros Hn Hok.
  assert (Hsame : forall m',
    (forall id c, context_pool_ (wrapper (run_world m')) !! id = Some c -> exists id, context_pool_ (wrapper (run_world m)) !! id = Some c) ->
    next_addr (wrapper (run_world m')) = next_addr (wrapper (run_world m)) ->
    (forall d id c, d ∈ shutdowns m' -> old_pool d !! id = Some c -> c ∈ contexts m) ->
    (next_addr (wrapper (run_world m)) <= next_addr (wrapper (run_world m')))%nat /\
    forall c, c ∈ contexts m' -> (ctx_addr c < next_addr (wrapper (run_world m)))%nat -> c ∈ contexts m).
  { intros m1 Hp Hs Hd; split; [lia|]; intros c [[id Hc] | (d & id & Hi & Hc)]%elem_of_contexts _; [|eauto].
    apply elem_of_contexts; left; eauto. }
  assert (Hold : forall d id c, d ∈ shutdowns m -> old_pool d !! id = Some c -> c ∈ contexts m).
  { intros d id c Hd Hc; apply elem_of_contexts; right; eauto. }
  destruct x as [q | | | | | | i | i | h d | h b |].
  - intros [= <-]; destruct (run_api_ok n (shutdowns m) (run_world m) q Hn Hok) as [Hok' [_ Fn _ _ Fp]].
    split; [exact Fn|].
    intros c [[id Hc] | (d & id & Hi & Hc)]%elem_of_contexts Hlt; [|by eapply Hold].
    cbn in Hc; destruct (ok_pool _ _ _ Hok' _ _ Hc) as (_ & -> & _); rewrite Fp in Hc by done.
    apply elem_of_contexts; left; eauto.
  - cbn; destruct (finalize_thread_ (wrapper (run_world m))) as [[h keys [| |]]|]; try done; intros [= <-]; apply Hsame; cbn; eauto.
  - cbn; destruct (joined m); [done|]; destruct (Connect (run_world m)) as [r s'] eqn:Hc.
    intros Hs; assert (m' = mkMachine s' (shutdowns m) n0) as -> by (destruct r; congruence); clear Hs.
    apply Connect_wrapper in Hc as [Hp Hna].
    apply Hsame; cbn; [rewrite Hp; eauto | done | exact Hold].
  - cbn; destruct (finalize_thread_ (wrapper (run_world m))) as [[h keys [| |]]|] eqn:Hj; try done.
    destruct (zookeeper_close (client (run_world m)) h) as [[z code]|] eqn:Hz; [|done]; intros [= <-]; apply Hsame; cbn; eauto.
  - cbn; destruct (finalize_thread_ (wrapper (run_world m))) as [[h keys [| |]]|] eqn:Hj; try done.
    intros [= <-]; apply Hsame; cbn; [|done|exact Hold].
    intros id c; rewrite foldl_delete_lookup; case_decide; [done | eauto].
  - intros [= <-]; destruct (zhandle_ (wrapper (run_world m))); apply Hsame; cbn; [by intros ? ? ?%lookup_empty_Some | done | | by intros ? ? ?%lookup_empty_Some | done | exact Hold].
    intros d id c [Hd | ->%list_elem_of_singleton]%elem_of_app Hc; [by eapply Hold|]; apply elem_of_contexts; left; eauto.
  - cbn; destruct (shutdowns m !! i) as [[h [|] p]|] eqn:Hi; try done.
    destruct (zookeeper_close (client (run_world m)) h) as [[z code]|] eqn:Hz; [|done]; intros [= <-]; apply Hsame; cbn; eauto.
    intros d id c [j [(_ & <- & _) | [_ Hj]]%list_lookup_insert_Some]%list_elem_of_lookup_1 Hc;
      [eapply (Hold (mkShutdown h false p)) | eapply Hold]; eauto using list_elem_of_lookup_2.
  - cbn; destruct (shutdowns m !! i) as [[h [|] p]|] eqn:Hi; try done; intros [= <-]; apply Hsame; cbn; eauto.
    intros d id c [j Hj]%list_elem_of_lookup_1 Hc; eapply (Hold d id c); [|done].
    apply list_elem_of_lookup; destruct (decide (j < i)%nat); [exists j; by rewrite list_lookup_delete_lt in Hj by lia|].
    exists (S j); by rewrite list_lookup_delete_ge in Hj by lia.
  - cbn; destruct (zoo_deliver _ _ _); [|done]; destruct (dispatch_of d); [destruct (find_context m a)| |destruct d]; intros [= <-];
      apply Hsame; cbn; eauto.
  - cbn; destruct (zoo_return _ _ _); [|done]; destruct (find_context m b); intros [= <-]; apply Hsame; cbn; eauto.
    intros id c' [_ ?]%lookup_delete_Some; eauto.
  - intros [= <-]; apply Hsame; cbn; eauto.
Qed.

(** *** From the request to the answer *)

(** No closure is called for a context that was not made. *)
Definition unmade_silent m : Prop := forall a, (next_addr (wrapper (run_world m)) <= a)%nat -> answers a m = 0%nat.

Lemma contexts_made n m c :
  ok n (shutdowns m) (run_world m) -> c ∈ contexts m -> (ctx_addr c < next_addr (wrapper (run_world m)))%nat.
Proof.
  intros Hok [[id Hc] | (d & id & Hd & Hc)]%elem_of_contexts; [by eapply (ok_pool _ _ _ Hok) | by eapply (ok_pools _ _ _ Hok)].
Qed.

Lemma step_silent n m x m' :
  Z.of_nat (n + 2)%nat < 2 ^ 64 -> ok n (shutdowns m) (run_world m) -> unmade_silent m ->
  step m x = Next m' -> unmade_silent m'.
Proof.
  intros Hn Hok Hs Hx a Ha; destruct (step_contexts _ _ _ _ Hn Hok Hx) as [Hle _].
  assert (Hq : (exists q, x = Api q) \/ forall q, x <> Api q) by (destruct x; eauto; right; discriminate).
  destruct Hq as [[q ->] | Hnq].
  - injection Hx as <-; destruct (run_api_ok n (shutdowns m) (run_world m) q Hn Hok) as [_ [Fl _ _ _ _]].
    unfold answers; cbn; rewrite Fl; apply Hs; lia.
  - destruct (step_fate n m x m' a Hn Hok) as [-> _ _ | h k c Hc <- _ _ _ _]; [by intros q Hq; destruct (Hnq q Hq) | done | apply Hs; lia |].
    pose proof (contexts_made _ _ _ Hok Hc); lia.
Qed.

(** The request waits and was not answered, or it was answered once and will not be again. *)
Definition served (a : addr) (h : zhandle) m : Prop :=
  (ledger (client (run_world m)) !! a = Some (h, Pending) /\ answers a m = 0%nat) \/
  ((forall v, ledger (client (run_world m)) !! a = Some v -> v.2 = Called) /\ answers a m = 1%nat).
Definition owner (a : addr) m : Prop := forall c, c ∈ contexts m -> ctx_addr c = a -> is_Some (callback_ c).

Lemma step_served n m x m' a h :
  Z.of_nat (n + 2)%nat < 2 ^ 64 -> ok n (shutdowns m) (run_world m) -> (a < next_addr (wrapper (run_world m)))%nat ->
  owner a m -> served a h m -> step m x = Next m' -> served a h m' /\ owner a m'.
Proof.
  intros Hn Hok Ha Hown Hs Hx; destruct (step_contexts _ _ _ _ Hn Hok Hx) as [_ Hc].
  split; [|intros c Hin <-; by apply (Hown c); auto].
  destruct (step_fate n m x m' a Hn Hok) as [Hl Hf Hk | h' k c Hin Hca Hk Hl Hb Hb']; [done | done | |].
  - destruct Hs as [[Hp H0a] | [Hd H1a]]; [left; rewrite Hl; auto | right; rewrite Hl; auto].
  - destruct Hs as [[Hp H0a] | [Hd H1a]]; [|apply Hd in Hb; done].
    right; split; [intros v; rewrite Hb'; by intros [= <-]|].
    destruct (Hown c Hin Hca) as [f Hcf]; rewrite Hl, H0a, Hcf; done.
Qed.

Lemma run_served xs : forall n m m' a h,
  Z.of_nat (n + 2 * length xs)%nat < 2 ^ 64 -> ok n (shutdowns m) (run_world m) -> careful_run m xs ->
  (a < next_addr (wrapper (run_world m)))%nat -> owner a m -> served a h m -> run m xs = Next m' -> served a h m'.
Proof.
  induction xs as [|x xs IH]; intros n m m' a h Hn Hok Hc Ha Hown Hs; cbn [run]; [by intros [= <-]|].
  cbn [length] in *; destruct Hc as [Hc Hcs]; destruct (step m x) as [m1| | |] eqn:Hx; try done.
  destruct (step_ok n m x ltac:(lia) Hok Hc) as [_ Hok1].
  destruct (step_served n m x m1 a h ltac:(lia) Hok Ha Hown Hs Hx) as [Hs1 Hown1].
  destruct (step_contexts n m x m1 ltac:(lia) Hok Hx) as [Hle _].
  eapply (IH (n + 2)%nat); eauto; lia.
Qed.

Lemma run_silent xs : forall n m m',
  Z.of_nat (n + 2 * length xs)%nat < 2 ^ 64 -> ok n (shutdowns m) (run_world m) -> careful_run m xs ->
  unmade_silent m -> run m xs = Next m' -> unmade_silent m'.
Proof.
  induction xs as [|x xs IH]; intros n m m' Hn Hok Hc Hs; cbn [run]; [by intros [= <-]|].
  cbn [length] in *; destruct Hc as [Hc Hcs]; destruct (step m x) as [m1| | |] eqn:Hx; try done.
  destruct (step_ok n m x ltac:(lia) Hok Hc) as [_ Hok1].
  eapply (IH (n + 2)%nat); eauto; [lia | eapply step_silent; eauto; lia].
Qed.

(** The completion closure of an asynchronous operation, and the place of its context
    among those the operation makes. *)
Definition completion_api (q : api (L := L)) : option (option L * nat) :=
  match q with
  | ACreateAsync _ _ cb _ _ | ADeleteAsync _ cb _ | ASetAsync _ _ cb _ | AGetAsync _ cb _ | AGetAsyncWatch _ cb _
  | AExistsAsync _ cb _ => Some (cb, 0%nat)
  | AExistsAsyncWatch _ cb _ | AGetChildrenAsync _ cb _ => Some (cb, 1%nat)
  | _ => None
  end.

(** What an accepted request leaves. *)
Definition accepted s (h : zhandle) (a : addr) (cb : option L) : Prop :=
  ledger (client s) !! a = Some (h, Pending) /\ exists c, context_pool_ (wrapper s) !! key a = Some c /\ callback_ c = cb.

Lemma one_context_accepted n ds s cb h (q : addr -> request) s' :
  Z.of_nat n < 2 ^ 64 -> (next_addr (wrapper s) < n)%nat -> ok n ds s -> zhandle_ (wrapper s) = Some h ->
  (forall a, completion_of (q a) = Some a /\ watcher_of (q a) = None) ->
  (c ← ZKWrapperContext_Create cb; r ← zoo_call h (q (ctx_addr c));
    when (negb (rc r =? ZOK)) (RemoveContext c);; mret (ZKWrapper_zooCodeToZKCode (rc r))) s = (ZK_OK, s') ->
  accepted s' h (next_addr (wrapper s)) cb.
Proof.
  intros Hn Hlt Hok Hh Hq; unfold mbind, act_bind.
  destruct (ZKWrapperContext_Create cb s) as [c s1] eqn:Hcreate.
  eapply create_ok in Hcreate as (Hok1 & Hr & Hcb & Ha & _ & _ & _ & Hh1 & _ & _); [|eassumption..].
  destruct (zoo_call h (q (ctx_addr c)) s1) as [r s2] eqn:Hcall.
  eapply call_ok in Hcall as (_ & Hw & _ & _ & Hp); [|eassumption|congruence|].
  2:{ intros a Haa; exists c; split; [done|]; destruct (Hq (ctx_addr c)), Haa; congruence. }
  destruct (when (negb (rc r =? ZOK)) (RemoveContext c) s2) as [u s3] eqn:Hwhen; intros [= Hrc <-].
  apply (proj1 (zk_code_ok _)) in Hrc; rewrite Hrc in Hwhen; injection Hwhen as _ <-.
  split; [apply Hp; [rewrite <- Ha; apply Hq | done]|].
  exists c; split; [|done]; rewrite Hw, <- Ha; destruct Hr as (Hc & Hk & _); by rewrite <- Hk.
Qed.

Lemma two_context_accepted n ds s cb1 cb2 h (q : addr -> addr -> request) s' :
  Z.of_nat n < 2 ^ 64 -> (S (next_addr (wrapper s)) < n)%nat -> ok n ds s -> zhandle_ (wrapper s) = Some h ->
  (forall a b x, completion_of (q a b) = Some x \/ watcher_of (q a b) = Some x -> x = a \/ x = b) ->
  (c1 ← ZKWrapperContext_Create cb1; c2 ← ZKWrapperContext_Create cb2; r ← zoo_call h (q (ctx_addr c1) (ctx_addr c2));
    when (negb (rc r =? ZOK)) (RemoveContext c1;; RemoveContext c2);; mret (ZKWrapper_zooCodeToZKCode (rc r))) s = (ZK_OK, s') ->
  ((forall a b, completion_of (q a b) = Some a) -> accepted s' h (next_addr (wrapper s)) cb1) /\
  ((forall a b, completion_of (q a b) = Some b) -> accepted s' h (S (next_addr (wrapper s))) cb2).
Proof.
  intros Hn Hlt Hok Hh Hq; unfold mbind, act_bind.
  destruct (ZKWrapperContext_Create cb1 s) as [c1 s1] eqn:Hcr1.
  eapply create_ok in Hcr1 as (Hok1 & Hr1 & Hb1 & Ha1 & Hn1 & _ & _ & Hh1 & _ & _); [|eassumption|lia|eassumption].
  destruct (ZKWrapperContext_Create cb2 s1) as [c2 s2] eqn:Hcr2.
  eapply create_ok in Hcr2 as (Hok2 & Hr2 & Hb2 & Ha2 & Hn2 & _ & _ & Hh2 & _ & Hkeep); [|eassumption|lia|eassumption].
  destruct (zoo_call h (q (ctx_addr c1) (ctx_addr c2)) s2) as [r s3] eqn:Hcall.
  eapply call_ok in Hcall as (_ & Hw & _ & _ & Hp); [|eassumption|congruence|].
  2:{ intros a Ha; destruct (Hq _ _ _ Ha) as [->| ->]; eauto. }
  destruct (when (negb (rc r =? ZOK)) _ s3) as [u s4] eqn:Hwhen; intros [= Hrc <-].
  apply (proj1 (zk_code_ok _)) in Hrc; rewrite Hrc in Hwhen; injection Hwhen as _ <-.
  apply Hkeep in Hr1; destruct Hr1 as (Hc1 & Hk1 & _), Hr2 as (Hc2 & Hk2 & _).
  split; intros Hcomp; (split; [apply Hp; [rewrite Hcomp; congruence | done]|]).
  - exists c1; split; [|done]; by rewrite Hw, <- Ha1, <- Hk1.
  - exists c2; split; [|done]; by rewrite Hw, <- Hn1, <- Ha2, <- Hk2.
Qed.

Lemma api_accepted n ds s q s' cb i :
  Z.of_nat (n + 2)%nat < 2 ^ 64 -> ok n ds s -> run_api q s = (ZK_OK, s') -> completion_api q = Some (cb, i) ->
  exists h, zhandle_ (wrapper s) = Some h /\ accepted s' h (i + next_addr (wrapper s))%nat cb.
Proof.
  intros Hn Hok; pose proof (ok_bound _ _ _ Hok) as Hb; apply (ok_mono _ (n + 2)%nat) in Hok; [|lia].
  assert (Hlt : (next_addr (wrapper s) < n + 2)%nat) by lia.
  assert (Hlt' : (S (next_addr (wrapper s)) < n + 2)%nat) by lia.
  assert (Hw : forall k, with_handle k s = (ZK_OK, s') -> exists h, zhandle_ (wrapper s) = Some h /\ k h s = (ZK_OK, s')).
  { intros k; unfold with_handle, mbind, act_bind, gets; destruct (zhandle_ (wrapper s)) as [h|]; [by exists h | done]. }
  assert (One : forall h (q : addr -> request) (cb : option L), zhandle_ (wrapper s) = Some h ->
      (forall a, completion_of (q a) = Some a /\ watcher_of (q a) = None) ->
      (c ← ZKWrapperContext_Create cb; r ← zoo_call h (q (ctx_addr c));
        when (negb (rc r =? ZOK)) (RemoveContext c);; mret (ZKWrapper_zooCodeToZKCode (rc r))) s = (ZK_OK, s') ->
      exists h, zhandle_ (wrapper s) = Some h /\ accepted s' h (0 + next_addr (wrapper s))%nat cb).
  { intros h q0 cb0 Hh Hq Hr; exists h; split; [done | by eapply one_context_accepted]. }
  destruct q as [ | p v cb0 e t | | p cb0 v | | p b cb0 v | | | p cb0 wt | p cb0 wt | | | p cb0 wt | p cb0 wt | | | p cb0 wt | | ];
    try done; intros (h & Hh & Hr)%Hw [= <- <-].
  - by apply (One h (zoo_acreate p v (create_flags e t))).
  - by apply (One h (zoo_adelete p v)).
  - by apply (One h (zoo_aset p b v)).
  - by apply (One h (zoo_aget p wt)).
  - exists h; split; [done|].
    by eapply (two_context_accepted _ _ _ _ _ _ (fun a b => zoo_awget p b a)) in Hr as [Ha _];
      [apply Ha | done.. | cbn; intros ? ? ? [?|?]; simplify_eq; auto].
  - by apply (One h (zoo_aexists p wt)).
  - exists h; split; [done|].
    by eapply (two_context_accepted _ _ _ _ _ _ (zoo_awexists p)) in Hr as [_ Ha];
      [apply Ha | done.. | cbn; intros ? ? ? [?|?]; simplify_eq; auto].
  - exists h; split; [done|].
    by eapply (two_context_accepted _ _ _ _ _ _ (zoo_awget_children2 p)) in Hr as [_ Ha];
      [apply Ha | done.. | cbn; intros ? ? ? [?|?]; simplify_eq; auto].
Qed.

End safety.

(** ** Theorems *)

(** C25: for any client that keeps its promises, under every interleaving of operations,
    reconnections, shutdowns and client callbacks, no context is used after it was freed,
    provided that no [Shutdown] overtakes the thread that closes a replaced handle and that
    fewer than 2^64 contexts are made. *)
Theorem zk_no_use_after_free {L} `{ZooPromises} remote (watcher : option L) t z xs :
  ledger z = ∅ -> Z.of_nat (2 * length xs) < 2 ^ 64 -> careful_run (start remote watcher t z) xs ->
  run (start remote watcher t z) xs <> UseAfterFree.
Proof. intros Hz Hn Hc; by apply (run_ok xs 0%nat); [| apply start_machine_ok |]. Qed.

Lemma run_app {L} `{ZooConsts} `{ZooClient} xs ys : forall m : machine (L := L),
  run m (xs ++ ys) = match run m xs with Next m' => run m' ys | o => o end.
Proof. induction xs as [|x xs IH]; intros m; cbn; [done|]; destruct (step m x); auto. Qed.

Lemma careful_run_app {L} `{ZooConsts} `{ZooClient} xs ys : forall m : machine (L := L),
  careful_run m (xs ++ ys) -> careful_run m xs /\ forall m', run m xs = Next m' -> careful_run m' ys.
Proof.
  induction xs as [|x xs IH]; intros m; cbn.
  - intros Hc; split; [done|]; by intros m' [= <-].
  - intros [Hx Hc]; destruct (step m x) as [m1| | |]; [|by repeat split..].
    destruct (IH m1 Hc) as [? ?]; by repeat split.
Qed.

(** C26: for any client that keeps its promises, as long as no [Shutdown] overtakes the thread
    that closes a replaced handle and fewer than 2^64 contexts are made: the closure of an
    asynchronous request that the client has accepted is called at most once, whatever follows;
    as long as it was not called the client still owes the call; and before a close of its
    handle can return it was called.  (A [Shutdown] that overtakes that thread is in
    [shutdown_overtakes_finalize].) *)
Theorem zk_answered_once {L} `{ZooPromises} remote (watcher : option L) t z xs q ys f i m m' :
  ledger z = ∅ -> Z.of_nat (2 * (length xs + S (length ys))) < 2 ^ 64 ->
  careful_run (start remote watcher t z) (xs ++ Api q :: ys) ->
  run (start remote watcher t z) xs = Next m -> completion_api q = Some (Some f, i) ->
  (run_api q (run_world m)).1 = ZK_OK -> run (start remote watcher t z) (xs ++ Api q :: ys) = Next m' ->
  let a := (i + next_addr (wrapper (run_world m)))%nat in
  exists h, zhandle_ (wrapper (run_world m)) = Some h /\
    (answers a m' = 1%nat \/ (answers a m' = 0%nat /\ ledger (client (run_world m')) !! a = Some (h, Pending))) /\
    (is_Some (zookeeper_close (client (run_world m')) h) -> answers a m' = 1%nat).
Proof.
  intros Hz Hn Hcare Hxs Hq Hok1 Hrun a.
  destruct (careful_run_app _ _ _ Hcare) as [Hc1 Hc2]; specialize (Hc2 _ Hxs) as [_ Hc2].
  rewrite run_app, Hxs in Hrun; cbn [run step] in Hrun; cbn [step] in Hc2.
  set (m1 := put (run_api q (run_world m)).2 m) in *.
  destruct (run_ok xs 0%nat (start remote watcher t z)) as [_ Hok]; [lia | by apply start_machine_ok | done |].
  specialize (Hok m Hxs); cbn [Nat.add] in Hok.
  assert (Hsil : unmade_silent m).
  { eapply run_silent; [| by apply start_machine_ok | exact Hc1 | done | exact Hxs]; lia. }
  destruct (run_api q (run_world m)) as [code s1] eqn:Hapi; cbn in Hok1; subst code.
  destruct (api_accepted (2 * length xs)%nat (shutdowns m) (run_world m) q s1 (Some f) i) as (h & Hh & Hp & c & Hc & Hcb); [lia | done..|].
  pose proof (run_api_ok (2 * length xs)%nat (shutdowns m) (run_world m) q ltac:(lia) Hok) as [Hok' [Fl _ _ _ _]].
  rewrite Hapi in Hok', Fl; cbn [snd] in *.
  assert (Hs : served a h m').
  { eapply (run_served ys (2 * length xs + 2)%nat m1); [lia | exact Hok' | exact Hc2 | | | | exact Hrun].
    - by apply (debt_made _ _ _ _ _ _ Hok' Hp).
    - intros b [[id Hb] | (d & id & Hd & Hb)]%elem_of_contexts Hba; cbn in Hb.
      + destruct (ok_pool _ _ _ Hok' _ _ Hb) as (_ & -> & _); rewrite Hba in Hb; unfold a in Hb.
        rewrite Hc in Hb; injection Hb as <-; rewrite Hcb; by eexists.
      + destruct (ok_pools _ _ _ Hok _ Hd _ _ Hb) as (_ & _ & Hlt); unfold a in Hba; lia.
    - left; split; [exact Hp|]; unfold answers; cbn; rewrite Fl; apply Hsil; unfold a; lia. }
  exists h; split; [done|]; split; [destruct Hs as [[? ?]|[? ?]]; auto|].
  intros [[z' code] Hcl]; apply close_promise in Hcl as [Hcl _].
  destruct Hs as [[Hpend _]|[_ ?]]; [by apply Hcl in Hpend | done].
Qed.

(** ** A client *)

Module Client.

(** The values of the constants in the client's sources. *)
Lemma events_distinct : NoDup [1; 2; 3; 4; -1; -2].
Proof. apply NoDup_ListNoDup; repeat constructor; cbn; lia. Qed.
Lemma states_distinct : NoDup [1; 3; 2; -112; -113].
Proof. apply NoDup_ListNoDup; repeat constructor; cbn; lia. Qed.
Lemma live_states : 0 < 1 /\ 0 < 3 /\ 0 < 2.
Proof. lia. Qed.
Lemma dead_states : -112 < 0 /\ -113 < 0.
Proof. lia. Qed.
#[export] Instance consts : ZooConsts :=
  Build_ZooConsts 1 2 1 2 3 4 (-1) (-2) 1 3 2 (-112) (-113) events_distinct states_distinct live_states dead_states.

(** A client that accepts every request, opens handles in turn and reports no state; it
    keeps the ledger itself. *)
Record toy : Type := mkToy { led : gmap addr (zhandle * debt); next_handle : zhandle }.

Definition record (h : zhandle) (q : request) (l : gmap addr (zhandle * debt)) : gmap addr (zhandle * debt) :=
  let l := match watcher_of q with Some a => <[a := (h, Watching)]> l | None => l end in
  match completion_of q with Some a => <[a := (h, Pending)]> l | None => l end.

Definition toy_close (z : toy) (h : zhandle) : option (toy * Z) :=
  if decide (map_Forall (fun _ v => v.1 = h -> v.2 = Watching) (led z))
  then Some (mkToy (filter (fun p => p.2.1 <> h) (led z)) (next_handle z), ZOK) else None.
Definition toy_deliver (z : toy) (h : zhandle) (d : delivery) : option toy :=
  match calls d with
  | None => Some z
  | Some (a, k) => if decide (led z !! a = Some (h, k)) then Some (mkToy (<[a := (h, Called)]> (led z)) (next_handle z)) else None
  end.
Definition toy_return (z : toy) (h : zhandle) (a : addr) : option toy :=
  if decide (led z !! a = Some (h, Called)) then Some (mkToy (delete a (led z)) (next_handle z)) else None.

#[export] Instance toy_client : ZooClient := {
  zoo := toy;
  elapse z := z;
  zookeeper_init z _ _ := (mkToy (led z) (S (next_handle z)), inl (next_handle z));
  zookeeper_close := toy_close;
  zoo_perform z h q := (mkToy (record h q (led z)) (next_handle z), mkResponse ZOK [] [] new_ZKStatus []);
  zoo_state _ _ := 0;
  zoo_client_id _ h := Z.of_nat h;
  zoo_deliver := toy_deliver;
  zoo_return := toy_return
}.

Lemma record_from h q l a h' k :
  record h q l !! a = Some (h', k) ->
  l !! a = Some (h', k) \/ (h' = h /\ adds q (mkResponse ZOK [] [] new_ZKStatus []) a k).
Proof.
  unfold record, adds, watch_set; destruct (completion_of q) as [b|] eqn:Hc, (watcher_of q) as [w|] eqn:Hw;
    rewrite ?lookup_insert_Some; intuition (simplify_eq; auto 8).
Qed.

#[export] Instance promises : ZooPromises.
Proof.
  refine (Build_ZooPromises consts toy_client led _ _ _ _ _ _ _ _).
  - intros z; apply evolves_refl.
  - intros z r t z' h [= <- _]; apply evolves_refl.
  - intros z h q z' r a h' k [= <- <-]; apply record_from.
  - intros z h q z' r a h' k [= <- <-] Hk Hc Hw Hl; cbn; unfold record.
    destruct (completion_of q), (watcher_of q); by rewrite ?lookup_insert_ne by congruence.
  - intros z h q z' r a [= <- <-] _ Hc; cbn; unfold record; rewrite Hc; apply lookup_insert_eq.
  - intros z h d z'; cbn; unfold toy_deliver; destruct (calls d) as [[a k]|]; [|intros [= <-]; apply evolves_refl].
    case_decide; [|done]; intros [= <-]; split; [done | apply evolves_refl].
  - intros z h a z'; cbn; unfold toy_return; case_decide; [|done]; intros [= <-]; split; [done | apply evolves_refl].
  - intros z h z' code; cbn; unfold toy_close; case_decide as Hd; [|done]; intros [= <- _]; split; [|apply evolves_refl].
    intros a k Ha; by apply (Hd a (h, k)).
Defined.

(** The kinds of outcome, to be computed. *)
Inductive tag : Type := TNext | TNotEnabled | TUseAfterFree | TEnded.
Definition tag_of (o : outcome (L := nat)) : tag :=
  match o with Next _ => TNext | NotEnabled => TNotEnabled | UseAfterFree => TUseAfterFree | Ended => TEnded end.
Definition reached (m : machine (L := nat)) (o : outcome (L := nat)) : machine (L := nat) :=
  match o with Next m => m | _ => m end.
Lemma reached_Next m o : tag_of o = TNext -> o = Next (reached m o).
Proof. by destruct o. Qed.
Lemma tag_freed o : tag_of o = TUseAfterFree -> o = UseAfterFree.
Proof. by destruct o. Qed.
Lemma tag_ended o : tag_of o = TEnded -> o = Ended.
Proof. by destruct o. Qed.

Definition fresh : zoo := mkToy ∅ 0%nat.
Definition begin : machine (L := nat) := start [] None 3000 fresh.

(** A session is opened, a node deleted, the session replaced; the answer comes while the
    old handle is closed, and the wrapper is shut down in the end. *)
Definition day : list (action (L := nat)) :=
  [ConnectJoin; ConnectLocked; Api (ADeleteAsync [47] (Some 5%nat) (-1)); Api (AExistsWatch [47] (Some 6%nat));
   ConnectJoin; ConnectLocked; Api (AGetAsyncWatch [47] (Some 7%nat) (Some 8%nat));
   Call 0%nat (DVoid 0%nat (-116)); Return 0%nat 0%nat; FinalizeClose; FinalizeErase; ConnectJoin;
   Call 1%nat (DData 2%nat ZOK [65] new_ZKStatus); Call 1%nat (DWatch 3%nat 3 3 [47]); Return 1%nat 3%nat; Return 1%nat 2%nat;
   ShutdownSwap; ShutdownClose 0%nat; ShutdownReturn 0%nat].

End Client.

Import Client.

Lemma zk_no_use_after_free_witness :
  ledger fresh = ∅ /\ run begin day <> UseAfterFree.
Proof.
  split; [reflexivity|].
  apply (zk_no_use_after_free [] None 3000 fresh day); [reflexivity | vm_compute; reflexivity | vm_compute; tauto].
Defined.

Definition day_begin : list (action (L := nat)) := take 2 day.
Definition day_rest : list (action (L := nat)) := drop 3 day.
Definition at_request : machine (L := nat) := reached begin (run begin day_begin).
Definition at_end : machine (L := nat) := reached begin (run begin day).

Definition the_request : addr := (0 + next_addr (wrapper (run_world at_request)))%nat.

Lemma zk_answered_once_witness :
  exists h, zhandle_ (wrapper (run_world at_request)) = Some h /\
    (answers the_request at_end = 1%nat \/
     (answers the_request at_end = 0%nat /\ ledger (client (run_world at_end)) !! the_request = Some (h, Pending))) /\
    (is_Some (zookeeper_close (client (run_world at_end)) h) -> answers the_request at_end = 1%nat).
Proof.
  apply (zk_answered_once [] None 3000 fresh day_begin (ADeleteAsync [47] (Some 5%nat) (-1)) day_rest 5%nat 0%nat at_request at_end).
  - reflexivity.
  - reflexivity.
  - vm_compute; tauto.
  - apply reached_Next; vm_compute; reflexivity.
  - reflexivity.
  - vm_compute; reflexivity.
  - apply reached_Next; vm_compute; reflexivity.
Defined.

(** A [Shutdown] that does not wait for the finalizing thread frees the contexts of the
    handle that the thread still closes; the answer that the client then gives uses one of
    them.  [HeartbeatReporter::Close] makes this call. *)
Lemma shutdown_overtakes_finalize :
  run begin [ConnectJoin; ConnectLocked; Api (ADeleteAsync [47] (Some 5%nat) (-1)); ConnectJoin; ConnectLocked;
    ShutdownSwap; ShutdownClose 0%nat; ShutdownReturn 0%nat; Call 0%nat (DVoid 0%nat (-116))] = UseAfterFree.
Proof. apply tag_freed; vm_compute; reflexivity. Qed.

(** Two threads in [Connect] that have both joined before either takes the lock: the
    second replaces the handle that the first has just opened, which is not yet alive, and
    assigns the thread object while it holds a thread, which ends the process. *)
Lemma two_connects_end_process :
  run begin [ConnectJoin; ConnectLocked; ConnectJoin; ConnectJoin; ConnectLocked; ConnectLocked] = Ended.
Proof. apply tag_ended; vm_compute; reflexivity. Qed.

(** An asynchronous read with a watcher of a node that is not there leaves the watcher's
    context in the pool each time. *)
Definition failing_read (k : nat) : list (action (L := nat)) :=
  [Api (AGetAsyncWatch [47] (Some 1%nat) (Some 2%nat)); Call 0%nat (DData k ZNONODE [] new_ZKStatus); Return 0%nat k].
Lemma watcher_contexts_stay :
  match run begin ([ConnectJoin; ConnectLocked] ++ failing_read 0%nat ++ failing_read 2%nat ++ failing_read 4%nat) with
  | Next m => size (context_pool_ (wrapper (run_world m))) = 3%nat
  | _ => False
  end.
Proof. vm_compute; reflexivity. Qed.
