(* ===== verification/Heartbeat.v ===== *)
(** * Registration and subscription: src/leader/heartbeat_reporter.cc,
    src/leader/heartbeat_receiver.cc, src/leader/server_register.cc,
    src/leader/server_subscriber.cc, src/leader/heartbeat_message_helper.cc,
    src/leader/net_util.cc

    A server keeps an ephemeral node "ip:port" under each of its paths; a subscriber lists
    the children of its paths and puts them into a node collection.  Both work through the
    wrapper of [Zk], each with a thread that wakes up in turn: a round of the thread is a
    function.  Flags and scan times are shared objects, so they live in a store. *)
From Stdlib Require Import ZArith Lia.
From stdpp Require Import base list option gmap sorting.
From S2P Require Import Prelude Strings Dict Nodes Zk.

Local Open Scope Z_scope.

(** ** Messages, ports, iteration *)

(** [operator<] and the others of heartbeat_message_helper.cc. *)
Fixpoint string_lt (a b : bytes) : bool :=
  match a, b with
  | _, [] => false
  | [], _ :: _ => true
  | x :: a, y :: b => match x ?= y with Lt => true | Gt => false | Eq => string_lt a b end
  end.
Record HeartbeatMessage : Type := mkMessage { ip : bytes; port : Z }.
Definition message_lt (left right : HeartbeatMessage) : bool :=
  if negb (same (ip left) (ip right)) then string_lt (ip left) (ip right) else port left <? port right.
Definition message_eq (left right : HeartbeatMessage) : bool := same (ip left) (ip right) && (port left =? port right).
Definition message_ne (left right : HeartbeatMessage) : bool := negb (message_eq left right).

(** [NetUtil::ValidatePort]. *)
Definition ValidatePort (portStr : bytes) : option Z :=
  match stoi portStr with None => None | Some p => if 65535 <? p then None else Some p end.

(** A [std::map] with string keys is walked in the order of its keys. *)
Definition key_le {A} (x y : bytes * A) : Prop := string_lt y.1 x.1 = false.
#[global] Instance key_le_dec {A} : RelDecision (key_le (A := A)).
Proof. intros x y; unfold key_le; apply _. Defined.
Definition ordered {A} (m : gmap bytes A) : list (bytes * A) := merge_sort key_le (map_to_list m).

Lemma ordered_perm {A} (m : gmap bytes A) : ordered m ≡ₚ map_to_list m.
Proof. apply merge_sort_Permutation. Qed.

(** ** Closures given to the wrapper *)

(** The answer to the deletion of a node, with its entry of [node_path_to_remove_]; the
    receiver's watcher. *)
Inductive closure : Type := Removal (path : bytes) (promise : option nat) | Watching_receiver.

Section heartbeat.
Context `{ZooConsts} `{ZooClient}.
Implicit Types (s : world (L := closure)).

(** *** [Connect] as a blocking call *)

(** The end of the finalizing thread; [false] when its close does not return. *)
Definition join_thread : act (L := closure) bool :=
  fun s =>
    let w := wrapper s in
    let erased keys := set_thread None (set_pool (foldl (fun p key => delete key p) (context_pool_ w) keys) w) in
    match finalize_thread_ w with
    | None => (true, s)
    | Some (mkJob h keys Closing) =>
        match zookeeper_close (client s) h with
        | None => (false, s)
        | Some (z, _) => (true, mkWorld (erased keys) z (log s))
        end
    | Some (mkJob _ keys Closed) => (true, mkWorld (erased keys) (client s) (log s))
    | Some (mkJob _ _ Finished) => (true, mkWorld (set_thread None w) (client s) (log s))
    end.

(** [None] when it does not return, [Some false] when it throws. *)
Definition ConnectAndWait : act (L := closure) (option bool) :=
  ended ← join_thread;
  if ended : bool then
    r ← Connect;
    mret (match r with Threw _ => Some false | Terminated => None | Connected | StillAlive => Some true end)
  else mret None.

(** [Shutdown] as a blocking call: [None] when the close does not return, [Some false] when
    it throws. *)
Definition ShutdownAndWait : act (L := closure) (option bool) :=
  fun s =>
    let w := wrapper s in
    let s' := mkWorld (set_pool ∅ (set_handle None w)) (client s) (log s) in
    match zhandle_ w with
    | None => (Some true, s')
    | Some h =>
        match zookeeper_close (client s) h with
        | None => (None, s')
        | Some (z, code) => (Some (code =? ZOK), mkWorld (wrapper s') z (log s))
        end
    end.

(** The check of the state after the first synchronous call. *)
Definition check_state : act (L := closure) (option bool) :=
  state ← GetState;
  if decide (state = ZKSTATE_CONNECTED) then mret (Some true) else ConnectAndWait.

(** ** The reporter *)

(** [class HeartbeatReporter]: the flags are shared objects, [flags] their store;
    [fulfilled] are the promises that have their value. *)
Record HeartbeatReporter : Type := mkReporter {
  zk_ : bool;
  shared_zk_ : bool;
  heartbeat_message_ : option HeartbeatMessage;
  heartbeat_interval_seconds_ : Z;
  node_path_map_ : gmap bytes nat;
  flags : gmap nat bool;
  node_path_to_remove_ : gmap bytes (option nat);
  fulfilled : gset nat;
  next_object : nat;
  skip_sleep_ : bool;
  reporting : bool
}.

Definition new_HeartbeatReporter : HeartbeatReporter := mkReporter false false None 0 ∅ ∅ ∅ ∅ 0 false false.

Implicit Types r : HeartbeatReporter.

Definition set_paths (m : gmap bytes nat) (fl : gmap nat bool) (n : nat) r : HeartbeatReporter :=
  mkReporter (zk_ r) (shared_zk_ r) (heartbeat_message_ r) (heartbeat_interval_seconds_ r) m fl
    (node_path_to_remove_ r) (fulfilled r) n (skip_sleep_ r) (reporting r).
Definition set_remove (m : gmap bytes (option nat)) r : HeartbeatReporter :=
  mkReporter (zk_ r) (shared_zk_ r) (heartbeat_message_ r) (heartbeat_interval_seconds_ r) (node_path_map_ r) (flags r)
    m (fulfilled r) (next_object r) (skip_sleep_ r) (reporting r).
Definition set_skip (b : bool) r : HeartbeatReporter :=
  mkReporter (zk_ r) (shared_zk_ r) (heartbeat_message_ r) (heartbeat_interval_seconds_ r) (node_path_map_ r) (flags r)
    (node_path_to_remove_ r) (fulfilled r) (next_object r) b (reporting r).
Definition set_reporting (b : bool) r : HeartbeatReporter :=
  mkReporter (zk_ r) (shared_zk_ r) (heartbeat_message_ r) (heartbeat_interval_seconds_ r) (node_path_map_ r) (flags r)
    (node_path_to_remove_ r) (fulfilled r) (next_object r) (skip_sleep_ r) b.

(** [Init], with a wrapper of its own ([connected]: whether its constructor returned) or a
    shared one ([given]: whether the pointer is not null).  A message without ip and port is
    [None]. *)
Definition InitReporter (connected : bool) (msg : option HeartbeatMessage) (hbInterval : Z) r : bool * HeartbeatReporter :=
  if zk_ r then (false, r)
  else if negb connected then
    (false, mkReporter false false (heartbeat_message_ r) (heartbeat_interval_seconds_ r) (node_path_map_ r) (flags r)
       (node_path_to_remove_ r) (fulfilled r) (next_object r) (skip_sleep_ r) (reporting r))
  else
    let with_interval i := mkReporter true false msg i (node_path_map_ r) (flags r)
       (node_path_to_remove_ r) (fulfilled r) (next_object r) (skip_sleep_ r) (reporting r) in
    match msg with
    | None => (false, with_interval (heartbeat_interval_seconds_ r))
    | Some _ => (true, with_interval hbInterval)
    end.
Definition InitReporterShared (given : bool) (msg : option HeartbeatMessage) (hbInterval : Z) r : bool * HeartbeatReporter :=
  if zk_ r then (false, r)
  else if negb given then (false, r)
  else
    let with_interval i := mkReporter true true msg i (node_path_map_ r) (flags r)
       (node_path_to_remove_ r) (fulfilled r) (next_object r) (skip_sleep_ r) (reporting r) in
    match msg with
    | None => (false, with_interval (heartbeat_interval_seconds_ r))
    | Some _ => (true, with_interval hbInterval)
    end.

(** The name of the node: "ip:port". *)
Definition node_name (m : HeartbeatMessage) : bytes := ip m ++ [58] ++ decimal (port m).
Definition node_path (p : bytes) r : bytes :=
  JoinPath p (node_name (default (mkMessage [] 0) (heartbeat_message_ r))).

(** [WakeUp]. *)
Definition WakeUpReporter r : HeartbeatReporter := set_skip true r.

(** [AddPathToReport]. *)
Definition AddPathToReport (p : bytes) r : HeartbeatReporter :=
  let path := node_path p r in
  WakeUpReporter
    (match node_path_map_ r !! path with
     | None => set_paths (<[path := next_object r]> (node_path_map_ r)) (<[next_object r := false]> (flags r)) (S (next_object r)) r
     | Some flag => set_paths (node_path_map_ r) (<[flag := false]> (flags r)) (next_object r) r
     end).

(** [RemovePath]: with [wanted] it gives a future, which may be an invalid one. *)
Definition RemoveReportPath (remove : bytes) (wanted : bool) r : option nat * HeartbeatReporter :=
  let path := node_path remove r in
  let exist := bool_decide (is_Some (node_path_map_ r !! path)) in
  let r := set_paths (delete path (node_path_map_ r)) (flags r) (next_object r) r in
  let '(p, r) :=
    match node_path_to_remove_ r !! path with
    | None => (None, if wanted then r else set_remove (<[path := None]> (node_path_to_remove_ r)) r)
    | Some (Some pr) => (if wanted then Some pr else None, r)
    | Some None => (None, r)
    end in
  let '(p, r) :=
    match p with
    | None =>
        if exist && wanted then
          let pr := next_object r in
          (Some pr, set_remove (<[path := Some pr]> (node_path_to_remove_ r)) (set_paths (node_path_map_ r) (flags r) (S pr) r))
        else (None, r)
    | Some _ => (p, r)
    end in
  (p, WakeUpReporter r).

(** The node is created, or its data are set. *)
Definition write_node (path msg : bytes) (isNewSession : bool) : act (L := closure) ZKCode :=
  if isNewSession then r ← Create path msg true false; mret r.1 else r ← SetData path msg (-1); mret r.1.

(** [Report] from the serialized message on. *)
Definition report_write (path : bytes) (msg : option bytes) (isNewSession : bool) : act (L := closure) (option bool) :=
  match msg with
  | None => mret (Some false)
  | Some msg =>
      rc ← write_node path msg isNewSession;
      if negb (rc =? ZK_OK) then mret (Some false)
      else
        r ← Exists path false;
        if negb (r.1 =? ZK_OK) then mret (Some false)
        else
          id ← GetID;
          mret (Some (ephemeralOwner r.2 =? id))
  end.

(** [Report]; [msg] is the serialized message. *)
Definition Report (path : bytes) (force : bool) (msg : option bytes) : act (L := closure) (option bool) :=
  r ← Exists path false;
  go ← check_state;
  match go with
  | None => mret None
  | Some false => mret (Some false)
  | Some true =>
      if r.1 =? ZK_OK then
        id ← GetID;
        if negb (ephemeralOwner r.2 =? id) then
          Delete path (-1);; report_write path msg true
        else if negb force then mret (Some true)
        else report_write path msg false
      else if negb (r.1 =? ZK_NONODE) then mret (Some false)
      else report_write path msg true
  end.

(** The answer to a deletion. *)
Definition on_removed (code : ZKCode) (path : bytes) (promise : option nat) r : HeartbeatReporter :=
  if negb (code =? ZK_OK) && negb (code =? ZK_NONODE) then
    match node_path_to_remove_ r !! path with
    | None => set_remove (<[path := promise]> (node_path_to_remove_ r)) r
    | Some _ => r
    end
  else match promise with
       | None => r
       | Some pr => mkReporter (zk_ r) (shared_zk_ r) (heartbeat_message_ r) (heartbeat_interval_seconds_ r) (node_path_map_ r)
           (flags r) (node_path_to_remove_ r) ({[pr]} ∪ fulfilled r) (next_object r) (skip_sleep_ r) (reporting r)
       end.
Definition on_invocation (i : invocation (L := closure)) r : HeartbeatReporter :=
  match i with VoidComplete (Removal path promise) code => on_removed code path promise r | _ => r end.

(** A round of the reporting thread: the removals are sent, then the paths are reported
    and the flags of those that fail are set. *)
Fixpoint send_removals (l : list (bytes * option nat)) s : world (L := closure) :=
  match l with
  | [] => s
  | (path, promise) :: l => send_removals l (DeleteAsync path (Some (Removal path promise)) (-1) s).2
  end.
Fixpoint report_all (msg : option bytes) (l : list (bytes * nat)) (fl : gmap nat bool) s : option (gmap nat bool * world (L := closure)) :=
  match l with
  | [] => Some (fl, s)
  | (path, flag) :: l =>
      match Report path (default false (fl !! flag)) msg s with
      | (None, _) => None
      | (Some true, s) => report_all msg l fl s
      | (Some false, s) => report_all msg l (<[flag := true]> fl) s
      end
  end.
Definition ReportRound (msg : option bytes) r s : option (HeartbeatReporter * world (L := closure)) :=
  let pathMap := ordered (node_path_map_ r) in
  let pathsToRemove := ordered (node_path_to_remove_ r) in
  let r := set_remove ∅ r in
  let s := send_removals pathsToRemove s in
  match report_all msg pathMap (flags r) s with
  | None => None
  | Some (fl, s) => Some (set_skip false (set_paths (node_path_map_ r) fl (next_object r) r), s)
  end.

(** [StartReport]; the exception of [Connect] goes to the caller, as does a wait without
    end: [None]. *)
Definition StartReport r s : option (bool * HeartbeatReporter * world (L := closure)) :=
  if reporting r then Some (false, r, s)
  else
    let '(state, s) := GetState s in
    if decide (state = ZKSTATE_UNDEFINED) then
      match ConnectAndWait s with
      | (Some true, s) => Some (true, set_reporting true r, s)
      | _ => None
      end
    else Some (true, set_reporting true r, s).
(** [StopReport], [Close]: a wrapper of its own is shut down; [None] when [Shutdown] does not
    return or throws. *)
Definition StopReport r : HeartbeatReporter := set_reporting false r.
Definition CloseReporter r s : option (HeartbeatReporter * world (L := closure)) :=
  if zk_ r && negb (shared_zk_ r) then
    match ShutdownAndWait s with (Some true, s) => Some (StopReport r, s) | _ => None end
  else Some (StopReport r, s).

(** ** The receiver *)

Definition INVALID_CHILDVERSION : Z := -1.
Definition UINT64_MAX : Z := 2 ^ 64 - 1.

(** [NodeStatus], and [class HeartbeatReceiver] with the store of its statuses. *)
Record NodeStatus : Type := mkNodeStatus { seen_cversion : Z; next_scan_time : Z }.
Record HeartbeatReceiver : Type := mkReceiver {
  recv_zk : bool;
  recv_shared : bool;
  node_collection_ : NodeCollectionImpl;
  paths_ : gmap bytes nat;
  statuses : gmap nat NodeStatus;
  next_status : nat;
  recv_skip_sleep : bool;
  receiving : bool
}.
Definition new_HeartbeatReceiver : HeartbeatReceiver := mkReceiver false false new_NodeCollectionImpl ∅ ∅ 0 false false.

Implicit Types v : HeartbeatReceiver.

Definition with_statuses (f : gmap nat NodeStatus) v : HeartbeatReceiver :=
  mkReceiver (recv_zk v) (recv_shared v) (node_collection_ v) (paths_ v) f (next_status v) (recv_skip_sleep v) (receiving v).
Definition with_skip (b : bool) v : HeartbeatReceiver :=
  mkReceiver (recv_zk v) (recv_shared v) (node_collection_ v) (paths_ v) (statuses v) (next_status v) b (receiving v).
Definition with_collection (c : NodeCollectionImpl) v : HeartbeatReceiver :=
  mkReceiver (recv_zk v) (recv_shared v) c (paths_ v) (statuses v) (next_status v) (recv_skip_sleep v) (receiving v).
Definition with_paths (p : gmap bytes nat) (f : gmap nat NodeStatus) (n : nat) v : HeartbeatReceiver :=
  mkReceiver (recv_zk v) (recv_shared v) (node_collection_ v) p f n (recv_skip_sleep v) (receiving v).

Definition status_of (v : HeartbeatReceiver) (i : nat) : NodeStatus := default (mkNodeStatus INVALID_CHILDVERSION 0) (statuses v !! i).
Definition set_scan (i : nat) (t : Z) v : HeartbeatReceiver :=
  with_statuses (<[i := mkNodeStatus (seen_cversion (status_of v i)) t]> (statuses v)) v.
Definition set_seen (i : nat) (c : Z) v : HeartbeatReceiver :=
  with_statuses (<[i := mkNodeStatus c (next_scan_time (status_of v i))]> (statuses v)) v.

(** [WakeUp], [CommonWatcher]. *)
Definition WakeUpReceiver v : HeartbeatReceiver := with_skip true v.
Definition CommonWatcher (event : ZKEvent) (state : ZKState) (path : bytes) v : HeartbeatReceiver :=
  if negb (bool_decide (state = ZKSTATE_CONNECTED)) then v
  else match event with
       | ZKEVENT_CREATED | ZKEVENT_DELETED | ZKEVENT_CHILD =>
           WakeUpReceiver (match paths_ v !! path with Some i => set_scan i 0 v | None => v end)
       | _ => v
       end.

(** [Init]; with a shared wrapper the receiver becomes its watcher. *)
Definition InitReceiver v : bool * HeartbeatReceiver :=
  if recv_zk v then (false, v)
  else (true, mkReceiver true false (node_collection_ v) (paths_ v) (statuses v) (next_status v) (recv_skip_sleep v) (receiving v)).
Definition InitReceiverShared (given : bool) v s : bool * HeartbeatReceiver * world (L := closure) :=
  if recv_zk v then (false, v, s)
  else if negb given then (false, v, s)
  else (true, mkReceiver true true (node_collection_ v) (paths_ v) (statuses v) (next_status v) (recv_skip_sleep v) (receiving v),
        (SetWatcher (Some Watching_receiver) s).2).

(** [AddPaths]. *)
Definition add_path v (path : bytes) : HeartbeatReceiver :=
  match paths_ v !! path with
  | None => with_paths (<[path := next_status v]> (paths_ v))
      (<[next_status v := mkNodeStatus INVALID_CHILDVERSION 0]> (statuses v)) (S (next_status v)) v
  | Some i => set_scan i 0 v
  end.
Definition AddPaths (paths : list bytes) v : HeartbeatReceiver := WakeUpReceiver (foldl add_path v paths).

(** [RemovePath]: the paths, and all below them. *)
Definition drop_path v (remove : bytes) : HeartbeatReceiver :=
  match paths_ v !! remove with
  | None => v
  | Some i => let v := set_scan i UINT64_MAX v in with_paths (delete remove (paths_ v)) (statuses v) (next_status v) v
  end.
Definition RemoveReceivePaths (paths : list bytes) v : HeartbeatReceiver :=
  let removeList := filter (fun p => existsb (is_under p) paths) (map fst (ordered (paths_ v))) in
  WakeUpReceiver (foldl drop_path v removeList).

(** The end of [Receive] after the children were taken: two compare-and-swaps against the
    values read before. *)
Definition settle (i : nat) (cversion next_scan new_cversion now : Z) v : HeartbeatReceiver :=
  if seen_cversion (status_of v i) =? cversion then
    let v := set_seen i new_cversion v in
    if next_scan_time (status_of v i) =? next_scan then set_scan i ((now + 5 * 1000) mod 2 ^ 64) v
    else if negb (next_scan_time (status_of v i) =? UINT64_MAX) && negb (recv_skip_sleep v) then with_skip true v
    else v
  else if negb (next_scan_time (status_of v i) =? UINT64_MAX) then with_skip true (set_scan i 0 v)
  else v.

(** [Receive]: [before] and [now] are the times it reads, [during] what the watchers do
    between its reads and its compare-and-swaps. *)
Definition Receive (path : bytes) (i : nat) (before now : Z) (during : HeartbeatReceiver -> HeartbeatReceiver) v s
    : option (HeartbeatReceiver * world (L := closure)) :=
  if before <? next_scan_time (status_of v i) then Some (v, s)
  else
    let '((rc, status), s) := Exists path true s in
    match check_state s with
    | (None, _) => None
    | (Some false, s) => Some (v, s)
    | (Some true, s) =>
        if rc =? ZK_NONODE then Some (set_scan i ((now + 30 * 1000) mod 2 ^ 64) v, s)
        else if negb (rc =? ZK_OK) then Some (v, s)
        else
          let old := seen_cversion (status_of v i) in
          let next_scan := next_scan_time (status_of v i) in
          if (old =? INVALID_CHILDVERSION) || negb (old =? cversion status) then
            let '((rc, (children, status)), s) := GetChildren path true true s in
            if negb (rc =? ZK_OK) then Some (v, s)
            else
              let v := with_collection (UpdateHeartbeat children path (node_collection_ v)) v in
              Some (settle i old next_scan (cversion status) now (during v), s)
          else Some (v, s)
    end.

(** A round of the receiving thread. *)
Fixpoint receive_all (l : list (bytes * nat)) (clock : bytes -> Z * Z) (during : bytes -> HeartbeatReceiver -> HeartbeatReceiver)
    v s : option (HeartbeatReceiver * world (L := closure)) :=
  match l with
  | [] => Some (v, s)
  | (path, i) :: l =>
      match Receive path i (clock path).1 (clock path).2 (during path) v s with
      | None => None
      | Some (v, s) => receive_all l clock during v s
      end
  end.
(** The flag is whether the thread goes on without sleep. *)
Definition ReceiveRound (clock : bytes -> Z * Z) (during : bytes -> HeartbeatReceiver -> HeartbeatReceiver) v s
    : option (bool * HeartbeatReceiver * world (L := closure)) :=
  match receive_all (ordered (paths_ v)) clock during v s with
  | None => None
  | Some (v, s) => Some (recv_skip_sleep v, with_skip false v, s)
  end.

(** [StartReceive], [StopReceive], [Close]: a shared wrapper loses its watcher, the own one is
    shut down. *)
Definition StartReceive v s : option (bool * HeartbeatReceiver * world (L := closure)) :=
  let started := mkReceiver (recv_zk v) (recv_shared v) (node_collection_ v) (paths_ v) (statuses v) (next_status v) (recv_skip_sleep v) true in
  if receiving v then Some (false, v, s)
  else
    let '(state, s) := GetState s in
    if decide (state = ZKSTATE_UNDEFINED) then
      match ConnectAndWait s with
      | (Some true, s) => Some (true, started, s)
      | _ => None
      end
    else Some (true, started, s).
Definition StopReceive v : HeartbeatReceiver :=
  mkReceiver (recv_zk v) (recv_shared v) (node_collection_ v) (paths_ v) (statuses v) (next_status v) (recv_skip_sleep v) false.
Definition CloseReceiver v s : option (HeartbeatReceiver * world (L := closure)) :=
  if negb (recv_zk v) then Some (StopReceive v, s)
  else if recv_shared v then Some (StopReceive v, (SetWatcher None s).2)
  else match ShutdownAndWait s with (Some true, s) => Some (StopReceive v, s) | _ => None end.

(** ** Register and subscriber *)

(** [class ServerRegister]. *)
Record ServerRegister : Type := mkRegister { heartbeat_reporter_ : option HeartbeatReporter; reg_ip : bytes; reg_port : Z }.

(** [SharedInitializer]: [found] is the first address of the host, if there is one. *)
Definition SharedInitializer (port : Z) (ip : bytes) (found : option bytes) : bool * ServerRegister :=
  let g ip := mkRegister (Some new_HeartbeatReporter) ip port in
  if (length ip =? 0)%nat then
    match found with
    | None => (false, g ip)
    | Some ip => (negb ((length ip =? 0)%nat || (65535 <? port)), g ip)
    end
  else (negb (65535 <? port), g ip).

(** [Init]; [connected] as in [InitReporter]. *)
Definition InitRegister (connected : bool) (port : Z) (ip : bytes) (found : option bytes) (hbInterval : Z) : bool * ServerRegister :=
  match SharedInitializer port ip found with
  | (false, g) => (false, g)
  | (true, g) =>
      match heartbeat_reporter_ g with
      | None => (false, g)
      | Some r =>
          let '(done, r) := InitReporter connected (Some (mkMessage (reg_ip g) (reg_port g))) hbInterval r in
          (done, mkRegister (Some r) (reg_ip g) (reg_port g))
      end
  end.

Definition InitRegisterShared (given : bool) (port : Z) (ip : bytes) (found : option bytes) (hbInterval : Z) : bool * ServerRegister :=
  match SharedInitializer port ip found with
  | (false, g) => (false, g)
  | (true, g) =>
      match heartbeat_reporter_ g with
      | None => (false, g)
      | Some r =>
          let '(done, r) := InitReporterShared given (Some (mkMessage (reg_ip g) (reg_port g))) hbInterval r in
          (done, mkRegister (Some r) (reg_ip g) (reg_port g))
      end
  end.

(** [Start] and [Close]; [Start] dereferences the reporter. *)
Definition StartRegister (g : ServerRegister) s : option (bool * ServerRegister * world (L := closure)) :=
  match heartbeat_reporter_ g with
  | None => None
  | Some r => '(started, r, s) ← StartReport r s; Some (started, mkRegister (Some r) (reg_ip g) (reg_port g), s)
  end.
Definition CloseRegister (g : ServerRegister) s : option (ServerRegister * world (L := closure)) :=
  match heartbeat_reporter_ g with
  | None => Some (g, s)
  | Some r => '(_, s) ← CloseReporter r s; Some (mkRegister None (reg_ip g) (reg_port g), s)
  end.

(** [AddPath], and [RemovePath] with the futures that the caller waits for. *)
Definition AddPath (path : bytes) (g : ServerRegister) : ServerRegister :=
  match heartbeat_reporter_ g with
  | None => g
  | Some r => mkRegister (Some (AddPathToReport path r)) (reg_ip g) (reg_port g)
  end.
Definition RemoveRegisteredPath (path : bytes) (blocking : bool) (g : ServerRegister) : option nat * ServerRegister :=
  match heartbeat_reporter_ g with
  | None => (None, g)
  | Some r => let '(f, r) := RemoveReportPath path blocking r in (f, mkRegister (Some r) (reg_ip g) (reg_port g))
  end.

(** [RemovePath] of several paths does not look whether there is a reporter. *)
Definition RemoveRegisteredPaths (paths : list bytes) (blocking : bool) (g : ServerRegister) : option (list nat * ServerRegister) :=
  match heartbeat_reporter_ g with
  | None => match paths with [] => Some ([], g) | _ => None end
  | Some r =>
      let '(futures, r) := foldl (fun '(l, r) path =>
        let '(f, r) := RemoveReportPath path blocking r in (l ++ match f with Some f => [f] | None => [] end, r)) ([], r) paths in
      Some (futures, mkRegister (Some r) (reg_ip g) (reg_port g))
  end.

(** [class ServerSubscriber]: [detecting] is whether the bad node detector runs, [None] when
    there is none. *)
Definition StartSubscriber (detecting : option bool) v s : option (bool * option bool * HeartbeatReceiver * world (L := closure)) :=
  match detecting with
  | None => Some (false, None, v, s)
  | Some _ => '(_, v, s) ← StartReceive v s; Some (true, Some true, v, s)
  end.
Definition CloseSubscriber (detecting : option bool) v s : option (option bool * HeartbeatReceiver * world (L := closure)) :=
  '(v, s) ← CloseReceiver v s; Some (match detecting with Some _ => Some false | None => None end, v, s).

(** [RemovePath] of the receiver, then of the collection. *)
Definition RemoveSubscribedPaths (paths : list bytes) v : HeartbeatReceiver :=
  let v := RemoveReceivePaths paths v in with_collection (RemovePaths paths (node_collection_ v)) v.
Definition GetServerCount (path : bytes) v : nat := GetNodeCount path (node_collection_ v).

End heartbeat.
