(* ===== verification/HeartbeatCorrect.v ===== *)
(** * Registered servers are found

    Against a ZooKeeper server ([ZooServer], what its documentation promises to a session
    that is connected while nobody else acts): a round of the reporter makes the node of
    every path its own, a scan of the receiver makes the node collection the list of the
    children, so a subscriber picks exactly the registered servers.  Deletions that are sent
    without waiting take effect at a time of the server's; rounds that send some are not
    among them.  Without calm, a report that returns [true] has seen its own node. *)
From Stdlib Require Import ZArith Lia.
From stdpp Require Import base list option gmap fin_maps sorting.
From S2P Require Import Prelude Strings Nodes Zk ZkCorrect Heartbeat.

Local Open Scope Z_scope.

(** ** The server *)

Definition same_sessions `{ZooClient} (z z' : zoo) : Prop :=
  forall h, zoo_state z' h = zoo_state z h /\ zoo_client_id z' h = zoo_client_id z h.

(** The name of a child. *)
Definition child_name (c : bytes) : Prop := c <> [] /\ 47 ∉ c.

(** What a change at another path leaves of a node: whether it is there, and its owner. *)
Definition kept (x y : option (ZKStatus * bytes)) : Prop :=
  match x, y with
  | Some (st, _), Some (st', _) => ephemeralOwner st' = ephemeralOwner st
  | None, None => True
  | _, _ => False
  end.
(** A node whose children change: its [cversion] counts the changes. *)
Definition evolves (q : bytes) (t t' : gmap bytes (ZKStatus * bytes)) : Prop :=
  forall st d, t !! q = Some (st, d) -> exists st' d', t' !! q = Some (st', d') /\ cversion st <= cversion st' /\
    (cversion st' = cversion st -> forall c, child_name c -> is_Some (t !! JoinPath q c) <-> is_Some (t' !! JoinPath q c)).
(** What a change at [p] does to the rest of the tree. *)
Definition changes (p : bytes) (t t' : gmap bytes (ZKStatus * bytes)) : Prop :=
  forall q, q <> p -> kept (t !! q) (t' !! q) /\ evolves q t t'.

(** [nodes]: the tree, by full paths.  [calm]: nobody else changes it and the sessions last.
    [rooted]: the parent of the path is a node that lasts.  A truthful answer to [Exists] is
    promised always, the others to a connected session in calm. *)
Class ZooServer `{ZooConsts} `{ZooClient} : Type := {
  nodes : zoo -> gmap bytes (ZKStatus * bytes);
  calm : zoo -> Prop;
  rooted : bytes -> Prop;
  exists_truth z h p w z' r : zoo_perform z h (zoo_exists p w) = (z', r) -> rc r = ZOK ->
    fst <$> nodes z' !! p = Some (out_stat r) /\ same_sessions z z';
  elapse_calm z : calm z -> calm (elapse z) /\ nodes (elapse z) = nodes z /\ same_sessions z (elapse z);
  perform_calm z h q : calm z -> calm (zoo_perform z h q).1 /\ same_sessions z (zoo_perform z h q).1;
  exists_calm z h p w z' r : calm z -> zoo_state z h = ZOO_CONNECTED_STATE -> zoo_perform z h (zoo_exists p w) = (z', r) ->
    nodes z' = nodes z /\
    match nodes z !! p with Some (st, _) => rc r = ZOK /\ out_stat r = st | None => rc r = ZNONODE end;
  create_calm z h p value z' r : calm z -> zoo_state z h = ZOO_CONNECTED_STATE -> rooted p -> nodes z !! p = None ->
    zoo_perform z h (zoo_create p value (create_flags true false)) = (z', r) ->
    rc r = ZOK /\ changes p (nodes z) (nodes z') /\ exists st, nodes z' !! p = Some (st, value) /\ ephemeralOwner st = zoo_client_id z h;
  set_calm z h p value z' r st d : calm z -> zoo_state z h = ZOO_CONNECTED_STATE -> nodes z !! p = Some (st, d) ->
    zoo_perform z h (zoo_set2 p value (-1)) = (z', r) ->
    rc r = ZOK /\ changes p (nodes z) (nodes z') /\ exists st', nodes z' !! p = Some (st', value) /\ ephemeralOwner st' = ephemeralOwner st;
  delete_calm z h p z' r st d : calm z -> zoo_state z h = ZOO_CONNECTED_STATE -> nodes z !! p = Some (st, d) ->
    zoo_perform z h (zoo_delete p (-1)) = (z', r) -> rc r = ZOK /\ changes p (nodes z) (nodes z') /\ nodes z' !! p = None;
  children_calm z h p w z' r st d : calm z -> zoo_state z h = ZOO_CONNECTED_STATE -> nodes z !! p = Some (st, d) ->
    zoo_perform z h (zoo_get_children2 p w) = (z', r) ->
    rc r = ZOK /\ nodes z' = nodes z /\ cversion (out_stat r) = cversion st /\ NoDup (out_children r) /\
    Forall child_name (out_children r) /\ forall c, child_name c -> (c ∈ out_children r <-> is_Some (nodes z !! JoinPath p c))
}.

#[local] Arguments report_write : simpl never.
#[local] Arguments write_node : simpl never.

Section discovery.
Context `{ZooServer}.
Implicit Types (s : world (L := closure)).

(** The session of a wrapper. *)
Definition session s : Z := (GetID s).1.

Lemma GetID_session s : GetID s = (session s, s).
Proof. done. Qed.

(** ** A report that succeeds *)

Lemma GetState_connected s :
  (GetState s).1 = ZKSTATE_CONNECTED <->
  exists h, zhandle_ (wrapper s) = Some h /\ zoo_state (client s) h = ZOO_CONNECTED_STATE.
Proof.
  destruct zoo_live_states as (_ & Hc & _); unfold GetState, gets; cbn.
  destruct (zhandle_ (wrapper s)) as [h|]; cbn.
  - destruct (Z.eqb_spec (zoo_state (client s) h) 0) as [Hz|Hz].
    + split; [done|]; intros (x & Hx & He); simplify_eq; lia.
    + rewrite zk_state_connected; split; [by exists h | intros (x & Hx & He); by simplify_eq].
  - split; [done | by intros (? & ? & _)].
Qed.

Lemma Exists_truth p w s code st s' :
  Exists p w s = ((code, st), s') -> code = ZK_OK ->
  fst <$> nodes (client s') !! p = Some st /\ wrapper s' = wrapper s.
Proof.
  unfold Exists, with_handle_out, mbind, act_bind, gets; cbn.
  destruct (zhandle_ (wrapper s)) as [h|]; [|by intros [= <- _ _]].
  unfold zoo_call; destruct (zoo_perform _ _ _) as [z r] eqn:Hp; intros [= <- <- <-] Hc.
  apply (proj1 (zk_code_ok _)) in Hc; split; [|done]; by apply (exists_truth _ _ _ _ _ _ Hp).
Qed.

(** The final check of [Report]. *)
Lemma report_write_owner path msg new s s' :
  report_write path msg new s = (Some true, s') ->
  exists st, fst <$> nodes (client s') !! path = Some st /\ ephemeralOwner st = session s'.
Proof.
  unfold report_write; destruct msg as [m|]; [|done]; unfold mbind, act_bind.
  destruct (write_node path m new s) as [code s1]; destruct (negb (code =? ZK_OK)); [done|].
  destruct (Exists path false s1) as [[code' st] s2] eqn:He; cbn.
  destruct (Z.eqb_spec code' ZK_OK) as [->|]; cbn; [|done].
  intros [= Ho <-]; destruct (Exists_truth _ _ _ _ _ _ He eq_refl) as [Hn _].
  exists st; split; [done | by apply Z.eqb_eq in Ho].
Qed.

(** C27: a report that returns [true] on a connection that was alive leaves the node of the
    path on the server, with the current session of the wrapper as its owner, whatever
    other clients have done in between. *)
Theorem report_true_owner path force msg s s' :
  Report path force msg s = (Some true, s') ->
  (GetState (Exists path false s).2).1 = ZKSTATE_CONNECTED ->
  exists st, fst <$> nodes (client s') !! path = Some st /\ ephemeralOwner st = session s'.
Proof.
  intros Hr Hst; revert Hr; unfold Report, mbind, act_bind.
  destruct (Exists path false s) as [[code st] s1] eqn:He; cbn [fst snd] in *.
  unfold check_state, mbind, act_bind.
  destruct (GetState s1) as [state s1'] eqn:Hg; cbn in Hst; subst state.
  assert (s1' = s1) as -> by (unfold GetState, gets in Hg; by injection Hg).
  rewrite decide_True by done; cbn.
  destruct (Z.eqb_spec code ZK_OK) as [->|Hc].
  - destruct (Z.eqb_spec (ephemeralOwner st) (session s1)) as [Ho|Ho]; unfold session in *; cbn in *.
    + rewrite Ho, Z.eqb_refl; destruct force; cbn; [apply report_write_owner|].
      intros [= <-]; exists st; split; [by eapply Exists_truth | done].
    + apply Z.eqb_neq in Ho; rewrite Ho; cbn; destruct (Delete path (-1) s1); apply report_write_owner.
  - destruct (Z.eqb_spec code ZK_NONODE); cbn; [apply report_write_owner | done].
Qed.

(** ** In calm *)

(** A wrapper with a connected session; [follows]: it still has it. *)
Definition online (h : zhandle) s : Prop :=
  zhandle_ (wrapper s) = Some h /\ zoo_state (client s) h = ZOO_CONNECTED_STATE /\ calm (client s).
Definition follows (h : zhandle) s s' : Prop := online h s' /\ same_sessions (client s) (client s').

Lemma follows_trans h s1 s2 s3 : follows h s1 s2 -> follows h s2 s3 -> follows h s1 s3.
Proof. intros [_ H12] [? H23]; split; [done|]; intros k; destruct (H12 k), (H23 k); split; congruence. Qed.
Lemma follows_id h s s' : follows h s s' -> zoo_client_id (client s') h = zoo_client_id (client s) h.
Proof. intros [_ Hs]; apply Hs. Qed.
Lemma follows_refl h s : online h s -> follows h s s.
Proof. by split. Qed.

Lemma online_session h s : online h s -> session s = zoo_client_id (client s) h.
Proof. intros (Hh & _); unfold session, GetID, gets; cbn; by rewrite Hh. Qed.

Lemma online_state h s : online h s -> check_state s = (Some true, s).
Proof.
  intros (Hh & Hs & _).
  assert (Hg : (GetState s).1 = ZKSTATE_CONNECTED) by (apply GetState_connected; by exists h).
  unfold check_state, mbind, act_bind; destruct (GetState s) as [st s1] eqn:He; cbn in Hg; subst st.
  assert (s1 = s) as -> by (unfold GetState, gets in He; by injection He); by rewrite decide_True.
Qed.

(** A request: the server answers from the tree that the wrapper has left. *)
Lemma call_calm h q s r s' :
  online h s -> zoo_call h q s = (r, s') ->
  follows h s s' /\ wrapper s' = wrapper s /\
  exists z, calm z /\ zoo_state z h = ZOO_CONNECTED_STATE /\ nodes z = nodes (client s) /\
    zoo_client_id z h = zoo_client_id (client s) h /\ zoo_perform z h q = (client s', r).
Proof.
  intros (Hh & Hs & Hc); unfold zoo_call; destruct (zoo_perform _ h q) as [z r0] eqn:Hp; intros [= <- <-]; cbn.
  destruct (elapse_calm _ Hc) as (Hc1 & Hn1 & Hs1); destruct (Hs1 h) as [Hst1 Hid1].
  destruct (perform_calm (elapse (client s)) h q Hc1) as [Hc2 Hs2]; rewrite Hp in Hc2, Hs2; cbn in *.
  destruct (Hs2 h) as [Hst2 Hid2].
  split; [split; [split; [done | split; [cbn; congruence | done]] |]|]; [|split; [done|]].
  { intros k; cbn; destruct (Hs1 k), (Hs2 k); split; congruence. }
  exists (elapse (client s)); repeat split; auto; congruence.
Qed.

Lemma with_handle_online {A} h s (none : A) k : online h s -> with_handle_out none k s = k h s.
Proof. intros (Hh & _); unfold with_handle_out, mbind, act_bind, gets; cbn; by rewrite Hh. Qed.
Lemma with_handle_online' h s k : online h s -> with_handle k s = k h s.
Proof. intros (Hh & _); unfold with_handle, mbind, act_bind, gets; cbn; by rewrite Hh. Qed.

Lemma Exists_calm h p w s :
  online h s -> exists code st s', Exists p w s = ((code, st), s') /\ follows h s s' /\ nodes (client s') = nodes (client s) /\
    match nodes (client s) !! p with Some (st', _) => code = ZK_OK /\ st = st' | None => code = ZK_NONODE end.
Proof.
  intros Ho; unfold Exists; rewrite (with_handle_online _ _ _ _ Ho); unfold mbind, act_bind.
  destruct (zoo_call h (zoo_exists p w) s) as [r s'] eqn:Hcall; cbn.
  destruct (call_calm _ _ _ _ _ Ho Hcall) as (Hf & _ & z & Hc & Hs & Hn & _ & Hp).
  destruct (exists_calm _ _ _ _ _ _ Hc Hs Hp) as [Hn' Hr]; rewrite Hn in *.
  eexists _, _, _; split; [done|]; split; [done|]; split; [done|].
  destruct (nodes (client s) !! p) as [[st d]|]; [destruct Hr as [-> ->] | rewrite Hr]; done.
Qed.

Lemma Create_calm h p value s :
  online h s -> rooted p -> nodes (client s) !! p = None ->
  exists path s', Create p value true false s = ((ZK_OK, path), s') /\ follows h s s' /\ changes p (nodes (client s)) (nodes (client s')) /\
    exists st, nodes (client s') !! p = Some (st, value) /\ ephemeralOwner st = zoo_client_id (client s) h.
Proof.
  intros Ho Hroot Hno; unfold Create; rewrite (with_handle_online _ _ _ _ Ho); unfold mbind, act_bind.
  destruct (zoo_call h _ s) as [r s'] eqn:Hcall; cbn.
  destruct (call_calm _ _ _ _ _ Ho Hcall) as (Hf & _ & z & Hc & Hs & Hn & Hid & Hp).
  rewrite <- Hn in Hno; destruct (create_calm _ _ _ _ _ _ Hc Hs Hroot Hno Hp) as (-> & Hch & st & Hn' & Ho').
  eexists _, _; split; [done|]; split; [done|]; rewrite <- Hn; split; [done|]; exists st; split; congruence.
Qed.

Lemma SetData_calm h p value s st d :
  online h s -> nodes (client s) !! p = Some (st, d) ->
  exists st0 s', SetData p value (-1) s = ((ZK_OK, st0), s') /\ follows h s s' /\ changes p (nodes (client s)) (nodes (client s')) /\
    exists st', nodes (client s') !! p = Some (st', value) /\ ephemeralOwner st' = ephemeralOwner st.
Proof.
  intros Ho Hno; unfold SetData; rewrite (with_handle_online _ _ _ _ Ho); unfold mbind, act_bind.
  destruct (zoo_call h _ s) as [r s'] eqn:Hcall; cbn.
  destruct (call_calm _ _ _ _ _ Ho Hcall) as (Hf & _ & z & Hc & Hs & Hn & Hid & Hp).
  rewrite <- Hn in Hno; destruct (set_calm _ _ _ _ _ _ _ _ Hc Hs Hno Hp) as (-> & Hch & st' & Hn' & Ho').
  eexists _, _; split; [done|]; split; [done|]; rewrite <- Hn; split; [done|]; exists st'; done.
Qed.

Lemma Delete_calm h p s st d :
  online h s -> nodes (client s) !! p = Some (st, d) ->
  exists s', Delete p (-1) s = (ZK_OK, s') /\ follows h s s' /\ changes p (nodes (client s)) (nodes (client s')) /\ nodes (client s') !! p = None.
Proof.
  intros Ho Hno; unfold Delete; rewrite (with_handle_online' _ _ _ Ho); unfold mbind, act_bind.
  destruct (zoo_call h _ s) as [r s'] eqn:Hcall; cbn.
  destruct (call_calm _ _ _ _ _ Ho Hcall) as (Hf & _ & z & Hc & Hs & Hn & Hid & Hp).
  rewrite <- Hn in Hno; destruct (delete_calm _ _ _ _ _ _ _ Hc Hs Hno Hp) as (-> & Hch & Hn').
  eexists; split; [done|]; split; [done|]; rewrite <- Hn; by split.
Qed.

Lemma GetChildren_calm h p s st d :
  online h s -> nodes (client s) !! p = Some (st, d) ->
  exists l st' s', GetChildren p true true s = ((ZK_OK, (l, st')), s') /\ follows h s s' /\ nodes (client s') = nodes (client s) /\
    cversion st' = cversion st /\ NoDup l /\ Forall child_name l /\ forall c, child_name c -> (c ∈ l <-> is_Some (nodes (client s) !! JoinPath p c)).
Proof.
  intros Ho Hno; unfold GetChildren; rewrite (with_handle_online _ _ _ _ Ho); unfold mbind, act_bind.
  destruct (zoo_call h _ s) as [r s'] eqn:Hcall; cbn.
  destruct (call_calm _ _ _ _ _ Ho Hcall) as (Hf & _ & z & Hc & Hs & Hn & Hid & Hp).
  rewrite <- Hn in Hno; destruct (children_calm _ _ _ _ _ _ _ _ Hc Hs Hno Hp) as (-> & Hn' & Hv & Hd & Hnm & Hch).
  eexists _, _, _; split; [done|]; split; [done|]; rewrite Hn', Hn; do 4 (split; [done|]).
  intros c Hcn; rewrite <- Hn; auto.
Qed.

(** *** The reporter *)

(** The node of a path is there and of this session. *)
Definition owned (h : zhandle) s (p : bytes) : Prop :=
  exists st d, nodes (client s) !! p = Some (st, d) /\ ephemeralOwner st = zoo_client_id (client s) h.

(** What a report does to the other paths. *)
Definition only (p : bytes) s s' : Prop := changes p (nodes (client s)) (nodes (client s')).

Lemma kept_trans x y z : kept x y -> kept y z -> kept x z.
Proof. destruct x as [[]|], y as [[]|], z as [[]|]; cbn; try done; congruence. Qed.
Lemma kept_refl x : kept x x.
Proof. by destruct x as [[]|]. Qed.
Lemma kept_Some x y : kept x y -> is_Some x <-> is_Some y.
Proof. destruct x as [[]|], y as [[]|]; cbn; try done; intros; split; eauto. Qed.
Lemma path_evolves_refl q t : evolves q t t.
Proof. intros st d Hq; exists st, d; split; [done|]; split; [lia|]; done. Qed.
Lemma path_evolves_trans q t1 t2 t3 : evolves q t1 t2 -> evolves q t2 t3 -> evolves q t1 t3.
Proof.
  intros Ha Hb st d Hq; destruct (Ha st d Hq) as (st2 & d2 & Hq2 & Hle & Hsame); destruct (Hb st2 d2 Hq2) as (st3 & d3 & Hq3 & Hle' & Hsame').
  exists st3, d3; split; [done|]; split; [lia|]; intros Hv c Hc; rewrite (Hsame ltac:(lia) c Hc); apply Hsame'; [lia | done].
Qed.
Lemma changes_refl p t : changes p t t.
Proof. intros q _; split; [apply kept_refl | apply path_evolves_refl]. Qed.
Lemma changes_trans p t1 t2 t3 : changes p t1 t2 -> changes p t2 t3 -> changes p t1 t3.
Proof. intros Ha Hb q Hq; destruct (Ha q Hq), (Hb q Hq); split; [by eapply kept_trans | by eapply path_evolves_trans]. Qed.

Lemma report_write_calm h p m new s :
  online h s ->
  (if new : bool then nodes (client s) !! p = None /\ rooted p else owned h s p) ->
  exists s', report_write p (Some m) new s = (Some true, s') /\ follows h s s' /\ owned h s' p /\ only p s s'.
Proof.
  intros Ho Hpre; unfold report_write, mbind, act_bind.
  assert (Hw : exists s1, write_node p m new s = (ZK_OK, s1) /\
      follows h s s1 /\ owned h s1 p /\ only p s s1).
  { destruct new.
    - destruct Hpre as [Hno Hroot].
      destruct (Create_calm h p m s Ho Hroot Hno) as (path & s1 & He & Hf & Hch & st & Hn & Hown).
      exists s1; unfold write_node, mbind, act_bind; rewrite He; split; [done|]; split; [done|].
      split; [exists st, m; apply follows_id in Hf; split; congruence | done].
    - destruct Hpre as (st0 & d0 & Hno & Hown0).
      destruct (SetData_calm h p m s st0 d0 Ho Hno) as (path & s1 & He & Hf & Hch & st & Hn & Hown).
      exists s1; unfold write_node, mbind, act_bind; rewrite He; split; [done|]; split; [done|].
      split; [exists st, m; apply follows_id in Hf; split; congruence | done]. }
  destruct Hw as (s1 & Hw & Hf1 & (st & d & Hst & Hown) & Honly); rewrite Hw; cbn [negb Z.eqb ZK_OK].
  destruct (Exists_calm h p false s1 (proj1 Hf1)) as (code & st2 & s2 & He & Hf2 & Hn2 & Hm); rewrite He.
  rewrite Hst in Hm; destruct Hm as [-> ->]; cbn [fst snd negb Z.eqb ZK_OK]; rewrite GetID_session.
  pose proof (follows_trans _ _ _ _ Hf1 Hf2) as Hf.
  exists s2; rewrite (online_session h s2 (proj1 Hf)), Hown.
  pose proof (follows_id _ _ _ Hf2) as Hid2; rewrite Hid2, Z.eqb_refl.
  split; [done|]; split; [done|]; split; [exists st, d; rewrite Hn2; split; congruence|].
  unfold only; by rewrite Hn2.
Qed.

Lemma Report_calm h p force m s :
  online h s -> rooted p ->
  exists s', Report p force (Some m) s = (Some true, s') /\ follows h s s' /\ owned h s' p /\ only p s s'.
Proof.
  intros Ho Hroot; unfold Report, mbind, act_bind.
  destruct (Exists_calm h p false s Ho) as (code & st & s1 & He & Hf1 & Hn1 & Hm); rewrite He; cbn [fst snd].
  rewrite (online_state h s1 (proj1 Hf1)).
  assert (Hfin : forall s2 new, follows h s1 s2 -> only p s1 s2 ->
      (if new : bool then nodes (client s2) !! p = None /\ rooted p else owned h s2 p) ->
      exists s', report_write p (Some m) new s2 = (Some true, s') /\ follows h s s' /\ owned h s' p /\ only p s s').
  { intros s2 new Hf2 Ho2 Hpre; destruct (report_write_calm h p m new s2 (proj1 Hf2) Hpre) as (s3 & Hw & Hf3 & Hown & Ho3).
    exists s3; split; [done|]; split; [by eapply follows_trans; [exact Hf1 | eapply follows_trans]|]; split; [done|].
    unfold only in *; rewrite <- Hn1; by eapply changes_trans. }
  destruct (nodes (client s) !! p) as [[st0 d0]|] eqn:Hp; [|rewrite Hm; cbn].
  - destruct Hm as [-> ->]; cbn [fst snd negb Z.eqb ZK_OK]; rewrite GetID_session, (online_session h s1 (proj1 Hf1)).
    destruct (Z.eqb_spec (ephemeralOwner st0) (zoo_client_id (client s1) h)) as [Ho1|Ho1]; cbn.
    + assert (Hown : owned h s1 p) by (exists st0, d0; rewrite Hn1; done).
      destruct force; cbn; [apply Hfin; [apply follows_refl, Hf1 | apply changes_refl | done]|].
      exists s1; split; [done|]; split; [done|]; split; [done|]; unfold only; rewrite Hn1; apply changes_refl.
    + destruct (Delete_calm h p s1 st0 d0 (proj1 Hf1)) as (s2 & Hd & Hf2 & Hch2 & Hn2); [by rewrite Hn1|]; rewrite Hd.
      by apply Hfin.
  - apply Hfin; [apply follows_refl, Hf1 | apply changes_refl | by rewrite Hn1].
Qed.

Lemma report_all_calm h m l : forall fl s,
  online h s -> Forall rooted l.*1 -> NoDup l.*1 ->
  exists s', report_all (Some m) l fl s = Some (fl, s') /\ follows h s s' /\ (forall p, p ∈ l.*1 -> owned h s' p) /\
    forall q, q ∉ l.*1 -> kept (nodes (client s) !! q) (nodes (client s') !! q) /\ evolves q (nodes (client s)) (nodes (client s')).
Proof.
  induction l as [|[p flag] l IH]; intros fl s Ho Hroot Hd; cbn.
  - exists s; split; [done|]; split; [by apply follows_refl|]; split; [intros p Hp; by apply elem_of_nil in Hp|].
    intros q _; split; [apply kept_refl | apply path_evolves_refl].
  - cbn in Hroot, Hd; apply list.Forall_cons in Hroot as [Hp Hroot]; apply list.NoDup_cons in Hd as [Hnin Hd].
    destruct (Report_calm h p (default false (fl !! flag)) m s Ho Hp) as (s1 & -> & Hf1 & Hown & Honly).
    destruct (IH fl s1 (proj1 Hf1) Hroot Hd) as (s2 & -> & Hf2 & Hall & Hrest).
    exists s2; split; [done|]; split; [by eapply follows_trans|]; split.
    + intros q [-> | Hq]%elem_of_cons; [|auto].
      destruct Hown as (st & d & Hst & Ho'); destruct (Hrest p Hnin) as [Hk _]; rewrite Hst in Hk; unfold owned.
      destruct (nodes (client s2) !! p) as [[st' d']|]; [|done]; cbn in Hk; exists st', d'; apply follows_id in Hf2; split; congruence.
    + intros q Hq; destruct (Honly q) as [Hk1 He1]; [intros ->; apply Hq; set_solver|].
      destruct (Hrest q) as [Hk2 He2]; [set_solver|]; split; [by eapply kept_trans | by eapply path_evolves_trans].
Qed.

Lemma ordered_keys {A} (m : gmap bytes A) p : p ∈ (ordered m).*1 <-> is_Some (m !! p).
Proof.
  rewrite ordered_perm, list_elem_of_fmap; split.
  - intros ([q a] & -> & Hq%elem_of_map_to_list); by eexists.
  - intros [a Ha]; exists (p, a); split; [done | by apply elem_of_map_to_list].
Qed.
Lemma ordered_NoDup {A} (m : gmap bytes A) : NoDup (ordered m).*1.
Proof. rewrite ordered_perm; apply NoDup_fst_map_to_list. Qed.

(** In calm, a round of the reporter that has nothing to remove returns, makes the node of
    every reported path its session's own, whether the node was missing, another session's or
    its own, and leaves the others alone. *)
Lemma report_round_registers h m r s :
  online h s -> (forall p, is_Some (node_path_map_ r !! p) -> rooted p) -> node_path_to_remove_ r = ∅ ->
  exists r' s', ReportRound (Some m) r s = Some (r', s') /\ follows h s s' /\
    node_path_map_ r' = node_path_map_ r /\ flags r' = flags r /\
    (forall p, is_Some (node_path_map_ r !! p) -> owned h s' p) /\
    (forall p, node_path_map_ r !! p = None ->
       kept (nodes (client s) !! p) (nodes (client s') !! p) /\ evolves p (nodes (client s)) (nodes (client s'))).
Proof.
  intros Ho Hroot Hrem; unfold ReportRound; rewrite Hrem.
  destruct (report_all_calm h m (ordered (node_path_map_ r)) (flags r) s Ho) as (s2 & Hr & Hf2 & Hall & Hrest).
  { apply list.Forall_forall; intros p Hp; by apply Hroot, ordered_keys. }
  { apply ordered_NoDup. }
  assert (Hs : ordered (∅ : gmap bytes (option nat)) = []) by (apply Permutation_nil_r; by rewrite ordered_perm, map_to_list_empty).
  rewrite Hs; cbn [send_removals flags set_remove]; rewrite Hr; eexists _, s2; split; [done|]; split; [done|].
  split; [done|]; split; [done|]; split; [intros p Hp; by apply Hall, ordered_keys|].
  intros p Hp; apply Hrest; rewrite ordered_keys, Hp; by intros [? ?].
Qed.

(** *** The receiver *)

(** What is not on the black list of the collection. *)
Definition good (v : HeartbeatReceiver) (l : list bytes) : list bytes := filter (fun n => n ∉ black_list (node_collection_ v)) l.

(** The children of a path, as the tree has them. *)
Definition is_children s (p : bytes) (l : list bytes) : Prop :=
  NoDup l /\ Forall child_name l /\ forall c, child_name c -> (c ∈ l <-> is_Some (nodes (client s) !! JoinPath p c)).

(** The collection has the children of the path, if it saw this version. *)
Definition up_to_date (v : HeartbeatReceiver) s (p : bytes) (i : nat) : Prop :=
  forall st d, nodes (client s) !! p = Some (st, d) -> seen_cversion (status_of v i) <> INVALID_CHILDVERSION ->
  seen_cversion (status_of v i) = cversion st ->
  exists l, valid_nodes (node_collection_ v) !! p = Some (good v l) /\ is_children s p l.

Lemma settle_collection i a b c d v : node_collection_ (settle i a b c d v) = node_collection_ v.
Proof. unfold settle; repeat case_match; done. Qed.

(** In calm, a scan of a path that is due makes the collection the list of the children
    of the path that are not on the black list, whatever it held before, as long as it is
    right for the version it saw; a watcher that fires in between does not change it. *)
Lemma receive_finds_children h p i before now during v s st d :
  online h s -> nodes (client s) !! p = Some (st, d) -> next_scan_time (status_of v i) <= before ->
  up_to_date v s p i -> (forall v, node_collection_ (during v) = node_collection_ v) ->
  exists v' s' l, Receive p i before now during v s = Some (v', s') /\ follows h s s' /\ nodes (client s') = nodes (client s) /\
    is_children s p l /\ valid_nodes (node_collection_ v') !! p = Some (good v l) /\
    black_list (node_collection_ v') = black_list (node_collection_ v) /\
    (forall q, q <> p -> valid_nodes (node_collection_ v') !! q = valid_nodes (node_collection_ v) !! q) /\
    (Inv (node_collection_ v) -> Inv (node_collection_ v')).
Proof.
  intros Ho Hp Hdue Hup Hdur; unfold Receive.
  destruct (Z.ltb_spec before (next_scan_time (status_of v i))); [lia|].
  destruct (Exists_calm h p true s Ho) as (code & st1 & s1 & -> & Hf1 & Hn1 & Hm).
  rewrite Hp in Hm; destruct Hm as [-> ->]; rewrite (online_state h s1 (proj1 Hf1)).
  cbn [Z.eqb ZK_OK ZK_NONODE negb].
  destruct (orb _ _) eqn:Hscan.
  - destruct (GetChildren_calm h p s1 st d (proj1 Hf1)) as (l & st2 & s2 & Hg & Hf2 & Hn2 & Hv & Hd & Hnm & Hch); [by rewrite Hn1|].
    rewrite Hg; cbn [negb Z.eqb ZK_OK].
    eexists _, s2, l; split; [done|]; split; [by eapply follows_trans|]; split; [congruence|].
    split; [split; [done|]; split; [done|]; intros c Hc; rewrite <- Hn1; auto|].
    rewrite settle_collection, Hdur; cbn; split; [by rewrite lookup_insert_eq|]; split; [done|].
    split; [intros q Hq; by rewrite lookup_insert_ne | intros Hi; by apply Heartbeat_Inv].
  - apply orb_false_iff in Hscan as [Hne Heq]; apply Z.eqb_neq in Hne; apply negb_false_iff, Z.eqb_eq in Heq.
    destruct (Hup st d Hp Hne Heq) as (l & Hl & Hch).
    exists v, s1, l; split; [done|]; split; [done|]; split; [done|]; split; [done|]; split; [done|]; split; [done|]; done.
Qed.

(** ** Discovery *)

(** A subscriber: a wrapper and the state of its receiver. *)
Definition subscriber_world (w : ZKWrapper (L := closure)) s : world (L := closure) := mkWorld w (client s) [].

(** A collection that was right before the path changed stays right for the version it saw. *)
Lemma up_to_date_evolves v s s' p i st d :
  nodes (client s) !! p = Some (st, d) -> seen_cversion (status_of v i) <= cversion st ->
  evolves p (nodes (client s)) (nodes (client s')) -> up_to_date v s p i -> up_to_date v s' p i.
Proof.
  intros Hp Hle Hev Hup st' d' Hp' Hne Heq; destruct (Hev st d Hp) as (st2 & d2 & Hp2 & Hv & Hsame); rewrite Hp' in Hp2; simplify_eq.
  destruct (Hup st d Hp Hne ltac:(lia)) as (l & Hl & Hd & Hnm & Hch); exists l; split; [done|]; split; [done|]; split; [done|].
  intros c Hc; rewrite (Hch c Hc); apply Hsame; [lia | done].
Qed.

(** C28: a reporter and a subscriber of the same servers, while no other client acts and the
    sessions last.  Let the reporter have no removals under way and let the path be there; let a
    scan of the path be due, and the collection of the subscriber be right for the version of
    the path that it saw last, if it saw one.  Then a round of the reporter and the scan return,
    and a cycle of picks of the path takes once each of a list of addresses that has exactly the
    names under the path that were there before the round or that the reporter reports, less
    those on the black list. *)
Theorem registered_server_is_picked h h2 m r s w2 v p i before now st d :
  online h s -> (forall q, is_Some (node_path_map_ r !! q) -> rooted q) -> node_path_to_remove_ r = ∅ ->
  zhandle_ w2 = Some h2 -> zoo_state (client s) h2 = ZOO_CONNECTED_STATE ->
  nodes (client s) !! p = Some (st, d) -> node_path_map_ r !! p = None ->
  Inv (node_collection_ v) -> next_scan_time (status_of v i) <= before ->
  seen_cversion (status_of v i) <= cversion st -> up_to_date v s p i ->
  exists r' s' v' s2 l,
    ReportRound (Some m) r s = Some (r', s') /\
    Receive p i before now (fun v => v) v (subscriber_world w2 s') = Some (v', s2) /\
    picks (length l) p (node_collection_ v') ≡ₚ Some <$> l /\
    forall c, c ∈ l <-> child_name c /\ c ∉ black_list (node_collection_ v) /\
      (is_Some (nodes (client s) !! JoinPath p c) \/ is_Some (node_path_map_ r !! JoinPath p c)).
Proof.
  intros Ho Hroot Hrem Hw2 Hst2 Hp Hpm Hinv Hdue Hseen Hup.
  destruct (report_round_registers h m r s Ho Hroot Hrem) as (r' & s' & Hr & Hf & _ & _ & Hown & Hsame).
  assert (Ho2 : online h2 (subscriber_world w2 s')) by (split; [done | split; [cbn; rewrite (proj1 (proj2 Hf h2)); done | apply Hf]]).
  destruct (Hsame p Hpm) as [_ Hev]; destruct (Hev st d Hp) as (st' & d' & Hp' & _).
  destruct (receive_finds_children h2 p i before now (fun v => v) v (subscriber_world w2 s') st' d') as
    (v' & s2 & l & Hv & _ & _ & (_ & Hnm & Hch) & Hl & _ & _ & Hi); [done | done | done | | done |].
  { apply (up_to_date_evolves v s s' p i st d Hp Hseen Hev Hup). }
  exists r', s', v', s2, (good v l); split; [done|]; split; [done|]; split; [by apply picks_fair; auto|]; intros c; unfold good.
  rewrite list_elem_of_filter; cbn in Hch; split.
  - intros [Hb Hc]; rewrite Forall_forall in Hnm; assert (Hcn : child_name c) by (by apply Hnm, list_elem_of_In); split; [done|]; split; [done|].
    apply (Hch c Hcn) in Hc; destruct (node_path_map_ r !! JoinPath p c) as [x|] eqn:Hm; [right; by eexists | left].
    destruct (Hsame _ Hm) as [Hk _]; by apply (kept_Some _ _ Hk).
  - intros (Hcn & Hb & Hc); split; [done|]; apply (Hch c Hcn); destruct (node_path_map_ r !! JoinPath p c) as [x|] eqn:Hm.
    + destruct (Hown (JoinPath p c)) as (st2 & d2 & -> & _); [by rewrite Hm|]; by eexists.
    + destruct Hc as [Hc|[? ?]]; [|done]; destruct (Hsame _ Hm) as [Hk _]; by apply (kept_Some _ _ Hk).
Qed.

(** ** What goes wrong *)

(** A flag that was set stays set: each later report of the path writes the node again. *)
Lemma failed_report_forces msg : forall l fl s fl' s' flag,
  report_all msg l fl s = Some (fl', s') -> fl !! flag = Some true -> fl' !! flag = Some true.
Proof.
  induction l as [|[p k] l IH]; intros fl s fl' s' flag; cbn; [by intros [= <- <-]|].
  destruct (Report p _ msg s) as [[[]|] s1]; [by apply IH | | done].
  intros Hr Hfl; eapply IH; [exact Hr|]; destruct (decide (k = flag)) as [->|]; [by rewrite lookup_insert_eq | by rewrite lookup_insert_ne].
Qed.

(** The path of a subscriber that is gone: its servers stay in the collection. *)
Lemma missing_path_keeps_servers h p i before now during v s :
  online h s -> nodes (client s) !! p = None -> next_scan_time (status_of v i) <= before ->
  exists v' s', Receive p i before now during v s = Some (v', s') /\ node_collection_ v' = node_collection_ v.
Proof.
  intros Ho Hp Hdue; unfold Receive; destruct (Z.ltb_spec before (next_scan_time (status_of v i))); [lia|].
  destruct (Exists_calm h p true s Ho) as (code & st1 & s1 & -> & Hf1 & Hn1 & Hm).
  rewrite Hp in Hm; subst code; rewrite (online_state h s1 (proj1 Hf1)); eexists _, _; split; done.
Qed.

(** A path that was deleted and made again with the version that was seen last: the scan
    takes its children for the old ones. *)
Lemma same_version_keeps_servers h p i before now during v s st d :
  online h s -> nodes (client s) !! p = Some (st, d) -> next_scan_time (status_of v i) <= before ->
  seen_cversion (status_of v i) = cversion st -> cversion st <> INVALID_CHILDVERSION ->
  exists s', Receive p i before now during v s = Some (v, s').
Proof.
  intros Ho Hp Hdue Hc Hi; unfold Receive; destruct (Z.ltb_spec before (next_scan_time (status_of v i))); [lia|].
  destruct (Exists_calm h p true s Ho) as (code & st1 & s1 & -> & Hf1 & Hn1 & Hm).
  rewrite Hp in Hm; destruct Hm as [-> ->]; rewrite (online_state h s1 (proj1 Hf1)).
  cbn [Z.eqb ZK_OK ZK_NONODE negb].
  assert ((seen_cversion (status_of v i) =? INVALID_CHILDVERSION) || negb (seen_cversion (status_of v i) =? cversion st) = false) as ->.
  { rewrite Hc, Z.eqb_refl, orb_false_r; by apply Z.eqb_neq. }
  by exists s1.
Qed.

End discovery.

(** A watcher that fires while the first scan of a path runs stores the zero that is there
    already, so the compare-and-swap that should notice it succeeds: the path is due again
    only after five seconds. *)
Lemma watcher_in_first_scan_is_missed now :
  0 <= now < 2 ^ 63 ->
  let v := add_path new_HeartbeatReceiver [47] in
  let v' := settle 0 INVALID_CHILDVERSION 0 7 now (CommonWatcher ZKEVENT_CHILD ZKSTATE_CONNECTED [47] v) in
  next_scan_time (status_of v' 0) = now + 5000.
Proof. intros Hn v v'; unfold v', v; change (next_scan_time _) with ((now + 5000) mod 2 ^ 64); rewrite Z.mod_small; lia. Qed.

(** When the path was due at another time the watcher is noticed: the path stays due and
    the thread does not sleep. *)
Lemma watcher_in_scan_is_noticed v i path cv next new now :
  paths_ v !! path = Some i -> next <> 0 ->
  let v' := settle i cv next new now (CommonWatcher ZKEVENT_CHILD ZKSTATE_CONNECTED path v) in
  seen_cversion (status_of v i) = cv -> next_scan_time (status_of v' i) = 0 /\ recv_skip_sleep v' = true.
Proof.
  intros Hp Hn v' Hcv.
  assert (Hu : CommonWatcher ZKEVENT_CHILD ZKSTATE_CONNECTED path v = WakeUpReceiver (set_scan i 0 v)).
  { unfold CommonWatcher; by rewrite Hp. }
  unfold v'; rewrite Hu; unfold settle.
  assert (Hst : status_of (WakeUpReceiver (set_scan i 0 v)) i = mkNodeStatus cv 0).
  { unfold status_of; cbn; rewrite lookup_insert_eq; cbn; by rewrite <- Hcv. }
  rewrite Hst; cbn [seen_cversion next_scan_time]; rewrite Z.eqb_refl.
  assert (Hst' : status_of (set_seen i new (WakeUpReceiver (set_scan i 0 v))) i = mkNodeStatus new 0).
  { unfold set_seen; rewrite Hst; unfold status_of; cbn; by rewrite lookup_insert_eq. }
  rewrite Hst'; cbn [next_scan_time]; destruct (Z.eqb_spec 0 next); [congruence|].
  cbn [negb andb recv_skip_sleep set_seen with_statuses WakeUpReceiver with_skip]; rewrite andb_false_r; cbn [negb].
  by rewrite Hst'.
Qed.

(** A removal with a future after one without: there is no future to wait for. *)
Lemma second_removal_does_not_wait p r :
  is_Some (node_path_map_ r !! node_path p r) -> node_path_to_remove_ r !! node_path p r = None ->
  (RemoveReportPath p true (RemoveReportPath p false r).2).1 = None.
Proof.
  intros [i Hi] Hr; unfold RemoveReportPath; cbn.
  rewrite Hr; cbn; rewrite andb_false_r; cbn.
  change (node_path p (WakeUpReporter _)) with (node_path p r); rewrite lookup_insert_eq; cbn.
  by rewrite bool_decide_false by (rewrite lookup_delete_eq; by intros [? ?]).
Qed.

(** A deletion that the wrapper refuses is forgotten: nothing is sent, no context waits, the
    promise is never fulfilled. *)
Lemma refused_removal_is_lost `{ZooConsts} `{ZooClient} l (s : world (L := closure)) :
  zhandle_ (wrapper s) = None -> send_removals l s = s.
Proof.
  intros Hh; induction l as [|[p pr] l IH]; cbn; [done|].
  unfold DeleteAsync, with_handle, mbind, act_bind, gets; cbn; by rewrite Hh.
Qed.

(** Ports below zero are taken for valid. *)
Lemma negative_port_is_valid : ValidatePort [45; 49] = Some (-1).
Proof. vm_compute; reflexivity. Qed.

(** ** A server *)

Module Server.
Import Client.

(** A tree in memory that only its sessions change; every handle is connected. *)
Record tree : Type := mkTree { tree_nodes : gmap bytes (ZKStatus * bytes) }.

Definition owned_by (owner : Z) : ZKStatus := mkStatus 0 0 0 0 0 0 0 owner 0 0 0.
Definition bump (st : ZKStatus) : ZKStatus :=
  mkStatus (czxid st) (mzxid st) (ctime st) (mtime st) (version st) (cversion st + 1) (aversion st)
    (ephemeralOwner st) (dataLength st) (numChildren st) (pzxid st).
Definition child_of (p q : bytes) : option bytes :=
  let c := drop (length (strip_tail p) + 1) q in
  if decide (JoinPath p c = q /\ c <> [] /\ 47 ∉ c) then Some c else None.
(** The parent of a node that comes or goes counts it. *)
Definition count_child (p q : bytes) (x : ZKStatus * bytes) : option (ZKStatus * bytes) :=
  Some (if child_of q p then bump x.1 else x.1, x.2).
Definition with_child (p : bytes) (t : gmap bytes (ZKStatus * bytes)) : gmap bytes (ZKStatus * bytes) := map_imap (count_child p) t.
Definition children_of (p : bytes) (t : gmap bytes (ZKStatus * bytes)) : list bytes := omap (child_of p) (map_to_list t).*1.

Definition answer (code : Z) (st : ZKStatus) (l : list bytes) : response := mkResponse code [] [] st l.
Definition serve (z : tree) (h : zhandle) (q : request) : tree * response :=
  let t := tree_nodes z in
  match q with
  | zoo_exists p _ =>
      (z, match t !! p with Some (st, _) => answer ZOK st [] | None => answer ZNONODE new_ZKStatus [] end)
  | zoo_create p v _ =>
      match t !! p with
      | None =>
          if decide (p = []) then (z, answer ZBADARGUMENTS new_ZKStatus [])
          else (mkTree (<[p := (owned_by (Z.of_nat h + 100), v)]> (with_child p t)), answer ZOK new_ZKStatus [])
      | Some _ => (z, answer ZNODEEXISTS new_ZKStatus [])
      end
  | zoo_set2 p v _ =>
      match t !! p with
      | Some (st, _) => (mkTree (<[p := (st, v)]> t), answer ZOK st [])
      | None => (z, answer ZNONODE new_ZKStatus [])
      end
  | zoo_delete p _ =>
      match t !! p with Some _ => (mkTree (delete p (with_child p t)), answer ZOK new_ZKStatus []) | None => (z, answer ZNONODE new_ZKStatus []) end
  | zoo_get_children2 p _ =>
      (z, match t !! p with Some (st, _) => answer ZOK st (children_of p t) | None => answer ZNONODE new_ZKStatus [] end)
  | _ => (z, answer ZINVALIDSTATE new_ZKStatus [])
  end.

#[export] Instance tree_client : ZooClient := {
  zoo := tree;
  elapse z := z;
  zookeeper_init z _ _ := (z, inl 0%nat);
  zookeeper_close z _ := Some (z, ZOK);
  zoo_perform := serve;
  zoo_state _ _ := ZOO_CONNECTED_STATE;
  zoo_client_id _ h := Z.of_nat h + 100;
  zoo_deliver z _ _ := None;
  zoo_return z _ _ := None
}.

Lemma strip_head_name c : child_name c -> strip_head c = c.
Proof.
  intros [_ Hc]; unfold strip_head; case_decide as Hd; [|done]; exfalso; apply Hc; by eapply list_elem_of_lookup_2.
Qed.

Lemma child_of_join p c : p <> [] -> child_name c -> child_of p (JoinPath p c) = Some c.
Proof.
  intros Hp Hc; unfold child_of.
  assert (Hd : drop (length (strip_tail p) + 1) (JoinPath p c) = c).
  { rewrite (JoinPath_spec p c Hp) by apply Hc; rewrite (strip_head_name c Hc), app_assoc.
    replace (length (strip_tail p) + 1)%nat with (length (strip_tail p ++ [47])) by (rewrite length_app; cbn; lia).
    apply drop_app_length. }
  rewrite Hd, decide_True; [done | split; [done | exact Hc]].
Qed.

Lemma children_of_spec p t c :
  p <> [] -> child_name c -> c ∈ children_of p t <-> is_Some (t !! JoinPath p c).
Proof.
  intros Hp Hc; unfold children_of; rewrite list_elem_of_omap; split.
  - intros (q & Hq & Hcq); unfold child_of in Hcq; case_decide as Hd; [|done]; injection Hcq as Hcq.
    destruct Hd as [Hj _]; rewrite Hcq in Hj; subst q.
    apply list_elem_of_fmap in Hq as ([q x] & -> & Hx%elem_of_map_to_list); by eexists.
  - intros [x Hx]; exists (JoinPath p c); split; [|by apply child_of_join].
    apply list_elem_of_fmap; exists (JoinPath p c, x); split; [done | by apply elem_of_map_to_list].
Qed.

Lemma children_of_NoDup p t : NoDup (children_of p t).
Proof.
  unfold children_of.
  assert (Hinj : forall q1 q2 c, child_of p q1 = Some c -> child_of p q2 = Some c -> q1 = q2).
  { assert (Hback : forall q c, child_of p q = Some c -> JoinPath p c = q).
    { intros q c; unfold child_of; case_decide as Hd; [|done]; intros [= Hc]; rewrite Hc in Hd; by destruct Hd. }
    intros q1 q2 c H1 H2; rewrite <- (Hback _ _ H1); by apply Hback. }
  pose proof (NoDup_fst_map_to_list t) as Hn; induction (map_to_list t).*1 as [|q l IH]; cbn; [constructor|].
  apply list.NoDup_cons in Hn as [Hq Hn]; destruct (child_of p q) as [c|] eqn:Hc; [|auto].
  apply list.NoDup_cons; split; [|auto]; intros (q' & Hq' & Hc')%list_elem_of_omap.
  rewrite (Hinj q q' c) in Hq by done; done.
Qed.

Lemma lookup_with_child p t q : with_child p t !! q = t !! q ≫= count_child p q.
Proof. apply map_lookup_imap. Qed.

(** A change at [p] of the tree in which the parent of [p] counts it. *)
Lemma with_child_changes (p : bytes) (t : gmap bytes (ZKStatus * bytes)) x :
  t !! [] = None -> changes p t (partial_alter (fun _ => x) p (with_child p t)).
Proof.
  intros Ht q Hq; split; [|intros st d Hst].
  - rewrite lookup_partial_alter_ne by done; rewrite lookup_with_child; destruct (t !! q) as [[st d]|]; cbn; [|done]; by case_match.
  - assert (Hq0 : q <> []) by congruence.
    exists (if child_of q p then bump st else st), d; split; [rewrite lookup_partial_alter_ne by done; by rewrite lookup_with_child, Hst|].
    destruct (child_of q p) as [c0|] eqn:Hc0; cbn; [split; [lia|]; intros; lia|]; split; [lia|]; intros _ c Hc.
    destruct (decide (JoinPath q c = p)) as [<-|Hne]; [by rewrite child_of_join in Hc0|].
    rewrite lookup_partial_alter_ne by done; rewrite lookup_with_child; destruct (t !! JoinPath q c) as [[]|]; cbn; [split; eauto | done].
Qed.

(** New data change nothing else. *)
Lemma set_changes (p : bytes) (t : gmap bytes (ZKStatus * bytes)) st d v : t !! p = Some (st, d) -> changes p t (<[p := (st, v)]> t).
Proof.
  intros Hp q Hq; rewrite lookup_insert_ne by done; split; [apply kept_refl|]; intros st' d' Hq'; exists st', d'; rewrite lookup_insert_ne by done.
  split; [done|]; split; [lia|]; intros _ c _; destruct (decide (JoinPath q c = p)) as [->|]; [rewrite Hp, lookup_insert_eq; split; eauto | by rewrite lookup_insert_ne].
Qed.

Lemma serve_calm z h q : tree_nodes z !! [] = None -> tree_nodes (serve z h q).1 !! [] = None.
Proof.
  intros Hz; destruct q; cbn; try done.
  - destruct (tree_nodes z !! path); [done|]; case_decide; [done|]; cbn; rewrite lookup_insert_ne by done; by rewrite lookup_with_child, Hz.
  - destruct (tree_nodes z !! path) eqn:Hp; [|done]; cbn; apply lookup_delete_None; right; by rewrite lookup_with_child, Hz.
  - destruct (tree_nodes z !! path) as [[st d]|] eqn:Hp; [|done]; cbn; rewrite lookup_insert_ne; [done | congruence].
Qed.

#[export] Instance server : ZooServer.
Proof.
  refine (Build_ZooServer consts tree_client tree_nodes (fun z => tree_nodes z !! [] = None) (fun p => p <> []) _ _ _ _ _ _ _ _).
  - intros z h p w z' r; cbn; destruct (tree_nodes z !! p) as [[st d]|] eqn:Hp; intros [= <- <-]; [|done].
    intros _; rewrite Hp; split; [done | by intros k].
  - intros z Hz; split; [done | split; [done | by intros k]].
  - intros z h q Hz; split; [by apply serve_calm | by intros k].
  - intros z h p w z' r _ _; cbn; intros [= <- <-]; split; [done|]; by destruct (tree_nodes z !! p) as [[st d]|].
  - intros z h p value z' r Hz _ Hp Hn; cbn; rewrite Hn, decide_False by done; intros [= <- <-]; split; [done|]; cbn.
    split; [exact (with_child_changes p _ (Some _) Hz)|]; eexists; split; [apply lookup_insert_eq | done].
  - intros z h p value z' r st d _ _ Hn; cbn; rewrite Hn; intros [= <- <-]; split; [done|]; cbn; split; [by eapply set_changes|].
    eexists; split; [apply lookup_insert_eq | done].
  - intros z h p z' r st d Hz _ Hn; cbn; rewrite Hn; intros [= <- <-]; split; [done|]; cbn.
    split; [exact (with_child_changes p _ None Hz) | apply lookup_delete_eq].
  - intros z h p w z' r st d Hz _ Hn; cbn; rewrite Hn; intros [= <- <-]; cbn.
    split; [done|]; split; [done|]; split; [done|]; split; [apply children_of_NoDup|]; split.
    + apply Forall_forall; intros c Hc; apply list_elem_of_In, list_elem_of_omap in Hc as (q & _ & Hc); unfold child_of in Hc; case_decide as Hd; [|done].
      injection Hc as <-; exact (proj2 Hd).
    + intros c Hc; apply children_of_spec; [intros ->; congruence | done].
Defined.

(** A server for "/svc" with one node under it, the wrapper of a reporter and the one of a
    subscriber. *)
Definition svc : bytes := [47; 115; 118; 99].
Definition other : bytes := [57; 58; 49].
Definition site : tree := mkTree (<[svc := (owned_by 0, [])]> (<[JoinPath svc other := (owned_by 7, [])]> ∅)).
Definition connected_wrapper (h : zhandle) : ZKWrapper (L := closure) := set_handle (Some h) (new_ZKWrapper [] None 3000).
Definition site_world (h : zhandle) : world (L := closure) := mkWorld (connected_wrapper h) site [].
Definition me : HeartbeatMessage := mkMessage [49; 50] 80.
Definition reporting_me : HeartbeatReporter :=
  AddPathToReport svc (mkReporter true false (Some me) 5 ∅ ∅ ∅ ∅ 0 false true).

End Server.

Import Client Server.

Lemma new_Inv : Inv new_NodeCollectionImpl.
Proof.
  split; cbn; [intros p l Hl; by apply lookup_empty_Some in Hl | intros p l n Hl; by apply lookup_empty_Some in Hl |].
  intros p; rewrite !lookup_empty; done.
Qed.

Lemma result_eq {A B} (x : A * B) a : x.1 = a -> x = (a, x.2).
Proof. by destruct x as [? ?]; intros <-. Qed.

Lemma report_true_owner_witness :
  exists st, fst <$> nodes (client (Report (JoinPath svc (node_name me)) false (Some [1]) (site_world 1%nat)).2)
      !! JoinPath svc (node_name me) = Some st /\
    ephemeralOwner st = session (Report (JoinPath svc (node_name me)) false (Some [1]) (site_world 1%nat)).2.
Proof.
  apply (report_true_owner (JoinPath svc (node_name me)) false (Some [1]) (site_world 1%nat));
    [apply result_eq; vm_compute; reflexivity | vm_compute; reflexivity].
Defined.

Lemma registered_server_is_picked_witness :
  exists r' s' v' s2 l,
    ReportRound (Some [1]) reporting_me (site_world 1%nat) = Some (r', s') /\
    Receive svc 0 9 9 (fun v => v) (add_path new_HeartbeatReceiver svc) (subscriber_world (connected_wrapper 2%nat) s') = Some (v', s2) /\
    picks (length l) svc (node_collection_ v') ≡ₚ Some <$> l /\ node_name me ∈ l /\ other ∈ l.
Proof.
  assert (Hname : forall c, bool_decide (c <> [] /\ 47 ∉ c) = true -> child_name c) by (intros c Hc; by apply bool_decide_eq_true in Hc).
  destruct (registered_server_is_picked 1%nat 2%nat [1] reporting_me (site_world 1%nat) (connected_wrapper 2%nat)
    (add_path new_HeartbeatReceiver svc) svc 0 9 9 (owned_by 0) []) as (r' & s' & v' & s2 & l & Hr & Hv & Hp & Hin).
  - split; [reflexivity | split; [reflexivity | vm_compute; reflexivity]].
  - intros q [x Hx] ->; vm_compute in Hx; discriminate.
  - reflexivity.
  - reflexivity.
  - reflexivity.
  - vm_compute; reflexivity.
  - vm_compute; reflexivity.
  - exact new_Inv.
  - vm_compute; discriminate.
  - vm_compute; discriminate.
  - intros st d _ Hne; destruct Hne; vm_compute; reflexivity.
  - exists r', s', v', s2, l; repeat (split; [assumption|]); split; apply Hin; (split; [apply Hname; vm_compute; reflexivity|]);
      (split; [apply not_elem_of_empty|]); [right | left]; vm_compute; eauto.
Defined.
