(* ===== verification/Channels.v ===== *)
(** * Channels to servers: src/leader/brpc/brpc_channel_group.cc, brpc_channel_pool.cc,
    brpc_call.h, brpc_server_subscriber.cc and brpc_bad_node_detector.cc

    A pool has a group of channels for each address, opened one by one up to a capacity; a
    ping that is answered makes a channel good, one that fails makes it bad, and a
    subscriber takes a good channel of an address that the node collection picks.  brpc is
    outside: whether a channel can be initialised and whether a ping is answered are
    arguments.  Pings are in flight till they are answered, in any order. *)
From Stdlib Require Import ZArith Lia.
From stdpp Require Import base list option gmap.
From S2P Require Import Prelude Strings Nodes.

(** ** Groups *)

(** A channel, by its address. *)
Definition chan : Type := nat.

(** [class BrpcChannelGroup]: a slot is a pointer and a flag. *)
Record BrpcChannelGroup : Type := mkGroup {
  channel_capacity_ : nat;
  channel_count_ : nat;
  index_ : Z;
  channels_ : list (option chan * bool)
}.
Definition new_BrpcChannelGroup (channelCount : nat) : BrpcChannelGroup :=
  mkGroup channelCount 0 0 (repeat (None, false) channelCount).

Definition IsFull (g : BrpcChannelGroup) : bool := (channel_capacity_ g <=? channel_count_ g)%nat.

(** [AddChannel]: the slot that was taken. *)
Definition AddChannel (g : BrpcChannelGroup) : option nat * BrpcChannelGroup :=
  if IsFull g then (None, g)
  else
    let index := channel_count_ g in
    (if (channel_capacity_ g <=? index)%nat then None else Some index,
     mkGroup (channel_capacity_ g) (S index) (index_ g) (channels_ g)).

(** [PickChannel]: the first good slot from the running index on. *)
Fixpoint pick_loop (fuel : nat) (g : BrpcChannelGroup) (index : nat) : option chan :=
  match fuel with
  | O => None
  | S fuel =>
      match channels_ g !! index with
      | Some (c, true) => c
      | _ => pick_loop fuel g ((index + 1) mod channel_capacity_ g)
      end
  end.
Definition PickChannel (g : BrpcChannelGroup) : option chan * BrpcChannelGroup :=
  let index := (Z.to_nat (index_ g) mod channel_capacity_ g)%nat in
  (pick_loop (channel_capacity_ g) g index,
   mkGroup (channel_capacity_ g) (channel_count_ g) ((index_ g + 1) mod 2 ^ 32)%Z (channels_ g)).

(** [MoveChannelToBad] and [MoveChannelToGood]. *)
Definition mark (c : chan) (b : bool) (slot : option chan * bool) : option chan * bool :=
  if decide (slot.1 = Some c) then (slot.1, b) else slot.
Definition with_channels (l : list (option chan * bool)) (g : BrpcChannelGroup) : BrpcChannelGroup :=
  mkGroup (channel_capacity_ g) (channel_count_ g) (index_ g) l.
Definition MoveChannelToBad (c : chan) (g : BrpcChannelGroup) : BrpcChannelGroup :=
  with_channels (mark c false <$> channels_ g) g.
Definition MoveChannelToGood (c : chan) (g : BrpcChannelGroup) : BrpcChannelGroup :=
  with_channels (mark c true <$> channels_ g) g.

(** ** The pool *)

(** [class BrpcChannelPool]: groups are objects in a store; [pings] are in flight. *)
Record BrpcChannelPool : Type := mkPool {
  channel_count : nat;
  channel_pool_ : gmap bytes nat;
  groups : gmap nat BrpcChannelGroup;
  channel_group_cache_ : gmap chan nat;
  next_group : nat;
  next_chan : chan;
  pings : list chan
}.

(** [Init] rejects a count of zero. *)
Definition InitPool (count : nat) : option BrpcChannelPool :=
  if (count =? 0)%nat then None else Some (mkPool count ∅ ∅ ∅ 0 0 []).

Definition with_groups (f : gmap nat BrpcChannelGroup) (p : BrpcChannelPool) : BrpcChannelPool :=
  mkPool (channel_count p) (channel_pool_ p) f (channel_group_cache_ p) (next_group p) (next_chan p) (pings p).
Definition update_group (i : nat) (g : BrpcChannelGroup) (p : BrpcChannelPool) : BrpcChannelPool :=
  with_groups (<[i := g]> (groups p)) p.

(** The group of an address, made when it is missing. *)
Definition find_group (spec : bytes) (p : BrpcChannelPool) : nat * BrpcChannelPool :=
  match channel_pool_ p !! spec with
  | Some i => (i, p)
  | None =>
      let i := next_group p in
      (i, mkPool (channel_count p) (<[spec := i]> (channel_pool_ p)) (<[i := new_BrpcChannelGroup (channel_count p)]> (groups p))
            (channel_group_cache_ p) (S i) (next_chan p) (pings p))
  end.

(** [OpenNewChannel]: [initialised] is whether [Init] of the new channel succeeds.  The
    ping is sent last. *)
Definition OpenNewChannel (initialised : bool) (i : nat) (p : BrpcChannelPool) : BrpcChannelPool :=
  match groups p !! i with
  | None => p
  | Some g =>
      match AddChannel g with
      | (None, g) => update_group i g p
      | (Some slot, g) =>
          let c := next_chan p in
          if initialised then
            mkPool (channel_count p) (channel_pool_ p)
              (<[i := with_channels (alter (fun s => (Some c, s.2)) slot (channels_ g)) g]> (groups p))
              (<[c := i]> (channel_group_cache_ p)) (next_group p) (S c) (pings p ++ [c])
          else
            mkPool (channel_count p) (channel_pool_ p) (<[i := g]> (groups p)) (channel_group_cache_ p) (next_group p) (S c) (pings p)
      end
  end.

(** [GetChannel] of the pool. *)
Definition GetChannel (initialised : bool) (spec : bytes) (p : BrpcChannelPool) : option chan * BrpcChannelPool :=
  let '(i, p) := find_group spec p in
  match groups p !! i with
  | None => (None, p)
  | Some g =>
      let p := if negb (IsFull g) then OpenNewChannel initialised i p else p in
      match groups p !! i with
      | None => (None, p)
      | Some g => let '(c, g) := PickChannel g in (c, update_group i g p)
      end
  end.

(** [FindChannelGroup], which ends the process when the channel is not in the cache
    ([None]), and the answer to a ping. *)
Definition FindChannelGroup (c : chan) (p : BrpcChannelPool) : option nat := channel_group_cache_ p !! c.
Definition HandleResponseImpl (answered : bool) (c : chan) (p : BrpcChannelPool) : option BrpcChannelPool :=
  match FindChannelGroup c p with
  | None => None
  | Some i =>
      match groups p !! i with
      | None => Some p
      | Some g => Some (update_group i (if answered then MoveChannelToGood c g else MoveChannelToBad c g) p)
      end
  end.

(** The answer to the ping of a new channel. *)
Definition HandleResponse (answered : bool) (k : nat) (p : BrpcChannelPool) : option BrpcChannelPool :=
  match pings p !! k with
  | None => Some p
  | Some c =>
      HandleResponseImpl answered c
        (mkPool (channel_count p) (channel_pool_ p) (groups p) (channel_group_cache_ p) (next_group p) (next_chan p) (delete k (pings p)))
  end.

(** [CheckChannels]: the bad channels are pinged, [up] is who answers; the answers are
    counted, in the order in which they are asked. *)
Definition to_check (g : BrpcChannelGroup) : list chan :=
  omap (fun s : option chan * bool => if s.2 then None else s.1) (channels_ g).
Fixpoint ping_all (up : chan -> bool) (l : list chan) (bad : nat) (p : BrpcChannelPool) : option (nat * BrpcChannelPool) :=
  match l with
  | [] => Some (bad, p)
  | c :: l =>
      match HandleResponseImpl (up c) c p with
      | None => None
      | Some p => ping_all up l (if up c then bad else S bad) p
      end
  end.
Definition CheckChannels (up : chan -> bool) (i : nat) (p : BrpcChannelPool) : option (bool * BrpcChannelPool) :=
  match groups p !! i with
  | None => Some (true, p)
  | Some g =>
      '(bad, p) ← ping_all up (to_check g) 0 p;
      Some ((bad <? channel_capacity_ g)%nat, p)
  end.

(** [CheckAndGetBadNodeSpecs], over the addresses of the pool. *)
Fixpoint check_groups (up : chan -> bool) (l : list (bytes * nat)) (blackList : gset bytes) (p : BrpcChannelPool)
    : option (gset bytes * BrpcChannelPool) :=
  match l with
  | [] => Some (blackList, p)
  | (spec, i) :: l =>
      '(alive, p) ← CheckChannels up i p;
      check_groups up l (if alive : bool then blackList else {[spec]} ∪ blackList) p
  end.
Definition CheckAndGetBadNodeSpecs (up : chan -> bool) (p : BrpcChannelPool) : option (gset bytes * BrpcChannelPool) :=
  check_groups up (map_to_list (channel_pool_ p)) ∅ p.

(** ** Detector and subscriber *)

(** A round of [BrpcBadNodeDetector]: the pool is checked, the collection updated. *)
Definition DetectRound (up : chan -> bool) (specList : gset bytes) (c : NodeCollectionImpl) (p : BrpcChannelPool)
    : option (gset bytes * NodeCollectionImpl * BrpcChannelPool) :=
  '(black, p) ← CheckAndGetBadNodeSpecs up p;
  let '(specList, c) := DoDetect black (specList, c) in
  Some (specList, c, p).

Definition GET_CHANNEL_RETRY_TIMES : nat := 3.

(** [BrpcServerSubscriber::GetChannel]; [init] is whether the channel of the k-th try can be
    initialised. *)
Fixpoint get_channel_loop (fuel : nat) (init : nat -> bool) (path : bytes) (c : NodeCollectionImpl) (p : BrpcChannelPool)
    : option chan * NodeCollectionImpl * BrpcChannelPool :=
  match fuel with
  | O => (None, c, p)
  | S fuel =>
      match PickOneNode path c with
      | (None, c) => (None, c, p)
      | (Some spec, c) =>
          match GetChannel (init fuel) spec p with
          | (Some ch, p) => (Some ch, c, p)
          | (None, p) => get_channel_loop fuel init path c p
          end
      end
  end.
Definition SubscriberGetChannel (init : nat -> bool) (path : bytes) (c : NodeCollectionImpl) (p : BrpcChannelPool) :=
  get_channel_loop GET_CHANNEL_RETRY_TIMES init path c p.

(** ** The invariant *)

Record PoolInv (p : BrpcChannelPool) : Prop := {
  inv_count : (0 < channel_count p)%nat;
  inv_pool spec i : channel_pool_ p !! spec = Some i -> is_Some (groups p !! i);
  inv_groups i : is_Some (groups p !! i) -> (i < next_group p)%nat;
  inv_shape i g : groups p !! i = Some g ->
    channel_capacity_ g = channel_count p /\ length (channels_ g) = channel_count p;
  inv_free i g k s : groups p !! i = Some g -> channels_ g !! k = Some s -> (channel_count_ g <= k)%nat -> s = (None, false);
  inv_slot i g k c b : groups p !! i = Some g -> channels_ g !! k = Some (Some c, b) -> channel_group_cache_ p !! c = Some i;
  inv_once i g k k' c b b' : groups p !! i = Some g -> channels_ g !! k = Some (Some c, b) -> channels_ g !! k' = Some (Some c, b') -> k = k';
  inv_cache c i : channel_group_cache_ p !! c = Some i -> (c < next_chan p)%nat;
  inv_pings c : c ∈ pings p -> is_Some (channel_group_cache_ p !! c);
  inv_null i g k b : groups p !! i = Some g -> channels_ g !! k = Some (None, b) -> b = false;
  inv_inj spec spec' i : channel_pool_ p !! spec = Some i -> channel_pool_ p !! spec' = Some i -> spec = spec'
}.

Lemma InitPool_Inv n p : InitPool n = Some p -> PoolInv p.
Proof.
  unfold InitPool; destruct (Nat.eqb_spec n 0) as [|Hn]; [done|]; intros [= <-].
  constructor; cbn [channel_count channel_pool_ groups channel_group_cache_ next_group next_chan pings].
  all: try (intros *; rewrite lookup_empty; by intros).
  - lia.
  - intros c Hc; by apply elem_of_nil in Hc.
Qed.

(** A group keeps its shape: same slots, other flags. *)
Definition same_slots (g g' : BrpcChannelGroup) : Prop :=
  channel_capacity_ g' = channel_capacity_ g /\ channel_count_ g' = channel_count_ g /\ (channels_ g').*1 = (channels_ g).*1.

Lemma same_slots_lookup g g' k c b :
  same_slots g g' -> channels_ g' !! k = Some (c, b) -> exists b', channels_ g !! k = Some (c, b').
Proof.
  intros (_ & _ & He) Hk.
  assert (Hf : (channels_ g').*1 !! k = Some c) by (by rewrite list_lookup_fmap, Hk).
  rewrite He, list_lookup_fmap in Hf; destruct (channels_ g !! k) as [[c0 b0]|]; [|done].
  injection Hf as <-; by exists b0.
Qed.

Lemma update_group_Inv p i g g' :
  PoolInv p -> groups p !! i = Some g -> same_slots g g' ->
  (forall k, (channel_count_ g <= k)%nat -> channels_ g' !! k = channels_ g !! k) ->
  (forall k b, channels_ g' !! k = Some (None, b) -> channels_ g !! k = Some (None, b)) -> PoolInv (update_group i g' p).
Proof.
  intros Hinv Hg Hs Hfree Hnull; destruct Hinv as [Hc Hp Hgs Hsh Hf Hsl Ho Hca Hpi Hnu Hij].
  pose proof Hs as (Hcap & Hcnt & Hsl').
  assert (Hlen : length (channels_ g') = length (channels_ g)).
  { rewrite <- (length_fmap fst (channels_ g')), Hsl'; apply length_fmap. }
  constructor; cbn; auto.
  - intros spec j Hj; destruct (decide (i = j)) as [->|]; [rewrite lookup_insert_eq; by eexists | rewrite lookup_insert_ne by done; eauto].
  - intros j [x Hx]; apply lookup_insert_Some in Hx as [[<- _] | [_ Hx]]; apply Hgs; [rewrite Hg | rewrite Hx]; by eexists.
  - intros j h [[<- <-] | [_ Hj]]%lookup_insert_Some; [|by eapply Hsh]; destruct (Hsh _ _ Hg); split; congruence.
  - intros j h k s [[<- <-] | [_ Hj]]%lookup_insert_Some; [|by eapply Hf].
    rewrite Hcnt; intros Hk Hle; rewrite Hfree in Hk by done; by eapply Hf.
  - intros j h k c b [[<- <-] | [_ Hj]]%lookup_insert_Some; [|by eapply Hsl].
    intros Hk; destruct (same_slots_lookup _ _ _ _ _ Hs Hk) as [b' ?]; by eapply Hsl.
  - intros j h k k' c b b' [[<- <-] | [_ Hj]]%lookup_insert_Some; [|by eapply Ho].
    intros Hk Hk'; destruct (same_slots_lookup _ _ _ _ _ Hs Hk), (same_slots_lookup _ _ _ _ _ Hs Hk'); by eapply Ho.
  - intros j h k b [[<- <-] | [_ Hj]]%lookup_insert_Some; [|by eapply Hnu]; intros Hk; eapply Hnu; [exact Hg | by apply Hnull].
Qed.

Lemma mark_slots c b g : same_slots g (with_channels (mark c b <$> channels_ g) g).
Proof.
  split; [done | split; [done|]]; cbn; rewrite <- list_fmap_compose; apply list_fmap_ext; intros k [o x] _.
  unfold mark; cbn; by case_decide.
Qed.
Lemma mark_free c b g k : channels_ g !! k = Some (None, false) -> (mark c b <$> channels_ g) !! k = Some (None, false).
Proof. intros Hk; rewrite list_lookup_fmap, Hk; cbn; unfold mark; by rewrite decide_False. Qed.

(** An answer never misses the cache. *)
Lemma HandleResponseImpl_Inv answered c p :
  PoolInv p -> is_Some (channel_group_cache_ p !! c) ->
  exists p', HandleResponseImpl answered c p = Some p' /\ PoolInv p' /\ channel_group_cache_ p' = channel_group_cache_ p.
Proof.
  intros Hinv [i Hi]; unfold HandleResponseImpl, FindChannelGroup; rewrite Hi.
  destruct (groups p !! i) as [g|] eqn:Hg; [|by exists p].
  eexists; split; [done|]; split; [|done].
  assert (Hmark : forall b, PoolInv (update_group i (with_channels (mark c b <$> channels_ g) g) p)).
  { intros b; eapply update_group_Inv; [done | exact Hg | apply mark_slots | |].
    1: intros k Hk; cbn; destruct (channels_ g !! k) as [s|] eqn:Hs; [|by rewrite list_lookup_fmap, Hs].
    - pose proof (inv_free _ Hinv _ _ _ _ Hg Hs Hk) as ->; by apply mark_free.
    - intros k x; cbn; rewrite list_lookup_fmap; destruct (channels_ g !! k) as [[o y]|] eqn:Hs; [|done].
      cbn; unfold mark; cbn; case_decide; intros [= -> ->]; done. }
  destruct answered; apply Hmark.
Qed.

Lemma find_group_Inv spec p :
  PoolInv p -> PoolInv (find_group spec p).2 /\ is_Some (groups (find_group spec p).2 !! (find_group spec p).1) /\
    channel_pool_ (find_group spec p).2 !! spec = Some (find_group spec p).1.
Proof.
  intros Hinv; unfold find_group; destruct (channel_pool_ p !! spec) as [i|] eqn:Hi; cbn.
  { split; [done | split; [by apply (inv_pool _ Hinv spec) | done]]. }
  split; [|split; [rewrite lookup_insert_eq; by eexists | by rewrite lookup_insert_eq]].
  destruct Hinv as [Hc Hp Hgs Hsh Hf Hsl Ho Hca Hpi Hnu Hij].
  assert (Hrep : forall k s, repeat (None : option chan, false) (channel_count p) !! k = Some s -> s = (None, false)).
  { intros k s Hs; by apply list_elem_of_lookup_2, list_elem_of_In, repeat_spec in Hs. }
  constructor; cbn; auto.
  - intros q j [[<- <-] | [_ Hj]]%lookup_insert_Some; [rewrite lookup_insert_eq; by eexists|].
    destruct (Hp _ _ Hj) as [h Hh]; destruct (decide (next_group p = j)) as [->|]; [rewrite lookup_insert_eq; by eexists|].
    rewrite lookup_insert_ne by done; eauto.
  - intros j [x Hx]; apply lookup_insert_Some in Hx as [[<- _] | [_ Hx]]; [lia|]. assert (j < next_group p)%nat by (apply Hgs; rewrite Hx; by eexists); lia.
  - intros j g [[<- <-] | [_ Hj]]%lookup_insert_Some; [cbn; by rewrite repeat_length | eauto].
  - intros j g k s [[<- <-] | [_ Hj]]%lookup_insert_Some; [intros Hs _; by eapply Hrep | eauto].
  - intros j g k c b [[<- <-] | [_ Hj]]%lookup_insert_Some; [intros Hs%Hrep; done | eauto].
  - intros j g k k' c b b' [[<- <-] | [_ Hj]]%lookup_insert_Some; [intros Hs%Hrep; done | eauto].
  - intros j g k b [[<- <-] | [_ Hj]]%lookup_insert_Some; [intros Hs%Hrep; by injection Hs | eauto].
  - assert (Hnew : forall q, channel_pool_ p !! q <> Some (next_group p)).
    { intros q Hq; apply Hp, Hgs in Hq; lia. }
    intros q q' j [[<- <-] | [Hq1 Hj]]%lookup_insert_Some [[<- Hj'] | [Hq2 Hj']]%lookup_insert_Some; subst; try done; eauto;
      exfalso; eapply Hnew; eauto.
Qed.

(** The fields of the pool that only a new channel changes. *)
Lemma OpenNewChannel_Inv init i g p :
  PoolInv p -> groups p !! i = Some g -> IsFull g = false ->
  PoolInv (OpenNewChannel init i p) /\ is_Some (groups (OpenNewChannel init i p) !! i) /\
  channel_pool_ (OpenNewChannel init i p) = channel_pool_ p.
Proof.
  intros Hinv Hg Hfull; unfold OpenNewChannel; rewrite Hg; unfold AddChannel; rewrite Hfull.
  unfold IsFull in Hfull; rewrite Hfull; apply Nat.leb_gt in Hfull.
  destruct Hinv as [Hc Hp Hgs Hsh Hf Hsl Ho Hca Hpi Hnu Hij]; destruct (Hsh _ _ Hg) as [Hcap Hlen].
  set (k0 := channel_count_ g) in *; set (c0 := next_chan p) in *.
  assert (Hg' : forall h, is_Some (<[i := h]> (groups p) !! i)) by (intros h; rewrite lookup_insert_eq; by eexists).
  assert (Hk0 : is_Some (channels_ g !! k0)) by (apply lookup_lt_is_Some; lia).
  assert (Hpool : forall h spec j, channel_pool_ p !! spec = Some j -> is_Some (<[i := h]> (groups p) !! j)).
  { intros h spec j Hj; destruct (decide (i = j)) as [->|]; [apply Hg' | rewrite lookup_insert_ne by done; eauto]. }
  assert (Hgrp : forall h j, is_Some (<[i := h]> (groups p) !! j) -> (j < next_group p)%nat).
  { intros h j [x Hx]; apply lookup_insert_Some in Hx as [[<- _] | [_ Hx]]; apply Hgs; [rewrite Hg | rewrite Hx]; by eexists. }
  destruct init; (split; [|split; [apply Hg' | done]]); constructor; cbn -[lookup insert alter]; eauto.
  - intros j h [[<- <-] | [_ Hj]]%lookup_insert_Some; [cbn; rewrite length_alter; done | eauto].
  - intros j h k s [[<- <-] | [_ Hj]]%lookup_insert_Some; cbn; [|eauto].
    intros Hk Hle; rewrite list_lookup_alter_ne in Hk by lia; eapply Hf; [exact Hg | exact Hk | unfold k0 in *; lia].
  - intros j h k c b [[<- <-] | [_ Hj]]%lookup_insert_Some; cbn.
    + destruct (decide (k = k0)) as [->|Hne].
      * destruct Hk0 as [s0 Hs0]; rewrite list_lookup_alter_eq, Hs0; intros [= <- <-]; by rewrite lookup_insert_eq.
      * rewrite list_lookup_alter_ne by done; intros Hk; assert (Hcc := Hsl _ _ _ _ _ Hg Hk).
        rewrite lookup_insert_ne; [done | intros He; apply Hca in Hcc; unfold c0 in *; lia].
    + intros Hk; assert (Hcc := Hsl _ _ _ _ _ Hj Hk).
      rewrite lookup_insert_ne; [done | intros He; apply Hca in Hcc; unfold c0 in *; lia].
  - intros j h k k' c b b' [[<- <-] | [_ Hj]]%lookup_insert_Some; cbn; [|eauto].
    assert (Hnew : forall q b1, channels_ g !! q = Some (Some c0, b1) -> False).
    { intros q b1 Hq; apply (Hsl _ _ _ _ _ Hg), Hca in Hq; unfold c0 in *; lia. }
    destruct Hk0 as [s0 Hs0].
    destruct (decide (k = k0)) as [->|Hne], (decide (k' = k0)) as [->|Hne']; try done;
      rewrite ?list_lookup_alter_eq, ?list_lookup_alter_ne, ?Hs0 by done; cbn; intros H1 H2; simplify_eq; try (by exfalso; eauto); eauto.
  - intros c j [[<- _] | [_ Hj]]%lookup_insert_Some; [lia | apply Hca in Hj; unfold c0 in *; lia].
  - intros c [Hin | ->%list_elem_of_singleton]%elem_of_app; [|rewrite lookup_insert_eq; by eexists].
    destruct (decide (c = c0)) as [->|]; [rewrite lookup_insert_eq; by eexists | rewrite lookup_insert_ne by done; auto].
  - intros j h k b [[<- <-] | [_ Hj]]%lookup_insert_Some; cbn; [|eauto].
    destruct (decide (k = k0)) as [->|Hne].
    + destruct Hk0 as [s0 Hs0]; by rewrite list_lookup_alter_eq, Hs0.
    + rewrite list_lookup_alter_ne by done; eauto.
  - intros j h [[<- <-] | [_ Hj]]%lookup_insert_Some; [done | eauto].
  - intros j h k s [[<- <-] | [_ Hj]]%lookup_insert_Some; cbn; [|eauto].
    intros Hk Hle; eapply Hf; [exact Hg | exact Hk | unfold k0 in *; lia].
  - intros j h k c b [[<- <-] | [_ Hj]]%lookup_insert_Some; cbn; eauto.
  - intros j h k k' c b b' [[<- <-] | [_ Hj]]%lookup_insert_Some; cbn; eauto.
  - intros c j Hj; apply Hca in Hj; unfold c0 in *; lia.
  - intros j h k b [[<- <-] | [_ Hj]]%lookup_insert_Some; cbn; eauto.
Qed.

Lemma PickChannel_Inv i g p :
  PoolInv p -> groups p !! i = Some g -> PoolInv (update_group i (PickChannel g).2 p).
Proof. intros Hinv Hg; eapply update_group_Inv; [done | exact Hg | done | done | done]. Qed.

(** [GetChannel], through its intermediate pool. *)
Lemma GetChannel_Inv init spec p :
  PoolInv p -> PoolInv (GetChannel init spec p).2 /\
  exists i g, channel_pool_ (GetChannel init spec p).2 !! spec = Some i /\ groups (GetChannel init spec p).2 !! i = Some (PickChannel g).2 /\
    (GetChannel init spec p).1 = (PickChannel g).1 /\ length (channels_ g) = channel_capacity_ g.
Proof.
  intros Hinv; destruct (find_group_Inv spec p Hinv) as (H1 & [g Hg] & Hs); unfold GetChannel.
  destruct (find_group spec p) as [i p1]; cbn [fst snd] in *; rewrite Hg.
  assert (exists p2 g2, (if negb (IsFull g) then OpenNewChannel init i p1 else p1) = p2 /\ PoolInv p2 /\ groups p2 !! i = Some g2 /\
    channel_pool_ p2 !! spec = Some i) as (p2 & g2 & -> & H2 & Hg2 & Hs2).
  { destruct (IsFull g) eqn:Hf; cbn; [by exists p1, g|].
    destruct (OpenNewChannel_Inv init i g p1 H1 Hg Hf) as (? & [g2 ?] & Hch); exists (OpenNewChannel init i p1), g2; rewrite Hch; auto. }
  rewrite Hg2; destruct (PickChannel g2) as [c g3] eqn:Hpick; cbn [fst snd channel_pool_ update_group with_groups groups].
  split; [pose proof (PickChannel_Inv i g2 p2 H2 Hg2) as Hi; by rewrite Hpick in Hi|].
  exists i, g2; rewrite Hpick; split; [done|]; split; [by rewrite lookup_insert_eq|]; split; [done|].
  destruct (inv_shape _ H2 _ _ Hg2); congruence.
Qed.

Lemma HandleResponse_Inv answered k p :
  PoolInv p -> exists p', HandleResponse answered k p = Some p' /\ PoolInv p'.
Proof.
  intros Hinv; unfold HandleResponse; destruct (pings p !! k) as [c|] eqn:Hk; [|by exists p].
  set (p1 := mkPool _ _ _ _ _ _ _).
  assert (H1 : PoolInv p1).
  { destruct Hinv; constructor; cbn; auto; intros c' Hc'; apply inv_pings0.
    apply list_elem_of_lookup_1 in Hc' as [j Hj]; apply list_elem_of_lookup.
    destruct (decide (j < k)%nat); [exists j; by rewrite list_lookup_delete_lt in Hj by lia|].
    exists (S j); by rewrite list_lookup_delete_ge in Hj by lia. }
  destruct (HandleResponseImpl_Inv answered c p1 H1) as (p' & -> & ? & _); [|by exists p'].
  apply (inv_pings _ Hinv); by eapply list_elem_of_lookup_2.
Qed.

Lemma ping_all_Inv up l : forall bad p,
  PoolInv p -> (forall c, c ∈ l -> is_Some (channel_group_cache_ p !! c)) ->
  exists bad' p', ping_all up l bad p = Some (bad', p') /\ PoolInv p' /\ bad' = (bad + length (filter (fun c => up c = false) l))%nat.
Proof.
  induction l as [|c l IH]; intros bad p Hinv Hl; cbn [ping_all].
  - exists bad, p; split; [done | split; [done | cbn; lia]].
  - destruct (HandleResponseImpl_Inv (up c) c p Hinv) as (p1 & -> & H1 & Hc1); [apply Hl; set_solver|].
    destruct (IH (if up c then bad else S bad) p1 H1) as (bad' & p' & -> & H' & ->).
    { intros c' Hc'; rewrite Hc1; apply Hl; set_solver. }
    eexists _, p'; split; [done|]; split; [done|].
    destruct (up c) eqn:Hu; [rewrite filter_cons_False by congruence | rewrite filter_cons_True by done; cbn]; lia.
Qed.

Lemma to_check_spec g c : c ∈ to_check g <-> (Some c, false) ∈ channels_ g.
Proof.
  unfold to_check; rewrite list_elem_of_omap; split.
  - intros ([o b] & Hin & Hs); cbn in Hs; destruct b; [done|]; by subst o.
  - intros Hin; by exists (Some c, false).
Qed.

Lemma CheckChannels_Inv up i p :
  PoolInv p -> exists b p', CheckChannels up i p = Some (b, p') /\ PoolInv p' /\
  forall g, groups p !! i = Some g -> b = (length (filter (fun c => up c = false) (to_check g)) <? channel_capacity_ g)%nat.
Proof.
  intros Hinv; unfold CheckChannels; destruct (groups p !! i) as [g|] eqn:Hg; [|by exists true, p].
  destruct (ping_all_Inv up (to_check g) 0 p Hinv) as (bad & p' & -> & H' & ->).
  { intros c Hc%to_check_spec; apply list_elem_of_lookup_1 in Hc as [k Hk].
    rewrite (inv_slot _ Hinv _ _ _ _ _ Hg Hk); by eexists. }
  eexists _, p'; split; [done|]; split; [done|]; by intros ? [= <-].
Qed.

Lemma check_groups_Inv up l : forall black p,
  PoolInv p -> exists black' p', check_groups up l black p = Some (black', p') /\ PoolInv p'.
Proof.
  induction l as [|[spec i] l IH]; intros black p Hinv; cbn; [by exists black, p|].
  destruct (CheckChannels_Inv up i p Hinv) as (b & p1 & -> & H1 & _); cbn; by apply IH.
Qed.

(** ** Theorems *)

(** Histories of a pool: channels are asked for, new channels answer, groups are checked. *)
Inductive pool_op : Type :=
| AskChannel (init : bool) (spec : bytes)
| Answer (answered : bool) (k : nat)
| CheckGroups (up : chan -> bool).
Definition run_op (p : BrpcChannelPool) (op : pool_op) : option BrpcChannelPool :=
  match op with
  | AskChannel init spec => Some (GetChannel init spec p).2
  | Answer answered k => HandleResponse answered k p
  | CheckGroups up => snd <$> CheckAndGetBadNodeSpecs up p
  end.
Fixpoint run_pool (ops : list pool_op) (p : BrpcChannelPool) : option BrpcChannelPool :=
  match ops with
  | [] => Some p
  | op :: ops => p ← run_op p op; run_pool ops p
  end.

Lemma run_op_Inv op p : PoolInv p -> exists p', run_op p op = Some p' /\ PoolInv p'.
Proof.
  intros Hinv; destruct op as [init spec | answered k | up]; cbn.
  - eexists; split; [done | by apply GetChannel_Inv].
  - by apply HandleResponse_Inv.
  - unfold CheckAndGetBadNodeSpecs; destruct (check_groups_Inv up (map_to_list (channel_pool_ p)) ∅ p Hinv) as (b & p' & -> & ?).
    by exists p'.
Qed.

(** The check in [FindChannelGroup] never ends the process: whatever the history, the
    channel of every answer is in the cache. *)
Lemma pool_never_fails ops : forall p, PoolInv p -> exists p', run_pool ops p = Some p' /\ PoolInv p'.
Proof.
  induction ops as [|op ops IH]; intros p Hinv; cbn; [by exists p|].
  destruct (run_op_Inv op p Hinv) as (p1 & -> & H1); cbn; by apply IH.
Qed.

(** *** Picking *)

Lemma pick_loop_good fuel g : forall i c, pick_loop fuel g i = Some c -> (Some c, true) ∈ channels_ g.
Proof.
  induction fuel as [|fuel IH]; intros i c; cbn; [done|].
  destruct (channels_ g !! i) as [[o [|]]|] eqn:Hi; [intros -> | apply IH | apply IH].
  by eapply list_elem_of_lookup_2.
Qed.

Lemma pick_loop_finds fuel g : forall i j c,
  (0 < channel_capacity_ g)%nat -> (i < channel_capacity_ g)%nat -> (forall k b, channels_ g !! k = Some (None, b) -> b = false) ->
  (j < fuel)%nat -> channels_ g !! ((i + j) mod channel_capacity_ g)%nat = Some (Some c, true) -> is_Some (pick_loop fuel g i).
Proof.
  induction fuel as [|fuel IH]; intros i j c Hcap Hi Hnull Hj Hc; [lia|]; cbn [pick_loop].
  destruct j as [|j].
  - rewrite Nat.add_0_r, Nat.mod_small in Hc by done; rewrite Hc; by eexists.
  - assert (Hrest : is_Some (pick_loop fuel g ((i + 1) mod channel_capacity_ g))).
    { eapply (IH _ j c); [done | apply Nat.mod_upper_bound; lia | done | lia|].
      rewrite Nat.Div0.add_mod_idemp_l by lia; by replace (i + 1 + j)%nat with (i + S j)%nat by lia. }
    destruct (channels_ g !! i) as [[[o|] [|]]|] eqn:Hs; try done; by apply Hnull in Hs.
Qed.

(** [PickChannel] finds a good channel exactly when there is one. *)
Lemma PickChannel_spec g :
  (0 < channel_capacity_ g)%nat -> length (channels_ g) = channel_capacity_ g ->
  (forall k b, channels_ g !! k = Some (None, b) -> b = false) ->
  match (PickChannel g).1 with
  | Some c => (Some c, true) ∈ channels_ g
  | None => forall c, (Some c, true) ∉ channels_ g
  end.
Proof.
  intros Hpos Hlen Hnull; unfold PickChannel; cbn [fst].
  set (n := channel_capacity_ g) in *; set (x := (Z.to_nat (index_ g) mod n)%nat).
  assert (Hx : (x < n)%nat) by (apply Nat.mod_upper_bound; lia).
  destruct (pick_loop n g x) as [c|] eqn:Hp; [by eapply pick_loop_good|].
  intros c Hc; apply list_elem_of_lookup_1 in Hc as [k Hk].
  assert (Hkn : (k < n)%nat) by (apply lookup_lt_Some in Hk; lia).
  assert (is_Some (pick_loop n g x)) as [? ?]; [|congruence].
  eapply (pick_loop_finds n g x ((k + n - x) mod n)%nat c); fold n; [lia | done | done | apply Nat.mod_upper_bound; lia |].
  rewrite Nat.Div0.add_mod_idemp_r. replace (x + (k + n - x))%nat with (k + 1 * n)%nat by lia.
  rewrite Nat.Div0.mod_add, Nat.mod_small; [done | lia].
Qed.

(** A channel that is good in the pool, for an address. *)
Definition good_channel (p : BrpcChannelPool) (spec : bytes) (ch : chan) : Prop :=
  exists i g, channel_pool_ p !! spec = Some i /\ groups p !! i = Some g /\ (Some ch, true) ∈ channels_ g.

Lemma GetChannel_spec init spec p :
  PoolInv p ->
  match (GetChannel init spec p).1 with
  | Some ch => good_channel (GetChannel init spec p).2 spec ch
  | None => forall ch, ~ good_channel (GetChannel init spec p).2 spec ch
  end.
Proof.
  intros Hinv; destruct (GetChannel_Inv init spec p Hinv) as (H' & i & g & Hs & Hg & Hr & Hlen); rewrite Hr.
  set (p' := (GetChannel init spec p).2) in *.
  pose proof (PickChannel_spec g) as Hspec; destruct (inv_shape _ H' _ _ Hg) as [Hc _]; cbn in Hc.
  specialize (Hspec ltac:(rewrite Hc; apply (inv_count _ H')) Hlen ltac:(intros; by eapply (inv_null _ H' _ _ _ _ Hg))).
  destruct (PickChannel g).1 as [ch|] eqn:Hpick.
  - exists i, (PickChannel g).2; done.
  - intros ch (i' & g' & Hs' & Hg' & Hin); rewrite Hs in Hs'; injection Hs' as <-; rewrite Hg in Hg'; injection Hg' as <-.
    by apply (Hspec ch).
Qed.

(** *** The subscriber *)

Lemma PickOneNode_valid path c spec c' :
  PickOneNode path c = (Some spec, c') -> exists l, valid_nodes c !! path = Some l /\ spec ∈ l.
Proof.
  unfold PickOneNode; intros Hp; repeat (case_match; simplify_eq); eexists; split; [done|]; by eapply list_elem_of_lookup_2.
Qed.

Lemma PickOneNode_keeps path c : valid_nodes (PickOneNode path c).2 = valid_nodes c.
Proof. unfold PickOneNode; repeat case_match; done. Qed.

Lemma get_channel_loop_spec fuel init path : forall c p,
  PoolInv p ->
  let '(r, c', p') := get_channel_loop fuel init path c p in
  valid_nodes c' = valid_nodes c /\ PoolInv p' /\
  match r with
  | Some ch => exists l spec, valid_nodes c !! path = Some l /\ spec ∈ l /\ good_channel p' spec ch
  | None => fuel = 0%nat \/ (PickOneNode path c).1 = None \/
      exists l spec, valid_nodes c !! path = Some l /\ spec ∈ l /\ forall ch, ~ good_channel p' spec ch
  end.
Proof.
  induction fuel as [|fuel IH]; intros c p Hinv; cbn [get_channel_loop]; [split; [done | split; [done | by left]]|].
  destruct (PickOneNode path c) as [[spec|] c1] eqn:Hpick; cbn [fst].
  2:{ split; [rewrite <- (PickOneNode_keeps path c), Hpick; done|]; split; [done | right; by left]. }
  pose proof (PickOneNode_keeps path c) as Hv; rewrite Hpick in Hv; cbn in Hv.
  destruct (PickOneNode_valid _ _ _ _ Hpick) as (l & Hl & Hin).
  pose proof (GetChannel_spec (init fuel) spec p Hinv) as Hg; pose proof (proj1 (GetChannel_Inv (init fuel) spec p Hinv)) as H1.
  destruct (GetChannel (init fuel) spec p) as [[ch|] p1]; cbn [fst snd] in *.
  - split; [done | split; [done|]]; by exists l, spec.
  - specialize (IH c1 p1 H1); destruct (get_channel_loop fuel init path c1 p1) as [[r c'] p'] eqn:Hloop.
    rewrite Hv in IH; destruct IH as (Hv' & H' & Hr); split; [done|]; split; [done|].
    destruct r as [ch|]; [exact Hr|]; right; right.
    destruct Hr as [-> | [Hnone | ?]]; [| |done]; exists l, spec; (split; [done|]; split; [done|]).
    + cbn in Hloop; injection Hloop as <- <-; exact Hg.
    + destruct fuel; cbn in Hloop; [injection Hloop as <- <-; exact Hg|].
      destruct (PickOneNode path c1) as [[?|] ?]; [done|]; injection Hloop as <- <-; exact Hg.
Qed.

(** C29: after any history of a pool of channels, a subscriber that asks for a channel gets
    one whose last ping was answered, to an address that the collection holds for the path;
    it gets none only if the path has no address, or for an address without a good channel.
    The process is never ended by the check of the cache. *)
Theorem subscriber_gets_good_channel n p0 ops init path c :
  InitPool n = Some p0 ->
  exists p, run_pool ops p0 = Some p /\
  let '(r, c', p') := SubscriberGetChannel init path c p in
  valid_nodes c' = valid_nodes c /\
  match r with
  | Some ch => exists l spec, valid_nodes c !! path = Some l /\ spec ∈ l /\ good_channel p' spec ch
  | None => (PickOneNode path c).1 = None \/
      exists l spec, valid_nodes c !! path = Some l /\ spec ∈ l /\ forall ch, ~ good_channel p' spec ch
  end.
Proof.
  intros Hn; destruct (pool_never_fails ops p0 (InitPool_Inv n p0 Hn)) as (p & Hp & Hinv); exists p; split; [done|].
  pose proof (get_channel_loop_spec GET_CHANNEL_RETRY_TIMES init path c p Hinv) as Hl; unfold SubscriberGetChannel.
  destruct (get_channel_loop _ init path c p) as [[r c'] p']; destruct Hl as (Hv & _ & Hr); split; [done|].
  destruct r; [done|]; destruct Hr as [? | ?]; [discriminate | done].
Qed.

Definition one_server : NodeCollectionImpl := UpdateHeartbeat [[7]%Z] [9]%Z new_NodeCollectionImpl.
Lemma subscriber_gets_good_channel_witness :
  exists p0 p, InitPool 2 = Some p0 /\ run_pool [AskChannel true [7]%Z; Answer true 0] p0 = Some p /\
  exists ch c' p', SubscriberGetChannel (fun _ => true) [9]%Z one_server p = (Some ch, c', p').
Proof.
  destruct (InitPool 2) as [p0|] eqn:Hp0; [|discriminate].
  destruct (subscriber_gets_good_channel 2 p0 [AskChannel true [7]%Z; Answer true 0] (fun _ => true) [9]%Z one_server Hp0)
    as (p & Hp & _).
  exists p0, p; split; [reflexivity|]; split; [exact Hp|].
  injection Hp0 as <-; vm_compute in Hp; injection Hp as <-.
  eexists _, _, _; vm_compute; reflexivity.
Defined.

(** *** Checks *)

Definition good_at (p : BrpcChannelPool) (i k : nat) (ch : chan) : Prop :=
  exists g, groups p !! i = Some g /\ channels_ g !! k = Some (Some ch, true).

Lemma HandleResponseImpl_good answered c p p' i k ch :
  HandleResponseImpl answered c p = Some p' -> c <> ch -> good_at p i k ch -> good_at p' i k ch.
Proof.
  unfold HandleResponseImpl; destruct (FindChannelGroup c p) as [j|]; [|done].
  destruct (groups p !! j) as [h|] eqn:Hj; [|by intros [= <-]]; intros [= <-] Hne (g & Hg & Hk).
  destruct (decide (j = i)) as [->|Hji]; [|exists g; cbn; by rewrite lookup_insert_ne].
  rewrite Hj in Hg; injection Hg as ->.
  assert (Hm : forall b, (mark c b <$> channels_ g) !! k = Some (Some ch, true)).
  { intros b; rewrite list_lookup_fmap, Hk; cbn; unfold mark; rewrite decide_False; [done | cbn; congruence]. }
  eexists; cbn; rewrite lookup_insert_eq; split; [done|]; destruct answered; apply Hm.
Qed.

Lemma ping_all_good up l i k ch : forall bad p bad' p',
  ping_all up l bad p = Some (bad', p') -> ch ∉ l -> good_at p i k ch -> good_at p' i k ch.
Proof.
  induction l as [|c l IH]; intros bad p bad' p'; cbn; [by intros [= _ <-]|].
  destruct (HandleResponseImpl (up c) c p) as [p1|] eqn:Hr; [|done]; intros Hp Hnin Hgood.
  eapply IH; [exact Hp | set_solver | eapply HandleResponseImpl_good; [exact Hr | set_solver | exact Hgood]].
Qed.

Lemma CheckChannels_good up j p b p' i k ch :
  PoolInv p -> CheckChannels up j p = Some (b, p') -> good_at p i k ch -> good_at p' i k ch.
Proof.
  intros Hinv; unfold CheckChannels; destruct (groups p !! j) as [h|] eqn:Hj; [|by intros [= _ <-]].
  destruct (ping_all up (to_check h) 0 p) as [[bad q]|] eqn:Hp; [|done]; intros [= _ <-] Hgood.
  eapply ping_all_good; [exact Hp | | exact Hgood].
  intros Hin%to_check_spec; apply list_elem_of_lookup_1 in Hin as [k' Hk']; destruct Hgood as (g & Hg & Hk).
  pose proof (inv_slot _ Hinv _ _ _ _ _ Hj Hk') as H1; pose proof (inv_slot _ Hinv _ _ _ _ _ Hg Hk) as H2.
  rewrite H1 in H2; injection H2 as ->; rewrite Hj in Hg; injection Hg as ->.
  pose proof (inv_once _ Hinv _ _ _ _ _ _ _ Hj Hk' Hk) as ->; congruence.
Qed.

Lemma check_groups_good up l i k ch : forall black p black' p',
  PoolInv p -> check_groups up l black p = Some (black', p') -> good_at p i k ch -> good_at p' i k ch.
Proof.
  induction l as [|[spec j] l IH]; intros black p black' p' Hinv; cbn; [by intros [= _ <-]|].
  destruct (CheckChannels_Inv up j p Hinv) as (b & p1 & Hc & H1 & _); rewrite Hc; cbn; intros Hr Hgood.
  eapply IH; [exact H1 | exact Hr | exact (CheckChannels_good _ _ _ _ _ _ _ _ Hinv Hc Hgood)].
Qed.

Lemma GetChannel_good init spec p i k ch :
  PoolInv p -> good_at p i k ch -> ch ∉ pings p ->
  good_at (GetChannel init spec p).2 i k ch /\ ch ∉ pings (GetChannel init spec p).2.
Proof.
  intros Hinv Hgood Hnin; unfold GetChannel.
  destruct (find_group_Inv spec p Hinv) as (H1 & [g0 Hg0] & _).
  assert (Hf : good_at (find_group spec p).2 i k ch /\ pings (find_group spec p).2 = pings p).
  { unfold find_group; destruct (channel_pool_ p !! spec); [done|]; split; [|done].
    destruct Hgood as (g & Hg & Hk); exists g; cbn; split; [|done].
    rewrite lookup_insert_ne; [done|]; assert (i < next_group p)%nat by (apply (inv_groups _ Hinv); rewrite Hg; by eexists); lia. }
  destruct (find_group spec p) as [j p1]; cbn [fst snd] in *; destruct Hf as [Hf Hpings]; rewrite Hg0.
  assert (Ho : forall p2, (if negb (IsFull g0) then OpenNewChannel init j p1 else p1) = p2 -> good_at p2 i k ch /\ ch ∉ pings p2).
  { intros p2 <-; destruct (IsFull g0) eqn:Hfull; cbn; [rewrite Hpings; done|].
    unfold OpenNewChannel; rewrite Hg0; unfold AddChannel; rewrite Hfull; unfold IsFull in Hfull; rewrite Hfull.
    destruct Hf as (g & Hg & Hk).
    pose proof (inv_slot _ H1 _ _ _ _ _ Hg Hk) as Hc; apply (inv_cache _ H1) in Hc.
    assert (Hslot : forall l : list (option chan * bool), (forall q : nat, q <> channel_count_ g0 -> l !! q = channels_ g0 !! q) -> j = i -> l !! k = Some (Some ch, true)).
    { intros l Hl ->; rewrite Hg0 in Hg; injection Hg as ->; rewrite Hl; [done|]; intros ->.
      by pose proof (inv_free _ H1 _ _ _ _ Hg0 Hk (Nat.le_refl _)). }
    assert (Hnin' : ch ∉ pings p1 ++ [next_chan p1]).
    { rewrite Hpings, elem_of_app, list_elem_of_singleton; intros [?| ->]; [done | lia]. }
    destruct init; (split; [|cbn; first [exact Hnin' | by rewrite Hpings]]);
      (destruct (decide (j = i)) as [Hji|Hne]; [|exists g; cbn; by rewrite lookup_insert_ne]);
      eexists; cbn -[alter]; rewrite Hji, lookup_insert_eq; (split; [done|]); apply Hslot; try done.
    intros q Hq; cbn -[alter]; apply list_lookup_alter_ne; congruence. }
  destruct (if negb (IsFull g0) then OpenNewChannel init j p1 else p1) as [cc cp gs ca ng nc pi] eqn:He.
  destruct (Ho _ eq_refl) as [Hg2 Hp2]; cbn [groups]; destruct (gs !! j) as [g2|] eqn:Hj; [|done]; split; [|done].
  destruct Hg2 as (g & Hg & Hk); cbn in Hg; destruct (decide (j = i)) as [->|Hne].
  - rewrite Hj in Hg; injection Hg as ->; eexists; cbn; rewrite lookup_insert_eq; done.
  - exists g; cbn; by rewrite lookup_insert_ne.
Qed.

Lemma run_op_good op p p' i k ch :
  PoolInv p -> run_op p op = Some p' -> good_at p i k ch -> ch ∉ pings p -> good_at p' i k ch /\ ch ∉ pings p'.
Proof.
  intros Hinv Hr Hgood Hnin; destruct op as [init spec | answered q | up]; cbn in Hr.
  - injection Hr as <-; by apply GetChannel_good.
  - unfold HandleResponse in Hr; destruct (pings p !! q) as [c|] eqn:Hq; [|by injection Hr as <-].
    set (p1 := mkPool _ _ _ _ _ _ _) in Hr.
    assert (Hne : c <> ch) by (intros ->; apply Hnin; by eapply list_elem_of_lookup_2).
    split; [exact (HandleResponseImpl_good _ _ _ _ _ _ _ Hr Hne Hgood)|].
    assert (pings p' = delete q (pings p)) as ->.
    { unfold HandleResponseImpl in Hr; destruct (FindChannelGroup c p1) as [j|]; [|done].
      destruct (groups p1 !! j); by injection Hr as <-. }
    intros Hin; apply Hnin; apply list_elem_of_lookup_1 in Hin as [x Hx]; apply list_elem_of_lookup.
    destruct (decide (x < q)%nat); [exists x; by rewrite list_lookup_delete_lt in Hx by lia|].
    exists (S x); by rewrite list_lookup_delete_ge in Hx by lia.
  - unfold CheckAndGetBadNodeSpecs in Hr.
    destruct (check_groups up (map_to_list (channel_pool_ p)) ∅ p) as [[black q]|] eqn:Hc; [|done]; injection Hr as <-.
    split; [exact (check_groups_good _ _ _ _ _ _ _ _ _ Hinv Hc Hgood)|]; cbn.
    enough (pings q = pings p) as -> by done.
    assert (Hpi : forall c ok p p', HandleResponseImpl ok c p = Some p' -> pings p' = pings p).
    { intros c ok pa pb; unfold HandleResponseImpl; destruct (FindChannelGroup c pa) as [j|]; [|done].
      destruct (groups pa !! j); by intros [= <-]. }
    assert (Hpa : forall l bad pa bad' pb, ping_all up l bad pa = Some (bad', pb) -> pings pb = pings pa).
    { induction l as [|c l IH]; intros bad pa bad' pb; cbn; [by intros [= _ <-]|].
      destruct (HandleResponseImpl (up c) c pa) eqn:He; [|done]; intros ->%IH; by eapply Hpi. }
    revert Hc; generalize (∅ : gset bytes); generalize (map_to_list (channel_pool_ p)); clear - Hpa; intros l b; revert b p.
    induction l as [|[spec j] l IH]; intros b p; cbn; [by intros [= _ <-]|].
    unfold CheckChannels; destruct (groups p !! j) as [h|]; cbn; [|apply IH].
    destruct (ping_all up (to_check h) 0 p) as [[bad pb]|] eqn:He; cbn; [|done]; intros ->%IH; by eapply Hpa.
Qed.

(** Once a channel is good and no ping of it is under way, it stays good for ever: no
    check ever asks it again, so a server that dies later is never found to be bad. *)
Lemma good_channel_is_never_checked n p0 before after p p' i k ch :
  InitPool n = Some p0 -> run_pool before p0 = Some p -> good_at p i k ch -> ch ∉ pings p ->
  run_pool after p = Some p' -> good_at p' i k ch.
Proof.
  intros Hn Hb; destruct (pool_never_fails before p0 (InitPool_Inv n p0 Hn)) as (q & Hq & Hinv).
  rewrite Hq in Hb; injection Hb as ->; clear Hq; revert p Hinv.
  induction after as [|op after IH]; intros p Hinv Hgood Hnin; cbn; [by intros [= <-]|].
  destruct (run_op_Inv op p Hinv) as (p1 & Hop & H1); rewrite Hop; cbn.
  destruct (run_op_good op p p1 i k ch Hinv Hop Hgood Hnin); eauto.
Qed.

Definition answered_once : list pool_op := [AskChannel true [7]%Z; Answer true 0].
Definition dead_for_ever : list pool_op := [CheckGroups (fun _ => false); AskChannel true [7]%Z; CheckGroups (fun _ => false)].
Definition pool_of (o : option BrpcChannelPool) : BrpcChannelPool := default (mkPool 1 ∅ ∅ ∅ 0 0 []) o.
Lemma good_channel_is_never_checked_witness :
  good_at (pool_of (run_pool (answered_once ++ dead_for_ever) (pool_of (InitPool 1)))) 0 0 0.
Proof.
  apply (good_channel_is_never_checked 1 (pool_of (InitPool 1)) answered_once dead_for_ever
    (pool_of (run_pool answered_once (pool_of (InitPool 1))))).
  - reflexivity.
  - vm_compute; reflexivity.
  - eexists; split; vm_compute; reflexivity.
  - vm_compute; inversion 1.
  - vm_compute; reflexivity.
Defined.

(** An address is reported as bad exactly when every slot of its group holds a channel that
    is bad and does not answer: a slot that is still empty, or whose channel could not be
    initialised, keeps the address good. *)
Lemma CheckChannels_false up i p g :
  PoolInv p -> groups p !! i = Some g ->
  (exists p', CheckChannels up i p = Some (false, p')) <->
  Forall (fun s => exists c, s = (Some c, false) /\ up c = false) (channels_ g).
Proof.
  intros Hinv Hg; destruct (CheckChannels_Inv up i p Hinv) as (b & p1 & Hc & _ & Hb); specialize (Hb g Hg).
  destruct (inv_shape _ Hinv _ _ Hg) as [Hcap Hlen]; rewrite Hcap, <- Hlen in Hb.
  assert (Hcount : (length (filter (fun c => up c = false) (to_check g)) < length (channels_ g))%nat <->
      ~ Forall (fun s => exists c, s = (Some c, false) /\ up c = false) (channels_ g)).
  { unfold to_check; clear; induction (channels_ g) as [|[o b] l IH].
    { cbn; split; [lia | intros Hn; exfalso; apply Hn; constructor]. }
    cbn [length]; set (f := fun s : option chan * bool => if s.2 then None else s.1) in *.
    change (omap f ((o, b) :: l)) with (match (if b then None else o) with Some c => c :: omap f l | None => omap f l end).
    assert (Hle : (length (filter (fun c => up c = false) (omap f l)) <= length l)%nat).
    { etrans; [apply length_filter|]; clear; induction l as [|[o b] l IH]; cbn; [lia|]; repeat case_match; cbn; lia. }
    rewrite list.Forall_cons.
    destruct b; [|destruct o as [c|]]; cbn iota beta.
    - split; [intros _ [(c & [= ] & _) _] | lia].
    - destruct (up c) eqn:Hu.
      + rewrite filter_cons_False by congruence; split; [intros _ [(c' & [= <-] & ?) _]; congruence | lia].
      + rewrite filter_cons_True by done; cbn [length]; rewrite <- Nat.succ_lt_mono, IH; split; [intros Hn [_ ?]; done|].
        intros Hn ?; apply Hn; split; [by exists c | done].
    - split; [intros _ [(c & [= ] & _) _] | lia]. }
  split.
  - intros [p' Hp']; rewrite Hc in Hp'; injection Hp' as -> _; symmetry in Hb; apply Nat.ltb_ge in Hb.
    destruct (decide (length (filter (fun c => up c = false) (to_check g)) < length (channels_ g))%nat) as [|Hn]; [lia|].
    rewrite Hcount in Hn.
    assert (Hdec : Decision (Forall (fun s => exists c, s = (Some c, false) /\ up c = false) (channels_ g))); [|by apply dec_stable].
    apply list.Forall_dec; intros [[c|] [|]]; try (right; intros (? & ? & _); congruence).
    destruct (up c) eqn:Hu; [right; intros (c' & [= <-] & ?); congruence | left; by exists c].
  - intros Hall; exists p1; rewrite Hc, Hb; do 2 f_equal; apply Nat.ltb_ge.
    destruct (decide (length (filter (fun c => up c = false) (to_check g)) < length (channels_ g))%nat) as [Hlt|]; [|lia].
    by apply Hcount in Hlt.
Qed.
