(* ===== verification/Service.v ===== *)
(** * Serving requests: src/orc/framework/workflow.cc, session_factory_mgr.cc,
    pool_session_factory.h, workflow_router_mgr.cc and default_workflow_router.cc

    A request arrives with a closure that is to be answered.  A worker takes a session from
    the factory, asks the router for a workflow, takes an execution graph of it from the
    pools and runs the engine; at the end it answers and gives both back.  An asynchronous
    handler suspends the session, whose context is run again when the reply comes.

    The state has all of it; the operations are those of the code in a monad with errors.
    YAML nodes, the sessions' own functions and the handlers are arguments.  A call of
    [RunInner] is one step up to the point where the thread leaves the loop for a pending call;
    the rest of it, a test of the context, is a step of its own.  This is exact as long as no
    reply comes to a session before the thread that left the loop for it has returned
    ([prompt]), since then only one thread at a time is in [RunInner] for a session; what
    happens otherwise, when two threads meet in a session, is the subject of Async.v.  The
    queues and workers of the thread pool are in TaskPool.v; here a task that was accepted is
    run at any later time by any worker. *)
From Stdlib Require Import ZArith Lia.
From stdpp Require Import base gmap sets list strings option.
From S2P Require Import Prelude Graph ExecGraph ExecPool Engine.

(** ** Configuration: configure.h and utils.h *)

(** A YAML node: what [config[key].as<T>()] gives for the types that are read, [None] when
    the key is missing or the conversion throws. *)
Record YamlNode : Type := mkYaml {
  as_string : string -> option string;
  as_size : string -> option Z;
  as_bool : string -> option bool
}.

(** [GetOrcConfig(config, key, value)]: the node of the server, then the global one. *)
Definition GetOrcConfig {A} (read : YamlNode -> string -> option A) (orc config : YamlNode) (key : string) : option A :=
  match read config key with Some v => Some v | None => read orc key end.

Definition SvrWorkerNum : string := "svr.worker.num".
Definition SvrWorkerQueueNum : string := "svr.worker.queue.num".
Definition SvrWorkerQueueSize : string := "svr.worker.queue.size".
Definition SvrWorkerPinCpu : string := "svr.worker.pin.cpu".
Definition SvrWorkflowPoolMode : string := "svr.workflow.pool.mode".
Definition SvrWorkflowPoolSize : string := "svr.workflow.pool.size".
Definition SvrWorkflowUseTls : string := "svr.workflow.use.tls".
Definition SvrWorkflowFile : string := "svr.workflow.file".
Definition SvrHandlerFile : string := "svr.handler.file".
Definition SvrSessionFactory : string := "svr.session.factory".
Definition SvrSessionPoolSize : string := "svr.session.pool.size".
Definition SvrWorkflowRouter : string := "svr.workflow.router".

(** ** Closures and sessions *)

(** [enum class RetCode] and [class ServiceClosure]. *)
Inductive RetCode : Type := Success | NoSession | ReqError | AppError.
Record ServiceClosure : Type := mkClosure { ret_code : RetCode; message : string }.
Definition new_ServiceClosure : ServiceClosure := mkClosure Success "".

(** A session class and its handlers: the constructor, the virtual [Init] and [Clear], what
    the handlers of a session have set in its closure, and the handlers' [BaseRun]. *)
Class Application (H S : Type) : Type := {
  new_session : S;
  session_Init : nat -> S -> bool * S;
  session_Clear : S -> S;
  session_reply : S -> ServiceClosure -> ServiceClosure;
  app_BaseRun : H -> S -> Ctx -> bool * S * Ctx
}.

(** [class WorkflowRouter]. *)
Record WorkflowRouter (S : Type) : Type := mkRouter { router_Init : YamlNode -> bool; Route : S -> string }.
Arguments mkRouter {_} _ _.
Arguments router_Init {_} _ _.
Arguments Route {_} _ _.

(** [class DefaultWorkflowRouter]. *)
Definition DefaultWorkflowRouter {S} : WorkflowRouter S := mkRouter (fun _ => true) (fun _ => "default").

(** [class SessionBase] with the [graph_] of its context.  Closures are numbered. *)
Record SessionBase (H S : Type) : Type := mkSession {
  user : S;
  service_closure : option nat;
  orc_ctx : Ctx;
  graph_ : option (ExecutionGraph H)
}.
Arguments mkSession {_ _} _ _ _ _.
Arguments user {_ _} _.
Arguments service_closure {_ _} _.
Arguments orc_ctx {_ _} _.
Arguments graph_ {_ _} _.
Definition new_SessionBase {H S} `{Application H S} : SessionBase H S := mkSession new_session None new_Context None.
Definition with_user {H S} (f : S -> S) (x : SessionBase H S) : SessionBase H S :=
  mkSession (f (user x)) (service_closure x) (orc_ctx x) (graph_ x).

(** ** Registries *)

(** [SessionFactoryMgr]: the last factory registered under a name is kept. *)
Definition SessionFactoryMgr_Register {F} (name : string) (factory : F) (m : gmap string F) : gmap string F :=
  <[name := factory]> m.
Definition GetSessionFactory {F} (name : string) (m : gmap string F) : option F := m !! name.

(** [WorkflowRouterMgr]: the first router registered under a name is kept. *)
Definition WorkflowRouterMgr_Register {S} (name : string) (router : WorkflowRouter S)
    (m : gmap string (WorkflowRouter S)) : gmap string (WorkflowRouter S) :=
  match m !! name with Some _ => m | None => <[name := router]> m end.
Definition GetWorkflowRouter {S} (name : string) (m : gmap string (WorkflowRouter S)) : option (WorkflowRouter S) :=
  m !! name.

(** ** Session factories *)

(** [class SessionFactory]: sessions are named by their addresses, the heap has the objects.
    [f_Init] is [None] when it does not return. *)
Class SessionFactory (H S F : Type) : Type := {
  f_Init : YamlNode -> YamlNode -> gmap nat (SessionBase H S) -> F -> option (bool * gmap nat (SessionBase H S) * F);
  f_Acquire : nat -> F -> option nat * F;
  f_Release : nat -> nat -> gmap nat (SessionBase H S) -> F -> gmap nat (SessionBase H S) * F
}.

(** What the workflow relies on: a factory has free sessions, which an initialisation makes;
    it hands out one of them, or none and changes nothing, and takes a session back after
    clearing it. *)
Class SessionFactoryOk (H S F : Type) `{SessionFactory H S F} : Type := {
  f_free : F -> list nat;
  f_Init_ok : forall orc config f h f',
    f_free f = [] -> f_Init orc config ∅ f = Some (true, h, f') ->
    NoDup (f_free f') /\ (forall s, s ∈ f_free f' -> is_Some (h !! s)) /\ (forall s x, h !! s = Some x -> graph_ x = None);
  f_Acquire_ok : forall t f,
    match f_Acquire t f with
    | (Some s, f') => f_free f ≡ₚ s :: f_free f'
    | (None, f') => f_free f' ≡ₚ f_free f
    end;
  f_Release_ok : forall t s h f,
    f_free (f_Release t s h f).2 ≡ₚ s :: f_free f /\
    exists clear, (f_Release t s h f).1 = alter (with_user clear) s h
}.

(** [class PoolSessionFactory]: stacks, the top first; a thread has a stack of its own. *)
Record PoolSessionFactory : Type := mkFactory {
  sessions_ : list nat;
  total_size_ : Z;
  tls_sessions_ : gmap nat (list nat);
  tls_size_ : Z
}.
Definition new_PoolSessionFactory : PoolSessionFactory := mkFactory [] 0 ∅ 0.
Definition tls_stack (t : nat) (f : PoolSessionFactory) : list nat := default [] (tls_sessions_ f !! t).

Section PoolFactory.
Context {H S : Type} `{Application H S}.
Abbreviation heap := (gmap nat (SessionBase H S)).

(** The loop of [Init]: a new object for each [i]. *)
Fixpoint emplace_sessions (n : nat) (h : heap) (stack : list nat) : heap * list nat :=
  match n with
  | O => (h, stack)
  | Datatypes.S n => let s := fresh (dom h) in emplace_sessions n (<[s := new_SessionBase]> h) (s :: stack)
  end.

(** [Init]; [None] is the division by zero, or a size that the 32-bit counter of the loop
    does not reach. *)
Definition PoolFactory_Init (orc config : YamlNode) (h : heap) (f : PoolSessionFactory) : option (bool * heap * PoolSessionFactory) :=
  match (match GetOrcConfig as_size orc config SvrSessionPoolSize with
         | Some n => Some n
         | None => GetOrcConfig as_size orc config SvrWorkflowPoolSize
         end) with
  | None => Some (false, h, f)
  | Some total =>
      match GetOrcConfig as_size orc config SvrWorkerNum with
      | None => Some (false, h, mkFactory (sessions_ f) total (tls_sessions_ f) (tls_size_ f))
      | Some worker_num =>
          if (worker_num =? 0)%Z then None
          else
            let tls := (total / worker_num)%Z in
            if (tls =? 0)%Z then Some (false, h, mkFactory (sessions_ f) total (tls_sessions_ f) tls)
            else if (2 ^ 32 <=? total)%Z then None
            else
              let '(h, stack) := emplace_sessions (Z.to_nat total) h (sessions_ f) in
              Some (true, h, mkFactory stack total (tls_sessions_ f) tls)
      end
  end.

(** [Acquire] and [Release] on thread [t]. *)
Definition PoolFactory_Acquire (t : nat) (f : PoolSessionFactory) : option nat * PoolSessionFactory :=
  match tls_stack t f with
  | [] =>
      match sessions_ f with
      | [] => (None, f)
      | s :: l => (Some s, mkFactory l (total_size_ f) (tls_sessions_ f) (tls_size_ f))
      end
  | s :: l => (Some s, mkFactory (sessions_ f) (total_size_ f) (<[t := l]> (tls_sessions_ f)) (tls_size_ f))
  end.
Definition PoolFactory_Release (t s : nat) (h : heap) (f : PoolSessionFactory) : heap * PoolSessionFactory :=
  (alter (with_user session_Clear) s h,
   if (Z.of_nat (length (tls_stack t f)) <? tls_size_ f)%Z
   then mkFactory (sessions_ f) (total_size_ f) (<[t := s :: tls_stack t f]> (tls_sessions_ f)) (tls_size_ f)
   else mkFactory (s :: sessions_ f) (total_size_ f) (tls_sessions_ f) (tls_size_ f)).

#[export] Instance PoolSessionFactory_is_factory : SessionFactory H S PoolSessionFactory :=
  { f_Init := PoolFactory_Init; f_Acquire := PoolFactory_Acquire; f_Release := PoolFactory_Release }.
End PoolFactory.

(** ** The workflow *)

(** A task that the thread pool has accepted. *)
Inductive task : Type := ClosureTask (k : nat) | CtxTask (s : nat).

(** The thread that calls [Run]: a worker of the pool, or another one, with the answer of
    [Schedule]. *)
Inductive caller : Type := InWorker (t : nat) | Outside (t : nat) (accepted : bool).

(** Closures live until [Done], which records the answer.  [waiting] are the sessions whose
    reply is under way, [leaving] the threads that have left the loop of [RunInner] for a
    pending call and are before the test after it, with their sessions. *)
Record Service (H S F : Type) : Type := mkService {
  factory : F;
  sessions : gmap nat (SessionBase H S);
  graphs : ExecutionGraphMgr H;
  closures : gmap nat ServiceClosure;
  answers : list (nat * ServiceClosure);
  queue : list task;
  waiting : list nat;
  leaving : list (nat * nat)
}.
Arguments mkService {_ _ _} _ _ _ _ _ _ _ _.
Arguments factory {_ _ _} _.
Arguments sessions {_ _ _} _.
Arguments graphs {_ _ _} _.
Arguments closures {_ _ _} _.
Arguments answers {_ _ _} _.
Arguments queue {_ _ _} _.
Arguments waiting {_ _ _} _.
Arguments leaving {_ _ _} _.

(** [UseAfterFree]: a closure, session or graph that is not there is used. [Unfinished]: the
    loop of a session has crashed or needs more fuel.  [Refused]: the step is not possible. *)
Inductive outcome (A : Type) : Type := Fine (a : A) | UseAfterFree | Unfinished | Refused.
Arguments Fine {_} _.
Arguments UseAfterFree {_}.
Arguments Unfinished {_}.
Arguments Refused {_}.

Section Workflow.
Context {H S F : Type} `{Application H S} `{SessionFactory H S F}.
Context (router : WorkflowRouter S).

Abbreviation Service := (Service H S F).
Definition srv (A : Type) : Type := Service -> outcome (A * Service).
#[local] Instance srv_ret : MRet srv := fun A a sv => Fine (a, sv).
#[local] Instance srv_bind : MBind srv := fun A B k m sv =>
  match m sv with
  | Fine (a, sv) => k a sv
  | UseAfterFree => UseAfterFree
  | Unfinished => Unfinished
  | Refused => Refused
  end.

Definition use_after_free {A} : srv A := fun _ => UseAfterFree.
Definition unfinished {A} : srv A := fun _ => Unfinished.

(** *** The parts of the state *)

Definition with_factory (f : F) (h : gmap nat (SessionBase H S)) (sv : Service) : Service :=
  mkService f h (graphs sv) (closures sv) (answers sv) (queue sv) (waiting sv) (leaving sv).
Definition with_sessions (h : gmap nat (SessionBase H S)) (sv : Service) : Service :=
  mkService (factory sv) h (graphs sv) (closures sv) (answers sv) (queue sv) (waiting sv) (leaving sv).
Definition with_graphs (m : ExecutionGraphMgr H) (sv : Service) : Service :=
  mkService (factory sv) (sessions sv) m (closures sv) (answers sv) (queue sv) (waiting sv) (leaving sv).
Definition with_closures (c : gmap nat ServiceClosure) (l : list (nat * ServiceClosure)) (sv : Service) : Service :=
  mkService (factory sv) (sessions sv) (graphs sv) c l (queue sv) (waiting sv) (leaving sv).
Definition with_queue (q : list task) (sv : Service) : Service :=
  mkService (factory sv) (sessions sv) (graphs sv) (closures sv) (answers sv) q (waiting sv) (leaving sv).
Definition with_waiting (w : list nat) (sv : Service) : Service :=
  mkService (factory sv) (sessions sv) (graphs sv) (closures sv) (answers sv) (queue sv) w (leaving sv).
Definition with_leaving (l : list (nat * nat)) (sv : Service) : Service :=
  mkService (factory sv) (sessions sv) (graphs sv) (closures sv) (answers sv) (queue sv) (waiting sv) l.

(** [closure->Done()], and setting its code and message. *)
Definition Done (k : nat) : srv unit := fun sv =>
  match closures sv !! k with
  | None => UseAfterFree
  | Some c => Fine (tt, with_closures (delete k (closures sv)) (answers sv ++ [(k, c)]) sv)
  end.
Definition update_closure (k : nat) (g : ServiceClosure -> ServiceClosure) : srv unit := fun sv =>
  match closures sv !! k with
  | None => UseAfterFree
  | Some c => Fine (tt, with_closures (<[k := g c]> (closures sv)) (answers sv) sv)
  end.
Definition set_answer (k : nat) (code : RetCode) (msg : string) : srv unit := update_closure k (fun _ => mkClosure code msg).

(** A session and a change of it. *)
Definition get_session (s : nat) : srv (SessionBase H S) := fun sv =>
  match sessions sv !! s with None => UseAfterFree | Some x => Fine (x, sv) end.
Definition put_session (s : nat) (x : SessionBase H S) : srv unit := fun sv =>
  Fine (tt, with_sessions (<[s := x]> (sessions sv)) sv).

Definition Acquire (t : nat) : srv (option nat) := fun sv =>
  let '(s, f) := f_Acquire t (factory sv) in Fine (s, with_factory f (sessions sv) sv).
Definition Release (t s : nat) : srv unit := fun sv =>
  let '(h, f) := f_Release t s (sessions sv) (factory sv) in Fine (tt, with_factory f h sv).
Definition TakeGraph (t : nat) (nm : string) : srv (option (ExecutionGraph H)) := fun sv =>
  let '(g, m) := GetExeGraph t nm (graphs sv) in Fine (g, with_graphs m sv).
Definition GiveGraph (t : nat) (g : ExecutionGraph H) : srv unit := fun sv =>
  Fine (tt, with_graphs (ReleaseExeGraph t g (graphs sv)) sv).

(** *** [SetupCtx] and [ResetCtx] *)

(** The failures of [SetupCtx] once a session was taken. *)
Definition give_up_session (t k s : nat) (code : RetCode) (msg : string) : srv (option nat) :=
  set_answer k code msg;; Done k;; Release t s;; mret None.

(** [Workflow::SetupCtx] on thread [t]: the session of the context. *)
Definition SetupCtx (t k : nat) : srv (option nat) :=
  o ← Acquire t;
  match o with
  | None => set_answer k NoSession "Orc No session";; Done k;; mret None
  | Some s =>
      x ← get_session s;
      let '(ok, u) := session_Init k (user x) in
      put_session s (mkSession u (Some k) (orc_ctx x) (graph_ x));;
      if negb ok then give_up_session t k s AppError "Orc No session"
      else
        let workflow_name := Route router u in
        g ← TakeGraph t workflow_name;
        match g with
        | None => give_up_session t k s AppError ("Get ExecutionGraph fail by name " +:+ workflow_name)
        | Some g =>
            let c := Setup (e_entry g) (set_schedule_hint (Z.of_nat t) (orc_ctx x)) in
            put_session s (mkSession u (Some k) c (Some g));; mret (Some s)
        end
  end.

(** The events of the engine: a session is answered, its graph and itself given back. *)
Definition perform (t s : nat) (e : event) : srv unit :=
  x ← get_session s;
  match e with
  | EvClosureDone =>
      match service_closure x with
      | None => use_after_free
      | Some k => update_closure k (session_reply (user x));; Done k
      end
  | EvReleaseExeGraph =>
      match graph_ x with
      | None => use_after_free
      | Some g => GiveGraph t g;; put_session s (mkSession (user x) (service_closure x) (orc_ctx x) None)
      end
  | EvReleaseSession => Release t s
  end.
Fixpoint perform_all (t s : nat) (l : list event) : srv unit :=
  match l with [] => mret tt | e :: l => perform t s e;; perform_all t s l end.

(** [Workflow::ResetCtx]. *)
Definition ResetCtx (t s : nat) : srv unit :=
  x ← get_session s;
  let '(ev, c) := Engine.ResetCtx (orc_ctx x) in
  put_session s (mkSession (user x) (service_closure x) c (graph_ x));;
  perform_all t s ev.

(** *** Running *)

Definition suspend (t s : nat) : srv unit := fun sv =>
  Fine (tt, with_leaving ((t, s) :: leaving sv) (with_waiting (s :: waiting sv) sv)).

(** [RunInner(Context* )]: a session that is not at its end waits for a reply; the thread is
    still to test it after the loop. *)
Definition RunCtxInner (fuel t s : nat) : srv unit :=
  x ← get_session s;
  let nodes := match graph_ x with Some g => e_nodes g | None => ∅ end in
  match RunInner app_BaseRun nodes fuel (user x) (orc_ctx x) with
  | None => unfinished
  | Some (ev, u, c) =>
      put_session s (mkSession u (service_closure x) c (graph_ x));;
      match ev with
      | [] => suspend t s
      | _ => perform_all t s ev
      end
  end.

(** The test after the loop, [if (ctx->IsDone()) ResetCtx(ctx)], of a thread that left the
    loop for a pending call. *)
Definition LeaveRunInner (t s : nat) : srv unit :=
  x ← get_session s;
  if IsDone (orc_ctx x) then ResetCtx t s else mret tt.

(** [RunInner(ServiceClosure* )]. *)
Definition RunClosureInner (fuel t k : nat) : srv unit :=
  o ← SetupCtx t k;
  match o with None => mret tt | Some s => RunCtxInner fuel t s end.

Definition enqueue_task (x : task) : srv unit := fun sv => Fine (tt, with_queue (queue sv ++ [x]) sv).

(** [Run(ServiceClosure* )] and [Run(Context* )]. *)
Definition RunClosure (fuel : nat) (c : caller) (k : nat) : srv unit :=
  match c with
  | InWorker t => RunClosureInner fuel t k
  | Outside _ true => enqueue_task (ClosureTask k)
  | Outside _ false => Done k
  end.
Definition RunCtx (fuel : nat) (c : caller) (s : nat) : srv unit :=
  match c with
  | InWorker t => RunCtxInner fuel t s
  | Outside _ true => enqueue_task (CtxTask s)
  | Outside t false => ResetCtx t s
  end.

(** [Context::Callback]. *)
Definition Callback (fuel : nat) (c : caller) (s : nat) : srv unit :=
  x ← get_session s;
  put_session s (mkSession (user x) (service_closure x) (set_async_state After (orc_ctx x)) (graph_ x));;
  RunCtx fuel c s.

(** *** What happens to a service *)

(** A request comes with a closure, a worker runs a task, a thread that left its loop for a
    pending call returns from [RunInner], the reply to a suspended session comes, a workflow
    file is loaded (which a single graph per workflow does not support). *)
Inductive action : Type :=
| Request (c : caller) (k : nat)
| Work (t i : nat)
| Leave (i : nat)
| Reply (c : caller) (s : nat)
| Reload (psize : Z) (tls : bool) (tsize : Z) (file : string) (compiled : option (gmap string Graph)).

Definition requested (sv : Service) : list nat := (answers sv).*1 ++ (map_to_list (closures sv)).*1.

Definition act (get_handler : string -> option H) (fuel : nat) (a : action) : srv unit := fun sv =>
  match a with
  | Request c k =>
      if decide (k ∈ requested sv) then Refused
      else RunClosure fuel c k (with_closures (<[k := new_ServiceClosure]> (closures sv)) (answers sv) sv)
  | Work t i =>
      match queue sv !! i with
      | None => Refused
      | Some (ClosureTask k) => RunClosureInner fuel t k (with_queue (delete i (queue sv)) sv)
      | Some (CtxTask s) => RunCtxInner fuel t s (with_queue (delete i (queue sv)) sv)
      end
  | Leave i =>
      match leaving sv !! i with
      | None => Refused
      | Some (t, s) => LeaveRunInner t s (with_leaving (delete i (leaving sv)) sv)
      end
  | Reply c s =>
      match list_find (eq s) (waiting sv) with
      | None => Refused
      | Some (i, _) => Callback fuel c s (with_waiting (delete i (waiting sv)) sv)
      end
  | Reload psize tls tsize file compiled =>
      match mode (graphs sv) with
      | Singleton => Refused
      | Pool => Fine (tt, with_graphs (ReloadGraph get_handler Pool psize tls tsize file compiled (graphs sv)).2 sv)
      end
  end.
Fixpoint run_service (get_handler : string -> option H) (fuel : nat) (l : list action) (sv : Service) : outcome Service :=
  match l with
  | [] => Fine sv
  | a :: l =>
      match act get_handler fuel a sv with
      | Fine (_, sv) => run_service get_handler fuel l sv
      | UseAfterFree => UseAfterFree
      | Unfinished => Unfinished
      | Refused => Refused
      end
  end.

(** A history in which a reply comes to a session only when the thread that left the loop for
    the call has returned from [RunInner]. *)
Definition timely (a : action) (sv : Service) : Prop :=
  match a with Reply _ s => s ∉ (leaving sv).*2 | _ => True end.
Fixpoint prompt (get_handler : string -> option H) (fuel : nat) (l : list action) (sv : Service) : Prop :=
  match l with
  | [] => True
  | a :: l =>
      timely a sv /\
      match act get_handler fuel a sv with Fine (_, sv) => prompt get_handler fuel l sv | _ => True end
  end.
End Workflow.

(** ** [Workflow::Setup] *)

(** [ThreadPool::Option]. *)
Record PoolOption : Type := mkOption { worker_num : Z; queue_num : Z; queue_size : Z; pin_cpu : bool }.

Section Setup.
Context {H S F Config : Type} `{Application H S} `{SessionFactory H S F}.
(** The YAML loader and the handlers' [BaseInit]; the compiler of workflow files. *)
Context (no_config : Config) (BaseInit : H -> Config -> bool) (LoadFile : string -> option (gmap string Config)).
Context (compile : string -> option (gmap string Graph)).

(** [InitSessionFactory] and [InitWorkflowRouter]: [None] is a call that does not return,
    [Some None] the return of [false]. *)
Definition InitSessionFactory (orc config : YamlNode) (factories : gmap string F) (h : gmap nat (SessionBase H S))
    : option (option (gmap nat (SessionBase H S) * F)) :=
  match GetOrcConfig as_string orc config SvrSessionFactory with
  | None => Some None
  | Some name =>
      match GetSessionFactory name factories with
      | None => Some None
      | Some f =>
          match f_Init orc config h f with
          | None => None
          | Some (true, h, f) => Some (Some (h, f))
          | Some (false, _, _) => Some None
          end
      end
  end.
Definition InitWorkflowRouter (orc config : YamlNode) (routers : gmap string (WorkflowRouter S)) : option (WorkflowRouter S) :=
  match GetOrcConfig as_string orc config SvrWorkflowRouter with
  | None => None
  | Some name =>
      match GetWorkflowRouter name routers with
      | None => None
      | Some r => if router_Init r config then Some r else None
      end
  end.

(** [InitThreadPool]. *)
Definition InitThreadPool (orc config : YamlNode) : option PoolOption :=
  match GetOrcConfig as_size orc config SvrWorkerNum, GetOrcConfig as_size orc config SvrWorkerQueueNum,
        GetOrcConfig as_size orc config SvrWorkerQueueSize with
  | Some w, Some n, Some z => Some (mkOption w n z (default false (GetOrcConfig as_bool orc config SvrWorkerPinCpu)))
  | _, _, _ => None
  end.

(** The execution graph manager reads its own options. *)
Definition SetupExecutionGraphMgr (orc config : YamlNode) (hm : HandlerMgr H Config) (m : ExecutionGraphMgr H)
    : option (bool * ExecutionGraphMgr H) :=
  mgr_Setup (GetHandler no_config BaseInit hm) compile
    (GetOrcConfig as_string orc config SvrWorkflowPoolMode)
    (GetOrcConfig as_size orc config SvrWorkflowPoolSize) (GetOrcConfig as_size orc config SvrSessionPoolSize)
    (GetOrcConfig as_string orc config SvrWorkflowFile) (GetOrcConfig as_size orc config SvrWorkerNum)
    (GetOrcConfig as_bool orc config SvrWorkflowUseTls) m.

Definition Setup (orc config : YamlNode) (factories : gmap string F) (routers : gmap string (WorkflowRouter S))
    (hm : HandlerMgr H Config) (m : ExecutionGraphMgr H)
    : option (option (HandlerMgr H Config * WorkflowRouter S * PoolOption * Service H S F)) :=
  match hm_Setup no_config BaseInit LoadFile (GetOrcConfig as_string orc config SvrHandlerFile) hm with
  | (false, _) => Some None
  | (true, hm) =>
      match SetupExecutionGraphMgr orc config hm m with
      | None => None
      | Some (false, _) => Some None
      | Some (true, m) =>
          match InitSessionFactory orc config factories ∅ with
          | None => None
          | Some None => Some None
          | Some (Some (h, f)) =>
              match InitWorkflowRouter orc config routers with
              | None => Some None
              | Some r =>
                  match InitThreadPool orc config with
                  | None => Some None
                  | Some o => Some (Some (hm, r, o, mkService f h m ∅ [] [] [] []))
                  end
              end
          end
      end
  end.
End Setup.
