(* ===== verification/ServiceCorrect.v ===== *)
(** * Requests are answered once, with the workflow of the source

    The service against the interface of a session factory: every request is answered once,
    sessions and graphs are given back, nothing is used after it was given away; what runs
    for a request is the workflow as it was written.  The pool of sessions is a factory of
    this kind. *)
From Stdlib Require Import ZArith Lia.
From stdpp Require Import base gmap sets list strings option relations.
From S2P Require Import Prelude Graph Syntax Compiler Semantics CompilerCorrect Preservation ExecGraph ExecPool Engine Service.

(** ** The pool of sessions is a factory *)

Definition tls_free (m : gmap nat (list nat)) : list nat := map_to_list m ≫= snd.
Definition free_sessions (f : PoolSessionFactory) : list nat := sessions_ f ++ tls_free (tls_sessions_ f).

Lemma tls_free_insert t l m : tls_free (<[t := l]> m) ++ default [] (m !! t) ≡ₚ l ++ tls_free m.
Proof.
  unfold tls_free; rewrite <- insert_delete_eq, map_to_list_insert by apply lookup_delete_eq; cbn.
  destruct (m !! t) as [l0|] eqn:Ht; cbn.
  - rewrite <- (map_to_list_delete m t l0 Ht); cbn; rewrite <- (assoc_L (++)); f_equiv; apply Permutation_app_comm.
  - by rewrite app_nil_r, delete_id.
Qed.

Section PoolFactory.
Context {H S : Type} `{Application H S}.

Lemma emplace_sessions_spec n : forall (h : gmap nat (SessionBase H S)) stack,
  NoDup stack -> (forall s, s ∈ stack -> is_Some (h !! s)) -> (forall s x, h !! s = Some x -> graph_ x = None) ->
  let '(h', stack') := emplace_sessions n h stack in
  NoDup stack' /\ (forall s, s ∈ stack' -> is_Some (h' !! s)) /\ (forall s x, h' !! s = Some x -> graph_ x = None) /\
  length stack' = (n + length stack)%nat.
Proof.
  induction n as [|n IH]; intros h stack Hnd Hin Hg; cbn; [done|].
  assert (Hf : h !! fresh (dom h) = None) by (apply not_elem_of_dom, is_fresh).
  pose proof (IH (<[fresh (dom h) := new_SessionBase]> h) (fresh (dom h) :: stack)) as Hi.
  destruct (emplace_sessions n _ _) as [h' stack']; destruct Hi as (? & ? & ? & Hl); [| | |split_and!; try done; cbn in Hl; lia].
  - apply list.NoDup_cons; split; [|done]; intros Hs; destruct (Hin _ Hs); congruence.
  - intros s [->|Hs]%elem_of_cons; [by rewrite lookup_insert_eq; eexists|].
    rewrite lookup_insert_ne; [by apply Hin|]; intros <-; destruct (Hin _ Hs); congruence.
  - intros s x [[<- <-]|[_ Hl]]%lookup_insert_Some; [done | by eapply Hg].
Qed.

#[export] Program Instance PoolSessionFactory_ok : SessionFactoryOk H S PoolSessionFactory :=
  { f_free := free_sessions }.
Next Obligation.
  intros orc config f h f' Hf; cbn; unfold PoolFactory_Init; apply app_eq_nil in Hf as [Hf Ht].
  match goal with |- match ?o with Some _ => _ | None => _ end = _ -> _ => destruct o as [total|] end; [|done].
  destruct (GetOrcConfig _ _ _ SvrWorkerNum) as [w|]; [|done]; destruct (w =? 0)%Z; [done|].
  destruct (total / w =? 0)%Z; [done|]; destruct (_ <=? _)%Z; [done|]; rewrite Hf.
  pose proof (emplace_sessions_spec (Z.to_nat total) ∅ []) as He; destruct (emplace_sessions _ _ _) as [h0 stack].
  intros [= <- <-]; unfold free_sessions; cbn; rewrite Ht, app_nil_r; destruct He as (? & ? & ? & _); [constructor | set_solver | done | done].
Qed.
Next Obligation.
  intros t f; unfold f_Acquire; cbn; unfold PoolFactory_Acquire, free_sessions.
  destruct (tls_stack t f) as [|s l] eqn:Ht; [destruct (sessions_ f) as [|s l] eqn:Hs; cbn; by rewrite ?Hs|].
  cbn; pose proof (tls_free_insert t l (tls_sessions_ f)) as Hi; unfold tls_stack in Ht; rewrite Ht in Hi.
  revert Hi; generalize (tls_free (<[t := l]> (tls_sessions_ f))) (tls_free (tls_sessions_ f)); intros a b Hi.
  assert (b ≡ₚ s :: a) as ->; [|symmetry; apply Permutation_middle].
  apply (Permutation_app_inv_l l); rewrite <- Hi, <- !Permutation_middle; by rewrite (Permutation_app_comm a).
Qed.
Next Obligation.
  intros t s h f; unfold f_Release; cbn; split; [|by exists session_Clear].
  unfold free_sessions; case_match; cbn; [|done].
  pose proof (tls_free_insert t (s :: tls_stack t f) (tls_sessions_ f)) as Hi; fold (tls_stack t f) in Hi.
  rewrite Permutation_middle; f_equiv; apply (Permutation_app_inv_r (tls_stack t f)); rewrite Hi; cbn; by rewrite Permutation_app_comm.
Qed.
End PoolFactory.

(** ** Facts about the engine and the graph pools *)

(** The loop ends a session or suspends it. *)
Lemma RunInner_events {H S} (BaseRun : H -> S -> Ctx -> bool * S * Ctx) eg fuel : forall s c ev s' c',
  RunInner BaseRun eg fuel s c = Some (ev, s', c') -> (ev = [] /\ IsDone c' = false) \/ ev = session_end.
Proof.
  induction fuel as [|fuel IH]; intros s c ev s' c'; [done|]; cbn [RunInner].
  destruct (IsAsync c) as [a c1]; destruct (a || IsDone c1).
  - destruct (IsDone c1) eqn:Hd; cbn; intros [= <- <- <-]; auto.
  - destruct (Step BaseRun eg s c1) as [[s1 c2]|]; [apply IH | done].
Qed.

Section Graphs.
Context {H : Type}.

Lemma world_ok_perm (m : ExecutionGraphMgr H) o o' ld :
  o ≡ₚ o' -> world_ok (mkWorld m o ld) -> world_ok (mkWorld m o' ld).
Proof.
  intros Ho [Hm Hv Hs Hc Ht Hout Hn]; split; cbn in *; try done.
  - intros g Hg; apply Hout; by rewrite Ho.
  - intros nm; rewrite <- (Hn nm); unfold holdings, count; cbn; by rewrite Ho.
Qed.

Lemma GetExeGraph_mode t nm (m : ExecutionGraphMgr H) : mode (GetExeGraph t nm m).2 = mode m.
Proof. unfold GetExeGraph; repeat case_match; done. Qed.
Lemma ReleaseExeGraph_mode t g (m : ExecutionGraphMgr H) : mode (ReleaseExeGraph t g m) = mode m.
Proof. unfold ReleaseExeGraph; repeat case_match; done. Qed.
Lemma GetExeGraph_None t nm (m m' : ExecutionGraphMgr H) : GetExeGraph t nm m = (None, m') -> m' = m.
Proof. unfold GetExeGraph, GetExeGraphFromPool; repeat case_match; naive_solver. Qed.
End Graphs.

(** ** Invariant *)

(** A session that is in use, with its closure and its graph. *)
Abbreviation owned H := (nat * nat * ExecutionGraph H)%type.

Section Inv.
Context {H S F : Type} `{Application H S} `{Hok : SessionFactoryOk H S F}.
Abbreviation Service := (Service H S F).
Abbreviation own := (owned H).
Definition s_of (o : own) : nat := o.1.1.
Definition k_of (o : own) : nat := o.1.2.
Definition g_of (o : own) : ExecutionGraph H := o.2.

Definition ctx_tasks (q : list task) : list nat := omap (fun x => match x with CtxTask s => Some s | _ => None end) q.
Definition closure_tasks (q : list task) : list nat := omap (fun x => match x with ClosureTask k => Some k | _ => None end) q.

Arguments ctx_tasks : simpl never.
Arguments closure_tasks : simpl never.

#[local] Instance ctx_tasks_perm : Proper ((≡ₚ) ==> (≡ₚ)) ctx_tasks.
Proof. unfold ctx_tasks; solve_proper. Qed.
#[local] Instance closure_tasks_perm : Proper ((≡ₚ) ==> (≡ₚ)) closure_tasks.
Proof. unfold closure_tasks; solve_proper. Qed.

(** A task that is taken out of the queue. *)
Lemma tasks_delete q i x : q !! i = Some x ->
  closure_tasks q ≡ₚ closure_tasks [x] ++ closure_tasks (delete i q) /\ ctx_tasks q ≡ₚ ctx_tasks [x] ++ ctx_tasks (delete i q).
Proof. intros Hq; split; rewrite (delete_Permutation _ _ _ Hq) at 1; by destruct x. Qed.

Definition holds (h : gmap nat (SessionBase H S)) (o : own) : Prop :=
  exists u c, h !! s_of o = Some (mkSession u (Some (k_of o)) c (Some (g_of o))).

(** The session of a thread that is about to leave [RunInner] waits, and its walk has not
    ended. *)
Definition leaves (sv : Service) (ts : nat * nat) : Prop :=
  ts.2 ∈ waiting sv /\ exists x, sessions sv !! ts.2 = Some x /\ IsDone (orc_ctx x) = false.

(** [hk]: the closures and [hand]: the sessions the current step works on; [parked]: the
    sessions that wait or are queued. *)
Record Inv (all reqs hk : list nat) (hand parked : list own) (sv : Service) : Prop := {
  i_parked : s_of <$> parked ≡ₚ waiting sv ++ ctx_tasks (queue sv);
  i_own : Forall (holds (sessions sv)) (hand ++ parked);
  i_free : f_free (factory sv) ++ (s_of <$> hand ++ parked) ≡ₚ all;
  i_all : NoDup all;
  i_heap : forall s, s ∈ all -> is_Some (sessions sv !! s);
  i_reqs : (answers sv).*1 ++ hk ++ closure_tasks (queue sv) ++ (k_of <$> hand ++ parked) ≡ₚ reqs;
  i_once : NoDup reqs;
  i_closures : forall k, is_Some (closures sv !! k) <-> k ∈ hk ++ closure_tasks (queue sv) ++ (k_of <$> hand ++ parked);
  i_graphs : mode (graphs sv) = Pool -> exists ld, world_ok (mkWorld (graphs sv) (g_of <$> hand ++ parked) ld);
  i_leaving : Forall (leaves sv) (leaving sv)
}.

(** Sessions that do not wait may change. *)
Lemma leaves_other (sv sv' : Service) s x :
  s ∉ waiting sv -> waiting sv' = waiting sv -> sessions sv' = <[s := x]> (sessions sv) ->
  Forall (leaves sv) (leaving sv) -> Forall (leaves sv') (leaving sv).
Proof.
  intros Hs Hw He Hl; eapply list.Forall_impl; [exact Hl|]; intros [t s'] [Hin (y & Hy & Hd)]; split; cbn in *; [by rewrite Hw|].
  exists y; rewrite He, lookup_insert_ne; [done | by intros ->].
Qed.

Lemma holds_other h s x (l : list own) : s ∉ s_of <$> l -> Forall (holds h) l -> Forall (holds (<[s := x]> h)) l.
Proof.
  intros Hs Hl; apply Forall_forall; intros o Ho; rewrite Forall_forall in Hl.
  destruct (Hl o Ho) as (u & c & Hh); exists u, c; rewrite lookup_insert_ne; [done|].
  intros ->; apply Hs; apply list_elem_of_fmap; exists o; split; [done | by apply list_elem_of_In].
Qed.

Lemma own_distinct all reqs hk o hand parked sv :
  Inv all reqs hk (o :: hand) parked sv -> s_of o ∉ s_of <$> hand ++ parked /\ s_of o ∉ f_free (factory sv) /\ s_of o ∈ all.
Proof.
  intros Hi; pose proof (i_all _ _ _ _ _ _ Hi) as Hnd; pose proof (i_free _ _ _ _ _ _ Hi) as Hf; cbn in Hf.
  rewrite <- Hf in Hnd; rewrite <- Permutation_middle in Hnd; apply list.NoDup_cons in Hnd as [Hn _].
  rewrite elem_of_app in Hn; split; [tauto|]; split; [tauto|]; rewrite <- Hf; set_solver.
Qed.

(** A session that is not parked does not wait. *)
Lemma not_waiting all reqs hk hand parked sv s :
  Inv all reqs hk hand parked sv -> s ∉ s_of <$> hand ++ parked -> s ∉ waiting sv.
Proof.
  intros Hi Hs Hw; apply Hs; rewrite fmap_app; apply elem_of_app; right; rewrite (i_parked _ _ _ _ _ _ Hi); by apply elem_of_app; left.
Qed.
Lemma hand_not_waiting all reqs hk o hand parked sv : Inv all reqs hk (o :: hand) parked sv -> s_of o ∉ waiting sv.
Proof.
  intros Hi Hw; destruct (own_distinct _ _ _ _ _ _ _ Hi) as (Hd & _); apply Hd; rewrite fmap_app; apply elem_of_app; right.
  rewrite (i_parked _ _ _ _ _ _ Hi); by apply elem_of_app; left.
Qed.

(** A step that changes the session it works on, and keeps its closure and graph. *)
Lemma put_hand all reqs hk s k g hand parked sv u c :
  Inv all reqs hk ((s, k, g) :: hand) parked sv ->
  Inv all reqs hk ((s, k, g) :: hand) parked (with_sessions (<[s := mkSession u (Some k) c (Some g)]> (sessions sv)) sv).
Proof.
  intros Hi; destruct (own_distinct _ _ _ _ _ _ _ Hi) as (Hd & _ & _); pose proof (hand_not_waiting _ _ _ _ _ _ _ Hi) as Hnw.
  destruct Hi; split; cbn in *; try done.
  - apply list.Forall_cons in i_own0 as [_ Ho]; constructor; [|by apply holds_other].
    exists u, c; by rewrite lookup_insert_eq.
  - intros s' Hs'; destruct (decide (s' = s)) as [->|]; [by rewrite lookup_insert_eq; eexists | rewrite lookup_insert_ne by done; auto].
  - by eapply leaves_other.
Qed.

(** A session that is put aside. *)
Lemma suspend_ok all reqs hk t s k g parked sv x :
  Inv all reqs hk [(s, k, g)] parked sv -> sessions sv !! s = Some x -> IsDone (orc_ctx x) = false ->
  Inv all reqs hk [] ((s, k, g) :: parked) (with_leaving ((t, s) :: leaving sv) (with_waiting (s :: waiting sv) sv)).
Proof.
  intros [] Hx Hd; split; cbn in *; try done; [by rewrite i_parked0|].
  constructor; [split; [set_solver | by exists x]|]; eapply list.Forall_impl; [exact i_leaving0|].
  intros ts [Hw Hs]; split; [by apply elem_of_cons; right | done].
Qed.

(** The end of a session: the closure is answered, graph and session are given back. *)
Lemma finish_eq t s k g u c c0 (sv : Service) :
  sessions sv !! s = Some (mkSession u (Some k) c (Some g)) -> closures sv !! k = Some c0 ->
  exists f clear, f_free f ≡ₚ s :: f_free (factory sv) /\
  perform_all t s session_end sv =
    Fine (tt, mkService f (<[s := with_user clear (mkSession u (Some k) c None)]> (sessions sv)) (ReleaseExeGraph t g (graphs sv))
      (delete k (closures sv)) (answers sv ++ [(k, session_reply u c0)]) (queue sv) (waiting sv) (leaving sv)).
Proof.
  intros Hs Hk; pose proof (f_Release_ok t s (<[s := mkSession u (Some k) c None]> (sessions sv)) (factory sv)) as [Hf [clear Hc]].
  exists (f_Release t s (<[s := mkSession u (Some k) c None]> (sessions sv)) (factory sv)).2, clear; split; [done|].
  unfold perform_all, session_end, perform, get_session, update_closure, Done, GiveGraph, put_session, Release,
    mbind, srv_bind; cbn; rewrite Hs; cbn; rewrite Hk; cbn; rewrite lookup_insert_eq; cbn; rewrite Hs; cbn.
  rewrite lookup_insert_eq; cbn; destruct (f_Release _ _ _ _) as [h f] eqn:Hr; cbn in *; rewrite Hc.
  by rewrite alter_insert_eq, delete_insert_eq.
Qed.

Lemma finish_ok t all reqs s k g parked (sv : Service) :
  Inv all reqs [] [(s, k, g)] parked sv ->
  exists sv' c, perform_all t s session_end sv = Fine (tt, sv') /\ Inv all reqs [] [] parked sv' /\ answers sv' = answers sv ++ [(k, c)].
Proof.
  intros Hi; destruct (own_distinct _ _ _ _ _ _ _ Hi) as (Hd & _ & Hin); pose proof (hand_not_waiting _ _ _ _ _ _ _ Hi) as Hnw; destruct Hi.
  apply list.Forall_cons in i_own0 as [(u & c & Hs) Ho].
  destruct (proj2 (i_closures0 k)) as [c0 Hk]; [set_solver|].
  destruct (finish_eq t s k g u c c0 sv Hs Hk) as (f & clear & Hf & ->); do 2 eexists; split; [done|]; split; [|done].
  split; cbn in *; try done.
  - by apply holds_other.
  - rewrite Hf, <- i_free0; solve_Permutation.
  - intros s' Hs'; destruct (decide (s' = s)) as [->|]; [by rewrite lookup_insert_eq; eexists | rewrite lookup_insert_ne by done; auto].
  - rewrite fmap_app; cbn; rewrite <- i_reqs0; solve_Permutation.
  - intros k'; destruct (decide (k' = k)) as [->|Hne].
    + rewrite lookup_delete_eq; split; [by intros [? ?]|]; intros Hk'; exfalso.
      rewrite <- i_reqs0 in i_once0; apply list.NoDup_app in i_once0 as (_ & _ & Hnd); cbn in Hnd.
      rewrite <- Permutation_middle in Hnd; by apply list.NoDup_cons in Hnd as [? _].
    + rewrite lookup_delete_ne by done; rewrite i_closures0; set_solver.
  - rewrite ReleaseExeGraph_mode; intros Hm; destruct (i_graphs0 Hm) as [ld Hld]; exists ld.
    apply (give_ok (fun _ => None) t g (graphs sv) []); exact Hld.
  - by eapply leaves_other.
Qed.

Lemma ResetCtx_ok t all reqs s k g parked (sv : Service) :
  Inv all reqs [] [(s, k, g)] parked sv ->
  exists sv' c, ResetCtx t s sv = Fine (tt, sv') /\ Inv all reqs [] [] parked sv' /\ answers sv' = answers sv ++ [(k, c)].
Proof.
  intros Hi; destruct (proj1 (list.Forall_cons _ _ _) (i_own _ _ _ _ _ _ Hi)) as [(u & c & Hs) _]; cbn in Hs.
  unfold ResetCtx, get_session, put_session, mbind, srv_bind; rewrite Hs; cbn iota beta; cbn [orc_ctx Engine.ResetCtx user service_closure graph_].
  apply (put_hand _ _ _ _ _ _ _ _ _ u (Reset c)) in Hi; exact (finish_ok t _ _ _ _ _ _ _ Hi).
Qed.

Lemma RunCtxInner_ok fuel t all reqs s k g parked (sv : Service) :
  Inv all reqs [] [(s, k, g)] parked sv ->
  RunCtxInner fuel t s sv = Unfinished \/
  exists sv' parked', RunCtxInner fuel t s sv = Fine (tt, sv') /\ Inv all reqs [] [] parked' sv'.
Proof.
  intros Hi; destruct (proj1 (list.Forall_cons _ _ _) (i_own _ _ _ _ _ _ Hi)) as [(u & c & Hs) _]; cbn in Hs.
  unfold RunCtxInner, get_session, put_session, mbind, srv_bind; rewrite Hs; cbn iota beta; cbn [orc_ctx user service_closure graph_].
  destruct (RunInner _ _ _ _ _) as [[[ev u'] c']|] eqn:Hr; [right | by left].
  apply (put_hand _ _ _ _ _ _ _ _ _ u' c') in Hi.
  destruct (RunInner_events _ _ _ _ _ _ _ _ Hr) as [[-> Hd] | ->].
  - do 2 eexists; split; [done|]; eapply suspend_ok; [exact Hi | apply lookup_insert_eq | done].
  - destruct (finish_ok t _ _ _ _ _ _ _ Hi) as (sv' & c0 & He & Hi' & _); eauto.
Qed.

(** Parts of [SetupCtx]: a closure is answered, a free session is touched, a session is taken
    for a closure. *)
Lemma answer_ok all reqs k c hand parked (sv : Service) :
  Inv all reqs [k] hand parked sv ->
  Inv all reqs [] hand parked (with_closures (delete k (closures sv)) (answers sv ++ [(k, c)]) sv).
Proof.
  intros []; split; cbn in *; try done.
  - rewrite fmap_app; cbn; rewrite <- i_reqs0; solve_Permutation.
  - intros k'; destruct (decide (k' = k)) as [->|Hne].
    + rewrite lookup_delete_eq; split; [by intros [? ?]|]; intros Hk'; exfalso.
      rewrite <- i_reqs0 in i_once0; apply list.NoDup_app in i_once0 as (_ & _ & Hnd); by apply list.NoDup_cons in Hnd as [? _].
    + rewrite lookup_delete_ne by done; rewrite i_closures0; set_solver.
Qed.

Lemma free_distinct all reqs hk hand parked (sv : Service) s :
  Inv all reqs hk hand parked sv -> s ∈ f_free (factory sv) -> s ∉ s_of <$> hand ++ parked /\ is_Some (sessions sv !! s).
Proof.
  intros Hi Hs; pose proof (i_all _ _ _ _ _ _ Hi) as Hnd; pose proof (i_free _ _ _ _ _ _ Hi) as Hf.
  split; [|apply (i_heap _ _ _ _ _ _ Hi); rewrite <- Hf; set_solver].
  rewrite <- Hf in Hnd; apply list.NoDup_app in Hnd as (_ & Hd & _); by apply Hd.
Qed.

Lemma touch_free all reqs hk hand parked (sv : Service) f s x :
  Inv all reqs hk hand parked sv -> s ∈ f_free (factory sv) -> f_free f ≡ₚ f_free (factory sv) ->
  Inv all reqs hk hand parked (with_factory f (<[s := x]> (sessions sv)) sv).
Proof.
  intros Hi Hs Hf; destruct (free_distinct _ _ _ _ _ _ _ Hi Hs) as [Hd _]; pose proof (not_waiting _ _ _ _ _ _ _ Hi Hd) as Hnw.
  destruct Hi; split; cbn in *; try done.
  - by apply holds_other.
  - by rewrite Hf.
  - intros s' Hs'; destruct (decide (s' = s)) as [->|]; [by rewrite lookup_insert_eq; eexists | rewrite lookup_insert_ne by done; auto].
  - by eapply leaves_other.
Qed.

Lemma take_hand all reqs k parked (sv : Service) f t nm s u c g m :
  Inv all reqs [k] [] parked sv -> f_free (factory sv) ≡ₚ s :: f_free f -> GetExeGraph t nm (graphs sv) = (Some g, m) ->
  Inv all reqs [] [(s, k, g)] parked
    (mkService f (<[s := mkSession u (Some k) c (Some g)]> (sessions sv)) m (closures sv) (answers sv) (queue sv) (waiting sv) (leaving sv)).
Proof.
  intros Hi Hf Hg; destruct (free_distinct _ _ _ _ _ _ s Hi) as [Hd _]; [rewrite Hf; set_solver|]; pose proof (not_waiting _ _ _ _ _ _ _ Hi Hd) as Hnw.
  destruct Hi; split; cbn in *; try done.
  - constructor; [exists u, c; by rewrite lookup_insert_eq | by apply holds_other].
  - rewrite <- i_free0, Hf; cbn; solve_Permutation.
  - intros s' Hs'; destruct (decide (s' = s)) as [->|]; [by rewrite lookup_insert_eq; eexists | rewrite lookup_insert_ne by done; auto].
  - rewrite <- i_reqs0; cbn; solve_Permutation.
  - intros k'; rewrite i_closures0; set_solver.
  - pose proof (GetExeGraph_mode t nm (graphs sv)) as Hm; rewrite Hg in Hm; cbn in Hm; rewrite Hm; intros Hp.
    destruct (i_graphs0 Hp) as [ld Hld]; exists ld; by eapply (take_ok (fun _ => None)).
  - by eapply leaves_other.
Qed.

Lemma touch_factory all reqs hk hand parked (sv : Service) f :
  Inv all reqs hk hand parked sv -> f_free f ≡ₚ f_free (factory sv) -> Inv all reqs hk hand parked (with_factory f (sessions sv) sv).
Proof. intros [] Hf; split; cbn in *; try done; by rewrite Hf. Qed.

Lemma give_up_ok t all reqs k s x parked (sv : Service) f code msg :
  Inv all reqs [k] [] parked sv -> f_free (factory sv) ≡ₚ s :: f_free f ->
  exists sv', give_up_session t k s code msg (with_factory f (<[s := x]> (sessions sv)) sv) = Fine (None, sv') /\
    Inv all reqs [] [] parked sv' /\ answers sv' = answers sv ++ [(k, mkClosure code msg)].
Proof.
  intros Hi Hf; destruct (proj2 (i_closures _ _ _ _ _ _ Hi k)) as [c0 Hk]; [set_solver|].
  destruct (f_Release_ok t s (<[s := x]> (sessions sv)) f) as [Hfree [clear Hc]].
  unfold give_up_session, set_answer, update_closure, Done, Release, mbind, srv_bind; cbn; rewrite Hk; cbn.
  rewrite lookup_insert_eq, delete_insert_eq; cbn; destruct (f_Release _ _ _ _) as [h f'] eqn:Hr; cbn in Hfree, Hc; subst h.
  eexists; split; [done|]; split; [|done].
  apply (touch_free _ _ _ _ _ _ f' s (with_user clear x)), (answer_ok _ _ k (mkClosure code msg)) in Hi;
    [|rewrite Hf; set_solver | by rewrite Hfree, Hf].
  by rewrite alter_insert_eq.
Qed.

(** The cases of [SetupCtx]: no session, a session that cannot be initialised, no graph, and
    a session that is ready to run. *)
Definition refused_with (all reqs : list nat) (parked : list own) (k : nat) (code : RetCode) (msg : string) (m : srv (option nat)) (sv : Service) : Prop :=
  exists sv', m sv = Fine (None, sv') /\ Inv all reqs [] [] parked sv' /\ answers sv' = answers sv ++ [(k, mkClosure code msg)].

Lemma SetupCtx_cases router t all reqs k parked (sv : Service) :
  Inv all reqs [k] [] parked sv ->
  match f_Acquire t (factory sv) with
  | (None, _) => refused_with all reqs parked k NoSession "Orc No session" (SetupCtx router t k) sv
  | (Some s, f) => exists x, sessions sv !! s = Some x /\
      let '(ok, u) := session_Init k (user x) in
      if ok : bool then
        match GetExeGraph t (Route router u) (graphs sv) with
        | (None, _) => refused_with all reqs parked k AppError ("Get ExecutionGraph fail by name " +:+ Route router u) (SetupCtx router t k) sv
        | (Some g, m) =>
            let sv' := mkService f (<[s := mkSession u (Some k) (Engine.Setup (e_entry g) (set_schedule_hint (Z.of_nat t) (orc_ctx x))) (Some g)]>
                         (sessions sv)) m (closures sv) (answers sv) (queue sv) (waiting sv) (leaving sv) in
            SetupCtx router t k sv = Fine (Some s, sv') /\ Inv all reqs [] [(s, k, g)] parked sv'
        end
      else refused_with all reqs parked k AppError "Orc No session" (SetupCtx router t k) sv
  end.
Proof.
  intros Hi; destruct (proj2 (i_closures _ _ _ _ _ _ Hi k)) as [c0 Hk]; [set_solver|].
  pose proof (f_Acquire_ok t (factory sv)) as Ha.
  unfold refused_with, SetupCtx, Acquire, mbind, srv_bind; destruct (f_Acquire t (factory sv)) as [[s|] f]; cbn iota beta.
  2:{ unfold set_answer, update_closure, Done; cbn; rewrite Hk; cbn; rewrite lookup_insert_eq, delete_insert_eq; cbn.
      eexists; split; [done|]; split; [|done].
      exact (answer_ok _ _ k (mkClosure NoSession "Orc No session") _ _ _ (touch_factory _ _ _ _ _ _ _ Hi Ha)). }
  destruct (free_distinct _ _ _ _ _ _ s Hi) as [_ [x Hx]]; [rewrite Ha; set_solver|]; exists x; split; [done|].
  unfold get_session; cbn [sessions with_factory]; rewrite Hx; cbn iota beta.
  destruct (session_Init k (user x)) as [[|] u]; cbn [negb].
  2: exact (give_up_ok t _ _ _ s (mkSession u (Some k) (orc_ctx x) (graph_ x)) _ _ f AppError "Orc No session" Hi Ha).
  cbn iota beta; unfold put_session, TakeGraph; cbn [graphs with_sessions with_factory].
  destruct (GetExeGraph t (Route router u) (graphs sv)) as [[g|] m] eqn:Hg; cbn iota beta.
  - split; [|by eapply take_hand].
    unfold mret, srv_ret; do 2 f_equal; unfold with_sessions, with_graphs; cbn; by rewrite insert_insert_eq.
  - apply GetExeGraph_None in Hg as ->.
    exact (give_up_ok t _ _ _ s (mkSession u (Some k) (orc_ctx x) (graph_ x)) _ _ f AppError _ Hi Ha).
Qed.

Lemma SetupCtx_ok router t all reqs k parked (sv : Service) :
  Inv all reqs [k] [] parked sv ->
  exists o hand sv', SetupCtx router t k sv = Fine (o, sv') /\ Inv all reqs [] hand parked sv' /\
    match o with None => hand = [] | Some s => exists g, hand = [(s, k, g)] end.
Proof.
  intros Hi; pose proof (SetupCtx_cases router t _ _ _ _ _ Hi) as Hc; unfold refused_with in Hc.
  destruct (f_Acquire t (factory sv)) as [[s|] f]; [|destruct Hc as (sv' & ? & ? & _); by exists None, [], sv'].
  destruct Hc as (x & _ & Hc); destruct (session_Init k (user x)) as [[|] u]; [|destruct Hc as (sv' & ? & ? & _); by exists None, [], sv'].
  destruct (GetExeGraph t (Route router u) (graphs sv)) as [[g|] m]; [|destruct Hc as (sv' & ? & ? & _); by exists None, [], sv'].
  destruct Hc as [? ?]; exists (Some s), [(s, k, g)]; eexists; split_and!; [done.. | by exists g].
Qed.

(** *** Between the steps *)

Lemma Inv_perm all reqs hk hand parked parked' (sv : Service) :
  parked ≡ₚ parked' -> Inv all reqs hk hand parked sv -> Inv all reqs hk hand parked' sv.
Proof.
  intros Hp []; split; try done.
  - by rewrite <- Hp.
  - by rewrite <- Hp.
  - by rewrite <- Hp.
  - by rewrite <- Hp.
  - intros k; rewrite i_closures0; by rewrite Hp.
  - intros Hm; destruct (i_graphs0 Hm) as [ld Hld]; exists ld; eapply world_ok_perm; [|exact Hld]; by rewrite Hp.
Qed.

(** A queue or a set of waiting sessions in another order, or with a session less that is
    taken to work on it. *)
Lemma unpark all reqs s parked (sv : Service) q w :
  Inv all reqs [] [] parked sv -> closure_tasks q ≡ₚ closure_tasks (queue sv) ->
  waiting sv ++ ctx_tasks (queue sv) ≡ₚ s :: w ++ ctx_tasks q -> (forall ts, ts ∈ leaving sv -> ts.2 ∈ waiting sv -> ts.2 ∈ w) ->
  exists k g parked', Inv all reqs [] [(s, k, g)] parked' (with_waiting w (with_queue q sv)).
Proof.
  intros Hi Hq Hw Hlv; assert (Hin : s ∈ s_of <$> parked) by (rewrite (i_parked _ _ _ _ _ _ Hi), Hw; set_solver).
  apply list_elem_of_fmap in Hin as ([[s' k] g] & -> & Hin); apply elem_of_Permutation in Hin as [parked' Hp].
  exists k, g, parked'; apply (Inv_perm _ _ _ _ _ _ _ Hp) in Hi; destruct Hi; split; cbn in *; try done.
  - rewrite Hw in i_parked0; by apply Permutation_cons_inv in i_parked0.
  - rewrite <- i_reqs0; by rewrite Hq.
  - intros k'; rewrite i_closures0; by rewrite Hq.
  - apply list.Forall_forall; intros ts Hts; destruct (proj1 (list.Forall_forall _ _) i_leaving0 ts Hts) as [? ?]; split; [by apply Hlv | done].
Qed.

Lemma park all reqs s k g parked (sv : Service) :
  Inv all reqs [] [(s, k, g)] parked sv -> Inv all reqs [] [] ((s, k, g) :: parked) (with_queue (queue sv ++ [CtxTask s]) sv).
Proof.
  assert (Hc : closure_tasks (queue sv ++ [CtxTask s]) = closure_tasks (queue sv)) by (unfold closure_tasks; by rewrite omap_app, app_nil_r).
  assert (Hx : ctx_tasks (queue sv ++ [CtxTask s]) = ctx_tasks (queue sv) ++ [s]) by (unfold ctx_tasks; by rewrite omap_app).
  intros []; split; cbn in *; try rewrite Hc; try done; rewrite Hx, i_parked0; solve_Permutation.
Qed.

Lemma queue_closure all reqs k parked (sv : Service) :
  Inv all reqs [k] [] parked sv -> Inv all reqs [] [] parked (with_queue (queue sv ++ [ClosureTask k]) sv).
Proof.
  assert (Hc : closure_tasks (queue sv ++ [ClosureTask k]) = closure_tasks (queue sv) ++ [k]) by (unfold closure_tasks; by rewrite omap_app).
  assert (Hx : ctx_tasks (queue sv ++ [ClosureTask k]) = ctx_tasks (queue sv)) by (unfold ctx_tasks; by rewrite omap_app, app_nil_r).
  intros []; split; cbn in *; try rewrite Hc; try rewrite Hx; try done; [rewrite <- i_reqs0; solve_Permutation|].
  intros k'; rewrite i_closures0; set_solver.
Qed.

Lemma unqueue_closure all reqs k parked (sv : Service) q :
  Inv all reqs [] [] parked sv -> closure_tasks (queue sv) ≡ₚ k :: closure_tasks q -> ctx_tasks (queue sv) ≡ₚ ctx_tasks q ->
  Inv all reqs [k] [] parked (with_queue q sv).
Proof.
  intros [] Hc Hx; split; cbn in *; try done; [by rewrite <- Hx | by rewrite <- i_reqs0, Hc|].
  intros k'; rewrite i_closures0, Hc; cbn; done.
Qed.

(** A new closure. *)
Lemma request_ok all reqs k parked (sv : Service) :
  Inv all reqs [] [] parked sv -> k ∉ requested sv ->
  Inv all (reqs ++ [k]) [k] [] parked (with_closures (<[k := new_ServiceClosure]> (closures sv)) (answers sv) sv).
Proof.
  intros Hi Hk; assert (Hn : k ∉ reqs).
  { rewrite <- (i_reqs _ _ _ _ _ _ Hi); intros [Hin|Hin]%elem_of_app; apply Hk; unfold requested; apply elem_of_app; [by left|right].
    destruct (proj2 (i_closures _ _ _ _ _ _ Hi k) Hin) as [c Hc]; apply list_elem_of_fmap; exists (k, c); by rewrite elem_of_map_to_list. }
  destruct Hi; split; cbn in *; try done.
  - rewrite <- i_reqs0; solve_Permutation.
  - apply list.NoDup_app; split; [done|]; split; [set_solver | apply NoDup_singleton].
  - intros k'; destruct (decide (k' = k)) as [->|]; [rewrite lookup_insert_eq; split; [set_solver | by eexists]|].
    rewrite lookup_insert_ne by done; rewrite i_closures0; set_solver.
Qed.

Definition new_request (a : action) : list nat := match a with Request _ k => [k] | _ => [] end.

(** A file whose graphs have their own names is loaded, by fewer than 2^32 loads. *)
Definition load_allowed (a : action) (sv : Service) : Prop :=
  match a with
  | Reload _ _ _ _ (Some gs) => map_Forall (fun nm g => g_name g = nm) gs /\ (version_ (graphs sv) + 1 < 2 ^ 32)%Z
  | _ => True
  end.

Lemma RunClosureInner_ok router fuel t all reqs k parked (sv : Service) :
  Inv all reqs [k] [] parked sv ->
  RunClosureInner router fuel t k sv = Unfinished \/
  exists sv' parked', RunClosureInner router fuel t k sv = Fine (tt, sv') /\ Inv all reqs [] [] parked' sv'.
Proof.
  intros Hi; destruct (SetupCtx_ok router t _ _ _ _ _ Hi) as (o & hand & sv' & He & Hi' & Ho).
  unfold RunClosureInner, mbind, srv_bind; rewrite He; destruct o as [s|]; [|subst hand; right; by exists sv', parked].
  destruct Ho as [g ->]; by eapply RunCtxInner_ok.
Qed.

Lemma Callback_ok fuel c all reqs s k g parked (sv : Service) :
  Inv all reqs [] [(s, k, g)] parked sv ->
  Callback fuel c s sv = Unfinished \/
  exists sv' parked', Callback fuel c s sv = Fine (tt, sv') /\ Inv all reqs [] [] parked' sv'.
Proof.
  intros Hi; destruct (proj1 (list.Forall_cons _ _ _) (i_own _ _ _ _ _ _ Hi)) as [(u & cx & Hs) _]; cbn in Hs.
  unfold Callback, get_session, put_session, mbind, srv_bind; rewrite Hs; cbn iota beta; cbn [orc_ctx user service_closure graph_].
  apply (put_hand _ _ _ _ _ _ _ _ _ u (set_async_state After cx)) in Hi; destruct c as [t|t [|]]; cbn [RunCtx].
  - exact (RunCtxInner_ok fuel t _ _ _ _ _ _ _ Hi).
  - right; do 2 eexists; split; [done|]; by apply park.
  - destruct (ResetCtx_ok t _ _ _ _ _ _ _ Hi) as (sv' & c0 & He & Hi' & _); right; eauto.
Qed.

Lemma reload_ok get_handler psize tls tsize file compiled all reqs parked (sv : Service) :
  Inv all reqs [] [] parked sv -> load_allowed (Reload psize tls tsize file compiled) sv -> mode (graphs sv) = Pool ->
  Inv all reqs [] [] parked (with_graphs (ReloadGraph get_handler Pool psize tls tsize file compiled (graphs sv)).2 sv).
Proof.
  intros [] Hload Hm; split; cbn in *; try done; intros _; destruct (i_graphs0 Hm) as [ld Hld].
  destruct (ReloadGraph get_handler Pool psize tls tsize file compiled (graphs sv)) as [b m] eqn:Hr; cbn.
  destruct compiled as [gs|]; [|injection Hr as <- <-; eauto].
  destruct Hload, b; [exists (dom gs); by eapply load_ok|].
  unfold ReloadGraph in Hr; destruct (ReloadExeGraph _ _ _ _ _) as [gs'|]; [done | injection Hr as <-; eauto].
Qed.

(** A thread that leaves [RunInner] finds the walk of its session where it left it. *)
Lemma leave_ok i t s all reqs parked (sv : Service) :
  Inv all reqs [] [] parked sv -> leaving sv !! i = Some (t, s) ->
  LeaveRunInner t s (with_leaving (delete i (leaving sv)) sv) = Fine (tt, with_leaving (delete i (leaving sv)) sv) /\
  Inv all reqs [] [] parked (with_leaving (delete i (leaving sv)) sv).
Proof.
  intros [] Hl; split; [|split; cbn; try done; by apply Forall_delete].
  destruct (proj1 (Forall_lookup _ _) i_leaving0 i _ Hl) as [_ (x & Hx & Hd)]; cbn in Hx.
  unfold LeaveRunInner, get_session, mbind, srv_bind; cbn; by rewrite Hx, Hd.
Qed.

Lemma act_ok router get_handler fuel a all reqs parked (sv : Service) :
  Inv all reqs [] [] parked sv -> load_allowed a sv -> timely a sv ->
  act router get_handler fuel a sv = Unfinished \/ act router get_handler fuel a sv = Refused \/
  exists sv' parked', act router get_handler fuel a sv = Fine (tt, sv') /\ Inv all (reqs ++ new_request a) [] [] parked' sv'.
Proof.
  intros Hi Hload Htime; destruct a as [c k|t i|i|c s|psize tls tsize file compiled]; cbn [act new_request].
  - case_decide as Hk; [auto|]; apply (request_ok _ _ _ _ _ Hi) in Hk; clear Hi.
    destruct c as [t|t [|]]; cbn [RunClosure].
    + destruct (RunClosureInner_ok router fuel t _ _ _ _ _ Hk) as [->|?]; auto.
    + right; right; do 2 eexists; split; [done|]; by apply queue_closure.
    + right; right; exists (with_closures (delete k (<[k := new_ServiceClosure]> (closures sv))) (answers sv ++ [(k, new_ServiceClosure)]) sv), parked.
      split; [unfold Done; cbn; by rewrite lookup_insert_eq | exact (answer_ok _ _ k _ _ _ _ Hk)].
  - rewrite app_nil_r; destruct (queue sv !! i) as [[k|s]|] eqn:Hq; [| |auto].
    + destruct (tasks_delete _ _ _ Hq) as [Hc Hx]; apply (unqueue_closure _ _ k _ _ (delete i (queue sv))) in Hi; [|done..].
      destruct (RunClosureInner_ok router fuel t _ _ _ _ _ Hi) as [->|?]; auto.
    + destruct (tasks_delete _ _ _ Hq) as [Hc Hx].
      destruct (unpark all reqs s parked sv (delete i (queue sv)) (waiting sv) Hi) as (k & g & parked' & Hu); [by rewrite Hc | rewrite Hx; cbn; solve_Permutation | done|].
      destruct (RunCtxInner_ok fuel t _ _ _ _ _ _ _ Hu) as [He|?]; auto.
  - rewrite app_nil_r; destruct (leaving sv !! i) as [[t s]|] eqn:Hl; [|auto].
    destruct (leave_ok i t s _ _ _ _ Hi Hl) as [-> Hi']; eauto 6.
  - rewrite app_nil_r; destruct (list_find (eq s) (waiting sv)) as [[i s']|] eqn:Hf; [|auto].
    apply list_find_Some in Hf as (Hf & <- & _).
    destruct (unpark all reqs s parked sv (queue sv) (delete i (waiting sv)) Hi) as (k & g & parked' & Hu); [done| | |].
    { by rewrite (delete_Permutation _ _ _ Hf) at 1. }
    { intros ts Hts; rewrite (delete_Permutation _ _ _ Hf) at 1; intros [Hs|?]%elem_of_cons; [|done].
      exfalso; apply Htime; rewrite <- Hs; apply list_elem_of_fmap; by exists ts. }
    destruct (Callback_ok fuel c _ _ _ _ _ _ _ Hu) as [He|?]; auto.
  - rewrite app_nil_r; destruct (mode (graphs sv)) eqn:Hm; [|auto].
    right; right; do 2 eexists; split; [done|]; by apply reload_ok.
Qed.
End Inv.

(** ** Where graphs come from *)

Section Origin.
Context {H S F : Type} `{Application H S} `{Hok : SessionFactoryOk H S F}.
Abbreviation Service := (Service H S F).
(** [P nm g]: [g] may be under the name [nm]; its own name will do as well. *)
Context (P : string -> ExecutionGraph H -> Prop) (HP : forall nm g, P nm g -> P (eg_name g) g) (v : Z).

(** Every graph of the pools and of the sessions is of a kind; loads are counted by [v]. *)
Definition pool_all (m : ExecutionGraphMgr H) : Prop :=
  (forall nm g, g ∈ queue_of nm (exe_graphs m) -> P nm g) /\ (forall t nm g, g ∈ queue_of nm (tls_of t m) -> P nm g).
Record Origin (sv : Service) : Prop := {
  o_version : version_ (graphs sv) = v;
  o_pool : pool_all (graphs sv);
  o_sessions : forall s x g, sessions sv !! s = Some x -> graph_ x = Some g -> P (eg_name g) g
}.

Lemma pool_all_tls t gs m : pool_all m -> (forall nm g, g ∈ queue_of nm gs -> P nm g) -> pool_all (set_tls t gs m).
Proof.
  intros [Hs Ht] Hgs; split; [exact Hs|]; intros t' nm g; unfold tls_of, set_tls; cbn.
  destruct (decide (t' = t)) as [->|]; [rewrite lookup_insert_eq; apply Hgs | rewrite lookup_insert_ne by done; apply Ht].
Qed.

Lemma queue_all nm q (gs : gmap string (list (ExecutionGraph H))) :
  (forall nm g, g ∈ queue_of nm gs -> P nm g) -> (forall g, g ∈ q -> P nm g) -> forall nm' g, g ∈ queue_of nm' (<[nm := q]> gs) -> P nm' g.
Proof. intros Hgs Hq nm' g; rewrite queue_of_insert; case_decide; subst; eauto. Qed.

Lemma GetExeGraph_all t nm m : pool_all m ->
  pool_all (GetExeGraph t nm m).2 /\ (forall g, (GetExeGraph t nm m).1 = Some g -> P nm g) /\ version_ (GetExeGraph t nm m).2 = version_ m.
Proof.
  intros Hm; destruct (Hm) as [Hs Ht]; unfold GetExeGraph; destruct (mode m).
  2:{ split; [done|]; split; [|done]; unfold GetExeGraphFromSingleton; destruct (exe_graphs m !! nm) as [[|g q]|] eqn:E; try done.
      cbn; intros ? [= <-]; apply (Hs nm); unfold queue_of; rewrite E; cbn; set_solver. }
  destruct (if use_tls m then _ else None) as [[g tls]|] eqn:E1.
  - destruct (use_tls m); [|done]; apply FromPool_inv in E1 as (q & Eq & ->); cbn.
    split; [|split; [intros ? [= <-]; apply (Ht t nm); rewrite Eq; set_solver | done]].
    apply pool_all_tls; [done|]; apply queue_all; [apply Ht|]; intros g' Hg'; apply (Ht t nm); rewrite Eq; set_solver.
  - destruct (GetExeGraphFromPool nm (exe_graphs m)) as [[g gs]|] eqn:E2; cbn; [|done].
    apply FromPool_inv in E2 as (q & Eq & ->); split; [|split; [intros ? [= <-]; apply (Hs nm); rewrite Eq; set_solver | done]].
    split; [cbn; apply queue_all; [exact Hs|]; intros g' Hg'; apply (Hs nm); rewrite Eq; set_solver | exact Ht].
Qed.

Lemma enqueue_all nm g (gs : gmap string (list (ExecutionGraph H))) :
  (forall nm g, g ∈ queue_of nm gs -> P nm g) -> P nm g -> forall nm' g', g' ∈ queue_of nm' (enqueue nm g gs) -> P nm' g'.
Proof. intros Hgs Hg; apply queue_all; [exact Hgs|]; intros g' [?| ->%list_elem_of_singleton]%elem_of_app; eauto. Qed.

Lemma ReleaseExeGraph_all t g m : pool_all m -> P (eg_name g) g -> pool_all (ReleaseExeGraph t g m) /\ version_ (ReleaseExeGraph t g m) = version_ m.
Proof.
  intros Hm Hg; destruct (Hm) as [Hs Ht]; unfold ReleaseExeGraph; destruct (mode m); [|done]; case_bool_decide; [done|].
  destruct (use_tls m && _); (split; [|done]); [apply pool_all_tls; [done|]; by apply enqueue_all; [apply Ht|]|].
  split; [cbn; by apply enqueue_all | exact Ht].
Qed.

(** Steps that keep a property of the state; [Q] is what their value satisfies. *)
Definition keeps {A} (Q : A -> Prop) (m : srv (H := H) (S := S) (F := F) A) : Prop :=
  forall sv, Origin sv -> match m sv with Fine (a, sv') => Q a /\ Origin sv' | _ => True end.
Lemma keeps_bind {A B} (Q : A -> Prop) (R : B -> Prop) m k :
  keeps Q m -> (forall a, Q a -> keeps R (k a)) -> keeps R (@mbind _ srv_bind _ _ k m).
Proof.
  intros Hm Hk sv Hsv; unfold mbind, srv_bind; specialize (Hm sv Hsv); destruct (m sv) as [[a sv']| | |]; try done.
  destruct Hm as [Ha Hsv']; by apply Hk.
Qed.
Lemma keeps_mret {A} (Q : A -> Prop) a : Q a -> keeps Q (@mret _ srv_ret _ a).
Proof. by intros Ha sv Hsv. Qed.
Lemma keeps_closures {A} (m : srv A) :
  (forall sv a sv', m sv = Fine (a, sv') -> graphs sv' = graphs sv /\ sessions sv' = sessions sv) -> keeps (fun _ => True) m.
Proof.
  intros Hm sv [Hv Hp Hs]; destruct (m sv) as [[a sv']| | |] eqn:E; try done; destruct (Hm _ _ _ E) as [Eg Es].
  split; [done|]; split; rewrite ?Eg, ?Es; done.
Qed.

Definition graph_ok (x : SessionBase H S) : Prop := forall g, graph_ x = Some g -> P (eg_name g) g.

Lemma keeps_get s : keeps graph_ok (get_session s).
Proof. intros sv Hsv; unfold get_session; destruct (sessions sv !! s) as [x|] eqn:E; [|done]; split; [|done]; intros g Hg; by eapply o_sessions. Qed.
Lemma keeps_put s x : graph_ok x -> keeps (fun _ => True) (put_session s x).
Proof.
  intros Hx sv []; split; [done|]; split; cbn; try done.
  intros s' y g [[<- <-]|[_ Hl]]%lookup_insert_Some Hg; [by apply Hx | by eapply o_sessions0].
Qed.
Lemma keeps_update k f : keeps (fun _ => True) (update_closure k f).
Proof. apply keeps_closures; intros sv a sv'; unfold update_closure; case_match; intros [= _ <-]; done. Qed.
Lemma keeps_Done k : keeps (fun _ => True) (Done k).
Proof. apply keeps_closures; intros sv a sv'; unfold Done; case_match; intros [= _ <-]; done. Qed.
Lemma keeps_enqueue x : keeps (fun _ => True) (enqueue_task x).
Proof. apply keeps_closures; by intros sv a sv' [= _ <-]. Qed.
Lemma keeps_suspend t s : keeps (fun _ => True) (suspend t s).
Proof. apply keeps_closures; by intros sv a sv' [= _ <-]. Qed.
Lemma keeps_Acquire t : keeps (fun _ => True) (Acquire t).
Proof. apply keeps_closures; intros sv a sv'; unfold Acquire; case_match; by intros [= _ <-]. Qed.
Lemma keeps_Release t s : keeps (fun _ => True) (Release t s).
Proof.
  intros sv []; unfold Release; destruct (f_Release_ok t s (sessions sv) (factory sv)) as [_ [clear Hc]].
  destruct (f_Release t s (sessions sv) (factory sv)) as [h f]; cbn in Hc; subst h; split; [done|]; split; cbn; try done.
  intros s' x g Hl Hg; apply lookup_alter_Some in Hl as [(<- & y & Hy & ->)|[_ Hl]]; [exact (o_sessions0 s y g Hy Hg) | by eapply o_sessions0].
Qed.
Lemma keeps_Take t nm : keeps (fun o => forall g, o = Some g -> P (eg_name g) g) (TakeGraph t nm).
Proof.
  intros sv [Hv Hp Hs]; unfold TakeGraph; destruct (GetExeGraph_all t nm _ Hp) as (Hp' & Hg & Hv').
  destruct (GetExeGraph t nm (graphs sv)) as [o m]; cbn in *; split; [eauto|]; split; cbn; [congruence | done..].
Qed.
Lemma keeps_Give t g : P (eg_name g) g -> keeps (fun _ => True) (GiveGraph t g).
Proof.
  intros Hg sv [Hv Hp Hs]; destruct (ReleaseExeGraph_all t g _ Hp Hg) as [Hp' Hv']; split; [done|]; split; cbn; [congruence | done..].
Qed.
Lemma keeps_fail {A} (Q : A -> Prop) : keeps Q use_after_free /\ keeps Q unfinished.
Proof. by split; intros sv Hsv. Qed.
End Origin.

Create HintDb origin.
#[export] Hint Resolve keeps_get keeps_put keeps_update keeps_Done keeps_enqueue keeps_suspend keeps_Acquire keeps_Release
  keeps_Take keeps_Give keeps_mret : origin.
#[export] Hint Extern 1 (keeps _ _ _ use_after_free) => apply keeps_fail : origin.
#[export] Hint Extern 1 (keeps _ _ _ unfinished) => apply keeps_fail : origin.

(** One operation after the other. *)
Ltac keeps_step := eapply keeps_bind; [solve [eauto with origin] | intros ? ?; cbn iota beta].

Section OriginRun.
Context {H S F : Type} `{Application H S} `{Hok : SessionFactoryOk H S F}.
Context (P : string -> ExecutionGraph H -> Prop) (HP : forall nm g, P nm g -> P (eg_name g) g).
Context (v : Z) (router : WorkflowRouter S).
Abbreviation keeps := (keeps (F := F) P v).

Lemma keeps_give_up t k s code msg : keeps (fun _ => True) (give_up_session t k s code msg).
Proof. unfold give_up_session, set_answer; do 3 keeps_step; by apply keeps_mret. Qed.

Lemma keeps_perform t s e : keeps (fun _ => True) (perform t s e).
Proof.
  unfold perform; keeps_step; destruct e; [case_match | case_match | ]; eauto with origin.
  - keeps_step; eauto with origin.
  - keeps_step; apply keeps_put; by intros ? ?.
Qed.
Lemma keeps_perform_all t s l : keeps (fun _ => True) (perform_all t s l).
Proof.
  induction l as [|e l IH]; cbn [perform_all]; [by apply keeps_mret|].
  eapply keeps_bind; [apply keeps_perform | intros; apply IH].
Qed.

Lemma keeps_SetupCtx t k : keeps (fun _ => True) (SetupCtx router t k).
Proof.
  unfold SetupCtx; keeps_step; destruct a as [s|].
  2:{ unfold set_answer; do 2 keeps_step; by apply keeps_mret. }
  keeps_step; destruct (session_Init k (user a)) as [ok u]; keeps_step; destruct ok; cbn [negb]; [|apply keeps_give_up].
  keeps_step; destruct a1 as [g|]; [|apply keeps_give_up].
  eapply keeps_bind; [apply keeps_put; intros ? [= <-]; eauto | intros; by apply keeps_mret].
Qed.
Lemma keeps_ResetCtx t s : keeps (fun _ => True) (ResetCtx t s).
Proof. unfold ResetCtx; keeps_step; keeps_step; apply keeps_perform_all. Qed.
Lemma keeps_LeaveRunInner t s : keeps (fun _ => True) (LeaveRunInner t s).
Proof. unfold LeaveRunInner; keeps_step; case_match; [apply keeps_ResetCtx | by apply keeps_mret]. Qed.
Lemma keeps_RunCtxInner fuel t s : keeps (fun _ => True) (RunCtxInner fuel t s).
Proof.
  unfold RunCtxInner; keeps_step; destruct (RunInner _ _ _ _ _) as [[[ev u] c]|]; [|apply keeps_fail].
  keeps_step; destruct ev; [eauto with origin | apply keeps_perform_all].
Qed.
Lemma keeps_RunClosureInner fuel t k : keeps (fun _ => True) (RunClosureInner router fuel t k).
Proof.
  unfold RunClosureInner; eapply keeps_bind; [apply keeps_SetupCtx|].
  intros [s|] _; [apply keeps_RunCtxInner | by apply keeps_mret].
Qed.
Lemma keeps_RunCtx fuel c s : keeps (fun _ => True) (RunCtx fuel c s).
Proof. destruct c as [t|t [|]]; cbn [RunCtx]; eauto using keeps_RunCtxInner, keeps_ResetCtx with origin. Qed.
Lemma keeps_RunClosure fuel c k : keeps (fun _ => True) (RunClosure router fuel c k).
Proof. destruct c as [t|t [|]]; cbn [RunClosure]; eauto using keeps_RunClosureInner with origin. Qed.
Lemma keeps_Callback fuel c s : keeps (fun _ => True) (Callback fuel c s).
Proof. unfold Callback; keeps_step; keeps_step; apply keeps_RunCtx. Qed.
End OriginRun.

(** Loading a file: its graphs are of the kind, and one load is counted. *)
Section OriginAct.
Context {H S F : Type} `{Application H S} `{Hok : SessionFactoryOk H S F}.
Context (P : string -> ExecutionGraph H -> Prop) (HP : forall nm g, P nm g -> P (eg_name g) g).
Context (router : WorkflowRouter S) (get_handler : string -> option H).

Definition loads_only (a : action) : Prop :=
  match a with
  | Reload psize _ _ _ (Some gs) =>
      forall v m, ReloadExeGraph get_handler v psize (map_to_list gs) ∅ = Some m -> forall nm g, g ∈ queue_of nm m -> P nm g
  | _ => True
  end.

Lemma act_origin fuel a v (sv sv' : Service H S F) u :
  loads_only a -> Origin P v sv -> (0 <= v)%Z -> act router get_handler fuel a sv = Fine (u, sv') ->
  exists v', (0 <= v' <= v + 1)%Z /\ Origin P v' sv'.
Proof.
  intros Hl Ho Hv.
  assert (Hkeep : forall (m : srv unit) sv0, keeps P v (fun _ => True) m -> graphs sv0 = graphs sv -> sessions sv0 = sessions sv ->
    m sv0 = Fine (u, sv') -> exists v', (0 <= v' <= v + 1)%Z /\ Origin P v' sv').
  { intros m sv0 Hm Hg Hs He; specialize (Hm sv0); rewrite He in Hm; exists v; split; [lia|]; apply Hm.
    destruct Ho; split; by rewrite ?Hg, ?Hs. }
  destruct a as [c k|t i|i|c s|psize tls tsize file compiled]; cbn [act].
  - case_decide; [done|]; intros He; by eapply Hkeep; [by apply keeps_RunClosure| | |exact He].
  - destruct (queue sv !! i) as [[k|s]|]; [| |done]; intros He; eapply Hkeep; try exact He; try done;
      [by apply keeps_RunClosureInner | by apply keeps_RunCtxInner].
  - destruct (leaving sv !! i) as [[t s]|]; [|done]; intros He; by eapply Hkeep; [by apply keeps_LeaveRunInner| | |exact He].
  - destruct (list_find (eq s) (waiting sv)) as [[i s']|]; [|done]; intros He; by eapply Hkeep; [by apply keeps_Callback| | |exact He].
  - destruct (mode (graphs sv)); [|done]; intros [= _ <-].
    destruct Ho as [Hver [Hp Ht] Hs]; unfold ReloadGraph; destruct compiled as [gs|]; [|exists v; by split; [lia|]].
    cbn in Hl; destruct (ReloadExeGraph _ _ _ _ _) as [m|] eqn:E; cbn; [|exists v; by split; [lia|]].
    rewrite Hver in *; exists ((v + 1) mod 2 ^ 32)%Z; split; [|split; [done| |done]].
    + pose proof (Z.mod_pos_bound (v + 1) (2 ^ 32) ltac:(lia)); pose proof (Z.mod_le (v + 1) (2 ^ 32) ltac:(lia) ltac:(lia)); lia.
    + split; cbn; [by eapply Hl | exact Ht].
Qed.
End OriginAct.

(** ** A service that was set up *)

Definition named (gs : gmap string Graph) : Prop := map_Forall (fun nm g => g_name g = nm) gs.
Definition loads_named (a : action) : Prop := match a with Reload _ _ _ _ (Some gs) => named gs | _ => True end.

Lemma mgr_Setup_inv {H} (get_handler : string -> option H) compile mode_str wsize ssize file worker_num tls m m' :
  mgr_Setup get_handler compile mode_str wsize ssize file worker_num tls m = Some (true, m') ->
  exists md psize tls tsize f gs, compile f = Some gs /\ ReloadGraph get_handler md psize tls tsize f (Some gs) m = (true, m').
Proof.
  assert (Hsetup : forall md psize,
    match file, worker_num with
    | Some file, Some n => if bool_decide (n = 0)%Z then None
        else Some (ReloadGraph get_handler md psize (default false tls) (psize / n)%Z file (compile file) m)
    | _, _ => Some (false, m)
    end = Some (true, m') ->
    exists md psize tls tsize f gs, compile f = Some gs /\ ReloadGraph get_handler md psize tls tsize f (Some gs) m = (true, m')).
  { intros md psize; destruct file as [f|], worker_num as [n|]; try done; case_bool_decide; [done|].
    destruct (compile f) as [gs|] eqn:E; [|done]; intros [= Hr]; eauto 10. }
  unfold mgr_Setup; destruct mode_str as [s|]; [|done]; case_bool_decide; [apply Hsetup|]; case_bool_decide; [|done].
  destruct (match wsize with Some n => Some n | None => ssize end); [apply Hsetup | done].
Qed.

Section Started.
Context {H S F Config : Type} `{Application H S} `{Hok : SessionFactoryOk H S F}.
Context (no_config : Config) (BaseInit : H -> Config -> bool) (LoadFile : string -> option (gmap string Config)).
Context (compile : string -> option (gmap string Graph)).

(** What a successful [Setup] gives. *)
Lemma Setup_inv orc config factories routers hm hm' router o (sv : Service H S F) :
  Setup no_config BaseInit LoadFile compile orc config factories routers hm (initial_mgr 0) = Some (Some (hm', router, o, sv)) ->
  (exists nm f, factories !! nm = Some f /\ f_Init orc config ∅ f = Some (true, sessions sv, factory sv)) /\
  (exists md psize tls tsize f gs, compile f = Some gs /\
     ReloadGraph (GetHandler no_config BaseInit hm') md psize tls tsize f (Some gs) (initial_mgr 0) = (true, graphs sv)) /\
  closures sv = ∅ /\ answers sv = [] /\ queue sv = [] /\ waiting sv = [] /\ leaving sv = [].
Proof.
  unfold Setup; destruct (hm_Setup _ _ _ _ hm) as [[|] hm1]; [|done].
  unfold SetupExecutionGraphMgr; destruct (mgr_Setup _ _ _ _ _ _ _ _ _) as [[[|] m]|] eqn:Em; try done; apply mgr_Setup_inv in Em.
  unfold InitSessionFactory; destruct (GetOrcConfig _ _ _ SvrSessionFactory) as [nm|]; [|done].
  destruct (GetSessionFactory nm factories) as [f|] eqn:Ef; [|done]; destruct (f_Init orc config ∅ f) as [[[[|] h] f']|] eqn:Ei; try done.
  destruct (InitWorkflowRouter _ _ _) as [r|]; [|done]; destruct (InitThreadPool _ _) as [o'|]; [|done].
  intros [= <- <- <- <-]; cbn; split; [by exists nm, f | by split].
Qed.

Lemma Setup_ok orc config factories routers hm hm' router o (sv : Service H S F) :
  Setup no_config BaseInit LoadFile compile orc config factories routers hm (initial_mgr 0) = Some (Some (hm', router, o, sv)) ->
  map_Forall (fun _ f => f_free f = []) factories -> (forall f gs, compile f = Some gs -> named gs) ->
  Inv (f_free (factory sv)) [] [] [] [] sv.
Proof.
  intros ((nm & f & Hf & Hi) & (md & psize & tls & tsize & file & gs & Hc & Hr) & Hcl & Ha & Hq & Hw & Hlv)%Setup_inv Hfree Hnamed.
  destruct (f_Init_ok _ _ _ _ _ (Hfree nm f Hf) Hi) as (Hnd & Hheap & _).
  split; rewrite ?Ha, ?Hq, ?Hw, ?Hcl, ?Hlv; cbn; try done.
  - by rewrite app_nil_r.
  - apply NoDup_nil_2.
  - intros k; rewrite lookup_empty; split; [by intros [? ?] | set_solver].
  - intros Hm; exists (dom gs); eapply (load_ok (GetHandler no_config BaseInit hm') psize tls tsize file gs); [apply (initial_ok 0)| |by eapply Hnamed | done].
    destruct md; [exact Hr|]; exfalso; unfold ReloadGraph in Hr; destruct (ReloadExeGraph _ _ _ _ _); [|done].
    by injection Hr as Hr; rewrite <- Hr in Hm.
Qed.

Lemma Setup_origin (P : string -> ExecutionGraph H -> Prop) orc config factories routers hm hm' router o (sv : Service H S F) :
  Setup no_config BaseInit LoadFile compile orc config factories routers hm (initial_mgr 0) = Some (Some (hm', router, o, sv)) ->
  map_Forall (fun _ f => f_free f = []) factories ->
  (forall f gs v psize m, compile f = Some gs -> ReloadExeGraph (GetHandler no_config BaseInit hm') v psize (map_to_list gs) ∅ = Some m ->
     forall nm g, g ∈ queue_of nm m -> P nm g) ->
  Origin P 1 sv.
Proof.
  intros ((nm & f & Hf & Hi) & (md & psize & tls & tsize & file & gs & Hc & Hr) & _)%Setup_inv Hfree HP.
  destruct (f_Init_ok _ _ _ _ _ (Hfree nm f Hf) Hi) as (_ & _ & Hg).
  unfold ReloadGraph in Hr; destruct (ReloadExeGraph _ _ _ _ _) as [m|] eqn:E; [|done]; injection Hr as Hr; split; rewrite <- ?Hr; cbn.
  - done.
  - split; [by eapply HP | intros t nm'; unfold tls_of; cbn; rewrite lookup_empty; cbn; unfold queue_of; rewrite lookup_empty; cbn; set_solver].
  - intros s x g Hx Hgx; by rewrite (Hg s x Hx) in Hgx.
Qed.
End Started.

(** ** Runs *)

Section Runs.
Context {H S F : Type} `{Application H S} `{Hok : SessionFactoryOk H S F}.
Context (router : WorkflowRouter S) (get_handler : string -> option H).

Lemma service_run_ok (P : string -> ExecutionGraph H -> Prop) (HP : forall nm g, P nm g -> P (eg_name g) g) fuel acts : forall all reqs parked (sv : Service H S F) v,
  Inv all reqs [] [] parked sv -> Origin P v sv -> (0 <= v)%Z -> (v + Z.of_nat (length acts) < 2 ^ 32)%Z ->
  Forall loads_named acts -> Forall (loads_only P get_handler) acts -> prompt router get_handler fuel acts sv ->
  match run_service router get_handler fuel acts sv with
  | Fine sv' => exists parked' v', Inv all (reqs ++ (acts ≫= new_request)) [] [] parked' sv' /\ Origin P v' sv'
  | UseAfterFree => False
  | _ => True
  end.
Proof.
  induction acts as [|a acts IH]; intros all reqs parked sv v Hi Ho Hv Hlen Hn Hl Hpr; cbn [run_service].
  { exists parked, v; cbn; by rewrite app_nil_r. }
  apply list.Forall_cons in Hn as [Hna Hn]; apply list.Forall_cons in Hl as [Hla Hl]; cbn [length] in Hlen; destruct Hpr as [Hti Hpr].
  destruct (act_ok router get_handler fuel a _ _ _ _ Hi) as [-> | [-> | (sv1 & parked1 & He & Hi1)]]; [|done|done..|].
  { clear Hti Hpr IH Hla; destruct a; cbn in *; try done; case_match; [|done]; split; [done|]; rewrite (o_version _ _ _ Ho); lia. }
  destruct (act_origin P HP router get_handler fuel a v sv sv1 tt Hla Ho Hv He) as (v1 & Hv1 & Ho1).
  rewrite He in Hpr |- *; specialize (IH _ _ _ _ _ Hi1 Ho1 ltac:(lia) ltac:(lia) Hn Hl Hpr); revert IH.
  destruct (run_service router get_handler fuel acts sv1); [|done..]; cbn; by rewrite (assoc_L (++)).
Qed.
End Runs.

(** ** The sources of the graphs *)

Section Sources.
Context {H : Type} (get_handler : string -> option H).

(** [gr] is the graph of a compiled workflow [l] that can run: it has something to run, uses
    no handler twice, and all handlers are there. *)
Definition source_of (nm : string) (l : list workflow_syntax) (gr : Graph) : Prop :=
  exists gs0 gs1, CompileWorkflow (WORKFLOW (NAME nm) (STMT_LIST l)) gs0 = Some gs1 /\ gs1 !! nm = Some gr /\
    entry gr <> PNull /\ NoDup (name <$> nodes gr) /\ forall i nd, nodes gr !! i = Some nd -> is_Some (get_handler (name nd)).
Definition sources (gs : gmap string Graph) : Prop := map_Forall (fun nm gr => exists l, source_of nm l gr) gs.
Definition loads_sources (a : action) : Prop := match a with Reload _ _ _ _ (Some gs) => sources gs | _ => True end.

Lemma source_facts nm l gr : source_of nm l gr ->
  g_name gr = nm /\ wf_graph gr /\ valid_graph gr /\ block_at (nodes gr) l (entry gr) PEnd.
Proof.
  intros (gs0 & gs1 & (nm' & l' & g' & [= <- <-] & _ & -> & _ & Hn & Hw & Hv & Hb)%CompileWorkflow_inv & Hg & _).
  rewrite lookup_insert_eq in Hg; by injection Hg as ->.
Qed.

Lemma sources_named gs : sources gs -> named gs.
Proof. intros Hs nm g Hg; destruct (Hs nm g Hg) as [l Hl]; exact (proj1 (source_facts _ _ _ Hl)). Qed.

(** A graph under [nm] that runs the workflow of a loaded file. *)
Definition runs_source (files : gmap string Graph -> Prop) (nm : string) (g : ExecutionGraph H) : Prop :=
  eg_name g = nm /\ exists gs l gr, files gs /\ gs !! nm = Some gr /\ source_of nm l gr /\ represents get_handler gr g.

Lemma runs_source_own files nm g : runs_source files nm g -> runs_source files (eg_name g) g.
Proof. intros [Hn Hr]; split; [done | by rewrite Hn]. Qed.

Lemma clone_loop_same nm g n : forall gs gs', Clone get_handler g = Some g -> clone_loop get_handler n nm g gs = Some gs' ->
  forall nm' g', g' ∈ queue_of nm' gs' -> g' ∈ queue_of nm' gs \/ (nm' = nm /\ g' = g).
Proof.
  induction n as [|n IH]; intros gs gs' Hc; cbn; [intros [= <-]; auto|]; rewrite Hc; intros Hl nm' g' Hg'.
  destruct (IH _ _ Hc Hl nm' g' Hg') as [Hin|?]; [|by right]; unfold enqueue in Hin; rewrite queue_of_insert in Hin.
  case_decide; [|by left]; subst; apply elem_of_app in Hin as [?| ->%list_elem_of_singleton]; auto.
Qed.

Lemma ReloadExeGraph_runs files gs v psize m : files gs -> sources gs ->
  ReloadExeGraph get_handler v psize (map_to_list gs) ∅ = Some m -> forall nm g, g ∈ queue_of nm m -> runs_source files nm g.
Proof.
  intros Hf Hs; assert (Hl : Forall (fun p : string * Graph => gs !! p.1 = Some p.2) (map_to_list gs)).
  { apply list.Forall_forall; intros [nm g] Hin; by apply elem_of_map_to_list in Hin. }
  revert Hl; assert (Hacc : forall nm g, g ∈ queue_of nm (∅ : gmap string (list (ExecutionGraph H))) -> runs_source files nm g).
  { intros nm g; unfold queue_of; rewrite lookup_empty; cbn; set_solver. }
  revert Hacc; generalize (map_to_list gs); generalize (∅ : gmap string (list (ExecutionGraph H))).
  intros acc l; revert acc; induction l as [|[nm gr] l IH]; intros acc Hacc Hl; cbn [ReloadExeGraph]; [by intros [= <-]|].
  apply list.Forall_cons in Hl as [Hgr Hl]; cbn in Hgr; destruct (Hs _ _ Hgr) as [src Hsrc].
  destruct (source_facts _ _ _ Hsrc) as (Hn & Hw & Hv & _); destruct (Hsrc) as (? & ? & _ & _ & He & Hnd & Hh).
  destruct (BuildGraph_represents get_handler v gr Hw Hv He Hnd Hh) as (eg & -> & Hver & Hrep).
  assert (Heg : represents get_handler gr (set_version v eg)) by exact Hrep.
  assert (Hrun : runs_source files nm (set_version v eg)) by (split; [cbn; rewrite (proj1 Hrep); done | exists gs, src, gr; split_and!; done]).
  destruct (clone_loop _ _ _ _ _) as [acc1|] eqn:Ec; [|done]; intros Hm; eapply IH; [|exact Hl|exact Hm].
  intros nm' g; unfold enqueue; rewrite queue_of_insert.
  assert (Hone : forall nm' g, g ∈ queue_of nm' acc1 -> runs_source files nm' g).
  { intros nm1 g1 Hg1; destruct (clone_loop_same _ _ _ _ _ (Clone_represents _ _ _ Hw Hv He Heg) Ec nm1 g1 Hg1) as [?|[-> ->]]; auto. }
  case_decide; [subst; intros [?| ->%list_elem_of_singleton]%elem_of_app; auto | auto].
Qed.
End Sources.

(** A session that is ready runs to its end, if its workflow does. *)
Section Serve.
Context {H S F : Type} `{Application H S} `{Hok : SessionFactoryOk H S F}.
Context (get_handler : string -> option H) (run : string -> S -> bool * S).

Lemma RunCtxInner_runs t s k g u c c0 l gr nm (sv : Service H S F) :
  synchronous get_handler app_BaseRun run -> source_of get_handler nm l gr -> represents get_handler gr g ->
  sessions sv !! s = Some (mkSession u (Some k) (Engine.Setup (e_entry g) c) (Some g)) -> closures sv !! k = Some c0 ->
  (forall o u', exec_block run l u o u' -> exists fuel sv', RunCtxInner fuel t s sv = Fine (tt, sv') /\ answers sv' = answers sv ++ [(k, session_reply u' c0)]) /\
  (forall fuel r, RunCtxInner fuel t s sv = Fine r -> exists o u', exec_block run l u o u' /\ answers r.2 = answers sv ++ [(k, session_reply u' c0)]).
Proof.
  intros Hsync Hsrc Hrep Hs Hk; destruct (source_facts _ _ _ _ Hsrc) as (_ & Hw & Hv & Hb); destruct (Hsrc) as (? & ? & _ & _ & He & _).
  destruct (represented_runs get_handler app_BaseRun run l gr g c Hsync Hw Hv He Hb Hrep) as [Hiff Hend].
  assert (Hstep : forall fuel ev u' c', RunInner app_BaseRun (e_nodes g) fuel u (Engine.Setup (e_entry g) c) = Some (ev, u', c') ->
    exists sv', RunCtxInner fuel t s sv = Fine (tt, sv') /\ answers sv' = answers sv ++ [(k, session_reply u' c0)]).
  { intros fuel ev u' c' Hr; rewrite (Hend _ _ _ _ _ Hr) in Hr.
    unfold RunCtxInner, get_session, put_session, mbind, srv_bind; rewrite Hs; cbn iota beta; cbn [orc_ctx user service_closure graph_]; rewrite Hr.
    destruct (finish_eq t s k g u' c' c0 (with_sessions (<[s := mkSession u' (Some k) c' (Some g)]> (sessions sv)) sv)) as (f & clear & _ & Hf);
      [apply lookup_insert_eq | done|]; cbn iota beta; unfold session_end in *; rewrite Hf; by eexists. }
  split.
  - intros o u' Hx; destruct (proj2 (Hiff u u')) as (fuel & ev & c' & Hr); [by exists o|]; exists fuel; by eapply Hstep.
  - intros fuel r Hr; destruct (RunInner app_BaseRun (e_nodes g) fuel u (Engine.Setup (e_entry g) c)) as [[[ev u'] c']|] eqn:E.
    + destruct (proj1 (Hiff u u')) as [o Ho]; [by exists fuel, ev, c'|]; exists o, u'; split; [done|].
      destruct (Hstep _ _ _ _ E) as (sv' & Hr' & Ha); rewrite Hr in Hr'; by injection Hr' as ->.
    + exfalso; unfold RunCtxInner, get_session, mbind, srv_bind in Hr; rewrite Hs in Hr; cbn iota beta in Hr; cbn [orc_ctx user graph_] in Hr.
      by rewrite E in Hr.
Qed.

(** Nothing is suspended: a worker that takes a request leaves no session behind. *)
Lemma RunClosureInner_sync files router fuel t all reqs k (sv : Service H S F) u sv' :
  synchronous get_handler app_BaseRun run -> pool_all (runs_source get_handler files) (graphs sv) ->
  Inv all reqs [k] [] [] sv -> RunClosureInner router fuel t k sv = Fine (u, sv') -> Inv all reqs [] [] [] sv'.
Proof.
  intros Hsync Hpool Hi; pose proof (SetupCtx_cases router t _ _ _ _ _ Hi) as Hc; unfold refused_with in Hc.
  assert (Hno : forall code msg, (exists sv1, SetupCtx router t k sv = Fine (None, sv1) /\ Inv all reqs [] [] [] sv1 /\
      answers sv1 = answers sv ++ [(k, mkClosure code msg)]) ->
    RunClosureInner router fuel t k sv = Fine (u, sv') -> Inv all reqs [] [] [] sv').
  { intros code msg (sv1 & He & Hi1 & _); unfold RunClosureInner, mbind, srv_bind; rewrite He; intros [= _ <-]; exact Hi1. }
  destruct (f_Acquire t (factory sv)) as [[s|] f]; [|exact (Hno _ _ Hc)].
  destruct Hc as (x & _ & Hc); destruct (session_Init k (user x)) as [[|] u0]; [|exact (Hno _ _ Hc)].
  destruct (GetExeGraph_all _ (runs_source_own _ _) t (Route router u0) _ Hpool) as (_ & HP & _).
  destruct (GetExeGraph t (Route router u0) (graphs sv)) as [[g|] m]; [|exact (Hno _ _ Hc)].
  destruct Hc as [Hc Hi1]; unfold RunClosureInner, mbind, srv_bind; rewrite Hc; destruct (HP g eq_refl) as (_ & gs & l & gr & _ & _ & Hsrc & Hrep).
  destruct (source_facts _ _ _ _ Hsrc) as (_ & Hw & Hv & Hb); destruct (Hsrc) as (? & ? & _ & _ & He & _).
  destruct (represented_runs get_handler app_BaseRun run l gr g (set_schedule_hint (Z.of_nat t) (orc_ctx x)) Hsync Hw Hv He Hb Hrep) as [_ Hend].
  unfold RunCtxInner, get_session, put_session, mbind, srv_bind; cbn [sessions]; rewrite lookup_insert_eq; cbn iota beta; cbn [orc_ctx user service_closure graph_].
  destruct (RunInner _ _ _ _ _) as [[[ev u'] c']|] eqn:Hr; [|done]; rewrite (Hend _ _ _ _ _ Hr).
  apply (put_hand _ _ _ _ _ _ _ _ _ u' c') in Hi1; destruct (finish_ok t _ _ _ _ _ _ _ Hi1) as (sv2 & c2 & Hf & Hi2 & _).
  cbn iota beta; unfold session_end in *; rewrite Hf; by intros [= _ <-].
Qed.

Lemma act_sync files router fuel a v all reqs (sv sv' : Service H S F) u :
  synchronous get_handler app_BaseRun run -> Origin (runs_source get_handler files) v sv -> load_allowed a sv ->
  Inv all reqs [] [] [] sv -> act router get_handler fuel a sv = Fine (u, sv') -> Inv all (reqs ++ new_request a) [] [] [] sv'.
Proof.
  intros Hsync Ho Hload Hi.
  assert (Hnw : waiting sv = [] /\ ctx_tasks (queue sv) = [] /\ leaving sv = []).
  { pose proof (i_parked _ _ _ _ _ _ Hi) as Hp; cbn in Hp; symmetry in Hp; apply Permutation_nil_r, app_eq_nil in Hp as [Hw Hq].
    split_and!; [done..|]; pose proof (i_leaving _ _ _ _ _ _ Hi) as Hl; destruct (leaving sv) as [|ts l]; [done|].
    apply list.Forall_cons in Hl as [[Hin _] _]; rewrite Hw in Hin; set_solver. }
  destruct Hnw as (Hw & Hq & Hlv); destruct a as [c k|t i|i|c s|psize tls tsize file compiled]; cbn [act new_request]; rewrite ?app_nil_r.
  - case_decide as Hk; [done|]; apply (request_ok _ _ _ _ _ Hi) in Hk; clear Hi; destruct c as [t|t [|]]; cbn [RunClosure].
    + apply (RunClosureInner_sync files); [done | exact (o_pool _ _ _ Ho) | done].
    + intros [= _ <-]; exact (queue_closure _ _ _ _ _ Hk).
    + unfold Done; cbn; rewrite lookup_insert_eq; intros [= _ <-]; exact (answer_ok _ _ k _ _ _ _ Hk).
  - destruct (queue sv !! i) as [[k|s]|] eqn:Hi0; [| |done]; destruct (tasks_delete _ _ _ Hi0) as [Hc Hx].
    + apply (RunClosureInner_sync files); [done | exact (o_pool _ _ _ Ho) | by eapply unqueue_closure].
    + rewrite Hq in Hx; by apply Permutation_nil_l in Hx.
  - by rewrite Hlv.
  - by rewrite Hw.
  - destruct (mode (graphs sv)) eqn:Hm; [|done]; intros [= _ <-]; by apply reload_ok.
Qed.

Lemma sync_prompt files router fuel acts : forall v all reqs (sv : Service H S F),
  synchronous get_handler app_BaseRun run -> Inv all reqs [] [] [] sv -> Origin (runs_source get_handler files) v sv ->
  (0 <= v)%Z -> (v + Z.of_nat (length acts) < 2 ^ 32)%Z ->
  Forall loads_named acts -> Forall (loads_only (runs_source get_handler files) get_handler) acts -> prompt router get_handler fuel acts sv.
Proof.
  induction acts as [|a acts IH]; intros v all reqs sv Hsync Hi Ho Hv Hlen Hn Hl; [done|]; cbn [prompt length] in *.
  apply list.Forall_cons in Hn as [Hna Hn]; apply list.Forall_cons in Hl as [Hla Hl]; split.
  - destruct a as [| | |c s|]; cbn; try done; pose proof (i_parked _ _ _ _ _ _ Hi) as Hp; cbn in Hp; symmetry in Hp.
    apply Permutation_nil_r, app_eq_nil in Hp as [Hw _]; intros Hs; apply list_elem_of_fmap in Hs as (ts & -> & Hin).
    destruct (proj1 (list.Forall_forall _ _) (i_leaving _ _ _ _ _ _ Hi) ts Hin) as [Hin' _]; rewrite Hw in Hin'; set_solver.
  - destruct (act router get_handler fuel a sv) as [[u sv1]| | |] eqn:He; [|done..].
    destruct (act_origin _ (runs_source_own _ _) router get_handler fuel a v sv sv1 u Hla Ho Hv He) as (v1 & Hv1 & Ho1).
    eapply (IH v1); [done | |done|lia|lia|done..]; eapply act_sync; [exact Hsync|exact Ho| |exact Hi|exact He].
    clear -Hna Hlen Hv Ho; destruct a; cbn in *; try done; case_match; [|done]; split; [done|]; rewrite (o_version _ _ _ Ho); lia.
Qed.
End Serve.

Definition loaded_files (compile : string -> option (gmap string Graph)) (acts : list action) (gs : gmap string Graph) : Prop :=
  (exists f, compile f = Some gs) \/ exists psize tls tsize f, Reload psize tls tsize f (Some gs) ∈ acts.

Section Theorems.
Context {H S F Config : Type} `{Application H S} `{Hok : SessionFactoryOk H S F}.

(** C2: set up a service with a factory that keeps its promises, and let requests come, workers
    run tasks, replies come and files with named workflows be loaded, in fewer than 2^32 - 1
    steps and in any order in which no reply comes to a session before the thread that left the loop of
    [RunInner] for the call has returned ([prompt]); the handlers may do anything.  Then no
    closure, session or graph is used after it was given away; every request that came is
    answered, still queued or run by one session, and only one of these, so none is answered
    twice; every session is free or runs one request; in pool mode the graphs of the current
    version, with those of the running sessions, are as many as were loaded.  Nothing is said
    of a loop that crashes or does not end.  (Without [prompt] two threads can meet in a
    session and both end it: [session_ended_twice] in Async.v.) *)
Theorem requests_answered_once (no_config : Config) BaseInit LoadFile compile orc config factories routers hm hm' router o
    (sv : Service H S F) fuel acts :
  Setup no_config BaseInit LoadFile compile orc config factories routers hm (initial_mgr 0) = Some (Some (hm', router, o, sv)) ->
  map_Forall (fun _ f => f_free f = []) factories -> (forall f gs, compile f = Some gs -> named gs) ->
  Forall loads_named acts -> (1 + Z.of_nat (length acts) < 2 ^ 32)%Z ->
  prompt router (GetHandler no_config BaseInit hm') fuel acts sv ->
  match run_service router (GetHandler no_config BaseInit hm') fuel acts sv with
  | Fine sv' => exists running : list (owned H),
      NoDup (acts ≫= new_request) /\
      (answers sv').*1 ++ closure_tasks (queue sv') ++ (k_of <$> running) ≡ₚ acts ≫= new_request /\
      f_free (factory sv') ++ (s_of <$> running) ≡ₚ f_free (factory sv) /\
      s_of <$> running ≡ₚ waiting sv' ++ ctx_tasks (queue sv') /\
      (mode (graphs sv') = Pool -> exists ld, forall nm,
        holdings nm (mkWorld (graphs sv') (g_of <$> running) ld) =
        if bool_decide (nm ∈ ld) then Z.to_nat (Z.max 1 (pool_size (graphs sv'))) else 0%nat)
  | UseAfterFree => False
  | Unfinished | Refused => True
  end.
Proof.
  intros Hs Hf Hc Hn Hlen Hpr; pose proof (Setup_ok _ _ _ _ _ _ _ _ _ _ _ _ _ Hs Hf Hc) as Hi.
  pose proof (Setup_origin _ _ _ _ (fun _ _ => True) _ _ _ _ _ _ _ _ _ Hs Hf ltac:(done)) as Ho.
  pose proof (service_run_ok router (GetHandler no_config BaseInit hm') (fun _ _ => True) ltac:(done) fuel acts _ _ _ _ _ Hi Ho ltac:(lia) Hlen Hn) as Hr.
  destruct (run_service _ _ _ _ _) as [sv'| | |]; try done.
  2:{ apply Hr; [|done]; apply Forall_forall; by intros [| | | |? ? ? ? [|]] _. }
  destruct Hr as (parked & v & [] & _); [apply Forall_forall; by intros [| | | |? ? ? ? [|]] _ | done|].
  exists parked; cbn in *; split_and!; try done; intros Hm; destruct (i_graphs0 Hm) as [ld Hld]; exists ld; intros nm; apply (ok_count _ Hld).
Qed.

(** What a history of files with sources leaves. *)
Lemma service_history_ok (no_config : Config) BaseInit LoadFile compile orc config factories routers hm hm' router o
    (sv0 sv : Service H S F) fuel acts run :
  let gh := GetHandler no_config BaseInit hm' in
  Setup no_config BaseInit LoadFile compile orc config factories routers hm (initial_mgr 0) = Some (Some (hm', router, o, sv0)) ->
  map_Forall (fun _ f => f_free f = []) factories -> (forall f gs, compile f = Some gs -> sources gh gs) ->
  Forall (loads_sources gh) acts -> (1 + Z.of_nat (length acts) < 2 ^ 32)%Z -> synchronous gh app_BaseRun run ->
  run_service router gh fuel acts sv0 = Fine sv ->
  exists reqs parked v, Inv (f_free (factory sv0)) reqs [] [] parked sv /\ Origin (runs_source gh (loaded_files compile acts)) v sv.
Proof.
  intros gh Hset Hf Hc Hl Hlen Hsync Hrun.
  assert (Hnamed : Forall loads_named acts).
  { eapply list.Forall_impl; [exact Hl|]; intros [| | | |? ? ? ? [gs|]]; cbn; try done; apply sources_named. }
  pose proof (Setup_ok _ _ _ _ _ _ _ _ _ _ _ _ _ Hset Hf (fun f gs Hfg => sources_named gh gs (Hc f gs Hfg))) as Hi0.
  assert (Ho0 : Origin (runs_source gh (loaded_files compile acts)) 1 sv0).
  { eapply Setup_origin; [exact Hset | done|]; intros f gs v psize m Hfg Hm; eapply ReloadExeGraph_runs; [|by eapply Hc|exact Hm]; left; eauto. }
  assert (Hlo : Forall (loads_only (runs_source gh (loaded_files compile acts)) gh) acts).
  { apply list.Forall_forall; intros [| | | |psize tls tsize f [gs|]] Hin; cbn; try done; intros v m Hm; eapply ReloadExeGraph_runs; [| |exact Hm].
    - right; eauto 6.
    - exact (proj1 (list.Forall_forall _ _) Hl _ Hin). }
  pose proof (service_run_ok router gh _ (runs_source_own gh _) fuel acts _ _ _ _ _ Hi0 Ho0 ltac:(lia) Hlen Hnamed Hlo
    (sync_prompt gh run _ router fuel acts _ _ _ _ Hsync Hi0 Ho0 ltac:(lia) Hlen Hnamed Hlo)) as Hr.
  rewrite Hrun in Hr; destruct Hr as (parked & v & Hi & Ho); by exists (acts ≫= new_request), parked, v.
Qed.

(** C3: what a request runs.  Let the handlers be synchronous, and let every workflow of every
    file that is loaded be compiled from a source, have something to run, use no handler twice
    and have all its handlers.  After any history of fewer than 2^32 - 1 steps, a worker that takes
    a queued request answers it: with an error when
    there is no session, the session cannot be initialised or there is no graph for the
    routed workflow; otherwise the request runs a workflow of that name in a file that was
    loaded, just as it is written: where the execution of the source ends, the worker ends
    with that state of the session and answers with it, and the worker ends only so. *)
Theorem request_runs_the_source (no_config : Config) BaseInit LoadFile compile orc config factories routers hm hm' router o
    (sv0 sv : Service H S F) fuel acts run t i k :
  let gh := GetHandler no_config BaseInit hm' in
  Setup no_config BaseInit LoadFile compile orc config factories routers hm (initial_mgr 0) = Some (Some (hm', router, o, sv0)) ->
  map_Forall (fun _ f => f_free f = []) factories -> (forall f gs, compile f = Some gs -> sources gh gs) ->
  Forall (loads_sources gh) acts -> (1 + Z.of_nat (length acts) < 2 ^ 32)%Z -> synchronous gh app_BaseRun run ->
  run_service router gh fuel acts sv0 = Fine sv -> queue sv !! i = Some (ClosureTask k) ->
  let served fuel c := exists sv', act router gh fuel (Work t i) sv = Fine (tt, sv') /\ answers sv' = answers sv ++ [(k, c)] in
  match f_Acquire t (factory sv) with
  | (None, _) => forall fuel, served fuel (mkClosure NoSession "Orc No session")
  | (Some s, _) => exists x, sessions sv !! s = Some x /\
      let '(ok, u) := session_Init k (user x) in
      if ok : bool then
        match GetExeGraph t (Route router u) (graphs sv) with
        | (None, _) => forall fuel, served fuel (mkClosure AppError ("Get ExecutionGraph fail by name " +:+ Route router u))
        | (Some _, _) => exists c0 l gs gr, closures sv !! k = Some c0 /\
            loaded_files compile acts gs /\ gs !! Route router u = Some gr /\ source_of gh (Route router u) l gr /\
            (forall o u', exec_block run l u o u' -> exists fuel, served fuel (session_reply u' c0)) /\
            (forall fuel r, act router gh fuel (Work t i) sv = Fine r ->
               exists o u', exec_block run l u o u' /\ served fuel (session_reply u' c0))
        end
      else forall fuel, served fuel (mkClosure AppError "Orc No session")
  end.
Proof.
  intros gh Hset Hf Hc Hl Hlen Hsync Hrun Hq served.
  destruct (service_history_ok _ _ _ _ _ _ _ _ _ _ _ _ _ _ _ _ _ Hset Hf Hc Hl Hlen Hsync Hrun) as (reqs & parked & v & Hi & Ho).
  destruct (tasks_delete _ _ _ Hq) as [Hcl Hx]; apply (unqueue_closure _ _ k _ _ (delete i (queue sv))) in Hi; [|done..].
  assert (Hact : forall fuel, act router gh fuel (Work t i) sv = RunClosureInner router fuel t k (with_queue (delete i (queue sv)) sv))
    by (intros; cbn [act]; by rewrite Hq).
  destruct (proj2 (i_closures _ _ _ _ _ _ Hi k)) as [c0 Hk]; [set_solver|].
  pose proof (SetupCtx_cases router t _ _ _ _ _ Hi) as Hcases; unfold refused_with in Hcases; cbn [factory sessions graphs with_queue] in Hcases.
  assert (Hno : forall code msg, (exists sv', SetupCtx router t k (with_queue (delete i (queue sv)) sv) = Fine (None, sv') /\
      Inv (f_free (factory sv0)) reqs [] [] parked sv' /\ answers sv' = answers sv ++ [(k, mkClosure code msg)]) ->
    forall fuel, served fuel (mkClosure code msg)).
  { intros code msg (sv' & He & _ & Ha) fuel'; exists sv'; split; [|done]; rewrite Hact; unfold RunClosureInner, mbind, srv_bind; by rewrite He. }
  destruct (f_Acquire t (factory sv)) as [[s|] f]; [|by apply Hno].
  destruct Hcases as (x & Hs & Hcases); exists x; split; [done|]; destruct (session_Init k (user x)) as [[|] u]; [|by apply Hno].
  destruct (GetExeGraph t (Route router u) (graphs sv)) as [[g|] m] eqn:Hg; [|by apply Hno].
  destruct Hcases as [He _]; destruct (GetExeGraph_all _ (runs_source_own _ _) t (Route router u) _ (o_pool _ _ _ Ho)) as (_ & HP & _); rewrite Hg in HP.
  destruct (HP g eq_refl) as (_ & gs & l & gr & Hfile & Hgr & Hsrc & Hrep); exists c0, l, gs, gr; do 4 (split; [done|]).
  match type of He with _ = Fine (_, ?st) => destruct (RunCtxInner_runs gh run t s k g u (set_schedule_hint (Z.of_nat t) (orc_ctx x)) c0 l gr
    (Route router u) st Hsync Hsrc Hrep ltac:(apply lookup_insert_eq) Hk) as [Hforth Hback] end.
  unfold served; split.
  - intros o' u' Hx'; destruct (Hforth o' u' Hx') as (fuel' & sv' & Hr & Ha); exists fuel', sv'; split; [|done].
    rewrite Hact; unfold RunClosureInner, mbind, srv_bind; by rewrite He.
  - intros fuel' r Hr; rewrite Hact in Hr; unfold RunClosureInner, mbind, srv_bind in Hr; rewrite He in Hr.
    destruct (Hback fuel' r Hr) as (o' & u' & Hx' & Ha); exists o', u'; split; [done|]; destruct r as [[] sv']; exists sv'; split; [|done].
    rewrite Hact; unfold RunClosureInner, mbind, srv_bind; by rewrite He.
Qed.
End Theorems.

(** ** A service *)

(** Sessions are numbers, a handler adds one, and the answer tells the number. *)
#[local] Instance toy_app : Application string Z :=
  { new_session := 0%Z; session_Init := fun k u => (true, u); session_Clear := fun _ => 0%Z;
    session_reply := fun u c => if (u =? 2)%Z then c else mkClosure ReqError "";
    app_BaseRun := fun h u c => (true, (u + 1)%Z, c) }.
Definition toy_run (nm : string) (u : Z) : bool * Z := (true, (u + 1)%Z).
Definition toy_block : list workflow_syntax := [NAME "A"; NAME "B"].
Definition toy_graph : Graph := mkGraph "default" (PNode 0) [mkNode "A" (PNode 1) (PNode 1); mkNode "B" PEnd PEnd].
Definition toy_compile (f : string) : option (gmap string Graph) := Some {["default" := toy_graph]}.
Definition toy_handlers : HandlerMgr string unit := mkHandlerMgr {["A" := ["A"%string]; "B" := ["B"%string]]} ∅ "".
Definition toy_config : YamlNode :=
  mkYaml (fun k => if bool_decide (k = SvrWorkflowPoolMode) then Some "pool"%string else Some "x"%string)
    (fun k => if bool_decide (k = SvrWorkerNum) then Some 2%Z else Some 4%Z) (fun _ => Some true).
Definition toy_setup :=
  Setup tt (fun _ _ => true) (fun _ => Some ∅) toy_compile toy_config toy_config
    {["x" := new_PoolSessionFactory]} {["x" := DefaultWorkflowRouter]} toy_handlers (initial_mgr 0).
Definition toy_parts : HandlerMgr string unit * WorkflowRouter Z * PoolOption * Service string Z PoolSessionFactory :=
  match toy_setup with
  | Some (Some r) => r
  | _ => (toy_handlers, DefaultWorkflowRouter, mkOption 0 0 0 false, mkService new_PoolSessionFactory ∅ (initial_mgr 0) ∅ [] [] [] [])
  end.
Definition toy_hm : HandlerMgr string unit := toy_parts.1.1.1.
Definition toy_history : list (action) :=
  [Request (Outside 7 true) 0; Request (Outside 7 true) 1; Reload 4 true 2 "x" (toy_compile "x"); Request (InWorker 0) 2; Work 0 0].
Definition toy_service : outcome (Service string Z PoolSessionFactory) :=
  run_service toy_parts.1.1.2 (GetHandler tt (fun _ _ => true) toy_hm) 10 toy_history toy_parts.2.

Lemma toy_set_up : toy_setup = Some (Some (toy_hm, toy_parts.1.1.2, toy_parts.1.2, toy_parts.2)).
Proof. vm_compute; reflexivity. Qed.
Lemma toy_free : map_Forall (fun _ f => free_sessions f = []) ({["x" := new_PoolSessionFactory]} : gmap string PoolSessionFactory).
Proof. intros nm f [_ <-]%lookup_singleton_Some; reflexivity. Qed.
Lemma toy_sources f gs : toy_compile f = Some gs -> sources (GetHandler tt (fun _ _ => true) toy_hm) gs.
Proof.
  intros [= <-] nm gr [<- <-]%lookup_singleton_Some; exists toy_block, ∅, {["default" := toy_graph]}.
  split; [vm_compute; reflexivity|]; split; [reflexivity|]; split; [done|].
  split; [apply (bool_decide_unpack _); vm_compute; exact I|]; intros [|[|i]] nd; cbn; intros [= <-]; vm_compute; eauto.
Qed.

(** The same service with handlers that call another one: a call suspends the session. *)
#[local] Instance call_app : Application unit nat :=
  { new_session := 0%nat; session_Init := fun k u => (true, u); session_Clear := fun _ => 0%nat; session_reply := fun u c => c;
    app_BaseRun := fun h u c =>
      if decide (async_state c = After) then (true, (u + 1)%nat, set_async_state Finish c) else (true, u, SetAsync true c) }.
Definition call_handlers : HandlerMgr unit unit := mkHandlerMgr {["A" := [tt]; "B" := [tt]]} ∅ "".
Definition call_setup :=
  Setup tt (fun _ _ => true) (fun _ => Some ∅) toy_compile toy_config toy_config
    {["x" := new_PoolSessionFactory]} {["x" := DefaultWorkflowRouter]} call_handlers (initial_mgr 0).
Definition call_parts : HandlerMgr unit unit * WorkflowRouter nat * PoolOption * Service unit nat PoolSessionFactory :=
  match call_setup with
  | Some (Some r) => r
  | _ => (call_handlers, DefaultWorkflowRouter, mkOption 0 0 0 false, mkService new_PoolSessionFactory ∅ (initial_mgr 0) ∅ [] [] [] [])
  end.
Lemma call_set_up : call_setup = Some (Some (call_parts.1.1.1, call_parts.1.1.2, call_parts.1.2, call_parts.2)).
Proof. vm_compute; reflexivity. Qed.
Lemma toy_named f gs : toy_compile f = Some gs -> named gs.
Proof. intros [= <-] nm gr [<- <-]%lookup_singleton_Some; reflexivity. Qed.
(** Two requests; the first one is suspended twice, by the calls of [A] and [B], while a file is
    loaded, and its replies come on other threads. *)
Definition call_history : list action :=
  [Request (Outside 7 true) 0; Request (Outside 7 true) 1; Work 0 0; Leave 0; Reply (Outside 9 true) 3; Reload 4 true 2 "x" (toy_compile "x");
   Work 1 1; Leave 0; Reply (InWorker 0) 3; Work 1 0].
Definition call_service : outcome (Service unit nat PoolSessionFactory) :=
  run_service call_parts.1.1.2 (GetHandler tt (fun _ _ => true) call_parts.1.1.1) 10 call_history call_parts.2.
Lemma call_prompt : prompt call_parts.1.1.2 (GetHandler tt (fun _ _ => true) call_parts.1.1.1) 10 call_history call_parts.2.
Proof. vm_compute; repeat split; set_solver. Qed.

Lemma requests_answered_once_witness :
  match call_service with Fine sv => (answers sv).*1 = [0%nat] /\ length (waiting sv) = 1%nat /\ NoDup [0; 1]%nat | _ => False end.
Proof.
  pose proof (requests_answered_once tt (fun _ _ => true) (fun _ => Some ∅) toy_compile toy_config toy_config _ _ call_handlers _
    call_parts.1.1.2 call_parts.1.2 call_parts.2 10 call_history call_set_up toy_free toy_named) as Hr; fold call_service in Hr.
  assert (Ha : (fun o => match o with Fine sv => Some ((answers sv).*1, length (waiting sv)) | _ => None end) call_service = Some ([0%nat], 1%nat))
    by (vm_compute; reflexivity).
  destruct call_service as [sv| | |]; [|done..]; injection Ha as -> ->; do 2 (split; [done|]).
  destruct Hr as (running & Hnd & _); [|vm_compute; reflexivity | exact call_prompt | exact Hnd].
  repeat constructor; cbn; by apply (toy_named "x").
Defined.

Definition toy_state : Service string Z PoolSessionFactory := match toy_service with Fine sv => sv | _ => toy_parts.2 end.
Definition toy_next : outcome (unit * Service string Z PoolSessionFactory) :=
  act toy_parts.1.1.2 (GetHandler tt (fun _ _ => true) toy_hm) 10 (Work 1 0) toy_state.

Lemma toy_loads : Forall (loads_sources (GetHandler tt (fun _ _ => true) toy_hm)) toy_history.
Proof. repeat constructor; cbn; apply (toy_sources "x"); reflexivity. Qed.
Lemma toy_synchronous : synchronous (GetHandler tt (fun _ _ => true) toy_hm) app_BaseRun toy_run.
Proof. intros nm h u c; unfold GetHandler; case_match; [|done]; case_match; [done|]; intros [= <-]; reflexivity. Qed.
Lemma toy_reached : toy_service = Fine toy_state.
Proof. vm_compute; reflexivity. Qed.
Lemma toy_queue : queue toy_state !! 0%nat = Some (ClosureTask 1).
Proof. vm_compute; reflexivity. Qed.
Definition is_fine {A} (o : outcome A) : bool := match o with Fine _ => true | _ => false end.

Lemma request_runs_the_source_witness :
  exists l u o u' c0 sv, exec_block toy_run l u o u' /\ toy_next = Fine (tt, sv) /\
    answers sv = answers toy_state ++ [(1%nat, session_reply u' c0)].
Proof.
  assert (Hs : is_fine toy_next = true) by (vm_compute; reflexivity).
  assert (Hroute : forall u, Route toy_parts.1.1.2 u = "default"%string) by (intros; vm_compute; reflexivity).
  assert (Hacq : bool_decide (is_Some (f_Acquire 1 (factory toy_state)).1) = true) by (vm_compute; reflexivity).
  assert (Hget : bool_decide (is_Some (GetExeGraph 1 "default" (graphs toy_state)).1) = true) by (vm_compute; reflexivity).
  pose proof (request_runs_the_source tt (fun _ _ => true) (fun _ => Some ∅) toy_compile toy_config toy_config _ _ toy_handlers toy_hm
    toy_parts.1.1.2 toy_parts.1.2 toy_parts.2 toy_state 10 toy_history toy_run 1 0 1 toy_set_up toy_free toy_sources toy_loads
    eq_refl toy_synchronous toy_reached toy_queue) as Hr; cbv zeta in Hr.
  revert Hs Hacq Hget Hr; unfold toy_next; generalize toy_state; intros st Hs Hacq Hget Hr.
  destruct (f_Acquire 1 (factory st)) as [[s|] f]; [|discriminate]; destruct Hr as (x & _ & Hr).
  cbn [session_Init toy_app] in Hr; rewrite Hroute in Hr; destruct (GetExeGraph 1 "default" (graphs st)) as [[g|] m]; [|discriminate].
  destruct Hr as (c0 & l & gs & gr & _ & _ & _ & _ & _ & Hr).
  destruct (act _ _ 10 (Work 1 0) st) as [r| | |] eqn:He; [|discriminate..].
  destruct (Hr 10%nat r He) as (o & u' & Hx & sv' & He' & Ha); exists l, (user x), o, u', c0, sv'.
  rewrite He in He'; by split_and!.
Defined.

(** ** Threads outside the pool *)

(** A request that the pool refuses is answered with the code of success. *)
Lemma refused_request_succeeds (sv : Service string Z PoolSessionFactory) router gh fuel t k :
  k ∉ requested sv ->
  exists sv', act router gh fuel (Request (Outside t false) k) sv = Fine (tt, sv') /\ answers sv' = answers sv ++ [(k, mkClosure Success "")].
Proof.
  intros Hk; cbn [act]; rewrite decide_False by done; cbn [RunClosure]; unfold Done; cbn; rewrite lookup_insert_eq; by eexists.
Qed.

(** ** The pool of sessions under load *)

(** Threads take sessions and give back sessions that are in use. *)
Inductive factory_op : Type := Take (t : nat) | Give (t s : nat).
Definition op_thread (op : factory_op) : nat := match op with Take t => t | Give t _ => t end.

Section Load.
Context {H S : Type} `{Application H S}.
Abbreviation state := (gmap nat (SessionBase H S) * PoolSessionFactory * list nat)%type.

Definition factory_step (op : factory_op) (st : state) : state :=
  let '(h, f, used) := st in
  match op with
  | Take t => match PoolFactory_Acquire t f with (Some s, f) => (h, f, s :: used) | (None, f) => (h, f, used) end
  | Give t s =>
      match list_find (eq s) used with
      | Some (i, _) => let '(h, f) := PoolFactory_Release t s h f in (h, f, delete i used)
      | None => st
      end
  end.

(** The sessions on the stacks of threads from [n] on, which no worker takes. *)
Definition stranded (n : nat) (f : PoolSessionFactory) : list nat := tls_free (filter (fun p => n <= p.1)%nat (tls_sessions_ f)).

Lemma tls_free_split n m : tls_free m ≡ₚ tls_free (filter (fun p => p.1 < n)%nat m) ++ tls_free (filter (fun p => n <= p.1)%nat m).
Proof.
  assert (Hins : forall t l (m : gmap nat (list nat)), m !! t = None -> tls_free (<[t := l]> m) ≡ₚ l ++ tls_free m).
  { intros t l m' Ht; pose proof (tls_free_insert t l m') as Hi; rewrite Ht, app_nil_r in Hi; exact Hi. }
  induction m as [|t l m Ht IH] using map_ind; [done|]; rewrite (Hins t l m Ht); destruct (decide (t < n)%nat).
  - rewrite (map_filter_insert_True _ m), (map_filter_insert_False _ m), delete_id by (cbn; lia || done).
    rewrite Hins by (apply map_lookup_filter_None; by left); rewrite IH at 1; by rewrite (assoc_L (++)).
  - rewrite (map_filter_insert_False _ m), (map_filter_insert_True _ m), delete_id by (cbn; lia || done).
    rewrite Hins by (apply map_lookup_filter_None; by left); rewrite IH at 1; apply Permutation_app_swap_app.
Qed.

(** The stack of no thread is above its size; no session is lost; [own]: threads below [n] only. *)
Record load_inv (n : nat) (own : Prop) (st : state) : Prop := {
  l_threads : own -> forall t, (n <= t)%nat -> tls_stack t st.1.2 = [];
  l_size : forall t, (Z.of_nat (length (tls_stack t st.1.2)) <= tls_size_ st.1.2)%Z;
  l_total : (Z.of_nat (length (free_sessions st.1.2) + length st.2) = total_size_ st.1.2)%Z;
  l_tls : (tls_size_ st.1.2 = total_size_ st.1.2 / Z.of_nat n)%Z
}.

Lemma tls_free_bound (m : gmap nat (list nat)) n b :
  (forall t, (n <= t)%nat -> default [] (m !! t) = []) -> (forall t, (length (default [] (m !! t)) <= b)%nat) ->
  (length (tls_free m) <= n * b)%nat.
Proof.
  revert m; induction n as [|n IH]; intros m Hn Hb.
  - assert (Hz : tls_free m = []); [|by rewrite Hz].
    unfold tls_free; assert (Hall : Forall (fun p : nat * list nat => p.2 = []) (map_to_list m)).
    { apply list.Forall_forall; intros [t l] Hin%elem_of_map_to_list; specialize (Hn t ltac:(lia)); by rewrite Hin in Hn. }
    induction Hall as [|[t l] ? Hl _ IHl]; [done|]; cbn in *; by rewrite Hl, IHl.
  - pose proof (tls_free_insert n [] m) as Hi; apply Permutation_length in Hi; rewrite length_app in Hi; cbn in Hi.
    specialize (IH (<[n := []]> m)); specialize (Hb n) as Hbn.
    enough (length (tls_free (<[n := []]> m)) <= n * b)%nat by lia; apply IH.
    + intros t Ht; destruct (decide (t = n)) as [->|]; [by rewrite lookup_insert_eq | rewrite lookup_insert_ne by done; apply Hn; lia].
    + intros t; destruct (decide (t = n)) as [->|]; [rewrite lookup_insert_eq; cbn; lia | by rewrite lookup_insert_ne].
Qed.

Lemma factory_step_inv n (own : Prop) op st : (own -> op_thread op < n)%nat -> load_inv n own st -> load_inv n own (factory_step op st).
Proof.
  destruct st as [[h f] used]; intros Ht [Hthr Hsz Htot Htls]; cbn [fst snd] in *; destruct op as [t|t s]; cbn [factory_step op_thread] in *.
  - pose proof (f_Acquire_ok t f) as Ha; cbn in Ha; unfold PoolFactory_Acquire in *; unfold tls_stack in *.
    destruct (default [] (tls_sessions_ f !! t)) as [|s l] eqn:El.
    + destruct (sessions_ f) as [|s l] eqn:Es; [by split|]; apply Permutation_length in Ha; cbn in Ha.
      split; cbn; unfold tls_stack; cbn; try done; lia.
    + apply Permutation_length in Ha; cbn in Ha; split; cbn; unfold tls_stack; cbn; try done; [| |lia].
      * intros Hown t' Ht'; specialize (Ht Hown); rewrite lookup_insert_ne by lia; by apply Hthr.
      * intros t'; destruct (decide (t' = t)) as [->|]; [rewrite lookup_insert_eq; specialize (Hsz t); rewrite El in Hsz; cbn in *; lia|].
        by rewrite lookup_insert_ne.
  - destruct (list_find (eq s) used) as [[i s']|] eqn:Ef; [|by split]; apply list_find_Some in Ef as (Hi & <- & _).
    pose proof (proj1 (f_Release_ok t s h f)) as Hr; cbn in Hr; unfold PoolFactory_Release in *; apply Permutation_length in Hr.
    assert (Hl : length used = Datatypes.S (length (delete i used))) by (rewrite length_delete; [|eauto]; apply lookup_lt_Some in Hi; lia).
    case_match; cbn in Hr |- *; split; cbn; unfold tls_stack in *; cbn; try done; try lia.
    + intros Hown t' Ht'; specialize (Ht Hown); rewrite lookup_insert_ne by lia; by apply Hthr.
    + intros t'; destruct (decide (t' = t)) as [->|]; [rewrite lookup_insert_eq; cbn; lia | by rewrite lookup_insert_ne].
Qed.
End Load.

(** [as<size_t>()] gives unsigned numbers. *)
Definition unsigned (c : YamlNode) : Prop := forall key v, as_size c key = Some v -> (0 <= v < 2 ^ 64)%Z.

Lemma GetOrcConfig_unsigned orc config key v :
  unsigned orc -> unsigned config -> GetOrcConfig as_size orc config key = Some v -> (0 <= v < 2 ^ 64)%Z.
Proof. intros Ho Hc; unfold GetOrcConfig; destruct (as_size config key) eqn:E; [intros [= <-]; eauto | apply Ho]. Qed.

Lemma PoolFactory_Init_load {H S} `{Application H S} orc config (h : gmap nat (SessionBase H S)) f n :
  unsigned orc -> unsigned config -> PoolFactory_Init orc config ∅ new_PoolSessionFactory = Some (true, h, f) ->
  GetOrcConfig as_size orc config SvrWorkerNum = Some n -> forall own, load_inv (Z.to_nat n) own (h, f, []).
Proof.
  intros Ho Hc; unfold PoolFactory_Init; intros Hi Hn own; rewrite Hn in Hi; pose proof (GetOrcConfig_unsigned _ _ _ _ Ho Hc Hn) as Hn0.
  destruct (match GetOrcConfig as_size orc config SvrSessionPoolSize with Some v => Some v | None => _ end) as [total|] eqn:Et; [|done].
  assert (Ht : (0 <= total)%Z).
  { destruct (GetOrcConfig as_size orc config SvrSessionPoolSize) eqn:E; [injection Et as <-; eapply GetOrcConfig_unsigned in E|eapply GetOrcConfig_unsigned in Et]; lia || done. }
  destruct (Z.eqb_spec n 0); [done|]; destruct (total / n =? 0)%Z; [done|]; destruct (_ <=? _)%Z; [done|].
  pose proof (emplace_sessions_spec (Z.to_nat total) ∅ []) as He; cbn in Hi; destruct (emplace_sessions _ _ _) as [h0 stack].
  injection Hi as <- <-; destruct He as (_ & _ & _ & Hl); [constructor | set_solver | done|].
  split; cbn; unfold tls_stack, free_sessions; cbn; try done.
  - intros; apply Z.div_pos; lia.
  - unfold tls_free; rewrite map_to_list_empty; cbn; rewrite length_app; cbn in *; lia.
  - by rewrite Z2Nat.id by lia.
Qed.

(** The workers' stacks cannot hold all sessions. *)
Lemma load_served f (used : list nat) n w :
  (w < n)%nat -> (forall t, (Z.of_nat (length (tls_stack t f)) <= tls_size_ f)%Z) ->
  (Z.of_nat (length (free_sessions f) + length used) = total_size_ f)%Z -> tls_size_ f = (total_size_ f / Z.of_nat n)%Z ->
  (Z.of_nat (length used + length (stranded n f)) < tls_size_ f)%Z -> is_Some (PoolFactory_Acquire w f).1.
Proof.
  intros Hw Hsz Htot Htls Hused.
  unfold PoolFactory_Acquire; destruct (tls_stack w f) as [|s l] eqn:El; [|by eexists]; destruct (sessions_ f) as [|s l] eqn:Es; [exfalso | by eexists].
  set (k := Z.to_nat (tls_size_ f)); unfold free_sessions in Htot; rewrite Es in Htot; cbn in Htot.
  rewrite (tls_free_split n), length_app in Htot; fold (stranded n f) in Htot; set (m := filter (fun p => p.1 < n)%nat (tls_sessions_ f)) in *.
  assert (Hm : forall t, (length (default [] (m !! t)) <= k)%nat /\ ((n <= t)%nat \/ t = w -> default [] (m !! t) = [])).
  { intros t; unfold m; destruct (filter _ _ !! t) as [l|] eqn:Et; cbn; [|split; [lia | done]].
    apply map_lookup_filter_Some in Et as [Et Ht]; cbn in Ht; specialize (Hsz t); unfold tls_stack in *; rewrite Et in Hsz; cbn in Hsz.
    split; [lia|]; intros [?| ->]; [lia|]; by rewrite Et in El. }
  pose proof (tls_free_insert w (repeat 0%nat k) m) as Hp; apply Permutation_length in Hp.
  rewrite !length_app, repeat_length, (proj2 (Hm w)) in Hp by auto; cbn in Hp.
  assert (Hb : (length (tls_free (<[w := repeat 0%nat k]> m)) <= n * k)%nat).
  { apply tls_free_bound; intros t; (destruct (decide (t = w)) as [->|]; [rewrite lookup_insert_eq; cbn | rewrite lookup_insert_ne by done]).
    - lia.
    - intros ?; apply Hm; auto.
    - by rewrite repeat_length.
    - apply Hm. }
  assert (Htotal : (Z.of_nat (n * k) <= total_size_ f)%Z).
  { unfold k; rewrite Nat2Z.inj_mul, Htls; rewrite Z2Nat.id; [apply Z.mul_div_le; lia|]; apply Z.div_pos; lia. }
  lia.
Qed.

(** C4: whatever threads take and give back sessions, in any order: every session is free or in
    use; a worker gets a session as long as the sessions in use and those on the stacks of
    threads outside the pool are together fewer than the stack of one worker holds, however many
    the other workers keep to themselves; and as long as only workers take and give back
    sessions, no session is on the stack of a thread outside the pool. *)
Theorem worker_gets_session {H S} `{Application H S} orc config (h : gmap nat (SessionBase H S)) f n ops w :
  unsigned orc -> unsigned config -> PoolFactory_Init orc config ∅ new_PoolSessionFactory = Some (true, h, f) ->
  GetOrcConfig as_size orc config SvrWorkerNum = Some n -> (w < Z.to_nat n)%nat ->
  let '(_, f', used) := foldl (fun st op => factory_step op st) (h, f, []) ops in
  (Z.of_nat (length (free_sessions f') + length used) = total_size_ f')%Z /\
  ((Z.of_nat (length used + length (stranded (Z.to_nat n) f')) < tls_size_ f')%Z -> is_Some (PoolFactory_Acquire w f').1) /\
  (Forall (fun op => op_thread op < Z.to_nat n)%nat ops -> stranded (Z.to_nat n) f' = []).
Proof.
  intros Ho Hc Hi Hn Hw; set (own := Forall (fun op => op_thread op < Z.to_nat n)%nat ops).
  pose proof (PoolFactory_Init_load _ _ _ _ _ Ho Hc Hi Hn own) as Hl; clear Hi.
  assert (Hinv : load_inv (Z.to_nat n) own (foldl (fun st op => factory_step op st) (h, f, []) ops)).
  { assert (Hops : own -> Forall (fun op => op_thread op < Z.to_nat n)%nat ops) by done.
    revert Hl Hops; generalize own; generalize (h, f, @nil nat); induction ops as [|op ops IH]; intros st P Hst Hops; [done|]; cbn.
    apply IH; [|intros HP; by apply list.Forall_cons in Hops as [_ ?]]; apply factory_step_inv; [|done]; intros HP; by apply list.Forall_cons in Hops as [? _]. }
  destruct (foldl _ _ ops) as [[h' f'] used]; destruct Hinv as [Hthr Hsz Htot Htls]; cbn in *; split; [done|]; split.
  - apply load_served; [done..|lia].
  - intros Hown; apply nil_length_inv, Nat.le_0_r; apply (tls_free_bound _ 0 0); intros t; [intros _|];
      (destruct (filter _ (tls_sessions_ f') !! t) as [l|] eqn:El; [|done]);
      apply map_lookup_filter_Some in El as [El Ht]; specialize (Hthr Hown t Ht); unfold tls_stack in Hthr; rewrite El in Hthr; cbn in *; by subst.
Qed.

Definition toy_ops : list factory_op := [Take 0; Take 0; Take 1; Give 9 3; Give 0 2; Give 1 1].
Definition toy_factory : PoolSessionFactory := mkFactory [3; 2; 1; 0]%nat 4 ∅ 2.
Definition toy_heap : gmap nat (SessionBase string Z) := list_to_map ((fun s => (s, new_SessionBase)) <$> seq 0 4).
Lemma toy_factory_Init : PoolFactory_Init toy_config toy_config ∅ new_PoolSessionFactory = Some (true, toy_heap, toy_factory).
Proof. vm_compute; reflexivity. Qed.
Lemma toy_unsigned : unsigned toy_config.
Proof. intros key v; cbn; case_bool_decide; intros [= <-]; done. Qed.

Lemma worker_gets_session_witness :
  let '(_, f, used) := foldl (fun st op => factory_step op st) (toy_heap, toy_factory, []) toy_ops in
  length (stranded 2 f) = 1%nat /\ is_Some (PoolFactory_Acquire 1 f).1.
Proof.
  pose proof (worker_gets_session toy_config toy_config toy_heap toy_factory 2 toy_ops 1 toy_unsigned toy_unsigned toy_factory_Init eq_refl
    ltac:(cbn; lia)) as Hw.
  assert (Hu : (fun st => (length st.2, length (stranded 2 st.1.2), tls_size_ st.1.2)) (foldl (fun st op => factory_step op st) (toy_heap, toy_factory, []) toy_ops)
    = (0%nat, 1%nat, 2%Z)) by (vm_compute; reflexivity).
  destruct (foldl _ _ toy_ops) as [[h f] used]; injection Hu as Hu Hs Ht; cbn in Hu, Hs, Ht; split; [done|]; apply Hw; rewrite Hu, Ht.
  change (Z.to_nat 2) with 2%nat; rewrite Hs; lia.
Defined.

(** A thread outside the pool runs [ResetCtx] when the reply of a session could not be
    scheduled, and then keeps the session on a stack from which no worker takes it: with two
    sessions and one worker, both are lost so, and the worker finds none although none is in
    use. *)
Definition stranding : list factory_op := [Take 0; Take 0; Give 9 1; Give 9 0].
Lemma outside_thread_strands_sessions :
  let '(_, f, used) := foldl (fun st op => factory_step op st) (∅ : gmap nat (SessionBase string Z), mkFactory [1; 0]%nat 2 ∅ 2, []) stranding in
  used = [] /\ (PoolFactory_Acquire 0 f).1 = None.
Proof. vm_compute; auto. Qed.
