(* ===== verification/App.v ===== *)
(** * The application: src/orc/framework/application.cc, server_base.cc, server_mgr.cc,
    orc_mgr.cc and configure.cc

    A process starts the servers of its configuration as children and starts them again when
    they crash, as long as they do not crash too often; a second one, with the command
    [stop], finds the first by a file with its number and ends it by a signal.

    The system calls are arguments: what [fork], [wait], [kill] and the clock give. *)
From Stdlib Require Import ZArith Lia Ascii Sorting.Sorted.
From stdpp Require Import base gmap sets list strings option.
From S2P Require Import Prelude.

(** ** Configuration: configure.cc *)

(** A scalar of a YAML file. *)
Inductive Scalar : Type := VBool (b : bool) | VNum (n : Z) | VStr (s : string).
Abbreviation Yaml := (gmap string Scalar).

(** [DefaultConfig]; [cpus] is [std::thread::hardware_concurrency()].  The keys are those of
    options.cc. *)
Definition DefaultConfig (cpus : Z) (config : Yaml) : Yaml :=
  foldl (fun c p => <[p.1 := p.2]> c) config
    [("orc.app.daemon", VBool true); ("orc.app.infile", VStr "/dev/null"); ("orc.app.outfile", VStr "/dev/null");
     ("orc.app.errfile", VStr "/dev/null"); ("orc.log.max.length", VNum 1024); ("orc.log.level", VStr "info");
     ("svr.ip", VStr "0.0.0.0"); ("svr.restart.max.intensity", VNum 5); ("svr.restart.max.period", VNum 300);
     ("svr.iothread.num", VNum 4); ("svr.workflow.pool.mode", VStr "pool");
     ("svr.worker.num", VNum cpus); ("svr.worker.queue.num", VNum 1); ("svr.worker.queue.size", VNum 1024);
     ("svr.monitor.status.file", VStr "/tmp/monitor_status.dat")]%string.

(** [InitOrcConfig]: [None] is a file that cannot be loaded; the entries of a file come in
    its order. *)
Definition InitOrcConfig (cpus : Z) (file : option (list (string * Scalar))) (config : Yaml) : bool * Yaml :=
  let config := DefaultConfig cpus config in
  match file with
  | None => (false, config)
  | Some entries => (true, foldl (fun c p => <[p.1 := p.2]> c) config entries)
  end.

(** ** Supervision *)

(** [struct ServerMeta]; times are in nanoseconds, [dead_times] has its front first. *)
Record ServerMeta : Type := mkMeta {
  name : string;
  pid : Z;
  intensity : Z;
  period : Z;
  dead_times : list Z
}.
Definition with_pid (p : Z) (m : ServerMeta) : ServerMeta := mkMeta (name m) p (intensity m) (period m) (dead_times m).
Definition with_deaths (l : list Z) (m : ServerMeta) : ServerMeta := mkMeta (name m) (pid m) (intensity m) (period m) l.

(** The status that [wait] gives. *)
Inductive Status : Type := Exited (code : Z) | Signaled (sig : Z).
Definition SIGKILL : Z := 9.

(** [NeedRestart] at the time [now].  The loop over the dead times leaves after its first
    turn. *)
Definition NeedRestart (g_is_stop : bool) (p : Z) (status : Status) (now : Z) (server_metas_ : gmap Z ServerMeta)
    : bool * gmap Z ServerMeta :=
  if g_is_stop then (false, server_metas_)
  else
    match status with
    | Exited _ => (false, server_metas_)
    | Signaled sig =>
        if (sig =? SIGKILL)%Z then (false, server_metas_)
        else
          match server_metas_ !! p with
          | None => (false, server_metas_)
          | Some m =>
              let times := dead_times m ++ [now] in
              let start := (now - period m * 1000000000)%Z in
              let times := match times with point :: rest => if (point <=? start)%Z then rest else times | [] => [] end in
              ((Z.of_nat (length times) <=? intensity m)%Z, <[p := with_deaths times m]> server_metas_)
          end
    end.

(** What [wait] gives, with the time, the stop flag and the result of the [fork] that may
    follow ([0]: it fails). *)
Inductive wait_result : Type :=
| WaitError
| Reaped (p : Z) (status : Status) (now : Z) (g_is_stop : bool) (forked : Z).

(** [emplace], which keeps an entry that is there. *)
Definition emplace (p : Z) (m : ServerMeta) (metas : gmap Z ServerMeta) : gmap Z ServerMeta :=
  match metas !! p with Some _ => metas | None => <[p := m]> metas end.

(** The body of the loop of [SuperviseServers]. *)
Definition supervise (w : wait_result) (server_metas_ : gmap Z ServerMeta) : gmap Z ServerMeta :=
  match w with
  | WaitError => server_metas_
  | Reaped p status now g_is_stop forked =>
      match NeedRestart g_is_stop p status now server_metas_ with
      | (false, metas) => delete p metas
      | (true, metas) =>
          match metas !! p with
          | None => delete p metas
          | Some m =>
              let metas := delete p metas in
              if (forked =? 0)%Z then metas else emplace forked (with_pid forked m) metas
          end
      end
  end.

(** [SuperviseServers] on what [wait] gives: [None] when it still waits at the end. *)
Fixpoint SuperviseServers (l : list wait_result) (server_metas_ : gmap Z ServerMeta) : option (list wait_result) :=
  if decide (server_metas_ = ∅) then Some l
  else match l with [] => None | w :: l => SuperviseServers l (supervise w server_metas_) end.

(** [StartServers] on the entries of the section [servers] ([None]: no name) with the results
    of [fork]: whether all were started, and the servers that were. *)
Fixpoint StartServers (l : list (option (string * Z * Z) * Z)) (metas : gmap Z ServerMeta) : bool * gmap Z ServerMeta :=
  match l with
  | [] => (true, metas)
  | (None, _) :: _ => (false, metas)
  | (Some (nm, i, p), forked) :: l =>
      if (forked =? 0)%Z then (false, metas)
      else StartServers l (emplace forked (mkMeta nm forked i p []) metas)
  end.

(** [AppSignalHandler] on [SIGUSR1]: the flag, the static variable, and whether the signal is
    sent to the whole group. *)
Definition AppSignalHandler (st : bool * bool) : bool * (bool * bool) :=
  let '(g_is_stop, from_self) := st in
  if negb from_self then (true, (true, true)) else (false, (true, false)).

(** ** The file with the process number *)

(** [path.substr(0, path.find_last_of('/'))]: all of it when there is no slash. *)
Fixpoint before_last_slash (s : string) : option string :=
  match s with
  | EmptyString => None
  | String a s =>
      match before_last_slash s with
      | Some d => Some (String a d)
      | None => if decide (a = "/"%char) then Some "" else None
      end
  end.
Definition directory_of (config_file_ : string) : string := default config_file_ (before_last_slash config_file_).
Definition pid_file (config_file_ : string) : string := directory_of config_file_ +:+ "/.pid".

(** The system: directories, files that hold a number, and running processes. *)
Record System : Type := mkSystem { dirs : gset string; files : gmap string Z; processes : gset Z }.

(** [GetAppPid]: 0 when there is no such file.  [SaveAppPid]: nothing when the file cannot be
    opened. *)
Definition GetAppPid (config_file_ : string) (y : System) : Z := default 0%Z (files y !! pid_file config_file_).
Definition SaveAppPid (config_file_ : string) (p : Z) (y : System) : System :=
  if decide (directory_of config_file_ ∈ dirs y) then mkSystem (dirs y) (<[pid_file config_file_ := p]> (files y)) (processes y) else y.
Definition remove_pid_file (config_file_ : string) (y : System) : System :=
  mkSystem (dirs y) (delete (pid_file config_file_) (files y)) (processes y).

(** [CheckPid]. *)
Definition CheckPid (p : Z) (y : System) : bool := negb (p =? 0)%Z && bool_decide (p ∈ processes y).

(** ** Commands *)

(** [Start] up to the supervision, in the process [self] that [Daemon] leaves ([None]: a fork
    of it fails): the state to supervise, or what the system is when [Start] has failed. *)
Inductive started : Type := Supervising (metas : gmap Z ServerMeta) | Failed.
Definition Start (config_file_ : string) (file_ok : bool) (self : option Z) (servers : list (option (string * Z * Z) * Z))
    (y : System) : started * System :=
  if CheckPid (GetAppPid config_file_ y) y then (Failed, y)
  else if negb file_ok then (Failed, y)
  else
    match self with
    | None => (Failed, y)
    | Some self =>
        let y := SaveAppPid config_file_ self y in
        match StartServers servers ∅ with
        | (false, _) => (Failed, remove_pid_file config_file_ y)
        | (true, metas) => (Supervising metas, y)
        end
    end.

(** The wait of [Stop]: [alive k] is what the [k]-th [kill(pid, 0)] finds; the result is the
    number of the next one. *)
Fixpoint stop_loop (wait_times k : nat) (alive : nat -> bool) : nat :=
  if alive k then
    match wait_times with O => S k | S wait_times => stop_loop wait_times (S k) alive end
  else S k.
Definition Stop (config_file_ : string) (kill_ok : bool) (alive : nat -> bool) (y : System) : bool :=
  let last_pid := GetAppPid config_file_ y in
  if negb (CheckPid last_pid y) then false
  else if negb kill_ok then false
  else negb (alive (stop_loop 60 0 alive)).

(** [ParseCmdArgs] on what [getopt] gives. *)
Inductive option_arg : Type := OptC (optarg : string) | OptOther.
Inductive Command : Type := CmdStart | CmdStop.
Fixpoint parse_options (l : list option_arg) (config_file_ : string) : option string :=
  match l with [] => Some config_file_ | OptC a :: l => parse_options l a | OptOther :: _ => None end.
Definition ParseCmdArgs (opts : list option_arg) (rest : list string) : option (string * Command) :=
  match parse_options opts "" with
  | None => None
  | Some config_file_ =>
      match rest with
      | [] => None
      | a :: _ =>
          if decide (a = "start"%string) then Some (config_file_, CmdStart)
          else if decide (a = "stop"%string) then Some (config_file_, CmdStop)
          else None
      end
  end.

(** ** A server process: server_base.cc, server_mgr.cc and orc_mgr.cc *)

(** The calls of [BaseRun]; those that return a result are arguments. *)
Inductive stage : Type :=
| SetupOrcLogger | InitMonitorStatus | InitFileMonitor | InitComponents | InitPlugins | InitWorkflow
| ServerInit | StartServer | ServicePublish | WaitForStop | ServiceHide | StopServer | OrcMgrStop.
#[export] Instance stage_eq_dec : EqDecision stage.
Proof. solve_decision. Defined.

(** Calls joined by [||]: the trace and whether all have succeeded. *)
Fixpoint run_stages (ok : stage -> bool) (l : list stage) : list stage * bool :=
  match l with
  | [] => ([], true)
  | x :: l => if ok x then let '(t, b) := run_stages ok l in (x :: t, b) else ([x], false)
  end.

(** [OrcMgr::Setup]. *)
Definition OrcMgr_Setup (ok : stage -> bool) : list stage * bool :=
  run_stages ok [InitMonitorStatus; InitFileMonitor; InitComponents; InitPlugins; InitWorkflow].

(** [ServerBase]: whether it is started. *)
Definition BaseRun (ok : stage -> bool) (status_ : bool) : list stage * bool * bool :=
  if status_ then ([], true, status_)
  else
    let guard := [ServiceHide; StopServer; OrcMgrStop] in
    let '(t1, b1) := run_stages ok [SetupOrcLogger] in
    if negb b1 then (t1 ++ guard, false, status_)
    else
      let '(t2, b2) := OrcMgr_Setup ok in
      if negb b2 then (t1 ++ t2 ++ guard, false, status_)
      else
        let '(t3, b3) := run_stages ok [ServerInit; StartServer; ServicePublish] in
        if negb b3 then (t1 ++ t2 ++ t3 ++ guard, false, status_)
        else (t1 ++ t2 ++ t3 ++ [WaitForStop] ++ guard, true, true).

(** [ServerMgr]: the servers with their status and [stop_] flag; the first one registered under
    a name is kept.  A server runs until its flag is set. *)
Record ServerMgr : Type := mkServers { servers_ : gmap string (bool * bool); started_server_ : string }.
Definition ServerMgr_Register (nm : string) (m : ServerMgr) : ServerMgr :=
  match servers_ m !! nm with
  | Some _ => m
  | None => mkServers (<[nm := (false, false)]> (servers_ m)) (started_server_ m)
  end.
Definition ServerMgr_StartServer (ok : stage -> bool) (nm : string) (m : ServerMgr) : list stage * bool * ServerMgr :=
  match servers_ m !! nm with
  | None => ([], false, m)
  | Some (status_, stop_) =>
      let '(t, b, status_) := BaseRun ok status_ in (t, b, mkServers (<[nm := (status_, stop_)]> (servers_ m)) nm)
  end.
Definition ServerMgr_StopServer (m : ServerMgr) : ServerMgr :=
  match servers_ m !! started_server_ m with
  | None => m
  | Some (status_, _) => mkServers (<[started_server_ m := (status_, true)]> (servers_ m)) (started_server_ m)
  end.

(** ** Supervision against its specification *)

(** The specification keeps all deaths of a server: one that crashes is started again if it
    did not crash more than [intensity] times in the last [period]. *)
Record SpecServer : Type := mkSpec { s_name : string; s_intensity : Z; s_period : Z; s_deaths : list Z }.
Definition recent (now period : Z) (l : list Z) : list Z := filter (fun d => (now - period * 1000000000 < d)%Z) l.
Definition crashed (status : Status) : bool := match status with Exited _ => false | Signaled sig => negb (sig =? SIGKILL)%Z end.
Definition spec_supervise (w : wait_result) (servers : gmap Z SpecServer) : gmap Z SpecServer :=
  match w with
  | WaitError => servers
  | Reaped p status now stop forked =>
      match servers !! p with
      | None => servers
      | Some m =>
          let deaths := s_deaths m ++ [now] in
          if negb stop && crashed status && (Z.of_nat (length (recent now (s_period m) deaths)) <=? s_intensity m)%Z && negb (forked =? 0)%Z
          then <[forked := mkSpec (s_name m) (s_intensity m) (s_period m) deaths]> (delete p servers)
          else delete p servers
      end
  end.
Definition spec_of (m : ServerMeta) : SpecServer := mkSpec (name m) (intensity m) (period m) (dead_times m).

(** The clock does not go back; [fork] gives a number that no child has. *)
Fixpoint clock_ok (t : Z) (ws : list wait_result) : Prop :=
  match ws with
  | [] => True
  | WaitError :: ws => clock_ok t ws
  | Reaped _ _ now _ _ :: ws => (t <= now)%Z /\ clock_ok now ws
  end.
Fixpoint forks_fresh (ws : list wait_result) (metas : gmap Z ServerMeta) : Prop :=
  match ws with
  | [] => True
  | w :: ws =>
      match w with Reaped p _ _ _ forked => delete p metas !! forked = None | WaitError => True end /\ forks_fresh ws (supervise w metas)
  end.

(** The queue has the deaths since one that is too old to count, in order. *)
Definition meta_ok (t : Z) (m : ServerMeta) (x : SpecServer) : Prop :=
  s_name x = name m /\ s_intensity x = intensity m /\ s_period x = period m /\ (0 <= period m)%Z /\
  (Z.of_nat (length (dead_times m)) <= intensity m)%Z /\ StronglySorted Z.le (dead_times m) /\ Forall (fun d => (d <= t)%Z) (dead_times m) /\
  exists old, s_deaths x = old ++ dead_times m /\ Forall (fun d => (d <= t - period m * 1000000000)%Z) old.
Definition metas_ok (t : Z) (metas : gmap Z ServerMeta) (servers : gmap Z SpecServer) : Prop :=
  forall p, match metas !! p, servers !! p with Some m, Some x => meta_ok t m x | None, None => True | _, _ => False end.

Lemma meta_ok_later t t' m x : (t <= t')%Z -> meta_ok t m x -> meta_ok t' m x.
Proof.
  intros Ht (? & ? & ? & ? & ? & ? & Hd & old & ? & Ho); unfold meta_ok; split_and!; try done.
  - eapply list.Forall_impl; [exact Hd|]; cbn; lia.
  - exists old; split; [done|]; eapply list.Forall_impl; [exact Ho|]; cbn; lia.
Qed.

Lemma recent_old now p l : Forall (fun d => (d <= now - p * 1000000000)%Z) l -> recent now p l = [].
Proof. induction 1 as [|d l Hd _ IH]; [done|]; unfold recent in *; rewrite filter_cons_False by lia; exact IH. Qed.
Lemma recent_all now p l : Forall (fun d => (now - p * 1000000000 < d)%Z) l -> recent now p l = l.
Proof. induction 1 as [|d l Hd _ IH]; [done|]; unfold recent in *; rewrite filter_cons_True by lia; by rewrite IH. Qed.

(** What one turn of the loop over the dead times leaves. *)
Definition after_death (now : Z) (m : ServerMeta) : list Z :=
  match dead_times m ++ [now] with point :: rest => if (point <=? now - period m * 1000000000)%Z then rest else dead_times m ++ [now] | [] => [] end.

Lemma death_counted t now m x :
  (t <= now)%Z -> meta_ok t m x ->
  (Z.of_nat (length (after_death now m)) <=? intensity m)%Z =
    (Z.of_nat (length (recent now (s_period x) (s_deaths x ++ [now]))) <=? s_intensity x)%Z /\
  ((Z.of_nat (length (after_death now m)) <=? intensity m)%Z = true ->
   meta_ok now (with_deaths (after_death now m) m) (mkSpec (s_name x) (s_intensity x) (s_period x) (s_deaths x ++ [now]))).
Proof.
  intros Ht (Hn & Hi & Hp & Hp0 & Hlen & Hs & Hd & old & -> & Hold); rewrite Hi, Hp, <- (assoc_L (++)).
  assert (Hold' : Forall (fun d => (d <= now - period m * 1000000000)%Z) old) by (eapply list.Forall_impl; [exact Hold|]; cbn; lia).
  assert (Hs' : StronglySorted Z.le (dead_times m ++ [now])).
  { clear - Hs Hd Ht; induction Hs as [|d l Hl IH Hdl]; cbn; [repeat constructor|]; apply list.Forall_cons in Hd as [? Hd].
    constructor; [by apply IH|]; apply list.Forall_app; split; [done|]; constructor; [lia | constructor]. }
  assert (Hd' : Forall (fun d => (d <= now)%Z) (dead_times m ++ [now])).
  { apply list.Forall_app; split; [eapply list.Forall_impl; [exact Hd|]; cbn; lia | constructor; [lia | constructor]]. }
  assert (Hl : length (dead_times m ++ [now]) = S (length (dead_times m))) by (rewrite length_app; cbn; lia).
  assert (Hrec : recent now (period m) (old ++ dead_times m ++ [now]) = recent now (period m) (dead_times m ++ [now])).
  { unfold recent at 1; rewrite list.filter_app; fold (recent now (period m) old); by rewrite recent_old. }
  rewrite Hrec; unfold after_death, meta_ok; cbn [name intensity period dead_times with_deaths s_name s_intensity s_period s_deaths].
  destruct (dead_times m ++ [now]) as [|d l] eqn:El; [done|]; cbn in Hl; apply list.Forall_cons in Hd' as [Hdn Hdl].
  apply StronglySorted_inv in Hs' as [Hsl Hall]; destruct (Z.leb_spec d (now - period m * 1000000000)) as [Hle|Hgt].
  - assert (Hsmall : (Z.of_nat (length l) <= intensity m)%Z) by lia.
    assert (Hr : (length (recent now (period m) (d :: l)) <= length l)%nat).
    { unfold recent; rewrite filter_cons_False by lia; apply length_filter. }
    split; [transitivity true; [|symmetry]; apply Z.leb_le; lia|]; intros _; split_and!; try done.
    exists (old ++ [d]); rewrite <- (assoc_L (++)); split; [done|]; apply list.Forall_app; split; [done | by constructor].
  - assert (Hr : recent now (period m) (d :: l) = d :: l).
    { apply recent_all; constructor; [lia|]; eapply list.Forall_impl; [exact Hall|]; cbn; lia. }
    rewrite Hr; split; [done|]; intros Hb%Z.leb_le; split_and!; try done; [by constructor | by constructor|].
    exists old; by split.
Qed.

Lemma metas_ok_later t t' metas servers : (t <= t')%Z -> metas_ok t metas servers -> metas_ok t' metas servers.
Proof. intros Ht Hm p; specialize (Hm p); repeat case_match; eauto using meta_ok_later. Qed.
Lemma metas_ok_delete t p metas servers : metas_ok t metas servers -> metas_ok t (delete p metas) (delete p servers).
Proof. intros Hm q; destruct (decide (q = p)) as [->|]; [by rewrite !lookup_delete_eq | rewrite !lookup_delete_ne by done; apply Hm]. Qed.
Lemma metas_ok_insert t p m x metas servers : meta_ok t m x -> metas_ok t metas servers -> metas_ok t (<[p := m]> metas) (<[p := x]> servers).
Proof. intros Hx Hm q; destruct (decide (q = p)) as [->|]; [by rewrite !lookup_insert_eq | rewrite !lookup_insert_ne by done; apply Hm]. Qed.

Lemma supervise_ok t p status now stop forked metas servers :
  (t <= now)%Z -> delete p metas !! forked = None -> metas_ok t metas servers ->
  metas_ok now (supervise (Reaped p status now stop forked) metas) (spec_supervise (Reaped p status now stop forked) servers).
Proof.
  intros Ht Hf Hm; pose proof (Hm p) as Hp; unfold supervise, spec_supervise, NeedRestart; fold (after_death now).
  assert (Hdel : metas_ok now (delete p metas) (delete p servers)) by (by eapply metas_ok_delete, metas_ok_later).
  destruct (metas !! p) as [m|] eqn:Em, (servers !! p) as [x|] eqn:Ex; try done.
  2:{ assert (Hd : delete p metas = metas) by (by apply delete_id); rewrite (delete_id servers) in Hdel by done.
      destruct stop; [exact Hdel|]; destruct status as [|sig]; [exact Hdel|]; destruct (sig =? SIGKILL)%Z; exact Hdel. }
  destruct stop; cbn [negb andb]; [done|]; destruct status as [code|sig]; cbn [crashed]; [done|].
  destruct (sig =? SIGKILL)%Z; cbn [negb andb]; [done|]; destruct (death_counted t now m x Ht Hp) as [Hb Hok].
  cbv zeta; fold (after_death now m); rewrite <- Hb; destruct (_ <=? _)%Z; cbn [andb].
  - rewrite lookup_insert_eq, delete_insert_eq; destruct (forked =? 0)%Z; cbn [negb]; [done|].
    unfold emplace; rewrite Hf; apply metas_ok_insert; [by apply Hok | done].
  - by rewrite delete_insert_eq.
Qed.

Definition run_supervisor (ws : list wait_result) (metas : gmap Z ServerMeta) : gmap Z ServerMeta := foldl (fun m w => supervise w m) metas ws.
Definition run_spec (ws : list wait_result) (servers : gmap Z SpecServer) : gmap Z SpecServer := foldl (fun m w => spec_supervise w m) servers ws.

Lemma run_supervisor_ok ws : forall t metas servers,
  metas_ok t metas servers -> clock_ok t ws -> forks_fresh ws metas -> exists t', metas_ok t' (run_supervisor ws metas) (run_spec ws servers).
Proof.
  induction ws as [|[|p status now stop forked] ws IH]; intros t metas servers Hm Hc Hf; cbn in *; [by exists t | by eapply IH, Hf |].
  destruct Hc as [Ht Hc], Hf as [Hf0 Hf]; eapply IH; [by apply (supervise_ok t) | done | done].
Qed.

(** The servers that are started. *)
Lemma StartServers_ok l : forall metas b metas',
  map_Forall (fun _ m => dead_times m = [] /\ (0 <= period m)%Z /\ (0 <= intensity m)%Z) metas ->
  Forall (fun e => match e.1 with Some (_, i, p) => (0 <= i)%Z /\ (0 <= p)%Z | None => True end) l ->
  StartServers l metas = (b, metas') ->
  map_Forall (fun _ m => dead_times m = [] /\ (0 <= period m)%Z /\ (0 <= intensity m)%Z) metas'.
Proof.
  induction l as [|[[[[nm i] p]|] forked] l IH]; intros metas b metas' Hm Hl; cbn; [by intros [= _ <-] | | by intros [= _ <-]].
  apply list.Forall_cons in Hl as [[Hi Hp] Hl]; destruct (forked =? 0)%Z; [by intros [= _ <-]|]; apply IH; [|done].
  unfold emplace; case_match; [done|]; by apply map_Forall_insert_2.
Qed.

(** C37: the supervisor looks at most at one old death when a server crashes, and yet restarts
    exactly the servers it should: whatever its children do, as long as the clock does not
    go back and [fork] gives new numbers, the servers it runs are those of the specification,
    which counts all deaths in the last period. *)
Theorem supervisor_counts_right l b metas ws :
  Forall (fun e => match e.1 with Some (_, i, p) => (0 <= i)%Z /\ (0 <= p)%Z | None => True end) l ->
  StartServers l ∅ = (b, metas) -> clock_ok 0 ws -> forks_fresh ws metas ->
  name <$> run_supervisor ws metas = s_name <$> run_spec ws (spec_of <$> metas).
Proof.
  intros Hl Hs Hc Hf; pose proof (StartServers_ok l ∅ b metas (map_Forall_empty _) Hl Hs) as Hm.
  assert (Hok : metas_ok 0 metas (spec_of <$> metas)).
  { intros p; rewrite lookup_fmap; destruct (metas !! p) as [m|] eqn:E; cbn; [|done]; destruct (Hm p m E) as (Hd & ? & ?).
    unfold meta_ok; cbn; rewrite Hd; cbn; split_and!; try done; [constructor | by exists []]. }
  destruct (run_supervisor_ok ws 0 metas _ Hok Hc Hf) as [t Ht]; apply map_eq; intros p; rewrite !lookup_fmap; specialize (Ht p).
  destruct (run_supervisor ws metas !! p), (run_spec ws (spec_of <$> metas) !! p); cbn in *; try done; by destruct Ht as [-> _].
Qed.

Definition two_crashes : list wait_result :=
  [Reaped 7 (Signaled 11) 1000000000 false 8; Reaped 8 (Signaled 11) 2000000000 false 9; Reaped 9 (Signaled 6) 9000000000 false 10].
Lemma supervisor_counts_right_witness :
  name <$> run_supervisor two_crashes {[7%Z := mkMeta "s" 7 2 5 []]} = s_name <$> run_spec two_crashes (spec_of <$> {[7%Z := mkMeta "s" 7 2 5 []]}) /\
  name <$> run_supervisor two_crashes {[7%Z := mkMeta "s" 7 2 5 []]} = {[10%Z := "s"%string]}.
Proof.
  split; [|vm_compute; reflexivity].
  apply (supervisor_counts_right [(Some ("s"%string, 2, 5), 7)]%Z true); [repeat constructor; cbn; lia | vm_compute; reflexivity | |].
  - cbn; lia.
  - vm_compute; repeat split.
Defined.

(** ** The loop ends with its servers *)

(** The loop returns as soon as no server is left, and only then. *)
Lemma SuperviseServers_ends ws : forall metas rest,
  SuperviseServers ws metas = Some rest <->
  exists past, ws = past ++ rest /\ run_supervisor past metas = ∅ /\
    forall k, (k < length past)%nat -> run_supervisor (take k past) metas <> ∅.
Proof.
  induction ws as [|w ws IH]; intros metas rest; cbn [SuperviseServers]; case_decide as Hm.
  1,3: split; [intros [= <-]; exists []; cbn; split_and!; [done | done | lia]|];
    intros (past & -> & _ & Hk); destruct past as [|w' past]; [done | exfalso; by apply (Hk 0%nat); cbn; [lia|]].
  - split; [done|]; intros (past & He & Hr & _); symmetry in He; apply app_eq_nil in He as [-> _]; by cbn in Hr.
  - rewrite IH; split.
    + intros (past & -> & Hr & Hk); exists (w :: past); split_and!; [done | done|].
      intros [|k] Hlt; cbn; [done|]; apply Hk; cbn in Hlt; lia.
    + intros ([|w' past] & He & Hr & Hk); [by cbn in Hr|]; injection He as <- ->; exists past; split_and!; [done | done|].
      intros k Hlt; apply (Hk (S k)); cbn; lia.
Qed.

(** A start that fails in the middle leaves the servers that it has started. *)
Lemma failed_start_leaves_servers :
  StartServers [(Some ("a"%string, 5, 300), 7); (None, 8)]%Z ∅ = (false, {[7%Z := mkMeta "a" 7 5 300 []]}).
Proof. vm_compute; reflexivity. Qed.

(** One signal from outside is sent on to the group once: the handler sees it again, and stops. *)
Lemma signal_once stop : let '(sent, st) := AppSignalHandler (stop, false) in sent = true /\ AppSignalHandler st = (false, (true, false)).
Proof. done. Qed.

(** ** One process for a configuration *)

Lemma stop_loop_spec w : forall k alive, (forall i j, (i <= j)%nat -> alive j = true -> alive i = true) ->
  let n := stop_loop w k alive in (k < n <= k + S w)%nat /\ (alive n = false <-> alive (k + S w)%nat = false).
Proof.
  induction w as [|w IH]; intros k alive Hmono; cbn.
  - replace (k + 1)%nat with (S k) by lia; destruct (alive k); (split; [lia | done]).
  - destruct (alive k) eqn:Ek.
    + destruct (IH (S k) alive Hmono) as [Hn Hiff]; replace (k + S (S w))%nat with (S k + S w)%nat by lia; split; [lia | exact Hiff].
    + split; [lia|].
      assert (Hdead : forall i, (k <= i)%nat -> alive i = false).
      { intros i Hi; destruct (alive i) eqn:E; [|done]; by rewrite (Hmono k i Hi E) in Ek. }
      rewrite !Hdead by lia; done.
Qed.

(** After a start, as long as the process runs and its file is there, a second start
    fails and changes nothing; a stop finds the process, and succeeds exactly when the signal
    could be sent and the process is gone at the last of its 62 looks. *)
Lemma start_then_stop config_file_ file_ok self servers y metas y' :
  directory_of config_file_ ∈ dirs y -> self <> 0%Z -> self ∈ processes y ->
  Start config_file_ file_ok (Some self) servers y = (Supervising metas, y') ->
  (forall file_ok' self' servers', Start config_file_ file_ok' self' servers' y' = (Failed, y')) /\
  (forall kill_ok alive, (forall i j, (i <= j)%nat -> alive j = true -> alive i = true) ->
     Stop config_file_ kill_ok alive y' = kill_ok && negb (alive 61%nat)).
Proof.
  intros Hd Hs Hp; unfold Start; destruct (CheckPid _ y); [done|]; destruct file_ok; [|done]; cbn [negb].
  destruct (StartServers servers ∅) as [[|] m]; [|done]; intros [= <- <-].
  assert (Hget : GetAppPid config_file_ (SaveAppPid config_file_ self y) = self).
  { unfold SaveAppPid; rewrite decide_True by done; unfold GetAppPid; cbn; by rewrite lookup_insert_eq. }
  assert (Hcheck : CheckPid self (SaveAppPid config_file_ self y) = true).
  { unfold CheckPid, SaveAppPid; rewrite decide_True by done; cbn; apply andb_true_intro; split; [by apply negb_true_iff, Z.eqb_neq | by apply bool_decide_eq_true_2]. }
  split; [intros; by rewrite Hget, Hcheck|].
  intros kill_ok alive Hmono; unfold Stop; rewrite Hget, Hcheck; cbn [negb]; destruct kill_ok; cbn [negb andb]; [|done].
  pose proof (stop_loop_spec 60 0 alive Hmono) as [_ Hiff]; cbn -[stop_loop] in Hiff; destruct (alive (stop_loop 60 0 alive)), (alive 61%nat); try done;
    [by rewrite (proj2 Hiff eq_refl) | by rewrite (proj1 Hiff eq_refl)].
Qed.

Definition toy_system : System := mkSystem {["/etc"%string]} ∅ {[1%Z; 7%Z]}.
Lemma start_then_stop_witness :
  Stop "/etc/orc.yaml" true (fun k => (k <? 5)%nat) (Start "/etc/orc.yaml" true (Some 7%Z) [] toy_system).2 = true.
Proof.
  rewrite (proj2 (start_then_stop "/etc/orc.yaml" true 7 [] toy_system ∅ (Start "/etc/orc.yaml" true (Some 7%Z) [] toy_system).2
    ltac:(vm_compute; exact I || set_solver) ltac:(lia) ltac:(set_solver) ltac:(vm_compute; reflexivity))).
  - reflexivity.
  - intros i j Hij Hj; apply Nat.ltb_lt in Hj; apply Nat.ltb_lt; lia.
Defined.

(** A configuration that is named without a directory: the file is looked for below the
    configuration file itself, so it is never written and no process is ever found. *)
Lemma name_without_directory config_file_ self y :
  before_last_slash config_file_ = None -> config_file_ ∉ dirs y -> SaveAppPid config_file_ self y = y.
Proof. intros Hn Hd; unfold SaveAppPid, directory_of; rewrite Hn; cbn; by rewrite decide_False. Qed.

(** [-c] may be left out: the message is printed and the command goes on with no file. *)
Lemma missing_config_goes_on : ParseCmdArgs [] ["start"%string] = Some (""%string, CmdStart).
Proof. reflexivity. Qed.

(** ** A server always cleans up *)

Definition run_order : list stage :=
  [SetupOrcLogger; InitMonitorStatus; InitFileMonitor; InitComponents; InitPlugins; InitWorkflow; ServerInit; StartServer; ServicePublish; WaitForStop].

(** A server that is not running goes through the stages of its start in order, stops at
    the first one that fails, and in every case hides, stops its server and the manager once,
    at the end; it returns [true] exactly when every stage has succeeded. *)
Lemma server_cleans_up ok :
  exists t, BaseRun ok false = (t ++ [ServiceHide; StopServer; OrcMgrStop], forallb ok (take 9 run_order), forallb ok (take 9 run_order)) /\
    prefix t run_order /\ (forall x, x ∈ t -> ok x = true \/ list.last t = Some x \/ x = WaitForStop) /\
    (forallb ok (take 9 run_order) = true <-> t = run_order).
Proof.
  exists (let tr := (BaseRun ok false).1.1 in take (length tr - 3) tr).
  unfold BaseRun, OrcMgr_Setup, run_order; cbn [run_stages forallb take].
  repeat match goal with |- context [if ok ?x then _ else _] => destruct (ok x) eqn:? end; cbn;
    (split; [reflexivity|]; split; [by eexists|]; split; [|done]; intros x Hx; set_unfold in Hx; naive_solver).
Qed.
