(* ===== verification/FileMonitor.v ===== *)
(** * Watching files: src/orc/util/file_monitor.cc

    Threads ask the monitor to observe a file or to forget it; the commands are queued and
    processed by the worker, which also reads the events of the kernel and calls the actions
    of the observers.  A directory is watched once, for all its files.

    The kernel is an argument: [Inotify] has its functions, [InotifyOk] what they promise.
    Cookies and entries are objects on a heap, so that a use after a deletion shows. *)
From Stdlib Require Import ZArith Lia.
From stdpp Require Import base gmap sets list option.
From S2P Require Import Prelude Memory Strings.

Local Open Scope Z_scope.

(** ** Paths, events *)

(** [path.find_last_of] for the characters slash and backslash, as what is before and after
    it. *)
Fixpoint last_separator (path : bytes) : option (bytes * bytes) :=
  match path with
  | [] => None
  | c :: path =>
      match last_separator path with
      | Some (d, b) => Some (c :: d, b)
      | None => if (c =? 47) || (c =? 92) then Some ([], path) else None
      end
  end.

(** [GetDirAndBasename]: both are the whole path when there is no separator. *)
Definition GetDirAndBasename (path : bytes) : bytes * bytes := default (path, path) (last_separator path).
Arguments GetDirAndBasename : simpl never.

(** [enum class Event] and [ToEvent]. *)
Inductive Event : Type := Create | Modify | Delete | Other.
Definition IN_MODIFY : Z := 2.
Definition IN_ATTRIB : Z := 4.
Definition IN_MOVED_FROM : Z := 64.
Definition IN_MOVED_TO : Z := 128.
Definition IN_CREATE : Z := 256.
Definition IN_DELETE : Z := 512.
Definition ToEvent (mask : Z) : Event :=
  let kModifyEvent := Z.lor (Z.lor IN_ATTRIB IN_MODIFY) IN_MOVED_TO in
  let kDeleteEvent := Z.lor IN_DELETE IN_MOVED_FROM in
  if negb (Z.land mask IN_CREATE =? 0) then Create
  else if negb (Z.land mask kModifyEvent =? 0) then Modify
  else if negb (Z.land mask kDeleteEvent =? 0) then Delete
  else Other.

(** ** The kernel *)

(** The calls of the monitor; what the kernel does by itself: the descriptor that it sends with
    an event of a directory, whether a descriptor was removed by a call, and what happens when a
    directory is deleted or unmounted and when one can be watched again. *)
Class Inotify (K : Type) : Type := {
  inotify_add_watch : bytes -> K -> Z * K;
  inotify_rm_watch : Z -> K -> Z * K;
  event_wd : bytes -> K -> option Z;
  was_removed : Z -> K -> bool;
  dir_gone : bytes -> K -> K;
  dir_back : bytes -> K -> K
}.

(** The kernel has a table of watched directories and the descriptors that it has given out.
    As long as these are fewer than 2^24 it accepts the directories that can be watched, with a
    descriptor that is new, and sends the events of a directory with its descriptor.  It drops
    the watch of a directory that is gone.  Renaming a watched directory, which keeps its watch,
    and an overflow of the queue are not among its operations. *)
Definition max_watches : Z := 2 ^ 24.
Class InotifyOk (K : Type) `{Inotify K} : Type := {
  watches : K -> gmap Z bytes;
  used : K -> gset Z;
  watchable : K -> bytes -> bool;
  add_watch_ok : forall d k, Z.of_nat (size (used k)) < max_watches ->
    let '(wd, k') := inotify_add_watch d k in
    (forall d', watchable k' d' = watchable k d') /\ (forall w, was_removed w k' = true -> was_removed w k = true) /\
    if watchable k d
    then 0 <= wd < max_watches /\ watches k' = <[wd := d]> (watches k) /\ used k' = {[wd]} ∪ used k /\ (watches k !! wd = Some d \/ wd ∉ used k)
    else wd = -1 /\ watches k' = watches k /\ used k' = used k;
  rm_watch_ok : forall wd k, let k' := (inotify_rm_watch wd k).2 in
    watches k' = delete wd (watches k) /\ used k' = used k /\ (forall d, watchable k' d = watchable k d) /\
    (forall w, was_removed w k' = true -> w = wd \/ was_removed w k = true);
  gone_ok : forall d k, let k' := dir_gone d k in
    (forall w d', watches k' !! w = Some d' <-> watches k !! w = Some d' /\ d' <> d) /\ used k' = used k /\
    (forall d', watchable k' d' = watchable k d' && negb (bool_decide (d' = d))) /\ (forall w, was_removed w k' = was_removed w k);
  back_ok : forall d k, let k' := dir_back d k in
    watches k' = watches k /\ used k' = used k /\
    (forall d', watchable k' d' = watchable k d' || bool_decide (d' = d)) /\ (forall w, was_removed w k' = was_removed w k);
  removed_used : forall w k, was_removed w k = true -> w ∈ used k;
  event_wd_ok : forall d k wd, event_wd d k = Some wd -> watches k !! wd = Some d;
  event_wd_watched : forall d k wd, watches k !! wd = Some d -> is_Some (event_wd d k)
}.

(** ** The monitor *)

(** [struct Cookie]: the file; an action is known by its cookie.  [struct Command].
    [struct MonitorEntry]. *)
Inductive MonitorCommand : Type := CmdObserve (c : nat) | CmdForget (c : nat).
Record MonitorEntry : Type := mkEntry { wd : Z; dir : bytes; entries : gmap bytes (list nat) }.

(** [class FileMonitor]. *)
Record FileMonitor : Type := mkMonitor {
  cmds_ : list MonitorCommand;
  cookies : gmap nat bytes;
  next_cookie : nat;
  heap : gmap nat MonitorEntry;
  next_entry : nat;
  name_entry_map_ : gmap bytes nat;
  wd_entry_map_ : gmap Z nat;
  running : bool
}.
Definition new_FileMonitor : FileMonitor := mkMonitor [] ∅ 0 ∅ 0 ∅ ∅ false.
Definition with_cmds (l : list MonitorCommand) (m : FileMonitor) : FileMonitor :=
  mkMonitor l (cookies m) (next_cookie m) (heap m) (next_entry m) (name_entry_map_ m) (wd_entry_map_ m) (running m).
Definition with_cookies (c : gmap nat bytes) (m : FileMonitor) : FileMonitor :=
  mkMonitor (cmds_ m) c (next_cookie m) (heap m) (next_entry m) (name_entry_map_ m) (wd_entry_map_ m) (running m).
Definition with_heap (h : gmap nat MonitorEntry) (m : FileMonitor) : FileMonitor :=
  mkMonitor (cmds_ m) (cookies m) (next_cookie m) h (next_entry m) (name_entry_map_ m) (wd_entry_map_ m) (running m).
Definition with_running (b : bool) (m : FileMonitor) : FileMonitor :=
  mkMonitor (cmds_ m) (cookies m) (next_cookie m) (heap m) (next_entry m) (name_entry_map_ m) (wd_entry_map_ m) b.

(** [Observe] on the real path of a regular file ([None]: there is none), with
    [AcquireCookie]; [Forget]. *)
Definition Observe (path : option bytes) (m : FileMonitor) : option nat * FileMonitor :=
  if negb (running m) then (None, m)
  else
    match path with
    | None => (None, m)
    | Some path =>
        let c := next_cookie m in
        (Some c, mkMonitor (cmds_ m ++ [CmdObserve c]) (<[c := path]> (cookies m)) (S c) (heap m) (next_entry m)
                   (name_entry_map_ m) (wd_entry_map_ m) (running m))
    end.
Definition Forget (c : nat) (m : FileMonitor) : FileMonitor :=
  if negb (running m) then m else with_cmds (cmds_ m ++ [CmdForget c]) m.

(** [ReleaseCookie]. *)
Definition ReleaseCookie (c : nat) (m : FileMonitor) : FileMonitor := with_cookies (delete c (cookies m)) m.

Section Kernel.
Context {K : Type} `{Inotify K}.

(** [ProcessObserve]; [None] is the use of a deleted object. *)
Definition ProcessObserve (c : nat) (m : FileMonitor) (k : K) : option (FileMonitor * K) :=
  file ← cookies m !! c;
  let '(d, basename) := GetDirAndBasename file in
  match name_entry_map_ m !! d with
  | Some e =>
      entry ← heap m !! e;
      let l := default [] (entries entry !! basename) in
      Some (with_heap (<[e := mkEntry (wd entry) (dir entry) (<[basename := l ++ [c]]> (entries entry))]> (heap m)) m, k)
  | None =>
      let '(w, k) := inotify_add_watch d k in
      if w =? -1 then Some (m, k)
      else
        let e := next_entry m in
        Some (mkMonitor (cmds_ m) (cookies m) (next_cookie m) (<[e := mkEntry w d {[basename := [c]]}]> (heap m)) (S e)
                (<[d := e]> (name_entry_map_ m)) (<[w := e]> (wd_entry_map_ m)) (running m), k)
  end.

(** The entry without a cookie. *)
Definition forget_in (c : nat) (basename : bytes) (entry : MonitorEntry) : MonitorEntry :=
  match entries entry !! basename with
  | None => entry
  | Some l =>
      let l := filter (fun x => x <> c) l in
      mkEntry (wd entry) (dir entry) (match l with [] => delete basename (entries entry) | _ => <[basename := l]> (entries entry) end)
  end.

(** [ProcessForget]. *)
Definition ProcessForget (c : nat) (m : FileMonitor) (k : K) : option (FileMonitor * K) :=
  file ← cookies m !! c;
  let '(d, basename) := GetDirAndBasename file in
  match name_entry_map_ m !! d with
  | None => Some (ReleaseCookie c m, k)
  | Some e =>
      entry ← heap m !! e;
      let entry := forget_in c basename entry in
      if decide (entries entry = ∅) then
        let '(_, k) := inotify_rm_watch (wd entry) k in
        Some (ReleaseCookie c (mkMonitor (cmds_ m) (cookies m) (next_cookie m) (delete e (heap m)) (next_entry m)
                (delete (dir entry) (name_entry_map_ m)) (delete (wd entry) (wd_entry_map_ m)) (running m)), k)
      else Some (ReleaseCookie c (with_heap (<[e := entry]> (heap m)) m), k)
  end.

(** [ProcessCommand]: the queue is taken, its commands are processed in order. *)
Definition process (x : MonitorCommand) (m : FileMonitor) (k : K) : option (FileMonitor * K) :=
  match x with CmdObserve c => ProcessObserve c m k | CmdForget c => ProcessForget c m k end.
Fixpoint process_all (l : list MonitorCommand) (m : FileMonitor) (k : K) : option (FileMonitor * K) :=
  match l with
  | [] => Some (m, k)
  | x :: l => '(m, k) ← process x m k; process_all l m k
  end.
Definition ProcessCommand (m : FileMonitor) (k : K) : option (FileMonitor * K) := process_all (cmds_ m) (with_cmds [] m) k.
End Kernel.

(** ** Events *)

(** A call of the action of a cookie. *)
Definition call : Type := nat * bytes * Event.

(** The name of an event: the characters before the first zero; a string ends with one. *)
Fixpoint c_string (l : bytes) : bytes := match l with [] => [] | c :: l => if c =? 0 then [] else c :: c_string l end.

(** The body of the loop over the events. *)
Definition on_event (w mask : Z) (name : bytes) (m : FileMonitor) : option (list call) :=
  match name with
  | [] => Some []
  | _ =>
      match wd_entry_map_ m !! w with
      | None => Some []
      | Some e =>
          entry ← heap m !! e;
          match entries entry !! name with
          | None => Some []
          | Some l => mapM (fun c => (fun file => (c, file, ToEvent mask)) <$> cookies m !! c) l
          end
      end
  end.

(** The word of a descriptor as an [int]. *)
Definition to_int (x : Z) : Z := if x <? 2 ^ 31 then x else x - 2 ^ 32.

(** The loop of [ProcessInotify] over the buffer; [None] is a read after its end. *)
Fixpoint event_loop (fuel : nat) (buf : bytes) (m : FileMonitor) : option (list call) :=
  match fuel, buf with
  | _, [] => Some []
  | O, _ => None
  | S fuel, _ =>
      if (length buf <? 16)%nat then None
      else
        let w := to_int (le_value (take 4 buf)) in
        let mask := le_value (take 4 (drop 4 buf)) in
        let len := le_value (take 4 (drop 12 buf)) in
        calls ← on_event w mask (c_string (drop 16 buf)) m;
        rest ← event_loop fuel (drop (16 + Z.to_nat len) buf) m;
        Some (calls ++ rest)
  end.
Definition ProcessInotify (buf : bytes) (m : FileMonitor) : option (list call) := event_loop (length buf) buf m.

(** ** Start and stop *)

(** The monitor with its two descriptors and the descriptors that the process has open; the
    thread of the worker is running as long as the status says so. *)
Record process_state : Type := mkProcess { mon : FileMonitor; inotify_fd_ : Z; epoll_fd_ : Z; open_fds : list Z }.

(** [Start]; [fd] and [efd] are what [inotify_init1] and [epoll_create] return and [ctl] what
    [epoll_ctl] does. *)
Definition Start (fd efd ctl : Z) (p : process_state) : bool * process_state :=
  if running (mon p) then (false, p)
  else if fd =? -1 then (false, mkProcess (mon p) fd (epoll_fd_ p) (open_fds p))
  else if efd =? -1 then (false, mkProcess (mon p) fd efd (fd :: open_fds p))
  else if negb (ctl =? 0) then (false, mkProcess (mon p) fd efd (efd :: fd :: open_fds p))
  else (true, mkProcess (with_running true (mon p)) fd efd (efd :: fd :: open_fds p)).

(** [Stop], with what the worker did before it was joined. *)
Definition Stop (p : process_state) : process_state :=
  if negb (running (mon p)) then p
  else mkProcess (mkMonitor [] ∅ (next_cookie (mon p)) ∅ (next_entry (mon p)) ∅ ∅ false) (inotify_fd_ p) (epoll_fd_ p)
         (filter (fun x => x <> inotify_fd_ p /\ x <> epoll_fd_ p) (open_fds p)).

(** ** Histories and their specification *)

(** What the worker reads: a change of a file of a directory that is watched; an event without
    a name, as for a directory itself ([IN_ATTRIB], [IN_DELETE_SELF], [IN_IGNORED]), of any
    descriptor; an event of a descriptor that was removed, named or not. *)
Inductive change : Type :=
| Changed (d : bytes) (mask : Z) (name : bytes)
| Nameless (w mask : Z)
| Late (w mask : Z) (name : bytes).

(** What happens: a file is observed or forgotten, the worker processes its commands, the
    kernel has changes and the worker reads them, a directory is gone or back.  The changes that
    were made before a directory is gone are read before that. *)
Inductive op : Type :=
| OpObserve (path : option bytes)
| OpForget (c : nat)
| OpCommands
| OpChanges (l : list change)
| OpGone (d : bytes)
| OpBack (d : bytes).

(** An event as the kernel writes it: descriptor, mask, cookie, length, and the name, if there
    is one, filled up with zeros. *)
Definition padding (name : bytes) : nat := match name with [] => 0 | _ => (16 - length name mod 16)%nat end.
Definition encode (w mask : Z) (name : bytes) : bytes :=
  le_bytes 4 w ++ le_bytes 4 mask ++ le_bytes 4 0 ++ le_bytes 4 (Z.of_nat (length name + padding name)) ++ name ++ repeat 0 (padding name).
Arguments encode : simpl never.
Arguments padding : simpl never.

Record world (K : Type) : Type := mkWorld { monitor : FileMonitor; kernel : K; calls : list call }.
Arguments mkWorld {_} _ _ _.
Arguments monitor {_} _.
Arguments kernel {_} _.
Arguments calls {_} _.

Section Run.
Context {K : Type} `{Inotify K}.
Definition event_of (k : K) (x : change) : bytes :=
  match x with
  | Changed d mask name => match event_wd d k with Some w => encode w mask name | None => [] end
  | Nameless w mask => encode w mask []
  | Late w mask name => if was_removed w k then encode w mask name else []
  end.
Definition events_of (l : list change) (k : K) : bytes := l ≫= event_of k.
Definition step (x : op) (w : world K) : option (world K) :=
  let m := monitor w in
  match x with
  | OpObserve path => Some (mkWorld (Observe path m).2 (kernel w) (calls w))
  | OpForget c => Some (mkWorld (Forget c m) (kernel w) (calls w))
  | OpCommands => '(m, k) ← ProcessCommand m (kernel w); Some (mkWorld m k (calls w))
  | OpChanges l => new ← ProcessInotify (events_of l (kernel w)) m; Some (mkWorld m (kernel w) (calls w ++ new))
  | OpGone d => Some (mkWorld m (dir_gone d (kernel w)) (calls w))
  | OpBack d => Some (mkWorld m (dir_back d (kernel w)) (calls w))
  end.
(** A turn of [WorkLoop]: the commands, then the events when [epoll_wait] says that there are
    some. *)
Definition WorkLoop_turn (ready : bool) (l : list change) (w : world K) : option (world K) :=
  w ← step OpCommands w; if ready then step (OpChanges l) w else Some w.
Fixpoint run (l : list op) (w : world K) : option (world K) := match l with [] => Some w | x :: l => w ← step x w; run l w end.
End Run.

(** The specification: a list of the files that are observed, with the commands that wait; the
    directories of these files that are no longer watched because they were gone; and which
    directories can be watched. *)
Record spec : Type := mkSpec {
  sp_next : nat;
  sp_paths : gmap nat bytes;
  sp_pending : list MonitorCommand;
  sp_active : list (nat * bytes);
  sp_lost : gset bytes;
  sp_can : bytes -> bool;
  sp_live : gset nat;
  sp_calls : list call
}.
Definition new_spec (can : bytes -> bool) : spec := mkSpec 0 ∅ [] [] ∅ can ∅ [].

(** A directory that has observed files is not watched anew; when none is left it is forgotten
    that it was lost. *)
Definition observes (d : bytes) (active : list (nat * bytes)) : bool := existsb (fun q => bool_decide ((GetDirAndBasename q.2).1 = d)) active.
Definition spec_command (can : bytes -> bool) (paths : gmap nat bytes) (st : list (nat * bytes) * gset bytes) (x : MonitorCommand) :
    list (nat * bytes) * gset bytes :=
  let '(active, lost) := st in
  match x with
  | CmdObserve c =>
      match paths !! c with
      | Some p => if observes (GetDirAndBasename p).1 active || can (GetDirAndBasename p).1 then (active ++ [(c, p)], lost) else st
      | None => st
      end
  | CmdForget c =>
      let active := filter (fun q => q.1 <> c) active in (active, filter (fun d => observes d active = true) lost)
  end.
Definition observers (active : list (nat * bytes)) (d : bytes) (mask : Z) (name : bytes) : list call :=
  (fun q => (q.1, q.2, ToEvent mask)) <$> filter (fun q => GetDirAndBasename q.2 = (d, name)) active.
Definition called (active : list (nat * bytes)) (lost : gset bytes) (x : change) : list call :=
  match x with Changed d mask name => if decide (d ∈ lost) then [] else observers active d mask name | Nameless _ _ | Late _ _ _ => [] end.

(** Names are not empty, have no zero and less than 256 bytes; descriptors are below 2^24. *)
Definition change_ok (x : change) : Prop :=
  match x with
  | Changed _ mask name => name <> [] /\ 0 ∉ name /\ 0 <= mask < 2 ^ 32 /\ (length name < 256)%nat
  | Nameless w mask => 0 <= w < 2 ^ 24 /\ 0 <= mask < 2 ^ 32
  | Late w mask name => 0 <= w < 2 ^ 24 /\ 0 <= mask < 2 ^ 32 /\ (length name < 256)%nat
  end.
#[global] Instance change_ok_dec x : Decision (change_ok x).
Proof. destruct x; unfold change_ok; apply _. Defined.
(** The name that is read for an event without one has at most three bytes, those of the next
    descriptor; the observed files have longer names. *)
Definition nameless (x : change) : bool := match x with Nameless _ _ => true | _ => false end.
Definition names_apart (l : list change) (active : list (nat * bytes)) : Prop :=
  existsb nameless l = true -> Forall (fun q => (4 <= length (GetDirAndBasename q.2).2)%nat) active.
#[global] Instance names_apart_dec l active : Decision (names_apart l active).
Proof. unfold names_apart; apply _. Defined.

(** A cookie may be forgotten once, and there are fewer than 2^24 observations. *)
Definition spec_step (x : op) (s : spec) : option spec :=
  match x with
  | OpObserve None => Some s
  | OpObserve (Some p) =>
      let c := sp_next s in
      if decide (Z.of_nat c < max_watches)
      then Some (mkSpec (S c) (<[c := p]> (sp_paths s)) (sp_pending s ++ [CmdObserve c]) (sp_active s) (sp_lost s) (sp_can s) ({[c]} ∪ sp_live s) (sp_calls s))
      else None
  | OpForget c =>
      if decide (c ∈ sp_live s)
      then Some (mkSpec (sp_next s) (sp_paths s) (sp_pending s ++ [CmdForget c]) (sp_active s) (sp_lost s) (sp_can s) (sp_live s ∖ {[c]}) (sp_calls s))
      else None
  | OpCommands =>
      let '(active, lost) := foldl (spec_command (sp_can s) (sp_paths s)) (sp_active s, sp_lost s) (sp_pending s) in
      Some (mkSpec (sp_next s) (sp_paths s) [] active lost (sp_can s) (sp_live s) (sp_calls s))
  | OpChanges l =>
      if decide (Forall change_ok l /\ names_apart l (sp_active s))
      then Some (mkSpec (sp_next s) (sp_paths s) (sp_pending s) (sp_active s) (sp_lost s) (sp_can s) (sp_live s)
                   (sp_calls s ++ (l ≫= called (sp_active s) (sp_lost s))))
      else None
  | OpGone d =>
      Some (mkSpec (sp_next s) (sp_paths s) (sp_pending s) (sp_active s) (if observes d (sp_active s) then {[d]} ∪ sp_lost s else sp_lost s)
              (fun d' => sp_can s d' && negb (bool_decide (d' = d))) (sp_live s) (sp_calls s))
  | OpBack d =>
      Some (mkSpec (sp_next s) (sp_paths s) (sp_pending s) (sp_active s) (sp_lost s)
              (fun d' => sp_can s d' || bool_decide (d' = d)) (sp_live s) (sp_calls s))
  end.
Fixpoint spec_run (l : list op) (s : spec) : option spec := match l with [] => Some s | x :: l => s ← spec_step x s; spec_run l s end.

(** ** Reading events *)

Lemma c_string_name name n rest : 0 ∉ name -> c_string (name ++ repeat 0 (S n) ++ rest) = name.
Proof.
  induction name as [|c name IH]; intros Hn; [done|]; cbn; apply not_elem_of_cons in Hn as [Hc Hn].
  destruct (Z.eqb_spec c 0); [congruence|]; f_equal; by apply IH.
Qed.

Lemma padding_pos name : name <> [] -> exists n, padding name = S n.
Proof.
  destruct name as [|b name]; [done|]; intros _; unfold padding; pose proof (Nat.mod_upper_bound (length (b :: name)) 16).
  exists (15 - length (b :: name) mod 16)%nat; lia.
Qed.

Lemma encode_length w mask name : length (encode w mask name) = (16 + length name + padding name)%nat.
Proof. unfold encode; rewrite !length_app, !le_bytes_length, repeat_length; lia. Qed.

Lemma event_loop_encode fuel w mask name rest m :
  0 <= w < 2 ^ 24 -> 0 <= mask < 2 ^ 32 -> (length name < 256)%nat ->
  event_loop (S fuel) (encode w mask name ++ rest) m =
    (new ← on_event w mask (c_string (name ++ repeat 0 (padding name) ++ rest)) m; r ← event_loop fuel rest m; Some (new ++ r)).
Proof.
  intros Hw Hm Hl; assert (Hlen : length (encode w mask name ++ rest) = (16 + length name + padding name + length rest)%nat)
    by (rewrite length_app, encode_length; lia).
  destruct (encode w mask name ++ rest) as [|b buf] eqn:He; [cbn in Hlen; lia|]; rewrite <- He in *; cbn [event_loop].
  rewrite He; cbn iota; rewrite <- He; destruct (Nat.ltb_spec (length (encode w mask name ++ rest)) 16); [lia|].
  assert (Hpad : (padding name <= 16)%nat) by (unfold padding; destruct name; lia).
  replace (to_int (le_value (take 4 (encode w mask name ++ rest)))) with w.
  2:{ unfold encode; rewrite <- !(assoc_L (++)), take_app_length' by (by rewrite le_bytes_length); rewrite le_value_bytes by (change (256 ^ Z.of_nat 4) with (2 ^ 32); lia); unfold to_int; destruct (Z.ltb_spec w (2 ^ 31)); lia. }
  replace (le_value (take 4 (drop 4 (encode w mask name ++ rest)))) with mask.
  2:{ unfold encode; rewrite <- !(assoc_L (++)), drop_app_length', take_app_length' by (by rewrite le_bytes_length); symmetry; by apply le_value_bytes. }
  assert (Hword : forall n l x, drop (4 + n) (le_bytes 4 x ++ l) = drop n l).
  { intros n l x; rewrite <- drop_drop, drop_app_length' by (by rewrite le_bytes_length); done. }
  replace (le_value (take 4 (drop 12 (encode w mask name ++ rest)))) with (Z.of_nat (length name + padding name)).
  2:{ unfold encode; rewrite <- !(assoc_L (++)); change 12%nat with (4 + (4 + (4 + 0)))%nat; rewrite !Hword, drop_0.
      rewrite take_app_length' by (by rewrite le_bytes_length); symmetry; apply le_value_bytes; change (256 ^ Z.of_nat 4) with (2 ^ 32); lia. }
  assert (Hdrop : drop 16 (encode w mask name ++ rest) = name ++ repeat 0 (padding name) ++ rest).
  { unfold encode; rewrite <- !(assoc_L (++)); change 16%nat with (4 + (4 + (4 + (4 + 0))))%nat; by rewrite !Hword, drop_0. }
  rewrite Hdrop; replace (drop (16 + Z.to_nat (Z.of_nat (length name + padding name))) (encode w mask name ++ rest)) with rest; [done|].
  rewrite <- drop_drop, Hdrop, (assoc_L (++)); symmetry; apply drop_app_length'; rewrite length_app, repeat_length; lia.
Qed.

(** ** The tables *)

(** The cookies that observe a file of a directory. *)
Definition who (d b : bytes) (active : list (nat * bytes)) : list nat :=
  fst <$> filter (fun q : nat * bytes => GetDirAndBasename q.2 = (d, b)) active.

Lemma who_app d b l1 l2 : who d b (l1 ++ l2) = who d b l1 ++ who d b l2.
Proof. unfold who; by rewrite list.filter_app, fmap_app. Qed.
Lemma who_one d b c p : who d b [(c, p)] = if decide (GetDirAndBasename p = (d, b)) then [c] else [].
Proof. unfold who; rewrite filter_cons; cbn; by case_decide. Qed.
Lemma who_forget d b c active : who d b (filter (fun q => q.1 <> c) active) = filter (fun x => x <> c) (who d b active).
Proof.
  unfold who; induction active as [|[x p] active IH]; [done|].
  destruct (decide (x = c)) as [->|Hx], (decide (GetDirAndBasename p = (d, b))) as [Hp|Hp].
  - rewrite filter_cons_False by (cbn; tauto); rewrite (filter_cons_True _ (c, p)) by done; rewrite fmap_cons, filter_cons_False by (cbn; tauto); exact IH.
  - rewrite filter_cons_False by (cbn; tauto); rewrite (filter_cons_False _ (c, p)) by done; exact IH.
  - rewrite (filter_cons_True (fun q : nat * bytes => q.1 <> c)) by done; rewrite !(filter_cons_True _ (x, p)) by done; rewrite !fmap_cons.
    rewrite filter_cons_True by done; f_equal; exact IH.
  - rewrite (filter_cons_True (fun q : nat * bytes => q.1 <> c)) by done; rewrite !(filter_cons_False _ (x, p)) by done; exact IH.
Qed.
Lemma filter_cookie_absent (c : nat) (l : list nat) : c ∉ l -> filter (fun x => x <> c) l = l.
Proof.
  induction l as [|x l IH]; intros Hc; [done|]; apply not_elem_of_cons in Hc as [Hx Hc]; rewrite filter_cons_True by congruence; f_equal; by apply IH.
Qed.
Lemma who_other d b c p active :
  (forall q, (c, q) ∈ active -> q = p) -> GetDirAndBasename p <> (d, b) -> who d b (filter (fun q => q.1 <> c) active) = who d b active.
Proof.
  intros Hc Hp; rewrite who_forget; apply filter_cookie_absent; unfold who; intros ([x q] & -> & Hq)%list_elem_of_fmap.
  apply list_elem_of_filter in Hq as [Hq Hin]; cbn in *; by rewrite (Hc q Hin) in Hq.
Qed.

(** Which directories have observed files. *)
Lemma observes_who d active : observes d active = true <-> exists b, who d b active <> [].
Proof.
  unfold observes; rewrite existsb_exists; split.
  - intros ([c p] & Hin & Hd%bool_decide_eq_true); destruct (GetDirAndBasename p) as [d' b] eqn:Hp; cbn in Hd; rewrite Hp in Hd; cbn in Hd; subst d'; exists b; unfold who.
    intros Hn%fmap_nil_inv; apply (not_elem_of_nil (c, p)); rewrite <- Hn; apply list_elem_of_filter; split; [done | by apply list_elem_of_In].
  - intros [b Hb]; unfold who in Hb; destruct (filter _ active) as [|[c p] l] eqn:Hf; [done|].
    assert (Hin : (c, p) ∈ filter (fun q : nat * bytes => GetDirAndBasename q.2 = (d, b)) active) by (rewrite Hf; by left).
    apply list_elem_of_filter in Hin as [Hp Hin]; exists (c, p); split; [by apply list_elem_of_In|]; apply bool_decide_eq_true; by rewrite Hp.
Qed.
Lemma observes_app d l1 l2 : observes d (l1 ++ l2) = observes d l1 || observes d l2.
Proof. apply existsb_app. Qed.

Lemma size_one_more (w : Z) (X : gset Z) : (size ({[w]} ∪ X) <= S (size X))%nat.
Proof. rewrite size_union_alt, size_singleton; pose proof (subseteq_size (X ∖ {[w]}) X ltac:(set_solver)); lia. Qed.

(** A directory is lost only as long as it has observed files. *)
Definition lost_ok (active : list (nat * bytes)) (lost : gset bytes) : Prop := forall d, d ∈ lost -> observes d active = true.

Section Tables.
Context {K : Type} `{InotifyOk K}.

Record tables (active : list (nat * bytes)) (lost : gset bytes) (m : FileMonitor) (k : K) : Prop := {
  t_name : forall d e, name_entry_map_ m !! d = Some e ->
    (e < next_entry m)%nat /\
    exists entry, heap m !! e = Some entry /\ dir entry = d /\ wd_entry_map_ m !! wd entry = Some e /\
      (watches k !! wd entry = (if decide (d ∈ lost) then None else Some d) /\ wd entry ∈ used k /\ was_removed (wd entry) k = false) /\
      entries entry <> ∅ /\ (forall b, default [] (entries entry !! b) = who d b active) /\ (forall b, entries entry !! b <> Some []);
  t_none : forall d b, name_entry_map_ m !! d = None -> who d b active = [];
  t_wd : forall w e, wd_entry_map_ m !! w = Some e -> exists d x, name_entry_map_ m !! d = Some e /\ heap m !! e = Some x /\ wd x = w;
  t_kernel : forall w d, watches k !! w = Some d -> 0 <= w < 2 ^ 24 /\ exists e x,
    wd_entry_map_ m !! w = Some e /\ name_entry_map_ m !! d = Some e /\ heap m !! e = Some x /\ wd x = w
}.

(** Entries are told apart by their directories. *)
Lemma tables_inj active lost m k d d' e : tables active lost m k -> name_entry_map_ m !! d = Some e -> name_entry_map_ m !! d' = Some e -> d = d'.
Proof.
  intros Ht Hd Hd'; destruct (t_name _ _ _ _ Ht _ _ Hd) as (_ & x & Hx & <- & _); destruct (t_name _ _ _ _ Ht _ _ Hd') as (_ & x' & Hx' & <- & _); congruence.
Qed.

(** The known directories are those with observed files. *)
Lemma known_observed active lost m k d : tables active lost m k -> (is_Some (name_entry_map_ m !! d) <-> observes d active = true).
Proof.
  intros Ht; rewrite observes_who; split.
  - intros [e Hd]; destruct (t_name _ _ _ _ Ht _ _ Hd) as (_ & x & _ & _ & _ & _ & Hne & Hall & Hnil).
    apply map_choose in Hne as (b & l & Hb); exists b; rewrite <- Hall, Hb; cbn; intros ->; by apply (Hnil b).
  - intros [b Hb]; destruct (name_entry_map_ m !! d) eqn:E; [eauto|]; by rewrite (t_none _ _ _ _ Ht) in Hb.
Qed.

Lemma tables_prune active lost m k : tables active lost m k -> tables active (filter (fun d => observes d active = true) lost) m k.
Proof.
  intros Ht; split; [|apply (t_none _ _ _ _ Ht) | apply (t_wd _ _ _ _ Ht) | apply (t_kernel _ _ _ _ Ht)].
  intros d e Hd; destruct (t_name _ _ _ _ Ht d e Hd) as (? & x & ? & ? & ? & (Hw & ? & ?) & ?); split; [done|]; exists x; split_and!; try done; [|naive_solver..].
  rewrite Hw; assert (Ho : observes d active = true) by (apply (known_observed _ _ _ _ d Ht); eauto).
  destruct (decide (d ∈ lost)) as [Hin|Hin]; [rewrite decide_True by (by apply elem_of_filter) | rewrite decide_False by (by intros [_ ?]%elem_of_filter)]; done.
Qed.

Lemma tables_kernel_update active lost m k e x y :
  tables active lost m k -> heap m !! e = Some x -> wd y = wd x ->
  (forall w d, watches k !! w = Some d -> 0 <= w < 2 ^ 24 /\ exists e' x',
    wd_entry_map_ m !! w = Some e' /\ name_entry_map_ m !! d = Some e' /\ <[e := y]> (heap m) !! e' = Some x' /\ wd x' = w) /\
  (forall w e', wd_entry_map_ m !! w = Some e' -> exists d x', name_entry_map_ m !! d = Some e' /\ <[e := y]> (heap m) !! e' = Some x' /\ wd x' = w).
Proof.
  intros Ht Hx Hy.
  assert (Hh : forall e' x', heap m !! e' = Some x' -> exists x2, <[e := y]> (heap m) !! e' = Some x2 /\ wd x2 = wd x').
  { intros e' x' He'; destruct (decide (e' = e)) as [->|]; [exists y; rewrite lookup_insert_eq; split; congruence | exists x'; by rewrite lookup_insert_ne]. }
  split.
  - intros w d Hw; destruct (t_kernel _ _ _ _ Ht _ _ Hw) as (? & e' & x' & ? & ? & He' & ?); split; [done|].
    destruct (Hh _ _ He') as (x2 & ? & ?); exists e', x2; split_and!; congruence.
  - intros w e' Hw; destruct (t_wd _ _ _ _ Ht _ _ Hw) as (d & x' & ? & He' & ?); destruct (Hh _ _ He') as (x2 & ? & ?); exists d, x2; split_and!; congruence.
Qed.

Lemma not_removed (k k' : K) w : (forall w, was_removed w k' = true -> was_removed w k = true) -> was_removed w k = false -> was_removed w k' = false.
Proof. intros Hrem Hw; destruct (was_removed w k') eqn:E; [apply Hrem in E; congruence | done]. Qed.

(** What processing an observation does to the tables. *)
Definition observed (active : list (nat * bytes)) (lost : gset bytes) (m : FileMonitor) (k : K) (c : nat) (p : bytes) : Prop :=
  exists m' k', ProcessObserve c m k = Some (m', k') /\ cookies m' = cookies m /\ next_cookie m' = next_cookie m /\ cmds_ m' = cmds_ m /\ running m' = running m /\
    (forall d, watchable k' d = watchable k d) /\ (size (used k') <= S (size (used k)))%nat /\
    tables (if observes (GetDirAndBasename p).1 active || watchable k (GetDirAndBasename p).1 then active ++ [(c, p)] else active) lost m' k'.

(** A file of a directory that is watched. *)
Lemma tables_observe_known active lost m k c p d b e :
  tables active lost m k -> cookies m !! c = Some p -> GetDirAndBasename p = (d, b) -> name_entry_map_ m !! d = Some e -> observed active lost m k c p.
Proof.
  intros Ht Hc Hp Hd; unfold observed, ProcessObserve; rewrite Hc; cbn; rewrite Hp; cbn; rewrite Hd.
  rewrite (proj1 (known_observed active lost m k d Ht)) by eauto; cbn [orb].
  destruct (t_name _ _ _ _ Ht d e Hd) as (He & x & Hx & Hdir & Hwd & Hk & Hne & Hall & Hnil); rewrite Hx; cbn.
  do 2 eexists; split; [done|]; do 5 (split; [done|]); split; [lia|]; split; cbn.
  - intros d' e' Hd'; destruct (t_name _ _ _ _ Ht d' e' Hd') as (He' & x' & Hx' & Hdir' & Hwd' & Hk' & Hne' & Hall' & Hnil').
    split; [done|]; destruct (decide (e' = e)) as [->|Hee].
    + assert (d' = d) as -> by (by eapply tables_inj); rewrite lookup_insert_eq; eexists; split; [done|]; cbn; split; [done|]; split; [done|]; split; [done|]; split_and!.
      * apply insert_non_empty.
      * intros b'; rewrite who_app, who_one, <- Hall, Hp; destruct (decide (b' = b)) as [->|Hb].
        -- rewrite lookup_insert_eq, decide_True by done; done.
        -- rewrite lookup_insert_ne, decide_False by congruence; by rewrite app_nil_r.
      * intros b'; destruct (decide (b' = b)) as [->|Hb]; [rewrite lookup_insert_eq; intros [= Hn]; by apply app_nil in Hn as [_ ?] | by rewrite lookup_insert_ne].
    + rewrite lookup_insert_ne by done; exists x'; do 5 (split; [done|]); split; [|done]; intros b'.
      rewrite who_app, who_one, <- Hall', Hp, decide_False; [by rewrite app_nil_r|]; intros [= -> ->]; congruence.
  - intros d' b' Hd'; rewrite who_app, who_one, (t_none _ _ _ _ Ht), Hp, decide_False by (congruence || done); done.
  - by eapply tables_kernel_update.
  - by eapply tables_kernel_update.
Qed.

(** The first file of a directory. *)
Lemma tables_observe_new active lost m k c p d b :
  tables active lost m k -> lost_ok active lost -> Z.of_nat (size (used k)) < max_watches ->
  cookies m !! c = Some p -> GetDirAndBasename p = (d, b) -> name_entry_map_ m !! d = None -> observed active lost m k c p.
Proof.
  intros Ht Hlost Hroom Hc Hp Hd; unfold observed, ProcessObserve; rewrite Hc; cbn; rewrite Hp; cbn; rewrite Hd.
  assert (Ho : observes d active = false).
  { destruct (observes d active) eqn:Ho; [|done]; apply (known_observed _ _ _ _ d Ht) in Ho as [? ?]; congruence. }
  assert (Hdl : d ∉ lost) by (intros Hin%Hlost; congruence); rewrite Ho; cbn [orb].
  pose proof (add_watch_ok d k Hroom) as Ha; destruct (inotify_add_watch d k) as [w k']; destruct Ha as (Hcan & Hrem & Ha); destruct (watchable k d) eqn:Hw.
  2:{ destruct Ha as (-> & Hk & Hu); cbn; do 2 eexists; split; [done|]; do 5 (split; [done|]); split; [rewrite Hu; lia|]; destruct Ht; split; try done; rewrite ?Hk; [|done].
      intros d' e' Hd'; rewrite Hu; destruct (t_name0 d' e' Hd') as (? & x' & ? & ? & ? & (? & ? & ?) & ?); split; [done|]; exists x'; do 3 (split; [done|]); split; [|done]; split; [done|]; split; [done | by eapply not_removed]. }
  destruct Ha as (Hw0 & Hk & Hu & Hold); destruct (Z.eqb_spec w (-1)); [lia|].
  assert (Hfresh : w ∉ used k).
  { destruct Hold as [Hold|?]; [|done]; destruct (t_kernel _ _ _ _ Ht _ _ Hold) as (_ & e & ? & _ & ? & _); congruence. }
  assert (Hnew : watches k !! w = None).
  { destruct (watches k !! w) as [d'|] eqn:E; [|done]; destruct (t_kernel _ _ _ _ Ht _ _ E) as (_ & e & x & _ & Hd' & Hx & Hwx).
    destruct (t_name _ _ _ _ Ht _ _ Hd') as (_ & x' & Hx' & _ & _ & (_ & Hin & _) & _); rewrite Hx in Hx'; injection Hx' as <-; congruence. }
  assert (Hwnew : wd_entry_map_ m !! w = None).
  { destruct (wd_entry_map_ m !! w) as [e|] eqn:E; [|done]; destruct (t_wd _ _ _ _ Ht _ _ E) as (d' & x & Hd' & Hx & Hwx).
    destruct (t_name _ _ _ _ Ht _ _ Hd') as (_ & x' & Hx' & _ & _ & (_ & Hin & _) & _); rewrite Hx in Hx'; injection Hx' as <-; congruence. }
  do 2 eexists; split; [done|]; do 5 (split; [done|]); split; [rewrite Hu; apply size_one_more|].
  split; cbn; rewrite ?Hk.
  - intros d' e'; destruct (decide (d' = d)) as [->|Hdd]; [rewrite lookup_insert_eq; intros [= <-] | rewrite lookup_insert_ne by done; intros Hd'].
    + split; [lia|]; rewrite lookup_insert_eq; eexists; split; [done|]; cbn; rewrite !lookup_insert_eq, decide_False by done; do 2 (split; [done|]); split; [|split; [done|split]].
      * split; [done|]; split; [rewrite Hu; set_solver|]; apply (not_removed k k' w Hrem); destruct (was_removed w k) eqn:Er; [by apply removed_used in Er | done].
      * intros b'; rewrite who_app, (t_none _ _ _ _ Ht), who_one, Hp by done; cbn; destruct (decide (b' = b)) as [->|Hb].
        -- by rewrite lookup_singleton_eq, decide_True.
        -- rewrite lookup_singleton_ne, decide_False by congruence; done.
      * intros b'; destruct (decide (b' = b)) as [->|Hb]; [by rewrite lookup_singleton_eq | by rewrite lookup_singleton_ne].
    + destruct (t_name _ _ _ _ Ht d' e' Hd') as (He' & x' & Hx' & Hdir' & Hwd' & (Hk' & Hu' & Hr') & Hne' & Hall' & Hnil').
      split; [lia|]; rewrite lookup_insert_ne by lia; exists x'; split; [done|]; split; [done|].
      rewrite !lookup_insert_ne by congruence; split; [done|]; split; [split; [done | split; [rewrite Hu; set_solver | by eapply not_removed]]|]; split; [done|]; split; [|done].
      intros b'; rewrite who_app, who_one, <- Hall', Hp, decide_False by congruence; by rewrite app_nil_r.
  - intros d' b'; destruct (decide (d' = d)) as [->|Hdd]; [by rewrite lookup_insert_eq | rewrite lookup_insert_ne by done; intros Hd'].
    rewrite who_app, who_one, (t_none _ _ _ _ Ht), Hp, decide_False by (congruence || done); done.
  - intros w' e'; destruct (decide (w' = w)) as [->|Hww].
    + rewrite !lookup_insert_eq; intros [= <-]; exists d; eexists; by rewrite !lookup_insert_eq.
    + rewrite !lookup_insert_ne by done; intros Hw'; destruct (t_wd _ _ _ _ Ht _ _ Hw') as (d' & x & Hd' & ? & ?); destruct (t_name _ _ _ _ Ht _ _ Hd') as [? _].
      exists d', x; rewrite !lookup_insert_ne by (congruence || lia); done.
  - intros w' d'; destruct (decide (w' = w)) as [->|Hww].
    + rewrite lookup_insert_eq; intros [= <-]; split; [done|]; exists (next_entry m); eexists; by rewrite !lookup_insert_eq.
    + rewrite lookup_insert_ne by done; intros Hw'; destruct (t_kernel _ _ _ _ Ht _ _ Hw') as (? & e & x & ? & Hd' & ? & ?); split; [done|]; exists e, x.
      destruct (t_name _ _ _ _ Ht _ _ Hd') as [? _]; rewrite !lookup_insert_ne by (congruence || lia); done.
Qed.

Lemma tables_observe active lost m k c p :
  tables active lost m k -> lost_ok active lost -> Z.of_nat (size (used k)) < max_watches -> cookies m !! c = Some p -> observed active lost m k c p.
Proof.
  intros Ht Hlost Hroom Hc; destruct (GetDirAndBasename p) as [d b] eqn:Hp; destruct (name_entry_map_ m !! d) as [e|] eqn:Hd;
    [by eapply tables_observe_known | by eapply tables_observe_new].
Qed.

(** The entry of a directory after a cookie was taken out. *)
Lemma forget_in_spec active d b c p x :
  GetDirAndBasename p = (d, b) -> (forall q, (c, q) ∈ active -> q = p) ->
  (forall b', default [] (entries x !! b') = who d b' active) -> (forall b', entries x !! b' <> Some []) ->
  let x' := forget_in c b x in
  wd x' = wd x /\ dir x' = dir x /\
  (forall b', default [] (entries x' !! b') = who d b' (filter (fun q => q.1 <> c) active)) /\ (forall b', entries x' !! b' <> Some []).
Proof.
  intros Hp Hc Hall Hnil; unfold forget_in; cbn.
  assert (Hb : forall b', b' <> b -> default [] (entries x !! b') = who d b' (filter (fun q => q.1 <> c) active)).
  { intros b' Hne; rewrite (who_other _ _ _ p) by (done || congruence); apply Hall. }
  destruct (entries x !! b) as [l|] eqn:El.
  2:{ split_and!; try done; intros b'; destruct (decide (b' = b)) as [->|]; [|by apply Hb].
      rewrite who_forget, <- Hall, El; done. }
  assert (Hl : filter (fun y => y <> c) l = who d b (filter (fun q => q.1 <> c) active)) by (rewrite who_forget, <- Hall, El; done).
  split; [done|]; split; [done|]; cbn; destruct (filter (fun y => y <> c) l) as [|y l'] eqn:Ef; split; intros b'.
  - destruct (decide (b' = b)) as [->|]; [by rewrite lookup_delete_eq | rewrite lookup_delete_ne by done; by apply Hb].
  - destruct (decide (b' = b)) as [->|]; [by rewrite lookup_delete_eq | rewrite lookup_delete_ne by done; apply Hnil].
  - destruct (decide (b' = b)) as [->|]; [by rewrite lookup_insert_eq | rewrite lookup_insert_ne by done; by apply Hb].
  - destruct (decide (b' = b)) as [->|]; [by rewrite lookup_insert_eq | rewrite lookup_insert_ne by done; apply Hnil].
Qed.

Lemma tables_forget active lost m k c p :
  tables active lost m k -> cookies m !! c = Some p -> (forall q, (c, q) ∈ active -> q = p) ->
  exists m' k', ProcessForget c m k = Some (m', k') /\ cookies m' = delete c (cookies m) /\ next_cookie m' = next_cookie m /\ cmds_ m' = cmds_ m /\
    running m' = running m /\ (forall d, watchable k' d = watchable k d) /\ used k' = used k /\ tables (filter (fun q => q.1 <> c) active) lost m' k'.
Proof.
  intros Ht Hck Hc; unfold ProcessForget; rewrite Hck; cbn; destruct (GetDirAndBasename p) as [d b] eqn:Hp; cbn.
  assert (Hother : forall d' b', d' <> d -> who d' b' (filter (fun q => q.1 <> c) active) = who d' b' active).
  { intros d' b' Hne; apply (who_other _ _ _ p); [done | congruence]. }
  destruct (name_entry_map_ m !! d) as [e|] eqn:Hd.
  2:{ do 2 eexists; split; [done|]; do 6 (split; [done|]); split; cbn; [| |apply (t_wd _ _ _ _ Ht) | apply (t_kernel _ _ _ _ Ht)].
      - intros d' e' Hd'; destruct (t_name _ _ _ _ Ht d' e' Hd') as (? & x' & ? & ? & ? & ? & ? & Hall' & ?); split; [done|].
        exists x'; do 5 (split; [done|]); split; [|done]; intros b'; rewrite Hother by congruence; done.
      - intros d' b' Hd'; rewrite who_forget, (t_none _ _ _ _ Ht) by done; done. }
  destruct (t_name _ _ _ _ Ht d e Hd) as (He & x & Hx & Hdir & Hwd & Hk & Hne & Hall & Hnil); rewrite Hx; cbn.
  destruct (forget_in_spec active d b c p x Hp Hc Hall Hnil) as (Hwd' & Hdir' & Hall' & Hnil'); rewrite Hwd', Hdir', Hdir.
  destruct (decide (entries (forget_in c b x) = ∅)) as [Hempty|Hmore].
  - pose proof (rm_watch_ok (wd x) k) as Hrm; destruct (inotify_rm_watch (wd x) k) as [r k']; cbn in Hrm; destruct Hrm as (Hrm & Hu & Hcan & Hrem).
    do 2 eexists; split; [done|]; do 6 (split; [done|]); split; cbn; rewrite ?Hrm.
    + intros d' e'; destruct (decide (d' = d)) as [->|Hdd]; [by rewrite lookup_delete_eq | rewrite lookup_delete_ne by done; intros Hd'].
      destruct (t_name _ _ _ _ Ht d' e' Hd') as (? & x' & ? & ? & ? & (? & ? & Hr') & ? & Hall1 & ?).
      assert (e' <> e) by (intros ->; apply Hdd; by eapply tables_inj); assert (wd x' <> wd x) by congruence.
      split; [done|]; rewrite lookup_delete_ne by done; exists x'; rewrite !lookup_delete_ne by done; do 3 (split; [done|]).
      split; [split; [done|]; split; [by rewrite Hu|]; destruct (was_removed (wd x') k') eqn:Er; [apply Hrem in Er as [?|?]; congruence | done]|].
      split; [done|]; split; [|done]; intros b'; rewrite Hother by done; apply Hall1.
    + intros d' b'; destruct (decide (d' = d)) as [->|Hdd]; [intros _; by rewrite <- Hall', Hempty, lookup_empty|].
      rewrite lookup_delete_ne by done; intros Hd'; rewrite Hother by done; by apply (t_none _ _ _ _ Ht).
    + intros w' e' [Hww Hw']%lookup_delete_Some; destruct (t_wd _ _ _ _ Ht _ _ Hw') as (d' & x' & Hd' & Hx' & Hwx); exists d', x'.
      rewrite !lookup_delete_ne; [done | congruence | intros <-; congruence].
    + intros w' d' [Hww Hw']%lookup_delete_Some; destruct (t_kernel _ _ _ _ Ht _ _ Hw') as (? & e1 & x1 & He1 & Hd1 & Hx1 & Hw1); split; [done|]; exists e1, x1.
      rewrite !lookup_delete_ne by congruence; done.
  - do 2 eexists; split; [done|]; do 6 (split; [done|]); split; cbn; [| |by eapply tables_kernel_update | by eapply tables_kernel_update].
    + intros d' e' Hd'; destruct (t_name _ _ _ _ Ht d' e' Hd') as (? & x' & ? & ? & ? & ? & ? & Hall1 & ?); split; [done|].
      destruct (decide (e' = e)) as [->|Hee].
      * assert (d' = d) as -> by (by eapply tables_inj); rewrite lookup_insert_eq; eexists; split; [done|]; rewrite Hwd', Hdir'; done.
      * rewrite lookup_insert_ne by done; exists x'; do 5 (split; [done|]); split; [|done]; intros b'; rewrite Hother; [done|]; intros ->; congruence.
    + intros d' b' Hd'; rewrite who_forget, (t_none _ _ _ _ Ht) by done; done.
Qed.

(** A directory that is gone is lost when it is known; one that is back changes no watch. *)
Lemma tables_gone active lost m k d :
  tables active lost m k -> tables active (if observes d active then {[d]} ∪ lost else lost) m (dir_gone d k).
Proof.
  intros Ht; pose proof (gone_ok d k) as (Hw & Hu & _ & Hrem); split; [|apply (t_none _ _ _ _ Ht) | apply (t_wd _ _ _ _ Ht)|].
  - intros d' e Hd'; destruct (t_name _ _ _ _ Ht d' e Hd') as (? & x & ? & ? & ? & (Hwx & Hux & Hrx) & ?); split; [done|]; exists x; do 3 (split; [done|]).
    split; [|done]; rewrite Hu, Hrem; split; [|done]; assert (Ho : observes d' active = true) by (apply (known_observed _ _ _ _ d' Ht); eauto).
    destruct (decide (d' = d)) as [->|Hne].
    + rewrite Ho, decide_True by set_solver; destruct (watches (dir_gone d k) !! wd x) as [d2|] eqn:E; [|done].
      apply Hw in E as [E ?]; rewrite Hwx in E; case_decide; congruence.
    + assert (Hiff : d' ∈ (if observes d active then {[d]} ∪ lost else lost) <-> d' ∈ lost) by (destruct (observes d active); set_solver).
      rewrite (decide_ext _ _ _ _ Hiff); destruct (decide (d' ∈ lost)); [|by apply Hw].
      destruct (watches (dir_gone d k) !! wd x) as [d2|] eqn:E; [|done]; apply Hw in E as [E ?]; congruence.
  - intros w d' Hwd; apply Hw in Hwd as [Hwd _]; by apply (t_kernel _ _ _ _ Ht).
Qed.
Lemma tables_back active lost m k d : tables active lost m k -> tables active lost m (dir_back d k).
Proof.
  intros Ht; pose proof (back_ok d k) as (Hw & Hu & _ & Hrem); split; [|apply (t_none _ _ _ _ Ht) | apply (t_wd _ _ _ _ Ht) | rewrite Hw; apply (t_kernel _ _ _ _ Ht)].
  intros d' e Hd'; destruct (t_name _ _ _ _ Ht d' e Hd') as (? & x & ? & ? & ? & (? & ? & ?) & ?); split; [done|]; exists x; rewrite Hw, Hu, Hrem; done.
Qed.
End Tables.

(** ** Commands *)

(** A list of commands that uses no cookie after its end: [ck] are the cookies, [seen] those
    that were observed. *)
Fixpoint legal (ck : gset nat) (seen : list nat) (l : list MonitorCommand) : Prop :=
  match l with
  | [] => True
  | CmdObserve c :: l => c ∈ ck /\ c ∉ seen /\ legal ck (c :: seen) l
  | CmdForget c :: l => c ∈ ck /\ legal (ck ∖ {[c]}) seen l
  end.

Lemma legal_mono l : forall ck ck' seen seen', ck ⊆ ck' -> seen' ⊆ seen -> legal ck seen l -> legal ck' seen' l.
Proof.
  induction l as [|[c|c] l IH]; intros ck ck' seen seen' Hck Hs; cbn; [done| |].
  - intros (? & ? & Hl); split_and!; [set_solver | set_solver|]; eapply IH; [exact Hck| |exact Hl]; set_solver.
  - intros (? & Hl); split; [set_solver|]; eapply IH; [| |exact Hl]; set_solver.
Qed.

Lemma legal_observe l c : forall ck seen, legal ck seen l -> c ∈ ck -> c ∉ seen -> CmdForget c ∉ l -> CmdObserve c ∉ l -> legal ck seen (l ++ [CmdObserve c]).
Proof.
  induction l as [|[x|x] l IH]; intros ck seen; cbn; [tauto| |]; rewrite !not_elem_of_cons.
  - intros (? & ? & Hl) ? ? [? ?] [Hx ?]; split_and!; try done; apply IH; try done; set_solver.
  - intros (? & Hl) ? ? [Hx ?] [? ?]; split; [done|]; apply IH; try done; set_solver.
Qed.

Lemma legal_forget l c : forall ck seen, legal ck seen l -> c ∈ ck -> CmdForget c ∉ l -> legal ck seen (l ++ [CmdForget c]).
Proof.
  induction l as [|[x|x] l IH]; intros ck seen; cbn; [tauto| |]; rewrite !not_elem_of_cons.
  - intros (? & ? & Hl) ? [? ?]; split_and!; try done; by apply IH.
  - intros (? & Hl) ? [Hx ?]; split; [done|]; apply IH; try done; set_solver.
Qed.

Lemma legal_in l : forall ck seen c, legal ck seen l -> CmdObserve c ∈ l \/ CmdForget c ∈ l -> c ∈ ck.
Proof.
  induction l as [|[x|x] l IH]; intros ck seen c; cbn; [intros _ []; set_solver| |]; rewrite !elem_of_cons.
  - intros (? & _ & Hl) [[[= ->]|?]|[?|?]]; try done; by eapply IH; [exact Hl|]; auto.
  - intros (? & Hl) [[?|?]|[[= ->]|?]]; try done; assert (c ∈ ck ∖ {[x]}) by (eapply IH; eauto); set_solver.
Qed.

Section Simulation.
Context {K : Type} `{InotifyOk K}.

(** How many watches a list of commands makes at most. *)
Definition observations : list MonitorCommand -> nat := sum_list_with (fun x => match x with CmdObserve _ => 1%nat | CmdForget _ => 0%nat end).

Lemma process_all_ok can paths l : forall active lost m (k : K),
  tables active lost m k -> lost_ok active lost -> (forall d, can d = watchable k d) -> Z.of_nat (size (used k) + observations l) <= max_watches ->
  legal (dom (cookies m)) active.*1 l -> cookies m ⊆ paths -> (forall c p, (c, p) ∈ active -> cookies m !! c = Some p) ->
  exists m' k' active' lost', process_all l m k = Some (m', k') /\ foldl (spec_command can paths) (active, lost) l = (active', lost') /\
    next_cookie m' = next_cookie m /\ cmds_ m' = cmds_ m /\ running m' = running m /\
    (forall c p, cookies m' !! c = Some p <-> cookies m !! c = Some p /\ CmdForget c ∉ l) /\
    (forall c p, (c, p) ∈ active' -> cookies m' !! c = Some p) /\
    (tables active' lost' m' k' /\ lost_ok active' lost' /\ (forall d, can d = watchable k' d) /\ (size (used k') <= size (used k) + observations l)%nat).
Proof.
  induction l as [|[c|c] l IH]; intros active lost m k Ht Hlo Hcan Hroom Hl Hp Ha; cbn [process_all foldl].
  - exists m, k, active, lost; do 5 (split; [done|]); split; [intros c p; set_solver|]; split; [done|]; do 3 (split; [done|]); lia.
  - destruct Hl as (Hc & Hs & Hl); apply elem_of_dom in Hc as [p Hc]; cbn [process].
    assert (Hobs : observations (CmdObserve c :: l) = S (observations l)) by done; rewrite Hobs in *.
    destruct (tables_observe active lost m k c p Ht Hlo ltac:(lia) Hc) as (m1 & k1 & -> & Hck & Hn & Hcm & Hr & Hcan1 & Hsz & Ht1); cbn [mbind option_bind spec_command].
    rewrite (lookup_weaken _ _ _ _ Hc Hp), Hcan; set (new := observes _ active || watchable k _) in *.
    set (active1 := if new then active ++ [(c, p)] else active) in *.
    replace (if new then (active ++ [(c, p)], lost) else (active, lost)) with (active1, lost) by (unfold active1; by destruct new).
    destruct (IH active1 lost m1 k1 Ht1) as (m2 & k2 & active2 & lost2 & He & Hf & Hn2 & Hc2 & Hr2 & Hck2 & Ha2 & Ht2 & Hlo2 & Hcan2 & Hsz2).
    + intros d Hd; unfold active1; destruct new; [rewrite observes_app, (Hlo d Hd); done | by apply Hlo].
    + intros d; by rewrite Hcan1.
    + lia.
    + rewrite Hck; eapply legal_mono; [done| |exact Hl]; unfold active1; destruct new; [rewrite fmap_app; cbn|]; set_solver.
    + by rewrite Hck.
    + rewrite Hck; intros x q; unfold active1; destruct new; [|apply Ha]; intros [?|Hx%list_elem_of_singleton]%elem_of_app; [by apply Ha|]; by injection Hx as -> ->.
    + exists m2, k2, active2, lost2; do 2 (split; [done|]); do 3 (split; [congruence|]); split; [|split; [done|]; do 3 (split; [done|]); lia].
      intros x q; rewrite Hck2, Hck, not_elem_of_cons; naive_solver.
  - destruct Hl as (Hc & Hl); apply elem_of_dom in Hc as [p Hc]; cbn [process].
    assert (Hobs : observations (CmdForget c :: l) = observations l) by done; rewrite Hobs in *.
    destruct (tables_forget active lost m k c p Ht Hc) as (m1 & k1 & -> & Hck & Hn & Hcm & Hr & Hcan1 & Hu1 & Ht1); [intros q Hq; apply Ha in Hq; congruence|].
    apply tables_prune in Ht1; cbn [mbind option_bind spec_command].
    destruct (IH _ _ m1 k1 Ht1) as (m2 & k2 & active2 & lost2 & He & Hf & Hn2 & Hc2 & Hr2 & Hck2 & Ha2 & Ht2 & Hlo2 & Hcan2 & Hsz2).
    + by intros d [Hd _]%elem_of_filter.
    + intros d; by rewrite Hcan1.
    + rewrite Hu1; lia.
    + rewrite Hck, dom_delete_L; eapply legal_mono; [done| |exact Hl]; intros x (q & -> & Hq)%list_elem_of_fmap; apply list_elem_of_filter in Hq as [_ Hq].
      apply list_elem_of_fmap; by exists q.
    + rewrite Hck; etrans; [apply delete_subseteq | done].
    + rewrite Hck; intros x q Hx; apply list_elem_of_filter in Hx as [Hne Hx]; cbn in Hne; rewrite lookup_delete_ne by done; by apply Ha.
    + exists m2, k2, active2, lost2; do 2 (split; [done|]); do 3 (split; [congruence|]); split; [|split; [done|]; do 3 (split; [done|]); rewrite Hu1 in Hsz2; lia].
      intros x q; rewrite Hck2, Hck, not_elem_of_cons, lookup_delete_Some; naive_solver.
Qed.

(** Events of a directory call the observers of its files. *)
Lemma on_event_ok active lost m (k : K) d mask name w :
  tables active lost m k -> (forall c p, (c, p) ∈ active -> cookies m !! c = Some p) -> event_wd d k = Some w -> name <> [] ->
  on_event w mask name m = Some (observers active d mask name) /\ 0 <= w < 2 ^ 24 /\ d ∉ lost.
Proof.
  intros Ht Ha Hw Hn; apply event_wd_ok in Hw; destruct (t_kernel _ _ _ _ Ht _ _ Hw) as (Hr & e & x & He & Hd & Hx & Hwx).
  destruct (t_name _ _ _ _ Ht _ _ Hd) as (_ & x' & Hx' & _ & _ & (Hk & _) & _ & Hall & Hnil); rewrite Hx in Hx'; injection Hx' as <-.
  split; [|split; [done|]; rewrite Hwx, Hw in Hk; by case_decide].
  unfold on_event; destruct name as [|b name]; [done|]; rewrite He; cbn [mbind option_bind]; rewrite Hx; cbn [mbind option_bind].
  specialize (Hall (b :: name)); destruct (entries x !! (b :: name)) as [l|]; cbn in Hall; unfold observers, who in *; [subst l | by rewrite (fmap_nil_inv _ _ (eq_sym Hall))].
  assert (Hall : Forall (fun q : nat * bytes => cookies m !! q.1 = Some q.2) (filter (fun q : nat * bytes => GetDirAndBasename q.2 = (d, b :: name)) active)).
  { apply list.Forall_forall; intros [c p] Hq; apply list_elem_of_filter in Hq as [_ Hq]; by apply Ha. }
  induction Hall as [|[c p] l Hc _ IH]; [done|]; rewrite !fmap_cons; cbn [mapM]; cbn in Hc; cbn [fst snd]; rewrite Hc; cbn; by rewrite IH.
Qed.

(** An event of a descriptor that was removed calls nobody, whatever its name. *)
Lemma on_late_event active lost m (k : K) w mask name : tables active lost m k -> was_removed w k = true -> on_event w mask name m = Some [].
Proof.
  intros Ht Hr; unfold on_event; destruct name; [done|]; destruct (wd_entry_map_ m !! w) as [e|] eqn:E; [|done].
  destruct (t_wd _ _ _ _ Ht _ _ E) as (d & x & Hd & Hx & <-); destruct (t_name _ _ _ _ Ht _ _ Hd) as (_ & x' & Hx' & _ & _ & (_ & _ & Hr') & _); congruence.
Qed.

(** Nor does one whose name is shorter than those of the observed files. *)
Lemma on_short_event active lost m (k : K) w mask name :
  tables active lost m k -> Forall (fun q : nat * bytes => (4 <= length (GetDirAndBasename q.2).2)%nat) active -> (length name <= 3)%nat ->
  on_event w mask name m = Some [].
Proof.
  intros Ht Hlong Hn; unfold on_event; destruct name as [|b name]; [done|]; destruct (wd_entry_map_ m !! w) as [e|] eqn:E; [|done].
  destruct (t_wd _ _ _ _ Ht _ _ E) as (d & x & Hd & Hx & _); rewrite Hx; cbn [mbind option_bind].
  destruct (t_name _ _ _ _ Ht _ _ Hd) as (_ & x' & Hx' & _ & _ & _ & _ & Hall & Hnil); rewrite Hx in Hx'; injection Hx' as <-.
  specialize (Hall (b :: name)); destruct (entries x !! (b :: name)) as [l|] eqn:El; [|done]; cbn in Hall.
  destruct (filter (fun q : nat * bytes => GetDirAndBasename q.2 = (d, b :: name)) active) as [|q r] eqn:Ef; [unfold who in Hall; rewrite Ef in Hall; subst l; by destruct (Hnil (b :: name))|].
  assert (Hq : q ∈ filter (fun q : nat * bytes => GetDirAndBasename q.2 = (d, b :: name)) active) by (rewrite Ef; by left).
  apply list_elem_of_filter in Hq as [Hq Hin]; rewrite list.Forall_forall in Hlong; specialize (Hlong q Hin); rewrite Hq in Hlong; cbn in Hlong, Hn; lia.
Qed.

(** The name that is read for an event without one. *)
Lemma c_string_descriptor w rest : 0 <= w < 2 ^ 24 -> (length (c_string (le_bytes 4 w ++ rest)) <= 3)%nat.
Proof.
  intros Hw; cbn [le_bytes app]; assert (H3 : (w / 256 / 256 / 256) mod 256 = 0) by (rewrite !Z.div_div by lia; rewrite Z.div_small by lia; done).
  rewrite H3; generalize (w mod 256), ((w / 256) mod 256), ((w / 256 / 256) mod 256); intros a b c.
  cbn; destruct (a =? 0), (b =? 0), (c =? 0); cbn; lia.
Qed.
Lemma events_of_cons x l (k : K) : events_of (x :: l) k = event_of k x ++ events_of l k.
Proof. done. Qed.
Lemma event_of_cases active lost m (k : K) x :
  tables active lost m k -> change_ok x ->
  event_of k x = [] \/ exists w mask name, event_of k x = encode w mask name /\ 0 <= w < 2 ^ 24 /\ 0 <= mask < 2 ^ 32 /\ (length name < 256)%nat.
Proof.
  intros Ht Hx; destruct x as [d mask name|w mask|w mask name]; cbn in *.
  - destruct (event_wd d k) as [w|] eqn:Hw; [right|by left]; apply event_wd_ok in Hw; destruct (t_kernel _ _ _ _ Ht _ _ Hw) as [? _]; exists w, mask, name; naive_solver.
  - right; exists w, mask, []; cbn; split_and!; (done || lia).
  - destruct (was_removed w k); [right; exists w, mask, name; naive_solver | by left].
Qed.
Lemma next_name active lost m (k : K) l : tables active lost m k -> Forall change_ok l -> (length (c_string (events_of l k)) <= 3)%nat.
Proof.
  intros Ht; induction 1 as [|x l Hx _ IH]; [cbn; lia|]; rewrite events_of_cons; destruct (event_of_cases _ _ _ k x Ht Hx) as [-> | (w & mask & name & -> & Hw & _)]; [done|].
  unfold encode; rewrite <- !(assoc_L (++)); by apply c_string_descriptor.
Qed.

Lemma event_loop_ok active lost m (k : K) l : forall fuel,
  tables active lost m k -> (forall c p, (c, p) ∈ active -> cookies m !! c = Some p) -> Forall change_ok l -> names_apart l active ->
  (length (events_of l k) <= fuel)%nat -> event_loop fuel (events_of l k) m = Some (l ≫= called active lost).
Proof.
  intros fuel Ht Ha Hl; revert fuel; induction Hl as [|x l Hx Hl IH]; intros fuel Hap Hf; [by destruct fuel|].
  assert (Hap' : names_apart l active) by (intros Hn; apply Hap; cbn; rewrite Hn; apply orb_true_r).
  rewrite bind_cons; rewrite events_of_cons in Hf |- *; rewrite length_app in Hf.
  assert (Hstep : forall w mask name new, 0 <= w < 2 ^ 24 -> 0 <= mask < 2 ^ 32 -> (length name < 256)%nat -> event_of k x = encode w mask name ->
    on_event w mask (c_string (name ++ repeat 0 (padding name) ++ events_of l k)) m = Some new ->
    event_loop fuel (event_of k x ++ events_of l k) m = Some (new ++ (l ≫= called active lost))).
  { intros w mask name new Hw Hm Hn He Hon; rewrite He, encode_length in Hf; rewrite He; destruct fuel as [|fuel]; [lia|].
    rewrite event_loop_encode by done; rewrite Hon; cbn [mbind option_bind]; by rewrite IH by (done || lia). }
  destruct x as [d mask name|w mask|w mask name]; cbn [event_of called] in *.
  - destruct Hx as (Hn & Hz & Hm & Hlen); destruct (event_wd d k) as [w|] eqn:Hw.
    + destruct (on_event_ok active lost m k d mask name w Ht Ha Hw Hn) as (He & Hr & Hlost); rewrite decide_False by done.
      apply (Hstep w mask name); try done; destruct (padding_pos name Hn) as [n ->]; by rewrite c_string_name.
    + rewrite app_nil_l in *; cbn in Hf; rewrite IH by done; assert (Hno : (if decide (d ∈ lost) then [] else observers active d mask name) = []); [|by rewrite Hno].
      case_decide as Hdl; [done|]; assert (Hd : name_entry_map_ m !! d = None).
      { destruct (name_entry_map_ m !! d) as [e|] eqn:E; [|done]; destruct (t_name _ _ _ _ Ht _ _ E) as (_ & y & _ & _ & _ & (Hk & _) & _).
        rewrite decide_False in Hk by done; apply event_wd_watched in Hk as [? ?]; congruence. }
      unfold observers; pose proof (t_none _ _ _ _ Ht d name Hd) as Hwho; unfold who in Hwho; by apply fmap_nil_inv in Hwho as ->.
  - destruct Hx as [Hw Hm]; apply (Hstep w mask []); try done; [cbn; lia|]; apply (on_short_event active lost m k); [done | by apply Hap|].
    by apply (next_name active lost m k).
  - destruct Hx as (Hw & Hm & Hn); destruct (was_removed w k) eqn:Hr; [|rewrite app_nil_l in *; cbn in Hf; by apply IH].
    apply (Hstep w mask name); try done; by apply (on_late_event active lost m k).
Qed.

Record simulates (s : spec) (w : world K) : Prop := {
  m_cmds : cmds_ (monitor w) = sp_pending s;
  m_next : next_cookie (monitor w) = sp_next s;
  m_running : running (monitor w) = true;
  m_paths : cookies (monitor w) ⊆ sp_paths s;
  m_active : forall c p, (c, p) ∈ sp_active s -> cookies (monitor w) !! c = Some p;
  m_legal : legal (dom (cookies (monitor w))) (sp_active s).*1 (sp_pending s);
  m_live : forall c, c ∈ sp_live s -> c ∈ dom (cookies (monitor w)) /\ CmdForget c ∉ sp_pending s;
  m_fresh : forall c, c ∈ dom (cookies (monitor w)) -> (c < sp_next s)%nat;
  m_tables : tables (sp_active s) (sp_lost s) (monitor w) (kernel w);
  m_lost : lost_ok (sp_active s) (sp_lost s);
  m_can : forall d, sp_can s d = watchable (kernel w) d;
  m_room : (size (used (kernel w)) + observations (sp_pending s) <= sp_next s)%nat /\ Z.of_nat (sp_next s) <= max_watches;
  m_calls : calls w = sp_calls s
}.

Lemma observations_app l1 l2 : observations (l1 ++ l2) = (observations l1 + observations l2)%nat.
Proof. apply sum_list_with_app. Qed.

(** The tables do not depend on the queue and on the cookies. *)
Lemma tables_same active lost m m' (k : K) :
  tables active lost m k -> heap m' = heap m -> next_entry m' = next_entry m -> name_entry_map_ m' = name_entry_map_ m -> wd_entry_map_ m' = wd_entry_map_ m ->
  tables active lost m' k.
Proof. intros [H1 H2 H3 H4] Hh He Hn Hw; split; rewrite ?Hh, ?He, ?Hn, ?Hw; done. Qed.

Lemma simulates_observe s w p : simulates s w -> Z.of_nat (sp_next s) < max_watches -> exists w', step (OpObserve (Some p)) w = Some w' /\
  simulates (mkSpec (S (sp_next s)) (<[sp_next s := p]> (sp_paths s)) (sp_pending s ++ [CmdObserve (sp_next s)]) (sp_active s) (sp_lost s) (sp_can s)
    ({[sp_next s]} ∪ sp_live s) (sp_calls s)) w'.
Proof.
  intros [Hc Hn Hr Hp Ha Hl Hv Hf Ht Hlo Hcan Hroom Hca] Hmax; unfold step, Observe; rewrite Hr; cbn [negb snd]; eexists; split; [done|]; rewrite Hn, Hc.
  assert (Hnew : sp_next s ∉ dom (cookies (monitor w))) by (intros Hin; apply Hf in Hin; lia).
  assert (Hnot : forall x, x = CmdObserve (sp_next s) \/ x = CmdForget (sp_next s) -> x ∉ sp_pending s).
  { intros x Hx Hin; apply Hnew; eapply legal_in; [exact Hl|]; destruct Hx as [->| ->]; auto. }
  split; cbn [monitor kernel calls cmds_ cookies next_cookie running sp_next sp_paths sp_pending sp_active sp_lost sp_can sp_live sp_calls]; try done.
  - by apply insert_mono.
  - intros c q Hq; rewrite lookup_insert_ne; [by apply Ha|]; intros <-; apply Hnew, elem_of_dom; eauto.
  - rewrite dom_insert_L; apply legal_observe; [|set_solver| |apply Hnot; auto | apply Hnot; auto].
    + eapply legal_mono; [| |exact Hl]; set_solver.
    + intros ([c q] & Hcq & Hq)%list_elem_of_fmap; cbn in Hcq; subst c; apply Hnew, elem_of_dom; eauto.
  - intros c [Hcs|Hcs]%elem_of_union; rewrite dom_insert_L, not_elem_of_app.
    + apply elem_of_singleton in Hcs as ->; split; [set_solver|]; split; [apply Hnot; auto | set_solver].
    + destruct (Hv c Hcs); split; [set_solver|]; split; [done | set_solver].
  - rewrite dom_insert_L; intros c [->%elem_of_singleton|Hin]%elem_of_union; [lia|]; apply Hf in Hin; lia.
  - by eapply tables_same.
  - rewrite observations_app; change (observations [CmdObserve (sp_next s)]) with 1%nat; lia.
Qed.

Lemma simulates_forget s w c : simulates s w -> c ∈ sp_live s -> exists w', step (OpForget c) w = Some w' /\
  simulates (mkSpec (sp_next s) (sp_paths s) (sp_pending s ++ [CmdForget c]) (sp_active s) (sp_lost s) (sp_can s) (sp_live s ∖ {[c]}) (sp_calls s)) w'.
Proof.
  intros [] Hc; unfold step, Forget; rewrite m_running0; cbn [negb]; eexists; split; [done|]; destruct (m_live0 c Hc) as [Hd Hnf]; split; cbn; try done.
  - by rewrite m_cmds0.
  - by apply legal_forget.
  - intros c' [Hc' Hne]%elem_of_difference; destruct (m_live0 c' Hc'); split; [done|]; rewrite not_elem_of_app; split; [done|]; set_solver.
  - by eapply tables_same.
  - rewrite observations_app; change (observations [CmdForget c]) with 0%nat; lia.
Qed.

Lemma simulates_commands s s' w : simulates s w -> spec_step OpCommands s = Some s' -> exists w', step OpCommands w = Some w' /\ simulates s' w'.
Proof.
  intros [] Hs; unfold step, ProcessCommand; rewrite m_cmds0; cbn [spec_step] in Hs.
  destruct (process_all_ok (sp_can s) (sp_paths s) (sp_pending s) (sp_active s) (sp_lost s) (with_cmds [] (monitor w)) (kernel w))
    as (m' & k' & active & lost & -> & Hf & Hn & Hcm & Hr & Hck & Ha & Ht & Hlo & Hcan & Hsz); try done; [by eapply tables_same | lia|].
  rewrite Hf in Hs; injection Hs as <-; cbn [mbind option_bind]; eexists; split; [done|]; split; cbn in *; try done; try congruence.
  - apply map_subseteq_spec; intros c p Hc; apply Hck in Hc as [Hc _]; by eapply lookup_weaken.
  - intros c Hc; destruct (m_live0 c Hc) as [Hd Hnf]; split; [|set_solver]; apply elem_of_dom in Hd as [p Hd]; apply elem_of_dom; exists p; by apply Hck.
  - intros c [p Hc]%elem_of_dom; apply Hck in Hc as [Hc _]; apply m_fresh0, elem_of_dom; eauto.
  - lia.
Qed.

Lemma simulates_step s s' w x : simulates s w -> spec_step x s = Some s' -> exists w', step x w = Some w' /\ simulates s' w'.
Proof.
  intros Hs; destruct x as [[p|]|c| |l|d|d]; [cbn [spec_step].. | apply simulates_commands | cbn [spec_step] | | ]; try done.
  - case_decide; [|done]; intros [= <-]; by apply simulates_observe.
  - intros [= <-]; exists w; split; [|done]; unfold step, Observe; rewrite (m_running _ _ Hs); by destruct w.
  - case_decide as Hc; [|done]; intros [= <-]; by apply simulates_forget.
  - case_decide as Hl; [|done]; intros [= <-]; destruct Hl as [Hl Hap], Hs; unfold step, ProcessInotify; rewrite (event_loop_ok (sp_active s) (sp_lost s)) by done.
    cbn [mbind option_bind]; eexists; split; [done|]; split; cbn; try done; by rewrite m_calls0.
  - intros [= <-]; destruct Hs; eexists; split; [done|]; pose proof (gone_ok d (kernel w)) as (_ & Hu & Hcan & _); split; cbn; try done.
    + by apply tables_gone.
    + intros d' Hd'; destruct (observes d (sp_active s)) eqn:Ho; [apply elem_of_union in Hd' as [->%elem_of_singleton|]; auto | by apply m_lost0].
    + intros d'; by rewrite Hcan, m_can0.
    + by rewrite Hu.
  - intros [= <-]; destruct Hs; eexists; split; [done|]; pose proof (back_ok d (kernel w)) as (_ & Hu & Hcan & _); split; cbn; try done.
    + by apply tables_back.
    + intros d'; by rewrite Hcan, m_can0.
    + by rewrite Hu.
Qed.

Lemma simulates_run l : forall s s' w, simulates s w -> spec_run l s = Some s' -> exists w', run l w = Some w' /\ simulates s' w'.
Proof.
  induction l as [|x l IH]; intros s s' w Hs; cbn [spec_run run]; [intros [= <-]; eauto|].
  destruct (spec_step x s) as [s1|] eqn:E; [|done]; cbn [mbind option_bind]; destruct (simulates_step _ _ _ _ Hs E) as (w1 & -> & H1); cbn [mbind option_bind]; by apply IH.
Qed.
End Simulation.

(** C30: files are observed and forgotten, the worker processes commands and reads events, and
    directories are deleted and made again, in any order; the kernel keeps the promises of
    [InotifyOk].  Then the worker uses no cookie and no entry after its deletion and reads the
    buffer within its bounds; for each change of a file it calls exactly the observers that the
    specification, a list of files, has when it reads the event, in the order in which they came,
    unless the directory was gone since: then it calls nobody for that directory until all its
    files are forgotten; and for late events of a watch that it has removed and for events
    without a name it calls nobody.  The conditions on a history: each cookie is forgotten at
    most once, there are fewer than 2^24 observations, the changes of a directory are read before
    it is gone, no watched directory is renamed and the queue of the kernel does not overflow,
    names of changed files are not empty, have no zero byte and fewer than 256 bytes, and where an
    event without a name is read, all observed files have names of four or more bytes. *)
Theorem observers_are_called {K} `{InotifyOk K} (k : K) ops s :
  watches k = ∅ -> used k = ∅ -> spec_run ops (new_spec (watchable k)) = Some s ->
  exists w, run ops (mkWorld (with_running true new_FileMonitor) k []) = Some w /\ calls w = sp_calls s.
Proof.
  intros Hk Hu Hs; destruct (simulates_run ops (new_spec (watchable k)) s (mkWorld (with_running true new_FileMonitor) k [])) as (w & Hr & Hw); [|done|exists w; split; [done | apply Hw]].
  split; cbn [monitor kernel calls cmds_ cookies next_cookie running sp_next sp_paths sp_pending sp_active sp_lost sp_can sp_live sp_calls new_spec with_running new_FileMonitor];
    try done; try (intros ?; rewrite dom_empty_L); try set_solver; try (intros ? ? []%not_elem_of_nil).
  - split; cbn; try done; intros w d; by rewrite Hk, lookup_empty.
  - rewrite Hu, size_empty; change (observations []) with 0%nat; unfold max_watches; lia.
Qed.

(** A kernel that watches the directories that exist, here /d and /e at first. *)
Record toy : Type := mkToy { toy_watches : gmap Z bytes; toy_next : nat; toy_dirs : list bytes; toy_removed : gset Z }.
Definition dir_d : bytes := [47; 100].
Definition dir_e : bytes := [47; 101].
Definition toy_used (k : toy) : gset Z := list_to_set (Z.of_nat <$> seq 0 (toy_next k)).
Arguments toy_used : simpl never.
#[local] Instance toy_inotify : Inotify toy := {
  inotify_add_watch d k :=
    if bool_decide (d ∈ toy_dirs k) then
      let w := Z.of_nat (toy_next k) in
      (w, mkToy (<[w := d]> (toy_watches k)) (S (toy_next k)) (toy_dirs k) (toy_removed k ∖ {[w]}))
    else (-1, k);
  inotify_rm_watch w k :=
    match toy_watches k !! w with
    | Some _ => (0, mkToy (delete w (toy_watches k)) (toy_next k) (toy_dirs k) ({[w]} ∪ toy_removed k))
    | None => (-1, k)
    end;
  event_wd d k := head (omap (fun x => if bool_decide (x.2 = d) then Some x.1 else None) (map_to_list (toy_watches k)));
  was_removed w k := bool_decide (w ∈ toy_removed k) && bool_decide (w ∈ toy_used k);
  dir_gone d k := mkToy (filter (fun x => x.2 <> d) (toy_watches k)) (toy_next k) (filter (fun x => x <> d) (toy_dirs k)) (toy_removed k);
  dir_back d k := mkToy (toy_watches k) (toy_next k) (d :: toy_dirs k) (toy_removed k)
}.
Lemma toy_size k : size (toy_used k) = toy_next k.
Proof.
  unfold toy_used; rewrite size_list_to_set, length_fmap, length_seq; [done|]; apply NoDup_fmap; [|apply NoDup_ListNoDup, seq_NoDup]; intros x y; lia.
Qed.
Lemma toy_used_spec k w : w ∈ toy_used k <-> 0 <= w < Z.of_nat (toy_next k).
Proof.
  unfold toy_used; rewrite elem_of_list_to_set, list_elem_of_fmap; split.
  - intros (n & -> & Hn%elem_of_seq); lia.
  - intros Hw; exists (Z.to_nat w); rewrite elem_of_seq; lia.
Qed.
#[local] Instance toy_ok : InotifyOk toy.
Proof.
  refine {| watches := toy_watches; used := toy_used; watchable k d := bool_decide (d ∈ toy_dirs k) |}.
  - intros d k Hroom; rewrite toy_size in Hroom; cbn; destruct (bool_decide (d ∈ toy_dirs k)) eqn:Hd; cbn; [|done].
    split; [done|]; split.
    + intros w; rewrite !andb_true_iff, !bool_decide_eq_true, elem_of_difference, not_elem_of_singleton, !toy_used_spec; cbn; intros [[? ?] ?]; split; [done | lia].
    + split; [lia|]; split; [done|]; split; [apply set_eq; intros w; rewrite elem_of_union, !toy_used_spec, elem_of_singleton; cbn; lia|].
      right; rewrite toy_used_spec; lia.
  - intros wd k; cbn; destruct (toy_watches k !! wd) eqn:E; cbn; split_and!; try done; [|by rewrite delete_id | auto].
    intros w; rewrite !andb_true_iff, !bool_decide_eq_true, elem_of_union, elem_of_singleton; change (toy_used (mkToy _ _ _ _)) with (toy_used k); tauto.
  - intros d k; cbn; split_and!; try done.
    + intros w d'; rewrite map_lookup_filter_Some; done.
    + intros d'; rewrite <- bool_decide_not, <- bool_decide_and; apply bool_decide_ext; rewrite list_elem_of_filter; tauto.
  - intros d k; cbn; split_and!; try done; intros d'; rewrite <- bool_decide_or; apply bool_decide_ext; rewrite elem_of_cons; tauto.
  - intros w k; cbn; rewrite andb_true_iff, !bool_decide_eq_true; tauto.
  - intros d k wd; cbn; intros Hh; apply head_Some_elem_of, list_elem_of_omap in Hh as ([w d'] & Hin & Hx); cbn in Hx; case_bool_decide; [|done].
    injection Hx as ->; subst d'; by apply elem_of_map_to_list.
  - intros d k wd Hw; cbn; apply elem_of_map_to_list in Hw.
    destruct (omap _ (map_to_list (toy_watches k))) as [|y l] eqn:E; [|cbn; eauto].
    exfalso; apply (not_elem_of_nil wd); rewrite <- E; apply list_elem_of_omap; exists (wd, d); split; [done|]; cbn; by rewrite bool_decide_true.
Defined.

(** Files are observed and change; one is forgotten, so that a watch is removed and the event of
    that comes late; the other directory is deleted and made again, which the worker does not
    notice until its files are forgotten. *)
Definition file_x : bytes := dir_d ++ [47; 120; 46; 99; 99].
Definition file_y : bytes := dir_e ++ [47; 121; 46; 99; 99].
Definition toy_start : toy := mkToy ∅ 0 [dir_d; dir_e] ∅.
Definition some_ops : list op :=
  [OpObserve (Some file_x); OpObserve (Some file_y); OpObserve (Some file_x); OpCommands;
   OpChanges [Changed dir_d IN_MODIFY [120; 46; 99; 99]; Changed dir_e IN_DELETE [121; 46; 99; 99]]; OpForget 0; OpForget 1; OpCommands;
   OpChanges [Late 1 32768 []; Changed dir_d IN_CREATE [120; 46; 99; 99]; Changed dir_e IN_DELETE [121; 46; 99; 99]];
   OpGone dir_d; OpBack dir_d; OpChanges [Nameless 0 1024; Nameless 0 32768; Changed dir_d IN_CREATE [120; 46; 99; 99]];
   OpForget 2; OpObserve (Some file_x); OpCommands; OpChanges [Changed dir_d IN_MODIFY [120; 46; 99; 99]]].

Lemma observers_are_called_witness :
  exists w, run some_ops (mkWorld (with_running true new_FileMonitor) toy_start []) = Some w /\
    calls w = [(0%nat, file_x, Modify); (2%nat, file_x, Modify); (1%nat, file_y, Delete); (2%nat, file_x, Create); (3%nat, file_x, Modify)].
Proof.
  destruct (spec_run some_ops (new_spec (watchable toy_start))) as [s|] eqn:Hs; [|vm_compute in Hs; discriminate Hs].
  assert (Hk : watches toy_start = ∅) by (vm_compute; reflexivity).
  assert (Hu : used toy_start = ∅) by (vm_compute; reflexivity).
  destruct (observers_are_called toy_start some_ops s Hk Hu Hs) as (w & Hr & Hc); exists w; split; [exact Hr|]; rewrite Hc.
  assert (Hcalls : sp_calls <$> spec_run some_ops (new_spec (watchable toy_start)) =
    Some [(0%nat, file_x, Modify); (2%nat, file_x, Modify); (1%nat, file_y, Delete); (2%nat, file_x, Create); (3%nat, file_x, Modify)]) by (vm_compute; reflexivity).
  rewrite Hs in Hcalls; cbn in Hcalls; injection Hcalls as ->; reflexivity.
Defined.

(** ** What the conditions on histories exclude, and lost directories *)

Section Corners.
Context {K : Type} `{Inotify K}.

(** A cookie that is forgotten twice is used after its deletion. *)
Lemma forgotten_twice c m (k : K) l : process_all (CmdForget c :: CmdForget c :: l) m k = None.
Proof.
  cbn [process_all process]; destruct (ProcessForget c m k) as [[m1 k1]|] eqn:E; [|done]; cbn [mbind option_bind].
  assert (Hc : cookies m1 !! c = None); [|unfold ProcessForget; rewrite Hc; done].
  unfold ProcessForget in E; destruct (cookies m !! c) as [p|]; [|done]; cbn in E; destruct (GetDirAndBasename p) as [d b].
  destruct (name_entry_map_ m !! d) as [e|]; [|injection E as <- _; apply lookup_delete_eq].
  destruct (heap m !! e) as [x|]; [|done]; cbn in E; case_decide; [destruct (inotify_rm_watch _ _)|]; injection E as <- _; apply lookup_delete_eq.
Qed.

(** A directory that is known is not watched again, although the kernel drops its watch when
    the directory is deleted and no event changes the tables: the files of a directory that
    was made anew are observed without effect.  The specification calls it lost. *)
Lemma known_directory_not_watched_again c p m (k : K) e x :
  cookies m !! c = Some p -> name_entry_map_ m !! (GetDirAndBasename p).1 = Some e -> heap m !! e = Some x ->
  exists m', ProcessObserve c m k = Some (m', k) /\ wd_entry_map_ m' = wd_entry_map_ m.
Proof. intros Hc Hd Hx; unfold ProcessObserve; rewrite Hc; cbn; destruct (GetDirAndBasename p); cbn in *; rewrite Hd; cbn; rewrite Hx; eexists; done. Qed.
End Corners.

(** A start and a stop give the descriptors back; a start that fails after the first one
    leaves it open, and the next start forgets it. *)
Lemma stop_closes fd efd p :
  running (mon p) = false -> fd <> -1 -> efd <> -1 -> fd ∉ open_fds p -> efd ∉ open_fds p ->
  open_fds (Stop (Start fd efd 0 p).2) = open_fds p.
Proof.
  intros Hr Hf He Hin Hin'; unfold Start; rewrite Hr; destruct (Z.eqb_spec fd (-1)); [done|]; destruct (Z.eqb_spec efd (-1)); [done|].
  change (0 =? 0) with true; unfold Stop; cbn [running mon with_running negb open_fds inotify_fd_ epoll_fd_ snd]; rewrite !filter_cons_False by (cbn; tauto).
  clear -Hin Hin'; induction (open_fds p) as [|x l IH]; [done|]; apply not_elem_of_cons in Hin as [Hx Hin], Hin' as [Hx' Hin'].
  rewrite filter_cons_True by (split; congruence); f_equal; by apply IH.
Qed.
Lemma failed_start_leaks fd efd efd' fd' p :
  running (mon p) = false -> fd <> -1 -> fd' <> -1 -> efd' <> -1 -> fd <> fd' -> fd <> efd' -> efd = -1 ->
  fd ∈ open_fds (Stop (Start fd' efd' 0 (Start fd efd 0 p).2).2).
Proof.
  intros Hr Hf Hf' He' H1 H2 ->; unfold Start at 2; rewrite Hr; destruct (Z.eqb_spec fd (-1)); [done|]; cbn.
  unfold Start; cbn; rewrite Hr; destruct (Z.eqb_spec fd' (-1)); [done|]; destruct (Z.eqb_spec efd' (-1)); [done|].
  unfold Stop; cbn [running mon with_running negb open_fds inotify_fd_ epoll_fd_ snd]; apply list_elem_of_filter; split; [done|]; cbn; set_solver.
Qed.

(** The directory of a file of the root is the empty string, which is no directory. *)
Example root_directory_is_empty : GetDirAndBasename [47; 120] = ([], [120]).
Proof. reflexivity. Qed.

(** An event without a name, such as the one for a deleted directory, has no bytes for it; the
    name is read from the descriptor of the next event: here that is 65, and the observer of
    the file A of the first directory is called for no change of it. *)
Example nameless_event_calls_observer :
  let m := mkMonitor [] {[0%nat := dir_d ++ [47; 65]]} 1 {[0%nat := mkEntry 7 dir_d {[ [65] := [0%nat] ]}]} 1 {[dir_d := 0%nat]} {[7 := 0%nat]} true in
  ProcessInotify ((le_bytes 4 7 ++ le_bytes 4 1024 ++ le_bytes 4 0 ++ le_bytes 4 0) ++ encode 65 IN_MODIFY [98]) m = Some [(0%nat, dir_d ++ [47; 65], Other)].
Proof. vm_compute; reflexivity. Qed.
