(* ===== verification/Sync.v ===== *)
(** * Queues, waiters and checkers for threads: src/common

    [Queue] of queue.h, [Waiter] of waiter.h, [ThreadPool] of thread_pool.h and
    [ThreadRunningChecker] of thread_running_checker.cc.  A condition variable keeps the
    threads that are blocked and those that were woken and have not run since.  What a thread
    does while it holds a mutex is one step; a notification outside of a mutex, and a flag
    that is set outside of one, are steps of their own.  A thread may wake up for no reason. *)
From Stdlib Require Import ZArith Lia.
From stdpp Require Import base list option gmap.
From S2P Require Import Prelude.

(** ** Condition variables *)

Record cv (A : Type) : Type := mkCv { blocked : list A; woken : list A }.
Arguments mkCv {_} _ _.
Arguments blocked {_} _.
Arguments woken {_} _.

Section Condition.
Context {A : Type}.
Implicit Types c : cv A.
Definition new_cv : cv A := mkCv [] [].
Definition block (t : A) c : cv A := mkCv (t :: blocked c) (woken c).

(** [notify_one] wakes some blocked thread, [pick] says which. *)
Definition notify_one (pick : nat) c : cv A :=
  match blocked c !! pick with
  | Some t => mkCv (delete pick (blocked c)) (t :: woken c)
  | None => match blocked c with [] => c | t :: l => mkCv l (t :: woken c) end
  end.
Definition notify_all c : cv A := mkCv [] (blocked c ++ woken c).

(** A blocked thread that wakes up by itself; a woken thread that runs on. *)
Definition spurious (i : nat) c : option (cv A) :=
  t ← blocked c !! i; Some (mkCv (delete i (blocked c)) (t :: woken c)).
Definition resume (i : nat) c : option (A * cv A) :=
  t ← woken c !! i; Some (t, mkCv (blocked c) (delete i (woken c))).

(** Enough threads are woken for [n] things that threads wait for. *)
Definition served (n : nat) c : Prop := blocked c = [] \/ (n <= length (woken c))%nat.

Lemma served_mono n n' c : (n' <= n)%nat -> served n c -> served n' c.
Proof. intros Hn [Hb|Hw]; [by left | right; lia]. Qed.
Lemma served_notify_one n pick c : served n c -> served (S n) (notify_one pick c).
Proof.
  intros [Hb|Hw]; unfold notify_one; [rewrite Hb; cbn; by left|].
  destruct (blocked c !! pick) as [t|]; [right; cbn; lia|]; destruct (blocked c) as [|t l] eqn:E; [left; exact E | right; cbn; lia].
Qed.
Lemma served_notify_all n c : served n (notify_all c).
Proof. by left. Qed.
Lemma served_block t c : served 0 (block t c).
Proof. right; lia. Qed.
Lemma served_spurious n i c c' : spurious i c = Some c' -> served n c -> served n c'.
Proof.
  unfold spurious; destruct (blocked c !! i) as [t|] eqn:E; [|done]; intros [= <-] [Hb|Hw]; [by rewrite Hb in E | right; cbn; lia].
Qed.
Lemma resume_spec i c t c' : resume i c = Some (t, c') -> blocked c' = blocked c /\ length (woken c) = S (length (woken c')).
Proof.
  unfold resume; destruct (woken c !! i) as [x|] eqn:E; [|done]; intros [= -> <-]; cbn; split; [done|].
  rewrite length_delete by done; apply lookup_lt_Some in E; lia.
Qed.
Lemma served_resume n i c t c' : resume i c = Some (t, c') -> served (S n) c -> served n c'.
Proof. intros [Hb Hw]%resume_spec [H|H]; [left; congruence | right; lia]. Qed.
End Condition.
#[export] Hint Resolve served_notify_one served_notify_all served_block : sync.

(** ** The queue *)

Section Queue.
Context {T : Type}.

(** A thread that waits is in [Pop] or in [Front]. *)
Inductive waiting : Type := InPop (t : nat) | InFront (t : nat).
Record Queue : Type := mkQueue { buffer_ : list T; exit_ : bool; empty_condition_ : cv waiting }.
Definition new_Queue : Queue := mkQueue [] false new_cv.

(** What was done, in order. *)
Inductive action : Type :=
| Pushed (x : T) | PushedFront (x : T) | Popped (t : nat) (r : option T) | Seen (t : nat) (r : option T)
| Missed (t : nat) | Exited.

Definition Push (x : T) (pick : nat) (q : Queue) : Queue * list action :=
  (mkQueue (buffer_ q ++ [x]) (exit_ q) (notify_one pick (empty_condition_ q)), [Pushed x]).
Definition PushFront (x : T) (pick : nat) (q : Queue) : Queue * list action :=
  (mkQueue (x :: buffer_ q) (exit_ q) (notify_one pick (empty_condition_ q)), [PushedFront x]).

(** [Pop] and [Front] from the test of the loop on: at their beginning and after each wait. *)
Definition Pop (t : nat) (q : Queue) : Queue * list action :=
  match buffer_ q with
  | [] => if exit_ q then (q, [Popped t None]) else (mkQueue [] false (block (InPop t) (empty_condition_ q)), [])
  | x :: l => (mkQueue l (exit_ q) (empty_condition_ q), [Popped t (Some x)])
  end.
Definition Front (t : nat) (q : Queue) : Queue * list action :=
  match buffer_ q with
  | [] => if exit_ q then (q, [Seen t None]) else (mkQueue [] false (block (InFront t) (empty_condition_ q)), [])
  | x :: _ => (q, [Seen t (Some x)])
  end.
Definition TryPop (t : nat) (q : Queue) : Queue * list action :=
  match buffer_ q with
  | [] => (q, [Missed t])
  | x :: l => (mkQueue l (exit_ q) (empty_condition_ q), [Popped t (Some x)])
  end.
Definition Size (q : Queue) : nat := length (buffer_ q).
Definition Empty (q : Queue) : bool := match buffer_ q with [] => true | _ => false end.
Definition Exit (q : Queue) : Queue * list action := (mkQueue (buffer_ q) true (notify_all (empty_condition_ q)), [Exited]).
Definition Alive (q : Queue) : bool := negb (exit_ q).

Inductive event : Type :=
| EPush (x : T) (pick : nat) | EPushFront (x : T) (pick : nat) | EPop (t : nat) | EFront (t : nat) | ETryPop (t : nat)
| EExit | ESpurious (i : nat) | EResume (i : nat).

Definition step (e : event) (q : Queue) : option (Queue * list action) :=
  match e with
  | EPush x pick => Some (Push x pick q)
  | EPushFront x pick => Some (PushFront x pick q)
  | EPop t => Some (Pop t q)
  | EFront t => Some (Front t q)
  | ETryPop t => Some (TryPop t q)
  | EExit => Some (Exit q)
  | ESpurious i => c ← spurious i (empty_condition_ q); Some (mkQueue (buffer_ q) (exit_ q) c, [])
  | EResume i =>
      '(w, c) ← resume i (empty_condition_ q);
      let q := mkQueue (buffer_ q) (exit_ q) c in
      Some (match w with InPop t => Pop t q | InFront t => Front t q end)
  end.
Fixpoint run (l : list event) (q : Queue) : option (Queue * list action) :=
  match l with
  | [] => Some (q, [])
  | e :: l => '(q, a) ← step e q; '(q, a') ← run l q; Some (q, a ++ a')
  end.

(** *** A queue is a list *)

(** What the actions mean for a list and whether it was closed. *)
Inductive deque : action -> list T * bool -> list T * bool -> Prop :=
| d_push x l b : deque (Pushed x) (l, b) (l ++ [x], b)
| d_push_front x l b : deque (PushedFront x) (l, b) (x :: l, b)
| d_pop t x l b : deque (Popped t (Some x)) (x :: l, b) (l, b)
| d_pop_exit t : deque (Popped t None) ([], true) ([], true)
| d_seen t x l b : deque (Seen t (Some x)) (x :: l, b) (x :: l, b)
| d_seen_exit t : deque (Seen t None) ([], true) ([], true)
| d_missed t b : deque (Missed t) ([], b) ([], b)
| d_exit l b : deque Exited (l, b) (l, true).
Inductive deques : list action -> list T * bool -> list T * bool -> Prop :=
| ds_nil s : deques [] s s
| ds_cons a l s1 s2 s3 : deque a s1 s2 -> deques l s2 s3 -> deques (a :: l) s1 s3.
#[local] Hint Constructors deque deques : sync.

Lemma deques_app l1 l2 s1 s2 s3 : deques l1 s1 s2 -> deques l2 s2 s3 -> deques (l1 ++ l2) s1 s3.
Proof. induction 1; cbn; eauto with sync. Qed.

Definition contents (q : Queue) : list T * bool := (buffer_ q, exit_ q).

Lemma Pop_deques t q : deques (Pop t q).2 (contents q) (contents (Pop t q).1).
Proof. unfold Pop, contents; destruct q as [[|x l] [] c]; cbn; eauto with sync. Qed.
Lemma Front_deques t q : deques (Front t q).2 (contents q) (contents (Front t q).1).
Proof. unfold Front, contents; destruct q as [[|x l] [] c]; cbn; eauto with sync. Qed.

Lemma step_deques e q q' a : step e q = Some (q', a) -> deques a (contents q) (contents q').
Proof.
  destruct e as [x p|x p|t|t|t| |i|i]; cbn.
  - intros [= <- <-]; unfold contents; cbn; eauto with sync.
  - intros [= <- <-]; unfold contents; cbn; eauto with sync.
  - intros [= Hq]; pose proof (Pop_deques t q) as H; by rewrite Hq in H.
  - intros [= Hq]; pose proof (Front_deques t q) as H; by rewrite Hq in H.
  - unfold TryPop, contents; destruct q as [[|x l] b c]; cbn; intros [= <- <-]; cbn; eauto with sync.
  - intros [= <- <-]; unfold contents; cbn; eauto with sync.
  - destruct (spurious i _) as [c|]; [|done]; intros [= <- <-]; unfold contents; cbn; eauto with sync.
  - destruct (resume i _) as [[[t|t] c]|]; cbn; [| |done]; intros [= Hq].
    + pose proof (Pop_deques t (mkQueue (buffer_ q) (exit_ q) c)) as H; by rewrite Hq in H.
    + pose proof (Front_deques t (mkQueue (buffer_ q) (exit_ q) c)) as H; by rewrite Hq in H.
Qed.

Lemma run_deques l : forall q q' a, run l q = Some (q', a) -> deques a (contents q) (contents q').
Proof.
  induction l as [|e l IH]; cbn; intros q q' a; [intros [= <- <-]; eauto with sync|].
  destruct (step e q) as [[q1 a1]|] eqn:E; [|done]; cbn; destruct (run l q1) as [[q2 a2]|] eqn:E2; [|done]; cbn; intros [= <- <-].
  eapply deques_app; [by eapply step_deques | by apply IH].
Qed.

(** *** No thread is left behind *)

(** Nobody looks at the front: a thread that does may be woken for an item and leave it. *)
Definition takes (e : event) : bool := match e with EFront _ => false | _ => true end.
Definition pops (w : waiting) : Prop := match w with InPop _ => True | InFront _ => False end.

Record fair (q : Queue) : Prop := {
  f_served : served (length (buffer_ q)) (empty_condition_ q);
  f_exit : exit_ q = true -> blocked (empty_condition_ q) = [];
  f_pops : Forall pops (blocked (empty_condition_ q) ++ woken (empty_condition_ q))
}.

Lemma pops_notify_one pick (c : cv waiting) : Forall pops (blocked c ++ woken c) -> Forall pops (blocked (notify_one pick c) ++ woken (notify_one pick c)).
Proof.
  rewrite !Forall_app; intros [Hb Hw]; unfold notify_one; destruct (blocked c !! pick) as [t|] eqn:E; cbn.
  - split; [by apply Forall_delete|]; constructor; [|done]; by eapply Forall_lookup_1 in Hb.
  - destruct (blocked c) as [|t l] eqn:E'; cbn; [by rewrite E'|]; apply list.Forall_cons in Hb as [? ?]; split; [done | by constructor].
Qed.
Lemma exit_notify_one pick (c : cv waiting) : blocked c = [] -> blocked (notify_one pick c) = [].
Proof. intros Hb; unfold notify_one; rewrite Hb; cbn; done. Qed.

Lemma fair_pop t q : served (pred (length (buffer_ q))) (empty_condition_ q) -> (exit_ q = true -> blocked (empty_condition_ q) = []) ->
  Forall pops (blocked (empty_condition_ q) ++ woken (empty_condition_ q)) -> fair (Pop t q).1.
Proof.
  intros Hs He Hp; unfold Pop; destruct q as [[|x l] b c]; cbn in *; [destruct b; split; cbn; auto with sync; [done|] | by split; cbn].
  constructor; done.
Qed.

Lemma step_fair e q q' a : takes e = true -> step e q = Some (q', a) -> fair q -> fair q'.
Proof.
  destruct e as [x p|x p|t|t|t| |i|i]; intros Ht; cbn; try done; intros Hstep Hf; pose proof Hf as [Hs He Hp].
  - injection Hstep as <- _; split; cbn; [rewrite length_app, Nat.add_comm; cbn; auto with sync | | by apply pops_notify_one].
    intros Hb; by apply exit_notify_one, He.
  - injection Hstep as <- _; split; cbn; [auto with sync | | by apply pops_notify_one]; intros Hb; by apply exit_notify_one, He.
  - injection Hstep as Hq; replace q' with (Pop t q).1 by (by rewrite Hq); apply fair_pop; try done; eapply served_mono; [|done]; lia.
  - unfold TryPop in Hstep; destruct (buffer_ q) as [|x l] eqn:E; injection Hstep as <- _; [done|]; split; cbn; try done; eapply served_mono; [|exact Hs]; cbn; lia.
  - injection Hstep as <- _; split; cbn; [by left | done|]; exact Hp.
  - destruct (spurious i _) as [c|] eqn:E; [|done]; injection Hstep as <- _; split; cbn; [by eapply served_spurious | |].
    + intros Hb; apply He in Hb; unfold spurious in E; by rewrite Hb in E.
    + unfold spurious in E; destruct (blocked _ !! i) as [w|] eqn:Ew; [|done]; injection E as <-; cbn.
      rewrite Forall_app in Hp |- *; destruct Hp as [Hb Hw]; split; [by apply Forall_delete | constructor; [by eapply Forall_lookup_1 in Hb | done]].
  - destruct (resume i _) as [[w c]|] eqn:E; [|done]; cbn in Hstep; injection Hstep as Hq.
    pose proof E as [Hb Hl]%resume_spec; unfold resume in E; destruct (woken _ !! i) as [w'|] eqn:Ew; [|done]; injection E as -> <-; cbn in *.
    rewrite Forall_app in Hp; destruct Hp as [Hpb Hpw]; pose proof (Forall_lookup_1 _ _ _ _ Hpw Ew) as Hw; destruct w as [t|t]; [|done].
    set (q1 := mkQueue (buffer_ q) (exit_ q) (mkCv (blocked (empty_condition_ q)) (delete i (woken (empty_condition_ q))))) in *.
    replace q' with (Pop t q1).1 by (by rewrite Hq); apply fair_pop; cbn; [|done|].
    + destruct Hs as [Hs|Hs]; [by left | right; cbn; lia].
    + rewrite Forall_app; split; [done | by apply Forall_delete].
Qed.

Lemma run_fair l : forall q q' a, forallb takes l = true -> run l q = Some (q', a) -> fair q -> fair q'.
Proof.
  induction l as [|e l IH]; cbn; intros q q' a Ht Hr Hf; [by injection Hr as <- _|]; apply andb_true_iff in Ht as [He Ht].
  destruct (step e q) as [[q1 a1]|] eqn:E; [|done]; cbn in Hr; destruct (run l q1) as [[q2 a2]|] eqn:E2; [|done]; injection Hr as <- _.
  eapply IH; [done|done|]; by eapply step_fair.
Qed.

(** Each turn of a woken thread takes it from the woken ones. *)
Lemma step_resume q w l : woken (empty_condition_ q) = w :: l -> exists q' a, step (EResume 0) q = Some (q', a) /\ woken (empty_condition_ q') = l.
Proof.
  intros Hw; cbn; unfold resume; rewrite Hw; cbn; destruct w as [t|t]; unfold Pop, Front; destruct q as [[|x b] [] c]; cbn; eauto.
Qed.
Lemma run_resumes l : forall q, woken (empty_condition_ q) = l -> exists q' a, run (replicate (length l) (EResume 0)) q = Some (q', a) /\ woken (empty_condition_ q') = [].
Proof.
  induction l as [|w l IH]; intros q Hw; [by exists q, []|]; cbn [length replicate run].
  destruct (step_resume q w l Hw) as (q1 & a1 & -> & H1); destruct (IH q1 H1) as (q2 & a2 & H2 & H3); cbn; rewrite H2; cbn; eauto.
Qed.
End Queue.
Arguments Queue : clear implicits.
Arguments action : clear implicits.
Arguments event : clear implicits.

(** C32: the queue is a list for every interleaving of its threads: each item is popped once
    and what [Pop] and [TryPop] return is the first item at that time; [TryPop] fails only when
    the queue is empty, [Pop] only when it is empty and closed.  When nobody calls [Front], then as soon as the woken
    threads had their turns, a thread is blocked only if the queue is empty and open. *)
Theorem queue_serves_threads {T} (l : list (event T)) q log :
  run l new_Queue = Some (q, log) ->
  deques log ([], false) (contents q) /\
  (forallb takes l = true ->
   exists q' log', run (replicate (length (woken (empty_condition_ q))) (EResume 0)) q = Some (q', log') /\
     (blocked (empty_condition_ q') = [] \/ (buffer_ q' = [] /\ exit_ q' = false))).
Proof.
  intros Hr; split; [exact (run_deques _ _ _ _ Hr)|]; intros Ht.
  assert (Hf : fair q) by (eapply run_fair; [exact Ht | exact Hr|]; split; cbn; [by left | done | constructor]).
  destruct (run_resumes _ q eq_refl) as (q' & a & Hq & Hw); exists q', a; split; [done|].
  assert (Hf' : fair q') by (eapply run_fair; [|exact Hq | exact Hf]; clear; induction (length _); [done | exact IHn]).
  destruct Hf' as [[Hb|Hl] He _]; [by left|]; rewrite Hw in Hl; cbn in Hl; destruct (exit_ q') eqn:E; [left; by apply He|].
  right; split; [|done]; destruct (buffer_ q'); [done | cbn in Hl; lia].
Qed.

Definition some_events : list (event nat) := [EPop 1; EPop 2; EPush 7 1; ETryPop 3; EPush 8 0; EPushFront 9 5].
Lemma queue_serves_threads_witness :
  exists q log, run some_events new_Queue = Some (q, log) /\ length (woken (empty_condition_ q)) = 2 /\
    exists q' log', run (replicate 2 (EResume 0)) q = Some (q', log') /\ (blocked (empty_condition_ q') = [] \/ (buffer_ q' = [] /\ exit_ q' = false)).
Proof.
  destruct (run some_events new_Queue) as [[q log]|] eqn:E; [|by vm_compute in E]; exists q, log; split; [done|].
  assert (H2 : length (woken (empty_condition_ q)) = 2) by (vm_compute in E; injection E as <- _; done); split; [done|].
  destruct (queue_serves_threads _ q log E) as [_ H]; rewrite H2 in H; apply H; reflexivity.
Defined.

(** A thread in [Front] is woken for an item that it leaves in the queue: the thread that
    would take it sleeps on. *)
Example front_takes_the_wakeup :
  run [EPop 1; EFront 2; EPush 7 0; EResume 0] new_Queue = Some (mkQueue [7] false (mkCv [InPop 1] []), [Pushed 7; Seen 2 (Some 7)]).
Proof. reflexivity. Qed.

(** ** The thread pool *)

(** Workers that are about to call [GetTask], that run a task, that have returned; the calls of
    [Schedule] that still have to notify; what was scheduled, and the tasks that were run. *)
Record ThreadPool : Type := mkPool {
  tasks_ : list (option nat); stop_ : bool; cv_task_ : cv nat; notifies : nat;
  idle : list nat; busy : list (nat * nat); ended : list nat; scheduled : list nat; ran : list nat
}.
Definition pool_size (size : nat) : nat := if size <? 1 then 1 else size.
Arguments pool_size : simpl never.
Definition new_ThreadPool (size : nat) : ThreadPool := mkPool [] false new_cv 0 (seq 0 (pool_size size)) [] [] [] [].

(** [Schedule] up to its notification; [None] is the exception. *)
Definition Schedule (k : nat) (p : ThreadPool) : option ThreadPool :=
  if stop_ p then None
  else Some (mkPool (tasks_ p ++ [Some k]) (stop_ p) (cv_task_ p) (S (notifies p)) (idle p) (busy p) (ended p) (scheduled p ++ [k]) (ran p)).
Definition set_stop (b : bool) (p : ThreadPool) : ThreadPool :=
  mkPool (tasks_ p) b (cv_task_ p) (notifies p) (idle p) (busy p) (ended p) (scheduled p) (ran p).
Definition ShutDown : ThreadPool -> ThreadPool := set_stop true.
Definition ReStart : ThreadPool -> ThreadPool := set_stop false.

(** [GetTask] from the test on, and what [Run] does with the task: a worker returns when it is
    empty. *)
Definition GetTask (w : nat) (p : ThreadPool) : ThreadPool :=
  match tasks_ p with
  | [] => mkPool [] (stop_ p) (block w (cv_task_ p)) (notifies p) (idle p) (busy p) (ended p) (scheduled p) (ran p)
  | Some k :: l => mkPool l (stop_ p) (cv_task_ p) (notifies p) (idle p) ((w, k) :: busy p) (ended p) (scheduled p) (ran p)
  | None :: l => mkPool l (stop_ p) (cv_task_ p) (notifies p) (idle p) (busy p) (w :: ended p) (scheduled p) (ran p)
  end.

Inductive pool_event : Type :=
| PSchedule (k : nat) | PShutDown | PReStart | PNotify (pick : nat) | PSpurious (i : nat) | PGet (i : nat) | PResume (i : nat) | PFinish (i : nat).
Definition pool_step (e : pool_event) (p : ThreadPool) : option ThreadPool :=
  let put c n i b r := mkPool (tasks_ p) (stop_ p) c n i b (ended p) (scheduled p) r in
  match e with
  | PSchedule k => Some (default p (Schedule k p))
  | PShutDown => Some (ShutDown p)
  | PReStart => Some (ReStart p)
  | PNotify pick => match notifies p with O => None | S n => Some (put (notify_one pick (cv_task_ p)) n (idle p) (busy p) (ran p)) end
  | PSpurious i => c ← spurious i (cv_task_ p); Some (put c (notifies p) (idle p) (busy p) (ran p))
  | PGet i => w ← idle p !! i; Some (GetTask w (put (cv_task_ p) (notifies p) (delete i (idle p)) (busy p) (ran p)))
  | PResume i => '(w, c) ← resume i (cv_task_ p); Some (GetTask w (put c (notifies p) (idle p) (busy p) (ran p)))
  | PFinish i => '(w, k) ← busy p !! i; Some (put (cv_task_ p) (notifies p) (w :: idle p) (delete i (busy p)) (ran p ++ [k]))
  end.
Fixpoint pool_run (l : list pool_event) (p : ThreadPool) : option ThreadPool :=
  match l with [] => Some p | e :: l => p ← pool_step e p; pool_run l p end.

(** The destructor joins the workers: it returns when all have ended. *)
Definition destructor_returns (size : nat) (p : ThreadPool) : bool := bool_decide (length (ended p) = (pool_size size)).

Record pool_ok (size : nat) (p : ThreadPool) : Prop := {
  po_served : blocked (cv_task_ p) = [] \/ (length (tasks_ p) <= length (woken (cv_task_ p)) + notifies p)%nat;
  po_tasks : exists l, tasks_ p = Some <$> l /\ scheduled p ≡ₚ ran p ++ (busy p).*2 ++ l;
  po_ended : ended p = [];
  po_workers : (length (idle p) + length (blocked (cv_task_ p)) + length (woken (cv_task_ p)) + length (busy p) = pool_size size)%nat
}.

Lemma pool_size_pos size : (1 <= pool_size size)%nat.
Proof. unfold pool_size; destruct (Nat.ltb_spec size 1); lia. Qed.

Lemma notify_one_counts {A} pick (c : cv A) :
  (blocked c = [] /\ notify_one pick c = c) \/
  (length (blocked c) = S (length (blocked (notify_one pick c))) /\ length (woken (notify_one pick c)) = S (length (woken c))).
Proof.
  unfold notify_one; destruct (blocked c !! pick) as [t|] eqn:E; cbn.
  - right; split; [|done]; pose proof E as Hlt%lookup_lt_Some; rewrite length_delete by done; lia.
  - destruct (blocked c) as [|t l] eqn:E'; cbn; [by left | by right].
Qed.

Lemma perm_busy (l : list (nat * nat)) i w k : l !! i = Some (w, k) -> l.*2 ≡ₚ k :: (delete i l).*2.
Proof. intros Hi; rewrite (delete_Permutation l i (w, k) Hi) at 1; done. Qed.

Lemma GetTask_ok size w p :
  (blocked (cv_task_ p) = [] \/ (length (tasks_ p) <= S (length (woken (cv_task_ p)) + notifies p))%nat) ->
  (exists l, tasks_ p = Some <$> l /\ scheduled p ≡ₚ ran p ++ (busy p).*2 ++ l) -> ended p = [] ->
  (S (length (idle p) + length (blocked (cv_task_ p)) + length (woken (cv_task_ p)) + length (busy p)) = pool_size size)%nat ->
  pool_ok size (GetTask w p).
Proof.
  intros Hs (l & Hl & Hp) He Hw; unfold GetTask; rewrite Hl; destruct l as [|k l]; cbn.
  - split; cbn; [right; lia | by exists [] | done | lia].
  - split; cbn; [destruct Hs as [?|Hs]; [by left|]; right; rewrite Hl in Hs; cbn in Hs; lia | | done | lia].
    exists l; split; [done|]; rewrite Hp; solve_Permutation.
Qed.

Lemma pool_step_ok size e p p' : pool_step e p = Some p' -> pool_ok size p -> pool_ok size p'.
Proof.
  intros Hstep Hok; pose proof Hok as [Hs (l & Hl & Hp) He Hw]; destruct e as [k| | |pick|i|i|i|i]; cbn in Hstep.
  - injection Hstep as <-; unfold Schedule; destruct (stop_ p); [done|]; split; cbn; [|exists (l ++ [k])|done|done].
    + rewrite length_app; cbn; destruct Hs; [by left | right; lia].
    + rewrite Hl, fmap_app; split; [done|]; rewrite Hp; solve_Permutation.
  - injection Hstep as <-; split; cbn; eauto.
  - injection Hstep as <-; split; cbn; eauto.
  - destruct (notifies p) as [|n]; [done|]; injection Hstep as <-; destruct (notify_one_counts pick (cv_task_ p)) as [[Hb Hc]|[Hb Hc]]; split; cbn; eauto.
    + rewrite Hc; by left.
    + by rewrite Hc.
    + destruct Hs as [Hs|Hs]; [rewrite Hs in Hb; cbn in Hb; lia | right; lia].
    + lia.
  - destruct (spurious i _) as [c|] eqn:E; [|done]; injection Hstep as <-; unfold spurious in E; destruct (blocked _ !! i) as [t|] eqn:Et; [|done].
    injection E as <-; pose proof (lookup_lt_Some _ _ _ Et); split; cbn; eauto; [|rewrite length_delete by done; lia].
    destruct Hs as [Hs|Hs]; [rewrite Hs in Et; done | right; lia].
  - destruct (idle p !! i) as [w|] eqn:Ei; [|done]; injection Hstep as <-; pose proof (lookup_lt_Some _ _ _ Ei).
    apply GetTask_ok; cbn; [destruct Hs; [by left | right; lia] | by exists l | done | rewrite length_delete by done; lia].
  - destruct (resume i _) as [[w c]|] eqn:E; [|done]; cbn in Hstep; injection Hstep as <-; apply resume_spec in E as [Hb Hl'].
    apply GetTask_ok; cbn; [destruct Hs as [Hs|Hs]; [left; congruence | right; lia] | by exists l | done | rewrite Hb; lia].
  - destruct (busy p !! i) as [[w k]|] eqn:Ei; [|done]; cbn in Hstep; injection Hstep as <-; pose proof (lookup_lt_Some _ _ _ Ei).
    split; cbn; [done| |done|rewrite length_delete by done; lia]; exists l; split; [done|]; rewrite Hp, (perm_busy _ _ _ _ Ei); solve_Permutation.
Qed.

Lemma pool_run_ok size l : forall p p', pool_run l p = Some p' -> pool_ok size p -> pool_ok size p'.
Proof.
  induction l as [|e l IH]; cbn; intros p p' Hr Hok; [by injection Hr as <-|]; destruct (pool_step e p) as [p1|] eqn:E; [|done].
  eapply IH; [exact Hr|]; by eapply pool_step_ok.
Qed.

(** What is left to do for the workers; each of their turns makes it less. *)
Definition work (p : ThreadPool) : nat :=
  4 * length (tasks_ p) + 2 * notifies p + length (woken (cv_task_ p)) + length (idle p) + 2 * length (busy p).
Definition of_worker (e : pool_event) : bool := match e with PNotify _ | PGet _ | PResume _ | PFinish _ => true | _ => false end.

Lemma GetTask_work w p : (work (GetTask w p) <= work p)%nat /\ scheduled (GetTask w p) = scheduled p.
Proof. unfold GetTask, work; destruct (tasks_ p) as [|[k|] l]; cbn; split; (done || lia). Qed.

Lemma worker_step e p p' : of_worker e = true -> pool_step e p = Some p' -> (work p' < work p)%nat /\ scheduled p' = scheduled p.
Proof.
  destruct e as [k| | |pick|i|i|i|i]; cbn; try done; intros _.
  - destruct (notifies p) as [|n] eqn:En; [done|]; intros [= <-]; unfold work; cbn; split; [|done].
    destruct (notify_one_counts pick (cv_task_ p)) as [[_ ->]|[_ ->]]; rewrite ?En; lia.
  - destruct (idle p !! i) as [w|] eqn:Ei; [|done]; intros [= <-]; destruct (GetTask_work w (mkPool (tasks_ p) (stop_ p) (cv_task_ p) (notifies p)
      (delete i (idle p)) (busy p) (ended p) (scheduled p) (ran p))) as [Hw Hs]; split; [|done].
    eapply Nat.le_lt_trans; [exact Hw|]; unfold work; cbn; rewrite length_delete by done; apply lookup_lt_Some in Ei; lia.
  - destruct (resume i _) as [[w c]|] eqn:E; [|done]; cbn; intros [= <-]; apply resume_spec in E as [_ Hl].
    destruct (GetTask_work w (mkPool (tasks_ p) (stop_ p) c (notifies p) (idle p) (busy p) (ended p) (scheduled p) (ran p))) as [Hw Hs]; split; [|done].
    eapply Nat.le_lt_trans; [exact Hw|]; unfold work; cbn; lia.
  - destruct (busy p !! i) as [[w k]|] eqn:Ei; [|done]; cbn; intros [= <-]; split; [|done].
    unfold work; cbn; rewrite length_delete by done; apply lookup_lt_Some in Ei; lia.
Qed.

(** When no worker can move, all tasks were run. *)
Lemma rest_ran size p : pool_ok size p -> (forall e, of_worker e = true -> pool_step e p = None) -> ran p ≡ₚ scheduled p.
Proof.
  intros [Hs (l & Hl & Hp) He Hw] Hrest.
  assert (Hn : notifies p = 0%nat) by (pose proof (Hrest (PNotify 0) eq_refl) as H; cbn in H; by destruct (notifies p)).
  assert (Hi : idle p = []) by (pose proof (Hrest (PGet 0) eq_refl) as H; cbn in H; by destruct (idle p)).
  assert (Hk : woken (cv_task_ p) = []) by (pose proof (Hrest (PResume 0) eq_refl) as H; cbn in H; unfold resume in H; by destruct (woken (cv_task_ p))).
  assert (Hb : busy p = []) by (pose proof (Hrest (PFinish 0) eq_refl) as H; cbn in H; by destruct (busy p) as [|[? ?] ?]).
  rewrite Hi, Hk, Hb, Hn in *; cbn in *; rewrite Hp; destruct Hs as [Hs|Hs].
  - rewrite Hs in Hw; cbn in Hw; pose proof (pool_size_pos size); lia.
  - rewrite Hl, length_fmap in Hs; destruct l; [by rewrite app_nil_r | cbn in Hs; lia].
Qed.

Definition worker_moves : list pool_event := [PNotify 0; PGet 0; PResume 0; PFinish 0].
Lemma worker_blocked p e : of_worker e = true -> Forall (fun x => pool_step x p = None) worker_moves -> pool_step e p = None.
Proof.
  unfold worker_moves; rewrite !list.Forall_cons; intros He (H1 & H2 & H3 & H4 & _); destruct e as [k| | |pick|i|i|i|i]; try done; cbn in *.
  - by destruct (notifies p).
  - by destruct (idle p).
  - unfold resume in *; by destruct (woken (cv_task_ p)).
  - by destruct (busy p) as [|[? ?] ?].
Qed.

Lemma workers_finish size p : pool_ok size p ->
  exists moves p', forallb of_worker moves = true /\ pool_run moves p = Some p' /\ scheduled p' = scheduled p /\ pool_ok size p' /\
    forall e, of_worker e = true -> pool_step e p' = None.
Proof.
  remember (work p) as n eqn:Hn; revert p Hn; induction n as [n IH] using lt_wf_ind; intros p -> Hok.
  destruct (decide (Forall (fun x => pool_step x p = None) worker_moves)) as [Hall|Hsome].
  { exists [], p; split_and!; try done; intros e He; by apply worker_blocked. }
  apply not_Forall_Exists in Hsome; [|apply _]; apply list.Exists_exists in Hsome as (e & He & Hp); destruct (pool_step e p) as [p1|] eqn:E; [|done].
  assert (Hw : of_worker e = true) by (unfold worker_moves in He; set_solver).
  destruct (worker_step e p p1 Hw E) as [Hlt Hsch]; destruct (IH _ Hlt p1 eq_refl (pool_step_ok _ _ _ _ E Hok)) as (moves & p' & Hm & Hr & Hs & Hok' & Hrest).
  exists (e :: moves), p'; cbn; rewrite Hw, E; split_and!; try done; congruence.
Qed.

(** C33: whatever threads schedule, and whichever workers are woken, the turns of the workers
    come to an end, and then every task that was scheduled has been run, once; but no worker
    ever returns, so the destructor, which joins them, does not. *)
Theorem pool_runs_every_task size l p :
  pool_run l (new_ThreadPool size) = Some p ->
  destructor_returns size p = false /\
  (forall e p', of_worker e = true -> pool_step e p = Some p' -> (work p' < work p)%nat) /\
  exists moves p', forallb of_worker moves = true /\ pool_run moves p = Some p' /\ ran p' ≡ₚ scheduled p /\
    forall e, of_worker e = true -> pool_step e p' = None.
Proof.
  intros Hr; assert (Hok : pool_ok size p).
  { eapply pool_run_ok; [exact Hr|]; split; cbn; [by left | by exists [] | done | rewrite length_seq; lia]. }
  split; [|split; [intros e p' He Hp; by apply (worker_step e p p')|]].
  - unfold destructor_returns; rewrite (po_ended _ _ Hok); apply bool_decide_eq_false; cbn; pose proof (pool_size_pos size); lia.
  - destruct (workers_finish size p Hok) as (moves & p' & ? & ? & Hs & Hok' & Hrest); exists moves, p'; split_and!; try done.
    rewrite <- Hs; by eapply rest_ran.
Qed.

Definition some_pool_events : list pool_event := [PGet 0; PGet 0; PSchedule 7; PSchedule 8; PNotify 1; PShutDown; PSchedule 9; PResume 0].
Lemma pool_runs_every_task_witness :
  exists p, pool_run some_pool_events (new_ThreadPool 2) = Some p /\ scheduled p = [7; 8] /\ busy p = [(0, 7)] /\
    exists moves p', forallb of_worker moves = true /\ pool_run moves p = Some p' /\ ran p' ≡ₚ [7; 8].
Proof.
  destruct (pool_run some_pool_events (new_ThreadPool 2)) as [p|] eqn:E; [|by vm_compute in E]; exists p; split; [done|].
  destruct (pool_runs_every_task 2 _ p E) as (_ & _ & moves & p' & Hm & Hr & Hp & _).
  assert (Hs : scheduled p = [7; 8] /\ busy p = [(0, 7)]) by (vm_compute in E; by injection E as <-).
  destruct Hs as [Hs Hb]; rewrite Hs in Hp; split; [done|]; split; [done|]; by exists moves, p'.
Defined.

(** ** The waiter *)

Record Waiter : Type := mkWaiter { num_wait_ : Z; cv_ : cv nat }.
Definition new_Waiter (num_wait : Z) : Waiter := mkWaiter num_wait new_cv.

(** [Wait] from its test on; with the threads that returned. *)
Definition Wait (t : nat) (w : Waiter) : Waiter * list nat :=
  if (0 <? num_wait_ w)%Z then (mkWaiter (num_wait_ w) (block t (cv_ w)), []) else (w, [t]).
Definition Notify (w : Waiter) : Waiter := mkWaiter (num_wait_ w - 1) (notify_all (cv_ w)).
Definition Reset (num_wait : Z) (w : Waiter) : Waiter := mkWaiter num_wait (cv_ w).

Inductive waiter_event : Type := WWait (t : nat) | WNotify | WReset (n : Z) | WSpurious (i : nat) | WResume (i : nat).
Definition waiter_step (e : waiter_event) (w : Waiter) : option (Waiter * list nat) :=
  match e with
  | WWait t => Some (Wait t w)
  | WNotify => Some (Notify w, [])
  | WReset n => Some (Reset n w, [])
  | WSpurious i => c ← spurious i (cv_ w); Some (mkWaiter (num_wait_ w) c, [])
  | WResume i => '(t, c) ← resume i (cv_ w); Some (Wait t (mkWaiter (num_wait_ w) c))
  end.
Fixpoint waiter_run (l : list waiter_event) (w : Waiter) : option (Waiter * list nat) :=
  match l with
  | [] => Some (w, [])
  | e :: l => '(w, r) ← waiter_step e w; '(w, r') ← waiter_run l w; Some (w, r ++ r')
  end.
Definition resets (e : waiter_event) : bool := match e with WReset _ => true | _ => false end.
Fixpoint notifications (l : list waiter_event) : Z :=
  match l with [] => 0 | WNotify :: l => 1 + notifications l | _ :: l => notifications l end.

(** Without a reset the threads return when there were as many notifications as the waiter was
    made for, not before, and none is blocked then. *)
Lemma waiter_counts l : forall w w' r,
  forallb (fun e => negb (resets e)) l = true -> waiter_run l w = Some (w', r) ->
  (blocked (cv_ w) = [] \/ 0 < num_wait_ w)%Z ->
  (num_wait_ w' = num_wait_ w - notifications l /\ 0 <= notifications l)%Z /\ (blocked (cv_ w') = [] \/ 0 < num_wait_ w')%Z /\ (r = [] \/ num_wait_ w' <= 0)%Z.
Proof.
  induction l as [|e l IH]; cbn [waiter_run forallb]; intros w w' r Hn Hr Hb; [injection Hr as <- <-; cbn; split_and!; auto; lia|].
  apply andb_true_iff in Hn as [He Hn]; destruct (waiter_step e w) as [[w1 r1]|] eqn:E; [|done]; cbn in Hr.
  destruct (waiter_run l w1) as [[w2 r2]|] eqn:E2; [|done]; cbn in Hr; injection Hr as <- <-.
  assert (H1 : (num_wait_ w1 = num_wait_ w - notifications [e] /\ (blocked (cv_ w1) = [] \/ 0 < num_wait_ w1) /\ (r1 = [] \/ num_wait_ w1 <= 0))%Z).
  { destruct e as [t| |n|i|i]; cbn in E |- *; try done.
    - unfold Wait in E; destruct (Z.ltb_spec 0 (num_wait_ w)); injection E as <- <-; cbn; split_and!; auto; try lia.
    - injection E as <- <-; cbn; split_and!; auto; lia.
    - destruct (spurious i _) as [c|] eqn:Es; [|done]; injection E as <- <-; cbn; split_and!; auto; try lia.
      unfold spurious in Es; destruct Hb as [Hb|Hb]; [by rewrite Hb in Es | by right].
    - destruct (resume i _) as [[t c]|] eqn:Es; [|done]; cbn in E; injection E as E; apply resume_spec in Es as [Hc _].
      unfold Wait in E; cbn in E; destruct (Z.ltb_spec 0 (num_wait_ w)); injection E as <- <-; cbn; rewrite ?Hc; split_and!; auto; lia. }
  destruct H1 as (Hw1 & Hb1 & Hr1); destruct (IH w1 w2 r2 Hn E2 Hb1) as ((Hw2 & Hp) & Hb2 & Hr2).
  assert (Hcons : (notifications (e :: l) = notifications [e] + notifications l /\ 0 <= notifications [e])%Z) by (destruct e; cbn; lia).
  split_and!; auto; try lia; destruct Hr1 as [->|Hr1]; [done | right; lia].
Qed.

(** [Reset] changes the count and wakes nobody: the threads that wait sleep on. *)
Example reset_wakes_nobody : waiter_run [WWait 1; WReset 0] (new_Waiter 1) = Some (mkWaiter 0 (mkCv [1] []), []).
Proof. reflexivity. Qed.

(** ** The checker of a running thread *)

(** Where the looping thread is: outside, after the first test of [running_], after the flag
    was cleared, after the test of the condition, blocked; [sleeping] tells [Sleep], which has
    a timeout, from [Wait]. *)
Inductive place : Type := Outside | Entered | Cleared | Tested | Blocked | Back (running : bool).
Record checker : Type := mkChecker { running_ : bool; wake_up_flag_ : bool; sleeping : bool; at_ : place; unsent : nat }.

Inductive checker_event : Type :=
| CWait | CSleep | CClear | CTest | CBlock | CTimeout | CSpurious (** the looping thread *)
| CSet (value : bool) | CWakeUp | CNotify. (** the others: a flag, then its notification *)

Definition condition (c : checker) : bool := negb (running_ c) || wake_up_flag_ c.
Definition goes (p : place) (c : checker) : option checker := Some (mkChecker (running_ c) (wake_up_flag_ c) (sleeping c) p (unsent c)).
Definition enter (sleep : bool) (c : checker) : option checker :=
  Some (mkChecker (running_ c) (wake_up_flag_ c) sleep (if running_ c then Entered else Back false) (unsent c)).
Definition checker_step (e : checker_event) (c : checker) : option checker :=
  match e, at_ c with
  | CWait, (Outside | Back _) => enter false c
  | CSleep, (Outside | Back _) => enter true c
  | CClear, Entered => Some (mkChecker (running_ c) false (sleeping c) Cleared (unsent c))
  | CTest, Cleared => goes (if condition c then Back (running_ c) else Tested) c
  | CBlock, Tested => goes Blocked c
  | CTimeout, Blocked => if sleeping c then goes (Back (running_ c)) c else None
  | CSpurious, Blocked => goes Cleared c
  | CSet value, p => Some (mkChecker value (wake_up_flag_ c) (sleeping c) p (S (unsent c)))
  | CWakeUp, p => Some (mkChecker (running_ c) true (sleeping c) p (S (unsent c)))
  | CNotify, p =>
      match unsent c with
      | O => None
      | S n => Some (mkChecker (running_ c) (wake_up_flag_ c) (sleeping c) (match p with Blocked => Cleared | _ => p end) n)
      end
  | _, _ => None
  end.
Fixpoint checker_run (l : list checker_event) (c : checker) : option checker :=
  match l with [] => Some c | e :: l => c ← checker_step e c; checker_run l c end.
Definition new_checker (running : bool) : checker := mkChecker running false false Outside 0.

(** No flag is set between the test of the condition and the wait, as if the flags were set
    with the mutex held. *)
Fixpoint guarded (l : list checker_event) (c : checker) : Prop :=
  match l with
  | [] => True
  | e :: l =>
      match e, at_ c with (CSet _ | CWakeUp), Tested => False | _, _ => True end /\
      match checker_step e c with Some c => guarded l c | None => True end
  end.

Definition checked (c : checker) : Prop :=
  match at_ c with Tested => condition c = false | Blocked => condition c = true -> (0 < unsent c)%nat | _ => True end.
Lemma checker_step_ok e c c' :
  match e, at_ c with (CSet _ | CWakeUp), Tested => False | _, _ => True end -> checker_step e c = Some c' -> checked c -> checked c'.
Proof.
  destruct c as [r f s p n], e, p; unfold checked, checker_step, goes, enter, condition; cbn; intros Hg Hs Hc; try done;
    repeat (case_match; try done); simplify_eq/=; try done; try lia; try (by destruct r, f); intros; lia.
Qed.

(** With such notifications a thread that is blocked although it should stop, or was woken, has
    a notification coming. *)
Lemma checker_wakes l : forall c c', guarded l c -> checker_run l c = Some c' -> checked c ->
  at_ c' = Blocked -> condition c' = true -> (0 < unsent c')%nat.
Proof.
  induction l as [|e l IH]; cbn; intros c c' Hg Hr Hc Hb Hcond.
  - injection Hr as <-; unfold checked in Hc; rewrite Hb in Hc; auto.
  - destruct Hg as [He Hg]; destruct (checker_step e c) as [c1|] eqn:E; [|done]; eapply IH; [exact Hg | exact Hr | by eapply checker_step_ok | done | done].
Qed.

(** The flags are set without the mutex: a stop that comes between the test and the wait is
    lost, and so is a wake-up that comes before [Wait] clears its flag.  [Wait] then blocks for
    good; [Sleep] ends with its timeout. *)
Example stop_is_lost :
  checker_run [CWait; CClear; CTest; CSet false; CNotify; CBlock] (new_checker true) = Some (mkChecker false false false Blocked 0).
Proof. reflexivity. Qed.
Example wakeup_is_lost :
  checker_run [CWait; CWakeUp; CNotify; CClear; CTest; CBlock] (new_checker true) = Some (mkChecker true false false Blocked 0).
Proof. reflexivity. Qed.
