(* ===== verification/Hash.v ===== *)
(** * Hashes of strings: src/common/murmurhash.h, src/qed/hash.h

    Both hash functions over the bytes at a pointer; a read outside of them gives [None].
    Words wrap around at their width. *)
From Stdlib Require Import ZArith Lia.
From stdpp Require Import base list option.
From S2P Require Import Prelude Words Memory Strings.

Local Open Scope Z_scope.

(** The word of [n] bytes at a pointer, and the pointer behind it. *)
Definition read_word (n : nat) (p : bytes) : option (Z * bytes) :=
  if (length p <? n)%nat then None else Some (le_value (take n p), drop n p).
Definition mul (w x y : Z) : Z := wrap w (x * y).

(** ** MurmurHash64A *)

Definition A_m : Z := 0xc6a4a7935bd1e995.
Definition A_r : Z := 47.

(** The loop over the words. *)
Definition A_mix (k : Z) : Z :=
  let k := mul 64 k A_m in
  let k := Z.lxor k (Z.shiftr k A_r) in
  mul 64 k A_m.
Definition A_absorb (h k : Z) : Z := mul 64 (Z.lxor h (A_mix k)) A_m.
Fixpoint A_words_loop (n : nat) (p : bytes) (h : Z) : option (Z * bytes) :=
  match n with
  | O => Some (h, p)
  | S n => '(k, p) ← read_word 8 p; A_words_loop n p (A_absorb h k)
  end.

(** The cases of the switch from [i] down, each falls through to the next. *)
Fixpoint A_tail_cases (i : nat) (data2 : bytes) (h : Z) : option Z :=
  match i with
  | O => Some h
  | S j => b ← data2 !! j; A_tail_cases j data2 (Z.lxor h (Z.shiftl b (8 * Z.of_nat j)))
  end.
Definition A_finish (h : Z) : Z :=
  let h := Z.lxor h (Z.shiftr h A_r) in
  let h := mul 64 h A_m in
  Z.lxor h (Z.shiftr h A_r).

Definition MurmurHash64A (key : bytes) (len : nat) (seed : Z) : option Z :=
  let h := Z.lxor seed (mul 64 (Z.of_nat len) A_m) in
  '(h, data2) ← A_words_loop (len / 8) key h;
  h ← (match (len mod 8)%nat with
       | O => Some h
       | i => (fun h => mul 64 h A_m) <$> A_tail_cases i data2 h
       end);
  Some (A_finish h).

(** [Hash<std::string>] and [Hash<cstr>]. *)
Definition HashString (key : bytes) : option Z := MurmurHash64A key (length key) 0.

(** ** MurmurHash64B *)

Definition B_m : Z := 0x5bd1e995.
Definition B_r : Z := 24.
Definition B_mix (k : Z) : Z :=
  let k := mul 32 k B_m in
  let k := Z.lxor k (Z.shiftr k B_r) in
  mul 32 k B_m.
Definition B_absorb (h k : Z) : Z := Z.lxor (mul 32 h B_m) (B_mix k).

(** The loop, two words at a turn; the fuel is the length. *)
Fixpoint B_words_loop (fuel : nat) (len : nat) (p : bytes) (h1 h2 : Z) : option (nat * bytes * Z * Z) :=
  if (len <? 8)%nat then Some (len, p, h1, h2)
  else
    match fuel with
    | O => None
    | S fuel =>
        '(k1, p) ← read_word 4 p;
        '(k2, p) ← read_word 4 p;
        B_words_loop fuel (len - 8) p (B_absorb h1 k1) (B_absorb h2 k2)
    end.
Fixpoint B_tail_cases (i : nat) (data : bytes) (h : Z) : option Z :=
  match i with
  | O => Some h
  | S j => b ← data !! j; B_tail_cases j data (Z.lxor h (Z.shiftl b (8 * Z.of_nat j)))
  end.

Definition MurmurHash64B (key : bytes) (len : nat) (seed : Z) : option Z :=
  '(len', p, h1, h2) ← B_words_loop len len key (Z.lxor seed (Z.of_nat len)) 0;
  '(len', p, h1) ← (if (4 <=? len')%nat
                    then '(k1, p) ← read_word 4 p; Some ((len' - 4)%nat, p, B_absorb h1 k1)
                    else Some (len', p, h1));
  h2 ← (match len' with O => Some h2 | i => (fun h => mul 32 h B_m) <$> B_tail_cases i p h2 end);
  let h1 := mul 32 (Z.lxor h1 (Z.shiftr h2 18)) B_m in
  let h2 := mul 32 (Z.lxor h2 (Z.shiftr h1 22)) B_m in
  let h1 := mul 32 (Z.lxor h1 (Z.shiftr h2 17)) B_m in
  let h2 := mul 32 (Z.lxor h2 (Z.shiftr h1 19)) B_m in
  Some (Z.lor (Z.shiftl h1 32) h2).


(** ** Words *)

Lemma uint_lxor w x y : 0 <= w -> uint w x -> uint w y -> uint w (Z.lxor x y).
Proof.
  intros Hw Hx Hy; apply uint_testbit; [done | apply Z.lxor_nonneg; unfold uint in *; lia|].
  intros i Hi; rewrite Z.lxor_spec, !(testbit_above w) by done; done.
Qed.
Lemma uint_shiftr w x n : 0 <= n -> uint w x -> uint w (Z.shiftr x n).
Proof. intros Hn [H0 H1]; rewrite Z.shiftr_div_pow2 by done; split; [apply Z.div_pos; lia | apply Z.div_lt_upper_bound; nia]. Qed.
Lemma uint_mul w x y : 0 <= w -> uint w (mul w x y).
Proof. apply uint_wrap. Qed.
#[export] Hint Resolve uint_lxor uint_shiftr uint_mul : words.

Lemma lxor_cancel_r x y z : Z.lxor x z = Z.lxor y z -> x = y.
Proof. intros H; rewrite <- (Z.lxor_0_r x), <- (Z.lxor_0_r y), <- (Z.lxor_nilpotent z), <- !Z.lxor_assoc, H; done. Qed.
Lemma lxor_cancel_l x y z : Z.lxor z x = Z.lxor z y -> x = y.
Proof. rewrite !(Z.lxor_comm z); apply lxor_cancel_r. Qed.

(** A multiplication by a number that has an inverse, and a word xored with its upper half,
    can be undone. *)
Lemma mul_inj w m m' x y : 0 <= w -> (m * m') mod 2 ^ w = 1 -> uint w x -> uint w y -> mul w x m = mul w y m -> x = y.
Proof.
  intros Hw Hm Hx Hy; assert (Hinv : forall z, uint w z -> mul w (mul w z m) m' = z); [|by intros H; rewrite <- (Hinv x), H, Hinv].
  intros z Hz; unfold mul, wrap; rewrite Z.mul_mod_idemp_l by lia; rewrite <- Z.mul_assoc, <- Z.mul_mod_idemp_r, Hm, Z.mul_1_r by lia; by apply wrap_small.
Qed.
Lemma xorshift_inj w n x y : 0 <= n -> w <= n + n -> uint w x -> uint w y -> Z.lxor x (Z.shiftr x n) = Z.lxor y (Z.shiftr y n) -> x = y.
Proof.
  intros Hn Hw Hx Hy; assert (Hinv : forall z, uint w z -> Z.lxor (Z.lxor z (Z.shiftr z n)) (Z.shiftr (Z.lxor z (Z.shiftr z n)) n) = z);
    [|by intros H; rewrite <- (Hinv x), H, Hinv].
  intros z [Hz0 Hz]; rewrite Z.shiftr_lxor, Z.shiftr_shiftr by done; assert (Hbig : Z.shiftr z (n + n) = 0).
  { rewrite Z.shiftr_div_pow2 by lia; apply Z.div_small; split; [done|]; eapply Z.lt_le_trans; [exact Hz | apply Z.pow_le_mono_r; lia]. }
  rewrite Hbig, Z.lxor_0_r, Z.lxor_assoc, Z.lxor_nilpotent; apply Z.lxor_0_r.
Qed.

(** ** Bytes *)

Lemma le_value_app l1 l2 : le_value (l1 ++ l2) = le_value l1 + 256 ^ Z.of_nat (length l1) * le_value l2.
Proof.
  induction l1 as [|b l1 IH]; [cbn; lia|]; cbn [app le_value length]; rewrite IH, Nat2Z.inj_succ, Z.pow_succ_r by lia; ring.
Qed.
Lemma le_value_bound l : Forall u8 l -> 0 <= le_value l < 256 ^ Z.of_nat (length l).
Proof.
  induction 1 as [|b l Hb _ IH]; [cbn; lia|]; cbn [le_value length]; rewrite Nat2Z.inj_succ, Z.pow_succ_r by lia; destruct Hb as [H0 H1]; change (2 ^ 8) with 256 in H1; nia.
Qed.
Lemma le_value_inj l1 : forall l2, Forall u8 l1 -> Forall u8 l2 -> length l1 = length l2 -> le_value l1 = le_value l2 -> l1 = l2.
Proof.
  induction l1 as [|b1 l1 IH]; intros [|b2 l2] H1 H2 Hl Hv; try done; apply list.Forall_cons in H1 as [Hb1 H1], H2 as [Hb2 H2]; cbn in Hv.
  unfold uint in *; change (2 ^ 8) with 256 in *; assert (b1 = b2 /\ le_value l1 = le_value l2) as [-> ?] by lia; f_equal; apply IH; auto.
Qed.
Lemma lxor_shiftl_add x b n : 0 <= n -> 0 <= x < 2 ^ n -> Z.lxor x (Z.shiftl b n) = x + 2 ^ n * b.
Proof.
  intros Hn Hx; rewrite (Z.mul_comm (2 ^ n)), <- Z.shiftl_mul_pow2 by done; symmetry; apply Z.add_nocarry_lxor, Z.bits_inj'; intros i Hi.
  rewrite Z.land_spec, Z.bits_0, Z.shiftl_spec by done; destruct (Z.lt_ge_cases i n) as [Hlt|Hge].
  - rewrite (Z.testbit_neg_r b) by lia; apply andb_false_r.
  - rewrite (testbit_above n x) by done; done.
Qed.

Lemma read_word_app n a p : length a = n -> read_word n (a ++ p) = Some (le_value a, p).
Proof.
  intros Hn; unfold read_word; rewrite length_app; destruct (Nat.ltb_spec (length a + length p) n); [lia|].
  by rewrite take_app_length', drop_app_length'.
Qed.

(** ** MurmurHash64A keeps words apart *)

Lemma tail_cases_value p i : forall h, Forall u8 p -> (i <= length p)%nat -> A_tail_cases i p h = Some (Z.lxor h (le_value (take i p))).
Proof.
  induction i as [|j IH]; intros h Hp Hi; cbn [A_tail_cases]; [by rewrite take_0, Z.lxor_0_r|].
  destruct (lookup_lt_is_Some_2 p j) as [b Hb]; [lia|]; rewrite Hb; cbn [mbind option_bind]; rewrite IH by (done || lia); f_equal.
  rewrite Z.lxor_assoc; f_equal; rewrite (take_S_r _ _ _ Hb), le_value_app; cbn [le_value]; rewrite Z.mul_0_r, Z.add_0_r, length_take, Nat.min_l by lia.
  pose proof (le_value_bound (take j p) (Forall_take _ _ _ Hp)) as Hv; rewrite length_take, Nat.min_l in Hv by lia.
  assert (H256 : 256 ^ Z.of_nat j = 2 ^ (8 * Z.of_nat j)) by (rewrite Z.pow_mul_r by lia; done); rewrite H256 in *.
  rewrite Z.lxor_comm; apply lxor_shiftl_add; [lia | done].
Qed.

Definition m_inverse : Z := 6879827495036328381.
Lemma m_inverse_ok : (A_m * m_inverse) mod 2 ^ 64 = 1.
Proof. vm_compute; reflexivity. Qed.

Lemma mix_word k : u64 (A_mix k).
Proof. apply uint_mul; lia. Qed.
Lemma absorb_word h k : u64 (A_absorb h k).
Proof. apply uint_mul; lia. Qed.
#[local] Hint Resolve mix_word absorb_word : words.

Lemma mix_inj k1 k2 : u64 k1 -> u64 k2 -> A_mix k1 = A_mix k2 -> k1 = k2.
Proof.
  intros H1 H2 He; unfold A_mix in He; apply (mul_inj 64 _ m_inverse) in He; [|lia|apply m_inverse_ok|auto with words lia..].
  - apply (xorshift_inj 64) in He; [|unfold A_r; lia..|apply uint_mul; lia|apply uint_mul; lia]; by apply (mul_inj 64 _ m_inverse) in He; [|lia|apply m_inverse_ok| |].
  - apply uint_lxor; [lia|apply uint_mul; lia|]; apply uint_shiftr; [unfold A_r; lia | apply uint_mul; lia].
  - apply uint_lxor; [lia|apply uint_mul; lia|]; apply uint_shiftr; [unfold A_r; lia | apply uint_mul; lia].
Qed.
Lemma absorb_inj h1 h2 k : u64 h1 -> u64 h2 -> A_absorb h1 k = A_absorb h2 k -> h1 = h2.
Proof.
  intros H1 H2 He; unfold A_absorb in He; apply (mul_inj 64 _ m_inverse) in He; [by apply lxor_cancel_r in He|lia|apply m_inverse_ok|..]; apply uint_lxor; auto with words; lia.
Qed.
Lemma absorb_inj_word h k1 k2 : u64 h -> u64 k1 -> u64 k2 -> A_absorb h k1 = A_absorb h k2 -> k1 = k2.
Proof.
  intros Hh H1 H2 He; unfold A_absorb in He; apply (mul_inj 64 _ m_inverse) in He; [apply lxor_cancel_l in He; by apply mix_inj|lia|apply m_inverse_ok|..]; apply uint_lxor; auto with words; lia.
Qed.
Lemma finish_inj h1 h2 : u64 h1 -> u64 h2 -> A_finish h1 = A_finish h2 -> h1 = h2.
Proof.
  intros H1 H2 He; unfold A_finish in He; assert (Hx : forall h, u64 h -> u64 (Z.lxor h (Z.shiftr h A_r))) by (intros h Hh; apply uint_lxor; [lia|done|]; apply uint_shiftr; [unfold A_r; lia | done]).
  apply (xorshift_inj 64) in He; [|unfold A_r; lia..|apply uint_mul; lia|apply uint_mul; lia].
  apply (mul_inj 64 _ m_inverse) in He; [|lia|apply m_inverse_ok|by apply Hx|by apply Hx]; apply (xorshift_inj 64) in He; (done || (unfold A_r; lia)).
Qed.

(** The loop over the words of a key that has them. *)
Lemma words_loop_app n : forall p rest h, length p = (8 * n)%nat -> u64 h ->
  exists h', A_words_loop n (p ++ rest) h = Some (h', rest) /\ u64 h'.
Proof.
  induction n as [|n IH]; intros p rest h Hp Hh; cbn [A_words_loop].
  - assert (p = []) as -> by (destruct p; cbn in Hp; [done | lia]); eauto.
  - rewrite <- (take_drop 8 p), <- (assoc_L (++)), read_word_app by (rewrite length_take; lia); cbn [mbind option_bind].
    apply IH; [rewrite length_drop; lia | auto with words].
Qed.
Lemma words_loop_seq n1 : forall n2 p rest h, length p = (8 * n1)%nat ->
  A_words_loop (n1 + n2) (p ++ rest) h = ('(h, _) ← A_words_loop n1 (p ++ rest) h; A_words_loop n2 rest h).
Proof.
  induction n1 as [|n1 IH]; intros n2 p rest h Hp; cbn [A_words_loop Nat.add].
  - assert (p = []) as -> by (destruct p; cbn in Hp; [done | lia]); done.
  - rewrite <- (take_drop 8 p), <- (assoc_L (++)), read_word_app by (rewrite length_take; lia); cbn [mbind option_bind].
    apply IH; rewrite length_drop; lia.
Qed.
Lemma words_loop_inj n : forall p rest h1 h2 r, length p = (8 * n)%nat -> u64 h1 -> u64 h2 ->
  A_words_loop n (p ++ rest) h1 = Some r -> A_words_loop n (p ++ rest) h2 = Some r -> h1 = h2.
Proof.
  induction n as [|n IH]; intros p rest h1 h2 r Hp H1 H2; cbn [A_words_loop]; [intros [= <-] [= ->]; done|].
  rewrite <- (take_drop 8 p), <- (assoc_L (++)), read_word_app by (rewrite length_take; lia); cbn [mbind option_bind]; intros E1 E2.
  eapply absorb_inj; [done|done|]; eapply IH; [| | |exact E1|exact E2]; auto with words; rewrite length_drop; lia.
Qed.

Lemma words_loop_same n : forall p r1 r2 h h1 h2 p1 p2, length p = (8 * n)%nat ->
  A_words_loop n (p ++ r1) h = Some (h1, p1) -> A_words_loop n (p ++ r2) h = Some (h2, p2) -> h1 = h2.
Proof.
  induction n as [|n IH]; intros p r1 r2 h h1 h2 p1 p2 Hp; cbn [A_words_loop]; [intros [= -> _] [= -> _]; done|].
  rewrite <- (take_drop 8 p), <- !(assoc_L (++)), !read_word_app by (rewrite length_take; lia); cbn [mbind option_bind]; apply IH; rewrite length_drop; lia.
Qed.
Lemma words_loop_rest n : forall p rest h h' p', length p = (8 * n)%nat -> A_words_loop n (p ++ rest) h = Some (h', p') -> p' = rest.
Proof.
  induction n as [|n IH]; intros p rest h h' p' Hp; cbn [A_words_loop].
  - assert (p = []) as -> by (destruct p; cbn in Hp; [done | lia]); by intros [= _ <-].
  - rewrite <- (take_drop 8 p), <- (assoc_L (++)), read_word_app by (rewrite length_take; lia); cbn [mbind option_bind].
    apply IH; rewrite length_drop; lia.
Qed.

(** The hash of a key that is made of whole words and a rest of less than a word. *)
Definition tail_hash (t : bytes) (h : Z) : Z := match t with [] => h | _ => mul 64 (Z.lxor h (le_value t)) A_m end.
Lemma hash_split n p t seed : length p = (8 * n)%nat -> (length t < 8)%nat -> Forall u8 t ->
  MurmurHash64A (p ++ t) (length (p ++ t)) seed =
    ('(h, _) ← A_words_loop n (p ++ t) (Z.lxor seed (mul 64 (Z.of_nat (length (p ++ t))) A_m)); Some (A_finish (tail_hash t h))).
Proof.
  intros Hp Ht Hu; unfold MurmurHash64A; set (h0 := Z.lxor seed _).
  assert (Hdiv : (length (p ++ t) / 8)%nat = n) by (rewrite length_app, Hp, Nat.mul_comm, Nat.div_add_l, Nat.div_small by lia; lia).
  assert (Hmod : (length (p ++ t) mod 8)%nat = length t) by (rewrite length_app, Hp, Nat.add_comm, Nat.mul_comm, Nat.Div0.mod_add, Nat.mod_small by lia; done).
  rewrite Hdiv, Hmod; destruct (A_words_loop n (p ++ t) h0) as [[h p']|] eqn:E; [|done]; cbn [mbind option_bind].
  apply words_loop_rest in E; [|done].
  subst p'; destruct t as [|b t]; [done|]; cbn [length]; rewrite tail_cases_value by (cbn; done || lia); cbn [fmap option_fmap option_map mbind option_bind tail_hash].
  by rewrite firstn_all2 by (cbn; lia).
Qed.

Lemma tail_word t h : u64 h -> u64 (tail_hash t h).
Proof. destruct t; [done | intros _; apply uint_mul; lia]. Qed.
Lemma tail_value_word t : (length t <= 8)%nat -> Forall u8 t -> u64 (le_value t).
Proof.
  intros Hl Ht; pose proof (le_value_bound t Ht) as [H0 H1]; split; [done|]; eapply Z.lt_le_trans; [exact H1|].
  change (2 ^ 64) with (256 ^ 8); apply Z.pow_le_mono_r; lia.
Qed.
Lemma tail_hash_inj t1 t2 h1 h2 :
  (length t1 < 8)%nat -> length t1 = length t2 -> Forall u8 t1 -> Forall u8 t2 -> u64 h1 -> u64 h2 ->
  tail_hash t1 h1 = tail_hash t2 h2 -> (t1 = t2 -> h1 = h2) /\ (h1 = h2 -> t1 = t2).
Proof.
  intros Hl Hlen H1 H2 Hh1 Hh2 He; destruct t1 as [|b1 t1], t2 as [|b2 t2]; try done; cbn [tail_hash] in He.
  apply (mul_inj 64 _ m_inverse) in He; [|lia|apply m_inverse_ok|..]; [|apply uint_lxor; [lia | done | apply tail_value_word; (done || lia)]..].
  split; [intros Ht; rewrite Ht in He; by apply lxor_cancel_r in He | intros ->; apply lxor_cancel_l in He; by apply le_value_inj].
Qed.
Lemma finish_word h : u64 h -> u64 (A_finish h).
Proof. intros Hh; unfold A_finish; apply uint_lxor; [lia|apply uint_mul; lia|]; apply uint_shiftr; [unfold A_r; lia | apply uint_mul; lia]. Qed.

(** A key as whole words and a rest. *)
Lemma key_split (key : bytes) : exists n p t, key = p ++ t /\ length p = (8 * n)%nat /\ (length t < 8)%nat.
Proof.
  exists (length key / 8)%nat, (take (8 * (length key / 8)) key), (drop (8 * (length key / 8)) key).
  pose proof (Nat.div_mod_eq (length key) 8); pose proof (Nat.mod_upper_bound (length key) 8).
  rewrite take_drop, length_take, length_drop; split_and!; [done | lia | lia].
Qed.

(** A hash is a word, and no byte outside of the key is read. *)
Lemma hash_total key seed : u64 seed -> Forall u8 key -> exists h, MurmurHash64A key (length key) seed = Some h /\ u64 h.
Proof.
  intros Hs Hk; destruct (key_split key) as (n & p & t & -> & Hp & Ht); rewrite Forall_app in Hk; destruct Hk as [_ Hkt]; rewrite (hash_split n) by done.
  destruct (words_loop_app n p t (Z.lxor seed (mul 64 (Z.of_nat (length (p ++ t))) A_m)) Hp) as (h & -> & Hh); [apply uint_lxor; [lia | done | apply uint_mul; lia]|].
  cbn [mbind option_bind]; eexists; split; [done|]; by apply finish_word, tail_word.
Qed.

(** Keys of one length that differ in one word, or in the bytes after the last whole word. *)
Lemma hash_word_differs n pre a b post seed h :
  u64 seed -> length pre = (8 * n)%nat -> length a = 8%nat -> length b = 8%nat -> Forall u8 a -> Forall u8 b -> Forall u8 post ->
  MurmurHash64A (pre ++ a ++ post) (length (pre ++ a ++ post)) seed = Some h ->
  MurmurHash64A (pre ++ b ++ post) (length (pre ++ b ++ post)) seed = Some h -> a = b.
Proof.
  intros Hs Hp Ha Hb Hua Hub Hpost; destruct (key_split post) as (k & q & t & -> & Hq & Ht); rewrite Forall_app in Hpost; destruct Hpost as [_ Hut].
  rewrite (assoc_L (++) a), (assoc_L (++) b), (assoc_L (++) pre), (assoc_L (++) pre (b ++ q)).
  rewrite !(hash_split (n + S k)) by (done || (rewrite !length_app; lia)).
  replace (length ((pre ++ b ++ q) ++ t)) with (length ((pre ++ a ++ q) ++ t)) by (rewrite !length_app; lia).
  set (h0 := Z.lxor seed _); assert (Hh0 : u64 h0) by (apply uint_lxor; [lia | done | apply uint_mul; lia]); clearbody h0.
  rewrite <- !(assoc_L (++)), !words_loop_seq by done.
  destruct (words_loop_app n pre (a ++ q ++ t) h0 Hp Hh0) as (h1 & E1 & Hh1); destruct (words_loop_app n pre (b ++ q ++ t) h0 Hp Hh0) as (h2 & E2 & Hh2).
  assert (h1 = h2) as -> by (exact (words_loop_same n _ _ _ _ _ _ _ _ Hp E1 E2)).
  rewrite E1, E2; cbn [mbind option_bind A_words_loop]; rewrite !read_word_app by done; cbn [mbind option_bind].
  destruct (words_loop_app k q t (A_absorb h2 (le_value a)) Hq (absorb_word _ _)) as (ha & Ea & Hha); destruct (words_loop_app k q t (A_absorb h2 (le_value b)) Hq (absorb_word _ _)) as (hb & Eb & Hhb).
  rewrite Ea, Eb; cbn [mbind option_bind]; intros [= <-] [= He]; apply finish_inj in He; [|by apply tail_word..].
  destruct (tail_hash_inj t t hb ha) as [Heq _]; try done; specialize (Heq eq_refl); subst hb.
  pose proof (words_loop_inj k q t _ _ _ Hq (absorb_word _ _) (absorb_word _ _) Ea Eb) as Habs.
  apply absorb_inj_word in Habs; [|done|apply tail_value_word; (done || lia)..]; apply le_value_inj in Habs; (done || lia).
Qed.
Lemma hash_tail_differs n pre a b seed h :
  u64 seed -> length pre = (8 * n)%nat -> (length a < 8)%nat -> length a = length b -> Forall u8 a -> Forall u8 b ->
  MurmurHash64A (pre ++ a) (length (pre ++ a)) seed = Some h -> MurmurHash64A (pre ++ b) (length (pre ++ b)) seed = Some h -> a = b.
Proof.
  intros Hs Hp Ha Hab Hua Hub; rewrite !(hash_split n) by (done || lia); replace (length (pre ++ b)) with (length (pre ++ a)) by (rewrite !length_app; lia).
  set (h0 := Z.lxor seed _); assert (Hh0 : u64 h0) by (apply uint_lxor; [lia | done | apply uint_mul; lia]); clearbody h0.
  destruct (words_loop_app n pre a h0 Hp Hh0) as (h1 & E1 & Hh1); destruct (words_loop_app n pre b h0 Hp Hh0) as (h2 & E2 & Hh2).
  assert (h1 = h2) as -> by (exact (words_loop_same n _ _ _ _ _ _ _ _ Hp E1 E2)).
  rewrite E1, E2; cbn [mbind option_bind]; intros [= <-] [= He]; apply finish_inj in He; [|by apply tail_word..].
  symmetry; by destruct (tail_hash_inj b a h2 h2) as [_ Heq]; try done; [lia | apply Heq].
Qed.

(** ** MurmurHash64B stays in its key *)

Lemma read_word_total n p : (n <= length p)%nat -> exists k, read_word n p = Some (k, drop n p).
Proof. intros Hn; unfold read_word; destruct (Nat.ltb_spec (length p) n); [lia | eauto]. Qed.
Lemma B_words_loop_total fuel : forall len p h1 h2, (len <= fuel)%nat -> length p = len ->
  exists len' p' h1' h2', B_words_loop fuel len p h1 h2 = Some (len', p', h1', h2') /\ length p' = len' /\ (len' < 8)%nat.
Proof.
  induction fuel as [|fuel IH]; intros len p h1 h2 Hf Hp; cbn [B_words_loop]; destruct (Nat.ltb_spec len 8); try lia; [eauto 8..|].
  destruct (read_word_total 4 p) as [k1 ->]; [lia|]; cbn [mbind option_bind]; destruct (read_word_total 4 (drop 4 p)) as [k2 ->]; [rewrite length_drop; lia|]; cbn [mbind option_bind].
  apply IH; [lia|]; rewrite !length_drop; lia.
Qed.
Lemma B_tail_total p i : forall h, (i <= length p)%nat -> is_Some (B_tail_cases i p h).
Proof.
  induction i as [|j IH]; intros h Hi; cbn [B_tail_cases]; [eauto|]; destruct (lookup_lt_is_Some_2 p j) as [b ->]; [lia|]; cbn [mbind option_bind]; apply IH; lia.
Qed.
Lemma join_words h1 h2 : uint 32 h1 -> uint 32 h2 -> u64 (Z.lor (Z.shiftl h1 32) h2).
Proof.
  intros H1 H2; apply uint_testbit; [lia | apply Z.lor_nonneg; rewrite Z.shiftl_mul_pow2 by lia; unfold uint in *; lia|]; intros i Hi.
  rewrite Z.lor_spec, Z.shiftl_spec, (testbit_above 32 h1), (testbit_above 32 h2) by (done || lia); done.
Qed.
Lemma hashB_total key seed : exists h, MurmurHash64B key (length key) seed = Some h /\ u64 h.
Proof.
  unfold MurmurHash64B; destruct (B_words_loop_total (length key) (length key) key (Z.lxor seed (Z.of_nat (length key))) 0) as (len & p & h1 & h2 & -> & Hp & Hlen); [done|done|].
  cbn [mbind option_bind]; assert (Hnext : exists len' p' h1', (if (4 <=? len)%nat then '(k1, p) ← read_word 4 p; Some ((len - 4)%nat, p, B_absorb h1 k1) else Some (len, p, h1))
      = Some (len', p', h1') /\ length p' = len').
  { destruct (Nat.leb_spec 4 len); [|by exists len, p, h1]; destruct (read_word_total 4 p) as [k ->]; [lia|]; cbn [mbind option_bind]; do 3 eexists; split; [done|]; rewrite length_drop; lia. }
  destruct Hnext as (len' & p' & h1' & -> & Hp'); cbn [mbind option_bind].
  assert (Htail : exists h2', match len' with O => Some h2 | i => (fun h => mul 32 h B_m) <$> B_tail_cases i p' h2 end = Some h2').
  { destruct len' as [|j]; [eauto|]; destruct (B_tail_total p' (S j) h2) as [x ->]; [lia | cbn; eauto]. }
  destruct Htail as [h2' ->]; cbn [mbind option_bind]; eexists; split; [done|]; apply join_words; apply uint_mul; lia.
Qed.

(** The hash of a string of bytes is a word of 64 bits and depends on no byte outside of
    the string; and two strings of the same length that differ only in one of their words of
    eight bytes, or only after the last whole word, have different hashes. *)
Lemma hash_separates n pre a b post :
  length pre = (8 * n)%nat -> length a = length b -> a <> b -> length a = 8%nat \/ ((length a < 8)%nat /\ post = []) ->
  Forall u8 (pre ++ a ++ post) -> Forall u8 b ->
  exists h h', HashString (pre ++ a ++ post) = Some h /\ HashString (pre ++ b ++ post) = Some h' /\ u64 h /\ u64 h' /\ h <> h'.
Proof.
  intros Hp Hab Hne Hcase Hu Hub; pose proof Hu as Hu'; rewrite !Forall_app in Hu'; destruct Hu' as (Hupre & Hua & Hpost).
  destruct (hash_total (pre ++ a ++ post) 0) as (h & Eh & Hh); [unfold uint; lia | done|].
  destruct (hash_total (pre ++ b ++ post) 0) as (h' & Eh' & Hh'); [unfold uint; lia | by rewrite !Forall_app|].
  exists h, h'; split_and!; try done; intros <-; apply Hne; destruct Hcase as [Ha|[Ha ->]].
  - apply (hash_word_differs n pre a b post 0 h); try done; (unfold uint; lia) || congruence.
  - rewrite app_nil_r in *; apply (hash_tail_differs n pre a b 0 h); try done; unfold uint; lia.
Qed.

Lemma hash_separates_witness :
  exists h h', HashString ([49; 50; 51; 52; 53; 54; 55; 56] ++ [97; 98; 99] ++ []) = Some h /\
    HashString ([49; 50; 51; 52; 53; 54; 55; 56] ++ [97; 98; 100] ++ []) = Some h' /\ u64 h /\ u64 h' /\ h <> h'.
Proof.
  apply (hash_separates 1); [done | done | done | right; cbn; split; [lia | done] | |]; cbn; repeat (apply list.Forall_cons; split; [unfold uint; lia|]); constructor.
Defined.

(** The two functions on some bytes. *)
Example murmur_abc : MurmurHash64A [97; 98; 99] 3 0 = Some 11297775770902552315.
Proof. vm_compute; reflexivity. Qed.
Example murmur_B : MurmurHash64B [97; 98; 99; 100; 101; 102; 103; 104; 105; 106; 107; 108; 109] 13 0 = Some 4309074204560906662.
Proof. vm_compute; reflexivity. Qed.
