(* ===== verification/Files.v ===== *)
(** * Memory files: src/qed/memory_file.h, mmap.cc, mem_block.cc

    Two classes give the bytes of a file as memory: [MmapedMemory] maps the file, [Memblock]
    reads it into allocated memory and writes it back when it is closed.  The results of the
    system calls are an argument.  [MemoryFile] is their common interface with its promises;
    what programs that use it can rely on is proved from these. *)
From Stdlib Require Import ZArith Lia.
From stdpp Require Import base gmap list option.
From S2P Require Import Prelude Strings.

Local Open Scope Z_scope.

(** The files by their names. *)
Abbreviation disk := (gmap bytes bytes).

(** What the system calls of one opening and closing do: [true] is success.  [reads] limits
    the reads, one after the other, [None] is a read that fails; [junk] is what allocated
    memory has before it is written. *)
Record calls : Type := mkCalls {
  c_open : bool; c_fstat : bool; c_truncate : bool; c_truncate_aligned : bool; c_fstat_again : bool; c_mmap : bool; c_malloc : bool;
  c_reads : list (option nat); c_junk : nat -> Z; c_write_open : bool; c_write : bool
}.
Definition all_succeed (c : calls) : Prop :=
  c_open c = true /\ c_fstat c = true /\ c_truncate c = true /\ c_fstat_again c = true /\ c_mmap c = true /\ c_malloc c = true /\
  Forall is_Some (c_reads c) /\ c_write_open c = true /\ c_write c = true.
#[global] Instance all_succeed_dec c : Decision (all_succeed c).
Proof. unfold all_succeed; apply _. Defined.

(** [ftruncate]: a file is cut, or filled up with zeros. *)
Definition resize (n : nat) (l : bytes) : bytes := take n l ++ replicate (n - length l) 0.
Arguments resize : simpl never.
Definition QED_SUPPORTED_HUGEPAGE_SIZE : Z := 2097152.
Definition AlignN (x align : Z) : Z := (x + (align - 1)) / align * align.

(** The beginning of both [Open]: the descriptor, the file is made if there is none and it is
    to be written; then its size, where a mapping has a second try with whole pages.  [None] is
    the error exit. *)
Definition open_file (c : calls) (name : bytes) (size : Z) (d : disk) : option (bytes * disk) :=
  if negb (c_open c) then None
  else
    match d !! name with
    | Some old => Some (old, d)
    | None => if size =? 0 then None else Some ([], <[name := []]> d)
    end.
Definition set_size (aligned : bool) (c : calls) (size : Z) (old : bytes) : option bytes * bytes :=
  if negb (c_fstat c) then (None, old)
  else if negb (0 <? size) then (Some old, old)
  else
    let aligned_size := AlignN size QED_SUPPORTED_HUGEPAGE_SIZE in
    let ready n := let l := resize (Z.to_nat n) old in (if c_fstat_again c then Some l else None, l) in
    if c_truncate c then ready size
    else if aligned && negb (aligned_size =? size) && c_truncate_aligned c then ready aligned_size
    else (None, old).

(** ** MmapedMemory *)

(** [address_] is a mapping of the file, of [size_] bytes; [writable] says how it was mapped. *)
Record MmapedMemory : Type := mkMmap { file_name_ : bytes; mapped : bool; writable : bool; size_ : Z }.
Definition new_MmapedMemory (file : bytes) : MmapedMemory := mkMmap file false false 0.

(** [None] is the exception. *)
Definition Mmap_Open (c : calls) (size : Z) (m : MmapedMemory) (d : disk) : option (Z * MmapedMemory * disk) :=
  if mapped m then None
  else
    match open_file c (file_name_ m) size d with
    | None => Some (0, m, d)
    | Some (old, d) =>
        let '(r, now) := set_size true c size old in
        let d := <[file_name_ m := now]> d in
        match r with
        | None => Some (0, m, d)
        | Some l =>
            let st_size := Z.of_nat (length l) in
            if c_mmap c && (0 <? st_size) then Some (st_size, mkMmap (file_name_ m) true (0 <? size) st_size, d)
            else Some (0, mkMmap (file_name_ m) false (writable m) 0, d)
        end
    end.
Definition Mmap_Close (m : MmapedMemory) : MmapedMemory := if mapped m then mkMmap (file_name_ m) false (writable m) 0 else m.

(** A store to the mapping of a file; [None] is a fault. *)
Definition Mmap_store (i : nat) (b : Z) (m : MmapedMemory) (d : disk) : option (MmapedMemory * disk) :=
  if mapped m && writable m && (Z.of_nat i <? size_ m) then l ← d !! file_name_ m; Some (m, <[file_name_ m := <[i := b]> l]> d) else None.

(** A load from it, through [Get] and within [Size]; [None] is outside of it. *)
Definition Mmap_load (i : nat) (m : MmapedMemory) (d : disk) : option Z :=
  if mapped m && (Z.of_nat i <? size_ m) then l ← d !! file_name_ m; l !! i else None.

(** ** Memblock *)

Record Memblock : Type := mkBlock { block_name : bytes; address_ : option bytes; read_only_ : bool }.
Definition new_Memblock (file : bytes) : Memblock := mkBlock file None false.

(** The loop that reads: what is left of the file, what was read; with whether the last read
    failed.  A read of a regular file gives at least a byte as long as there is one. *)
Fixpoint read_loop (reads : list (option nat)) (rest got : bytes) : bytes * bool :=
  match reads with
  | [] => (got ++ rest, true)
  | None :: _ => (got, false)
  | Some n :: reads => match take (S n) rest with [] => (got, true) | chunk => read_loop reads (drop (S n) rest) (got ++ chunk) end
  end.

(** Memory of the size of the file, of which a part was read. *)
Definition allocated (junk : nat -> Z) (n : nat) (got : bytes) : bytes := got ++ (junk <$> seq (length got) (n - length got)).
Arguments allocated : simpl never.

Definition Block_Open (c : calls) (size : Z) (m : Memblock) (d : disk) : option (Z * Memblock * disk) :=
  match address_ m with
  | Some _ => None
  | None =>
      let m := mkBlock (block_name m) None (size =? 0) in
      match open_file c (block_name m) size d with
      | None => Some (0, m, d)
      | Some (old, d) =>
          let '(r, now) := set_size false c size old in
          let d := <[block_name m := now]> d in
          match r with
          | None => Some (0, m, d)
          | Some l =>
              if negb (c_malloc c) then Some (0, m, d)
              else
                let '(got, ok) := read_loop (c_reads c) l [] in
                let m := mkBlock (block_name m) (Some (allocated (c_junk c) (length l) got)) (size =? 0) in
                if (length got =? length l)%nat && ok then Some (Z.of_nat (length l), m, d) else Some (0, m, d)
          end
      end
  end.

(** [Close], also of a block that was opened to be read; [None] is the exception, which leaves
    an empty file when it comes from the write. *)
Definition Block_Close (c : calls) (m : Memblock) (d : disk) : option (Memblock * disk) :=
  match address_ m with
  | None => Some (m, d)
  | Some l => if c_write_open c && c_write c then Some (mkBlock (block_name m) None (read_only_ m), <[block_name m := l]> d) else None
  end.
Definition Block_store (i : nat) (b : Z) (m : Memblock) (d : disk) : option (Memblock * disk) :=
  l ← address_ m; if (i <? length l)%nat then Some (mkBlock (block_name m) (Some (<[i := b]> l)) (read_only_ m), d) else None.

Definition Block_load (i : nat) (m : Memblock) : option Z := l ← address_ m; l !! i.

(** ** The interface *)

Class MemoryFile (M : Type) : Type := {
  mf_new : bytes -> M;
  mf_open : calls -> Z -> M -> disk -> option (Z * M * disk);
  mf_store : nat -> Z -> M -> disk -> option (M * disk);
  mf_load : nat -> M -> disk -> option Z;
  mf_close : calls -> M -> disk -> option (M * disk)
}.

(** A memory file holds bytes: they are what a program finds at [Get], up to [Size]. *)
Class MemoryFileOk (M : Type) `{MemoryFile M} : Type := {
  holds : M -> disk -> bytes -> bytes -> Prop;
  open_write_ok : forall c size name d, all_succeed c -> 0 < size ->
    exists m d', mf_open c size (mf_new name) d = Some (size, m, d') /\ holds m d' name (resize (Z.to_nat size) (default [] (d !! name))) /\
      delete name d' = delete name d;
  open_read_ok : forall c name d l, all_succeed c -> d !! name = Some l -> l <> [] ->
    exists m, mf_open c 0 (mf_new name) d = Some (Z.of_nat (length l), m, d) /\ forall i, mf_load i m d = l !! i;
  load_ok : forall m d name l, holds m d name l -> forall i, mf_load i m d = l !! i;
  store_ok : forall i b m d name l, holds m d name l -> (i < length l)%nat ->
    exists m' d', mf_store i b m d = Some (m', d') /\ holds m' d' name (<[i := b]> l) /\ delete name d' = delete name d;
  close_ok : forall c m d name l, all_succeed c -> holds m d name l ->
    exists m' d', mf_close c m d = Some (m', d') /\ d' = <[name := l]> d
}.

#[export] Instance mmap_file : MemoryFile MmapedMemory := {
  mf_new := new_MmapedMemory; mf_open := Mmap_Open; mf_store := Mmap_store; mf_load := Mmap_load; mf_close _ m d := Some (Mmap_Close m, d)
}.
#[export] Instance block_file : MemoryFile Memblock := {
  mf_new := new_Memblock; mf_open := Block_Open; mf_store := Block_store; mf_load i m _ := Block_load i m; mf_close := Block_Close
}.

Lemma length_resize n l : length (resize n l) = n.
Proof. unfold resize; rewrite length_app, length_take, length_replicate; lia. Qed.

Lemma open_file_ok c name size d : c_open c = true -> size <> 0 ->
  exists d', open_file c name size d = Some (default [] (d !! name), d') /\ delete name d' = delete name d.
Proof.
  intros Ho Hs; unfold open_file; rewrite Ho; cbn; destruct (d !! name) as [old|]; cbn; [eauto|].
  destruct (Z.eqb_spec size 0); [done|]; eexists; split; [done|]; apply delete_insert_eq.
Qed.
Lemma set_size_ok aligned c size old : all_succeed c -> 0 < size -> set_size aligned c size old = (Some (resize (Z.to_nat size) old), resize (Z.to_nat size) old).
Proof.
  intros (_ & Hf & Ht & Hf' & _) Hs; unfold set_size; rewrite Hf, Ht, Hf'; cbn; destruct (Z.ltb_spec 0 size); [done | lia].
Qed.
Lemma read_loop_all reads : Forall is_Some reads -> forall rest got, read_loop reads rest got = (got ++ rest, true).
Proof.
  induction 1 as [|r reads [n ->] _ IH]; intros rest got; [done|]; cbn [read_loop]; destruct rest as [|b rest]; [cbn; by rewrite app_nil_r|].
  cbn [take]; rewrite IH, <- (assoc_L (++)); cbn; by rewrite take_drop.
Qed.
Lemma allocated_all junk l : allocated junk (length l) l = l.
Proof. unfold allocated; rewrite Nat.sub_diag; cbn; apply app_nil_r. Qed.

Lemma Mmap_load_all m d name (l : bytes) :
  file_name_ m = name -> mapped m = true -> size_ m = Z.of_nat (length l) -> d !! name = Some l -> forall i, Mmap_load i m d = l !! i.
Proof.
  intros Hn Hm Hs Hd i; unfold Mmap_load; rewrite Hm, Hs, Hn, Hd; cbn.
  destruct (Z.ltb_spec (Z.of_nat i) (Z.of_nat (length l))); [done|]; symmetry; apply lookup_ge_None; lia.
Qed.

#[export] Instance mmap_file_ok : MemoryFileOk MmapedMemory.
Proof.
  refine {| holds m d name l := file_name_ m = name /\ mapped m = true /\ writable m = true /\ size_ m = Z.of_nat (length l) /\ d !! name = Some l |}.
  - intros c size name d Hc Hs; pose proof Hc as (Ho & _ & _ & _ & Hm & _); destruct (open_file_ok c name size d Ho) as (d' & He & Hd'); [lia|].
    cbn; unfold Mmap_Open; cbn; rewrite He, set_size_ok, Hm by done; rewrite length_resize, Z2Nat.id by lia; cbn.
    destruct (Z.ltb_spec 0 size); [|lia]; do 2 eexists; split; [done|].
    rewrite lookup_insert_eq, delete_insert_eq; done.
  - intros c name d l Hc Hd Hl; pose proof Hc as (Ho & Hf & _ & _ & Hm & _); cbn; unfold Mmap_Open, open_file, set_size; cbn; rewrite Ho, Hd, Hf, Hm; cbn.
    rewrite insert_id by done; destruct l; [done|]; eexists; split; [done|]; by eapply Mmap_load_all.
  - intros m d name l (Hn & Hm & _ & Hs & Hd); by eapply Mmap_load_all.
  - intros i b m d name l (Hn & Hm & Hw & Hs & Hd) Hi; cbn; unfold Mmap_store; rewrite Hm, Hw, Hs, Hn, Hd; destruct (Z.ltb_spec (Z.of_nat i) (Z.of_nat (length l))); [|lia].
    cbn; do 2 eexists; split; [done|]; rewrite length_insert, lookup_insert_eq, delete_insert_eq; done.
  - intros c m d name l _ (Hn & Hm & _ & _ & Hd); cbn; do 2 eexists; split; [done|]; by rewrite insert_id.
Defined.

#[export] Instance block_file_ok : MemoryFileOk Memblock.
Proof.
  refine {| holds m d name l := block_name m = name /\ address_ m = Some l |}.
  - intros c size name d Hc Hs; pose proof Hc as (Ho & _ & _ & _ & _ & Hm & Hr & _); destruct (open_file_ok c name size d Ho) as (d' & He & Hd'); [lia|].
    cbn; unfold Block_Open; cbn; rewrite He, set_size_ok, Hm, read_loop_all by done; cbn; rewrite Nat.eqb_refl; cbn; rewrite allocated_all, length_resize, Z2Nat.id by lia.
    do 2 eexists; split; [done|]; split; [done|]; by rewrite delete_insert_eq.
  - intros c name d l Hc Hd Hl; pose proof Hc as (Ho & Hf & _ & _ & _ & Hm & Hr & _); cbn; unfold Block_Open, open_file, set_size; cbn; rewrite Ho, Hd, Hf, Hm; cbn; rewrite read_loop_all by done; cbn.
    rewrite Nat.eqb_refl, insert_id by done; cbn; eexists; split; [done|]; intros i; cbn; by rewrite allocated_all.
  - intros m d name l [_ Ha] i; cbn; unfold Block_load; by rewrite Ha.
  - intros i b m d name l [Hn Ha] Hi; cbn; unfold Block_store; rewrite Ha; cbn [mbind option_bind]; destruct (Nat.ltb_spec i (length l)); [|lia].
    do 2 eexists; split; [reflexivity|].
    split; [split; [exact Hn | reflexivity] | reflexivity].
  - intros c m d name l (_ & _ & _ & _ & _ & _ & _ & Hw & Hw') [Hn Ha]; cbn; unfold Block_Close; rewrite Ha, Hw, Hw'; cbn; rewrite Hn; eauto.
Defined.

(** ** Sessions *)

(** A session opens a file with a size, stores some bytes and closes it. *)
Inductive impl : Type := UseMmap | UseBlock.
Record session : Type := mkSession { s_impl : impl; s_calls : calls; s_name : bytes; s_size : Z; s_stores : list (nat * Z) }.

Section Session.
Context {M : Type} `{MemoryFileOk M}.
Fixpoint store_all (l : list (nat * Z)) (m : M) (d : disk) : option (M * disk) :=
  match l with [] => Some (m, d) | (i, b) :: l => '(m, d) ← mf_store i b m d; store_all l m d end.
Definition run_session (s : session) (d : disk) : option disk :=
  '(n, m, d) ← mf_open (s_calls s) (s_size s) (mf_new (s_name s)) d;
  '(m, d) ← store_all (s_stores s) m d;
  snd <$> mf_close (s_calls s) m d.

Definition stored (l : bytes) (stores : list (nat * Z)) : bytes := foldl (fun l '(i, b) => <[i := b]> l) l stores.

Lemma store_all_ok stores : forall m d name l,
  holds m d name l -> Forall (fun s => (s.1 < length l)%nat) stores ->
  exists m' d', store_all stores m d = Some (m', d') /\ holds m' d' name (stored l stores) /\ delete name d' = delete name d.
Proof.
  induction stores as [|[i b] stores IH]; intros m d name l Hh Hs; cbn [store_all]; [do 2 eexists; split_and!; done|].
  apply list.Forall_cons in Hs as [Hi Hs]; cbn in Hi; destruct (store_ok i b m d name l Hh Hi) as (m1 & d1 & -> & H1 & Hd1); cbn [mbind option_bind].
  destruct (IH m1 d1 name (<[i := b]> l) H1) as (m2 & d2 & Hr & H2 & Hd2); [by rewrite length_insert|].
  exists m2, d2; split_and!; [done | done | congruence].
Qed.
Lemma run_session_ok s d :
  all_succeed (s_calls s) -> 0 < s_size s -> Forall (fun x => (x.1 < Z.to_nat (s_size s))%nat) (s_stores s) ->
  run_session s d = Some (<[s_name s := stored (resize (Z.to_nat (s_size s)) (default [] (d !! s_name s))) (s_stores s)]> d).
Proof.
  intros Hc Hs Hst; unfold run_session; destruct (open_write_ok (s_calls s) (s_size s) (s_name s) d Hc Hs) as (m & d1 & -> & Hh & Hd1); cbn [mbind option_bind].
  destruct (store_all_ok (s_stores s) m d1 _ _ Hh) as (m2 & d2 & -> & Hh2 & Hd2); [by rewrite length_resize|]; cbn [mbind option_bind].
  destruct (close_ok (s_calls s) m2 d2 _ _ Hc Hh2) as (m3 & d3 & -> & ->); cbn; f_equal.
  rewrite <- insert_delete_eq, Hd2, Hd1; apply insert_delete_eq.
Qed.
End Session.

Definition run_impl (s : session) : disk -> option disk :=
  match s_impl s with UseMmap => run_session (M := MmapedMemory) s | UseBlock => run_session (M := Memblock) s end.
Fixpoint run_sessions (l : list session) (d : disk) : option disk := match l with [] => Some d | s :: l => d ← run_impl s d; run_sessions l d end.

(** The specification: files are bytes that sessions resize and change. *)
Definition session_ok (s : session) : Prop :=
  all_succeed (s_calls s) /\ 0 < s_size s /\ Forall (fun x => (x.1 < Z.to_nat (s_size s))%nat) (s_stores s).
#[global] Instance session_ok_dec s : Decision (session_ok s).
Proof. unfold session_ok; apply _. Defined.
Definition after_session (d : disk) (s : session) : disk :=
  <[s_name s := stored (resize (Z.to_nat (s_size s)) (default [] (d !! s_name s))) (s_stores s)]> d.

(** C34: files keep what is stored in them.  A sequence of sessions on any files, each by either
    class, in which all system calls succeed and the stores are within the size that was asked
    for, leaves in each file the bytes that the sessions stored one after the other, whatever
    pieces the reads give.  Opening a file that is not empty to read, by either class and with
    system calls that succeed, returns its length and leaves the disk as it is, and a load at any
    offset of the memory then gives the byte of the file, and nothing behind its end. *)
Theorem sessions_persist l d :
  Forall session_ok l ->
  run_sessions l d = Some (foldl after_session d l) /\
  forall c name bytes, all_succeed c -> foldl after_session d l !! name = Some bytes -> bytes <> [] ->
    (exists m, Mmap_Open c 0 (new_MmapedMemory name) (foldl after_session d l) = Some (Z.of_nat (length bytes), m, foldl after_session d l) /\
       forall i, Mmap_load i m (foldl after_session d l) = bytes !! i) /\
    (exists m, Block_Open c 0 (new_Memblock name) (foldl after_session d l) = Some (Z.of_nat (length bytes), m, foldl after_session d l) /\
       forall i, Block_load i m = bytes !! i).
Proof.
  intros Hl; split.
  - revert d; induction Hl as [|s l (Hc & Hs & Hst) _ IH]; intros d; [done|]; cbn [run_sessions foldl].
    assert (Hr : run_impl s d = Some (after_session d s)) by (unfold run_impl; destruct (s_impl s); by apply run_session_ok).
    rewrite Hr; apply IH.
  - intros c name b Hc Hb Hne; split; [exact (open_read_ok (M := MmapedMemory) c name _ b Hc Hb Hne) | exact (open_read_ok (M := Memblock) c name _ b Hc Hb Hne)].
Qed.

Definition good_calls : calls := mkCalls true true true true true true true [Some 0%nat; Some 1%nat] (fun _ => 255) true true.
Definition some_sessions : list session :=
  [mkSession UseMmap good_calls [97] 4 [(1%nat, 7)]; mkSession UseBlock good_calls [97] 6 [(5%nat, 9)]; mkSession UseBlock good_calls [98] 1 [];
   mkSession UseMmap good_calls [97] 5 [(0%nat, 1); (0%nat, 2)]].
Lemma sessions_persist_witness :
  run_sessions some_sessions ∅ = Some (<[ [97] := [2; 7; 0; 0; 0] ]> {[ [98] := [0] ]}) /\
  exists m, Block_Open good_calls 0 (new_Memblock [97]) (<[ [97] := [2; 7; 0; 0; 0] ]> {[ [98] := [0] ]}) =
              Some (5, m, <[ [97] := [2; 7; 0; 0; 0] ]> {[ [98] := [0] ]}) /\ Block_load 1 m = Some 7.
Proof.
  destruct (sessions_persist some_sessions ∅) as [H1 H2]; [apply (bool_decide_unpack _); vm_compute; exact I|].
  assert (E : foldl after_session ∅ some_sessions = <[ [97] := [2; 7; 0; 0; 0] ]> {[ [98] := [0] ]}) by (vm_compute; reflexivity).
  rewrite E in H1, H2; split; [exact H1|].
  destruct (H2 good_calls [97] [2; 7; 0; 0; 0]) as (_ & m & Hm & Hload); [apply (bool_decide_unpack _); vm_compute; exact I | reflexivity | discriminate|].
  exists m; split; [exact Hm | exact (Hload 1%nat)].
Defined.

(** ** What the classes do beyond that *)

(** A read that fails leaves the block open with memory that was never written, and closing it
    (which its destructor does) writes that over the file. *)
Lemma failed_read_destroys_file c name d l m d' n :
  all_succeed c -> d !! name = Some l -> l <> [] ->
  Block_Open (mkCalls true true true true true true true [None] (c_junk c) true true) 0 (new_Memblock name) d = Some (n, m, d') ->
  n = 0 /\ exists m', Block_Close c m d' = Some (m', <[name := c_junk c <$> seq 0 (length l)]> d).
Proof.
  intros (_ & _ & _ & _ & _ & _ & _ & Hw & Hw') Hd Hl; unfold Block_Open, open_file, set_size; cbn; rewrite Hd; cbn.
  destruct l as [|b l]; [done|]; cbn; intros [= <- <- <-]; split; [done|]; unfold Block_Close; cbn; rewrite Hw, Hw'; cbn.
  eexists; rewrite insert_insert_eq; unfold allocated; cbn; done.
Qed.

(** A block that was opened to be read writes what it read when it is closed: changes that
    were made to the file in between are lost. *)
Lemma reader_writes_back c name d l l' m d' n :
  all_succeed c -> d !! name = Some l -> l <> [] -> Block_Open c 0 (new_Memblock name) d = Some (n, m, d') ->
  read_only_ m = true /\ exists m', Block_Close c m (<[name := l']> d') = Some (m', d).
Proof.
  intros Hc Hd Hl; pose proof Hc as (Ho & Hf & _ & _ & _ & Hm & Hr & Hw & Hw'); unfold Block_Open, open_file, set_size; cbn; rewrite Ho, Hd, Hf, Hm; cbn; rewrite read_loop_all by done; cbn.
  rewrite Nat.eqb_refl; cbn; intros [= <- <- <-]; split; [done|]; unfold Block_Close; cbn; rewrite Hw, Hw'; cbn; rewrite allocated_all; eexists; f_equal; f_equal.
  by rewrite !insert_insert_eq, insert_id.
Qed.

(** An empty file is opened, but the result is that of a failure, and a second try throws. *)
Example empty_file_is_open : exists m,
  Block_Open good_calls 0 (new_Memblock [97]) {[ [97] := [] ]} = Some (0, m, {[ [97] := [] ]}) /\ Block_Open good_calls 0 m {[ [97] := [] ]} = None.
Proof. eexists; split; vm_compute; reflexivity. Qed.
