(* ===== verification/Plugins.v ===== *)
(** * Plugins: src/orc/plugin

    The manager loads the shared libraries below a directory, or those that a configuration
    file names, and indexes them by name, module and tag.  The file system, the dynamic loader
    and the YAML library are arguments. *)
From Stdlib Require Import ZArith Lia.
From stdpp Require Import base gmap list option.
From S2P Require Import Prelude Strings.

Local Open Scope Z_scope.

(** [struct PluginInfo]; [class Plugin]. *)
Record PluginInfo : Type := mkInfo { name : bytes; module_name : bytes; tags : list bytes; interfaces : gmap bytes Z }.
Record Plugin : Type := mkPlugin { path_ : bytes; plugin_info_ : option PluginInfo; raw_lib_ : option Z }.

Inductive file_type : Type := Directory | Regular | OtherType.

(** The value of the key plugins in a configuration file: the file cannot be loaded, there is no
    such key, it is no sequence, or a sequence whose entries may be no strings. *)
Inductive plugin_conf : Type := NoYaml | NoPlugins | NoSequence | Paths (l : list (option bytes)).

(** The system: paths, directories, and [dlopen], which gives a handle, and what the entry
    function of a library gives, if it has one. *)
Class System : Type := {
  realpath : bytes -> option bytes;
  stat : bytes -> option file_type;
  opendir : bytes -> option (list bytes);
  yaml_plugins : bytes -> plugin_conf;
  dlopen : bytes -> option Z;
  entry_func : Z -> option (option PluginInfo)
}.

(** [class PluginMgr], with the handles that are open; a pointer to a plugin is its place in
    [plugins_]. *)
Record PluginMgr : Type := mkMgr {
  plugins_ : list Plugin;
  name_idx_ : gmap bytes (list nat);
  module_idx_ : gmap bytes (list nat);
  tag_idx_ : gmap bytes (list nat);
  module_tag_idx_ : gmap bytes (gmap bytes (list nat));
  open_libs : list Z
}.
Definition new_PluginMgr : PluginMgr := mkMgr [] ∅ ∅ ∅ ∅ [].
Definition with_plugins (l : list Plugin) (libs : list Z) (m : PluginMgr) : PluginMgr :=
  mkMgr l (name_idx_ m) (module_idx_ m) (tag_idx_ m) (module_tag_idx_ m) libs.

(** A path below a directory. *)
Definition below (dir file : bytes) : bytes := dir ++ 47 :: file.
Definition kPluginConfig : bytes := [112; 108; 117; 103; 105; 110; 46; 121; 97; 109; 108].
Definition dot_so : bytes := [46; 115; 111].

Section Load.
Context `{System}.

(** [Plugin::Init]: the handle is kept also when the entry function is missing or gives null. *)
Definition Plugin_Init (path : bytes) (libs : list Z) : bool * Plugin * list Z :=
  match dlopen path with
  | None => (false, mkPlugin path None None, libs)
  | Some h =>
      match entry_func h with
      | Some (Some info) => (true, mkPlugin path (Some info) (Some h), h :: libs)
      | _ => (false, mkPlugin path None (Some h), h :: libs)
      end
  end.

(** [~Plugin]: the library is closed once. *)
Fixpoint close_one (h : Z) (libs : list Z) : list Z := match libs with [] => [] | x :: l => if x =? h then l else x :: close_one h l end.
Definition Plugin_destroy (p : Plugin) (libs : list Z) : list Z := match raw_lib_ p with Some h => close_one h libs | None => libs end.

(** [Plugin::GetInterface]. *)
Definition GetInterface (key : bytes) (p : Plugin) : option Z := info ← plugin_info_ p; interfaces info !! key.

Definition is_lib (file : bytes) : bool := negb ((length file <=? 3)%nat || negb (bool_decide (drop (length file - 3) file = dot_so))).
Definition LoadFile (file : bytes) (m : PluginMgr) : bool * PluginMgr :=
  if negb (is_lib file) then (true, m)
  else
    let '(ok, p, libs) := Plugin_Init file (open_libs m) in
    if ok then (true, with_plugins (plugins_ m ++ [p]) libs m) else (false, with_plugins (plugins_ m) (Plugin_destroy p libs) m).

(** The loop of [LoadDirectory] and the one of [LoadPluginsByConf], both stop at the first
    failure; [None] is the end of the fuel. *)
Section Loop.
Context (load : bytes -> PluginMgr -> option (bool * PluginMgr)).
Definition is_dots (d_name : bytes) : bool := bool_decide (d_name = [46]) || bool_decide (d_name = [46; 46]).
Fixpoint LoadDirectory (dir : bytes) (ents : list bytes) (m : PluginMgr) : option (bool * PluginMgr) :=
  match ents with
  | [] => Some (true, m)
  | ent :: ents =>
      if is_dots ent then LoadDirectory dir ents m
      else '(ok, m) ← load (below dir ent) m; if negb ok then Some (false, m) else LoadDirectory dir ents m
  end.
Fixpoint LoadSequence (path : bytes) (l : list (option bytes)) (m : PluginMgr) : option (bool * PluginMgr) :=
  match l with
  | [] => Some (true, m)
  | None :: _ => Some (false, m)
  | Some p :: l => '(ok, m) ← load (below path p) m; if negb ok then Some (false, m) else LoadSequence path l m
  end.
End Loop.

Fixpoint LoadPlugins (fuel : nat) (path : bytes) (m : PluginMgr) : option (bool * PluginMgr) :=
  match fuel with
  | O => None
  | S fuel =>
      match stat path with
      | None => Some (false, m)
      | Some Directory => match opendir path with None => Some (false, m) | Some ents => LoadDirectory (LoadPlugins fuel) path ents m end
      | Some Regular => Some (LoadFile path m)
      | Some OtherType => Some (false, m)
      end
  end.

Definition IsExsitPluginConf (path : bytes) : bool :=
  match stat (below path kPluginConfig) with Some Regular => true | _ => false end.
Definition LoadPluginsByConf (fuel : nat) (path : bytes) (m : PluginMgr) : option (bool * PluginMgr) :=
  match yaml_plugins (below path kPluginConfig) with
  | NoYaml | NoPlugins | NoSequence => Some (false, m)
  | Paths l => LoadSequence (LoadPlugins fuel) path l m
  end.
End Load.

(** [BuildIndex]: a plugin goes to the end of each list it belongs to. *)
Definition add_to (k : bytes) (i : nat) (idx : gmap bytes (list nat)) : gmap bytes (list nat) := <[k := default [] (idx !! k) ++ [i]]> idx.
Definition index_tag (module : bytes) (i : nat) (idx : gmap bytes (list nat) * gmap bytes (gmap bytes (list nat))) (tag : bytes) :
    gmap bytes (list nat) * gmap bytes (gmap bytes (list nat)) :=
  (add_to tag i idx.1, <[module := add_to tag i (default ∅ (idx.2 !! module))]> idx.2).
Definition index_plugin (m : PluginMgr) (ip : nat * Plugin) : option PluginMgr :=
  pi ← plugin_info_ ip.2;
  let '(t, mt) := foldl (index_tag (module_name pi) ip.1) (tag_idx_ m, module_tag_idx_ m) (tags pi) in
  Some (mkMgr (plugins_ m) (add_to (name pi) ip.1 (name_idx_ m)) (add_to (module_name pi) ip.1 (module_idx_ m)) t mt (open_libs m)).
Fixpoint index_all (l : list (nat * Plugin)) (m : PluginMgr) : option PluginMgr :=
  match l with [] => Some m | ip :: l => m ← index_plugin m ip; index_all l m end.
Definition BuildIndex (m : PluginMgr) : option PluginMgr := index_all (zip (seq 0 (length (plugins_ m))) (plugins_ m)) m.

(** [Init]; [None] is the end of the fuel (or a plugin without information, which is never
    kept). *)
Definition Init `{System} (fuel : nat) (path : bytes) (m : PluginMgr) : option (bool * PluginMgr) :=
  match realpath path with
  | None => Some (false, m)
  | Some real_path =>
      '(ok, m) ← (if IsExsitPluginConf real_path then LoadPluginsByConf fuel real_path m else LoadPlugins fuel real_path m);
      if negb ok then Some (false, m) else m ← BuildIndex m; Some (true, m)
  end.

(** The searches. *)
Definition FindPluginByName (n : bytes) (m : PluginMgr) : list nat := default [] (name_idx_ m !! n).
Definition FindPluginByModule (module : bytes) (m : PluginMgr) : list nat := default [] (module_idx_ m !! module).
Definition FindPluginByTag (tag : bytes) (m : PluginMgr) : list nat := default [] (tag_idx_ m !! tag).
Definition info_is (f : PluginInfo -> bool) (m : PluginMgr) (i : nat) : bool :=
  match plugins_ m !! i with Some p => match plugin_info_ p with Some pi => f pi | None => false end | None => false end.
Definition FindPluginByModuleName (module n : bytes) (m : PluginMgr) : list nat :=
  match name_idx_ m !! n with
  | None => []
  | Some l => filter (fun i => info_is (fun pi => bool_decide (module_name pi = module)) m i = true) l
  end.
Definition FindPluginByModuleTag (module tag : bytes) (m : PluginMgr) : list nat :=
  match module_tag_idx_ m !! module with None => [] | Some idx => default [] (idx !! tag) end.
Definition FindPluginByModuleTagName (module tag n : bytes) (m : PluginMgr) : list nat :=
  match module_tag_idx_ m !! module with
  | None => []
  | Some idx =>
      match idx !! tag with
      | None => []
      | Some l => filter (fun i => info_is (fun pi => bool_decide (name pi = n)) m i = true) l
      end
  end.

(** ** The index *)

(** How often a tag is in a list; the places of plugins, each as often as [f] says. *)
Fixpoint occurrences (tag : bytes) (l : list bytes) : nat :=
  match l with [] => 0 | t :: l => if decide (t = tag) then S (occurrences tag l) else occurrences tag l end.
Fixpoint where_from (f : PluginInfo -> nat) (start : nat) (l : list Plugin) : list nat :=
  match l with
  | [] => []
  | p :: l => replicate (match plugin_info_ p with Some pi => f pi | None => 0 end) start ++ where_from f (S start) l
  end.
Definition where_ (f : PluginInfo -> nat) (l : list Plugin) : list nat := where_from f 0 l.
Definition one (P : Prop) `{Decision P} : nat := if decide P then 1 else 0.

Definition get (idx : gmap bytes (list nat)) (k : bytes) : list nat := default [] (idx !! k).
Definition get2 (idx : gmap bytes (gmap bytes (list nat))) (module k : bytes) : list nat := get (default ∅ (idx !! module)) k.

Lemma get_add_to k i idx k' : get (add_to k i idx) k' = get idx k' ++ replicate (one (k = k')) i.
Proof.
  unfold get, add_to, one; destruct (decide (k = k')) as [->|Hk]; [by rewrite lookup_insert_eq | rewrite lookup_insert_ne by done; cbn; by rewrite app_nil_r].
Qed.
Lemma get2_insert module idx x module' k : get2 (<[module := x]> idx) module' k = if decide (module = module') then get x k else get2 idx module' k.
Proof. unfold get2; destruct (decide (module = module')) as [->|Hm]; [by rewrite lookup_insert_eq | by rewrite lookup_insert_ne]. Qed.

Lemma get2_empty module k : get2 ∅ module k = [].
Proof. unfold get2, get; by rewrite lookup_empty; cbn; rewrite lookup_empty. Qed.

Lemma replicate_app {A} a b (x : A) : replicate a x ++ replicate b x = replicate (a + b) x.
Proof. symmetry; apply replicate_add. Qed.

Lemma index_tags_spec module i ts : forall idx, let idx' := foldl (index_tag module i) idx ts in
  (forall k, get idx'.1 k = get idx.1 k ++ replicate (occurrences k ts) i) /\
  (forall m k, get2 idx'.2 m k = get2 idx.2 m k ++ replicate (if decide (module = m) then occurrences k ts else 0) i).
Proof.
  induction ts as [|t ts IH]; intros [a b]; cbn [foldl].
  - split; intros; cbn; [by rewrite app_nil_r|]; destruct (decide _); cbn; by rewrite app_nil_r.
  - destruct (IH (index_tag module i (a, b) t)) as [H1 H2]; split.
    + intros k; rewrite H1; cbn [index_tag fst]; rewrite get_add_to, <- (assoc_L (++)), replicate_app; do 2 f_equal; cbn; unfold one; destruct (decide (t = k)); lia.
    + intros m k; rewrite H2; cbn [index_tag snd]; rewrite get2_insert; destruct (decide (module = m)) as [->|]; [|done].
      rewrite get_add_to, <- (assoc_L (++)), replicate_app; unfold get2; do 2 f_equal; cbn; unfold one; destruct (decide (t = k)); lia.
Qed.

(** What each index has for a plugin. *)
Definition in_name (n : bytes) (pi : PluginInfo) : nat := one (name pi = n).
Definition in_module (module : bytes) (pi : PluginInfo) : nat := one (module_name pi = module).
Definition in_tag (tag : bytes) (pi : PluginInfo) : nat := occurrences tag (tags pi).
Definition in_module_tag (module tag : bytes) (pi : PluginInfo) : nat := if decide (module_name pi = module) then occurrences tag (tags pi) else 0%nat.

Lemma index_all_spec l : forall start m, Forall (fun p => is_Some (plugin_info_ p)) l ->
  exists m', index_all (zip (seq start (length l)) l) m = Some m' /\ plugins_ m' = plugins_ m /\ open_libs m' = open_libs m /\
    (forall k, get (name_idx_ m') k = get (name_idx_ m) k ++ where_from (in_name k) start l) /\
    (forall k, get (module_idx_ m') k = get (module_idx_ m) k ++ where_from (in_module k) start l) /\
    (forall k, get (tag_idx_ m') k = get (tag_idx_ m) k ++ where_from (in_tag k) start l) /\
    (forall mo k, get2 (module_tag_idx_ m') mo k = get2 (module_tag_idx_ m) mo k ++ where_from (in_module_tag mo k) start l).
Proof.
  induction l as [|p l IH]; intros start m Hl.
  - exists m; split_and!; try done; intros; by rewrite app_nil_r.
  - change (zip (seq start (length (p :: l))) (p :: l)) with ((start, p) :: zip (seq (S start) (length l)) l); cbn [index_all where_from].
    apply list.Forall_cons in Hl as [[pi Hpi] Hl]; unfold index_plugin at 1; cbn [fst snd]; rewrite Hpi; cbn [mbind option_bind].
    destruct (index_tags_spec (module_name pi) start (tags pi) (tag_idx_ m, module_tag_idx_ m)) as [Ht Hmt].
    destruct (foldl _ _ _) as [t mt]; cbn [fst snd] in *; cbn [mbind option_bind].
    destruct (IH (S start) (mkMgr (plugins_ m) (add_to (name pi) start (name_idx_ m)) (add_to (module_name pi) start (module_idx_ m)) t mt (open_libs m)) Hl)
      as (m' & -> & Hp & Ho & H1 & H2 & H3 & H4); exists m'; cbn in *; split_and!; try done.
    + intros k; by rewrite H1, get_add_to, <- (assoc_L (++)).
    + intros k; by rewrite H2, get_add_to, <- (assoc_L (++)).
    + intros k; by rewrite H3, Ht, <- (assoc_L (++)).
    + intros mo k; by rewrite H4, Hmt, <- (assoc_L (++)).
Qed.

(** The searches that filter. *)
Lemma filter_where (g : PluginInfo -> bool) (f : PluginInfo -> nat) m l : forall start,
  (forall i p, l !! i = Some p -> plugins_ m !! (start + i)%nat = Some p) ->
  filter (fun i => info_is g m i = true) (where_from f start l) = where_from (fun pi => if g pi then f pi else 0%nat) start l.
Proof.
  induction l as [|p l IH]; intros start Hl; [done|]; cbn [where_from]; rewrite list.filter_app, IH.
  - f_equal; pose proof (Hl 0%nat p eq_refl) as H0; rewrite Nat.add_0_r in H0.
    assert (Hi : info_is g m start = match plugin_info_ p with Some pi => g pi | None => false end) by (unfold info_is; by rewrite H0).
    destruct (plugin_info_ p) as [pi|]; [|done]; destruct (g pi) eqn:E; induction (f pi) as [|n IHn]; cbn [replicate]; try done.
    + rewrite filter_cons_True by done; by f_equal.
    + rewrite filter_cons_False by (rewrite Hi; done); exact IHn.
  - intros i q Hi; rewrite <- (Hl (S i) q Hi); f_equal; lia.
Qed.

(** ** Loading *)

Section Loading.
Context `{System}.

(** The libraries below a path, in the order of the directories. *)
Inductive walks : bytes -> list bytes -> Prop :=
| w_dir path ents fs : stat path = Some Directory -> opendir path = Some ents ->
    walks_all (below path <$> filter (fun e => is_dots e = false) ents) fs -> walks path fs
| w_lib path : stat path = Some Regular -> is_lib path = true -> walks path [path]
| w_file path : stat path = Some Regular -> is_lib path = false -> walks path []
with walks_all : list bytes -> list bytes -> Prop :=
| ws_nil : walks_all [] []
| ws_cons p ps f1 f2 : walks p f1 -> walks_all ps f2 -> walks_all (p :: ps) (f1 ++ f2).
Scheme walks_ind' := Minimality for walks Sort Prop with walks_all_ind' := Minimality for walks_all Sort Prop.
Combined Scheme walks_mutind from walks_ind', walks_all_ind'.

(** The plugin of a library that can be loaded. *)
Definition loads (file : bytes) : option Plugin :=
  h ← dlopen file; x ← entry_func h; info ← x; Some (mkPlugin file (Some info) (Some h)).
Definition handles (l : list Plugin) : list Z := reverse (omap raw_lib_ l).
Arguments handles : simpl never.

Lemma loads_info file p : loads file = Some p -> is_Some (plugin_info_ p).
Proof. unfold loads; destruct (dlopen file) as [h|]; [|done]; cbn; destruct (entry_func h) as [[info|]|]; cbn; intros E; simplify_eq/=; eauto. Qed.

Lemma LoadFile_ok file m : open_libs m = handles (plugins_ m) ->
  let '(ok, m') := LoadFile file m in
  open_libs m' = handles (plugins_ m') /\
  if ok then (if is_lib file then exists p, loads file = Some p /\ m' = with_plugins (plugins_ m ++ [p]) (handles (plugins_ m ++ [p])) m else m' = m)
  else is_lib file = true /\ loads file = None /\ plugins_ m' = plugins_ m.
Proof.
  intros Ho; unfold LoadFile; destruct (is_lib file); cbn [negb]; [|done]; unfold Plugin_Init, loads.
  assert (Hadd : forall p h, raw_lib_ p = Some h -> handles (plugins_ m ++ [p]) = h :: open_libs m).
  { intros p h Hp; unfold handles; rewrite omap_app; cbn; rewrite Hp; cbn; rewrite reverse_app; cbn; by rewrite Ho. }
  destruct (dlopen file) as [h|]; cbn; [|done]; destruct (entry_func h) as [[info|]|]; cbn; rewrite ?Z.eqb_refl; [|by split_and!..].
  rewrite (Hadd _ h) by done; split; [done|]; eexists; split; [done|]; by rewrite (Hadd _ h).
Qed.

(** A manager after some plugins were added. *)
Definition added (ps : list Plugin) (m : PluginMgr) : PluginMgr := with_plugins (plugins_ m ++ ps) (handles (plugins_ m ++ ps)) m.
Lemma added_nil m : open_libs m = handles (plugins_ m) -> added [] m = m.
Proof. unfold added, with_plugins; intros Ho; rewrite app_nil_r, <- Ho; by destruct m. Qed.
Lemma added_app a b m : added b (added a m) = added (a ++ b) m.
Proof. unfold added, with_plugins; cbn; by rewrite <- !(assoc_L (++)). Qed.

(** Both loops load a list of paths. *)
Fixpoint load_list (load : bytes -> PluginMgr -> option (bool * PluginMgr)) (paths : list bytes) (m : PluginMgr) : option (bool * PluginMgr) :=
  match paths with
  | [] => Some (true, m)
  | p :: paths => '(ok, m) ← load p m; if negb ok then Some (false, m) else load_list load paths m
  end.
Lemma LoadDirectory_list load dir ents : forall m, LoadDirectory load dir ents m = load_list load (below dir <$> filter (fun e => is_dots e = false) ents) m.
Proof.
  induction ents as [|e ents IH]; intros m; [done|]; cbn [LoadDirectory]; destruct (is_dots e) eqn:E.
  - rewrite filter_cons_False by (rewrite E; done); apply IH.
  - rewrite filter_cons_True by done; cbn [fmap list_fmap load_list]; destruct (load (below dir e) m) as [[[] m1]|]; cbn; try done; apply IH.
Qed.
Lemma LoadSequence_list load path l : forall m, LoadSequence load path (Some <$> l) m = load_list load (below path <$> l) m.
Proof.
  induction l as [|e l IH]; intros m; [done|]; cbn [fmap list_fmap LoadSequence load_list]; destruct (load (below path e) m) as [[[] m1]|]; cbn; try done; apply IH.
Qed.

(** What can be walked and loaded is loaded, with enough fuel. *)
Lemma loads_all :
  (forall path fs, walks path fs -> forall ps, Forall2 (fun f p => loads f = Some p) fs ps ->
     exists n, forall fuel m, (n <= fuel)%nat -> open_libs m = handles (plugins_ m) -> LoadPlugins fuel path m = Some (true, added ps m)) /\
  (forall paths fs, walks_all paths fs -> forall ps, Forall2 (fun f p => loads f = Some p) fs ps ->
     exists n, forall fuel m, (n <= fuel)%nat -> open_libs m = handles (plugins_ m) -> load_list (LoadPlugins fuel) paths m = Some (true, added ps m)).
Proof.
  apply walks_mutind.
  - intros path ents fs Hs Ho _ IH ps Hps; destruct (IH ps Hps) as [n Hn]; exists (S n); intros [|fuel] m Hf Hm; [lia|].
    cbn [LoadPlugins]; rewrite Hs, Ho, LoadDirectory_list; apply Hn; [lia | done].
  - intros path Hs Hl ps Hps; apply Forall2_cons_inv_l in Hps as (p & ps' & Hp & Hnil & ->); apply Forall2_nil_inv_l in Hnil as ->; exists 1%nat.
    intros [|fuel] m Hf Hm; [lia|]; cbn [LoadPlugins]; rewrite Hs; pose proof (LoadFile_ok path m Hm) as Hfile; destruct (LoadFile path m) as [[] m'].
    + rewrite Hl in Hfile; destruct Hfile as (_ & p' & Hp' & ->); rewrite Hp in Hp'; by injection Hp' as <-.
    + destruct Hfile as (_ & _ & Hno & _); congruence.
  - intros path Hs Hl ps Hps; apply Forall2_nil_inv_l in Hps as ->; exists 1%nat; intros [|fuel] m Hf Hm; [lia|]; cbn [LoadPlugins]; rewrite Hs; unfold LoadFile; rewrite Hl; cbn.
    by rewrite added_nil.
  - intros ps Hps; apply Forall2_nil_inv_l in Hps as ->; exists 0%nat; intros fuel m _ Hm; cbn; by rewrite added_nil.
  - intros p paths f1 f2 _ IH1 _ IH2 ps Hps; apply Forall2_app_inv_l in Hps as (p1 & p2 & H1 & H2 & ->).
    destruct (IH1 p1 H1) as [n1 Hn1], (IH2 p2 H2) as [n2 Hn2]; exists (n1 + n2)%nat; intros fuel m Hf Hm; cbn [load_list].
    rewrite Hn1 by (done || lia); cbn [mbind option_bind negb]; rewrite Hn2 by (done || lia); by rewrite added_app.
Qed.

(** And nothing else is. *)
Lemma load_list_sound load paths :
  (forall p m ok m', load p m = Some (ok, m') -> open_libs m = handles (plugins_ m) ->
     open_libs m' = handles (plugins_ m') /\ (ok = true -> exists fs ps, walks p fs /\ Forall2 (fun f p => loads f = Some p) fs ps /\ m' = added ps m)) ->
  forall m ok m', load_list load paths m = Some (ok, m') -> open_libs m = handles (plugins_ m) ->
    open_libs m' = handles (plugins_ m') /\ (ok = true -> exists fs ps, walks_all paths fs /\ Forall2 (fun f p => loads f = Some p) fs ps /\ m' = added ps m).
Proof.
  intros Hload; induction paths as [|p paths IH]; intros m ok m'; cbn [load_list].
  - intros [= <- <-] Hm; split; [done|]; intros _; exists [], []; split_and!; [constructor | constructor | by rewrite added_nil].
  - destruct (load p m) as [[[] m1]|] eqn:E; [| |done]; cbn [mbind option_bind negb]; intros Hr Hm; destruct (Hload _ _ _ _ E Hm) as [H1 Hw].
    + destruct (IH m1 ok m' Hr H1) as [H2 Hws]; split; [done|]; intros Hok; destruct (Hw eq_refl) as (f1 & p1 & Hf1 & Hp1 & ->), (Hws Hok) as (f2 & p2 & Hf2 & Hp2 & ->).
      exists (f1 ++ f2), (p1 ++ p2); split_and!; [by constructor | by apply Forall2_app | apply added_app].
    + injection Hr as <- <-; done.
Qed.
Lemma LoadPlugins_sound fuel : forall path m ok m', LoadPlugins fuel path m = Some (ok, m') -> open_libs m = handles (plugins_ m) ->
  open_libs m' = handles (plugins_ m') /\ (ok = true -> exists fs ps, walks path fs /\ Forall2 (fun f p => loads f = Some p) fs ps /\ m' = added ps m).
Proof.
  induction fuel as [|fuel IH]; intros path m ok m'; cbn [LoadPlugins]; [done|]; destruct (stat path) as [[| |]|] eqn:Hs.
  - destruct (opendir path) as [ents|] eqn:Ho; [|by intros [= <- <-]]; rewrite LoadDirectory_list; intros Hr Hm.
    destruct (load_list_sound _ _ IH _ _ _ Hr Hm) as [H1 Hw]; split; [done|]; intros Hok; destruct (Hw Hok) as (fs & ps & ? & ? & ?); exists fs, ps; split_and!; try done; by econstructor.
  - intros [= Hf] Hm; pose proof (LoadFile_ok path m Hm) as Hfile; rewrite Hf in Hfile; destruct Hfile as [H1 Hfile]; split; [done|]; intros ->.
    destruct (is_lib path) eqn:El; [destruct Hfile as (p & Hp & ->); exists [path], [p] | subst m'; exists [], []]; split_and!; try done.
    + by constructor.
    + by constructor.
    + by apply w_file.
    + by rewrite added_nil.
  - by intros [= <- <-].
  - by intros [= <- <-].
Qed.

(** A sequence with an entry that is no string is not loaded to its end. *)
Lemma LoadSequence_sound fuel path l : forall m ok m', LoadSequence (LoadPlugins fuel) path l m = Some (ok, m') -> open_libs m = handles (plugins_ m) ->
  open_libs m' = handles (plugins_ m') /\
  (ok = true -> exists l' fs ps, l = Some <$> l' /\ walks_all (below path <$> l') fs /\ Forall2 (fun f p => loads f = Some p) fs ps /\ m' = added ps m).
Proof.
  induction l as [|[e|] l IH]; intros m ok m'; cbn [LoadSequence]; [| |by intros [= <- <-]].
  - intros [= <- <-] Hm; split; [done|]; intros _; exists [], [], []; split_and!; [done | constructor | constructor | by rewrite added_nil].
  - destruct (LoadPlugins fuel (below path e) m) as [[[] m1]|] eqn:E; [| |done]; cbn [mbind option_bind negb]; intros Hr Hm; destruct (LoadPlugins_sound _ _ _ _ _ E Hm) as [H1 Hw].
    + destruct (IH m1 ok m' Hr H1) as [H2 Hws]; split; [done|]; intros Hok; destruct (Hw eq_refl) as (f1 & p1 & Hf1 & Hp1 & ->), (Hws Hok) as (l' & f2 & p2 & -> & Hf2 & Hp2 & ->).
      exists (e :: l'), (f1 ++ f2), (p1 ++ p2); split_and!; [done | by constructor | by apply Forall2_app | apply added_app].
    + injection Hr as <- <-; done.
Qed.
End Loading.

(** ** The manager *)

Section Manager.
Context `{System}.

(** The libraries that a manager loads: those that the configuration file names, if there is
    one, or those below the directory. *)
Definition files_of (real : bytes) (fs : list bytes) : Prop :=
  if IsExsitPluginConf real then exists l, yaml_plugins (below real kPluginConfig) = Paths (Some <$> l) /\ walks_all (below real <$> l) fs
  else walks real fs.

(** What the six searches give: the plugins in the order of loading, one that has a tag twice
    is given twice. *)
Definition searches (m : PluginMgr) : Prop :=
  (forall n, FindPluginByName n m = where_ (in_name n) (plugins_ m)) /\
  (forall mo, FindPluginByModule mo m = where_ (in_module mo) (plugins_ m)) /\
  (forall t, FindPluginByTag t m = where_ (in_tag t) (plugins_ m)) /\
  (forall mo n, FindPluginByModuleName mo n m = where_ (fun pi => if bool_decide (module_name pi = mo) then in_name n pi else 0%nat) (plugins_ m)) /\
  (forall mo t, FindPluginByModuleTag mo t m = where_ (in_module_tag mo t) (plugins_ m)) /\
  (forall mo t n, FindPluginByModuleTagName mo t n m = where_ (fun pi => if bool_decide (name pi = n) then in_module_tag mo t pi else 0%nat) (plugins_ m)).

Lemma BuildIndex_ok m : Forall (fun p => is_Some (plugin_info_ p)) (plugins_ m) ->
  name_idx_ m = ∅ -> module_idx_ m = ∅ -> tag_idx_ m = ∅ -> module_tag_idx_ m = ∅ ->
  exists m', BuildIndex m = Some m' /\ plugins_ m' = plugins_ m /\ open_libs m' = open_libs m /\ searches m'.
Proof.
  intros Hp H1 H2 H3 H4; unfold BuildIndex; destruct (index_all_spec (plugins_ m) 0 m Hp) as (m' & -> & Hm & Ho & Hn & Hmo & Ht & Hmt).
  exists m'; split_and!; try done; rewrite H1, H2, H3, H4 in *.
  assert (Hplace : forall i p, plugins_ m !! i = Some p -> plugins_ m' !! (0 + i)%nat = Some p) by (intros i p Hi; by rewrite Hm).
  unfold searches, where_; rewrite Hm; split_and!.
  - intros n; apply Hn.
  - intros mo; apply Hmo.
  - intros t; apply Ht.
  - intros mo n; rewrite <- (filter_where _ (in_name n) m' (plugins_ m) 0 Hplace), <- (app_nil_l (where_from (in_name n) 0 (plugins_ m))); change [] with (get ∅ n); rewrite <- Hn.
    unfold FindPluginByModuleName, get; by destruct (name_idx_ m' !! n).
  - intros mo t; specialize (Hmt mo t); rewrite get2_empty in Hmt; cbn in Hmt; rewrite <- Hmt; unfold FindPluginByModuleTag, get2, get; by destruct (module_tag_idx_ m' !! mo).
  - intros mo t n; rewrite <- (filter_where _ (in_module_tag mo t) m' (plugins_ m) 0 Hplace); specialize (Hmt mo t); rewrite get2_empty in Hmt; cbn in Hmt; rewrite <- Hmt.
    unfold FindPluginByModuleTagName, get2, get; destruct (module_tag_idx_ m' !! mo) as [idx|]; [|done]; cbn; by destruct (idx !! t).
Qed.

Lemma loaded_info fs ps : Forall2 (fun f p => loads f = Some p) fs ps -> Forall (fun p => is_Some (plugin_info_ p)) ps.
Proof. induction 1; constructor; eauto using loads_info. Qed.

(** The loading in [Init]. *)
Definition load_real (fuel : nat) (real : bytes) (m : PluginMgr) : option (bool * PluginMgr) :=
  if IsExsitPluginConf real then LoadPluginsByConf fuel real m else LoadPlugins fuel real m.
Lemma load_real_sound fuel real m ok m' : load_real fuel real m = Some (ok, m') -> open_libs m = handles (plugins_ m) ->
  open_libs m' = handles (plugins_ m') /\ (ok = true -> exists fs ps, files_of real fs /\ Forall2 (fun f p => loads f = Some p) fs ps /\ m' = added ps m).
Proof.
  unfold load_real, files_of; destruct (IsExsitPluginConf real); [|by apply LoadPlugins_sound].
  unfold LoadPluginsByConf; destruct (yaml_plugins _) as [| | |l] eqn:Ey; [by intros [= <- <-]..|]; intros Hr Hm; destruct (LoadSequence_sound _ _ _ _ _ _ Hr Hm) as [H1 Hw].
  split; [done|]; intros Hok; destruct (Hw Hok) as (l' & fs & ps & -> & ? & ? & ?); exists fs, ps; eauto.
Qed.
Lemma load_real_complete real fs ps : files_of real fs -> Forall2 (fun f p => loads f = Some p) fs ps ->
  exists n, forall fuel m, (n <= fuel)%nat -> open_libs m = handles (plugins_ m) -> load_real fuel real m = Some (true, added ps m).
Proof.
  unfold load_real, files_of, LoadPluginsByConf; destruct (IsExsitPluginConf real).
  - intros (l & Hy & Hw) Hp; destruct (proj2 loads_all _ _ Hw ps Hp) as [n Hn]; exists n; intros fuel m Hf Hm; rewrite Hy, LoadSequence_list; by apply Hn.
  - intros Hw Hp; exact (proj1 loads_all _ _ Hw ps Hp).
Qed.
Lemma Init_loaded fuel path real ps : realpath path = Some real -> load_real fuel real new_PluginMgr = Some (true, added ps new_PluginMgr) ->
  Forall (fun p => is_Some (plugin_info_ p)) ps ->
  exists m, Init fuel path new_PluginMgr = Some (true, m) /\ plugins_ m = ps /\ open_libs m = handles ps /\ searches m.
Proof.
  intros Hr Hl Hp; unfold Init; rewrite Hr; change (if IsExsitPluginConf real then _ else _) with (load_real fuel real new_PluginMgr); rewrite Hl; cbn [mbind option_bind negb].
  destruct (BuildIndex_ok (added ps new_PluginMgr)) as (m & Hb & Hm & Ho & Hs); try done; rewrite Hb; cbn [mbind option_bind]; eauto 6.
Qed.
End Manager.

(** C35: when [Init] of a new manager succeeds, its plugins are the libraries that the
    configuration file names, or that are below the directory, in order, and the six searches
    give exactly those with the name, module and tag that is asked for; also when it fails, the
    libraries that are open are those of the plugins that are kept.  And [Init] does succeed,
    with enough fuel, when all these libraries can be loaded. *)
Theorem plugins_are_found `{System} path :
  (forall fuel ok m, Init fuel path new_PluginMgr = Some (ok, m) ->
     open_libs m = handles (plugins_ m) /\
     (ok = true -> searches m /\
        exists real fs, realpath path = Some real /\ files_of real fs /\ Forall2 (fun f p => loads f = Some p) fs (plugins_ m))) /\
  (forall real fs ps, realpath path = Some real -> files_of real fs -> Forall2 (fun f p => loads f = Some p) fs ps ->
     exists n, forall fuel, (n <= fuel)%nat -> exists m, Init fuel path new_PluginMgr = Some (true, m) /\ plugins_ m = ps /\ searches m).
Proof.
  split.
  - intros fuel ok m HI; destruct (realpath path) as [real|] eqn:Hr; [|unfold Init in HI; rewrite Hr in HI; by injection HI as <- <-].
    destruct (load_real fuel real new_PluginMgr) as [[ok1 m1]|] eqn:El.
    2:{ unfold Init in HI; rewrite Hr in HI; change (if IsExsitPluginConf real then _ else _) with (load_real fuel real new_PluginMgr) in HI; by rewrite El in HI. }
    destruct (load_real_sound _ _ _ _ _ El eq_refl) as [Ho Hw]; destruct ok1.
    + destruct (Hw eq_refl) as (fs & ps & Hfs & Hps & ->); destruct (Init_loaded fuel path real ps Hr El (loaded_info _ _ Hps)) as (m' & HI' & Hm & Hl & Hs).
      rewrite HI' in HI; injection HI as <- <-; rewrite Hm, Hl; split; [done|]; intros _; split; [done|]; eauto.
    + unfold Init in HI; rewrite Hr in HI; change (if IsExsitPluginConf real then _ else _) with (load_real fuel real new_PluginMgr) in HI; rewrite El in HI; cbn in HI.
      injection HI as <- <-; split; [done | discriminate].
  - intros real fs ps Hr Hfs Hps; destruct (load_real_complete real fs ps Hfs Hps) as [n Hn]; exists n; intros fuel Hf.
    destruct (Init_loaded fuel path real ps Hr (Hn fuel new_PluginMgr Hf eq_refl) (loaded_info _ _ Hps)) as (m & ? & ? & _ & ?); eauto.
Qed.

(** A directory /p with a library, a text file and a directory with another library. *)
Definition lib_a : bytes := [47; 112; 47; 97; 46; 115; 111].
Definition lib_b : bytes := [47; 112; 47; 100; 47; 98; 46; 115; 111].
Definition info_a : PluginInfo := mkInfo [65] [77] [[120]; [121]] ∅.
Definition info_b : PluginInfo := mkInfo [66] [77] [[121]; [121]] ∅.
#[local] Instance toy_system : System := {
  realpath p := Some p;
  stat p :=
    if decide (p = [47; 112]) then Some Directory
    else if decide (p = [47; 112; 47; 100]) then Some Directory
    else if decide (p = below [47; 112] kPluginConfig) then None else Some Regular;
  opendir p := if decide (p = [47; 112]) then Some [[46]; [46; 46]; [97; 46; 115; 111]; [116; 120; 116]; [100]] else Some [[46]; [98; 46; 115; 111]];
  yaml_plugins _ := NoYaml;
  dlopen p := if decide (p = lib_a) then Some 1 else if decide (p = lib_b) then Some 2 else None;
  entry_func h := if h =? 1 then Some (Some info_a) else Some (Some info_b)
}.
Definition plugin_a : Plugin := mkPlugin lib_a (Some info_a) (Some 1).
Definition plugin_b : Plugin := mkPlugin lib_b (Some info_b) (Some 2).

Lemma plugins_are_found_witness :
  exists m, Init 3 [47; 112] new_PluginMgr = Some (true, m) /\ plugins_ m = [plugin_a; plugin_b] /\ open_libs m = [2; 1] /\
    FindPluginByTag [121] m = [0; 1; 1]%nat /\ FindPluginByModuleTagName [77] [121] [65] m = [0]%nat.
Proof.
  destruct (plugins_are_found [47; 112]) as [Hs _]; destruct (Init 3 [47; 112] new_PluginMgr) as [[ok m]|] eqn:E; [|by vm_compute in E].
  destruct (Hs 3%nat ok m E) as [Ho Hf]; assert (Hok : ok = true /\ plugins_ m = [plugin_a; plugin_b]) by (vm_compute in E; by injection E as <- <-).
  destruct Hok as [-> Hp]; destruct (Hf eq_refl) as [(_ & _ & Ht & _ & _ & Hmtn) _]; exists m; split; [done|]; split; [done|].
  rewrite Ho, Ht, Hmtn, Hp; split_and!; vm_compute; reflexivity.
Defined.

(** A second [Init] loads the libraries again and indexes the ones it had once more. *)
Example second_init_indexes_again :
  match Init 3 [47; 112] new_PluginMgr with
  | Some (_, m) => match Init 3 [47; 112] m with Some (_, m) => (length (plugins_ m), FindPluginByName [65] m) | None => (0%nat, []) end
  | None => (0%nat, [])
  end = (4, [0; 0; 2])%nat.
Proof. vm_compute; reflexivity. Qed.
