(* ===== verification/OrderedMap.v ===== *)
(** * Ordered maps with strings as keys

    [std::map<std::string, V>] as the list of its entries in ascending order, for the code that
    iterates over such maps: the registry of components and the reader of monitor files. *)
From Stdlib Require Import ZArith Lia.
From stdpp Require Import base list option sorting.
From S2P Require Import Prelude Strings.

Local Open Scope Z_scope.

(** [operator<] of strings. *)
Fixpoint bytes_lt (a b : bytes) : bool :=
  match a, b with
  | _, [] => false
  | [], _ :: _ => true
  | x :: a, y :: b => (x <? y) || ((x =? y) && bytes_lt a b)
  end.

Section Map.
Context {V : Type}.
Implicit Types l : list (bytes * V).

(** [emplace] keeps an entry of the same name, [operator[]] with an assignment replaces it. *)
Fixpoint emplace (name : bytes) (v : V) l : list (bytes * V) :=
  match l with
  | [] => [(name, v)]
  | (n, c) :: rest => if decide (n = name) then l else if bytes_lt name n then (name, v) :: l else (n, c) :: emplace name v rest
  end.
Fixpoint assign (name : bytes) (v : V) l : list (bytes * V) :=
  match l with
  | [] => [(name, v)]
  | (n, c) :: rest => if decide (n = name) then (name, v) :: rest else if bytes_lt name n then (name, v) :: l else (n, c) :: assign name v rest
  end.
Fixpoint find (name : bytes) l : option V :=
  match l with [] => None | (n, c) :: l => if decide (n = name) then Some c else find name l end.
End Map.

Lemma bytes_lt_irrefl a : bytes_lt a a = false.
Proof. induction a as [|x a IH]; [done|]; cbn; by rewrite Z.ltb_irrefl, Z.eqb_refl. Qed.
Lemma bytes_lt_trans a : forall b c, bytes_lt a b = true -> bytes_lt b c = true -> bytes_lt a c = true.
Proof.
  induction a as [|x a IH]; intros [|y b] [|z c]; cbn; try done; intros H1 H2.
  destruct (Z.ltb_spec x y), (Z.ltb_spec y z), (Z.ltb_spec x z), (Z.eqb_spec x y), (Z.eqb_spec y z), (Z.eqb_spec x z); cbn in *; try done; try lia; by eapply IH.
Qed.
Lemma bytes_lt_total a : forall b, a <> b -> bytes_lt a b = false -> bytes_lt b a = true.
Proof.
  induction a as [|x a IH]; intros [|y b] Hne; cbn; try done; destruct (Z.ltb_spec x y), (Z.ltb_spec y x), (Z.eqb_spec x y), (Z.eqb_spec y x); cbn; try done; try lia.
  subst; apply IH; congruence.
Qed.

Section Ordered.
Context {V : Type}.
Implicit Types l : list (bytes * V).

Definition ordered : list (bytes * V) -> Prop := StronglySorted (fun a b => bytes_lt a.1 b.1 = true).

(** Names that are greater than all of a map, or smaller, are not in it. *)
Lemma find_above n l : Forall (fun e => bytes_lt n e.1 = true) l -> find n l = None.
Proof.
  induction 1 as [|[m c] l Hm _ IH]; [done|]; cbn in *; rewrite decide_False; [done|]; intros ->; by rewrite bytes_lt_irrefl in Hm.
Qed.
Lemma above_trans n m l : bytes_lt n m = true -> Forall (fun e => bytes_lt m e.1 = true) l -> Forall (fun e => bytes_lt n e.1 = true) l.
Proof. intros Hn Hl; eapply list.Forall_impl; [exact Hl|]; cbn; intros e He; by eapply bytes_lt_trans. Qed.

Lemma emplace_ordered name (v : V) l : ordered l -> ordered (emplace name v l).
Proof.
  assert (Hb : forall n l, bytes_lt n name = true -> Forall (fun e => bytes_lt n e.1 = true) l -> Forall (fun e => bytes_lt n e.1 = true) (emplace name v l)).
  { intros n l' Hn; induction 1 as [|[m c] l' Hm Hl IH]; cbn; [by repeat constructor|]; destruct (decide (m = name)); [by constructor|]; destruct (bytes_lt name m); by repeat constructor. }
  induction 1 as [|[m c] l Hl IH Hm]; cbn; [by repeat constructor|]; destruct (decide (m = name)) as [->|Hne]; [by constructor|]; destruct (bytes_lt name m) eqn:E.
  - constructor; [by constructor|]; constructor; [done|]; by eapply above_trans.
  - constructor; [done|]; apply Hb; [by apply bytes_lt_total | done].
Qed.
Lemma assign_ordered name (v : V) l : ordered l -> ordered (assign name v l).
Proof.
  assert (Hb : forall n l, bytes_lt n name = true -> Forall (fun e => bytes_lt n e.1 = true) l -> Forall (fun e => bytes_lt n e.1 = true) (assign name v l)).
  { intros n l' Hn; induction 1 as [|[m c] l' Hm Hl IH]; cbn; [by repeat constructor|]; destruct (decide (m = name)); [by constructor|]; destruct (bytes_lt name m); by repeat constructor. }
  induction 1 as [|[m c] l Hl IH Hm]; cbn; [by repeat constructor|]; destruct (decide (m = name)) as [->|Hne]; [by constructor|]; destruct (bytes_lt name m) eqn:E.
  - constructor; [by constructor|]; constructor; [done|]; by eapply above_trans.
  - constructor; [done|]; apply Hb; [by apply bytes_lt_total | done].
Qed.

Lemma find_emplace name (v : V) l n : ordered l ->
  find n (emplace name v l) = match find n l with Some c => Some c | None => if decide (name = n) then Some v else None end.
Proof.
  induction 1 as [|[m c] l Hl IH Hm]; cbn; [done|]; destruct (decide (m = name)) as [->|Hne]; cbn.
  - destruct (decide (name = n)) as [->|]; [done|]; by destruct (find n l).
  - destruct (bytes_lt name m) eqn:E; cbn; [|rewrite IH; by destruct (decide (m = n))].
    destruct (decide (name = n)) as [->|Hn]; [|by destruct (decide (m = n)); [|destruct (find n l)]]; rewrite decide_False by done.
    rewrite find_above; [done|]; by eapply above_trans.
Qed.
Lemma find_assign name (v : V) l n : find n (assign name v l) = if decide (name = n) then Some v else find n l.
Proof.
  induction l as [|[m c] l IH]; cbn; [done|]; destruct (decide (m = name)) as [->|Hne]; cbn; [by destruct (decide (name = n))|].
  destruct (bytes_lt name m); cbn; [done|]; rewrite IH; destruct (decide (m = n)) as [->|]; [by rewrite decide_False by congruence | done].
Qed.
End Ordered.
