(* ===== verification/Rpc.v ===== *)
(** * Clients of other services and components: src/orc/com

    [RpcClient::CallMethod] with its closures, for the calls that [RpcInvoker::Invoke] sends to
    a group of clients (src/orc/handler/rpc_handler.cc); the factory of clients; the manager of
    components.  Channels and controllers are those of brpc: whether there is a channel, and how
    and when a call ends, are arguments. *)
From Stdlib Require Import ZArith Lia.
From stdpp Require Import base gmap list option sets.
From S2P Require Import Prelude Words Strings OrderedMap.

Local Open Scope Z_scope.

(** ** Calls *)

(** [class RpcClosure]: the call it belongs to and its controller. *)
Record RpcClosure : Type := mkClosure { c_call : nat; c_controller : nat }.

(** The calls of one invocation: the barrier ([None] when it was deleted), how often it called
    back, the fields success of the answers, the controllers that are allocated, the closures
    that brpc has. *)
Record invocation : Type := mkInvocation {
  times_ : option Z;
  callbacks : nat;
  success : list bool;
  controllers : gset nat;
  next_controller : nat;
  pending : list RpcClosure
}.

(** [BarrierClosure::Run]; [None] is the use of a deleted barrier. *)
Definition Barrier_Run (w : invocation) : option invocation :=
  t ← times_ w;
  let t := wrap 32 (t - 1) in
  Some (if negb (t =? 0) then mkInvocation (Some t) (callbacks w) (success w) (controllers w) (next_controller w) (pending w)
        else mkInvocation None (S (callbacks w)) (success w) (controllers w) (next_controller w) (pending w)).

(** [CallMethod] with a closure, for the call [i]: without a channel the closure is run at
    once. *)
Definition CallMethod (i : nat) (channel : bool) (w : invocation) : option invocation :=
  if negb channel then Barrier_Run w
  else
    let ctrl := next_controller w in
    Some (mkInvocation (times_ w) (callbacks w) (success w) ({[ctrl]} ∪ controllers w) (S ctrl) (pending w ++ [mkClosure i ctrl])).

(** [RpcClosure::Run] when a call ends, and its destructor; [None] is the use of something that
    was deleted. *)
Definition RpcClosure_Run (k : nat) (failed : bool) (w : invocation) : option invocation :=
  c ← pending w !! k;
  if decide (c_controller c ∈ controllers w) then
    let w := mkInvocation (times_ w) (callbacks w) (<[c_call c := negb failed]> (success w)) (controllers w) (next_controller w) (delete k (pending w)) in
    w ← Barrier_Run w;
    Some (mkInvocation (times_ w) (callbacks w) (success w) (controllers w ∖ {[c_controller c]}) (next_controller w) (pending w))
  else None.

(** [CallMethod] without a closure: the flag after the call, and the controllers. *)
Definition CallMethod_sync (channel failed old : bool) (live : gset nat) (ctrl : nat) : bool * gset nat :=
  if negb channel then (old, live) else (if negb failed then true else old, ({[ctrl]} ∪ live) ∖ {[ctrl]}).

(** [Invoke] from the barrier on, as steps: the calls are made in order, each with or without a
    channel, and calls that were made end in any order. *)
Record run_state : Type := mkRun { made : nat; inv : invocation }.
Inductive rpc_event : Type := Call (channel : bool) | End (k : nat) (failed : bool).
Definition rpc_step (n : nat) (e : rpc_event) (s : run_state) : option run_state :=
  match e with
  | Call channel => if (made s <? n)%nat then w ← CallMethod (made s) channel (inv s); Some (mkRun (S (made s)) w) else None
  | End k failed => if (k <? length (pending (inv s)))%nat then w ← RpcClosure_Run k failed (inv s); Some (mkRun (made s) w) else None
  end.

(** A step is possible when there is a call to make, or a call that has not ended. *)
Definition possible (n : nat) (e : rpc_event) (s : run_state) : bool :=
  match e with Call _ => (made s <? n)%nat | End k _ => (k <? length (pending (inv s)))%nat end.
Definition start (n : nat) : run_state := mkRun 0 (mkInvocation (Some (wrap 32 (Z.of_nat n))) 0 (replicate n false) ∅ 0 []).

(** ** What a call amounts to *)

Inductive status : Type := Waiting | NoChannel | Ended (failed : bool).
Definition succeeded (s : status) : bool := match s with Ended false => true | _ => false end.

(** The [k]-th call that is waiting ends. *)
Fixpoint end_kth (k : nat) (failed : bool) (l : list status) : list status :=
  match l with
  | [] => []
  | Waiting :: l => match k with O => Ended failed :: l | S k => Waiting :: end_kth k failed l end
  | s :: l => s :: end_kth k failed l
  end.
Definition spec_step (e : rpc_event) (l : list status) : list status :=
  match e with Call channel => l ++ [if channel then Waiting else NoChannel] | End k failed => end_kth k failed l end.

(** The calls that are waiting, and how many are not. *)
Fixpoint waiting_from (i : nat) (l : list status) : list nat :=
  match l with [] => [] | Waiting :: l => i :: waiting_from (S i) l | _ :: l => waiting_from (S i) l end.
Fixpoint finished (l : list status) : nat := match l with [] => 0 | Waiting :: l => finished l | _ :: l => S (finished l) end.

Lemma waiting_app l s : forall i, waiting_from i (l ++ [s]) = waiting_from i l ++ match s with Waiting => [(i + length l)%nat] | _ => [] end.
Proof.
  induction l as [|x l IH]; intros i; cbn [app waiting_from length]; [rewrite Nat.add_0_r; by destruct s|].
  rewrite IH, <- plus_n_Sm; by destruct x.
Qed.
Lemma finished_app l s : finished (l ++ [s]) = (finished l + match s with Waiting => 0 | _ => 1 end)%nat.
Proof. induction l as [|x l IH]; cbn; [by destruct s|]; destruct x; rewrite ?IH; lia. Qed.
Lemma finished_waiting l : forall i, (finished l + length (waiting_from i l) = length l)%nat.
Proof. induction l as [|x l IH]; intros i; [done|]; specialize (IH (S i)); destruct x; cbn in *; lia. Qed.

Lemma end_kth_spec l : forall i k failed j, waiting_from i l !! k = Some j ->
  waiting_from i (end_kth k failed l) = delete k (waiting_from i l) /\ length (end_kth k failed l) = length l /\ finished (end_kth k failed l) = S (finished l) /\
  (i <= j < i + length l)%nat /\ succeeded <$> end_kth k failed l = <[(j - i)%nat := negb failed]> (succeeded <$> l).
Proof.
  induction l as [|x l IH]; intros i k failed j Hk; [done|]; destruct x as [| |f].
  - cbn [waiting_from] in Hk; destruct k as [|k].
    + injection Hk as <-; cbn; rewrite Nat.sub_diag; split_and!; try done; try lia; by destruct failed.
    + cbn in Hk; destruct (IH (S i) k failed j Hk) as (H1 & H2 & H3 & H4 & H5); cbn; rewrite H1, H2, H3, H5; split_and!; try done; try lia.
      by replace (j - i)%nat with (S (j - S i)) by lia.
  - cbn [waiting_from] in Hk; destruct (IH (S i) k failed j Hk) as (H1 & H2 & H3 & H4 & H5); cbn; rewrite H1, H2, H3, H5; split_and!; try done; try lia.
    by replace (j - i)%nat with (S (j - S i)) by lia.
  - cbn [waiting_from] in Hk; destruct (IH (S i) k failed j Hk) as (H1 & H2 & H3 & H4 & H5); cbn; rewrite H1, H2, H3, H5; split_and!; try done; try lia.
    by replace (j - i)%nat with (S (j - S i)) by lia.
Qed.

(** The invariant. *)
Record calls_ok (n : nat) (l : list status) (s : run_state) : Prop := {
  k_made : made s = length l /\ (length l <= n)%nat;
  k_pending : c_call <$> pending (inv s) = waiting_from 0 l;
  k_success : success (inv s) = (succeeded <$> l) ++ replicate (n - length l) false;
  k_barrier : if (finished l <? n)%nat then times_ (inv s) = Some (Z.of_nat (n - finished l)) /\ callbacks (inv s) = 0%nat
              else times_ (inv s) = None /\ callbacks (inv s) = 1%nat;
  k_controllers : controllers (inv s) = list_to_set (c_controller <$> pending (inv s));
  k_distinct : NoDup (c_controller <$> pending (inv s)) /\ Forall (fun c => c_controller c < next_controller (inv s))%nat (pending (inv s))
}.

(** One run of the barrier. *)
Lemma Barrier_Run_ok n f w : (f < n)%nat -> Z.of_nat n < 2 ^ 32 -> times_ w = Some (Z.of_nat (n - f)) -> callbacks w = 0%nat ->
  exists w', Barrier_Run w = Some w' /\ success w' = success w /\ controllers w' = controllers w /\ next_controller w' = next_controller w /\ pending w' = pending w /\
    if (S f <? n)%nat then times_ w' = Some (Z.of_nat (n - S f)) /\ callbacks w' = 0%nat else times_ w' = None /\ callbacks w' = 1%nat.
Proof.
  intros Hf Hn Ht Hc; unfold Barrier_Run; rewrite Ht; cbn [mbind option_bind]; rewrite wrap_small by (unfold uint; lia).
  replace (Z.of_nat (n - f) - 1) with (Z.of_nat (n - S f)) by lia; destruct (Nat.ltb_spec (S f) n), (Z.eqb_spec (Z.of_nat (n - S f)) 0); try lia; cbn [negb]; eexists; split; [done| |done|]; cbn.
  - split_and!; done.
  - rewrite Hc; split_and!; done.
Qed.

Lemma rpc_call_ok n l s channel : Z.of_nat n < 2 ^ 32 -> calls_ok n l s -> (made s < n)%nat ->
  exists s', rpc_step n (Call channel) s = Some s' /\ calls_ok n (spec_step (Call channel) l) s'.
Proof.
  intros Hn [[Hm Hl] Hp Hs Hb Hc [Hd Hf]] Hlt; cbn [rpc_step spec_step]; destruct (Nat.ltb_spec (made s) n); [|lia]; unfold CallMethod.
  pose proof (finished_waiting l 0) as Hcount; rewrite Hm in *.
  assert (Hrep : forall x, succeeded x = false -> (succeeded <$> l) ++ replicate (n - length l) false = (succeeded <$> l ++ [x]) ++ replicate (n - length (l ++ [x])) false).
  { intros x Hx; rewrite fmap_app, <- (assoc_L (++)); cbn; rewrite Hx, length_app; cbn; by replace (n - length l)%nat with (S (n - (length l + 1))) by lia. }
  destruct channel; cbn [negb].
  - cbn [mbind option_bind]; eexists; split; [done|]; split; cbn [made inv pending success times_ callbacks controllers next_controller].
    + rewrite length_app; cbn; lia.
    + rewrite fmap_app, Hp, waiting_app; done.
    + by rewrite Hs, <- Hrep.
    + rewrite finished_app, Nat.add_0_r; exact Hb.
    + rewrite fmap_app, list_to_set_app_L, Hc; cbn; set_solver.
    + rewrite fmap_app; split; [apply list.NoDup_app; split_and!; [done| |apply NoDup_singleton]|].
      * intros x (c & Hcx & Hx)%list_elem_of_fmap Hnew%list_elem_of_singleton; cbn in *; rewrite list.Forall_forall in Hf; apply Hf in Hx; cbn in Hx; lia.
      * apply list.Forall_app; split; [eapply list.Forall_impl; [exact Hf|]; cbn; intros; lia | constructor; [cbn; lia | constructor]].
  - destruct (Nat.ltb_spec (finished l) n); [|lia]; destruct Hb as [Ht Hcb].
    destruct (Barrier_Run_ok n (finished l) (inv s)) as (w & -> & H1 & H2 & H3 & H4 & H5); try done; cbn [mbind option_bind]; eexists; split; [done|].
    split; cbn [made inv]; rewrite ?H1, ?H2, ?H3, ?H4; try done.
    + rewrite length_app; cbn; lia.
    + rewrite Hp, waiting_app; by rewrite app_nil_r.
    + by rewrite Hs, <- Hrep.
    + rewrite finished_app, Nat.add_1_r; exact H5.
Qed.

Lemma delete_controllers (l : list RpcClosure) k c : l !! k = Some c -> NoDup (c_controller <$> l) ->
  (list_to_set (c_controller <$> l) : gset nat) ∖ {[c_controller c]} = list_to_set (c_controller <$> delete k l) /\ NoDup (c_controller <$> delete k l).
Proof.
  intros Hk Hd; pose proof (fmap_Permutation c_controller _ _ (delete_Permutation _ _ _ Hk)) as Hperm; cbn in Hperm.
  rewrite Hperm in Hd; apply list.NoDup_cons in Hd as [Hnot Hd]; split; [|done]; rewrite (list_to_set_perm_L _ _ Hperm); set_solver.
Qed.

Lemma rpc_end_ok n l s k failed : Z.of_nat n < 2 ^ 32 -> calls_ok n l s -> (k < length (pending (inv s)))%nat ->
  exists s', rpc_step n (End k failed) s = Some s' /\ calls_ok n (spec_step (End k failed) l) s'.
Proof.
  intros Hn [[Hm Hl] Hp Hs Hb Hc [Hd Hf]] Hlt; cbn [rpc_step spec_step]; destruct (Nat.ltb_spec k (length (pending (inv s)))); [|lia]; unfold RpcClosure_Run.
  destruct (lookup_lt_is_Some_2 _ _ Hlt) as [c Hk]; rewrite Hk; cbn [mbind option_bind].
  assert (Hw : waiting_from 0 l !! k = Some (c_call c)) by (rewrite <- Hp, list_lookup_fmap, Hk; done).
  destruct (end_kth_spec l 0 k failed _ Hw) as (H1 & H2 & H3 & H4 & H5); rewrite Nat.sub_0_r in H5.
  assert (Hin : c_controller c ∈ controllers (inv s)) by (rewrite Hc; apply elem_of_list_to_set, list_elem_of_fmap; exists c; split; [done | by eapply list_elem_of_lookup_2]).
  rewrite decide_True by done; pose proof (finished_waiting (end_kth k failed l) 0) as Hcount; rewrite H2, H3 in Hcount.
  destruct (Nat.ltb_spec (finished l) n); [|lia]; destruct Hb as [Ht Hcb].
  edestruct (Barrier_Run_ok n (finished l)) as (w & -> & E1 & E2 & E3 & E4 & E5); [done | done | exact Ht | exact Hcb|]; cbn [mbind option_bind]; eexists; split; [done|].
  cbn in E1, E2, E3, E4.
  split; cbn [made inv times_ callbacks success controllers next_controller pending]; rewrite ?E1, ?E2, ?E3, ?E4, ?H2; try done.
  - rewrite list_fmap_delete, Hp; by rewrite H1.
  - rewrite Hs, H5; apply insert_app_l; rewrite length_fmap; lia.
  - rewrite H3; exact E5.
  - rewrite Hc; by apply delete_controllers.
  - split; [by apply (delete_controllers _ _ c) | by apply Forall_delete].
Qed.

(** Events one after the other, as long as they are possible. *)
Fixpoint rpc_run (n : nat) (es : list rpc_event) (s : run_state) : option run_state :=
  match es with [] => Some s | e :: es => if possible n e s then s ← rpc_step n e s; rpc_run n es s else Some s end.
Fixpoint spec_run (n : nat) (es : list rpc_event) (l : list status) : list status :=
  match es with
  | [] => l
  | e :: es =>
      if match e with Call _ => (length l <? n)%nat | End k _ => (k <? length (waiting_from 0 l))%nat end then spec_run n es (spec_step e l) else l
  end.

Lemma rpc_run_ok n es : forall l s, Z.of_nat n < 2 ^ 32 -> calls_ok n l s -> exists s', rpc_run n es s = Some s' /\ calls_ok n (spec_run n es l) s'.
Proof.
  induction es as [|e es IH]; intros l s Hn Hok; cbn [rpc_run spec_run]; [eauto|].
  assert (Hsame : possible n e s = match e with Call _ => (length l <? n)%nat | End k _ => (k <? length (waiting_from 0 l))%nat end).
  { destruct e; cbn; [by rewrite (proj1 (k_made _ _ _ Hok)) | by rewrite <- (k_pending _ _ _ Hok), length_fmap]. }
  rewrite <- Hsame; destruct (possible n e s) eqn:Hp; [|eauto].
  assert (Hstep : exists s', rpc_step n e s = Some s' /\ calls_ok n (spec_step e l) s').
  { destruct e; cbn in Hp; apply Nat.ltb_lt in Hp; [by apply rpc_call_ok | by apply rpc_end_ok]. }
  destruct Hstep as (s1 & -> & H1); cbn [mbind option_bind]; by apply IH.
Qed.

(** C31: the calls of an invocation, however they are interleaved with the ends of earlier ones
    and whichever have a channel, use no closure, barrier or controller after it was deleted.
    An answer counts as a success exactly when its call had a channel and did not fail; the
    session is called back once, when the last call has ended, and not before; and then no
    controller is left. *)
Theorem calls_end_once n es :
  (0 < n)%nat -> Z.of_nat n < 2 ^ 32 ->
  exists s, rpc_run n es (start n) = Some s /\
    let l := spec_run n es [] in
    success (inv s) = (succeeded <$> l) ++ replicate (n - length l) false /\
    callbacks (inv s) = (if (length l =? n)%nat && (length (waiting_from 0 l) =? 0)%nat then 1 else 0)%nat /\
    (waiting_from 0 l = [] -> controllers (inv s) = ∅).
Proof.
  intros H0 Hn; destruct (rpc_run_ok n es [] (start n) Hn) as (s & Hr & Hok).
  { split; cbn; try done; [lia | by rewrite Nat.sub_0_r | | by split; [apply NoDup_nil_2 | apply list.Forall_nil_2]].
    rewrite wrap_small, Nat.sub_0_r by (unfold uint; lia); destruct n; [lia | done]. }
  exists s; split; [done|]; cbn zeta; destruct Hok as [[Hm Hl] Hp Hs Hb Hc _]; set (l := spec_run n es []) in *.
  pose proof (finished_waiting l 0) as Hcount; split_and!; [done| |].
  - destruct (Nat.ltb_spec (finished l) n), (Nat.eqb_spec (length l) n), (Nat.eqb_spec (length (waiting_from 0 l)) 0); cbn [andb]; destruct Hb; try done; lia.
  - intros Hw; rewrite Hw in Hp; apply fmap_nil_inv in Hp; by rewrite Hc, Hp.
Qed.

Lemma calls_end_once_witness :
  exists s, rpc_run 3 [Call true; Call false; End 0 false; Call true; End 0 true] (start 3) = Some s /\
    success (inv s) = [true; false; false] /\ callbacks (inv s) = 1%nat /\ controllers (inv s) = ∅.
Proof.
  destruct (calls_end_once 3 [Call true; Call false; End 0 false; Call true; End 0 true]) as (s & Hr & Hs & Hc & Hd); [lia | lia|].
  exists s; split; [exact Hr|]; split; [rewrite Hs; reflexivity|]; split; [rewrite Hc; reflexivity | apply Hd; reflexivity].
Defined.

(** The flag of a synchronous call that fails, or has no channel, is not written. *)
Lemma sync_failure_keeps_flag failed old live ctrl :
  ctrl ∉ live -> (CallMethod_sync false failed old live ctrl).1 = old /\ (CallMethod_sync true true old live ctrl).1 = old /\
    (forall channel, (CallMethod_sync channel failed old live ctrl).2 = live).
Proof. intros Hc; split_and!; try done; intros []; cbn; [set_solver | done]. Qed.

(** ** The factory of clients *)

(** [RpcClientFactory]: the ids of the clients of each service. *)
Abbreviation RpcClientFactory := (gmap bytes (list nat)).

(** [strncasecmp] with the four characters of brpc: longer names that begin so are taken. *)
Definition lower (c : Z) : Z := if (65 <=? c) && (c <=? 90) then c + 32 else c.
Definition is_brpc (type : bytes) : bool := bool_decide (lower <$> take 4 type = [98; 114; 112; 99]).

(** [AddRpcClient]; [ready] is whether the client could be initialized with its node. *)
Definition AddRpcClient (ready : bool) (name type : bytes) (id : nat) (f : RpcClientFactory) : bool * RpcClientFactory :=
  if negb (is_brpc type) then (false, f)
  else if negb ready then (false, f)
  else (true, <[name := default [] (f !! name) ++ [id]]> f).

(** The node of a service: one client, or a sequence of them. *)
Inductive service_node : Type := OneClient (ready : bool) | Clients (l : list bool).
Fixpoint add_clients (l : list bool) (name type : bytes) (i : nat) (f : RpcClientFactory) : bool * RpcClientFactory :=
  match l with
  | [] => (true, f)
  | ready :: l => let '(ok, f) := AddRpcClient ready name type i f in if ok then add_clients l name type (S i) f else (false, f)
  end.
Definition CreateRpcClient (node : service_node) (name type : bytes) (f : RpcClientFactory) : bool * RpcClientFactory :=
  match node with Clients l => add_clients l name type 0 f | OneClient ready => AddRpcClient ready name type 0 f end.

(** [LoadConfigFile] on the services of the file ([None]: it cannot be loaded, or has no such
    section); [warm] are the clients whose channels are warmed up. *)
Fixpoint init_services (node : bytes -> service_node) (services : list (bytes * bytes)) (f : RpcClientFactory) (warm : list (bytes * nat)) :
    bool * RpcClientFactory * list (bytes * nat) :=
  match services with
  | [] => (true, f, warm)
  | (name, type) :: services =>
      let '(ok, f) := CreateRpcClient (node name) name type f in
      if negb ok then (false, f, warm)
      else match f !! name with None => (false, f, warm) | Some group => init_services node services f (warm ++ ((fun i => (name, i)) <$> group)) end
  end.
Definition LoadConfigFile (services : option (list (bytes * bytes))) (node : bytes -> service_node) (f : RpcClientFactory) : bool * RpcClientFactory * list (bytes * nat) :=
  match services with None => (false, f, []) | Some services => init_services node services f [] end.
Definition GetRpcClient (name : bytes) (f : RpcClientFactory) : option (list nat) := f !! name.

Definition clients_of (node : service_node) : nat := match node with OneClient _ => 1 | Clients l => length l end.

Lemma add_clients_ok l name type : forall i f f', add_clients l name type i f = (true, f') ->
  default [] (f' !! name) = default [] (f !! name) ++ seq i (length l) /\ (forall k, k <> name -> f' !! k = f !! k) /\ (l <> [] -> is_Some (f' !! name)).
Proof.
  induction l as [|ready l IH]; intros i f f'; cbn [add_clients]; [intros [= <-]; rewrite app_nil_r; split_and!; done|].
  unfold AddRpcClient; destruct (is_brpc type); cbn; [|done]; destruct ready; cbn; [|done]; intros Hr; destruct (IH _ _ _ Hr) as (H1 & H2 & H3).
  rewrite lookup_insert_eq in H1; cbn in H1; split_and!.
  - rewrite H1, <- (assoc_L (++)); done.
  - intros k Hk; rewrite H2, lookup_insert_ne by done; done.
  - intros _; destruct l as [|? l]; [cbn in Hr; injection Hr as <-; rewrite lookup_insert_eq; eauto | by apply H3].
Qed.
Lemma CreateRpcClient_ok node name type f f' : CreateRpcClient node name type f = (true, f') ->
  default [] (f' !! name) = default [] (f !! name) ++ seq 0 (clients_of node) /\ (forall k, k <> name -> f' !! k = f !! k).
Proof.
  destruct node as [ready|l]; cbn [CreateRpcClient clients_of]; [|intros (? & ? & _)%add_clients_ok; done].
  intros Hr; destruct (add_clients_ok [ready] name type 0 f f') as (? & ? & _); [cbn; by rewrite Hr | done].
Qed.

(** When the services have different names, each has its clients, with the numbers from zero,
    and each of them was warmed up. *)
Lemma services_have_clients node services : forall f f' warm warm',
  NoDup services.*1 -> (forall s, s ∈ services -> f !! s.1 = None) -> init_services node services f warm = (true, f', warm') ->
  (forall s, s ∈ services -> GetRpcClient s.1 f' = Some (seq 0 (clients_of (node s.1)))) /\
  (forall k, k ∉ services.*1 -> f' !! k = f !! k) /\
  warm' = warm ++ (services.*1 ≫= fun n => (fun i => (n, i)) <$> seq 0 (clients_of (node n))).
Proof.
  induction services as [|[n t] services IH]; intros f f' warm warm' Hd Hf; cbn [init_services].
  - intros [= <- <-]; cbn; rewrite app_nil_r; split_and!; try done; intros s Hs; by apply not_elem_of_nil in Hs.
  - cbn in Hd; apply list.NoDup_cons in Hd as [Hn Hd]; destruct (CreateRpcClient (node n) n t f) as [[] f1] eqn:E; cbn [negb]; [|done].
    apply CreateRpcClient_ok in E as [H1 H2]; pose proof (Hf (n, t) ltac:(left)) as Hnone; cbn in Hnone; rewrite Hnone in H1; cbn in H1.
    destruct (f1 !! n) as [group|] eqn:Eg; [|done]; cbn in H1; subst group; intros Hr.
    assert (Hf1 : forall s, s ∈ services -> f1 !! s.1 = None).
    { intros s Hs; rewrite H2; [apply Hf; by right|]; intros <-; apply Hn, list_elem_of_fmap; by exists s. }
    destruct (IH f1 f' _ _ Hd Hf1 Hr) as (G1 & G2 & G3); split_and!.
    + intros s [->|Hs]%elem_of_cons; [unfold GetRpcClient; cbn; by rewrite G2 | by apply G1].
    + intros k Hk; cbn in Hk; apply not_elem_of_cons in Hk as [Hk1 Hk2]; rewrite G2, H2 by done; done.
    + rewrite G3; cbn; by rewrite <- (assoc_L (++)).
Qed.

Example longer_types_are_taken : is_brpc [66; 114; 80; 99; 50] = true /\ is_brpc [98; 114; 112] = false.
Proof. done. Qed.

(** [BrpcClient::Init]: the host and the path of a leader; [None] is the exception for a path
    without a slash. *)
Fixpoint last_slash (path : bytes) : option (bytes * bytes) :=
  match path with
  | [] => None
  | c :: path => match last_slash path with Some (h, p) => Some (c :: h, p) | None => if c =? 47 then Some ([], c :: path) else None end
  end.
Lemma last_slash_app path : forall h p, last_slash path = Some (h, p) -> path = h ++ p /\ exists q, p = 47 :: q /\ 47 ∉ q.
Proof.
  induction path as [|c path IH]; intros h p; cbn; [done|]; destruct (last_slash path) as [[h' p']|] eqn:E.
  - intros [= <- <-]; destruct (IH _ _ eq_refl) as [-> ?]; done.
  - destruct (Z.eqb_spec c 47) as [->|]; [|done]; intros [= <- <-]; split; [done|]; exists path; split; [done|].
    clear -E; induction path as [|c path IH]; [by apply not_elem_of_nil|]; cbn in E; destruct (last_slash path) as [[? ?]|]; [done|].
    destruct (Z.eqb_spec c 47); [done|]; apply not_elem_of_cons; split; [congruence | by apply IH].
Qed.
Example path_without_slash_throws : last_slash [97; 98] = None.
Proof. done. Qed.

(** ** Components *)

(** [ComponentMgr]: the components by their names; the first one of a name is kept. *)
Definition Register (name : bytes) (com : nat) (l : list (bytes * nat)) : list (bytes * nat) := emplace name com l.

(** [Setup] with the lists of the configuration and what the [Setup] of each component gives;
    with the components that were set up, in order. *)
Fixpoint setup_all (setup : nat -> bool) (l : list (bytes * nat)) (coms : list bytes) (log : list nat) : bool * list nat :=
  match coms with
  | [] => (true, log)
  | com :: coms =>
      match find com l with
      | None => (false, log)
      | Some c => if negb (setup c) then (false, log ++ [c]) else setup_all setup l coms (log ++ [c])
      end
  end.
Definition ComponentMgr_Setup (setup : nat -> bool) (enable_coms disable_coms : list bytes) (l : list (bytes * nat)) : bool * list nat :=
  setup_all setup l (filter (fun com => com ∉ disable_coms) enable_coms) [].
Definition ComponentMgr_Release (l : list (bytes * nat)) : list nat := l.*2.

(** [Setup] succeeds exactly when each component that is enabled and not disabled is registered
    and can be set up; then these were set up, in the order of the list. *)
Lemma setup_all_ok setup l coms : forall log, 
  let '(ok, log') := setup_all setup l coms log in
  if ok then exists cs, Forall2 (fun n c => find n l = Some c /\ setup c = true) coms cs /\ log' = log ++ cs
  else Exists (fun n => forall c, find n l = Some c -> setup c = false) coms.
Proof.
  induction coms as [|com coms IH]; intros log; cbn [setup_all]; [exists []; by rewrite app_nil_r|].
  destruct (find com l) as [c|] eqn:E; [|left; intros c Hc; congruence].
  destruct (setup c) eqn:Es; cbn [negb]; [|left; intros c' Hc; congruence].
  specialize (IH (log ++ [c])); destruct (setup_all setup l coms (log ++ [c])) as [[] log'].
  - destruct IH as (cs & Hcs & ->); exists (c :: cs); split; [by constructor | by rewrite <- (assoc_L (++))].
  - by right.
Qed.

(** [Release] is called for all that are registered, also for those that were never set up. *)
Example release_without_setup :
  let l := Register [98] 2 (Register [97] 1 []) in
  ComponentMgr_Setup (fun _ => true) [[97]; [98]] [[98]] l = (true, [1%nat]) /\ ComponentMgr_Release l = [1; 2]%nat.
Proof. vm_compute; done. Qed.
