(* ===== verification/Reader.v ===== *)
(** * The reader of monitor files: src/tools/ms_reader/monitor_status_reader.cc

    The options, the filter, the tables with their rates, the output as JSON and as text, and
    the loop of [main] over what the monitor file holds at each turn.  The regular expressions
    and the formatting of a row are those of boost; the clock is an argument. *)
From Stdlib Require Import ZArith Lia.
From stdpp Require Import base list option.
From S2P Require Import Prelude Words Strings OrderedMap.

Local Open Scope Z_scope.

Abbreviation lit := bytes_of.

(** ** Options *)

(** The global variables that [Init] sets. *)
Record Options : Type := mkOptions {
  g_time_interval : Z; g_show_time_slice : bool; g_show_timestamp : bool; g_show_qnum : bool;
  g_monitor_status_file : bytes; g_output_type : bytes; g_search_str : bytes; attrs : list bytes
}.
Definition no_options : Options := mkOptions 0 false false false [] [] [] [].

(** An option on the command line and its argument, and what [getopt] makes of it with the
    letters Ttha:i:v:s:f: of the source: a letter that is not among them, or whose argument is
    missing, is a question mark. *)
Definition getopt (c : Z) (arg : option bytes) : Z * bytes :=
  if existsb (Z.eqb c) (lit "Tth") then (c, [])
  else if existsb (Z.eqb c) (lit "aivsf") then match arg with Some a => (c, a) | None => (63, []) end
  else (63, []).

(** The argument of -i: microseconds, with a unit; the rest of the string begins at [arg_end]. *)
Definition interval (optarg : bytes) : Z :=
  let '(v, arg_end, _) := strtol optarg in
  let v := wrap 64 v in
  let moved := negb (length arg_end =? length optarg)%nat in
  match arg_end with
  | c :: rest =>
      if moved then
        let c1 := default 0 (head rest) in
        if (c =? 109) && (c1 =? 115) then wrap 64 (v * 1000)
        else if negb (c =? 117) || negb (c1 =? 115) then wrap 64 (v * 1000000) else v
      else wrap 64 (v * 1000000)
  | [] => wrap 64 (v * 1000000)
  end.

(** The loop of [Init]; [None] is the return for the help. *)
Definition set_option (o : Options) (c : Z) (optarg : bytes) : option Options :=
  let 'mkOptions i t T Q f v s a := o in
  if c =? 81 then Some (mkOptions i t T true f v s a)
  else if c =? 84 then Some (mkOptions i t true Q f v s a)
  else if c =? 116 then Some (mkOptions i true T Q f v s a)
  else if c =? 102 then Some (mkOptions i t T Q optarg v s a)
  else if c =? 97 then Some (mkOptions i t T Q f v s (a ++ [optarg]))
  else if c =? 105 then Some (mkOptions (interval optarg) t T Q f v s a)
  else if c =? 118 then Some (mkOptions i t T Q f optarg s a)
  else if c =? 115 then Some (mkOptions i t T Q f v optarg a)
  else None.
Fixpoint read_options (l : list (Z * option bytes)) (o : Options) : option Options :=
  match l with
  | [] => Some o
  | (c, arg) :: l => let '(c, optarg) := getopt c arg in o ← set_option o c optarg; read_options l o
  end.

(** [Init]; [readable] and [regular] are what the file system says of the file. *)
Definition Init (args : list (Z * option bytes)) (readable regular : bool) : option Options :=
  o ← read_options args no_options;
  if match g_monitor_status_file o with [] => true | _ => negb readable end then None
  else if negb regular then None else Some o.

(** ** Counters *)

Record TimerMonitorStatus : Type := mkTimer { total_count : Z; total_time : Z; slices : list Z }.
Record BinaryMonitorStatus : Type := mkBinary { flag : Z; false_count : Z; true_count : Z }.
Definition g_null_tm_status : TimerMonitorStatus := mkTimer 0 0 (replicate 15 0).

(** What a monitor file holds. *)
Record Snapshot : Type := mkSnapshot {
  counters : list (bytes * Z); timers : list (bytes * TimerMonitorStatus); binaries : list (bytes * BinaryMonitorStatus)
}.
Definition no_counters : Snapshot := mkSnapshot [] [] [].

(** [CounterFilter]: what matches is assigned to the result, which keeps what it has. *)
Definition CounterFilter {V} (matches : bytes -> bool) (all : list (bytes * V)) (result : list (bytes * V)) : list (bytes * V) :=
  foldl (fun r e => if matches e.1 then assign e.1 e.2 r else r) result all.
Definition filter_all (matches : bytes -> bool) (now filtered : Snapshot) : Snapshot :=
  mkSnapshot (CounterFilter matches (counters now) (counters filtered)) (CounterFilter matches (timers now) (timers filtered))
    (CounterFilter matches (binaries now) (binaries filtered)).

(** ** Tables *)

(** A cell: a text, a number, or a quotient of numbers that is computed as a floating point
    number, so the divisor may be zero. *)
Inductive cell : Type := Text (l : bytes) | Num (x : Z) | Ratio (x y : Z).
Definition row : Type := list cell.

(** A row with the [n] places of its format; [None] is the exception for another number of
    cells. *)
Definition format (n : nat) (r : row) : option row := if (length r =? n)%nat then Some r else None.

(** The seconds that a rate is divided by. *)
Definition seconds (o : Options) : Z := if g_time_interval o =? 0 then 1 else g_time_interval o / 1000000.

(** [GetTime] from the broken-down time of [gmtime]: day, month, year, hour, minute, second. *)
Definition GetTime (tm : Z * Z * Z * Z * Z * Z) : list Z :=
  let '(mday, mon, year, hour, min, sec) := tm in [mday; mon + 1; year + 1900; hour + 8; min; sec].

Section Tables.
Context (o : Options) (now : bytes).
Definition stamp (r : row) : row := if g_show_timestamp o then Text now :: r else r.
Definition stamped (n : nat) : nat := if g_show_timestamp o then S n else n.

Definition counter_row (old : list (bytes * Z)) (e : bytes * Z) : row :=
  let total_count := wrap 32 e.2 in
  let old_total_count := wrap 32 (default 0 (find e.1 old)) in
  stamp [Text e.1; Ratio (wrap 32 (total_count - old_total_count)) (seconds o); Num total_count].
Definition PrintCounterMap (all old : list (bytes * Z)) : option (list row) :=
  match all with
  | [] => Some []
  | _ => mapM (format (stamped 3)) ((if g_show_timestamp o then cons (Text (lit "time")) else id) [Text (lit "name"); Text (lit "qps"); Text (lit "total_count")]
           :: (counter_row old <$> all))
  end.

(** A binary counter that was not there before is left out. *)
Definition binary_row (old : list (bytes * BinaryMonitorStatus)) (e : bytes * BinaryMonitorStatus) : option row :=
  before ← find e.1 old;
  Some (stamp [Text e.1; Num (flag e.2); Ratio (wrap 32 (true_count e.2 - true_count before)) (seconds o);
               Ratio (wrap 32 (false_count e.2 - false_count before)) (seconds o); Num (true_count e.2); Num (false_count e.2)]).
Definition PrintBinaryMap (all old : list (bytes * BinaryMonitorStatus)) : option (list row) :=
  match all with
  | [] => Some []
  | _ => mapM (format (stamped 6))
           ((if g_show_timestamp o then cons (Text (lit "time")) else id)
              [Text (lit "name"); Text (lit "flag"); Text (lit "true_qps"); Text (lit "false_qps"); Text (lit "true_count"); Text (lit "false_count")]
            :: omap (binary_row old) all)
  end.

(** [ShowTimeSlice]: the increments of all the fields after the first two, and their shares. *)
Definition slice_row (old : list (bytes * TimerMonitorStatus)) (e : bytes * TimerMonitorStatus) : row :=
  let before := default g_null_tm_status (find e.1 old) in
  let inc_count := zip_with (fun s old_s => wrap 64 (s - old_s)) (slices e.2) (slices before) in
  let total := foldl (fun t x => wrap 32 (t + x)) 0 inc_count in
  Text e.1 :: ((fun x => Ratio (x * 100) (if 0 <? total then total else 1)) <$> inc_count).
Definition slice_names : list bytes :=
  lit <$> ["gt0ms(%)"; "gt0.5ms(%)"; "gt1.0ms(%)"; "gt1.5ms(%)"; "gt2.0ms(%)"; "gt2.5ms(%)"; "gt3.0ms(%)"; "gt3.5ms(%)"; "gt4.0ms(%)"; "gt4.5ms(%)";
           "gt5ms(%)"; "gt50ms(%)"; "gt100ms(%)"; "gt300ms(%)"; "gt1000ms(%)"]%string.
Definition ShowTimeSlice (all old : list (bytes * TimerMonitorStatus)) : option (list row) :=
  mapM (format 16) ((Text <$> lit "timer_counter_name" :: slice_names) :: (slice_row old <$> all)).

Definition timer_row (old : list (bytes * TimerMonitorStatus)) (e : bytes * TimerMonitorStatus) : row :=
  let before := default g_null_tm_status (find e.1 old) in
  let count_diff := wrap 64 (total_count e.2 - total_count before) in
  stamp ([Text e.1; Ratio (wrap 64 (total_time e.2 - total_time before)) (1000 * (if count_diff =? 0 then 1 else count_diff));
          Ratio count_diff (seconds o)] ++ if g_show_qnum o then [Num count_diff] else []).
Definition PrintTimerMap (all old : list (bytes * TimerMonitorStatus)) : option (list row) :=
  match all with
  | [] => Some []
  | _ =>
      if g_show_time_slice o then ShowTimeSlice all old
      else mapM (format (stamped (if g_show_qnum o then 4 else 3)))
             ((if g_show_timestamp o then cons (Text (lit "time")) else id)
                ([Text (lit "name"); Text (lit "rt(ms)"); Text (lit "qps")] ++ if g_show_qnum o then [Text (lit "qnum")] else [])
              :: (timer_row old <$> all))
  end.
End Tables.

(** ** JSON and text *)

Definition quote : Z := 34.
Definition quoted (l : bytes) : bytes := quote :: l ++ [quote].

(** The entries of a map are appended to the result, each with a comma, and the last comma is
    erased. *)
Definition append_map {V} (print : V -> bytes) (l : list (bytes * V)) (result : bytes) : bytes :=
  let result := foldl (fun r e => r ++ quoted e.1 ++ [58] ++ print e.2 ++ [44]) result l in
  match l with [] => result | _ => removelast result end.
Definition print_timer (s : TimerMonitorStatus) : bytes :=
  lit "{" ++ quoted (lit "count") ++ lit ":" ++ decimal (total_count s) ++ lit "," ++ quoted (lit "time") ++ lit ":" ++ decimal (total_time s) ++ lit "}".
Definition print_binary (s : BinaryMonitorStatus) : bytes :=
  lit "{" ++ quoted (lit "flag") ++ lit ":" ++ decimal (flag s) ++ lit "," ++ quoted (lit "false_count") ++ lit ":" ++ decimal (false_count s) ++ lit "," ++
  quoted (lit "true_count") ++ lit ":" ++ decimal (true_count s) ++ lit "}".

(** [PrintJsonMap]; [now] is the time as it is printed. *)
Definition PrintJsonMap (now : bytes) (s : Snapshot) : bytes :=
  let result := lit "{" ++ quoted (lit "__timestamp") ++ lit ":" ++ now ++ lit "," in
  let result := append_map decimal (counters s) (result ++ quoted (lit "counters") ++ lit ":{") ++ lit "}," in
  let result := append_map print_timer (timers s) (result ++ quoted (lit "timer_counters") ++ lit ":{") ++ lit "}," in
  append_map print_binary (binaries s) (result ++ quoted (lit "binary_counters") ++ lit ":{") ++ lit "}}".

(** [PrintTextMap]: the last blank is erased only when there is a timer. *)
Definition PrintTextMap (now : bytes) (s : Snapshot) : bytes :=
  let result := now ++ [9] in
  let result := foldl (fun r e => r ++ e.1 ++ lit "=" ++ decimal e.2 ++ lit " ") result (counters s) in
  let result := foldl (fun r e => r ++ e.1 ++ lit "#count=" ++ decimal (total_count e.2) ++ lit " " ++ e.1 ++ lit "#time=" ++ decimal (total_time e.2) ++ lit " ")
                  result (timers s) in
  match timers s with [] => result | _ => removelast result end.

(** ** The loop of [main] *)

(** What is printed at a turn: tables or a line. *)
Inductive output : Type := Tables (c t b : list row) | Line (l : bytes).

(** One turn: the file is read, filtered and printed; [None] is an exception. *)
Definition turn (o : Options) (matches : bytes -> bool) (now : bytes) (read filtered old : Snapshot) : option (output * Snapshot) :=
  let filtered := filter_all matches read filtered in
  if decide (g_output_type o = lit "json") then Some (Line (PrintJsonMap now filtered), filtered)
  else if decide (g_output_type o = lit "text") then Some (Line (PrintTextMap now filtered), filtered)
  else
    c ← PrintCounterMap o now (counters filtered) (counters old);
    t ← PrintTimerMap o now (timers filtered) (timers old);
    b ← PrintBinaryMap o now (binaries filtered) (binaries old);
    Some (Tables c t b, filtered).

(** The turns over what the file holds each time: one for a line, or without an interval. *)
Fixpoint turns (o : Options) (matches : bytes -> bool) (l : list (bytes * Snapshot)) (filtered old : Snapshot) : option (list output) :=
  match l with
  | [] => Some []
  | (now, read) :: l =>
      '(out, filtered) ← turn o matches now read filtered old;
      match out with
      | Line _ => Some [out]
      | Tables _ _ _ => if g_time_interval o =? 0 then Some [out] else rest ← turns o matches l filtered filtered; Some (out :: rest)
      end
  end.

(** [main] after [Init]: for tables the file is read once before, without the filter. *)
Definition main (o : Options) (matches : bytes -> bool) (first : Snapshot) (l : list (bytes * Snapshot)) : option (list output) :=
  let matches name := match g_search_str o with [] => true | _ => matches name end in
  turns o matches l no_counters (match g_output_type o with [] => first | _ => no_counters end).

(** ** Reading JSON *)

(** A reader for what is printed: objects, and numbers as texts. *)
Inductive json : Type := JNum (text : bytes) | JObj (l : list (bytes * json)).
Definition is_number_char (c : Z) : bool := ((48 <=? c) && (c <=? 57)) || (c =? 46) || (c =? 43) || (c =? 45) || (c =? 69) || (c =? 101).
Fixpoint number_text (l : bytes) : bytes * bytes :=
  match l with [] => ([], []) | c :: r => if is_number_char c then let (n, r) := number_text r in (c :: n, r) else ([], l) end.
Definition expect (c : Z) (l : bytes) : option bytes := match l with x :: l => if x =? c then Some l else None | [] => None end.
Fixpoint name_text (l : bytes) : option (bytes * bytes) :=
  match l with
  | [] => None
  | c :: l => if c =? quote then Some ([], l) else if (c =? 92) || (c <? 32) then None else '(n, r) ← name_text l; Some (c :: n, r)
  end.
Fixpoint parse_value (fuel : nat) (l : bytes) : option (json * bytes) :=
  match fuel with
  | O => None
  | S fuel =>
      match expect 123 l with
      | Some r =>
          match expect 125 r with
          | Some r => Some (JObj [], r)
          | None => '(ms, r) ← parse_members fuel r; Some (JObj ms, r)
          end
      | None => match number_text l with ([], _) => None | (n, r) => Some (JNum n, r) end
      end
  end
with parse_members (fuel : nat) (l : bytes) : option (list (bytes * json) * bytes) :=
  match fuel with
  | O => None
  | S fuel =>
      r ← expect quote l;
      '(n, r) ← name_text r;
      r ← expect 58 r;
      '(v, r) ← parse_value fuel r;
      match expect 44 r with
      | Some r => '(ms, r) ← parse_members fuel r; Some ((n, v) :: ms, r)
      | None => r ← expect 125 r; Some ([(n, v)], r)
      end
  end.
Definition parse_json (l : bytes) : option json := '(j, r) ← parse_value (length l) l; match r with [] => Some j | _ => None end.

(** What a snapshot is as JSON. *)
Definition jnum (x : Z) : json := JNum (decimal x).
Definition json_of (now : bytes) (s : Snapshot) : json :=
  JObj [(lit "__timestamp", JNum now);
        (lit "counters", JObj ((fun e => (e.1, jnum e.2)) <$> counters s));
        (lit "timer_counters", JObj ((fun e => (e.1, JObj [(lit "count", jnum (total_count e.2)); (lit "time", jnum (total_time e.2))])) <$> timers s));
        (lit "binary_counters", JObj ((fun e => (e.1, JObj [(lit "flag", jnum (flag e.2)); (lit "false_count", jnum (false_count e.2));
                                                            (lit "true_count", jnum (true_count e.2))])) <$> binaries s))].

(** ** What is printed can be read *)

Fixpoint render (j : json) : bytes :=
  match j with
  | JNum t => t
  | JObj l =>
      123 :: (fix members (l : list (bytes * json)) : bytes :=
                match l with
                | [] => []
                | (n, v) :: l => quoted n ++ 58 :: render v ++ match l with [] => [] | _ => 44 :: members l end
                end) l ++ [125]
  end.
Fixpoint render_members (l : list (bytes * json)) : bytes :=
  match l with [] => [] | (n, v) :: l => quoted n ++ 58 :: render v ++ match l with [] => [] | _ => 44 :: render_members l end end.
Lemma render_object l : render (JObj l) = 123 :: render_members l ++ [125].
Proof. done. Qed.
#[local] Arguments render : simpl never.
#[local] Arguments quoted : simpl never.

(** Names without quotes, backslashes and control characters. *)
Definition plain (n : bytes) : bool := forallb (fun c => negb (c =? quote) && negb (c =? 92) && (32 <=? c)) n.
Fixpoint good (j : json) : bool :=
  match j with
  | JNum t => negb (bool_decide (t = [])) && forallb is_number_char t
  | JObj l => (fix all (l : list (bytes * json)) : bool := match l with [] => true | (n, v) :: l => plain n && good v && all l end) l
  end.
Fixpoint good_members (l : list (bytes * json)) : bool := match l with [] => true | (n, v) :: l => plain n && good v && good_members l end.
Lemma good_object l : good (JObj l) = good_members l.
Proof. done. Qed.
#[local] Arguments good : simpl never.

Definition ends_number (l : bytes) : bool := match l with [] => true | c :: _ => negb (is_number_char c) end.

Lemma number_text_app t rest : forallb is_number_char t = true -> ends_number rest = true -> number_text (t ++ rest) = (t, rest).
Proof.
  intros Ht Hr; induction t as [|c t IH]; cbn in *; [destruct rest as [|c rest]; [done|]; cbn in *; by destruct (is_number_char c)|].
  apply andb_true_iff in Ht as [-> Ht]; by rewrite IH.
Qed.
Lemma name_text_app n rest : plain n = true -> name_text (n ++ quote :: rest) = Some (n, rest).
Proof.
  induction n as [|c n IH]; cbn; [done|]; intros [Hc Hn]%andb_true_iff; apply andb_true_iff in Hc as [Hc H32]; apply andb_true_iff in Hc as [Hq Hb].
  apply negb_true_iff in Hq, Hb; rewrite Hq, Hb, IH by done; destruct (Z.ltb_spec c 32); [apply Z.leb_le in H32; lia | done].
Qed.
Lemma expect_here c l : expect c (c :: l) = Some l.
Proof. cbn; by rewrite Z.eqb_refl. Qed.
Lemma number_is_no_object t rest : good (JNum t) = true -> expect 123 (t ++ rest) = None.
Proof.
  unfold good; intros [Hn Ht]%andb_true_iff; destruct t as [|c t]; [done|]; cbn in Ht |- *; apply andb_true_iff in Ht as [Hc _].
  destruct (Z.eqb_spec c 123) as [->|]; [done | done].
Qed.

Lemma parse_render fuel :
  (forall j rest, good j = true -> (length (render j) <= fuel)%nat -> ends_number rest = true -> parse_value fuel (render j ++ rest) = Some (j, rest)) /\
  (forall ms rest, ms <> [] -> good_members ms = true -> (length (render_members ms) <= fuel)%nat ->
     parse_members fuel (render_members ms ++ 125 :: rest) = Some (ms, rest)).
Proof.
  induction fuel as [|fuel [IHv IHm]]; split.
  - intros [t|l] rest Hg Hl _; [destruct t; [done | cbn in Hl; unfold render in Hl; cbn in Hl; lia] | rewrite render_object in Hl; cbn in Hl; rewrite length_app in Hl; cbn in Hl; lia].
  - intros [|[n v] ms] rest Hne _ Hl; [done | cbn in Hl; unfold quoted in Hl; cbn in Hl; lia].
  - intros [t|l] rest Hg Hl Hr; cbn [parse_value].
    + unfold render; rewrite number_is_no_object, number_text_app by (done || (unfold good in Hg; by apply andb_true_iff in Hg as [_ ?])); destruct t; done.
    + rewrite render_object in *; rewrite good_object in Hg; cbn [app]; rewrite expect_here; destruct l as [|[n v] l]; [done|].
      rewrite <- (assoc_L (++)); cbn [app]; rewrite IHm; [|done|done|cbn [length] in Hl; rewrite length_app in Hl; cbn [length] in Hl; lia].
      cbn [render_members]; unfold quoted; cbn [app expect]; done.
  - intros [|[n v] ms] rest Hne Hg Hl; [done|]; cbn [good_members] in Hg; apply andb_true_iff in Hg as [Hg Hms]; apply andb_true_iff in Hg as [Hn Hv].
    cbn [render_members] in Hl |- *; unfold quoted in Hl |- *; cbn [app] in Hl |- *; rewrite <- !(assoc_L (++)); cbn [app]; rewrite <- !(assoc_L (++)).
    cbn [parse_members]; rewrite expect_here; cbn [mbind option_bind]; rewrite name_text_app by done; cbn [mbind option_bind]; rewrite expect_here; cbn [mbind option_bind].
    cbn [length] in Hl; rewrite !length_app in Hl; cbn [length] in Hl; rewrite !length_app in Hl.
    destruct ms as [|m ms].
    + rewrite app_nil_l in *; cbn [app]; rewrite IHv by (done || (cbn in Hl; lia)); cbn [mbind option_bind]; cbn; done.
    + cbn [app length] in Hl |- *; rewrite IHv by (done || lia); cbn [mbind option_bind]; rewrite expect_here, IHm by (done || lia); done.
Qed.

(** Texts that are put together in different orders. *)
Ltac same_text := repeat (progress (rewrite ?app_nil_r, <- ?(assoc_L (++)); cbn [app])); reflexivity.

(** The maps as members. *)
Lemma append_map_members {V} (print : V -> bytes) (f : V -> json) (l : list (bytes * V)) result :
  (forall v, print v = render (f v)) -> append_map print l result = result ++ render_members ((fun e => (e.1, f e.2)) <$> l).
Proof.
  intros Hp; unfold append_map; assert (Hfold : forall l result, l <> [] ->
    foldl (fun r e => r ++ quoted e.1 ++ [58] ++ print e.2 ++ [44]) result l = (result ++ render_members ((fun e => (e.1, f e.2)) <$> l)) ++ [44]).
  { clear l result; induction l as [|[n v] l IH]; intros result Hne; [done|]; destruct l as [|e l].
    - cbn; rewrite Hp, <- !(assoc_L (++)); cbn; rewrite <- !(assoc_L (++)); done.
    - set (rest := e :: l) in *; change (foldl _ result ((n, v) :: rest)) with (foldl (fun r e => r ++ quoted e.1 ++ [58] ++ print e.2 ++ [44]) (result ++ quoted n ++ [58] ++ print v ++ [44]) rest).
      rewrite IH by done; f_equal; change (render_members ((fun e0 => (e0.1, f e0.2)) <$> (n, v) :: rest)) with (quoted n ++ 58 :: render (f v) ++ 44 :: render_members ((fun e0 => (e0.1, f e0.2)) <$> rest)).
      rewrite Hp, <- !(assoc_L (++)); done. }
  destruct l as [|e l]; [cbn; by rewrite app_nil_r|]; rewrite Hfold by done; apply removelast_last.
Qed.

Lemma PrintJsonMap_render now s : PrintJsonMap now s = render (json_of now s).
Proof.
  unfold PrintJsonMap, json_of; rewrite (append_map_members decimal jnum) by done.
  rewrite (append_map_members print_timer (fun t => JObj [(lit "count", jnum (total_count t)); (lit "time", jnum (total_time t))])).
  2:{ intros t; unfold print_timer; rewrite render_object; cbn [render_members]; same_text. }
  rewrite (append_map_members print_binary (fun b => JObj [(lit "flag", jnum (flag b)); (lit "false_count", jnum (false_count b)); (lit "true_count", jnum (true_count b))])).
  2:{ intros b; unfold print_binary; rewrite render_object; cbn [render_members]; same_text. }
  rewrite render_object; cbn [render_members]; rewrite !render_object; same_text.
Qed.

Lemma print_digits_number f : forall n acc, forallb is_number_char acc = true -> forallb is_number_char (print_digits f n acc) = true.
Proof.
  induction f as [|f IH]; intros n acc Ha; cbn [print_digits]; [done|]; pose proof (Z.mod_pos_bound n 10 ltac:(lia)).
  assert (Hc : forallb is_number_char ((48 + n mod 10) :: acc) = true) by (cbn; rewrite Ha; unfold is_number_char; lia).
  destruct (_ =? _); [done | by apply IH].
Qed.
Lemma jnum_good x : good (jnum x) = true.
Proof.
  unfold jnum, good; apply andb_true_iff; split.
  - destruct (decimal_cons x) as (c & l & -> & _); done.
  - unfold decimal; destruct (x <? 0); cbn [forallb]; by rewrite print_digits_number.
Qed.
Lemma good_fmap {V} (f : V -> json) (l : list (bytes * V)) :
  (forall v, good (f v) = true) -> forallb (fun e => plain e.1) l = true -> good_members ((fun e => (e.1, f e.2)) <$> l) = true.
Proof. intros Hf; induction l as [|[n v] l IH]; cbn; [done|]; intros [-> Hl]%andb_true_iff; rewrite Hf; by apply IH. Qed.

Definition plain_names (s : Snapshot) : bool :=
  forallb (fun e => plain e.1) (counters s) && forallb (fun e => plain e.1) (timers s) && forallb (fun e => plain e.1) (binaries s).

(** When the names of the counters have no quotes, backslashes and control characters, what
    the reader prints is JSON, and reading it gives the time, the counters with their values,
    the timers and the binary counters of the snapshot back; every value can be read from its
    text. *)
Lemma json_reads_back now s :
  good (JNum now) = true -> plain_names s = true ->
  parse_json (PrintJsonMap now s) = Some (json_of now s) /\
  forall x, 0 <= x < 2 ^ 64 -> exists text, jnum x = JNum text /\ strtoul text = (x, [], false).
Proof.
  intros Hnow Hp; split; [|intros x Hx; exists (decimal x); split; [done | by apply strtoul_decimal]].
  unfold parse_json; rewrite PrintJsonMap_render, <- (app_nil_r (render (json_of now s))); rewrite (proj1 (parse_render _)); [done| |by rewrite app_nil_r|done].
  apply andb_true_iff in Hp as [Hp Hb]; apply andb_true_iff in Hp as [Hc Ht]; unfold json_of; rewrite good_object; cbn [good_members]; rewrite Hnow, !good_object.
  rewrite (good_fmap jnum) by (done || apply jnum_good).
  rewrite (good_fmap (fun t => JObj [(lit "count", jnum (total_count t)); (lit "time", jnum (total_time t))])) by (done || (intros v; rewrite good_object; cbn [good_members]; by rewrite !jnum_good)).
  rewrite (good_fmap (fun b => JObj [(lit "flag", jnum (flag b)); (lit "false_count", jnum (false_count b)); (lit "true_count", jnum (true_count b))]))
    by (done || (intros v; rewrite good_object; cbn [good_members]; by rewrite !jnum_good)).
  reflexivity.
Qed.

(** A name with a quote is printed as it is, and the result is no JSON. *)
Example quote_breaks_json : parse_json (PrintJsonMap (lit "1") (mkSnapshot [([97; 34; 98], 7)] [] [])) = None.
Proof. vm_compute; reflexivity. Qed.

(** ** Rates *)

(** The increase of a counter is shown as it is, as long as it is less than 2^32 in one turn. *)
Lemma rate_exact o now old n v before :
  find n old = Some before -> 0 <= v - before < 2 ^ 32 ->
  exists total, counter_row o now old (n, v) = stamp o now [Text n; Ratio (v - before) (seconds o); Num total].
Proof.
  intros Hf Hd; unfold counter_row; cbn [fst snd]; rewrite Hf; cbn [default]; exists (wrap 32 v); do 3 f_equal.
  unfold wrap; cbn [from_option id]; rewrite <- Zminus_mod; rewrite Z.mod_small by lia; done.
Qed.

(** But the totals are cut to 32 bits. *)
Example total_is_cut : counter_row no_options [] [] (lit "a", 2 ^ 32 + 5) = [Text (lit "a"); Ratio 5 1; Num 5].
Proof. vm_compute; reflexivity. Qed.

(** An interval of less than a second makes a divisor of zero; -i 500ms is half a second. *)
Example rates_divided_by_zero :
  interval (lit "500ms") = 500000 /\ seconds (mkOptions (interval (lit "500ms")) false false false [] [] [] []) = 0.
Proof. vm_compute; done. Qed.

(** The option -Q is not among the letters for [getopt]: it shows the help. *)
Example option_Q_is_unknown : Init [(102, Some (lit "f")); (81, None)] true true = None /\ is_Some (Init [(102, Some (lit "f")); (84, None)] true true).
Proof. vm_compute; eauto. Qed.

(** The last of the ten slices counts what is above 5 ms, too, so the shares of a timer with
    only such times are halves. *)
Example slow_times_count_twice :
  slice_row [] (lit "t", mkTimer 8 80000 [0; 0; 0; 0; 0; 0; 0; 0; 0; 8; 8; 0; 0; 0; 0]) =
    Text (lit "t") :: replicate 9 (Ratio 0 16) ++ [Ratio 800 16; Ratio 800 16] ++ replicate 4 (Ratio 0 16).
Proof. vm_compute; reflexivity. Qed.

(** Eight hours are added to the hour, and not to the day. *)
Example time_without_carry : GetTime (31, 11, 123, 20, 5, 6) = [31; 12; 2023; 28; 5; 6].
Proof. reflexivity. Qed.

(** A binary counter that is new has no row in the table. *)
Example new_binary_is_left_out : length <$> PrintBinaryMap no_options [] [(lit "a", mkBinary 1 0 1)] [] = Some 1%nat.
Proof. vm_compute; reflexivity. Qed.

(** ** The tables are always printed *)

Lemma mapM_format n (l : list row) : Forall (fun r => length r = n) l -> mapM (format n) l = Some l.
Proof. intros Hl; apply mapM_Some; induction Hl as [|r l Hr _ IH]; constructor; [unfold format; by rewrite Hr, Nat.eqb_refl | exact IH]. Qed.
Lemma stamp_length o now r : length (stamp o now r) = stamped o (length r).
Proof. unfold stamp, stamped; by destruct (g_show_timestamp o). Qed.
Lemma header_length o r : length ((if g_show_timestamp o then cons (Text (lit "time")) else id) r) = stamped o (length r).
Proof. unfold stamped; by destruct (g_show_timestamp o). Qed.

(** Every row has as many cells as its format has places, for every combination of options, when
    timers have their fifteen fields: no turn ends with an exception. *)
Lemma turn_total o matches now read filtered old :
  let all := timers (filter_all matches read filtered) in
  Forall (fun e => length (slices e.2) = 15%nat) all -> Forall (fun e => length (slices e.2) = 15%nat) (timers old) ->
  is_Some (turn o matches now read filtered old).
Proof.
  cbn zeta; set (f := filter_all matches read filtered); intros Ha Hold; unfold turn; fold f; destruct (decide _); [eauto|]; destruct (decide _); [eauto|].
  assert (Hc : is_Some (PrintCounterMap o now (counters f) (counters old))).
  { unfold PrintCounterMap; destruct (counters f) as [|e l] eqn:E; [eauto|]; rewrite mapM_format; [eauto|]; constructor; [apply header_length|].
    apply list.Forall_forall; intros r (x & -> & _)%list_elem_of_fmap; unfold counter_row; by rewrite stamp_length. }
  assert (Hb : is_Some (PrintBinaryMap o now (binaries f) (binaries old))).
  { unfold PrintBinaryMap; destruct (binaries f) as [|e l] eqn:E; [eauto|]; rewrite mapM_format; [eauto|]; constructor; [apply header_length|].
    apply list.Forall_forall; intros r (x & _ & Hx)%list_elem_of_omap; unfold binary_row in Hx; destruct (find x.1 (binaries old)); [|done]; injection Hx as <-; by rewrite stamp_length. }
  assert (Ht : is_Some (PrintTimerMap o now (timers f) (timers old))).
  { unfold PrintTimerMap; destruct (timers f) as [|e l] eqn:E; [eauto|]; destruct (g_show_time_slice o).
    - unfold ShowTimeSlice; rewrite mapM_format; [eauto|]; constructor; [done|]; apply list.Forall_forall; intros r (x & -> & Hx)%list_elem_of_fmap; unfold slice_row; cbn [length].
      rewrite length_fmap, length_zip_with; rewrite list.Forall_forall in Ha; rewrite (Ha x Hx); destruct (find x.1 (timers old)) as [b|] eqn:Ef; [|done].
      assert (Hb' : length (slices b) = 15%nat); [|cbn; by rewrite Hb'].
      clear -Hold Ef; induction Hold as [|[n y] l Hy _ IH]; [done|]; cbn in *; destruct (decide (n = x.1)); [by injection Ef as <- | by apply IH].
    - rewrite mapM_format; [eauto|]; constructor; [rewrite header_length; by destruct (g_show_qnum o)|]; apply list.Forall_forall; intros r (x & -> & _)%list_elem_of_fmap.
      unfold timer_row; rewrite stamp_length; by destruct (g_show_qnum o). }
  destruct Hc as [c ->], Ht as [t ->], Hb as [b ->]; cbn; eauto.
Qed.
