(* ===== verification/ReaderCorrect.v ===== *)
(** * What processes count is what the reader reports

    The reader of monitor files over the file that processes write: composes [Monitor] with
    [Reader]. *)
From Stdlib Require Import ZArith Lia.
From stdpp Require Import base gmap list option.
From S2P Require Import Prelude Words Memory Strings Monitor MonitorCorrect OrderedMap Reader.

Local Open Scope Z_scope.

(** ** From the bytes of a file to a snapshot *)

(** The structs from their bytes. *)
Definition word_at (v : list Z) (i : nat) : Z := le_value (take 8 (drop (8 * i) v)).
Definition decode_timer (v : list Z) : TimerMonitorStatus := mkTimer (word_at v 0) (word_at v 1) (word_at v <$> seq 2 15).
Definition decode_binary (v : list Z) : BinaryMonitorStatus :=
  mkBinary (le_value (take 4 v)) (le_value (take 4 (drop 4 v))) (le_value (take 4 (drop 8 v))).

(** A map in the order of its names. *)
Definition ordered_of {V} (all : gmap bytes V) : list (bytes * V) := foldr (fun e l => assign e.1 e.2 l) [] (map_to_list all).

(** The three requests of a turn of [main], by a process that has done [p]. *)
Definition read_snapshot (p : MonitorStatusImpl) (l : RawMMapList) : option (MonitorStatusImpl * Snapshot) :=
  '(p, c) ← GetAllCounters ∅ p l;
  '(p, t) ← GetAllTimerCounters ∅ p l;
  '(p, b) ← GetAllBinaryCounters ∅ p l;
  Some (p, mkSnapshot (ordered_of (le_value <$> c)) (ordered_of (decode_timer <$> t)) (ordered_of (decode_binary <$> b))).

(** ** Ordered maps of finite maps *)

Lemma find_foldr {V} (l : list (bytes * V)) q : find q (foldr (fun e l => assign e.1 e.2 l) [] l) = (list_to_map l : gmap bytes V) !! q.
Proof.
  induction l as [|[n v] l IH]; [done|]; cbn [foldr]; rewrite list_to_map_cons, find_assign, IH; cbn.
  destruct (decide (n = q)) as [->|Hn]; [by rewrite lookup_insert_eq | by rewrite lookup_insert_ne].
Qed.
Lemma find_ordered_of {V} (all : gmap bytes V) q : find q (ordered_of all) = all !! q.
Proof. unfold ordered_of; by rewrite find_foldr, list_to_map_to_list. Qed.
Lemma ordered_of_ordered {V} (all : gmap bytes V) : ordered (ordered_of all).
Proof. unfold ordered_of; induction (map_to_list all) as [|e l IH]; [constructor | by apply assign_ordered]. Qed.

(** A filter that lets everything pass keeps an ordered map as it is. *)
Lemma assign_last {V} n (v : V) l : Forall (fun e => bytes_lt e.1 n = true) l -> assign n v l = l ++ [(n, v)].
Proof.
  induction 1 as [|[m c] l Hm _ IH]; [done|]; cbn in *; rewrite decide_False by (intros ->; by rewrite bytes_lt_irrefl in Hm).
  destruct (bytes_lt n m) eqn:E; [pose proof (bytes_lt_trans _ _ _ Hm E) as Hbad; by rewrite bytes_lt_irrefl in Hbad | by rewrite IH].
Qed.
Lemma filter_everything {V} (l : list (bytes * V)) matches : (forall n, matches n = true) -> ordered l -> CounterFilter matches l [] = l.
Proof.
  intros Hall Hl; unfold CounterFilter; assert (H : forall (l r : list (bytes * V)), ordered l -> Forall (fun e => Forall (fun x => bytes_lt x.1 e.1 = true) r) l ->
    foldl (fun r e => if matches e.1 then assign e.1 e.2 r else r) r l = r ++ l); [|apply H; [done|]; apply list.Forall_forall; constructor].
  clear l Hl; induction l as [|[n v] l IH]; intros r Ho Hr; cbn [foldl fst snd]; [by rewrite app_nil_r|]; rewrite Hall.
  apply list.Forall_cons in Hr as [Hn Hr]; cbn in Hn; rewrite assign_last by done; inversion Ho as [|? ? Ho' Hfirst]; subst.
  rewrite IH, <- (assoc_L (++)); [done|done|].
  apply list.Forall_forall; intros e He; apply list.Forall_app; split; [by rewrite list.Forall_forall in Hr; apply Hr|].
  constructor; [|constructor]; rewrite list.Forall_forall in Hfirst; by apply (Hfirst e He).
Qed.

(** ** Reading a file *)

Lemma ParseCounters_ok p l es : Rep l es -> exists p', ParseCounters p l = Some p' /\
  forall k q, map_of k p' !! q = match (match k with Binary => map_of Binary p !! q | _ => None end) with Some v => Some v | None => lookup_name es (PREFIX k ++ q) end.
Proof.
  intros [(r & Hr & E) Hg _ _ _]; unfold ParseCounters; rewrite E; unfold ENTRY in Hr; destruct (fuel_enough es (replicate r 0)) as [f ->].
  destruct (parse_loop_correct es [] r f None (set_map Timer ∅ (set_map Counter ∅ p)) Hg) as (p' & Ep & Hp'); [lia | done|].
  exists p'; split; [exact Ep|]; intros k q; rewrite Hp'; destruct k; cbn; by rewrite ?lookup_empty.
Qed.

(** A process that has no binary counters yet reads all three kinds as they are. *)
Lemma read_snapshot_ok p l es : Rep l es -> map_of Binary p = ∅ -> exists p' s, read_snapshot p l = Some (p', s) /\
  ordered (counters s) /\ ordered (timers s) /\ ordered (binaries s) /\
  (forall q, find q (counters s) = le_value <$> lookup_name es (PREFIX Counter ++ q)) /\
  (forall q, find q (timers s) = decode_timer <$> lookup_name es (PREFIX Timer ++ q)) /\
  (forall q, find q (binaries s) = decode_binary <$> lookup_name es (PREFIX Binary ++ q)).
Proof.
  intros HR Hb; unfold read_snapshot, GetAllCounters, GetAllTimerCounters, GetAllBinaryCounters, GetAll.
  destruct (ParseCounters_ok p l es HR) as (p1 & -> & H1); cbn [mbind option_bind].
  destruct (ParseCounters_ok (set_map Counter ∅ p1) l es HR) as (p2 & -> & H2); cbn [mbind option_bind].
  destruct (ParseCounters_ok (set_map Timer ∅ p2) l es HR) as (p3 & -> & H3); cbn [mbind option_bind].
  do 2 eexists; split; [done|]; cbn [counters timers binaries]; split_and!; try apply ordered_of_ordered; intros q; rewrite find_ordered_of, lookup_fmap; f_equal.
  - by rewrite H1.
  - by rewrite H2.
  - assert (B1 : forall x, map_of Binary p1 !! x = lookup_name es (PREFIX Binary ++ x)) by (intros x; by rewrite H1, Hb, lookup_empty).
    assert (B2 : map_of Binary p2 !! q = lookup_name es (PREFIX Binary ++ q)).
    { rewrite H2; change (map_of Binary (set_map Counter ∅ p1)) with (map_of Binary p1); rewrite B1; by destruct (lookup_name es _). }
    rewrite H3; change (map_of Binary (set_map Timer ∅ p2)) with (map_of Binary p2); rewrite B2; by destruct (lookup_name es _).
Qed.

(** The fields of a timer. *)
Lemma word_at_fields fs i x : fs !! i = Some x -> 0 <= x < 2 ^ 64 -> word_at (fields fs) i = x.
Proof.
  intros Hi Hx; unfold word_at; rewrite (fields_split _ _ _ Hi); pose proof (lookup_lt_Some _ _ _ Hi).
  rewrite drop_app_length' by (rewrite fields_length, length_take; lia); rewrite take_app_length' by (by rewrite le_bytes_length); by apply le_value_bytes.
Qed.

Lemma decode_timer_ok fs : timer_ok fs -> length (slices (decode_timer (fields fs))) = 15%nat /\
  total_count (decode_timer (fields fs)) = wrap 64 (sum (take 10 (slices (decode_timer (fields fs))))).
Proof.
  intros (Hl & Hu & H0); split; [done|]; rewrite Forall_lookup in Hu; assert (Hw : forall i, (i < 17)%nat -> word_at (fields fs) i = fs !!! i).
  { intros i Hi; destruct (lookup_lt_is_Some_2 fs i) as [x Hx]; [lia|]; rewrite (list_lookup_total_correct _ _ _ Hx); apply word_at_fields; [done | by apply (Hu i)]. }
  unfold decode_timer; cbn [total_count slices]; rewrite (word_at_fields _ _ _ H0) by (by apply (Hu 0%nat)); do 2 f_equal; unfold MonitorCorrect.slices.
  apply list_eq; intros i; destruct (decide (i < 10)%nat) as [Hi|Hi].
  - rewrite !lookup_take_lt by done; rewrite lookup_drop, list_lookup_fmap, lookup_seq_lt by lia; cbn [fmap option_fmap option_map]; rewrite Hw by lia.
    apply list_lookup_lookup_total_lt; lia.
  - rewrite !lookup_take_ge by lia; done.
Qed.

(** ** The report *)

(** The value of a counter: absent, or the sum of what was added to it. *)
Definition total (ns : list Z) : option Z := match ns with [] => None | _ => Some (wrap 64 (sum ns)) end.
Lemma counted_total ns : le_value <$> counted ns = total ns.
Proof. destruct ns; [done|]; cbn [counted fmap option_fmap option_map total]; f_equal; apply le_value_bytes; apply uint_wrap; lia. Qed.

(** C36: what processes count is what the reader reports.  Let any number of processes add to the
    counters and timers of a new monitor file that has room for them, end and start in between.
    The reader then reads, for exactly the names that were added to, the sum of the amounts, and
    timers whose slices add up to their counts; asked for JSON it prints one line, and, if no
    name has quotes, backslashes or control characters, that line reads back as what was
    read. *)
Theorem reader_reports_counts header_size max ops o matches now :
  Forall named ops -> (header_size + length (enc_all (abs_steps [] ops)) + ENTRY <= max)%nat -> Z.of_nat max < 2 ^ 32 ->
  g_output_type o = lit "json" -> g_search_str o = [] -> good (JNum now) = true ->
  exists m p s, steps (mkMachine ∅ (open_list header_size max None)) ops = Some m /\
    read_snapshot new_MonitorStatusImpl (file m) = Some (p, s) /\
    (forall q, find q (counters s) = total (increments (PREFIX Counter ++ q) ops)) /\
    (forall q t, find q (timers s) = Some t -> total_count t = wrap 64 (sum (take 10 (slices t)))) /\
    main o matches s [(now, s)] = Some [Line (PrintJsonMap now s)] /\
    (plain_names s = true -> parse_json (PrintJsonMap now s) = Some (json_of now s)).
Proof.
  intros Hn Hroom Hmax Ho Hs Hnow; destruct (history_runs header_size max ops Hn Hroom Hmax) as (m & Hm & HR & _).
  destruct (read_snapshot_ok new_MonitorStatusImpl (file m) _ HR eq_refl) as (p & s & Hr & O1 & O2 & O3 & F1 & F2 & _); exists m, p, s; split_and!; try done.
  - intros q; by rewrite F1, counter_value, counted_total.
  - intros q t Ht; rewrite F2 in Ht; destruct (lookup_name _ _) as [v|] eqn:E; [|done]; injection Ht as <-; apply timer_values in E as (fs & -> & Hfs); by apply decode_timer_ok.
  - unfold main; rewrite Hs, Ho; cbn [turns]; unfold turn; rewrite decide_True by done; cbn [mbind option_bind].
    unfold filter_all, no_counters; cbn [counters timers binaries]; rewrite !filter_everything by done; by destruct s.
  - intros Hp; by apply json_reads_back.
Qed.

Definition json_options : Options := mkOptions 0 false false false [] (lit "json") [] [].
Lemma reader_reports_counts_witness :
  exists m p s, steps (mkMachine ∅ (open_list 64 1024 None)) two_processes = Some m /\ read_snapshot new_MonitorStatusImpl (file m) = Some (p, s) /\
    find (lit "m#a") (counters s) = Some 11 /\ find (lit "m#b") (counters s) = Some 7 /\ find (lit "m#c") (counters s) = None.
Proof.
  destruct (reader_reports_counts 64 1024 two_processes json_options (fun _ => false) (lit "1700000000.5")) as (m & p & s & Hm & Hr & Hc & _).
  - repeat constructor; discriminate.
  - apply Nat.leb_le; vm_compute; reflexivity.
  - reflexivity.
  - reflexivity.
  - reflexivity.
  - reflexivity.
  - exists m, p, s; rewrite !Hc; split_and!; [exact Hm | exact Hr | reflexivity | reflexivity | reflexivity].
Defined.
