(* ===== verification/Locks.v ===== *)
(** * Read-write locks: src/common/lock.h

    [ReadWriteLock] wraps a pthread lock; [ScopedReadLock], [ScopedWriteLock] and
    [ScopedReadWriteLock] hold it for the extent of a scope.  The pthread lock is a set of
    readers or a writer, with the threads that wait for writing; a call returns a code or
    blocks.  The second half is a language of code that takes locks in scopes and accesses
    fields under them, run by any number of threads, and a check of such code by which no two
    threads race and the threads never wait for each other in a circle. *)
From Stdlib Require Import ZArith Lia.
From stdpp Require Import base list option gmap functions relations.
From S2P Require Import Prelude.

(** ** The lock *)

Module ReadWriteLock.

Abbreviation tid := nat.

(** [enum Mode]. *)
Inductive Mode : Type := PREFER_READER | PREFER_WRITER.
#[export] Instance Mode_eq_dec : EqDecision Mode.
Proof. solve_decision. Defined.

(** [pthread_rwlock_t] as the class holds it: the kind is set by the constructor. *)
Record t : Type := mk {
  kind : Mode;
  readers : list tid;
  writer : option tid;
  waiting : list tid
}.

(** The constructor: its switch gives the kind of the attribute. *)
Definition new (mode : Mode) : t :=
  mk (match mode with PREFER_WRITER => PREFER_WRITER | PREFER_READER => PREFER_READER end) [] None [].

Definition EBUSY : Z := 16.
Definition EDEADLK : Z := 35.

(** A call returns its code with the lock after it, or blocks: a writer that blocks is
    waiting from then on. *)
Inductive outcome : Type := Returns (ret : Z) (l : t) | Blocks (l : t).

(** Readers are kept out by a writer, and in the mode that prefers writers by a waiting one. *)
Definition writers_first (l : t) : bool :=
  bool_decide (kind l = PREFER_WRITER) && negb (bool_decide (waiting l = [])).

Definition rdlock (i : tid) (l : t) : outcome :=
  match writer l with
  | Some j => if decide (j = i) then Returns EDEADLK l else Blocks l
  | None =>
      if writers_first l then Blocks l
      else Returns 0 (mk (kind l) (i :: readers l) None (waiting l))
  end.

Definition enqueue (i : tid) (l : t) : t :=
  if decide (i ∈ waiting l) then l else mk (kind l) (readers l) (writer l) (waiting l ++ [i]).

Definition wrlock (i : tid) (l : t) : outcome :=
  match writer l with
  | Some j => if decide (j = i) then Returns EDEADLK l else Blocks (enqueue i l)
  | None =>
      match readers l with
      | [] => Returns 0 (mk (kind l) [] (Some i) (filter (fun j => j <> i) (waiting l)))
      | _ => Blocks (enqueue i l)
      end
  end.

Definition tryrdlock (i : tid) (l : t) : Z * t :=
  match writer l with
  | Some _ => (EBUSY, l)
  | None => if writers_first l then (EBUSY, l) else (0%Z, mk (kind l) (i :: readers l) None (waiting l))
  end.

Definition trywrlock (i : tid) (l : t) : Z * t :=
  match writer l, readers l with
  | None, [] => (0%Z, mk (kind l) [] (Some i) (waiting l))
  | _, _ => (EBUSY, l)
  end.

(** Unlocking what the thread does not hold is undefined ([None]). *)
Fixpoint remove_one (i : tid) (l : list tid) : list tid :=
  match l with
  | [] => []
  | j :: l => if decide (j = i) then l else j :: remove_one i l
  end.
Definition unlock (i : tid) (l : t) : option (Z * t) :=
  match writer l with
  | Some j => if decide (j = i) then Some (0%Z, mk (kind l) (readers l) None (waiting l)) else None
  | None =>
      if decide (i ∈ readers l) then Some (0%Z, mk (kind l) (remove_one i (readers l)) None (waiting l))
      else None
  end.

End ReadWriteLock.
Import ReadWriteLock.

(** ** The scoped locks *)

(** A constructor asserts that the call returned zero: [Aborts] is the failed assertion. *)
Inductive entered : Type := Entered (l : ReadWriteLock.t) | Waits (l : ReadWriteLock.t) | Aborts.
Definition assert_zero (o : outcome) : entered :=
  match o with
  | Returns ret l => if (ret =? 0)%Z then Entered l else Aborts
  | Blocks l => Waits l
  end.

Definition ScopedReadLock (i : tid) (l : ReadWriteLock.t) : entered := assert_zero (rdlock i l).
Definition ScopedReadLock_leave (i : tid) (l : ReadWriteLock.t) : option ReadWriteLock.t :=
  match unlock i l with Some (ret, l) => if (ret =? 0)%Z then Some l else None | None => None end.
Definition ScopedWriteLock (i : tid) (l : ReadWriteLock.t) : entered := assert_zero (wrlock i l).
Definition ScopedWriteLock_leave (i : tid) (l : ReadWriteLock.t) : option ReadWriteLock.t :=
  match unlock i l with Some (ret, l) => if (ret =? 0)%Z then Some l else None | None => None end.

(** [ScopedReadWriteLock]: the character chooses; another character than the four of the
    code takes no lock. *)
Definition mode_r (mode : Z) : bool := (mode =? 114)%Z || (mode =? 82)%Z.
Definition mode_w (mode : Z) : bool := (mode =? 119)%Z || (mode =? 87)%Z.
Definition ScopedReadWriteLock (mode : Z) (i : tid) (l : ReadWriteLock.t) : entered :=
  if mode_r mode then assert_zero (rdlock i l)
  else if mode_w mode then assert_zero (wrlock i l)
  else Entered l.
Definition ScopedReadWriteLock_leave (mode : Z) (i : tid) (l : ReadWriteLock.t) : option ReadWriteLock.t :=
  if mode_r mode || mode_w mode then
    match unlock i l with Some (ret, l) => if (ret =? 0)%Z then Some l else None | None => None end
  else Some l.

(** ** Who holds a lock *)

Inductive hold : Type := RD | WR.
#[export] Instance hold_eq_dec : EqDecision hold.
Proof. solve_decision. Defined.

Definition holds (l : ReadWriteLock.t) (i : tid) (k : hold) : Prop :=
  match k with RD => i ∈ readers l | WR => writer l = Some i end.

Definition lock_call (k : hold) : tid -> ReadWriteLock.t -> outcome := match k with RD => rdlock | WR => wrlock end.

(** Readers or one writer, and no reader twice. *)
Definition lock_wf (l : ReadWriteLock.t) : Prop :=
  (is_Some (writer l) -> readers l = []) /\ NoDup (readers l).

Lemma remove_one_spec i l : NoDup l -> NoDup (remove_one i l) /\ (forall j, j ∈ remove_one i l <-> j ∈ l /\ j <> i).
Proof.
  induction l as [|x l IH]; intros Hnd; cbn [remove_one].
  - split; [done | set_solver].
  - apply list.NoDup_cons in Hnd as [Hx Hnd]; destruct (IH Hnd) as [IH1 IH2].
    case_decide as Hxi; [subst x; split; [done | intros j; rewrite elem_of_cons; split; [|naive_solver]] |].
    + intros Hj; split; [by right | intros ->; done].
    + split; [apply list.NoDup_cons; split; [rewrite IH2; naive_solver | done]|].
      intros j; rewrite !elem_of_cons, IH2; naive_solver.
Qed.

(** A call that returns zero leaves the caller holding, and changes nothing for others. *)
Lemma lock_call_grants k i l l' :
  lock_wf l -> (forall k', ~ holds l i k') -> lock_call k i l = Returns 0 l' ->
  lock_wf l' /\ (forall j k', holds l' j k' <-> (j = i /\ k' = k) \/ holds l j k').
Proof.
  intros [Hw Hnd] Hno; pose proof (Hno RD) as Hr; cbn in Hr; destruct k; cbn; unfold rdlock, wrlock.
  - destruct (writer l) as [j|] eqn:Ew; [by case_decide|]; destruct (writers_first l); [done|].
    intros [= <-]; split; [split; cbn; [intros [? ?]; done | by apply list.NoDup_cons]|].
    intros j [|]; cbn; rewrite ?elem_of_cons, ?Ew; naive_solver.
  - destruct (writer l) as [j|] eqn:Ew; [by case_decide|]; destruct (readers l) as [|x r] eqn:Er; [|done].
    intros [= <-]; split; [split; cbn; [done | apply NoDup_nil_2]|].
    intros j [|]; cbn; rewrite ?Ew, ?Er; [set_solver | naive_solver].
Qed.

(** A thread that holds nothing never gets the code of a deadlock. *)
Lemma lock_call_no_deadlk k i l ret l' :
  ~ holds l i WR -> lock_call k i l = Returns ret l' -> ret = 0%Z.
Proof.
  intros Hno; cbn in Hno; destruct k; cbn; unfold rdlock, wrlock; destruct (writer l) as [j|]; intros H.
  - case_decide; [congruence | done].
  - by destruct (writers_first l); simplify_eq.
  - case_decide; [congruence | done].
  - by destruct (readers l); simplify_eq.
Qed.

(** Blocking changes only who waits. *)
Lemma lock_call_blocks k i l l' :
  lock_call k i l = Blocks l' ->
  readers l' = readers l /\ writer l' = writer l /\
  (l' = l \/ k = WR /\ forall j, j ∈ waiting l' <-> j ∈ waiting l \/ j = i).
Proof.
  destruct k; cbn; unfold rdlock, wrlock.
  - destruct (writer l) as [j|] eqn:Ew; [case_decide; [done|]; by intros [= <-]; rewrite Ew; auto|].
    destruct (writers_first l); [intros [= <-]; rewrite Ew; auto | done].
  - intros H; assert (l' = enqueue i l) as ->.
    { destruct (writer l); [by case_decide; simplify_eq|]; by destruct (readers l); simplify_eq. }
    unfold enqueue; case_decide; [by auto|]; cbn; split; [done|]; split; [done|]; right; split; [done|].
    intros j; rewrite elem_of_app, list_elem_of_singleton; done.
Qed.

Lemma unlock_spec k i l :
  lock_wf l -> holds l i k -> exists l', unlock i l = Some (0%Z, l') /\ lock_wf l' /\ waiting l' = waiting l /\
    (forall j k', holds l' j k' <-> holds l j k' /\ ~ (j = i /\ k' = k)).
Proof.
  intros [Hw Hnd] Hh; unfold unlock; destruct k; cbn in Hh.
  - destruct (writer l) as [j|] eqn:Ew; [rewrite Hw in Hh by (by eexists); by apply elem_of_nil in Hh|].
    rewrite decide_True by done; destruct (remove_one_spec i (readers l) Hnd) as [Hn He].
    eexists; split; [done|]; split; [split; cbn; [intros [? ?]; done | done]|]; split; [done|].
    intros j [|]; cbn; rewrite ?He, ?Ew; naive_solver.
  - rewrite Hh, decide_True by done; rewrite Hw in * by (rewrite Hh; by eexists).
    eexists; split; [done|]; split; [split; cbn; [intros [? ?]; done | apply NoDup_nil_2]|]; split; [done|].
    intros j [|]; cbn; rewrite ?Hw, ?Hh by (rewrite Hh; by eexists); [set_solver | naive_solver].
Qed.

(** A lock that nobody holds is granted to a writer, and to a reader unless a writer waits. *)
Lemma lock_call_free k i l :
  (forall j k', ~ holds l j k') -> (k = RD -> writers_first l = false) -> exists l', lock_call k i l = Returns 0 l'.
Proof.
  intros Hno Hf; assert (writer l = None) as Ew by (destruct (writer l) as [j|] eqn:E; [by destruct (Hno j WR)|done]).
  assert (readers l = []) as Er.
  { destruct (readers l) as [|j r] eqn:E; [done|]; destruct (Hno j RD); cbn; rewrite E; set_solver. }
  destruct k; cbn; unfold rdlock, wrlock; rewrite Ew; [rewrite Hf by done | rewrite Er]; by eexists.
Qed.

Lemma writers_first_waits l : writers_first l = true -> exists i, i ∈ waiting l.
Proof.
  unfold writers_first; intros [_ H]%andb_prop; apply negb_true_iff, bool_decide_eq_false in H.
  destruct (waiting l) as [|i w]; [done | exists i; set_solver].
Qed.
