(* ===== verification/LockOrder.v ===== *)
(** * Code that takes locks in scopes, run by threads

    The methods of src/leader take their locks for the extent of a scope ([lock_guard], the
    scoped locks of lock.h, or a call and its [unlock]) and access the fields of their object
    inside.  [cmd] is such code, with branches and loops whose conditions are not decided
    here; threads run it in any order over the locks of [Locks].  [check] is a check of code:
    a lock is taken above those that are held, a guarded field is written under all its guards, held
    for writing, and read under one of them.  Threads whose code passes never race on a guarded
    field and are never stuck; nor is there a race on a field that nobody writes or that one
    thread alone uses. *)
From Stdlib Require Import ZArith Lia.
From stdpp Require Import base list option gmap functions relations.
From S2P Require Import Prelude Locks.
Import ReadWriteLock.

Section LockOrder.
Context {lock field : Type} `{EqDecision lock, EqDecision field}.

Inductive cmd : Type :=
| Skip
| Read (f : field)
| Write (f : field)
| Seq (c1 c2 : cmd)
| Choice (c1 c2 : cmd)
| Loop (c : cmd)
| Hold (k : hold) (l : lock) (c : cmd).

(** What a thread has left to do: code, and the ends of the scopes it is in. *)
Inductive item : Type := Do (c : cmd) | Leave (k : hold) (l : lock).
Abbreviation thread := (list item).
Abbreviation locks := (lock -> ReadWriteLock.t).

(** A step of thread [i].  [Hold] enters the scope when the call returns zero; another code
    fails the assertion of the scoped lock, and so does an undefined unlock: no step. *)
Inductive tstep (i : tid) : thread * locks -> thread * locks -> Prop :=
| ts_skip s L : tstep i (Do Skip :: s, L) (s, L)
| ts_read f s L : tstep i (Do (Read f) :: s, L) (s, L)
| ts_write f s L : tstep i (Do (Write f) :: s, L) (s, L)
| ts_seq c1 c2 s L : tstep i (Do (Seq c1 c2) :: s, L) (Do c1 :: Do c2 :: s, L)
| ts_left c1 c2 s L : tstep i (Do (Choice c1 c2) :: s, L) (Do c1 :: s, L)
| ts_right c1 c2 s L : tstep i (Do (Choice c1 c2) :: s, L) (Do c2 :: s, L)
| ts_again c s L : tstep i (Do (Loop c) :: s, L) (Do c :: Do (Loop c) :: s, L)
| ts_exit c s L : tstep i (Do (Loop c) :: s, L) (s, L)
| ts_enter k l c s L x : lock_call k i (L l) = Returns 0 x ->
    tstep i (Do (Hold k l c) :: s, L) (Do c :: Leave k l :: s, <[l := x]> L)
| ts_leave k l s L x : unlock i (L l) = Some (0%Z, x) -> tstep i (Leave k l :: s, L) (s, <[l := x]> L).

(** A writer that is blocked is put among those that wait; it stays where it is. *)
Inductive twait (i : tid) : thread * locks -> thread * locks -> Prop :=
| ts_wait l c s L x : lock_call WR i (L l) = Blocks x -> twait i (Do (Hold WR l c) :: s, L) (Do (Hold WR l c) :: s, <[l := x]> L).

Record system : Type := mkSystem { sys_locks : locks; sys_threads : list thread }.

(** [advance] is a step in which a thread gets on; [step] has the blocked calls too. *)
Definition advance (S S' : system) : Prop :=
  exists i s s' L', sys_threads S !! i = Some s /\ tstep i (s, sys_locks S) (s', L') /\
    S' = mkSystem L' (<[i := s']> (sys_threads S)).
Definition block (S S' : system) : Prop :=
  exists i s s' L', sys_threads S !! i = Some s /\ twait i (s, sys_locks S) (s', L') /\
    S' = mkSystem L' (<[i := s']> (sys_threads S)).
Definition step (S S' : system) : Prop := advance S S' \/ block S S'.

(** Every thread starts with its code, over locks that nobody holds. *)
Definition initial (modes : lock -> Mode) (code : list cmd) : system :=
  mkSystem (fun l => ReadWriteLock.new (modes l)) ((fun c => [Do c]) <$> code).

(** Two threads about to access a field, one of them to write it. *)
Definition accesses (s : thread) (w : bool) (f : field) : Prop :=
  exists s', s = Do (if w then Write f else Read f) :: s'.
Definition race (f : field) (S : system) : Prop :=
  exists i j s1 s2 w, i <> j /\ sys_threads S !! i = Some s1 /\ sys_threads S !! j = Some s2 /\
    accesses s1 true f /\ accesses s2 w f.

Definition finished (S : system) : Prop := Forall (fun s => s = []) (sys_threads S).

(** ** Fields that are not guarded

    A field that nobody writes, or that one thread alone uses, needs no lock.  [within p] is
    code all of whose accesses are allowed by [p]. *)

Fixpoint within (p : bool -> field -> bool) (c : cmd) : bool :=
  match c with
  | Skip => true
  | Read f => p false f
  | Write f => p true f
  | Seq c1 c2 | Choice c1 c2 => within p c1 && within p c2
  | Loop c | Hold _ _ c => within p c
  end.
Definition within_thread (p : bool -> field -> bool) (s : thread) : Prop :=
  Forall (fun x => match x with Do c => within p c = true | Leave _ _ => True end) s.

Lemma within_tstep p i s L s' L' : tstep i (s, L) (s', L') -> within_thread p s -> within_thread p s'.
Proof.
  unfold within_thread; intros Hs; inversion Hs; subst; rewrite !list.Forall_cons; cbn [within]; rewrite ?andb_true_iff; tauto.
Qed.

(** What each thread may access, in all states that are reached. *)
Lemma reachable_within (p : nat -> bool -> field -> bool) modes code S :
  (forall i c, code !! i = Some c -> within (p i) c = true) -> rtc step (initial modes code) S ->
  forall i s, sys_threads S !! i = Some s -> within_thread (p i) s.
Proof.
  intros Hc Hr; assert (H0 : forall i s, sys_threads (initial modes code) !! i = Some s -> within_thread (p i) s).
  { intros i s Hs; apply list_lookup_fmap_Some in Hs as (c & -> & Hi); constructor; [by apply Hc | constructor]. }
  clear Hc; revert H0; induction Hr as [|S1 S2 S3 Hs _ IH]; [done|]; intros H1; apply IH.
  destruct Hs as [(i & s & s' & L' & Hi & Hs & ->) | (i & s & s' & L' & Hi & Hs & ->)]; intros j sj; cbn;
    intros [(<- & <- & _) | [_ Hj]]%list_lookup_insert_Some; try (by apply H1).
  - eapply within_tstep; [exact Hs | by apply H1].
  - inversion Hs; subst; by apply H1.
Qed.

(** [f] is only written by a thread that nobody else shares it with. *)
Lemma within_no_race p modes code S f :
  (forall i c, code !! i = Some c -> within (p i) c = true) -> rtc step (initial modes code) S ->
  (forall i j w, i <> j -> p i true f = true -> p j w f = true -> False) -> ~ race f S.
Proof.
  intros Hc Hr Hp (i & j & s1 & s2 & w & Hne & H1 & H2 & (r1 & ->) & (r2 & ->)).
  apply (reachable_within p modes code S Hc Hr) in H1, H2; apply Forall_inv in H1, H2; cbn in H1.
  apply (Hp i j w Hne H1); by destruct w.
Qed.

(** ** The check *)

Variable rank : lock -> nat.
Variable guards : field -> option (list lock).

(** A field without guards ([None]) is not protected by locks: the check says nothing of it. *)
Definition may_write (held : list (hold * lock)) (f : field) : bool :=
  match guards f with
  | None => true
  | Some g => negb (bool_decide (g = [])) && forallb (fun l => bool_decide ((WR, l) ∈ held)) g
  end.
Definition may_read (held : list (hold * lock)) (f : field) : bool :=
  match guards f with
  | None => true
  | Some g => existsb (fun l => bool_decide (l ∈ held.*2)) g
  end.
Definition above (held : list (hold * lock)) (l : lock) : bool :=
  forallb (fun h => rank h.2 <? rank l)%nat held.

Fixpoint check (held : list (hold * lock)) (c : cmd) : bool :=
  match c with
  | Skip => true
  | Read f => may_read held f
  | Write f => may_write held f
  | Seq c1 c2 => check held c1 && check held c2
  | Choice c1 c2 => check held c1 && check held c2
  | Loop c => check held c
  | Hold k l c => above held l && check ((k, l) :: held) c
  end.

Fixpoint held_of (s : thread) : list (hold * lock) :=
  match s with
  | [] => []
  | Do _ :: s => held_of s
  | Leave k l :: s => (k, l) :: held_of s
  end.

Fixpoint check_thread (s : thread) : bool :=
  match s with
  | [] => true
  | Do c :: s => check (held_of s) c && check_thread s
  | Leave k l :: s => above (held_of s) l && check_thread s
  end.

(** ** The invariant *)

Record LockInv (S : system) : Prop := {
  li_check i s : sys_threads S !! i = Some s -> check_thread s = true;
  li_wf l : lock_wf (sys_locks S l);
  li_holds i k l : holds (sys_locks S l) i k <-> exists s, sys_threads S !! i = Some s /\ (k, l) ∈ held_of s;
  li_waits i l : i ∈ waiting (sys_locks S l) -> exists c s, sys_threads S !! i = Some (Do (Hold WR l c) :: s)
}.

Lemma above_spec h l k l' : above h l = true -> (k, l') ∈ h -> (rank l' < rank l)%nat.
Proof.
  unfold above; rewrite forallb_forall; intros Ha Hin.
  apply list_elem_of_In, Ha in Hin; by apply Nat.ltb_lt in Hin.
Qed.
Lemma above_not_held h l k : above h l = true -> (k, l) ∉ h.
Proof. intros Ha Hin; pose proof (above_spec _ _ _ _ Ha Hin); lia. Qed.

Lemma initial_Inv modes code : forallb (check []) code = true -> LockInv (initial modes code).
Proof.
  intros Hc; constructor; cbn.
  - intros i s; rewrite list_lookup_fmap; destruct (code !! i) as [c|] eqn:Hi; [|done]; intros [= <-]; cbn.
    rewrite forallb_forall in Hc; rewrite Hc; [done|]; by eapply list_elem_of_In, list_elem_of_lookup_2.
  - intros l; split; cbn; [done | apply NoDup_nil_2].
  - intros i k l; split; [destruct k; cbn; [by intros ?%elem_of_nil | done]|].
    intros (s & Hs & Hin); apply list_lookup_fmap_Some in Hs as (c & -> & _); by apply elem_of_nil in Hin.
  - intros i l Hi; by apply elem_of_nil in Hi.
Qed.

(** The held locks of the threads, after one of them changed. *)
Lemma holds_insert S i s0 s (L : locks) (P : hold -> lock -> Prop) :
  sys_threads S !! i = Some s0 ->
  (forall j k l, holds (L l) j k <-> (j = i /\ P k l) \/ (j <> i /\ holds (sys_locks S l) j k)) ->
  (forall j k l, holds (sys_locks S l) j k <-> exists s, sys_threads S !! j = Some s /\ (k, l) ∈ held_of s) ->
  (forall k l, P k l <-> (k, l) ∈ held_of s) ->
  forall j k l, holds (L l) j k <-> exists s', <[i := s]> (sys_threads S) !! j = Some s' /\ (k, l) ∈ held_of s'.
Proof.
  intros Hi HL HS HP j k l; assert (i < length (sys_threads S))%nat by (by eapply lookup_lt_Some).
  rewrite HL; destruct (decide (j = i)) as [->|Hne].
  - rewrite list_lookup_insert_eq by done; rewrite HP; split.
    + intros [[_ Hk] | [? _]]; [by exists s | done].
    + intros (s' & [= <-] & Hk); by left.
  - rewrite list_lookup_insert_ne by done; rewrite HS; split; [intros [[? _] | [_ ?]]; done | by right].
Qed.

(** Code that does not touch locks. *)
Lemma replace_Inv S i s s' :
  LockInv S -> sys_threads S !! i = Some s -> held_of s' = held_of s -> check_thread s' = true ->
  (forall l c s0, s <> Do (Hold WR l c) :: s0) -> LockInv (mkSystem (sys_locks S) (<[i := s']> (sys_threads S))).
Proof.
  intros [Hc Hw Hh Hq] Hi He Hs Hno; constructor; cbn [sys_locks sys_threads].
  - intros j s0 [(-> & <- & _) | [_ Hj]]%list_lookup_insert_Some; [done | by eapply Hc].
  - done.
  - apply (holds_insert S i s s' (sys_locks S) (fun k l => holds (sys_locks S l) i k)); [done | | done |].
    + intros j k l; destruct (decide (j = i)) as [->|]; [split; [by left | by intros [[_ ?] | [? _]]] | split; [by right | by intros [[? _] | [_ ?]]]].
    + intros k l; rewrite Hh, He; split; [intros (s0 & Hs0 & ?); rewrite Hi in Hs0; by injection Hs0 as -> | by exists s].
  - intros j l Hj; destruct (Hq _ _ Hj) as (c & s0 & Hs0); exists c, s0.
    rewrite list_lookup_insert_ne; [done | intros <-; rewrite Hi in Hs0; injection Hs0; apply Hno].
Qed.

(** The lock function after the change of one lock. *)
Lemma locks_insert (L : locks) l x (P : lock -> ReadWriteLock.t -> Prop) :
  P l x -> (forall l', l' <> l -> P l' (L l')) -> forall l', P l' ((<[l := x]> L : locks) l').
Proof.
  intros Hx HL l'; destruct (decide (l' = l)) as [->|]; [by rewrite fn_lookup_insert | rewrite fn_lookup_insert_ne by done; auto].
Qed.

Lemma not_held_thread S i s k c l s0 :
  LockInv S -> sys_threads S !! i = Some s -> s = Do (Hold k l c) :: s0 -> forall k', ~ holds (sys_locks S l) i k'.
Proof.
  intros [Hc Hw Hh Hq] Hi -> k' Hk.
  apply Hh in Hk as (s' & Hs' & Hin); rewrite Hi in Hs'; injection Hs' as <-.
  apply Hc in Hi; cbn in Hi; rewrite !andb_true_iff in Hi; destruct Hi as [[Ha _] _].
  by apply above_not_held in Hin.
Qed.

Lemma enter_Inv S i k l c s x :
  LockInv S -> sys_threads S !! i = Some (Do (Hold k l c) :: s) -> lock_call k i (sys_locks S l) = Returns 0 x ->
  waiting x = filter (fun j => j <> i) (waiting (sys_locks S l)) \/ k = RD /\ waiting x = waiting (sys_locks S l) ->
  LockInv (mkSystem (<[l := x]> (sys_locks S)) (<[i := Do c :: Leave k l :: s]> (sys_threads S))).
Proof.
  intros Hinv Hi Hcall Hwait; pose proof (not_held_thread _ _ _ _ _ _ _ Hinv Hi eq_refl) as Hno.
  pose proof (li_wf _ Hinv l) as Hwf; destruct (lock_call_grants k i _ x Hwf Hno Hcall) as [Hx Hg].
  destruct Hinv as [Hc Hw Hh Hq]; constructor; cbn [sys_locks sys_threads].
  - intros j s0 [(-> & <- & _) | [_ Hj]]%list_lookup_insert_Some; [|by eapply Hc].
    apply Hc in Hi; cbn in *; by rewrite !andb_true_iff in *; tauto.
  - by apply locks_insert.
  - apply (holds_insert S i _ _ _ (fun k' l' => (k', l') ∈ (k, l) :: held_of s) Hi); [|done | done].
    intros j k'; apply (locks_insert (sys_locks S) l x (fun l' y => holds y j k' <-> (j = i /\ (k', l') ∈ (k, l) :: held_of s) \/ (j <> i /\ holds (sys_locks S l') j k'))).
    + rewrite Hg, elem_of_cons; destruct (decide (j = i)) as [->|Hne].
      * split; [intros [[_ ->] | Hk]; [left; split; [done | by left] | by destruct (Hno k')]|].
        intros [[_ [[= ->] | Hin]] | [? _]]; [by left | right | done]; apply Hh; by exists (Do (Hold k l c) :: s).
      * split; [intros [[? _] | ?]; [done | by right] | intros [[? _] | [_ ?]]; [done | by right]].
    + intros l' Hl'; destruct (decide (j = i)) as [->|Hne].
      * rewrite Hh, elem_of_cons; split.
        -- intros (s0 & Hs0 & Hin); rewrite Hi in Hs0; injection Hs0 as <-; left; split; [done | by right].
        -- intros [[_ [[= ? ->] | Hin]] | [? _]]; [done | by exists (Do (Hold k l c) :: s) | done].
      * split; [by right | intros [[? _] | [_ ?]]; done].
  - intros j l'; revert l'; apply (locks_insert (sys_locks S) l x (fun l' y => j ∈ waiting y -> exists c s0, <[i := _]> (sys_threads S) !! j = Some (Do (Hold WR l' c) :: s0))).
    + intros Hj; assert (j <> i /\ j ∈ waiting (sys_locks S l)) as [Hne Hj'].
      { destruct Hwait as [Hwx | [-> Hwx]]; rewrite Hwx in Hj; [by apply list_elem_of_filter in Hj|].
        split; [intros -> | done]; destruct (Hq _ _ Hj) as (c' & s' & Hs'); rewrite Hi in Hs'; discriminate. }
      rewrite list_lookup_insert_ne by done; by apply Hq.
    + intros l' Hl' Hj; destruct (Hq _ _ Hj) as (c' & s' & Hs'); exists c', s'.
      rewrite list_lookup_insert_ne; [done | intros <-; rewrite Hi in Hs'; injection Hs' as -> -> _ _; done].
Qed.

(** What a granted call does to those that wait. *)
Lemma granted_waiting k i y x :
  lock_call k i y = Returns 0 x ->
  waiting x = filter (fun j => j <> i) (waiting y) \/ k = RD /\ waiting x = waiting y.
Proof.
  destruct k; cbn; unfold rdlock, wrlock.
  - destruct (writer y); [by case_decide|]; destruct (writers_first y); [done|]; intros [= <-]; by right.
  - destruct (writer y); [by case_decide|]; destruct (readers y); [|done]; intros [= <-]; by left.
Qed.

Lemma leave_Inv S i k l s :
  LockInv S -> sys_threads S !! i = Some (Leave k l :: s) ->
  exists x, unlock i (sys_locks S l) = Some (0%Z, x) /\
    LockInv (mkSystem (<[l := x]> (sys_locks S)) (<[i := s]> (sys_threads S))).
Proof.
  intros [Hc Hw Hh Hq] Hi; assert (holds (sys_locks S l) i k) as Hk.
  { apply Hh; exists (Leave k l :: s); split; [done | by left]. }
  destruct (unlock_spec k i _ (Hw l) Hk) as (x & Hu & Hx & Hwait & Hg); exists x; split; [done|].
  pose proof (Hc _ _ Hi) as Hci; cbn in Hci; apply andb_true_iff in Hci as [Ha Hci].
  constructor; cbn [sys_locks sys_threads].
  - intros j s0 [(-> & <- & _) | [_ Hj]]%list_lookup_insert_Some; [done | by eapply Hc].
  - by apply locks_insert.
  - apply (holds_insert S i _ _ _ (fun k' l' => (k', l') ∈ held_of s) Hi); [|done | done].
    intros j k'; apply (locks_insert (sys_locks S) l x (fun l' y => holds y j k' <-> (j = i /\ (k', l') ∈ held_of s) \/ (j <> i /\ holds (sys_locks S l') j k'))).
    + rewrite Hg; destruct (decide (j = i)) as [->|Hne].
      * rewrite Hh; split.
        -- intros [(s0 & Hs0 & Hin) Hn]; rewrite Hi in Hs0; injection Hs0 as <-.
           apply elem_of_cons in Hin as [[= ->] | Hin]; [by destruct Hn | by left].
        -- intros [[_ Hin] | [? _]]; [|done]; by apply (above_not_held _ _ k') in Ha.
      * split; [intros [? _]; by right | intros [[? _] | [_ ?]]; [done|]]; split; [done | by intros [? _]].
    + intros l' Hl'; destruct (decide (j = i)) as [->|Hne].
      * rewrite Hh; split.
        -- intros (s0 & Hs0 & Hin); rewrite Hi in Hs0; injection Hs0 as <-; left; split; [done|].
           apply elem_of_cons in Hin as [[= ? ->] | Hin]; done.
        -- intros [[_ Hin] | [? _]]; [|done]; exists (Leave k l :: s); split; [done | by right].
      * split; [by right | intros [[? _] | [_ ?]]; done].
  - intros j l'; revert l'; apply (locks_insert (sys_locks S) l x (fun l' y => j ∈ waiting y -> exists c s0, <[i := _]> (sys_threads S) !! j = Some (Do (Hold WR l' c) :: s0))).
    2: intros l' _. 1: rewrite Hwait.
    all: intros Hj; destruct (Hq _ _ Hj) as (c' & s' & Hs'); exists c', s';
      rewrite list_lookup_insert_ne; [done | intros <-; rewrite Hi in Hs'; discriminate].
Qed.

Lemma advance_Inv S S' : LockInv S -> advance S S' -> LockInv S'.
Proof.
  intros Hinv (i & s & s' & L' & Hi & Hs & ->); pose proof (li_check _ Hinv _ _ Hi) as Hc.
  inversion Hs; subst; clear Hs; cbn in Hc; rewrite ?andb_true_iff in Hc.
  1-8: eapply replace_Inv; [done | exact Hi | done | cbn; rewrite ?andb_true_iff; tauto | done].
  - eapply enter_Inv; [done | exact Hi | done | by apply granted_waiting].
  - match goal with H : unlock _ _ = Some _ |- _ => rename H into Hu end.
    destruct (leave_Inv _ _ _ _ _ Hinv Hi) as (y & Hy & Hinv'); rewrite Hu in Hy; by injection Hy as ->.
Qed.

Lemma block_Inv S S' : LockInv S -> block S S' -> LockInv S'.
Proof.
  intros Hinv (i & s & s' & L' & Hi & Hs & ->); inversion Hs; subst; clear Hs.
  match goal with H : lock_call WR _ _ = Blocks _ |- _ => apply lock_call_blocks in H; destruct H as (Hr & Hw & Hq) end.
  rewrite list_insert_id by done.
  assert (Hsame : forall l' j k, holds (<[l := x]> (sys_locks S) l') j k <-> holds (sys_locks S l') j k).
  { apply (locks_insert (sys_locks S) l x (fun l' y => forall j k, holds y j k <-> holds (sys_locks S l') j k)); [|done].
    intros j [|]; cbn; by rewrite ?Hr, ?Hw. }
  destruct Hinv as [Hc Hwf Hh Hwq]; constructor; cbn [sys_locks sys_threads].
  - done.
  - apply locks_insert; [|done]; unfold lock_wf; rewrite Hr, Hw; apply Hwf.
  - intros j k l'; by rewrite Hsame, Hh.
  - intros j l'; revert l'; apply (locks_insert (sys_locks S) l x (fun l' y => j ∈ waiting y -> exists c s0, sys_threads S !! j = Some (Do (Hold WR l' c) :: s0))).
    + intros Hj; destruct Hq as [-> | [_ Hq]]; [by apply Hwq|]; apply Hq in Hj as [Hj | ->]; [by apply Hwq | eauto].
    + intros l' _; apply Hwq.
Qed.

Lemma reachable_Inv modes code S :
  forallb (check []) code = true -> rtc step (initial modes code) S -> LockInv S.
Proof.
  intros Hc Hr; apply (initial_Inv modes) in Hc; revert Hc; induction Hr as [|S1 S2 S3 [H|H] _ IH]; [done | |]; intros Hinv; apply IH.
  - by eapply advance_Inv.
  - by eapply block_Inv.
Qed.

(** ** What the check gives *)

Lemma writer_alone S i j k l : LockInv S -> holds (sys_locks S l) i WR -> holds (sys_locks S l) j k -> j = i.
Proof.
  intros Hinv Hi Hj; destruct (li_wf _ Hinv l) as [Hw _]; cbn in Hi; destruct k; cbn in Hj.
  - rewrite Hw in Hj by (rewrite Hi; by eexists); by apply elem_of_nil in Hj.
  - congruence.
Qed.

Lemma LockInv_no_race S f : LockInv S -> is_Some (guards f) -> ~ race f S.
Proof.
  intros Hinv [g Hg] (i & j & s1 & s2 & w & Hne & H1 & H2 & (r1 & ->) & (r2 & ->)).
  pose proof (li_check _ Hinv _ _ H1) as C1; pose proof (li_check _ Hinv _ _ H2) as C2; cbn in C1.
  apply andb_prop in C1 as [C1 _]; unfold may_write in C1; rewrite Hg in C1.
  apply andb_prop in C1 as [G1 C1]; rewrite forallb_forall in C1.
  assert (HW : forall l, l ∈ g -> holds (sys_locks S l) i WR).
  { intros l Hl; apply (li_holds _ Hinv); exists (Do (Write f) :: r1); split; [done|].
    apply list_elem_of_In, C1, bool_decide_eq_true in Hl; done. }
  assert (exists l k, l ∈ g /\ (k, l) ∈ held_of r2) as (l & k & Hl & Hk).
  { destruct w; cbn in C2; apply andb_prop in C2 as [C2 _]; unfold may_write, may_read in C2; rewrite Hg in C2.
    - apply andb_prop in C2 as [_ C2]; rewrite forallb_forall in C2; destruct g as [|l g]; [done|].
      exists l, WR; split; [by left|]; specialize (C2 l (or_introl eq_refl)); by apply bool_decide_eq_true in C2.
    - apply existsb_exists in C2 as (l & Hl & Hin); apply bool_decide_eq_true, list_elem_of_fmap in Hin as ([k l'] & -> & Hin).
      exists l', k; split; [by apply list_elem_of_In | done]. }
  apply Hne; symmetry; eapply (writer_alone S i j k l Hinv); [by apply HW|].
  apply (li_holds _ Hinv); by exists (Do (if w then Write f else Read f) :: r2).
Qed.

(** A thread that cannot get on waits for a lock above all that it holds. *)
Lemma stuck_thread S i s :
  LockInv S -> sys_threads S !! i = Some s -> s <> [] -> (forall S', ~ advance S S') ->
  exists k l c r, s = Do (Hold k l c) :: r /\ above (held_of r) l = true /\
    forall x, lock_call k i (sys_locks S l) <> Returns 0 x.
Proof.
  intros Hinv Hi Hne Hstuck.
  assert (Hs : forall s' L', ~ tstep i (s, sys_locks S) (s', L')).
  { intros s' L' Ht; eapply Hstuck; by exists i, s, s', L'. }
  destruct s as [|[c|k l] r]; [done | |].
  - destruct c; try (exfalso; eapply Hs; econstructor; fail).
    exists k, l, c, r; split; [done|]; split.
    + pose proof (li_check _ Hinv _ _ Hi) as Hc; cbn in Hc; rewrite !andb_true_iff in Hc; tauto.
    + intros x Hx; eapply Hs; by constructor.
  - destruct (leave_Inv _ _ _ _ _ Hinv Hi) as (x & Hx & _); exfalso; eapply Hs; by constructor.
Qed.

(** A refused call: somebody holds the lock, or a writer waits for it. *)
Lemma refused S i k l c r :
  LockInv S -> sys_threads S !! i = Some (Do (Hold k l c) :: r) ->
  (forall x, lock_call k i (sys_locks S l) <> Returns 0 x) ->
  (exists j k', holds (sys_locks S l) j k') \/ (exists j, j ∈ waiting (sys_locks S l)) /\ k = RD.
Proof.
  intros Hinv Hi Href; set (x := sys_locks S l) in *.
  destruct (readers x) as [|j rs] eqn:Er; [|left; exists j, RD; cbn; rewrite Er; by left].
  destruct (writer x) as [j|] eqn:Ew; [left; by exists j, WR|].
  destruct (writers_first x) eqn:Ef; destruct k.
  - right; split; [by apply writers_first_waits | done].
  - exfalso; destruct (lock_call_free WR i x) as [y Hy]; [intros j [|]; cbn; rewrite ?Er, ?Ew; set_solver | done | by eapply Href].
  - exfalso; destruct (lock_call_free RD i x) as [y Hy]; [intros j [|]; cbn; rewrite ?Er, ?Ew; set_solver | done | by eapply Href].
  - exfalso; destruct (lock_call_free WR i x) as [y Hy]; [intros j [|]; cbn; rewrite ?Er, ?Ew; set_solver | done | by eapply Href].
Qed.

(** The lock that a stuck thread waits for is below the lock of another stuck thread. *)
Lemma stuck_chain S i k l c r :
  LockInv S -> (forall S', ~ advance S S') -> sys_threads S !! i = Some (Do (Hold k l c) :: r) ->
  exists j k' l' c' r', sys_threads S !! j = Some (Do (Hold k' l' c') :: r') /\ (rank l < rank l')%nat.
Proof.
  intros Hinv Hstuck Hi.
  assert (Hholder : forall j k', holds (sys_locks S l) j k' ->
    exists j k' l' c' r', sys_threads S !! j = Some (Do (Hold k' l' c') :: r') /\ (rank l < rank l')%nat).
  { intros j k' Hh; apply (li_holds _ Hinv) in Hh as (s & Hs & Hin).
    destruct (stuck_thread S j s Hinv Hs) as (k2 & l2 & c2 & r2 & -> & Ha & _); [intros ->; by apply elem_of_nil in Hin | done |].
    exists j, k2, l2, c2, r2; split; [done | by eapply above_spec]. }
  destruct (stuck_thread S i _ Hinv Hi) as (k0 & l0 & c0 & r0 & Heq & _ & Href); [done | done |]; injection Heq as <- <- <- <-.
  destruct (refused S i k l c r Hinv Hi Href) as [(j & k' & Hh) | [(j & Hj) _]]; [by eapply Hholder|].
  destruct (li_waits _ Hinv _ _ Hj) as (c' & s' & Hs').
  destruct (stuck_thread S j _ Hinv Hs') as (k2 & l2 & c2 & r2 & Heq & _ & Href'); [done | done |]; injection Heq as <- <- <- <-.
  destruct (refused S j WR l c' s' Hinv Hs' Href') as [(j' & k' & Hh) | [_ ?]]; [by eapply Hholder | done].
Qed.

(** The rank of the lock that a thread is about to take. *)
Definition want (s : thread) : nat := match s with Do (Hold _ l _) :: _ => rank l | _ => 0%nat end.

Lemma never_stuck S i k l c r :
  LockInv S -> sys_threads S !! i = Some (Do (Hold k l c) :: r) -> (forall S', ~ advance S S') -> False.
Proof.
  intros Hinv Hi Hstuck.
  assert (Hn : forall n, exists j k l c r, sys_threads S !! j = Some (Do (Hold k l c) :: r) /\ (n <= rank l)%nat).
  { induction n as [|n (j & k1 & l1 & c1 & r1 & Hj & Hle)]; [by exists i, k, l, c, r; split; [|lia]|].
    destruct (stuck_chain S j k1 l1 c1 r1 Hinv Hstuck Hj) as (j' & k' & l' & c' & r' & Hj' & ?).
    exists j', k', l', c', r'; split; [done | lia]. }
  destruct (Hn (1 + max_list (want <$> sys_threads S))%nat) as (j & k' & l' & c' & r' & Hj & Hle).
  assert (want (Do (Hold k' l' c') :: r') <= max_list (want <$> sys_threads S))%nat; [|cbn in *; lia].
  apply max_list_elem_of_le, list_elem_of_fmap_2; by eapply list_elem_of_lookup_2.
Qed.

(** A thread is at its end, or gets on, or its call is refused. *)
Lemma thread_cases S i s :
  LockInv S -> sys_threads S !! i = Some s ->
  s = [] \/ (exists S', advance S S') \/
  exists k l c r, s = Do (Hold k l c) :: r /\ forall x, lock_call k i (sys_locks S l) <> Returns 0 x.
Proof.
  intros Hinv Hi.
  assert (Hstep : forall s' L', tstep i (s, sys_locks S) (s', L') -> exists S', advance S S').
  { intros s' L' Hs; eexists; by exists i, s, s', L'. }
  destruct s as [|[c|k l] r]; [by left | |].
  - destruct c as [| | | | | |k l c]; try (right; left; eapply Hstep; econstructor; fail).
    right; destruct (lock_call k i (sys_locks S l)) as [ret x|x] eqn:Hcall.
    + left; eapply Hstep, ts_enter; rewrite Hcall; f_equal; eapply lock_call_no_deadlk; [|exact Hcall].
      by eapply not_held_thread.
    + right; exists k, l, c, r; split; [done|]; intros y; rewrite Hcall; discriminate.
  - right; left; destruct (leave_Inv _ _ _ _ _ Hinv Hi) as (x & Hx & _); eapply Hstep; by constructor.
Qed.

(** Either a thread gets on, or none does: each is at its end or refused. *)
Lemma advance_dec S : LockInv S -> (exists S', advance S S') \/ (forall S', ~ advance S S').
Proof.
  intros Hinv.
  assert (Hall : forall n, (exists S', advance S S') \/ forall i s, (i < n)%nat -> sys_threads S !! i = Some s ->
    forall s' L', ~ tstep i (s, sys_locks S) (s', L')).
  { induction n as [|n [?|IH]]; [right; lia | by left|].
    destruct (sys_threads S !! n) as [s|] eqn:Hn.
    - destruct (thread_cases S n s Hinv Hn) as [-> | [? | (k & l & c & r & -> & Href)]]; [|by left|]; right;
        intros i s0 Hlt Hi; (destruct (decide (i = n)) as [->|]; [|apply IH; [lia | done]]);
        rewrite Hn in Hi; injection Hi as <-; intros s' L' Hs; inversion Hs; subst; by eapply Href.
    - right; intros i s0 Hlt Hi; destruct (decide (i = n)) as [->|]; [congruence | apply IH; [lia | done]]. }
  destruct (Hall (length (sys_threads S))) as [?|Hno]; [by left | right].
  intros S' (i & s & s' & L' & Hi & Hs & ->); eapply Hno; [|exact Hi | exact Hs]; by eapply lookup_lt_Some.
Qed.

Lemma LockInv_progress S : LockInv S -> finished S \/ exists S', advance S S'.
Proof.
  intros Hinv; destruct (advance_dec S Hinv) as [?|Hstuck]; [by right | left].
  apply list.Forall_forall; intros s [i Hi]%list_elem_of_lookup.
  destruct (thread_cases S i s Hinv Hi) as [? | [[S' ?] | (k & l & c & r & -> & _)]]; [done | by destruct (Hstuck S')|].
  exfalso; by eapply never_stuck.
Qed.

(** At the end nobody holds a lock. *)
Lemma LockInv_released S l : LockInv S -> finished S -> readers (sys_locks S l) = [] /\ writer (sys_locks S l) = None.
Proof.
  intros Hinv Hf; assert (Hno : forall j k, ~ holds (sys_locks S l) j k).
  { intros j k Hk; apply (li_holds _ Hinv) in Hk as (s & Hs & Hin); unfold finished in Hf; rewrite list.Forall_forall in Hf.
    rewrite (Hf s) in Hin by (by eapply list_elem_of_lookup_2); by apply elem_of_nil in Hin. }
  split; [destruct (readers (sys_locks S l)) as [|j r] eqn:E; [done|]; destruct (Hno j RD); cbn; rewrite E; by left|].
  destruct (writer (sys_locks S l)) as [j|] eqn:E; [by destruct (Hno j WR) | done].
Qed.

(** ** Runs, one thread at a time *)

Definition advance_by (i : nat) (s' : thread) (L' : locks) (S : system) : system :=
  mkSystem L' (<[i := s']> (sys_threads S)).

Lemma rtc_advance i s s' L' (S S' : system) :
  sys_threads S !! i = Some s -> tstep i (s, sys_locks S) (s', L') -> rtc step (advance_by i s' L' S) S' -> rtc step S S'.
Proof. intros Hi Hs Hr; eapply rtc_l; [|exact Hr]; left; by exists i, s, s', L'. Qed.
End LockOrder.

Ltac adv i rule :=
  eapply (rtc_advance i); [reflexivity | eapply rule; reflexivity | unfold advance_by; cbn [sys_locks sys_threads insert list_insert]].
