(* ===== verification/LeaderLocks.v ===== *)
(** * The locks of subscribers and servers: src/leader/node_collection_impl.cc,
    heartbeat_receiver.cc, heartbeat_reporter.cc, server_subscriber.cc,
    brpc/brpc_channel_pool.cc and brpc/brpc_channel_group.cc

    The heartbeat threads, the detector of bad nodes, the threads of brpc and of the ZooKeeper
    client and the callers of a subscriber and of a register call the methods of one receiver,
    one reporter, one node collection and one channel pool.  Here each method is its scopes of
    locks and its accesses to fields, as code of [LockOrder]; the methods themselves are in
    [Nodes], [Channels] and [Heartbeat], where each is one step.  A wait for the answers to
    pings and for the end of a thread holds no lock and is left out, the calls of the ZooKeeper
    wrapper and of the running checkers take their own locks only, and atomic members are not
    fields.  The methods that start, stop and close access the pointers to the wrapper and the
    threads without a lock; they are there too, called by one thread. *)
From Stdlib Require Import ZArith Lia.
From stdpp Require Import base list option gmap functions relations.
From S2P Require Import Prelude Locks LockOrder.
Import ReadWriteLock.

(** The locks of the objects; [mutex_] is that of a [RoundRobinIndex]. *)
Inductive lock : Type :=
| update_lock_ | paths_lock_ | update_mutex_ | round_robin_map_lock_ | node_lock_ | mutex_ | channel_lock_
| node_path_lock_ | node_path_removed_mutex_.
#[export] Instance lock_eq_dec : EqDecision lock.
Proof. solve_decision. Defined.

(** The objects that have a thread; the first two have a ZooKeeper wrapper. *)
Inductive owner : Type := receiver | reporter | detector.
#[export] Instance owner_eq_dec : EqDecision owner.
Proof. solve_decision. Defined.

(** Their fields; [slots] are the pointers in the [channels_] of a group.  Those with an owner
    and the two after them are set by [Init], the threads when they are started and joined. *)
Inductive field : Type :=
| thread_ (o : owner) | zk_ (o : owner) | shared_zk_ (o : owner) | interval_ (o : owner) | node_collection_ | heartbeat_message_
| valid_nodes_ | nodes_iindex_ | black_list_ | round_robin_index_map_ | index_
| channel_pool_ | channel_group_cache_ | slots | paths_ | node_path_map_ | node_path_to_remove_.
#[export] Instance field_eq_dec : EqDecision field.
Proof. solve_decision. Defined.

(** ** Node collection *)

Abbreviation code := (cmd (lock := lock) (field := field)).
Abbreviation state := (system (lock := lock) (field := field)).
Definition seq : list code -> code := foldr Seq Skip.

Definition UpdateHeartbeat : code :=
  Hold WR update_mutex_ (seq
    [Loop (Read black_list_);
     Hold WR node_lock_ (seq
       [Loop (Seq (Read nodes_iindex_) (Choice (Write nodes_iindex_) (Write nodes_iindex_)));
        Write valid_nodes_]);
     Hold WR round_robin_map_lock_ (Seq (Read round_robin_index_map_) (Choice (Write round_robin_index_map_) Skip))]).

(** Both overloads of [RemovePath] differ in their first loop only, which reads one field. *)
Definition RemovePath : code :=
  Hold WR update_mutex_ (Seq
    (Loop (Read valid_nodes_))
    (Choice Skip (seq
      [Hold WR round_robin_map_lock_ (Loop (Seq (Read round_robin_index_map_) (Choice Skip (Write round_robin_index_map_))));
       Hold WR node_lock_ (seq
         [Loop (Seq (Read valid_nodes_) (Choice Skip (seq
            [Loop (seq [Read valid_nodes_; Read nodes_iindex_;
                        Choice Skip (Seq (Write nodes_iindex_) (Choice (Write nodes_iindex_) Skip))]);
             Write valid_nodes_])));
          Loop (Write black_list_)])]))).

Definition UpdateBadNode : code :=
  Hold WR update_mutex_ (Hold WR node_lock_ (seq
    [Write black_list_;
     Loop (Seq (Read nodes_iindex_) (Choice Skip (seq
       [Loop (seq [Read nodes_iindex_; Read valid_nodes_;
                   Choice Skip (Loop (Seq (Read valid_nodes_) (Choice (Write valid_nodes_) Skip)))]);
        Write nodes_iindex_])))])).

Definition FindNodesBySpec : code := Hold RD node_lock_ (Loop (Read nodes_iindex_)).

(** [RoundRobinIndex::next]. *)
Definition next : code := Hold WR mutex_ (seq [Read index_; Write index_; Read index_]).

Definition PickOneNode : code :=
  Hold RD round_robin_map_lock_ (Seq
    (Read round_robin_index_map_)
    (Choice Skip (Hold RD node_lock_ (Seq
      (Read valid_nodes_)
      (Choice Skip (seq [Read valid_nodes_; Read round_robin_index_map_; next; Read valid_nodes_])))))).

Definition GetNodeCount : code := Hold RD node_lock_ (Seq (Read valid_nodes_) (Choice Skip (Read valid_nodes_))).

(** ** Channel pool *)

Definition PickChannel : code := Loop (Choice (Read slots) Skip).
Definition OpenNewChannel : code :=
  Choice Skip (Seq (Hold WR channel_lock_ (Write channel_group_cache_)) (Write slots)).
Definition GetChannel : code :=
  seq [Hold RD channel_lock_ (Read channel_pool_);
       Choice Skip (Hold WR channel_lock_ (Seq (Read channel_pool_) (Choice Skip (Write channel_pool_))));
       Choice Skip (Seq (Choice OpenNewChannel Skip) PickChannel)].
Definition FindChannelGroup : code := Hold RD channel_lock_ (Read channel_group_cache_).
Definition MoveFromGood2Bad : code := Seq FindChannelGroup (Choice Skip (Loop (Read slots))).
Definition MoveFromBad2Good : code := Seq FindChannelGroup (Choice Skip (Loop (Read slots))).
Definition CheckChannels : code := Loop (Seq (Read slots) (Choice (Read slots) Skip)).
Definition CheckAndGetBadNodeSpecs : code :=
  Seq (Hold RD channel_lock_ (Loop (Read channel_pool_))) (Loop (Choice Skip CheckChannels)).

(** ** Receiver and reporter *)

Definition AddPaths : code := Hold WR paths_lock_ (Loop (Seq (Read paths_) (Choice (Write paths_) Skip))).
(** The last lock waits for the round that may still have the old paths. *)
Definition Receiver_RemovePath : code :=
  Seq (Hold WR paths_lock_ (Seq (Loop (Read paths_)) (Loop (Seq (Read paths_) (Choice Skip (Write paths_))))))
      (Hold WR update_lock_ Skip).
Definition CommonWatcher : code := Choice Skip (Hold RD paths_lock_ (Read paths_)).
Definition Receive : code :=
  Choice Skip (Seq (Loop (Read (zk_ receiver))) (Choice Skip (Seq (Read node_collection_) UpdateHeartbeat))).
(** A turn of the thread of [StartReceive]. *)
Definition ReceiveTurn : code :=
  Seq (Hold WR update_lock_ (Seq (Hold RD paths_lock_ (Read paths_)) (Loop Receive))) (Choice Skip (Read (interval_ receiver))).
Definition Subscriber_RemovePath : code := Seq Receiver_RemovePath RemovePath.

Definition AddPathToReport : code := Seq (Read heartbeat_message_) (Hold WR node_path_lock_ (Seq (Read node_path_map_) (Choice (Write node_path_map_) Skip))).
Definition Reporter_RemovePath : code :=
  seq [Read heartbeat_message_;
       Hold WR node_path_lock_ (Write node_path_map_);
       Hold WR node_path_removed_mutex_ (seq
        [Read node_path_to_remove_;
         Choice (Choice (Write node_path_to_remove_) Skip) (Choice (Read node_path_to_remove_) Skip);
         Choice (Write node_path_to_remove_) Skip])].
Definition Report : code := Seq (Loop (Read (zk_ reporter))) (Choice Skip (Seq (Read heartbeat_message_) (Loop (Read (zk_ reporter))))).
(** A turn of the thread of [StartReport], and the callback of a deletion. *)
Definition ReportTurn : code :=
  seq [Hold RD node_path_lock_ (Read node_path_map_);
       Hold WR node_path_removed_mutex_ (Write node_path_to_remove_);
       Loop (Read (zk_ reporter));
       Loop Report;
       Choice (Read (interval_ reporter)) Skip].
Definition DeleteCallback : code := Choice (Hold WR node_path_removed_mutex_ (Write node_path_to_remove_)) Skip.

(** ** Starting, stopping and closing *)

Definition Receiver_Init : code :=
  Seq (Read (zk_ receiver)) (Choice Skip (seq
    [Write (shared_zk_ receiver); Write (zk_ receiver); Choice (Read (zk_ receiver)) Skip; Write node_collection_; Write (interval_ receiver)])).
Definition StartReceive : code :=
  Choice Skip (seq [Loop (Read (zk_ receiver)); Write (thread_ receiver)]).
(** [StopReceive], [StopReport]: whether the thread can be joined, and the join. *)
Definition stop (o : owner) : code := Choice Skip (Seq (Read (thread_ o)) (Choice (Write (thread_ o)) Skip)).
Definition StopReceive : code := stop receiver.
Definition Receiver_Close : code :=
  seq [StopReceive; Read (zk_ receiver); Choice Skip (seq [Read (shared_zk_ receiver); Read (zk_ receiver)])].

Definition Reporter_Init : code :=
  Seq (Read (zk_ reporter)) (Choice Skip (seq
    [Write (shared_zk_ reporter); Write (zk_ reporter); Choice Skip (Seq (Write heartbeat_message_) (Choice Skip (Write (interval_ reporter))))])).
Definition StartReport : code :=
  Choice Skip (seq [Loop (Read (zk_ reporter)); Write (thread_ reporter)]).
Definition StopReport : code := stop reporter.
Definition Reporter_Close : code :=
  seq [StopReport; Read (zk_ reporter); Choice Skip (Seq (Read (shared_zk_ reporter)) (Choice Skip (Read (zk_ reporter))))].

Definition StartDetect : code := Choice Skip (Write (thread_ detector)).
Definition StopDetect : code := Seq (Read (thread_ detector)) (Choice (Write (thread_ detector)) Skip).
Definition Subscriber_Start : code := Seq StartDetect StartReceive.
Definition Subscriber_Close : code := Seq Receiver_Close StopDetect.

(** ** The threads *)

(** What the threads call while they work: the receiver's thread its turns, the detector
    [DoDetect], clients the next five, brpc the answers to pings, the ZooKeeper client the
    watcher and the callbacks; and in a server the reporter's thread and its callers. *)
Inductive call : Type :=
| Turn | DoDetect | AddPath | Remove | SubscriberGetChannel | NodeCount | RemoveNodes | PingAnswered | PingFailed
| Watcher | Reports | AddReport | RemoveReport | Removed.

Definition code_of (c : call) : code :=
  match c with
  | Turn => ReceiveTurn
  | DoDetect => Seq CheckAndGetBadNodeSpecs (Choice Skip (Seq FindNodesBySpec UpdateBadNode))
  | AddPath => AddPaths
  | Remove => Subscriber_RemovePath
  | SubscriberGetChannel => Loop (Seq PickOneNode (Choice Skip GetChannel))
  | NodeCount => GetNodeCount
  | RemoveNodes => RemovePath
  | PingAnswered => MoveFromBad2Good
  | PingFailed => MoveFromGood2Bad
  | Watcher => CommonWatcher
  | Reports => ReportTurn
  | AddReport => AddPathToReport
  | RemoveReport => Reporter_RemovePath
  | Removed => DeleteCallback
  end.
Definition calls (l : list call) : code := seq (code_of <$> l).

(** What the thread that has the objects calls besides, after it has initialized them. *)
Inductive life : Type := Starts | StopsReceive | Closes | ClosesReceiver | StartsReport | StopsReport | ClosesReporter | Works (c : call).
Definition life_code (c : life) : code :=
  match c with
  | Starts => Subscriber_Start
  | StopsReceive => StopReceive
  | Closes => Subscriber_Close
  | ClosesReceiver => Receiver_Close
  | StartsReport => StartReport
  | StopsReport => StopReport
  | ClosesReporter => Reporter_Close
  | Works c => code_of c
  end.
Definition lives (l : list life) : code := seq (life_code <$> l).

(** ** The order of the locks and the guards of the fields *)

Definition rank (l : lock) : nat :=
  match l with
  | update_lock_ => 0 | paths_lock_ => 1 | update_mutex_ => 2 | round_robin_map_lock_ => 3 | node_lock_ => 4 | mutex_ => 5
  | channel_lock_ => 6 | node_path_lock_ => 7 | node_path_removed_mutex_ => 8
  end.

Definition guards (f : field) : option (list lock) :=
  match f with
  | valid_nodes_ | nodes_iindex_ | black_list_ => Some [update_mutex_; node_lock_]
  | round_robin_index_map_ => Some [round_robin_map_lock_]
  | index_ => Some [mutex_]
  | channel_pool_ | channel_group_cache_ => Some [channel_lock_]
  | paths_ => Some [paths_lock_]
  | node_path_map_ => Some [node_path_lock_]
  | node_path_to_remove_ => Some [node_path_removed_mutex_]
  | slots | thread_ _ | zk_ _ | shared_zk_ _ | interval_ _ | node_collection_ | heartbeat_message_ => None
  end.

(** What thread [i] accesses of the others: only thread 0 uses the threads of the objects, and
    nobody writes what [Init] sets. *)
Definition allowed (i : nat) (w : bool) (f : field) : bool :=
  match f with
  | thread_ _ => (i =? 0)%nat
  | zk_ _ | shared_zk_ _ | interval_ _ | node_collection_ | heartbeat_message_ => negb w
  | _ => true
  end.

Lemma code_of_checked c : check rank guards [] (code_of c) = true.
Proof. by destruct c. Qed.

Lemma calls_checked l : check rank guards [] (calls l) = true.
Proof. unfold calls; induction l as [|c l IH]; [done|]; cbn [fmap list_fmap seq foldr check]; by rewrite code_of_checked. Qed.
Lemma lives_checked l : check rank guards [] (lives l) = true.
Proof. unfold lives; induction l as [|[] l IH]; [done | ..]; cbn [fmap list_fmap seq foldr check life_code]; rewrite ?code_of_checked; done. Qed.

Lemma code_of_within i c : within (allowed i) (code_of c) = true.
Proof. by destruct c. Qed.
Lemma calls_within i l : within (allowed i) (calls l) = true.
Proof. unfold calls; induction l as [|c l IH]; [done|]; cbn [fmap list_fmap seq foldr within]; by rewrite code_of_within. Qed.
Lemma lives_within l : within (allowed 0) (lives l) = true.
Proof. unfold lives; induction l as [|[] l IH]; [done | ..]; cbn [fmap list_fmap seq foldr within life_code]; rewrite ?code_of_within; done. Qed.

(** C38: a subscriber's receiver, node collection, channel pool and detector and a server's
    reporter, after they were initialized.  One thread starts, stops and closes them, in any
    order and any number of times, and any number of threads calls their other methods, with
    either kind of lock.  Then no two threads access a member at the same time with one of them
    writing it, the pointers to channels excepted; the threads never block each other on the
    locks for good; and when they are done no lock is held.  Waiting for answers and for the end
    of a thread is not part of this, nor are [Init] and the destructors. *)
Theorem subscriber_locks (modes : lock -> Mode) (main : list life) (threads : list (list call)) (S : state) :
  rtc step (initial modes (lives main :: (calls <$> threads))) S ->
  (forall f, f <> slots -> ~ race f S) /\
  (finished S \/ exists S', advance S S') /\
  (finished S -> forall l, readers (sys_locks S l) = [] /\ writer (sys_locks S l) = None).
Proof.
  intros Hr; assert (Hinv : LockInv rank guards S).
  { refine (reachable_Inv rank guards modes _ S _ Hr); cbn [forallb]; rewrite lives_checked; apply forallb_forall; intros c Hc.
    apply list_elem_of_In, list_elem_of_fmap in Hc as (l & -> & _); apply calls_checked. }
  assert (Hw : forall i c, (lives main :: (calls <$> threads)) !! i = Some c -> within (allowed i) c = true).
  { intros [|i] c; [intros [= <-]; apply lives_within|]; cbn; intros Hc; apply list_lookup_fmap_Some in Hc as (l & -> & _); apply calls_within. }
  split; [|split].
  - intros f Hf; destruct (guards f) as [g|] eqn:Hg; [apply (LockInv_no_race _ _ _ _ Hinv); by eexists|].
    apply (within_no_race allowed modes _ S f Hw Hr); destruct f; cbn in Hg |- *; try done.
    intros i j _ Hne Hi Hj; apply Nat.eqb_eq in Hi, Hj; congruence.
  - exact (LockInv_progress rank guards S Hinv).
  - intros Hfin l; exact (LockInv_released rank guards S l Hinv Hfin).
Qed.

(** A client adds a path while the receiver's thread has the update lock and is about to take
    the lock of the paths, and the main thread has begun to start the subscriber. *)
Definition busy : list (list call) := [[Turn]; [AddPath]].
Lemma subscriber_locks_witness :
  exists S : state, rtc step (initial (fun _ => PREFER_READER) (lives [Starts; Closes] :: (calls <$> busy))) S /\
    writer (sys_locks S update_lock_) = Some 1%nat /\ writer (sys_locks S paths_lock_) = Some 2%nat /\ ~ finished S /\
    (forall f, f <> slots -> ~ race f S) /\ exists S', advance S S'.
Proof.
  assert (H : exists S : state, rtc step (initial (fun _ => PREFER_READER) (lives [Starts; Closes] :: (calls <$> busy))) S /\
    writer (sys_locks S update_lock_) = Some 1%nat /\ writer (sys_locks S paths_lock_) = Some 2%nat /\ ~ finished S).
  { eexists; split.
    - unfold initial; cbn [fmap list_fmap busy].
      adv 0%nat @ts_seq. adv 0%nat @ts_seq. adv 0%nat @ts_right. adv 0%nat @ts_write.
      adv 1%nat @ts_seq. adv 1%nat @ts_seq. adv 1%nat @ts_enter. adv 1%nat @ts_seq.
      adv 2%nat @ts_seq. adv 2%nat @ts_enter.
      apply rtc_refl.
    - split; [reflexivity|]; split; [reflexivity|]; intros Hf; apply Forall_inv in Hf; discriminate Hf. }
  destruct H as (S & Hr & H1 & H2 & Hn); exists S.
  destruct (subscriber_locks (fun _ => PREFER_READER) [Starts; Closes] busy S Hr) as (Hrace & [Hf|Hadv] & _); [contradiction|].
  split; [exact Hr|]; split; [exact H1|]; split; [exact H2|]; split; [exact Hn|]; split; [exact Hrace | exact Hadv].
Defined.

(** ** What one thread must do

    [Init] sets the wrapper without a lock, and a start assigns the thread without one. *)

Lemma init_race :
  exists S : state, rtc step (initial (fun _ => PREFER_READER) [Receiver_Init; StartReceive]) S /\ race (zk_ receiver) S.
Proof.
  eexists; split.
  - unfold initial; cbn [fmap list_fmap].
    adv 0%nat @ts_seq. adv 0%nat @ts_read. adv 0%nat @ts_right. adv 0%nat @ts_seq. adv 0%nat @ts_write. adv 0%nat @ts_seq.
    adv 1%nat @ts_right. adv 1%nat @ts_seq. adv 1%nat @ts_again. apply rtc_refl.
  - do 2 eexists; do 2 eexists; exists false; split; [apply (Nat.neq_succ_diag_r 0)|]; split; [reflexivity|]; split; [reflexivity|]; split; by eexists.
Qed.

Lemma start_race :
  exists S : state, rtc step (initial (fun _ => PREFER_READER) [StartReport; StopReport]) S /\ race (thread_ reporter) S.
Proof.
  eexists; split.
  - unfold initial; cbn [fmap list_fmap].
    adv 0%nat @ts_right. adv 0%nat @ts_seq. adv 0%nat @ts_exit. adv 0%nat @ts_seq.
    adv 1%nat @ts_right. adv 1%nat @ts_seq. apply rtc_refl.
  - do 2 eexists; do 2 eexists; exists false; split; [apply (Nat.neq_succ_diag_r 0)|]; split; [reflexivity|]; split; [reflexivity|]; split; by eexists.
Qed.

(** ** The pointers to channels

    [OpenNewChannel] stores the new channel in its slot without a lock, and an answer to the
    ping of another channel of the group compares all slots. *)

Lemma slots_race :
  exists S : state, rtc step (initial (fun _ => PREFER_READER) [OpenNewChannel; MoveFromBad2Good]) S /\ race slots S.
Proof.
  eexists; split.
  - unfold initial, OpenNewChannel, MoveFromBad2Good, FindChannelGroup; cbn [fmap list_fmap].
    adv 0%nat @ts_right. adv 0%nat @ts_seq. adv 0%nat @ts_enter. adv 0%nat @ts_write. adv 0%nat @ts_leave.
    adv 1%nat @ts_seq. adv 1%nat @ts_enter. adv 1%nat @ts_read. adv 1%nat @ts_leave. adv 1%nat @ts_right. adv 1%nat @ts_again.
    apply rtc_refl.
  - exists 0%nat, 1%nat, [Do (Write slots)], [Do (Read slots); Do (Loop (Read slots))], false.
    split; [done|]; split; [done|]; split; [done|]; split; [by exists [] | by exists [Do (Loop (Read slots))]].
Qed.
