(* ===== verification/Pools.v ===== *)
(** * Objects that are shared or kept: src/common/object_pool.h, thread_local.h,
    singleton.h, the stream pool of string_utils.cc and src/orc/util/scope_guard.h

    Objects live on a heap of addresses; deleting an address that is not alive is an error.
    [ObjectPool] hands objects out and takes them back, [ThreadLocalStore] gives each thread
    one object, [Singleton] one to the process, [StringStreamPool] lends streams, and a
    [ScopeGuard] runs a function when it goes out of scope. *)
From Stdlib Require Import ZArith Lia.
From stdpp Require Import base list option gmap sets relations.
From S2P Require Import Prelude Locks LockOrder.

(** ** The heap *)

Abbreviation obj := nat.
Record Heap : Type := mkHeap { fresh : obj; live : gset obj }.
Definition new_heap : Heap := mkHeap 0 ∅.
Definition new_object (h : Heap) : obj * Heap := (fresh h, mkHeap (S (fresh h)) ({[fresh h]} ∪ live h)).
Definition delete_object (o : obj) (h : Heap) : option Heap :=
  if decide (o ∈ live h) then Some (mkHeap (fresh h) (live h ∖ {[o]})) else None.

Definition heap_wf (h : Heap) : Prop := forall o, o ∈ live h -> (o < fresh h)%nat.

Fixpoint delete_all (l : list obj) (h : Heap) : option Heap :=
  match l with [] => Some h | o :: l => h ← delete_object o h; delete_all l h end.

(** Deleting is possible exactly for live objects, each once. *)
Lemma delete_all_spec l : forall h,
  NoDup l -> (forall o, o ∈ l -> o ∈ live h) ->
  exists h', delete_all l h = Some h' /\ fresh h' = fresh h /\ live h' = live h ∖ list_to_set l.
Proof.
  induction l as [|o l IH]; intros h Hnd Hl; cbn [delete_all].
  - exists h; split; [done|]; split; [done | set_solver].
  - apply list.NoDup_cons in Hnd as [Ho Hnd]; unfold delete_object; rewrite decide_True by set_solver; cbn.
    destruct (IH (mkHeap (fresh h) (live h ∖ {[o]})) Hnd) as (h' & -> & Hf & Hs); [cbn; set_solver|].
    exists h'; split; [done|]; split; [done|]; rewrite Hs; cbn; set_solver.
Qed.
Lemma delete_all_double l1 o l2 l3 h : delete_all (l1 ++ o :: l2 ++ o :: l3) h = None.
Proof.
  assert (Hdead : forall l h, o ∉ live h -> delete_all (l ++ o :: l3) h = None).
  { induction l as [|x l IH]; intros h' Hh; cbn [delete_all app]; unfold delete_object at 1.
    - by rewrite decide_False.
    - case_decide; [|done]; cbn; apply IH; cbn; set_solver. }
  revert h; induction l1 as [|x l1 IH]; intros h; cbn [delete_all app]; unfold delete_object at 1; case_decide; cbn; try done.
  apply Hdead; cbn; set_solver.
Qed.

(** ** The object pool *)

Module ObjectPool.

(** [objects_], with its back at the end; a released pointer may be null. *)
Abbreviation pool := (list (option obj)).

Fixpoint create (capacity : nat) (p : pool) (h : Heap) : pool * Heap :=
  match capacity with
  | O => (p, h)
  | S n => let '(o, h) := new_object h in create n (p ++ [Some o]) h
  end.
Definition new (capacity : nat) (h : Heap) : pool * Heap := create capacity [] h.

Definition Acquire (p : pool) (h : Heap) : option obj * pool * Heap :=
  match p !! pred (length p) with
  | None => let '(o, h) := new_object h in (Some o, p, h)
  | Some o => (o, take (pred (length p)) p, h)
  end.
Definition Release (o : option obj) (p : pool) : pool := p ++ [o].
Definition ReleaseAll (os : list (option obj)) (p : pool) : pool := foldl (fun p o => p ++ [o]) p os.
Definition Size (p : pool) : nat := length p.

(** The destructor skips null pointers. *)
Definition destroy (p : pool) (h : Heap) : option Heap := delete_all (omap id p) h.

(** Clients keep what they acquired till they release it. *)
Inductive op : Type := Acq | Rel (o : obj) | RelAll (os : list obj).
Record state : Type := mkState { objects_ : pool; heap : Heap; held : list obj }.

(** A step: [None] when a client releases what it does not hold. *)
Fixpoint remove_held (os held : list obj) : option (list obj) :=
  match os with
  | [] => Some held
  | o :: os => if decide (o ∈ held) then remove_held os (ReadWriteLock.remove_one o held) else None
  end.
Definition run1 (s : state) (x : op) : option state :=
  match x with
  | Acq =>
      let '(o, p, h) := Acquire (objects_ s) (heap s) in
      Some (mkState p h (match o with Some o => o :: held s | None => held s end))
  | Rel o => l ← remove_held [o] (held s); Some (mkState (Release (Some o) (objects_ s)) (heap s) l)
  | RelAll os => l ← remove_held os (held s); Some (mkState (ReleaseAll (Some <$> os) (objects_ s)) (heap s) l)
  end.
Fixpoint run (l : list op) (s : state) : option state :=
  match l with [] => Some s | x :: l => s ← run1 s x; run l s end.
Definition start (capacity : nat) : state :=
  let '(p, h) := new capacity new_heap in mkState p h [].

(** Every live object is in the pool or with one client, once. *)
Record Inv (s : state) : Prop := {
  inv_heap : heap_wf (heap s);
  inv_nodup : NoDup (omap id (objects_ s) ++ held s);
  inv_live o : o ∈ live (heap s) <-> o ∈ omap id (objects_ s) ++ held s;
  inv_null : None ∉ objects_ s
}.

Lemma ReleaseAll_app os p : ReleaseAll os p = p ++ os.
Proof.
  revert p; induction os as [|o os IH]; intros p; cbn; [by rewrite app_nil_r|].
  unfold ReleaseAll in *; cbn; rewrite IH, <- (assoc (++)); done.
Qed.
Lemma omap_id_fmap_Some (l : list obj) : omap id (Some <$> l) = l.
Proof. induction l as [|x l IH]; [done|]; cbn; by f_equal. Qed.

Lemma remove_held_perm os : forall held l, NoDup held -> remove_held os held = Some l -> held ≡ₚ os ++ l /\ NoDup l.
Proof.
  induction os as [|o os IH]; intros hd l Hnd; cbn; [by intros [= <-]|].
  case_decide as Ho; [|done]; intros Hr.
  destruct (remove_one_spec o hd Hnd) as [Hn He]; destruct (IH _ _ Hn Hr) as [Hp Hl]; split; [|done].
  rewrite <- Hp; apply NoDup_Permutation; [done | apply list.NoDup_cons; rewrite He; naive_solver|].
  intros x; rewrite elem_of_cons, He; destruct (decide (x = o)); naive_solver.
Qed.

Lemma create_spec n : forall p h, heap_wf h -> None ∉ p -> NoDup (omap id p) -> (forall o, o ∈ live h <-> o ∈ omap id p) ->
  let '(p', h') := create n p h in
  heap_wf h' /\ None ∉ p' /\ NoDup (omap id p') /\ (forall o, o ∈ live h' <-> o ∈ omap id p') /\ length p' = (n + length p)%nat.
Proof.
  induction n as [|n IH]; intros p h Hw Hn Hnd Hl; cbn [create new_object]; [done|].
  specialize (IH (p ++ [Some (fresh h)]) (mkHeap (S (fresh h)) ({[fresh h]} ∪ live h))).
  destruct (create n _ _) as [p' h']; destruct IH as (? & ? & ? & ? & Hlen).
  - intros o; cbn; rewrite elem_of_union, elem_of_singleton; intros [-> | Ho]; [lia | apply Hw in Ho; lia].
  - rewrite elem_of_app, list_elem_of_singleton; naive_solver.
  - rewrite omap_app; cbn; apply list.NoDup_app; split; [done|]; split; [|apply NoDup_singleton].
    intros o Ho Hf; apply list_elem_of_singleton in Hf as ->; apply Hl, Hw in Ho; lia.
  - intros o; cbn; rewrite omap_app, elem_of_app, elem_of_union, Hl, elem_of_singleton; cbn; rewrite list_elem_of_singleton; tauto.
  - rewrite length_app in Hlen; cbn in Hlen; split; [done|]; split; [done|]; split; [done|]; split; [done | lia].
Qed.

Lemma pool_start_Inv n : Inv (start n) /\ Size (objects_ (start n)) = n.
Proof.
  unfold start, new; pose proof (create_spec n [] new_heap) as Hc; destruct (create n [] new_heap) as [p h].
  destruct Hc as (? & ? & ? & ? & Hlen); [intros o; cbn; set_solver | set_solver | apply NoDup_nil_2 | cbn; set_solver|].
  split; [constructor; cbn; rewrite ?app_nil_r; done | cbn in *; unfold Size; lia].
Qed.

Lemma Acquire_Inv s : Inv s -> exists s', run1 s Acq = Some s' /\ Inv s' /\
  exists o, held s' = o :: held s /\ o ∉ held s.
Proof.
  intros [Hw Hnd Hl Hn]; unfold run1, Acquire.
  destruct (objects_ s !! pred (length (objects_ s))) as [o|] eqn:Hlast.
  - pose proof (list_elem_of_lookup_2 _ _ _ Hlast) as Hin; destruct o as [o|]; [|done].
    assert (Hp : objects_ s = take (pred (length (objects_ s))) (objects_ s) ++ [Some o]).
    { pose proof (lookup_lt_Some _ _ _ Hlast); rewrite <- (take_S_r _ _ _ Hlast), take_ge; [done | lia]. }
    set (q := take _ _) in *; rewrite Hp in Hnd, Hl, Hn; rewrite omap_app in Hnd, Hl; cbn in Hnd, Hl.
    rewrite <- app_assoc in Hnd, Hl; cbn in Hnd, Hl.
    eexists; split; [done|]; split; [|exists o; split; [done|]].
    + constructor; cbn; [done | | |].
      * done.
      * done.
      * intros Hq; apply Hn; set_solver.
    + apply list.NoDup_app in Hnd as (_ & _ & Hnd); by apply list.NoDup_cons in Hnd as [? _].
  - assert (Hp : objects_ s = []).
    { destruct (objects_ s) as [|x q]; [done|]; apply lookup_ge_None in Hlast; cbn in Hlast; lia. }
    rewrite Hp in *; cbn in *; eexists; split; [done|]; split; [|exists (fresh (heap s)); split; [done|]].
    + constructor; cbn; [| | |done].
      * intros o; cbn; rewrite elem_of_union, elem_of_singleton; intros [-> | Ho]; [lia | apply Hw in Ho; lia].
      * apply list.NoDup_cons; split; [|done]; rewrite <- Hl; intros Hf; apply Hw in Hf; lia.
      * intros o; rewrite elem_of_union, elem_of_singleton, elem_of_cons, Hl; tauto.
    + rewrite <- Hl; intros Hf; apply Hw in Hf; lia.
Qed.

Lemma release_Inv s os l :
  Inv s -> remove_held os (held s) = Some l -> Inv (mkState (objects_ s ++ (Some <$> os)) (heap s) l).
Proof.
  intros [Hw Hnd Hl Hn] Hr; pose proof Hnd as Hnd'; apply list.NoDup_app in Hnd' as (_ & _ & Hh).
  destruct (remove_held_perm os _ _ Hh Hr) as [Hp _].
  assert (Hperm : omap id (objects_ s ++ (Some <$> os)) ++ l ≡ₚ omap id (objects_ s) ++ held s).
  { rewrite omap_app, omap_id_fmap_Some, Hp, <- (assoc (++)); done. }
  constructor; cbn [heap objects_ held].
  - done.
  - by rewrite Hperm.
  - intros o; by rewrite Hl, Hperm.
  - rewrite elem_of_app; intros [? | Hf]; [done|]; by apply list_elem_of_fmap in Hf as (? & ? & _).
Qed.

Lemma run1_Inv s x s' : Inv s -> run1 s x = Some s' -> Inv s'.
Proof.
  intros Hi; destruct x as [|o|os]; cbn [run1].
  - destruct (Acquire_Inv s Hi) as (s2 & Hs2 & Hi2 & _); unfold run1 in Hs2; rewrite Hs2; by intros [= <-].
  - destruct (remove_held [o] (held s)) as [l|] eqn:Hr; [|done]; intros [= <-]; by apply (release_Inv s [o] l).
  - destruct (remove_held os (held s)) as [l|] eqn:Hr; [|done]; intros [= <-]; rewrite ReleaseAll_app; by apply release_Inv.
Qed.
Lemma run_Inv l : forall s s', Inv s -> run l s = Some s' -> Inv s'.
Proof.
  induction l as [|x l IH]; intros s s' Hi; cbn; [by intros [= <-]|].
  destruct (run1 s x) as [s1|] eqn:H1; cbn; [|done]; intros Hr; eapply IH; [|exact Hr]; by eapply run1_Inv.
Qed.

(** After any history of clients that release what they hold, an acquired object is with
    nobody else, and the destructor deletes each object of the pool once and leaves the
    others alone. *)
Lemma pool_correct capacity l s :
  run l (start capacity) = Some s ->
  (exists o s', run1 s Acq = Some s' /\ held s' = o :: held s /\ o ∉ held s) /\
  (exists h, destroy (objects_ s) (heap s) = Some h /\ forall o, o ∈ live h <-> o ∈ held s).
Proof.
  intros Hr; assert (Hi : Inv s) by (eapply run_Inv; [apply pool_start_Inv | exact Hr]); split.
  - destruct (Acquire_Inv s Hi) as (s' & Hs' & _ & o & Ho & Hno); by exists o, s'.
  - destruct Hi as [Hw Hnd Hl Hn]; apply list.NoDup_app in Hnd as (Hp & Hdis & _).
    destruct (delete_all_spec (omap id (objects_ s)) (heap s) Hp) as (h & Hh & _ & Hlive).
    { intros o Ho; apply Hl, elem_of_app; by left. }
    exists h; split; [done|]; intros o; rewrite Hlive, elem_of_difference, Hl, elem_of_app, elem_of_list_to_set.
    split; [tauto|]; intros Ho; split; [by right|]; intros Hf; by apply (Hdis o).
Qed.

(** An object that is released twice is deleted twice. *)
Lemma double_release_double_delete o p h :
  destroy (Release (Some o) (Release (Some o) p)) h = None.
Proof.
  unfold destroy, Release; rewrite !omap_app; cbn; rewrite <- app_assoc; cbn.
  apply (delete_all_double (omap id p) o [] []).
Qed.

(** What was released last is acquired first. *)
Lemma release_acquire o p h : Acquire (Release o p) h = (o, p, h).
Proof.
  unfold Acquire, Release; rewrite length_app; cbn; rewrite Nat.add_1_r; cbn.
  rewrite lookup_app_r by lia; rewrite Nat.sub_diag; cbn; by rewrite take_app_length.
Qed.
End ObjectPool.

(** ** Thread-local objects *)

Module ThreadLocalStore.
Abbreviation tid := ReadWriteLock.tid.

(** [ptr] is the thread's own pointer; [data_] is what the one store deletes at its end. *)
Record store : Type := mkStore { ptr : gmap tid obj; data_ : list obj; heap : Heap }.

(** The constructor deletes the elements of its own vector, which is empty. *)
Definition construct (h : Heap) : option store := h ← delete_all [] h; Some (mkStore ∅ [] h).
Definition RegisterDelete (o : obj) (s : store) : store := mkStore (ptr s) (data_ s ++ [o]) (heap s).
Definition Get (i : tid) (s : store) : obj * store :=
  match ptr s !! i with
  | Some o => (o, s)
  | None => let '(o, h) := new_object (heap s) in (o, RegisterDelete o (mkStore (<[i := o]> (ptr s)) (data_ s) h))
  end.
Definition destroy (s : store) : option Heap := delete_all (data_ s) (heap s).

Fixpoint gets (l : list tid) (s : store) : store :=
  match l with [] => s | i :: l => gets l (Get i s).2 end.

Record Inv (s : store) : Prop := {
  inv_heap : heap_wf (heap s);
  inv_nodup : NoDup (data_ s);
  inv_live o : o ∈ live (heap s) <-> o ∈ data_ s;
  inv_ptr i o : ptr s !! i = Some o -> o ∈ data_ s;
  inv_inj i j o : ptr s !! i = Some o -> ptr s !! j = Some o -> i = j;
  inv_size : size (ptr s) = length (data_ s)
}.

Lemma construct_Inv : exists s, construct new_heap = Some s /\ Inv s.
Proof.
  eexists; split; [done|]; constructor; cbn.
  - intros o; set_solver.
  - apply NoDup_nil_2.
  - set_solver.
  - intros i o; by rewrite lookup_empty.
  - intros i j o; by rewrite lookup_empty.
  - by rewrite map_size_empty.
Qed.

Lemma Get_Inv i s : Inv s -> Inv (Get i s).2 /\ ptr (Get i s).2 !! i = Some (Get i s).1 /\
  (forall j o, ptr s !! j = Some o -> ptr (Get i s).2 !! j = Some o).
Proof.
  intros Hinv; unfold Get; destruct (ptr s !! i) as [o|] eqn:Hi; [done|]; cbn.
  destruct Hinv as [Hw Hnd Hl Hp Hij Hs]; set (o := fresh (heap s)).
  assert (Hnew : o ∉ data_ s) by (rewrite <- Hl; intros Ho; apply Hw in Ho; unfold o in Ho; lia).
  split; [|split; [by rewrite lookup_insert_eq|]].
  - constructor; cbn.
    + intros x; cbn; rewrite elem_of_union, elem_of_singleton; unfold o; intros [-> | Hx]; [lia | apply Hw in Hx; lia].
    + apply list.NoDup_app; split; [done|]; split; [|apply NoDup_singleton].
      intros x Hx ->%list_elem_of_singleton; done.
    + intros x; rewrite elem_of_union, elem_of_singleton, Hl, elem_of_app, list_elem_of_singleton; tauto.
    + intros j x; rewrite elem_of_app, list_elem_of_singleton, lookup_insert_Some; intros [[_ <-] | [_ Hj]]; [by right | left; eauto].
    + intros j k x [[<- <-] | [Hj1 Hj]]%lookup_insert_Some [[<- Hx] | [Hk1 Hk]]%lookup_insert_Some; try done; [| |by eapply Hij].
      * exfalso; eapply Hnew, Hp, Hk.
      * subst x; exfalso; eapply Hnew, Hp, Hj.
    + rewrite map_size_insert_None by done; rewrite length_app; cbn; lia.
  - intros j x Hj; rewrite lookup_insert_ne; [done | congruence].
Qed.

Lemma gets_Inv l : forall s, Inv s -> Inv (gets l s) /\ (forall j o, ptr s !! j = Some o -> ptr (gets l s) !! j = Some o).
Proof.
  induction l as [|i l IH]; intros s Hs; cbn [gets]; [done|].
  destruct (Get_Inv i s Hs) as (H1 & _ & Hmono); destruct (IH _ H1) as [H2 Hmono2]; split; [done | eauto].
Qed.

(** A thread always gets the same object, which no other thread gets, and the store deletes
    every object once. *)
Lemma store_correct s0 l i j s :
  construct new_heap = Some s0 -> gets l (Get i s0).2 = s ->
  (Get i s).1 = (Get i s0).1 /\ (i <> j -> (Get j s).1 <> (Get i s).1) /\
  exists h, destroy s = Some h /\ live h = ∅.
Proof.
  intros H0 <-; destruct construct_Inv as (s1 & H1 & Hinv0); rewrite H0 in H1; injection H1 as <-.
  destruct (Get_Inv i s0 Hinv0) as (Hinv1 & Hi & _); destruct (gets_Inv l _ Hinv1) as [Hinv Hmono].
  apply Hmono in Hi; set (s := gets l _) in *.
  assert (Hgi : (Get i s).1 = (Get i s0).1) by (unfold Get at 1; by rewrite Hi).
  split; [done|]; split.
  - intros Hne Heq; destruct (Get_Inv j s Hinv) as (Hinvj & Hj & Hmonoj).
    apply Hne; eapply (inv_inj _ Hinvj); [apply Hmonoj, Hi | by rewrite Hj, Heq, Hgi].
  - destruct (delete_all_spec (data_ s) (heap s) (inv_nodup _ Hinv)) as (h & Hh & _ & Hlive).
    { intros o Ho; by apply (inv_live _ Hinv). }
    exists h; split; [done|]; rewrite Hlive; apply leibniz_equiv; intros o; rewrite elem_of_difference, elem_of_list_to_set, (inv_live _ Hinv); set_solver.
Qed.

(** Nothing is deleted when a thread ends: there are as many objects as threads ever asked. *)
Lemma store_grows s0 l :
  construct new_heap = Some s0 -> length (data_ (gets l s0)) = size (ptr (gets l s0)).
Proof.
  intros H0; destruct construct_Inv as (s1 & H1 & Hinv0); rewrite H0 in H1; injection H1 as <-.
  by rewrite (inv_size _ (proj1 (gets_Inv l _ Hinv0))).
Qed.
End ThreadLocalStore.

(** ** Scope guards *)

Module ScopeGuard.
Section Guard.
Context {W : Type}.

Record guard : Type := mkGuard { committed_ : bool; f_ : W -> W }.
Definition ScopeGuard (l : W -> W) : guard := mkGuard false l.
(** The constructor with an entry function runs it. *)
Definition ScopeGuard2 (al l : W -> W) (w : W) : guard * W := (mkGuard false l, al w).
(** The new guard and the one that was moved from. *)
Definition move (g : guard) : guard * guard := (mkGuard (committed_ g) (f_ g), mkGuard true (f_ g)).
Definition Commit (g : guard) : guard := mkGuard true (f_ g).
Definition leave (g : guard) (w : W) : W := if committed_ g then w else f_ g w.
Definition MakeScopeGuard (l : W -> W) : guard := ScopeGuard l.
Definition MakeScopeGuard2 (al l : W -> W) (w : W) : guard * W := ScopeGuard2 al l w.

(** The guards of a scope: one is made, then guards are moved into new ones and committed. *)
Inductive op : Type := Move (i : nat) | CommitAt (i : nat).
Definition run1 (gs : list guard) (x : op) : list guard :=
  match x with
  | Move i =>
      match gs !! i with
      | Some g => let '(new, old) := move g in <[i := old]> gs ++ [new]
      | None => gs
      end
  | CommitAt i => match gs !! i with Some g => <[i := Commit g]> gs | None => gs end
  end.
Definition leave_all (gs : list guard) (w : W) : W := foldr leave w gs.

Definition pending (gs : list guard) : nat := length (filter (fun g => committed_ g = false) gs).

Lemma pending_app gs gs' : pending (gs ++ gs') = (pending gs + pending gs')%nat.
Proof. unfold pending; by rewrite list.filter_app, length_app. Qed.
Lemma pending_one g : pending [g] = if committed_ g then 0%nat else 1%nat.
Proof. unfold pending; destruct g as [[|] f]; [by rewrite filter_cons_False | by rewrite filter_cons_True]. Qed.
Lemma pending_cons g gs : pending (g :: gs) = (pending [g] + pending gs)%nat.
Proof. exact (pending_app [g] gs). Qed.
Lemma pending_insert gs i g g' :
  gs !! i = Some g -> (pending (<[i := g']> gs) + pending [g] = pending gs + pending [g'])%nat.
Proof.
  intros Hi; pose proof (lookup_lt_Some _ _ _ Hi).
  assert (Hg : pending gs = (pending (take i gs) + (pending [g] + pending (drop (S i) gs)))%nat).
  { rewrite <- (take_drop_middle gs i g Hi) at 1; by rewrite pending_app, pending_cons. }
  rewrite insert_take_drop by done; rewrite pending_app, (pending_cons g'); lia.
Qed.

Lemma run1_pending f gs x :
  Forall (fun g => f_ g = f) gs -> (pending gs <= 1)%nat ->
  Forall (fun g => f_ g = f) (run1 gs x) /\ (pending (run1 gs x) <= pending gs)%nat.
Proof.
  intros Hf Hp; destruct x as [i|i]; cbn [run1].
  - destruct (gs !! i) as [g|] eqn:Hi; [|done]; cbn [move].
    pose proof (proj1 (list.Forall_forall _ _) Hf g (list_elem_of_lookup_2 _ _ _ Hi)) as Hg; cbn in Hg; split.
    + apply Forall_app; split; [by apply Forall_insert | by constructor].
    + pose proof (pending_insert gs i g (mkGuard true (f_ g)) Hi) as Hi2; rewrite pending_app.
      rewrite !pending_one in *; cbn in *; destruct (committed_ g); lia.
  - destruct (gs !! i) as [g|] eqn:Hi; [|done].
    pose proof (proj1 (list.Forall_forall _ _) Hf g (list_elem_of_lookup_2 _ _ _ Hi)) as Hg; cbn in Hg.
    split; [by apply Forall_insert|].
    pose proof (pending_insert gs i g (Commit g) Hi) as Hi2; rewrite !pending_one in Hi2; cbn in Hi2; destruct (committed_ g); lia.
Qed.

Lemma leave_all_pending f gs w :
  Forall (fun g => f_ g = f) gs -> (pending gs <= 1)%nat -> leave_all gs w = if (pending gs =? 0)%nat then w else f w.
Proof.
  induction gs as [|g gs IH]; intros Hf Hp; [done|]; apply list.Forall_cons in Hf as [Hg Hf].
  rewrite pending_cons in *; cbn [leave_all foldr]; rewrite pending_one in *; fold (leave_all gs w).
  rewrite IH by (done || lia); unfold leave; rewrite Hg; destruct (committed_ g); cbn; [done|].
  assert (pending gs = 0)%nat as -> by lia; done.
Qed.

(** However a guard is moved, its function runs once at the end of the scope, or not at all;
    without a commit it runs. *)
Lemma guard_runs_once f l w :
  leave_all (foldl run1 [MakeScopeGuard f] l) w = f w \/ leave_all (foldl run1 [MakeScopeGuard f] l) w = w.
Proof.
  assert (H : forall gs, Forall (fun g => f_ g = f) gs -> (pending gs <= 1)%nat ->
    Forall (fun g => f_ g = f) (foldl run1 gs l) /\ (pending (foldl run1 gs l) <= 1)%nat).
  { induction l as [|x l IH]; intros gs Hf Hp; [done|]; cbn; destruct (run1_pending f gs x Hf Hp); apply IH; [done | lia]. }
  destruct (H [MakeScopeGuard f]) as [Hf Hp]; [by constructor | done |].
  rewrite (leave_all_pending f) by done; destruct (_ =? _)%nat; auto.
Qed.

Lemma moves_keep_guard f l w :
  Forall (fun x => exists i, x = Move i) l -> leave_all (foldl run1 [MakeScopeGuard f] l) w = f w.
Proof.
  intros Hl; assert (H : forall gs, Forall (fun g => f_ g = f) gs -> pending gs = 1%nat ->
    Forall (fun g => f_ g = f) (foldl run1 gs l) /\ pending (foldl run1 gs l) = 1%nat).
  { induction Hl as [|x l [i ->] _ IH]; intros gs Hf Hp; [done|]; cbn [foldl].
    destruct (run1_pending f gs (Move i) Hf) as [Hf' _]; [lia|]; apply IH; [done|].
    cbn [run1]; destruct (gs !! i) as [g|] eqn:Hi; [|done]; cbn [move].
    pose proof (pending_insert gs i g (mkGuard true (f_ g)) Hi) as Hi2; rewrite pending_app, !pending_one in *; cbn in *.
    destruct (committed_ g); lia. }
  destruct (H [MakeScopeGuard f]) as [Hf Hp]; [by constructor | done |].
  rewrite (leave_all_pending f) by (done || lia); by rewrite Hp.
Qed.

(** A commit of the guard that was not moved from cancels it. *)
Lemma commit_cancels f w : leave_all (foldl run1 [MakeScopeGuard f] [Move 0; CommitAt 1]) w = w.
Proof. done. Qed.
End Guard.
End ScopeGuard.

(** ** Singletons *)

Module Singleton.

(** Where a thread is in [SingletonBase::Instance]: the first test, the lock, the second test,
    the construction, the unlock, the return. *)
Inductive pc : Type := Test | Lock | Retest | Create | Unlock | Return | Done (p : option obj).
Record state : Type := mkState { instance_ : option obj; instance_mu_ : option nat; made : nat; pcs : list pc }.

Definition go (i : nat) (q : pc) (s : state) : state := mkState (instance_ s) (instance_mu_ s) (made s) (<[i := q]> (pcs s)).

(** A turn of thread [i]; [None] when it cannot move. *)
Definition step (i : nat) (s : state) : option state :=
  match pcs s !! i with
  | Some Test => Some (go i (if decide (instance_ s = None) then Lock else Return) s)
  | Some Lock =>
      match instance_mu_ s with
      | Some _ => None
      | None => Some (mkState (instance_ s) (Some i) (made s) (<[i := Retest]> (pcs s)))
      end
  | Some Retest => Some (go i (if decide (instance_ s = None) then Create else Unlock) s)
  | Some Create => Some (mkState (Some (made s)) (instance_mu_ s) (S (made s)) (<[i := Unlock]> (pcs s)))
  | Some Unlock => Some (mkState (instance_ s) None (made s) (<[i := Return]> (pcs s)))
  | Some Return => Some (go i (Done (instance_ s)) s)
  | Some (Done _) | None => None
  end.
Fixpoint run (l : list nat) (s : state) : state :=
  match l with [] => s | i :: l => run l (match step i s with Some s => s | None => s end) end.
Definition start (n : nat) : state := mkState None None 0 (repeat Test n).

Definition critical (q : pc) : Prop := q = Retest \/ q = Create \/ q = Unlock.

Record Inv (s : state) : Prop := {
  inv_mutex i q : pcs s !! i = Some q -> critical q -> instance_mu_ s = Some i;
  inv_create i : pcs s !! i = Some Create -> instance_ s = None;
  inv_made : (instance_ s = None /\ made s = 0%nat) \/ (instance_ s = Some 0%nat /\ made s = 1%nat);
  inv_done i q : pcs s !! i = Some q -> q = Unlock \/ q = Return \/ (exists p, q = Done p) -> instance_ s = Some 0%nat;
  inv_ptr i p : pcs s !! i = Some (Done p) -> p = Some 0%nat
}.

Lemma singleton_start_Inv n : Inv (start n).
Proof.
  assert (H : forall i q, repeat Test n !! i = Some q -> q = Test).
  { intros i q Hq; by apply list_elem_of_lookup_2, list_elem_of_In, repeat_spec in Hq. }
  constructor; cbn.
  - intros i q ->%H [?|[?|?]]; done.
  - intros i Hi%H; done.
  - by left.
  - intros i q ->%H [?|[?|[? ?]]]; done.
  - intros i p Hi%H; done.
Qed.

(** The place of another thread is not changed by a turn of [i]. *)
Lemma pcs_insert i j q r (l : list pc) :
  <[i := r]> l !! j = Some q -> (j = i /\ q = r) \/ (j <> i /\ l !! j = Some q).
Proof. intros [(-> & <- & _) | [? ?]]%list_lookup_insert_Some; auto. Qed.

(** The cases of a place after a turn: the thread that moved, or another. *)
Ltac pc_cases :=
  intros;
  repeat match goal with H : <[_ := _]> _ !! _ = Some _ |- _ => apply pcs_insert in H as [[? ?] | [? ?]] end;
  subst; unfold critical in *;
  repeat match goal with H : _ \/ _ |- _ => destruct H | H : _ /\ _ |- _ => destruct H | H : exists _, _ |- _ => destruct H end;
  try congruence; eauto 8.

Lemma step_Inv i s s' : Inv s -> step i s = Some s' -> Inv s'.
Proof.
  intros [Hm Hc Hd Hr Hp]; unfold step, go; destruct (pcs s !! i) as [q|] eqn:Hi; [|done].
  assert (Hown : forall j r, critical q -> pcs s !! j = Some r -> critical r -> j = i).
  { intros j r Hq Hj Hcr; pose proof (Hm _ _ Hi Hq); pose proof (Hm _ _ Hj Hcr); congruence. }
  destruct q; try discriminate.
  - case_decide; intros [= <-]; constructor; cbn; pc_cases.
  - destruct (instance_mu_ s) as [o|] eqn:Ho; [done|]; intros [= <-]; constructor; cbn; pc_cases.
    all: exfalso; assert (None = Some i0); [eapply Hm; [eassumption | auto] | done].
  - pose proof (Hm _ _ Hi (or_introl eq_refl)) as Hmu.
    case_decide as Hn; intros [= <-]; constructor; cbn; pc_cases.
  - pose proof (Hc _ Hi) as Hn; destruct Hd as [[_ Hmade] | [? _]]; [|congruence].
    rewrite Hmade; intros [= <-]; constructor; cbn; pc_cases.
    all: exfalso; match goal with H : _ <> _ |- _ => apply H; eapply Hown; [auto | eassumption | auto] end.
  - pose proof (Hr _ _ Hi (or_introl eq_refl)) as Hs; intros [= <-]; constructor; cbn; pc_cases.
    all: exfalso; match goal with H : _ <> _ |- _ => apply H; eapply Hown; [auto | eassumption | auto] end.
  - pose proof (Hr _ _ Hi (or_intror (or_introl eq_refl))) as Hs; intros [= <-]; constructor; cbn; pc_cases.
Qed.

(** Whatever the order of turns, every thread that returns gets the one instance. *)
Lemma singleton_once n l i p :
  pcs (run l (start n)) !! i = Some (Done p) -> p = Some 0%nat /\ made (run l (start n)) = 1%nat.
Proof.
  intros Hi; assert (Hinv : Inv (run l (start n))).
  { clear Hi; pose proof (singleton_start_Inv n) as H; revert H; generalize (start n); induction l as [|j l IH]; intros s Hs; [done|]; cbn.
    apply IH; destruct (step j s) as [s'|] eqn:Hst; [by eapply step_Inv | done]. }
  split; [by eapply inv_ptr|].
  pose proof (inv_done _ Hinv _ _ Hi (or_intror (or_intror (ex_intro _ p eq_refl)))).
  destruct (inv_made _ Hinv) as [[? _] | [_ ?]]; [congruence | done].
Qed.

(** The first test reads the pointer without the lock under which it is written. *)
Inductive cell : Type := InstanceCell.
#[export] Instance cell_eq_dec : EqDecision cell.
Proof. solve_decision. Defined.
Definition Instance_code : cmd (lock := unit) (field := cell) :=
  Seq (Read InstanceCell)
    (Seq (Choice Skip (Hold WR tt (Seq (Read InstanceCell) (Choice Skip (Write InstanceCell))))) (Read InstanceCell)).

Lemma singleton_race :
  exists S, rtc LockOrder.step (initial (fun _ => ReadWriteLock.PREFER_READER) [Instance_code; Instance_code]) S /\ race InstanceCell S.
Proof.
  eexists; split.
  - unfold initial, Instance_code; cbn [fmap list_fmap].
    adv 0%nat @ts_seq. adv 0%nat @ts_read. adv 0%nat @ts_seq. adv 0%nat @ts_right. adv 0%nat @ts_enter. adv 0%nat @ts_seq.
    adv 0%nat @ts_read. adv 0%nat @ts_right. adv 1%nat @ts_seq. apply rtc_refl.
  - exists 0%nat, 1%nat; eexists _, _, false; split; [done|]; split; [reflexivity|]; split; [reflexivity|].
    split; by eexists.
Qed.
End Singleton.

(** [MonitorStatus::Instance] has no lock at all. *)
Module MonitorInstance.
Inductive pc : Type := Test | Create | Return | Done (p : option obj).
Record state : Type := mkState { instance_ : option obj; made : nat; pcs : list pc }.
Definition step (i : nat) (s : state) : state :=
  match pcs s !! i with
  | Some Test => mkState (instance_ s) (made s) (<[i := if decide (instance_ s = None) then Create else Return]> (pcs s))
  | Some Create => mkState (Some (made s)) (S (made s)) (<[i := Return]> (pcs s))
  | Some Return => mkState (instance_ s) (made s) (<[i := Done (instance_ s)]> (pcs s))
  | _ => s
  end.
Definition run (l : list nat) (s : state) : state := foldl (fun s i => step i s) s l.
Definition SetGlobalInstance (p : option obj) (s : state) : state := mkState p (made s) (pcs s).

Lemma two_instances :
  pcs (run [0; 1; 0; 0; 1; 1] (mkState None 0 [Test; Test])) = [Done (Some 0); Done (Some 1)].
Proof. reflexivity. Qed.

(** One thread, or one call before the others, gets the same object as all later calls. *)
Lemma one_instance p n l i q :
  pcs (run l (mkState (Some p) n (repeat Test i))) !! q = Some (Done (Some p)) \/
  forall r, pcs (run l (mkState (Some p) n (repeat Test i))) !! q <> Some (Done r).
Proof.
  assert (H : forall s, instance_ s = Some p -> (forall j, pcs s !! j <> Some Create) ->
    (forall j r, pcs s !! j = Some (Done r) -> r = Some p) ->
    forall j r, pcs (run l s) !! j = Some (Done r) -> r = Some p).
  { induction l as [|j l IH]; intros s Hs Hc Hd; [done|]; cbn [run foldl]; apply IH; unfold step; destruct (pcs s !! j) as [[| | |]|] eqn:Hj; cbn; try done.
    - by destruct (Hc j).
    - rewrite decide_False by congruence; intros k [(_ & ? & _) | [_ Hk]]%list_lookup_insert_Some; [done | by eapply Hc].
    - by destruct (Hc j).
    - intros k [(_ & ? & _) | [_ Hk]]%list_lookup_insert_Some; [done | by eapply Hc].
    - rewrite decide_False by congruence; intros k r [(_ & ? & _) | [_ Hk]]%list_lookup_insert_Some; [done | eauto].
    - by destruct (Hc j).
    - intros k r [(_ & [= <-] & _) | [_ Hk]]%list_lookup_insert_Some; [done | eauto]. }
  assert (Ht : forall j x, repeat Test i !! j = Some x -> x = Test).
  { intros j x Hx; by apply list_elem_of_lookup_2, list_elem_of_In, repeat_spec in Hx. }
  specialize (H (mkState (Some p) n (repeat Test i)) eq_refl (fun j Hj => ltac:(apply Ht in Hj; done)) (fun j r Hj => ltac:(apply Ht in Hj; done))).
  set (s := run l _) in *; destruct (pcs s !! q) as [[| | |r]|] eqn:Hq; try (by right).
  left; by rewrite (H q r Hq).
Qed.
End MonitorInstance.

(** ** The pool of string streams: string_utils.cc and string_utils.h *)

Module StringStreamPool.

Definition bytes : Type := list Z.

(** A stream, as far as the code uses it: its text, whether its state is good, and the
    precision that [std::setprecision] left. *)
Record stringstream : Type := mkStream { text : bytes; good : bool; precision : nat }.
Definition new_stream : stringstream := mkStream [] true 6.

Definition POOL_SIZE : nat := 31.

(** [sPool], and the streams by address. *)
Record state : Type := mkState { sPool : list (list obj); streams : list stringstream }.
Definition start : state := mkState (repeat [] POOL_SIZE) [].

Definition offset (self : nat) : nat := self mod POOL_SIZE.
#[global] Arguments offset : simpl never.
Definition pool_of (self : nat) (s : state) : list obj := default [] (sPool s !! offset self).

(** [StringUtils::getStringStream]: the back of the thread's pool, or a new stream. *)
Definition getStringStream (self : nat) (s : state) : obj * state :=
  let v := pool_of self s in
  match v !! pred (length v) with
  | Some o => (o, mkState (<[offset self := take (pred (length v)) v]> (sPool s)) (streams s))
  | None => (length (streams s), mkState (sPool s) (streams s ++ [new_stream]))
  end.
(** [StringUtils::putStringStream] clears the state bits of the stream only. *)
Definition putStringStream (self : nat) (o : obj) (s : state) : state :=
  mkState (<[offset self := pool_of self s ++ [o]]> (sPool s))
    (alter (fun x => mkStream (text x) true (precision x)) o (streams s)).

(** [StringStreamWrapper]: the constructor sets the text. *)
Definition Wrapper (self : nat) (str : bytes) (s : state) : obj * state :=
  let '(o, s) := getStringStream self s in
  (o, mkState (sPool s) (alter (fun x => mkStream str (good x) (precision x)) o (streams s))).
Definition Wrapper_leave (self : nat) (o : obj) (s : state) : state := putStringStream self o s.

(** Writing at a stream: [w] is what an insertion or an extraction does to it. *)
Definition on_stream (o : obj) (w : stringstream -> stringstream) (s : state) : state :=
  mkState (sPool s) (alter w o (streams s)).

Section ToString.
Context {F : Type} (format : nat -> F -> bytes).

(** [toString<T>] writes with the precision that the stream has; the versions for float and
    double set it first. *)
Definition insert_value (x : F) (st : stringstream) : stringstream :=
  mkStream (text st ++ format (precision st) x) (good st) (precision st).
Definition setprecision (p : nat) (st : stringstream) : stringstream := mkStream (text st) (good st) p.
Definition result (o : obj) (s : state) : bytes := match streams s !! o with Some st => text st | None => [] end.

Definition toString (self : nat) (x : F) (s : state) : bytes * state :=
  let '(o, s) := Wrapper self [] s in
  let s := on_stream o (insert_value x) s in
  (result o s, Wrapper_leave self o s).
Definition toString_precision (self : nat) (p : nat) (x : F) (s : state) : bytes * state :=
  let '(o, s) := Wrapper self [] s in
  let s := on_stream o (insert_value x) (on_stream o (setprecision p) s) in
  (result o s, Wrapper_leave self o s).
Definition toString_float (self : nat) (x : F) (s : state) : bytes * state := toString_precision self 6 x s.
Definition toString_double (self : nat) (x : F) (s : state) : bytes * state := toString_precision self 15 x s.

(** Every stream in a pool exists and is good. *)
Definition Inv (s : state) : Prop :=
  length (sPool s) = POOL_SIZE /\
  forall k v o, sPool s !! k = Some v -> o ∈ v -> exists st, streams s !! o = Some st /\ good st = true.

Lemma streams_start_Inv : Inv start.
Proof.
  split; [done|]; intros k v o Hk; unfold start in Hk; cbn [sPool] in Hk; apply list_elem_of_lookup_2, list_elem_of_In, repeat_spec in Hk as ->.
  by intros ?%elem_of_nil.
Qed.

Lemma offset_lt self : (offset self < POOL_SIZE)%nat.
Proof. unfold offset, POOL_SIZE; apply Nat.mod_upper_bound; lia. Qed.

(** A wrapper starts on a good stream with exactly its text. *)
Lemma Wrapper_spec self str s :
  Inv s -> exists st, streams (Wrapper self str s).2 !! (Wrapper self str s).1 = Some st /\ good st = true /\ text st = str /\
    length (sPool (Wrapper self str s).2) = POOL_SIZE /\
    (forall k v o, sPool (Wrapper self str s).2 !! k = Some v -> o ∈ v -> exists st, streams (Wrapper self str s).2 !! o = Some st /\ good st = true).
Proof.
  intros [Hlen Hg]; unfold Wrapper, getStringStream.
  assert (Halter : forall (l : list stringstream) o x, (exists st, l !! x = Some st /\ good st = true) ->
    exists st, alter (fun y => mkStream str (good y) (precision y)) o l !! x = Some st /\ good st = true).
  { intros l o x (st & Hx & Hgd); destruct (decide (o = x)) as [->|]; [rewrite list_lookup_alter_eq, Hx; by eexists | rewrite list_lookup_alter_ne by done; eauto]. }
  unfold pool_of; destruct (sPool s !! offset self) as [v|] eqn:Hv; cbn.
  2: { apply lookup_ge_None in Hv; pose proof (offset_lt self); lia. }
  destruct (v !! pred (length v)) as [o|] eqn:Ho; cbn.
  - destruct (Hg _ _ _ Hv (list_elem_of_lookup_2 _ _ _ Ho)) as (st & Hst & Hgd).
    eexists; rewrite list_lookup_alter_eq, Hst; split; [done|]; split; [done|]; split; [done|]; rewrite length_insert; split; [done|].
    intros k v' o' Hk Hin; apply Halter; apply list_lookup_insert_Some in Hk as [(<- & <- & _) | [_ Hk]]; [|eauto].
    eapply Hg; [exact Hv|]; rewrite <- (take_drop (pred (length v)) v); apply elem_of_app; by left.
  - eexists; rewrite list_lookup_alter_eq, lookup_app_r, Nat.sub_diag by lia; cbn; split; [done|]; split; [done|]; split; [done|]; split; [done|].
    intros k v' o' Hk Hin; apply Halter; destruct (Hg _ _ _ Hk Hin) as (st & Hst & Hgd); exists st; split; [|done].
    rewrite lookup_app_l; [done | by eapply lookup_lt_Some].
Qed.

Lemma put_Inv self o st s :
  length (sPool s) = POOL_SIZE -> streams s !! o = Some st ->
  (forall k v o', sPool s !! k = Some v -> o' ∈ v -> exists st, streams s !! o' = Some st /\ good st = true) ->
  Inv (putStringStream self o s).
Proof.
  intros Hlen Ho Hg; unfold Inv, putStringStream; cbn [sPool streams]; rewrite length_insert; split; [done|].
  assert (Hput : forall x, (x = o \/ exists st, streams s !! x = Some st /\ good st = true) ->
    exists st, alter (fun y => mkStream (text y) true (precision y)) o (streams s) !! x = Some st /\ good st = true).
  { intros x Hx; destruct (decide (o = x)) as [->|Hne]; [rewrite list_lookup_alter_eq, Ho; by eexists|].
    rewrite list_lookup_alter_ne by done; destruct Hx as [-> | ?]; done. }
  intros k v x Hk Hx; apply Hput; apply list_lookup_insert_Some in Hk as [(<- & <- & _) | [_ Hk]]; [|right; eauto].
  apply elem_of_app in Hx as [Hx | Hx%list_elem_of_singleton]; [right | by left].
  unfold pool_of in Hx; destruct (sPool s !! offset self) as [v0|] eqn:Hv; [eauto | by apply elem_of_nil in Hx].
Qed.

(** With a precision of its own the result does not depend on the history of the pool. *)
Lemma toString_precision_spec self p x s :
  Inv s -> (toString_precision self p x s).1 = format p x /\ Inv (toString_precision self p x s).2.
Proof.
  intros Hs; destruct (Wrapper_spec self [] s Hs) as (st & Hst & Hgood & Htext & Hlen & Hg).
  unfold toString_precision; destruct (Wrapper self [] s) as [o s1]; cbn [fst snd] in *.
  unfold result, on_stream; cbn [streams sPool]; rewrite !list_lookup_alter_eq, Hst; cbn; rewrite Htext; split; [done|].
  eapply put_Inv; cbn [streams sPool]; [done | by rewrite !list_lookup_alter_eq, Hst|].
  intros k v o' Hk Hin; destruct (Hg _ _ _ Hk Hin) as (st' & Hst' & Hg').
  destruct (decide (o = o')) as [<-|]; [|rewrite !list_lookup_alter_ne by done; eauto].
  rewrite !list_lookup_alter_eq, Hst; cbn; eauto.
Qed.

(** Without, it depends on what was printed before. *)
Lemma precision_stays x y :
  (toString 0 y start).1 = format 6 y /\ (toString 0 y (toString_double 0 x start).2).1 = format 15 y.
Proof. done. Qed.
End ToString.
End StringStreamPool.
