(* ===== verification/Logs.v ===== *)
(** * Logging and exceptions: src/orc/util/log.cc, src/common/logging.cc, logging.h,
    exception.cc and exception.h

    The writer of src/orc formats a line into a buffer of a length that is configured and
    writes it with one call; the one of src/common collects a line in a stream and prints it
    into a buffered file when the message is destroyed.  Formatted arguments are texts. *)
From Stdlib Require Import ZArith Lia.
From stdpp Require Import base list option.
From S2P Require Import Prelude Words Memory Strings.

Local Open Scope Z_scope.

(** ** Formatting *)

(** [%0wd]: a number that is not negative, with zeros in front. *)
Definition padded (w : nat) (x : Z) : bytes := repeat 48 (w - length (decimal x)) ++ decimal x.

(** [snprintf] of a text at a place of the buffer, with room for [n] bytes: it stores what fits
    with a zero byte at the end, and returns the length of the text, [-1] when it cannot be
    formatted ([None]) or is too long for an [int]. *)
Definition INT_MAX : Z := 2147483647.
Definition snprintf_at (off n : nat) (text : option bytes) (buf : bytes) : option (Z * bytes) :=
  match text with
  | None => Some (-1, buf)
  | Some text =>
      let ret := if Z.of_nat (length text) <=? INT_MAX then Z.of_nat (length text) else -1 in
      match n with
      | O => Some (ret, buf)
      | S n => buf ← write_at off (take n text ++ [0]) buf; Some (ret, buf)
      end
  end.

(** ** src/orc/util/log.cc *)

Module OrcLog.

(** [enum class LogLevel], in its order. *)
Inductive LogLevel : Type := Fatal | Error | Warn | Info | Debug.
Definition level_value (l : LogLevel) : Z :=
  match l with Fatal => 0 | Error => 1 | Warn => 2 | Info => 3 | Debug => 4 end.

Definition ToString (l : LogLevel) : bytes :=
  match l with
  | Fatal => bytes_of "FATAL" | Error => bytes_of "ERROR" | Warn => bytes_of "WARN"
  | Info => bytes_of "INFO" | Debug => bytes_of "DEBUG"
  end.
Definition ToLogLevel (s : bytes) : LogLevel :=
  if same s (bytes_of "fatal") || same s (bytes_of "FATAL") then Fatal
  else if same s (bytes_of "error") || same s (bytes_of "ERROR") then Error
  else if same s (bytes_of "warn") || same s (bytes_of "WARN") then Warn
  else if same s (bytes_of "info") || same s (bytes_of "INFO") then Info
  else if same s (bytes_of "debug") || same s (bytes_of "DEBUG") then Debug
  else Info.

(** The fields of [struct tm], with the microseconds. *)
Record moment : Type := mkMoment { tm_year : Z; tm_mon : Z; tm_mday : Z; tm_hour : Z; tm_min : Z; tm_sec : Z; tv_usec : Z }.
Record source : Type := mkSource { file : bytes; line : Z; func : bytes }.

Definition header (t : moment) (level : LogLevel) (tid : Z) (at_ : source) : bytes :=
  bytes_of "[" ++ padded 4 (tm_year t + 1900) ++ bytes_of "-" ++ padded 2 (tm_mon t + 1) ++ bytes_of "-" ++ padded 2 (tm_mday t)
  ++ bytes_of " " ++ padded 2 (tm_hour t) ++ bytes_of ":" ++ padded 2 (tm_min t) ++ bytes_of ":" ++ padded 2 (tm_sec t)
  ++ bytes_of "." ++ padded 3 (tv_usec t ÷ 1000) ++ bytes_of "] [" ++ ToString level ++ bytes_of "] [" ++ decimal tid
  ++ bytes_of "] [" ++ file at_ ++ bytes_of ":" ++ decimal (line at_) ++ bytes_of " " ++ func at_ ++ bytes_of "] ".

(** [DefaultLogWriter]: what is written to the descriptor 2, or [None] for a store outside of
    the buffer.  [fresh] is the content of the new buffer, [msg] the formatted message. *)
Definition finish_full (size : nat) (buf : bytes) : option bytes :=
  match size with
  | O => None
  | S n => poke n 10 buf
  end.
Definition DefaultLogWriter (fresh : bytes) (head : bytes) (msg : option bytes) : option bytes :=
  let size := length fresh in
  '(len, buf) ← snprintf_at 0 size (Some head) fresh;
  if (swrap 32 (Z.of_nat size) <=? len) || (len <? 0) then finish_full size buf
  else
    let len := Z.to_nat len in
    '(len2, buf) ← snprintf_at len (size - len) msg buf;
    if (swrap 32 (Z.of_nat (size - len)) <=? len2) || (len2 <? 0) then finish_full size buf
    else
      buf ← poke (len + Z.to_nat len2) 10 buf;
      Some (take (len + Z.to_nat len2 + 1) buf).

(** The globals, and a line of the log: the macros compare the levels first. *)
Record state : Type := mkState { g_log_level : LogLevel; g_log_max_length : Z }.
Definition initial : state := mkState Info 4096.
Definition SetLogLevel (l : LogLevel) (s : state) : state := mkState l (g_log_max_length s).
Definition SetLogLevelName (l : bytes) (s : state) : state := SetLogLevel (ToLogLevel l) s.
Definition GetLogLevel (s : state) : LogLevel := g_log_level s.
Definition SetLogMaxLength (n : Z) (s : state) : state := mkState (g_log_level s) (n mod 2 ^ 32).
Definition GetLogMaxLength (s : state) : Z := g_log_max_length s.

(** [ORC_LOG_COMMON] with the default writer; [junk] is what a new buffer of a length holds. *)
Definition Log (junk : nat -> bytes) (t : moment) (tid : Z) (level : LogLevel) (at_ : source) (msg : option bytes) (s : state) : option bytes :=
  DefaultLogWriter (junk (Z.to_nat (g_log_max_length s))) (header t level tid at_) msg.
Definition ORC_LOG_COMMON (junk : nat -> bytes) (t : moment) (tid : Z) (level : LogLevel) (at_ : source) (msg : option bytes) (s : state) : option bytes :=
  if level_value level <=? level_value (GetLogLevel s) then Log junk t tid level at_ msg s else Some [].

(** Names of levels read back, in both cases; another name is [Info]. *)
Lemma ToLogLevel_ToString l : ToLogLevel (ToString l) = l.
Proof. by destruct l. Qed.
Lemma ToLogLevel_other s :
  s ∉ bytes_of <$> ["fatal"; "FATAL"; "error"; "ERROR"; "warn"; "WARN"; "debug"; "DEBUG"]%string -> ToLogLevel s = Info.
Proof.
  intros Hs; unfold ToLogLevel, same.
  repeat (case_bool_decide; cbn [orb]; [try done; exfalso; subst s; apply Hs, list_elem_of_In; cbn; tauto|]); done.
Qed.

(** A text that fits is stored with its zero byte. *)
Lemma snprintf_at_Some off n text buf :
  (off + n <= length buf)%nat -> (0 < n)%nat -> Z.of_nat (length text) <= INT_MAX ->
  snprintf_at off n (Some text) buf =
    Some (Z.of_nat (length text), take off buf ++ (take (n - 1) text ++ [0]) ++ drop (off + length (take (n - 1) text ++ [0])) buf).
Proof.
  intros Hb Hn Ht; unfold snprintf_at; rewrite (proj2 (Z.leb_le _ _) Ht); destruct n as [|n]; [lia|].
  replace (S n - 1)%nat with n by lia; rewrite write_at_Some; [done|].
  rewrite length_app, length_take; cbn; lia.
Qed.

Lemma swrap_small n : 0 <= n <= INT_MAX -> swrap 32 n = n.
Proof. intros Hn; unfold swrap; change (2 ^ (32 - 1)) with 2147483648; change (2 ^ 32) with 4294967296; unfold INT_MAX in Hn; rewrite Z.mod_small; lia. Qed.

(** A full buffer gets its line feed in its last byte. *)
Lemma finish_full_spec (text : bytes) rest :
  finish_full (length (text ++ 0 :: rest)) (text ++ 0 :: rest) = 
  Some (take (length text + length rest) (text ++ 0 :: rest) ++ [10]).
Proof.
  rewrite length_app; cbn [length]; rewrite Nat.add_succ_r; unfold finish_full.
  rewrite poke_Some by (rewrite length_app; cbn; lia); rewrite insert_take_drop by (rewrite length_app; cbn; lia).
  rewrite drop_ge; [done | rewrite length_app; cbn; lia].
Qed.

Lemma DefaultLogWriter_line fresh head msg :
  (0 < length fresh)%nat -> Z.of_nat (length fresh) <= INT_MAX -> Z.of_nat (length head) <= INT_MAX ->
  Z.of_nat (length msg) <= INT_MAX ->
  DefaultLogWriter fresh head (Some msg) = Some (take (length fresh - 1) (head ++ msg) ++ [10]).
Proof.
  intros H0 Hf Hh Hm; unfold DefaultLogWriter; set (size := length fresh) in *.
  rewrite snprintf_at_Some by (done || lia); cbn [mbind option_bind]; rewrite swrap_small by lia; rewrite take_0; cbn [app].
  rewrite (proj2 (Z.ltb_ge (Z.of_nat (length head)) 0)), orb_false_r by lia.
  destruct (Z.leb_spec (Z.of_nat size) (Z.of_nat (length head))) as [Hfull|Hroom].
  - assert (Ht : length (take (size - 1) head ++ [0]) = size) by (rewrite length_app, length_take; cbn; lia).
    rewrite Ht, drop_ge, app_nil_r by (unfold size; lia).
    rewrite <- Ht at 1; rewrite finish_full_spec; cbn [length]; rewrite Nat.add_0_r, take_app_length.
    by rewrite take_app_le by lia.
  - rewrite Nat2Z.id; rewrite (take_ge head (size - 1)) by lia; set (len := length head) in *.
    assert (Hl : length (head ++ [0]) = S len) by (rewrite length_app; cbn; unfold len; lia).
    rewrite Hl; set (buf := (head ++ [0]) ++ drop (0 + S len) fresh).
    assert (Hb : length buf = size) by (unfold buf; rewrite length_app, Hl, length_drop; unfold size in *; lia).
    assert (Htake : take len buf = head).
    { unfold buf; rewrite <- app_assoc; apply take_app_length. }
    rewrite snprintf_at_Some by (done || lia); cbn [mbind option_bind]; rewrite Htake.
    rewrite swrap_small by lia; rewrite (proj2 (Z.ltb_ge (Z.of_nat (length msg)) 0)), orb_false_r by lia.
    destruct (Z.leb_spec (Z.of_nat (size - len)) (Z.of_nat (length msg))) as [Hfull|Hroom2].
    + assert (Ht : length (take (size - len - 1) msg ++ [0]) = (size - len)%nat) by (rewrite length_app, length_take; cbn; lia).
      rewrite Ht, drop_ge, app_nil_r, app_assoc by lia.
      assert (Ht2 : length ((head ++ take (size - len - 1) msg) ++ [0]) = size).
      { rewrite <- app_assoc, length_app, Ht; fold len; lia. }
      rewrite <- Ht2 at 1; rewrite finish_full_spec; cbn [length]; rewrite Nat.add_0_r, take_app_length.
      rewrite take_app_ge by (fold len; lia); fold len; by replace (size - 1 - len)%nat with (size - len - 1)%nat by lia.
    + rewrite Nat2Z.id, (take_ge msg) by lia.
      set (rest := drop _ buf); rewrite poke_Some.
      2: { rewrite !length_app; cbn; fold len; lia. }
      cbn [mbind option_bind]; f_equal; rewrite insert_take_drop by (rewrite !length_app; cbn; fold len; lia).
      rewrite <- app_assoc, (app_assoc head msg); cbn [app].
      assert (Hhm : length (head ++ msg) = (len + length msg)%nat) by (rewrite length_app; fold len; lia).
      rewrite <- Hhm, take_app_length, (take_ge (head ++ msg) (size - 1)) by (rewrite ?Hhm; lia).
      rewrite take_app_ge by lia; replace (_ - _)%nat with 1%nat by lia; done.
Qed.

(** A line of a level that is on is the header and the message, cut to the configured length,
    and a line feed; a line of another level is not written. *)
Lemma ORC_LOG_COMMON_spec junk t tid level at_ msg s :
  (forall n, length (junk n) = n) -> 0 < g_log_max_length s <= INT_MAX ->
  Z.of_nat (length (header t level tid at_)) <= INT_MAX -> Z.of_nat (length msg) <= INT_MAX ->
  ORC_LOG_COMMON junk t tid level at_ (Some msg) s =
    Some (if level_value level <=? level_value (g_log_level s)
          then take (Z.to_nat (g_log_max_length s) - 1) (header t level tid at_ ++ msg) ++ [10] else []).
Proof.
  intros Hj Hs Hh Hm; unfold ORC_LOG_COMMON, GetLogLevel, Log; destruct (_ <=? _); [|done].
  rewrite DefaultLogWriter_line; rewrite ?Hj; [done | lia | lia | done | done].
Qed.

(** A configured length of zero stores before the buffer. *)
Lemma zero_length_stores_outside head msg :
  Z.of_nat (length head) <= INT_MAX -> DefaultLogWriter [] head msg = None.
Proof.
  intros Hh; unfold DefaultLogWriter, snprintf_at; cbn; rewrite (proj2 (Z.leb_le _ _) Hh).
  by rewrite (proj2 (Z.leb_le 0 _)) by lia.
Qed.

(** When the message cannot be formatted the rest of the fresh buffer is written out. *)
Lemma failed_format_writes_garbage :
  DefaultLogWriter [7; 7; 7; 7; 7; 7] (bytes_of "a") None = Some [97; 0; 7; 7; 7; 10].
Proof. reflexivity. Qed.
End OrcLog.

(** ** src/common/logging.cc *)

Module CommonLog.

(** [enum LogLevel] and the names. *)
Inductive LogLevel : Type := kLogDebug | kLogInfo | kLogWarn | kLogError | kLogFatal.
Definition level_value (l : LogLevel) : Z :=
  match l with kLogDebug => 0 | kLogInfo => 1 | kLogWarn => 2 | kLogError => 3 | kLogFatal => 4 end.
Definition kLogLevelString (l : LogLevel) : bytes :=
  match l with
  | kLogDebug => bytes_of "[DEBUG]" | kLogInfo => bytes_of "[INFO]" | kLogWarn => bytes_of "[WARN]"
  | kLogError => bytes_of "[ERROR]" | kLogFatal => bytes_of "[FATAL]"
  end.
Definition kBufferSize : nat := 4096.

(** The file of the log: what reached it, and what its stream still buffers.  The process may
    have been ended. *)
Record state : Type := mkState { g_log_level : LogLevel; written : bytes; buffered : bytes; aborted : bool }.
Definition initial : state := mkState kLogInfo [] [] false.

(** [InitLogging]: [opened] is whether [rtp.log] can be opened. *)
Definition InitLogging (opened : bool) (level : LogLevel) (s : state) : state :=
  if opened then mkState level [] [] false else mkState (g_log_level s) (written s) (buffered s) true.

Definition fprintf (text : bytes) (s : state) : state := mkState (g_log_level s) (written s) (buffered s ++ text) (aborted s).
Definition fflush (s : state) : state := mkState (g_log_level s) (written s ++ buffered s) [] (aborted s).
(** [abort] ends the process without writing the buffers of its streams.  A message is taken to
    be shorter than such a buffer. *)
Definition abort (s : state) : state := mkState (g_log_level s) (written s) (buffered s) true.

(** [DateLogger::HumanDate], cut to its buffer of 32 bytes. *)
Definition HumanDate (t : OrcLog.moment) : bytes :=
  take 31 (padded 4 (1900 + OrcLog.tm_year t) ++ bytes_of "-" ++ padded 2 (1 + OrcLog.tm_mon t) ++ bytes_of "-" ++ padded 2 (OrcLog.tm_mday t)
    ++ bytes_of " " ++ padded 2 (OrcLog.tm_hour t) ++ bytes_of ":" ++ padded 2 (OrcLog.tm_min t) ++ bytes_of ":" ++ padded 2 (OrcLog.tm_sec t)).
Definition FileName (filepath : bytes) : bytes := filepath.

(** [LogMessage]: its level and its stream. *)
Record LogMessage : Type := mkMessage { log_level_ : LogLevel; log_stream_ : bytes }.
Definition new_LogMessage (t : OrcLog.moment) (file : bytes) (line : Z) (level : LogLevel) : LogMessage :=
  mkMessage level (bytes_of "[" ++ HumanDate t ++ bytes_of "] [" ++ FileName file ++ bytes_of ":" ++ decimal line ++ bytes_of "] ").
Definition stream (text : bytes) (m : LogMessage) : LogMessage := mkMessage (log_level_ m) (log_stream_ m ++ text).
Definition RawLog (text : bytes) (m : LogMessage) : LogMessage := stream (take (kBufferSize - 1) text) m.

Definition LogMessage_destroy (m : LogMessage) (s : state) : state :=
  if level_value (g_log_level s) <=? level_value (log_level_ m) then
    fflush (fprintf (bytes_of " " ++ log_stream_ m ++ [10]) (fprintf (kLogLevelString (log_level_ m)) s))
  else s.
Definition LogMessageFatal_destroy (m : LogMessage) (s : state) : state :=
  abort (fprintf (bytes_of " " ++ log_stream_ m ++ [10]) (fprintf (kLogLevelString (log_level_ m)) s)).

(** [CHECK]: a failed condition is a fatal message. *)
Definition CHECK (x : bool) (t : OrcLog.moment) (file : bytes) (line : Z) (cond text : bytes) (s : state) : state :=
  if x then s
  else LogMessageFatal_destroy
         (stream text (stream (bytes_of "Check " ++ bytes_of " failed: " ++ cond ++ [32]) (new_LogMessage t file line kLogFatal))) s.

Definition line_of (m : LogMessage) : bytes := kLogLevelString (log_level_ m) ++ bytes_of " " ++ log_stream_ m ++ [10].

(** The file holds the lines of the messages whose level is on, in their order. *)
Lemma log_file ms : forall s,
  buffered s = [] ->
  written (foldl (fun s m => LogMessage_destroy m s) s ms) =
    written s ++ concat (line_of <$> filter (fun m => level_value (g_log_level s) <= level_value (log_level_ m)) ms) /\
  buffered (foldl (fun s m => LogMessage_destroy m s) s ms) = [].
Proof.
  induction ms as [|m ms IH]; intros s Hb; cbn [foldl]; [by rewrite app_nil_r|].
  unfold LogMessage_destroy at 2 4; destruct (Z.leb_spec (level_value (g_log_level s)) (level_value (log_level_ m))) as [Hon|Hoff].
  - destruct (IH (fflush (fprintf (bytes_of " " ++ log_stream_ m ++ [10]) (fprintf (kLogLevelString (log_level_ m)) s)))) as [-> ->]; [done|].
    rewrite filter_cons_True by done; cbn [fflush fprintf written buffered g_log_level fmap list_fmap concat]; rewrite Hb.
    unfold line_of; rewrite <- !app_assoc; cbn [app]; split; [by rewrite <- ?app_assoc | done].
  - rewrite filter_cons_False by lia; by apply IH.
Qed.

(** A fatal message stays in the buffer of a process that is gone: it never reaches the file. *)
Lemma fatal_message_lost m s :
  written (LogMessageFatal_destroy m s) = written s /\ aborted (LogMessageFatal_destroy m s) = true.
Proof. done. Qed.

Lemma CHECK_lost t file line cond text s :
  written (CHECK false t file line cond text s) = written s /\ aborted (CHECK false t file line cond text s) = true.
Proof. done. Qed.
End CommonLog.

(** ** src/common/exception.cc *)

Module Exception.

(** [StripBasename]: the part after the last slash. *)
Fixpoint rfind (c : Z) (s : bytes) (i : nat) (found : option nat) : option nat :=
  match s with [] => found | x :: s => rfind c s (S i) (if x =? c then Some i else found) end.
Definition StripBasename (full_path : bytes) : bytes :=
  match rfind 47 full_path 0 None with
  | Some pos => drop (pos + 1) full_path
  | None => full_path
  end.

(** [MakeString] prints its arguments one after the other. *)
Definition MakeString (args : list bytes) : bytes := concat args.

Record Exception : Type := mkException { msg_stack_ : list bytes; full_msg_ : bytes; stack_trace_ : bytes; caller_ : option nat }.
Definition msg_of (stack : list bytes) (trace : bytes) : bytes := foldl (++) [] stack ++ trace.
Definition msg (e : Exception) : bytes := msg_of (msg_stack_ e) (stack_trace_ e).
Definition new_Exception (file : bytes) (line : Z) (condition text : bytes) (caller : option nat) (FetchStackTrace : bytes) : Exception :=
  let stack := [MakeString [bytes_of "[failed at "; StripBasename file; bytes_of ":"; decimal line; bytes_of "]"; condition; bytes_of ". "; text; bytes_of " "]] in
  mkException stack (msg_of stack FetchStackTrace) FetchStackTrace caller.
Definition AppendMessage (text : bytes) (e : Exception) : Exception :=
  let stack := msg_stack_ e ++ [text] in
  mkException stack (msg_of stack (stack_trace_ e)) (stack_trace_ e) (caller_ e).
Definition what (e : Exception) : bytes := full_msg_ e.
Definition caller (e : Exception) : option nat := caller_ e.

Lemma rfind_spec c s : forall i found,
  match rfind c s i found with
  | Some k => (found = Some k /\ c ∉ s) \/ exists u v, s = u ++ c :: v /\ k = (i + length u)%nat /\ c ∉ v
  | None => found = None /\ c ∉ s
  end.
Proof.
  induction s as [|x s IH]; intros i found; cbn [rfind]; [destruct found; [left|]; split; try done; apply not_elem_of_nil|].
  specialize (IH (S i) (if x =? c then Some i else found)); destruct (rfind _ _ _ _) as [k|].
  - destruct IH as [[Hk Hc] | (u & v & -> & -> & Hv)]; [|right; exists (x :: u), v; split; [done|]; split; [cbn; lia | done]].
    destruct (Z.eqb_spec x c) as [->|Hx]; [injection Hk as <-; right; exists [], s; split; [done|]; split; [cbn; lia | done]|].
    left; split; [done | rewrite not_elem_of_cons; done].
  - destruct IH as [Hk Hc]; destruct (Z.eqb_spec x c); [done|]; split; [done | rewrite not_elem_of_cons; done].
Qed.

(** The name has no slash, and the path is the name behind a directory or the name itself. *)
Lemma StripBasename_spec p :
  47 ∉ StripBasename p /\ (p = StripBasename p \/ exists dir, p = dir ++ 47 :: StripBasename p).
Proof.
  unfold StripBasename; pose proof (rfind_spec 47 p 0 None) as H; destruct (rfind _ _ _ _) as [k|].
  - destruct H as [[? _] | (u & v & -> & -> & Hv)]; [done|].
    assert (drop (0 + length u + 1) (u ++ 47 :: v) = v) as ->.
    { rewrite drop_app_ge by lia; by replace (0 + length u + 1 - length u)%nat with 1%nat by lia. }
    split; [done | right; by exists u].
  - destruct H as [_ H]; split; [done | by left].
Qed.

(** The text of an exception is all its messages in the order in which they were appended. *)
Lemma what_appended file line condition text caller trace texts :
  what (foldl (fun e x => AppendMessage x e) (new_Exception file line condition text caller trace) texts) =
    bytes_of "[failed at " ++ StripBasename file ++ bytes_of ":" ++ decimal line ++ bytes_of "]" ++ condition ++ bytes_of ". " ++ text ++ bytes_of " "
    ++ concat texts ++ trace.
Proof.
  assert (Hfold : forall (l : list bytes) acc, foldl (++) acc l = acc ++ concat l).
  { induction l as [|x l IH]; intros acc; cbn; [by rewrite app_nil_r | by rewrite IH, <- app_assoc]. }
  assert (H : forall e, full_msg_ e = msg_of (msg_stack_ e) (stack_trace_ e) ->
    full_msg_ (foldl (fun e x => AppendMessage x e) e texts) = msg_of (msg_stack_ e ++ texts) (stack_trace_ e)).
  { induction texts as [|x l IH]; intros e He; cbn [foldl]; [by rewrite app_nil_r|].
    rewrite IH by done; cbn; by rewrite <- app_assoc. }
  unfold what; rewrite H by done; unfold msg_of, new_Exception, MakeString; cbn [msg_stack_ stack_trace_]; rewrite Hfold, concat_app.
  cbn [concat]; rewrite ?app_nil_r, <- ?app_assoc; cbn [app]; by rewrite <- ?app_assoc.
Qed.
End Exception.
