(* ===== verification/Host.v ===== *)
(** * Small utilities: src/orc/util/utils.cc, to_string.h and inet_util.cc,
    src/leader/net_util.cc, src/tools/compress.cc, src/common/config/proto_configure.cc

    The generator of random numbers that spreads tasks over queues, conversions to strings, the
    address and the name of the host, the tool that reverses a file, and configuration files in
    the text format of protocol buffers.  The kernel's lists of interfaces, name resolution and
    the protobuf library are arguments. *)
From Stdlib Require Import ZArith Lia.
From stdpp Require Import base list option gmap.
From S2P Require Import Prelude Words Memory Strings Locks LockOrder Pools.

Local Open Scope Z_scope.

(** ** The meta data of a thread and its random numbers *)

Definition RandomMax : Z := 2147483647.

Record ThreadMeta : Type := mkMeta { meta_init : bool; rand : Z; meta_tid : Z; meta_tid_str : bytes }.
Definition no_meta : ThreadMeta := mkMeta false 0 0 [].

(** [GetThreadMeta]: [hash] is the hash of the thread's identity, [gettid] the kernel's number. *)
Definition GetThreadMeta (hash gettid : Z) (m : ThreadMeta) : ThreadMeta :=
  if meta_init m then m
  else let tid := swrap 32 gettid in mkMeta true (hash mod RandomMax) tid (snprintf 32 tid).
Definition tid (hash gettid : Z) (m : ThreadMeta) : Z * ThreadMeta :=
  let m := GetThreadMeta hash gettid m in (meta_tid m, m).
Definition tid_str (hash gettid : Z) (m : ThreadMeta) : bytes * ThreadMeta :=
  let m := GetThreadMeta hash gettid m in (meta_tid_str m, m).

(** The product is one of 32 bits. *)
Definition next_rand (x : Z) : Z := (x * 48271) mod 2 ^ 32 mod RandomMax.
Definition Random (hash gettid : Z) (m : ThreadMeta) : Z * ThreadMeta :=
  let m := GetThreadMeta hash gettid m in
  (rand m, mkMeta (meta_init m) (next_rand (rand m)) (meta_tid m) (meta_tid_str m)).

(** The generator that the comment names. *)
Definition minstd_rand (x : Z) : Z := (x * 48271) mod RandomMax.

Definition meta_ok (m : ThreadMeta) : Prop := 0 <= rand m < RandomMax.

Lemma Random_bound hash gettid m : meta_ok m -> 0 <= (Random hash gettid m).1 < RandomMax /\ meta_ok (Random hash gettid m).2.
Proof.
  intros Hm; unfold Random, GetThreadMeta, meta_ok in *; destruct (meta_init m); cbn [fst snd rand];
    unfold next_rand; split; try done; try (apply Z.mod_pos_bound; unfold RandomMax; lia).
Qed.

(** The thread's number is asked for once. *)
Lemma GetThreadMeta_once hash gettid hash' gettid' m :
  GetThreadMeta hash' gettid' (GetThreadMeta hash gettid m) = GetThreadMeta hash gettid m.
Proof. unfold GetThreadMeta at 2 3; destruct (meta_init m) eqn:Hm; unfold GetThreadMeta; by rewrite ?Hm. Qed.

(** Small products agree with the named generator; the first state where they differ is small. *)
Lemma next_rand_small x : 0 <= x -> x * 48271 < 2 ^ 32 -> next_rand x = minstd_rand x.
Proof. intros Hx Hs; unfold next_rand, minstd_rand; rewrite (Z.mod_small (x * 48271)) by lia; done. Qed.
Lemma next_rand_differs : next_rand 88977 <> minstd_rand 88977.
Proof. by vm_compute. Qed.

(** From one state the next number is zero, and so are all that follow. *)
Lemma Random_stuck n : Nat.iter (S n) next_rand 1622613393 = 0.
Proof. induction n as [|n IH]; [by vm_compute|]; rewrite Nat.iter_succ, IH; reflexivity. Qed.

(** The numbers of a thread whose state is one repeat after 31396 calls. *)
Fixpoint iter_rand (n : nat) (x : Z) : Z := match n with O => x | S n => iter_rand n (next_rand x) end.
Lemma Random_short_cycle : iter_rand (Z.to_nat 31396) 516058694 = 516058694.
Proof. by vm_compute. Qed.

(** ** to_string.h *)

(** The macro prints into 256 bytes and reads as many bytes as the text would have had: [None]
    when that is more than there are. *)
Definition TO_STRING (text : bytes) : option bytes :=
  if (length text <=? 255)%nat then Some text else None.
Definition ToString_string (val : bytes) : bytes := val.
Definition ToString_int32 (val : Z) : option bytes := TO_STRING (decimal (swrap 32 val)).
Definition ToString_uint32 (val : Z) : option bytes := TO_STRING (decimal (val mod 2 ^ 32)).
Definition ToString_int64 (val : Z) : option bytes := TO_STRING (decimal (swrap 64 val)).
Definition ToString_uint64 (val : Z) : option bytes := TO_STRING (decimal (val mod 2 ^ 64)).
(** [%f], whose text is an argument: 309 digits and more are possible. *)
Definition ToString_float (text : bytes) : option bytes := TO_STRING text.
Definition ToString_double (text : bytes) : option bytes := TO_STRING text.

(** A container: each element is followed by the delimiter, and one byte is cut off. *)
Definition ToString_container (c : list bytes) (delimiter : bytes) : bytes :=
  let str := concat ((fun x => x ++ delimiter) <$> c) in
  match str with [] => [] | _ => take (length str - 1) str end.

Lemma ToString_container_join c d : ToString_container c [d] = join [d] c.
Proof.
  unfold ToString_container; destruct c as [|x c]; [done|].
  assert (H : forall c x, concat ((fun x => x ++ [d]) <$> (x :: c)) = join [d] (x :: c) ++ [d]).
  { clear; induction c as [|y c IH]; intros x; cbn [fmap list_fmap concat]; [cbn; by rewrite !app_nil_r|].
    specialize (IH y); cbn [fmap list_fmap concat] in IH; rewrite IH; cbn; rewrite <- !app_assoc; cbn; by rewrite <- ?app_assoc. }
  rewrite H; destruct (join [d] (x :: c) ++ [d]) as [|z l] eqn:He; [by destruct (join [d] (x :: c))|].
  rewrite <- He, length_app; cbn [length]; rewrite Nat.add_sub; apply take_app_length.
Qed.

(** With a longer delimiter its first byte stays. *)
Lemma ToString_container_residue : ToString_container [bytes_of "a"; bytes_of "b"] (bytes_of ", ") = bytes_of "a, b,".
Proof. reflexivity. Qed.

(** ** The address of the host: inet_util.cc *)

(** [getifaddrs]: for each interface its name and its address, which may be missing, with what
    [getnameinfo] makes of it. *)
Inductive family : Type := AF_INET | AF_INET6 | AF_OTHER.
#[export] Instance family_eq_dec : EqDecision family.
Proof. solve_decision. Defined.
Record ifaddrs : Type := mkIf { ifa_name : bytes; ifa_addr : option (family * option bytes) }.

Definition is_lo (name : bytes) : bool := same (take 2 name) (bytes_of "lo").
Definition wanted (ipv6 : bool) : family := if ipv6 then AF_INET6 else AF_INET.

(** [GetHostIp(ips, ipv6)]: the address of the first interface that has one.  [None] is the
    use of a null pointer. *)
Fixpoint GetHostIp_loop (ipv6 : bool) (l : list ifaddrs) (ips : list bytes) : option (bool * list bytes) :=
  match l with
  | [] => Some (false, ips)
  | i :: l =>
      '(fam, host) ← ifa_addr i;
      if decide (fam = wanted ipv6) then
        if is_lo (ifa_name i) then GetHostIp_loop ipv6 l ips
        else match host with
             | Some h => Some (true, ips ++ [h])
             | None => GetHostIp_loop ipv6 l ips
             end
      else GetHostIp_loop ipv6 l ips
  end.
Definition GetHostIp (interfaces : option (list ifaddrs)) (ipv6 : bool) (ips : list bytes) : option (bool * list bytes) :=
  match interfaces with None => Some (false, ips) | Some l => GetHostIp_loop ipv6 l ips end.

(** The static object of [GetHostIp(ipv6)] keeps the last address of either family. *)
Fixpoint Initializer_loop (l : list ifaddrs) (ip ip6 : bytes) : option (bytes * bytes) :=
  match l with
  | [] => Some (ip, ip6)
  | i :: l =>
      '(fam, host) ← ifa_addr i;
      match fam, is_lo (ifa_name i), host with
      | AF_INET, false, Some h => Initializer_loop l h ip6
      | AF_INET6, false, Some h => Initializer_loop l ip h
      | _, _, _ => Initializer_loop l ip ip6
      end
  end.
Definition Initializer (interfaces : option (list ifaddrs)) : option (bytes * bytes) :=
  match interfaces with None => Some ([], []) | Some l => Initializer_loop l [] [] end.

(** The first call runs the initializer, the others use its result. *)
Definition GetHostIp_static (interfaces : option (list ifaddrs)) (ipv6 : bool) (ini : option (bytes * bytes))
    : option (bytes * option (bytes * bytes)) :=
  r ← match ini with Some r => Some r | None => Initializer interfaces end;
  Some (if ipv6 then r.2 else r.1, Some r).

(** [GetHostName], of the same shape. *)
Definition GetHostName_static (gethostname : option bytes) (ini : option bytes) : bytes * option bytes :=
  let r := match ini with Some r => r | None => default [] gethostname end in (r, Some r).

(** The addresses that count. *)
Definition addresses (ipv6 : bool) (l : list ifaddrs) : list bytes :=
  omap (fun i => match ifa_addr i with
                 | Some (fam, Some h) => if decide (fam = wanted ipv6) then if is_lo (ifa_name i) then None else Some h else None
                 | _ => None
                 end) l.
Definition all_addressed (l : list ifaddrs) : Prop := Forall (fun i => is_Some (ifa_addr i)) l.

Lemma GetHostIp_first ipv6 l ips :
  all_addressed l ->
  GetHostIp (Some l) ipv6 ips =
    Some (match addresses ipv6 l with h :: _ => (true, ips ++ [h]) | [] => (false, ips) end).
Proof.
  unfold GetHostIp; induction 1 as [|i l [[fam host] Hi] _ IH]; [done|]; cbn; rewrite Hi; cbn.
  destruct host as [h|]; case_decide; try done; by destruct (is_lo (ifa_name i)).
Qed.

(** The last element, or what was there before. *)
Definition last_or {A} (x : A) (l : list A) : A := foldl (fun _ y => y) x l.

Lemma Initializer_last l : forall ip ip6,
  all_addressed l ->
  Initializer_loop l ip ip6 = Some (last_or ip (addresses false l), last_or ip6 (addresses true l)).
Proof.
  induction l as [|i l IH]; intros ip ip6 Hl; [done|]; apply list.Forall_cons in Hl as [[[fam host] Hi] Hl].
  cbn; rewrite Hi; cbn; destruct fam, (is_lo (ifa_name i)), host as [h|]; cbn; by apply IH.
Qed.

(** With two addresses the two functions give different ones; an interface without an address
    ends the process. *)
Lemma host_ips_differ :
  let l := [mkIf (bytes_of "eth0") (Some (AF_INET, Some (bytes_of "10.0.0.1"))); mkIf (bytes_of "eth1") (Some (AF_INET, Some (bytes_of "10.0.0.2")))] in
  GetHostIp (Some l) false [] = Some (true, [bytes_of "10.0.0.1"]) /\
  fst <$> GetHostIp_static (Some l) false None = Some (bytes_of "10.0.0.2").
Proof. done. Qed.
Lemma host_ip_null name l ipv6 : GetHostIp (Some (mkIf name None :: l)) ipv6 [] = None.
Proof. done. Qed.
Lemma host_ip_skips_lo_names :
  GetHostIp (Some [mkIf (bytes_of "lowpan0") (Some (AF_INET6, Some (bytes_of "fd00::1")))]) true [] = Some (false, []).
Proof. done. Qed.

(** ** src/leader/net_util.cc *)

Definition NetUtil_GetHostName (gethostname : option bytes) (hostName : bytes) : bool * bytes :=
  match gethostname with Some buf => (true, buf) | None => (false, hostName) end.
(** [GetIP]: [gethostbyname] may give no entry, which the code follows all the same ([None]). *)
Definition GetIP (gethostname : option bytes) (gethostbyname : bytes -> option (list bytes)) (ips : list bytes) : option (bool * list bytes) :=
  match NetUtil_GetHostName gethostname [] with
  | (false, _) => Some (false, ips)
  | (true, hostName) => hent ← gethostbyname hostName; Some (true, foldl (fun ips ip => ips ++ [ip]) ips hent)
  end.
Lemma GetIP_spec name by_name ips :
  GetIP (Some name) by_name ips = (fun hent => (true, ips ++ hent)) <$> by_name name.
Proof.
  unfold GetIP; cbn; destruct (by_name name) as [l|]; [|done]; cbn; do 2 f_equal.
  revert ips; induction l as [|x l IH]; intros ips; cbn; [by rewrite app_nil_r | by rewrite IH, <- app_assoc].
Qed.

(** ** src/tools/compress.cc *)

(** The swapping loop, over indices that are [int]. *)
Definition swap (i j : nat) (buf : bytes) : bytes :=
  match buf !! i, buf !! j with Some x, Some y => <[j := x]> (<[i := y]> buf) | _, _ => buf end.
Fixpoint swap_loop (fuel : nat) (begin end_ : Z) (buf : bytes) : bytes :=
  match fuel with
  | O => buf
  | S fuel => if begin <? end_ then swap_loop fuel (begin + 1) (end_ - 1) (swap (Z.to_nat begin) (Z.to_nat end_) buf) else buf
  end.
Definition reversed (buf : bytes) : bytes :=
  swap_loop (length buf) 0 (swrap 32 (Z.of_nat (length buf) - 1)) buf.

(** The tool on a set of files; [can_write] is whether the output can be opened. *)
Definition compress (infile outfile : bytes) (can_write : bool) (files : gmap bytes bytes) : gmap bytes bytes :=
  match files !! infile with
  | None => files
  | Some content => if can_write then <[outfile := reversed content]> files else files
  end.

Lemma swap_ends (p : bytes) x m y s :
  swap (length p) (length p + S (length m)) (p ++ x :: m ++ y :: s) = p ++ y :: m ++ x :: s.
Proof.
  unfold swap; rewrite list_lookup_middle by done.
  assert (Hl : (length p + S (length m) = length (p ++ x :: m))%nat) by (rewrite length_app; done).
  assert (Hl2 : (length p + S (length m) = length (p ++ y :: m))%nat) by (rewrite length_app; done).
  assert (Hy : (p ++ x :: m ++ y :: s) !! (length p + S (length m))%nat = Some y).
  { rewrite Hl; change (p ++ x :: m ++ y :: s) with (p ++ (x :: m) ++ y :: s); rewrite app_assoc; by apply list_lookup_middle. }
  rewrite Hy.
  assert (Hset : forall (u v : bytes) a b, <[length u := b]> (u ++ a :: v) = u ++ b :: v).
  { intros u v a b; rewrite insert_app_r_alt by done; by rewrite Nat.sub_diag. }
  rewrite Hset, Hl2; change (p ++ y :: m ++ y :: s) with (p ++ (y :: m) ++ y :: s); rewrite app_assoc, Hset.
  by rewrite <- app_assoc.
Qed.

Lemma swap_loop_reverse n : forall fuel (p m s : bytes),
  length m = n -> (n <= fuel)%nat -> length p = length s ->
  swap_loop fuel (Z.of_nat (length p)) (Z.of_nat (length p + length m) - 1) (p ++ m ++ s) = p ++ reverse m ++ s.
Proof.
  induction (lt_wf n) as [n _ IH]; intros fuel p m s Hm Hf Hps.
  destruct m as [|x m]; cbn [length] in *.
  { destruct fuel; cbn; [done|]; by rewrite (proj2 (Z.ltb_ge _ _)) by lia. }
  destruct m as [|y m _] using rev_ind.
  { destruct fuel; cbn; [done|]; by rewrite (proj2 (Z.ltb_ge _ _)) by lia. }
  rewrite length_app in *; cbn [length] in *; destruct fuel as [|fuel]; [lia|]; cbn [swap_loop].
  rewrite (proj2 (Z.ltb_lt _ _)) by lia; rewrite Nat2Z.id.
  replace (Z.to_nat (Z.of_nat (length p + S (length m + 1)) - 1)) with (length p + S (length m))%nat by lia.
  replace (p ++ (x :: m ++ [y]) ++ s) with (p ++ x :: m ++ y :: s) by (cbn; by rewrite <- app_assoc).
  rewrite swap_ends; replace (p ++ y :: m ++ x :: s) with ((p ++ [y]) ++ m ++ (x :: s)) by (by rewrite <- app_assoc).
  replace (Z.of_nat (length p) + 1) with (Z.of_nat (length (p ++ [y]))) by (rewrite length_app; cbn; lia).
  replace (Z.of_nat (length p + S (length m + 1)) - 1 - 1) with (Z.of_nat (length (p ++ [y]) + length m) - 1) by (rewrite length_app; cbn; lia).
  rewrite (IH (length m)); [| lia | done | lia | rewrite length_app; cbn; lia].
  rewrite reverse_cons, reverse_snoc, <- !app_assoc; cbn; by rewrite <- ?app_assoc.
Qed.

(** Files up to two gigabytes are reversed. *)
Lemma reversed_reverse buf : Z.of_nat (length buf) <= 2 ^ 31 -> reversed buf = reverse buf.
Proof.
  intros Hb; unfold reversed; assert (swrap 32 (Z.of_nat (length buf) - 1) = Z.of_nat (length buf) - 1) as ->.
  { unfold swrap; change (2 ^ (32 - 1)) with 2147483648 in *; change (2 ^ 31) with 2147483648 in *; change (2 ^ 32) with 4294967296; rewrite Z.mod_small; lia. }
  pose proof (swap_loop_reverse (length buf) (length buf) [] buf [] eq_refl) as H; rewrite !app_nil_r in H.
  by apply H.
Qed.

(** What was reversed is restored by reversing again. *)
Lemma compress_twice a b c files content :
  files !! a = Some content -> Z.of_nat (length content) <= 2 ^ 31 ->
  compress b c true (compress a b true files) !! c = Some content.
Proof.
  intros Ha Hc; unfold compress; rewrite Ha, lookup_insert_eq, lookup_insert_eq; f_equal.
  rewrite (reversed_reverse content Hc), reversed_reverse, reverse_involutive; [done | by rewrite length_reverse].
Qed.

(** ** src/common/config/proto_configure.cc *)

Module ProtoConfigure.
Section Proto.
(** The protobuf library: known types, which of them have a prototype, parsing and printing. *)
Context {Message : Type} (known prototype : bytes -> bool) (Parse : bytes -> bytes -> option Message) (PrintToString : Message -> bytes).

Inductive Status : Type := kOK | kNoSuchProtoType | kFailGenProtoType | kFailOpenConfigFile | kFailParseProtoMessage.
Definition ErrorMessage (s : Status) : bytes :=
  match s with
  | kOK => []
  | kNoSuchProtoType => bytes_of "No Such Proto Type"
  | kFailGenProtoType => bytes_of "Generate Proto Type Failed"
  | kFailOpenConfigFile => bytes_of "Open Config File Failed"
  | kFailParseProtoMessage => bytes_of "Parse Proto Message Failed"
  end.

(** The object: [config_] is the address of a message on the heap and its value. *)
Record config : Type := mkConfig { type_name_ : bytes; conf_name_ : bytes; config_ : option (obj * Message) }.
Definition new_config : config := mkConfig [] [] None.

(** [Release]; [None] is a double deletion. *)
Definition Release (c : config) (h : Heap) : option (config * Heap) :=
  match config_ c with
  | None => Some (c, h)
  | Some (o, _) => h ← delete_object o h; Some (mkConfig (type_name_ c) (conf_name_ c) None, h)
  end.

(** [Init], over the files that can be opened. *)
Definition Init (files : gmap bytes bytes) (type_name conf_name : bytes) (c : config) (h : Heap) : option (Status * config * Heap) :=
  if negb (known type_name) then Some (kNoSuchProtoType, c, h)
  else if negb (prototype type_name) then Some (kFailGenProtoType, c, h)
  else
    let '(o, h) := new_object h in
    match files !! conf_name with
    | None => Some (kFailOpenConfigFile, c, h)
    | Some text =>
        match Parse type_name text with
        | None => Some (kFailParseProtoMessage, c, h)
        | Some m =>
            '(c, h) ← Release c h;
            Some (kOK, mkConfig type_name conf_name (Some (o, m)), h)
        end
    end.

(** [GenProtoConfigFile]: the printed message and a line feed. *)
Definition GenProtoConfigFile (can_write : bool) (m : Message) (output_file : bytes) (files : gmap bytes bytes) : Status * gmap bytes bytes :=
  if can_write then (kOK, <[output_file := PrintToString m ++ [10]]> files) else (kFailOpenConfigFile, files).

(** The message of the object is alive. *)
Definition config_ok (c : config) (h : Heap) : Prop :=
  heap_wf h /\ match config_ c with Some (o, _) => o ∈ live h | None => True end.

(** [Init] never deletes twice; unless it succeeds the object is as before, and when it does
    the object holds the parsed message and the one it had is gone. *)
Lemma Init_spec files type_name conf_name c h :
  config_ok c h ->
  exists st c' h', Init files type_name conf_name c h = Some (st, c', h') /\ config_ok c' h' /\
    match st with
    | kOK => exists text m o, files !! conf_name = Some text /\ Parse type_name text = Some m /\ known type_name = true /\ prototype type_name = true /\
        c' = mkConfig type_name conf_name (Some (o, m)) /\ o ∉ live h /\
        live h' = {[o]} ∪ (live h ∖ match config_ c with Some (o', _) => {[o']} | None => ∅ end)
    | _ => c' = c
    end.
Proof.
  intros [Hwf Hc]; unfold Init; destruct (known type_name) eqn:Hk; cbn [negb]; [|by exists kNoSuchProtoType, c, h].
  destruct (prototype type_name) eqn:Hp; cbn [negb]; [|by exists kFailGenProtoType, c, h].
  unfold new_object; set (h1 := mkHeap _ _).
  assert (Hnew : fresh h ∉ live h) by (intros Hf; apply Hwf in Hf; lia).
  assert (Hwf1 : heap_wf h1).
  { intros o; cbn; rewrite elem_of_union, elem_of_singleton; intros [-> | Ho]; [lia | apply Hwf in Ho; lia]. }
  assert (Hc1 : match config_ c with Some (o, _) => o ∈ live h1 | None => True end) by (destruct (config_ c) as [[o m]|]; [set_solver | done]).
  destruct (files !! conf_name) as [text|] eqn:Hf; [|by exists kFailOpenConfigFile, c, h1].
  destruct (Parse type_name text) as [m|] eqn:Hm; [|by exists kFailParseProtoMessage, c, h1].
  unfold Release; destruct (config_ c) as [[o m0]|] eqn:Ho; cbn.
  - unfold delete_object; rewrite decide_True by done; cbn [mbind option_bind].
    eexists kOK, _, _; split; [done|]; assert (o <> fresh h) by congruence; split; [split; cbn; [|set_solver]|].
    + intros x; cbn; rewrite elem_of_difference; intros [Hx _]; by apply Hwf1.
    + exists text, m, (fresh h); do 6 (split; [done|]); cbn; set_solver.
  - eexists kOK, _, _; split; [done|]; split; [split; cbn; [done | set_solver]|].
    exists text, m, (fresh h); do 6 (split; [done|]); cbn; set_solver.
Qed.

(** A message that was made and not kept is never deleted. *)
Lemma Init_leaks files type_name conf_name c h :
  known type_name = true -> prototype type_name = true ->
  files !! conf_name = None \/ (exists text, files !! conf_name = Some text /\ Parse type_name text = None) ->
  exists st h', Init files type_name conf_name c h = Some (st, c, h') /\ st <> kOK /\ live h' = {[fresh h]} ∪ live h.
Proof.
  intros Hk Hp Hf; unfold Init; rewrite Hk, Hp; cbn; destruct Hf as [-> | (text & -> & ->)]; [by eexists kFailOpenConfigFile, _ | by eexists kFailParseProtoMessage, _].
Qed.

(** What was generated is read back, if parsing undoes printing. *)
Lemma generated_config files type_name conf_name m c h :
  config_ok c h -> known type_name = true -> prototype type_name = true ->
  Parse type_name (PrintToString m ++ [10]) = Some m ->
  exists o h', Init (GenProtoConfigFile true m conf_name files).2 type_name conf_name c h =
    Some (kOK, mkConfig type_name conf_name (Some (o, m)), h').
Proof.
  intros Hc Hk Hp Hm; destruct (Init_spec (GenProtoConfigFile true m conf_name files).2 type_name conf_name c h Hc) as (st & c' & h' & Hi & _ & Hst).
  assert (Hfile : (GenProtoConfigFile true m conf_name files).2 !! conf_name = Some (PrintToString m ++ [10])) by (cbn; by rewrite lookup_insert_eq).
  destruct st.
  2-5: unfold Init in Hi; rewrite Hk, Hp, Hfile, Hm in Hi; cbn in Hi; destruct (Release c _) as [[? ?]|]; discriminate.
  destruct Hst as (text & m' & o & Ht & Hm' & _ & _ & -> & _); rewrite Hfile in Ht; injection Ht as <-; rewrite Hm in Hm'; injection Hm' as <-.
  by exists o, h'.
Qed.
End Proto.
End ProtoConfigure.
