(* ===== verification/BuilderFiles.v ===== *)
(** * The files of a builder: the rest of src/qed/builder.cc and builder.h

    [OpenDataFiles] opens four memory files with sizes that follow from the expected number of
    keys, [CloseDataFiles] closes them; [BlockDataBuilder] is a file in which threads allocate
    blocks by moving an offset.  Both are proved against the interface [MemoryFile], so for
    either class of files. *)
From Stdlib Require Import ZArith Lia.
From stdpp Require Import base gmap list option relations.
From S2P Require Import Prelude Words Memory Bucket Builder Strings Files.

Local Open Scope Z_scope.

(** ** The data files of a builder *)

(** [sizeof(RawBucket)]. *)
Definition sizeof_RawBucket : Z := 16.

Definition expected_max_id_count (reserved_count : Z) : option Z :=
  if 0 <? reserved_count then shl 64 1 <$> get_bucket_type reserved_count
  else Some (shl 64 1 QED_MAX_BUCKET_TYPE).
(** [QED_MAX_BUILD_FILE_SIZE] of the environment, read by [atoll], unless it is zero. *)
Definition max_build_file_size (env : option bytes) : Z :=
  match env with
  | None => QED_MAX_BUILD_FILE_SIZE
  | Some s => let size := wrap 64 (strtol s).1.1 in if size =? 0 then QED_MAX_BUILD_FILE_SIZE else size
  end.
Definition file_sizes (env : option bytes) (count : Z) : Z * Z :=
  (Z.min (wrap 64 (count * sizeof_RawBucket)) (max_build_file_size env), Z.min (wrap 64 (count * 8)) (max_build_file_size env)).

(** What [Get] of a memory file tells: whether it is open. *)
Class MemoryGet (M : Type) : Type := has_address : M -> bool.
#[export] Instance mmap_get : MemoryGet MmapedMemory := mapped.
#[export] Instance block_get : MemoryGet Memblock := fun m => bool_decide (is_Some (address_ m)).

Section Files.
Context {M : Type} `{MemoryFileOk M, MemoryGet M}.

(** The loop over the files: the first that is smaller than asked for ends it.  [None] is the
    exception of a file that is open already. *)
Fixpoint open_files (cs : list (calls * bytes * Z)) (opened : list M) (d : disk) : option (bool * list M * disk) :=
  match cs with
  | [] => Some (true, opened, d)
  | (c, name, size) :: cs =>
      '(n, m, d) ← mf_open c size (mf_new name) d;
      if n <? size then Some (false, opened ++ [m], d) else open_files cs (opened ++ [m]) d
  end.

(** [OpenDataFiles] on a store; [names] are the names of the four files with their calls. *)
Definition OpenDataFiles (meta_open : bool) (env : option bytes) (reserved_count : Z)
    (managed free root_managed root_free : calls * bytes) (st : Store) (d : disk) : option (bool * list M * Store * disk) :=
  if negb meta_open then Some (false, [], st, d)
  else
    count ← expected_max_id_count reserved_count;
    let '(managed_size, root_size) := file_sizes env count in
    '(ok, ms, d) ← open_files [(managed.1, managed.2, managed_size); (free.1, free.2, managed_size);
                               (root_managed.1, root_managed.2, root_size); (root_free.1, root_free.2, root_size)] [] d;
    if negb ok then Some (false, ms, st, d)
    else if 0 <? reserved_count then '(r, st) ← Reserve reserved_count st; Some (r, ms, st, d)
    else Some (true, ms, st, d).

Fixpoint CloseDataFiles (ms : list (calls * M)) (d : disk) : option (list M * disk) :=
  match ms with
  | [] => Some ([], d)
  | (c, m) :: ms => '(m, d) ← mf_close c m d; '(l, d) ← CloseDataFiles ms d; Some (m :: l, d)
  end.

(** The destructor of [Builder] does nothing. *)

(** Opening files of different names, when all calls succeed. *)
Lemma open_files_ok cs : forall opened d,
  Forall (fun x => all_succeed x.1.1 /\ 0 < x.2) cs ->
  exists ms d', open_files cs opened d = Some (true, opened ++ ms, d') /\ length ms = length cs /\
    forall n, n ∉ cs.*1.*2 -> d' !! n = d !! n.
Proof.
  induction cs as [|[[c name] size] cs IH]; intros opened d Hcs; cbn [open_files].
  - exists [], d; rewrite app_nil_r; done.
  - apply list.Forall_cons in Hcs as [[Hc Hs] Hcs]; cbn in Hc, Hs.
    destruct (open_write_ok c size name d Hc Hs) as (m & d1 & -> & _ & Hd1); cbn [mbind option_bind].
    rewrite Z.ltb_irrefl; destruct (IH (opened ++ [m]) d1 Hcs) as (ms & d' & -> & Hlen & Hout).
    exists (m :: ms), d'; rewrite <- app_assoc; split; [done|]; split; [cbn; by rewrite Hlen|].
    intros n Hn; cbn in Hn; apply not_elem_of_cons in Hn as [Hne Hn]; rewrite Hout by done.
    by rewrite <- (lookup_delete_ne d1 name n), Hd1, lookup_delete_ne by done.
Qed.
End Files.

(** [Reserve] fills the tables up to the new number of buckets. *)
Definition reserved_buckets (reserved_count : Z) (m : MetaInfo) : option Z :=
  t ← get_bucket_type reserved_count; Some (shl 64 1 (if t <=? bucket_type m then bucket_type m else t)).

Lemma get_bucket_type_range count t : get_bucket_type count = Some t -> 2 <= t <= 50.
Proof.
  unfold get_bucket_type; destruct (bucket_type_loop 64 1 count); [|done]; intros [= <-].
  unfold QED_INITIAL_BUCKET_TYPE, QED_MAX_BUCKET_TYPE; lia.
Qed.
Lemma shl_one t : 0 <= t < 64 -> shl 64 1 t = 2 ^ t.
Proof.
  intros Ht; unfold shl; rewrite Z.shiftl_mul_pow2, Z.mul_1_l by lia; unfold wrap; apply Z.mod_small.
  split; [lia | apply Z.pow_lt_mono_r; lia].
Qed.

(** The four files have room for what [Reserve] fills, if the builder is new and the limit of
    the file size allows it. *)
Lemma data_files_fit env reserved_count m count n :
  0 < reserved_count -> bucket_type m = QED_INITIAL_BUCKET_TYPE ->
  expected_max_id_count reserved_count = Some count -> reserved_buckets reserved_count m = Some n ->
  count * sizeof_RawBucket <= max_build_file_size env ->
  n * sizeof_RawBucket <= (file_sizes env count).1 /\ n * 8 <= (file_sizes env count).2.
Proof.
  intros Hr Hm Hc Hn Hmax; unfold expected_max_id_count, reserved_buckets in *.
  rewrite (proj2 (Z.ltb_lt 0 reserved_count) Hr) in Hc; destruct (get_bucket_type reserved_count) as [t|] eqn:Ht; [|done].
  pose proof (get_bucket_type_range _ _ Ht) as Hrange; cbn in Hc, Hn; injection Hc as <-; injection Hn as <-.
  rewrite Hm; unfold QED_INITIAL_BUCKET_TYPE, sizeof_RawBucket in *.
  assert ((if t <=? 2 then 2 else t) = t) as -> by (destruct (Z.leb_spec t 2); lia).
  rewrite shl_one in * by lia; unfold file_sizes; cbn [fst snd].
  assert (0 < 2 ^ t <= 2 ^ 50) by (split; [lia | apply Z.pow_le_mono_r; lia]).
  unfold sizeof_RawBucket, wrap; rewrite !Z.mod_small; [lia | | ]; change (2 ^ 64) with (2 ^ 50 * 16384); lia.
Qed.

(** With a smaller limit [Reserve] fills what is behind the end of the files. *)
Lemma data_files_too_small env reserved_count m count n :
  0 < reserved_count -> expected_max_id_count reserved_count = Some count -> reserved_buckets reserved_count m = Some n ->
  0 <= bucket_type m <= 50 -> max_build_file_size env < count * sizeof_RawBucket ->
  (file_sizes env count).1 < n * sizeof_RawBucket.
Proof.
  intros Hr Hc Hn Hb Hmax; unfold expected_max_id_count, reserved_buckets in *.
  rewrite (proj2 (Z.ltb_lt 0 reserved_count) Hr) in Hc; destruct (get_bucket_type reserved_count) as [t|] eqn:Ht; [|done].
  pose proof (get_bucket_type_range _ _ Ht) as Hrange; cbn in Hc, Hn; injection Hc as <-; injection Hn as <-.
  assert (shl 64 1 t <= shl 64 1 (if t <=? bucket_type m then bucket_type m else t)).
  { rewrite !shl_one by (destruct (Z.leb_spec t (bucket_type m)); lia); apply Z.pow_le_mono_r; [lia|]; destruct (Z.leb_spec t (bucket_type m)); lia. }
  unfold file_sizes, sizeof_RawBucket in *; cbn [fst]; lia.
Qed.

(** A table that exists is cut when it is opened with a smaller reservation: here eight
    buckets are opened for one key, which leaves four of them. *)
Lemma reopened_table_is_cut :
  expected_max_id_count 1 = Some 4 /\ (file_sizes None 4).1 = 64 /\
  forall old : bytes, length old = 128%nat -> resize (Z.to_nat 64) old = take 64 old.
Proof.
  split; [done|]; split; [done|]; intros old Hold; unfold resize; rewrite Hold; cbn; apply app_nil_r.
Qed.

(** ** Blocks of data *)

(** [truncate]. *)
Definition truncate (name : bytes) (size : Z) (d : disk) : disk := alter (resize (Z.to_nat size)) name d.

Section Blocks.
Context {M : Type} `{MemoryFileOk M, MemoryGet M}.

(** [BlockDataBuilder]: its numbers, its file and the name of it. *)
Record BlockDataBuilder : Type := mkBuilder { numbers : BlockData; block_file : M; block_file_name : bytes }.
Definition new_BlockDataBuilder (file : bytes) : BlockDataBuilder := mkBuilder (mkBlockData 0 0 false) (mf_new file) file.

(** [Open]: an exception of the file is caught. *)
Definition Builder_Open (c : calls) (size : Z) (b : BlockDataBuilder) (d : disk) : bool * BlockDataBuilder * disk :=
  let asked := if size =? 0 then QED_MAX_BUILD_FILE_SIZE else Z.min size QED_MAX_BUILD_FILE_SIZE in
  let r := mf_open c asked (block_file b) d in
  let '(ok, numbers) := block_Open (fun _ => (fun x => x.1.1) <$> r) size (numbers b) in
  (ok, mkBuilder numbers (match r with Some (_, m, _) => m | None => block_file b end) (block_file_name b),
   match r with Some (_, _, d) => d | None => d end).

(** [Close]: the file is cut to what was allocated if its size was not given. *)
Definition Builder_Close (c : calls) (b : BlockDataBuilder) (d : disk) : option (BlockDataBuilder * disk) :=
  '(m, d) ← mf_close c (block_file b) d;
  Some (mkBuilder (numbers b) m (block_file_name b),
        if need_truncate (numbers b) then truncate (block_file_name b) (offset_ (numbers b)) d else d).
(** The destructor. *)
Definition Builder_destroy (c : calls) (b : BlockDataBuilder) (d : disk) : option (BlockDataBuilder * disk) :=
  if has_address (block_file b) then Builder_Close c b d else Some (b, d).

(** A block is allocated and filled through [get]; [None] when there is no room. *)
Fixpoint store_from (off : nat) (data : bytes) (m : M) (d : disk) : option (M * disk) :=
  match data with [] => Some (m, d) | x :: data => '(m, d) ← mf_store off x m d; store_from (S off) data m d end.
Definition put (data : bytes) (b : BlockDataBuilder) (d : disk) : option (BlockDataBuilder * disk) :=
  let '(off, numbers) := alloc 1 (Z.of_nat (length data)) (numbers b) in
  if off =? UINT64_MAX then None
  else '(m, d) ← store_from (Z.to_nat off) data (block_file b) d; Some (mkBuilder numbers m (block_file_name b), d).
Fixpoint put_all (blocks : list bytes) (b : BlockDataBuilder) (d : disk) : option (BlockDataBuilder * disk) :=
  match blocks with [] => Some (b, d) | x :: l => '(b, d) ← put x b d; put_all l b d end.

Lemma store_from_ok data : forall off m d name l,
  holds m d name l -> (off + length data <= length l)%nat ->
  exists m' d', store_from off data m d = Some (m', d') /\ holds m' d' name (take off l ++ data ++ drop (off + length data) l) /\
    delete name d' = delete name d.
Proof.
  induction data as [|x data IH]; intros off m d name l Hh Hl; cbn [store_from length] in *.
  - exists m, d; rewrite Nat.add_0_r; cbn; rewrite take_drop; done.
  - destruct (store_ok off x m d name l Hh) as (m1 & d1 & -> & Hs1 & Hd1); [lia|]; cbn [mbind option_bind].
    destruct (IH (S off) m1 d1 name (<[off := x]> l) Hs1) as (m2 & d2 & -> & Hs2 & Hd2); [rewrite length_insert; lia|].
    exists m2, d2; split; [done|]; split; [|congruence].
    assert (take (S off) (<[off := x]> l) = take off l ++ [x]) as Ht.
    { rewrite insert_take_drop by lia; rewrite take_app_ge by (rewrite length_take; lia); rewrite length_take, Nat.min_l by lia.
      by replace (S off - off)%nat with 1%nat by lia. }
    rewrite Ht, drop_insert_lt, <- app_assoc in Hs2 by lia; cbn in Hs2; by replace (off + S (length data))%nat with (S off + length data)%nat by lia.
Qed.

(** The state of a builder: the blocks that were put are in front, the file has its full size. *)
Definition built (blocks : list bytes) (b : BlockDataBuilder) (d : disk) : Prop :=
  exists l, holds (block_file b) d (block_file_name b) l /\ Z.of_nat (length l) = max_size_ (numbers b) /\
    offset_ (numbers b) = Z.of_nat (length (concat blocks)) /\ (length (concat blocks) <= length l)%nat /\
    take (length (concat blocks)) l = concat blocks.

Lemma put_ok blocks data b d :
  built blocks b d -> Z.of_nat (length (concat blocks)) + Z.of_nat (length data) <= max_size_ (numbers b) -> max_size_ (numbers b) < 2 ^ 63 ->
  exists b' d', put data b d = Some (b', d') /\ built (blocks ++ [data]) b' d' /\ max_size_ (numbers b') = max_size_ (numbers b) /\
    need_truncate (numbers b') = need_truncate (numbers b) /\ block_file_name b' = block_file_name b /\
    delete (block_file_name b) d' = delete (block_file_name b) d.
Proof.
  intros (l & Hh & Hlen & Hoff & Hle & Htake) Hroom Hmax; unfold put, alloc.
  rewrite Z.mul_1_r, (wrap_small 64 (Z.of_nat (length data))), wrap_small by (unfold uint; lia); rewrite (proj2 (Z.ltb_ge _ _)) by lia.
  rewrite Hoff; destruct (Z.eqb_spec (Z.of_nat (length (concat blocks))) UINT64_MAX) as [He|_]; [unfold UINT64_MAX in He; lia|].
  rewrite Nat2Z.id.
  destruct (store_from_ok data (length (concat blocks)) (block_file b) d _ l Hh) as (m & d' & -> & Hm & Hd'); [lia|]; cbn [mbind option_bind].
  eexists _, d'; split; [done|]; split; [|done]; rewrite Htake in Hm; eexists; split; [exact Hm|]; cbn.
  rewrite concat_app; cbn; rewrite app_nil_r, !length_app, length_drop.
  split; [lia|]; split; [rewrite wrap_small by (unfold uint; lia); lia|]; split; [lia|].
  by rewrite <- length_app, app_assoc, take_app_length.
Qed.

Lemma put_all_ok rest : forall blocks b d,
  built blocks b d -> Z.of_nat (length (concat (blocks ++ rest))) <= max_size_ (numbers b) -> max_size_ (numbers b) < 2 ^ 63 ->
  exists b' d', put_all rest b d = Some (b', d') /\ built (blocks ++ rest) b' d' /\
    need_truncate (numbers b') = need_truncate (numbers b) /\ block_file_name b' = block_file_name b /\
    delete (block_file_name b) d' = delete (block_file_name b) d.
Proof.
  induction rest as [|x rest IH]; intros blocks b d Hb Hroom Hmax; cbn [put_all]; [rewrite app_nil_r; by exists b, d|].
  rewrite concat_app in Hroom; cbn in Hroom; rewrite !length_app in Hroom.
  destruct (put_ok blocks x b d Hb) as (b1 & d1 & -> & Hb1 & Hm1 & Hn1 & Hf1 & Hd1); [lia | done|]; cbn [mbind option_bind].
  destruct (IH (blocks ++ [x]) b1 d1 Hb1) as (b2 & d2 & -> & Hb2 & Hn2 & Hf2 & Hd2); [|lia|].
  { rewrite <- app_assoc; cbn; rewrite concat_app; cbn; rewrite !length_app; lia. }
  exists b2, d2; rewrite <- app_assoc in Hb2; split; [done|]; split; [done|]; rewrite Hf1 in *; split; [congruence|]; split; [congruence | congruence].
Qed.

Lemma resize_exact n (l : bytes) : (n <= length l)%nat -> resize n l = take n l.
Proof. intros Hn; unfold resize; replace (n - length l)%nat with 0%nat by lia; apply app_nil_r. Qed.

(** A file of blocks that is opened without a size holds, when it is closed, the blocks one
    after the other and nothing else, whatever it held before; other files are not touched. *)
Lemma blocks_in_file c name blocks d :
  all_succeed c -> Z.of_nat (length (concat blocks)) <= QED_MAX_BUILD_FILE_SIZE ->
  exists b d1 b2 d2 b3 d3,
    Builder_Open c 0 (new_BlockDataBuilder name) d = (true, b, d1) /\ put_all blocks b d1 = Some (b2, d2) /\
    Builder_Close c b2 d2 = Some (b3, d3) /\ d3 = <[name := concat blocks]> d.
Proof.
  intros Hc Hb; unfold Builder_Open, new_BlockDataBuilder; cbn [block_file numbers block_file_name].
  destruct (open_write_ok c QED_MAX_BUILD_FILE_SIZE name d Hc) as (m & d1 & Ho & Hh & Hd1); [done|].
  cbn [Z.eqb]; rewrite Ho; unfold block_Open; cbn [fmap option_fmap option_map fst snd Z.eqb]; rewrite Z.ltb_irrefl; cbn [negb].
  set (b := mkBuilder _ _ _).
  assert (Hbuilt : built [] b d1).
  { eexists; split; [exact Hh|]; cbn; rewrite length_resize, Z2Nat.id by (unfold QED_MAX_BUILD_FILE_SIZE; lia); split; [done|]; split; [done|]; split; [lia | done]. }
  destruct (put_all_ok blocks [] b d1 Hbuilt) as (b2 & d2 & Hp & (l & Hl & Hlen & Hoff & Hle & Ht) & Hn & Hf & Hd2); [done | done |].
  destruct (close_ok c (block_file b2) d2 _ _ Hc Hl) as (m3 & d3 & Hcl & ->).
  exists b, d1, b2, d2; eexists _, _; split; [done|]; split; [done|].
  unfold Builder_Close; rewrite Hcl; cbn [mbind option_bind]; rewrite Hn, Hf; split; [reflexivity|].
  cbn [need_truncate numbers b block_file_name] in *; unfold truncate; rewrite Hoff, Nat2Z.id; cbn [app] in *.
  rewrite alter_insert_eq, resize_exact, Ht by done.
  rewrite <- (insert_delete_eq d2), Hd2, Hd1; apply insert_delete_eq.
Qed.
End Blocks.

(** ** Allocation by several threads

    [alloc] reads the offset, compares and swaps, and tries again when another thread was
    faster.  A thread has the sizes it still asks for, and the offset it has read. *)

Record alloc_state : Type := mkAlloc {
  shared_offset : Z; limit : Z; asking : list (option Z * list Z); granted : list (Z * Z); refused : list Z
}.

Definition alloc_turn (i : nat) (s : alloc_state) : alloc_state :=
  match asking s !! i with
  | Some (None, n :: ns) =>
      if limit s <? wrap 64 (n + shared_offset s) then
        mkAlloc (shared_offset s) (limit s) (<[i := (None, ns)]> (asking s)) (granted s) (refused s ++ [n])
      else mkAlloc (shared_offset s) (limit s) (<[i := (Some (shared_offset s), n :: ns)]> (asking s)) (granted s) (refused s)
  | Some (Some cur, n :: ns) =>
      if shared_offset s =? cur then
        mkAlloc (wrap 64 (cur + n)) (limit s) (<[i := (None, ns)]> (asking s)) (granted s ++ [(cur, n)]) (refused s)
      else mkAlloc (shared_offset s) (limit s) (<[i := (None, n :: ns)]> (asking s)) (granted s) (refused s)
  | _ => s
  end.
Definition alloc_run (l : list nat) (s : alloc_state) : alloc_state := foldl (fun s i => alloc_turn i s) s l.

(** The granted blocks follow each other from one offset to another. *)
Fixpoint adjacent (from : Z) (l : list (Z * Z)) (to : Z) : Prop :=
  match l with [] => from = to | (off, n) :: l => off = from /\ 0 <= n /\ adjacent (from + n) l to end.

(** A thread asks for small sizes, and what it has read leaves room for the size. *)
Definition thread_ok (lim : Z) (t : option Z * list Z) : Prop :=
  Forall (fun n => 0 <= n < 2 ^ 62) t.2 /\ match t with (Some cur, n :: _) => 0 <= cur /\ cur + n <= lim | _ => True end.

Record AllocInv (s : alloc_state) : Prop := {
  ai_limit : 0 <= shared_offset s <= limit s /\ limit s < 2 ^ 62;
  ai_threads : Forall (thread_ok (limit s)) (asking s);
  ai_granted : adjacent 0 (granted s) (shared_offset s)
}.

Lemma adjacent_snoc l : forall from to n, adjacent from l to -> 0 <= n -> adjacent from (l ++ [(to, n)]) (to + n).
Proof. induction l as [|[off k] l IH]; intros from to n; cbn; [by intros -> Hn | intros (-> & Hk & Ha) Hn; auto]. Qed.
Lemma adjacent_le l : forall from to off n, adjacent from l to -> (off, n) ∈ l -> from <= off /\ off + n <= to /\ 0 <= n.
Proof.
  induction l as [|[o k] l IH]; intros from to off n; cbn; [by intros _ ?%elem_of_nil|].
  intros (-> & Hk & Ha); assert (from + k <= to).
  { clear -Ha; revert Ha; generalize (from + k); induction l as [|[o j] l IH]; intros f; cbn; [lia|]; intros (-> & ? & Ha); apply IH in Ha; lia. }
  intros [[= -> ->] | Hin]%elem_of_cons; [lia|]; apply (IH _ _ _ _ Ha) in Hin; lia.
Qed.
Lemma adjacent_disjoint l : forall from to i j off n off' n',
  adjacent from l to -> l !! i = Some (off, n) -> l !! j = Some (off', n') -> (i < j)%nat -> off + n <= off'.
Proof.
  induction l as [|[o k] l IH]; intros from to i j off n off' n'; [done|]; cbn [adjacent]; intros (-> & Hk & Ha).
  destruct i as [|i], j as [|j]; cbn; try lia; [|intros Hi Hj Hlt; by eapply IH; [exact Ha | exact Hi | exact Hj | lia]].
  intros [= -> ->] Hj _; by apply list_elem_of_lookup_2, (adjacent_le _ _ _ _ _ Ha) in Hj as [? _].
Qed.

Lemma alloc_turn_Inv i s : AllocInv s -> AllocInv (alloc_turn i s).
Proof.
  intros Hinv; unfold alloc_turn; destruct (asking s !! i) as [[[cur|] [|n ns]]|] eqn:Hi; try done.
  all: destruct Hinv as [[Hl Hl2] Ht Hg]; pose proof (proj1 (list.Forall_forall _ _) Ht _ (list_elem_of_lookup_2 _ _ _ Hi)) as [Hns Hcur].
  all: cbn in Hns, Hcur; pose proof Hns as [Hn Hns']%list.Forall_cons.
  - destruct (Z.eqb_spec (shared_offset s) cur) as [<-|_]; constructor; cbn [shared_offset limit asking granted]; try done.
    + rewrite wrap_small by (unfold uint; lia); lia.
    + by apply Forall_insert.
    + rewrite wrap_small by (unfold uint; lia); apply adjacent_snoc; [done | lia].
    + by apply Forall_insert.
  - rewrite wrap_small by (unfold uint; lia); destruct (Z.ltb_spec (limit s) (n + shared_offset s)); constructor; cbn [shared_offset limit asking granted]; try done.
    + by apply Forall_insert.
    + apply Forall_insert; [done|]; split; [done | cbn; lia].
Qed.

(** Whatever the threads ask for and however they take turns, the blocks they get lie in the
    file and no two of them overlap. *)
Lemma concurrent_alloc lim requests turns i j off n off' n' :
  0 <= lim < 2 ^ 62 -> Forall (Forall (fun n => 0 <= n < 2 ^ 62)) requests ->
  let s := alloc_run turns (mkAlloc 0 lim ((fun ns => (None, ns)) <$> requests) [] []) in
  granted s !! i = Some (off, n) -> granted s !! j = Some (off', n') -> i <> j ->
  0 <= off /\ off + n <= lim /\ (off + n <= off' \/ off' + n' <= off).
Proof.
  intros Hlim Hreq s Hi Hj Hne; assert (Hinv : AllocInv s /\ limit s = lim).
  { subst s; clear Hi Hj; unfold alloc_run.
    assert (Hstart : AllocInv (mkAlloc 0 lim ((fun ns => (None, ns)) <$> requests) [] [])).
    { constructor; cbn [shared_offset limit asking granted]; [lia | | done]; apply Forall_fmap; eapply list.Forall_impl; [exact Hreq|]; by intros ns Hns; split. }
    revert Hstart; generalize (eq_refl lim : limit (mkAlloc 0 lim ((fun ns => (@None Z, ns)) <$> requests) [] []) = lim).
    generalize (mkAlloc 0 lim ((fun ns => (None, ns)) <$> requests) [] []); induction turns as [|k turns IH]; intros s0 Hl H0; [done|]; cbn [foldl].
    apply IH; [|by apply alloc_turn_Inv]; unfold alloc_turn; destruct (asking s0 !! k) as [[[cur|] [|m ms]]|]; try done; by case_match. }
  destruct Hinv as [[[Hl _] _ Hg] Hlim']; rewrite Hlim' in Hl.
  pose proof (adjacent_le _ _ _ _ _ Hg (list_elem_of_lookup_2 _ _ _ Hi)); split; [lia|]; split; [lia|].
  destruct (Nat.lt_total i j) as [Hlt | [-> | Hlt]]; [left | done | right]; by eapply adjacent_disjoint.
Qed.
