(* ===== verification/Pieces.v ===== *)
(** * The rest of the string utilities: src/orc/util/string_piece.h, str_util.h and str_util.cc,
    src/common/string_utils.h and string_utils.cc

    Constructors, copies and comparisons of pieces, floating-point numbers in strings (the C
    library's [strtof] and [strtod] are arguments), vectors of vectors, and the lookup in a
    map.  The comparisons of pieces are shown to be the lexicographic order of their bytes. *)
From Stdlib Require Import ZArith Lia.
From stdpp Require Import base list option gmap.
From S2P Require Import Prelude Words Memory Strings.

Local Open Scope Z_scope.

(** ** Pieces *)

(** The constructors: a C string (without its zero byte) may be missing. *)
Definition StringPiece_null : StringPiece := mkPiece [] 0 0.
Definition StringPiece_cstr (str : option bytes) : StringPiece :=
  match str with None => mkPiece [] 0 0 | Some s => mkPiece (s ++ [0]) 0 (length s) end.
Definition StringPiece_at (buf : bytes) (ptr len : nat) : StringPiece := mkPiece buf ptr len.
Definition assign (buf : bytes) (ptr len : nat) (p : StringPiece) : StringPiece := mkPiece buf ptr len.
Definition Set_at (buf : bytes) (ptr size : nat) (p : StringPiece) : StringPiece := mkPiece buf ptr size.
Definition Set_cstr (str : option bytes) (p : StringPiece) : StringPiece :=
  match str with None => mkPiece [] 0 0 | Some s => mkPiece (s ++ [0]) 0 (length s) end.
Definition clear (p : StringPiece) : StringPiece := mkPiece [] 0 0.

Definition size (p : StringPiece) : nat := length_ p.
Definition length_of (p : StringPiece) : nat := length_ p.
Definition max_size (p : StringPiece) : nat := length_ p.
Definition capacity (p : StringPiece) : nat := length_ p.
Definition empty (p : StringPiece) : bool := (length_ p =? 0)%nat.
(** [operator[]], [begin], [end]: a byte behind the piece is one of the buffer. *)
Definition at_index (i : nat) (p : StringPiece) : option Z := buffer p !! (ptr_ p + i)%nat.
Definition begin_ (p : StringPiece) : nat := ptr_ p.
Definition end_ (p : StringPiece) : nat := (ptr_ p + length_ p)%nat.
Definition rbegin (p : StringPiece) : nat := (ptr_ p + length_ p)%nat.
Definition rend (p : StringPiece) : nat := ptr_ p.

(** [copy]: the number of bytes is of type [size_t].  [None] is an access outside of the
    buffers. *)
Definition copy (dst : bytes) (n pos : nat) (p : StringPiece) : option (nat * bytes) :=
  let ret := Z.to_nat (Z.min (wrap 64 (Z.of_nat (length_ p) - Z.of_nat pos)) (Z.of_nat n)) in
  src ← read_at (ptr_ p + pos) ret (buffer p);
  dst ← write_at 0 src dst;
  Some (ret, dst).

Definition ToString (p : StringPiece) : bytes := if empty p then [] else data p.
Definition find_first_of_char (c : Z) (pos : nat) (p : StringPiece) : option nat := find_char c p pos.

(** The comparisons with strings, with C strings, and what is defined from others. *)
Definition eq_bytes (n : nat) (l : bytes) (m : nat) (r : bytes) : bool :=
  if negb (n =? m)%nat then false else match memcmp (take n l) (take n r) with Eq => true | _ => false end.
Definition piece_ne (l r : StringPiece) : bool := negb (piece_eq l r).
Definition piece_eq_string (l : StringPiece) (r : bytes) : bool := eq_bytes (length_ l) (data l) (length r) r.
Definition piece_ne_string (l : StringPiece) (r : bytes) : bool := negb (piece_eq_string l r).
Definition string_eq_piece (l : bytes) (r : StringPiece) : bool := eq_bytes (length l) l (length_ r) (data r).
Definition string_ne_piece (l : bytes) (r : StringPiece) : bool := negb (string_eq_piece l r).
Definition cstr_eq_piece (l : bytes) (r : StringPiece) : bool := eq_bytes (length l) l (length_ r) (data r).
Definition cstr_ne_piece (l : bytes) (r : StringPiece) : bool := negb (cstr_eq_piece l r).
Definition piece_eq_cstr (l : StringPiece) (r : bytes) : bool := eq_bytes (length_ l) (data l) (length r) r.
Definition piece_ne_cstr (l : StringPiece) (r : bytes) : bool := negb (piece_eq_cstr l r).
Definition piece_gt (l r : StringPiece) : bool := piece_lt r l.
Definition piece_le (l r : StringPiece) : bool := negb (piece_gt l r).
Definition piece_ge (l r : StringPiece) : bool := negb (piece_lt l r).

(** Inside of the piece [copy] copies its bytes. *)
Lemma copy_ok dst n pos p :
  piece_ok p -> (pos <= length_ p)%nat -> (Z.of_nat (length_ p) < 2 ^ 64) -> (Nat.min (length_ p - pos) n <= length dst)%nat ->
  copy dst n pos p =
    Some (Nat.min (length_ p - pos) n, take n (drop pos (data p)) ++ drop (Nat.min (length_ p - pos) n) dst).
Proof.
  intros Hp Hpos H64 Hd; unfold copy; rewrite wrap_small by (unfold uint; lia).
  replace (Z.to_nat _) with (Nat.min (length_ p - pos) n) by lia; set (r := Nat.min _ _) in *.
  unfold piece_ok in Hp; unfold read_at; rewrite (proj2 (Nat.leb_le _ _)) by lia; cbn [mbind option_bind].
  assert (Hsrc : take r (drop (ptr_ p + pos) (buffer p)) = take n (drop pos (data p))).
  { unfold data; rewrite <- drop_drop, skipn_firstn_comm, take_take; f_equal; lia. }
  assert (Hlen : length (take n (drop pos (data p))) = r) by (rewrite <- Hsrc, length_take, length_drop; lia).
  rewrite Hsrc, write_at_Some by lia; cbn; by rewrite Hlen.
Qed.

(** Behind its end the subtraction wraps around, and what follows the piece is copied. *)
Lemma copy_behind : copy [0; 0] 2 3 (mkPiece (bytes_of "abcdef") 0 2) = Some (2%nat, bytes_of "de").
Proof. reflexivity. Qed.

Lemma piece_cstr_data s : data (StringPiece_cstr (Some s)) = s /\ piece_ok (StringPiece_cstr (Some s)).
Proof. split; [cbn; apply take_app_length | unfold piece_ok; cbn; rewrite length_app; lia]. Qed.

Lemma ToString_data p : ToString p = data p.
Proof. unfold ToString, empty, data; destruct (Nat.eqb_spec (length_ p) 0) as [->|]; done. Qed.

(** ** The order of pieces *)

(** The lexicographic order of bytes. *)
Fixpoint lex (a b : bytes) : comparison :=
  match a, b with
  | [], [] => Eq
  | [], _ => Lt
  | _, [] => Gt
  | x :: a, y :: b => match x ?= y with Eq => lex a b | c => c end
  end.

Lemma lex_eq a : forall b, lex a b = Eq <-> a = b.
Proof.
  induction a as [|x a IH]; intros [|y b]; cbn; try done.
  destruct (Z.compare_spec x y) as [->| |]; [rewrite IH; split; congruence | split; [done|]; intros [= -> ->]; lia..].
Qed.
Lemma lex_antisym a : forall b, lex b a = CompOpp (lex a b).
Proof.
  induction a as [|x a IH]; intros [|y b]; cbn; try done.
  rewrite (Z.compare_antisym x y); destruct (x ?= y); cbn; [apply IH | done..].
Qed.
Lemma lex_trans a : forall b c, lex a b = Lt -> lex b c = Lt -> lex a c = Lt.
Proof.
  induction a as [|x a IH]; intros [|y b] [|z c]; cbn; try done.
  destruct (Z.compare_spec x y) as [->|Hxy|]; [|intros _|done]; destruct (Z.compare_spec y z) as [->|Hyz|]; try done.
  - apply IH.
  - intros _; by rewrite (proj2 (Z.compare_lt_iff x z)) by lia.
  - intros _; by rewrite (proj2 (Z.compare_lt_iff x z)) by lia.
Qed.

(** Comparing the common length and then the lengths is the lexicographic order. *)
Lemma memcmp_lex a : forall b,
  match memcmp (take (Nat.min (length a) (length b)) a) (take (Nat.min (length a) (length b)) b) with
  | Eq => Nat.compare (length a) (length b)
  | c => c
  end = lex a b.
Proof.
  induction a as [|x a IH]; intros [|y b]; cbn; try done.
  destruct (x ?= y); [apply IH | done..].
Qed.

Lemma common_length n m : (if (n <? m)%nat then n else m) = Nat.min n m.
Proof. destruct (Nat.ltb_spec n m); lia. Qed.

Lemma compare_lex a b : piece_ok a -> piece_ok b -> compare a b = lex (data a) (data b).
Proof.
  intros Ha Hb; unfold compare; rewrite common_length, <- memcmp_lex, !data_length by done.
  destruct (memcmp _ _); [|done..].
  destruct (Nat.ltb_spec (length_ a) (length_ b)), (Nat.ltb_spec (length_ b) (length_ a)), (Nat.compare_spec (length_ a) (length_ b)); (done || lia).
Qed.
Lemma piece_lt_lex a b : piece_ok a -> piece_ok b -> piece_lt a b = true <-> lex (data a) (data b) = Lt.
Proof.
  intros Ha Hb; unfold piece_lt; rewrite common_length, <- memcmp_lex, !data_length by done.
  destruct (memcmp _ _); [|done..].
  destruct (Nat.ltb_spec (length_ a) (length_ b)), (Nat.compare_spec (length_ a) (length_ b)); (done || lia).
Qed.

(** The operators are a total order whose equality is that of the bytes. *)
Lemma piece_order a b c :
  piece_ok a -> piece_ok b -> piece_ok c ->
  (piece_le a b = true \/ piece_le b a = true) /\
  (piece_le a b = true -> piece_le b a = true -> data a = data b) /\
  (piece_lt a b = true -> piece_lt b c = true -> piece_lt a c = true) /\
  (piece_eq a b = true <-> compare a b = Eq).
Proof.
  intros Ha Hb Hc; assert (Hle : forall x y, piece_ok x -> piece_ok y -> piece_le x y = true <-> lex (data x) (data y) <> Gt).
  { intros x y Hx Hy; unfold piece_le, piece_gt; rewrite negb_true_iff, <- not_true_iff_false, piece_lt_lex, lex_antisym by done.
    destruct (lex (data x) (data y)); cbn; intuition congruence. }
  rewrite !Hle, !piece_lt_lex, compare_lex, piece_eq_spec, lex_eq by done; split; [|split; [|split]].
  - rewrite (lex_antisym (data a) (data b)); destruct (lex (data a) (data b)); cbn; intuition congruence.
  - rewrite (lex_antisym (data a) (data b)); intros H1 H2; apply lex_eq; destruct (lex (data a) (data b)); cbn in *; done.
  - apply lex_trans.
  - done.
Qed.

Lemma eq_bytes_spec l r : eq_bytes (length l) l (length r) r = true <-> l = r.
Proof.
  assert (Hp : forall l : bytes, piece_ok (piece_of l)) by (intros x; unfold piece_ok; cbn; lia).
  assert (Hd : forall l : bytes, data (piece_of l) = l) by (intros x; unfold data; cbn; by rewrite drop_0, firstn_all).
  pose proof (piece_eq_spec (piece_of l) (piece_of r) (Hp l) (Hp r)) as He; rewrite !Hd in He; rewrite <- He.
  unfold eq_bytes, piece_eq; cbn [length_ piece_of]; rewrite !Hd; destruct (Nat.eqb_spec (length l) (length r)) as [Heq|]; cbn; [|done].
  by rewrite firstn_all, Heq, firstn_all.
Qed.

(** The comparisons with strings compare the bytes. *)
Lemma piece_eq_string_spec p s : piece_ok p -> (piece_eq_string p s = true <-> data p = s) /\ (string_eq_piece s p = true <-> data p = s).
Proof.
  intros Hp; unfold piece_eq_string, string_eq_piece; rewrite <- (data_length p Hp), !eq_bytes_spec; naive_solver.
Qed.

(** ** Floating-point numbers *)

Section Float.
(** [strtof] or [strtod]: the number, how many bytes were used, and whether [errno] was set. *)
Context {F : Type} (strto : bytes -> F * nat * bool).

(** [StringUtils::strToFloat] and [strToDouble] assign even when they fail. *)
Definition strToFloat (str : option bytes) (value : F) : bool * F :=
  match str with
  | None | Some [] => (false, value)
  | Some s => let '(v, used, err) := strto s in (negb err && (used =? length s)%nat, v)
  end.
Definition strToDouble (str : option bytes) (value : F) : bool * F :=
  match str with
  | None | Some [] => (false, value)
  | Some s => let '(v, used, err) := strto s in (negb err && (used =? length s)%nat, v)
  end.

(** [str::ToFloat] and [ToDouble]: the number is read from the memory, its end compared with
    that of the text. *)
Definition ToFloat (mem : bytes) (len : nat) : option F :=
  let '(r, used, err) := strto mem in if err || negb (used =? len)%nat then None else Some r.
Definition ToDouble (mem : bytes) (len : nat) : option F :=
  let '(r, used, err) := strto mem in if err || negb (used =? len)%nat then None else Some r.
Definition ToFloat_cstr (str : bytes) : option F := ToFloat str (length str).
Definition ToDouble_cstr (str : bytes) : option F := ToDouble str (length str).

(** [StringConvert] of a string or a piece of it. *)
Definition StringConvert_float (mem : bytes) (len : nat) : option F := ToFloat mem len.
Definition StringConvert_double (mem : bytes) (len : nat) : option F := ToDouble mem len.

Lemma ToFloat_strToFloat s value : s <> [] ->
  ToFloat_cstr s = (if (strToFloat (Some s) value).1 then Some (strToFloat (Some s) value).2 else None).
Proof.
  unfold ToFloat_cstr, ToFloat, strToFloat; destruct s as [|x s]; [done|]; intros _; destruct (strto (x :: s)) as [[v used] err].
  by destruct err, (used =? length (x :: s))%nat.
Qed.

(** A number in the middle of a text is refused when what follows it is read as part of it. *)
Lemma ToFloat_runs_on mem len v used : strto mem = (v, used, false) -> (len < used)%nat -> ToFloat mem len = None.
Proof. intros H Hl; unfold ToFloat; rewrite H; destruct (Nat.eqb_spec used len); [lia | done]. Qed.
End Float.

(** [StringConvert] of a type to itself, and of integers. *)
Definition StringConvert_same {S : Type} (s : S) : option S := Some s.
Definition StringConvert_int32 (mem : bytes) (len : nat) : option Z := ToInt32 mem len.
Definition StringConvert_uint32 (mem : bytes) (len : nat) : option Z := ToUint32 mem len.
Definition StringConvert_int64 (mem : bytes) (len : nat) : option Z := ToInt64 mem len.
Definition StringConvert_uint64 (mem : bytes) (len : nat) : option Z := ToUint64 mem len.

(** ** Vectors and maps *)

(** [toString] of a vector of vectors, whose elements are given as strings. *)
Definition toString_vectors (x : list (list bytes)) (delim1 delim2 : bytes) : bytes := join delim2 (join delim1 <$> x).

(** [GetValueFromMap]: [value] is kept when the key is missing. *)
Definition GetValueFromMap (params : gmap bytes bytes) (key value : bytes) : bool * bytes :=
  match params !! key with Some v => (true, v) | None => (false, value) end.
