(* ===== verification/MonitorSem.v ===== *)
(** * The semaphore of the monitor and its timers: the rest of src/common/monitor

    [Monitor] takes a lookup in the shared file as one step, because it is between [SemP] and
    [SemV].  Here the semaphore is made and used by processes step by step: once it is
    initialised one process at a time is between the two, even when processes are killed; while
    it is being initialised by two processes that is not so.  The timers and the macros that keep
    the address of a counter complete the interface. *)
From Stdlib Require Import ZArith Lia.
From stdpp Require Import base list option gmap.
From S2P Require Import Prelude Words Memory Strings Monitor.

Local Open Scope Z_scope.

(** ** The semaphore *)

(** Where a process is: before [semget], before the [semget] that creates, before [semctl], then
    outside, inside, or dead. *)
Inductive place : Type := Get_ | CreateSem | SetVal | Outside | Inside | Dead.
#[export] Instance place_eq_dec : EqDecision place.
Proof. solve_decision. Defined.
Record sems : Type := mkSems { sem : option Z; places : list place }.

Definition goto (i : nat) (p : place) (v : option Z) (s : sems) : sems := mkSems v (<[i := p]> (places s)).

(** [Init] in its three calls: a new semaphore is zero till [SETVAL]. *)
Definition Init_step (i : nat) (s : sems) : option sems :=
  match places s !! i with
  | Some Get_ => Some (goto i (match sem s with Some _ => Outside | None => CreateSem end) (sem s) s)
  | Some CreateSem => Some (goto i SetVal (match sem s with Some v => Some v | None => Some 0 end) s)
  | Some SetVal => Some (goto i Outside (Some 1) s)
  | _ => None
  end.
(** [SemP] and [SemV]; a call that is interrupted is made again, which is no step. *)
Definition SemP (i : nat) (s : sems) : option sems :=
  match places s !! i, sem s with
  | Some Outside, Some v => if 0 <? v then Some (goto i Inside (Some (v - 1)) s) else None
  | _, _ => None
  end.
Definition SemV (i : nat) (s : sems) : option sems :=
  match places s !! i, sem s with
  | Some Inside, Some v => Some (goto i Outside (Some (v + 1)) s)
  | _, _ => None
  end.
(** The end of a process: [SEM_UNDO] takes its operations back. *)
Definition Killed (i : nat) (s : sems) : option sems :=
  match places s !! i, sem s with
  | Some Inside, Some v => Some (goto i Dead (Some (v + 1)) s)
  | Some _, v => Some (goto i Dead v s)
  | None, _ => None
  end.

Inductive event : Type := EInit (i : nat) | EP (i : nat) | EV (i : nat) | EKill (i : nat).
Definition event_step (s : sems) (e : event) : sems :=
  default s (match e with EInit i => Init_step i s | EP i => SemP i s | EV i => SemV i s | EKill i => Killed i s end).

(** How many processes are inside. *)
Definition inside (l : list place) : nat := length (filter (fun p => p = Inside) l).

Lemma inside_insert l i p q :
  l !! i = Some p ->
  (inside (<[i := q]> l) + (if decide (p = Inside) then 1 else 0) = inside l + (if decide (q = Inside) then 1 else 0))%nat.
Proof.
  intros Hi; pose proof (lookup_lt_Some _ _ _ Hi); unfold inside.
  rewrite insert_take_drop by done; rewrite <- (take_drop_middle l i p Hi) at 3.
  rewrite !list.filter_app, !length_app, !filter_cons; case_decide; case_decide; cbn; lia.
Qed.

(** An initialised semaphore: no process sets it any more, and it is one less who is inside. *)
Definition SemInv (s : sems) : Prop :=
  sem s = Some (1 - Z.of_nat (inside (places s))) /\ (inside (places s) <= 1)%nat /\ Forall (fun p => p <> CreateSem /\ p <> SetVal) (places s).

Lemma SemInv_goto i p q v s :
  SemInv s -> places s !! i = Some p -> q <> CreateSem -> q <> SetVal ->
  v = Some (1 - Z.of_nat (inside (<[i := q]> (places s)))) -> (inside (<[i := q]> (places s)) <= 1)%nat -> SemInv (goto i q v s).
Proof. intros (_ & _ & Hf) Hi Hq1 Hq2 Hv Hle; split; [done|]; split; [done|]; by apply Forall_insert. Qed.

(** A process goes to [q]: the counts follow. *)
Ltac sem_move q :=
  match goal with Hi : places ?s !! ?i = Some _ |- _ =>
    eapply SemInv_goto; [done | exact Hi | done | done | |]; pose proof (inside_insert _ _ _ q Hi);
      repeat case_decide; try done; [f_equal|]; lia end.

Lemma event_step_Inv s e : SemInv s -> SemInv (event_step s e).
Proof.
  intros Hinv; pose proof Hinv as (Hv & Hle & Hf); rewrite list.Forall_forall in Hf.
  assert (Hno : forall i p, places s !! i = Some p -> p <> CreateSem /\ p <> SetVal) by (intros i p Hp; by eapply Hf, list_elem_of_lookup_2).
  destruct e as [i|i|i|i]; cbn; unfold Init_step, SemP, SemV, Killed; destruct (places s !! i) as [p|] eqn:Hi; try done;
    pose proof (Hno _ _ Hi) as [? ?]; destruct p; try done; rewrite ?Hv; cbn [default].
  1: sem_move Outside. 2: sem_move Outside. 2-5: sem_move Dead.
  destruct (Z.ltb_spec 0 (1 - Z.of_nat (inside (places s)))); [|done]; cbn; sem_move Inside.
Qed.

(** Over a semaphore that exists at most one process is inside at any time, whatever processes
    start, come and go and are killed; and when none is inside the next one can enter. *)
Lemma one_inside n l :
  let s := foldl event_step (mkSems (Some 1) (repeat Get_ n)) l in
  (inside (places s) <= 1)%nat /\
  (inside (places s) = 0%nat -> forall i, places s !! i = Some Outside -> is_Some (SemP i s)).
Proof.
  assert (H : SemInv (foldl event_step (mkSems (Some 1) (repeat Get_ n)) l)).
  { assert (H0 : SemInv (mkSems (Some 1) (repeat Get_ n))).
    { assert (inside (repeat Get_ n) = 0%nat) as Hn by (unfold inside; induction n as [|n IH]; [done|]; cbn [repeat]; by rewrite filter_cons_False).
      split; cbn [sem places]; rewrite ?Hn; [done|]; split; [lia|]; apply list.Forall_forall; intros p Hp; by apply list_elem_of_In, repeat_spec in Hp as ->. }
    revert H0; generalize (mkSems (Some 1) (repeat Get_ n)); induction l as [|e l IH]; intros s Hs; [done|]; cbn; by apply IH, event_step_Inv. }
  cbv zeta; set (s := foldl _ _ _) in *; destruct H as (Hv & Hle & _); split; [done|].
  intros H0 i Hi; unfold SemP; rewrite Hi, Hv, H0; cbn; by eexists.
Qed.

(** Two processes that start without a semaphore: the second sets it again when the first is
    inside already, and both are. *)
Lemma two_inside :
  places (foldl event_step (mkSems None [Get_; Get_])
    [EInit 0; EInit 1; EInit 0; EInit 0; EP 0; EInit 1; EInit 1; EP 1]) = [Inside; Inside].
Proof. reflexivity. Qed.

(** ** Timers and kept addresses *)

(** [MonitorStatusTimer]: the time is in microseconds; its difference is one of 64 bits, and the
    updater takes 32 of them. *)
Definition GetTime (tv_sec tv_usec : Z) : Z := wrap 64 (tv_sec * 1000000 + tv_usec).
Definition MonitorStatusTimer (start stop : Z) : list update := TimerCounterUpdater (wrap 64 (stop - start)) 1.

(** A time up to an hour is counted as it is; a clock that is set back counts as more than 71
    minutes. *)
Lemma timer_counts start stop : 0 <= start <= stop -> stop - start < 2 ^ 32 ->
  MonitorStatusTimer start stop = TimerCounterUpdater (stop - start) 1.
Proof.
  intros H1 H2; unfold MonitorStatusTimer, TimerCounterUpdater; rewrite (wrap_small 64 (stop - start)) by (unfold uint; lia); done.
Qed.
Lemma timer_set_back : MonitorStatusTimer 10 9 = TimerCounterUpdater 4294967295 1.
Proof. reflexivity. Qed.

(** MONITOR_STATUS_COUNTER_BY: the place in the code keeps the address that it asked for first. *)
Definition counter_by (module_name counter_key : list Z) (inc_count : Z) (kept : option nat) (p : MonitorStatusImpl) (l : RawMMapList)
    : run (MonitorStatusImpl * option nat) :=
  bind_run (match kept with Some cell => Done (p, cell) l | None => GetCounter module_name counter_key p l end) (fun '(p, cell) l =>
    match apply_updates cell (CounterUpdater inc_count) (area l) with
    | None => Fault
    | Some mem => Done (p, Some cell) (mkList (list_header l) mem)
    end).
(** MONITOR_STATUS_GET_TIMER_PTR and MONITOR_STATUS_NORMAL_GET_TIMER_PTR. *)
Definition get_timer_ptr (module_name timer_name : list Z) (kept : option nat) (p : MonitorStatusImpl) (l : RawMMapList)
    : run (MonitorStatusImpl * nat) :=
  match kept with Some cell => Done (p, cell) l | None => GetTimerCounter module_name timer_name p l end.
Definition normal_get_timer_ptr (module_name timer_name : list Z) (p : MonitorStatusImpl) (l : RawMMapList) : run (MonitorStatusImpl * nat) :=
  GetTimerCounter module_name timer_name p l.

(** With the name of its first use the macro counts like the one that looks the name up; with
    another name it counts for the first one all the same. *)
Lemma counter_by_first mo ke inc p l :
  counter_by mo ke inc None p l =
    bind_run (GetCounter mo ke p l) (fun '(p, cell) l => counter_by mo ke inc (Some cell) p l).
Proof. done. Qed.
Lemma counter_by_keeps mo ke mo' ke' inc cell p l : counter_by mo ke inc (Some cell) p l = counter_by mo' ke' inc (Some cell) p l.
Proof. done. Qed.
