(* ===== verification/Servers.v ===== *)
(** * Servers: src/orc/server/brpc_server.cc, src/orc/server/pb_rpc_server.cc,
    src/orc/server/pb_rpc_server.h, src/leader/brpc/brpc_server_register.cc,
    src/orc/framework/server_base.cc, src/orc/framework/orc_mgr.cc,
    src/orc/com/rpc_client/brpc_client.cc

    A server process opens its port, adds the ping service of its register, registers the port
    under a path of ZooKeeper, waits, and closes what it has opened.  The register and its reporter
    are those of [Heartbeat]; brpc, the YAML library and the name of the host are arguments. *)
From Stdlib Require Import ZArith Lia.
From stdpp Require Import base list option gmap strings.
From S2P Require Import Prelude Strings Dict Service Rpc Zk ZkCorrect Channels Heartbeat HeartbeatCorrect.

Local Open Scope Z_scope.

Definition SvrPort : string := "svr.port".
Definition SvrIoThreadNum : string := "svr.iothread.num".
Definition SvrServiceDiscovery : string := "svr.service.discovery".
Definition SvrMonitorStatusFile : string := "svr.monitor.status.file".
Definition PluginPath : string := "plugin.path".

(** ** brpc, YAML and the host *)

(** The service of the application, or the member [service_] of the register at an address. *)
Inductive service : Type := UserService | PingService (owner : nat).
Record brpc_Server : Type := mkServer { services : list service; listening : option Z }.

Class Machine : Type := {
  as_uint32 : YamlNode -> string -> option Z;
  as_int32 : YamlNode -> string -> option Z;
  AddService : list service -> service -> bool;
  bind_port : Z -> bool;
  zk_constructed : bytes -> bool;
  host_ip : option bytes;
  getpid : Z
}.

(** How a call ends: it returns, an exception leaves it, [LOG(FATAL)] ends the process, a null
    pointer is used, or the wrapper of ZooKeeper throws or does not return. *)
Inductive result (A : Type) : Type := Ret (a : A) | Threw | Fatal | NullPointer | NoReturn.
Arguments Ret {A} a.
Arguments Threw {A}.
Arguments Fatal {A}.
Arguments NullPointer {A}.
Arguments NoReturn {A}.
Definition bind {A B} (x : result A) (f : A -> result B) : result B :=
  match x with Ret a => f a | Threw => Threw | Fatal => Fatal | NullPointer => NullPointer | NoReturn => NoReturn end.
Notation "'let!' p := x 'in' f" := (bind x (fun p => f)) (at level 200, p pattern, x at level 100, f at level 200).
Definition returns {A} (x : option A) : result A := match x with Some a => Ret a | None => NoReturn end.

Section servers.
Context `{ZooConsts} `{ZooClient} `{Machine}.

(** ** The register *)

(** [class BrpcServerRegister]. *)
Record BrpcServerRegister : Type := mkBrpcRegister {
  base : ServerRegister;
  reg_server : option brpc_Server;
  ping_service_added_ : bool
}.
Definition new_BrpcServerRegister : BrpcServerRegister := mkBrpcRegister (mkRegister None [] 0) None false.

(** [class BrpcServer], with the registers that exist, the flag files that it has made and the
    wrapper of its reporter. *)
Record BrpcServer : Type := mkBrpc {
  server_ : option brpc_Server;
  service_publisher_ : option nat;
  registers : gmap nat BrpcServerRegister;
  next_register : nat;
  port_ : Z;
  status_ : bool;
  flag_files : list bytes;
  zk_world : world (L := closure)
}.
Implicit Types b : BrpcServer.

Definition set_server (x : option brpc_Server) b : BrpcServer :=
  mkBrpc x (service_publisher_ b) (registers b) (next_register b) (port_ b) (status_ b) (flag_files b) (zk_world b).
Definition set_registers (p : option nat) (m : gmap nat BrpcServerRegister) (n : nat) b : BrpcServer :=
  mkBrpc (server_ b) p m n (port_ b) (status_ b) (flag_files b) (zk_world b).
Definition set_port (p : Z) b : BrpcServer :=
  mkBrpc (server_ b) (service_publisher_ b) (registers b) (next_register b) p (status_ b) (flag_files b) (zk_world b).
Definition set_status (x : bool) b : BrpcServer :=
  mkBrpc (server_ b) (service_publisher_ b) (registers b) (next_register b) (port_ b) x (flag_files b) (zk_world b).
Definition touch (f : bytes) b : BrpcServer :=
  mkBrpc (server_ b) (service_publisher_ b) (registers b) (next_register b) (port_ b) (status_ b) (flag_files b ++ [f]) (zk_world b).
Definition set_world (s : world (L := closure)) b : BrpcServer :=
  mkBrpc (server_ b) (service_publisher_ b) (registers b) (next_register b) (port_ b) (status_ b) (flag_files b) s.
Definition set_register (r : nat) (x : BrpcServerRegister) b : BrpcServer :=
  set_registers (service_publisher_ b) (<[r := x]> (registers b)) (next_register b) b.

(** [AddPingService]: the server is given the address of the register's member. *)
Definition AddPingService (r : nat) (srv : brpc_Server) (x : BrpcServerRegister) : result (brpc_Server * BrpcServerRegister) :=
  if AddService (services srv) (PingService r)
  then Ret (mkServer (services srv ++ [PingService r]) (listening srv), mkBrpcRegister (base x) (reg_server x) true)
  else Fatal.

(** [BrpcServerRegister::Start]: without [AddPingService] it opens a server of its own. *)
Definition Register_Start (r : nat) (x : BrpcServerRegister) (s : world (L := closure)) : result (bool * BrpcServerRegister * world (L := closure)) :=
  match heartbeat_reporter_ (base x) with
  | None => NullPointer
  | Some _ =>
      let! (started, g, s) := returns (StartRegister (base x) s) in
      let x := mkBrpcRegister g (reg_server x) (ping_service_added_ x) in
      if negb started then Ret (false, x, s)
      else if ping_service_added_ x then Ret (true, x, s)
      else if negb (AddService [] (PingService r)) then Fatal
      else if negb (bind_port (reg_port g)) then Fatal
      else Ret (true, mkBrpcRegister g (Some (mkServer [PingService r] (Some (reg_port g)))) false, s)
  end.

(** [BrpcServerRegister::Close]: a server of its own is stopped. *)
Definition Register_Close (x : BrpcServerRegister) (s : world (L := closure)) : result (BrpcServerRegister * world (L := closure)) :=
  let! (g, s) := returns (CloseRegister (base x) s) in
  Ret (mkBrpcRegister g ((fun srv => mkServer (services srv) None) <$> reg_server x) (ping_service_added_ x), s).

(** [service_publisher_.reset(p)]: the destructor of an old register closes its base class. *)
Definition reset_publisher (p : option nat) b : result BrpcServer :=
  match service_publisher_ b with
  | None => Ret (set_registers p (registers b) (next_register b) b)
  | Some old =>
      match registers b !! old with
      | None => NullPointer
      | Some x =>
          let! (_, s) := returns (CloseRegister (base x) (zk_world b)) in
          Ret (set_world s (set_registers p (delete old (registers b)) (next_register b) b))
      end
  end.

(** [PingServiceImpl::Ping], called by a server that has the service. *)
Inductive ping_answer : Type := Unanswered | Answer (id : Z) | UsedAfterDeletion.
Fixpoint owner_of (l : list service) : option nat :=
  match l with [] => None | PingService r :: _ => Some r | UserService :: l => owner_of l end.
Definition Ping (id : Z) b : ping_answer :=
  match server_ b with
  | Some (mkServer l (Some _)) =>
      match owner_of l with
      | Some r => if decide (is_Some (registers b !! r)) then Answer id else UsedAfterDeletion
      | None => Unanswered
      end
  | _ => Unanswered
  end.

(** ** The server *)

Definition StartServer (orc config : YamlNode) b : result (bool * BrpcServer) :=
  match GetOrcConfig as_uint32 orc config SvrIoThreadNum with
  | None => Ret (false, b)
  | Some io_thread_num =>
      let b := set_server (Some (mkServer [] None)) b in
      if negb (AddService [] UserService) then Ret (false, b)
      else
        let b := set_server (Some (mkServer [UserService] None)) b in
        let r := next_register b in
        let! (srv, x) := AddPingService r (mkServer [UserService] None) new_BrpcServerRegister in
        let b := set_server (Some srv) (set_registers (service_publisher_ b) (<[r := x]> (registers b)) (S r) b) in
        let! b := reset_publisher (Some r) b in
        match GetOrcConfig as_uint32 orc config SvrPort with
        | None => Ret (false, b)
        | Some port =>
            let b := set_port port b in
            if negb (bind_port port) then Ret (false, b)
            else Ret (true, set_server (Some (mkServer (services srv) (Some port))) b)
        end
  end.

(** [StopServer]; the end of a server that was not stopped stops it. *)
Definition StopServer b : result (bool * BrpcServer) :=
  match status_ b, server_ b with
  | true, None => NullPointer
  | _, _ => Ret (true, set_server None b)
  end.

(** [InitLeader]: [substr] throws when there is no slash. *)
Definition InitLeader (service_discovery : bytes) b : result (bool * BrpcServer) :=
  match last_slash service_discovery with
  | None => Threw
  | Some (zkHost, path) =>
      match (r ← service_publisher_ b; x ← registers b !! r; Some (r, x)) with
      | None => NullPointer
      | Some (r, x) =>
          let '(done, g) := InitRegister (zk_constructed zkHost) (port_ b) [] host_ip 5 in
          let x := mkBrpcRegister g (reg_server x) (ping_service_added_ x) in
          if negb done then Ret (false, set_register r x b)
          else
            let! (_, x, s) := Register_Start r x (zk_world b) in
            Ret (true, set_world s (set_register r (mkBrpcRegister (AddPath path (base x)) (reg_server x) (ping_service_added_ x)) b))
      end
  end.

Definition flag_file : bytes := take 127 (bytes_of "/tmp/" ++ decimal (getpid mod 2 ^ 64) ++ bytes_of ".done").

Definition ServicePublish (orc config : YamlNode) b : result (bool * BrpcServer) :=
  match GetOrcConfig as_string orc config SvrServiceDiscovery with
  | None => Ret (false, b)
  | Some service_discovery =>
      if decide (service_discovery = "local"%string) then Ret (true, touch flag_file b)
      else
        match GetOrcConfig as_int32 orc config SvrPort with
        | None => Ret (false, b)
        | Some _ =>
            let! (done, b) := InitLeader (bytes_of service_discovery) b in
            if negb done then Ret (false, b) else Ret (true, touch flag_file b)
        end
  end.

Definition ServiceHide b : result (bool * BrpcServer) :=
  match service_publisher_ b with
  | None => Ret (true, b)
  | Some r =>
      match registers b !! r with
      | None => NullPointer
      | Some x =>
          let! (x, s) := Register_Close x (zk_world b) in
          let! b := reset_publisher None (set_world s (set_register r x b)) in
          Ret (true, b)
      end
  end.

(** [BaseRun]: up to the wait for [stop_], and the guard at its end.  [ready] is whether the
    logger, [OrcMgr::Setup] and the application's [Init] have succeeded. *)
Definition start_up (ready : bool) (orc config : YamlNode) b : result (bool * BrpcServer) :=
  if negb ready then Ret (false, b)
  else
    let! (ok, b) := StartServer orc config b in
    if negb ok then Ret (false, b)
    else
      let! (ok, b) := ServicePublish orc config b in
      if negb ok then Ret (false, b) else Ret (true, set_status true b).
Definition destroy_guard b : result BrpcServer :=
  let! (_, b) := ServiceHide b in
  let! (_, b) := StopServer b in
  Ret b.
Definition BaseRun (ready : bool) (orc config : YamlNode) b : result (bool * BrpcServer) :=
  if status_ b then Ret (true, b)
  else
    let! (ok, b) := start_up ready orc config b in
    let! b := destroy_guard b in
    Ret (ok, b).

(** ** The client of a server: rpc_client.cc and brpc_client.cc *)

(** [RpcClient::Init]: the path, the timeout, the number of channels and the interval. *)
Definition RpcClient_Init (config : YamlNode) : option (string * Z * Z * Z) :=
  leader_server_path_ ← as_string config "leader_server_path";
  leader_request_timeout_ms_ ← as_uint32 config "leader_request_timeout";
  leader_channel_count_ ← as_uint32 config "leader_channel_count";
  leader_hb_interval_s_ ← as_uint32 config "leader_hb_interval";
  Some (leader_server_path_, leader_request_timeout_ms_, leader_channel_count_, leader_hb_interval_s_).

(** The members of [class BrpcClient] and of its subscriber. *)
Record BrpcClient : Type := mkClient {
  client_host : bytes;
  client_path : bytes;
  client_pool : option BrpcChannelPool;
  client_receiver : HeartbeatReceiver;
  client_world : world (L := closure)
}.

(** [BrpcServerSubscriber::SharedInitializer] makes the channel pool; [ServerSubscriber::Init]
    then initialises the receiver. *)
Definition Subscriber_SharedInitializer (channel_count : Z) : option BrpcChannelPool := InitPool (Z.to_nat channel_count).
Definition Subscriber_Init (channel_count : Z) (v : HeartbeatReceiver) : bool * option BrpcChannelPool * HeartbeatReceiver :=
  match Subscriber_SharedInitializer channel_count with
  | None => (false, None, v)
  | Some pool => let '(done, v) := InitReceiver v in (done, Some pool, v)
  end.

(** [BrpcClient::Init]; the result of [Start] is not looked at. *)
Definition BrpcClient_Init (config : YamlNode) (s : world (L := closure)) : result (bool * option BrpcClient) :=
  match RpcClient_Init config with
  | None => Ret (false, None)
  | Some (leader_server_path_, timeout, channel_count, hb_interval) =>
      match last_slash (bytes_of leader_server_path_) with
      | None => Threw
      | Some (zkHost, path) =>
          let '(done, pool, v) := Subscriber_Init channel_count new_HeartbeatReceiver in
          if negb done then Ret (false, Some (mkClient zkHost path pool v s))
          else
            let! (_, _, v, s) := returns (StartSubscriber (Some false) v s) in
            Ret (true, Some (mkClient zkHost path pool (AddPaths [path] v) s))
      end
  end.

(** [RpcHandlerBase::BaseInit]: the method of the configuration must be one of the service;
    [Init] is the one of the handler. *)
Definition RpcHandler_BaseInit (methods : list string) (Init : YamlNode -> bool) (config : YamlNode) : bool * option string :=
  match as_string config "rpc_method" with
  | None => (false, None)
  | Some method_name => if decide (method_name ∈ methods) then (Init config, Some method_name) else (false, None)
  end.

(** ** The life of a server *)

(** No server is open, there is no register, and no session with ZooKeeper is open.  Nothing is
    said of [status_] and [port_] and of the flag files. *)
Definition session b : option zhandle := zhandle_ (wrapper (zk_world b)).

(** The register that is published is the only one. *)
Definition consistent b : Prop :=
  (service_publisher_ b = None /\ registers b = ∅) \/ exists r x, service_publisher_ b = Some r /\ registers b = {[r := x]}.

(** A session that is open is the one of the register that is published, and its own. *)
Definition closable b : Prop :=
  session b = None \/ exists r x rep, registers b = {[r := x]} /\ heartbeat_reporter_ (base x) = Some rep /\ zk_ rep = true /\ shared_zk_ rep = false.

(** The reporter's thread runs and has the node "ip:port" below a path to report, and nothing
    else; that it then is in ZooKeeper is in [HeartbeatCorrect]. *)
Definition announces (path ip : bytes) (port : Z) (rep : HeartbeatReporter) : Prop :=
  heartbeat_message_ rep = Some (mkMessage ip port) /\ reporting rep = true /\
  dom (node_path_map_ rep) = {[JoinPath path (node_name (mkMessage ip port))]}.

(** What a server that waits for its end promises: it listens to the port of its configuration,
    has the ping service, and unless it is local its reporter announces this very port at the
    place that the configuration names. *)
Definition serving (orc config : YamlNode) b : Prop :=
  exists port r x d,
    GetOrcConfig as_uint32 orc config SvrPort = Some port /\ port_ b = port /\ status_ b = true /\
    server_ b = Some (mkServer [UserService; PingService r] (Some port)) /\
    service_publisher_ b = Some r /\ registers b = {[r := x]} /\ flag_file ∈ flag_files b /\
    GetOrcConfig as_string orc config SvrServiceDiscovery = Some d /\
    ((d = "local"%string /\ heartbeat_reporter_ (base x) = None) \/
     (exists zkHost path ip rep,
        last_slash (bytes_of d) = Some (zkHost, path) /\ zk_constructed zkHost = true /\ host_ip = Some ip /\ port <= 65535 /\
        heartbeat_reporter_ (base x) = Some rep /\ announces path ip port rep)).











(** Hiding closes and deletes the register, with its session. *)
Lemma CloseReporter_session rep (s : world (L := closure)) rep' s' :
  CloseReporter rep s = Some (rep', s') ->
  (zhandle_ (wrapper s) = None \/ zk_ rep = true /\ shared_zk_ rep = false) -> zhandle_ (wrapper s') = None.
Proof.
  unfold CloseReporter, ShutdownAndWait; destruct (zk_ rep), (shared_zk_ rep); cbn; try (intros [= _ <-] [?|[? ?]]; done).
  destruct (zhandle_ (wrapper s)) as [h|]; cbn; [|by intros [= _ <-]].
  destruct (zookeeper_close (client s) h) as [[z code]|]; [|done]; destruct (code =? ZOK); [|done]; by intros [= _ <-].
Qed.
Lemma ServiceHide_spec b :
  consistent b -> closable b ->
  match ServiceHide b with
  | Ret (ok, b') => ok = true /\ service_publisher_ b' = None /\ registers b' = ∅ /\ session b' = None /\
      server_ b' = server_ b /\ status_ b' = status_ b /\ flag_files b' = flag_files b
  | NoReturn => exists r x rep, registers b = {[r := x]} /\ heartbeat_reporter_ (base x) = Some rep
  | _ => False
  end.
Proof.
  intros [[Hp Hr] | (r & x & Hp & Hr)] Hcl; unfold ServiceHide; rewrite Hp.
  { destruct Hcl as [Hcl | (r & x & rep & Hr' & _)]; [split_and!; done|].
    rewrite Hr in Hr'; apply (f_equal (lookup r)) in Hr'; by rewrite lookup_singleton_eq, lookup_empty in Hr'. }
  rewrite Hr, lookup_singleton_eq; unfold Register_Close, CloseRegister at 1; destruct (heartbeat_reporter_ (base x)) as [rep|] eqn:Hrep.
  - destruct (CloseReporter rep (zk_world b)) as [[rep' s]|] eqn:Ec; cbn; [|by exists r, x, rep].
    unfold reset_publisher; cbn; rewrite Hp, lookup_insert_eq; cbn; split_and!; try done; [rewrite Hr, insert_singleton_eq; apply delete_singleton_eq|].
    apply (CloseReporter_session rep (zk_world b) rep' s Ec); destruct Hcl as [? | (r0 & x0 & rep0 & Hr0 & Hx0 & ?)]; [by left | right].
    rewrite Hr in Hr0; apply map_singleton_inj in Hr0 as [_ <-]; congruence.
  - cbn; unfold reset_publisher; cbn; rewrite Hp, lookup_insert_eq; cbn; unfold CloseRegister; cbn; rewrite Hrep; cbn.
    split_and!; try done; [rewrite Hr, insert_singleton_eq; apply delete_singleton_eq|].
    destruct Hcl as [? | (r0 & x0 & rep0 & Hr0 & Hx0 & _)]; [done|]; rewrite Hr in Hr0; apply map_singleton_inj in Hr0 as [_ <-]; congruence.
Qed.

Lemma serving_consistent orc config b : serving orc config b -> consistent b.
Proof. intros (port & r & x & d & ? & ? & ? & ? & ? & ? & ?); right; eauto. Qed.

Lemma hidden_server_is_pinged orc config b id ok b' :
  serving orc config b -> closable b -> ServiceHide b = Ret (ok, b') -> Ping id b' = UsedAfterDeletion.
Proof.
  intros Hsv Hcl Hh; pose proof (ServiceHide_spec b (serving_consistent _ _ _ Hsv) Hcl) as H2; rewrite Hh in H2.
  destruct Hsv as (port & r & x & d & _ & _ & _ & Hs & _), H2 as (_ & _ & Hr & _ & Hs' & _).
  unfold Ping; rewrite Hs', Hs; cbn [owner_of]; rewrite Hr, decide_False; [done | rewrite lookup_empty; by intros []].
Qed.






(** A server that has run stays marked as started: a second run does nothing and is a success. *)
Lemma second_run_does_nothing ready orc config b : status_ b = true -> BaseRun ready orc config b = Ret (true, b).
Proof. intros Hb; unfold BaseRun; by rewrite Hb. Qed.


(** A client whose leader path is the discovery of a server listens to the very place where the
    server announces itself. *)
Lemma client_finds_server orc config b cconfig s d c :
  serving orc config b -> GetOrcConfig as_string orc config SvrServiceDiscovery = Some d -> d <> "local"%string ->
  as_string cconfig "leader_server_path" = Some d -> BrpcClient_Init cconfig s = Ret (true, Some c) ->
  is_Some (paths_ (client_receiver c) !! client_path c) /\
  exists r x ip rep, registers b !! r = Some x /\ zk_constructed (client_host c) = true /\
    heartbeat_reporter_ (base x) = Some rep /\ announces (client_path c) ip (port_ b) rep.
Proof.
  intros (port & r & x & d' & _ & <- & _ & _ & _ & Hr & _ & Hd' & Hcase) Hd Hl Hp; assert (d' = d) as -> by congruence.
  destruct Hcase as [[? _] | (zkHost & path & ip & rep & Hsl & Hzk & _ & _ & Hrep & Ha)]; [done|].
  unfold BrpcClient_Init; destruct (RpcClient_Init cconfig) as [[[[d' t] n] i]|] eqn:Hc; [|done].
  unfold RpcClient_Init in Hc; rewrite Hp in Hc; cbn in Hc; repeat (apply bind_Some in Hc as (? & _ & Hc)); injection Hc as <- _ _ _.
  rewrite Hsl; destruct (Subscriber_Init _ _) as [[[] pool] v]; cbn [negb]; [|done].
  destruct (StartSubscriber _ _ _) as [[[[? ?] v'] s']|]; cbn [returns bind]; [|done]; intros [= <-]; cbn.
  split; [|exists r, x, ip, rep; split_and!; try done; by rewrite Hr, lookup_singleton_eq].
  unfold add_path; destruct (paths_ v' !! path) as [i'|] eqn:E; cbn; [by rewrite E | by rewrite lookup_insert_eq].
Qed.

End servers.

(** ** Answers: pb_rpc_server.h *)

(** [PbRpcClosure::Done]: the text that the controller is failed with, if it is; the closure of
    the call is run once in either case. *)
Record rpc_answer : Type := mkAnswer { set_failed : option string; done_runs : nat }.
Definition PbRpcClosure_Done (c : ServiceClosure) (a : rpc_answer) : rpc_answer :=
  mkAnswer (match ret_code c with Success => set_failed a | _ => Some (message c) end) (S (done_runs a)).

(** ** The monitor file of a server: orc_mgr.cc *)

(** Files of the host by name, as the objects that processes map. *)
Record host : Type := mkHost { named : gmap string nat; next_object : nat }.
Definition open_or_create (f : string) (h : host) : nat * host :=
  match named h !! f with
  | Some o => (o, h)
  | None => (next_object h, mkHost (<[f := next_object h]> (named h)) (S (next_object h)))
  end.
(** [InitMonitorStatus]: the file is removed and made anew; whether the monitor could be set up
    is not looked at.  The result has the object that the process maps. *)
Definition InitMonitorStatus (orc config : YamlNode) (h : host) : bool * option nat * host :=
  match GetOrcConfig as_string orc config SvrMonitorStatusFile with
  | None => (false, None, h)
  | Some f => let '(o, h) := open_or_create f (mkHost (delete f (named h)) (next_object h)) in (true, Some o, h)
  end.

(** Two servers with the same file, as by default, do not share it: a reader of the file finds
    the object of the second one only. *)
Lemma second_server_takes_file orc config config' h f o1 h1 o2 h2 :
  GetOrcConfig as_string orc config SvrMonitorStatusFile = Some f ->
  GetOrcConfig as_string orc config' SvrMonitorStatusFile = Some f ->
  InitMonitorStatus orc config h = (true, o1, h1) -> InitMonitorStatus orc config' h1 = (true, o2, h2) ->
  o1 <> o2 /\ named h2 !! f = o2.
Proof.
  unfold InitMonitorStatus, open_or_create; intros -> ->; cbn; rewrite lookup_delete_eq; cbn; intros [= <- <-]; cbn.
  rewrite lookup_delete_eq; cbn; intros [= <- <-]; cbn; split; [intros [=]; lia | apply lookup_insert_eq].
Qed.


Definition demo_read (n : YamlNode) (k : string) : option Z :=
  if decide (k = SvrPort) then Some 80 else if decide (k = SvrIoThreadNum) then Some 4 else None.
#[local] Existing Instance Client.consts.
#[local] Existing Instance Server.tree_client.
#[local] Instance demo_machine : Machine := {
  as_uint32 := demo_read; as_int32 := demo_read;
  AddService := fun _ _ => true; bind_port := fun _ => true; zk_constructed := fun _ => true;
  host_ip := Some [49; 50]; getpid := 7
}.
