(* ===== verification/Detector.v ===== *)
(** * The detector of bad nodes and its parallel pings: src/leader/brpc/brpc_call.h,
    src/leader/brpc/brpc_call.cc, src/leader/brpc/brpc_channel_group.cc,
    src/leader/brpc/brpc_bad_node_detector.cc

    [CheckChannels] pings channels in parallel: the waiter and the counter of failures are on
    its stack, the calls are objects on the heap that delete themselves, and answers may come in
    any order and before the last ping is sent.  [Channels] has the same check with one answer
    after the other; here the steps of the answers interleave.  The detector's thread repeats
    such checks until it is stopped. *)
From Stdlib Require Import ZArith Lia.
From stdpp Require Import base list option gmap.
From S2P Require Import Prelude Strings Channels Sync.

(** ** A parallel check *)

(** How far a call is: sent, the channel moved, a failure counted, the waiter notified, deleted. *)
Inductive phase : Type := Sent | Moved (status : bool) | Counted (status : bool) | Notified (status : bool) | Deleted (status : bool).

(** The frame of [CheckChannels] has [waiter] and [bad]; it is gone when the function has
    returned.  [moves] are the calls of [MoveFromBad2Good] and [MoveFromGood2Bad]. *)
Record check_state : Type := mkCheck {
  to_send : list chan;
  calls : list (chan * phase);
  frame : option (Waiter * nat);
  waits : bool;
  returned : option bool;
  moves : list (chan * bool)
}.

Inductive check_event : Type := Ping | HandleImpl (k : nat) | CountBad (k : nat) | NotifyWaiter (k : nat) | DeleteThis (k : nat) | EnterWait | Resume (i : nat) | Spurious (i : nat).

(** A step is not possible, uses the frame after its end, or goes on. *)
Inductive outcome : Type := Impossible | UseAfterReturn | Next (s : check_state).

Section check.
Context (up : chan -> bool) (capacity : nat).

Definition set_call (k : nat) (c : chan) (ph : phase) (s : check_state) : check_state :=
  mkCheck (to_send s) (<[k := (c, ph)]> (calls s)) (frame s) (waits s) (returned s) (moves s).
Definition set_frame (f : option (Waiter * nat)) (s : check_state) : check_state :=
  mkCheck (to_send s) (calls s) f (waits s) (returned s) (moves s).

(** [BrpcCheckerPingCall::Ping]: a call is made and sent. *)
Definition Checker_Ping (s : check_state) : outcome :=
  match to_send s with
  | [] => Impossible
  | c :: l => Next (mkCheck l (calls s ++ [(c, Sent)]) (frame s) (waits s) (returned s) (moves s))
  end.

(** [BrpcCheckerPingCall::HandleResponse] in four steps: the base class moves the channel, a
    failure is counted, the waiter is notified, and the call deletes itself, which the check
    does not wait for. *)
Definition Checker_HandleImpl (k : nat) (s : check_state) : outcome :=
  match calls s !! k with
  | Some (c, Sent) =>
      let s := set_call k c (Moved (up c)) s in
      Next (mkCheck (to_send s) (calls s) (frame s) (waits s) (returned s) (moves s ++ [(c, up c)]))
  | _ => Impossible
  end.
Definition Checker_CountBad (k : nat) (s : check_state) : outcome :=
  match calls s !! k with
  | Some (c, Moved true) => Next (set_call k c (Counted true) s)
  | Some (c, Moved false) =>
      match frame s with
      | None => UseAfterReturn
      | Some (w, bad) => Next (set_frame (Some (w, S bad)) (set_call k c (Counted false) s))
      end
  | _ => Impossible
  end.
Definition Checker_Notify (k : nat) (s : check_state) : outcome :=
  match calls s !! k with
  | Some (c, Counted ok) =>
      match frame s with
      | None => UseAfterReturn
      | Some (w, bad) => Next (set_frame (Some (Notify w, bad)) (set_call k c (Notified ok) s))
      end
  | _ => Impossible
  end.
Definition Checker_Delete (k : nat) (s : check_state) : outcome :=
  match calls s !! k with Some (c, Notified ok) => Next (set_call k c (Deleted ok) s) | _ => Impossible end.

(** The end of [waiter.Wait()], if the thread returns from it, and of [CheckChannels]. *)
Definition after_wait (w : Waiter) (r : list nat) (bad : nat) (s : check_state) : check_state :=
  match r with
  | [] => mkCheck (to_send s) (calls s) (Some (w, bad)) true (returned s) (moves s)
  | _ => mkCheck (to_send s) (calls s) None true (Some (bad <? capacity)%nat) (moves s)
  end.
Definition in_waiter (e : waiter_event) (s : check_state) : outcome :=
  match frame s with
  | None => Impossible
  | Some (w, bad) => match waiter_step e w with None => Impossible | Some (w, r) => Next (after_wait w r bad s) end
  end.

Definition check_step (e : check_event) (s : check_state) : outcome :=
  match e with
  | Ping => Checker_Ping s
  | HandleImpl k => Checker_HandleImpl k s
  | CountBad k => Checker_CountBad k s
  | NotifyWaiter k => Checker_Notify k s
  | DeleteThis k => Checker_Delete k s
  | EnterWait => match to_send s, waits s with [], false => in_waiter (WWait 0) s | _, _ => Impossible end
  | Resume i => in_waiter (WResume i) s
  | Spurious i => in_waiter (WSpurious i) s
  end.

(** [CheckChannels] on the channels that it has found bad. *)
Definition check_start (channels : list chan) : check_state :=
  mkCheck channels [] (Some (new_Waiter (swrap 32 (Z.of_nat (length channels))), 0)) false None [].

Inductive reached (l : list chan) : check_state -> Prop :=
| reached_start : reached l (check_start l)
| reached_step e s s' : reached l s -> check_step e s = Next s' -> reached l s'.

(** ** The invariant *)

Definition deleted (x : chan * phase) : bool := match x.2 with Deleted _ => true | _ => false end.
Definition notified (x : chan * phase) : bool := match x.2 with Notified _ | Deleted _ => true | _ => false end.
Definition failure (x : chan * phase) : bool := match x.2 with Counted false | Notified false | Deleted false => true | _ => false end.
Definition moved (x : chan * phase) : option (chan * bool) :=
  match x.2 with Sent => None | Moved b | Counted b | Notified b | Deleted b => Some (x.1, b) end.
Definition honest (x : chan * phase) : Prop := match x.2 with Sent => True | Moved b | Counted b | Notified b | Deleted b => b = up x.1 end.
Definition count {A} (p : A -> bool) (l : list A) : nat := length (filter (fun x => p x = true) l).

Record CheckInv (l : list chan) (s : check_state) : Prop := {
  ci_chans : (calls s).*1 ++ to_send s = l;
  ci_honest : Forall honest (calls s);
  ci_moves : moves s ≡ₚ omap moved (calls s);
  ci_frame : match frame s with
    | Some (w, bad) =>
        returned s = None /\ num_wait_ w = (Z.of_nat (length l) - Z.of_nat (count notified (calls s)))%Z /\
        bad = count failure (calls s) /\
        (if waits s then to_send s = [] /\ blocked (cv_ w) ++ woken (cv_ w) = [0] else blocked (cv_ w) = [] /\ woken (cv_ w) = []) /\
        (blocked (cv_ w) = [] \/ (0 < num_wait_ w)%Z)
    | None => to_send s = [] /\ Forall (fun x => notified x = true) (calls s) /\
        returned s = Some (count failure (calls s) <? capacity)%nat
    end
}.

Lemma count_of_app {A} (p : A -> bool) l k : count p (l ++ k) = (count p l + count p k)%nat.
Proof. unfold count; by rewrite list.filter_app, length_app. Qed.
Lemma count_le {A} (p : A -> bool) l : (count p l <= length l)%nat.
Proof. unfold count; apply length_filter. Qed.
Lemma count_all {A} (p : A -> bool) l : count p l = length l -> Forall (fun x => p x = true) l.
Proof.
  induction l as [|x l IH]; intros H; [constructor|]; unfold count in *; rewrite filter_cons in H; case_decide as Hx; cbn in H.
  - constructor; [done | apply IH; lia].
  - pose proof (length_filter (fun x => p x = true) l); lia.
Qed.
Lemma count_full {A} (p : A -> bool) l : Forall (fun x => p x = true) l -> count p l = length l.
Proof. induction 1 as [|x l Hx _ IH]; [done|]; unfold count in *; rewrite filter_cons, decide_True by done; cbn; by rewrite IH. Qed.
Lemma count_insert {A} (p : A -> bool) l k x y : l !! k = Some x ->
  (count p (<[k := y]> l) + (if p x then 1 else 0) = count p l + (if p y then 1 else 0))%nat.
Proof.
  intros Hk; rewrite insert_take_drop by (by eapply lookup_lt_Some).
  rewrite <- (take_drop_middle l k x Hk) at 3; rewrite !count_of_app; change (y :: drop (S k) l) with ([y] ++ drop (S k) l).
  change (x :: drop (S k) l) with ([x] ++ drop (S k) l); rewrite !count_of_app.
  assert (H1 : forall z, count p [z] = if p z then 1%nat else 0%nat).
  { intros z; unfold count; rewrite filter_cons, filter_nil; case_decide as Hz; destruct (p z); cbn; congruence. }
  rewrite !H1; lia.
Qed.

Lemma start_check_inv l : (Z.of_nat (length l) < 2 ^ 31)%Z -> CheckInv l (check_start l).
Proof.
  intros Hl; constructor; cbn; try done; rewrite swrap_id by lia; split_and!; try done; [cbn; lia | by left].
Qed.

Lemma omap_insert {A B} (f : A -> option B) (l : list A) k x y z :
  l !! k = Some x -> f x = None -> f y = Some z -> omap f (<[k := y]> l) ≡ₚ omap f l ++ [z].
Proof.
  intros Hk Hx Hy; rewrite insert_take_drop by (by eapply lookup_lt_Some).
  rewrite <- (take_drop_middle l k x Hk) at 3; rewrite !omap_app; cbn; rewrite Hx, Hy, <- app_assoc.
  apply Permutation_app_head; rewrite Permutation_app_comm; done.
Qed.
Lemma omap_same {A B} (f : A -> option B) (l : list A) k x y : l !! k = Some x -> f x = f y -> omap f (<[k := y]> l) = omap f l.
Proof.
  intros Hk Hx; rewrite insert_take_drop by (by eapply lookup_lt_Some).
  rewrite <- (take_drop_middle l k x Hk) at 3; rewrite !omap_app; cbn; by rewrite Hx.
Qed.

(** The facts of the calls when one of them moves on. *)
Lemma insert_call (cs : list (chan * phase)) k (c : chan) ph ph' :
  cs !! k = Some (c, ph) -> (<[k := (c, ph')]> cs).*1 = cs.*1.
Proof. intros Hk; rewrite list_fmap_insert; apply list_insert_id; by rewrite list_lookup_fmap, Hk. Qed.

Lemma frame_of_step (l : list chan) s w bad : CheckInv l s -> frame s = Some (w, bad) ->
  returned s = None /\ num_wait_ w = (Z.of_nat (length l) - Z.of_nat (count notified (calls s)))%Z /\
  bad = count failure (calls s) /\
  (if waits s then to_send s = [] /\ blocked (cv_ w) ++ woken (cv_ w) = [0] else blocked (cv_ w) = [] /\ woken (cv_ w) = []) /\
  (blocked (cv_ w) = [] \/ (0 < num_wait_ w)%Z).
Proof. intros [_ _ _ Hf] E; by rewrite E in Hf. Qed.

Lemma count_none {A} (p : A -> bool) l k x : l !! k = Some x -> p x = false -> (count p l < length l)%nat.
Proof.
  intros Hk Hx; pose proof (count_le p l) as Hle; apply le_lt_eq_dec in Hle as [?|He]; [done|].
  apply count_all in He; rewrite Forall_lookup in He; rewrite (He k x Hk) in Hx; done.
Qed.

(** A call that has not notified keeps the frame. *)
Lemma frame_kept l s k c ph : CheckInv l s -> calls s !! k = Some (c, ph) -> notified (c, ph) = false -> exists w bad, frame s = Some (w, bad).
Proof.
  intros [_ _ _ Hf] Hk Hd; destruct (frame s) as [[w bad]|]; [eauto|]; destruct Hf as (_ & Hall & _).
  rewrite Forall_lookup in Hall; specialize (Hall k _ Hk); cbn in Hall; congruence.
Qed.

Lemma no_use_after_return l e s : CheckInv l s -> check_step e s <> UseAfterReturn.
Proof.
  intros Hi; destruct e as [|k|k|k|k| |i|i]; cbn; unfold Checker_Ping, Checker_HandleImpl, Checker_CountBad, Checker_Notify, Checker_Delete, in_waiter; repeat case_match; try done; subst.
  - destruct (frame_kept l s k _ _ Hi ltac:(eassumption)) as (? & ? & ?); [done | congruence].
  - destruct (frame_kept l s k _ _ Hi ltac:(eassumption)) as (? & ? & ?); [done | congruence].
Qed.

Lemma ping_inv l s s' : CheckInv l s -> Checker_Ping s = Next s' -> CheckInv l s'.
Proof.
  intros Hi; pose proof Hi as [Hc Hh Hm Hf]; unfold Checker_Ping; destruct (to_send s) as [|c r] eqn:Hs; [done|]; intros [= <-].
  constructor; cbn [to_send calls frame waits returned moves].
  - by rewrite fmap_app, <- app_assoc.
  - apply Forall_app; split; [done | by constructor].
  - rewrite omap_app; cbn; by rewrite app_nil_r.
  - destruct (frame s) as [[w bad]|]; [|by destruct Hf]; rewrite !count_of_app; change (count _ [(c, Sent)]) with 0%nat.
    change (count failure [(c, Sent)]) with 0%nat; rewrite !Nat.add_0_r; destruct Hf as (? & ? & ? & Hw & ?); split_and!; try done.
    destruct (waits s); [by destruct Hw | done].
Qed.

(** A call that moves on, with the change of the frame that goes with it. *)
Lemma call_inv l s k c ph ph' f' mv' :
  CheckInv l s -> calls s !! k = Some (c, ph) -> honest (c, ph') -> notified (c, ph) = false ->
  mv' ≡ₚ omap moved (<[k := (c, ph')]> (calls s)) ->
  (forall w bad, frame s = Some (w, bad) -> exists w' bad', f' = Some (w', bad') /\
     (bad' + (if failure (c, ph) then 1 else 0) = bad + (if failure (c, ph') then 1 else 0))%nat /\
     (num_wait_ w' = num_wait_ w - if notified (c, ph') then 1 else 0)%Z /\
     (cv_ w' = cv_ w /\ num_wait_ w' = num_wait_ w \/ cv_ w' = notify_all (cv_ w))) ->
  CheckInv l (mkCheck (to_send s) (<[k := (c, ph')]> (calls s)) f' (waits s) (returned s) mv').
Proof.
  intros Hi Hk Hh Hd Hm Hf; pose proof Hi as [Hc Hho _ _]; constructor; cbn [to_send calls frame waits returned moves]; [by rewrite (insert_call _ _ _ _ _ Hk) | by apply Forall_insert | done|].
  destruct (frame_kept l s k c ph Hi Hk Hd) as (w & bad & E); destruct (Hf w bad E) as (w' & bad' & -> & Hb & Hn & Hcv).
  destruct (frame_of_step l s w bad Hi E) as (Hr & Hn0 & Hb0 & Hw & Hbl).
  pose proof (count_insert notified (calls s) k (c, ph) (c, ph') Hk) as H1; pose proof (count_insert failure (calls s) k (c, ph) (c, ph') Hk) as H2.
  rewrite Hd in H1; split_and!; [done | destruct (notified (c, ph')); lia | lia | |].
  - destruct Hcv as [[-> _] | ->]; [done|]; cbn; destruct (waits s); [done|]; destruct Hw as [-> ->]; done.
  - destruct Hcv as [[-> ->] | ->]; [done | by left].
Qed.

(** A call that deletes itself changes nothing else. *)
Lemma delete_inv l s k s' : CheckInv l s -> Checker_Delete k s = Next s' -> CheckInv l s'.
Proof.
  intros Hi; pose proof Hi as [Hc Hh Hm Hf]; unfold Checker_Delete; destruct (calls s !! k) as [[c [| | |ok|]]|] eqn:Hk; try done; intros [= <-].
  pose proof (count_insert notified (calls s) k _ (c, Deleted ok) Hk) as H1; pose proof (count_insert failure (calls s) k _ (c, Deleted ok) Hk) as H2.
  assert (Hn : count notified (<[k := (c, Deleted ok)]> (calls s)) = count notified (calls s)) by (cbn in H1; lia).
  assert (Hb : count failure (<[k := (c, Deleted ok)]> (calls s)) = count failure (calls s)) by (cbn in H2; destruct ok; lia).
  constructor; cbn [set_call to_send calls frame waits returned moves].
  - by rewrite (insert_call _ _ _ _ _ Hk).
  - apply Forall_insert; [done | by apply (Forall_lookup_1 _ _ _ _ Hh Hk)].
  - by rewrite (omap_same moved _ _ _ _ Hk).
  - rewrite Hn, Hb; destruct (frame s) as [[w bad]|]; [done|]; destruct Hf as (? & Hall & ?); split_and!; try done; by apply Forall_insert.
Qed.

Lemma wait_inv l s w bad e w' r :
  CheckInv l s -> frame s = Some (w, bad) -> waiter_step e w = Some (w', r) ->
  match e with WWait t => t = 0%nat /\ to_send s = [] /\ waits s = false | WSpurious _ | WResume _ => True | _ => False end ->
  CheckInv l (after_wait w' r bad s).
Proof.
  intros Hi E Hs He; destruct (frame_of_step l s w bad Hi E) as (Hr & Hn & Hb & Hw & Hbl); pose proof Hi as [Hc Hho Hm _].
  assert (Hone : r <> [] -> to_send s = [] -> (num_wait_ w <= 0)%Z -> CheckInv l (after_wait w' r bad s)).
  { intros Hne Hts Hz; destruct r; [done|]; constructor; cbn [after_wait to_send calls frame waits returned moves]; try done; split_and!; [done | apply count_all | by rewrite Hb].
    pose proof (count_le notified (calls s)); assert (length l = length (calls s)) by (rewrite <- Hc, Hts, app_nil_r, length_fmap; done); lia. }
  assert (Hstay : r = [] -> num_wait_ w' = num_wait_ w -> to_send s = [] -> blocked (cv_ w') ++ woken (cv_ w') = [0] ->
    (blocked (cv_ w') = [] \/ (0 < num_wait_ w')%Z) -> CheckInv l (after_wait w' r bad s)).
  { intros -> Hnw Hts Hcv Hb'; constructor; cbn [after_wait to_send calls frame waits returned moves]; try done; split_and!; try done; by rewrite Hnw. }
  destruct e as [t| |n|i|i]; cbn in Hs; try done.
  - destruct He as (-> & Hts & Hwt); rewrite Hwt in Hw; destruct Hw as [Hw1 Hw2]; unfold Wait in Hs.
    destruct (Z.ltb_spec 0 (num_wait_ w)); injection Hs as <- <-; [|by apply Hone]; apply Hstay; cbn; auto; by rewrite Hw1, Hw2.
  - unfold spurious in Hs; destruct (blocked (cv_ w) !! i) as [t|] eqn:Et; [|done]; cbn in Hs; injection Hs as <- <-.
    destruct (waits s); [|destruct Hw as [Hw _]; by rewrite Hw in Et]; destruct Hw as [Hts Hw].
    destruct (blocked (cv_ w)) as [|b0 [|]] eqn:Eb; [done| |by destruct (woken (cv_ w))]; destruct i; [|done]; injection Et as <-.
    injection Hw as -> Hw; destruct Hbl as [?|Hbl]; [done|]; apply Hstay; cbn; auto; by rewrite Hw.
  - destruct (resume i (cv_ w)) as [[t c]|] eqn:Er; [|done]; cbn in Hs; injection Hs as Hs.
    unfold resume in Er; destruct (woken (cv_ w) !! i) as [t'|] eqn:Et; [|done]; injection Er as -> <-.
    destruct (waits s); [|destruct Hw as [_ Hw]; by rewrite Hw in Et]; destruct Hw as [Hts Hw].
    destruct (blocked (cv_ w)) as [|b0 [|]] eqn:Eb; [| |by destruct (woken (cv_ w))]; [|injection Hw as -> Hw; by rewrite Hw in Et].
    cbn in Hw; rewrite Hw in Et; destruct i; [|done]; injection Et as <-; unfold Wait in Hs; cbn in Hs.
    destruct (Z.ltb_spec 0 (num_wait_ w)); injection Hs as <- <-; [apply Hstay; cbn; auto; by rewrite Hw | by apply Hone].
Qed.

Lemma check_step_inv l e s s' : CheckInv l s -> check_step e s = Next s' -> CheckInv l s'.
Proof.
  intros Hi; pose proof Hi as [_ _ Hm _]; destruct e as [|k|k|k|k| |i|i]; cbn.
  - by apply ping_inv.
  - unfold Checker_HandleImpl; destruct (calls s !! k) as [[c []]|] eqn:Hk; try done; intros [= <-].
    apply (call_inv l s k c Sent); try done.
    + rewrite (omap_insert moved _ _ _ _ (c, up c) Hk) by done; by apply Permutation_app_tail.
    + intros w bad E; exists w, bad; cbn; split_and!; try done; try lia; by left.
  - unfold Checker_CountBad; destruct (calls s !! k) as [[c [|[]| | |]]|] eqn:Hk; try done.
    + intros [= <-]; apply (call_inv l s k c (Moved true)); try done; [by apply (Forall_lookup_1 _ _ _ _ (ci_honest _ _ Hi) Hk) | by rewrite (omap_same moved _ _ _ _ Hk)|].
      intros w bad E; exists w, bad; cbn; split_and!; try done; try lia; by left.
    + destruct (frame s) as [[w bad]|] eqn:E; [|done]; intros [= <-]; apply (call_inv l s k c (Moved false)); try done; [by apply (Forall_lookup_1 _ _ _ _ (ci_honest _ _ Hi) Hk) | by rewrite (omap_same moved _ _ _ _ Hk)|].
      intros w0 bad0 E0; assert (w0 = w /\ bad0 = bad) as [-> ->] by (split; congruence); exists w, (S bad); cbn; split_and!; try done; try lia; by left.
  - unfold Checker_Notify; destruct (calls s !! k) as [[c [| |ok| |]]|] eqn:Hk; try done; destruct (frame s) as [[w bad]|] eqn:E; [|done]; intros [= <-].
    apply (call_inv l s k c (Counted ok)); try done; [by apply (Forall_lookup_1 _ _ _ _ (ci_honest _ _ Hi) Hk) | by rewrite (omap_same moved _ _ _ _ Hk)|].
    intros w0 bad0 E0; assert (w0 = w /\ bad0 = bad) as [-> ->] by (split; congruence); exists (Notify w), bad; cbn; split_and!; try done; by right.
  - by apply delete_inv.
  - destruct (to_send s) eqn:Hts; [|done]; destruct (waits s) eqn:Hwt; [done|]; unfold in_waiter; destruct (frame s) as [[w bad]|] eqn:E; [|done].
    destruct (waiter_step (WWait 0) w) as [[w' r]|] eqn:Ew; [|done]; intros [= <-]; by apply (wait_inv l s w bad (WWait 0) w' r Hi E Ew).
  - unfold in_waiter; destruct (frame s) as [[w bad]|] eqn:E; [|done].
    destruct (waiter_step (WResume i) w) as [[w' r]|] eqn:Ew; [|done]; intros [= <-]; by apply (wait_inv l s w bad (WResume i) w' r Hi E Ew).
  - unfold in_waiter; destruct (frame s) as [[w bad]|] eqn:E; [|done].
    destruct (waiter_step (WSpurious i) w) as [[w' r]|] eqn:Ew; [|done]; intros [= <-]; by apply (wait_inv l s w bad (WSpurious i) w' r Hi E Ew).
Qed.


Lemma reached_inv l s : (Z.of_nat (length l) < 2 ^ 31)%Z -> reached l s -> CheckInv l s.
Proof. intros Hl; induction 1; [by apply start_check_inv | by eapply check_step_inv]. Qed.

(** ** The check comes to its end *)

Definition weight (x : chan * phase) : nat := match x.2 with Sent => 5 | Moved _ => 4 | Counted _ => 3 | Notified _ => 1 | Deleted _ => 0 end.
Definition measure (s : check_state) : nat :=
  (6 * length (to_send s) + sum_list_with weight (calls s) + (if waits s then 0 else 1) +
   match frame s with Some (w, _) => length (woken (cv_ w)) + 1 | None => 0 end)%nat.

Lemma weight_insert cs k x y : cs !! k = Some x ->
  (sum_list_with weight (<[k := y]> cs) + weight x = sum_list_with weight cs + weight y)%nat.
Proof.
  intros Hk; rewrite insert_take_drop by (by eapply lookup_lt_Some).
  rewrite <- (take_drop_middle cs k x Hk) at 3; rewrite !sum_list_with_app; cbn; lia.
Qed.

(** Every step but a spurious wake-up brings the end nearer. *)
Lemma measure_decreases l e s s' :
  CheckInv l s -> check_step e s = Next s' -> (forall i, e <> Spurious i) -> (measure s' < measure s)%nat.
Proof.
  intros Hi Hs He; unfold measure; destruct e as [|k|k|k|k| |i|i]; cbn in Hs; [.. | by destruct (He i)].
  - unfold Checker_Ping in Hs; destruct (to_send s); [done|]; injection Hs as <-; cbn; rewrite sum_list_with_app; cbn; lia.
  - unfold Checker_HandleImpl in Hs; destruct (calls s !! k) as [[c []]|] eqn:Hk; try done; injection Hs as <-; cbn.
    pose proof (weight_insert (calls s) k _ (c, Moved (up c)) Hk) as H1; cbn in H1; lia.
  - unfold Checker_CountBad in Hs; destruct (calls s !! k) as [[c [|[]| | |]]|] eqn:Hk; try done.
    + injection Hs as <-; cbn; pose proof (weight_insert (calls s) k _ (c, Counted true) Hk) as H1; cbn in H1; lia.
    + destruct (frame s) as [[w bad]|] eqn:E; [|done]; injection Hs as <-; cbn.
      pose proof (weight_insert (calls s) k _ (c, Counted false) Hk) as H1; cbn in H1; lia.
  - unfold Checker_Notify in Hs; destruct (calls s !! k) as [[c [| |ok| |]]|] eqn:Hk; try done; destruct (frame s) as [[w bad]|] eqn:E; [|done].
    injection Hs as <-; cbn; pose proof (weight_insert (calls s) k _ (c, Notified ok) Hk) as H1; cbn in H1; rewrite length_app.
    assert (length (blocked (cv_ w)) <= 1)%nat; [|lia].
    destruct (frame_of_step l s w bad Hi E) as (_ & _ & _ & Hw & _); destruct (waits s); [|by destruct Hw as [-> _]; cbn; lia].
    destruct Hw as [_ Hw]; apply (f_equal length) in Hw; rewrite length_app in Hw; cbn in Hw; lia.
  - unfold Checker_Delete in Hs; destruct (calls s !! k) as [[c [| | |ok|]]|] eqn:Hk; try done; injection Hs as <-; cbn.
    pose proof (weight_insert (calls s) k _ (c, Deleted ok) Hk) as H1; cbn in H1; lia.
  - destruct (to_send s) eqn:Hts; [|done]; destruct (waits s) eqn:Hwt; [done|]; unfold in_waiter in Hs; destruct (frame s) as [[w bad]|] eqn:E; [|done].
    cbn in Hs; unfold Wait in Hs; destruct (0 <? num_wait_ w)%Z; injection Hs as <-; cbn; rewrite Hts; cbn; lia.
  - unfold in_waiter in Hs; destruct (frame s) as [[w bad]|] eqn:E; [|done]; cbn in Hs.
    destruct (frame_of_step l s w bad Hi E) as (_ & _ & _ & Hw & _).
    destruct (resume i (cv_ w)) as [[t c]|] eqn:Er; [|done]; apply resume_spec in Er as [_ Hl]; cbn in Hs; unfold Wait in Hs; cbn in Hs.
    destruct (waits s); [|destruct Hw as [_ Hw]; rewrite Hw in Hl; done].
    destruct (0 <? num_wait_ w)%Z; injection Hs as <-; cbn; lia.
Qed.

(** The check has returned and all its calls are deleted. *)
Definition finished (s : check_state) : Prop := returned s <> None /\ Forall (fun x => deleted x = true) (calls s).

(** Until then there is such a step. *)
Lemma call_progress l s : CheckInv l s -> ~ Forall (fun x => deleted x = true) (calls s) ->
  exists e s', (forall i, e <> Spurious i) /\ check_step e s = Next s'.
Proof.
  intros Hi Hn; apply (not_Forall_Exists _) in Hn; apply list.Exists_exists in Hn as ([c ph] & Hin & Hd); apply list_elem_of_lookup_1 in Hin as [k Hk].
  destruct ph as [|b|b|b|b]; [exists (HandleImpl k) | exists (CountBad k) | exists (NotifyWaiter k) | exists (DeleteThis k) | by cbn in Hd]; cbn.
  - unfold Checker_HandleImpl; rewrite Hk; eauto.
  - unfold Checker_CountBad; rewrite Hk; destruct (frame_kept l s k _ _ Hi Hk eq_refl) as (? & ? & ->); destruct b; eauto.
  - unfold Checker_Notify; rewrite Hk; destruct (frame_kept l s k _ _ Hi Hk eq_refl) as (? & ? & ->); eauto.
  - unfold Checker_Delete; rewrite Hk; eauto.
Qed.
Lemma notified_of_deleted cs : Forall (fun x => deleted x = true) cs -> Forall (fun x : chan * phase => notified x = true) cs.
Proof. intros H; apply (list.Forall_impl (fun x => deleted x = true)); [exact H | by intros [c []]]. Qed.
Lemma check_progress l s :
  CheckInv l s -> ~ finished s -> exists e s', (forall i, e <> Spurious i) /\ check_step e s = Next s'.
Proof.
  intros Hi Hnf; destruct (to_send s) as [|c r] eqn:Hts.
  2:{ exists Ping; cbn; unfold Checker_Ping; rewrite Hts; eauto. }
  destruct (decide (Forall (fun x => deleted x = true) (calls s))) as [Hall|Hn]; [|by eapply call_progress].
  destruct (frame s) as [[w bad]|] eqn:E; [|destruct Hnf; split; [destruct Hi as [_ _ _ Hf]; rewrite E in Hf; destruct Hf as (_ & _ & ->); done | done]].
  destruct (frame_of_step l s w bad Hi E) as (_ & Hnum & _ & Hw & Hb); destruct (waits s) eqn:Hwt.
  - assert (Hz : (num_wait_ w <= 0)%Z).
    { rewrite Hnum, <- (ci_chans _ _ Hi), Hts, app_nil_r, length_fmap; rewrite (count_full _ _ (notified_of_deleted _ Hall)); lia. }
    destruct Hw as [_ Hw]; destruct Hb as [Hb|?]; [|lia]; rewrite Hb in Hw; cbn in Hw.
    exists (Resume 0); cbn; unfold in_waiter; rewrite E; cbn; unfold resume; rewrite Hw; cbn; destruct (Wait 0 _); eexists; split; [done | reflexivity].
  - exists EnterWait; cbn; rewrite Hts, Hwt; unfold in_waiter; rewrite E; cbn; destruct (Wait 0 w); eauto.
Qed.

(** The sequential check counts the same. *)
Lemma ping_all_bad l : forall bad p bad' p', ping_all up l bad p = Some (bad', p') -> bad' = (bad + length (filter (fun c => up c = false) l))%nat.
Proof.
  induction l as [|c l IH]; intros bad p bad' p'; cbn [ping_all]; [intros [= <- _]; cbn; lia|].
  destruct (HandleResponseImpl _ _ _); [|done]; intros H%IH; rewrite filter_cons; destruct (up c); case_decide; cbn in *; try done; lia.
Qed.

(** What the frame counts in the end. *)
Lemma failures_of cs :
  Forall honest cs -> Forall (fun x => notified x = true) cs ->
  count failure cs = length (filter (fun c => up c = false) cs.*1) /\ omap moved cs = (fun c => (c, up c)) <$> cs.*1.
Proof.
  induction 1 as [|[c ph] cs Hh _ IH]; intros Hd; [done|]; apply list.Forall_cons in Hd as [Hx Hd]; destruct (IH Hd) as [IH1 IH2].
  cbn [fmap list_fmap fst]; rewrite filter_cons; unfold count in *; rewrite filter_cons.
  assert (failure (c, ph) = negb (up c) /\ moved (c, ph) = Some (c, up c)) as [Hf Hm] by (destruct ph as [| | |b|b]; try done; cbn in *; subst b; by destruct (up c)).
  rewrite Hf; split; [|change (omap moved ((c, ph) :: cs)) with (match moved (c, ph) with Some y => y :: omap moved cs | None => omap moved cs end); by rewrite Hm, IH2].
  destruct (up c); [by rewrite !decide_False by done|]; rewrite !decide_True by done; cbn [length]; by rewrite IH1.
Qed.

Lemma check_result l s b :
  CheckInv l s -> returned s = Some b ->
  to_send s = [] /\ Forall (fun x => notified x = true) (calls s) /\ (calls s).*1 = l /\
  moves s ≡ₚ (fun c => (c, up c)) <$> l /\ b = (length (filter (fun c => up c = false) l) <? capacity)%nat.
Proof.
  intros [Hc Hh Hm Hf] Hr; destruct (frame s) as [[w bad]|]; [destruct Hf; congruence|]; destruct Hf as (Hts & Hall & Hb).
  rewrite Hts, app_nil_r in Hc; subst l; destruct (failures_of _ Hh Hall) as [Hcnt Hmv]; rewrite Hmv in Hm; rewrite Hcnt, Hr in Hb.
  split_and!; try done; congruence.
Qed.

End check.

(** C40: the parallel check of a group of channels, for every order in which the pings are sent,
    answered and counted, the waiter wakes up and the calls delete themselves.  No call uses the
    stack of the check after it has returned.  Until the check has returned and every call is
    deleted, some step other than a spurious wake-up is possible, and every such step brings that
    end nearer.  When it returns, every call has notified the waiter, so that it has at most its
    own deletion left, every channel was moved once by its own answer, and the result is the one
    of the check that asks the channels one by one.  The group has fewer than 2^31 channels to
    check, as they are counted by an [int]. *)
Theorem parallel_check (up : chan -> bool) (i : nat) (p : BrpcChannelPool) (g : BrpcChannelGroup) (s : check_state) :
  groups p !! i = Some g -> (Z.of_nat (length (to_check g)) < 2 ^ 31)%Z ->
  reached up (channel_capacity_ g) (to_check g) s ->
  (forall e, check_step up (channel_capacity_ g) e s <> UseAfterReturn) /\
  (~ finished s -> exists e s', (forall k, e <> Spurious k) /\ check_step up (channel_capacity_ g) e s = Next s') /\
  (forall e s', check_step up (channel_capacity_ g) e s = Next s' -> (forall k, e <> Spurious k) -> (measure s' < measure s)%nat) /\
  (forall b, returned s = Some b ->
     Forall (fun x => notified x = true) (calls s) /\ moves s ≡ₚ (fun c => (c, up c)) <$> to_check g /\
     forall b' p', CheckChannels up i p = Some (b', p') -> b = b').
Proof.
  intros Hg Hl Hr; pose proof (reached_inv _ _ _ _ Hl Hr) as Hi; split; [|split; [|split]].
  - intros e; by eapply no_use_after_return.
  - intros Hn; by eapply check_progress.
  - intros e s'; by eapply measure_decreases.
  - intros b Hb; destruct (check_result _ _ _ _ _ Hi Hb) as (_ & Hall & _ & Hm & ->); split_and!; try done.
    intros b' p'; unfold CheckChannels; rewrite Hg.
    destruct (ping_all up (to_check g) 0 p) as [[bad p1]|] eqn:Ep; [|done]; cbn; intros [= <- _]; by rewrite (ping_all_bad _ _ _ _ _ _ Ep).
Qed.

(** A run by its events. *)
Fixpoint check_run (up : chan -> bool) (capacity : nat) (l : list check_event) (s : check_state) : option check_state :=
  match l with
  | [] => Some s
  | e :: l => match check_step up capacity e s with Next s => check_run up capacity l s | _ => None end
  end.
Lemma check_run_reached up capacity l es : forall s s',
  reached up capacity l s -> check_run up capacity es s = Some s' -> reached up capacity l s'.
Proof.
  induction es as [|e es IH]; intros s s' Hs; cbn; [intros [= <-]; done|].
  destruct (check_step up capacity e s) as [| |s1] eqn:E; try done; apply IH; by eapply reached_step.
Qed.

(** Two channels, of which the second does not answer; the first answer comes before the second
    ping, the second one after the check has begun to wait, and the check returns before the
    second call deletes itself. *)
Definition two_channels : BrpcChannelGroup := mkGroup 2 2 0 [(Some 0, false); (Some 1, false)].
Definition two_pool : BrpcChannelPool := Channels.mkPool 2 ∅ {[0 := two_channels]} {[0 := 0; 1 := 0]} 1 2 [].
Definition two_run : list check_event :=
  [Ping; HandleImpl 0; Ping; CountBad 0; EnterWait; HandleImpl 1; NotifyWaiter 0; DeleteThis 0; Resume 0; CountBad 1; NotifyWaiter 1; Resume 0].
Definition second_down (c : chan) : bool := (c =? 0)%nat.
Lemma parallel_check_witness :
  exists s, reached second_down 2 (to_check two_channels) s /\ returned s = Some true /\ (deleted <$> calls s) = [true; false] /\
    Forall (fun x => notified x = true) (calls s) /\
    exists e s', (forall k, e <> Spurious k) /\ check_step second_down 2 e s = Next s' /\ (measure s' < measure s)%nat.
Proof.
  destruct (check_run second_down 2 two_run (check_start (to_check two_channels))) as [s|] eqn:E; [|vm_compute in E; discriminate E].
  assert (Hs : reached second_down 2 (to_check two_channels) s) by (eapply check_run_reached; [apply reached_start | exact E]).
  assert (Hr : returned s = Some true) by (vm_compute in E; injection E as <-; reflexivity).
  assert (Hd : (deleted <$> calls s) = [true; false]) by (vm_compute in E; injection E as <-; reflexivity).
  assert (Hl : (Z.of_nat (length (to_check two_channels)) < 2 ^ 31)%Z) by (cbn; lia).
  destruct (parallel_check second_down 0 two_pool two_channels s eq_refl Hl Hs) as (_ & H2 & H3 & H4).
  exists s; split; [exact Hs|]; split; [exact Hr|]; split; [exact Hd|]; split; [apply (H4 true Hr)|].
  destruct H2 as (e & s' & He & Hst).
  - intros [_ Hall]; destruct (calls s) as [|x [|y [|]]]; try discriminate Hd; injection Hd as _ Hy; apply Forall_inv_tail, Forall_inv in Hall; congruence.
  - exists e, s'; split; [exact He|]; split; [exact Hst | exact (H3 e s' Hst He)].
Defined.

(** ** The thread of the detector *)

(** Where the thread is: at the test of its loop, in [DoDetect], in [Sleep], at its end. *)
Inductive spot : Type := AtTest | Detecting | Sleeping | Ended.
Record detector : Type := mkDetector { running : checker; thread : option spot; rounds : nat }.
Definition new_detector : detector := mkDetector (new_checker false) None 0.

(** [StartDetect]; a thread that was not joined must not be assigned to: [None]. *)
Definition StartDetect (d : detector) : option detector :=
  if running_ (running d) then Some d
  else
    c ← checker_step (CSet true) (running d);
    c ← checker_step CNotify c;
    match thread d with
    | Some _ => None
    | None => Some (mkDetector c (Some AtTest) (rounds d))
    end.

(** [StopDetect] up to its [join], and the join. *)
Definition StopDetect (d : detector) : option detector :=
  c ← checker_step (CSet false) (running d);
  c ← checker_step CNotify c;
  Some (mkDetector c (thread d) (rounds d)).
Definition join_detect (d : detector) : option detector :=
  match thread d with
  | None => Some d
  | Some Ended => Some (mkDetector (running d) None (rounds d))
  | Some _ => None
  end.

(** A step of the thread. *)
Inductive detect_event : Type := LoopTest | DetectAndSleep | InSleep (e : checker_event) | WokenUp.
Definition sleep_event (e : checker_event) : bool := match e with CClear | CTest | CBlock | CTimeout | CSpurious => true | _ => false end.
Definition detect_step (e : detect_event) (d : detector) : option detector :=
  match e, thread d with
  | LoopTest, Some AtTest => Some (mkDetector (running d) (Some (if running_ (running d) then Detecting else Ended)) (rounds d))
  | DetectAndSleep, Some Detecting => c ← checker_step CSleep (running d); Some (mkDetector c (Some Sleeping) (S (rounds d)))
  | InSleep e, Some Sleeping =>
      if sleep_event e then c ← checker_step e (running d); Some (mkDetector c (Some Sleeping) (rounds d)) else None
  | WokenUp, Some Sleeping => match at_ (running d) with Back _ => Some (mkDetector (running d) (Some AtTest) (rounds d)) | _ => None end
  | _, _ => None
  end.

(** The thread is in [Sleep] exactly where the checker has it. *)
Definition detector_ok (d : detector) : Prop :=
  match thread d with
  | Some Sleeping => at_ (running d) <> Outside /\ sleeping (running d) = true
  | Some _ | None => match at_ (running d) with Outside | Back _ => True | _ => False end
  end.

Lemma detect_step_ok e d d' : detector_ok d -> detect_step e d = Some d' -> detector_ok d' /\ running_ (running d') = running_ (running d).
Proof.
  destruct d as [[r f sl p n] [[]|] k], e as [| |ev|]; cbn; intros Hok Hs; try done.
  - destruct r; injection Hs as <-; done.
  - destruct p; try done; unfold enter in Hs; cbn in Hs; destruct r; injection Hs as <-; done.
  - destruct ev; try done; destruct p; cbn in Hs; try done; destruct Hok as [_ ->]; unfold goes in Hs; cbn in Hs;
      repeat case_match; simplify_eq/=; done.
  - destruct p; try done; injection Hs as <-; done.
Qed.

(** How far a stopped thread is from its end. *)
Definition distance (d : detector) : nat :=
  match thread d with
  | Some AtTest => 1
  | Some Detecting => 8
  | Some Sleeping => match at_ (running d) with Entered => 6 | Tested => 5 | Blocked => 4 | Cleared => 3 | Back _ => 2 | Outside => 7 end
  | Some Ended | None => 0
  end.

(** After a stop the thread ends, although a stop may be lost by the sleep, which has a timeout:
    until then it has a step, every step brings it nearer, and it detects at most once more. *)
Lemma stopped_detector_ends d :
  detector_ok d -> running_ (running d) = false -> thread d <> None -> thread d <> Some Ended ->
  (exists e d', detect_step e d = Some d') /\
  (forall e d', detect_step e d = Some d' -> (distance d' < distance d)%nat) /\
  (forall e d', detect_step e d = Some d' -> rounds d' = (rounds d + match thread d with Some Detecting => 1 | _ => 0 end)%nat /\ thread d' <> Some Detecting).
Proof.
  destruct d as [[r f sl p n] [[]|] k]; cbn; intros Hok -> H1 H2; try done; split_and!.
  - by exists LoopTest; eexists.
  - intros e d'; destruct e as [| |[]|]; cbn; intros [= <-]; cbn; lia.
  - intros e d'; destruct e as [| |[]|]; cbn; intros [= <-]; cbn; split; (lia || done).
  - exists DetectAndSleep; cbn; destruct p; try done; by eexists.
  - intros e d'; destruct e as [| |[]|]; cbn; try done; destruct p; cbn; try done; intros [= <-]; cbn; lia.
  - intros e d'; destruct e as [| |[]|]; cbn; try done; destruct p; cbn; try done; intros [= <-]; cbn; split; (lia || done).
  - destruct Hok as [Hp ->]; destruct p; try done; [exists (InSleep CClear) | exists (InSleep CTest) | exists (InSleep CBlock) | exists (InSleep CTimeout) | exists WokenUp]; cbn; by eexists.
  - intros e d'; destruct e as [| |[]|]; cbn; try done; destruct p; cbn; try done; destruct sl; unfold goes; cbn; intros; simplify_eq/=; cbn; lia.
  - intros e d'; destruct e as [| |[]|]; cbn; try done; destruct p; cbn; try done; destruct sl; unfold goes; cbn; intros; simplify_eq/=; split; (lia || done).
Qed.

(** A stop that comes while the thread is about to sleep is noticed after the interval only. *)
Lemma stop_waits_for_timeout :
  exists d, detector_ok d /\ running_ (running d) = false /\ at_ (running d) = Blocked /\
    forall e d', detect_step e d = Some d' -> e = InSleep CTimeout \/ e = InSleep CSpurious.
Proof.
  exists (mkDetector (mkChecker false false true Blocked 0) (Some Sleeping) 1); split_and!; try done.
  intros e d'; destruct e as [| |[]|]; cbn; try done; auto.
Qed.
