(* ===== verification/Loader.v ===== *)
(** * The loader of plugins: src/orc/plugin/plugin_loader.cc

    The three functions around dlopen, dlsym and dlclose, which report errors through
    [dlerror].  The dynamic loader is an argument; [Plugins] takes the same loader without its
    errors, and here it is shown that the code around it gives what [Plugins] assumes. *)
From Stdlib Require Import ZArith Lia.
From stdpp Require Import base gmap list option.
From S2P Require Import Prelude Strings Dict Plugins.

Local Open Scope Z_scope.

(** What the loader finds, with the text of its error if it finds nothing: libraries by path,
    the address of a symbol, which may be null, and the closing of a handle. *)
Class Dl : Type := {
  dl_open : bytes -> Z + bytes;
  dl_sym : Z -> bytes -> Z + bytes;
  dl_close : Z -> option bytes;
  dl_open_not_null path h : dl_open path = inl h -> h <> 0
}.

(** The state of the loader: the error that [dlerror] gives next, and the open handles. *)
Record dl_state : Type := mkDl { pending : option bytes; handles : list Z }.

Section loader.
Context `{Dl}.
Implicit Types d : dl_state.

(** dlerror(3): the text of the last error since it was called, which it forgets. *)
Definition dlerror d : option bytes * dl_state := (pending d, mkDl None (handles d)).
Definition call_dlopen (path : bytes) d : Z * dl_state :=
  match dl_open path with inl h => (h, mkDl (pending d) (h :: handles d)) | inr e => (0, mkDl (Some e) (handles d)) end.
Definition call_dlsym (h : Z) (name : bytes) d : Z * dl_state :=
  match dl_sym h name with inl a => (a, d) | inr e => (0, mkDl (Some e) (handles d)) end.
Definition call_dlclose (h : Z) d : Z * dl_state :=
  match dl_close h with None => (0, mkDl (pending d) (close_one h (handles d))) | Some e => (-1, mkDl (Some e) (handles d)) end.

(** [err_msg->assign(p)]: a null pointer is no string ([None]). *)
Definition assign (text : option bytes) : option bytes := text.

(** [PluginLoader::Load]: the result, the handle, the message. *)
Definition Load (path : bytes) (err_msg : bytes) d : option (bool * Z * bytes * dl_state) :=
  let '(plugin, d) := call_dlopen path d in
  if plugin =? 0 then let '(e, d) := dlerror d in e ← assign e; Some (false, plugin, e, d)
  else Some (true, plugin, err_msg, d).

(** [PluginLoader::FindSymbol]: the result, the symbol, the message. *)
Definition FindSymbol (plugin : Z) (name : bytes) (symbol : Z) (err_msg : bytes) d : option (bool * Z * bytes * dl_state) :=
  if plugin =? 0 then Some (false, symbol, bytes_of "plugin is nullptr.", d)
  else
    let '(_, d) := dlerror d in
    let '(symbol, d) := call_dlsym plugin name d in
    let '(err, d) := dlerror d in
    match err with
    | Some e => Some (false, symbol, e, d)
    | None => Some (true, symbol, err_msg, d)
    end.

(** [PluginLoader::Close]. *)
Definition Close (plugin : Z) (err_msg : bytes) d : option (bool * bytes * dl_state) :=
  if plugin =? 0 then Some (true, err_msg, d)
  else
    let '(r, d) := call_dlclose plugin d in
    if negb (r =? 0) then let '(e, d) := dlerror d in e ← assign e; Some (false, e, d)
    else Some (true, err_msg, d).

(** An error that was pending before does not disturb a search, and a symbol is found exactly
    when the library has it, even if its address is null. *)
Lemma FindSymbol_spec plugin name symbol msg d :
  plugin <> 0 ->
  exists d', handles d' = handles d /\ pending d' = None /\
    FindSymbol plugin name symbol msg d =
      match dl_sym plugin name with inl a => Some (true, a, msg, d') | inr e => Some (false, 0, e, d') end.
Proof.
  intros Hp; unfold FindSymbol, call_dlsym, dlerror; rewrite (proj2 (Z.eqb_neq _ _) Hp); cbn.
  exists (mkDl None (handles d)); split_and!; try done; destruct (dl_sym plugin name); done.
Qed.

Lemma Load_spec path msg d :
  exists d', Load path msg d =
      match dl_open path with inl h => Some (true, h, msg, d') | inr e => Some (false, 0, e, d') end /\
    handles d' = match dl_open path with inl h => h :: handles d | inr _ => handles d end.
Proof.
  unfold Load, call_dlopen, dlerror, assign; destruct (dl_open path) as [h|e] eqn:E; cbn.
  - rewrite (proj2 (Z.eqb_neq h 0) (dl_open_not_null path h E)); by eexists.
  - by eexists.
Qed.

Lemma Close_spec h msg d :
  h <> 0 ->
  exists d', Close h msg d = match dl_close h with None => Some (true, msg, d') | Some e => Some (false, e, d') end /\
    handles d' = match dl_close h with None => close_one h (handles d) | Some _ => handles d end.
Proof.
  intros Hh; unfold Close, call_dlclose, dlerror, assign; rewrite (proj2 (Z.eqb_neq h 0) Hh); destruct (dl_close h); cbn; by eexists.
Qed.

(** ** [Plugin::Init] over the loader *)

Definition kPluginEntryFuncName : bytes := bytes_of "OrcPluginEntryFunc".

(** [Plugin::Init]: [call] is what an entry function gives; the symbol is called without a look
    at its address ([None] when it is null). *)
Definition Init_by_loader (call : Z -> option PluginInfo) (path : bytes) d : option (bool * Plugin * dl_state) :=
  '(ok, raw_lib_, msg, d) ← Load path [] d;
  if negb ok then Some (false, mkPlugin path None None, d)
  else
    '(ok, entry_func, msg, d) ← FindSymbol raw_lib_ kPluginEntryFuncName 0 msg d;
    if negb ok then Some (false, mkPlugin path None (Some raw_lib_), d)
    else if entry_func =? 0 then None
    else
      match call entry_func with
      | None => Some (false, mkPlugin path None (Some raw_lib_), d)
      | Some info => Some (true, mkPlugin path (Some info) (Some raw_lib_), d)
      end.

(** The loader as [Plugins] takes it; the file system is another argument. *)
Definition system_of (files : System) (call : Z -> option PluginInfo) : System := {|
  Plugins.realpath := @realpath files; Plugins.stat := @stat files; Plugins.opendir := @opendir files; Plugins.yaml_plugins := @yaml_plugins files;
  Plugins.dlopen := fun path => match dl_open path with inl h => Some h | inr _ => None end;
  Plugins.entry_func := fun h => match dl_sym h kPluginEntryFuncName with inl f => Some (call f) | inr _ => None end
|}.

(** [Plugin::Init] over the loader is the one of [Plugins], provided that no library has an
    entry function at the address null. *)
Lemma Init_by_loader_refines files call path d :
  (forall h, dl_sym h kPluginEntryFuncName <> inl 0) ->
  exists d', Init_by_loader call path d = Some (let '(ok, p, libs) := Plugin_Init (H := system_of files call) path (handles d) in (ok, p, d')) /\
    handles d' = (Plugin_Init (H := system_of files call) path (handles d)).2.
Proof.
  intros Hnull; unfold Init_by_loader, Plugin_Init; cbn [Plugins.dlopen Plugins.entry_func system_of].
  destruct (Load_spec path [] d) as (d1 & -> & H1); destruct (dl_open path) as [h|e] eqn:E; cbn [mbind option_bind negb]; [|by exists d1].
  destruct (FindSymbol_spec h kPluginEntryFuncName 0 [] d1) as (d2 & H2 & _ & ->); [by eapply dl_open_not_null|].
  destruct (dl_sym h kPluginEntryFuncName) as [f|e] eqn:Ef; cbn; [|exists d2; by rewrite H2, H1].
  destruct (Z.eqb_spec f 0) as [->|Hf]; [by destruct (Hnull h)|].
  destruct (call f) as [info|]; cbn; exists d2; by rewrite H2, H1.
Qed.

(** A library whose entry is null makes the start crash. *)
Lemma null_entry_is_called call path h d :
  dl_open path = inl h -> dl_sym h kPluginEntryFuncName = inl 0 -> Init_by_loader call path d = None.
Proof.
  intros Ho Hs; unfold Init_by_loader; destruct (Load_spec path [] d) as (d1 & -> & _); rewrite Ho; cbn [mbind option_bind negb].
  destruct (FindSymbol_spec h kPluginEntryFuncName 0 [] d1) as (d2 & _ & _ & ->); [by eapply dl_open_not_null|]; by rewrite Hs.
Qed.

End loader.
