(* ===== verification/MonitorThreads.v ===== *)
(** * Lookups of counters by the threads of a process: src/common/monitor/monitor_status_impl.cc

    [GetCounter] and its two siblings search a cache without a lock: the process has a ring of
    maps and the index of the current one; a thread that misses takes the semaphore, copies the
    current map with the new name to the next place of the ring and then sets the index.
    [Monitor] has a lookup as one step; here its steps are those of threads that interleave. *)
From Stdlib Require Import ZArith Lia.
From stdpp Require Import base gmap list option.
From S2P Require Import Prelude Monitor.

(** Where a thread is in [GetCounter] of a name [k]: it has read the index [i] and searches its
    map, while [age] counts the indices that were set since; it has missed; it is inside with
    the cell [v]; it writes the next map; the map is written; the index is set; it returns. *)
Inductive pc : Type :=
| Idle
| Searching (k : list Z) (i age : nat)
| Missed (k : list Z)
| InSem (k : list Z) (v : nat)
| Writing (k : list Z) (v : nat)
| Written (k : list Z) (v : nat)
| Published (k : list Z) (v : nat)
| Returned (k : list Z) (v : nat).

(** The cache of one kind, the cells of the names in the file, the semaphore and the threads. *)
Record lookups : Type := mkLookups {
  ring : cache;
  file : gmap (list Z) nat;
  next_cell : nat;
  semaphore : option nat;
  pcs : list pc
}.
Definition start_lookups (threads : nat) : lookups := mkLookups new_cache ∅ 0 None (repeat Idle threads).

Definition new_index (c : cache) : nat := ((cache_map_index c + 1) mod MAX_CACHE_SIZE)%nat.
Definition age_one (p : pc) : pc := match p with Searching k i age => Searching k i (S age) | _ => p end.
Definition goes (t : nat) (p : pc) (s : lookups) : lookups := mkLookups (ring s) (file s) (next_cell s) (semaphore s) (<[t := p]> (pcs s)).

(** A step of thread [t]; [k] is the name that an idle thread looks up. *)
Definition lookup_step (t : nat) (k : list Z) (s : lookups) : option lookups :=
  p ← pcs s !! t;
  match p with
  | Idle => Some (goes t (Searching k (cache_map_index (ring s)) 0) s)
  | Searching k i age =>
      m ← cache_map (ring s) !! i;
      Some (goes t (match m !! k with Some v => Returned k v | None => Missed k end) s)
  | Missed k =>
      match semaphore s with
      | Some _ => None
      | None =>
          match file s !! k with
          | Some v => Some (mkLookups (ring s) (file s) (next_cell s) (Some t) (<[t := InSem k v]> (pcs s)))
          | None =>
              let v := next_cell s in
              Some (mkLookups (ring s) (<[k := v]> (file s)) (S v) (Some t) (<[t := InSem k v]> (pcs s)))
          end
      end
  | InSem k v => Some (goes t (match current_map (ring s) !! k with Some _ => Published k v | None => Writing k v end) s)
  | Writing k v =>
      let c := ring s in
      Some (mkLookups (mkCache (<[new_index c := <[k := v]> (current_map c)]> (cache_map c)) (cache_map_index c))
              (file s) (next_cell s) (semaphore s) (<[t := Written k v]> (pcs s)))
  | Written k v =>
      let c := ring s in
      Some (mkLookups (mkCache (cache_map c) (new_index c)) (file s) (next_cell s) (semaphore s) (age_one <$> <[t := Published k v]> (pcs s)))
  | Published k v => Some (mkLookups (ring s) (file s) (next_cell s) None (<[t := Returned k v]> (pcs s)))
  | Returned _ _ => Some (goes t Idle s)
  end.

Fixpoint lookup_run (l : list (nat * list Z)) (s : lookups) : option lookups :=
  match l with [] => Some s | (t, k) :: l => s ← lookup_step t k s; lookup_run l s end.

(** A thread writes the map that another one searches. *)
Definition map_race (s : lookups) : Prop :=
  exists t t' k v k' age, pcs s !! t = Some (Writing k v) /\ pcs s !! t' = Some (Searching k' (new_index (ring s)) age).
(** No search lasts while so many names are added that the ring comes round. *)
Definition searches_short (s : lookups) : Prop :=
  forall t k i age, pcs s !! t = Some (Searching k i age) -> (age < MAX_CACHE_SIZE - 1)%nat.

Definition inside (p : pc) : bool := match p with InSem _ _ | Writing _ _ | Written _ _ | Published _ _ => true | _ => false end.
Definition cell_of (p : pc) : option (list Z * nat) :=
  match p with InSem k v | Writing k v | Written k v | Published k v | Returned k v => Some (k, v) | _ => None end.

(** ** The invariant *)

Record LookupInv (s : lookups) : Prop := {
  li_index : (cache_map_index (ring s) < MAX_CACHE_SIZE)%nat /\ length (cache_map (ring s)) = MAX_CACHE_SIZE;
  li_maps i m k v : cache_map (ring s) !! i = Some m -> m !! k = Some v -> file s !! k = Some v;
  li_cells t p k v : pcs s !! t = Some p -> cell_of p = Some (k, v) -> file s !! k = Some v;
  li_sem t p : pcs s !! t = Some p -> inside p = true -> semaphore s = Some t;
  li_fresh k v : file s !! k = Some v -> (v < next_cell s)%nat;
  li_inj k k' v : file s !! k = Some v -> file s !! k' = Some v -> k = k';
  li_age t k i age : pcs s !! t = Some (Searching k i age) -> (i < MAX_CACHE_SIZE /\ (i + age) mod MAX_CACHE_SIZE = cache_map_index (ring s))%nat;
  li_written t k v : pcs s !! t = Some (Written k v) -> cache_map (ring s) !! new_index (ring s) = Some (<[k := v]> (current_map (ring s)))
}.

Lemma start_lookups_inv n : LookupInv (start_lookups n).
Proof.
  assert (Hp : forall t p, repeat Idle n !! t = Some p -> p = Idle).
  { intros t p Ht; apply list_elem_of_lookup_2, list_elem_of_In, repeat_spec in Ht; done. }
  constructor; cbn [ring file next_cell semaphore pcs start_lookups new_cache cache_map cache_map_index]; try (by intros *; rewrite lookup_empty).
  - split; [unfold MAX_CACHE_SIZE; lia | apply length_replicate].
  - intros i m k v [-> _]%lookup_replicate; by rewrite lookup_empty.
  - intros t p k v ->%Hp; done.
  - intros t p ->%Hp; done.
  - intros t k i age [=]%Hp.
  - intros t k v [=]%Hp.
Qed.

(** A thread that moves without touching the shared state. *)
Lemma lookup_goes t p q s :
  LookupInv s -> pcs s !! t = Some p -> inside q = inside p ->
  (forall k v, cell_of q = Some (k, v) -> file s !! k = Some v) ->
  (forall k i age, q = Searching k i age -> (i < MAX_CACHE_SIZE /\ (i + age) mod MAX_CACHE_SIZE = cache_map_index (ring s))%nat) ->
  (forall k v, q <> Written k v) -> LookupInv (goes t q s).
Proof.
  intros [H1 H2 H3 H4 H5 H6 H7 H8] Hp Hin Hcell Hsearch Hw; constructor; cbn [ring file next_cell semaphore pcs goes]; try done.
  - intros t' p' k v; rewrite list_lookup_insert_Some; intros [(<- & <- & _)|[_ Ht']]; [apply Hcell | by eapply H3].
  - intros t' p'; rewrite list_lookup_insert_Some; intros [(<- & <- & _)|[_ Ht']]; [rewrite Hin; by apply H4 | by apply H4].
  - intros t' k i age; rewrite list_lookup_insert_Some; intros [(<- & -> & _)|[_ Ht']]; [by apply (Hsearch k i age) | by eapply H7].
  - intros t' k v; rewrite list_lookup_insert_Some; intros [(<- & -> & _)|[_ Ht']]; [by destruct (Hw k v) | by eapply H8].
Qed.

Lemma current_map_lookup s : LookupInv s -> cache_map (ring s) !! cache_map_index (ring s) = Some (current_map (ring s)).
Proof.
  intros [[H1 H2] _ _ _ _ _ _ _]; unfold current_map; destruct (_ !! _) eqn:E; [done|]; apply lookup_ge_None in E; lia.
Qed.
Lemma new_index_differs s : LookupInv s -> new_index (ring s) <> cache_map_index (ring s) /\ (new_index (ring s) < MAX_CACHE_SIZE)%nat.
Proof.
  intros [[H1 _] _ _ _ _ _ _ _]; unfold new_index, MAX_CACHE_SIZE in *; pose proof (Nat.mod_upper_bound (cache_map_index (ring s) + 1) 10); split; [|lia].
  destruct (decide (cache_map_index (ring s) = 9)) as [->|]; [done|]; rewrite Nat.mod_small; lia.
Qed.

(** Entering the semaphore with the cell of the name. *)
Lemma enter_inv t k v f n s :
  LookupInv s -> pcs s !! t = Some (Missed k) -> semaphore s = None -> f !! k = Some v -> (next_cell s <= n)%nat ->
  (forall k' v', f !! k' = Some v' -> (v' < n)%nat) -> (forall k k' v, f !! k = Some v -> f !! k' = Some v -> k = k') ->
  (forall k' v', file s !! k' = Some v' -> f !! k' = Some v') ->
  LookupInv (mkLookups (ring s) f n (Some t) (<[t := InSem k v]> (pcs s))).
Proof.
  intros [H1 H2 H3 H4 H5 H6 H7 H8] Hp Hsem Hf Hn Hlt Hinj Hsub; constructor; cbn [ring file next_cell semaphore pcs]; try done.
  - intros i m k' v' Hm Hk; apply Hsub; by eapply H2.
  - intros t' p' k' v'; rewrite list_lookup_insert_Some; intros [(<- & <- & _)|[_ Ht']]; [by intros [= <- <-] | intros Hc; apply Hsub; by eapply H3].
  - intros t' p'; rewrite list_lookup_insert_Some; intros [(<- & <- & _)|[_ Ht']]; [done|]; intros Hi; rewrite (H4 t' p' Ht' Hi) in Hsem; done.
  - intros t' k' i age; rewrite list_lookup_insert_Some; intros [(<- & [=] & _)|[_ Ht']]; by eapply H7.
  - intros t' k' v'; rewrite list_lookup_insert_Some; intros [(<- & [=] & _)|[_ Ht']]; by eapply H8.
Qed.

(** The next map is written. *)
Lemma write_inv t k v s :
  LookupInv s -> pcs s !! t = Some (Writing k v) ->
  LookupInv (mkLookups (mkCache (<[new_index (ring s) := <[k := v]> (current_map (ring s))]> (cache_map (ring s))) (cache_map_index (ring s)))
              (file s) (next_cell s) (semaphore s) (<[t := Written k v]> (pcs s))).
Proof.
  intros Hi Hp; pose proof (new_index_differs s Hi) as [Hd Hlt]; pose proof (current_map_lookup s Hi) as Hcur.
  pose proof Hi as [[H1 H1'] H2 H3 H4 H5 H6 H7 H8]; constructor; cbn [ring file next_cell semaphore pcs cache_map cache_map_index]; try done.
  - split; [done | by rewrite length_insert].
  - intros i m k' v'; rewrite list_lookup_insert_Some; intros [(<- & <- & _)|[_ Hm]]; [|by eapply H2].
    rewrite lookup_insert_Some; intros [[<- <-]|[_ Hk]]; [by apply (H3 t _ k v Hp) | by eapply H2].
  - intros t' p' k' v'; rewrite list_lookup_insert_Some; intros [(<- & <- & _)|[_ Ht']]; [intros [= <- <-]; by apply (H3 t _ k v Hp) | by eapply H3].
  - intros t' p'; rewrite list_lookup_insert_Some; intros [(<- & <- & _)|[_ Ht']]; [intros _; by apply (H4 t _ Hp) | by apply H4].
  - intros t' k' i age; rewrite list_lookup_insert_Some; intros [(<- & [=] & _)|[_ Ht']]; by eapply H7.
  - assert (Hc : forall m, current_map (mkCache (<[new_index (ring s) := m]> (cache_map (ring s))) (cache_map_index (ring s))) = current_map (ring s)).
    { intros m; unfold current_map; cbn; by rewrite list_lookup_insert_ne. }
    intros t' k' v'; rewrite list_lookup_insert_Some; rewrite Hc; intros [(<- & [= <- <-] & _)|[Hne Ht']].
    + apply list_lookup_insert_eq; by rewrite H1'.
    + pose proof (H4 t _ Hp eq_refl) as Hs1; pose proof (H4 t' _ Ht' eq_refl) as Hs2; congruence.
Qed.

(** The index is set to the map that was written. *)
Lemma publish_inv t k v s :
  LookupInv s -> pcs s !! t = Some (Written k v) ->
  LookupInv (mkLookups (mkCache (cache_map (ring s)) (new_index (ring s))) (file s) (next_cell s) (semaphore s) (age_one <$> <[t := Published k v]> (pcs s))).
Proof.
  intros Hi Hp; pose proof (new_index_differs s Hi) as [_ Hlt]; pose proof Hi as [[H1 H1'] H2 H3 H4 H5 H6 H7 H8].
  assert (Haged : forall t' p', (age_one <$> <[t := Published k v]> (pcs s)) !! t' = Some p' ->
    (t' = t /\ p' = Published k v) \/ exists q, t' <> t /\ pcs s !! t' = Some q /\ p' = age_one q).
  { intros t' p'; rewrite list_lookup_fmap, fmap_Some; intros (q & Hq & ->); apply list_lookup_insert_Some in Hq as [(<- & <- & _)|[Hne Hq]]; [by left | right; exists q; split_and!; auto]. }
  constructor; cbn [ring file next_cell semaphore pcs cache_map cache_map_index]; try done.
  - intros t' p' k' v' [[-> ->]|(q & Hne & Hq & ->)]%Haged; [intros [= <- <-]; by apply (H3 t _ k v Hp)|].
    intros Hc; apply (H3 t' q k' v' Hq); by destruct q.
  - intros t' p' [[-> ->]|(q & Hne & Hq & ->)]%Haged; [intros _; by apply (H4 t _ Hp)|]; intros Hc; apply (H4 t' q Hq); by destruct q.
  - intros t' k' i age [[_ [=]]|(q & Hne & Hq & E)]%Haged; destruct q as [|k0 i0 age0| | | | | |]; try done; injection E as -> -> ->.
    destruct (H7 t' _ _ _ Hq) as [Hi0 Hmod]; split; [done|]; unfold new_index; rewrite <- Hmod, Nat.Div0.add_mod_idemp_l; f_equal; lia.
  - intros t' k' v' [[_ [=]]|(q & Hne & Hq & E)]%Haged; destruct q; try done.
    pose proof (H4 t _ Hp eq_refl) as Hs1; pose proof (H4 t' _ Hq eq_refl) as Hs2; congruence.
Qed.

Lemma leave_inv t k v s :
  LookupInv s -> pcs s !! t = Some (Published k v) -> LookupInv (mkLookups (ring s) (file s) (next_cell s) None (<[t := Returned k v]> (pcs s))).
Proof.
  intros [H1 H2 H3 H4 H5 H6 H7 H8] Hp; constructor; cbn [ring file next_cell semaphore pcs]; try done.
  - intros t' p' k' v'; rewrite list_lookup_insert_Some; intros [(<- & <- & _)|[_ Ht']]; [intros [= <- <-]; by apply (H3 t _ k v Hp) | by eapply H3].
  - intros t' p'; rewrite list_lookup_insert_Some; intros [(<- & <- & _)|[Hne Ht']]; [done|]; intros Hin.
    pose proof (H4 t _ Hp eq_refl) as Hs1; pose proof (H4 t' _ Ht' Hin) as Hs2; congruence.
  - intros t' k' i age; rewrite list_lookup_insert_Some; intros [(<- & [=] & _)|[_ Ht']]; by eapply H7.
  - intros t' k' v'; rewrite list_lookup_insert_Some; intros [(<- & [=] & _)|[_ Ht']]; by eapply H8.
Qed.

Lemma lookup_step_inv t k s s' : LookupInv s -> lookup_step t k s = Some s' -> LookupInv s'.
Proof.
  intros Hi; pose proof Hi as [[H1 _] H2 H3 _ H5 H6 _ _]; unfold lookup_step; destruct (pcs s !! t) as [p|] eqn:Hp; [|done]; cbn [mbind option_bind].
  destruct p as [|k0 i age|k0|k0 v|k0 v|k0 v|k0 v|k0 v].
  - intros [= <-]; apply (lookup_goes t Idle); try done; intros k' i age [= <- <- <-]; split; [done | rewrite Nat.add_0_r; by apply Nat.mod_small].
  - destruct (cache_map (ring s) !! i) as [m|] eqn:Em; [|done]; cbn [mbind option_bind]; intros [= <-].
    destruct (m !! k0) as [v|] eqn:Ev; apply (lookup_goes t (Searching k0 i age)); try done; intros k' v' [= <- <-]; by eapply H2.
  - destruct (semaphore s) eqn:Hs; [done|]; destruct (file s !! k0) as [v|] eqn:Ef; intros [= <-]; apply enter_inv; auto.
    + apply lookup_insert_eq.
    + intros k' v'; rewrite lookup_insert_Some; intros [[_ <-]|[_ Hk']]; [lia | apply H5 in Hk'; lia].
    + intros k1 k2 v; rewrite !lookup_insert_Some; intros [[<- <-]|[_ Hk1]] [[<- E]|[_ Hk2]]; try done; [apply H5 in Hk2; lia | apply H5 in Hk1; lia | by eapply H6].
    + intros k' v' Hk'; rewrite lookup_insert_ne; [done | congruence].
  - intros [= <-]; apply (lookup_goes t (InSem k0 v)); try done; [by destruct (current_map _ !! k0) | | by destruct (current_map _ !! k0) | by destruct (current_map _ !! k0)].
    intros k' v'; destruct (current_map _ !! k0); intros [= <- <-]; by apply (H3 t _ k0 v Hp).
  - intros [= <-]; by apply write_inv.
  - intros [= <-]; by apply publish_inv.
  - intros [= <-]; by apply leave_inv.
  - intros [= <-]; by apply (lookup_goes t (Returned k0 v)).
Qed.

Lemma lookup_run_inv l : forall s s', LookupInv s -> lookup_run l s = Some s' -> LookupInv s'.
Proof.
  induction l as [|[t k] l IH]; intros s s' Hi; cbn; [intros [= <-]; done|].
  destruct (lookup_step t k s) as [s1|] eqn:E; [|done]; cbn; intros Hr; eapply IH; [by eapply lookup_step_inv | done].
Qed.

(** ** Lookups are right, and safe while searches are short *)

(** However the threads of a process look up names: two lookups give the same cell exactly when
    they are of the same name, only one thread is inside at a time, and as long as no search
    lasts while [MAX_CACHE_SIZE - 1] names are added, no map is written that is being searched. *)
Lemma lookups_safe threads l s :
  lookup_run l (start_lookups threads) = Some s ->
  (forall t t' k k' v v', pcs s !! t = Some (Returned k v) -> pcs s !! t' = Some (Returned k' v') -> (k = k' <-> v = v')) /\
  (forall t t' p p', pcs s !! t = Some p -> pcs s !! t' = Some p' -> inside p = true -> inside p' = true -> t = t') /\
  (searches_short s -> ~ map_race s).
Proof.
  intros Hr; pose proof (lookup_run_inv l _ _ (start_lookups_inv threads) Hr) as Hi; pose proof Hi as [[H1 _] H2 H3 H4 H5 H6 H7 _]; split_and!.
  - intros t t' k k' v v' Ht Ht'; pose proof (H3 t _ k v Ht eq_refl) as Hv; pose proof (H3 t' _ k' v' Ht' eq_refl) as Hv'; split.
    + intros <-; congruence.
    + intros <-; by eapply H6.
  - intros t t' p p' Ht Ht' Hp Hp'; pose proof (H4 t p Ht Hp); pose proof (H4 t' p' Ht' Hp'); congruence.
  - intros Hs (t & t' & k & v & k' & age & Ht & Ht'); pose proof (Hs t' _ _ _ Ht') as Hage; destruct (H7 t' _ _ _ Ht') as [_ Hmod].
    unfold new_index, MAX_CACHE_SIZE in *; rewrite Nat.Div0.add_mod_idemp_l in Hmod.
    assert (E : (cache_map_index (ring s) + 1 + age = cache_map_index (ring s) + (1 + age))%nat) by lia; rewrite E in Hmod.
    destruct (decide (cache_map_index (ring s) + (1 + age) < 10)%nat) as [Hlt|Hge]; [rewrite Nat.mod_small in Hmod; lia|].
    assert (Hq : ((cache_map_index (ring s) + (1 + age)) mod 10 = cache_map_index (ring s) + (1 + age) - 10)%nat).
    { symmetry; apply (Nat.mod_unique _ 10 1); lia. }
    lia.
Qed.

(** A thread that is interrupted in its search while another one adds ten names: the tenth is
    written into the map that is searched. *)
Definition add_name (t : nat) (n : Z) : list (nat * list Z) := repeat (t, [n]) 8.
Definition slow_search : list (nat * list Z) :=
  (0, [100%Z]) :: concat (add_name 1 <$> [1; 2; 3; 4; 5; 6; 7; 8; 9]%Z) ++ repeat (1, [10%Z]) 4.
Definition races_at (t t' : nat) (s : lookups) : bool :=
  match pcs s !! t, pcs s !! t' with
  | Some (Writing _ _), Some (Searching _ i _) => (i =? new_index (ring s))%nat
  | _, _ => false
  end.
Lemma races_at_race t t' s : races_at t t' s = true -> map_race s.
Proof.
  unfold races_at; destruct (pcs s !! t) as [[]|] eqn:E; try done; destruct (pcs s !! t') as [[]|] eqn:E'; try done.
  intros ->%Nat.eqb_eq; do 6 eexists; split; [exact E | exact E'].
Qed.
Lemma slow_search_races : exists s, lookup_run slow_search (start_lookups 2) = Some s /\ map_race s.
Proof.
  assert (E : (races_at 1 0 <$> lookup_run slow_search (start_lookups 2)) = Some true) by (vm_compute; reflexivity).
  apply fmap_Some in E as (s & E & Hr); exists s; split; [exact E | by eapply races_at_race].
Qed.
