(* ===== verification/Removal.v ===== *)
(** * Removing paths while the receiver scans: src/leader/heartbeat_receiver.cc,
    src/leader/server_subscriber.cc

    [ServerSubscriber::RemovePath] takes the paths from the receiver, waits by a lock for the
    round of the receiver's thread that may still have them, and then removes their nodes.
    [Heartbeat] and [Nodes] have these operations as single steps; here the thread, callers that
    add and remove paths, and the detector interleave at the scopes of the locks. *)
From Stdlib Require Import ZArith Lia.
From stdpp Require Import base list option gmap.
From S2P Require Import Prelude Strings Nodes.

(** The thread of [StartReceive]: at the top of its loop, inside [update_lock_], in the loop over
    the copy of the paths. *)
Inductive scanner : Type := AtTop | HasLock | InRound (pathMap : list bytes).

(** A call of [RemovePath]: the paths were erased, the lock is held, it was released, the nodes
    were removed.  [untouched] tells that none of its paths was added since. *)
Inductive stage : Type := Erased | Waiting | Waited | NodesRemoved.
Record removal : Type := mkRemoval { removes : list bytes; at_stage : stage; untouched : bool }.

Inductive owner : Type := Scanner | Remover (r : nat).
Record subscriber : Type := mkSubscriber {
  paths : gset bytes;
  update_lock : option owner;
  thread : scanner;
  removals : list removal;
  nodes_of : NodeCollectionImpl
}.
Definition new_subscriber : subscriber := mkSubscriber ∅ None AtTop [] new_NodeCollectionImpl.

Definition covers (targets : list bytes) (p : bytes) : bool := existsb (is_under p) targets.

Inductive event : Type :=
| LockRound | CopyPaths | ReceiveOne (children : option (list bytes)) | UnlockRound
| AddPaths (l : list bytes) | ErasePaths (targets : list bytes) | WaitRound (r : nat) | RoundOver (r : nat) | RemoveNodes (r : nat)
| DetectBad (b : gset bytes).

Definition set_removal (r : nat) (x : removal) (s : subscriber) : subscriber :=
  mkSubscriber (paths s) (update_lock s) (thread s) (<[r := x]> (removals s)) (nodes_of s).
Definition set_lock (o : option owner) (s : subscriber) : subscriber := mkSubscriber (paths s) o (thread s) (removals s) (nodes_of s).
Definition set_thread (x : scanner) (s : subscriber) : subscriber := mkSubscriber (paths s) (update_lock s) x (removals s) (nodes_of s).
Definition set_nodes (c : NodeCollectionImpl) (s : subscriber) : subscriber := mkSubscriber (paths s) (update_lock s) (thread s) (removals s) c.

(** The thread.  A scan that has news gives the children of its path, which ZooKeeper names once
    each. *)
Definition thread_step (e : event) (s : subscriber) : option subscriber :=
  match e, thread s with
  | LockRound, AtTop => match update_lock s with None => Some (set_thread HasLock (set_lock (Some Scanner) s)) | Some _ => None end
  | CopyPaths, HasLock => Some (set_thread (InRound (elements (paths s))) s)
  | ReceiveOne None, InRound (_ :: l) => Some (set_thread (InRound l) s)
  | ReceiveOne (Some children), InRound (p :: l) =>
      if decide (NoDup children) then Some (set_nodes (UpdateHeartbeat children p (nodes_of s)) (set_thread (InRound l) s)) else None
  | UnlockRound, InRound [] => Some (set_thread AtTop (set_lock None s))
  | _, _ => None
  end.

(** [AddPaths]; a removal of one of them is not untouched any more. *)
Definition touch (l : list bytes) (x : removal) : removal :=
  mkRemoval (removes x) (at_stage x) (untouched x && negb (existsb (covers (removes x)) l)).
Definition add_step (l : list bytes) (s : subscriber) : subscriber :=
  mkSubscriber (list_to_set l ∪ paths s) (update_lock s) (thread s) (touch l <$> removals s) (nodes_of s).

(** [ServerSubscriber::RemovePath] with [HeartbeatReceiver::RemovePath]. *)
Definition remove_step (e : event) (s : subscriber) : option subscriber :=
  match e with
  | ErasePaths targets =>
      Some (mkSubscriber (filter (fun p => covers targets p = false) (paths s)) (update_lock s) (thread s)
              (removals s ++ [mkRemoval targets Erased true]) (nodes_of s))
  | WaitRound r =>
      match removals s !! r, update_lock s with
      | Some (mkRemoval targets Erased u), None => Some (set_lock (Some (Remover r)) (set_removal r (mkRemoval targets Waiting u) s))
      | _, _ => None
      end
  | RoundOver r =>
      match removals s !! r with
      | Some (mkRemoval targets Waiting u) => Some (set_lock None (set_removal r (mkRemoval targets Waited u) s))
      | _ => None
      end
  | RemoveNodes r =>
      match removals s !! r with
      | Some (mkRemoval targets Waited u) =>
          Some (set_nodes (RemovePaths targets (nodes_of s)) (set_removal r (mkRemoval targets NodesRemoved u) s))
      | _ => None
      end
  | _ => None
  end.

Definition subscriber_step (e : event) (s : subscriber) : option subscriber :=
  match e with
  | LockRound | CopyPaths | ReceiveOne _ | UnlockRound => thread_step e s
  | AddPaths l => Some (add_step l s)
  | ErasePaths _ | WaitRound _ | RoundOver _ | RemoveNodes _ => remove_step e s
  | DetectBad b => Some (set_nodes (UpdateBadNode b (nodes_of s)) s)
  end.
Fixpoint subscriber_run (l : list event) (s : subscriber) : option subscriber :=
  match l with [] => Some s | e :: l => s ← subscriber_step e s; subscriber_run l s end.

(** ** The invariant *)

Definition in_round (x : scanner) : list bytes := match x with InRound l => l | _ => [] end.

(** What an untouched removal has achieved. *)
Definition achieved (s : subscriber) (x : removal) : Prop :=
  untouched x = true -> forall p, covers (removes x) p = true ->
    p ∉ paths s /\
    (at_stage x <> Erased -> p ∉ in_round (thread s)) /\
    (at_stage x = NodesRemoved -> valid_nodes (nodes_of s) !! p = None).

Record SubscriberInv (s : subscriber) : Prop := {
  si_nodes : Nodes.Inv (nodes_of s);
  si_lock : match thread s with AtTop => update_lock s <> Some Scanner | _ => update_lock s = Some Scanner end;
  si_waiting r x : removals s !! r = Some x -> at_stage x = Waiting -> update_lock s = Some (Remover r);
  si_achieved r x : removals s !! r = Some x -> achieved s x
}.

Lemma new_subscriber_inv : SubscriberInv new_subscriber.
Proof.
  constructor; cbn; try done.
  split; cbn; [intros p l; by rewrite lookup_empty | intros p l n; by rewrite lookup_empty | intros p; rewrite !lookup_empty; done].
Qed.

(** The removals stay as they are when neither their paths nor their nodes come back. *)
Lemma achieved_mono s s' x :
  (forall p, p ∈ paths s' -> p ∈ paths s) -> (forall p, p ∈ in_round (thread s') -> p ∈ in_round (thread s) \/ p ∈ paths s) ->
  (forall p, p ∉ in_round (thread s) -> valid_nodes (nodes_of s) !! p = None -> valid_nodes (nodes_of s') !! p = None) ->
  achieved s x -> achieved s' x.
Proof.
  intros Hp Hr Hn Ha Hu p Hc; destruct (Ha Hu p Hc) as (H1 & H2 & H3); split_and!; [auto | |].
  - intros Hs Hin; destruct (Hr p Hin) as [?|?]; [by apply H2 | done].
  - intros Hs; apply Hn; [apply H2; by rewrite Hs | auto].
Qed.

Lemma thread_step_inv e s s' : SubscriberInv s -> thread_step e s = Some s' -> SubscriberInv s'.
Proof.
  intros [Hn Hl Hw Ha] Hs.
  assert (Hkeep : removals s' = removals s -> Nodes.Inv (nodes_of s') ->
    match thread s' with AtTop => update_lock s' <> Some Scanner | _ => update_lock s' = Some Scanner end ->
    (forall r, update_lock s = Some (Remover r) -> update_lock s' = Some (Remover r)) ->
    (forall x, achieved s x -> achieved s' x) -> SubscriberInv s').
  { intros Er Hn' Hl' Hw' Ha'; constructor; [done | done | |]; intros r x; rewrite Er; [eauto|]; intros Hx; apply Ha'; by apply (Ha r). }
  unfold thread_step in Hs; destruct e as [| |[children|]| |l|t|r|r|r|b], (thread s) as [| |[|p l0]] eqn:Et; try done.
  - destruct (update_lock s) eqn:El; [done|]; injection Hs as <-; apply Hkeep; cbn; try done.
    intros x; apply achieved_mono; cbn; rewrite ?Et; set_solver.
  - injection Hs as <-; apply Hkeep; cbn; try done; intros x; apply achieved_mono; cbn; rewrite ?Et; [done | | done].
    intros q; rewrite elem_of_elements; auto.
  - case_decide as Hd; [|done]; injection Hs as <-; apply Hkeep; cbn; try done; [by apply Heartbeat_Inv|].
    intros x; apply achieved_mono; cbn; rewrite ?Et; [done | set_solver |]; intros q Hq Hv; cbn in Hq; rewrite lookup_insert_ne; [done | set_solver].
  - injection Hs as <-; apply Hkeep; cbn; try done; intros x; apply achieved_mono; cbn; rewrite ?Et; set_solver.
  - injection Hs as <-; apply Hkeep; cbn; try done; [congruence|]; intros x; apply achieved_mono; cbn; rewrite ?Et; set_solver.
Qed.

Lemma add_step_inv l s : SubscriberInv s -> SubscriberInv (add_step l s).
Proof.
  intros [Hn Hl Hw Ha]; constructor; cbn; [done | done | |].
  - intros r x; rewrite list_lookup_fmap, fmap_Some; intros (y & Hy & ->); cbn; by apply Hw.
  - intros r x; rewrite list_lookup_fmap, fmap_Some; intros (y & Hy & ->) Hu p Hc; cbn in Hu, Hc; apply andb_true_iff in Hu as [Hu Hl'].
    destruct (Ha r y Hy Hu p Hc) as (H1 & H2 & H3); split_and!; cbn; auto; intros [Hin|?]%elem_of_union; [|done].
    apply elem_of_list_to_set in Hin; apply negb_true_iff in Hl'; assert (Hex : existsb (covers (removes y)) l = true); [|congruence].
    apply existsb_exists; exists p; split; [by apply list_elem_of_In | done].
Qed.

(** A removal that goes on to its next stage. *)
Lemma stage_inv r targets st st' u lock nodes s :
  SubscriberInv s -> removals s !! r = Some (mkRemoval targets st u) -> Nodes.Inv nodes ->
  match thread s with AtTop => lock <> Some Scanner | _ => lock = Some Scanner end ->
  (forall r' x, r' <> r -> removals s !! r' = Some x -> at_stage x = Waiting -> lock = Some (Remover r')) -> (st' = Waiting -> lock = Some (Remover r)) ->
  (forall p, valid_nodes (nodes_of s) !! p = None -> valid_nodes nodes !! p = None) ->
  (st' <> Erased -> st = Erased -> thread s = AtTop) ->
  (st' = NodesRemoved -> forall p, covers targets p = true -> valid_nodes nodes !! p = None) ->
  SubscriberInv (mkSubscriber (paths s) lock (thread s) (<[r := mkRemoval targets st' u]> (removals s)) nodes).
Proof.
  intros [Hn Hl Hw Ha] Hr Hi Hlock Hoth Hself Hmono Htop Hrem; constructor; cbn; [done | done | |].
  - intros r' x; rewrite list_lookup_insert_Some; intros [(<- & <- & _)|[Hne Hx]]; [apply Hself | intros Hst; apply (Hoth r' x); auto].
  - intros r' x; rewrite list_lookup_insert_Some; intros [(<- & <- & _)|[Hne Hx]] Hu p Hc; cbn in *.
    + destruct (Ha r _ Hr Hu p Hc) as (H1 & H2 & _); cbn in H2; split_and!; [done | | intros Hst; by apply Hrem].
      intros Hst; destruct st; [by rewrite (Htop Hst eq_refl); apply not_elem_of_nil | by apply H2..].
    + destruct (Ha r' x Hx Hu p Hc) as (H1 & H2 & H3); split_and!; auto.
Qed.

Lemma remove_step_inv e s s' : SubscriberInv s -> remove_step e s = Some s' -> SubscriberInv s'.
Proof.
  intros Hi Hs; pose proof Hi as [Hn Hl Hw Ha]; unfold remove_step in Hs; destruct e as [| |[children|]| |l|t|r|r|r|b]; try done.
  - injection Hs as <-; constructor; cbn; [done | done | |].
    + intros r x [Hx|[Hlen Hx]]%lookup_app_Some; [by apply Hw | apply list_lookup_singleton_Some in Hx as [_ <-]; done].
    + intros r x [Hx|[Hlen Hx]]%lookup_app_Some.
      * apply (achieved_mono s); cbn; [set_solver | auto | auto | by apply (Ha r)].
      * apply list_lookup_singleton_Some in Hx as [_ <-]; intros _ p Hc; cbn in *; split_and!; [|done..]; rewrite elem_of_filter; intros [Hf _]; unfold covers in *; congruence.
  - destruct (removals s !! r) as [[targets [] u]|] eqn:Er; try done; destruct (update_lock s) eqn:El; [done|]; injection Hs as <-.
    assert (Ht : thread s = AtTop) by (destruct (thread s); congruence).
    apply (stage_inv r targets Erased Waiting u (Some (Remover r)) (nodes_of s) s Hi Er Hn); try done; [by rewrite Ht|].
    intros r' x Hne Hx Hst; specialize (Hw r' x Hx Hst); done.
  - destruct (removals s !! r) as [[targets [] u]|] eqn:Er; try done; injection Hs as <-.
    pose proof (Hw r _ Er eq_refl) as Hlr; assert (Ht : thread s = AtTop) by (destruct (thread s); congruence).
    apply (stage_inv r targets Waiting Waited u None (nodes_of s) s Hi Er Hn); try done; [by rewrite Ht|].
    intros r' x Hne Hx Hst; rewrite (Hw r' x Hx Hst) in Hlr; congruence.
  - destruct (removals s !! r) as [[targets [] u]|] eqn:Er; try done; injection Hs as <-.
    destruct (Remove_correct targets (nodes_of s) Hn) as (Hn' & _ & Hv).
    apply (stage_inv r targets Waited NodesRemoved u (update_lock s) (RemovePaths targets (nodes_of s)) s Hi Er Hn'); try done.
    + intros r' x _ Hx Hst; by apply (Hw r' x).
    + intros p Hp; rewrite Hv; apply map_lookup_filter_None; by left.
    + intros _ p Hc; rewrite Hv; apply map_lookup_filter_None; right; intros x _; cbn; unfold covers in Hc; by rewrite Hc.
Qed.

Lemma subscriber_run_inv l : forall s s', SubscriberInv s -> subscriber_run l s = Some s' -> SubscriberInv s'.
Proof.
  induction l as [|e l IH]; intros s s' Hi; cbn; [by intros [= <-]|].
  destruct (subscriber_step e s) as [s1|] eqn:E; [|done]; cbn; apply IH.
  destruct e as [| |c| |l'|t|r|r|r|b];
    [exact (thread_step_inv LockRound s s1 Hi E) | exact (thread_step_inv CopyPaths s s1 Hi E) | exact (thread_step_inv (ReceiveOne c) s s1 Hi E)
    | exact (thread_step_inv UnlockRound s s1 Hi E) | | exact (remove_step_inv (ErasePaths t) s s1 Hi E) | exact (remove_step_inv (WaitRound r) s s1 Hi E)
    | exact (remove_step_inv (RoundOver r) s s1 Hi E) | exact (remove_step_inv (RemoveNodes r) s s1 Hi E) | ]; injection E as <-; [by apply add_step_inv|].
  destruct Hi as [Hn Hl Hw Ha]; destruct (BadNodes_correct b (nodes_of s) Hn) as [Hn' Hv]; constructor; cbn; try done.
  intros r x Hx; apply (achieved_mono s); cbn; auto; [|by apply (Ha r)].
  intros p _ Hp; rewrite Hv, lookup_fmap, Hp; done.
Qed.

(** ** A path that was removed stays removed *)

(** C8: however rounds of the receiver, callers that add and remove paths and the detector
    interleave at the scopes of the locks: when a call of [RemovePath] has returned, and as long as
    neither its paths nor paths under them are added again, the receiver does not have them, no
    node is counted and none is picked for any of them, although a round of the receiver that had
    copied them before was still running and a scan may have brought their nodes back. *)
Theorem removed_paths_stay l s r targets p :
  subscriber_run l new_subscriber = Some s -> removals s !! r = Some (mkRemoval targets NodesRemoved true) -> covers targets p = true ->
  p ∉ paths s /\ GetNodeCount p (nodes_of s) = 0 /\ (PickOneNode p (nodes_of s)).1 = None.
Proof.
  intros Hr Hx Hc; pose proof (subscriber_run_inv l _ _ new_subscriber_inv Hr) as [_ _ _ Ha].
  destruct (Ha r _ Hx eq_refl p Hc) as (H1 & _ & H3); cbn in H3; specialize (H3 eq_refl); split_and!; [done | unfold GetNodeCount; by rewrite H3|].
  unfold PickOneNode; rewrite H3; by destruct (round_robin_index_map _ !! p).
Qed.

(** A path is removed while a round has copied it; the round finds a node and adds it before the
    call can go on. *)
Definition svc : bytes := [47; 97]%Z.
Definition removed_in_round : list event :=
  [AddPaths [svc]; LockRound; CopyPaths; ErasePaths [svc]; ReceiveOne (Some [[49%Z]]); UnlockRound; WaitRound 0; RoundOver 0; RemoveNodes 0].
Lemma removed_paths_stay_witness :
  exists s, subscriber_run removed_in_round new_subscriber = Some s /\ GetNodeCount svc (nodes_of s) = 0 /\ (PickOneNode svc (nodes_of s)).1 = None.
Proof.
  destruct (subscriber_run removed_in_round new_subscriber) as [s|] eqn:E; [|vm_compute in E; discriminate E].
  assert (Hr : removals s !! 0 = Some (mkRemoval [svc] NodesRemoved true)) by (vm_compute in E; injection E as <-; reflexivity).
  assert (Hc : covers [svc] svc = true) by (vm_compute; reflexivity).
  destruct (removed_paths_stay removed_in_round s 0 [svc] svc E Hr Hc) as (_ & H1 & H2).
  exists s; split; [reflexivity|]; split; [exact H1 | exact H2].
Defined.

(** Without the wait a round brings the nodes of a removed path back: the path is erased and its
    nodes removed while the round has it. *)
Definition round_in_progress : option subscriber := subscriber_run [AddPaths [svc]; LockRound; CopyPaths; ErasePaths [svc]] new_subscriber.
Example wait_is_needed :
  (s ← round_in_progress; let s := set_nodes (RemovePaths [svc] (nodes_of s)) s in
   s ← subscriber_step (ReceiveOne (Some [[49%Z]])) s; Some (GetNodeCount svc (nodes_of s))) = Some 1.
Proof. vm_compute; reflexivity. Qed.
